(* ===== verification/_CoqProject ===== *)
-Q . S2P
Prelude.v
HpackInt.v
HpackTables.v
HpackHuffman.v
Probing.v
HpackTable.v
HpackIndex.v
HpackDecoder.v
HpackEncoder.v
HpackRoundtrip.v
QuicVarint.v
QuicRanges.v
QuicRecv.v
QuicSend.v
QuicPacket.v
QuicFrames.v
QuicCid.v
QuicParams.v
QuicStream.v
QuicSent.v
QuicCongestion.v
QuicMtu.v
QuicFlow.v
QuicOut.v
QuicWake.v
QuicConn.v
QuicStep.v
QuicRun.v
QuicDeliver.v
QuicLeak.v
WsUtf8.v
WsFrame.v
WsStream.v
WsRoundtrip.v
WsConn.v
WsDeflate.v
Strtab.v
QpackCodec.v
QpackTable.v
QpackDecoder.v
QpackEncoder.v
QpackRoundtrip.v
QpackStreams.v
QpackSystem.v
QpackLimits.v
QpackFlush.v
H2Frame.v
H2Roundtrip.v
H2Send.v
H2Flush.v
H2Answers.v
H2Run.v
QuicLoss.v
QuicRecover.v
QuicReliable.v
