(* ===== verification/Prelude.v ===== *)
(** * The protocol core of fib

    fib is a Go library of network servers and clients: an event-driven engine
    (src/core) carries TCP, TLS and UDP connections, and on it stand HTTP/1.1 and
    HTTP/2 (src/http), HTTP/3 over its own QUIC (src/http3, src/http3/quic),
    WebSocket (src/websocket) and further protocols. This library models the parts
    in which the protocols' own logic lies: what turns application data into bytes
    and back, keeps streams whole, and bounds what a peer can make the program do.
    It leaves to the Go tests what is glue: sockets, pollers, goroutines, pools.

    ** How the parts fit together

    A header block of HTTP/2 goes through HPACK: the encoder and the decoder each
    keep a dynamic table, which must stay in step. The blocks and the bodies of
    many streams then share one connection in frames, which the windows of the
    connection and of each stream hold back. HTTP/3 uses QPACK, whose tables are
    kept in step by two streams of their own while sections overtake them. An
    HTTP/3 connection is a QUIC connection: streams are cut into frames by the send buffer, frames are put into
    packets, packets are numbered, sealed and acknowledged, and the receive buffer
    of the other side puts the stream together again. A WebSocket connection cuts
    messages into frames, masks and compresses them; the parser at the other end
    reads them from a stream that arrives in reads of any size.

    ** Files

    - Prelude: Go's integers and bytes, slices, results, sort.Search, tactics and
      the hint databases [fib] and [fibz].
    - HpackInt (hpack.go: readInt, appendInt), HpackTables (tables.go),
      HpackHuffman (huffman.go), Probing (the interface of an open-addressing
      table), HpackTable and HpackIndex (hpack.go, index.go: the dynamic table and
      its two hash tables), HpackDecoder and HpackEncoder (hpack.go), and
      HpackRoundtrip (a connection's whole sequence of header blocks).
    - QuicVarint (varint.go), QuicRanges (buffer.go: addSpan, rangeSet), QuicRecv
      and QuicSend (buffer.go: recvBuffer, sendBuffer), QuicPacket (packet.go,
      send.go: headers, packet numbers, header protection, sealing), QuicFrames
      (frames.go), QuicCid (cid.go: connection IDs at both ends), QuicParams
      (params.go: transport parameters).
    - QuicStream (stream.go, conn.go, blocked.go, frames.go, send.go, recovery.go,
      flood.go: the streams of a connection, both sides of each, their limits, the
      frames about them and the packets that carry them), QuicFlow (receiving: the
      limits given are kept), QuicOut (sending: the limits met are, and nothing is
      forgotten), QuicWake (who has something to send is queued), QuicConn (all
      streams of a connection together), QuicStep (each frame, call, packet and
      report keeps what they promise), QuicRun (any sequence of them), QuicDeliver
      (what the application gets), QuicLeak (credit that does not come back).
    - QuicSent (sent.go: the ring of packets sent), QuicCongestion (congestion.go:
      the window, by NewReno, CUBIC and HyStart++), QuicMtu (pmtud.go: path MTU
      discovery), QuicLoss (recovery.go: acknowledgement, loss, probe timeouts),
      QuicRecover (what each of its operations does to the packets), QuicReliable
      (any sequence of them, with the streams of QuicStream underneath).
    - Strtab (src/internal/strtab: the table of static names), QpackCodec (qpack.go,
      table.go: integers, strings, static table), QpackTable (table.go: the ring),
      QpackDecoder (decoder.go, qpack.go), QpackEncoder (encoder.go), QpackRoundtrip
      (one section), QpackStreams (the two instruction streams), QpackSystem (both
      endpoints and all that is on its way), QpackLimits (the encoder against any
      peer, and where it goes wrong), QpackFlush (goroutines that write the encoder
      stream).
    - H2Frame (h2_frame.go, and the reading side of h2_server.go: frames, header
      blocks in several frames, errors and floods), H2Roundtrip (what one side
      writes the other reads), H2Send (h2_server.go: streams, answers, windows,
      settings, resets, and the queue in which streams take turns), H2Flush (what a
      turn and a whole flush send), H2Answers (answers, settings and resets), H2Run
      (any sequence of all of them).
    - WsUtf8 (utf8.go), WsFrame (frame.go: the parser and the writers), WsStream
      (the parser does not see where reads end), WsRoundtrip (what one side sends
      the other gets), WsConn (handler.go, deflate.go, prepared.go: a connection
      as the application and the peer use it), WsDeflate (deflate.go, token.go:
      the negotiation of permessage-deflate).

    Each file has one Module, named after its component, with the state as a
    Record, the source's operations under the source's names, their lemmas, and at
    the end the properties and a use of each at a concrete input.

    ** What is proved

    - HPACK: every sequence of header blocks, with changes of the table size in
      between, is decoded to what was encoded ([hpack_session]); the hash tables
      find exactly what a scan of the entries finds ([searchTable_exact]), and the
      table with them refines the plain list of entries ([table_refines]); the
      decoder returns a result on any bytes ([Decode_total]) and its caches never
      show ([Decode_caches_invisible]); the nibble-driven Huffman decoder is the
      code of RFC 7541 ([huffmanDecode_exact]); integers round trip.
    - QPACK: in every run of allowed events, which are sections and instruction
      streams in any order and in any pieces, both ends accept what they get, each
      stream gets the fields sent on it, and no more streams wait than may
      ([qpack_delivers]), and nothing waits for ever ([qpack_no_deadlock]); against
      any peer each endpoint keeps its table and limits ([qpack_encoder_safe],
      [qpack_decoder_safe]); remembered strings never show
      ([recent_strings_invisible]); instructions are written in order
      ([flush_in_order]). Allowed ([allowed]) is the receipt of a section within the
      limits of its receiver, on a stream not given up, after the sections that no
      longer have to wait if it has to, and within the window of the encoding of the
      required insert count, which the encoder can leave
      ([required_insert_count_confused]).
    - HTTP/2: header blocks and frames reach the other end as they were sent, in
      reads of any size ([h2_headers_delivered], [h2_frames_delivered]), and a
      reader holds no more than it may ([h2_reads_bounded]); whatever a peer and the
      handlers do, and however the socket fills up, the bodies of the streams go out
      in order and whole, within the windows ([h2_bodies_delivered]), and after a
      window update nothing is left that could go ([h2_window_update]). The first
      takes answers that do not ask for the connection to close, for the end of one
      that does can be lost ([h2_close_truncates]); a stream's reset can overtake
      its last data ([h2_reset_before_data]), and a header block that is not decoded
      puts the tables out of step ([h2_priority_desync]).
    - QUIC: frames in any order, overlapping and repeated, are delivered as a
      prefix of the stream ([recv_delivers]); under any interleaving of writes,
      sends, losses and acknowledgements no unacknowledged byte is forgotten
      ([send_reliable]); packets, packet numbers, ACK frames and transport
      parameters round trip; whatever packets arrive, the application calls, and is
      acknowledged or lost, a connection hands on each stream's bytes in order and
      once, with the end last ([quic_delivery]), holds its peer to the limits it
      gave ([quic_flow_control]), keeps to those it was given ([quic_send_limits]),
      fills packets with what was written ([quic_packet_sound],
      [stream_frame_roundtrip]), counts a stream as done only when all of it was
      acknowledged, and is quiet only when there is nothing left to do
      ([quic_quiescent]). Two things it gets wrong: the credit of what a stopped
      stream held can be lost for good ([stopped_credit_lost]), and a packet can be
      too long by a few bytes ([packet_overfull]); what a peer sends cannot put the connection IDs, the
      ranges or the parameters out of order or over their bounds
      ([newcid_invariant], [local_cids_safe], [ack_ranges_safe],
      [parseParams_safe], [rangeSet_add], [push_ok], [parseHeader_bounds]).
    - QUIC's loss detection: the ring of packets is a map from their numbers
      ([sent_queue_refines]); whatever is acknowledged and whenever timers fire, the
      streams see one of the runs of QuicRun, in which each packet is acknowledged
      or lost once ([recovery_refines]), what is counted is what is in flight
      ([recovery_counts]), and a connection with nothing in flight and nothing
      queued has nothing left to do ([recovery_quiescent]); an ACK frame takes what
      it names ([ack_takes]), and a packet is lost by count or by time, with the
      timer set for the next ([loss_detection]). The window of NewReno stays within
      bounds ([newreno_window], [newreno_round]), and shrinks once a round trip of
      losses, as CUBIC's does ([one_reduction]). Path MTU discovery settles, close
      to what the path carries ([mtu_search]).
    - WebSocket: messages written at one end, compressed or not, within the limits
      of the other, reach the handler there, whole and in order, whatever the reads,
      up to where it closes the connection ([messages_delivered],
      [frames_roundtrip]); where reads end makes no difference ([feed_chunking]),
      nor does lending the read buffer ([borrowed_reads]); serving a connection is
      answering its events in turn as RFC 6455 has them answered ([serve_reads]) and nothing follows a Close
      ([close_is_last]); a prepared message is the message ([prepared_same]); text
      is checked as it arrives exactly as UTF-8 asks ([utf8_incremental]); masking
      by words is masking by bytes ([applyMask_exact]); the two ends agree on
      permessage-deflate ([offers_agree], [offer_exact], [ends_match]).

    ** Choices

    Go's unsigned integers are [Z] with the wrap-around written out where it can
    happen; slices and strings are lists of bytes, and a capacity is only modelled
    where the code's result depends on it. A Go function that returns an error
    returns [res]; an index that the code beside it does not keep in range is [None]
    out of range, for the panic it is, or, in the ring of packets sent, a mark on the
    ring that ends the step with [None]. A loop that is not structural takes fuel,
    and running out is [None] or, where the code has a refusal of its own, [Unfinished], apart from
    every result: the properties show results, so the fuel
    given (the length of the input, plus the turns that take no input; [turns] for
    a flush of HTTP/2; the room left in a packet, and the streams queued, for a
    packet of QUIC; the packet numbers walked through, for its loss detection) is
    enough. A run of a QUIC connection is bounded by what its
    counters hold: the windows times the bytes received are to stay below 2^62, the
    largest number a frame can carry, and so is what is written; with loss detection,
    the bytes sent are to stay below 2^64. Times and durations are nanoseconds in [Z],
    with the wrap-around of the sums that are multiplied, and the zero Time is [None];
    float64 is the standard library's SpecFloat, rounded after every operation, as the
    language does on machines that do not fuse them, and math.Cbrt is a parameter.
    Code that is not in the repository is a parameter with its documented
    behaviour as hypotheses: maphash (any function), the AEAD and the header
    protection mask (decryption inverts encryption; any mask), compress/flate
    ([FlateLaws]), random bytes (any), the transport under a WebSocket and what the socket of an
    HTTP/2 connection leaves room for (any answer), the order in which Go walks a
    map (any), the budgets of floods, which depend on time (any answers).
    Where several goroutines use a structure under a lock, the steps between locks
    are interleaved in any order (QuicCid, QuicSend, QpackFlush); the calls of a
    WebSocket connection, and those of an HTTP/2 connection, which hold its lock,
    are taken one after the other, as are those of a QUIC connection's streams. A
    stream of QUIC that is done stays in the model's map, out of reach of frames, for
    the records of sent packets still refer to it.

    ** Not modelled

    The engine, its pollers and connections (src/core), TLS, the HTTP/1.1 and
    HTTP/3 servers and clients, the HTTP/2 client, and of the HTTP/2 server the
    bodies of requests, tunnels, pushes and responses that stream, the QUIC
    handshake, migration and pacer, the WebSocket opening handshake,
    KCP, WebRTC, media, BitTorrent, gRPC, ARPC, SOCKS, middleware and the utilities:
    sockets, timers and the standard library's types make up most of them. Of
    these, the bodies of HTTP/2 requests would come next. Of the streams of
    QUIC, the callbacks of writers that wait for room, the reuse of a finished
    stream's memory and the close that waits for the last stream are left
    out; the frames of other kinds in a packet end a run. Of its loss detection, the
    pools of packet records, a client's Retry, the timer of the connection, which is
    set by the caller, and the choice of when to send are left out. *)

From stdpp Require Import base list numbers gmap sorting.
From Stdlib Require Import ZArith Lia.
From Stdlib Require Ascii String.

Local Open Scope Z_scope.

(** ** Machine integers and bytes *)

(** Go's unsigned integers are [Z] with the wrap-around of their width written
    out where the code can overflow. *)
Definition u8 (x : Z) : Z := x mod 2 ^ 8.
Definition u16 (x : Z) : Z := x mod 2 ^ 16.
Definition u32 (x : Z) : Z := x mod 2 ^ 32.
Definition u64 (x : Z) : Z := x mod 2 ^ 64.

(** Go's bit operations, in a scope of their own. *)
Declare Scope go_scope.
Delimit Scope go_scope with go.
Notation "x '.&' y" := (Z.land x y) (at level 40, left associativity) : go_scope.
Notation "x '.|' y" := (Z.lor x y) (at level 50, left associativity) : go_scope.
Notation "x '.^' y" := (Z.lxor x y) (at level 50, left associativity) : go_scope.
Notation "x '.<<' y" := (Z.shiftl x y) (at level 40, left associativity) : go_scope.
Notation "x '.>>' y" := (Z.shiftr x y) (at level 40, left associativity) : go_scope.

(** A [[]byte] or a Go string: the bytes it holds, each in [[0, 256)]. *)
Abbreviation bytes := (list Z).

Definition is_byte (b : Z) : Prop := 0 <= b < 256.

Definition bytes_ok (s : bytes) : Prop := Forall is_byte s.

(** The bytes of a Go string literal. *)
Fixpoint str (s : String.string) : bytes :=
  match s with
  | String.EmptyString => []
  | String.String c s => Z.of_N (Ascii.N_of_ascii c) :: str s
  end.

Arguments str s%_string_scope.
Export String.StringSyntax.

(** [len] as the [int] Go computes with. *)
Definition len {A} (l : list A) : Z := Z.of_nat (length l).

(** Slicing with [int] bounds that are in range. *)
Definition zdrop {A} (n : Z) (l : list A) : list A := drop (Z.to_nat n) l.
Definition ztake {A} (n : Z) (l : list A) : list A := take (Z.to_nat n) l.

(** ** Results: a Go function returning [(T, error)] *)

Inductive res (E A : Type) : Type :=
| Ok (a : A)
| Err (e : E).

Arguments Ok {E A} _.
Arguments Err {E A} _.

#[export] Instance res_ret {E} : MRet (res E) := fun A a => Ok a.
#[export] Instance res_bind {E} : MBind (res E) :=
  fun A B f m => match m with Ok a => f a | Err e => Err e end.

#[export] Instance res_eq_dec {E A} `{EqDecision E, EqDecision A} : EqDecision (res E A).
Proof. solve_decision. Defined.

(** A loop over a list that may stop without a result. *)
Fixpoint foldM {S A} (step : S -> A -> option S) (s : S) (l : list A) : option S :=
  match l with
  | [] => Some s
  | a :: l => match step s a with None => None | Some s => foldM step s l end
  end.

(** ** Automation *)

Create HintDb fib discriminated.
Create Rewrite HintDb fibz.

(** Case analysis on the boolean comparisons the code branches on. *)
Ltac bool_cases :=
  repeat match goal with
  | H : context [?x <? ?y] |- _ => destruct (Z.ltb_spec x y)
  | |- context [?x <? ?y] => destruct (Z.ltb_spec x y)
  | H : context [?x <=? ?y] |- _ => destruct (Z.leb_spec x y)
  | |- context [?x <=? ?y] => destruct (Z.leb_spec x y)
  | H : context [?x =? ?y] |- _ => destruct (Z.eqb_spec x y)
  | |- context [?x =? ?y] => destruct (Z.eqb_spec x y)
  end.

(** Split conjunctions, and nothing else. *)
Ltac splits := repeat match goal with |- _ /\ _ => split end.

(** ** Arithmetic and bits *)

Lemma u8_byte x : is_byte (u8 x).
Proof. apply (Z.mod_pos_bound x 256); lia. Qed.

Lemma u8_id x : is_byte x -> u8 x = x.
Proof. intros [? ?]; apply Z.mod_small; change (2 ^ 8) with 256; lia. Qed.

Lemma u16_id x : 0 <= x < 2 ^ 16 -> u16 x = x.
Proof. intros; now apply Z.mod_small. Qed.

Lemma u64_id x : 0 <= x < 2 ^ 64 -> u64 x = x.
Proof. intros; now apply Z.mod_small. Qed.

Lemma u64_range x : 0 <= u64 x < 2 ^ 64.
Proof. now apply Z.mod_pos_bound. Qed.

Lemma u16_range x : 0 <= u16 x < 2 ^ 16.
Proof. now apply Z.mod_pos_bound. Qed.

#[export] Hint Resolve u8_byte : fib.

(** A fact about bytes that a computation over the 256 of them decides. *)
Definition all_bytes (P : Z -> bool) : bool := forallb (fun n => P (Z.of_nat n)) (seq 0 256).

Lemma all_bytes_spec P b : all_bytes P = true -> is_byte b -> P b = true.
Proof.
  unfold all_bytes, is_byte. rewrite forallb_forall. intros H [? ?].
  rewrite <- (Z2Nat.id b) by lia. apply H, in_seq. lia.
Qed.

(** The same of the numbers of [n] bits, as the low bits of a byte are. *)
Lemma lead (P : Z -> bool) n x :
  all_bytes (fun b => implb (b <? 2 ^ n) (P b)) = true -> 0 <= x < 2 ^ n -> n <= 8 -> P x = true.
Proof.
  intros H Hx Hn. assert (2 ^ n <= 2 ^ 8) by (apply Z.pow_le_mono_r; lia).
  pose proof (all_bytes_spec _ x H ltac:(unfold is_byte; lia)) as Hi. cbn beta in Hi.
  now rewrite (proj2 (Z.ltb_lt _ _)) in Hi by lia.
Qed.

(** [byte_check b] proves a closed-up-to-[b] boolean equation on a byte by
    evaluating it at every byte. *)
Ltac byte_check b :=
  match goal with
  | Hb : is_byte b |- @eq Z ?l ?r =>
      let P := eval pattern b in (l =? r) in
      match P with ?f _ =>
        apply Z.eqb_eq; apply (all_bytes_spec f b); [vm_compute; reflexivity | exact Hb] end
  | Hb : is_byte b |- @eq bool ?l ?r =>
      let P := eval pattern b in (Bool.eqb l r) in
      match P with ?f _ =>
        apply Bool.eqb_prop; apply (all_bytes_spec f b); [vm_compute; reflexivity | exact Hb] end
  end.

Lemma land_low_bits x n : 0 <= n -> Z.land x (2 ^ n - 1) = x mod 2 ^ n.
Proof. intros. rewrite <- Z.land_ones, Z.ones_equiv by lia. f_equal. Qed.

Lemma land_127 x : Z.land x 127 = x mod 128.
Proof. apply (land_low_bits x 7); lia. Qed.

Lemma land_128_byte b : is_byte b -> (Z.land b 128 =? 0) = (b <? 128).
Proof. intros. byte_check b. Qed.

Lemma lor_128_byte b : is_byte b -> Z.lor b 128 = 128 + b mod 128.
Proof. intros. byte_check b. Qed.

(** OR of a multiple of [2^n] and a number below [2^n] is their sum. *)
Lemma lor_disjoint a b n : 0 <= n -> a mod 2 ^ n = 0 -> 0 <= b < 2 ^ n -> Z.lor a b = a + b.
Proof.
  intros Hn Ha Hb.
  rewrite <- (Z.mod_small b (2 ^ n)) by lia.
  rewrite (Z.div_mod a (2 ^ n)), Ha, Z.add_0_r by lia.
  rewrite (Z.mul_comm (2 ^ n)), <- Z.shiftl_mul_pow2, <- Z.land_ones by lia.
  symmetry. rewrite <- Z.lxor_lor; [apply Z.add_nocarry_lxor|];
  apply Z.bits_inj'; intros i Hi; rewrite Z.land_spec, Z.bits_0;
  (destruct (Z.lt_ge_cases i n);
   [rewrite Z.shiftl_spec_low by lia | rewrite Z.land_spec, Z.ones_spec_high by lia];
   rewrite ?andb_false_r, ?andb_false_l; reflexivity).
Qed.

Lemma bound_testbit x n : 0 <= n -> 0 <= x -> (forall i, n <= i -> Z.testbit x i = false) -> x < 2 ^ n.
Proof.
  intros Hn Hx H. destruct (Z.eq_dec x 0) as [->|]; [lia|].
  destruct (Z.lt_ge_cases x (2 ^ n)) as [|Hge]; [assumption|]. exfalso.
  assert (n <= Z.log2 x) by (apply Z.log2_le_pow2; lia).
  specialize (H (Z.log2 x) ltac:(lia)). rewrite Z.bit_log2 in H by lia. discriminate.
Qed.

Lemma testbit_small x n i : 0 <= x < 2 ^ n -> 0 <= n <= i -> Z.testbit x i = false.
Proof.
  intros Hx Hi. rewrite <- (Z.mod_small x (2 ^ n)) by lia. apply Z.mod_pow2_bits_high. lia.
Qed.

Lemma lor_bound a b n : 0 <= n -> 0 <= a < 2 ^ n -> 0 <= b < 2 ^ n -> 0 <= Z.lor a b < 2 ^ n.
Proof.
  intros Hn Ha Hb. split; [apply Z.lor_nonneg; lia|].
  apply bound_testbit; [lia|apply Z.lor_nonneg; lia|].
  intros i Hi. now rewrite Z.lor_spec, !(testbit_small _ n) by lia.
Qed.

Lemma lxor_bound a b n : 0 <= n -> 0 <= a < 2 ^ n -> 0 <= b < 2 ^ n -> 0 <= Z.lxor a b < 2 ^ n.
Proof.
  intros Hn Ha Hb. assert (0 <= Z.lxor a b) by (apply Z.lxor_nonneg; lia).
  split; [assumption|]. apply bound_testbit; [lia|assumption|].
  intros i Hi. now rewrite Z.lxor_spec, !(testbit_small _ n) by lia.
Qed.

(** The least non-negative integer that satisfies a test one satisfies. *)
Lemma least_Z (P : Z -> bool) b :
  0 <= b -> P b = true ->
  exists d, 0 <= d <= b /\ P d = true /\ forall d', 0 <= d' < d -> P d' = false.
Proof.
  intros Hb. revert P. pattern b. apply natlike_ind; [| |exact Hb]; clear b Hb.
  - intros P H. exists 0. repeat split; auto; lia.
  - intros b Hb IH P H. destruct (P 0) eqn:E0.
    + exists 0. repeat split; auto; lia.
    + destruct (IH (fun x => P (Z.succ x)) H) as (d & Hd & HP & Hlt).
      exists (Z.succ d). split; [lia|]. split; [exact HP|]. intros d' Hd'.
      destruct (Z.eq_dec d' 0) as [->|]; [exact E0|].
      rewrite <- (Hlt (d' - 1)) by lia. f_equal. lia.
Qed.

(** ** Lists *)

Lemma len_nonneg {A} (l : list A) : 0 <= len l.
Proof. unfold len; lia. Qed.

Lemma len_app {A} (l k : list A) : len (l ++ k) = len l + len k.
Proof. unfold len. rewrite length_app. lia. Qed.

Lemma len_cons {A} (x : A) l : len (x :: l) = 1 + len l.
Proof. unfold len; cbn [length]; lia. Qed.

Lemma len_nil {A} : len (@nil A) = 0.
Proof. reflexivity. Qed.

#[export] Hint Rewrite @len_app @len_cons @len_nil : fibz.

Lemma lookup_nth {A} (l : list A) i d : (i < length l)%nat -> l !! i = Some (nth i l d).
Proof.
  revert i. induction l as [|x l IH]; intros [|i] Hi; cbn in *; try lia; [reflexivity|].
  apply IH. lia.
Qed.

(** Whether every element is a byte, to decide [bytes_ok] on concrete input. *)
Definition bytes_okb (s : bytes) : bool := forallb (fun b => (0 <=? b) && (b <? 256)) s.

Lemma bytes_okb_ok s : bytes_okb s = true -> bytes_ok s.
Proof.
  unfold bytes_okb, bytes_ok. rewrite forallb_forall, List.Forall_forall. intros H b Hb. apply H in Hb.
  apply andb_true_iff in Hb as [H1 H2]. apply Z.leb_le in H1. apply Z.ltb_lt in H2. now split.
Qed.

Lemma bytes_ok_app s t : bytes_ok (s ++ t) <-> bytes_ok s /\ bytes_ok t.
Proof. apply Forall_app. Qed.

Lemma ztake_app {A} (s rest : list A) : ztake (len s) (s ++ rest) = s.
Proof. unfold ztake, len. rewrite Nat2Z.id. apply take_app_length. Qed.

Lemma zdrop_app {A} (s rest : list A) : zdrop (len s) (s ++ rest) = rest.
Proof. unfold zdrop, len. rewrite Nat2Z.id. apply drop_app_length. Qed.

Lemma len_zdrop {A} n (l : list A) : 0 <= n <= len l -> len (zdrop n l) = len l - n.
Proof. intros Hn. unfold len, zdrop in *. rewrite length_drop. lia. Qed.

Lemma len_ztake {A} n (l : list A) : 0 <= n <= len l -> len (ztake n l) = n.
Proof. intros Hn. unfold len, ztake in *. rewrite length_take. lia. Qed.

(** ** Byte streams *)

(** [data] is what the stream holds from [off] on. *)
Definition agrees (content : Z -> Z) (off : Z) (data : bytes) : Prop :=
  forall k d, data !! k = Some d -> d = content (off + Z.of_nat k).

Lemma agrees_nil content off : agrees content off [].
Proof. intros k d H. discriminate. Qed.

Lemma agrees_drop content off data n : 0 <= n -> agrees content off data -> agrees content (off + n) (zdrop n data).
Proof.
  intros Hn H k d Hk. unfold zdrop in Hk. rewrite lookup_drop in Hk. rewrite (H _ _ Hk). f_equal. lia.
Qed.

Lemma agrees_take content off data n : agrees content off data -> agrees content off (ztake n data).
Proof. intros H k d Hk. unfold ztake in Hk. apply lookup_take_Some in Hk as [Hk _]. auto. Qed.

Lemma agrees_app content off a b :
  agrees content off a -> agrees content (off + len a) b -> agrees content off (a ++ b).
Proof.
  intros Ha Hb k d Hk. apply lookup_app_Some in Hk as [Hk|[Hle Hk]]; [auto|].
  rewrite (Hb _ _ Hk). f_equal. unfold len. lia.
Qed.

(** ** Integers in network order *)

Local Open Scope go_scope.

(** binary.BigEndian's Uint16, Uint32 and Uint64, of the bytes given, and its
    PutUint16, PutUint32 and PutUint64. *)
Definition be (b : bytes) : Z := fold_left (fun n x => (n .<< 8) .| x) b 0.

Fixpoint putBE (n : nat) (v : Z) : bytes :=
  match n with O => [] | S n => u8 (v .>> (8 * Z.of_nat n)) :: putBE n v end.

Lemma be_step a x : is_byte x -> (a .<< 8) .| x = a * 256 + x.
Proof.
  intros Hx. rewrite Z.shiftl_mul_pow2 by lia. change (2 ^ 8) with 256. apply (lor_disjoint _ _ 8); [lia|apply Z.mod_mul; lia|exact Hx].
Qed.

Lemma be_putBE n v : 0 <= v < 2 ^ (8 * Z.of_nat n) -> be (putBE n v) = v.
Proof.
  intros Hv. enough (forall a, fold_left (fun n x => (n .<< 8) .| x) (putBE n v) a = a * 2 ^ (8 * Z.of_nat n) + v mod 2 ^ (8 * Z.of_nat n)) as H.
  { unfold be. rewrite H, Z.mod_small; lia. }
  clear Hv. induction n as [|n IH]; intros a; cbn [putBE fold_left]; [cbn; rewrite Z.mod_1_r; lia|].
  rewrite be_step by apply u8_byte. rewrite IH. unfold u8. rewrite Z.shiftr_div_pow2 by lia.
  replace (8 * Z.of_nat (S n)) with (8 * Z.of_nat n + 8) by lia. rewrite Z.pow_add_r by lia. change (2 ^ 8) with 256.
  rewrite (Z.rem_mul_r v (2 ^ (8 * Z.of_nat n)) 256) by lia. ring.
Qed.

Lemma be_bytes b : bytes_ok b -> 0 <= be b.
Proof.
  intros Hb. unfold be. assert (forall n, 0 <= n -> 0 <= fold_left (fun n x => (n .<< 8) .| x) b n) as H; [|apply H; lia].
  induction Hb as [|x b Hx _ IH]; intros n Hn; cbn [fold_left]; [exact Hn|]. apply IH. apply Z.lor_nonneg.
  split; [now apply Z.shiftl_nonneg|apply Hx].
Qed.

Lemma length_putBE n v : length (putBE n v) = n.
Proof. induction n as [|n IH]; cbn; [reflexivity|now rewrite IH]. Qed.

Lemma putBE_bytes n v : bytes_ok (putBE n v).
Proof. induction n as [|n IH]; cbn [putBE]; constructor; [apply u8_byte|exact IH]. Qed.

(** ** Numbers in decimal *)

Fixpoint itoaLoop (fuel : nat) (n : Z) (acc : bytes) : bytes :=
  match fuel with
  | O => acc
  | S fuel => let acc := 48 + n mod 10 :: acc in if n <? 10 then acc else itoaLoop fuel (n / 10) acc
  end.

(** strconv.Itoa of an int that is not negative, of 19 digits at most. *)
Definition Itoa (n : Z) : bytes := itoaLoop 19 n [].

(** ** [sort.Search] *)

(** The standard library's binary search: the smallest [i] in [[0, n]] with
    [f i], for an [f] that is false and then true. *)
Fixpoint search_loop (fuel : nat) (f : nat -> bool) (i j : nat) : nat :=
  match fuel with
  | O => i
  | S fuel =>
      if (i <? j)%nat then
        let h := ((i + j) / 2)%nat in
        if negb (f h) then search_loop fuel f (h + 1)%nat j else search_loop fuel f i h
      else i
  end.

Definition sort_Search (n : nat) (f : nat -> bool) : nat := search_loop n f 0 n.

Lemma search_loop_spec fuel f i j n :
  (j - i <= fuel)%nat -> (i <= j <= n)%nat ->
  (forall k k', (k <= k' < n)%nat -> f k = true -> f k' = true) ->
  (forall k, (k < i)%nat -> f k = false) ->
  (j < n -> f j = true)%nat ->
  let r := search_loop fuel f i j in
  (r <= n)%nat /\ (forall k, (k < r)%nat -> f k = false) /\ (r < n -> f r = true)%nat.
Proof.
  revert i j. induction fuel as [|fuel IH]; intros i j Hf Hij Hm Hlo Hhi; cbn [search_loop].
  - assert (i = j) as -> by lia. repeat split; auto; lia.
  - destruct (Nat.ltb_spec i j) as [Hlt|]; [|assert (i = j) as -> by lia; repeat split; auto; lia].
    assert ((i + j) / 2 < j /\ i <= (i + j) / 2)%nat as [Hh1 Hh2].
    { split; [apply Nat.Div0.div_lt_upper_bound; lia | apply Nat.div_le_lower_bound; lia]. }
    set (h := ((i + j) / 2)%nat) in *.
    destruct (f h) eqn:Efh; cbn [negb].
    + apply IH; auto; lia.
    + apply IH; auto; try lia. intros k Hk.
      destruct (f k) eqn:E; [|reflexivity]. exfalso.
      rewrite (Hm k h) in Efh; [discriminate|lia|exact E].
Qed.

(** Binary search over a monotone predicate finds its first index. *)
Lemma sort_Search_spec n f :
  (forall k k', (k <= k' < n)%nat -> f k = true -> f k' = true) ->
  (sort_Search n f <= n)%nat /\ (forall k, (k < sort_Search n f)%nat -> f k = false) /\
  (sort_Search n f < n -> f (sort_Search n f) = true)%nat.
Proof. intros. apply (search_loop_spec n f 0 n n); auto; lia. Qed.

Lemma search_loop_ext fuel f g i j : (forall k, f k = g k) -> search_loop fuel f i j = search_loop fuel g i j.
Proof.
  intros E. revert i j. induction fuel as [|fuel IH]; intros i j; cbn [search_loop]; [reflexivity|].
  rewrite E. repeat case_match; auto.
Qed.

Lemma sort_Search_ext n f g : (forall k, f k = g k) -> sort_Search n f = sort_Search n g.
Proof. apply search_loop_ext. Qed.
