(* ===== verification/HpackInt.v ===== *)
(** * HPACK integers (src/hpack/hpack.go: readInt, appendInt)

    RFC 7541 section 5.1 prefix integers: the reader with its 56-bit limit and
    its [uint64] accumulator, the writer with its loop, that each undoes the
    other, and that the reader always consumes a byte. *)

From S2P Require Import Prelude.
From stdpp Require Import base list numbers.
From Stdlib Require Import ZArith Lia.

Local Open Scope Z_scope.
Local Open Scope go_scope.

(** The errors of package hpack, and one an [emit] callback of the caller
    returns. *)
Inductive herr : Type :=
| ErrInvalidIndex
| ErrIntegerOverflow
| ErrTruncated
| ErrInvalidHuffman
| ErrStringTooLong
| ErrInvalidSizeUpdate
| ErrCaller (code : Z).

#[export] Instance herr_eq_dec : EqDecision herr.
Proof. solve_decision. Defined.

Module HInt.

(** The loop over the continuation bytes. *)
Fixpoint readInt_loop (value shift : Z) (block : bytes) : res herr (Z * bytes) :=
  match block with
  | [] => Err ErrTruncated
  | b :: rest =>
      let value := u64 (value + u64 ((b .& 0x7f) .<< shift)) in
      if (b .& 0x80) =? 0 then Ok (value, rest)
      else
        let shift := shift + 7 in
        if 56 <=? shift then Err ErrIntegerOverflow else readInt_loop value shift rest
  end.

Definition readInt (block : bytes) (n : Z) : res herr (Z * bytes) :=
  match block with
  | [] => Err ErrTruncated
  | b0 :: block =>
      let mask := u64 (u64 (1 .<< n) - 1) in
      let value := b0 .& mask in
      if value <? mask then Ok (value, block) else readInt_loop value 0 block
  end.

(** [for value >= 0x80]: ten rounds are more than a [uint64] can take, see
    [appendInt_loop_fuel]. *)
Fixpoint appendInt_loop (fuel : nat) (dst : bytes) (value : Z) : bytes :=
  match fuel with
  | O => dst ++ [u8 value]
  | S fuel =>
      if 0x80 <=? value
      then appendInt_loop fuel (dst ++ [u8 value .| 0x80]) (value .>> 7)
      else dst ++ [u8 value]
  end.

Definition appendInt (dst : bytes) (first n value : Z) : bytes :=
  let mask := u64 (u64 (1 .<< n) - 1) in
  if value <? mask then dst ++ [first .| u8 value]
  else appendInt_loop 10 (dst ++ [first .| u8 mask]) (value - mask).

(** ** Lemmas *)

Lemma mask_eq n : 1 <= n <= 8 -> u64 (u64 (1 .<< n) - 1) = 2 ^ n - 1.
Proof.
  intros. rewrite Z.shiftl_1_l.
  assert (2 ^ 1 <= 2 ^ n <= 2 ^ 8) by (split; apply Z.pow_le_mono_r; lia).
  rewrite (u64_id (2 ^ n)), u64_id by lia. reflexivity.
Qed.

(** One more round of the writer's loop changes nothing once the rounds left
    cover the value's bits. *)
Lemma appendInt_loop_fuel fuel k dst value :
  0 <= value < 2 ^ (7 * (Z.of_nat fuel + 1)) ->
  appendInt_loop (fuel + k) dst value = appendInt_loop fuel dst value.
Proof.
  revert dst value. induction fuel as [|fuel IH]; intros dst value Hv.
  - destruct k; [reflexivity|]. cbn [Nat.add appendInt_loop].
    destruct (Z.leb_spec 128 value); [|reflexivity].
    change (2 ^ (7 * (Z.of_nat 0 + 1))) with 128 in Hv. lia.
  - cbn [Nat.add appendInt_loop]. destruct (128 <=? value); [|reflexivity].
    apply IH. rewrite Z.shiftr_div_pow2 by lia.
    split; [apply Z.div_pos; lia|]. apply Z.div_lt_upper_bound; [lia|].
    rewrite <- Z.pow_add_r by lia.
    replace (7 + 7 * (Z.of_nat fuel + 1)) with (7 * (Z.of_nat (S fuel) + 1)) by lia. lia.
Qed.

Lemma appendInt_loop_app fuel dst value :
  appendInt_loop fuel dst value = dst ++ appendInt_loop fuel [] value.
Proof.
  revert dst value. induction fuel as [|fuel IH]; intros; cbn [appendInt_loop]; [reflexivity|].
  destruct (128 <=? value); [|reflexivity].
  rewrite IH, (IH ([] ++ _)). now rewrite <- !app_assoc.
Qed.

(** The writer only appends. *)
Lemma appendInt_app dst first n value :
  appendInt dst first n value = dst ++ appendInt [] first n value.
Proof.
  unfold appendInt. case_match; [reflexivity|].
  rewrite appendInt_loop_app, (appendInt_loop_app _ ([] ++ _)).
  now rewrite <- app_assoc.
Qed.

Lemma land_127_byte_lor v : (u8 v .| 128) .& 127 = v mod 128 /\ ((u8 v .| 128) .& 128 =? 0) = false.
Proof.
  pose proof (u8_byte v) as Hb. rewrite lor_128_byte by exact Hb.
  assert (u8 v mod 128 = v mod 128) as ->.
  { apply Z.mod_mod_divide. now exists 2. }
  pose proof (Z.mod_pos_bound v 128 ltac:(lia)) as Hm.
  rewrite land_127, land_128_byte by (unfold is_byte; lia).
  split; [|apply Z.ltb_ge; lia].
  rewrite <- Z.add_mod_idemp_l, Z.mod_same, Z.add_0_l by lia. apply Z.mod_mod; lia.
Qed.

(** The reader's loop undoes the writer's: [value] was read so far, [v] is
    still to come at bit [shift]. *)
Lemma readInt_appendInt_loop fuel value shift v rest :
  0 <= value -> 0 <= shift <= 49 -> 0 <= v < 2 ^ (56 - shift) ->
  v < 2 ^ (7 * (Z.of_nat fuel + 1)) ->
  value + v * 2 ^ shift < 2 ^ 64 ->
  (7 | shift) ->
  readInt_loop value shift (appendInt_loop fuel [] v ++ rest) = Ok (value + v * 2 ^ shift, rest).
Proof.
  revert value shift v. induction fuel as [|fuel IH]; intros value shift v Hval Hsh Hv Hf Htot Hdiv.
  - change (2 ^ (7 * (Z.of_nat 0 + 1))) with 128 in Hf. cbn [appendInt_loop app readInt_loop].
    assert (is_byte v) as Hb by (unfold is_byte; lia).
    rewrite u8_id, land_127, land_128_byte, Z.mod_small by (auto; lia).
    destruct (Z.ltb_spec v 128); [|lia].
    rewrite Z.shiftl_mul_pow2 by lia.
    rewrite (u64_id (v * _)), u64_id by lia. reflexivity.
  - cbn [appendInt_loop]. destruct (Z.leb_spec 128 v) as [Hge|Hlt].
    + rewrite appendInt_loop_app. cbn [app readInt_loop].
      destruct (land_127_byte_lor v) as [-> ->].
      assert (49 <> shift) as Hne.
      { intros <-. change (2 ^ (56 - 49)) with 128 in Hv. lia. }
      destruct Hdiv as [q Hq].
      destruct (Z.leb_spec 56 (shift + 7)); [lia|].
      rewrite Z.shiftl_mul_pow2, Z.shiftr_div_pow2 by lia.
      pose proof (Z.div_mod v 128 ltac:(lia)) as Hdm.
      pose proof (Z.mod_pos_bound v 128 ltac:(lia)) as Hm.
      change (2 ^ 7) with 128.
      assert (0 < 2 ^ shift) by lia.
      assert (0 <= v / 128) by (apply Z.div_pos; lia).
      rewrite (u64_id (v mod 128 * _)), u64_id by nia.
      rewrite IH.
      * f_equal. f_equal. rewrite Z.pow_add_r by lia. change (2 ^ 7) with 128. nia.
      * nia.
      * lia.
      * split; [lia|]. apply Z.div_lt_upper_bound; [lia|].
        replace (128 * 2 ^ (56 - (shift + 7))) with (2 ^ (56 - shift)); [lia|].
        change 128 with (2 ^ 7). rewrite <- Z.pow_add_r by lia. f_equal; lia.
      * apply Z.div_lt_upper_bound; [lia|].
        replace (128 * 2 ^ (7 * (Z.of_nat fuel + 1))) with (2 ^ (7 * (Z.of_nat (S fuel) + 1))); [lia|].
        change 128 with (2 ^ 7). rewrite <- Z.pow_add_r by lia. f_equal; lia.
      * rewrite Z.pow_add_r by lia. change (2 ^ 7) with 128. nia.
      * exists (q + 1). lia.
    + cbn [app readInt_loop]. assert (is_byte v) as Hb by (unfold is_byte; lia).
      rewrite u8_id, land_127, land_128_byte, Z.mod_small by (auto; lia).
      destruct (Z.ltb_spec v 128); [|lia].
      rewrite Z.shiftl_mul_pow2 by lia.
      rewrite (u64_id (v * _)), u64_id by lia. reflexivity.
Qed.

(** The first byte's low [n] bits are what the writer put there. *)
Lemma first_byte_low first n v :
  1 <= n <= 8 -> first mod 2 ^ n = 0 -> 0 <= v < 2 ^ n ->
  (first .| v) .& (2 ^ n - 1) = v.
Proof.
  intros. rewrite (lor_disjoint first v n), land_low_bits by lia.
  rewrite Z.add_mod, H0, Z.add_0_l, Z.mod_mod, Z.mod_small by lia. reflexivity.
Qed.

(** (shared form of the round trip) *)
Lemma readInt_appendInt_rest first n v rest :
  1 <= n <= 8 -> first mod 2 ^ n = 0 -> 0 <= v < 2 ^ n - 1 + 2 ^ 56 ->
  readInt (appendInt [] first n v ++ rest) n = Ok (v, rest).
Proof.
  intros Hn Hf Hv. unfold appendInt, readInt. rewrite mask_eq by lia.
  assert (2 ^ 1 <= 2 ^ n <= 2 ^ 8) as Hp by (split; apply Z.pow_le_mono_r; lia).
  change (2 ^ 1) with 2 in Hp. change (2 ^ 8) with 256 in Hp.
  destruct (Z.ltb_spec v (2 ^ n - 1)).
  - cbn [app]. rewrite u8_id by (unfold is_byte; lia).
    rewrite first_byte_low by lia. destruct (Z.ltb_spec v (2 ^ n - 1)); [reflexivity|lia].
  - rewrite appendInt_loop_app. cbn [app]. rewrite u8_id by (unfold is_byte; lia).
    rewrite first_byte_low by lia. rewrite Z.ltb_irrefl.
    rewrite readInt_appendInt_loop; rewrite ?Z.pow_0_r; try lia.
    + f_equal. f_equal. lia.
    + apply Z.divide_0_r.
Qed.

(** What the reader leaves is a proper suffix of what it was given. *)
Lemma readInt_loop_suffix value shift block v rest :
  readInt_loop value shift block = Ok (v, rest) ->
  exists read, read <> [] /\ block = read ++ rest.
Proof.
  revert value shift. induction block as [|b block IH]; intros value shift; cbn [readInt_loop].
  - discriminate.
  - case_match; [intros [= _ <-]; now exists [b]|].
    case_match; [discriminate|]. intros (r & _ & ->)%IH. now exists (b :: r).
Qed.

Lemma readInt_suffix block n v rest :
  readInt block n = Ok (v, rest) -> exists read, read <> [] /\ block = read ++ rest.
Proof.
  destruct block as [|b block]; cbn [readInt]; [discriminate|].
  case_match; [intros [= _ <-]; now exists [b]|].
  intros (r & _ & ->)%readInt_loop_suffix. now exists (b :: r).
Qed.

(** The accumulator never reaches the limit the shift has passed, so the
    [uint64] additions of the loop do not wrap. *)
Lemma readInt_loop_bound value shift block v rest base :
  bytes_ok block -> 0 <= shift <= 49 -> 0 <= base <= 255 -> 0 <= value <= base + 2 ^ shift - 1 ->
  (7 | shift) -> readInt_loop value shift block = Ok (v, rest) ->
  value <= v <= base + 2 ^ 56 - 1.
Proof.
  intros Hok. revert value shift. induction Hok as [|b block Hb Hok IH]; intros value shift Hs Hbase Hv Hdiv;
    cbn [readInt_loop]; [discriminate|].
  rewrite land_127, land_128_byte by exact Hb.
  pose proof (Z.mod_pos_bound b 128 ltac:(lia)) as Hm.
  rewrite Z.shiftl_mul_pow2 by lia.
  assert (2 ^ shift <= 2 ^ 49) by (apply Z.pow_le_mono_r; lia).
  assert (0 < 2 ^ shift) by lia.
  rewrite (u64_id (_ * _)), u64_id by nia.
  assert (2 ^ (shift + 7) = 128 * 2 ^ shift) as E by (rewrite Z.pow_add_r by lia; change (2 ^ 7) with 128; lia).
  destruct (b <? 128).
  - intros [= <- _]. assert (2 ^ (shift + 7) <= 2 ^ 56) by (apply Z.pow_le_mono_r; lia). nia.
  - destruct (Z.leb_spec 56 (shift + 7)) as [|Hlt]; [discriminate|].
    destruct Hdiv as [q Hq]. intros Hr%IH; try lia; try nia.
    exists (q + 1). lia.
Qed.

Lemma readInt_bounded_suffix block n v rest :
  1 <= n <= 8 -> bytes_ok block -> readInt block n = Ok (v, rest) ->
  0 <= v < 2 ^ n - 1 + 2 ^ 56 /\ (exists read, read <> [] /\ block = read ++ rest).
Proof.
  intros Hn Hok H. split; [|now apply readInt_suffix in H].
  destruct block as [|b block]; [discriminate|]. cbn [readInt] in H.
  rewrite mask_eq in H by lia. inversion Hok as [|? ? Hb Hblock]; subst.
  assert (2 ^ 1 <= 2 ^ n <= 2 ^ 8) as Hp by (split; apply Z.pow_le_mono_r; lia).
  change (2 ^ 1) with 2 in Hp. change (2 ^ 8) with 256 in Hp.
  rewrite land_low_bits in H by lia.
  pose proof (Z.mod_pos_bound b (2 ^ n) ltac:(lia)) as Hm.
  destruct (Z.ltb_spec (b mod 2 ^ n) (2 ^ n - 1)).
  - inversion H; subst; lia.
  - apply (readInt_loop_bound _ _ _ _ _ (2 ^ n - 1)) in H; try lia; auto.
    apply Z.divide_0_r.
Qed.

(** The first byte carries the representation's bits, and every byte is one. *)
Lemma appendInt_head first n v :
  1 <= n <= 8 -> 0 <= v -> exists x tl, appendInt [] first n v = Z.lor first x :: tl /\ 0 <= x < 2 ^ n /\ bytes_ok tl.
Proof.
  intros Hn Hv. unfold appendInt. rewrite mask_eq by lia.
  assert (2 ^ 1 <= 2 ^ n <= 2 ^ 8) as Hp by (split; apply Z.pow_le_mono_r; lia).
  change (2 ^ 1) with 2 in Hp. change (2 ^ 8) with 256 in Hp.
  destruct (Z.ltb_spec v (2 ^ n - 1)).
  - exists v, []. rewrite u8_id by (unfold is_byte; lia). split; [reflexivity|]. split; [lia|constructor].
  - rewrite appendInt_loop_app. exists (2 ^ n - 1), (appendInt_loop 10 [] (v - (2 ^ n - 1))).
    rewrite u8_id by (unfold is_byte; lia). split; [reflexivity|]. split; [lia|].
    generalize 10%nat (v - (2 ^ n - 1)). intros fuel. induction fuel as [|fuel IH]; intros w; cbn [appendInt_loop].
    + repeat constructor; apply u8_byte.
    + destruct (128 <=? w); [|repeat constructor; apply u8_byte].
      rewrite appendInt_loop_app. constructor; [|apply IH].
      apply (lor_bound _ _ 8); [lia|apply u8_byte|lia].
Qed.

Lemma appendInt_bytes first n v :
  1 <= n <= 8 -> 0 <= v -> is_byte first -> bytes_ok (appendInt [] first n v).
Proof.
  intros Hn Hv Hf. destruct (appendInt_head first n v Hn Hv) as (x & tl & -> & Hx & Htl).
  constructor; [|exact Htl]. apply (lor_bound _ _ 8); [lia|exact Hf|].
  assert (2 ^ n <= 2 ^ 8) by (apply Z.pow_le_mono_r; lia). lia.
Qed.

(** ** Properties *)

(** AppendInt appends, and readInt gets the number back from what it
    appended and stops there, for every prefix length and every number below the
    reader's limit of 56 bits past the prefix. *)
Theorem readInt_appendInt (dst : bytes) (first n v : Z) (rest : bytes) :
  1 <= n <= 8 -> first mod 2 ^ n = 0 -> 0 <= v < 2 ^ n - 1 + 2 ^ 56 ->
  exists enc, appendInt dst first n v = dst ++ enc /\ readInt (enc ++ rest) n = Ok (v, rest).
Proof.
  intros. exists (appendInt [] first n v). split.
  - apply appendInt_app.
  - now apply readInt_appendInt_rest.
Qed.

(** Whatever bytes it is given, readInt's uint64 accumulator does not
    overflow: a number it returns is within 56 bits past the prefix, and it has
    consumed at least a byte of the block. *)
Theorem readInt_bounded (block : bytes) (n v : Z) (rest : bytes) :
  1 <= n <= 8 -> bytes_ok block -> readInt block n = Ok (v, rest) ->
  0 <= v < 2 ^ n - 1 + 2 ^ 56 /\ (exists read, read <> [] /\ block = read ++ rest).
Proof. apply readInt_bounded_suffix. Qed.

(** ** Witnesses *)

(** RFC 7541 section C.1.2. *)
Lemma readInt_appendInt_witness :
  exists enc, appendInt [7] 0 5 1337 = [7] ++ enc /\ readInt (enc ++ [9]) 5 = Ok (1337, [9]).
Proof. apply (readInt_appendInt [7] 0 5 1337 [9]); [lia|reflexivity|lia]. Defined.

Lemma readInt_bounded_witness :
  0 <= 1337 < 2 ^ 5 - 1 + 2 ^ 56 /\ (exists read, read <> [] /\ [31; 154; 10; 9] = read ++ [9]).
Proof.
  apply (readInt_bounded [31; 154; 10; 9] 5 1337 [9]); [lia| |reflexivity].
  repeat (apply List.Forall_cons; [unfold is_byte; lia|]). apply List.Forall_nil.
Defined.

End HInt.
