(* ===== verification/HpackHuffman.v ===== *)
(** * The HPACK Huffman code (src/hpack/huffman.go)

    The decoding tree and the nibble table built from it at start-up, the
    table-driven decoder, the encoder with its [uint64] accumulator. The table
    is shown to run the tree four bits at a time, and the decoder to accept
    exactly the encoder's output. *)

From S2P Require Import Prelude HpackInt HpackTables.
From stdpp Require Import base list numbers.
From Stdlib Require Import ZArith Lia.

Local Open Scope Z_scope.
Local Open Scope go_scope.

Module Huffman.

(** ** The tree *)

Record huffmanNode : Type := mkNode { child0 : nat; child1 : nat; node_sym : Z }.

Definition zeroNode : huffmanNode := mkNode 0 0 0.

(** [children[bit]] and its assignment. *)
Definition child (n : huffmanNode) (bit : Z) : nat := if bit =? 0 then child0 n else child1 n.
Definition setChild (n : huffmanNode) (bit : Z) (c : nat) : huffmanNode :=
  if bit =? 0 then mkNode c (child1 n) (node_sym n) else mkNode (child0 n) c (node_sym n).
Definition setSym (sym : Z) (n : huffmanNode) : huffmanNode := mkNode (child0 n) (child1 n) sym.

Definition node_at (tree : list huffmanNode) (i : nat) : huffmanNode := nth i tree zeroNode.

Definition huffmanCode (sym : nat) : Z := nth sym huffmanCodes 0.
Definition huffmanLength (sym : nat) : Z := nth sym huffmanCodeLen 0.

(** The inner loop of buildHuffmanTree: [i] code bits are left. *)
Fixpoint insertCode (i : nat) (code : Z) (tree : list huffmanNode) (node : nat) : list huffmanNode * nat :=
  match i with
  | O => (tree, node)
  | S i =>
      let bit := (code .>> Z.of_nat i) .& 1 in
      let next := child (node_at tree node) bit in
      if (next =? 0)%nat then
        let tree := tree ++ [zeroNode] in
        let next := (length tree - 1)%nat in
        insertCode i code (alter (fun n => setChild n bit next) node tree) next
      else insertCode i code tree next
  end.

Definition buildHuffmanTree : list huffmanNode :=
  fold_left (fun tree sym =>
      let '(tree, node) := insertCode (Z.to_nat (huffmanLength sym)) (huffmanCode sym) tree 0 in
      alter (setSym (Z.of_nat sym)) node tree)
    (seq 0 256) [zeroNode].

Definition huffmanTree : list huffmanNode := buildHuffmanTree.

(** ** The nibble table *)

Record huffmanStep : Type := mkStep { next : nat; sym : Z; flags : Z }.

Definition zeroStep : huffmanStep := mkStep 0 0 0.

Definition huffmanEmit : Z := 1.
Definition huffmanFail : Z := 2.

(** [stateOf] and [nodes]: the inner nodes numbered in order. *)
Definition numberStates (tree : list huffmanNode) : list nat * list nat :=
  fold_left (fun '(stateOf, nodes) i =>
      if (child0 (node_at tree i) =? 0)%nat then (stateOf ++ [0%nat], nodes)
      else (stateOf ++ [length nodes], nodes ++ [i]))
    (seq 0 (length tree)) ([], []).

(** The walk of one nibble, [i] bits left. *)
Fixpoint nibbleWalk (tree : list huffmanNode) (i : nat) (nibble : Z) (node : nat) (step : huffmanStep)
    : nat * huffmanStep :=
  match i with
  | O => (node, step)
  | S i =>
      let nxt := child (node_at tree node) ((nibble .>> Z.of_nat i) .& 1) in
      if (nxt =? 0)%nat then (node, mkStep (next step) (sym step) (flags step .| huffmanFail))
      else if (child0 (node_at tree nxt) =? 0)%nat then
        nibbleWalk tree i nibble 0
          (mkStep (next step) (node_sym (node_at tree nxt)) (flags step .| huffmanEmit))
      else nibbleWalk tree i nibble nxt step
  end.

(** [for depth := 0; depth <= 7 && ...]: the states the input may end in. *)
Fixpoint acceptLoop (tree : list huffmanNode) (stateOf : list nat) (rounds depth : nat) (node : nat)
    (accepts : list bool) : list bool :=
  match rounds with
  | O => accepts
  | S rounds =>
      if (depth =? 0)%nat || negb (child0 (node_at tree node) =? 0)%nat then
        acceptLoop tree stateOf rounds (S depth) (child1 (node_at tree node))
          (<[nth node stateOf 0%nat := true]> accepts)
      else accepts
  end.

Definition buildHuffmanSteps (tree : list huffmanNode) : list (list huffmanStep) * list bool :=
  let '(stateOf, nodes) := numberStates tree in
  let steps :=
    map (fun start =>
        map (fun nibble =>
            let '(node, step) := nibbleWalk tree 4 (Z.of_nat nibble) start zeroStep in
            mkStep (nth node stateOf 0%nat) (sym step) (flags step))
          (seq 0 16))
      nodes in
  (steps, acceptLoop tree stateOf 8 0 0 (replicate 256 false)).

Definition huffmanSteps : list (list huffmanStep) := fst (buildHuffmanSteps huffmanTree).
Definition huffmanAccepts : list bool := snd (buildHuffmanSteps huffmanTree).

(** [steps[state][nibble]], both indices in range. *)
Definition step_at (steps : list (list huffmanStep)) (state : nat) (nibble : Z) : huffmanStep :=
  nth (Z.to_nat nibble) (nth state steps []) zeroStep.

(** ** The decoder *)

(** What one step does to the output: nothing, an error, or a symbol. *)
Definition takeStep (step : huffmanStep) (out : bytes) : res herr bytes :=
  if negb (flags step =? 0) then
    if negb ((flags step .& huffmanFail) =? 0) then Err ErrInvalidHuffman
    else Ok (out ++ [sym step])
  else Ok out.

(** The loop over the input, the two tables as arguments. *)
Fixpoint huffmanDecodeLoop (steps : list (list huffmanStep)) (accepts : list bool)
    (state : nat) (out s : bytes) (maxLen : Z) : res herr bytes :=
  match s with
  | [] => if nth state accepts false then Ok out else Err ErrInvalidHuffman
  | b :: s =>
      let step := step_at steps state (b .>> 4) in
      match takeStep step out with
      | Err e => Err e
      | Ok out =>
          let step := step_at steps (next step) (b .& 0xf) in
          match takeStep step out with
          | Err e => Err e
          | Ok out =>
              if (0 <? maxLen) && (maxLen <? len out) then Err ErrStringTooLong
              else huffmanDecodeLoop steps accepts (next step) out s maxLen
          end
      end
  end.

Definition huffmanDecodeAppend (out s : bytes) (maxLen : Z) : res herr bytes :=
  huffmanDecodeLoop huffmanSteps huffmanAccepts 0 out s maxLen.

Definition huffmanDecode (s : bytes) (maxLen : Z) : res herr bytes := huffmanDecodeAppend [] s maxLen.

(** ** The encoder *)

Definition codeOf (c : Z) : Z := huffmanCode (Z.to_nat c).
Definition codeLenOf (c : Z) : Z := huffmanLength (Z.to_nat c).

Definition huffmanLen (s : bytes) : Z :=
  (fold_left (fun bits c => bits + codeLenOf c) s 0 + 7) / 8.

(** [for n >= 8]: the accumulator holds fewer than 64 bits, so eight rounds
    are enough; see [flushBytes_fuel]. *)
Fixpoint flushBytes (fuel : nat) (dst : bytes) (acc n : Z) : bytes * Z :=
  match fuel with
  | O => (dst, n)
  | S fuel =>
      if 8 <=? n then flushBytes fuel (dst ++ [u8 (acc .>> (n - 8))]) acc (n - 8) else (dst, n)
  end.

Fixpoint huffmanAppendLoop (dst : bytes) (acc n : Z) (s : bytes) : bytes * Z * Z :=
  match s with
  | [] => (dst, acc, n)
  | c :: s =>
      let acc := u64 (acc .<< codeLenOf c) .| codeOf c in
      let n := n + codeLenOf c in
      let '(dst, n) := flushBytes 8 dst acc n in
      huffmanAppendLoop dst acc n s
  end.

Definition huffmanAppend (dst s : bytes) : bytes :=
  let '(dst, acc, n) := huffmanAppendLoop dst 0 0 s in
  if 0 <? n then dst ++ [u8 (u64 (acc .<< (8 - n))) .| u8 (0xff .>> n)] else dst.

(** The exported names QPACK uses. *)
Definition HuffmanDecode (s : bytes) (maxLen : Z) : res herr bytes := huffmanDecode s maxLen.
Definition HuffmanLen (s : bytes) : Z := huffmanLen s.
Definition AppendHuffman (dst s : bytes) : bytes := huffmanAppend dst s.

(** ** Bit strings *)

(** The low [n] bits of [x], the highest first. *)
Fixpoint lowbits (x : Z) (n : nat) : list bool :=
  match n with
  | O => []
  | S n => Z.testbit x (Z.of_nat n) :: lowbits x n
  end.

Definition bits_of (s : bytes) : list bool := mjoin (map (fun b => lowbits b 8) s).

Definition code_bits (c : Z) : list bool := lowbits (codeOf c) (Z.to_nat (codeLenOf c)).

Definition codes_bits (s : bytes) : list bool := mjoin (map code_bits s).

Lemma length_lowbits x n : length (lowbits x n) = n.
Proof. induction n; cbn; congruence. Qed.

Lemma lowbits_ext x y n :
  (forall i, 0 <= i < Z.of_nat n -> Z.testbit x i = Z.testbit y i) -> lowbits x n = lowbits y n.
Proof.
  induction n as [|n IH]; intros H; cbn [lowbits]; [reflexivity|].
  rewrite (H (Z.of_nat n)) by lia. f_equal. apply IH. intros; apply H; lia.
Qed.

Lemma lowbits_split x n m : lowbits x (n + m) = lowbits (x .>> Z.of_nat m) n ++ lowbits x m.
Proof.
  induction n as [|n IH]; cbn [lowbits Nat.add app]; [reflexivity|].
  rewrite Z.shiftr_spec by lia. rewrite IH. do 2 f_equal. lia.
Qed.

Lemma lowbits_inj x y n :
  0 <= x < 2 ^ Z.of_nat n -> 0 <= y < 2 ^ Z.of_nat n -> lowbits x n = lowbits y n -> x = y.
Proof.
  intros Hx Hy H. rewrite <- (Z.mod_small x (2 ^ Z.of_nat n)), <- (Z.mod_small y (2 ^ Z.of_nat n)) by lia.
  rewrite <- !Z.land_ones by lia. apply Z.bits_inj'. intros i Hi. rewrite !Z.land_spec.
  destruct (Z.lt_ge_cases i (Z.of_nat n)) as [Hlt|]; [|rewrite Z.ones_spec_high by lia; now rewrite !andb_false_r].
  f_equal. clear Hx Hy. induction n as [|n IH]; [lia|].
  cbn [lowbits] in H. injection H as H0 H1.
  destruct (Z.eq_dec i (Z.of_nat n)) as [->|]; [exact H0|]. apply IH; [exact H1|lia].
Qed.

Lemma u8_testbit x i : 0 <= i < 8 -> Z.testbit (u8 x) i = Z.testbit x i.
Proof. intros. apply Z.mod_pow2_bits_low. lia. Qed.

Lemma u64_testbit x i : 0 <= i < 64 -> Z.testbit (u64 x) i = Z.testbit x i.
Proof. intros. apply Z.mod_pow2_bits_low. lia. Qed.

Lemma length_bits_of s : length (bits_of s) = (8 * length s)%nat.
Proof.
  induction s as [|b s IH]; [reflexivity|].
  change (bits_of (b :: s)) with (lowbits b 8 ++ bits_of s).
  rewrite length_app, length_lowbits, IH. cbn [length]. lia.
Qed.

Lemma bits_of_app s t : bits_of (s ++ t) = bits_of s ++ bits_of t.
Proof. unfold bits_of. rewrite map_app. apply join_app. Qed.

Lemma bits_of_inj s t : bytes_ok s -> bytes_ok t -> bits_of s = bits_of t -> s = t.
Proof.
  intros Hs. revert t. induction Hs as [|b s Hb Hs IH]; intros [|c t] Ht H.
  - reflexivity.
  - apply (f_equal length) in H. rewrite !length_bits_of in H. cbn [length] in H. lia.
  - apply (f_equal length) in H. rewrite !length_bits_of in H. cbn [length] in H. lia.
  - inversion Ht; subst. change (lowbits b 8 ++ bits_of s = lowbits c 8 ++ bits_of t) in H.
    apply app_inj_1 in H as [Hbc Hst]; [|now rewrite !length_lowbits].
    f_equal; [|now apply IH]. now apply (lowbits_inj b c 8).
Qed.

(** ** The encoder writes the codes of the string and ones *)

Definition code_ok (c : Z) : bool :=
  (5 <=? codeLenOf c) && (codeLenOf c <=? 30) && (0 <=? codeOf c) && (codeOf c <? 2 ^ codeLenOf c).

Lemma code_range c : is_byte c -> 5 <= codeLenOf c <= 30 /\ 0 <= codeOf c < 2 ^ codeLenOf c.
Proof.
  intros Hc. assert (code_ok c = true) as H.
  { apply (all_bytes_spec code_ok c); [vm_compute; reflexivity | exact Hc]. }
  unfold code_ok in H. rewrite !andb_true_iff, !Z.leb_le, Z.ltb_lt in H. lia.
Qed.

#[global] Opaque codeOf codeLenOf.

(** The bits the encoder has not written yet, after [flushBytes]. *)
Lemma flushBytes_bits fuel dst acc n dst' n' :
  0 <= n < 8 * (Z.of_nat fuel + 1) -> flushBytes fuel dst acc n = (dst', n') ->
  bits_of dst' ++ lowbits acc (Z.to_nat n') = bits_of dst ++ lowbits acc (Z.to_nat n) /\
  0 <= n' < 8 /\ (bytes_ok dst -> bytes_ok dst').
Proof.
  revert dst n. induction fuel as [|fuel IH]; intros dst n Hn; cbn [flushBytes].
  - intros [= <- <-]. repeat split; auto; lia.
  - destruct (Z.leb_spec 8 n) as [Hge|Hlt]; [|intros [= <- <-]; repeat split; auto; lia].
    intros (Hb & Hn' & Hok)%IH; [|lia]. rewrite Hb. repeat split; try lia.
    + rewrite bits_of_app, <- app_assoc. f_equal.
      replace (Z.to_nat n) with (8 + Z.to_nat (n - 8))%nat by lia.
      rewrite lowbits_split. f_equal. unfold bits_of. cbn [map mjoin list_join]. rewrite app_nil_r.
      apply lowbits_ext. intros i Hi. rewrite u8_testbit by lia. now rewrite Z2Nat.id by lia.
    + intros Hd. apply Hok, bytes_ok_app. split; [exact Hd|]. repeat constructor; apply u8_byte.
Qed.

(** Rounds past the accumulator's bytes change nothing. *)
Lemma flushBytes_fuel fuel k dst acc n :
  0 <= n < 8 * (Z.of_nat fuel + 1) -> flushBytes (fuel + k) dst acc n = flushBytes fuel dst acc n.
Proof.
  revert dst n. induction fuel as [|fuel IH]; intros dst n Hn; cbn [Nat.add flushBytes].
  - destruct k; [reflexivity|]. cbn [flushBytes]. destruct (Z.leb_spec 8 n); [lia|reflexivity].
  - case_match eqn:E; [|reflexivity]. apply Z.leb_le in E. apply IH. lia.
Qed.

(** Shifting a code in below the pending bits. *)
Lemma lowbits_shift_in acc c n :
  is_byte c -> 0 <= n < 8 ->
  lowbits (u64 (acc .<< codeLenOf c) .| codeOf c) (Z.to_nat (n + codeLenOf c)) =
  lowbits acc (Z.to_nat n) ++ code_bits c.
Proof.
  intros Hc Hn. destruct (code_range c Hc) as [Hl Hcode].
  rewrite Z2Nat.inj_add, lowbits_split by lia. f_equal; apply lowbits_ext; intros i Hi.
  - rewrite Z2Nat.id, Z.shiftr_spec, Z.lor_spec, u64_testbit, Z.shiftl_spec by lia.
    rewrite (testbit_small (codeOf c) (codeLenOf c)), orb_false_r by lia. f_equal. lia.
  - rewrite Z.lor_spec, u64_testbit, Z.shiftl_spec_low by lia. reflexivity.
Qed.

Lemma huffmanAppendLoop_bits s dst acc n dst' acc' n' :
  bytes_ok s -> 0 <= n < 8 -> huffmanAppendLoop dst acc n s = (dst', acc', n') ->
  bits_of dst' ++ lowbits acc' (Z.to_nat n') = bits_of dst ++ lowbits acc (Z.to_nat n) ++ codes_bits s /\
  0 <= n' < 8 /\ (bytes_ok dst -> bytes_ok dst').
Proof.
  intros Hs. revert dst acc n. induction Hs as [|c s Hc Hs IH]; intros dst acc n Hn;
    cbn [huffmanAppendLoop].
  - intros [= <- <- <-]. rewrite app_nil_r. repeat split; auto; lia.
  - destruct (flushBytes 8 dst _ _) as [dst1 n1] eqn:Hf.
    destruct (code_range c Hc) as [Hl _].
    apply flushBytes_bits in Hf as (Hb & Hn1 & Hok1); [|lia].
    intros (Hb' & Hn' & Hok')%IH; [|exact Hn1].
    rewrite app_assoc, Hb, lowbits_shift_in in Hb' by auto.
    repeat split; try lia; [|tauto]. rewrite Hb', <- !app_assoc. reflexivity.
Qed.

(** The last byte: the pending bits and then ones. *)
Lemma last_byte_bits acc n :
  0 < n < 8 ->
  lowbits (u8 (u64 (acc .<< (8 - n))) .| u8 (0xff .>> n)) 8 =
  lowbits acc (Z.to_nat n) ++ replicate (Z.to_nat (8 - n)) true.
Proof.
  intros Hn. replace 8%nat with (Z.to_nat n + Z.to_nat (8 - n))%nat at 1 by lia.
  rewrite lowbits_split. f_equal.
  - apply lowbits_ext. intros i Hi.
    rewrite Z2Nat.id, Z.shiftr_spec, Z.lor_spec, !u8_testbit, u64_testbit, Z.shiftl_spec, Z.shiftr_spec by lia.
    rewrite (testbit_small 255 8), orb_false_r by lia. f_equal; lia.
  - rewrite (lowbits_ext _ 255).
    + assert (n = 1 \/ n = 2 \/ n = 3 \/ n = 4 \/ n = 5 \/ n = 6 \/ n = 7) as Hc by lia.
      destruct Hc as [->|[->|[->|[->|[->|[->| ->]]]]]]; reflexivity.
    + intros i Hi.
      rewrite Z.lor_spec, !u8_testbit, u64_testbit, Z.shiftl_spec_low, Z.shiftr_spec by lia.
      change 255 with (Z.ones 8). rewrite !Z.ones_spec_low by lia. reflexivity.
Qed.

(** (shared by the round trip and the length) *)
Lemma huffmanAppend_bits dst s :
  bytes_ok s -> exists k, (k < 8)%nat /\
    bits_of (huffmanAppend dst s) = bits_of dst ++ codes_bits s ++ replicate k true /\
    (bytes_ok dst -> bytes_ok (huffmanAppend dst s)).
Proof.
  intros Hs. unfold huffmanAppend.
  destruct (huffmanAppendLoop dst 0 0 s) as [[dst' acc] n] eqn:H.
  apply huffmanAppendLoop_bits in H as (Hb & Hn & Hok); [|exact Hs|lia].
  change (lowbits 0 (Z.to_nat 0)) with (@nil bool) in Hb. cbn [app] in Hb.
  destruct (Z.ltb_spec 0 n) as [Hpos|].
  - exists (Z.to_nat (8 - n)). split; [lia|]. split.
    + rewrite bits_of_app, (app_assoc (bits_of dst)), <- Hb, <- app_assoc. f_equal.
      unfold bits_of. cbn [map mjoin list_join]. rewrite app_nil_r. apply last_byte_bits. lia.
    + intros Hd. apply bytes_ok_app. split; [auto|]. constructor; [|constructor].
      apply (lor_bound _ _ 8); [lia | apply u8_byte..].
  - exists 0%nat. split; [lia|]. assert (n = 0) as -> by lia. cbn [replicate].
    rewrite app_nil_r. split; [|exact Hok]. rewrite <- Hb. cbn. now rewrite app_nil_r.
Qed.

(** ** The tree, a bit at a time *)

(** One bit from an inner node: [None] runs into EOS, otherwise the node
    reached, back at the root when the bit finishes a symbol. *)
Definition tree_bit (tree : list huffmanNode) (node : nat) (b : bool) : option (nat * bytes) :=
  let nxt := child (node_at tree node) (Z.b2z b) in
  if (nxt =? 0)%nat then None
  else if (child0 (node_at tree nxt) =? 0)%nat then Some (0%nat, [node_sym (node_at tree nxt)])
  else Some (nxt, []).

Fixpoint tree_run (tree : list huffmanNode) (node : nat) (bits : list bool) : option (nat * bytes) :=
  match bits with
  | [] => Some (node, [])
  | b :: bits =>
      match tree_bit tree node b with
      | None => None
      | Some (node, o) =>
          match tree_run tree node bits with
          | None => None
          | Some (node, out) => Some (node, o ++ out)
          end
      end
  end.

Lemma tree_run_app tree node bs bs' :
  tree_run tree node (bs ++ bs') =
  match tree_run tree node bs with
  | None => None
  | Some (node, out) =>
      match tree_run tree node bs' with
      | None => None
      | Some (node, out') => Some (node, out ++ out')
      end
  end.
Proof.
  revert node. induction bs as [|b bs IH]; intros node; cbn [app tree_run].
  - destruct (tree_run tree node bs') as [[? ?]|]; reflexivity.
  - destruct (tree_bit tree node b) as [[node1 o]|]; [|reflexivity].
    rewrite IH. destruct (tree_run tree node1 bs) as [[node2 o']|]; [|reflexivity].
    destruct (tree_run tree node2 bs') as [[node3 o'']|]; [|reflexivity]. now rewrite app_assoc.
Qed.

(** The bits from the root to each node, in the order the nodes were made. *)
Definition tree_paths (tree : list huffmanNode) : list (list bool) :=
  fold_left (fun paths i =>
      let n := node_at tree i in
      let p := nth i paths [] in
      let paths := <[child0 n := p ++ [false]]> paths in
      if (child1 n =? 0)%nat then paths else <[child1 n := p ++ [true]]> paths)
    (filter (fun i => child0 (node_at tree i) <> 0%nat) (seq 0 (length tree)))
    (replicate (length tree) []).

(** What the start-up code establishes about its tables, decided by running it. *)
Section Tables.
Context (tree : list huffmanNode) (steps : list (list huffmanStep)) (accepts : list bool).
Context (nodes : list nat) (paths : list (list bool)).

Definition path (node : nat) : list bool := nth node paths [].
Definition node_of (state : nat) : nat := nth state nodes 0%nat.
Definition all_ones (p : list bool) : bool := forallb id p && (length p <=? 7)%nat.

Definition step_check (state : nat) (nibble : nat) : bool :=
  let step := step_at steps state (Z.of_nat nibble) in
  match tree_run tree (node_of state) (lowbits (Z.of_nat nibble) 4) with
  | None => negb ((flags step .& huffmanFail) =? 0)
  | Some (node, out) =>
      ((flags step .& huffmanFail) =? 0) && (next step <? 256)%nat && (node_of (next step) =? node)%nat &&
      bool_decide (out = if flags step =? 0 then [] else [sym step])
  end.

Definition path_check (state : nat) (b : bool) : bool :=
  match tree_bit tree (node_of state) b with
  | None => true
  | Some (node, []) =>
      bool_decide (path node = path (node_of state) ++ [b]) && bool_decide (node ∈ nodes)
  | Some (node, [c]) =>
      (node =? 0)%nat && bool_decide (code_bits c = path (node_of state) ++ [b]) && (0 <=? c) && (c <? 256)
  | Some _ => false
  end.

Definition tables_check : bool :=
  forallb (fun st => forallb (step_check st) (seq 0 16) && path_check st false && path_check st true &&
      Bool.eqb (nth st accepts false) (all_ones (path (node_of st)))) (seq 0 256) &&
  (length nodes =? 256)%nat && (node_of 0 =? 0)%nat && bool_decide (path 0 = []) &&
  forallb (fun c => bool_decide (tree_run tree 0 (code_bits (Z.of_nat c)) = Some (0%nat, [Z.of_nat c]))) (seq 0 256) &&
  forallb (fun k => bool_decide (snd <$> tree_run tree 0 (replicate k true) = Some [])) (seq 0 8).

(** ** What the check gives *)

Hypothesis Hcheck : tables_check = true.

Lemma check_facts :
  (forall st, (st < 256)%nat ->
     (forall nib, (nib < 16)%nat -> step_check st nib = true) /\
     (forall b, path_check st b = true) /\
     nth st accepts false = all_ones (path (node_of st))) /\
  length nodes = 256%nat /\ node_of 0 = 0%nat /\ path 0 = [] /\
  (forall c, is_byte c -> tree_run tree 0 (code_bits c) = Some (0%nat, [c])) /\
  (forall k, (k < 8)%nat -> snd <$> tree_run tree 0 (replicate k true) = Some []).
Proof.
  unfold tables_check in Hcheck. rewrite !andb_true_iff in Hcheck.
  destruct Hcheck as [[[[[Hst Hlen] H0] Hp0] Hc] Hk].
  rewrite forallb_forall in Hst, Hc, Hk.
  rewrite Nat.eqb_eq in Hlen, H0. apply bool_decide_eq_true in Hp0.
  split; [|split; [|split; [|split; [|split]]]]; auto.
  - intros st Hst'. specialize (Hst st ltac:(apply in_seq; lia)). cbn beta in Hst.
    rewrite !andb_true_iff in Hst. destruct Hst as [[[Hs Hf] Ht] Ha].
    rewrite forallb_forall in Hs. split; [intros; apply Hs, in_seq; lia|].
    split; [intros []; assumption|]. now apply Bool.eqb_prop.
  - intros c [Hc0 Hc1]. specialize (Hc (Z.to_nat c) ltac:(apply in_seq; lia)).
    apply bool_decide_eq_true in Hc. now rewrite !Z2Nat.id in Hc by lia.
  - intros k Hk'. specialize (Hk k ltac:(apply in_seq; lia)). now apply bool_decide_eq_true in Hk.
Qed.

(** One table step is four bits of the tree. *)
Lemma takeStep_run st nib out :
  (st < 256)%nat -> 0 <= nib < 16 ->
  match tree_run tree (node_of st) (lowbits nib 4) with
  | None => takeStep (step_at steps st nib) out = Err ErrInvalidHuffman
  | Some (node, o) =>
      takeStep (step_at steps st nib) out = Ok (out ++ o) /\
      (next (step_at steps st nib) < 256)%nat /\ node_of (next (step_at steps st nib)) = node
  end.
Proof.
  intros Hst Hnib. destruct check_facts as [Hf _]. destruct (Hf st Hst) as [Hs _].
  specialize (Hs (Z.to_nat nib) ltac:(lia)). unfold step_check in Hs. rewrite Z2Nat.id in Hs by lia.
  unfold takeStep. destruct (tree_run tree (node_of st) (lowbits nib 4)) as [[node o]|].
  - rewrite !andb_true_iff, Nat.ltb_lt, Nat.eqb_eq, bool_decide_eq_true in Hs.
    destruct Hs as [[[Hfl Hn] Hno] ->]. split; [|auto].
    destruct (flags _ =? 0); cbn [negb]; [now rewrite app_nil_r|]. now rewrite Hfl.
  - destruct (Z.eqb_spec (flags (step_at steps st nib)) 0) as [E|]; cbn [negb].
    + rewrite E in Hs. discriminate Hs.
    + now rewrite Hs.
Qed.

Lemma lowbits_byte b : lowbits b 8 = lowbits (b .>> 4) 4 ++ lowbits (b .& 15) 4.
Proof.
  change 8%nat with (4 + 4)%nat. rewrite lowbits_split. f_equal.
  apply lowbits_ext. intros i Hi. rewrite Z.land_spec. change 15 with (Z.ones 4).
  rewrite Z.ones_spec_low by lia. now rewrite andb_true_r.
Qed.

Lemma nibble_range b : is_byte b -> 0 <= b .>> 4 < 16 /\ 0 <= b .& 15 < 16.
Proof.
  intros [? ?]. rewrite Z.shiftr_div_pow2 by lia. change (2 ^ 4) with 16. split.
  - split; [apply Z.div_pos; lia | apply Z.div_lt_upper_bound; lia].
  - change 15 with (2 ^ 4 - 1). rewrite land_low_bits by lia. apply Z.mod_pos_bound. lia.
Qed.

(** The decoder from a state runs the tree over the input's bits; it returns
    what the run emits when the run ends at an accepting node and the output
    stays within the bound. *)
Lemma decodeLoop_run s st out maxLen r :
  bytes_ok s -> (st < 256)%nat -> maxLen <= 0 \/ len out <= maxLen ->
  huffmanDecodeLoop steps accepts st out s maxLen = Ok r <->
  exists node t, tree_run tree (node_of st) (bits_of s) = Some (node, t) /\ r = out ++ t /\
    all_ones (path node) = true /\ (maxLen <= 0 \/ len r <= maxLen).
Proof.
  intros Hs. revert st out. induction Hs as [|b s Hb Hs IH]; intros st out Hst Hout; cbn [huffmanDecodeLoop].
  - destruct check_facts as [Hf _]. destruct (Hf st Hst) as (_ & _ & ->).
    cbn [bits_of map mjoin list_join tree_run]. split.
    + destruct (all_ones _) eqn:E; [|discriminate]. intros [= ->].
      exists (node_of st), []. rewrite app_nil_r. auto.
    + intros (node & t & [= <- <-] & -> & -> & _). now rewrite app_nil_r.
  - destruct (nibble_range b Hb) as [Hhi Hlo].
    change (bits_of (b :: s)) with (lowbits b 8 ++ bits_of s).
    rewrite lowbits_byte, <- app_assoc, tree_run_app.
    pose proof (takeStep_run st (b .>> 4) out Hst Hhi) as H1.
    destruct (tree_run tree (node_of st) (lowbits (b .>> 4) 4)) as [[node1 o1]|];
      [|rewrite H1; split; [discriminate|now intros (? & ? & ? & _)]].
    destruct H1 as (-> & Hst1 & <-). rewrite tree_run_app.
    pose proof (takeStep_run _ (b .& 15) (out ++ o1) Hst1 Hlo) as H2.
    destruct (tree_run tree _ (lowbits (b .& 15) 4)) as [[node2 o2]|];
      [|rewrite H2; split; [discriminate|now intros (? & ? & ? & _)]].
    destruct H2 as (-> & Hst2 & <-).
    set (st2 := next (step_at steps (next (step_at steps st (b .>> 4))) (b .& 15))) in *.
    specialize (IH st2 ((out ++ o1) ++ o2) Hst2).
    destruct (tree_run tree (node_of st2) (bits_of s)) as [[node3 o3]|].
    + assert (len (out ++ o1 ++ o2 ++ o3) = len ((out ++ o1) ++ o2) + len o3) as Hl
        by (autorewrite with fibz; lia).
      pose proof (len_nonneg o3).
      destruct (Z.ltb_spec 0 maxLen); [destruct (Z.ltb_spec maxLen (len ((out ++ o1) ++ o2)))|]; cbn [andb].
      2,3: rewrite IH by lia; split; intros (node & t & [= <- <-] & -> & Ha & Hb');
        eexists _, _; (split; [reflexivity|]); rewrite <- !app_assoc in *; auto.
      split; [discriminate|]. intros (node & t & [= <- <-] & -> & Ha & Hb'). lia.
    + destruct (_ && _) eqn:E; [split; [discriminate|now intros (? & ? & ? & _)]|].
      rewrite IH; [split; now intros (? & ? & ? & _)|].
      rewrite andb_false_iff, !Z.ltb_ge in E. lia.
Qed.

(** A run emits the symbols whose codes are the bits it has passed, the last
    [path] of them pending at the node it ends at. *)
Lemma tree_run_path bs node node' t :
  node ∈ nodes -> tree_run tree node bs = Some (node', t) ->
  path node ++ bs = codes_bits t ++ path node' /\ bytes_ok t /\ node' ∈ nodes.
Proof.
  destruct check_facts as (Hf & Hlen & H0 & Hp0 & _).
  assert (0%nat ∈ nodes) as H0in.
  { rewrite <- H0. apply list_elem_of_lookup. exists 0%nat.
    apply lookup_nth. lia. }
  revert node t. induction bs as [|b bs IH]; intros node t Hin; cbn [tree_run].
  - intros [= <- <-]. rewrite app_nil_r. split; [reflexivity|]. split; [constructor|exact Hin].
  - assert (exists st, (st < 256)%nat /\ node_of st = node) as (st & Hst & <-).
    { apply list_elem_of_lookup in Hin as [st Hst]. exists st. split.
      - rewrite <- Hlen. now apply lookup_lt_is_Some.
      - unfold node_of. now apply nth_lookup_Some. }
    destruct (Hf st Hst) as (_ & Hp & _). specialize (Hp b). unfold path_check in Hp.
    destruct (tree_bit tree (node_of st) b) as [[node1 o]|]; [|discriminate].
    destruct (tree_run tree node1 bs) as [[node2 out]|] eqn:E; [|discriminate].
    intros [= <- <-]. destruct o as [|c [|? ?]]; [| |discriminate].
    + rewrite andb_true_iff, !bool_decide_eq_true in Hp. destruct Hp as [Hp Hin1].
      apply IH in E as (E & Hok & Hin2); [|exact Hin1].
      rewrite Hp, <- app_assoc in E. auto.
    + rewrite !andb_true_iff, Nat.eqb_eq, bool_decide_eq_true, Z.leb_le, Z.ltb_lt in Hp.
      destruct Hp as [[[-> Hp] Hc0] Hc1].
      apply IH in E as (E & Hok & Hin2); [|exact H0in].
      rewrite Hp0 in E. cbn [app] in E. subst bs. split; [|split; [constructor; [split; lia|exact Hok]|exact Hin2]].
      change (codes_bits ([c] ++ out)) with (code_bits c ++ codes_bits out).
      rewrite Hp, <- !app_assoc. reflexivity.
Qed.

Lemma tree_run_codes t :
  bytes_ok t -> tree_run tree 0 (codes_bits t) = Some (0%nat, t).
Proof.
  destruct check_facts as (_ & _ & _ & _ & Hc & _).
  induction 1 as [|c t Hb Ht IH]; [reflexivity|].
  change (codes_bits (c :: t)) with (code_bits c ++ codes_bits t).
  rewrite tree_run_app, Hc, IH by exact Hb. reflexivity.
Qed.

Lemma all_ones_spec p : all_ones p = true <-> exists k, (k < 8)%nat /\ p = replicate k true.
Proof.
  unfold all_ones. rewrite andb_true_iff, forallb_forall, Nat.leb_le. split.
  - intros [Hall Hl]. exists (length p). split; [lia|].
    clear Hl. induction p as [|b p IH]; [reflexivity|]. cbn [length replicate].
    rewrite <- IH; [|intros; apply Hall; now right]. f_equal. apply (Hall b). now left.
  - intros (k & Hk & ->). rewrite length_replicate. split; [|lia].
    intros x Hx%list_elem_of_In%elem_of_replicate. now destruct Hx as [-> _].
Qed.

(** The decoder's table accepts exactly codes followed by at most seven ones. *)
Lemma decode_bits s maxLen t :
  bytes_ok s ->
  huffmanDecodeLoop steps accepts 0 [] s maxLen = Ok t <->
  bytes_ok t /\ (exists k, (k < 8)%nat /\ bits_of s = codes_bits t ++ replicate k true) /\
  (maxLen <= 0 \/ len t <= maxLen).
Proof.
  intros Hs. destruct check_facts as (_ & Hlen & H0 & Hp0 & _ & Hk).
  assert (0%nat ∈ nodes) as H0in.
  { rewrite <- H0. apply list_elem_of_lookup. exists 0%nat.
    apply lookup_nth. lia. }
  assert (maxLen <= 0 \/ len (@nil Z) <= maxLen) as Hnil by (change (len (@nil Z)) with 0; lia).
  rewrite (decodeLoop_run s 0 [] maxLen t Hs ltac:(lia) Hnil), H0. split.
  - intros (node & t' & Hr & -> & Ha & Hl). cbn [app] in *.
    apply tree_run_path in Hr as (Hb & Hok & _); [|exact H0in].
    apply all_ones_spec in Ha as (k & Hk8 & Ha). rewrite Hp0, Ha in Hb. eauto.
  - intros (Hok & (k & Hk8 & Hb) & Hl).
    assert (exists node, tree_run tree 0 (replicate k true) = Some (node, [])) as (node & Hr).
    { specialize (Hk k Hk8). destruct (tree_run tree 0 (replicate k true)) as [[node o]|]; [|discriminate].
      cbn in Hk. injection Hk as ->. eauto. }
    exists node, t. rewrite Hb, tree_run_app, tree_run_codes, Hr, app_nil_r by exact Hok.
    repeat split; auto. apply tree_run_path in Hr as (E & _); [|exact H0in].
    rewrite Hp0 in E. cbn [app codes_bits map mjoin list_join] in E. rewrite <- E.
    apply all_ones_spec. eauto.
Qed.

End Tables.

Lemma tables_ok :
  tables_check huffmanTree huffmanSteps huffmanAccepts (snd (numberStates huffmanTree))
    (tree_paths huffmanTree) = true.
Proof. vm_compute. reflexivity. Qed.

Lemma huffmanDecode_bits s maxLen t :
  bytes_ok s ->
  huffmanDecode s maxLen = Ok t <->
  bytes_ok t /\ (exists k, (k < 8)%nat /\ bits_of s = codes_bits t ++ replicate k true) /\
  (maxLen <= 0 \/ len t <= maxLen).
Proof. exact (decode_bits _ _ _ _ _ tables_ok s maxLen t). Qed.

(** Two byte strings whose bits are the same codes and fewer than eight ones
    are the same bytes. *)
Lemma padding_unique s s' bs k k' :
  bytes_ok s -> bytes_ok s' -> (k < 8)%nat -> (k' < 8)%nat ->
  bits_of s = bs ++ replicate k true -> bits_of s' = bs ++ replicate k' true -> s = s'.
Proof.
  intros Hs Hs' Hk Hk' E E'. apply bits_of_inj; auto.
  assert (k = k') as ->; [|congruence].
  apply (f_equal length) in E, E'. rewrite length_app, length_replicate, length_bits_of in E, E'. lia.
Qed.

Lemma length_codes_bits s :
  bytes_ok s -> Z.of_nat (length (codes_bits s)) = fold_left (fun bits c => bits + codeLenOf c) s 0.
Proof.
  intros Hs. enough (forall a, Z.of_nat (length (codes_bits s)) + a =
      fold_left (fun bits c => bits + codeLenOf c) s a) as H by (rewrite <- H; lia).
  induction Hs as [|c s Hc Hs IH]; intros a; [reflexivity|]. cbn [fold_left].
  rewrite <- IH. change (codes_bits (c :: s)) with (code_bits c ++ codes_bits s).
  rewrite length_app. unfold code_bits. rewrite length_lowbits.
  destruct (code_range c Hc). lia.
Qed.

(** The encoder only appends. *)
Lemma flushBytes_app fuel dst acc n :
  flushBytes fuel dst acc n = (dst ++ (flushBytes fuel [] acc n).1, (flushBytes fuel [] acc n).2).
Proof.
  revert dst n. induction fuel as [|fuel IH]; intros dst n; cbn [flushBytes fst snd]; [now rewrite app_nil_r|].
  case_match; cbn [fst snd]; [|now rewrite app_nil_r].
  rewrite IH, (IH ([] ++ _)). cbn [fst snd]. now rewrite <- app_assoc.
Qed.

Lemma huffmanAppendLoop_app s dst acc n :
  huffmanAppendLoop dst acc n s =
  let '(out, acc', n') := huffmanAppendLoop [] acc n s in (dst ++ out, acc', n').
Proof.
  revert dst acc n. induction s as [|c s IH]; intros dst acc n; cbn [huffmanAppendLoop]; [now rewrite app_nil_r|].
  rewrite flushBytes_app. destruct (flushBytes 8 [] _ _) as [out1 n1]. cbn [fst snd].
  rewrite IH, (IH out1). destruct (huffmanAppendLoop [] _ n1 s) as [[out2 acc2] n2]. now rewrite app_assoc.
Qed.

Lemma huffmanAppend_app dst s : huffmanAppend dst s = dst ++ huffmanAppend [] s.
Proof.
  unfold huffmanAppend. rewrite huffmanAppendLoop_app.
  destruct (huffmanAppendLoop [] 0 0 s) as [[out acc] n]. case_match; [now rewrite app_assoc|reflexivity].
Qed.

Lemma huffmanAppend_bytes s : bytes_ok s -> bytes_ok (huffmanAppend [] s).
Proof. intros Hs. destruct (huffmanAppend_bits [] s Hs) as (_ & _ & _ & H). apply H. constructor. Qed.

Lemma len_huffmanAppend s : bytes_ok s -> len (huffmanAppend [] s) = huffmanLen s.
Proof.
  intros Hs. destruct (huffmanAppend_bits [] s Hs) as (k & Hk & Hb & _).
  apply (f_equal length) in Hb. rewrite !length_app, length_replicate, !length_bits_of in Hb. cbn [length] in Hb.
  unfold huffmanLen. rewrite <- length_codes_bits by exact Hs. unfold len.
  apply (Z.div_unique_pos _ _ _ (7 - Z.of_nat k)); lia.
Qed.

(** Decoding what the encoder wrote. *)
Lemma huffman_roundtrip s maxLen :
  bytes_ok s -> maxLen <= 0 \/ len s <= maxLen -> huffmanDecode (huffmanAppend [] s) maxLen = Ok s.
Proof.
  intros Hs Hl. apply huffmanDecode_bits; [now apply huffmanAppend_bytes|]. splits; auto.
  destruct (huffmanAppend_bits [] s Hs) as (k & Hk & Hb & _). eauto.
Qed.

(** ** Properties *)

(** C34: the table-driven decoder accepts exactly what the encoder writes, and
    gives back what was encoded: the code is complete and prefix free in the
    source's tables, padding other than up to seven 1 bits is refused, and so is
    a text longer than the limit. *)
Theorem huffmanDecode_exact (s t : bytes) (maxLen : Z) :
  bytes_ok s ->
  huffmanDecode s maxLen = Ok t <->
  bytes_ok t /\ s = huffmanAppend [] t /\ (maxLen <= 0 \/ len t <= maxLen).
Proof.
  intros Hs. rewrite huffmanDecode_bits by exact Hs. split.
  - intros (Ht & (k & Hk & Hb) & Hl). split; [exact Ht|]. split; [|exact Hl].
    destruct (huffmanAppend_bits [] t Ht) as (k' & Hk' & Hb' & Hok).
    apply (padding_unique s _ (codes_bits t) k k'); auto. apply Hok. constructor.
  - intros (Ht & -> & Hl). split; [exact Ht|]. split; [|exact Hl].
    destruct (huffmanAppend_bits [] t Ht) as (k' & Hk' & Hb' & _). eauto.
Qed.

(** HuffmanLen is the number of bytes huffmanAppend appends. *)
Theorem huffmanLen_exact (dst s : bytes) :
  bytes_ok s -> len (huffmanAppend dst s) = len dst + huffmanLen s.
Proof.
  intros Hs. now rewrite huffmanAppend_app, len_app, len_huffmanAppend.
Qed.

(** ** Witnesses *)

(** RFC 7541 section C.4.1: www.example.com. *)
Lemma huffmanDecode_exact_witness :
  huffmanDecode (huffmanAppend [] (str "www.example.com")) 64 = Ok (str "www.example.com") <->
  bytes_ok (str "www.example.com") /\
  huffmanAppend [] (str "www.example.com") = huffmanAppend [] (str "www.example.com") /\
  (64 <= 0 \/ len (str "www.example.com") <= 64).
Proof.
  apply (huffmanDecode_exact (huffmanAppend [] (str "www.example.com")) (str "www.example.com") 64).
  vm_compute. repeat (apply List.Forall_cons; [split; [discriminate|reflexivity]|]). apply List.Forall_nil.
Defined.

Lemma huffmanLen_exact_witness :
  len (huffmanAppend [1] (str "www.example.com")) = len [1] + huffmanLen (str "www.example.com").
Proof.
  apply (huffmanLen_exact [1] (str "www.example.com")).
  vm_compute. repeat (apply List.Forall_cons; [split; [discriminate|reflexivity]|]). apply List.Forall_nil.
Defined.

End Huffman.
