(* ===== verification/Probing.v ===== *)
(** * Linear probing

    The theory of the open-addressed tables the HPACK encoder indexes its
    dynamic table with (src/hpack/index.go): a slot's key is found by walking
    from its home position to the first empty slot. What a table must satisfy
    for that walk to be right, and that putting a slot at the end of its walk,
    replacing one in place, and emptying one with the slots after it moved
    back all keep it. Positions and homes are integers modulo the table's
    size. *)

From S2P Require Import Prelude.
From stdpp Require Import base list numbers.
From Stdlib Require Import ZArith Lia.

Local Open Scope Z_scope.

Module Probing.

Section Probing.
Context (N : Z) (HN : 2 <= N).

(** ** Distances around the table *)

Definition dist (a b : Z) : Z := (b - a) mod N.

Lemma dist_range a b : 0 <= dist a b < N.
Proof. apply Z.mod_pos_bound. lia. Qed.

Lemma dist_spec a b : exists k, b - a = dist a b + k * N.
Proof. exists ((b - a) / N). unfold dist. pose proof (Z.div_mod (b - a) N). lia. Qed.

Lemma dist_unique a b d k : 0 <= d < N -> b - a = d + k * N -> dist a b = d.
Proof. intros Hd E. unfold dist. rewrite E, Z.mod_add, Z.mod_small by lia. reflexivity. Qed.

Lemma at_dist h q : 0 <= q < N -> (h + dist h q) mod N = q.
Proof.
  intros Hq. destruct (dist_spec h q) as [k Hk].
  replace (h + dist h q) with (q + (- k) * N) by lia.
  rewrite Z.mod_add, Z.mod_small by lia. reflexivity.
Qed.

Lemma mod_at x : exists k, x mod N = x + k * N.
Proof. exists (- (x / N)). pose proof (Z.div_mod x N). lia. Qed.

Lemma dist_at h d : 0 <= d < N -> dist h ((h + d) mod N) = d.
Proof. intros Hd. destruct (mod_at (h + d)) as [k Hk]. apply (dist_unique _ _ _ k); lia. Qed.

Lemma dist_self a : dist a a = 0.
Proof. apply (dist_unique _ _ _ 0); lia. Qed.

Lemma dist_zero a b : 0 <= a < N -> 0 <= b < N -> dist a b = 0 -> a = b.
Proof. intros Ha Hb E. pose proof (at_dist a b Hb) as H. rewrite E, Z.add_0_r, Z.mod_small in H; lia. Qed.

Lemma dist_inj a b c : 0 <= b < N -> 0 <= c < N -> dist a b = dist a c -> b = c.
Proof. intros Hb Hc E. rewrite <- (at_dist a b), E, at_dist; auto. Qed.

(** A position [d] steps along the way from [h] to [q] is that much nearer. *)
Lemma dist_along h q d : 0 <= d <= dist h q -> dist ((h + d) mod N) q = dist h q - d.
Proof.
  intros Hd. pose proof (dist_range h q). destruct (dist_spec h q) as [k Hk].
  destruct (mod_at (h + d)) as [k' Hk']. apply (dist_unique _ _ _ (k - k')); lia.
Qed.

(** [m] lies between [h] and [q] when it is no further from [q] than [h] is. *)
Lemma dist_back h m q : dist m q <= dist h q -> dist h m = dist h q - dist m q.
Proof.
  intros Hle. pose proof (dist_range h q). pose proof (dist_range m q).
  destruct (dist_spec h q) as [k Hk], (dist_spec m q) as [k' Hk'].
  apply (dist_unique _ _ _ (k - k')); lia.
Qed.

Lemma dist_succ a j : dist a j + 1 < N -> dist a ((j + 1) mod N) = dist a j + 1.
Proof.
  intros Hlt. pose proof (dist_range a j). destruct (dist_spec a j) as [k Hk].
  destruct (mod_at (j + 1)) as [k' Hk']. apply (dist_unique _ _ _ (k + k')); lia.
Qed.

Lemma dist_pred j e : 0 <= j < N -> 0 <= e < N -> j <> e -> dist ((j + 1) mod N) e = dist j e - 1.
Proof.
  intros Hj He Hne. apply (dist_along j e 1). pose proof (dist_range j e).
  destruct (Z.eq_dec (dist j e) 0) as [E|]; [|lia]. apply dist_zero in E; lia.
Qed.

Lemma mod_in x : 0 <= x mod N < N.
Proof. apply Z.mod_pos_bound. lia. Qed.

(** ** Slots *)

Definition get (slots : list Z) (q : Z) : Z := nth (Z.to_nat q) slots 0.
Definition set (slots : list Z) (q v : Z) : list Z := <[Z.to_nat q := v]> slots.

Definition sized (slots : list Z) : Prop := Z.of_nat (length slots) = N.

Lemma set_sized slots q v : sized slots -> sized (set slots q v).
Proof. unfold sized, set. now rewrite length_insert. Qed.

Lemma get_lookup slots q : sized slots -> 0 <= q < N -> slots !! Z.to_nat q = Some (get slots q).
Proof. intros Hs Hq. apply lookup_nth. unfold sized in Hs. lia. Qed.

Lemma get_set slots q v r :
  sized slots -> 0 <= q < N -> 0 <= r < N ->
  get (set slots q v) r = if decide (q = r) then v else get slots r.
Proof.
  intros Hs Hq Hr. pose proof (set_sized slots q v Hs) as Hs'.
  assert (Some (get (set slots q v) r) = Some (if decide (q = r) then v else get slots r)) as [= ->]; [|reflexivity].
  rewrite <- (get_lookup (set slots q v) r) by auto. unfold set.
  destruct (decide (q = r)) as [->|Hne].
  - apply list_lookup_insert_eq. unfold sized in Hs. lia.
  - rewrite list_lookup_insert_ne by lia. now apply get_lookup.
Qed.

(** Every position on the way from [h] to [q] is taken. *)
Definition reach (slots : list Z) (h q : Z) : Prop :=
  forall d, 0 <= d < dist h q -> get slots ((h + d) mod N) <> 0.

Section Homes.
Context (home : Z -> Z).

(** A table the probe is right for: every slot is reached from its home, and
    no slot is there twice. *)
Record wf (slots : list Z) : Prop := {
  wf_sized : sized slots;
  wf_reach : forall q, 0 <= q < N -> get slots q <> 0 -> reach slots (home (get slots q)) q;
  wf_inj : forall q r, 0 <= q < N -> 0 <= r < N -> get slots q <> 0 -> get slots q = get slots r -> q = r
}.

(** The values a table holds. *)
Definition holds (slots : list Z) (v : Z) : Prop :=
  v <> 0 /\ exists q, 0 <= q < N /\ get slots q = v.

(** The walk that stops at the first empty slot: [v] put there. *)
Lemma wf_insert slots d v :
  wf slots -> v <> 0 -> ~ holds slots v -> 0 <= d < N ->
  (forall d', 0 <= d' < d -> get slots ((home v + d') mod N) <> 0) ->
  get slots ((home v + d) mod N) = 0 ->
  wf (set slots ((home v + d) mod N) v) /\
  (forall w, holds (set slots ((home v + d) mod N) v) w <-> holds slots w \/ w = v).
Proof.
  intros [Hs Hr Hi] Hv Hnew Hd Hbefore Hzero. set (p := (home v + d) mod N) in *.
  assert (0 <= p < N) as Hp by apply mod_in.
  assert (forall r, 0 <= r < N -> r <> p -> get (set slots p v) r = get slots r) as Hother.
  { intros r Hrr Hne. rewrite get_set by auto. destruct (decide (p = r)); congruence. }
  assert (get (set slots p v) p = v) as Hself.
  { rewrite get_set by auto. destruct (decide (p = p)); congruence. }
  assert (forall r, 0 <= r < N -> get slots r <> v) as Hno.
  { intros r Hrr E. apply Hnew. split; eauto. }
  split; [split|].
  - now apply set_sized.
  - intros q Hq Hnz d' Hd'. destruct (Z.eq_dec ((home (get (set slots p v) q) + d') mod N) p) as [E|Hne].
    { now rewrite E, Hself. }
    rewrite Hother by (auto using mod_in). destruct (Z.eq_dec q p) as [->|Hqp].
    + rewrite Hself in *. apply Hbefore. unfold p in Hd'. rewrite dist_at in Hd' by lia. lia.
    + rewrite Hother in * by auto. now apply (Hr q).
  - intros q r Hq Hr' Hnz E. destruct (Z.eq_dec q p) as [->|Hqp], (Z.eq_dec r p) as [->|Hrp]; auto.
    + rewrite Hself, Hother in E by auto. exfalso. now apply (Hno r).
    + rewrite Hself, Hother in E by auto. exfalso. now apply (Hno q).
    + rewrite !Hother in * by auto. auto.
  - intros w. split.
    + intros [Hw (q & Hq & E)]. destruct (Z.eq_dec q p) as [->|]; [right; congruence|].
      left. split; [exact Hw|]. exists q. rewrite <- E, Hother by auto. auto.
    + intros [[Hw (q & Hq & E)]| ->]; [|split; eauto].
      split; [exact Hw|]. exists q. split; [exact Hq|]. rewrite Hother; [exact E|exact Hq|].
      intros ->. congruence.
Qed.

(** A slot replaced in place by another with the same home. *)
Lemma wf_replace slots q v :
  wf slots -> 0 <= q < N -> get slots q <> 0 -> v <> 0 -> ~ holds slots v ->
  home v mod N = home (get slots q) mod N ->
  wf (set slots q v) /\
  (forall w, holds (set slots q v) w <-> (holds slots w /\ w <> get slots q) \/ w = v).
Proof.
  intros [Hs Hr Hi] Hq Hnz Hv Hnew Hhome.
  assert (forall r, 0 <= r < N -> r <> q -> get (set slots q v) r = get slots r) as Hother.
  { intros r Hrr Hne. rewrite get_set by auto. destruct (decide (q = r)); congruence. }
  assert (get (set slots q v) q = v) as Hself.
  { rewrite get_set by auto. destruct (decide (q = q)); congruence. }
  assert (forall r, 0 <= r < N -> get slots r <> v) as Hno.
  { intros r Hrr E. apply Hnew. split; eauto. }
  assert (forall r, 0 <= r < N -> get slots r <> 0 -> get (set slots q v) r <> 0) as Hmono.
  { intros r Hrr. destruct (Z.eq_dec r q) as [->|]; [now rewrite Hself|now rewrite Hother]. }
  split; [split|].
  - now apply set_sized.
  - intros r Hrr Hrnz d Hd. apply Hmono; [apply mod_in|].
    destruct (Z.eq_dec r q) as [->|Hrq].
    + rewrite Hself in *. rewrite Zplus_mod, Hhome, <- Zplus_mod. apply (Hr q); auto.
      unfold dist in *. rewrite Zminus_mod, <- Hhome, <- Zminus_mod. exact Hd.
    + rewrite Hother in * by auto. now apply (Hr r).
  - intros r r' Hrr Hrr' Hrnz E.
    destruct (Z.eq_dec r q) as [->|Hrq], (Z.eq_dec r' q) as [->|Hrq']; auto.
    + rewrite Hself, Hother in E by auto. exfalso. now apply (Hno r').
    + rewrite Hself, Hother in E by auto. exfalso. now apply (Hno r).
    + rewrite !Hother in * by auto. auto.
  - intros w. split.
    + intros [Hw (r & Hrr & E)]. destruct (Z.eq_dec r q) as [->|Hrq]; [right; congruence|].
      left. rewrite Hother in E by auto. split; [split; eauto|].
      intros E'. apply Hrq. apply Hi; auto; congruence.
    + intros [[[Hw (r & Hrr & E)] Hne]| ->]; [|split; eauto].
      split; [exact Hw|]. exists r. split; [exact Hrr|]. rewrite Hother; auto. intros ->. congruence.
Qed.

(** ** Emptying a slot *)

(** While the slots after the hole are moved back: [V] is the table with the
    hole empty, [j] the next slot to look at, and [e] an empty slot ahead. *)
Record shifting (slots : list Z) (hole j e : Z) : Prop := {
  sh_sized : sized slots;
  sh_hole : 0 <= hole < N;
  sh_j : 0 <= j < N;
  sh_e : 0 <= e < N;
  sh_ahead : 1 <= dist hole j <= dist hole e;
  sh_empty : get (set slots hole 0) e = 0;
  sh_inj : forall q r, 0 <= q < N -> 0 <= r < N -> get (set slots hole 0) q <> 0 ->
    get (set slots hole 0) q = get (set slots hole 0) r -> q = r;
  sh_reach : forall q d, 0 <= q < N -> get (set slots hole 0) q <> 0 ->
    0 <= d < dist (home (get (set slots hole 0) q)) q ->
    get (set slots hole 0) ((home (get (set slots hole 0) q) + d) mod N) <> 0 \/
    ((home (get (set slots hole 0) q) + d) mod N = hole /\ dist hole j <= dist hole q)
}.

Lemma get_hole slots hole r :
  sized slots -> 0 <= hole < N -> 0 <= r < N ->
  get (set slots hole 0) r = if decide (hole = r) then 0 else get slots r.
Proof. intros. now apply get_set. Qed.

(** The scan starts right after the hole. *)
Lemma shifting_start slots hole e :
  wf slots -> 0 <= hole < N -> get slots hole <> 0 -> 0 <= e < N -> get slots e = 0 ->
  shifting slots hole ((hole + 1) mod N) e.
Proof.
  intros [Hs Hr Hi] Hh Hnz He Hez.
  assert (hole <> e) as Hne by congruence.
  assert (dist hole ((hole + 1) mod N) = 1) as Hd1 by (apply dist_at; lia).
  assert (forall q, 0 <= q < N -> get (set slots hole 0) q <> 0 ->
    q <> hole /\ get (set slots hole 0) q = get slots q) as Hget.
  { intros q Hq Hqz. rewrite get_hole in * by auto. destruct (decide (hole = q)); split; congruence. }
  split; auto using mod_in.
  - rewrite Hd1. split; [lia|]. pose proof (dist_range hole e).
    destruct (Z.eq_dec (dist hole e) 0) as [E|]; [|lia]. now apply dist_zero in E.
  - rewrite get_hole by auto. now destruct (decide (hole = e)).
  - intros q r Hq Hr' Hqz E. destruct (Hget q Hq Hqz) as [_ Eq]. rewrite E in Hqz.
    destruct (Hget r Hr' Hqz) as [_ Er]. apply Hi; auto; congruence.
  - intros q d Hq Hqz Hd. destruct (Hget q Hq Hqz) as [Hqh Eq]. rewrite Eq in *.
    destruct (Z.eq_dec ((home (get slots q) + d) mod N) hole) as [E|Hne'].
    + right. split; [exact E|]. rewrite Hd1. pose proof (dist_range hole q).
      destruct (Z.eq_dec (dist hole q) 0) as [E0|]; [|lia]. apply dist_zero in E0; auto. congruence.
    + left. rewrite get_hole by auto using mod_in.
      destruct (decide _); [congruence|]. now apply Hr.
Qed.

(** The slot at [j] stays where it is: the hole is not between its home and it. *)
Lemma shifting_keep slots hole j e :
  shifting slots hole j e -> get slots j <> 0 ->
  dist (home (get slots j)) j < dist hole j ->
  shifting slots hole ((j + 1) mod N) e.
Proof.
  intros [Hs Hh Hj He Ha Hez Hi Hr] Hjz Hlt.
  assert (j <> hole) as Hjh by (intros ->; rewrite dist_self in Ha; lia).
  assert (j <> e) as Hje.
  { intros ->. rewrite get_hole in Hez by auto. destruct (decide (hole = e)); congruence. }
  assert (dist hole j < dist hole e) as Hlt'.
  { destruct (Z.eq_dec (dist hole j) (dist hole e)) as [E|]; [|lia]. now apply dist_inj in E. }
  pose proof (dist_range hole e).
  split; auto using mod_in.
  - rewrite dist_succ by lia. lia.
  - intros q d Hq Hqz Hd. destruct (Hr q d Hq Hqz Hd) as [|[E Hle]]; [now left|].
    right. split; [exact E|]. rewrite dist_succ by lia.
    enough (q <> j) by (destruct (Z.eq_dec (dist hole q) (dist hole j)) as [E'|]; [|lia]; now apply dist_inj in E').
    intros ->. rewrite get_hole in * by auto. destruct (decide (hole = j)); [congruence|].
    assert (dist hole j = dist (home (get slots j)) j - d) as E'; [|lia].
    rewrite <- E. apply dist_along. lia.
Qed.

(** The slot at [j] moves into the hole, and [j] is the new hole. *)
Lemma shifting_move slots hole j e :
  shifting slots hole j e -> get slots j <> 0 ->
  dist hole j <= dist (home (get slots j)) j ->
  shifting (set slots hole (get slots j)) j ((j + 1) mod N) e.
Proof.
  intros [Hs Hh Hj He Ha Hez Hi Hr] Hjz Hle.
  assert (j <> hole) as Hjh by (intros ->; rewrite dist_self in Ha; lia).
  assert (j <> e) as Hje.
  { intros ->. rewrite get_hole in Hez by auto. destruct (decide (hole = e)); congruence. }
  set (s := get slots j) in *. set (V := set slots hole 0) in *.
  assert (sized V) as HV by now apply set_sized.
  assert (get V j = s) as HVj by (unfold V; rewrite get_hole by auto; destruct (decide _); [congruence|reflexivity]).
  assert (get V hole = 0) as HVh by (unfold V; rewrite get_hole by auto; destruct (decide _); congruence).
  assert (forall r, 0 <= r < N -> get (set (set slots hole s) j 0) r =
    if decide (r = j) then 0 else if decide (r = hole) then s else get V r) as Hget.
  { intros r Hrr. rewrite get_set, get_set by auto using set_sized. unfold V. rewrite get_hole by auto.
    repeat case_decide; congruence. }
  assert (dist j ((j + 1) mod N) = 1) as Hd1 by (apply dist_at; lia).
  assert (forall q, 0 <= q < N -> q <> j -> 1 <= dist j q) as Hfar.
  { intros q Hq Hne. pose proof (dist_range j q). destruct (Z.eq_dec (dist j q) 0) as [E|]; [|lia].
    apply dist_zero in E; auto. congruence. }
  assert (get V e = 0 /\ e <> hole) as [_ Heh].
  { split; [exact Hez|]. intros ->. rewrite dist_self in Ha. lia. }
  split; auto using mod_in, set_sized.
  - rewrite Hd1. split; [lia|]. apply Hfar; auto.
  - rewrite Hget by auto. repeat case_decide; congruence.
  - intros q r Hq Hr' Hqz E. rewrite !Hget in * by auto.
    destruct (decide (q = j)) as [|Hqj]; [congruence|]. destruct (decide (r = j)) as [|Hrj]; [congruence|].
    destruct (decide (q = hole)) as [->|Hqh], (decide (r = hole)) as [->|Hrh]; auto.
    + exfalso. apply Hrj. symmetry. apply Hi; auto; congruence.
    + exfalso. apply Hqj. apply Hi; auto; congruence.
  - intros q d Hq Hqz Hd. rewrite Hget in Hqz, Hd by auto. rewrite (Hget q) by auto.
    destruct (decide (q = j)) as [->|Hqj]; [congruence|].
    destruct (decide (q = hole)) as [->|Hqh].
    + left. assert (dist (home s) hole = dist (home s) j - dist hole j) as Edist by (apply dist_back; auto).
      rewrite Hget by auto using mod_in.
      assert ((home s + d) mod N <> j) as Hnj.
      { intros E. pose proof (dist_range (home s) j).
        assert (dist (home s) ((home s + d) mod N) = d) as E' by (apply dist_at; lia). rewrite E in E'. lia. }
      assert ((home s + d) mod N <> hole) as Hnh.
      { intros E. pose proof (dist_range (home s) j).
        assert (dist (home s) ((home s + d) mod N) = d) as E' by (apply dist_at; lia). rewrite E in E'. lia. }
      repeat case_decide; try congruence.
      destruct (Hr j d) as [Hok|[E _]]; rewrite ?HVj in *; auto; lia.
    + destruct (Hr q d Hq Hqz Hd) as [Hok|[E _]].
      * rewrite Hget by auto using mod_in.
        case_decide as E; [right; rewrite Hd1; auto|]. case_decide; [now left|now left].
      * left. rewrite E, Hget by auto. repeat case_decide; congruence.
Qed.

(** The scan meets an empty slot: the hole is emptied for good. *)
Lemma shifting_done slots hole j e :
  shifting slots hole j e -> get slots j = 0 -> wf (set slots hole 0).
Proof.
  intros [Hs Hh Hj He Ha Hez Hi Hr] Hjz.
  set (V := set slots hole 0) in *.
  assert (get V j = 0) as HVj by (unfold V; rewrite get_hole by auto; case_decide; congruence).
  assert (j <> hole) as Hjh by (intros ->; rewrite dist_self in Ha; lia).
  split; [now apply set_sized| |exact Hi].
  intros q Hq Hqz d Hd. destruct (Hr q d Hq Hqz Hd) as [|[E Hle]]; [assumption|exfalso].
  set (h := home (get V q)) in *.
  assert (dist hole q = dist h q - d) as E1 by (rewrite <- E; apply dist_along; lia).
  assert (dist hole j < dist hole q) as Hlt.
  { destruct (Z.eq_dec (dist hole j) (dist hole q)) as [E'|]; [|lia].
    apply dist_inj in E'; auto. rewrite E' in HVj. congruence. }
  assert ((h + (d + dist hole j)) mod N = j) as Ej.
  { rewrite Z.add_assoc, <- Zplus_mod_idemp_l, E. now apply at_dist. }
  pose proof (Hr q (d + dist hole j) Hq Hqz) as Hr'. change (home (get V q)) with h in Hr'.
  pose proof (dist_range hole j). rewrite Ej in Hr'. destruct Hr' as [|[? _]]; [lia|congruence|congruence].
Qed.

(** ** What a table holds *)

Lemma holds_start slots hole w :
  wf slots -> 0 <= hole < N -> get slots hole <> 0 ->
  holds (set slots hole 0) w <-> holds slots w /\ w <> get slots hole.
Proof.
  intros [Hs Hr Hi] Hh Hnz. split.
  - intros [Hw (q & Hq & E)]. rewrite get_hole in E by auto.
    destruct (decide (hole = q)) as [|Hne]; [congruence|]. split; [split; eauto|].
    intros E'. apply Hne. apply Hi; auto; congruence.
  - intros [[Hw (q & Hq & E)] Hne]. split; [exact Hw|]. exists q. split; [exact Hq|].
    rewrite get_hole by auto. destruct (decide (hole = q)); congruence.
Qed.

Lemma holds_move slots hole j w :
  sized slots -> 0 <= hole < N -> 0 <= j < N -> j <> hole -> get slots j <> 0 ->
  holds (set (set slots hole (get slots j)) j 0) w <-> holds (set slots hole 0) w.
Proof.
  intros Hs Hh Hj Hne Hnz.
  assert (forall r, 0 <= r < N -> get (set (set slots hole (get slots j)) j 0) r =
    if decide (r = j) then 0 else if decide (r = hole) then get slots j else get slots r) as Hget.
  { intros r Hr. rewrite !get_set by auto using set_sized. repeat case_decide; congruence. }
  split; intros [Hw (q & Hq & E)]; (split; [exact Hw|]).
  - rewrite Hget in E by auto. destruct (decide (q = j)); [congruence|].
    exists (if decide (q = hole) then j else q). rewrite get_hole by (case_decide; auto).
    repeat case_decide; split; auto; congruence.
  - rewrite get_hole in E by auto. destruct (decide (hole = q)); [congruence|].
    exists (if decide (q = j) then hole else q). rewrite Hget by (case_decide; auto).
    repeat case_decide; split; auto; congruence.
Qed.

(** A table with more slots than the values it can hold has an empty one. *)
Lemma has_empty slots (pos : Z -> nat) (M : nat) :
  wf slots -> Z.of_nat M < N ->
  (forall v, holds slots v -> (pos v < M)%nat) ->
  (forall v w, holds slots v -> holds slots w -> pos v = pos w -> v = w) ->
  exists e, 0 <= e < N /\ get slots e = 0.
Proof.
  intros [Hs Hr Hi] HM Hlt Hpi.
  destruct (decide (Exists (fun v => v = 0) slots)) as [Hex|Hall].
  - apply Exists_exists in Hex as (v & Hin & ->). apply list_elem_of_In, list_elem_of_lookup in Hin as [i Hi0].
    exists (Z.of_nat i). pose proof (lookup_lt_Some _ _ _ Hi0). unfold sized in Hs.
    split; [lia|]. unfold get. rewrite Nat2Z.id. now apply nth_lookup_Some.
  - exfalso. assert (forall i v, slots !! i = Some v ->
        0 <= Z.of_nat i < N /\ get slots (Z.of_nat i) = v /\ v <> 0) as Hat.
    { intros i v Hv. pose proof (lookup_lt_Some _ _ _ Hv). unfold sized in Hs.
      split; [lia|]. split; [unfold get; rewrite Nat2Z.id; now apply nth_lookup_Some|].
      intros ->. apply Hall, Exists_exists. exists 0. split; [|reflexivity].
      apply list_elem_of_In, list_elem_of_lookup. eauto. }
    assert (NoDup (pos <$> slots)) as Hnd.
    { apply NoDup_alt. intros i i' p Hp Hp'. rewrite list_lookup_fmap in Hp, Hp'.
      destruct (slots !! i) as [v|] eqn:Ev; [|discriminate].
      destruct (slots !! i') as [v'|] eqn:Ev'; [|discriminate].
      cbn in Hp, Hp'. injection Hp as <-. injection Hp' as Hp'.
      destruct (Hat i v Ev) as (Hri & Hgi & Hzi), (Hat i' v' Ev') as (Hri' & Hgi' & Hzi').
      assert (v' = v) as -> by (apply Hpi; auto; split; eauto).
      assert (Z.of_nat i = Z.of_nat i') by (apply Hi; auto; congruence). lia. }
    assert (pos <$> slots ⊆ seq 0 M) as Hsub.
    { intros p Hp. apply list_elem_of_fmap in Hp as (v & -> & Hin).
      apply list_elem_of_lookup in Hin as [i Hv]. destruct (Hat i v Hv) as (Hri & Hgi & Hzi).
      apply elem_of_seq. specialize (Hlt v). split; [lia|]. apply Hlt. split; eauto. }
    apply NoDup_ListNoDup, NoDup_incl_length with (l' := seq 0 M) in Hnd; [|intros p Hp; apply list_elem_of_In, Hsub, list_elem_of_In, Hp].
    rewrite length_fmap, length_seq in Hnd. unfold sized in Hs. lia.
Qed.

End Homes.

(** Only the homes of the values a table holds matter. *)
Lemma wf_home_ext home home' slots :
  (forall v, holds slots v -> home v = home' v) -> wf home slots -> wf home' slots.
Proof.
  intros He [Hs Hr Hi]. split; auto.
  intros q Hq Hz. rewrite <- He; [now apply Hr|]. split; eauto.
Qed.

End Probing.
End Probing.
