(* ===== verification/HpackTable.v ===== *)
(** * The HPACK dynamic table and its index (src/hpack/hpack.go, src/hpack/index.go)

    The table both sides of a connection keep, its eviction, and the two hash
    tables with linear probing an encoder finds entries with. The hash is
    [maphash.String] under a seed drawn at start-up: any function of the
    string, so a parameter here.

    An operation returns [None] where the code would index a slice out of
    range or loop without end; the lemmas show that it never does. *)

From S2P Require Import Prelude HpackTables Probing.
From stdpp Require Import base list numbers.
From Stdlib Require Import ZArith Lia.

Local Open Scope Z_scope.
Local Open Scope go_scope.

Module HTable.

(** ** Data *)

Definition field_size (f : HeaderField) : Z := len (Name f) + len (Value f) + 32.

Record fieldIndex : Type := mkIndex { pairs : list Z; names : list Z; ix_mask : Z }.

Record dynamicTable : Type := mkTable {
  entries : list HeaderField;
  size : Z;
  maxSize : Z;
  first : Z;
  index : option fieldIndex
}.

Definition DefaultTableSize : Z := 4096.
Definition MaxEncoderTableSize : Z := 1 .<< 20.

(** [t.entries[len-index]], oldest first, index 1 the newest. *)
Definition get (t : dynamicTable) (i : Z) : option HeaderField :=
  if (i <? 1) || (len (entries t) <? i) then None
  else entries t !! Z.to_nat (len (entries t) - i).

(** The combined index space: the static table, then the dynamic one. *)
Definition field (t : dynamicTable) (i : Z) : option HeaderField :=
  if i =? 0 then None
  else if i <=? len staticTable then staticTable !! Z.to_nat (i - 1)
  else
    let rest := i - len staticTable in
    if len (entries t) <? rest then None else get t rest.

(** ** The index *)

Definition slotUsed : Z := 0x80000000.
Definition slotTag : Z := 0xffff0000.
Definition indexFrom : Z := 16.

(** [for n < want { n *= 2 }] *)
Fixpoint doubleTo (fuel : nat) (n want : Z) : Z :=
  match fuel with
  | O => n
  | S fuel => if n <? want then doubleTo fuel (n * 2) want else n
  end.

Definition newFieldIndex (maxSize : Z) : fieldIndex :=
  let n := doubleTo 64 32 (2 * (maxSize ÷ 32)) in
  let slots := replicate (Z.to_nat n) 0 in
  mkIndex slots slots (n - 1).

Definition fits (x : fieldIndex) (maxSize : Z) : bool := 2 * (maxSize ÷ 32) <=? len (pairs x).

Definition slotOf (h id : Z) : Z := (slotUsed .| u32 (u32 (h .>> 49) .<< 16)) .| id.

Definition slotPos (t : dynamicTable) (s : Z) : Z := u16 (u16 s - first t).

Section Hash.
Context (maphash : bytes -> Z).

Definition hashName (name : bytes) : Z := u64 (maphash name).

Definition hashPair (nameHash : Z) (value : bytes) : Z :=
  nameHash .^ u64 (u64 (maphash value) * 0x9e3779b97f4a7c15).

(** The search for the entry with a key. *)
Fixpoint findLoop (fuel : nat) (t : dynamicTable) (mask : Z) (slots : list Z) (tag : Z)
    (name value : bytes) (pair : bool) (i : Z) : option Z :=
  match fuel with
  | O => None
  | S fuel =>
      match slots !! Z.to_nat (i .& mask) with
      | None => None
      | Some s =>
          if s =? 0 then Some (-1)
          else if negb ((s .& slotTag) =? tag) then findLoop fuel t mask slots tag name value pair (u64 (i + 1))
          else
            let p := slotPos t s in
            match entries t !! Z.to_nat p with
            | None => None
            | Some f =>
                if bool_decide (Name f = name) && (negb pair || bool_decide (Value f = value)) then Some p
                else findLoop fuel t mask slots tag name value pair (u64 (i + 1))
            end
      end
  end.

Definition find (t : dynamicTable) (mask : Z) (slots : list Z) (h : Z) (name value : bytes) (pair : bool)
    : option Z :=
  findLoop (length slots) t mask slots (slotOf h 0) name value pair h.

(** The walk to the slot of a key, or to the first empty one. *)
Fixpoint linkLoop (fuel : nat) (t : dynamicTable) (mask : Z) (slots : list Z) (tag h : Z) (p : nat)
    (f : HeaderField) (pair : bool) (i : Z) : option (list Z) :=
  match fuel with
  | O => None
  | S fuel =>
      let k := Z.to_nat (i .& mask) in
      match slots !! k with
      | None => None
      | Some s =>
          let again := linkLoop fuel t mask slots tag h p f pair (u64 (i + 1)) in
          let take := Some (<[k := slotOf h (u16 (first t + u16 (Z.of_nat p)))]> slots) in
          if negb (s =? 0) then
            if negb ((s .& slotTag) =? tag) then again
            else
              match entries t !! Z.to_nat (slotPos t s) with
              | None => None
              | Some g =>
                  if negb (bool_decide (Name g = Name f)) ||
                     (pair && negb (bool_decide (Value g = Value f)))
                  then again else take
              end
          else take
      end
  end.

Definition link (t : dynamicTable) (mask : Z) (slots : list Z) (h : Z) (p : nat) (pair : bool)
    : option (list Z) :=
  match entries t !! p with
  | None => None
  | Some f => linkLoop (length slots) t mask slots (slotOf h 0) h p f pair h
  end.

(** The first loop of unlink: [Some None] when the key has no slot for [p]. *)
Fixpoint holeLoop (fuel : nat) (t : dynamicTable) (mask : Z) (slots : list Z) (p : nat) (hole : Z)
    : option (option Z) :=
  match fuel with
  | O => None
  | S fuel =>
      match slots !! Z.to_nat hole with
      | None => None
      | Some s =>
          if s =? 0 then Some None
          else if slotPos t s =? Z.of_nat p then Some (Some hole)
          else holeLoop fuel t mask slots p ((hole + 1) .& mask)
      end
  end.

(** The home of the entry a slot refers to. *)
Definition homeHash (pair : bool) (f : HeaderField) : Z :=
  let home := hashName (Name f) in
  if pair then hashPair home (Value f) else home.

(** The second loop: the slots after the hole move back into it. *)
Fixpoint shiftLoop (fuel : nat) (t : dynamicTable) (mask : Z) (slots : list Z) (pair : bool) (hole j : Z)
    : option (list Z) :=
  match fuel with
  | O => None
  | S fuel =>
      match slots !! Z.to_nat j with
      | None => None
      | Some s =>
          if s =? 0 then Some (<[Z.to_nat hole := 0]> slots)
          else
            match entries t !! Z.to_nat (slotPos t s) with
            | None => None
            | Some f =>
                let home := homeHash pair f in
                if ((u64 (j - hole) .& mask) <=? (u64 (j - home) .& mask))
                then shiftLoop fuel t mask (<[Z.to_nat hole := s]> slots) pair j ((j + 1) .& mask)
                else shiftLoop fuel t mask slots pair hole ((j + 1) .& mask)
            end
      end
  end.

Definition unlink (t : dynamicTable) (mask : Z) (slots : list Z) (h : Z) (p : nat) (pair : bool)
    : option (list Z) :=
  match holeLoop (length slots) t mask slots p (h .& mask) with
  | None => None
  | Some None => Some slots
  | Some (Some hole) => shiftLoop (length slots) t mask slots pair hole ((hole + 1) .& mask)
  end.

(** [for p := range n]: [k] entries to go, the next at [p]. *)
Fixpoint unindexLoop (k : nat) (t : dynamicTable) (x : fieldIndex) (p : nat) : option fieldIndex :=
  match k with
  | O => Some x
  | S k =>
      f ← entries t !! p;
      let h := hashName (Name f) in
      ns ← unlink t (ix_mask x) (names x) h p false;
      ps ← unlink t (ix_mask x) (pairs x) (hashPair h (Value f)) p true;
      unindexLoop k t (mkIndex ps ns (ix_mask x)) (S p)
  end.

Definition unindex (t : dynamicTable) (x : fieldIndex) (n : nat) : option fieldIndex :=
  unindexLoop n t x 0.

(** ** Eviction *)

(** How many of the oldest entries go, and the size left. *)
Fixpoint evictCount (size maxSize : Z) (es : list HeaderField) : nat * Z :=
  match es with
  | [] => (0%nat, size)
  | f :: es =>
      if maxSize <? size
      then let '(n, size) := evictCount (size - field_size f) maxSize es in (S n, size)
      else (0%nat, size)
  end.

Definition evict (t : dynamicTable) : option dynamicTable :=
  let '(n, size) := evictCount (size t) (maxSize t) (entries t) in
  if (n =? 0)%nat then Some t
  else
    ix ← match index t with
         | None => Some None
         | Some x => Some <$> unindex t x n
         end;
    Some (mkTable (drop n (entries t)) size (maxSize t) (u16 (first t + u16 (Z.of_nat n))) ix).

Definition add (t : dynamicTable) (f : HeaderField) : option dynamicTable :=
  evict (mkTable (entries t ++ [f]) (size t + field_size f) (maxSize t) (first t) (index t)).

Definition setMaxSize (t : dynamicTable) (n : Z) : option dynamicTable :=
  t ← evict (mkTable (entries t) (size t) n (first t) (index t));
  match index t with
  | Some x =>
      if fits x n then Some t
      else Some (mkTable (entries t) (size t) (maxSize t) (first t) None)
  | None => Some t
  end.

(** [for p, g := range t.entries]: every entry linked afresh. *)
Fixpoint reindexLoop (k : nat) (t : dynamicTable) (x : fieldIndex) (p : nat) : option fieldIndex :=
  match k with
  | O => Some x
  | S k =>
      g ← entries t !! p;
      let h := hashName (Name g) in
      ns ← link t (ix_mask x) (names x) h p false;
      ps ← link t (ix_mask x) (pairs x) (hashPair h (Value g)) p true;
      reindexLoop k t (mkIndex ps ns (ix_mask x)) (S p)
  end.

(** The switch of addIndexed: the index of a table whose last entry is new. *)
Definition indexNewest (t : dynamicTable) (f : HeaderField) (nameHash pairHash : Z) (hashed : bool)
    : option (option fieldIndex) :=
  match index t with
  | Some x =>
      let nameHash := if hashed then nameHash else hashName (Name f) in
      let pairHash := if hashed then pairHash else hashPair nameHash (Value f) in
      let p := (length (entries t) - 1)%nat in
      ns ← link t (ix_mask x) (names x) nameHash p false;
      ps ← link t (ix_mask x) (pairs x) pairHash p true;
      Some (Some (mkIndex ps ns (ix_mask x)))
  | None =>
      if indexFrom <? len (entries t)
      then Some <$> reindexLoop (length (entries t)) t (newFieldIndex (maxSize t)) 0
      else Some None
  end.

Definition addIndexed (t : dynamicTable) (f : HeaderField) (nameHash pairHash : Z) (hashed : bool)
    : option dynamicTable :=
  let t := mkTable (entries t ++ [f]) (size t + field_size f) (maxSize t) (first t) (index t) in
  ix ← indexNewest t f nameHash pairHash hashed;
  evict (mkTable (entries t) (size t) (maxSize t) (first t) ix).

End Hash.
End HTable.
