(* ===== verification/HpackIndex.v ===== *)
(** * Correctness of the HPACK encoder's index

    What the index of an encoder's table (src/hpack/index.go) keeps: each of
    its two hash tables holds exactly one slot for each distinct key in the
    table, which refers to the newest entry with that key. [find], [link] and
    [unlink] are shown to return and to keep it so. *)

From S2P Require Import Prelude HpackTables Probing HpackTable.
From stdpp Require Import base list numbers.
From Stdlib Require Import ZArith Lia.

Local Open Scope Z_scope.
Local Open Scope go_scope.

Module HIndex.
Import HTable.

(** ** The bits of a slot *)

Lemma slotOf_sum h id : 0 <= h < 2 ^ 64 -> 0 <= id < 2 ^ 16 ->
  slotOf h id = (2 ^ 15 + h / 2 ^ 49) * 2 ^ 16 + id.
Proof.
  intros Hh Hid. unfold slotOf, slotUsed, u32.
  rewrite Z.shiftr_div_pow2, Z.shiftl_mul_pow2 by lia.
  assert (0 <= h / 2 ^ 49 < 2 ^ 15) as Hq by (split; [apply Z.div_pos|apply Z.div_lt_upper_bound]; lia).
  rewrite (Z.mod_small (h / 2 ^ 49)), Z.mod_small by lia.
  rewrite (lor_disjoint 0x80000000 (h / 2 ^ 49 * 2 ^ 16) 31) by (try reflexivity; lia).
  rewrite (lor_disjoint _ id 16); [lia|lia| |lia].
  replace (2147483648 + h / 2 ^ 49 * 2 ^ 16) with ((2 ^ 15 + h / 2 ^ 49) * 2 ^ 16) by lia.
  apply Z.mod_mul. lia.
Qed.

Lemma slotOf_id h id : 0 <= h < 2 ^ 64 -> 0 <= id < 2 ^ 16 -> u16 (slotOf h id) = id.
Proof.
  intros. rewrite slotOf_sum by auto. unfold u16. rewrite Z.add_comm, Z.mod_add by lia.
  now apply Z.mod_small.
Qed.

Lemma slotOf_nonzero h id : 0 <= h < 2 ^ 64 -> 0 <= id < 2 ^ 16 -> slotOf h id <> 0.
Proof.
  intros Hh Hid. rewrite slotOf_sum by auto.
  assert (0 <= h / 2 ^ 49) by (apply Z.div_pos; lia). lia.
Qed.

Lemma land_slotTag x : 0 <= x < 2 ^ 32 -> x .& slotTag = x / 2 ^ 16 * 2 ^ 16.
Proof.
  intros Hx. rewrite <- Z.shiftr_div_pow2, <- Z.shiftl_mul_pow2 by lia.
  apply Z.bits_inj'. intros i Hi. rewrite Z.land_spec.
  change slotTag with (Z.shiftl (Z.ones 16) 16).
  destruct (Z.lt_ge_cases i 16).
  - rewrite !Z.shiftl_spec_low by lia. apply andb_false_r.
  - rewrite !Z.shiftl_spec, Z.shiftr_spec by lia. replace (i - 16 + 16) with i by lia.
    destruct (Z.lt_ge_cases (i - 16) 16).
    + rewrite Z.ones_spec_low by lia. apply andb_true_r.
    + rewrite Z.ones_spec_high by lia. rewrite (testbit_small x 32) by lia. reflexivity.
Qed.

Lemma slotOf_tag h id : 0 <= h < 2 ^ 64 -> 0 <= id < 2 ^ 16 -> slotOf h id .& slotTag = slotOf h 0.
Proof.
  intros Hh Hid. rewrite (slotOf_sum h 0) by lia. rewrite slotOf_sum by lia.
  assert (0 <= h / 2 ^ 49 < 2 ^ 15) by (split; [apply Z.div_pos|apply Z.div_lt_upper_bound]; lia).
  rewrite land_slotTag by lia. rewrite Z.add_comm, Z.div_add, (Z.div_small id) by lia. lia.
Qed.

Section Index.
Context (maphash : bytes -> Z) (pair : bool).

(** ** Keys *)

Definition key_eq (f g : HeaderField) : Prop :=
  Name f = Name g /\ (pair = true -> Value f = Value g).

#[local] Instance key_eq_dec f g : Decision (key_eq f g).
Proof. unfold key_eq. destruct pair; apply _. Defined.

Abbreviation hk := (homeHash maphash pair).

Lemma hk_range f : 0 <= hk f < 2 ^ 64.
Proof.
  unfold homeHash, hashName, hashPair. destruct pair; [|apply u64_range].
  apply lxor_bound; [lia|apply u64_range..].
Qed.

Lemma hk_key f g : key_eq f g -> hk f = hk g.
Proof. intros [En Ev]. unfold homeHash. rewrite En. destruct pair; [|reflexivity]. now rewrite Ev. Qed.

Lemma key_eq_sym f g : key_eq f g -> key_eq g f.
Proof. intros [? ?]. split; [congruence|]. intros; symmetry; auto. Qed.

Lemma key_eq_trans f g h : key_eq f g -> key_eq g h -> key_eq f h.
Proof. intros [? ?] [? ?]. split; [congruence|]. intros E. rewrite H0, H2 by exact E. reflexivity. Qed.

(** [f] has the key asked for, as [find] tests it. *)
Lemma find_test f name value :
  bool_decide (Name f = name) && (negb pair || bool_decide (Value f = value)) =
  bool_decide (key_eq f (mkField name value)).
Proof.
  apply Bool.eq_iff_eq_true. rewrite andb_true_iff, orb_true_iff, !bool_decide_eq_true.
  unfold key_eq. destruct pair; naive_solver.
Qed.

Lemma link_test g f :
  negb (bool_decide (Name g = Name f)) || (pair && negb (bool_decide (Value g = Value f))) =
  negb (bool_decide (key_eq g f)).
Proof.
  apply Bool.eq_iff_eq_true.
  rewrite orb_true_iff, andb_true_iff, !negb_true_iff, !bool_decide_eq_false.
  unfold key_eq. destruct (decide (Name g = Name f)), (decide (Value g = Value f)), pair; naive_solver.
Qed.

(** ** The invariant *)

Section Table.
Context (k : Z) (Hk : 1 <= k <= 63).
Abbreviation N := (2 ^ k).

Lemma N_ge : 2 <= 2 ^ k.
Proof. change 2 with (2 ^ 1) at 1. apply Z.pow_le_mono_r; lia. Qed.

(** [i .& mask] where [i] is a [uint] that may have wrapped. *)
Lemma mask_mod x : x .& (N - 1) = x mod N.
Proof. apply land_low_bits. lia. Qed.

Lemma mask_u64 x : u64 x .& (N - 1) = x mod N.
Proof.
  rewrite mask_mod. apply Z.mod_mod_divide. exists (2 ^ (64 - k)).
  rewrite <- Z.pow_add_r by lia. f_equal. lia.
Qed.

Lemma u64_succ x : u64 (u64 x + 1) = u64 (x + 1).
Proof. unfold u64. apply Zplus_mod_idemp_l. Qed.

Section Entries.
Context (t : dynamicTable).
Abbreviation E := (entries t).
Context (Hsmall : Z.of_nat (length E) <= 2 ^ 16).

(** The slot of the entry at position [p]. *)
Definition slotval (p : nat) (f : HeaderField) : Z := slotOf (hk f) (u16 (first t + Z.of_nat p)).

(** The home of the entry a slot refers to. *)
Definition home_of (s : Z) : Z :=
  match E !! Z.to_nat (slotPos t s) with Some f => hk f | None => 0 end.

(** Entry [p] of those from [m] up to [n] is the newest with its key. *)
Definition live (m n p : nat) (f : HeaderField) : Prop :=
  (m <= p < n)%nat /\ E !! p = Some f /\
  forall p' g, (p < p' < n)%nat -> E !! p' = Some g -> ~ key_eq f g.

(** One of the index's hash tables, covering the entries from [m] up to [n]. *)
Definition idx (m n : nat) (slots : list Z) : Prop :=
  Probing.wf N home_of slots /\
  forall v, Probing.holds N slots v <-> exists p f, live m n p f /\ v = slotval p f.

Lemma slotval_pos p f : (p < length E)%nat -> slotPos t (slotval p f) = Z.of_nat p.
Proof.
  intros Hp. unfold slotPos, slotval. rewrite slotOf_id by auto using hk_range, u16_range.
  unfold u16. rewrite Zminus_mod_idemp_l. rewrite Z.mod_small; lia.
Qed.

Lemma slotval_tag p f : slotval p f .& slotTag = slotOf (hk f) 0.
Proof. apply slotOf_tag; auto using hk_range, u16_range. Qed.

Lemma slotval_nonzero p f : slotval p f <> 0.
Proof. apply slotOf_nonzero; auto using hk_range, u16_range. Qed.

Lemma live_lt m n p f : live m n p f -> (p < length E)%nat.
Proof. intros (_ & H & _). now apply lookup_lt_is_Some. Qed.

Lemma slotval_entry m n p f : live m n p f -> E !! Z.to_nat (slotPos t (slotval p f)) = Some f.
Proof.
  intros Hl. rewrite slotval_pos by eauto using live_lt. rewrite Nat2Z.id. apply Hl.
Qed.

Lemma slotval_home m n p f : live m n p f -> home_of (slotval p f) = hk f.
Proof. intros Hl. unfold home_of. rewrite (slotval_entry _ _ _ _ Hl). reflexivity. Qed.

Lemma slotval_inj m n p f p' f' :
  live m n p f -> live m n p' f' -> slotval p f = slotval p' f' -> p = p' /\ f = f'.
Proof.
  intros Hl Hl' Eq. apply (f_equal (slotPos t)) in Eq.
  rewrite !slotval_pos in Eq by eauto using live_lt. assert (p = p') as -> by lia.
  split; [reflexivity|]. destruct Hl as (_ & He & _), Hl' as (_ & He' & _). congruence.
Qed.

(** Two newest entries with the same key are the same entry. *)
Lemma live_unique m n p f p' f' : live m n p f -> live m n p' f' -> key_eq f f' -> p = p'.
Proof.
  intros (Hp & He & Hn) (Hp' & He' & Hn') Hkey.
  destruct (Nat.lt_trichotomy p p') as [Hlt|[->|Hlt]]; [|reflexivity|].
  - exfalso. apply (Hn p' f'); [lia|exact He'|exact Hkey].
  - exfalso. apply (Hn' p f); [lia|exact He|]. now apply key_eq_sym.
Qed.

(** Every key of an entry in range has a newest entry. *)
Lemma newest m n p f :
  (m <= p < n)%nat -> E !! p = Some f ->
  exists p' f', live m n p' f' /\ key_eq f' f /\ (p <= p')%nat.
Proof.
  remember (n - p)%nat as d eqn:Hd. revert p f Hd.
  induction (lt_wf d) as [d _ IH]; intros p f Hd Hp He.
  destruct (existsb (fun p' => match E !! p' with Some g => bool_decide (key_eq f g) | None => false end)
      (seq (S p) (n - S p))) eqn:Hex.
  - apply existsb_exists in Hex as (p1 & Hin%in_seq & Hg).
    destruct (E !! p1) as [g|] eqn:Eg; [|discriminate]. apply bool_decide_eq_true in Hg.
    destruct (IH (n - p1)%nat ltac:(lia) p1 g eq_refl ltac:(lia) Eg) as (p2 & f2 & Hl & Hk2 & Hle).
    exists p2, f2. split; [exact Hl|]. split; [|lia]. eapply key_eq_trans; [exact Hk2|]. now apply key_eq_sym.
  - exists p, f. split; [|split; [split; auto|lia]]. split; [lia|]. split; [exact He|].
    intros p' g Hp' Hg Hkey. apply Bool.not_true_iff_false in Hex. apply Hex, existsb_exists.
    exists p'. split; [apply in_seq; lia|]. rewrite Hg. now apply bool_decide_eq_true.
Qed.

(** An index with more slots than entries has an empty slot. *)
Lemma idx_empty m n slots :
  idx m n slots -> (n <= length E)%nat -> Z.of_nat n < N ->
  exists e, 0 <= e < N /\ Probing.get slots e = 0.
Proof.
  intros [Hwf Hh] Hn Hlt.
  apply (Probing.has_empty N home_of slots (fun v => Z.to_nat (slotPos t v)) n Hwf Hlt).
  - intros v (p & f & Hl & ->)%Hh. rewrite slotval_pos by eauto using live_lt.
    destruct Hl as [? _]. lia.
  - intros v w (p & f & Hl & ->)%Hh (p' & f' & Hl' & ->)%Hh E'.
    rewrite !slotval_pos in E' by eauto using live_lt. assert (p' = p) as -> by lia.
    destruct Hl as (_ & He & _), Hl' as (_ & He' & _). rewrite He in He'. now injection He' as ->.
Qed.

(** ** Walking the slots *)

Section Walk.
Context (m n : nat) (slots : list Z) (Hidx : idx m n slots) (Hn : (n <= length E)%nat) (Hroom : Z.of_nat n < N).

Abbreviation get := (Probing.get slots).

Lemma slot_lookup x : slots !! Z.to_nat (x mod N) = Some (get (x mod N)).
Proof.
  apply (Probing.get_lookup N N_ge); [apply Hidx|]. apply Probing.mod_in, N_ge.
Qed.

Lemma slot_live q : 0 <= q < N -> get q <> 0 -> exists p f, live m n p f /\ get q = slotval p f.
Proof. intros Hq Hz. apply Hidx. split; eauto. Qed.

(** The slot of the newest entry with the key of [f] is where the walk from
    its hash gets to, past taken slots of other keys; without such an entry the
    walk gets to an empty slot. *)
Lemma walk f :
  exists d, 0 <= d < N /\
    (forall d', 0 <= d' < d -> exists p g, live m n p g /\ get ((hk f + d') mod N) = slotval p g /\ ~ key_eq g f) /\
    ((get ((hk f + d) mod N) = 0 /\ forall p g, live m n p g -> ~ key_eq g f) \/
     (exists p g, live m n p g /\ key_eq g f /\ get ((hk f + d) mod N) = slotval p g)).
Proof.
  destruct (idx_empty m n slots Hidx Hn Hroom) as (e & He & Hez).
  set (stop d := (get ((hk f + d) mod N) =? 0) ||
    match E !! Z.to_nat (slotPos t (get ((hk f + d) mod N))) with
    | Some g => bool_decide (key_eq g f) | None => false end).
  assert (exists d, 0 <= d <= Probing.dist N (hk f) e /\ stop d = true /\
      forall d', 0 <= d' < d -> stop d' = false) as (d & Hd & Hstop & Hbefore).
  { apply least_Z; [apply Probing.dist_range, N_ge|]. unfold stop.
    rewrite Probing.at_dist, Hez by auto using N_ge. reflexivity. }
  pose proof (Probing.dist_range N N_ge (hk f) e) as Hde.
  assert (forall d', 0 <= d' < d ->
      exists p g, live m n p g /\ get ((hk f + d') mod N) = slotval p g /\ ~ key_eq g f) as Hskip.
  { intros d' Hd'. specialize (Hbefore d' Hd'). unfold stop in Hbefore.
    apply orb_false_iff in Hbefore as [Hz Hne]. apply Z.eqb_neq in Hz.
    destruct (slot_live _ (Probing.mod_in N N_ge _) Hz) as (p & g & Hl & Eq).
    exists p, g. rewrite Eq, (slotval_entry _ _ _ _ Hl) in Hne.
    split; [exact Hl|]. split; [exact Eq|]. now apply bool_decide_eq_false in Hne. }
  exists d. split; [lia|]. split; [exact Hskip|]. unfold stop in Hstop.
  destruct (Z.eqb_spec (get ((hk f + d) mod N)) 0) as [Hz|Hnz]; cbn [orb] in Hstop.
  - left. split; [exact Hz|]. intros p g Hl Hkey.
    destruct Hidx as [Hwf Hh].
    assert (Probing.holds N slots (slotval p g)) as [_ (q & Hq & Eq)] by (apply Hh; eauto).
    assert (Probing.reach N slots (hk f) q) as Hr.
    { rewrite <- (hk_key g f Hkey), <- (slotval_home _ _ _ _ Hl), <- Eq.
      apply Hwf; [exact Hq|]. rewrite Eq. apply slotval_nonzero. }
    assert (Probing.dist N (hk f) q < d) as Hlt.
    { destruct (Z.lt_trichotomy (Probing.dist N (hk f) q) d) as [|[Heq|Hgt]]; [assumption| |].
      - exfalso. apply (slotval_nonzero p g). rewrite <- Eq, <- Hz, <- Heq, Probing.at_dist; auto using N_ge.
      - exfalso. apply (Hr d); [lia|exact Hz]. }
    pose proof (Probing.dist_range N N_ge (hk f) q).
    destruct (Hskip (Probing.dist N (hk f) q) ltac:(lia)) as (p' & g' & Hl' & Eq' & Hnk).
    rewrite Probing.at_dist, Eq in Eq' by auto using N_ge.
    destruct (slotval_inj _ _ _ _ _ _ Hl Hl' Eq') as [-> ->]. contradiction.
  - right. destruct (slot_live _ (Probing.mod_in N N_ge _) Hnz) as (p & g & Hl & Eq).
    rewrite Eq, (slotval_entry _ _ _ _ Hl) in Hstop. apply bool_decide_eq_true in Hstop. eauto.
Qed.

(** A slot the walk for the key of [f] passes over. *)
Definition passed (f : HeaderField) (v : Z) : Prop :=
  exists p g, live m n p g /\ v = slotval p g /\ ~ key_eq g f.

Lemma findLoop_walk f d0 r :
  0 <= d0 ->
  (forall d', 0 <= d' < d0 -> passed f (get ((hk f + d') mod N))) ->
  ((get ((hk f + d0) mod N) = 0 /\ r = -1) \/
   (exists p g, live m n p g /\ key_eq g f /\ get ((hk f + d0) mod N) = slotval p g /\ r = Z.of_nat p)) ->
  forall fuel d, 0 <= d <= d0 -> d0 - d < Z.of_nat fuel ->
  findLoop fuel t (N - 1) slots (slotOf (hk f) 0) (Name f) (Value f) pair (u64 (hk f + d)) = Some r.
Proof.
  intros H0 Hpass Hend. induction fuel as [|fuel IH]; intros d Hd Hfuel; [lia|].
  cbn [findLoop]. rewrite mask_u64, slot_lookup, u64_succ.
  destruct (Z.eq_dec d d0) as [->|Hne].
  - destruct Hend as [[-> ->]|(p & g & Hl & Hkey & -> & ->)]; [reflexivity|].
    rewrite (proj2 (Z.eqb_neq _ _) (slotval_nonzero p g)), slotval_tag, (hk_key _ _ Hkey), Z.eqb_refl.
    cbn [negb]. rewrite (slotval_entry _ _ _ _ Hl), find_test.
    rewrite bool_decide_eq_true_2 by (destruct f; exact Hkey).
    rewrite slotval_pos by eauto using live_lt. reflexivity.
  - destruct (Hpass d ltac:(lia)) as (p & g & Hl & -> & Hnk).
    rewrite (proj2 (Z.eqb_neq _ _) (slotval_nonzero p g)).
    rewrite (slotval_entry _ _ _ _ Hl), find_test.
    rewrite bool_decide_eq_false_2 by (destruct f; exact Hnk).
    rewrite <- Z.add_assoc, IH by lia. now destruct (negb _).
Qed.

(** [find] returns the newest entry with the key, or -1 when there is none. *)
Lemma find_spec f :
  exists r, find t (N - 1) slots (hk f) (Name f) (Value f) pair = Some r /\
    ((exists p g, live m n p g /\ key_eq g f /\ r = Z.of_nat p) \/
     (r = -1 /\ forall p g, live m n p g -> ~ key_eq g f)).
Proof.
  destruct (walk f) as (d & Hd & Hpass & Hend).
  assert (Z.of_nat (length slots) = N) as Hlen by apply Hidx.
  assert (forall r, (get ((hk f + d) mod N) = 0 /\ r = -1) \/
     (exists p g, live m n p g /\ key_eq g f /\ get ((hk f + d) mod N) = slotval p g /\ r = Z.of_nat p) ->
     find t (N - 1) slots (hk f) (Name f) (Value f) pair = Some r) as Hfind.
  { intros r Hr. unfold find. rewrite <- (u64_id (hk f)) at 2 by apply hk_range.
    rewrite <- (Z.add_0_r (hk f)) at 2. apply (findLoop_walk f d r); auto; lia. }
  destruct Hend as [[Hz Hno]|(p & g & Hl & Hkey & Hg)].
  - exists (-1). split; [apply Hfind; auto|auto].
  - exists (Z.of_nat p). split; [apply Hfind; right; eauto 8|left; eauto].
Qed.

(** ** Linking the next entry *)

Lemma live_snoc f p g :
  (m <= n)%nat -> E !! n = Some f ->
  live m (S n) p g <-> (live m n p g /\ ~ key_eq g f) \/ (p = n /\ g = f).
Proof.
  intros Hmn Hf. split.
  - intros (Hp & Hg & Hnew). destruct (decide (p = n)) as [->|Hne]; [right; split; congruence|].
    left. split; [|apply (Hnew n f); [lia|exact Hf]]. split; [lia|]. split; [exact Hg|].
    intros; apply (Hnew p'); [lia|assumption].
  - intros [[(Hp & Hg & Hnew) Hnk]|[-> ->]].
    + split; [lia|]. split; [exact Hg|]. intros p' g' Hp' Hg' Hkey.
      destruct (decide (p' = n)) as [->|]; [|now apply (Hnew p' g'); [lia| |]].
      apply Hnk. congruence.
    + split; [lia|]. split; [exact Hf|]. intros; lia.
Qed.

Lemma linkLoop_walk f d0 :
  E !! n = Some f -> 0 <= d0 ->
  (forall d', 0 <= d' < d0 -> passed f (get ((hk f + d') mod N))) ->
  (get ((hk f + d0) mod N) = 0 \/
   (exists p g, live m n p g /\ key_eq g f /\ get ((hk f + d0) mod N) = slotval p g)) ->
  forall fuel d, 0 <= d <= d0 -> d0 - d < Z.of_nat fuel ->
  linkLoop fuel t (N - 1) slots (slotOf (hk f) 0) (hk f) n f pair (u64 (hk f + d)) =
  Some (Probing.set slots ((hk f + d0) mod N) (slotval n f)).
Proof.
  intros Hf H0 Hpass Hend.
  assert (slotOf (hk f) (u16 (first t + u16 (Z.of_nat n))) = slotval n f) as Hv.
  { unfold slotval. f_equal. unfold u16. apply Zplus_mod_idemp_r. }
  induction fuel as [|fuel IH]; intros d Hd Hfuel; [lia|].
  cbn [linkLoop]. rewrite mask_u64, slot_lookup, u64_succ, Hv.
  destruct (Z.eq_dec d d0) as [->|Hne].
  - destruct Hend as [->|(p & g & Hl & Hkey & ->)]; [reflexivity|].
    rewrite (proj2 (Z.eqb_neq _ _) (slotval_nonzero p g)), slotval_tag, (hk_key _ _ Hkey), Z.eqb_refl.
    cbn [negb]. rewrite (slotval_entry _ _ _ _ Hl), link_test, bool_decide_eq_true_2 by exact Hkey.
    reflexivity.
  - destruct (Hpass d ltac:(lia)) as (p & g & Hl & -> & Hnk).
    rewrite (proj2 (Z.eqb_neq _ _) (slotval_nonzero p g)).
    rewrite (slotval_entry _ _ _ _ Hl), link_test, bool_decide_eq_false_2 by exact Hnk.
    cbn [negb]. rewrite <- Z.add_assoc, IH by lia. now destruct (_ =? _).
Qed.

Lemma slotval_new f : E !! n = Some f -> ~ Probing.holds N slots (slotval n f).
Proof.
  intros Hf (p & g & Hl & Eq)%Hidx. pose proof (lookup_lt_Some _ _ _ Hf).
  apply (f_equal (slotPos t)) in Eq. rewrite !slotval_pos in Eq by eauto using live_lt.
  destruct Hl as [? _]. lia.
Qed.

Lemma home_new f : E !! n = Some f -> home_of (slotval n f) = hk f.
Proof.
  intros Hf. unfold home_of. rewrite slotval_pos by now apply lookup_lt_is_Some.
  now rewrite Nat2Z.id, Hf.
Qed.

(** [link] of the next entry extends what the table covers by it. *)
Lemma link_spec f :
  (m <= n)%nat -> E !! n = Some f ->
  exists slots', link t (N - 1) slots (hk f) n pair = Some slots' /\ idx m (S n) slots'.
Proof.
  intros Hmn Hf. destruct (walk f) as (d & Hd & Hpass & Hend).
  assert (Z.of_nat (length slots) = N) as Hlen by apply Hidx.
  pose proof (slotval_nonzero n f) as Hnz. pose proof (slotval_new f Hf) as Hnew.
  pose proof (home_new f Hf) as Hhome. pose proof Hidx as [Hwf Hh].
  pose proof (fun p g => live_snoc f p g Hmn Hf) as Hsn.
  exists (Probing.set slots ((hk f + d) mod N) (slotval n f)). split.
  { unfold link. rewrite Hf. rewrite <- (u64_id (hk f)) at 3 by apply hk_range.
    rewrite <- (Z.add_0_r (hk f)) at 3. apply (linkLoop_walk f d Hf); auto; try lia.
    destruct Hend as [[? _]|?]; auto. }
  destruct Hend as [[Hz Hno]|(p & g & Hl & Hkey & Hg)].
  - rewrite <- Hhome in *. destruct (Probing.wf_insert N N_ge home_of slots d (slotval n f)) as [Hwf' Hh']; auto.
    { intros d' Hd'. destruct (Hpass d' Hd') as (p & g & _ & -> & _). apply slotval_nonzero. }
    split; [exact Hwf'|]. intros v. rewrite Hh', Hh. setoid_rewrite Hsn. split.
    + intros [(p & g & Hl & ->)| ->]; eauto 10.
    + intros (p & g & [[Hl _]|[-> ->]] & ->); eauto.
  - destruct (Probing.wf_replace N N_ge home_of slots ((hk f + d) mod N) (slotval n f)) as [Hwf' Hh']; auto.
    { apply Probing.mod_in, N_ge. }
    { rewrite Hg. apply slotval_nonzero. }
    { rewrite Hg, Hhome, (slotval_home _ _ _ _ Hl), (hk_key _ _ Hkey). reflexivity. }
    split; [exact Hwf'|]. intros v. rewrite Hh', Hh, Hg. setoid_rewrite Hsn. split.
    + intros [[(p' & g' & Hl' & ->) Hne]| ->]; [|eauto 10]. exists p', g'. split; [left|reflexivity].
      split; [exact Hl'|]. intros Hkey'. apply Hne.
      assert (p' = p) as -> by (apply (live_unique m n p' g' p g Hl' Hl); eapply key_eq_trans; eauto using key_eq_sym).
      destruct Hl as (_ & He & _), Hl' as (_ & He' & _). congruence.
    + intros (p' & g' & [[Hl' Hnk]|[-> ->]] & ->); [|eauto]. left. split; [eauto|].
      intros Eq. destruct (slotval_inj _ _ _ _ _ _ Hl' Hl Eq) as [-> ->]. contradiction.
Qed.

(** ** Unlinking the oldest entry *)

Lemma holeLoop_walk h d0 p :
  0 <= d0 ->
  (forall d', 0 <= d' < d0 -> get ((h + d') mod N) <> 0 /\ slotPos t (get ((h + d') mod N)) <> Z.of_nat p) ->
  forall r,
  (get ((h + d0) mod N) = 0 /\ r = None) \/
  (get ((h + d0) mod N) <> 0 /\ slotPos t (get ((h + d0) mod N)) = Z.of_nat p /\ r = Some ((h + d0) mod N)) ->
  forall fuel d, 0 <= d <= d0 -> d0 - d < Z.of_nat fuel ->
  holeLoop fuel t (N - 1) slots p ((h + d) mod N) = Some r.
Proof.
  intros H0 Hpass r Hend. induction fuel as [|fuel IH]; intros d Hd Hfuel; [lia|].
  cbn [holeLoop]. rewrite slot_lookup, mask_mod, Zplus_mod_idemp_l, <- Z.add_assoc.
  destruct (Z.eq_dec d d0) as [->|Hne].
  - destruct Hend as [[-> ->]|(Hnz & Hp & ->)]; [reflexivity|].
    apply Z.eqb_neq in Hnz. now rewrite Hnz, Hp, Z.eqb_refl.
  - destruct (Hpass d ltac:(lia)) as [Hnz%Z.eqb_neq Hp%Z.eqb_neq]. rewrite Hnz, Hp. apply IH; lia.
Qed.

(** The loop stops at the slot of [m], or at an empty one when it has none. *)
Lemma hole_spec f :
  E !! m = Some f ->
  (live m n m f /\ exists q, 0 <= q < N /\ get q = slotval m f /\
     holeLoop (length slots) t (N - 1) slots m (hk f .& (N - 1)) = Some (Some q)) \/
  (~ live m n m f /\ holeLoop (length slots) t (N - 1) slots m (hk f .& (N - 1)) = Some None).
Proof.
  intros Hf. destruct (idx_empty m n slots Hidx Hn Hroom) as (e & He & Hez).
  assert (Z.of_nat (length slots) = N) as Hlen by apply Hidx.
  pose proof Hidx as [Hwf Hh].
  set (stop d := (get ((hk f + d) mod N) =? 0) || (slotPos t (get ((hk f + d) mod N)) =? Z.of_nat m)).
  assert (exists d, 0 <= d <= Probing.dist N (hk f) e /\ stop d = true /\
      forall d', 0 <= d' < d -> stop d' = false) as (d & Hd & Hstop & Hbefore).
  { apply least_Z; [apply Probing.dist_range, N_ge|]. unfold stop.
    rewrite Probing.at_dist, Hez by auto using N_ge. reflexivity. }
  pose proof (Probing.dist_range N N_ge (hk f) e) as Hde.
  assert (forall r, (get ((hk f + d) mod N) = 0 /\ r = None) \/
    (get ((hk f + d) mod N) <> 0 /\ slotPos t (get ((hk f + d) mod N)) = Z.of_nat m /\
      r = Some ((hk f + d) mod N)) ->
    holeLoop (length slots) t (N - 1) slots m (hk f .& (N - 1)) = Some r) as Hloop.
  { intros r Hr. rewrite mask_mod, <- (Z.add_0_r (hk f)) at 1.
    apply (holeLoop_walk (hk f) d m); auto; try lia.
    intros d' Hd'. specialize (Hbefore d' Hd'). unfold stop in Hbefore.
    now apply orb_false_iff in Hbefore as [?%Z.eqb_neq ?%Z.eqb_neq]. }
  destruct (Z.eq_dec (get ((hk f + d) mod N)) 0) as [Hz|Hnz].
  - right. split; [|apply Hloop; auto]. intros Hl.
    assert (Probing.holds N slots (slotval m f)) as [_ (q & Hq & Eq)] by (apply Hh; eauto).
    assert (Probing.reach N slots (hk f) q) as Hr.
    { rewrite <- (slotval_home _ _ _ _ Hl), <- Eq. apply Hwf; [exact Hq|]. rewrite Eq. apply slotval_nonzero. }
    pose proof (Probing.dist_range N N_ge (hk f) q).
    destruct (Z.lt_trichotomy (Probing.dist N (hk f) q) d) as [Hlt|[Heq|Hgt]].
    + specialize (Hbefore (Probing.dist N (hk f) q) ltac:(lia)). unfold stop in Hbefore.
      rewrite Probing.at_dist, Eq, slotval_pos, Z.eqb_refl, orb_true_r in Hbefore
        by eauto using N_ge, live_lt. discriminate.
    + apply (slotval_nonzero m f). rewrite <- Eq, <- Hz, <- Heq, Probing.at_dist; auto using N_ge.
    + apply (Hr d); [lia|exact Hz].
  - left. destruct (slot_live _ (Probing.mod_in N N_ge _) Hnz) as (p & g & Hl & Eq).
    unfold stop in Hstop. apply Z.eqb_neq in Hnz as Hnz'. rewrite Hnz' in Hstop. cbn [orb] in Hstop.
    apply Z.eqb_eq in Hstop. rewrite Eq, slotval_pos in Hstop by eauto using live_lt.
    assert (p = m) as -> by lia.
    assert (g = f) as -> by (destruct Hl as (_ & ? & _); congruence).
    split; [exact Hl|]. exists ((hk f + d) mod N). split; [apply Probing.mod_in, N_ge|].
    split; [exact Eq|]. apply Hloop. right. split; [exact Hnz|]. split; [|reflexivity].
    rewrite Eq. apply slotval_pos. eauto using live_lt.
Qed.

End Walk.



(** The loop that moves slots back ends, and leaves a table with what was
    there but the hole. *)
Lemma shiftLoop_spec fuel slots hole j e :
  Probing.shifting N home_of slots hole j e ->
  (forall w, Probing.holds N (Probing.set slots hole 0) w ->
     exists f, E !! Z.to_nat (slotPos t w) = Some f) ->
  Probing.dist N j e < Z.of_nat fuel ->
  exists slots', shiftLoop maphash fuel t (N - 1) slots pair hole j = Some slots' /\
    Probing.wf N home_of slots' /\
    forall w, Probing.holds N slots' w <-> Probing.holds N (Probing.set slots hole 0) w.
Proof.
  revert slots hole j. induction fuel as [|fuel IH]; intros slots hole j Hsh Hent Hfuel.
  { pose proof (Probing.dist_range N N_ge j e). lia. }
  pose proof Hsh as [Hs Hho Hj He Ha Hez _ _].
  assert (j <> hole) as Hjh by (intros ->; rewrite Probing.dist_self in Ha by apply N_ge; lia).
  cbn [shiftLoop]. rewrite (Probing.get_lookup N N_ge) by auto.
  destruct (Z.eqb_spec (Probing.get slots j) 0) as [Hz|Hnz].
  - exists (Probing.set slots hole 0). split; [reflexivity|]. split; [|reflexivity].
    eapply Probing.shifting_done; eauto using N_ge.
  - assert (Probing.get (Probing.set slots hole 0) j = Probing.get slots j) as Hjv.
    { rewrite (Probing.get_hole N N_ge) by auto. case_decide; congruence. }
    assert (exists f, E !! Z.to_nat (slotPos t (Probing.get slots j)) = Some f) as [f Hf].
    { apply Hent. split; [exact Hnz|]. exists j. auto. }
    assert (home_of (Probing.get slots j) = hk f) as Hhome by (unfold home_of; now rewrite Hf).
    rewrite Hf, !mask_u64, mask_mod.
    change ((j - hole) mod N) with (Probing.dist N hole j).
    change ((j - hk f) mod N) with (Probing.dist N (hk f) j).
    rewrite <- Hhome.
    assert (j <> e) as Hje.
    { intros <-. rewrite Hjv in Hez. contradiction. }
    assert (Probing.dist N ((j + 1) mod N) e < Z.of_nat fuel) as Hfuel'.
    { rewrite Probing.dist_pred by auto using N_ge. lia. }
    destruct (Z.leb_spec (Probing.dist N hole j) (Probing.dist N (home_of (Probing.get slots j)) j)) as [Hle|Hlt].
    + assert (forall w, Probing.holds N (Probing.set (Probing.set slots hole (Probing.get slots j)) j 0) w <->
          Probing.holds N (Probing.set slots hole 0) w) as Hm.
      { intros w. apply Probing.holds_move; auto using N_ge. }
      destruct (IH (Probing.set slots hole (Probing.get slots j)) j ((j + 1) mod N)) as (slots' & Hl & Hwf & Hh').
      * apply Probing.shifting_move; auto using N_ge.
      * intros w Hw. apply Hent, Hm, Hw.
      * exact Hfuel'.
      * exists slots'. split; [exact Hl|]. split; [exact Hwf|]. intros w. now rewrite Hh', Hm.
    + apply IH; auto. apply Probing.shifting_keep; auto using N_ge.
Qed.

Lemma live_tail m n p g : live (S m) n p g <-> live m n p g /\ p <> m.
Proof. unfold live. split; [intros (? & ? & ?)|intros [(? & ? & ?) ?]]; repeat split; auto; lia. Qed.

(** [unlink] of the oldest entry takes it out of what the table covers. *)
Lemma unlink_spec m n slots f :
  idx m n slots -> (n <= length E)%nat -> Z.of_nat n < N -> E !! m = Some f ->
  exists slots', unlink maphash t (N - 1) slots (hk f) m pair = Some slots' /\ idx (S m) n slots'.
Proof.
  intros Hidx Hn Hroom Hf. unfold unlink. pose proof Hidx as [Hwf Hh].
  destruct (hole_spec m n slots Hidx Hn Hroom f Hf) as [(Hl & q & Hq & Eq & ->)|[Hnl ->]].
  - destruct (idx_empty m n slots Hidx Hn Hroom) as (e & He & Hez).
    assert (Probing.get slots q <> 0) as Hnz by (rewrite Eq; apply slotval_nonzero).
    pose proof (fun w => Probing.holds_start N N_ge home_of slots q w Hwf Hq Hnz) as Hstart.
    rewrite mask_mod.
    destruct (shiftLoop_spec (length slots) slots q ((q + 1) mod N) e) as (slots' & -> & Hwf' & Hh').
    + apply Probing.shifting_start; auto using N_ge.
    + intros w [(p & g & Hlw & ->)%Hh _]%Hstart. exists g. eapply slotval_entry; eauto.
    + assert (Z.of_nat (length slots) = N) as -> by apply Hwf. apply Probing.dist_range, N_ge.
    + exists slots'. split; [reflexivity|]. split; [exact Hwf'|]. intros v.
      rewrite Hh', Hstart, Hh, Eq. setoid_rewrite live_tail. split.
      * intros [(p & g & Hlp & ->) Hne]. exists p, g. split; [|reflexivity]. split; [exact Hlp|].
        intros ->. apply Hne. destruct Hlp as (_ & Hg & _). congruence.
      * intros (p & g & [Hlp Hne] & ->). split; [eauto|].
        intros E'. now destruct (slotval_inj _ _ _ _ _ _ Hlp Hl E').
  - exists slots. split; [reflexivity|]. split; [exact Hwf|]. intros v. rewrite Hh.
    setoid_rewrite live_tail. split.
    + intros (p & g & Hlp & ->). exists p, g. split; [|reflexivity]. split; [exact Hlp|].
      intros ->. apply Hnl. assert (g = f) as <- by (destruct Hlp as (_ & ? & _); congruence). exact Hlp.
    + intros (p & g & [Hlp _] & ->). eauto.
Qed.

End Entries.

(** ** Moving the invariant between tables *)

Definition small (t : dynamicTable) : Prop := Z.of_nat (length (entries t)) <= 2 ^ 16.

(** Another table with the same entries in range and the same numbering. *)
Lemma idx_agree t t' m n slots :
  small t -> small t' -> first t' = first t -> (n <= length (entries t))%nat ->
  (forall p, (p < n)%nat -> entries t' !! p = entries t !! p) ->
  idx t m n slots -> idx t' m n slots.
Proof.
  intros Hs Hs' Hfirst Hn Hent [Hwf Hh].
  assert (forall p f, live t m n p f <-> live t' m n p f) as Hlive.
  { intros p f. unfold live. split; intros (Hp & He & Hnew); (split; [exact Hp|]).
    - rewrite Hent by lia. split; [exact He|]. intros p' g Hp'. rewrite Hent by lia. now apply Hnew.
    - rewrite <- Hent by lia. split; [exact He|]. intros p' g Hp'. rewrite <- Hent by lia. now apply Hnew. }
  split.
  - apply (Probing.wf_home_ext N (home_of t)); [|exact Hwf]. intros v (p & f & Hl & ->)%Hh.
    unfold home_of. rewrite (slotval_entry t Hs m n p f Hl).
    assert (slotPos t' (slotval t p f) = slotPos t (slotval t p f)) as -> by (unfold slotPos; congruence).
    rewrite slotval_pos by eauto using live_lt. rewrite Nat2Z.id, Hent by (destruct Hl as [? _]; lia).
    destruct Hl as (_ & -> & _). reflexivity.
  - intros v. rewrite Hh. setoid_rewrite Hlive. unfold slotval. rewrite Hfirst. reflexivity.
Qed.

(** The oldest entries gone, and as many more counted as evicted. *)
Lemma idx_drop t t' c slots :
  small t -> (c <= length (entries t))%nat ->
  entries t' = drop c (entries t) -> first t' = u16 (first t + Z.of_nat c) ->
  idx t c (length (entries t)) slots -> idx t' 0 (length (entries t')) slots.
Proof.
  intros Hs Hc Hent Hfirst [Hwf Hh].
  assert (length (entries t') = (length (entries t) - c)%nat) as Hlen by (rewrite Hent; apply length_drop).
  assert (forall p, entries t' !! p = entries t !! (c + p)%nat) as Hlk by (intros; rewrite Hent; apply lookup_drop).
  assert (forall p f, slotval t' p f = slotval t (c + p) f) as Hval.
  { intros p f. unfold slotval. f_equal. rewrite Hfirst. unfold u16. rewrite Zplus_mod_idemp_l. f_equal. lia. }
  assert (small t') as Hs' by (unfold small in *; lia).
  assert (forall p f, live t' 0 (length (entries t')) p f <-> live t c (length (entries t)) (c + p) f) as Hlive.
  { intros p f. unfold live. rewrite Hlk, Hlen. split; intros (Hp & He & Hnew); (split; [lia|split; [exact He|]]).
    - intros p' g Hp'. specialize (Hnew (p' - c)%nat g ltac:(lia)). rewrite Hlk in Hnew.
      now replace (c + (p' - c))%nat with p' in Hnew by lia.
    - intros p' g Hp'. rewrite Hlk. apply Hnew. lia. }
  assert (forall v, Probing.holds N slots v <->
      exists p f, live t' 0 (length (entries t')) p f /\ v = slotval t' p f) as Hh'.
  { intros v. rewrite Hh. split.
    - intros (p & f & Hl & ->). exists (p - c)%nat, f. rewrite Hlive, Hval.
      replace (c + (p - c))%nat with p by (destruct Hl as [? _]; lia). auto.
    - intros (p & f & Hl & ->). rewrite Hlive in Hl. rewrite Hval. eauto. }
  split; [|exact Hh'].
  apply (Probing.wf_home_ext N (home_of t)); [|exact Hwf]. intros v (p & f & Hl & ->)%Hh'.
  rewrite (slotval_home t' Hs' _ _ _ _ Hl), Hval.
  apply Hlive in Hl. apply (slotval_home t Hs _ _ _ _ Hl).
Qed.

(** A new table of empty slots covers nothing. *)
Lemma idx_new t : idx t 0 0 (replicate (Z.to_nat N) 0).
Proof.
  assert (forall q, Probing.get (replicate (Z.to_nat N) 0) q = 0) as Hz.
  { intros q. unfold Probing.get. rewrite nth_lookup.
    destruct (replicate _ 0 !! _) eqn:Eq; [apply lookup_replicate in Eq as [-> _]|]; reflexivity. }
  split; [split|].
  - unfold Probing.sized. rewrite length_replicate. pose proof N_ge. lia.
  - intros q _ Hnz. rewrite Hz in Hnz. contradiction.
  - intros q r _ _ Hnz. rewrite Hz in Hnz. contradiction.
  - intros v. split.
    + intros [Hv (q & _ & Eq)]. rewrite Hz in Eq. congruence.
    + intros (p & f & [Hp _] & _). lia.
Qed.

End Table.
End Index.
(** ** The whole table *)

Definition sizes (es : list HeaderField) : Z := foldr (fun f a => field_size f + a) 0 es.

(** RFC 7541 section 4.4: the oldest entries go until the rest fit. *)
Fixpoint fit (max : Z) (es : list HeaderField) : list HeaderField :=
  match es with
  | [] => []
  | _ :: es' => if sizes es <=? max then es else fit max es'
  end.

Lemma field_size_ge f : 32 <= field_size f.
Proof. unfold field_size. pose proof (len_nonneg (Name f)). pose proof (len_nonneg (Value f)). lia. Qed.

Lemma sizes_app es es' : sizes (es ++ es') = sizes es + sizes es'.
Proof. induction es as [|f es IH]; cbn [sizes foldr app] in *; [reflexivity|]. unfold sizes in *. lia. Qed.

Lemma sizes_ge es : 32 * Z.of_nat (length es) <= sizes es.
Proof.
  induction es as [|f es IH]; cbn [sizes foldr length] in *; [reflexivity|].
  pose proof (field_size_ge f). unfold sizes in *. lia.
Qed.

Lemma fit_sizes max es : 0 <= max -> sizes (fit max es) <= max.
Proof.
  intros Hm. induction es as [|f es IH]; cbn [fit]; [cbn; lia|].
  destruct (Z.leb_spec (sizes (f :: es)) max); assumption.
Qed.

(** What stays is a suffix, and whole when it fits already. *)
Lemma fit_drop max es : exists c, (c <= length es)%nat /\ fit max es = drop c es.
Proof.
  induction es as [|f es (c & Hc & IH)]; cbn [fit]; [exists 0%nat; auto|].
  destruct (_ <=? _); [exists 0%nat; split; [lia|reflexivity]|].
  exists (S c). split; [cbn; lia|exact IH].
Qed.

Lemma fit_id max es : sizes es <= max -> fit max es = es.
Proof. destruct es as [|f es]; cbn [fit]; [reflexivity|]. intros H. now rewrite (proj2 (Z.leb_le _ _) H). Qed.

(** The count of evicted entries is what [fit] drops. *)
Lemma evictCount_fit max es :
  0 <= max ->
  let '(c, sz) := evictCount (sizes es) max es in
  (c <= length es)%nat /\ drop c es = fit max es /\ sz = sizes (fit max es) /\
  (c = 0%nat -> fit max es = es).
Proof.
  intros Hm. induction es as [|f es IH]; cbn [evictCount fit].
  - repeat split; auto.
  - destruct (Z.ltb_spec max (sizes (f :: es))) as [Hlt|Hge].
    + replace (sizes (f :: es) - field_size f) with (sizes es) by (cbn [sizes foldr]; unfold sizes; lia).
      destruct (evictCount (sizes es) max es) as [c sz]. destruct IH as (Hc & Hd & Hsz & _).
      rewrite (proj2 (Z.leb_gt _ _) Hlt). cbn [drop length]. repeat split; auto; lia.
    + rewrite (proj2 (Z.leb_le _ _) Hge). repeat split; auto; cbn; lia.
Qed.

Section Whole.
Context (maphash : bytes -> Z).

(** Both hash tables of the index cover the entries from [m] up to [n]. *)
Definition covers (k : Z) (t : dynamicTable) (m n : nat) (x : fieldIndex) : Prop :=
  ix_mask x = 2 ^ k - 1 /\ idx maphash true k t m n (pairs x) /\ idx maphash false k t m n (names x).

(** The index of a table at rest: room for twice the entries it may hold. *)
Definition index_ok (t : dynamicTable) (x : fieldIndex) : Prop :=
  exists k, 5 <= k <= 63 /\ 2 * (maxSize t ÷ 32) <= 2 ^ k /\ covers k t 0 (length (entries t)) x.

(** A table at rest. *)
Record ok (t : dynamicTable) : Prop := {
  ok_size : size t = sizes (entries t);
  ok_fit : sizes (entries t) <= maxSize t;
  ok_max : 0 <= maxSize t;
  ok_index : match index t with
             | None => True
             | Some x => maxSize t <= MaxEncoderTableSize /\ index_ok t x
             end
}.

Lemma homeHash_false f : homeHash maphash false f = hashName maphash (Name f).
Proof. reflexivity. Qed.

Lemma homeHash_true f : homeHash maphash true f = hashPair maphash (hashName maphash (Name f)) (Value f).
Proof. reflexivity. Qed.

Lemma unindexLoop_spec k t c m x :
  1 <= k <= 63 -> small t -> Z.of_nat (length (entries t)) < 2 ^ k -> (m + c <= length (entries t))%nat ->
  covers k t m (length (entries t)) x ->
  exists x', unindexLoop maphash c t x m = Some x' /\ covers k t (m + c) (length (entries t)) x'.
Proof.
  intros Hk Hs Hroom. revert m x. induction c as [|c IH]; intros m x Hc Hcov; cbn [unindexLoop].
  - exists x. rewrite Nat.add_0_r. auto.
  - destruct (entries t !! m) as [f|] eqn:Hf; [|apply lookup_ge_None in Hf; lia].
    destruct Hcov as (Hmask & Hp & Hn). cbn [mbind option_bind]. rewrite Hmask.
    destruct (unlink_spec maphash false k Hk t Hs m _ _ f Hn ltac:(lia) Hroom Hf) as (ns & Ens & Hns).
    destruct (unlink_spec maphash true k Hk t Hs m _ _ f Hp ltac:(lia) Hroom Hf) as (ps & Eps & Hps).
    rewrite homeHash_false in Ens. rewrite homeHash_true in Eps. rewrite Ens. cbn [mbind option_bind].
    rewrite Eps. cbn [mbind option_bind].
    destruct (IH (S m) (mkIndex ps ns (2 ^ k - 1)) ltac:(lia)) as (x' & Hx & Hcov'); [now split|].
    exists x'. split; [exact Hx|]. now replace (m + S c)%nat with (S m + c)%nat by lia.
Qed.

Lemma reindexLoop_spec k t c n x :
  1 <= k <= 63 -> small t -> Z.of_nat (length (entries t)) < 2 ^ k -> (n + c <= length (entries t))%nat ->
  covers k t 0 n x ->
  exists x', reindexLoop maphash c t x n = Some x' /\ covers k t 0 (n + c) x'.
Proof.
  intros Hk Hs Hroom. revert n x. induction c as [|c IH]; intros n x Hc Hcov; cbn [reindexLoop].
  - exists x. rewrite Nat.add_0_r. auto.
  - destruct (entries t !! n) as [f|] eqn:Hf; [|apply lookup_ge_None in Hf; lia].
    destruct Hcov as (Hmask & Hp & Hn). cbn [mbind option_bind]. rewrite Hmask.
    destruct (link_spec maphash false k Hk t Hs 0 n _ Hn ltac:(lia) ltac:(lia) f ltac:(lia) Hf) as (ns & Ens & Hns).
    destruct (link_spec maphash true k Hk t Hs 0 n _ Hp ltac:(lia) ltac:(lia) f ltac:(lia) Hf) as (ps & Eps & Hps).
    rewrite homeHash_false in Ens. rewrite homeHash_true in Eps. rewrite Ens. cbn [mbind option_bind].
    rewrite Eps. cbn [mbind option_bind].
    destruct (IH (S n) (mkIndex ps ns (2 ^ k - 1)) ltac:(lia)) as (x' & Hx & Hcov'); [now split|].
    exists x'. split; [exact Hx|]. now replace (n + S c)%nat with (S n + c)%nat by lia.
Qed.

(** Eviction from a table whose index, if it has one, covers every entry. *)
Lemma evict_spec t :
  size t = sizes (entries t) -> 0 <= maxSize t ->
  (forall x, index t = Some x -> small t /\ exists k, 1 <= k <= 63 /\ Z.of_nat (length (entries t)) < 2 ^ k /\
     covers k t 0 (length (entries t)) x) ->
  exists t', evict maphash t = Some t' /\ entries t' = fit (maxSize t) (entries t) /\
    size t' = sizes (entries t') /\ maxSize t' = maxSize t /\
    match index t with
    | None => index t' = None
    | Some x => exists x', index t' = Some x' /\
        forall k, 1 <= k <= 63 -> Z.of_nat (length (entries t)) < 2 ^ k ->
          covers k t 0 (length (entries t)) x -> covers k t' 0 (length (entries t')) x'
    end.
Proof.
  intros Hsz Hmax Hix. unfold evict. rewrite Hsz.
  pose proof (evictCount_fit (maxSize t) (entries t) Hmax) as Hcnt.
  destruct (evictCount (sizes (entries t)) (maxSize t) (entries t)) as [c sz].
  destruct Hcnt as (Hc & Hd & -> & Hz). destruct (Nat.eqb_spec c 0) as [->|Hnz].
  - exists t. rewrite Hz by reflexivity. repeat split; auto. destruct (index t); eauto.
  - destruct (index t) as [x|] eqn:Ex.
    + destruct (Hix x eq_refl) as (Hs & k & Hk & Hroom & Hcov).
      destruct (unindexLoop_spec k t c 0 x Hk Hs Hroom ltac:(lia) Hcov) as (x' & Hx & Hcov').
      unfold unindex. rewrite Hx. cbn [fmap option_fmap option_map mbind option_bind].
      eexists. split; [reflexivity|]. cbn [entries size maxSize index]. rewrite Hd.
      repeat split; auto. exists x'. split; [reflexivity|]. intros k' Hk' Hroom' Hcovk'.
      assert (k' = k) as ->.
      { destruct Hcov as (E1 & _), Hcovk' as (E2 & _). apply (Z.pow_inj_r 2); lia. }
      destruct Hcov' as (Hm & Hp & Hn). split; [exact Hm|]. split.
      all: eapply idx_drop; [exact Hk|exact Hs|exact Hc| | |eassumption]; cbn [entries first];
        [now rewrite Hd|unfold u16; apply Zplus_mod_idemp_r].
    + cbn [mbind option_bind]. eexists. split; [reflexivity|]. cbn [entries size maxSize index].
      rewrite Hd. repeat split; auto.
Qed.

Lemma entries_bound t : ok t -> 32 * Z.of_nat (length (entries t)) <= maxSize t.
Proof. intros H. pose proof (sizes_ge (entries t)). pose proof (ok_fit _ H). lia. Qed.

(** With one entry more than it holds at rest, an indexed table still has
    fewer entries than its index tells apart, and than it has slots. *)
Lemma index_room k t :
  ok t -> 5 <= k -> 2 * (maxSize t ÷ 32) <= 2 ^ k -> Z.of_nat (length (entries t)) + 1 < 2 ^ k.
Proof.
  intros Hok Hk Hcap. pose proof (entries_bound t Hok) as Hb. pose proof (ok_max _ Hok) as Hm.
  assert (Z.of_nat (length (entries t)) <= maxSize t ÷ 32) as Hq.
  { rewrite Z.quot_div_nonneg by lia. apply Z.div_le_lower_bound; lia. }
  assert (2 ^ 5 <= 2 ^ k) by (apply Z.pow_le_mono_r; lia). lia.
Qed.

(** The table of a decoder, which keeps no index. *)
Lemma add_spec t f :
  ok t -> index t = None ->
  exists t', add maphash t f = Some t' /\ ok t' /\ index t' = None /\ maxSize t' = maxSize t /\
    entries t' = fit (maxSize t) (entries t ++ [f]).
Proof.
  intros Hok Hix. unfold add. rewrite Hix.
  destruct (evict_spec (mkTable (entries t ++ [f]) (size t + field_size f) (maxSize t) (first t) None))
    as (t' & He & Hent & Hsz & Hm & Hi); cbn [entries size maxSize index] in *.
  { rewrite sizes_app, (ok_size _ Hok). cbn [sizes foldr]. lia. }
  { apply (ok_max _ Hok). }
  { discriminate. }
  exists t'. split; [exact He|]. split; [|auto]. split.
  - exact Hsz.
  - rewrite Hent, Hm. apply fit_sizes, (ok_max _ Hok).
  - rewrite Hm. apply (ok_max _ Hok).
  - now rewrite Hi.
Qed.

Lemma doubleTo_spec fuel j c want :
  0 <= j <= c -> want <= 2 ^ c -> c - j <= Z.of_nat fuel ->
  exists k, j <= k <= c /\ want <= 2 ^ k /\ doubleTo fuel (2 ^ j) want = 2 ^ k.
Proof.
  revert j. induction fuel as [|fuel IH]; intros j Hj Hw Hf; cbn [doubleTo].
  - assert (j = c) as -> by lia. exists c. repeat split; auto; lia.
  - destruct (Z.ltb_spec (2 ^ j) want) as [Hlt|Hge].
    + assert (j <> c) by (intros ->; lia).
      replace (2 ^ j * 2) with (2 ^ (j + 1)) by (rewrite Z.pow_add_r by lia; lia).
      destruct (IH (j + 1)) as (k & Hk & Hwk & E); try lia. exists k. repeat split; auto; lia.
    + exists j. repeat split; auto; lia.
Qed.

Lemma newFieldIndex_spec t :
  0 <= maxSize t <= MaxEncoderTableSize ->
  exists k, 5 <= k <= 63 /\ 2 * (maxSize t ÷ 32) <= 2 ^ k /\ covers k t 0 0 (newFieldIndex (maxSize t)).
Proof.
  intros [Hm0 Hm]. change MaxEncoderTableSize with (2 ^ 15 * 32) in Hm.
  assert (2 * (maxSize t ÷ 32) <= 2 ^ 16) as Hw.
  { rewrite Z.quot_div_nonneg by lia.
    assert (maxSize t / 32 <= 2 ^ 15) by (apply Z.div_le_upper_bound; lia). lia. }
  destruct (doubleTo_spec 64 5 16 (2 * (maxSize t ÷ 32))) as (k & Hk & Hwk & E); try lia.
  change (2 ^ 5) with 32 in E.
  exists k. split; [lia|]. split; [exact Hwk|]. unfold newFieldIndex. rewrite E.
  split; [reflexivity|]. split; apply (idx_new maphash); lia.
Qed.

(** A table with a new last entry, its index covering the rest if it has one. *)
Definition extend (t : dynamicTable) (f : HeaderField) : dynamicTable :=
  mkTable (entries t ++ [f]) (size t + field_size f) (maxSize t) (first t) (index t).

Lemma extend_small t f : ok t -> maxSize t <= MaxEncoderTableSize -> small (extend t f).
Proof.
  intros Hok Hmax. unfold small, extend. cbn [entries]. rewrite length_app. cbn [length].
  pose proof (entries_bound t Hok). change MaxEncoderTableSize with (2 ^ 15 * 32) in Hmax. lia.
Qed.

Lemma extend_length t f : length (entries (extend t f)) = S (length (entries t)).
Proof. cbn [extend entries]. rewrite length_app. cbn. lia. Qed.

Lemma extend_last t f : entries (extend t f) !! length (entries t) = Some f.
Proof. cbn [extend entries]. now rewrite lookup_app_r, Nat.sub_diag by lia. Qed.

(** The new entry linked into one of the hash tables. *)
Lemma extend_link pair k t f slots :
  5 <= k <= 63 -> ok t -> maxSize t <= MaxEncoderTableSize -> 2 * (maxSize t ÷ 32) <= 2 ^ k ->
  idx maphash pair k t 0 (length (entries t)) slots ->
  exists slots',
    link (extend t f) (2 ^ k - 1) slots (homeHash maphash pair f) (length (entries t)) pair = Some slots' /\
    idx maphash pair k (extend t f) 0 (length (entries (extend t f))) slots'.
Proof.
  intros Hk Hok Hmax Hcap Hidx. rewrite extend_length.
  pose proof (extend_small t f Hok Hmax) as Hs. pose proof (index_room k t Hok ltac:(lia) Hcap) as Hroom.
  assert (small t) as Hs0 by (unfold small in *; rewrite extend_length in Hs; lia).
  assert (idx maphash pair k (extend t f) 0 (length (entries t)) slots) as Hidx'.
  { apply (idx_agree maphash pair k t); auto. intros p Hp. cbn [extend entries]. now rewrite lookup_app_l. }
  apply (link_spec maphash pair k ltac:(lia) (extend t f) Hs 0 (length (entries t)) slots Hidx');
    rewrite ?extend_length; try lia. apply extend_last.
Qed.

Lemma indexNewest_spec t f nameHash pairHash hashed :
  ok t -> maxSize t <= MaxEncoderTableSize ->
  (hashed = true -> nameHash = hashName maphash (Name f) /\
     pairHash = hashPair maphash (hashName maphash (Name f)) (Value f)) ->
  exists ix, indexNewest maphash (extend t f) f nameHash pairHash hashed = Some ix /\
    forall x, ix = Some x -> exists k, 5 <= k <= 63 /\ 2 * (maxSize t ÷ 32) <= 2 ^ k /\
      covers k (extend t f) 0 (length (entries (extend t f))) x.
Proof.
  intros Hok Hmax Hhash. unfold indexNewest.
  destruct (index (extend t f)) as [x|] eqn:Ex; change (index t = Some x) in Ex || change (index t = None) in Ex.
  - pose proof (ok_index _ Hok) as Hix. rewrite Ex in Hix.
    destruct Hix as (_ & k & Hk & Hcap & Hmask & Hp & Hn).
    destruct (extend_link false k t f _ Hk Hok Hmax Hcap Hn) as (ns & Ens & Hns).
    destruct (extend_link true k t f _ Hk Hok Hmax Hcap Hp) as (ps & Eps & Hps).
    assert ((if hashed then nameHash else hashName maphash (Name f)) = homeHash maphash false f) as ->
      by (destruct hashed; [now destruct Hhash as [-> _]|reflexivity]).
    assert ((if hashed then pairHash else hashPair maphash (homeHash maphash false f) (Value f)) =
            homeHash maphash true f) as ->
      by (destruct hashed; [now destruct Hhash as [_ ->]|reflexivity]).
    rewrite extend_length, Hmask. replace (S (length (entries t)) - 1)%nat with (length (entries t)) by lia.
    rewrite Ens. cbn [mbind option_bind]. rewrite Eps. cbn [mbind option_bind].
    eexists. split; [reflexivity|]. intros y [= <-]. exists k. split; [exact Hk|]. split; [exact Hcap|].
    rewrite extend_length in Hns, Hps. split; [reflexivity|]. split; assumption.
  - destruct (Z.ltb_spec indexFrom (len (entries (extend t f)))) as [_|_];
      [|eexists; split; [reflexivity|discriminate]].
    destruct (newFieldIndex_spec (extend t f)) as (k & Hk & Hcap & Hcov).
    { cbn [extend maxSize]. pose proof (ok_max _ Hok). lia. }
    assert (Z.of_nat (length (entries (extend t f))) < 2 ^ k) as Hroom.
    { rewrite extend_length. pose proof (index_room k t Hok ltac:(lia) Hcap). lia. }
    destruct (reindexLoop_spec k (extend t f) _ 0 _ ltac:(lia) (extend_small t f Hok Hmax) Hroom
      (le_n (length (entries (extend t f)))) Hcov) as (x & Hx & Hcov').
    rewrite Hx. cbn [fmap option_fmap option_map]. eexists. split; [reflexivity|]. intros y [= <-].
    exists k. auto.
Qed.

(** An encoder's table: the new entry indexed under its hashes, then eviction. *)
Lemma addIndexed_spec t f nameHash pairHash hashed :
  ok t -> maxSize t <= MaxEncoderTableSize ->
  (hashed = true -> nameHash = hashName maphash (Name f) /\
     pairHash = hashPair maphash (hashName maphash (Name f)) (Value f)) ->
  exists t', addIndexed maphash t f nameHash pairHash hashed = Some t' /\ ok t' /\ maxSize t' = maxSize t /\
    entries t' = fit (maxSize t) (entries t ++ [f]).
Proof.
  intros Hok Hmax Hhash.
  destruct (indexNewest_spec t f nameHash pairHash hashed Hok Hmax Hhash) as (ix & Eix & Hix).
  unfold addIndexed. fold (extend t f). rewrite Eix. cbn [mbind option_bind].
  set (t1 := mkTable _ _ _ _ ix).
  pose proof (ok_max _ Hok) as Hm0. pose proof (extend_small t f Hok Hmax) as Hs.
  assert (forall k m n x, covers k (extend t f) m n x -> covers k t1 m n x) as Hcv by (intros; assumption).
  destruct (evict_spec t1) as (t' & He & Hent & Hsz & Hm & Hi).
  - cbn [t1 extend entries size]. rewrite sizes_app, (ok_size _ Hok). cbn [sizes foldr]. lia.
  - exact Hm0.
  - intros x Ex. split; [exact Hs|]. destruct (Hix x Ex) as (k & Hk & Hcap & Hcov).
    exists k. split; [lia|]. split; [|exact Hcov].
    cbn [t1 entries]. rewrite extend_length. pose proof (index_room k t Hok ltac:(lia) Hcap). lia.
  - change (maxSize t1) with (maxSize t) in *. change (entries t1) with (entries t ++ [f]) in Hent.
    exists t'. split; [exact He|]. split; [|auto]. split.
    + exact Hsz.
    + rewrite Hent, Hm. now apply fit_sizes.
    + now rewrite Hm.
    + change (index t1) with ix in Hi. destruct ix as [x|]; [|now rewrite Hi].
      destruct Hi as (x' & -> & Hcov'). rewrite Hm. split; [exact Hmax|].
      destruct (Hix x eq_refl) as (k & Hk & Hcap & Hcov).
      exists k. split; [exact Hk|]. split; [now rewrite Hm|].
      apply Hcov'; [lia| |exact Hcov]. cbn [t1 entries]. rewrite extend_length.
      pose proof (index_room k t Hok ltac:(lia) Hcap). lia.
Qed.

(** A table of another size. *)
Lemma setMaxSize_spec t n :
  ok t -> 0 <= n -> (index t <> None -> n <= MaxEncoderTableSize) ->
  exists t', setMaxSize maphash t n = Some t' /\ ok t' /\ maxSize t' = n /\
    entries t' = fit n (entries t) /\ (index t = None -> index t' = None).
Proof.
  intros Hok Hn Hix. unfold setMaxSize.
  destruct (evict_spec (mkTable (entries t) (size t) n (first t) (index t)))
    as (t' & He & Hent & Hsz & Hm & Hi); cbn [entries size maxSize index] in *.
  - apply (ok_size _ Hok).
  - exact Hn.
  - intros x Ex. pose proof (ok_index _ Hok) as Hx. rewrite Ex in Hx. destruct Hx as (Hmax & k & Hk & Hcap & Hcov).
    pose proof (entries_bound t Hok). pose proof (index_room k t Hok ltac:(lia) Hcap).
    change MaxEncoderTableSize with (2 ^ 15 * 32) in Hmax. split; [unfold small; cbn [entries]; lia|].
    exists k. split; [lia|]. split; [lia|exact Hcov].
  - rewrite He. cbn [mbind option_bind].
    assert (sizes (entries t') <= maxSize t') as Hfit by (rewrite Hent, Hm; now apply fit_sizes).
    destruct (index t) as [x|] eqn:Ex.
    + pose proof (ok_index _ Hok) as Hx. rewrite Ex in Hx. destruct Hx as (Hmax & k & Hk & Hcap & Hcov).
      destruct Hi as (x' & Hx' & Hcov').
      assert (covers k t' 0 (length (entries t')) x') as Hc.
      { apply Hcov'; [lia| |exact Hcov]. pose proof (index_room k t Hok ltac:(lia) Hcap). lia. }
      rewrite Hx'. destruct (fits x' n) eqn:Ef.
      * exists t'. split; [reflexivity|]. split; [|repeat split; auto; discriminate].
        split; auto; [lia|]. rewrite Hx'. split; [rewrite Hm; apply Hix; discriminate|].
        exists k. split; [exact Hk|]. split; [|exact Hc]. unfold fits in Ef. apply Z.leb_le in Ef.
        destruct Hc as (_ & [[Hsized _ _] _] & _). unfold Probing.sized in Hsized. unfold len in Ef. rewrite Hm. lia.
      * eexists. split; [reflexivity|]. cbn [maxSize entries index].
        split; [|repeat split; auto; discriminate]. split; cbn [maxSize entries index size]; auto. lia.
    + rewrite Hi. exists t'. split; [reflexivity|]. split; [|auto]. split; auto; [lia|]. now rewrite Hi.
Qed.

End Whole.
End HIndex.
