(* ===== verification/HpackDecoder.v ===== *)
(** * The HPACK decoder (src/hpack/hpack.go: Decoder)

    Header blocks to fields, with the dynamic table they update and the three
    caches of recently decoded literals. The caches are shown to change
    nothing a caller sees, and a block, however malformed, to leave a table
    within the size this side advertised. *)

From S2P Require Import Prelude HpackInt HpackTables HpackHuffman HpackTable HpackIndex.
From stdpp Require Import base list numbers.
From Stdlib Require Import ZArith Lia.

Local Open Scope Z_scope.
Local Open Scope go_scope.

Module HDecoder.
Import HTable.

(** ** Data *)

Record codedString : Type := mkCoded { coded_of : bytes; plain_of : bytes }.

Definition recentStrings : nat := 8.
Definition maxRecentString : Z := 64.
Definition maxLongString : Z := 1024.

(** [huffman], the scratch buffer strings are decoded in, holds nothing between
    calls and is left out. *)
Record Decoder : Type := mkDecoder {
  table : dynamicTable;
  allowedMaxSize : Z;
  mustShrink : bool;
  MaxStringLength : Z;
  recent : list bytes;
  nextRecent : nat;
  coded : list codedString;
  nextCoded : nat;
  long : codedString;
  longHuffman : bool
}.

Definition NewDecoder (maxTableSize : Z) : Decoder :=
  mkDecoder (mkTable [] 0 maxTableSize 0 None) maxTableSize false 0
    (replicate recentStrings []) 0 (replicate recentStrings (mkCoded [] [])) 0 (mkCoded [] []) false.

Definition SetAllowedMaxSize (d : Decoder) (n : Z) : Decoder :=
  mkDecoder (table d) n (if n <? maxSize (table d) then true else mustShrink d) (MaxStringLength d)
    (recent d) (nextRecent d) (coded d) (nextCoded d) (long d) (longHuffman d).

(** Assignments to some of the fields. *)
Definition set_recent (d : Decoder) (r : list bytes) (n : nat) : Decoder :=
  mkDecoder (table d) (allowedMaxSize d) (mustShrink d) (MaxStringLength d) r n
    (coded d) (nextCoded d) (long d) (longHuffman d).
Definition set_coded (d : Decoder) (c : list codedString) (n : nat) : Decoder :=
  mkDecoder (table d) (allowedMaxSize d) (mustShrink d) (MaxStringLength d) (recent d) (nextRecent d)
    c n (long d) (longHuffman d).
Definition set_long (d : Decoder) (l : codedString) (h : bool) : Decoder :=
  mkDecoder (table d) (allowedMaxSize d) (mustShrink d) (MaxStringLength d) (recent d) (nextRecent d)
    (coded d) (nextCoded d) l h.
Definition set_table (d : Decoder) (t : dynamicTable) (shrink : bool) : Decoder :=
  mkDecoder t (allowedMaxSize d) shrink (MaxStringLength d) (recent d) (nextRecent d)
    (coded d) (nextCoded d) (long d) (longHuffman d).

(** ** Strings *)

(** The string for [raw], a remembered one when there is one for the same bytes. *)
Definition intern (d : Decoder) (raw : bytes) : bytes * Decoder :=
  if len raw =? 0 then ([], d)
  else if maxRecentString <? len raw then (raw, d)
  else
    match List.find (fun s => bool_decide (s = raw)) (recent d) with
    | Some s => (s, d)
    | None =>
        (raw, set_recent d (<[nextRecent d := raw]> (recent d)) ((nextRecent d + 1) mod recentStrings)%nat)
    end.

Definition isLong (d : Decoder) (raw : bytes) (huffman : bool) : bool :=
  Bool.eqb (longHuffman d) huffman && (len (coded_of (long d)) =? len raw) &&
  bool_decide (coded_of (long d) = raw) &&
  ((MaxStringLength d <=? 0) || (len (plain_of (long d)) <=? MaxStringLength d)).

(** What readString does with a Huffman-coded literal. *)
Definition readHuffman (d : Decoder) (raw : bytes) : res herr bytes * Decoder :=
  let short := len raw <=? maxRecentString in
  let hit :=
    if short then plain_of <$> List.find (fun c => bool_decide (coded_of c = raw)) (coded d)
    else if isLong d raw true then Some (plain_of (long d)) else None in
  match hit with
  | Some plain => (Ok plain, d)
  | None =>
      match Huffman.huffmanDecodeAppend [] raw (MaxStringLength d) with
      | Err e => (Err e, d)
      | Ok out =>
          let '(plain, d) := intern d out in
          let d :=
            if short && negb (bool_decide (plain = [])) then
              set_coded d (<[nextCoded d := mkCoded raw plain]> (coded d)) ((nextCoded d + 1) mod recentStrings)%nat
            else if len raw <=? maxLongString then set_long d (mkCoded raw plain) true
            else d in
          (Ok plain, d)
      end
  end.

(** And with one that came as it is. *)
Definition readPlain (d : Decoder) (raw : bytes) : res herr bytes * Decoder :=
  if (0 <? MaxStringLength d) && (MaxStringLength d <? len raw) then (Err ErrStringTooLong, d)
  else if (len raw <=? maxRecentString) || (maxLongString <? len raw) then
    let '(s, d) := intern d raw in (Ok s, d)
  else if isLong d raw false then (Ok (plain_of (long d)), d)
  else (Ok raw, set_long d (mkCoded raw raw) false).

Definition readString (d : Decoder) (block : bytes) : res herr (bytes * bytes) * Decoder :=
  match block with
  | [] => (Err ErrTruncated, d)
  | b0 :: _ =>
      let huffman := negb ((b0 .& 0x80) =? 0) in
      match HInt.readInt block 7 with
      | Err e => (Err e, d)
      | Ok (length, rest) =>
          if len rest <? length then (Err ErrTruncated, d)
          else
            let raw := ztake length rest in
            let rest := zdrop length rest in
            match (if huffman then readHuffman d raw else readPlain d raw) with
            | (Err e, d) => (Err e, d)
            | (Ok s, d) => (Ok (s, rest), d)
            end
      end
  end.

Definition readLiteral (d : Decoder) (block : bytes) (n : Z) : res herr (HeaderField * bytes) * Decoder :=
  match HInt.readInt block n with
  | Err e => (Err e, d)
  | Ok (index, rest) =>
      let named :=
        if 0 <? index then
          match field (table d) index with
          | None => (Err ErrInvalidIndex, d)
          | Some f => (Ok (Name f, rest), d)
          end
        else readString d rest in
      match named with
      | (Err e, d) => (Err e, d)
      | (Ok (name, rest), d) =>
          match readString d rest with
          | (Err e, d) => (Err e, d)
          | (Ok (value, rest), d) => (Ok (mkField name value, rest), d)
          end
      end
  end.

(** ** Blocks *)

(** One turn of Decode's loop: the decoder, and an error, or what is left of
    the block, the field to emit if there is one, and [start]. [None] is the
    table's. *)
Definition decodeOne (maphash : bytes -> Z) (d : Decoder) (start : bool) (block : bytes)
    : option (Decoder * res herr (bytes * option HeaderField * bool)) :=
  match block with
  | [] => Some (d, Ok ([], None, start))
  | b :: _ =>
      if negb ((b .& 0x80) =? 0) then
        match HInt.readInt block 7 with
        | Err e => Some (d, Err e)
        | Ok (index, rest) =>
            match field (table d) index with
            | None => Some (d, Err ErrInvalidIndex)
            | Some f => Some (d, Ok (rest, Some f, false))
            end
        end
      else if (b .& 0xc0) =? 0x40 then
        match readLiteral d block 6 with
        | (Err e, d) => Some (d, Err e)
        | (Ok (f, rest), d) =>
            t ← add maphash (table d) f;
            Some (set_table d t (mustShrink d), Ok (rest, Some f, false))
        end
      else if (b .& 0xe0) =? 0x20 then
        if negb start then Some (d, Err ErrInvalidSizeUpdate)
        else
          match HInt.readInt block 5 with
          | Err e => Some (d, Err e)
          | Ok (size, rest) =>
              if u64 (allowedMaxSize d) <? size then Some (d, Err ErrInvalidSizeUpdate)
              else
                t ← setMaxSize maphash (table d) size;
                Some (set_table d t false, Ok (rest, None, start))
          end
      else
        match readLiteral d block 4 with
        | (Err e, d) => Some (d, Err e)
        | (Ok (f, rest), d) => Some (d, Ok (rest, Some f, false))
        end
  end.

Section Decode.
Context (maphash : bytes -> Z) {A : Type} (emit : A -> HeaderField -> A * option herr).

(** [for len(block) > 0]. Each turn takes a byte at least, so as many turns as
    bytes are enough: [decode_total]. *)
Fixpoint decodeLoop (fuel : nat) (d : Decoder) (a : A) (start : bool) (block : bytes)
    : option (Decoder * A * option herr) :=
  match block with
  | [] => Some (d, a, None)
  | _ :: _ =>
      match fuel with
      | O => None
      | S fuel =>
          match decodeOne maphash d start block with
          | None => None
          | Some (d, Err e) => Some (d, a, Some e)
          | Some (d, Ok (rest, None, start)) => decodeLoop fuel d a start rest
          | Some (d, Ok (rest, Some f, start)) =>
              match emit a f with
              | (a, Some e) => Some (d, a, Some e)
              | (a, None) => decodeLoop fuel d a start rest
              end
          end
      end
  end.

Definition Decode (d : Decoder) (a : A) (block : bytes) : option (Decoder * A * option herr) :=
  let shrinks := match block with [] => false | b :: _ => (b .& 0xe0) =? 0x20 end in
  if mustShrink d && negb shrinks then Some (d, a, Some ErrInvalidSizeUpdate)
  else decodeLoop (length block) d a true block.

End Decode.

(** ** The decoder without its caches *)

Definition ref_string (max : Z) (huffman : bool) (raw : bytes) : res herr bytes :=
  if huffman then Huffman.huffmanDecode raw max
  else if (0 <? max) && (max <? len raw) then Err ErrStringTooLong else Ok raw.

Definition ref_readString (max : Z) (block : bytes) : res herr (bytes * bytes) :=
  match block with
  | [] => Err ErrTruncated
  | b0 :: _ =>
      '(length, rest) ← HInt.readInt block 7;
      if len rest <? length then Err ErrTruncated
      else
        s ← ref_string max (negb ((b0 .& 0x80) =? 0)) (ztake length rest);
        Ok (s, zdrop length rest)
  end.

Definition ref_readLiteral (max : Z) (t : dynamicTable) (block : bytes) (n : Z) : res herr (HeaderField * bytes) :=
  '(index, rest) ← HInt.readInt block n;
  '(name, rest) ←
    (if 0 <? index then
       match field t index with None => Err ErrInvalidIndex | Some f => Ok (Name f, rest) end
     else ref_readString max rest);
  '(value, rest) ← ref_readString max rest;
  Ok (mkField name value, rest).

(** What the caches hold is what decoding again would give. *)
Record cache_ok (d : Decoder) : Prop := {
  ck_coded : Forall (fun c => Huffman.huffmanDecode (coded_of c) (MaxStringLength d) = Ok (plain_of c)) (coded d);
  ck_long : if longHuffman d then Huffman.huffmanDecode (coded_of (long d)) (MaxStringLength d) = Ok (plain_of (long d))
            else coded_of (long d) = plain_of (long d)
}.

(** Two decoders that differ in their caches alone. *)
Definition same (d d' : Decoder) : Prop :=
  table d = table d' /\ allowedMaxSize d = allowedMaxSize d' /\ mustShrink d = mustShrink d' /\
  MaxStringLength d = MaxStringLength d'.

Lemma same_refl d : same d d.
Proof. repeat split. Qed.

Lemma same_sym d d' : same d d' -> same d' d.
Proof. intros (? & ? & ? & ?). repeat split; congruence. Qed.

Lemma same_trans d d' d'' : same d d' -> same d' d'' -> same d d''.
Proof. intros (? & ? & ? & ?) (? & ? & ? & ?). repeat split; congruence. Qed.

#[local] Hint Resolve same_refl same_trans : fib.

(** A computation of the decoder that comes to [r] and touches only caches. *)
Definition cached {A} (d : Decoder) (m : res herr A * Decoder) (r : res herr A) : Prop :=
  m.1 = r /\ cache_ok m.2 /\ same d m.2.

Lemma intern_ref d raw :
  cache_ok d -> exists d', intern d raw = (raw, d') /\ cache_ok d' /\ same d d'.
Proof.
  intros Hok. unfold intern. destruct (Z.eqb_spec (len raw) 0) as [E|].
  { exists d. destruct raw; [auto with fib|]. rewrite len_cons in E. pose proof (len_nonneg raw). lia. }
  case_match; [eauto with fib|].
  destruct (List.find _ _) as [s|] eqn:E.
  - apply find_some in E as [_ ->%bool_decide_eq_true]. eauto with fib.
  - eexists. split; [reflexivity|]. split; [|repeat split]. destruct Hok. now split.
Qed.

Lemma isLong_ref d raw huffman :
  cache_ok d -> isLong d raw huffman = true ->
  ref_string (MaxStringLength d) huffman raw = Ok (plain_of (long d)).
Proof.
  intros [_ Hlong]. unfold isLong, ref_string. rewrite !andb_true_iff, orb_true_iff, !Z.leb_le.
  intros [[[<-%Bool.eqb_prop _] <-%bool_decide_eq_true] Hmax].
  destruct (longHuffman d); [exact Hlong|]. rewrite Hlong.
  destruct (Z.ltb_spec 0 (MaxStringLength d)), (Z.ltb_spec (MaxStringLength d) (len (plain_of (long d))));
    cbn [andb]; try reflexivity. lia.
Qed.

Lemma readHuffman_ref d raw :
  cache_ok d -> cached d (readHuffman d raw) (ref_string (MaxStringLength d) true raw).
Proof.
  intros Hok. unfold readHuffman. generalize (len raw <=? maxRecentString). intros short.
  match goal with |- cached _ (match ?hit with _ => _ end) _ => destruct hit as [plain|] eqn:Ehit end.
  - split; [|split; [exact Hok|apply same_refl]]. cbn [fst]. destruct short.
    + destruct (List.find _ _) as [c|] eqn:E; [|discriminate]. injection Ehit as <-.
      apply find_some in E as [Hin E]. apply bool_decide_eq_true in E. subst raw. symmetry.
      destruct Hok as [Hc _]. rewrite Forall_forall in Hc. now apply Hc.
    + destruct (isLong d raw true) eqn:E; [|discriminate]. injection Ehit as <-.
      symmetry. now apply (isLong_ref d raw true Hok).
  - cbn [ref_string]. change (Huffman.huffmanDecodeAppend [] raw (MaxStringLength d))
      with (Huffman.huffmanDecode raw (MaxStringLength d)).
    destruct (Huffman.huffmanDecode raw (MaxStringLength d)) as [out|e] eqn:Ed;
      [|split; [reflexivity|split; [exact Hok|apply same_refl]]].
    destruct (intern_ref d out Hok) as (d1 & -> & [Hc Hl] & Hsame).
    pose proof Hsame as (_ & _ & _ & Hmax). rewrite Hmax in Ed.
    split; [reflexivity|]. cbn [snd]. destruct (short && negb (bool_decide (out = []))).
    + split; [split; cbn; [|exact Hl]|exact Hsame]. apply Forall_insert; assumption.
    + destruct (_ <=? _); [|split; [split|]; auto]. split; [split; cbn; auto|exact Hsame].
Qed.

Lemma readPlain_ref d raw :
  cache_ok d -> cached d (readPlain d raw) (ref_string (MaxStringLength d) false raw).
Proof.
  intros Hok. unfold readPlain, ref_string.
  destruct (_ && _) eqn:Etoo; [split; [reflexivity|split; [exact Hok|apply same_refl]]|].
  destruct (_ || _).
  - destruct (intern_ref d raw Hok) as (d1 & -> & Hok1 & Hsame). split; auto.
  - destruct (isLong d raw false) eqn:El.
    + split; [|split; [exact Hok|apply same_refl]]. cbn [fst].
      apply isLong_ref in El; [|exact Hok]. unfold ref_string in El. now rewrite Etoo in El.
    + split; [reflexivity|]. split; [|repeat split]. destruct Hok as [Hc _]. now split.
Qed.

Lemma readString_ref d block :
  cache_ok d -> cached d (readString d block) (ref_readString (MaxStringLength d) block).
Proof.
  intros Hok. destruct block as [|b0 block0]; [split; [reflexivity|split; [exact Hok|apply same_refl]]|].
  cbn [readString ref_readString]. set (block := b0 :: block0).
  destruct (HInt.readInt block 7) as [[length rest]|e]; cbn [mbind res_bind];
    [|split; [reflexivity|split; [exact Hok|apply same_refl]]].
  destruct (len rest <? length); [split; [reflexivity|split; [exact Hok|apply same_refl]]|].
  destruct (negb _).
  - pose proof (readHuffman_ref d (ztake length rest) Hok) as (<- & Hok' & Hs).
    destruct (readHuffman d (ztake length rest)) as [[s|e] d']; (split; [reflexivity|auto]).
  - pose proof (readPlain_ref d (ztake length rest) Hok) as (<- & Hok' & Hs).
    destruct (readPlain d (ztake length rest)) as [[s|e] d']; (split; [reflexivity|auto]).
Qed.

Lemma readLiteral_ref d block n :
  cache_ok d -> cached d (readLiteral d block n) (ref_readLiteral (MaxStringLength d) (table d) block n).
Proof.
  intros Hok. unfold readLiteral, ref_readLiteral.
  destruct (HInt.readInt block n) as [[index rest]|e]; cbn [mbind res_bind];
    [|split; [reflexivity|split; [exact Hok|apply same_refl]]].
  set (named := if 0 <? index then _ else readString d rest).
  set (ref := if 0 <? index then _ else ref_readString _ rest).
  assert (cached d named ref) as (Eref & Hok1 & Hs1).
  { unfold named, ref. destruct (0 <? index); [|now apply readString_ref].
    destruct (field (table d) index); (split; [reflexivity|split; [exact Hok|apply same_refl]]). }
  rewrite <- Eref. destruct named as [[[name rest1]|e] d1]; cbn [fst snd mbind res_bind] in *;
    [|split; [reflexivity|auto]].
  pose proof (readString_ref d1 rest1 Hok1) as (E2 & Hok2 & Hs2).
  pose proof Hs1 as (_ & _ & _ & ->). rewrite <- E2.
  destruct (readString d1 rest1) as [[[value rest2]|e] d2]; cbn [fst snd mbind res_bind] in *;
    (split; [reflexivity|split; [exact Hok2|eauto with fib]]).
Qed.

(** One turn of the loop without caches, on the table and [mustShrink]. *)
Definition ref_decodeOne (maphash : bytes -> Z) (max allowed : Z) (t : dynamicTable) (shrink start : bool)
    (block : bytes) : option (dynamicTable * bool * res herr (bytes * option HeaderField * bool)) :=
  match block with
  | [] => Some (t, shrink, Ok ([], None, start))
  | b :: _ =>
      if negb ((b .& 0x80) =? 0) then
        Some (t, shrink,
          '(index, rest) ← HInt.readInt block 7;
          match field t index with None => Err ErrInvalidIndex | Some f => Ok (rest, Some f, false) end)
      else if (b .& 0xc0) =? 0x40 then
        match ref_readLiteral max t block 6 with
        | Err e => Some (t, shrink, Err e)
        | Ok (f, rest) => t ← add maphash t f; Some (t, shrink, Ok (rest, Some f, false))
        end
      else if (b .& 0xe0) =? 0x20 then
        if negb start then Some (t, shrink, Err ErrInvalidSizeUpdate)
        else
          match HInt.readInt block 5 with
          | Err e => Some (t, shrink, Err e)
          | Ok (size, rest) =>
              if u64 allowed <? size then Some (t, shrink, Err ErrInvalidSizeUpdate)
              else t ← setMaxSize maphash t size; Some (t, false, Ok (rest, None, start))
          end
      else
        Some (t, shrink, '(f, rest) ← ref_readLiteral max t block 4; Ok (rest, Some f, false))
  end.

Lemma decodeOne_ref maphash d start block :
  cache_ok d ->
  match ref_decodeOne maphash (MaxStringLength d) (allowedMaxSize d) (table d) (mustShrink d) start block with
  | None => decodeOne maphash d start block = None
  | Some (t, shrink, r) =>
      exists d', decodeOne maphash d start block = Some (d', r) /\ cache_ok d' /\
        table d' = t /\ mustShrink d' = shrink /\ allowedMaxSize d' = allowedMaxSize d /\
        MaxStringLength d' = MaxStringLength d
  end.
Proof.
  intros Hok. destruct block as [|b block0]; [exists d; splits; auto|].
  cbn [decodeOne ref_decodeOne]. set (block := b :: block0).
  destruct (negb ((b .& 128) =? 0)).
  { destruct (HInt.readInt block 7) as [[index rest]|e]; cbn [mbind res_bind]; [|exists d; splits; auto].
    destruct (field (table d) index); exists d; splits; auto. }
  destruct ((b .& 192) =? 64).
  { pose proof (readLiteral_ref d block 6 Hok) as (E & Hok' & Ht & Ha & Hm & Hx). rewrite <- E.
    destruct (readLiteral d block 6) as [[[f rest]|e] d1]; cbn [fst snd] in *;
      [|exists d1; splits; auto; congruence].
    rewrite Ht. destruct (add maphash (table d1) f) as [t'|]; cbn [mbind option_bind]; [|reflexivity].
    eexists. split; [reflexivity|]. split; [destruct Hok'; now split|]. cbn. splits; congruence. }
  destruct ((b .& 224) =? 32).
  { destruct (negb start); [exists d; splits; auto|].
    destruct (HInt.readInt block 5) as [[size rest]|e]; [|exists d; splits; auto].
    destruct (_ <? size); [exists d; splits; auto|].
    destruct (setMaxSize maphash (table d) size) as [t'|]; cbn [mbind option_bind]; [|reflexivity].
    eexists. split; [reflexivity|]. split; [destruct Hok; now split|]. cbn. splits; congruence. }
  pose proof (readLiteral_ref d block 4 Hok) as (E & Hok' & Ht & Ha & Hm & Hx). rewrite <- E.
  destruct (readLiteral d block 4) as [[[f rest]|e] d1]; cbn [fst snd mbind res_bind] in *;
    exists d1; splits; auto; congruence.
Qed.

(** ** Progress *)

Lemma ref_readString_suffix max block s rest :
  ref_readString max block = Ok (s, rest) -> exists read, read <> [] /\ block = read ++ rest.
Proof.
  destruct block as [|b block0]; [discriminate|]. cbn [ref_readString].
  destruct (HInt.readInt (b :: block0) 7) as [[length rest0]|e] eqn:E; [|discriminate]. cbn [mbind res_bind].
  apply HInt.readInt_suffix in E as (read & Hne & ->).
  destruct (len rest0 <? length); [discriminate|].
  destruct (ref_string _ _ _) as [s'|]; [|discriminate]. cbn [mbind res_bind]. intros [= _ <-].
  exists (read ++ ztake length rest0). split; [now destruct read|].
  rewrite <- app_assoc. f_equal. symmetry. apply take_drop.
Qed.

Lemma ref_readLiteral_suffix max t block n f rest :
  ref_readLiteral max t block n = Ok (f, rest) -> exists read, read <> [] /\ block = read ++ rest.
Proof.
  unfold ref_readLiteral. destruct (HInt.readInt block n) as [[index rest0]|e] eqn:E; [|discriminate].
  apply HInt.readInt_suffix in E as (read & Hne & ->). cbn [mbind res_bind].
  destruct (if 0 <? index then _ else ref_readString max rest0) as [[name rest1]|e] eqn:E1; [|discriminate].
  cbn [mbind res_bind]. destruct (ref_readString max rest1) as [[value rest2]|e] eqn:E2; [|discriminate]. cbn [mbind res_bind].
  intros [= _ <-]. apply ref_readString_suffix in E2 as (read2 & _ & ->).
  assert (exists read1, rest0 = read1 ++ read2 ++ rest2) as (read1 & ->).
  { destruct (0 <? index).
    - destruct (field t index); [|discriminate]. injection E1 as _ ->. now exists [].
    - apply ref_readString_suffix in E1 as (read1 & _ & ->). eauto. }
  exists (read ++ read1 ++ read2). split; [now destruct read|]. now rewrite <- !app_assoc.
Qed.

Lemma suffix_progress (block read rest : bytes) :
  read <> [] -> block = read ++ rest -> bytes_ok block -> (length rest < length block)%nat /\ bytes_ok rest.
Proof.
  intros Hne -> [_ H]%bytes_ok_app. split; [|exact H]. rewrite length_app. destruct read; [done|cbn; lia].
Qed.

(** What a decoder keeps between blocks. *)
Record dec_ok (maphash : bytes -> Z) (d : Decoder) : Prop := {
  do_table : HIndex.ok maphash (table d);
  do_index : index (table d) = None;
  do_cache : cache_ok d;
  do_allowed : 0 <= allowedMaxSize d < 2 ^ 63;
  do_shrink : mustShrink d = false -> maxSize (table d) <= allowedMaxSize d
}.

Lemma dec_ok_same maphash d d' :
  dec_ok maphash d -> cache_ok d' -> table d' = table d -> mustShrink d' = mustShrink d ->
  allowedMaxSize d' = allowedMaxSize d -> dec_ok maphash d'.
Proof. intros [? ? ? ? ?] Hc Et Em Ea. split; rewrite ?Et, ?Em, ?Ea; auto. Qed.

Lemma update_byte b : is_byte b -> b .& 224 = 32 -> (b .& 128) =? 0 = true /\ (b .& 192) =? 64 = false.
Proof.
  intros Hb E. assert (negb ((b .& 224) =? 32) || (((b .& 128) =? 0) && negb ((b .& 192) =? 64)) = true) as H0
    by byte_check b.
  rewrite E in H0. cbn [Z.eqb Pos.eqb negb orb] in H0. now rewrite andb_true_iff, negb_true_iff in H0.
Qed.

(** Every turn ends with a decoder as good, and takes at least a byte. *)
Lemma decodeOne_ok maphash d start block :
  dec_ok maphash d -> bytes_ok block -> block <> [] ->
  exists d' r, decodeOne maphash d start block = Some (d', r) /\ dec_ok maphash d' /\
    (mustShrink d = false -> mustShrink d' = false) /\
    (forall rest f st, r = Ok (rest, f, st) -> (length rest < length block)%nat /\ bytes_ok rest /\
       (hd 0 block .& 0xe0 = 0x20 -> mustShrink d' = false)).
Proof.
  intros Hd Hb Hne. pose proof Hd as [Hok Hix Hc Ha Hs].
  pose proof (decodeOne_ref maphash d start block Hc) as Href.
  destruct block as [|b block0]; [contradiction|]. cbn [ref_decodeOne hd] in *. set (block := b :: block0) in *.
  pose proof (update_byte b ltac:(inversion Hb; assumption)) as Hupd.
  destruct ((b .& 128) =? 0); cbn [negb] in Href.
  2:{ destruct Href as (d' & -> & Hc' & Ht & Hm & Ha' & Hx).
    exists d'. eexists. splits; [reflexivity|eauto using dec_ok_same|congruence|]. intros rest f st E.
    destruct (HInt.readInt block 7) as [[index rest0]|e] eqn:Er; [|discriminate]. cbn [mbind res_bind] in E.
    apply HInt.readInt_suffix in Er as (read & Hr & Er). destruct (field _ _); [|discriminate]. injection E as <- _ _.
    destruct (suffix_progress _ _ _ Hr Er Hb). splits; auto. intros E2. now destruct (Hupd E2). }
  destruct ((b .& 192) =? 64).
  { destruct (ref_readLiteral _ _ block 6) as [[f rest]|e] eqn:El.
    - apply ref_readLiteral_suffix in El as (read & Hr & El).
      destruct (HIndex.add_spec maphash _ f Hok Hix) as (t' & Et & Hok' & Hix' & Hmax & _). rewrite Et in Href.
      cbn [mbind option_bind] in Href. destruct Href as (d' & -> & Hc' & Ht & Hm & Ha' & Hx).
      exists d'. eexists. splits; [reflexivity| |congruence|].
      + split; rewrite ?Ht, ?Ha'; auto. rewrite Hmax, Hm. exact Hs.
      + intros rest' f' st [= <- _ _]. destruct (suffix_progress _ _ _ Hr El Hb). splits; auto.
        intros E2. now destruct (Hupd E2).
    - destruct Href as (d' & -> & Hc' & Ht & Hm & Ha' & Hx).
      exists d'. eexists. splits; [reflexivity|eauto using dec_ok_same|congruence|discriminate]. }
  destruct (Z.eqb_spec (b .& 224) 32) as [Eu|E3].
  { destruct (negb start); [|destruct (HInt.readInt block 5) as [[size rest]|e] eqn:Er;
      [destruct (Z.ltb_spec (u64 (allowedMaxSize d)) size) as [|Hle]|]].
    1,2,4: destruct Href as (d' & -> & Hc' & Ht & Hm & Ha' & Hx);
      exists d'; eexists; splits; [reflexivity|eauto using dec_ok_same|congruence|discriminate].
    apply HInt.readInt_bounded_suffix in Er as [Hpos (read & Hr & Er)]; [|lia|exact Hb].
    destruct (HIndex.setMaxSize_spec maphash _ size Hok) as (t' & Et & Hok' & Hmax & _ & Hix');
      [lia|rewrite Hix; contradiction|]. rewrite Et in Href.
    cbn [mbind option_bind] in Href. destruct Href as (d' & -> & Hc' & Ht & Hm & Ha' & Hx).
    rewrite u64_id in Hle by lia.
    exists d'. eexists. splits; [reflexivity| |congruence|].
    - split; rewrite ?Ht, ?Ha'; auto. intros _. lia.
    - intros rest' f' st [= <- _ _]. destruct (suffix_progress _ _ _ Hr Er Hb). splits; auto. }
  destruct Href as (d' & -> & Hc' & Ht & Hm & Ha' & Hx).
  exists d'. eexists. splits; [reflexivity|eauto using dec_ok_same|congruence|]. intros rest f st E.
  destruct (ref_readLiteral _ _ block 4) as [[f' rest']|e] eqn:El; [|discriminate]. injection E as <- _ _.
  apply ref_readLiteral_suffix in El as (read & Hr & El).
  destruct (suffix_progress _ _ _ Hr El Hb). splits; auto. now intros E2.
Qed.

Lemma decodeLoop_ok maphash {A} (emit : A -> HeaderField -> A * option herr) fuel d a start block :
  dec_ok maphash d -> bytes_ok block -> (length block <= fuel)%nat ->
  exists d' a' e, decodeLoop maphash emit fuel d a start block = Some (d', a', e) /\ dec_ok maphash d' /\
    (e = None -> mustShrink d = false \/ (block <> [] /\ hd 0 block .& 0xe0 = 0x20) -> mustShrink d' = false).
Proof.
  revert d a start block. induction fuel as [|fuel IH]; intros d a start block Hd Hb Hf;
    (destruct block as [|b block0]; [exists d, a, None; splits; cbn; tauto|]); [cbn in Hf; lia|].
  cbn [decodeLoop]. set (block := b :: block0) in *.
  destruct (decodeOne_ok maphash d start block Hd Hb) as (d1 & r & -> & Hd1 & Hm & Hr); [discriminate|].
  destruct r as [[[rest f] st]|e]; [|exists d1, a, (Some e); splits; auto; discriminate].
  destruct (Hr rest f st eq_refl) as (Hlen & Hb1 & Hu).
  assert (forall a1, exists d' a' e, decodeLoop maphash emit fuel d1 a1 st rest = Some (d', a', e) /\
    dec_ok maphash d' /\ (e = None -> mustShrink d = false \/ (block <> [] /\ hd 0 block .& 0xe0 = 0x20) ->
       mustShrink d' = false)) as Hnext.
  { intros a1. destruct (IH d1 a1 st rest Hd1 Hb1 ltac:(lia)) as (d' & a' & e & E & Hd' & He).
    exists d', a', e. splits; auto. intros -> Hc. apply He; [reflexivity|]. left. destruct Hc as [|[_ Hc]]; auto. }
  destruct f as [f|]; [|apply Hnext].
  destruct (emit a f) as [a1 [e|]]; [exists d1, a1, (Some e); splits; auto; discriminate|apply Hnext].
Qed.

(** Results that agree in all but the caches. *)
Definition agree {A} (r1 r2 : option (Decoder * A * option herr)) : Prop :=
  match r1, r2 with
  | None, None => True
  | Some (d1, a1, e1), Some (d2, a2, e2) => same d1 d2 /\ a1 = a2 /\ e1 = e2 /\ cache_ok d1 /\ cache_ok d2
  | _, _ => False
  end.

Lemma decodeLoop_same maphash {A} (emit : A -> HeaderField -> A * option herr) fuel d1 d2 a start block :
  same d1 d2 -> cache_ok d1 -> cache_ok d2 ->
  agree (decodeLoop maphash emit fuel d1 a start block) (decodeLoop maphash emit fuel d2 a start block).
Proof.
  revert d1 d2 a start block. induction fuel as [|fuel IH]; intros d1 d2 a start block Hs H1 H2;
    (destruct block as [|b block0]; [cbn; auto|]); [cbn; auto|].
  cbn [decodeLoop]. set (block := b :: block0).
  pose proof (decodeOne_ref maphash d1 start block H1) as R1.
  pose proof (decodeOne_ref maphash d2 start block H2) as R2.
  destruct Hs as (Et & Ea & Em & Ex). rewrite <- Et, <- Ea, <- Em, <- Ex in R2.
  destruct (ref_decodeOne maphash _ _ _ _ start block) as [[[t sh] r]|]; [|rewrite R1, R2; exact I].
  destruct R1 as (d1' & -> & H1' & Ht1 & Hm1 & Ha1 & Hx1), R2 as (d2' & -> & H2' & Ht2 & Hm2 & Ha2 & Hx2).
  assert (same d1' d2') as Hs' by (repeat split; congruence).
  destruct r as [[[rest f] st]|e]; [|cbn; auto].
  destruct f as [f|]; [|now apply IH]. destruct (emit a f) as [a1 [e|]]; [cbn; auto|now apply IH].
Qed.

Lemma NewDecoder_ok maphash n : 0 <= n < 2 ^ 63 -> dec_ok maphash (NewDecoder n).
Proof.
  intros Hn. split; [split; cbn; auto; lia|reflexivity| |exact Hn|cbn; lia].
  split; [|reflexivity]. cbn [NewDecoder coded MaxStringLength]. apply Forall_replicate. cbn [coded_of plain_of].
  apply (Huffman.huffman_roundtrip [] 0); [constructor|lia].
Qed.

(** ** Properties *)

(** Decode ends on every block, in as many turns as bytes at most, and
    never indexes out of range; the decoder keeps its invariant whether the block
    is an error or not, and after one that is not the table is within the size
    this side allows. *)
Theorem Decode_total (maphash : bytes -> Z) {A} (emit : A -> HeaderField -> A * option herr)
    (d : Decoder) (a : A) (block : bytes) :
  dec_ok maphash d -> bytes_ok block ->
  exists d' a' e, Decode maphash emit d a block = Some (d', a', e) /\ dec_ok maphash d' /\
    (e = None -> size (table d') <= maxSize (table d') <= allowedMaxSize d').
Proof.
  intros Hd Hb. unfold Decode.
  destruct (mustShrink d && _) eqn:E; [exists d, a, (Some ErrInvalidSizeUpdate); splits; auto; discriminate|].
  destruct (decodeLoop_ok maphash emit (length block) d a true block Hd Hb (le_n _)) as (d' & a' & e & -> & Hd' & He).
  exists d', a', e. splits; auto. intros ->.
  assert (mustShrink d' = false) as Hm.
  { apply He; [reflexivity|]. destruct (mustShrink d); [right|now left].
    destruct block; [discriminate|]. split; [discriminate|]. cbn [hd]. cbn in E.
    now apply negb_false_iff, Z.eqb_eq in E. }
  rewrite (HIndex.ok_size _ _ (do_table _ _ Hd')).
  split; [apply (HIndex.ok_fit _ _ (do_table _ _ Hd'))|now apply (do_shrink _ _ Hd')].
Qed.

(** The three caches of recent literals change nothing: two decoders that
    differ in their caches alone, both holding what decoding again would give,
    come to the same fields, the same error and the same table on every block. *)
Theorem Decode_caches_invisible (maphash : bytes -> Z) {A} (emit : A -> HeaderField -> A * option herr)
    (d1 d2 : Decoder) (a : A) (block : bytes) :
  same d1 d2 -> cache_ok d1 -> cache_ok d2 ->
  agree (Decode maphash emit d1 a block) (Decode maphash emit d2 a block).
Proof.
  intros Hs H1 H2. unfold Decode. pose proof Hs as (_ & _ & <- & _).
  destruct (mustShrink d1 && _); [cbn; auto|now apply decodeLoop_same].
Qed.

(** ** Witnesses *)

(** RFC 7541 section C.3.1, with a size update the decoder allows and a
    truncated literal at the end. *)
Definition testBlock : bytes := [0x3f; 0x45; 0x82; 0x86; 0x84; 0x41; 0x03; 97; 98; 99; 0x40; 0x05].

Lemma testBlock_ok : bytes_ok testBlock.
Proof. repeat (apply List.Forall_cons; [split; [discriminate|reflexivity]|]). apply List.Forall_nil. Qed.

Definition countFields (a : nat) (f : HeaderField) : nat * option herr := (S a, None).

Lemma Decode_total_witness :
  exists d' a' e, Decode len countFields (NewDecoder 4096) 0%nat testBlock = Some (d', a', e) /\ dec_ok len d' /\
    (e = None -> size (table d') <= maxSize (table d') <= allowedMaxSize d').
Proof.
  apply (Decode_total len countFields (NewDecoder 4096) 0%nat testBlock); [apply NewDecoder_ok; lia|exact testBlock_ok].
Defined.

Lemma Decode_caches_invisible_witness :
  agree (Decode len countFields (NewDecoder 4096) 0%nat testBlock)
        (Decode len countFields (set_recent (NewDecoder 4096) [[97; 98; 99]] 0) 0%nat testBlock).
Proof.
  apply (Decode_caches_invisible len countFields (NewDecoder 4096) (set_recent (NewDecoder 4096) [[97; 98; 99]] 0) 0%nat testBlock).
  - repeat split.
  - apply (NewDecoder_ok len 4096). lia.
  - destruct (do_cache _ _ (NewDecoder_ok len 4096 ltac:(lia))). now split.
Defined.

End HDecoder.
