(* ===== verification/HpackEncoder.v ===== *)
(** * The HPACK encoder (src/hpack/hpack.go: Encoder)

    Fields to header blocks, with the dynamic table the peer's decoder keeps a
    copy of, the table size changes a block has to announce, and the search of
    the table, linear while it is small and through the index past that. *)

From S2P Require Import Prelude HpackInt HpackTables HpackHuffman HpackTable HpackIndex HpackDecoder.
From stdpp Require Import base list numbers gmap.
From Stdlib Require Import ZArith Lia.

Local Open Scope Z_scope.
Local Open Scope go_scope.

Module HEncoder.
Import HTable.

(** ** The static table's indices *)

(** [for i := len(staticTable) - 1; i >= 0; i--]: the entry at [i] is put in
    after those above it, so the lowest index of a key stays. *)
Fixpoint buildNameIndex (i : Z) (es : list HeaderField) : gmap bytes Z :=
  match es with
  | [] => ∅
  | f :: es => <[Name f := i + 1]> (buildNameIndex (i + 1) es)
  end.

Fixpoint buildPairIndex (i : Z) (es : list HeaderField) : gmap (bytes * bytes) Z :=
  match es with
  | [] => ∅
  | f :: es => <[(Name f, Value f) := i + 1]> (buildPairIndex (i + 1) es)
  end.

Definition staticNameIndex : gmap bytes Z := buildNameIndex 0 staticTable.
Definition staticPairIndex : gmap (bytes * bytes) Z := buildPairIndex 0 staticTable.

(** ** Data *)

Record Encoder : Type := mkEncoder {
  table : dynamicTable;
  pendingSize : bool;
  minPending : Z;
  limit : Z;
  allowed : Z
}.

Definition NewEncoder : Encoder :=
  mkEncoder (mkTable [] 0 DefaultTableSize 0 None) false 0 DefaultTableSize DefaultTableSize.

(** ** Strings *)

Definition appendString (dst s : bytes) : bytes :=
  let n := Huffman.huffmanLen s in
  if n <? len s then Huffman.huffmanAppend (HInt.appendInt dst 0x80 7 n) s
  else HInt.appendInt dst 0x00 7 (len s) ++ s.

Section Hash.
Context (maphash : bytes -> Z).

(** ** Table sizes *)

Definition SetMaxTableSize (e : Encoder) (n : Z) : option Encoder :=
  let e := mkEncoder (table e) (pendingSize e) (minPending e) (limit e) n in
  let n := if limit e <? n then limit e else n in
  if n =? maxSize (table e) then Some e
  else
    let minP := if negb (pendingSize e) || (n <? minPending e) then n else minPending e in
    t ← setMaxSize maphash (table e) n;
    Some (mkEncoder t true minP (limit e) (allowed e)).

Definition SetTableSizeLimit (e : Encoder) (n : Z) : option Encoder :=
  let lim := Z.min (Z.max n 0) MaxEncoderTableSize in
  SetMaxTableSize (mkEncoder (table e) (pendingSize e) (minPending e) lim (allowed e)) (allowed e).

Definition Begin (e : Encoder) (dst : bytes) : Encoder * bytes :=
  if negb (pendingSize e) then (e, dst)
  else
    let e := mkEncoder (table e) false (minPending e) (limit e) (allowed e) in
    let dst := if minPending e <? maxSize (table e) then HInt.appendInt dst 0x20 5 (minPending e) else dst in
    (e, HInt.appendInt dst 0x20 5 (maxSize (table e))).

(** ** Fields *)

(** [for i := len(t.entries) - 1; i >= 0; i--]: [i] entries are left to look
    at. [inl] is the index of an entry that is the field, [inr] the name's. *)
Fixpoint scanLoop (i : nat) (es : list HeaderField) (name value : bytes) (nameIndex : Z) : Z + Z :=
  match i with
  | O => inr nameIndex
  | S i =>
      match es !! i with
      | None => inr nameIndex
      | Some f =>
          if negb (bool_decide (Name f = name)) then scanLoop i es name value nameIndex
          else
            let index := len staticTable + len es - Z.of_nat i in
            if bool_decide (Value f = value) then inl index
            else scanLoop i es name value (if nameIndex =? 0 then index else nameIndex)
      end
  end.

(** The search AppendField makes: the index of the whole field, or of its name,
    0 for none, with the hashes it took. *)
Definition searchTable (t : dynamicTable) (name value : bytes) (nameIndex : Z)
    : option ((Z + Z) * (Z * Z * bool)) :=
  match index t with
  | Some x =>
      if indexFrom <? len (entries t) then
        let nameHash := hashName maphash name in
        let pairHash := hashPair maphash nameHash value in
        p ← find t (ix_mask x) (pairs x) pairHash name value true;
        if 0 <=? p then Some (inl (len staticTable + len (entries t) - p), (nameHash, pairHash, true))
        else if nameIndex =? 0 then
          p ← find t (ix_mask x) (names x) nameHash name [] false;
          Some (inr (if 0 <=? p then len staticTable + len (entries t) - p else nameIndex),
                (nameHash, pairHash, true))
        else Some (inr nameIndex, (nameHash, pairHash, true))
      else Some (scanLoop (length (entries t)) (entries t) name value nameIndex, (0, 0, false))
  | None => Some (scanLoop (length (entries t)) (entries t) name value nameIndex, (0, 0, false))
  end.

Definition AppendField (e : Encoder) (dst name value : bytes) (sensitive : bool) : option (Encoder * bytes) :=
  match staticPairIndex !! (name, value) with
  | Some i => Some (e, HInt.appendInt dst 0x80 7 i)
  | None =>
      let nameIndex := default 0 (staticNameIndex !! name) in
      '(found, (nameHash, pairHash, hashed)) ← searchTable (table e) name value nameIndex;
      match found with
      | inl index => Some (e, HInt.appendInt dst 0x80 7 index)
      | inr nameIndex =>
          let f := mkField name value in
          '(e, dst) ←
            (if sensitive then Some (e, HInt.appendInt dst 0x10 4 nameIndex)
             else if (maxSize (table e) ÷ 2) <? field_size f then
               Some (e, HInt.appendInt dst 0x00 4 nameIndex)
             else
               t ← addIndexed maphash (table e) f nameHash pairHash hashed;
               Some (mkEncoder t (pendingSize e) (minPending e) (limit e) (allowed e),
                     HInt.appendInt dst 0x40 6 nameIndex));
          let dst := if nameIndex =? 0 then appendString dst name else dst in
          Some (e, appendString dst value)
      end
  end.

(** A block as a connection encodes one: Begin, then the fields in order. *)
Definition AppendFields (e : Encoder) (dst : bytes) (fs : list (HeaderField * bool)) : option (Encoder * bytes) :=
  foldM (fun '(e, dst) '(f, sensitive) => AppendField e dst (Name f) (Value f) sensitive) (e, dst) fs.

Definition encodeBlock (e : Encoder) (fs : list (HeaderField * bool)) : option (Encoder * bytes) :=
  let '(e, dst) := Begin e [] in AppendFields e dst fs.

End Hash.
End HEncoder.
