(* ===== verification/HpackRoundtrip.v ===== *)
(** * HPACK: the encoder and the decoder together

    The index finds what a search of the table would; the encoder's blocks
    decode to the fields it was given, and keep the two tables in step through
    table size changes. *)

From S2P Require Import Prelude HpackInt HpackTables HpackHuffman HpackTable HpackIndex HpackDecoder HpackEncoder.
From stdpp Require Import base list numbers gmap.
From Stdlib Require Import ZArith Lia.

Local Open Scope Z_scope.
Local Open Scope go_scope.

Module HRound.
Import HTable.

#[global] Opaque HEncoder.staticPairIndex HEncoder.staticNameIndex.

(** ** The static indices *)

Lemma buildNameIndex_sound i es name j :
  HEncoder.buildNameIndex i es !! name = Some j ->
  i < j <= i + len es /\ exists f, es !! Z.to_nat (j - 1 - i) = Some f /\ Name f = name.
Proof.
  revert i. induction es as [|f es IH]; intros i; cbn [HEncoder.buildNameIndex]; [intros H; now rewrite lookup_empty in H|].
  rewrite len_cons. destruct (decide (Name f = name)) as [<-|Hne].
  - rewrite lookup_insert_eq. intros [= <-]. pose proof (len_nonneg es). split; [lia|].
    exists f. replace (i + 1 - 1 - i) with 0 by lia. auto.
  - rewrite lookup_insert_ne by exact Hne. intros (Hj & g & Hg & Hn)%IH. split; [lia|].
    exists g. replace (Z.to_nat (j - 1 - i)) with (S (Z.to_nat (j - 1 - (i + 1)))) by lia. auto.
Qed.

Lemma buildPairIndex_sound i es name value j :
  HEncoder.buildPairIndex i es !! (name, value) = Some j ->
  i < j <= i + len es /\ es !! Z.to_nat (j - 1 - i) = Some (mkField name value).
Proof.
  revert i. induction es as [|f es IH]; intros i; cbn [HEncoder.buildPairIndex]; [intros H; now rewrite lookup_empty in H|].
  rewrite len_cons. destruct (decide ((Name f, Value f) = (name, value))) as [E|Hne].
  - injection E as <- <-. rewrite lookup_insert_eq. intros [= <-]. pose proof (len_nonneg es). split; [lia|].
    replace (i + 1 - 1 - i) with 0 by lia. now destruct f.
  - rewrite lookup_insert_ne by exact Hne. intros (Hj & Hg)%IH. split; [lia|].
    replace (Z.to_nat (j - 1 - i)) with (S (Z.to_nat (j - 1 - (i + 1)))) by lia. exact Hg.
Qed.

Definition nstatic : Z := len staticTable.

Lemma nstatic_61 : nstatic = 61.
Proof. reflexivity. Qed.

(** A combined index names a field both tables hold. *)
Lemma field_static t i : 1 <= i <= nstatic -> field t i = staticTable !! Z.to_nat (i - 1).
Proof.
  intros Hi. unfold field. fold nstatic. rewrite (proj2 (Z.eqb_neq i 0)), (proj2 (Z.leb_le i nstatic)) by lia.
  reflexivity.
Qed.

Lemma field_dynamic t p : (p < length (entries t))%nat -> field t (nstatic + len (entries t) - Z.of_nat p) = entries t !! p.
Proof.
  intros Hp. unfold field, get. fold nstatic. rewrite nstatic_61.
  assert (Z.of_nat p < len (entries t)) as Hl by (unfold len; lia).
  set (n := len (entries t)) in *. pose proof (len_nonneg (entries t)) as Hn.
  rewrite (proj2 (Z.eqb_neq _ 0)), (proj2 (Z.leb_gt _ 61)) by lia.
  replace (61 + n - Z.of_nat p - 61) with (n - Z.of_nat p) by lia.
  rewrite (proj2 (Z.ltb_ge n _)), (proj2 (Z.ltb_ge (n - Z.of_nat p) 1)) by lia. cbn [orb].
  f_equal. lia.
Qed.

(** ** The search *)

(** The field, or its name, at the newest entry that has it. *)
Definition newest_at (P : HeaderField -> Prop) (es : list HeaderField) (p : nat) : Prop :=
  (exists f, es !! p = Some f /\ P f) /\ forall p' f, (p < p')%nat -> es !! p' = Some f -> ~ P f.

Section Scan.
Context (es : list HeaderField) (name value : bytes).
Abbreviation pairP := (fun f => Name f = name /\ Value f = value).
Abbreviation nameP := (fun f => Name f = name).
Abbreviation idx p := (len staticTable + len es - Z.of_nat p).

Lemma scan_pair i p ni :
  (p < i <= length es)%nat -> newest_at pairP es p ->
  HEncoder.scanLoop i es name value ni = inl (idx p).
Proof.
  intros Hi [(f & Hf & Hn & Hv) Hnew]. revert ni. induction i as [|i IH]; intros ni; [lia|].
  cbn [HEncoder.scanLoop]. destruct (decide (p = i)) as [->|Hne].
  - rewrite Hf, !bool_decide_eq_true_2 by assumption. reflexivity.
  - destruct (es !! i) as [g|] eqn:Eg; [|apply lookup_ge_None in Eg; lia].
    assert (~ (Name g = name /\ Value g = value)) as Hg by (apply (Hnew i); [lia|exact Eg]).
    case_bool_decide; cbn [negb]; [|apply IH; lia]. rewrite bool_decide_eq_false_2 by tauto. apply IH; lia.
Qed.

Lemma scan_keep i ni :
  ni <> 0 -> (forall p f, (p < i)%nat -> es !! p = Some f -> ~ pairP f) ->
  HEncoder.scanLoop i es name value ni = inr ni.
Proof.
  intros Hni Hno. induction i as [|i IH]; cbn [HEncoder.scanLoop]; [reflexivity|].
  destruct (es !! i) as [g|] eqn:Eg; [|reflexivity].
  assert (~ (Name g = name /\ Value g = value)) as Hg by (apply (Hno i); [lia|exact Eg]).
  rewrite (proj2 (Z.eqb_neq ni 0)), IH by (intros; try apply (Hno p f); auto; lia).
  case_bool_decide; cbn [negb]; [|reflexivity]. now rewrite bool_decide_eq_false_2 by tauto.
Qed.

Lemma scan_name i p :
  (p < i <= length es)%nat -> newest_at nameP es p -> (forall p f, (p < i)%nat -> es !! p = Some f -> ~ pairP f) ->
  HEncoder.scanLoop i es name value 0 = inr (idx p).
Proof.
  intros Hi [(f & Hf & Hn) Hnew] Hno. induction i as [|i IH]; [lia|].
  cbn [HEncoder.scanLoop]. destruct (decide (p = i)) as [->|Hne].
  - assert (~ pairP f) as Hg by (apply (Hno i); [lia|exact Hf]).
    rewrite Hf, bool_decide_eq_true_2, bool_decide_eq_false_2 by tauto. cbn [negb Z.eqb].
    apply scan_keep; [pose proof nstatic_61; unfold nstatic, len in *; lia|].
    intros p f' Hp. apply Hno. lia.
  - destruct (es !! i) as [g|] eqn:Eg; [|apply lookup_ge_None in Eg; lia].
    rewrite bool_decide_eq_false_2 by (apply (Hnew i); [lia|exact Eg]). cbn [negb].
    apply IH; [lia|]. intros p' f' Hp'. apply Hno. lia.
Qed.

Lemma scan_none i ni :
  (forall p f, (p < i)%nat -> es !! p = Some f -> Name f <> name) ->
  HEncoder.scanLoop i es name value ni = inr ni.
Proof.
  intros Hno. induction i as [|i IH]; cbn [HEncoder.scanLoop]; [reflexivity|].
  destruct (es !! i) as [g|] eqn:Eg; [|reflexivity].
  rewrite bool_decide_eq_false_2 by (apply (Hno i); [lia|exact Eg]). cbn [negb].
  apply IH. intros p f Hp. apply Hno. lia.
Qed.

(** What the search finds is there. *)
Lemma scan_sound i ni r :
  (i <= length es)%nat -> HEncoder.scanLoop i es name value ni = r ->
  match r with
  | inl j => exists p, (p < length es)%nat /\ j = idx p /\ es !! p = Some (mkField name value)
  | inr j => j = ni \/ exists p f, (p < length es)%nat /\ j = idx p /\ es !! p = Some f /\ Name f = name
  end.
Proof.
  intros Hi. revert ni. induction i as [|i IH]; intros ni; cbn [HEncoder.scanLoop]; [intros <-; now left|].
  destruct (es !! i) as [g|] eqn:Eg; [|intros <-; now left].
  case_bool_decide as Hn; cbn [negb]; [|apply IH; lia].
  case_bool_decide as Hv; [intros <-; exists i; splits; [lia|reflexivity|destruct g; cbn in *; congruence]|].
  intros H. apply IH in H; [|lia]. destruct r as [j|j]; [exact H|].
  destruct H as [->|H]; [|now right]. case_match; [right; exists i, g; splits; auto; lia|now left].
Qed.

End Scan.

(** ** What a field is written as *)

Definition string_ok (max : Z) (s : bytes) : Prop :=
  bytes_ok s /\ len s < 2 ^ 56 /\ (max <= 0 \/ len s <= max).

Lemma appendString_app dst s : HEncoder.appendString dst s = dst ++ HEncoder.appendString [] s.
Proof.
  unfold HEncoder.appendString.
  rewrite HInt.appendInt_app, (HInt.appendInt_app dst 0), Huffman.huffmanAppend_app, (Huffman.huffmanAppend_app (HInt.appendInt [] _ _ _)).
  case_match; now rewrite <- app_assoc.
Qed.

Lemma huffmanLen_nonneg s : bytes_ok s -> 0 <= Huffman.huffmanLen s.
Proof. intros Hs. rewrite <- Huffman.len_huffmanAppend by exact Hs. apply len_nonneg. Qed.

Lemma appendString_bytes s : bytes_ok s -> bytes_ok (HEncoder.appendString [] s).
Proof.
  intros Hs. unfold HEncoder.appendString. rewrite Huffman.huffmanAppend_app.
  pose proof (huffmanLen_nonneg s Hs). pose proof (len_nonneg s).
  case_match; apply bytes_ok_app; (split; [apply HInt.appendInt_bytes; unfold is_byte; lia|auto using Huffman.huffmanAppend_bytes]).
Qed.

Lemma readString_coded max first n body s rest :
  first = 0 \/ first = 0x80 -> n = len body -> n < 2 ^ 56 ->
  HDecoder.ref_string max (first =? 0x80) body = Ok s ->
  HDecoder.ref_readString max (HInt.appendInt [] first 7 n ++ body ++ rest) = Ok (s, rest).
Proof.
  intros Hfirst Hn Hlt Hs. pose proof (len_nonneg body) as H0.
  destruct (HInt.appendInt_head first 7 n ltac:(lia) ltac:(lia)) as (x & tl & E & Hx & _).
  pose proof (HInt.readInt_appendInt_rest first 7 n (body ++ rest)) as Hr.
  rewrite E in *. cbn [app HDecoder.ref_readString]. cbn [app] in Hr. rewrite Hr by (try lia; now destruct Hfirst as [-> | ->]).
  cbn [mbind res_bind]. subst n. rewrite len_app, (proj2 (Z.ltb_ge _ _)) by (pose proof (len_nonneg rest); lia).
  replace (negb ((first .| x) .& 0x80 =? 0)) with (first =? 0x80).
  - rewrite ztake_app, zdrop_app, Hs. reflexivity.
  - symmetry. destruct Hfirst as [-> | ->]; apply Bool.eqb_prop;
      [apply (lead (fun x => Bool.eqb (negb (((0 .| x) .& 0x80) =? 0)) false) 7)
      |apply (lead (fun x => Bool.eqb (negb (((0x80 .| x) .& 0x80) =? 0)) true) 7)]; try lia; reflexivity.
Qed.

Lemma readString_appendString max s rest :
  string_ok max s -> HDecoder.ref_readString max (HEncoder.appendString [] s ++ rest) = Ok (s, rest).
Proof.
  intros (Hs & Hlen & Hmax). unfold HEncoder.appendString. pose proof (huffmanLen_nonneg s Hs).
  destruct (Z.ltb_spec (Huffman.huffmanLen s) (len s)).
  - rewrite Huffman.huffmanAppend_app, <- app_assoc. apply readString_coded; [now right| |lia|].
    + symmetry. now apply Huffman.len_huffmanAppend.
    + now apply Huffman.huffman_roundtrip.
  - rewrite <- app_assoc. apply readString_coded; auto. cbn [Z.eqb HDecoder.ref_string].
    destruct (Z.ltb_spec 0 max), (Z.ltb_spec max (len s)); cbn [andb]; try reflexivity. lia.
Qed.

(** ** Tables in step *)

Definition teq (te td : dynamicTable) : Prop := entries te = entries td /\ maxSize te = maxSize td.

Lemma field_teq te td i : entries te = entries td -> field te i = field td i.
Proof. intros E. unfold field, get. now rewrite E. Qed.

Definition field_ok (max : Z) (f : HeaderField) : Prop := string_ok max (Name f) /\ string_ok max (Value f).

(** The literal forms: the name by index or spelt out, then the value. *)
Definition literal (first n nameIndex : Z) (f : HeaderField) : bytes :=
  HInt.appendInt [] first n nameIndex ++ (if nameIndex =? 0 then HEncoder.appendString [] (Name f) else []) ++
  HEncoder.appendString [] (Value f).

(** A name index a table has a field of that name at, or none. *)
Definition names_field (t : dynamicTable) (i : Z) (name : bytes) : Prop :=
  0 <= i < 2 ^ 20 /\ (i <> 0 -> exists g, field t i = Some g /\ Name g = name).

Lemma readLiteral_literal max t first n i f rest :
  4 <= n <= 6 -> first mod 2 ^ n = 0 -> field_ok max f -> names_field t i (Name f) ->
  HDecoder.ref_readLiteral max t (literal first n i f ++ rest) n = Ok (f, rest).
Proof.
  intros Hn Hfirst [Hname Hvalue] [Hi Hg]. unfold HDecoder.ref_readLiteral, literal. rewrite <- !app_assoc.
  assert (2 ^ 4 <= 2 ^ n) by (apply Z.pow_le_mono_r; lia).
  rewrite HInt.readInt_appendInt_rest by lia. cbn [mbind res_bind].
  destruct (Z.eqb_spec i 0) as [->|Hi0].
  - cbn [Z.ltb Z.compare]. rewrite readString_appendString by exact Hname. cbn [mbind res_bind].
    rewrite readString_appendString by exact Hvalue. now destruct f.
  - rewrite (proj2 (Z.ltb_lt 0 i)) by lia. destruct (Hg Hi0) as (g & -> & Eg). cbn [mbind res_bind app].
    rewrite readString_appendString by exact Hvalue. cbn. rewrite Eg. now destruct f.
Qed.

(** ** What the decoder makes of each form *)

Section Forms.
Context (maphash : bytes -> Z) (max allowed : Z) (t : dynamicTable) (shrink start : bool).
Abbreviation one := (HDecoder.ref_decodeOne maphash max allowed t shrink start).

(** The tests of the first byte, in Decode's order. *)
Lemma decode_form first n v tl :
  1 <= n <= 7 -> 0 <= v -> is_byte first ->
  all_bytes (fun x => implb (x <? 2 ^ n)
    (Bool.eqb (negb ((first .| x) .& 0x80 =? 0)) (first =? 0x80) &&
     Bool.eqb ((first .| x) .& 0xc0 =? 0x40) (first =? 0x40) &&
     Bool.eqb ((first .| x) .& 0xe0 =? 0x20) (first =? 0x20))) = true ->
  exists b tl', HInt.appendInt [] first n v ++ tl = b :: tl' /\ negb (b .& 0x80 =? 0) = (first =? 0x80) /\
    (b .& 0xc0 =? 0x40) = (first =? 0x40) /\ (b .& 0xe0 =? 0x20) = (first =? 0x20).
Proof.
  intros Hn Hv Hf Hall. destruct (HInt.appendInt_head first n v ltac:(lia) Hv) as (x & tl' & -> & Hx & _).
  eexists _, _. split; [reflexivity|]. pose proof (lead _ n x Hall Hx ltac:(lia)) as H.
  rewrite !andb_true_iff in H. destruct H as [[H1 H2] H3].
  split; [|split]; now apply Bool.eqb_prop.
Qed.

Lemma decode_indexed i f rest :
  1 <= i < 2 ^ 20 -> field t i = Some f ->
  one (HInt.appendInt [] 0x80 7 i ++ rest) = Some (t, shrink, Ok (rest, Some f, false)).
Proof.
  intros Hi Hf. pose proof (HInt.readInt_appendInt_rest 0x80 7 i rest ltac:(lia) eq_refl ltac:(lia)) as Hr.
  destruct (decode_form 0x80 7 i rest) as (b & tl & E & H1 & _); try (unfold is_byte; lia); [reflexivity|].
  rewrite E in *. unfold HDecoder.ref_decodeOne. rewrite H1. cbn [Z.eqb Pos.eqb].
  rewrite Hr. cbn [mbind res_bind]. now rewrite Hf.
Qed.

Lemma decode_literal first i f rest :
  first = 0 \/ first = 0x10 -> field_ok max f -> names_field t i (Name f) ->
  one (literal first 4 i f ++ rest) = Some (t, shrink, Ok (rest, Some f, false)).
Proof.
  intros Hfirst Hf Hi. pose proof Hi as [Hi0 _].
  pose proof (readLiteral_literal max t first 4 i f rest ltac:(lia) ltac:(now destruct Hfirst as [-> | ->]) Hf Hi) as Hr.
  unfold literal in *. rewrite <- app_assoc in *.
  destruct (decode_form first 4 i (((if i =? 0 then HEncoder.appendString [] (Name f) else []) ++
      HEncoder.appendString [] (Value f)) ++ rest)) as (b & tl & E & H1 & H2 & H3);
    [lia|lia|destruct Hfirst as [-> | ->]; unfold is_byte; lia|now destruct Hfirst as [-> | ->]|].
  rewrite E in *. unfold HDecoder.ref_decodeOne. rewrite H1, H2, H3, Hr.
  destruct Hfirst as [-> | ->]; reflexivity.
Qed.

Lemma decode_added i f rest t' :
  field_ok max f -> names_field t i (Name f) -> add maphash t f = Some t' ->
  one (literal 0x40 6 i f ++ rest) = Some (t', shrink, Ok (rest, Some f, false)).
Proof.
  intros Hf Hi Ha. pose proof Hi as [Hi0 _].
  pose proof (readLiteral_literal max t 0x40 6 i f rest ltac:(lia) eq_refl Hf Hi) as Hr.
  unfold literal in *. rewrite <- app_assoc in *.
  destruct (decode_form 0x40 6 i (((if i =? 0 then HEncoder.appendString [] (Name f) else []) ++
      HEncoder.appendString [] (Value f)) ++ rest)) as (b & tl & E & H1 & H2 & _);
    [lia|lia|unfold is_byte; lia|reflexivity|].
  rewrite E in *. unfold HDecoder.ref_decodeOne. rewrite H1, H2, Hr. cbn [Z.eqb Pos.eqb]. now rewrite Ha.
Qed.

Lemma decode_update n rest t' :
  start = true -> 0 <= n <= allowed -> allowed < 2 ^ 64 -> n < 2 ^ 56 -> setMaxSize maphash t n = Some t' ->
  one (HInt.appendInt [] 0x20 5 n ++ rest) = Some (t', false, Ok (rest, None, true)).
Proof.
  intros -> Hn Ha Hn' Hs. pose proof (HInt.readInt_appendInt_rest 0x20 5 n rest ltac:(lia) eq_refl ltac:(lia)) as Hr.
  destruct (decode_form 0x20 5 n rest) as (b & tl & E & H1 & H2 & H3); try (unfold is_byte; lia); [reflexivity|].
  rewrite E in *. unfold HDecoder.ref_decodeOne. rewrite H1, H2, H3. cbn [Z.eqb Pos.eqb negb].
  rewrite Hr, u64_id, (proj2 (Z.ltb_ge _ _)), Hs by lia. reflexivity.
Qed.

End Forms.

Section Hash.
Context (maphash : bytes -> Z).

(** The newest entry with a key, as the index has it. *)
Lemma live_newest pair t p g name value :
  HIndex.live pair t 0 (length (entries t)) p g -> HIndex.key_eq pair g (mkField name value) ->
  newest_at (fun f => HIndex.key_eq pair f (mkField name value)) (entries t) p /\ (p < length (entries t))%nat.
Proof.
  intros (Hp & Hg & Hnew) Hk. split; [split; [eauto|]|lia]. intros p' f Hp' Hf Hk'.
  pose proof (lookup_lt_Some _ _ _ Hf). apply (Hnew p' f); [lia|exact Hf|].
  eapply HIndex.key_eq_trans; [exact Hk|]. now apply HIndex.key_eq_sym.
Qed.

Lemma no_live pair t name value p f :
  (forall p g, HIndex.live pair t 0 (length (entries t)) p g -> ~ HIndex.key_eq pair g (mkField name value)) ->
  entries t !! p = Some f -> ~ HIndex.key_eq pair f (mkField name value).
Proof.
  intros Hno Hf Hk. pose proof (lookup_lt_Some _ _ _ Hf).
  destruct (HIndex.newest pair t 0 (length (entries t)) p f ltac:(lia) Hf) as (p' & f' & Hl & Hk' & _).
  apply (Hno p' f' Hl). eapply HIndex.key_eq_trans; eauto.
Qed.

(** The search through the index is the search of the table. *)
Lemma searchTable_scan t name value ni :
  HIndex.ok maphash t ->
  exists nh ph hashed,
    HEncoder.searchTable maphash t name value ni =
      Some (HEncoder.scanLoop (length (entries t)) (entries t) name value ni, (nh, ph, hashed)) /\
    (hashed = true -> nh = hashName maphash name /\ ph = hashPair maphash (hashName maphash name) value).
Proof.
  intros Hok. unfold HEncoder.searchTable. pose proof (HIndex.ok_index _ _ Hok) as Hix.
  destruct (index t) as [x|]; [|exists 0, 0, false; split; [reflexivity|discriminate]].
  destruct (_ <? _); [|exists 0, 0, false; split; [reflexivity|discriminate]].
  destruct Hix as (Hmax & k & Hk & Hcap & Hmask & Hp & Hn). rewrite Hmask.
  pose proof (HIndex.index_room maphash k t Hok ltac:(lia) Hcap) as Hroom.
  assert (HIndex.small t) as Hs.
  { unfold HIndex.small. pose proof (HIndex.entries_bound maphash t Hok).
    change MaxEncoderTableSize with (2 ^ 15 * 32) in Hmax. lia. }
  destruct (HIndex.find_spec maphash true k ltac:(lia) t Hs 0 _ _ Hp ltac:(lia) ltac:(lia) (mkField name value))
    as (r & Er & Hr).
  cbn [Name Value homeHash] in Er. rewrite Er. cbn [mbind option_bind].
  exists (hashName maphash name), (hashPair maphash (hashName maphash name) value), true. split; [|auto].
  destruct Hr as [(p & g & Hl & Hkey & ->)|[-> Hno]].
  - rewrite (proj2 (Z.leb_le 0 (Z.of_nat p))) by lia.
    destruct (live_newest true t p g name value Hl Hkey) as [Hnew Hlt].
    rewrite (scan_pair (entries t) name value _ p); [reflexivity|lia|].
    destruct Hnew as [(f & Hf & Hkf & Hvf) Hnew]. split; [exists f; splits; auto|].
    intros p' f' Hp' Hf' [Hn' Hv']. apply (Hnew p' f' Hp' Hf'). now split.
  - cbn [Z.leb Z.compare].
    assert (forall p f, (p < length (entries t))%nat -> entries t !! p = Some f ->
        ~ (Name f = name /\ Value f = value)) as Hnp.
    { intros p f _ Hf [Hnf Hvf]. apply (no_live true t name value p f Hno Hf). now split. }
    destruct (Z.eqb_spec ni 0) as [->|Hni]; [|now rewrite scan_keep].
    destruct (HIndex.find_spec maphash false k ltac:(lia) t Hs 0 _ _ Hn ltac:(lia) ltac:(lia) (mkField name []))
      as (r & Er' & Hr).
    cbn [Name Value homeHash] in Er'. rewrite Er'. cbn [mbind option_bind].
    destruct Hr as [(p & g & Hl & Hkey & ->)|[-> Hno']].
    + rewrite (proj2 (Z.leb_le 0 (Z.of_nat p))) by lia.
      destruct (live_newest false t p g name [] Hl Hkey) as [Hnew Hlt].
      rewrite (scan_name (entries t) name value _ p); [reflexivity|lia| |exact Hnp].
      destruct Hnew as [(f & Hf & Hkf & _) Hnew]. split; [exists f; auto|].
      intros p' f' Hp' Hf' Hn'. apply (Hnew p' f' Hp' Hf'). split; [exact Hn'|discriminate].
    + cbn [Z.leb Z.compare]. rewrite scan_none; [reflexivity|]. intros p f _ Hf Hnf.
      apply (no_live false t name [] p f Hno' Hf). split; [exact Hnf|discriminate].
Qed.

(** ** Fields *)

(** What an encoder keeps between calls. *)
Record enc_ok (e : HEncoder.Encoder) : Prop := {
  eo_table : HIndex.ok maphash (HEncoder.table e);
  eo_max : maxSize (HEncoder.table e) <= MaxEncoderTableSize;
  eo_limit : 0 <= HEncoder.limit e <= MaxEncoderTableSize;
  eo_allowed : 0 <= HEncoder.allowed e;
  eo_pending : HEncoder.pendingSize e = true -> 0 <= HEncoder.minPending e <= maxSize (HEncoder.table e)
}.

Lemma entries_few t : HIndex.ok maphash t -> maxSize t <= MaxEncoderTableSize -> len (entries t) <= 2 ^ 15.
Proof.
  intros Hok Hmax. pose proof (HIndex.entries_bound maphash t Hok).
  change MaxEncoderTableSize with (2 ^ 15 * 32) in Hmax. unfold len. lia.
Qed.

(** The static indices name what they say. *)
Lemma static_pair t name value i :
  HEncoder.staticPairIndex !! (name, value) = Some i -> 1 <= i < 2 ^ 20 /\ field t i = Some (mkField name value).
Proof.
  intros [Hi Hl]%(buildPairIndex_sound 0 staticTable). fold nstatic in Hi. pose proof nstatic_61.
  split; [lia|]. rewrite field_static by lia. now replace (i - 1 - 0) with (i - 1) in Hl by lia.
Qed.

Lemma static_name t name : names_field t (default 0 (HEncoder.staticNameIndex !! name)) name.
Proof.
  destruct (HEncoder.staticNameIndex !! name) as [i|] eqn:E; cbn [default id]; [|split; [lia|now intros []]].
  apply (buildNameIndex_sound 0 staticTable) in E as [Hi (g & Hg & Hn)]. fold nstatic in Hi. pose proof nstatic_61.
  split; [lia|]. intros _. exists g. split; [|exact Hn].
  rewrite field_static by lia. now replace (i - 1 - 0) with (i - 1) in Hg by lia.
Qed.

(** What the search comes back with is right, in the other side's table too. *)
Lemma search_sound t name value ni :
  len (entries t) <= 2 ^ 15 -> names_field t ni name ->
  match HEncoder.scanLoop (length (entries t)) (entries t) name value ni with
  | inl i => 1 <= i < 2 ^ 20 /\ field t i = Some (mkField name value)
  | inr i => names_field t i name
  end.
Proof.
  intros Hfew Hni. pose proof (scan_sound (entries t) name value _ ni _ (le_n _) eq_refl) as H.
  pose proof nstatic_61 as Hst. unfold len in Hfew.
  destruct (HEncoder.scanLoop _ _ _ _ _) as [i|i].
  - destruct H as (p & Hp & -> & Hf). fold nstatic. unfold len. split; [lia|].
    rewrite <- Hf. now apply field_dynamic.
  - destruct H as [->|(p & f & Hp & -> & Hf & Hn)]; [exact Hni|]. fold nstatic. unfold len.
    split; [lia|]. intros _. exists f. split; [|exact Hn]. rewrite <- Hf. now apply field_dynamic.
Qed.

(** A field, written and read: [td] is the decoder's table. *)
Definition carries (max allowed : Z) (td : dynamicTable) (enc : bytes) (f : HeaderField) (td' : dynamicTable) : Prop :=
  enc <> [] /\ forall shrink start rest,
    HDecoder.ref_decodeOne maphash max allowed td shrink start (enc ++ rest) =
    Some (td', shrink, Ok (rest, Some f, false)).

Definition with_table (e : HEncoder.Encoder) (t : dynamicTable) : HEncoder.Encoder :=
  HEncoder.mkEncoder t (HEncoder.pendingSize e) (HEncoder.minPending e) (HEncoder.limit e) (HEncoder.allowed e).

Lemma literal_nonempty first n i f : literal first n i f <> [].
Proof.
  unfold literal, HInt.appendInt. case_match; [discriminate|]. rewrite HInt.appendInt_loop_app. discriminate.
Qed.

Lemma literal_dst dst first n i f :
  HEncoder.appendString
    (if i =? 0 then HEncoder.appendString (HInt.appendInt dst first n i) (Name f) else HInt.appendInt dst first n i)
    (Value f) = dst ++ literal first n i f.
Proof.
  unfold literal. rewrite appendString_app, HInt.appendInt_app.
  case_match; [rewrite appendString_app|]; now rewrite <- !app_assoc.
Qed.

Lemma AppendField_carries e dst f sensitive max allowed td :
  enc_ok e -> HIndex.ok maphash td -> index td = None -> teq (HEncoder.table e) td -> field_ok max f ->
  exists t' enc td', HEncoder.AppendField maphash e dst (Name f) (Value f) sensitive = Some (with_table e t', dst ++ enc) /\
    HIndex.ok maphash t' /\ HIndex.ok maphash td' /\ index td' = None /\ teq t' td' /\
    maxSize t' = maxSize (HEncoder.table e) /\ carries max allowed td enc f td'.
Proof.
  intros He Hd Hix [Hent Hms] Hf. pose proof (eo_table _ He) as Hok. pose proof (eo_max _ He) as Hmax.
  pose proof (entries_few _ Hok Hmax) as Hfew.
  assert (e = with_table e (HEncoder.table e)) as Heta by now destruct e.
  assert (forall i, 1 <= i < 2 ^ 20 -> field (HEncoder.table e) i = Some (mkField (Name f) (Value f)) ->
    exists t' enc td', Some (e, HInt.appendInt dst 0x80 7 i) = Some (with_table e t', dst ++ enc) /\
    HIndex.ok maphash t' /\ HIndex.ok maphash td' /\ index td' = None /\ teq t' td' /\
    maxSize t' = maxSize (HEncoder.table e) /\ carries max allowed td enc f td') as Hidx.
  { intros i Hi Ef. exists (HEncoder.table e), (HInt.appendInt [] 0x80 7 i), td.
    rewrite HInt.appendInt_app, <- Heta. splits; auto; [now split|].
    split; [unfold HInt.appendInt; case_match; [|rewrite HInt.appendInt_loop_app]; discriminate|].
    intros. apply decode_indexed; [exact Hi|]. rewrite <- (field_teq _ _ _ Hent), Ef. now destruct f. }
  unfold HEncoder.AppendField.
  destruct (HEncoder.staticPairIndex !! _) as [i|] eqn:Ep; [apply static_pair with (t := HEncoder.table e) in Ep as [? ?]; apply Hidx; assumption|].
  destruct (searchTable_scan (HEncoder.table e) (Name f) (Value f) (default 0 (HEncoder.staticNameIndex !! Name f)) Hok)
    as (nh & ph & hashed & -> & Hhash). cbn [mbind option_bind].
  pose proof (search_sound (HEncoder.table e) (Name f) (Value f) _ Hfew (static_name _ _)) as Hsnd.
  destruct (HEncoder.scanLoop _ _ _ _ _) as [i|i]; [destruct Hsnd; apply Hidx; assumption|].
  assert (names_field td i (Name f)) as Hn.
  { destruct Hsnd as [? Hg]. split; [assumption|]. intros (g & Eg & ?)%Hg. exists g. rewrite <- (field_teq _ _ _ Hent). auto. }
  assert (forall first, first = 0 \/ first = 0x10 ->
    exists t' enc td', Some (e, dst ++ literal first 4 i f) = Some (with_table e t', dst ++ enc) /\
    HIndex.ok maphash t' /\ HIndex.ok maphash td' /\ index td' = None /\ teq t' td' /\
    maxSize t' = maxSize (HEncoder.table e) /\ carries max allowed td enc f td') as Hlit.
  { intros first Hfirst. exists (HEncoder.table e), (literal first 4 i f), td. rewrite <- Heta.
    splits; auto; [now split|]. split; [apply literal_nonempty|]. intros. now apply decode_literal. }
  destruct sensitive; cbn [mbind option_bind]; [rewrite literal_dst; apply Hlit; now right|].
  destruct (_ <? field_size _); cbn [mbind option_bind]; [rewrite literal_dst; apply Hlit; now left|].
  replace (mkField (Name f) (Value f)) with f by now destruct f.
  destruct (HIndex.addIndexed_spec maphash _ f nh ph hashed Hok Hmax Hhash) as (t' & -> & Hok' & Hm' & He').
  destruct (HIndex.add_spec maphash td f Hd Hix) as (td' & Ea & Hd' & Hix' & Hmd' & Hed').
  cbn [mbind option_bind]. rewrite literal_dst. exists t', (literal 0x40 6 i f), td'.
  splits; auto; [split; congruence|]. split; [apply literal_nonempty|]. intros. now apply decode_added.
Qed.

(** ** Blocks *)

(** Eviction to one size and then to another. *)
Lemma fit_fit a b es : HIndex.fit a (HIndex.fit b es) = HIndex.fit (Z.min a b) es.
Proof.
  induction es as [|f es IH]; [reflexivity|]. cbn [HIndex.fit].
  destruct (Z.leb_spec (HIndex.sizes (f :: es)) b) as [Hb|Hb].
  - cbn [HIndex.fit]. destruct (Z.leb_spec (HIndex.sizes (f :: es)) a), (Z.leb_spec (HIndex.sizes (f :: es)) (Z.min a b)); try lia; [reflexivity|].
    assert (HIndex.sizes es <= b) by (cbn [HIndex.sizes foldr] in Hb; pose proof (HIndex.field_size_ge f); unfold HIndex.sizes in *; lia).
    now rewrite <- IH, (HIndex.fit_id b).
  - rewrite (proj2 (Z.leb_gt _ (Z.min a b))) by lia. exact IH.
Qed.

(** An encoder and the decoder at the other end, between blocks: what is still
    to be announced is all they differ in. *)
Record sync (e : HEncoder.Encoder) (d : HDecoder.Decoder) : Prop := {
  sy_enc : enc_ok e;
  sy_dec : HDecoder.dec_ok maphash d;
  sy_allowed : maxSize (HEncoder.table e) <= HEncoder.allowed e <= HDecoder.allowedMaxSize d;
  sy_tables : if HEncoder.pendingSize e
    then entries (HEncoder.table e) = HIndex.fit (HEncoder.minPending e) (entries (HDecoder.table d))
    else teq (HEncoder.table e) (HDecoder.table d);
  sy_shrink : HDecoder.mustShrink d = true -> HEncoder.pendingSize e = true
}.

Definition collect (a : list HeaderField) (f : HeaderField) : list HeaderField * option herr := (a ++ [f], None).

(** One turn of the loop, from one turn without caches. *)
Lemma decodeLoop_turn d start block rest f st td shrink :
  HDecoder.cache_ok d -> block <> [] ->
  HDecoder.ref_decodeOne maphash (HDecoder.MaxStringLength d) (HDecoder.allowedMaxSize d) (HDecoder.table d)
    (HDecoder.mustShrink d) start block = Some (td, shrink, Ok (rest, f, st)) ->
  exists d', HDecoder.cache_ok d' /\ HDecoder.table d' = td /\ HDecoder.mustShrink d' = shrink /\
    HDecoder.allowedMaxSize d' = HDecoder.allowedMaxSize d /\ HDecoder.MaxStringLength d' = HDecoder.MaxStringLength d /\
    forall fuel a, HDecoder.decodeLoop maphash collect (S fuel) d a start block =
    HDecoder.decodeLoop maphash collect fuel d' (a ++ from_option (fun f => [f]) [] f) st rest.
Proof.
  intros Hc Hne Href. pose proof (HDecoder.decodeOne_ref maphash d start block Hc) as H. rewrite Href in H.
  destruct H as (d' & Hone & Hc' & Ht & Hm & Ha & Hx). exists d'. splits; auto. intros fuel a.
  destruct block as [|b block]; [contradiction|]. cbn [HDecoder.decodeLoop]. rewrite Hone.
  destruct f; cbn [from_option collect]; [reflexivity|now rewrite app_nil_r].
Qed.

Lemma AppendFields_cons e dst f sens fs :
  HEncoder.AppendFields maphash e dst ((f, sens) :: fs) =
  match HEncoder.AppendField maphash e dst (Name f) (Value f) sens with
  | None => None
  | Some (e', dst') => HEncoder.AppendFields maphash e' dst' fs
  end.
Proof. unfold HEncoder.AppendFields. cbn [foldM]. now destruct (HEncoder.AppendField _ _ _ _ _ _) as [[? ?]|]. Qed.

Lemma fields_decode fs e d dst start :
  sync e d -> HEncoder.pendingSize e = false -> Forall (fun p => field_ok (HDecoder.MaxStringLength d) p.1) fs ->
  exists e' block d', HEncoder.AppendFields maphash e dst fs = Some (e', dst ++ block) /\
    HEncoder.pendingSize e' = false /\ sync e' d' /\ HDecoder.MaxStringLength d' = HDecoder.MaxStringLength d /\
    forall fuel a, (length block <= fuel)%nat ->
      HDecoder.decodeLoop maphash collect fuel d a start block = Some (d', a ++ fs.*1, None).
Proof.
  revert e d dst start. induction fs as [|[f sens] fs IH]; intros e d dst start Hs Hp Hfs.
  { exists e, [], d. rewrite app_nil_r. splits; auto. intros fuel a _. cbn. rewrite app_nil_r. now destruct fuel. }
  inversion Hfs as [|? ? Hf Hfs']; subst. cbn [fst] in Hf.
  destruct Hs as [He Hd Hal Ht Hsh]. rewrite Hp in Ht. pose proof Hd as [Hdt Hdi Hdc Hda Hds].
  assert (HDecoder.mustShrink d = false) as Hms by (destruct (HDecoder.mustShrink d); auto; rewrite Hsh in Hp by auto; discriminate).
  destruct (AppendField_carries e dst f sens (HDecoder.MaxStringLength d) (HDecoder.allowedMaxSize d) _ He Hdt Hdi Ht Hf)
    as (t' & enc & td' & Happ & Hok' & Hdok' & Hdi' & Hteq & Hmax & Hne & Hcar).
  (* the rest of the block, from any decoder with that table *)
  set (d0 := HDecoder.set_table d td' false).
  assert (forall d1, HDecoder.cache_ok d1 -> HDecoder.table d1 = td' -> HDecoder.mustShrink d1 = false ->
    HDecoder.allowedMaxSize d1 = HDecoder.allowedMaxSize d -> sync (with_table e t') d1) as Hsync.
  { intros d1 Hc1 Ht1 Hm1 Ha1. split; cbn [with_table HEncoder.table HEncoder.pendingSize HEncoder.allowed]; rewrite ?Hmax, ?Ha1; auto.
    - destruct He as [? ? ? ? Hpe]. split; cbn [with_table HEncoder.table HEncoder.pendingSize HEncoder.limit HEncoder.allowed HEncoder.minPending];
        rewrite ?Hmax; auto.
    - split; rewrite ?Ht1, ?Ha1; auto. intros _. destruct Hteq as [_ <-]. lia.
    - now rewrite Hp, Ht1.
    - rewrite Hm1. discriminate. }
  assert (HDecoder.cache_ok d0) as Hc0 by (destruct Hdc; now split).
  destruct (IH _ d0 (dst ++ enc) false (Hsync d0 Hc0 eq_refl eq_refl eq_refl) Hp Hfs') as (e' & block & _ & Eb & _).
  destruct (decodeLoop_turn d start (enc ++ block) block (Some f) false td' false Hdc) as (d1 & Hc1 & Ht1 & Hm1 & Ha1 & Hx1 & Hturn);
    [destruct enc; [contradiction|discriminate]|rewrite Hcar, Hms; reflexivity|].
  rewrite <- Hx1 in Hfs'.
  destruct (IH _ d1 (dst ++ enc) false (Hsync d1 Hc1 Ht1 Hm1 Ha1) Hp Hfs') as (e1 & block1 & d' & Eb1 & Hp' & Hs' & Hx' & Hdec).
  rewrite Eb in Eb1. injection Eb1 as <- <-%app_inv_head.
  exists e', (enc ++ block), d'. splits; auto; [|congruence|].
  - now rewrite AppendFields_cons, Happ, Eb, app_assoc.
  - intros fuel a Hfuel. rewrite length_app in Hfuel.
    assert (1 <= length enc)%nat as H1 by (destruct enc; [contradiction|cbn; lia]).
    destruct fuel as [|fuel]; [lia|]. rewrite Hturn, Hdec by lia. cbn [from_option fmap list_fmap fst].
    now rewrite <- app_assoc.
Qed.

(** ** Table sizes *)

Lemma SetMaxTableSize_spec e n :
  enc_ok e -> 0 <= n ->
  exists e', HEncoder.SetMaxTableSize maphash e n = Some e' /\ enc_ok e' /\ HEncoder.limit e' = HEncoder.limit e /\
    HEncoder.allowed e' = n /\ maxSize (HEncoder.table e') = Z.min (HEncoder.limit e) n /\
    (HEncoder.pendingSize e' = false -> HEncoder.pendingSize e = false /\ HEncoder.table e' = HEncoder.table e) /\
    forall es, (if HEncoder.pendingSize e then entries (HEncoder.table e) = HIndex.fit (HEncoder.minPending e) es
                else entries (HEncoder.table e) = es) ->
      if HEncoder.pendingSize e' then entries (HEncoder.table e') = HIndex.fit (HEncoder.minPending e') es
      else entries (HEncoder.table e') = es.
Proof.
  intros [Hok Hmax Hlim Hall Hpend] Hn. unfold HEncoder.SetMaxTableSize.
  cbn [HEncoder.table HEncoder.pendingSize HEncoder.minPending HEncoder.limit HEncoder.allowed].
  replace (if HEncoder.limit e <? n then HEncoder.limit e else n) with (Z.min (HEncoder.limit e) n) by (destruct (Z.ltb_spec (HEncoder.limit e) n); lia).
  destruct (Z.eqb_spec (Z.min (HEncoder.limit e) n) (maxSize (HEncoder.table e))) as [E|E].
  - eexists. split; [reflexivity|]. cbn [HEncoder.table HEncoder.pendingSize HEncoder.minPending HEncoder.limit HEncoder.allowed].
    splits; auto. now split.
  - destruct (HIndex.setMaxSize_spec maphash (HEncoder.table e) (Z.min (HEncoder.limit e) n) Hok) as (t' & -> & Hok' & Hm' & He' & _); [lia|lia|].
    cbn [mbind option_bind]. eexists. split; [reflexivity|].
    cbn [HEncoder.table HEncoder.pendingSize HEncoder.minPending HEncoder.limit HEncoder.allowed].
    set (mp := if negb (HEncoder.pendingSize e) || _ then _ else _).
    splits; auto; [|discriminate|].
    + split; cbn [HEncoder.table HEncoder.pendingSize HEncoder.minPending HEncoder.limit HEncoder.allowed]; auto; [lia|].
      intros _. unfold mp. destruct (HEncoder.pendingSize e); cbn [negb orb]; [|lia].
      specialize (Hpend eq_refl). destruct (Z.ltb_spec (Z.min (HEncoder.limit e) n) (HEncoder.minPending e)); lia.
    + intros es Hes. rewrite He'. unfold mp. destruct (HEncoder.pendingSize e); cbn [negb orb]; [|now rewrite Hes].
      rewrite Hes, fit_fit. f_equal. destruct (Z.ltb_spec (Z.min (HEncoder.limit e) n) (HEncoder.minPending e)); lia.
Qed.

Lemma appendInt_nonempty first n v : (1 <= length (HInt.appendInt [] first n v))%nat.
Proof.
  unfold HInt.appendInt. case_match; [cbn; lia|]. rewrite HInt.appendInt_loop_app, length_app. cbn. lia.
Qed.

Lemma update_turn d n rest :
  HDecoder.dec_ok maphash d -> 0 <= n <= HDecoder.allowedMaxSize d -> n < 2 ^ 56 ->
  exists d', HDecoder.dec_ok maphash d' /\ HDecoder.mustShrink d' = false /\
    HDecoder.allowedMaxSize d' = HDecoder.allowedMaxSize d /\ HDecoder.MaxStringLength d' = HDecoder.MaxStringLength d /\
    entries (HDecoder.table d') = HIndex.fit n (entries (HDecoder.table d)) /\ maxSize (HDecoder.table d') = n /\
    forall fuel a, HDecoder.decodeLoop maphash collect (S fuel) d a true (HInt.appendInt [] 0x20 5 n ++ rest) =
      HDecoder.decodeLoop maphash collect fuel d' a true rest.
Proof.
  intros [Hok Hix Hc Ha Hs] Hn Hn'.
  destruct (HIndex.setMaxSize_spec maphash _ n Hok) as (t' & Et & Hok' & Hm' & He' & Hi'); [lia|now rewrite Hix|].
  destruct (decodeLoop_turn d true (HInt.appendInt [] 0x20 5 n ++ rest) rest None true t' false Hc)
    as (d' & Hc' & Ht & Hsh & Hal & Hx & Hturn).
  { pose proof (appendInt_nonempty 0x20 5 n). intros [E _]%app_eq_nil. rewrite E in *. cbn in *. lia. }
  { apply decode_update; auto; lia. }
  exists d'. subst t'. splits; auto.
  - split; auto; [lia|]. intros _. lia.
  - intros fuel a. rewrite Hturn. cbn [from_option]. now rewrite app_nil_r.
Qed.

(** What Begin writes brings the decoder's table to the encoder's. *)
Lemma Begin_decode e d :
  sync e d ->
  exists e0 upd, HEncoder.Begin e [] = (e0, upd) /\ HEncoder.pendingSize e0 = false /\
    (HDecoder.mustShrink d = true -> match upd with [] => false | b :: _ => (b .& 0xe0) =? 0x20 end = true) /\
    forall rest, exists d' k, sync e0 d' /\ HDecoder.MaxStringLength d' = HDecoder.MaxStringLength d /\
      (k <= length upd)%nat /\
      forall fuel a, HDecoder.decodeLoop maphash collect (k + fuel) d a true (upd ++ rest) =
        HDecoder.decodeLoop maphash collect fuel d' a true rest.
Proof.
  intros Hs. pose proof Hs as [He Hd Hal Ht Hsh]. unfold HEncoder.Begin.
  destruct (HEncoder.pendingSize e) eqn:Ep; cbn [negb].
  2:{ exists e, []. splits; auto. intros rest. exists d, 0%nat. splits; auto. }
  cbn [HEncoder.table HEncoder.minPending]. pose proof He as [Hok Hmax Hlim Hall Hpend]. specialize (Hpend Ep).
  pose proof (HDecoder.do_allowed _ _ Hd) as Hda. change MaxEncoderTableSize with (2 ^ 15 * 32) in *.
  set (e0 := HEncoder.mkEncoder _ false _ _ _). set (max := maxSize (HEncoder.table e)) in *.
  assert (forall d', HDecoder.dec_ok maphash d' -> HDecoder.mustShrink d' = false ->
    HDecoder.allowedMaxSize d' = HDecoder.allowedMaxSize d -> maxSize (HDecoder.table d') = max ->
    entries (HDecoder.table d') = HIndex.fit (HEncoder.minPending e) (entries (HDecoder.table d)) -> sync e0 d') as Hsync.
  { intros d' Hd' Hm' Ha' Hmx' He'. split; cbn [e0 HEncoder.table HEncoder.pendingSize HEncoder.allowed]; rewrite ?Ha'; auto.
    - split; cbn [e0 HEncoder.table HEncoder.pendingSize HEncoder.allowed HEncoder.limit]; auto; discriminate.
    - split; [congruence|now rewrite Hmx'].
    - rewrite Hm'. discriminate. }
  assert (forall n tl, 0 <= n -> match HInt.appendInt [] 0x20 5 n ++ tl with [] => false | b :: _ => (b .& 0xe0) =? 0x20 end = true) as Hhead.
  { intros n tl Hn. destruct (decode_form 0x20 5 n tl) as (b & tl' & -> & _ & _ & ->); try (unfold is_byte; lia); reflexivity. }
  destruct (Z.ltb_spec (HEncoder.minPending e) max) as [Hlt|Hge].
  - rewrite HInt.appendInt_app. eexists e0, _. splits; [reflexivity|reflexivity|intros _; apply Hhead; lia|].
    intros rest. rewrite <- app_assoc.
    destruct (update_turn d (HEncoder.minPending e) (HInt.appendInt [] 0x20 5 max ++ rest) Hd)
      as (d1 & Hd1 & Hm1 & Ha1 & Hx1 & He1 & Hmx1 & Ht1); [lia|lia|].
    destruct (update_turn d1 max rest Hd1) as (d2 & Hd2 & Hm2 & Ha2 & Hx2 & He2 & Hmx2 & Ht2); [lia|lia|].
    exists d2, 2%nat. splits; [apply Hsync; auto; [congruence|]|congruence| |].
    + rewrite He2, He1, fit_fit. f_equal. lia.
    + rewrite length_app. pose proof (appendInt_nonempty 0x20 5 (HEncoder.minPending e)). pose proof (appendInt_nonempty 0x20 5 max). lia.
    + intros fuel a. cbn [Nat.add]. now rewrite Ht1, Ht2.
  - assert (HEncoder.minPending e = max) as Emin by lia.
    eexists e0, _. splits; [reflexivity|reflexivity|intros _; rewrite <- (app_nil_r (HInt.appendInt _ _ _ _)); apply Hhead; lia|].
    intros rest. destruct (update_turn d max rest Hd) as (d1 & Hd1 & Hm1 & Ha1 & Hx1 & He1 & Hmx1 & Ht1); [lia|lia|].
    exists d1, 1%nat. splits; [apply Hsync; auto; congruence|congruence|apply appendInt_nonempty|].
    intros fuel a. apply Ht1.
Qed.

(** A block, from the encoder through the decoder. *)
Lemma block_decode e d fs :
  sync e d -> Forall (fun p => field_ok (HDecoder.MaxStringLength d) p.1) fs ->
  exists e' block d', HEncoder.encodeBlock maphash e fs = Some (e', block) /\
    HDecoder.Decode maphash collect d [] block = Some (d', fs.*1, None) /\
    sync e' d' /\ HEncoder.pendingSize e' = false /\ HDecoder.MaxStringLength d' = HDecoder.MaxStringLength d.
Proof.
  intros Hs Hfs. destruct (Begin_decode e d Hs) as (e0 & upd & Eb & Hp0 & Hhead & Hupd).
  destruct (Hupd []) as (d0 & _ & Hs0 & Hx0 & _). rewrite <- Hx0 in Hfs.
  destruct (fields_decode fs e0 d0 upd true Hs0 Hp0 Hfs) as (e' & block & _ & Ef & _).
  destruct (Hupd block) as (d1 & k & Hs1 & Hx1 & Hk & Hturn). rewrite Hx0, <- Hx1 in Hfs.
  destruct (fields_decode fs e0 d1 upd true Hs1 Hp0 Hfs) as (e1 & block1 & d' & Ef1 & Hp' & Hs' & Hx' & Hdec).
  rewrite Ef in Ef1. injection Ef1 as <- <-%app_inv_head.
  exists e', (upd ++ block), d'. splits; auto; [| |congruence].
  - unfold HEncoder.encodeBlock. now rewrite Eb.
  - unfold HDecoder.Decode.
    replace (HDecoder.mustShrink d && _) with false.
    + rewrite length_app. replace (length upd + length block)%nat with (k + (length upd - k + length block))%nat by lia.
      rewrite Hturn, Hdec by lia. reflexivity.
    + symmetry. destruct (HDecoder.mustShrink d); [cbn [andb]|reflexivity]. specialize (Hhead eq_refl).
      destruct upd as [|b upd]; [discriminate|]. cbn [app]. now rewrite Hhead.
Qed.

(** A new table size, at both ends between two blocks. *)
Lemma settings_sync e d n :
  sync e d -> 0 <= n < 2 ^ 63 ->
  exists e', HEncoder.SetMaxTableSize maphash e n = Some e' /\ sync e' (HDecoder.SetAllowedMaxSize d n).
Proof.
  intros [He Hd Hal Ht Hsh] Hn. pose proof He as [Hok Hmax Hlim Hall Hpend].
  destruct (SetMaxTableSize_spec e n He ltac:(lia)) as (e' & E & He' & Hl' & Ha' & Hm' & Hnp & Hes).
  exists e'. split; [exact E|]. specialize (Hes (entries (HDecoder.table d))).
  destruct Hd as [Hdo Hdi [Hdc Hdl] Hda Hds].
  assert (HEncoder.pendingSize e' = false -> maxSize (HDecoder.table d) <= n /\ HDecoder.mustShrink d = false) as Hcalm.
  { intros Hp'. destruct (Hnp Hp') as [Hp Et]. rewrite Hp in Ht. destruct Ht as [_ Ht]. rewrite <- Ht, <- Et, Hm'.
    split; [lia|]. destruct (HDecoder.mustShrink d); [rewrite Hsh in Hp by auto; discriminate|reflexivity]. }
  split; cbn [HDecoder.SetAllowedMaxSize HDecoder.table HDecoder.mustShrink HDecoder.allowedMaxSize].
  - exact He'.
  - split; cbn [HDecoder.SetAllowedMaxSize HDecoder.table HDecoder.mustShrink HDecoder.allowedMaxSize]; auto; [split; assumption|].
    intros Hms. destruct (Z.ltb_spec n (maxSize (HDecoder.table d))); [discriminate|lia].
  - lia.
  - destruct (HEncoder.pendingSize e') eqn:Ep'.
    + apply Hes. destruct (HEncoder.pendingSize e); [exact Ht|apply Ht].
    + destruct (Hnp eq_refl) as [Hp Et]. rewrite Hp in Ht. now rewrite Et.
  - intros Hms. destruct (HEncoder.pendingSize e'); [reflexivity|]. destruct (Hcalm eq_refl) as [Hle Hm0].
    rewrite (proj2 (Z.ltb_ge _ _) Hle), Hm0 in Hms. discriminate.
Qed.

(** A new limit of the encoder's own. *)
Lemma limit_sync e d n :
  sync e d ->
  exists e', HEncoder.SetTableSizeLimit maphash e n = Some e' /\ sync e' d.
Proof.
  intros [He Hd Hal Ht Hsh]. pose proof He as [Hok Hmax Hlim Hall Hpend]. unfold HEncoder.SetTableSizeLimit.
  set (lim := Z.min (Z.max n 0) MaxEncoderTableSize).
  assert (0 <= lim <= MaxEncoderTableSize) as Hlim' by (unfold lim; change MaxEncoderTableSize with 1048576; lia).
  set (e1 := HEncoder.mkEncoder _ _ _ _ _).
  assert (enc_ok e1) as He1 by now split.
  destruct (SetMaxTableSize_spec e1 (HEncoder.allowed e) He1 Hall) as (e' & E & He' & Hl' & Ha' & Hm' & Hnp & Hes).
  exists e'. split; [exact E|]. specialize (Hes (entries (HDecoder.table d))).
  split; auto; [lia| |].
  - destruct (HEncoder.pendingSize e') eqn:Ep'.
    + apply Hes. change (HEncoder.pendingSize e1) with (HEncoder.pendingSize e).
      destruct (HEncoder.pendingSize e); [exact Ht|apply Ht].
    + destruct (Hnp eq_refl) as [Hp Et]. change (HEncoder.pendingSize e = false) in Hp. rewrite Hp in Ht. now rewrite Et.
  - intros Hms. destruct (HEncoder.pendingSize e') eqn:Ep'; [reflexivity|]. destruct (Hnp eq_refl) as [Hp _].
    change (HEncoder.pendingSize e = false) in Hp. now rewrite <- Hsh.
Qed.

(** ** Connections *)

(** What happens to one direction of a connection: the receiver's
    SETTINGS_HEADER_TABLE_SIZE takes effect, the sender changes its own limit,
    or a header block goes across. *)
Inductive event : Type :=
| Settings (n : Z)
| Limit (n : Z)
| Block (fs : list (HeaderField * bool)).

Definition event_ok (max : Z) (ev : event) : Prop :=
  match ev with
  | Settings n => 0 <= n < 2 ^ 32
  | Limit _ => True
  | Block fs => Forall (fun p => field_ok max p.1) fs
  end.

(** The fields each block decodes to; [None] if anything goes wrong. *)
Fixpoint session (e : HEncoder.Encoder) (d : HDecoder.Decoder) (evs : list event) : option (list (list HeaderField)) :=
  match evs with
  | [] => Some []
  | Settings n :: evs =>
      match HEncoder.SetMaxTableSize maphash e n with
      | None => None
      | Some e => session e (HDecoder.SetAllowedMaxSize d n) evs
      end
  | Limit n :: evs =>
      match HEncoder.SetTableSizeLimit maphash e n with
      | None => None
      | Some e => session e d evs
      end
  | Block fs :: evs =>
      match HEncoder.encodeBlock maphash e fs with
      | None => None
      | Some (e, block) =>
          match HDecoder.Decode maphash collect d [] block with
          | Some (d, out, None) => (out ::.) <$> session e d evs
          | _ => None
          end
      end
  end.

Fixpoint blocks (evs : list event) : list (list HeaderField) :=
  match evs with
  | [] => []
  | Block fs :: evs => fs.*1 :: blocks evs
  | _ :: evs => blocks evs
  end.

Lemma session_sync evs e d :
  sync e d -> Forall (event_ok (HDecoder.MaxStringLength d)) evs -> session e d evs = Some (blocks evs).
Proof.
  revert e d. induction evs as [|ev evs IH]; intros e d Hs Hok; [reflexivity|].
  inversion Hok as [|? ? Hev Hok']; subst. destruct ev as [n|n|fs]; cbn [session blocks].
  - cbn [event_ok] in Hev. destruct (settings_sync e d n Hs ltac:(lia)) as (e' & -> & Hs'). now apply IH.
  - destruct (limit_sync e d n Hs) as (e' & -> & Hs'). now apply IH.
  - destruct (block_decode e d fs Hs Hev) as (e' & block & d' & -> & -> & Hs' & _ & Hx).
    rewrite (IH e' d' Hs') by now rewrite Hx. reflexivity.
Qed.

(** A new decoder with the limit on strings its owner set. *)
Definition decoder_with (max : Z) : HDecoder.Decoder :=
  let d := HDecoder.NewDecoder DefaultTableSize in
  HDecoder.mkDecoder (HDecoder.table d) (HDecoder.allowedMaxSize d) (HDecoder.mustShrink d) max
    (HDecoder.recent d) (HDecoder.nextRecent d) (HDecoder.coded d) (HDecoder.nextCoded d) (HDecoder.long d)
    (HDecoder.longHuffman d).

Lemma empty_table_ok n : 0 <= n -> HIndex.ok maphash (mkTable [] 0 n 0 None).
Proof. now split. Qed.

Lemma decoder_with_ok max : HDecoder.dec_ok maphash (decoder_with max).
Proof.
  split; [now apply empty_table_ok|reflexivity| |cbn; unfold DefaultTableSize; lia|cbn; lia].
  split; [|reflexivity]. cbn [decoder_with HDecoder.coded HDecoder.NewDecoder HDecoder.MaxStringLength].
  apply Forall_replicate. cbn [HDecoder.coded_of HDecoder.plain_of].
  apply (Huffman.huffman_roundtrip [] max); [constructor|]. unfold len; cbn [length]; lia.
Qed.

Lemma new_sync max : sync HEncoder.NewEncoder (decoder_with max).
Proof.
  split; [|apply decoder_with_ok|cbn; lia|now split|discriminate].
  split; [now apply empty_table_ok|now vm_compute|now vm_compute|now vm_compute|discriminate].
Qed.

(** Entries added one after another. *)
Definition addAll (t : dynamicTable) (fs : list HeaderField) : option dynamicTable :=
  foldM (fun t f => addIndexed maphash t f 0 0 false) t fs.

Lemma addAll_ok fs t :
  HIndex.ok maphash t -> maxSize t <= MaxEncoderTableSize ->
  exists t', addAll t fs = Some t' /\ HIndex.ok maphash t'.
Proof.
  revert t. unfold addAll. induction fs as [|f fs IH]; intros t Hok Hmax; cbn [foldM]; [eauto|].
  destruct (HIndex.addIndexed_spec maphash t f 0 0 false Hok Hmax) as (t' & -> & Hok' & Hm' & _); [discriminate|].
  apply IH; [exact Hok'|lia].
Qed.

(** ** Properties *)

(** C9: for a new encoder and a new decoder, and any sequence of header table
    sizes the receiver advertises, limits the sender sets for itself and header
    blocks, every block decodes without an error to exactly the fields it was
    made of, in their order: the two dynamic tables stay in step through
    evictions, never-indexed fields and size updates. The fields' strings are
    bytes, below the 2^56 the integers carry, and within the decoder's limit on
    strings. *)
Theorem hpack_session (max : Z) (evs : list event) :
  Forall (event_ok max) evs ->
  session HEncoder.NewEncoder (decoder_with max) evs = Some (blocks evs).
Proof. intros H. apply session_sync; [apply new_sync|exact H]. Qed.

(** C32: on a table with its invariant, the search through the two hash tables
    of the index ends, and finds what the linear search of the entries from the
    newest finds: the newest entry that is the whole field, or the newest with
    its name. *)
Theorem searchTable_exact (t : dynamicTable) (name value : bytes) (ni : Z) :
  HIndex.ok maphash t ->
  fst <$> HEncoder.searchTable maphash t name value ni =
  Some (HEncoder.scanLoop (length (entries t)) (entries t) name value ni).
Proof. intros Hok. now destruct (searchTable_scan t name value ni Hok) as (nh & ph & h & -> & _). Qed.

(** C33: a table kept by addIndexed or setMaxSize holds what RFC 7541 section 4
    says: the entries with the new one at the end, less the oldest ones that do
    not fit, with the index that goes with them. The loops of the index end. *)
Theorem table_refines (t : dynamicTable) (f : HeaderField) (n : Z) :
  HIndex.ok maphash t -> maxSize t <= MaxEncoderTableSize -> 0 <= n <= MaxEncoderTableSize ->
  (exists t', addIndexed maphash t f 0 0 false = Some t' /\ HIndex.ok maphash t' /\
     entries t' = HIndex.fit (maxSize t) (entries t ++ [f])) /\
  (exists t', setMaxSize maphash t n = Some t' /\ HIndex.ok maphash t' /\
     entries t' = HIndex.fit n (entries t)).
Proof.
  intros Hok Hmax Hn. split.
  - destruct (HIndex.addIndexed_spec maphash t f 0 0 false Hok Hmax) as (t' & E & Hok' & _ & He); [discriminate|]. eauto.
  - destruct (HIndex.setMaxSize_spec maphash t n Hok) as (t' & E & Hok' & _ & He & _); [lia|lia|]. eauto.
Qed.

(** A field marked sensitive never enters the table: the encoder is left
    as it was. *)
Theorem AppendField_sensitive (e e' : HEncoder.Encoder) (dst dst' name value : bytes) :
  HEncoder.AppendField maphash e dst name value true = Some (e', dst') -> e' = e.
Proof.
  unfold HEncoder.AppendField. destruct (HEncoder.staticPairIndex !! _); [congruence|].
  destruct (HEncoder.searchTable _ _ _ _ _) as [[[i|i] [[nh ph] h]]|]; cbn [mbind option_bind];
    [intros [= <- _]; reflexivity|intros [= <- _]; reflexivity|discriminate].
Qed.

(** SetMaxTableSize takes any size the peer may send, keeps the encoder's
    invariant and leaves the table at the smaller of that and the encoder's own
    limit. *)
Theorem SetMaxTableSize_ok (e : HEncoder.Encoder) (n : Z) :
  enc_ok e -> 0 <= n ->
  exists e', HEncoder.SetMaxTableSize maphash e n = Some e' /\ enc_ok e' /\
    maxSize (HEncoder.table e') = Z.min (HEncoder.limit e) n /\
    size (HEncoder.table e') <= maxSize (HEncoder.table e').
Proof.
  intros He Hn. destruct (SetMaxTableSize_spec e n He Hn) as (e' & E & He' & _ & _ & Hm & _).
  exists e'. splits; auto. pose proof (eo_table _ He') as Hok. rewrite (HIndex.ok_size _ _ Hok). apply (HIndex.ok_fit _ _ Hok).
Qed.

End Hash.

(** ** Witnesses *)

(** A hash to run the model with. *)
Definition testHash (s : bytes) : Z := foldl (fun h b => u64 (h * 31 + b + 7)) 17 s.

Definition testField (n : nat) : HeaderField := mkField (str "x-field") [48 + Z.of_nat n].

Lemma hpack_session_witness :
  session testHash HEncoder.NewEncoder (decoder_with 100)
    [Settings 100; Block [(testField 1, false); (testField 2, true)]; Limit 60; Settings 8192;
     Block [(testField 1, false); (mkField (str ":method") (str "GET"), false)]] =
  Some [[testField 1; testField 2]; [testField 1; mkField (str ":method") (str "GET")]].
Proof.
  apply (hpack_session testHash 100). unfold event_ok, field_ok, string_ok, bytes_ok, is_byte, len.
  repeat first [split | apply List.Forall_cons | apply List.Forall_nil]; cbn; lia.
Defined.

(** Forty entries are more than the index starts from. *)
Lemma searchTable_exact_witness :
  exists t, index t <> None /\
  fst <$> HEncoder.searchTable testHash t (str "x-field") [58] 0 =
  Some (HEncoder.scanLoop (length (entries t)) (entries t) (str "x-field") [58] 0).
Proof.
  destruct (addAll_ok testHash (testField <$> seq 0 40) (mkTable [] 0 4096 0 None)) as (t & E & Hok);
    [now apply empty_table_ok|now vm_compute|].
  exists t. split; [|exact (searchTable_exact testHash t _ _ _ Hok)].
  intros Hix. assert (is_Some (addAll testHash (mkTable [] 0 4096 0 None) (testField <$> seq 0 40) ≫= index)) as [x Hx]
    by (vm_compute; eauto).
  rewrite E in Hx. cbn in Hx. congruence.
Defined.

Lemma table_refines_witness :
  (exists t', addIndexed testHash (mkTable [] 0 100 0 None) (testField 1) 0 0 false = Some t' /\
     HIndex.ok testHash t' /\ entries t' = [testField 1]) /\
  (exists t', setMaxSize testHash (mkTable [] 0 100 0 None) 10 = Some t' /\ HIndex.ok testHash t' /\ entries t' = []).
Proof.
  exact (table_refines testHash (mkTable [] 0 100 0 None) (testField 1) 10
    (empty_table_ok testHash 100 ltac:(lia)) ltac:(now vm_compute) ltac:(now vm_compute)).
Defined.

Lemma AppendField_sensitive_witness :
  exists e' dst', HEncoder.AppendField testHash HEncoder.NewEncoder [] (str "cookie") (str "secret") true = Some (e', dst') /\
    e' = HEncoder.NewEncoder.
Proof.
  eexists _, _. split; [vm_compute; reflexivity|].
  refine (AppendField_sensitive testHash HEncoder.NewEncoder _ [] _ (str "cookie") (str "secret") _).
  vm_compute. reflexivity.
Defined.

Lemma SetMaxTableSize_ok_witness :
  exists e', HEncoder.SetMaxTableSize testHash HEncoder.NewEncoder 100 = Some e' /\ enc_ok testHash e' /\
    maxSize (HEncoder.table e') = 100 /\ size (HEncoder.table e') <= maxSize (HEncoder.table e').
Proof.
  apply (SetMaxTableSize_ok testHash HEncoder.NewEncoder 100); [|lia]. apply (new_sync testHash 0).
Defined.

End HRound.
