(* ===== verification/QuicVarint.v ===== *)
(** * QUIC variable-length integers (src/http3/quic/varint.go)

    RFC 9000 section 16: the writer, its length, the reader, and the [reader]
    whose first failure sticks, which frames and parameters are taken apart
    with. *)

From S2P Require Import Prelude.
From stdpp Require Import base list numbers.
From Stdlib Require Import ZArith Lia.

Local Open Scope Z_scope.
Local Open Scope go_scope.

Module Varint.

Definition maxVarint : Z := (1 .<< 62) - 1.

Definition AppendVarint (b : bytes) (v : Z) : bytes :=
  if v <? 1 .<< 6 then b ++ [u8 v]
  else if v <? 1 .<< 14 then b ++ [u8 (v .>> 8) .| 0x40; u8 v]
  else if v <? 1 .<< 30 then b ++ [u8 (v .>> 24) .| 0x80; u8 (v .>> 16); u8 (v .>> 8); u8 v]
  else b ++ [u8 (v .>> 56) .| 0xc0; u8 (v .>> 48); u8 (v .>> 40); u8 (v .>> 32);
             u8 (v .>> 24); u8 (v .>> 16); u8 (v .>> 8); u8 v].

Definition VarintLen (v : Z) : Z :=
  if v <? 1 .<< 6 then 1 else if v <? 1 .<< 14 then 2 else if v <? 1 .<< 30 then 4 else 8.

(** [v = v<<8 | uint64(b[i])] over the bytes after the first. *)
Definition readBytes (v : Z) (b : bytes) : Z := fold_left (fun v x => u64 (v .<< 8) .| x) b v.

(** The integer and its length, which is 0 when [b] is too short. *)
Definition ReadVarint (b : bytes) : Z * Z :=
  match b with
  | [] => (0, 0)
  | b0 :: rest =>
      let n := 1 .<< (b0 .>> 6) in
      if len b <? n then (0, 0) else (readBytes (b0 .& 0x3f) (ztake (n - 1) rest), n)
  end.

Definition appendVarint2 (b : bytes) (v : Z) : bytes := b ++ [u8 (v .>> 8) .| 0x40; u8 v].

(** ** The reader *)

Record reader : Type := mkReader { r_b : bytes; r_bad : bool }.

Definition varint (r : reader) : Z * reader :=
  let '(v, n) := ReadVarint (r_b r) in
  if n =? 0 then (0, mkReader [] true) else (v, mkReader (zdrop n (r_b r)) (r_bad r)).

Definition read_bytes (r : reader) (n : Z) : bytes * reader :=
  if len (r_b r) <? n then ([], mkReader [] true)
  else (ztake n (r_b r), mkReader (zdrop n (r_b r)) (r_bad r)).

Definition read_byte (r : reader) : Z * reader :=
  match r_b r with
  | [] => (0, mkReader (r_b r) true)
  | v :: b => (v, mkReader b (r_bad r))
  end.

(** ** Lemmas *)

(** A byte more of a number, from the top. *)
Lemma read_step v k : 0 <= k -> 0 <= v < 2 ^ 64 -> u64 ((v .>> (k + 8)) .<< 8) .| u8 (v .>> k) = v .>> k.
Proof.
  intros Hk Hv. rewrite Z.add_comm, <- Z.shiftr_shiftr by lia. rewrite (Z.shiftr_shiftr v 8 k), Z.add_comm, <- Z.shiftr_shiftr by lia.
  assert (0 <= v .>> k < 2 ^ 64) as Hw.
  { rewrite Z.shiftr_div_pow2 by lia. assert (0 < 2 ^ k) by lia.
    split; [apply Z.div_pos; lia|]. apply Z.div_lt_upper_bound; [lia|]. nia. }
  set (w := v .>> k) in *. clearbody w. rewrite Z.shiftl_mul_pow2, (Z.shiftr_div_pow2 w 8) by lia.
  pose proof (Z.div_mod w 256 ltac:(lia)) as E. pose proof (Z.mod_pos_bound w 256 ltac:(lia)) as Hm.
  change (2 ^ 8) with 256 in *. rewrite u64_id by lia.
  rewrite (lor_disjoint _ (u8 w) 8); [unfold u8; change (2 ^ 8) with 256; lia|lia|apply Z.mod_mul; lia|].
  unfold u8; change (2 ^ 8) with 256; lia.
Qed.

(** The two bits that give the length, and the six that are the number's. *)
Lemma first_byte t x : 0 <= t <= 3 -> 0 <= x < 64 -> (u8 x .| (t * 64)) .>> 6 = t /\ (u8 x .| (t * 64)) .& 0x3f = x.
Proof.
  intros Ht Hx. rewrite u8_id by (unfold is_byte; lia).
  assert ((((x .| (t * 64)) .>> 6 =? t) && ((x .| (t * 64)) .& 0x3f =? x)) = true) as H.
  { assert (t = 0 \/ t = 1 \/ t = 2 \/ t = 3) as [-> | [-> | [-> | ->]]] by lia;
      match goal with |- ((_ .>> 6 =? ?t) && _) = true =>
        apply (lead (fun x => ((x .| (t * 64)) .>> 6 =? t) && ((x .| (t * 64)) .& 0x3f =? x)) 6) end;
      try lia; reflexivity. }
  now rewrite andb_true_iff, !Z.eqb_eq in H.
Qed.

Lemma shiftr_bound v k n : 0 <= k <= n -> 0 <= v < 2 ^ n -> 0 <= v .>> k < 2 ^ (n - k).
Proof.
  intros Hk Hv. rewrite Z.shiftr_div_pow2 by lia. split; [apply Z.div_pos; lia|].
  apply Z.div_lt_upper_bound; [lia|]. rewrite <- Z.pow_add_r by lia. now replace (k + (n - k)) with n by lia.
Qed.

(** What the reader does with a first byte and what follows it. *)
Lemma ReadVarint_tag t x tl rest :
  0 <= t <= 3 -> 0 <= x < 64 -> len tl = 2 ^ t - 1 ->
  ReadVarint ((u8 x .| (t * 64)) :: tl ++ rest) = (readBytes x tl, 2 ^ t).
Proof.
  intros Ht Hx Hl. cbn [ReadVarint]. destruct (first_byte t x Ht Hx) as [-> ->]. rewrite Z.shiftl_1_l.
  rewrite len_cons, len_app, (proj2 (Z.ltb_ge _ _)) by (pose proof (len_nonneg rest); lia).
  rewrite <- Hl, ztake_app. reflexivity.
Qed.

(** The reader undoes the writer, whatever follows. *)
Lemma ReadVarint_AppendVarint v rest :
  0 <= v < 2 ^ 62 ->
  len (AppendVarint [] v) = VarintLen v /\ ReadVarint (AppendVarint [] v ++ rest) = (v, VarintLen v).
Proof.
  intros Hv. unfold AppendVarint, VarintLen. rewrite !Z.shiftl_1_l.
  assert (forall j k, j = k + 8 -> 0 <= k -> u64 ((v .>> j) .<< 8) .| u8 (v .>> k) = v .>> k) as Hstep
    by (intros; subst; apply read_step; lia).
  pose proof (Hstep 8 0 eq_refl ltac:(lia)) as E0. rewrite Z.shiftr_0_r in E0.
  destruct (Z.ltb_spec v (2 ^ 6)); [|destruct (Z.ltb_spec v (2 ^ 14)); [|destruct (Z.ltb_spec v (2 ^ 30))]];
    (split; [reflexivity|]); cbn [app].
  - pose proof (ReadVarint_tag 0 v [] rest) as H1. rewrite Z.lor_0_r in H1. apply H1; try lia. reflexivity.
  - pose proof (shiftr_bound v 8 14).
    etransitivity; [apply (ReadVarint_tag 1 (v .>> 8) [u8 v] rest); try reflexivity; lia|]. f_equal.
    exact E0.
  - pose proof (shiftr_bound v 24 30).
    etransitivity; [apply (ReadVarint_tag 2 (v .>> 24) [u8 (v .>> 16); u8 (v .>> 8); u8 v] rest); try reflexivity; lia|]. f_equal.
    cbn [readBytes fold_left]. now rewrite (Hstep 24 16), (Hstep 16 8), E0 by lia.
  - pose proof (shiftr_bound v 56 62).
    etransitivity; [apply (ReadVarint_tag 3 (v .>> 56) [u8 (v .>> 48); u8 (v .>> 40); u8 (v .>> 32); u8 (v .>> 24); u8 (v .>> 16); u8 (v .>> 8); u8 v] rest); try reflexivity; lia|]. f_equal.
    cbn [readBytes fold_left]. 
    now rewrite (Hstep 56 48), (Hstep 48 40), (Hstep 40 32), (Hstep 32 24), (Hstep 24 16), (Hstep 16 8), E0 by lia.
Qed.

Lemma AppendVarint_app b v : AppendVarint b v = b ++ AppendVarint [] v.
Proof. unfold AppendVarint. repeat case_match; reflexivity. Qed.

Lemma AppendVarint_bytes v : 0 <= v < 2 ^ 62 -> bytes_ok (AppendVarint [] v).
Proof.
  intros Hv. unfold AppendVarint. rewrite !Z.shiftl_1_l.
  assert (forall x t, 0 <= t < 256 -> is_byte (u8 x .| t)) as Hor
    by (intros x t Ht; apply (lor_bound _ _ 8); [lia|apply u8_byte|exact Ht]).
  repeat case_match; cbn [app]; repeat (apply List.Forall_cons; [auto with fib; apply Hor; lia|]); apply List.Forall_nil.
Qed.

Lemma readBytes_bound b v k :
  bytes_ok b -> 0 <= k -> 0 <= v < 2 ^ k -> k + 8 * len b <= 64 ->
  0 <= readBytes v b < 2 ^ (k + 8 * len b).
Proof.
  intros Hb. revert v k. induction Hb as [|x b Hx Hb IH]; intros v k Hk Hv Hl; cbn [readBytes fold_left].
  - change (len []) with 0. now rewrite Z.mul_0_r, Z.add_0_r.
  - rewrite len_cons in *. replace (k + 8 * (1 + len b)) with (k + 8 + 8 * len b) in * by lia.
    pose proof (len_nonneg b). apply IH; [lia| |lia].
    assert (2 ^ (k + 8) = 2 ^ k * 256) as Ep by (rewrite Z.pow_add_r by lia; reflexivity).
    assert (2 ^ (k + 8) <= 2 ^ 64) by (apply Z.pow_le_mono_r; lia).
    assert (2 ^ 8 <= 2 ^ (k + 8)) by (apply Z.pow_le_mono_r; lia).
    unfold is_byte in Hx. apply lor_bound; [lia| |change (2 ^ 8) with 256 in *; lia].
    rewrite Z.shiftl_mul_pow2 by lia. change (2 ^ 8) with 256. rewrite u64_id by lia. lia.
Qed.

(** What the reader returns on any bytes. *)
Lemma ReadVarint_spec b :
  bytes_ok b ->
  (ReadVarint b = (0, 0) /\ (b = [] \/ exists b0 rest, b = b0 :: rest /\ len b < 2 ^ (b0 / 64))) \/
  exists v t, ReadVarint b = (v, 2 ^ t) /\ 0 <= t <= 3 /\ 2 ^ t <= len b /\ 0 <= v < 2 ^ (8 * 2 ^ t - 2).
Proof.
  intros Hb. destruct b as [|b0 rest]; [left; auto|]. inversion Hb as [|? ? H0 Hr]; subst. unfold is_byte in H0.
  cbn [ReadVarint]. rewrite Z.shiftl_1_l, Z.shiftr_div_pow2 by lia. change (2 ^ 6) with 64.
  assert (0 <= b0 / 64 <= 3) as Ht by (split; [apply Z.div_pos; lia|apply Z.lt_succ_r, Z.div_lt_upper_bound; lia]).
  destruct (Z.ltb_spec (len (b0 :: rest)) (2 ^ (b0 / 64))) as [Hlt|Hge]; [left; eauto 6|right].
  set (t := b0 / 64) in *. exists (readBytes (b0 .& 0x3f) (ztake (2 ^ t - 1) rest)), t. rewrite len_cons in *.
  assert (1 <= 2 ^ t <= 8) as Hp by (split; [apply (Z.pow_le_mono_r 2 0); lia|apply (Z.pow_le_mono_r 2 t 3); lia]).
  assert (len (ztake (2 ^ t - 1) rest) = 2 ^ t - 1) as El.
  { unfold len, ztake in *. rewrite length_take. lia. }
  split; [reflexivity|]. split; [exact Ht|]. split; [lia|]. replace (8 * 2 ^ t - 2) with (6 + 8 * len (ztake (2 ^ t - 1) rest)) by lia.
  apply readBytes_bound; try lia; [now apply Forall_take|].
  change 0x3f with (2 ^ 6 - 1). rewrite land_low_bits by lia. now apply Z.mod_pos_bound.
Qed.

(** ** Properties *)

(** AppendVarint appends VarintLen bytes, and ReadVarint gets the number
    and that length back from them, whatever follows, for every number up to
    maxVarint. *)
Theorem varint_roundtrip (b : bytes) (v : Z) (rest : bytes) :
  0 <= v <= maxVarint ->
  exists enc, AppendVarint b v = b ++ enc /\ len enc = VarintLen v /\ ReadVarint (enc ++ rest) = (v, len enc).
Proof.
  intros Hv. change maxVarint with (2 ^ 62 - 1) in Hv. exists (AppendVarint [] v).
  destruct (ReadVarint_AppendVarint v rest ltac:(lia)) as [El Er]. rewrite El. splits; auto. apply AppendVarint_app.
Qed.

(** On any bytes ReadVarint returns a number up to maxVarint without
    overflowing, a length within the bytes given, and never a shorter length
    than the writer would take for that number; a length of 0 is the error. *)
Theorem ReadVarint_bounded (b : bytes) (v n : Z) :
  bytes_ok b -> ReadVarint b = (v, n) ->
  0 <= v <= maxVarint /\ 0 <= n <= len b /\ (n <> 0 -> VarintLen v <= n).
Proof.
  intros Hb E. change maxVarint with (2 ^ 62 - 1).
  destruct (ReadVarint_spec b Hb) as [[E0 _]|(v' & t & E' & Ht & Hl & Hv)].
  - rewrite E0 in E. injection E as <- <-. pose proof (len_nonneg b). splits; lia.
  - rewrite E' in E. injection E as <- <-. unfold VarintLen. rewrite !Z.shiftl_1_l.
    assert (t = 0 \/ t = 1 \/ t = 2 \/ t = 3) as [-> | [-> | [-> | ->]]] by lia;
      cbn [Z.mul Z.sub Z.pow Z.pow_pos Pos.iter Z.add Z.opp Pos.mul Z.pos_sub Pos.pred_double] in Hv |- *;
      splits; intros; bool_cases; lia.
Qed.

(** ** Witnesses *)

(** RFC 9000 appendix A.1. *)
Lemma varint_roundtrip_witness :
  exists enc, AppendVarint [1] 151288809941952652 = [1] ++ enc /\ len enc = VarintLen 151288809941952652 /\
    ReadVarint (enc ++ [2]) = (151288809941952652, len enc).
Proof. apply (varint_roundtrip [1] 151288809941952652 [2]). now vm_compute. Defined.

Lemma ReadVarint_bounded_witness :
  0 <= 37 <= maxVarint /\ 0 <= 2 <= len [0x40; 0x25] /\ (2 <> 0 -> VarintLen 37 <= 2).
Proof.
  apply (ReadVarint_bounded [0x40; 0x25] 37 2); [|reflexivity].
  repeat (apply List.Forall_cons; [unfold is_byte; lia|]). apply List.Forall_nil.
Defined.

End Varint.
