(* ===== verification/QuicRanges.v ===== *)
(** * Byte ranges and packet number ranges (src/http3/quic/buffer.go: addSpan, rangeSet)

    The sorted, disjoint ranges a send buffer keeps of lost and acknowledged
    bytes, and the packet numbers received in a space. Both are the same
    structure: ascending ranges with a gap between any two. Offsets and packet
    numbers are below 2^62, so Go's uint64 sums here do not wrap. *)

From S2P Require Import Prelude.
From stdpp Require Import base list numbers.
From Stdlib Require Import ZArith Lia.

Local Open Scope Z_scope.

Module Ranges.

(** ** Spans *)

Record span : Type := mkSpan { s_off : Z; s_end : Z }.

#[export] Instance span_eq_dec : EqDecision span.
Proof. solve_decision. Defined.

(** [for j < len(spans) && spans[j].off <= s.end]: what is left of the spans is
    the list. *)
Fixpoint mergeLoop (j : nat) (s : span) (rest : list span) : span * nat :=
  match rest with
  | x :: rest =>
      if s_off x <=? s_end s then
        mergeLoop (S j) (mkSpan (Z.min (s_off s) (s_off x)) (Z.max (s_end s) (s_end x))) rest
      else (s, j)
  | [] => (s, j)
  end.

Definition endsFrom (spans : list span) (x : Z) (i : nat) : bool :=
  match spans !! i with Some s => x <=? s_end s | None => true end.

Definition addSpan (spans : list span) (s : span) : list span :=
  if s_end s <=? s_off s then spans
  else
    let i := sort_Search (length spans) (endsFrom spans (s_off s)) in
    let '(s', j) := mergeLoop i s (drop i spans) in
    if (i =? j)%nat then take i spans ++ s' :: drop i spans
    else take i spans ++ s' :: drop j spans.

(** ** Packet numbers received *)

Record pnRange : Type := mkRange { lo : Z; hi : Z }.

#[export] Instance pnRange_eq_dec : EqDecision pnRange.
Proof. solve_decision. Defined.

Definition maxAckRanges : nat := 32.

Abbreviation rangeSet := (list pnRange).

Definition hiFrom (r : rangeSet) (pn : Z) (i : nat) : bool :=
  match r !! i with Some x => pn <=? hi x + 1 | None => true end.

(** The switch of [add]: [pn] is put in at [i], joined to what it touches. *)
Definition insertAt (r : rangeSet) (i : nat) (pn : Z) : rangeSet :=
  match r !! i with
  | Some x =>
      if hi x + 1 =? pn then
        match r !! S i with
        | Some y =>
            if lo y =? pn + 1 then take i r ++ mkRange (lo x) (hi y) :: drop (i + 2) r
            else <[i := mkRange (lo x) pn]> r
        | None => <[i := mkRange (lo x) pn]> r
        end
      else if lo x =? pn + 1 then <[i := mkRange pn (hi x)]> r
      else take i r ++ mkRange pn pn :: drop i r
  | None => take i r ++ mkRange pn pn :: drop i r
  end.

Definition holdsAt (r : rangeSet) (i : nat) (pn : Z) : bool :=
  match r !! i with Some x => (lo x <=? pn) && (pn <=? hi x) | None => false end.

Definition add (r : rangeSet) (pn : Z) : rangeSet * bool :=
  let tooOld := match r with x :: _ => (pn <? lo x) && (length r =? maxAckRanges)%nat | [] => false end in
  if tooOld then (r, false)
  else
    let i := sort_Search (length r) (hiFrom r pn) in
    if holdsAt r i pn then (r, false)
    else
      let r := insertAt r i pn in
      ((if (maxAckRanges <? length r)%nat then drop 1 r else r), true).

Definition largest (r : rangeSet) : option Z := hi <$> list.last r.

(** [for i < len(r)-1 && r[i].hi < pn]. *)
Fixpoint forget (r : rangeSet) (pn : Z) : rangeSet :=
  match r with
  | x :: ((_ :: _) as rest) => if hi x <? pn then forget rest pn else r
  | _ => r
  end.

(** ** Lists of ranges *)

(** Ascending, none empty, with a gap between any two, from [from] on. *)
Fixpoint wf (from : Z) (spans : list span) : Prop :=
  match spans with
  | [] => True
  | s :: rest => from <= s_off s < s_end s /\ wf (s_end s + 1) rest
  end.

Definition mem (spans : list span) (x : Z) : Prop := Exists (fun s => s_off s <= x < s_end s) spans.

(** Where the next range may start. *)
Fixpoint after (from : Z) (spans : list span) : Z :=
  match spans with [] => from | s :: rest => after (s_end s + 1) rest end.

Lemma wf_weaken from from' spans : from' <= from -> wf from spans -> wf from' spans.
Proof. destruct spans as [|s rest]; cbn; [auto|]. intros ? [? ?]. split; [lia|assumption]. Qed.

Lemma wf_app from a b : wf from (a ++ b) <-> wf from a /\ wf (after from a) b.
Proof.
  revert from. induction a as [|s a IH]; intros from; cbn; [tauto|]. rewrite IH. tauto.
Qed.

Lemma mem_app a b x : mem (a ++ b) x <-> mem a x \/ mem b x.
Proof. apply Exists_app. Qed.

Lemma mem_cons s b x : mem (s :: b) x <-> s_off s <= x < s_end s \/ mem b x.
Proof. apply Exists_cons. Qed.

Lemma mem_nil x : ~ mem [] x.
Proof. intros H. now apply Exists_nil in H. Qed.

Lemma after_ge from a : wf from a -> from <= after from a.
Proof.
  revert from. induction a as [|s a IH]; intros from; cbn; [lia|]. intros [? H]. apply IH in H. lia.
Qed.

(** A range that all of [a] ends before. *)
Lemma after_le from a b : wf from a -> from <= b -> Forall (fun s => s_end s < b) a -> after from a <= b.
Proof.
  intros Hw Hb Ha. revert from Hw Hb. induction Ha as [|s a Hs Ha IH]; intros from; cbn; [lia|].
  intros [? Hw] Hb. apply IH; [exact Hw|lia].
Qed.

Lemma mem_ge from spans x : wf from spans -> mem spans x -> from <= x.
Proof.
  revert from. induction spans as [|s rest IH]; intros from; cbn; [intros _ []%mem_nil|].
  intros [? Hw] [?|Hm]%mem_cons; [lia|]. apply IH in Hw; [lia|exact Hm].
Qed.

Lemma wf_lookup_ge from spans j b : wf from spans -> spans !! j = Some b -> from <= s_off b < s_end b.
Proof.
  revert from j. induction spans as [|s rest IH]; intros from j Hw Hb; [discriminate|]. destruct Hw as [Hs Hw].
  destruct j; [injection Hb as ->; lia|]. specialize (IH _ _ Hw Hb). lia.
Qed.

(** Ranges end one after another. *)
Lemma wf_lookup from spans i j a b :
  wf from spans -> spans !! i = Some a -> spans !! j = Some b -> (i < j)%nat -> s_end a < s_off b < s_end b.
Proof.
  revert from i j. induction spans as [|s rest IH]; intros from i j Hw Ha Hb Hlt; [discriminate|].
  destruct Hw as [Hs Hw], j as [|j]; [lia|]. destruct i as [|i].
  - injection Ha as ->. pose proof (wf_lookup_ge _ _ _ _ Hw Hb). lia.
  - apply (IH _ i j Hw Ha Hb). lia.
Qed.

(** The two halves the search splits the ranges into. *)
Lemma search_split from spans x i :
  wf from spans -> i = sort_Search (length spans) (endsFrom spans x) ->
  (i <= length spans)%nat /\ Forall (fun s => s_end s < x) (take i spans) /\
  (forall s, spans !! i = Some s -> x <= s_end s).
Proof.
  intros Hw ->. destruct (sort_Search_spec (length spans) (endsFrom spans x)) as (Hle & Hlo & Hhi).
  - intros k k' Hk. unfold endsFrom.
    destruct (spans !! k) as [a|] eqn:Ea; [|apply lookup_ge_None in Ea; lia].
    destruct (spans !! k') as [b|] eqn:Eb; [|reflexivity]. rewrite !Z.leb_le. intros Ha.
    destruct (decide (k = k')) as [->|]; [congruence|].
    pose proof (wf_lookup _ _ _ _ _ _ Hw Ea Eb ltac:(lia)). lia.
  - set (i := sort_Search _ _) in *. split; [exact Hle|]. split.
    + apply Forall_lookup. intros k s Hs. apply lookup_take_Some in Hs as [Hs Hk].
      specialize (Hlo k Hk). unfold endsFrom in Hlo. rewrite Hs in Hlo. now apply Z.leb_gt in Hlo.
    + intros s Hs. specialize (Hhi (lookup_lt_Some _ _ _ Hs)). unfold endsFrom in Hhi. rewrite Hs in Hhi.
      now apply Z.leb_le in Hhi.
Qed.

(** ** [addSpan] *)

(** The merge takes in a run of ranges and ends before a gap. *)
Lemma mergeLoop_spec j s rest s' j' b :
  s_off s < s_end s -> wf b rest -> (forall x, rest !! 0%nat = Some x -> s_off s <= s_end x) ->
  mergeLoop j s rest = (s', j') ->
  (j <= j')%nat /\ Z.min b (s_off s) <= s_off s' <= s_off s /\ s_end s <= s_end s' /\
  wf (s_end s' + 1) (drop (j' - j) rest) /\
  (forall x, s_off s' <= x < s_end s' \/ mem (drop (j' - j) rest) x <-> s_off s <= x < s_end s \/ mem rest x) /\
  (j' = j -> s' = s).
Proof.
  revert j s b. induction rest as [|x rest IH]; intros j s b Hs Hw Hhead; cbn [mergeLoop].
  - intros [= <- <-]. rewrite Nat.sub_diag. cbn. splits; auto; try lia.
  - destruct Hw as [Hx Hw]. specialize (Hhead x eq_refl). destruct (Z.leb_spec (s_off x) (s_end s)) as [Hle|Hgt].
    + intros E. eapply (IH _ _ (s_end x + 1)) in E; [|cbn; lia|exact Hw|].
      2:{ intros y Hy. cbn. destruct rest as [|y' rest]; [discriminate|]. injection Hy as ->. destruct Hw as [? _]. lia. }
      cbn in E. destruct E as (Hj & Hoff & Hend & Hwf & Hmem & _).
      replace (j' - j)%nat with (S (j' - S j)) by lia. cbn [drop]. splits; try lia; auto.
      intros y. rewrite Hmem, mem_cons. intuition lia.
    + intros [= <- <-]. rewrite Nat.sub_diag. cbn [drop]. splits; auto; try lia. split; [lia|exact Hw].
Qed.

Lemma addSpan_spec from spans s :
  wf from spans -> from <= s_off s ->
  wf from (addSpan spans s) /\ forall x, mem (addSpan spans s) x <-> mem spans x \/ s_off s <= x < s_end s.
Proof.
  intros Hw Hf. unfold addSpan. destruct (Z.leb_spec (s_end s) (s_off s)) as [|Hs]; [split; [exact Hw|intuition lia]|].
  remember (sort_Search _ _) as i eqn:Ei. destruct (search_split _ _ _ _ Hw Ei) as (Hi & Hlo & Hhi).
  destruct (mergeLoop i s (drop i spans)) as [s' j] eqn:Em.
  pose proof Hw as Hw'. rewrite <- (take_drop i spans), wf_app in Hw'. destruct Hw' as [Ht Hd].
  apply (mergeLoop_spec _ _ _ _ _ _ Hs Hd) in Em as (Hj & Hoff & Hend & Hwf & Hmem & Hsame).
  2:{ intros x Hx. rewrite lookup_drop, Nat.add_0_r in Hx. auto. }
  assert (drop (j - i) (drop i spans) = drop j spans) as Ed by (rewrite drop_drop; f_equal; lia).
  rewrite Ed in *.
  assert (after from (take i spans) <= s_off s) as Ha by (apply after_le; auto).
  pose proof (after_ge _ _ Ht) as Hge.
  assert (wf from (take i spans ++ s' :: drop j spans) /\
    forall x, mem (take i spans ++ s' :: drop j spans) x <-> mem spans x \/ s_off s <= x < s_end s) as H.
  { split.
    - apply wf_app. split; [exact Ht|]. split; [lia|exact Hwf].
    - intros x. specialize (Hmem x).
      assert (mem spans x <-> mem (take i spans) x \/ mem (drop i spans) x) as Hsplit
        by (rewrite <- mem_app, take_drop; reflexivity).
      rewrite mem_app, mem_cons. tauto. }
  destruct (Nat.eqb_spec i j) as [->|]; exact H.
Qed.

(** ** [rangeSet] *)

Definition to_span (x : pnRange) : span := mkSpan (lo x) (hi x + 1).

(** A set as it is kept. *)
Definition rs_ok (r : rangeSet) : Prop := wf 0 (to_span <$> r) /\ (length r <= maxAckRanges)%nat.

Definition pn_in (r : rangeSet) (pn : Z) : Prop := Exists (fun x => lo x <= pn <= hi x) r.

Lemma pn_in_mem r pn : pn_in r pn <-> mem (to_span <$> r) pn.
Proof.
  unfold pn_in, mem. induction r as [|x r IH]; cbn; [now rewrite !Exists_nil|]. rewrite !Exists_cons, IH. cbn. intuition lia.
Qed.

Lemma search_hi r pn : sort_Search (length r) (hiFrom r pn) =
  sort_Search (length (to_span <$> r)) (endsFrom (to_span <$> r) pn).
Proof.
  rewrite length_fmap. apply sort_Search_ext. intros k. unfold hiFrom, endsFrom. rewrite list_lookup_fmap.
  now destruct (r !! k).
Qed.

(** The merge past one range, where the next is past it. *)
Lemma mergeLoop_stop j s from rest : wf from rest -> s_end s < from -> mergeLoop j s rest = (s, j).
Proof.
  destruct rest as [|x rest]; cbn; [reflexivity|]. intros [? _] ?. now rewrite (proj2 (Z.leb_gt _ _)) by lia.
Qed.

Lemma lookup_split {A} (r : list A) i x : r !! i = Some x -> drop i r = x :: drop (S i) r.
Proof. apply drop_S. Qed.

(** Putting a packet number in is adding the range of it alone. *)
Lemma insertAt_addSpan from r pn :
  wf from (to_span <$> r) ->
  let i := sort_Search (length r) (hiFrom r pn) in
  holdsAt r i pn = false ->
  to_span <$> insertAt r i pn = addSpan (to_span <$> r) (mkSpan pn (pn + 1)).
Proof.
  intros Hw i Hno. unfold addSpan. cbn [s_off s_end]. rewrite (proj2 (Z.leb_gt _ _)) by lia.
  rewrite <- search_hi. fold i. rewrite <- !fmap_drop, <- !fmap_take.
  destruct (search_split _ _ pn i Hw (search_hi r pn)) as (Hi & _ & Hhi). rewrite length_fmap in Hi.
  unfold insertAt, holdsAt in *. destruct (r !! i) as [x|] eqn:Ex.
  2:{ apply lookup_ge_None in Ex. rewrite (drop_ge r) by lia. cbn [fmap list_fmap mergeLoop].
      rewrite Nat.eqb_refl, !fmap_app. cbn. unfold to_span at 2. cbn. reflexivity. }
  specialize (Hhi (to_span x)). rewrite list_lookup_fmap, Ex in Hhi. specialize (Hhi eq_refl). cbn [to_span s_end] in Hhi.
  pose proof Hw as Hd. rewrite <- (take_drop i r), fmap_app, wf_app, (lookup_split _ _ _ Ex) in Hd.
  destruct Hd as [_ [Hx Hd]]. cbn [to_span s_off s_end] in Hx, Hd.
  assert (Z.lt pn (lo x) \/ hi x + 1 = pn) as Hpn.
  { rewrite andb_false_iff, !Z.leb_gt in Hno. lia. }
  rewrite (lookup_split _ _ _ Ex). cbn [fmap list_fmap mergeLoop to_span s_off s_end].
  pose proof (lookup_lt_Some _ _ _ Ex) as Hlen.
  destruct (Z.eqb_spec (hi x + 1) pn) as [Eh|Eh].
  - rewrite (proj2 (Z.leb_le _ _)), Z.min_r, Z.max_l by lia.
    destruct (r !! S i) as [y|] eqn:Ey.
    + rewrite (lookup_split _ _ _ Ey) in *. cbn [fmap list_fmap mergeLoop to_span s_off s_end] in *. destruct Hd as [Hy Hd].
      cbn [to_span s_off s_end] in Hy, Hd.
      destruct (Z.eqb_spec (lo y) (pn + 1)) as [El|El].
      * rewrite (proj2 (Z.leb_le _ _)), Z.min_l, Z.max_r by lia.
        rewrite (mergeLoop_stop _ _ _ _ Hd) by (cbn; lia).
        rewrite (proj2 (Nat.eqb_neq _ _)) by lia. rewrite fmap_app. cbn [fmap list_fmap]. unfold to_span at 2. cbn [lo hi].
        do 3 f_equal. rewrite fmap_drop. f_equal. lia.
      * rewrite (proj2 (Z.leb_gt _ _)) by lia. rewrite (proj2 (Nat.eqb_neq _ _)) by lia.
        rewrite insert_take_drop by exact Hlen. now rewrite fmap_app, <- fmap_drop.
    + assert (mergeLoop (S i) (mkSpan (lo x) (pn + 1)) (to_span <$> drop (S i) r) = (mkSpan (lo x) (pn + 1), S i)) as ->
        by (apply lookup_ge_None in Ey; now rewrite drop_ge by lia).
      rewrite (proj2 (Nat.eqb_neq _ _)) by lia.
      rewrite insert_take_drop by exact Hlen. now rewrite fmap_app, <- fmap_drop.
  - destruct Hpn as [Hpn|]; [|contradiction]. destruct (Z.eqb_spec (lo x) (pn + 1)) as [El|El].
    + rewrite (proj2 (Z.leb_le _ _)), Z.min_l, Z.max_r by lia.
      rewrite (mergeLoop_stop _ _ _ _ Hd) by (cbn; lia). rewrite (proj2 (Nat.eqb_neq _ _)) by lia.
      rewrite insert_take_drop by exact Hlen. now rewrite fmap_app, <- fmap_drop.
    + rewrite (proj2 (Z.leb_gt _ _)) by lia. rewrite Nat.eqb_refl. rewrite fmap_app. reflexivity.
Qed.

Lemma length_insertAt r i pn : (length (insertAt r i pn) <= S (length r))%nat.
Proof.
  unfold insertAt. repeat case_match; rewrite ?length_insert; try lia;
    rewrite length_app, length_take; cbn [length]; rewrite length_drop; lia.
Qed.

(** The set has a range more when the number touches none. *)
Lemma insertAt_grown r i pn :
  (length r < length (insertAt r i pn))%nat -> (i <= length r)%nat ->
  insertAt r i pn = take i r ++ mkRange pn pn :: drop i r /\ forall x, r !! i = Some x -> hi x + 1 <> pn.
Proof.
  unfold insertAt. intros Hl Hi. destruct (r !! i) as [x|] eqn:Ex; [|split; [reflexivity|discriminate]].
  pose proof (lookup_lt_Some _ _ _ Ex). destruct (Z.eqb_spec (hi x + 1) pn) as [|Hne].
  - exfalso. destruct (r !! S i) as [y|] eqn:Ey; [|rewrite length_insert in Hl; lia].
    destruct (lo y =? pn + 1); [|rewrite length_insert in Hl; lia]. pose proof (lookup_lt_Some _ _ _ Ey).
    rewrite length_app, length_take in Hl. cbn [length] in Hl. rewrite length_drop in Hl. lia.
  - destruct (lo x =? pn + 1); [rewrite length_insert in Hl; lia|]. split; [reflexivity|congruence].
Qed.

Lemma holdsAt_in r i pn : holdsAt r i pn = true -> pn_in r pn.
Proof.
  unfold holdsAt. destruct (r !! i) as [x|] eqn:E; [|discriminate]. rewrite andb_true_iff, !Z.leb_le. intros.
  apply Exists_exists. exists x. split; [|lia]. eapply list_elem_of_In, list_elem_of_lookup_2, E.
Qed.

Lemma holdsAt_search from r pn :
  wf from (to_span <$> r) -> holdsAt r (sort_Search (length r) (hiFrom r pn)) pn = false -> ~ pn_in r pn.
Proof.
  intros Hw Hno. remember (sort_Search _ _) as i eqn:Ei. rewrite search_hi in Ei.
  destruct (search_split _ _ _ _ Hw Ei) as (_ & Hlo & Hhi). rewrite pn_in_mem, <- (take_drop i (to_span <$> r)), mem_app.
  intros [H|H].
  - unfold mem in H. rewrite Exists_exists in H. destruct H as (s & Hs & ?). rewrite Forall_forall in Hlo.
    specialize (Hlo s Hs). cbn in Hlo. lia.
  - unfold holdsAt in Hno. destruct (r !! i) as [x|] eqn:Ex.
    + rewrite <- fmap_drop, (lookup_split _ _ _ Ex) in H. cbn [fmap list_fmap] in H.
      rewrite mem_cons in H. cbn [to_span s_off s_end] in H. rewrite andb_false_iff, !Z.leb_gt in Hno.
      specialize (Hhi (to_span x)). rewrite list_lookup_fmap, Ex in Hhi. specialize (Hhi eq_refl). cbn [to_span s_end] in Hhi.
      destruct H as [?|H]; [lia|]. rewrite <- (take_drop i r), fmap_app, wf_app, (lookup_split _ _ _ Ex) in Hw.
      destruct Hw as [_ [Hx Hw]]. cbn [to_span s_off s_end] in Hx, Hw. apply (mem_ge _ _ _ Hw) in H. lia.
    + apply lookup_ge_None in Ex. rewrite drop_ge in H by (rewrite length_fmap; lia). now apply mem_nil in H.
Qed.

(** Without the oldest range. *)
Lemma drop_oldest r :
  wf 0 (to_span <$> r) ->
  wf 0 (to_span <$> drop 1 r) /\ (forall x, pn_in (drop 1 r) x -> pn_in r x) /\
  (forall x, pn_in r x -> pn_in (drop 1 r) x \/ forall y, pn_in (drop 1 r) y -> x < y).
Proof.
  destruct r as [|a r]; cbn [drop fmap list_fmap]; [intros _; splits; auto; now constructor|].
  intros [Ha Hw]. cbn [to_span s_off s_end] in Ha, Hw. rewrite drop_0. splits.
  - eapply wf_weaken; [|exact Hw]. lia.
  - intros x Hx. now apply Exists_cons_tl.
  - intros x [Hx|Hx]%Exists_cons; [right|now left]. intros y Hy. apply pn_in_mem in Hy.
    apply (mem_ge _ _ _ Hw) in Hy. lia.
Qed.

(** ** Properties *)

(** AddSpan keeps the ranges sorted, disjoint and apart, and they then cover
    exactly the bytes they did and the new ones: the binary search and the merge
    loop find every range the new one touches. *)
Theorem addSpan_union (from : Z) (spans : list span) (s : span) :
  wf from spans -> from <= s_off s ->
  wf from (addSpan spans s) /\ forall x, mem (addSpan spans s) x <-> mem spans x \/ s_off s <= x < s_end s.
Proof. apply addSpan_spec. Qed.

(** RangeSet.add on a set as it is kept: refusing a packet number leaves the
    set alone, and means it is there or is below everything in a full set;
    accepting one means it was not there, and it is the one number the set
    gains, the oldest range going when the set is full. *)
Theorem rangeSet_add (r : rangeSet) (pn : Z) :
  rs_ok r -> 0 <= pn ->
  let '(r', new) := add r pn in
  rs_ok r' /\
  if new then
    ~ pn_in r pn /\ pn_in r' pn /\ (forall x, pn_in r' x -> pn_in r x \/ x = pn) /\
    (forall x, pn_in r x -> pn_in r' x \/ (length r = maxAckRanges /\ forall y, pn_in r' y -> x < y))
  else r' = r /\ (pn_in r pn \/ (length r = maxAckRanges /\ forall x, pn_in r x -> pn < x)).
Proof.
  intros [Hw Hlen] Hpn. unfold add.
  destruct (match r with x :: _ => _ | [] => _ end) eqn:Eold.
  { destruct r as [|a r]; [discriminate|]. apply andb_true_iff in Eold as [Hlt%Z.ltb_lt Hfull%Nat.eqb_eq].
    splits; [now split|reflexivity|right]. split; [exact Hfull|]. intros x Hx. apply pn_in_mem in Hx.
    cbn [fmap list_fmap] in Hx. destruct Hw as [Ha Hw].
    assert (wf (lo a) (to_span <$> a :: r)) as Hw' by (split; [cbn in *; lia|exact Hw]).
    apply (mem_ge _ _ _ Hw') in Hx. lia. }
  destruct (holdsAt r _ pn) eqn:Eh.
  { splits; [now split|reflexivity|left]. eapply holdsAt_in, Eh. }
  pose proof (holdsAt_search _ _ _ Hw Eh) as Hnot.
  pose proof (insertAt_addSpan 0 r pn Hw Eh) as Eadd.
  set (r1 := insertAt r _ pn) in *.
  destruct (addSpan_spec 0 (to_span <$> r) (mkSpan pn (pn + 1)) Hw Hpn) as [Hw1 Hm1]. rewrite <- Eadd in Hw1, Hm1.
  assert (forall x, pn_in r1 x <-> pn_in r x \/ x = pn) as Hin
    by (intros x; rewrite !pn_in_mem, Hm1; cbn [s_off s_end]; intuition lia).
  pose proof (length_insertAt r (sort_Search (length r) (hiFrom r pn)) pn) as Hl1. fold r1 in Hl1.
  destruct (Nat.ltb_spec maxAckRanges (length r1)) as [Hover|Hfits].
  - destruct (drop_oldest r1 Hw1) as (Hw2 & Hsub & Hsup). assert (length r = maxAckRanges) as Hfull by lia.
    split; [split; [exact Hw2|rewrite length_drop; lia]|]. splits; auto.
    + destruct r as [|a r]; [discriminate|]. rewrite (proj2 (Nat.eqb_eq _ _) Hfull), andb_true_r, Z.ltb_ge in Eold.
      remember (sort_Search _ _) as i eqn:Ei. rewrite search_hi in Ei.
      destruct (search_split _ _ _ _ Hw Ei) as (Hi & _ & Hhi). rewrite length_fmap in Hi.
      destruct (insertAt_grown (a :: r) i pn) as [E Hne]; [fold r1; lia|exact Hi|]. unfold r1. rewrite E.
      destruct i as [|i].
      * specialize (Hhi (to_span a) eq_refl). specialize (Hne a eq_refl). cbn [to_span s_end] in Hhi.
        unfold holdsAt in Eh. cbn in Eh. rewrite andb_false_iff, !Z.leb_gt in Eh. lia.
      * cbn [take app drop]. rewrite drop_0. apply Exists_app. right. apply Exists_cons_hd. cbn. lia.
    + intros x Hx. apply Hin. now apply Hsub.
    + intros x Hx. destruct (Hsup x) as [|Hb]; [apply Hin; now left|now left|right; auto].
  - split; [split; [exact Hw1|exact Hfits]|]. splits; auto.
    + apply Hin. now right.
    + intros x Hx. now apply Hin.
    + intros x Hx. left. apply Hin. now left.
Qed.

(** Forget drops only packet numbers below [pn], keeps the set as it is
    kept, and never empties it. *)
Theorem rangeSet_forget (r : rangeSet) (pn : Z) :
  rs_ok r ->
  rs_ok (forget r pn) /\ (r <> [] -> forget r pn <> []) /\ largest (forget r pn) = largest r /\
  (forall x, pn_in (forget r pn) x -> pn_in r x) /\ (forall x, pn <= x -> pn_in r x -> pn_in (forget r pn) x).
Proof.
  unfold rs_ok. induction r as [|a r IH]; intros [Hw Hlen]; cbn [forget]; [splits; auto|].
  destruct r as [|b r]; [splits; auto|]. destruct (Z.ltb_spec (hi a) pn) as [Hlt|]; [|splits; auto].
  destruct Hw as [Ha Hw]. cbn [to_span s_off s_end] in Ha, Hw.
  destruct IH as ([Hw' Hl'] & Hne & Hlast & Hsub & Hsup).
  { split; [eapply wf_weaken; [|exact Hw]; lia|cbn [length] in *; lia]. }
  split; [now split|]. split; [intros _; apply Hne; discriminate|]. split; [exact Hlast|]. split.
  - intros x Hx. now apply Exists_cons_tl, Hsub.
  - intros x Hx [Hin|Hin]%Exists_cons; [lia|]. now apply Hsup.
Qed.

(** C36: what rangeSet.add promises, false for a packet number that was already
    there or is too old to tell, does not hold once a range has been dropped:
    after 33 separate packet numbers the set has let go of the first, one that
    joins two ranges leaves it with room, and the first is then taken for new. *)
Theorem rangeSet_readds :
  let seen := fold_left (fun r pn => fst (add r pn)) (map (fun n => 2 * Z.of_nat n) (seq 0 33) ++ [3]) [] in
  snd (add [] 0) = true /\ rs_ok seen /\ snd (add seen 0) = true.
Proof.
  cbv zeta. splits; [reflexivity| |vm_compute; reflexivity]. split; [|vm_compute; lia]. vm_compute. splits; reflexivity || discriminate || exact I.
Qed.

(** ** Witnesses *)

Lemma addSpan_union_witness :
  wf 0 (addSpan [mkSpan 0 4; mkSpan 6 8; mkSpan 20 30] (mkSpan 4 7)) /\
  forall x, mem (addSpan [mkSpan 0 4; mkSpan 6 8; mkSpan 20 30] (mkSpan 4 7)) x <->
    mem [mkSpan 0 4; mkSpan 6 8; mkSpan 20 30] x \/ s_off (mkSpan 4 7) <= x < s_end (mkSpan 4 7).
Proof. apply (addSpan_union 0 [mkSpan 0 4; mkSpan 6 8; mkSpan 20 30] (mkSpan 4 7)); [cbn; lia|cbn; lia]. Defined.

Lemma rangeSet_add_witness :
  exists r', add [mkRange 1 3; mkRange 5 9] 4 = (r', true) /\ rs_ok r' /\ pn_in r' 4 /\ ~ pn_in [mkRange 1 3; mkRange 5 9] 4.
Proof.
  exists [mkRange 1 9]. pose proof (rangeSet_add [mkRange 1 3; mkRange 5 9] 4) as H.
  assert (rs_ok [mkRange 1 3; mkRange 5 9]) as Hok by (split; [cbn; lia|cbn; unfold maxAckRanges; lia]).
  specialize (H Hok ltac:(lia)). change (add _ 4) with ([mkRange 1 9], true) in *. cbn iota beta in H.
  destruct H as (Hr & Hn & Hin & _). splits; auto.
Defined.

Lemma rangeSet_forget_witness :
  rs_ok (forget [mkRange 1 3; mkRange 5 9] 5) /\ largest (forget [mkRange 1 3; mkRange 5 9] 5) = Some 9.
Proof.
  destruct (rangeSet_forget [mkRange 1 3; mkRange 5 9] 5) as (Hok & _ & Hl & _);
    [split; [cbn; lia|cbn; unfold maxAckRanges; lia]|]. split; [exact Hok|exact Hl].
Defined.

End Ranges.
