(* ===== verification/QuicRecv.v ===== *)
(** * Stream reassembly (src/http3/quic/buffer.go: recvBuffer)

    Frames that arrive out of order, overlap or repeat, put back in order. The
    buffer is shown to hold every byte that arrived and was not delivered, once,
    and to deliver the stream: exactly the longest prefix of it that has
    arrived. Offsets are below 2^62 (the callers refuse a frame past that), so
    the uint64 sums do not wrap. *)

From S2P Require Import Prelude.
From stdpp Require Import base list numbers.
From Stdlib Require Import ZArith Lia.

Local Open Scope Z_scope.
Local Open Scope go_scope.

Module Recv.

(** ** The buffer *)

Record segment : Type := mkSeg { seg_off : Z; seg_data : bytes }.

Definition seg_end (s : segment) : Z := seg_off s + len (seg_data s).

Definition minRecvSegments : Z := 1024.

Definition recvSegmentLimit (window : Z) : Z := Z.min (Z.max (window .>> 9) minRecvSegments) (1 .<< 20).

Record recvBuffer : Type := mkRecv { offset : Z; segments : list segment; buffered : Z }.

Definition endsPast (segs : list segment) (off : Z) (i : nat) : bool :=
  match segs !! i with Some s => off <? seg_end s | None => true end.

(** [for j < len(segs) && segs[j].end() <= end]. *)
Fixpoint coverLoop (j : nat) (end_ : Z) (rest : list segment) : nat :=
  match rest with
  | s :: rest => if seg_end s <=? end_ then coverLoop (S j) end_ rest else j
  | [] => j
  end.

Definition cutSegments (segs : list segment) (i j : nat) : list segment :=
  if (i =? j)%nat then segs else take i segs ++ drop j segs.

Definition bytesOf (segs : list segment) : Z := foldr (fun s n => len (seg_data s) + n) 0 segs.

(** The data less what the segment it starts in has: [None] when that is all of
    it. *)
Definition clipFront (segs : list segment) (i : nat) (off end_ : Z) (data : bytes) : option (bytes * Z * nat) :=
  match segs !! i with
  | Some s =>
      if seg_off s <=? off then
        let e := seg_end s in
        if end_ <=? e then None else Some (zdrop (e - off) data, e, S i)
      else Some (data, off, i)
  | None => Some (data, off, i)
  end.

(** And less what the segment it ends in has. *)
Definition clipBack (segs : list segment) (j : nat) (off end_ : Z) (data : bytes) : option bytes :=
  match segs !! j with
  | Some s =>
      if seg_off s <? end_ then
        let data := ztake (seg_off s - off) data in
        if len data =? 0 then None else Some data
      else Some data
  | None => Some data
  end.

(** The switch: added to the segment before, in place of the segments it
    covers, or on its own. *)
Definition store (segs : list segment) (i j : nat) (off : Z) (data : bytes) (limit : Z) : option (list segment) :=
  let joins := match i with
    | O => None
    | S k => match segs !! k with Some s => if seg_end s =? off then Some (k, s) else None | None => None end
    end in
  match joins with
  | Some (k, s) => Some (cutSegments (<[k := mkSeg (seg_off s) (seg_data s ++ data)]> segs) i j)
  | None =>
      if (i <? j)%nat then Some (cutSegments (<[i := mkSeg off data]> segs) (S i) j)
      else if limit <=? len segs then None
      else Some (take i segs ++ mkSeg off data :: drop i segs)
  end.

(** [push] from the search on, the data past what was delivered. *)
Definition insertData (r : recvBuffer) (off end_ : Z) (data : bytes) (limit : Z) : recvBuffer * bool :=
  let segs := segments r in
  match clipFront segs (sort_Search (length segs) (endsPast segs off)) off end_ data with
  | None => (r, true)
  | Some (data, off, i) =>
      let j := coverLoop i end_ (drop i segs) in
      match clipBack segs j off end_ data with
      | None => (r, true)
      | Some data =>
          let kept := buffered r - bytesOf (take (j - i) (drop i segs)) in
          match store segs i j off data limit with
          | None => (mkRecv (offset r) segs kept, false)
          | Some segs => (mkRecv (offset r) segs (kept + len data), true)
          end
      end
  end.

Definition push (r : recvBuffer) (off : Z) (data : bytes) (limit : Z) : recvBuffer * bool :=
  let end_ := off + len data in
  if (end_ <=? offset r) || (len data =? 0) then (r, true)
  else
    let '(data, off) := if off <? offset r then (zdrop (offset r - off) data, offset r) else (data, off) in
    insertData r off end_ data limit.

(** The data to hand on at once, [None] for Go's nil. *)
Definition take_ (r : recvBuffer) (off : Z) (data : bytes) (limit : Z) : option bytes * recvBuffer * bool :=
  if (0 <? len (segments r)) || (offset r <? off) then
    let '(r, ok) := push r off data limit in (None, r, ok)
  else
    let end_ := off + len data in
    if end_ <=? offset r then (None, r, true)
    else (Some (zdrop (offset r - off) data), mkRecv end_ (segments r) (buffered r), true).

Definition pop (r : recvBuffer) : option bytes * recvBuffer :=
  match segments r with
  | s :: rest =>
      if offset r <? seg_off s then (None, r)
      else (Some (zdrop (offset r - seg_off s) (seg_data s)), mkRecv (seg_end s) rest (buffered r - len (seg_data s)))
  | [] => (None, r)
  end.

(** [for { chunk := r.pop(); if chunk == nil { break } ... }], as onStreamFrame
    and handleCrypto run it: what is handed on, joined. *)
Fixpoint popAll (fuel : nat) (r : recvBuffer) (out : bytes) : bytes * recvBuffer :=
  match fuel with
  | O => (out, r)
  | S fuel => match pop r with (None, r) => (out, r) | (Some chunk, r) => popAll fuel r (out ++ chunk) end
  end.

(** A frame, as its stream takes it in: what it delivers. *)
Definition onFrame (r : recvBuffer) (off : Z) (data : bytes) (limit : Z) : option (bytes * recvBuffer) :=
  match take_ r off data limit with
  | (_, _, false) => None
  | (first, r, true) => Some (popAll (S (length (segments r))) r (default [] first))
  end.

(** ** Segments *)

Section Stream.
(** The bytes of the stream. *)
Context (content : Z -> Z).

Abbreviation agrees := (agrees content).

(** Ascending, disjoint, none empty, from [from] on, with the stream's bytes. *)
Fixpoint segs_ok (from : Z) (segs : list segment) : Prop :=
  match segs with
  | [] => True
  | s :: rest => from <= seg_off s /\ 0 < len (seg_data s) /\ agrees (seg_off s) (seg_data s) /\ segs_ok (seg_end s) rest
  end.

Definition held (segs : list segment) (x : Z) : Prop := Exists (fun s => seg_off s <= x < seg_end s) segs.

Fixpoint last_end (from : Z) (segs : list segment) : Z :=
  match segs with [] => from | s :: rest => last_end (seg_end s) rest end.

Lemma held_nil x : ~ held [] x.
Proof. intros H. now apply Exists_nil in H. Qed.

Lemma held_cons s segs x : held (s :: segs) x <-> seg_off s <= x < seg_end s \/ held segs x.
Proof. apply Exists_cons. Qed.

Lemma held_app a b x : held (a ++ b) x <-> held a x \/ held b x.
Proof. apply Exists_app. Qed.

Lemma segs_ok_weaken from from' segs : from' <= from -> segs_ok from segs -> segs_ok from' segs.
Proof. destruct segs as [|s rest]; cbn; [auto|]. intros ? (? & ?). split; [lia|assumption]. Qed.

Lemma segs_ok_app from a b : segs_ok from (a ++ b) <-> segs_ok from a /\ segs_ok (last_end from a) b.
Proof. revert from. induction a as [|s a IH]; intros from; cbn; [tauto|]. rewrite IH. tauto. Qed.

Lemma last_end_ge from a : segs_ok from a -> from <= last_end from a.
Proof.
  revert from. induction a as [|s a IH]; intros from; cbn; [lia|]. intros (? & ? & _ & H). apply IH in H.
  unfold seg_end in *. lia.
Qed.

Lemma last_end_le from a b : segs_ok from a -> from <= b -> Forall (fun s => seg_end s <= b) a -> last_end from a <= b.
Proof.
  intros Hw Hb Ha. revert from Hw Hb. induction Ha as [|s a Hs Ha IH]; intros from; cbn; [lia|].
  intros (? & ? & ? & Hw) Hb. apply IH; auto.
Qed.

Lemma last_end_snoc from a s : last_end from (a ++ [s]) = seg_end s.
Proof. revert from. induction a as [|t a IH]; intros from; cbn; auto. Qed.

Lemma held_ge from segs x : segs_ok from segs -> held segs x -> from <= x.
Proof.
  revert from. induction segs as [|s rest IH]; intros from; cbn; [intros _ []%held_nil|].
  intros (? & ? & ? & Hw) [?|Hm]%held_cons; [lia|]. apply IH in Hw; [unfold seg_end in *; lia|exact Hm].
Qed.

Lemma held_lt from segs x : segs_ok from segs -> held segs x -> x < last_end from segs.
Proof.
  revert from. induction segs as [|s rest IH]; intros from; cbn; [intros _ []%held_nil|].
  intros (? & ? & ? & Hw) [?|Hm]%held_cons; [apply last_end_ge in Hw; lia|]. now apply IH.
Qed.

Lemma segs_lookup_ge from segs j b :
  segs_ok from segs -> segs !! j = Some b -> from <= seg_off b /\ seg_off b < seg_end b.
Proof.
  revert from j. induction segs as [|s rest IH]; intros from j Hw Hb; [discriminate|]. destruct Hw as (Hs & Hl & _ & Hw).
  destruct j; [injection Hb as ->; unfold seg_end; lia|]. specialize (IH _ _ Hw Hb). unfold seg_end in *. lia.
Qed.

Lemma segs_lookup from segs i j a b :
  segs_ok from segs -> segs !! i = Some a -> segs !! j = Some b -> (i < j)%nat -> seg_end a <= seg_off b /\ seg_off b < seg_end b.
Proof.
  revert from i j. induction segs as [|s rest IH]; intros from i j Hw Ha Hb Hlt; [discriminate|].
  destruct Hw as (Hs & Hl & _ & Hw), j as [|j]; [lia|]. destruct i as [|i].
  - injection Ha as ->. apply (segs_lookup_ge _ _ _ _ Hw Hb).
  - apply (IH _ i j Hw Ha Hb). lia.
Qed.

Lemma search_segs from segs x i :
  segs_ok from segs -> i = sort_Search (length segs) (endsPast segs x) ->
  (i <= length segs)%nat /\ Forall (fun s => seg_end s <= x) (take i segs) /\
  (forall s, segs !! i = Some s -> x < seg_end s).
Proof.
  intros Hw ->. destruct (sort_Search_spec (length segs) (endsPast segs x)) as (Hle & Hlo & Hhi).
  - intros k k' Hk. unfold endsPast.
    destruct (segs !! k) as [a|] eqn:Ea; [|apply lookup_ge_None in Ea; lia].
    destruct (segs !! k') as [b|] eqn:Eb; [|reflexivity]. rewrite !Z.ltb_lt. intros Ha.
    destruct (decide (k = k')) as [->|]; [congruence|].
    pose proof (segs_lookup _ _ _ _ _ _ Hw Ea Eb ltac:(lia)). lia.
  - set (i := sort_Search _ _) in *. split; [exact Hle|]. split.
    + apply Forall_lookup. intros k s Hs. apply lookup_take_Some in Hs as [Hs Hk].
      specialize (Hlo k Hk). unfold endsPast in Hlo. rewrite Hs in Hlo. now apply Z.ltb_ge in Hlo.
    + intros s Hs. specialize (Hhi (lookup_lt_Some _ _ _ Hs)). unfold endsPast in Hhi. rewrite Hs in Hhi.
      now apply Z.ltb_lt in Hhi.
Qed.

Lemma bytesOf_app a b : bytesOf (a ++ b) = bytesOf a + bytesOf b.
Proof. unfold bytesOf. induction a as [|s a IH]; cbn; lia. Qed.

(** ** [push], part by part *)

Lemma take_S_insert {A} (l : list A) k v : (k < length l)%nat -> take (S k) (<[k := v]> l) = take k l ++ [v].
Proof.
  intros Hk. rewrite insert_take_drop by exact Hk. rewrite take_app_ge by (rewrite length_take; lia).
  rewrite length_take. now replace (S k - k `min` length l)%nat with 1%nat by lia.
Qed.

Lemma cut_insert segs k v j :
  (k < length segs)%nat -> (S k <= j)%nat -> cutSegments (<[k := v]> segs) (S k) j = take k segs ++ v :: drop j segs.
Proof.
  intros Hk Hj. unfold cutSegments. destruct (Nat.eqb_spec (S k) j) as [<-|Hne].
  - now apply insert_take_drop.
  - rewrite take_S_insert, drop_insert_lt, <- app_assoc by lia. reflexivity.
Qed.

Lemma held_mono_take i segs x : held (take i segs) x -> held segs x.
Proof. rewrite <- (take_drop i segs) at 2. rewrite held_app. auto. Qed.

Lemma held_lookup segs i s x : segs !! i = Some s -> seg_off s <= x < seg_end s -> held segs x.
Proof. intros Hs Hx. apply Exists_exists. exists s. split; [|exact Hx]. eapply list_elem_of_In, list_elem_of_lookup_2, Hs. Qed.

(** The front: what is left starts at [off'], past all of the first [i']. *)
Lemma clipFront_spec from segs off end_ data :
  segs_ok from segs -> agrees off data -> off + len data = end_ -> off < end_ ->
  match clipFront segs (sort_Search (length segs) (endsPast segs off)) off end_ data with
  | None => forall x, off <= x < end_ -> held segs x
  | Some (data', off', i) =>
      agrees off' data' /\ off' + len data' = end_ /\ off <= off' < end_ /\ (i <= length segs)%nat /\
      Forall (fun s => seg_end s <= off') (take i segs) /\ (forall s, segs !! i = Some s -> off' <= seg_off s) /\
      (forall x, off <= x < off' -> held segs x)
  end.
Proof.
  intros Hw Ha He Hlt. remember (sort_Search _ _) as i eqn:Ei.
  destruct (search_segs _ _ _ _ Hw Ei) as (Hi & Hlo & Hhi). unfold clipFront. clear Ei.
  destruct (segs !! i) as [s|] eqn:Es; [|cbv beta iota; splits; auto; try lia; intros; try congruence; exfalso; lia].
  specialize (Hhi s eq_refl). destruct (Z.leb_spec (seg_off s) off) as [Hle|Hgt].
  - destruct (Z.leb_spec end_ (seg_end s)) as [Hall|Hpast].
    + intros x Hx. apply (held_lookup _ _ _ _ Es). lia.
    + pose proof (lookup_lt_Some _ _ _ Es). cbv beta iota zeta. splits; try lia.
      * replace (seg_end s) with (off + (seg_end s - off)) at 1 by lia. apply agrees_drop; [lia|exact Ha].
      * rewrite len_zdrop by lia. lia.
      * rewrite (take_S_r _ _ _ Es). apply Forall_app. split; [|repeat constructor; lia].
        eapply Forall_impl; [|exact Hlo]. cbn. intros; lia.
      * intros t Ht. apply (segs_lookup _ _ _ _ _ _ Hw Es Ht). lia.
      * intros x Hx. apply (held_lookup _ _ _ _ Es). lia.
  - cbv beta iota. splits; auto; try lia; intros t Ht; first [assert (t = s) as -> by congruence; lia|exfalso; lia].
Qed.

Lemma coverLoop_spec j end_ rest :
  let j' := coverLoop j end_ rest in
  (j <= j' <= j + length rest)%nat /\ Forall (fun s => seg_end s <= end_) (take (j' - j) rest) /\
  (forall s, rest !! (j' - j)%nat = Some s -> end_ < seg_end s).
Proof.
  revert j. induction rest as [|s rest IH]; intros j; cbn [coverLoop].
  - rewrite Nat.sub_diag. splits; [lia|cbn; lia|constructor|discriminate].
  - destruct (Z.leb_spec (seg_end s) end_) as [Hle|Hgt].
    + destruct (IH (S j)) as (Hj & Hf & Hn). cbn zeta. set (j' := coverLoop (S j) end_ rest) in *.
      replace (j' - j)%nat with (S (j' - S j)) by lia. cbn [take length lookup list_lookup].
      splits; [lia|lia|constructor; assumption|exact Hn].
    + cbn zeta. rewrite Nat.sub_diag. splits; [lia|cbn; lia|constructor|]. intros t [= <-]. lia.
Qed.

(** The back: what is left ends before segment [j]. *)
Lemma clipBack_spec segs j off end_ data :
  agrees off data -> off + len data = end_ -> off < end_ ->
  (forall s, segs !! j = Some s -> off <= seg_off s /\ end_ < seg_end s) ->
  match clipBack segs j off end_ data with
  | None => forall x, off <= x < end_ -> held segs x
  | Some data' =>
      agrees off data' /\ 0 < len data' /\ off + len data' <= end_ /\
      (forall s, segs !! j = Some s -> off + len data' <= seg_off s) /\
      (off + len data' = end_ \/ exists s, segs !! j = Some s /\ off + len data' = seg_off s) /\
      (forall x, off + len data' <= x < end_ -> held segs x)
  end.
Proof.
  intros Ha He Hlt Hj. unfold clipBack.
  destruct (segs !! j) as [s|] eqn:Es; [|splits; auto; try lia; discriminate].
  destruct (Hj s eq_refl) as [Hoff Hend]. destruct (Z.ltb_spec (seg_off s) end_) as [Hin|Hout].
  - assert (len (ztake (seg_off s - off) data) = seg_off s - off) as El by (apply len_ztake; lia).
    destruct (Z.eqb_spec (len (ztake (seg_off s - off) data)) 0) as [H0|H0].
    + intros x Hx. apply (held_lookup _ _ _ _ Es). lia.
    + rewrite El in *. splits; try lia; [now apply agrees_take|intros t [= <-]; lia|right; exists s; split; [reflexivity|lia]|].
      intros x Hx. apply (held_lookup _ _ _ _ Es). lia.
  - splits; auto; try lia. intros t [= <-]. lia.
Qed.

(** What is stored: the first [i] segments with the data after them. *)
Lemma store_spec from segs i j off data limit :
  segs_ok from segs -> (i <= j <= length segs)%nat -> Forall (fun s => seg_end s <= off) (take i segs) ->
  from <= off -> agrees off data -> 0 < len data ->
  match store segs i j off data limit with
  | None => limit <= len segs /\ i = j
  | Some segs' => exists a, segs' = a ++ drop j segs /\ segs_ok from a /\ last_end from a = off + len data /\
      (forall x, held a x <-> held (take i segs) x \/ off <= x < off + len data) /\
      bytesOf a = bytesOf (take i segs) + len data /\ len segs' <= len segs + 1 /\ (len segs < len segs' -> len segs < limit)
  end.
Proof.
  intros Hw Hij Hlo Hf Ha Hl. unfold store.
  pose proof Hw as Hw'. rewrite <- (take_drop i segs), segs_ok_app in Hw'. destruct Hw' as [Ht _].
  assert (segs_ok from (take i segs ++ [mkSeg off data])) as Hsnoc.
  { apply segs_ok_app. split; [exact Ht|]. cbn. splits; auto. now apply last_end_le. }
  assert (exists a, take i segs ++ mkSeg off data :: drop j segs = a ++ drop j segs /\ segs_ok from a /\ last_end from a = off + len data /\
      (forall x, held a x <-> held (take i segs) x \/ off <= x < off + len data) /\
      bytesOf a = bytesOf (take i segs) + len data) as Hnew.
  { exists (take i segs ++ [mkSeg off data]). splits; auto.
    - now rewrite <- app_assoc.
    - apply last_end_snoc.
    - intros x. rewrite held_app, held_cons. unfold seg_end. cbn. pose proof (held_nil x). tauto.
    - rewrite bytesOf_app. cbn. lia. }
  destruct (match i with O => None | S k => _ end) as [[k s]|] eqn:Ej.
  - destruct i as [|k']; [discriminate|]. destruct (segs !! k') as [s'|] eqn:Es; [|discriminate].
    destruct (Z.eqb_spec (seg_end s') off) as [Eoff|]; [|discriminate]. injection Ej as -> ->.
    pose proof (lookup_lt_Some _ _ _ Es) as Hk. rewrite cut_insert by lia.
    exists (take k segs ++ [mkSeg (seg_off s) (seg_data s ++ data)]).
    rewrite (take_S_r _ _ _ Es) in *. apply segs_ok_app in Ht as [Ht (Hs1 & Hs2 & Hs3 & _)].
    pose proof Eoff as Eoff'. unfold seg_end in Eoff'.
    splits.
    + now rewrite <- app_assoc.
    + apply segs_ok_app. split; [exact Ht|]. cbn. rewrite len_app. splits; auto; [lia|].
      apply agrees_app; [exact Hs3|]. now rewrite Eoff'.
    + rewrite last_end_snoc. unfold seg_end. cbn. rewrite len_app. lia.
    + intros x. rewrite !held_app, !held_cons. unfold seg_end. cbn. rewrite len_app. pose proof (held_nil x). intuition lia.
    + rewrite !bytesOf_app. cbn. rewrite len_app. lia.
    + unfold len. rewrite length_app, length_take. cbn [length]. rewrite length_drop. lia.
    + unfold len. rewrite length_app, length_take. cbn [length]. rewrite length_drop. lia.
  - destruct (Nat.ltb_spec i j) as [Hlt|Hge].
    + rewrite cut_insert by lia. destruct Hnew as (a & E & ? & ? & ? & ?). exists a. splits; auto.
      all: unfold len in *; rewrite length_app, length_take; cbn [length]; rewrite length_drop; lia.
    + assert (i = j) as -> by lia. destruct (Z.leb_spec limit (len segs)); [auto|].
      destruct Hnew as (a & E & ? & ? & ? & ?). exists a. splits; auto.
      unfold len in *. rewrite length_app, length_take. cbn [length]. rewrite length_drop. lia.
Qed.

(** ** The buffer as a whole *)

Record ok (r : recvBuffer) : Prop := {
  ok_segs : segs_ok (offset r) (segments r);
  ok_buffered : buffered r = bytesOf (segments r)
}.

Lemma bytesOf_split i j segs : (i <= j)%nat -> bytesOf segs = bytesOf (take i segs) + bytesOf (take (j - i) (drop i segs)) + bytesOf (drop j segs).
Proof.
  intros Hij. rewrite <- (take_drop i segs) at 1. rewrite bytesOf_app.
  rewrite <- (take_drop (j - i) (drop i segs)) at 1. rewrite bytesOf_app, drop_drop.
  replace (i + (j - i))%nat with j by lia. lia.
Qed.

Lemma held_split i j segs x : (i <= j)%nat ->
  held segs x <-> held (take i segs) x \/ held (take (j - i) (drop i segs)) x \/ held (drop j segs) x.
Proof.
  intros Hij. rewrite <- (take_drop i segs) at 1. rewrite held_app.
  rewrite <- (take_drop (j - i) (drop i segs)) at 1. rewrite held_app, drop_drop.
  now replace (i + (j - i))%nat with j by lia.
Qed.

(** What a frame's data makes of the buffer: the bytes are held, each once, or
    the frame is refused and nothing has changed. *)
Definition pushed (r : recvBuffer) (off end_ limit : Z) (p : recvBuffer * bool) : Prop :=
  ok p.1 /\ offset p.1 = offset r /\ len (segments p.1) <= len (segments r) + 1 /\
  (len (segments r) < len (segments p.1) -> len (segments r) < limit) /\
  if p.2 then forall x, held (segments p.1) x <-> held (segments r) x \/ off <= x < end_
  else p.1 = r /\ limit <= len (segments r).

Lemma insertData_spec r off end_ data limit :
  ok r -> offset r <= off -> agrees off data -> off + len data = end_ -> off < end_ ->
  pushed r off end_ limit (insertData r off end_ data limit).
Proof.
  intros [Hw Hb] Hoff Ha He Hlt. unfold insertData.
  pose proof (clipFront_spec _ (segments r) off end_ data Hw Ha He Hlt) as Hf.
  set (i0 := sort_Search _ _) in *. set (segs := segments r) in *.
  assert ((forall x, off <= x < end_ -> held segs x) -> pushed r off end_ limit (r, true)) as Hhave.
  { intros Hall. unfold pushed. cbn. splits; auto; [now split|lia|lia|]. intros x. split; [auto|]. intros [?|?]; auto. }
  destruct (clipFront segs i0 off end_ data) as [[[data1 off1] i]|]; [|now apply Hhave].
  destruct Hf as (Ha1 & He1 & Ho1 & Hi & Hlo & Hhi & Hfront).
  destruct (coverLoop_spec i end_ (drop i segs)) as (Hj & Hcov & Hpast). set (j := coverLoop i end_ (drop i segs)) in *.
  rewrite length_drop in Hj. rewrite lookup_drop in Hpast. replace (i + (j - i))%nat with j in Hpast by lia.
  assert (forall k s, (i <= k)%nat -> segs !! k = Some s -> off1 <= seg_off s) as Hge.
  { intros k s Hk Hs. destruct (decide (k = i)) as [->|]; [now apply Hhi|].
    destruct (segs !! i) as [t|] eqn:Et; [|apply lookup_ge_None in Et; apply lookup_lt_Some in Hs; lia].
    specialize (Hhi t eq_refl). pose proof (segs_lookup_ge _ _ _ _ Hw Et).
    pose proof (segs_lookup _ _ _ _ _ _ Hw Et Hs ltac:(lia)). lia. }
  pose proof (clipBack_spec segs j off1 end_ data1 Ha1 He1 ltac:(lia)) as Hback.
  destruct (clipBack segs j off1 end_ data1) as [data2|].
  2:{ apply Hhave. intros x Hx. destruct (Z.lt_ge_cases x off1); [apply Hfront; lia|]. apply Hback; [|lia].
      intros s Hs. split; [apply (Hge j); [lia|exact Hs]|now apply Hpast]. }
  destruct Hback as (Ha2 & Hl2 & Hle2 & Hnext & Hend2 & Hbk).
  { intros s Hs. split; [apply (Hge j); [lia|exact Hs]|now apply Hpast]. }
  (* the covered segments lie within the new data *)
  assert (forall x, held (take (j - i) (drop i segs)) x -> off1 <= x < off1 + len data2) as Hmid.
  { intros x Hx. unfold held in Hx. rewrite Exists_exists in Hx. destruct Hx as (s & Hin & Hx).
    apply list_elem_of_In, list_elem_of_lookup in Hin as [k Hk]. apply lookup_take_Some in Hk as [Hk Hkj].
    rewrite lookup_drop in Hk. pose proof (Hge (i + k)%nat s ltac:(lia) Hk).
    assert (seg_end s <= off1 + len data2); [|lia]. destruct Hend2 as [->|(t & Ht & ->)].
    - rewrite Forall_lookup in Hcov. apply (Hcov k). apply lookup_take_Some. rewrite lookup_drop. auto.
    - apply (segs_lookup _ _ _ _ _ _ Hw Hk Ht). lia. }
  pose proof (store_spec _ segs i j off1 data2 limit Hw ltac:(lia) Hlo ltac:(lia) Ha2 Hl2) as Hst.
  destruct (store segs i j off1 data2 limit) as [segs'|].
  - destruct Hst as (a & -> & Hwa & Hlast & Hheld & Hbytes & Hcount & Hlim). unfold pushed. cbn [fst snd offset segments].
    splits; auto.
    + split; cbn [offset segments buffered].
      * apply segs_ok_app. split; [exact Hwa|]. rewrite Hlast.
        destruct (drop j segs) as [|s rest] eqn:Ed; [exact I|].
        assert (segs !! j = Some s) as Es by (rewrite <- (Nat.add_0_r j), <- lookup_drop, Ed; reflexivity).
        rewrite <- (take_drop j segs), segs_ok_app, Ed in Hw. destruct Hw as [_ (_ & H1 & H2 & H3)].
        cbn. splits; auto.
      * rewrite Hb, (bytesOf_split i j segs), bytesOf_app by lia. fold segs. lia.
    + intros x. fold segs. rewrite held_app, Hheld, (held_split i j segs) by lia. specialize (Hmid x). split.
      * intros [[?|?]|?]; [auto|right; lia|auto].
      * intros [[?|[?|?]]|Hx]; auto. destruct (Z.lt_ge_cases x off1) as [H1|H1].
        -- assert (held segs x) as Hs by (apply Hfront; lia). rewrite (held_split i j) in Hs by lia. tauto.
        -- destruct (Z.lt_ge_cases x (off1 + len data2)); [left; right; lia|].
           assert (held segs x) as Hs by (apply Hbk; lia). rewrite (held_split i j) in Hs by lia. tauto.
  - destruct Hst as [Hlim <-]. unfold pushed. rewrite Nat.sub_diag. cbn [take bytesOf foldr]. rewrite Z.sub_0_r.
    cbn [fst snd]. replace (mkRecv (offset r) segs (buffered r)) with r by (now destruct r).
    splits; auto; [now split|lia|lia].
Qed.

Lemma push_spec r off data limit :
  ok r -> agrees off data ->
  let p := push r off data limit in
  ok p.1 /\ offset p.1 = offset r /\ len (segments p.1) <= len (segments r) + 1 /\
  (len (segments r) < len (segments p.1) -> len (segments r) < limit) /\
  if p.2 then forall x, offset r <= x -> held (segments p.1) x <-> held (segments r) x \/ off <= x < off + len data
  else p.1 = r /\ limit <= len (segments r).
Proof.
  intros Hok Ha. unfold push. pose proof (len_nonneg data) as Hl.
  destruct (Z.leb_spec (off + len data) (offset r)) as [|Hend]; cbn [orb].
  { cbn. splits; auto; [lia|lia|]. intros x Hx. intuition lia. }
  destruct (Z.eqb_spec (len data) 0); [cbn; splits; auto; [lia|lia|]; intros x Hx; intuition lia|].
  destruct (Z.ltb_spec off (offset r)) as [Hlt|Hge]; cbv beta iota zeta.
  - destruct (insertData_spec r (offset r) (off + len data) (zdrop (offset r - off) data) limit)
      as (Hok' & Ho & Hc & Hcl & Hp); auto; try lia.
    + replace (offset r) with (off + (offset r - off)) at 1 by lia. apply agrees_drop; [lia|exact Ha].
    + rewrite len_zdrop by lia. lia.
    + set (p := insertData _ _ _ _ _) in *. splits; auto. destruct p.2; [|exact Hp].
      intros x Hx. rewrite Hp. intuition lia.
  - destruct (insertData_spec r off (off + len data) data limit) as (Hok' & Ho & Hc & Hcl & Hp); auto; try lia.
    set (p := insertData _ _ _ _ _) in *. splits; auto. destruct p.2; [|exact Hp]. intros x _. apply Hp.
Qed.

(** ** Delivery *)

Lemma pop_spec r :
  ok r ->
  match pop r with
  | (None, r') => r' = r /\ ~ held (segments r) (offset r)
  | (Some chunk, r') =>
      ok r' /\ agrees (offset r) chunk /\ offset r + len chunk = offset r' /\ offset r < offset r' /\
      (length (segments r') < length (segments r))%nat /\
      forall x, offset r <= x -> held (segments r) x <-> x < offset r' \/ held (segments r') x
  end.
Proof.
  intros [Hw Hb]. unfold pop. destruct (segments r) as [|s rest] eqn:Es; [split; [reflexivity|apply held_nil]|].
  destruct Hw as (Hs & Hl & Ha & Hw). destruct (Z.ltb_spec (offset r) (seg_off s)) as [Hgap|Hin].
  - split; [reflexivity|]. intros [Hx|Hx]%held_cons; [lia|]. apply (held_ge _ _ _ Hw) in Hx. unfold seg_end in *. lia.
  - assert (seg_off s = offset r) as E by lia. rewrite E, Z.sub_diag. change (zdrop 0 (seg_data s)) with (seg_data s).
    cbn [offset segments]. unfold seg_end in *. splits; try lia.
    + split; cbn [offset segments buffered]; [exact Hw|]. rewrite Hb. unfold bytesOf. cbn [foldr]. lia.
    + now rewrite <- E.
    + cbn. lia.
    + intros x Hx. rewrite held_cons. unfold seg_end. intuition lia.
Qed.

Lemma popAll_spec fuel r out b :
  ok r -> (length (segments r) < fuel)%nat -> agrees b out -> b + len out = offset r ->
  let '(out', r') := popAll fuel r out in
  ok r' /\ agrees b out' /\ b + len out' = offset r' /\ offset r <= offset r' /\
  (length (segments r') <= length (segments r))%nat /\ ~ held (segments r') (offset r') /\
  forall x, offset r <= x -> held (segments r) x <-> x < offset r' \/ held (segments r') x.
Proof.
  revert r out. induction fuel as [|fuel IH]; intros r out Hok Hf Ha Hl; [lia|]. cbn [popAll].
  pose proof (pop_spec r Hok) as Hp. destruct (pop r) as [[chunk|] r1].
  - destruct Hp as (Hok1 & Hc & Ho & Hlt & Hn & Hh).
    specialize (IH r1 (out ++ chunk) Hok1 ltac:(lia)). destruct (popAll fuel r1 (out ++ chunk)) as [out' r'].
    destruct IH as (Hok' & Ha' & Hl' & Ho' & Hn' & Hgap & Hh').
    + apply agrees_app; [exact Ha|]. now rewrite Hl.
    + rewrite len_app. lia.
    + splits; auto; try lia. intros x Hx. rewrite Hh by lia. destruct (Z.lt_ge_cases x (offset r1)) as [H1|H1].
      * split; [intros _; left; lia|intros _; now left].
      * rewrite Hh' by lia. intuition lia.
  - destruct Hp as [-> Hgap]. splits; auto; try lia. intros x Hx. intuition lia.
Qed.

(** The data of a frame that continues the stream goes on at once, the rest
    waits. *)
Lemma take_spec r off data limit :
  ok r -> agrees off data ->
  match take_ r off data limit with
  | (first, r', true) =>
      ok r' /\ agrees (offset r) (default [] first) /\ offset r + len (default [] first) = offset r' /\
      len (segments r') <= len (segments r) + 1 /\
      forall x, offset r <= x ->
        (x < offset r' \/ held (segments r') x) <-> held (segments r) x \/ off <= x < off + len data
  | (first, r', false) => first = None /\ r' = r /\ limit <= len (segments r)
  end.
Proof.
  intros Hok Ha. unfold take_. destruct (Z.ltb_spec 0 (len (segments r))) as [Hs|Hs]; cbn [orb];
    [|destruct (Z.ltb_spec (offset r) off) as [Hgap|Hnext]].
  1,2: pose proof (push_spec r off data limit Hok Ha) as (Hok' & Ho & Hc & _ & Hp);
    destruct (push r off data limit) as [r' []]; cbn [fst snd] in *;
    [splits; auto; [now intros k d Hk|change (len (default [] None)) with 0; lia|intros x Hx; rewrite <- (Hp x Hx), Ho; intuition lia]|
     destruct Hp; splits; auto].
  assert (segments r = []) as Es by (destruct (segments r); [reflexivity|unfold len in Hs; cbn in Hs; lia]).
  destruct (Z.leb_spec (off + len data) (offset r)) as [Hold|Hnew].
  - rewrite Es. splits; auto; [now intros k d Hk|change (len (default [] None)) with 0; lia|lia|]. intros x Hx. pose proof (held_nil x). intuition lia.
  - cbn [default offset segments]. rewrite Es. splits.
    + split; cbn [offset segments buffered]; [exact I|]. rewrite (ok_buffered _ Hok), Es. reflexivity.
    + replace (offset r) with (off + (offset r - off)) at 1 by lia. apply agrees_drop; [lia|exact Ha].
    + cbn [id]. rewrite len_zdrop by lia. lia.
    + lia.
    + intros x Hx. pose proof (held_nil x). intuition lia.
Qed.

(** A stream's frames in the order they arrive: what they deliver in all. *)
Fixpoint deliverAll (r : recvBuffer) (frames : list (Z * bytes)) (limit : Z) (out : bytes) : option (bytes * recvBuffer) :=
  match frames with
  | [] => Some (out, r)
  | (off, data) :: frames =>
      match onFrame r off data limit with
      | None => None
      | Some (chunk, r) => deliverAll r frames limit (out ++ chunk)
      end
  end.

Definition arrived (frames : list (Z * bytes)) (x : Z) : Prop :=
  Exists (fun f => f.1 <= x < f.1 + len f.2) frames.

(** Between frames: [out] has been delivered, of the frames [done]. *)
Record between (done : Z -> Prop) (r : recvBuffer) (out : bytes) : Prop := {
  bt_ok : ok r;
  bt_out : agrees 0 out;
  bt_len : len out = offset r;
  bt_gap : ~ held (segments r) (offset r);
  bt_all : forall x, 0 <= x -> x < offset r \/ held (segments r) x <-> done x
}.

Lemma onFrame_between done r out off data limit :
  between done r out -> agrees off data -> len (segments r) < limit ->
  exists chunk r', onFrame r off data limit = Some (chunk, r') /\
    between (fun x => done x \/ off <= x < off + len data) r' (out ++ chunk) /\ len (segments r') <= len (segments r) + 1.
Proof.
  intros [Hok Hout Hlen Hgap Hall] Ha Hlim. unfold onFrame.
  pose proof (take_spec r off data limit Hok Ha) as Ht.
  destruct (take_ r off data limit) as [[first r1] []]; [|lia].
  destruct Ht as (Hok1 & Ha1 & Hl1 & Hc1 & Hh1).
  pose proof (popAll_spec (S (length (segments r1))) r1 (default [] first) (offset r) Hok1 ltac:(lia) Ha1 Hl1) as Hp.
  destruct (popAll _ r1 _) as [chunk r2]. destruct Hp as (Hok2 & Ha2 & Hl2 & Ho2 & Hc2 & Hgap2 & Hh2).
  exists chunk, r2. pose proof (len_nonneg chunk). pose proof (len_nonneg (default [] first)).
  splits; auto; [|unfold len in *; lia]. split; auto.
  - apply agrees_app; [exact Hout|]. now rewrite Hlen.
  - rewrite len_app. lia.
  - intros x Hx. rewrite <- Hall by exact Hx. destruct (Z.lt_ge_cases x (offset r)) as [H1|H1]; [split; intros; lia|].
    specialize (Hh1 x H1). destruct (Z.lt_ge_cases x (offset r1)) as [H2|H2].
    + split; [intros _|left; lia]. destruct Hh1 as [Hh1 _]. destruct Hh1; auto.
    + rewrite <- Hh2 by exact H2. intuition lia.
Qed.

Lemma deliverAll_between frames done r out limit :
  between done r out -> Forall (fun f => agrees f.1 f.2) frames -> len (segments r) + len frames <= limit ->
  exists out' r', deliverAll r frames limit out = Some (out', r') /\
    between (fun x => done x \/ arrived frames x) r' out'.
Proof.
  intros Hb Hf. revert done r out Hb. induction Hf as [|[off data] frames Ha Hf IH]; intros done r out Hb Hl; cbn [deliverAll].
  - exists out, r. split; [reflexivity|]. destruct Hb as [? ? ? ? Hall]. split; auto. intros x Hx. rewrite Hall by exact Hx.
    unfold arrived. rewrite Exists_nil. tauto.
  - rewrite len_cons in Hl. pose proof (len_nonneg frames).
    destruct (onFrame_between done r out off data limit Hb Ha ltac:(lia)) as (chunk & r1 & -> & Hb1 & Hc1).
    destruct (IH _ r1 (out ++ chunk) Hb1 ltac:(lia)) as (out' & r' & E & Hb'). exists out', r'. split; [exact E|].
    destruct Hb' as [? ? ? ? Hall]. split; auto. intros x Hx. rewrite Hall by exact Hx.
    unfold arrived. rewrite Exists_cons. cbn. tauto.
Qed.

(** ** Properties *)

(** However a stream's frames are cut, repeated, overlapped and ordered, what
    a new buffer delivers is the stream: the bytes from 0 on, in order and once,
    up to the first byte that has not arrived. No frame is refused while there
    are no more frames than the limit of segments. *)
Theorem recv_delivers (frames : list (Z * bytes)) (limit : Z) :
  Forall (fun f => agrees f.1 f.2) frames -> len frames <= limit ->
  exists out r, deliverAll (mkRecv 0 [] 0) frames limit [] = Some (out, r) /\
    agrees 0 out /\ (forall x, 0 <= x < len out -> arrived frames x) /\ ~ arrived frames (len out).
Proof.
  intros Hf Hl. destruct (deliverAll_between frames (fun _ => False) (mkRecv 0 [] 0) [] limit) as (out & r & E & [Hok Ho Hlen Hgap Hall]).
  - split; try reflexivity; [now split|now intros k d Hk|apply held_nil|].
    intros x Hx. cbn. pose proof (held_nil x). intuition lia.
  - exact Hf.
  - change (len (segments (mkRecv 0 [] 0))) with 0. lia.
  - exists out, r. splits; auto.
    + intros x Hx. assert (0 <= x) as H0 by lia. assert (x < offset r) as H1 by lia.
      destruct (proj1 (Hall x H0) (or_introl H1)) as [[]|]. assumption.
    + intros Hx. destruct (proj2 (Hall (len out) (len_nonneg out)) (or_intror Hx)) as [H|H]; [lia|].
      apply Hgap. now rewrite <- Hlen.
Qed.

(** Push on a buffer with its invariant (segments ascending, disjoint, past
    what was delivered, their bytes counted) keeps it: the bytes held are those
    that were and the frame's, each held once; or the frame is refused, nothing
    has changed, and the buffer was at its limit of segments. *)
Theorem push_ok (r : recvBuffer) (off : Z) (data : bytes) (limit : Z) :
  ok r -> agrees off data ->
  let p := push r off data limit in
  ok p.1 /\ offset p.1 = offset r /\
  (len (segments r) < len (segments p.1) -> len (segments r) < limit) /\
  if p.2 then forall x, offset r <= x -> held (segments p.1) x <-> held (segments r) x \/ off <= x < off + len data
  else p.1 = r /\ limit <= len (segments r).
Proof.
  intros Hok Ha. destruct (push_spec r off data limit Hok Ha) as (H1 & H2 & _ & H3 & H4). exact (conj H1 (conj H2 (conj H3 H4))).
Qed.

(** What a buffer counts as buffered is at most the bytes between what was
    delivered and the highest byte that arrived, which the receive window
    bounds. *)
Theorem buffered_bounded (r : recvBuffer) (top : Z) :
  ok r -> (forall x, held (segments r) x -> x < top) -> offset r <= top -> 0 <= buffered r <= top - offset r.
Proof.
  intros [Hw ->] Htop. revert Hw. generalize (offset r). induction (segments r) as [|s rest IH]; intros from Hw Hle; [cbn; lia|].
  destruct Hw as (Hs & Hl & _ & Hw). unfold bytesOf in *. cbn [foldr].
  assert (seg_end s <= top) as He.
  { specialize (Htop (seg_end s - 1)). rewrite held_cons in Htop. unfold seg_end in *. lia. }
  specialize (IH (fun x Hx => Htop x (proj2 (held_cons _ _ _) (or_intror Hx))) (seg_end s) Hw He).
  unfold seg_end in *. lia.
Qed.

End Stream.

(** ** Witnesses *)

Definition testContent (x : Z) : Z := x mod 256.

Lemma recv_delivers_witness :
  exists out r, deliverAll (mkRecv 0 [] 0) [(4, [4; 5]); (2, [2; 3; 4]); (0, [0; 1; 2]); (8, [8])] 1024 [] = Some (out, r) /\
    agrees testContent 0 out /\
    (forall x, 0 <= x < len out -> arrived [(4, [4; 5]); (2, [2; 3; 4]); (0, [0; 1; 2]); (8, [8])] x) /\
    ~ arrived [(4, [4; 5]); (2, [2; 3; 4]); (0, [0; 1; 2]); (8, [8])] (len out).
Proof.
  apply (recv_delivers testContent [(4, [4; 5]); (2, [2; 3; 4]); (0, [0; 1; 2]); (8, [8])] 1024).
  - repeat (apply List.Forall_cons; [intros [|[|[|k]]] d; cbn; intros E; try discriminate; injection E as <-; reflexivity|]).
    apply List.Forall_nil.
  - unfold len. cbn. lia.
Defined.

Definition testBuffer : recvBuffer := mkRecv 2 [mkSeg 4 [4; 5]] 2.

Lemma testBuffer_ok : ok testContent testBuffer.
Proof.
  split; [|reflexivity]. cbn. splits; auto; try (unfold len; cbn; lia).
  intros [|[|k]] d; cbn; intros E; try discriminate; injection E as <-; reflexivity.
Qed.

Lemma push_ok_witness :
  let p := push testBuffer 3 [3; 4; 5; 6] 4 in
  ok testContent p.1 /\ offset p.1 = offset testBuffer /\
  (len (segments testBuffer) < len (segments p.1) -> len (segments testBuffer) < 4) /\
  if p.2 then forall x, offset testBuffer <= x ->
    held (segments p.1) x <-> held (segments testBuffer) x \/ 3 <= x < 3 + len [3; 4; 5; 6]
  else p.1 = testBuffer /\ 4 <= len (segments testBuffer).
Proof.
  apply (push_ok testContent testBuffer 3 [3; 4; 5; 6] 4); [exact testBuffer_ok|].
  intros [|[|[|[|k]]]] d; cbn; intros E; try discriminate; injection E as <-; reflexivity.
Defined.

Lemma buffered_bounded_witness : 0 <= buffered testBuffer <= 6 - offset testBuffer.
Proof.
  apply (buffered_bounded testContent testBuffer 6); [exact testBuffer_ok| |cbn; lia].
  intros x [Hx|Hx]%held_cons; [unfold seg_end, len in Hx; cbn in Hx; lia|now apply held_nil in Hx].
Defined.

End Recv.
