(* ===== verification/QuicSend.v ===== *)
(** * The send buffer (src/http3/quic/buffer.go: sendBuffer)

    What a stream has been given to send, until the peer acknowledges it: runs
    of bytes, the offsets acknowledged and sent up to, and the ranges to send
    again. It is shown to hand out the stream's own bytes only, and to keep
    every byte it has handed out until that byte is acknowledged, queued to be
    sent again, or still in flight. Offsets are below 2^62, so the uint64 sums
    do not wrap. *)

From S2P Require Import Prelude QuicRanges.
From stdpp Require Import base list numbers.
From stdpp Require relations.
From Stdlib Require Import ZArith Lia.

Local Open Scope Z_scope.

Module Send.
Import Ranges.

(** ** Data *)

(** [pooled] is whether [mem] is set: the run is in a buffer of the pool. Which
    buffer, and how large, changes nothing the send buffer hands out. *)
Record sendPiece : Type := mkPiece { p_off : Z; p_data : bytes; p_pooled : bool }.

Definition p_end (p : sendPiece) : Z := p_off p + len (p_data p).

Record sendBuffer : Type := mkSend {
  base : Z;
  size : Z;
  pieces : list sendPiece;
  cur : nat;
  next : Z;
  lost : list span;
  acked : list span
}.

Definition newSend : sendBuffer := mkSend 0 0 [] 0 0 [] [].

Definition end_ (b : sendBuffer) : Z := base b + size b.

(** Assignments to some of the fields. *)
Definition set_pieces (b : sendBuffer) (ps : list sendPiece) (sz : Z) : sendBuffer :=
  mkSend (base b) sz ps (cur b) (next b) (lost b) (acked b).
Definition set_lost (b : sendBuffer) (l : list span) : sendBuffer :=
  mkSend (base b) (size b) (pieces b) (cur b) (next b) l (acked b).
Definition set_acked (b : sendBuffer) (a : list span) : sendBuffer :=
  mkSend (base b) (size b) (pieces b) (cur b) (next b) (lost b) a.

(** ** Writing *)

Definition addPiece (b : sendBuffer) (p : sendPiece) : sendBuffer :=
  set_pieces b (pieces b ++ [p]) (size b).

(** Into the last run where that is the pool's, in place or in a larger buffer,
    or as a run of its own. *)
Definition write (b : sendBuffer) (p : bytes) : sendBuffer :=
  if len p =? 0 then b
  else
    match list.last (pieces b) with
    | Some t =>
        if p_pooled t then
          set_pieces b (<[(length (pieces b) - 1)%nat := mkPiece (p_off t) (p_data t ++ p) true]> (pieces b)) (size b + len p)
        else
          let b := addPiece b (mkPiece (end_ b) p true) in set_pieces b (pieces b) (size b + len p)
    | None => let b := addPiece b (mkPiece (end_ b) p true) in set_pieces b (pieces b) (size b + len p)
    end.

Definition adopt (b : sendBuffer) (p : bytes) : sendBuffer :=
  if len p =? 0 then b
  else let b := addPiece b (mkPiece (end_ b) p true) in set_pieces b (pieces b) (size b + len p).

Record Part : Type := mkPart { Data : bytes; Owned : bool }.

Fixpoint writeParts (b : sendBuffer) (parts : list Part) : sendBuffer :=
  match parts with
  | [] => b
  | p :: parts =>
      if len (Data p) =? 0 then writeParts b parts
      else
        let b := addPiece b (mkPiece (end_ b) (Data p) (Owned p)) in
        writeParts (set_pieces b (pieces b) (size b + len (Data p))) parts
  end.

(** ** Sending *)

(** [for len(b.lost) > 0 && b.lost[0].end <= b.base]. *)
Fixpoint skipLost (l : list span) (base : Z) : list span :=
  match l with
  | s :: rest => if s_end s <=? base then skipLost rest base else l
  | [] => []
  end.

Definition hasLost (b : sendBuffer) : sendBuffer * bool :=
  let l := skipLost (lost b) (base b) in (set_lost b l, negb (len l =? 0)).

Fixpoint runAt (ps : list sendPiece) (off : Z) : bytes :=
  match ps with
  | p :: ps => if off <? p_end p then zdrop (off - p_off p) (p_data p) else runAt ps off
  | [] => []
  end.

(** [for b.hasLost()]: each turn takes a range off the list or returns, so one
    turn more than ranges is enough. *)
Fixpoint popLostLoop (fuel : nat) (b : sendBuffer) (n : Z) : option (Z * bytes * sendBuffer) :=
  match fuel with
  | O => None
  | S fuel =>
      let '(b, more) := hasLost b in
      if negb more then Some (0, [], b)
      else
        match lost b with
        | [] => Some (0, [], b)
        | s :: rest =>
            let off := Z.max (s_off s) (base b) in
            let data := runAt (pieces b) off in
            if len data =? 0 then popLostLoop fuel (set_lost b rest) n
            else
              let data := if n <? len data then ztake n data else data in
              let data := if s_end s - off <? len data then ztake (s_end s - off) data else data in
              let off' := off + len data in
              let l := if s_end s <=? off' then rest else mkSpan off' (s_end s) :: rest in
              if 0 <? len data then Some (off, data, set_lost b l)
              else popLostLoop fuel (set_lost b l) n
        end
  end.

Definition popLost (b : sendBuffer) (n : Z) : option (Z * bytes * sendBuffer) :=
  if n =? 0 then Some (0, [], b) else popLostLoop (S (length (lost b))) b n.

(** [for b.cur < len(b.pieces) && ... <= off]: the pieces from [cur] on. *)
Fixpoint seekCur (c : nat) (ps : list sendPiece) (off : Z) : nat :=
  match ps with
  | p :: ps => if p_end p <=? off then seekCur (S c) ps off else c
  | [] => c
  end.

Definition popNew (b : sendBuffer) (n : Z) : Z * bytes * sendBuffer :=
  let off := next b in
  if (end_ b <=? off) || (n =? 0) then (off, [], b)
  else
    let c := seekCur (cur b) (drop (cur b) (pieces b)) off in
    let b := mkSend (base b) (size b) (pieces b) c (next b) (lost b) (acked b) in
    match pieces b !! c with
    | None => (off, [], b)
    | Some p =>
        let data := zdrop (off - p_off p) (p_data p) in
        let data := if n <? len data then ztake n data else data in
        (off, data, mkSend (base b) (size b) (pieces b) c (off + len data) (lost b) (acked b))
    end.

(** ** Acknowledgement and loss *)

(** [for drop < len(b.pieces)]: the runs that end by [off]. *)
Fixpoint countDone (ps : list sendPiece) (off : Z) : nat :=
  match ps with
  | p :: ps => if off <? p_end p then O else S (countDone ps off)
  | [] => O
  end.

Definition dropTo (b : sendBuffer) (off : Z) : sendBuffer :=
  let n := countDone (pieces b) off in
  let ps := drop n (pieces b) in
  let c := (cur b - n)%nat in
  let ps := match ps with
    | p :: rest => if p_off p <? off then mkPiece off (zdrop (off - p_off p) (p_data p)) (p_pooled p) :: rest else ps
    | [] => ps
    end in
  mkSend off (size b - Z.min (off - base b) (size b)) ps (if (length ps =? 0)%nat then O else c) (next b) (lost b) (acked b).

Definition ackTo (b : sendBuffer) (newBase : Z) : sendBuffer :=
  let newBase := if end_ b <? newBase then end_ b else newBase in
  if newBase <=? base b then b else dropTo b newBase.

Definition onAck (b : sendBuffer) (off n : Z) : sendBuffer :=
  if (len (acked b) =? 0) && (off <=? base b) then ackTo b (off + n)
  else
    let b := set_acked b (addSpan (acked b) (mkSpan off (off + n))) in
    match acked b with
    | [] => b
    | s :: rest => if base b <? s_off s then b else ackTo (set_acked b rest) (s_end s)
    end.

Definition onLost (b : sendBuffer) (off n : Z) : sendBuffer :=
  let e := off + n in
  let off := Z.max off (base b) in
  if e <=? off then b else set_lost b (addSpan (lost b) (mkSpan off e)).

Definition allAcked (b : sendBuffer) : bool := len (pieces b) =? 0.

Definition release (b : sendBuffer) : sendBuffer := mkSend (next b) 0 [] 0 (next b) [] [].

(** ** The runs *)

Section Stream.
Context (content : Z -> Z).

(** Each run continues where the one before it ends, with the stream's bytes. *)
Fixpoint chain (from : Z) (ps : list sendPiece) : Prop :=
  match ps with
  | [] => True
  | p :: rest => p_off p = from /\ 0 < len (p_data p) /\ agrees content from (p_data p) /\ chain (p_end p) rest
  end.

Fixpoint chain_end (from : Z) (ps : list sendPiece) : Z :=
  match ps with [] => from | p :: rest => chain_end (p_end p) rest end.

Lemma chain_app from a b : chain from (a ++ b) <-> chain from a /\ chain (chain_end from a) b.
Proof. revert from. induction a as [|p a IH]; intros from; cbn; [tauto|]. rewrite IH. tauto. Qed.

Lemma chain_end_app from a b : chain_end from (a ++ b) = chain_end (chain_end from a) b.
Proof. revert from. induction a as [|p a IH]; intros from; cbn; auto. Qed.

Lemma chain_end_ge from ps : chain from ps -> from <= chain_end from ps.
Proof.
  revert from. induction ps as [|p ps IH]; intros from; cbn; [lia|]. intros (<- & ? & _ & H). apply IH in H.
  unfold p_end in *. lia.
Qed.

Lemma runAt_spec from ps off :
  chain from ps -> from <= off < chain_end from ps ->
  agrees content off (runAt ps off) /\ 0 < len (runAt ps off) /\ off + len (runAt ps off) <= chain_end from ps.
Proof.
  revert from. induction ps as [|p ps IH]; intros from; cbn; [lia|]. intros (Hoff & Hl & Ha & Hc) Hx.
  pose proof (chain_end_ge _ _ Hc) as He. destruct (Z.ltb_spec off (p_end p)) as [Hin|Hout]; [|apply IH; auto; lia].
  unfold p_end in *. rewrite len_zdrop by lia. splits; [|lia|lia].
  replace off with (p_off p + (off - p_off p)) at 1 by lia. apply agrees_drop; [lia|]. now rewrite Hoff.
Qed.

Lemma seekCur_spec c ps off from :
  chain from ps -> from <= off < chain_end from ps ->
  exists p k, seekCur c ps off = (c + k)%nat /\ ps !! k = Some p /\ p_off p <= off < p_end p /\
    agrees content (p_off p) (p_data p) /\ p_end p <= chain_end from ps /\
    forall i q, (i < k)%nat -> ps !! i = Some q -> p_end q <= off.
Proof.
  revert from c. induction ps as [|p ps IH]; intros from c; cbn; [lia|]. intros (Hoff & Hl & Ha & Hc) Hx.
  pose proof (chain_end_ge _ _ Hc) as He. destruct (Z.leb_spec (p_end p) off) as [Hout|Hin].
  - destruct (IH (p_end p) (S c) Hc ltac:(lia)) as (q & k & -> & Hq & Hr & Haq & Heq & Hb). exists q, (S k).
    splits; auto; try lia. intros [|i] q' Hi E; [injection E as <-; lia|]. apply (Hb i); [lia|exact E].
  - exists p, 0%nat. rewrite Hoff. splits; auto; try lia.
Qed.

(** ** The invariant *)

Record sok (b : sendBuffer) : Prop := {
  so_chain : chain (base b) (pieces b);
  so_end : chain_end (base b) (pieces b) = end_ b;
  so_next : 0 <= base b <= next b /\ next b <= end_ b;
  so_cur : (cur b = 0 \/ cur b < length (pieces b))%nat /\ forall i p, (i < cur b)%nat -> pieces b !! i = Some p -> p_end p <= next b;
  so_lost : wf 0 (lost b) /\ Forall (fun s => s_end s <= next b) (lost b);
  so_acked : wf 0 (acked b) /\ Forall (fun s => s_end s <= next b) (acked b);
  so_base : forall x, mem (acked b) x -> base b < x
}.

Definition ackedSet (b : sendBuffer) (x : Z) : Prop := x < base b \/ mem (acked b) x.

Lemma newSend_ok : sok newSend.
Proof.
  split; [exact I|reflexivity|unfold end_; cbn; lia|split; [now left|cbn; lia]| | |intros x Hx; now apply mem_nil in Hx];
    (split; [exact I|apply List.Forall_nil]).
Qed.

(** A run more at the end. *)
Lemma add_ok b p pooled :
  sok b -> agrees content (end_ b) p -> 0 < len p ->
  let b' := set_pieces (addPiece b (mkPiece (end_ b) p pooled)) (pieces (addPiece b (mkPiece (end_ b) p pooled))) (size b + len p) in
  sok b' /\ end_ b' = end_ b + len p.
Proof.
  intros [Hc He Hn Hcur Hl Ha Hb] Hp Hlen. unfold addPiece, set_pieces, end_ in *. cbn [base size pieces cur next lost acked].
  split; [split|]; unfold end_; cbn [base size pieces cur next lost acked]; auto; try lia.
  - apply chain_app. split; [exact Hc|]. rewrite He. cbn. auto.
  - rewrite chain_end_app, He. cbn. unfold p_end, end_. cbn. lia.
  - destruct Hcur as [Hlc Hcur]. split; [rewrite length_app; cbn; lia|].
    intros i q Hi Hq. rewrite lookup_app_l in Hq by lia. eauto.
Qed.

(** Bytes more at the end of the last run. *)
Lemma grow_ok b t p :
  sok b -> agrees content (end_ b) p -> 0 < len p -> list.last (pieces b) = Some t ->
  let b' := set_pieces b (<[(length (pieces b) - 1)%nat := mkPiece (p_off t) (p_data t ++ p) true]> (pieces b)) (size b + len p) in
  sok b' /\ end_ b' = end_ b + len p.
Proof.
  intros [Hc He Hn Hcur Hl Ha Hb] Hp Hlen Hlast. apply last_Some in Hlast as [ps Eps].
  unfold end_ in *. cbn [set_pieces base size]. rewrite Eps in *.
  rewrite length_app. cbn [length]. replace (length ps + 1 - 1)%nat with (length ps + 0)%nat by lia.
  rewrite insert_app_r. cbn [insert list_insert].
  apply chain_app in Hc as [Hc (Ht1 & Ht2 & Ht3 & _)]. rewrite chain_end_app in He. cbn in He.
  assert (p_off t + len (p_data t) = base b + size b) as Ee by (unfold p_end in He; exact He).
  split; [split|]; unfold end_, set_pieces; cbn [base size pieces cur next lost acked]; auto; try lia.
  - apply chain_app. split; [exact Hc|]. cbn. rewrite len_app. splits; auto; [lia|].
    apply agrees_app; [exact Ht3|]. now rewrite <- Ht1, Ee.
  - rewrite chain_end_app. cbn. unfold p_end, end_. cbn. rewrite len_app. lia.
  - destruct Hcur as [Hlc Hcur]. split; [rewrite length_app in *; cbn in *; lia|].
    intros i q Hi Hq. rewrite length_app in Hlc. cbn in Hlc. rewrite lookup_app_l in Hq by lia.
    apply (Hcur i q Hi). now rewrite lookup_app_l by lia.
Qed.

(** Everything written is the stream's, and goes at its end. *)
Lemma write_ok b p : sok b -> agrees content (end_ b) p -> sok (write b p) /\ end_ (write b p) = end_ b + len p.
Proof.
  intros Hok Hp. pose proof (len_nonneg p). unfold write. destruct (Z.eqb_spec (len p) 0); [split; [exact Hok|lia]|].
  destruct (list.last (pieces b)) as [t|] eqn:El; [destruct (p_pooled t)|].
  - apply grow_ok; auto; lia.
  - exact (add_ok b p true Hok Hp ltac:(lia)).
  - exact (add_ok b p true Hok Hp ltac:(lia)).
Qed.

Lemma adopt_ok b p : sok b -> agrees content (end_ b) p -> sok (adopt b p) /\ end_ (adopt b p) = end_ b + len p.
Proof.
  intros Hok Hp. pose proof (len_nonneg p). unfold adopt. destruct (Z.eqb_spec (len p) 0); [split; [exact Hok|lia]|].
  exact (add_ok b p true Hok Hp ltac:(lia)).
Qed.

Lemma writeParts_ok parts b :
  sok b -> agrees content (end_ b) (mjoin (Data <$> parts)) ->
  sok (writeParts b parts) /\ end_ (writeParts b parts) = end_ b + len (mjoin (Data <$> parts)).
Proof.
  revert b. induction parts as [|p parts IH]; intros b Hok Ha; cbn [writeParts].
  - cbn. change (len []) with 0. split; [exact Hok|lia].
  - cbn [fmap list_fmap mjoin list_join] in *. rewrite len_app.
    destruct (Z.eqb_spec (len (Data p)) 0) as [H0|H0].
    + assert (Data p = []) as E by (destruct (Data p); [reflexivity|rewrite len_cons in H0; pose proof (len_nonneg l); lia]).
      rewrite E in *. cbn [app] in Ha. change (len []) with 0. rewrite Z.add_0_l. now apply IH.
    + pose proof (len_nonneg (Data p)).
      assert (agrees content (end_ b) (Data p)) as Hp.
      { rewrite <- (ztake_app (Data p) (mjoin (Data <$> parts))). now apply agrees_take. }
      destruct (add_ok b (Data p) (Owned p) Hok Hp ltac:(lia)) as [Hok' He'].
      cbn [addPiece set_pieces size pieces] in *.
      match goal with |- sok (writeParts ?x _) /\ _ => set (b' := x) in * end.
      destruct (IH b' Hok') as [H1 H2].
      * rewrite He'. rewrite <- (zdrop_app (Data p) (mjoin (Data <$> parts))). now apply agrees_drop.
      * split; [exact H1|]. rewrite H2, He'. now rewrite Z.add_assoc.
Qed.

(** ** Taking new bytes *)

Lemma popNew_spec b n :
  sok b -> 0 <= n ->
  let '(off, data, b') := popNew b n in
  sok b' /\ off = next b /\ agrees content off data /\ len data <= n /\ next b' = off + len data /\
  base b' = base b /\ end_ b' = end_ b /\ lost b' = lost b /\ acked b' = acked b /\
  (data = [] -> n = 0 \/ next b = end_ b).
Proof.
  intros Hok Hn. pose proof Hok as [Hc He Hnx [Hlc Hcur] Hl Ha Hb]. unfold popNew.
  destruct (Z.leb_spec (end_ b) (next b)) as [Hdone|Hmore]; cbn [orb].
  { change (len []) with 0. splits; auto using agrees_nil; lia. }
  destruct (Z.eqb_spec n 0) as [->|H0]; [change (len []) with 0; splits; auto using agrees_nil; lia|].
  set (c := seekCur _ _ _). cbn [pieces base size next lost acked].
  (* the pieces before [cur] are sent, so the search may start there *)
  assert (chain (chain_end (base b) (take (cur b) (pieces b))) (drop (cur b) (pieces b)) /\
    chain_end (base b) (take (cur b) (pieces b)) <= next b) as [Hcd Hle].
  { pose proof Hc as Hc'. rewrite <- (take_drop (cur b) (pieces b)), chain_app in Hc'. split; [apply Hc'|].
    destruct (cur b) as [|k] eqn:Ek; [rewrite take_0; cbn; lia|].
    destruct (pieces b !! k) as [q|] eqn:Eq; [|apply lookup_ge_None in Eq; lia].
    rewrite (take_S_r _ _ _ Eq), chain_end_app. cbn. apply (Hcur k q); [lia|exact Eq]. }
  destruct (seekCur_spec (cur b) _ (next b) _ Hcd) as (p & k & Ec & Hp & Hr & Hap & Hpe & Hbef).
  { split; [exact Hle|]. rewrite <- chain_end_app, take_drop. lia. }
  rewrite <- chain_end_app, take_drop, He in Hpe. rewrite lookup_drop in Hp. fold c in Ec.
  rewrite Ec, Hp. set (data0 := zdrop (next b - p_off p) (p_data p)).
  assert (agrees content (next b) data0) as Ha0.
  { replace (next b) with (p_off p + (next b - p_off p)) by lia. apply agrees_drop; [lia|exact Hap]. }
  assert (len data0 = p_end p - next b) as Hl0 by (unfold data0, p_end in *; rewrite len_zdrop; lia).
  set (data := if n <? len data0 then ztake n data0 else data0).
  assert (agrees content (next b) data /\ 0 < len data <= n /\ len data <= len data0) as (Had & Hld & Hld0).
  { unfold data. destruct (Z.ltb_spec n (len data0)); [rewrite len_ztake by lia|]; splits; auto using agrees_take; lia. }
  splits; auto; try lia.
  - split; unfold end_ in *; cbn [base size pieces cur next lost acked]; auto; try lia.
    + split; [apply lookup_lt_Some in Hp; lia|]. intros i q Hi Hq.
      destruct (decide (i < cur b)%nat); [pose proof (Hcur i q ltac:(lia) Hq); lia|].
      assert (p_end q <= next b); [|lia]. apply (Hbef (i - cur b)%nat); [lia|].
      rewrite lookup_drop. now replace (cur b + (i - cur b))%nat with i by lia.
    + destruct Hl as [Hl1 Hl2]. split; [exact Hl1|]. eapply Forall_impl; [|exact Hl2]. cbn. intros; lia.
    + destruct Ha as [Ha1 Ha2]. split; [exact Ha1|]. eapply Forall_impl; [|exact Ha2]. cbn. intros; lia.
  - intros E. rewrite E in Hld. change (len []) with 0 in Hld. lia.
Qed.

(** ** Taking lost bytes again *)

Lemma skipLost_spec l from b :
  wf from l -> wf from (skipLost l b) /\ (forall x, mem (skipLost l b) x -> mem l x) /\
  (forall x, b <= x -> mem l x -> mem (skipLost l b) x) /\
  (forall s rest, skipLost l b = s :: rest -> b < s_end s) /\
  (forall P, Forall P l -> Forall P (skipLost l b)).
Proof.
  revert from. induction l as [|s l IH]; intros from Hw; cbn [skipLost]; [splits; auto; discriminate|].
  destruct (Z.leb_spec (s_end s) b) as [Hle|Hgt].
  - destruct Hw as [Hs Hw]. destruct (IH _ Hw) as (H1 & H2 & H3 & H4 & H5). splits; auto.
    + eapply wf_weaken; [|exact H1]. lia.
    + intros x Hx. rewrite mem_cons. auto.
    + intros x Hx [?|?]%mem_cons; [lia|auto].
    + intros P HP. inversion HP; auto.
  - splits; auto. intros s' rest [= <- _]. exact Hgt.
Qed.

(** The first range there is to send again, or the front of it. *)
Lemma popLost_head b n s rest :
  sok b -> 0 < n -> skipLost (lost b) (base b) = s :: rest ->
  let off := Z.max (s_off s) (base b) in
  exists data, popLost b n = Some (off, data, set_lost b (if s_end s <=? off + len data then rest else mkSpan (off + len data) (s_end s) :: rest)) /\
    agrees content off data /\ 0 < len data <= n /\ off + len data <= s_end s.
Proof.
  intros Hok Hn El off. pose proof Hok as [Hc He Hnx Hcur [Hl1 Hl2] Ha Hb]. unfold popLost. rewrite (proj2 (Z.eqb_neq n 0)) by lia. cbn [popLostLoop hasLost].
  destruct (skipLost_spec _ _ (base b) Hl1) as (Hw & _ & _ & Hhead & Hall). specialize (Hall _ Hl2). rewrite El in *. specialize (Hhead s rest eq_refl). destruct Hw as [Hs Hw].
  inversion Hall as [|? ? Hse Hrest]; subst. assert ((len (s :: rest) =? 0) = false) as -> by (apply Z.eqb_neq; rewrite len_cons; pose proof (len_nonneg rest); lia).
  cbn [negb set_lost lost base pieces]. fold off. destruct (runAt_spec (base b) (pieces b) off Hc) as (Hra & Hrl & Hre); [unfold off; lia|].
  set (data0 := runAt (pieces b) off) in *. rewrite (proj2 (Z.eqb_neq _ _)) by lia.
  set (data1 := if n <? len data0 then ztake n data0 else data0).
  assert (agrees content off data1 /\ 0 < len data1 <= n) as [Ha1 Hl1'].
  { unfold data1. destruct (Z.ltb_spec n (len data0)); [rewrite len_ztake by lia|]; split; auto using agrees_take; lia. }
  set (data2 := if s_end s - off <? len data1 then ztake (s_end s - off) data1 else data1).
  assert (agrees content off data2 /\ 0 < len data2 <= n /\ off + len data2 <= s_end s) as (Ha2 & Hld2 & He2).
  { unfold data2. destruct (Z.ltb_spec (s_end s - off) (len data1)); [rewrite len_ztake by (unfold off in *; lia)|];
      splits; auto using agrees_take; unfold off in *; lia. }
  rewrite (proj2 (Z.ltb_lt 0 (len data2))) by lia. exists data2. splits; auto; lia.
Qed.

Lemma popLost_spec b n :
  sok b -> 0 <= n ->
  exists off data b', popLost b n = Some (off, data, b') /\ sok b' /\
  base b' = base b /\ next b' = next b /\ end_ b' = end_ b /\ acked b' = acked b /\
  agrees content off data /\ len data <= n /\
  (data = [] -> n = 0 \/ forall x, base b <= x -> ~ mem (lost b) x) /\
  0 <= off /\ off + len data <= next b /\ (data <> [] -> base b <= off) /\
  (forall x, off <= x < off + len data -> mem (lost b) x) /\
  (forall x, base b <= x -> mem (lost b) x -> mem (lost b') x \/ off <= x < off + len data).
Proof.
  intros Hok Hn. pose proof Hok as [Hc He Hnx Hcur [Hl1 Hl2] Ha Hb].
  destruct (Z.eqb_spec n 0) as [->|H0].
  { exists 0, [], b. change (len []) with 0. splits; auto using agrees_nil; try lia; intros; try contradiction; lia. }
  destruct (skipLost_spec _ _ (base b) Hl1) as (Hw & Hsub & Hsup & Hhead & Hall). specialize (Hall _ Hl2).
  assert (forall l', wf 0 l' -> Forall (fun s => s_end s <= next b) l' -> sok (set_lost b l')) as Hset by (intros; now split).
  destruct (skipLost (lost b) (base b)) as [|s rest] eqn:El.
  { exists 0, [], (set_lost b []). change (len []) with 0. split; [unfold popLost; rewrite (proj2 (Z.eqb_neq n 0)) by lia; cbn [popLostLoop hasLost]; now rewrite El|].
    splits; auto using agrees_nil; try lia; try (intros; lia); try contradiction.
    intros _. right. intros x Hx Hm. apply (Hsup x Hx) in Hm. now apply mem_nil in Hm. }
  specialize (Hhead s rest eq_refl). destruct Hw as [Hs Hw]. inversion Hall as [|? ? Hse Hrest]; subst.
  destruct (popLost_head b n s rest Hok ltac:(lia) El) as (data2 & E & Ha2 & Hld2 & He2). set (off := Z.max (s_off s) (base b)) in *.
  exists off, data2. eexists. split; [exact E|]. cbn [set_lost base next acked].
  splits; auto; try lia.
  - destruct (Z.leb_spec (s_end s) (off + len data2)).
    + apply (Hset rest); [eapply wf_weaken; [|exact Hw]; lia|exact Hrest].
    + apply (Hset (mkSpan (off + len data2) (s_end s) :: rest)).
      * cbn. split; [unfold off in *; lia|exact Hw].
      * constructor; [cbn; lia|exact Hrest].
  - intros E0. rewrite E0 in Hld2. change (len []) with 0 in Hld2. lia.
  - intros x Hx. apply Hsub. rewrite mem_cons. left. unfold off in *. lia.
  - intros x Hx Hm. apply (Hsup x Hx) in Hm. apply mem_cons in Hm as [Hm|Hm].
    + destruct (Z.lt_ge_cases x (off + len data2)); [right; unfold off in *; lia|]. left.
      cbn [lost]. rewrite (proj2 (Z.leb_gt _ _)) by lia. apply mem_cons. left. cbn. lia.
    + left. cbn [lost]. destruct (_ <=? _); [exact Hm|]. apply mem_cons. now right.
Qed.

(** ** Acknowledgements *)

Lemma countDone_spec from ps off :
  chain from ps -> from <= off <= chain_end from ps ->
  let n := countDone ps off in
  (n <= length ps)%nat /\ chain (chain_end from (take n ps)) (drop n ps) /\ chain_end from (take n ps) <= off /\
  (forall p, ps !! n = Some p -> off < p_end p).
Proof.
  revert from. induction ps as [|p ps IH]; intros from Hc Hx; cbn [countDone].
  { cbn in *. splits; auto; try lia; discriminate. }
  destruct Hc as (Ho & Hl & Ha & Hc). cbn in Hx. destruct (Z.ltb_spec off (p_end p)) as [Hin|Hout].
  - cbn. splits; auto; try lia. intros q [= <-]. exact Hin.
  - destruct (IH (p_end p) Hc ltac:(lia)) as (H1 & H2 & H3 & H4). cbn. splits; auto. lia.
Qed.

Lemma dropTo_ok b off :
  sok b -> base b < off <= end_ b -> off <= next b -> (forall x, mem (acked b) x -> off < x) ->
  sok (dropTo b off) /\ base (dropTo b off) = off /\ end_ (dropTo b off) = end_ b /\ next (dropTo b off) = next b /\
  lost (dropTo b off) = lost b /\ acked (dropTo b off) = acked b.
Proof.
  intros [Hc He Hnx [Hlc Hcur] Hl Ha Hb] Hoff Hon Hack. unfold dropTo.
  assert (0 <= size b) as Hsz by (pose proof (chain_end_ge _ _ Hc); unfold end_ in *; lia).
  destruct (countDone_spec (base b) (pieces b) off Hc ltac:(lia)) as (Hn & Hcd & Hle & Hnext).
  set (n := countDone (pieces b) off) in *.
  assert (chain_end (chain_end (base b) (take n (pieces b))) (drop n (pieces b)) = end_ b) as Hce
    by (rewrite <- chain_end_app, take_drop; exact He).
  set (ps := match drop n (pieces b) with p :: rest => _ | [] => drop n (pieces b) end).
  assert (chain off ps /\ chain_end off ps = end_ b /\ length ps = (length (pieces b) - n)%nat /\
    forall i q, ps !! i = Some q -> exists q', pieces b !! (n + i)%nat = Some q' /\ p_end q = p_end q') as (Hps & Hpe & Hpl & Hpq).
  { unfold ps. pose proof (length_drop (pieces b) n) as Hdl.
    destruct (drop n (pieces b)) as [|p rest] eqn:Ed.
    - cbn in Hce. assert (off = end_ b) by lia. cbn in *. splits; auto; discriminate.
    - destruct Hcd as (Hp1 & Hp2 & Hp3 & Hp4). cbn in Hce.
      assert (pieces b !! n = Some p) as Ep by (rewrite <- (Nat.add_0_r n), <- lookup_drop, Ed; reflexivity).
      specialize (Hnext p Ep). assert (p_off p <= off) by lia.
      assert (forall i q, rest !! i = Some q -> pieces b !! (n + S i)%nat = Some q) as Hrest
        by (intros i q Hq; rewrite <- lookup_drop, Ed; exact Hq).
      destruct (Z.ltb_spec (p_off p) off) as [Hcut|Hsame].
      + assert (p_end (mkPiece off (zdrop (off - p_off p) (p_data p)) (p_pooled p)) = p_end p) as Epe.
        { unfold p_end in *. cbn [p_off p_data]. rewrite len_zdrop; lia. }
        split; [|split; [cbn [chain_end]; now rewrite Epe|split; [cbn in *; lia|]]].
        * cbn [chain]. rewrite Epe. cbn [p_off p_data]. splits; auto.
          -- unfold p_end in *. rewrite len_zdrop; lia.
          -- replace off with (p_off p + (off - p_off p)) at 1 by lia. apply agrees_drop; [lia|]. now rewrite Hp1.
        * intros [|i] q Hq; [injection Hq as <-; exists p; rewrite Nat.add_0_r; auto|]. exists q. split; [apply Hrest, Hq|reflexivity].
      + assert (p_off p = off) as Eo by lia. rewrite Eo in Hp1. rewrite <- Hp1 in *.
        split; [cbn; rewrite Eo; splits; auto; now rewrite <- Eo|split; [exact Hce|split; [cbn in *; lia|]]].
        intros [|i] q Hq; [injection Hq as <-; exists p; rewrite Nat.add_0_r; auto|]. exists q. split; [apply Hrest, Hq|reflexivity]. }
  assert (off + (size b - Z.min (off - base b) (size b)) = base b + size b) as Esz by (unfold end_ in *; lia).
  cbn [base next lost acked]. splits; auto.
  split; unfold end_ in *; cbn [base size pieces cur next lost acked]; auto; try lia.
  split.
  - destruct (Nat.eqb_spec (length ps) 0); [now left|]. lia.
  - intros i q Hi Hq. destruct (Nat.eqb_spec (length ps) 0); [lia|].
    destruct (Hpq i q Hq) as (q' & Hq' & ->). apply (Hcur (n + i)%nat q'); [lia|exact Hq'].
Qed.

Lemma ackTo_ok b newBase :
  sok b -> newBase <= next b -> (forall x, mem (acked b) x -> newBase < x) ->
  sok (ackTo b newBase) /\ base (ackTo b newBase) = Z.max (base b) newBase /\ end_ (ackTo b newBase) = end_ b /\
  next (ackTo b newBase) = next b /\ lost (ackTo b newBase) = lost b /\ acked (ackTo b newBase) = acked b.
Proof.
  intros Hok Hn Hack. pose proof (so_next _ Hok). unfold ackTo.
  rewrite (proj2 (Z.ltb_ge _ _)) by lia. destruct (Z.leb_spec newBase (base b)); [splits; auto; lia|].
  destruct (dropTo_ok b newBase Hok ltac:(lia) ltac:(lia) Hack) as (H1 & H2 & H3 & H4 & H5 & H6). splits; auto. lia.
Qed.

(** The acknowledged bytes are those that were and the new ones. *)
Lemma onAck_spec b off n :
  sok b -> 0 <= off -> 0 <= n -> off + n <= next b ->
  sok (onAck b off n) /\ base b <= base (onAck b off n) /\ end_ (onAck b off n) = end_ b /\
  next (onAck b off n) = next b /\ lost (onAck b off n) = lost b /\
  forall x, 0 <= x -> ackedSet (onAck b off n) x <-> ackedSet b x \/ off <= x < off + n.
Proof.
  intros Hok Ho Hn0 Hn. pose proof Hok as [Hc He Hnx Hcur Hl [Ha1 Ha2] Hb]. unfold onAck, ackedSet.
  destruct ((len (acked b) =? 0) && (off <=? base b)) eqn:Efast.
  - apply andb_true_iff in Efast as [E0%Z.eqb_eq Eo%Z.leb_le].
    assert (acked b = []) as Ea by (destruct (acked b); [reflexivity|rewrite len_cons in E0; pose proof (len_nonneg l); lia]).
    destruct (ackTo_ok b (off + n) Hok Hn) as (H1 & H2 & H3 & H4 & H5 & H6);
      [intros x Hx; rewrite Ea in Hx; now apply mem_nil in Hx|].
    splits; auto; [lia|]. intros x Hx. rewrite H2, H6, Ea. pose proof (mem_nil x). intuition lia.
  - destruct (addSpan_spec 0 (acked b) (mkSpan off (off + n)) Ha1 Ho) as [Hw Hm]. cbn [s_off s_end] in Hm.
    assert (Forall (fun s => s_end s <= next b) (addSpan (acked b) (mkSpan off (off + n)))) as Hw2.
    { apply Forall_forall. intros s Hs. apply list_elem_of_In, list_elem_of_lookup in Hs as [i Hi].
      pose proof (wf_lookup_ge _ _ _ _ Hw Hi) as Hr. destruct (Hm (s_end s - 1)) as [Hm' _].
      assert (mem (acked b) (s_end s - 1) \/ off <= s_end s - 1 < off + n) as [Hin|?]; [|clear Hm'|lia].
      { apply Hm'. apply Exists_exists. exists s. split; [eapply list_elem_of_In, list_elem_of_lookup_2, Hi|lia]. }
      unfold mem in Hin. rewrite Exists_exists in Hin. destruct Hin as (s' & Hs' & ?).
      rewrite Forall_forall in Ha2. specialize (Ha2 s' Hs'). cbn in Ha2. lia. }
    set (l := addSpan (acked b) (mkSpan off (off + n))) in *. cbn [set_acked acked base].
    destruct l as [|s rest] eqn:El.
    { splits; auto; [|reflexivity|].
      - split; auto. cbn. intros x Hx. now apply mem_nil in Hx.
      - intros x Hx. cbn [set_acked acked base]. rewrite Hm. tauto. }
    destruct Hw as [Hs Hw]. destruct (Z.ltb_spec (base b) (s_off s)) as [Hgap|Hat].
    + splits; auto; [|reflexivity|].
      * split; auto; cbn [set_acked acked base].
        -- split; [split; [exact Hs|exact Hw]|exact Hw2].
        -- intros x [Hx|Hx]%mem_cons; [lia|]. apply (mem_ge _ _ _ Hw) in Hx. lia.
      * intros x Hx. cbn [set_acked acked base]. rewrite Hm. tauto.
    + inversion Hw2 as [|? ? Hse Hrest]; subst.
      (* what the first range ends below [base], the later ones were there *)
      assert (forall x, mem rest x -> base b < x) as Hrb.
      { intros x Hx. pose proof (mem_ge _ _ _ Hw Hx) as Hgt.
        destruct (proj1 (Hm x)) as [Hin|Hin]; [rewrite mem_cons; auto|auto|].
        destruct (Z.lt_ge_cases (base b) x) as [|Hxb]; [assumption|exfalso].
        destruct (proj1 (Hm (s_off s))) as [Hso|Hso]; [rewrite mem_cons; left; lia|apply Hb in Hso; lia|].
        assert (mem (s :: rest) (s_end s)) as Hse' by (apply Hm; right; lia).
        apply mem_cons in Hse' as [?|Hse']; [lia|].
        apply (mem_ge _ _ _ Hw) in Hse'. lia. }
      assert (sok (set_acked b rest)) as Hok'.
      { split; auto. cbn [set_acked acked next]. split; [eapply wf_weaken; [|exact Hw]; lia|exact Hrest]. }
      destruct (ackTo_ok (set_acked b rest) (s_end s) Hok' Hse) as (H1 & H2 & H3 & H4 & H5 & H6).
      { intros x Hx. apply (mem_ge _ _ _ Hw) in Hx. lia. }
      change (set_acked (set_acked b (s :: rest)) rest) with (set_acked b rest).
      change (base (set_acked b rest)) with (base b) in H2. splits; auto; [lia|]. intros x Hx. rewrite H2, H6. cbn [set_acked acked].
      specialize (Hm x). rewrite mem_cons in Hm.
      destruct (Z.lt_ge_cases x (s_off s)) as [H7|H7]; [|destruct (Z.lt_ge_cases x (s_end s)); intuition lia].
      split; [intros [?|Hr]; [left; left; lia|apply (mem_ge _ _ _ Hw) in Hr; lia]|intros; left; lia].
Qed.

Lemma onLost_spec b off n :
  sok b -> off + n <= next b ->
  sok (onLost b off n) /\ base (onLost b off n) = base b /\ end_ (onLost b off n) = end_ b /\
  next (onLost b off n) = next b /\ acked (onLost b off n) = acked b /\
  forall x, base b <= x -> mem (lost (onLost b off n)) x <-> mem (lost b) x \/ off <= x < off + n.
Proof.
  intros Hok Hn. pose proof Hok as [Hc He Hnx Hcur [Hl1 Hl2] Ha Hb]. unfold onLost.
  destruct (Z.leb_spec (off + n) (Z.max off (base b))) as [Hle|Hgt].
  { splits; auto. intros x Hx. intuition lia. }
  destruct (addSpan_spec 0 (lost b) (mkSpan (Z.max off (base b)) (off + n)) Hl1 ltac:(cbn; lia)) as [Hw Hm].
  cbn [s_off s_end] in Hm. splits; auto.
  - split; auto. cbn [set_lost lost next]. split; [exact Hw|].
    apply Forall_forall. intros s Hs. apply list_elem_of_In, list_elem_of_lookup in Hs as [i Hi].
    pose proof (wf_lookup_ge _ _ _ _ Hw Hi) as Hr.
    destruct (proj1 (Hm (s_end s - 1))) as [Hin|?]; [| |lia].
    { apply Exists_exists. exists s. split; [eapply list_elem_of_In, list_elem_of_lookup_2, Hi|lia]. }
    unfold mem in Hin. rewrite Exists_exists in Hin. destruct Hin as (s' & Hs' & ?).
    rewrite Forall_forall in Hl2. specialize (Hl2 s' Hs'). cbn in Hl2. lia.
  - intros x Hx. cbn [set_lost lost]. rewrite Hm. intuition lia.
Qed.

(** ** A stream's sending side over time *)

(** The buffer, and the ranges sent whose fate is not known yet. *)
Inductive sstep : sendBuffer * list span -> sendBuffer * list span -> Prop :=
| st_write b f p : agrees content (end_ b) p -> sstep (b, f) (write b p, f)
| st_adopt b f p : agrees content (end_ b) p -> sstep (b, f) (adopt b p, f)
| st_parts b f ps : agrees content (end_ b) (mjoin (Data <$> ps)) -> sstep (b, f) (writeParts b ps, f)
| st_new b f n off data b' : 0 <= n -> popNew b n = (off, data, b') ->
    sstep (b, f) (b', mkSpan off (off + len data) :: f)
| st_again b f n off data b' : 0 <= n -> popLost b n = Some (off, data, b') ->
    sstep (b, f) (b', mkSpan off (off + len data) :: f)
| st_ack b f1 s f2 : sstep (b, f1 ++ s :: f2) (onAck b (s_off s) (s_end s - s_off s), f1 ++ f2)
| st_loss b f1 s f2 : sstep (b, f1 ++ s :: f2) (onLost b (s_off s) (s_end s - s_off s), f1 ++ f2)
(** A probe sends again what may be on its way still. *)
| st_probe b f1 s f2 : sstep (b, f1 ++ s :: f2) (onLost b (s_off s) (s_end s - s_off s), f1 ++ s :: f2).

(** No byte sent is forgotten before it is acknowledged. *)
Definition reliable (st : sendBuffer * list span) : Prop :=
  sok st.1 /\ Forall (fun s => 0 <= s_off s <= s_end s /\ s_end s <= next st.1) st.2 /\
  forall x, 0 <= x < next st.1 -> ackedSet st.1 x \/ mem (lost st.1) x \/ mem st.2 x.

Lemma reliable_written b f b' :
  reliable (b, f) -> sok b' -> next b' = next b -> base b' = base b -> lost b' = lost b -> acked b' = acked b -> reliable (b', f).
Proof.
  intros (Hok & Hf & Hx) Hok' En Eb El Ea. split; [exact Hok'|]. unfold ackedSet in *. cbn [fst snd] in *.
  rewrite En, Eb, El, Ea. split; assumption.
Qed.

Lemma mem_middle f1 s f2 x : mem (f1 ++ s :: f2) x <-> s_off s <= x < s_end s \/ mem (f1 ++ f2) x.
Proof. rewrite !mem_app, mem_cons. tauto. Qed.

Lemma write_frame b p : next (write b p) = next b /\ base (write b p) = base b /\ lost (write b p) = lost b /\ acked (write b p) = acked b.
Proof. unfold write. repeat case_match; auto. Qed.

Lemma adopt_frame b p : next (adopt b p) = next b /\ base (adopt b p) = base b /\ lost (adopt b p) = lost b /\ acked (adopt b p) = acked b.
Proof. unfold adopt. repeat case_match; auto. Qed.

Lemma writeParts_frame ps b :
  next (writeParts b ps) = next b /\ base (writeParts b ps) = base b /\ lost (writeParts b ps) = lost b /\ acked (writeParts b ps) = acked b.
Proof.
  revert b. induction ps as [|p ps IH]; intros b; cbn [writeParts]; [auto|]. case_match; [apply IH|].
  destruct (IH (set_pieces (addPiece b (mkPiece (end_ b) (Data p) (Owned p))) (pieces (addPiece b (mkPiece (end_ b) (Data p) (Owned p))))
    (size (addPiece b (mkPiece (end_ b) (Data p) (Owned p))) + len (Data p)))) as (-> & -> & -> & ->). auto.
Qed.

Lemma sstep_reliable st st' : sstep st st' -> reliable st -> reliable st'.
Proof.
  intros Hst Hr. destruct Hst as [b f p Hp|b f p Hp|b f ps Hp|b f n off data b' Hn E|b f n off data b' Hn E|b f1 s f2|b f1 s f2|b f1 s f2];
    pose proof Hr as (Hok & Hf & Hx); cbn [fst snd] in Hok, Hf, Hx; pose proof (so_next _ Hok) as Hnx.
  - destruct (write_frame b p) as (? & ? & ? & ?). apply (reliable_written b); auto. now apply write_ok.
  - destruct (adopt_frame b p) as (? & ? & ? & ?). apply (reliable_written b); auto. now apply adopt_ok.
  - destruct (writeParts_frame ps b) as (? & ? & ? & ?). apply (reliable_written b); auto. now apply writeParts_ok.
  - pose proof (popNew_spec b n Hok Hn) as Hp. rewrite E in Hp.
    destruct Hp as (Hok' & -> & _ & _ & Hn' & Hb' & _ & Hl' & Ha' & _). pose proof (len_nonneg data).
    split; [exact Hok'|]. unfold ackedSet in *. cbn [fst snd] in *. rewrite Hn', Hb', Hl', Ha'. split.
    + constructor; [cbn; lia|]. eapply Forall_impl; [|exact Hf]. cbn. intros; lia.
    + intros x Hlt. rewrite mem_cons. cbn [s_off s_end]. destruct (Z.lt_ge_cases x (next b)) as [H1|H1]; [|intuition lia].
      specialize (Hx x ltac:(lia)). tauto.
  - destruct (popLost_spec b n Hok Hn) as (off' & data' & b'' & E' & Hok' & Hb' & Hn' & _ & Ha' & _ & _ & _ & Ho0 & Hoe & _ & Hin & Hkeep).
    rewrite E in E'. injection E' as <- <- <-. pose proof (len_nonneg data).
    split; [exact Hok'|]. unfold ackedSet in *. cbn [fst snd] in *. rewrite Hn', Hb', Ha'. split.
    + constructor; [|exact Hf]. cbn [s_off s_end]. lia.
    + intros x Hlt. rewrite mem_cons. cbn [s_off s_end]. specialize (Hx x Hlt). destruct Hx as [?|[Hl|?]]; auto.
      destruct (Z.lt_ge_cases x (base b)) as [H1|H1]; [auto|]. destruct (Hkeep x H1 Hl); auto.
  - apply Forall_app in Hf as [Hf1 Hf2]. inversion Hf2 as [|? ? Hs Hf2']; subst.
    destruct (onAck_spec b (s_off s) (s_end s - s_off s) Hok ltac:(lia) ltac:(lia) ltac:(lia)) as (Hok' & _ & _ & Hn' & Hl' & Ha').
    split; [exact Hok'|]. cbn [fst snd]. rewrite Hn', Hl'. split; [now apply Forall_app|].
    intros x Hlt. specialize (Hx x Hlt). rewrite mem_middle in Hx. rewrite Ha' by lia.
    replace (s_off s + (s_end s - s_off s)) with (s_end s) by lia. tauto.
  - apply Forall_app in Hf as [Hf1 Hf2]. inversion Hf2 as [|? ? Hs Hf2']; subst.
    destruct (onLost_spec b (s_off s) (s_end s - s_off s) Hok ltac:(lia)) as (Hok' & Hb' & _ & Hn' & Ha' & Hl').
    split; [exact Hok'|]. unfold ackedSet in *. cbn [fst snd] in *. rewrite Hn', Hb', Ha'. split; [now apply Forall_app|].
    intros x Hlt. specialize (Hx x Hlt). rewrite mem_middle in Hx.
    destruct (Z.lt_ge_cases x (base b)) as [H1|H1]; [auto|]. rewrite Hl' by lia.
    replace (s_off s + (s_end s - s_off s)) with (s_end s) by lia. tauto.
  - pose proof Hf as Hf'. apply Forall_app in Hf' as [_ Hf2]. inversion Hf2 as [|? ? Hs _]; subst.
    destruct (onLost_spec b (s_off s) (s_end s - s_off s) Hok ltac:(lia)) as (Hok' & Hb' & _ & Hn' & Ha' & Hl').
    split; [exact Hok'|]. unfold ackedSet in *. cbn [fst snd] in *. rewrite Hn', Hb', Ha'. split; [exact Hf|].
    intros x Hlt. specialize (Hx x Hlt). destruct (Z.lt_ge_cases x (base b)) as [H1|H1]; [auto|]. rewrite Hl' by lia. tauto.
Qed.

Lemma steps_reliable st st' : relations.rtc sstep st st' -> reliable st -> reliable st'.
Proof. induction 1; eauto using sstep_reliable. Qed.

Lemma new_reliable : reliable (newSend, []).
Proof. split; [apply newSend_ok|]. split; [constructor|]. cbn. lia. Qed.

(** ** Properties *)

(** Whatever a stream writes, sends, and hears acknowledged or lost, in any
    order: every byte sent so far has been acknowledged, is queued to be sent
    again, or is in a range sent whose fate is not known yet. When nothing is in
    flight and nothing is queued, all that was sent is acknowledged. *)
Theorem send_reliable (b : sendBuffer) (flight : list span) :
  relations.rtc sstep (newSend, []) (b, flight) ->
  (forall x, 0 <= x < next b -> ackedSet b x \/ mem (lost b) x \/ mem flight x) /\
  (flight = [] -> lost b = [] -> forall x, 0 <= x < next b -> ackedSet b x).
Proof.
  intros H. apply steps_reliable in H as (_ & _ & Hx); [|apply new_reliable]. cbn [fst snd] in Hx.
  split; [exact Hx|]. intros -> El x Hlt. specialize (Hx x Hlt). rewrite El in Hx. pose proof (mem_nil x). tauto.
Qed.

(** PopNew hands out the stream's bytes from the first never sent, at most
    [n] of them, and moves on by what it handed out; it hands out nothing only
    when asked for nothing or when all that is written has been sent. *)
Theorem popNew_next (b : sendBuffer) (n : Z) :
  sok b -> 0 <= n ->
  let '(off, data, b') := popNew b n in
  sok b' /\ off = next b /\ agrees content off data /\ len data <= n /\ next b' = off + len data /\
  (data = [] -> n = 0 \/ next b = end_ b).
Proof.
  intros Hok Hn. pose proof (popNew_spec b n Hok Hn) as H. destruct (popNew b n) as [[off data] b'].
  destruct H as (? & ? & ? & ? & ? & _ & _ & _ & _ & ?). splits; assumption.
Qed.

(** PopLost ends, and hands out the stream's bytes at the offset it names, at
    most [n], out of the ranges queued to be sent again and not acknowledged
    since; those it handed out are no longer queued and no other byte is
    dropped. It hands out nothing only when nothing is left to send again. *)
Theorem popLost_resends (b : sendBuffer) (n : Z) :
  sok b -> 0 <= n ->
  exists off data b', popLost b n = Some (off, data, b') /\ sok b' /\ agrees content off data /\ len data <= n /\
  (data = [] -> n = 0 \/ forall x, base b <= x -> ~ mem (lost b) x) /\ (data <> [] -> base b <= off) /\
  (forall x, off <= x < off + len data -> mem (lost b) x) /\
  (forall x, base b <= x -> mem (lost b) x -> mem (lost b') x \/ off <= x < off + len data).
Proof.
  intros Hok Hn. destruct (popLost_spec b n Hok Hn) as (off & data & b' & E & Hok' & _ & _ & _ & _ & Ha & Hl & Hno & _ & _ & Hb & Hin & Hk).
  exists off, data, b'. splits; assumption.
Qed.

(** OnAck records exactly the bytes it is told of: those acknowledged are the
    ones that were and the new ones, whether they move the base on, wait for what
    is before them, or fill the gap before others. *)
Theorem onAck_exact (b : sendBuffer) (off n : Z) :
  sok b -> 0 <= off -> 0 <= n -> off + n <= next b ->
  sok (onAck b off n) /\ base b <= base (onAck b off n) /\ end_ (onAck b off n) = end_ b /\
  forall x, 0 <= x -> ackedSet (onAck b off n) x <-> ackedSet b x \/ off <= x < off + n.
Proof.
  intros Hok Ho Hn He. destruct (onAck_spec b off n Hok Ho Hn He) as (H1 & H2 & H3 & _ & _ & H4). splits; assumption.
Qed.

End Stream.

(** ** Witnesses *)

Definition testContent (x : Z) : Z := x mod 7.

(** Ten bytes written, six sent. *)
Definition testSend : sendBuffer :=
  snd (popNew (write newSend [0; 1; 2; 3; 4; 5; 6; 0; 1; 2]) 6).

Lemma testBytes : agrees testContent 0 [0; 1; 2; 3; 4; 5; 6; 0; 1; 2].
Proof. intros k d Hk. do 10 (destruct k as [|k]; [injection Hk as <-; reflexivity|]). discriminate. Qed.

Lemma testSend_ok : sok testContent testSend.
Proof.
  destruct (write_ok testContent newSend [0; 1; 2; 3; 4; 5; 6; 0; 1; 2] (newSend_ok _) testBytes) as [Hok _].
  pose proof (popNew_spec testContent _ 6 Hok ltac:(lia)) as H. unfold testSend.
  destruct (popNew _ 6) as [[off data] b']. apply H.
Qed.

Lemma send_reliable_witness :
  (forall x, 0 <= x < next testSend -> ackedSet testSend x \/ mem (lost testSend) x \/ mem [mkSpan 0 6] x) /\
  ([mkSpan 0 6] = [] -> lost testSend = [] -> forall x, 0 <= x < next testSend -> ackedSet testSend x).
Proof.
  apply (send_reliable testContent testSend [mkSpan 0 6]).
  eapply relations.rtc_l; [apply st_write; exact testBytes|].
  eapply relations.rtc_l; [|apply relations.rtc_refl]. apply (st_new _ _ _ 6 0 [0; 1; 2; 3; 4; 5] testSend); [lia|reflexivity].
Defined.

Lemma popNew_next_witness :
  let '(off, data, b') := popNew testSend 3 in
  sok testContent b' /\ off = next testSend /\ agrees testContent off data /\ len data <= 3 /\ next b' = off + len data /\
  (data = [] -> 3 = 0 \/ next testSend = end_ testSend).
Proof. apply (popNew_next testContent testSend 3); [exact testSend_ok|lia]. Defined.

Lemma popLost_resends_witness :
  exists off data b', popLost testSend 3 = Some (off, data, b') /\ sok testContent b' /\ agrees testContent off data /\ len data <= 3 /\
  (data = [] -> 3 = 0 \/ forall x, base testSend <= x -> ~ mem (lost testSend) x) /\ (data <> [] -> base testSend <= off) /\
  (forall x, off <= x < off + len data -> mem (lost testSend) x) /\
  (forall x, base testSend <= x -> mem (lost testSend) x -> mem (lost b') x \/ off <= x < off + len data).
Proof. apply (popLost_resends testContent testSend 3); [exact testSend_ok|lia]. Defined.

Lemma onAck_exact_witness :
  sok testContent (onAck testSend 2 3) /\ base testSend <= base (onAck testSend 2 3) /\ end_ (onAck testSend 2 3) = end_ testSend /\
  forall x, 0 <= x -> ackedSet (onAck testSend 2 3) x <-> ackedSet testSend x \/ 2 <= x < 2 + 3.
Proof. apply (onAck_exact testContent testSend 2 3); [exact testSend_ok|lia|lia|vm_compute; discriminate]. Defined.

End Send.
