(* ===== verification/QuicPacket.v ===== *)
(** * QUIC packets (src/http3/quic/packet.go, crypto.go: nonce, send.go: sealPlan)

    Packet headers, written and parsed; packet numbers, truncated and
    recovered; header protection and packet protection put on and taken off.
    The AEAD and the header protection's mask are parameters, with the laws
    their documentation states. *)

From S2P Require Import Prelude QuicVarint.
From stdpp Require Import base list numbers.
From Stdlib Require Import ZArith Lia.

Local Open Scope Z_scope.
Local Open Scope go_scope.

Module Packet.
Import Varint.

Definition Version1 : Z := 1.

Definition packetInitial : Z := 0.
Definition packet0RTT : Z := 1.
Definition packetHandshake : Z := 2.
Definition packetRetry : Z := 3.
Definition packet1RTT : Z := 4.

Definition cidLen : Z := 8.
Definition maxCIDLen : Z := 20.
Definition minInitialDatagram : Z := 1200.
Definition aeadOverhead : Z := 16.
Definition statelessResetTokenLen : Z := 16.

Inductive perr : Type := errBadPacket | errUnknownVersion | errDecryptionFails.

#[export] Instance perr_eq_dec : EqDecision perr.
Proof. solve_decision. Defined.

(** ** Bytes by position *)

(** [b[p]] and [b[p : p+n]], in range. *)
Definition at_ (b : bytes) (p : Z) : Z := nth (Z.to_nat p) b 0.
Definition sub (b : bytes) (p n : Z) : bytes := ztake n (zdrop p b).

(** binary.BigEndian.Uint32 and AppendUint32. *)
Definition be32 (b : bytes) : Z :=
  (((at_ b 0 .<< 24) .| (at_ b 1 .<< 16)) .| (at_ b 2 .<< 8)) .| at_ b 3.
Definition appendBe32 (b : bytes) (v : Z) : bytes := b ++ [u8 (v .>> 24); u8 (v .>> 16); u8 (v .>> 8); u8 v].

(** ** Headers *)

Record header : Type := mkHeader {
  typ : Z;
  version : Z;
  dcid : bytes;
  scid : bytes;
  token : bytes;
  pnOffset : Z;
  h_end : Z
}.

Definition zeroHeader : header := mkHeader 0 0 [] [] [] 0 0.

(** From the length on: the end of an Initial, 0-RTT or Handshake header. *)
Definition parseLength (b : bytes) (p : Z) (h : header) : header * option perr :=
  let '(length, l) := ReadVarint (zdrop p b) in
  if l =? 0 then (h, Some errBadPacket)
  else
    let p := p + l in
    if len b - p <? length then (h, Some errBadPacket)
    else (mkHeader (typ h) (version h) (dcid h) (scid h) (token h) p (p + length), None).

Definition parseHeader (b : bytes) (shortDCIDLen : Z) : header * option perr :=
  if len b =? 0 then (zeroHeader, Some errBadPacket)
  else if (at_ b 0 .& 0x80) =? 0 then
    if len b <? 1 + shortDCIDLen then (zeroHeader, Some errBadPacket)
    else (mkHeader packet1RTT 0 (sub b 1 shortDCIDLen) [] [] (1 + shortDCIDLen) (len b), None)
  else if len b <? 7 then (zeroHeader, Some errBadPacket)
  else
    let v := be32 (sub b 1 4) in
    let h := mkHeader 0 v [] [] [] 0 0 in
    let dl := at_ b 5 in
    let p := 6 in
    if ((maxCIDLen <? dl) && (v =? Version1)) || (len b <? p + dl + 1) then (h, Some errBadPacket)
    else
      let d := sub b p dl in
      let h := mkHeader 0 v d [] [] 0 0 in
      let p := p + dl in
      let sl := at_ b p in
      let p := p + 1 in
      if ((maxCIDLen <? sl) && (v =? Version1)) || (len b <? p + sl) then (h, Some errBadPacket)
      else
        let s := sub b p sl in
        let h := mkHeader 0 v d s [] 0 0 in
        let p := p + sl in
        if negb (v =? Version1) then (h, Some errUnknownVersion)
        else if (at_ b 0 .& 0x40) =? 0 then (h, Some errBadPacket)
        else
          let t := (at_ b 0 .>> 4) .& 3 in
          let h := mkHeader t v d s [] 0 0 in
          if t =? packetRetry then (mkHeader t v d s (zdrop p b) 0 (len b), None)
          else if t =? packetInitial then
            let '(n, l) := ReadVarint (zdrop p b) in
            if (l =? 0) || (len b - p - l <? n) then (h, Some errBadPacket)
            else
              let p := p + l in
              parseLength b (p + n) (mkHeader t v d s (sub b p n) 0 0)
          else parseLength b p h.

(** ** Packet numbers *)

Definition pnLen (pn largestAcked : Z) : Z :=
  let unacked := if largestAcked <? 0 then u64 (pn + 1) else u64 (pn - largestAcked) in
  if unacked <? 1 .<< 7 then 1 else if unacked <? 1 .<< 15 then 2 else if unacked <? 1 .<< 23 then 3 else 4.

Definition decodePN (largest truncated n : Z) : Z :=
  let expected := u64 (largest + 1) in
  let win := u64 (1 .<< (8 * n)) in
  let hwin := win / 2 in
  let mask := win - 1 in
  let candidate := Z.ldiff expected mask .| truncated in
  if (u64 (candidate + hwin) <=? expected) && (candidate <? 2 ^ 62 - win) then u64 (candidate + win)
  else if (u64 (expected + hwin) <? candidate) && (win <=? candidate) then candidate - win
  else candidate.

(** The low [n] bytes of [pn], as sealPlan writes them:
    [for i := p.pnLen - 1; i >= 0; i--]. *)
Fixpoint appendPN (n : nat) (b : bytes) (pn : Z) : bytes :=
  match n with
  | O => b
  | S i => appendPN i (b ++ [u8 (pn .>> (8 * Z.of_nat i))]) pn
  end.

(** ** The header of a packet to send *)

(** sealPlan's header: a short header for a 1-RTT packet, a long one for the
    others, with the length of what follows it. *)
Definition appendShort (phase : bool) (dc : bytes) (pl : Z) : bytes :=
  let first := 0x40 .| u8 (pl - 1) in
  let first := if phase then first .| 0x04 else first in
  first :: dc.

Definition appendLong (t : Z) (dc sc tok : bytes) (pl payloadLen : Z) : bytes :=
  let hdr := appendBe32 [(0xc0 .| u8 (t .<< 4)) .| u8 (pl - 1)] Version1 in
  let hdr := hdr ++ u8 (len dc) :: dc in
  let hdr := hdr ++ u8 (len sc) :: sc in
  let hdr := if t =? packetInitial then AppendVarint hdr (len tok) ++ tok else hdr in
  appendVarint2 hdr (pl + payloadLen + aeadOverhead).

(** ** Protection *)

Section Crypto.
(** The header protection mask of a sample, five bytes. *)
Context (mask : bytes -> bytes).
(** The AEAD: nonce, text and associated data. *)
Context (aeadSeal : bytes -> bytes -> bytes -> bytes) (aeadOpen : bytes -> bytes -> bytes -> option bytes).

(** keys.nonce: the packet number XORed into the IV's low bytes. *)
Fixpoint nonceLoop (i : nat) (n : bytes) (pn : Z) : bytes :=
  match i with
  | O => n
  | S k => nonceLoop k (alter (fun b => b .^ u8 (pn .>> (8 * Z.of_nat (7 - k)))) (11 - (7 - k))%nat n) pn
  end.

Definition nonce (iv : bytes) (pn : Z) : bytes := nonceLoop 8 iv pn.

(** The first byte, under the mask. *)
Definition maskFirst (m : bytes) (b0 : Z) : Z :=
  if negb ((b0 .& 0x80) =? 0) then b0 .^ (at_ m 0 .& 0x0f) else b0 .^ (at_ m 0 .& 0x1f).

(** [for i := 0; i < n; i++ { pkt[pnOffset+i] ^= mask[1+i] }] *)
Fixpoint maskPN (i n : nat) (pkt : bytes) (off : nat) (m : bytes) : bytes :=
  match n with
  | O => pkt
  | S n => maskPN (S i) n (alter (fun b => b .^ nth (1 + i) m 0) (off + i)%nat pkt) off m
  end.

(** [truncated = truncated<<8 | uint64(pkt[pnOffset+i])] *)
Definition readPN (b : bytes) : Z := fold_left (fun v x => u64 (v .<< 8) .| x) b 0.

(** The packet with its header protection off, its number and the number's
    length. *)
Definition unprotect (pkt : bytes) (off : Z) (largest : Z) : option (bytes * Z * Z) :=
  if len pkt <? off + 4 + 16 then None
  else
    let m := mask (sub pkt (off + 4) 16) in
    let pkt := alter (maskFirst m) 0%nat pkt in
    let n := (at_ pkt 0 .& 3) + 1 in
    let pkt := maskPN 0 (Z.to_nat n) pkt (Z.to_nat off) m in
    Some (pkt, decodePN largest (readPN (sub pkt off n)) n, n).

Definition seal (iv pkt : bytes) (off n pn : Z) : bytes :=
  let hdr := ztake (off + n) pkt in
  let payload := zdrop (off + n) pkt in
  let pkt := hdr ++ aeadSeal (nonce iv pn) payload hdr in
  let m := mask (sub pkt (off + 4) 16) in
  maskPN 0 (Z.to_nat n) (alter (maskFirst m) 0%nat pkt) (Z.to_nat off) m.

Definition open (iv pkt : bytes) (hdrEnd pn : Z) : res perr bytes :=
  match aeadOpen (nonce iv pn) (zdrop hdrEnd pkt) (ztake hdrEnd pkt) with
  | None => Err errDecryptionFails
  | Some payload => Ok payload
  end.

(** sealPlan: the header, the packet number, the payload, all protected. *)
Definition sealPlan (iv hdr : bytes) (pl pn : Z) (payload : bytes) : bytes :=
  seal iv (appendPN (Z.to_nat pl) hdr pn ++ payload) (len hdr) pl pn.

End Crypto.

(** ** Datagrams *)

Definition IsInitial (datagram : bytes) : bool :=
  if len datagram <? minInitialDatagram then false
  else match parseHeader datagram 0 with (h, None) => typ h =? packetInitial | (_, Some _) => false end.

(** [r] is the random byte. [None] is Go's nil. *)
Definition VersionNegotiation (r : Z) (datagram : bytes) : option bytes :=
  let '(h, err) := parseHeader datagram 0 in
  if negb (bool_decide (err = Some errUnknownVersion)) || (version h =? 0) || (len datagram <? minInitialDatagram) then None
  else
    let out := [0x80 .| r; 0; 0; 0; 0] in
    let out := out ++ u8 (len (scid h)) :: scid h in
    let out := out ++ u8 (len (dcid h)) :: dcid h in
    Some (appendBe32 (appendBe32 out Version1) 0x1a2a3a4a).

Definition ShortHeaderDCID (datagram : bytes) : option bytes :=
  if (len datagram <? 1 + cidLen) || negb ((at_ datagram 0 .& 0x80) =? 0) then None else Some (sub datagram 1 cidLen).

Definition DatagramDCID (datagram : bytes) : option bytes :=
  if len datagram =? 0 then None
  else if (at_ datagram 0 .& 0x80) =? 0 then ShortHeaderDCID datagram
  else if len datagram <? 6 then None
  else
    let n := at_ datagram 5 in
    if len datagram <? 6 + n then None else Some (sub datagram 6 n).

(** [rnd n] are [n] random bytes, [tok] the token of a connection ID. *)
Definition StatelessReset (rnd : Z -> bytes) (tok : bytes -> bytes) (datagram : bytes) : option bytes :=
  if (len datagram <? 1 + cidLen + 21) || negb ((at_ datagram 0 .& 0x80) =? 0) then None
  else
    let size := Z.min (len datagram - 1) 64 in
    let out := alter (fun b => (b .& 0x3f) .| 0x40) 0%nat (rnd (size - statelessResetTokenLen)) in
    Some (out ++ tok (sub datagram 1 cidLen)).

(** ** Packet numbers, proved *)

Lemma win_bounds n : 1 <= n <= 4 -> 2 ^ 8 <= 2 ^ (8 * n) <= 2 ^ 32 /\ 2 ^ (8 * n) = 2 * 2 ^ (8 * n - 1) /\ 2 ^ 7 <= 2 ^ (8 * n - 1).
Proof.
  intros Hn. splits; try (apply Z.pow_le_mono_r; lia).
  replace (8 * n) with (1 + (8 * n - 1)) at 1 by lia. rewrite Z.pow_add_r by lia. reflexivity.
Qed.

Lemma ldiff_ones e k : 0 <= k -> Z.ldiff e (2 ^ k - 1) = (e / 2 ^ k) * 2 ^ k.
Proof.
  intros Hk. replace (2 ^ k - 1) with (Z.ones k) by (rewrite Z.ones_equiv; lia).
  now rewrite Z.ldiff_ones_r, Z.shiftr_div_pow2, Z.shiftl_mul_pow2 by lia.
Qed.

(** A packet number within half a window of the next expected one comes back. *)
Lemma decodePN_near largest pn n :
  1 <= n <= 4 -> -1 <= largest < 2 ^ 62 -> 0 <= pn < 2 ^ 62 ->
  largest + 1 - 2 ^ (8 * n - 1) < pn <= largest + 1 + 2 ^ (8 * n - 1) ->
  decodePN largest (pn mod 2 ^ (8 * n)) n = pn.
Proof.
  intros Hn Hl Hpn Hnear. destruct (win_bounds n Hn) as (Hw & Hw2 & Hh). unfold decodePN.
  rewrite Z.shiftl_1_l, (u64_id (2 ^ (8 * n))), (u64_id (largest + 1)) by lia.
  rewrite ldiff_ones by lia. set (w := 2 ^ (8 * n)) in *. set (h := 2 ^ (8 * n - 1)) in *. set (e := largest + 1) in *.
  assert (w / 2 = h) as -> by (rewrite Hw2, Z.mul_comm; apply Z.div_mul; lia).
  pose proof (Z.div_mod e w ltac:(lia)) as Ee. pose proof (Z.mod_pos_bound e w ltac:(lia)) as He.
  pose proof (Z.div_mod pn w ltac:(lia)) as Ep. pose proof (Z.mod_pos_bound pn w ltac:(lia)) as Hp.
  rewrite (lor_disjoint _ (pn mod w) (8 * n)); [|lia|apply Z.mod_mul; lia|exact Hp].
  set (qe := e / w) in *. set (qp := pn / w) in *. set (re := e mod w) in *. set (rp := pn mod w) in *.
  assert (0 <= qe) by (apply Z.div_pos; lia). assert (0 <= qp) by (apply Z.div_pos; lia).
  assert (qp - 1 <= qe <= qp + 1) as Hq by nia.
  rewrite (u64_id (qe * w + rp + h)), (u64_id (e + h)) by nia.
  assert (qe = qp - 1 \/ qe = qp \/ qe = qp + 1) as [-> | [-> | ->]] by lia.
  - destruct (Z.leb_spec ((qp - 1) * w + rp + h) e); [|nia].
    destruct (Z.ltb_spec ((qp - 1) * w + rp) (2 ^ 62 - w)); [|nia]. cbn [andb]. rewrite u64_id by nia. nia.
  - destruct (Z.leb_spec (qp * w + rp + h) e); [nia|]. cbn [andb].
    destruct (Z.ltb_spec (e + h) (qp * w + rp)); [nia|]. cbn [andb]. nia.
  - destruct (Z.leb_spec ((qp + 1) * w + rp + h) e); [nia|]. cbn [andb].
    destruct (Z.ltb_spec (e + h) ((qp + 1) * w + rp)).
    + destruct (Z.leb_spec w ((qp + 1) * w + rp)); [|nia]. cbn [andb]. nia.
    + exfalso. nia.
Qed.

(** The number of bytes the sender takes is enough for a receiver that has what
    was acknowledged and is not far past the packet. *)
Lemma pnLen_enough pn la largest :
  0 <= pn < 2 ^ 62 -> -1 <= la < pn -> la <= largest < 2 ^ 62 -> pn - la < 2 ^ 31 ->
  largest < pn + 2 ^ (8 * pnLen pn la - 1) - 1 ->
  1 <= pnLen pn la <= 4 /\ decodePN largest (pn mod 2 ^ (8 * pnLen pn la)) (pnLen pn la) = pn.
Proof.
  intros Hpn Hla Hl Hfar Hahead.
  assert (1 <= pnLen pn la <= 4 /\ pn - la <= 2 ^ (8 * pnLen pn la - 1)) as [Hn Hw].
  { unfold pnLen. rewrite !Z.shiftl_1_l. set (u := if la <? 0 then _ else _).
    assert (u = pn - la) as -> by (unfold u; destruct (Z.ltb_spec la 0); rewrite u64_id; lia).
    destruct (Z.ltb_spec (pn - la) (2 ^ 7)); [cbn; lia|]. destruct (Z.ltb_spec (pn - la) (2 ^ 15)); [cbn; lia|].
    destruct (Z.ltb_spec (pn - la) (2 ^ 23)); cbn; lia. }
  split; [exact Hn|]. apply decodePN_near; try lia.
Qed.

(** ** Headers, proved *)

Lemma at_app_l (a b : bytes) p : 0 <= p < len a -> at_ (a ++ b) p = at_ a p.
Proof. intros Hp. unfold at_, len in *. apply app_nth1. lia. Qed.

Lemma at_mid (a b : bytes) x p : p = len a -> at_ (a ++ x :: b) p = x.
Proof. intros ->. unfold at_, len. rewrite Nat2Z.id. apply nth_middle. Qed.

Lemma sub_mid (a b c : bytes) p n : p = len a -> n = len b -> sub (a ++ b ++ c) p n = b.
Proof. intros -> ->. unfold sub. now rewrite zdrop_app, ztake_app. Qed.

Lemma zdrop_mid (a b : bytes) p : p = len a -> zdrop p (a ++ b) = b.
Proof. intros ->. apply zdrop_app. Qed.

(** Two bytes carry a length below 2^14. *)
Lemma ReadVarint2 v rest : 0 <= v < 2 ^ 14 -> ReadVarint (appendVarint2 [] v ++ rest) = (v, 2).
Proof.
  intros Hv. unfold appendVarint2. cbn [app]. pose proof (shiftr_bound v 8 14 ltac:(lia) Hv) as Hs.
  etransitivity; [apply (ReadVarint_tag 1 (v .>> 8) [u8 v] rest); try reflexivity; lia|]. f_equal.
  pose proof (read_step v 0 ltac:(lia) ltac:(lia)) as E. now rewrite Z.shiftr_0_r in E.
Qed.

(** The long header's parts. *)
Lemma appendLong_parts t dc sc tok pl n :
  len dc <= maxCIDLen -> len sc <= maxCIDLen ->
  appendLong t dc sc tok pl n =
  [(0xc0 .| u8 (t .<< 4)) .| u8 (pl - 1); 0; 0; 0; 1; len dc] ++ dc ++ [len sc] ++ sc ++
  (if t =? packetInitial then AppendVarint [] (len tok) ++ tok else []) ++ appendVarint2 [] (pl + n + aeadOverhead).
Proof.
  intros Hd Hs. change maxCIDLen with 20 in *. pose proof (len_nonneg dc). pose proof (len_nonneg sc). unfold appendLong.
  rewrite (u8_id (len dc)), (u8_id (len sc)) by (unfold is_byte; lia). unfold appendBe32. cbn [app].
  change (u8 (Version1 .>> 24)) with 0. change (u8 (Version1 .>> 16)) with 0. change (u8 (Version1 .>> 8)) with 0.
  change (u8 Version1) with 1. unfold appendVarint2.
  destruct (t =? packetInitial); [rewrite AppendVarint_app|]; cbn [app]; rewrite <- ?app_assoc; cbn [app]; rewrite <- ?app_assoc; reflexivity.
Qed.

Lemma long_first t pl : 0 <= t <= 3 -> 1 <= pl <= 4 ->
  let b := (0xc0 .| u8 (t .<< 4)) .| u8 (pl - 1) in
  is_byte b /\ (b .& 0x80 =? 0) = false /\ (b .& 0x40 =? 0) = false /\ (b .>> 4) .& 3 = t /\ (b .& 3) + 1 = pl.
Proof.
  intros Ht Hp. assert (t = 0 \/ t = 1 \/ t = 2 \/ t = 3) as [-> | [-> | [-> | ->]]] by lia;
    (assert (pl = 1 \/ pl = 2 \/ pl = 3 \/ pl = 4) as [-> | [-> | [-> | ->]]] by lia; vm_compute; splits; auto; discriminate).
Qed.

(** The end of a long header, past its connection IDs and its token. *)
Lemma parseLength_at pre n body more h :
  0 <= n < 2 ^ 14 -> len body = n ->
  parseLength (pre ++ appendVarint2 [] n ++ body ++ more) (len pre) h =
  (mkHeader (typ h) (version h) (dcid h) (scid h) (token h) (len pre + 2) (len pre + 2 + n), None).
Proof.
  intros Hn Hb. unfold parseLength. rewrite zdrop_app, ReadVarint2 by exact Hn. cbn [Z.eqb].
  pose proof (len_nonneg more). rewrite !len_app. change (len (appendVarint2 [] n)) with 2.
  rewrite (proj2 (Z.ltb_ge _ _)) by lia. reflexivity.
Qed.

(** Parsing looks at the high bits of the first byte alone, so [f] is it with
    or without its protection. *)
Lemma parse_long f t dc sc tok pl n body more k :
  (f .& 0x80 =? 0) = false -> (f .& 0x40 =? 0) = false -> (f .>> 4) .& 3 = t ->
  t = packetInitial \/ t = packet0RTT \/ t = packetHandshake -> 1 <= pl <= 4 -> 0 <= n -> pl + n + aeadOverhead < 2 ^ 14 ->
  len dc <= maxCIDLen -> len sc <= maxCIDLen -> len tok < 2 ^ 62 -> len body = pl + n + aeadOverhead ->
  let hdr := f :: tail (appendLong t dc sc tok pl n) in
  parseHeader (hdr ++ body ++ more) k =
  (mkHeader t Version1 dc sc (if t =? packetInitial then tok else []) (len hdr) (len hdr + len body), None).
Proof.
  intros H80 H40 Htyp Ht Hpl Hn Hlen Hd Hs Htok Hbody hdr. unfold hdr.
  assert (f :: tail (appendLong t dc sc tok pl n) = [f; 0; 0; 0; 1; len dc] ++ dc ++ [len sc] ++ sc ++
    (if t =? packetInitial then AppendVarint [] (len tok) ++ tok else []) ++ appendVarint2 [] (pl + n + aeadOverhead)) as ->
    by (rewrite appendLong_parts by assumption; reflexivity).
  change maxCIDLen with 20 in *. change aeadOverhead with 16 in *.
  pose proof (len_nonneg dc) as Hd0. pose proof (len_nonneg sc) as Hs0. pose proof (len_nonneg tok) as Ht0.
  set (T := if t =? packetInitial then AppendVarint [] (len tok) ++ tok else []).
  set (L := appendVarint2 [] (pl + n + 16)). set (tl := body ++ more). rewrite <- !app_assoc.
  set (b := [f; 0; 0; 0; 1; len dc] ++ dc ++ [len sc] ++ sc ++ T ++ L ++ tl).
  assert (len L = 2) as HL by reflexivity.
  assert (len tl = pl + n + 16 + len more) as Htl by (unfold tl; rewrite len_app; lia).
  pose proof (len_nonneg more) as Hm. pose proof (len_nonneg T) as HT.
  assert (len b = 7 + len dc + len sc + len T + 2 + len tl) as Hb.
  { unfold b. rewrite !len_app, HL. change (len [f; 0; 0; 0; 1; len dc]) with 6. change (len [len sc]) with 1. lia. }
  unfold parseHeader.
  rewrite (proj2 (Z.eqb_neq (len b) 0)) by lia.
  change (at_ b 0) with f. rewrite H80, (proj2 (Z.ltb_ge (len b) 7)) by lia.
  change (be32 (sub b 1 4)) with 1. change (at_ b 5) with (len dc). cbv zeta.
  rewrite (proj2 (Z.ltb_ge maxCIDLen (len dc))), (proj2 (Z.ltb_ge (len b) (6 + len dc + 1))) by (unfold maxCIDLen; lia).
  cbn [andb orb].
  assert (sub b 6 (len dc) = dc) as -> by (unfold b; now apply sub_mid).
  assert (at_ b (6 + len dc) = len sc) as ->.
  { unfold b. rewrite app_assoc. apply (at_mid _ (sc ++ T ++ L ++ tl)). rewrite len_app. reflexivity. }
  rewrite (proj2 (Z.ltb_ge maxCIDLen (len sc))), (proj2 (Z.ltb_ge (len b) (6 + len dc + 1 + len sc))) by (unfold maxCIDLen; lia).
  cbn [andb orb].
  assert (sub b (6 + len dc + 1) (len sc) = sc) as ->.
  { unfold b. rewrite app_assoc, (app_assoc _ [len sc]). apply sub_mid; [|reflexivity]. now rewrite !len_app. }
  change (1 =? Version1) with true. cbn [negb]. rewrite H40, Htyp.
  assert ((t =? packetRetry) = false) as -> by (apply Z.eqb_neq; destruct Ht as [-> | [-> | ->]]; discriminate).
  set (pre := [f; 0; 0; 0; 1; len dc] ++ dc ++ [len sc] ++ sc).
  assert (len pre = 6 + len dc + 1 + len sc) as Hpre.
  { unfold pre. rewrite !len_app. change (len [f; 0; 0; 0; 1; len dc]) with 6. change (len [len sc]) with 1. lia. }
  assert (b = pre ++ T ++ L ++ tl) as Eb by (unfold b, pre; now rewrite <- !app_assoc).
  rewrite Eb, <- Hpre, !len_app, HL.
  change (len [f; 0; 0; 0; 1; len dc]) with 6. change (len [len sc]) with 1.
  unfold T in *. destruct (t =? packetInitial).
  - rewrite zdrop_app, <- app_assoc.
    destruct (ReadVarint_AppendVarint (len tok) (tok ++ L ++ tl) ltac:(lia)) as [El ->].
    assert (1 <= VarintLen (len tok)) as Hv by (unfold VarintLen; repeat case_match; lia).
    rewrite (proj2 (Z.eqb_neq _ 0)) by lia. rewrite ?len_app, ?El, ?HL. cbn [orb].
    rewrite (proj2 (Z.ltb_ge _ _)) by lia.
    rewrite (app_assoc pre), sub_mid; [|now rewrite len_app, El|reflexivity].
    rewrite (app_assoc _ tok).
    replace (len pre + VarintLen (len tok) + len tok) with (len ((pre ++ AppendVarint [] (len tok)) ++ tok))
      by (rewrite !len_app, El; lia).
    unfold L, tl. rewrite parseLength_at by lia. cbn [typ version dcid scid token]. rewrite !len_app, El.
    f_equal. f_equal; lia.
  - cbn [app]. unfold L, tl. rewrite parseLength_at by lia. cbn [typ version dcid scid token].
    change (len []) with 0. f_equal. f_equal; lia.
Qed.

Lemma parse_short f dc body k :
  (f .& 0x80 =? 0) = true -> k = len dc ->
  parseHeader (f :: dc ++ body) k = (mkHeader packet1RTT 0 dc [] [] (1 + len dc) (1 + len dc + len body), None).
Proof.
  intros Hf ->. unfold parseHeader. pose proof (len_nonneg dc). pose proof (len_nonneg body).
  rewrite len_cons, len_app, (proj2 (Z.eqb_neq _ 0)) by lia. change (at_ (f :: dc ++ body) 0) with f. rewrite Hf.
  rewrite (proj2 (Z.ltb_ge _ _)) by lia. rewrite (sub_mid [f] dc body) by reflexivity. f_equal. f_equal. lia.
Qed.

(** ** Protection, proved *)

(** The numbers' bytes under the mask, from the mask's byte [1 + i] on. *)
Fixpoint xorFrom (i : nat) (m b : bytes) : bytes :=
  match b with
  | [] => []
  | x :: b => x .^ nth (1 + i) m 0 :: xorFrom (S i) m b
  end.

Lemma length_xorFrom i m b : length (xorFrom i m b) = length b.
Proof. revert i. induction b as [|x b IH]; intros i; cbn; auto. Qed.

Lemma xorFrom_involutive i m b : xorFrom i m (xorFrom i m b) = b.
Proof.
  revert i. induction b as [|x b IH]; intros i; cbn [xorFrom]; [reflexivity|]. rewrite IH. f_equal.
  now rewrite Z.lxor_assoc, Z.lxor_nilpotent, Z.lxor_0_r.
Qed.

Lemma maskPN_xor i pre mid post off m :
  (off + i)%nat = length pre -> maskPN i (length mid) (pre ++ mid ++ post) off m = pre ++ xorFrom i m mid ++ post.
Proof.
  revert i pre. induction mid as [|x mid IH]; intros i pre Hoff; cbn [length maskPN xorFrom]; [reflexivity|].
  rewrite Hoff. rewrite <- (Nat.add_0_r (length pre)), alter_app_r. cbn [app alter list_alter].
  change (?y :: mid ++ post) with ([y] ++ mid ++ post). rewrite (app_assoc pre), IH by (rewrite length_app; cbn; lia).
  now rewrite <- app_assoc.
Qed.

Lemma land_lxor_apart b m k c : k .& c = 0 -> (b .^ (m .& k)) .& c = b .& c.
Proof.
  intros H. apply Z.bits_inj'. intros i Hi. rewrite !Z.land_spec, Z.lxor_spec, Z.land_spec.
  apply (f_equal (fun x => Z.testbit x i)) in H. rewrite Z.land_spec, Z.bits_0 in H.
  destruct (Z.testbit b i), (Z.testbit m i), (Z.testbit k i), (Z.testbit c i); cbn in *; congruence.
Qed.

Lemma maskFirst_involutive m b0 : maskFirst m (maskFirst m b0) = b0.
Proof.
  unfold maskFirst. destruct (b0 .& 0x80 =? 0) eqn:E; cbn [negb];
    rewrite land_lxor_apart by reflexivity; rewrite E; cbn [negb];
    now rewrite Z.lxor_assoc, Z.lxor_nilpotent, Z.lxor_0_r.
Qed.

Lemma maskFirst_high m b0 :
  (maskFirst m b0 .& 0x80) = (b0 .& 0x80) /\
  ((b0 .& 0x80 =? 0) = false -> (maskFirst m b0 .& 0x40) = (b0 .& 0x40) /\ (maskFirst m b0 .>> 4) .& 3 = (b0 .>> 4) .& 3).
Proof.
  unfold maskFirst. split; [case_match; now apply land_lxor_apart|]. intros ->. cbn [negb].
  split; [now apply land_lxor_apart|]. rewrite Z.shiftr_lxor, Z.shiftr_land. change (0x0f .>> 4) with 0.
  now rewrite Z.land_0_r, Z.lxor_0_r.
Qed.

(** The bytes of a packet number, and back. *)
Lemma appendPN_app n b pn : appendPN n b pn = b ++ appendPN n [] pn.
Proof.
  revert b. induction n as [|n IH]; intros b; cbn [appendPN]; [now rewrite app_nil_r|].
  rewrite IH, (IH ([] ++ _)). now rewrite <- app_assoc.
Qed.

Lemma length_appendPN n pn : length (appendPN n [] pn) = n.
Proof. induction n as [|n IH]; cbn [appendPN]; [reflexivity|]. rewrite appendPN_app, length_app, IH. reflexivity. Qed.

Lemma readPN_appendPN n v pn :
  0 <= v < 2 ^ (64 - 8 * Z.of_nat n) -> (n <= 8)%nat -> 0 <= pn ->
  fold_left (fun v x => u64 (v .<< 8) .| x) (appendPN n [] pn) v = v * 2 ^ (8 * Z.of_nat n) + pn mod 2 ^ (8 * Z.of_nat n).
Proof.
  revert v. induction n as [|n IH]; intros v Hv Hn Hpn; cbn [appendPN].
  - cbn. rewrite Z.mod_1_r. lia.
  - rewrite appendPN_app, fold_left_app. cbn [fold_left app].
    set (k := 8 * Z.of_nat n) in *. assert (8 * Z.of_nat (S n) = k + 8) as E8 by lia. rewrite E8 in *.
    assert (0 <= u8 (pn .>> k) < 256) as Hb by (apply u8_byte).
    assert (2 ^ (64 - k) = 2 ^ (64 - (k + 8)) * 2 ^ 8) as Ew by (rewrite <- Z.pow_add_r by lia; f_equal; lia).
    assert (2 ^ (64 - k) <= 2 ^ 64) as Hle by (apply Z.pow_le_mono_r; lia). change (2 ^ 8) with 256 in Ew.
    rewrite Z.shiftl_mul_pow2 by lia. change (2 ^ 8) with 256. rewrite u64_id by lia.
    rewrite (lor_disjoint _ _ 8); [|lia|apply Z.mod_mul; lia|exact Hb].
    rewrite IH by lia. assert (0 < 2 ^ k) as Hk by lia.
    rewrite (Z.pow_add_r 2 k 8) by lia. change (2 ^ 8) with 256.
    rewrite (Z.rem_mul_r pn (2 ^ k) 256) by lia. unfold u8. rewrite Z.shiftr_div_pow2 by lia. change (2 ^ 8) with 256. lia.
Qed.

Lemma sub_app_r (a b : bytes) p n : len a <= p -> sub (a ++ b) p n = sub b (p - len a) n.
Proof.
  intros Hp. unfold sub, zdrop, len in *. rewrite drop_app_ge by lia. f_equal. f_equal. lia.
Qed.

Section Protect.
Context (mask : bytes -> bytes).
Context (aeadSeal : bytes -> bytes -> bytes -> bytes) (aeadOpen : bytes -> bytes -> bytes -> option bytes).

(** What cipher.AEAD documents: Open undoes Seal, and Seal adds its overhead. *)
Definition aead_laws : Prop :=
  (forall n p a, aeadOpen n (aeadSeal n p a) a = Some p) /\ (forall n p a, len (aeadSeal n p a) = len p + aeadOverhead).

(** A sealed packet: its first byte and its number under the mask of the
    ciphertext's sample, and nothing else of the header. *)
Lemma sealPlan_shape iv b0 h pl pn payload :
  1 <= pl <= 4 ->
  exists m ct, ct = aeadSeal (nonce iv pn) payload ((b0 :: h) ++ appendPN (Z.to_nat pl) [] pn) /\
    m = mask (sub ct (4 - pl) 16) /\
    sealPlan mask aeadSeal iv (b0 :: h) pl pn payload =
    (maskFirst m b0 :: h) ++ xorFrom 0 m (appendPN (Z.to_nat pl) [] pn) ++ ct.
Proof.
  intros Hpl. unfold sealPlan, seal. rewrite (appendPN_app _ (b0 :: h)). set (pnb := appendPN (Z.to_nat pl) [] pn).
  assert (len pnb = pl) as Hl by (unfold len, pnb; rewrite length_appendPN; lia).
  replace (len (b0 :: h) + pl) with (len ((b0 :: h) ++ pnb)) by (rewrite len_app; lia). rewrite ztake_app, zdrop_app.
  set (ct := aeadSeal _ payload _). exists (mask (sub ct (4 - pl) 16)), ct. splits; auto.
  rewrite sub_app_r by (rewrite len_app; lia). rewrite len_app, Hl.
  replace (len (b0 :: h) + 4 - (len (b0 :: h) + pl)) with (4 - pl) by lia. set (m := mask _).
  cbn [app alter list_alter].
  change (maskFirst m b0 :: (h ++ pnb) ++ ct) with ((maskFirst m b0 :: h ++ pnb) ++ ct).
  change (maskFirst m b0 :: h ++ pnb) with ((maskFirst m b0 :: h) ++ pnb). rewrite <- app_assoc.
  replace (Z.to_nat pl) with (length pnb) by (unfold len in Hl; lia).
  rewrite maskPN_xor; [reflexivity|]. unfold len. rewrite Nat2Z.id. cbn. lia.
Qed.

(** Taking the protection off a sealed packet, and opening it. *)
Lemma unprotect_sealed iv b0 h pl pn payload largest :
  aead_laws -> 1 <= pl <= 4 -> (b0 .& 3) + 1 = pl -> 4 <= pl + len payload -> 0 <= pn ->
  decodePN largest (pn mod 2 ^ (8 * pl)) pl = pn ->
  exists pkt, unprotect mask (sealPlan mask aeadSeal iv (b0 :: h) pl pn payload) (len (b0 :: h)) largest = Some (pkt, pn, pl) /\
    open aeadOpen iv pkt (len (b0 :: h) + pl) pn = Ok payload.
Proof.
  intros [Hopen Hover] Hpl Hb0 Hmin Hpn Hdec. destruct (sealPlan_shape iv b0 h pl pn payload Hpl) as (m & ct & Ect & Em & ->).
  set (pnb := appendPN (Z.to_nat pl) [] pn) in *. assert (len pnb = pl) as Hl by (unfold len, pnb; rewrite length_appendPN; lia).
  assert (len ct = len payload + 16) as Hct by (rewrite Ect; apply Hover). pose proof (len_nonneg payload).
  assert (len (xorFrom 0 m pnb) = pl) as Hx by (unfold len in *; now rewrite length_xorFrom).
  unfold unprotect. rewrite !len_app, Hx. change (len (maskFirst m b0 :: h)) with (len (b0 :: h)).
  rewrite (proj2 (Z.ltb_ge _ _)) by lia.
  rewrite (app_assoc _ (xorFrom 0 m pnb)), sub_app_r by (rewrite len_app, Hx; change (len (maskFirst m b0 :: h)) with (len (b0 :: h)); lia).
  rewrite len_app, Hx. change (len (maskFirst m b0 :: h)) with (len (b0 :: h)).
  replace (len (b0 :: h) + 4 - (len (b0 :: h) + pl)) with (4 - pl) by lia. rewrite <- Em, <- app_assoc.
  cbn [app alter list_alter]. rewrite maskFirst_involutive.
  change (at_ (b0 :: h ++ xorFrom 0 m pnb ++ ct) 0) with b0. rewrite Hb0.
  change (b0 :: h ++ xorFrom 0 m pnb ++ ct) with ((b0 :: h) ++ xorFrom 0 m pnb ++ ct).
  replace (Z.to_nat pl) with (length (xorFrom 0 m pnb)) by (unfold len in Hx; lia).
  rewrite maskPN_xor by (unfold len; rewrite Nat2Z.id; lia). rewrite xorFrom_involutive.
  rewrite sub_mid by auto. eexists. split; [f_equal; f_equal; f_equal|].
  - unfold readPN, pnb. rewrite readPN_appendPN by lia.
    rewrite Z.mul_0_l, Z.add_0_l, Z2Nat.id by lia. exact Hdec.
  - unfold open. rewrite app_assoc, <- Hl, <- len_app, zdrop_app, ztake_app, Ect. fold pnb. now rewrite Hopen.
Qed.

(** A header of another version: its connection IDs take a length byte each. *)
Lemma parse_unknown b k h :
  bytes_ok b -> parseHeader b k = (h, Some errUnknownVersion) -> len (dcid h) < 256 /\ len (scid h) < 256.
Proof.
  intros Hb. unfold parseHeader. destruct (len b =? 0); [discriminate|]. destruct (at_ b 0 .& 0x80 =? 0); [case_match; discriminate|].
  destruct (len b <? 7); [discriminate|].
  assert (forall p, is_byte (at_ b p)) as Hat.
  { intros p. unfold at_. destruct (nth_in_or_default (Z.to_nat p) b 0) as [Hin| ->]; [|unfold is_byte; lia].
    unfold bytes_ok in Hb. rewrite Forall_forall in Hb. now apply Hb. }
  assert (forall p n, is_byte n -> len (sub b p n) < 256) as Hsub.
  { intros p n [? ?]. unfold sub, ztake, len. rewrite length_take. lia. }
  destruct (_ || _); [discriminate|]. destruct (_ || _); [discriminate|].
  destruct (negb _); [intros [= <-]; cbn [dcid scid]; auto|]. destruct (_ =? 0); [discriminate|].
  assert (forall p h0, snd (parseLength b p h0) <> Some errUnknownVersion) as Hno.
  { intros p h0. unfold parseLength. destruct (ReadVarint _). repeat case_match; discriminate. }
  destruct (_ =? packetRetry); [discriminate|]. destruct (_ =? packetInitial).
  - destruct (ReadVarint _). destruct (_ || _); [discriminate|]. intros E. destruct (Hno _ _ (f_equal snd E)).
  - intros E. destruct (Hno _ _ (f_equal snd E)).
Qed.

(** A header of version 0 as VersionNegotiation writes it. *)
Lemma parse_negotiation f d s tl k :
  (f .& 0x80 =? 0) = false -> len d < 256 -> len s < 256 ->
  parseHeader ([f; 0; 0; 0; 0; len d] ++ d ++ [len s] ++ s ++ tl) k = (mkHeader 0 0 d s [] 0 0, Some errUnknownVersion).
Proof.
  intros Hf Hd Hs. set (b := [f; 0; 0; 0; 0; len d] ++ d ++ [len s] ++ s ++ tl).
  pose proof (len_nonneg d). pose proof (len_nonneg s). pose proof (len_nonneg tl).
  assert (len b = 7 + len d + len s + len tl) as Hb.
  { unfold b. rewrite !len_app. change (len [f; 0; 0; 0; 0; len d]) with 6. change (len [len s]) with 1. lia. }
  unfold parseHeader. rewrite (proj2 (Z.eqb_neq (len b) 0)) by lia. change (at_ b 0) with f.
  rewrite Hf, (proj2 (Z.ltb_ge (len b) 7)) by lia. change (be32 (sub b 1 4)) with 0. change (at_ b 5) with (len d). cbv zeta.
  change (0 =? Version1) with false. rewrite !andb_false_r. cbn [orb].
  rewrite (proj2 (Z.ltb_ge (len b) (6 + len d + 1))) by lia.
  assert (sub b 6 (len d) = d) as -> by (unfold b; now apply sub_mid).
  assert (at_ b (6 + len d) = len s) as -> by (unfold b; rewrite app_assoc; apply (at_mid _ (s ++ tl)); now rewrite len_app).
  rewrite (proj2 (Z.ltb_ge (len b) (6 + len d + 1 + len s))) by lia.
  assert (sub b (6 + len d + 1) (len s) = s) as ->
    by (unfold b; rewrite app_assoc, (app_assoc _ [len s]); apply sub_mid; [now rewrite !len_app|reflexivity]).
  reflexivity.
Qed.

(** ** Properties *)

(** DecodePN recovers a packet number from as many of its low bytes as pnLen
    says to send, for a receiver that has received what the sender knows to be
    acknowledged and is not half a window past the packet. *)
Theorem packet_number_roundtrip (pn largestAcked largest : Z) :
  0 <= pn < 2 ^ 62 -> -1 <= largestAcked < pn -> largestAcked <= largest < 2 ^ 62 -> pn - largestAcked < 2 ^ 31 ->
  largest < pn + 2 ^ (8 * pnLen pn largestAcked - 1) - 1 ->
  1 <= pnLen pn largestAcked <= 4 /\
  decodePN largest (pn mod 2 ^ (8 * pnLen pn largestAcked)) (pnLen pn largestAcked) = pn.
Proof. apply pnLen_enough. Qed.

(** What a receiver has seen of a space when the packet numbered [pn] reaches it: as much as the sender knows to be
    acknowledged, and nothing half a window past the packet. *)
Record inReach (pn largestAcked largest : Z) : Prop := {
  ir_pn : 0 <= pn < 2 ^ 62;
  ir_acked : -1 <= largestAcked < pn /\ pn - largestAcked < 2 ^ 31;
  ir_seen : largestAcked <= largest < 2 ^ 62;
  ir_window : largest < pn + 2 ^ (8 * pnLen pn largestAcked - 1) - 1
}.

Lemma inReach_decodes pn la largest : inReach pn la largest -> 1 <= pnLen pn la <= 4 /\ decodePN largest (pn mod 2 ^ (8 * pnLen pn la)) (pnLen pn la) = pn.
Proof. intros [H1 [H2 H3] H4 H5]. now apply pnLen_enough. Qed.

(** C30: a long header packet as sealPlan builds it, with as many bytes of its number as pnLen says, at the front of a
    datagram that may hold more packets: the receiver parses its type, connection IDs and token and where it ends,
    takes its header protection off, recovers its whole packet number from those bytes and the largest it has seen,
    and opens its payload, for an AEAD with the documented laws and any header protection mask. *)
Theorem long_packet_roundtrip (iv : bytes) (t : Z) (dc sc tok payload more : bytes) (pn largestAcked largest k : Z) :
  aead_laws -> t = packetInitial \/ t = packet0RTT \/ t = packetHandshake -> inReach pn largestAcked largest ->
  let pl := pnLen pn largestAcked in
  4 <= pl + len payload -> pl + len payload + aeadOverhead < 2 ^ 14 ->
  len dc <= maxCIDLen -> len sc <= maxCIDLen -> len tok < 2 ^ 62 ->
  let hdr := appendLong t dc sc tok pl (len payload) in
  let sealed := sealPlan mask aeadSeal iv hdr pl pn payload in
  parseHeader (sealed ++ more) k =
    (mkHeader t Version1 dc sc (if t =? packetInitial then tok else []) (len hdr) (len sealed), None) /\
  exists pkt, unprotect mask sealed (len hdr) largest = Some (pkt, pn, pl) /\ open aeadOpen iv pkt (len hdr + pl) pn = Ok payload.
Proof.
  intros Hlaws Ht Hr pl Hmin Hmax Hd Hs Htok. destruct (inReach_decodes _ _ _ Hr) as [Hpl Hdec]. fold pl in Hpl, Hdec. pose proof (proj1 (ir_pn _ _ _ Hr)) as Hpn. clearbody pl. cbv zeta.
  pose proof (appendLong_parts t dc sc tok pl (len payload) Hd Hs) as Eparts.
  set (hdr := appendLong t dc sc tok pl (len payload)) in *.
  assert (0 <= t <= 3) as Ht3 by (destruct Ht as [-> | [-> | ->]]; unfold packetInitial, packet0RTT, packetHandshake; lia).
  destruct (long_first t pl Ht3 Hpl) as (_ & H80 & H40 & Htyp & Hlow).
  set (b0 := (0xc0 .| u8 (t .<< 4)) .| u8 (pl - 1)) in *.
  assert (hdr = b0 :: tail hdr) as Ehdr by (rewrite Eparts; reflexivity).
  split; [|rewrite Ehdr; now apply unprotect_sealed].
  destruct (sealPlan_shape iv b0 (tail hdr) pl pn payload Hpl) as (m & ct & Ect & Em & Eseal). rewrite <- Ehdr in Eseal.
  rewrite Eseal, <- app_assoc. destruct Hlaws as [_ Hover].
  assert (len (xorFrom 0 m (appendPN (Z.to_nat pl) [] pn) ++ ct) = pl + len payload + 16) as Hbody.
  { rewrite len_app, Ect, Hover. unfold len at 1. rewrite length_xorFrom, length_appendPN. change aeadOverhead with 16. lia. }
  destruct (maskFirst_high m b0) as [Hm80 Hm]. destruct (Hm H80) as [Hm40 Hmt].
  rewrite (parse_long (maskFirst m b0) t dc sc tok pl (len payload)); auto; try congruence; try apply len_nonneg.
  fold hdr. f_equal. f_equal; [rewrite Ehdr at 2; reflexivity|]. symmetry. apply len_app.
Qed.

(** The same of a short header packet, for a receiver that knows the length
    of its own connection IDs. *)
Theorem short_packet_roundtrip (iv : bytes) (phase : bool) (dc payload : bytes) (pn largestAcked largest : Z) :
  aead_laws -> inReach pn largestAcked largest -> let pl := pnLen pn largestAcked in 4 <= pl + len payload ->
  let hdr := appendShort phase dc pl in
  let sealed := sealPlan mask aeadSeal iv hdr pl pn payload in
  parseHeader sealed (len dc) = (mkHeader packet1RTT 0 dc [] [] (len hdr) (len sealed), None) /\
  exists pkt, unprotect mask sealed (len hdr) largest = Some (pkt, pn, pl) /\ open aeadOpen iv pkt (len hdr + pl) pn = Ok payload.
Proof.
  intros Hlaws Hr pl Hmin. destruct (inReach_decodes _ _ _ Hr) as [Hpl Hdec]. fold pl in Hpl, Hdec. pose proof (proj1 (ir_pn _ _ _ Hr)) as Hpn. clearbody pl. cbv zeta. unfold appendShort.
  set (b0 := if phase then _ else _).
  assert ((b0 .& 0x80 =? 0) = true /\ (b0 .& 3) + 1 = pl) as [H80 Hlow].
  { unfold b0. assert (pl = 1 \/ pl = 2 \/ pl = 3 \/ pl = 4) as [-> | [-> | [-> | ->]]] by lia; destruct phase; split; reflexivity. }
  split; [|now apply unprotect_sealed].
  destruct (sealPlan_shape iv b0 dc pl pn payload Hpl) as (m & ct & _ & _ & ->). cbn [app].
  destruct (maskFirst_high m b0) as [Hm80 _]. rewrite parse_short; [|now rewrite Hm80|reflexivity].
  rewrite !len_cons, !len_app. f_equal. f_equal. lia.
Qed.

End Protect.

(** A header parseHeader accepts lies within the datagram: the packet number
    starts no later than the packet ends, and the packet ends within the bytes
    given, however they are chosen. *)
Theorem parseHeader_bounds (b : bytes) (k : Z) (h : header) :
  bytes_ok b -> 0 <= k -> parseHeader b k = (h, None) -> 0 <= pnOffset h <= h_end h /\ h_end h <= len b.
Proof.
  intros Hb Hk. pose proof (len_nonneg b) as Hl.
  assert (forall p h0, 0 <= p -> parseLength b p h0 = (h, None) -> 0 <= pnOffset h <= h_end h /\ h_end h <= len b) as Hlen.
  { intros p h0 Hp. unfold parseLength.
    destruct (ReadVarint_spec (zdrop p b)) as [[-> _]|(v & t & -> & Ht & _ & Hv)]; [now apply Forall_drop|discriminate|].
    assert (0 < 2 ^ t) by lia. rewrite (proj2 (Z.eqb_neq _ 0)) by lia.
    destruct (Z.ltb_spec (len b - (p + 2 ^ t)) v); [discriminate|]. intros [= <-]. cbn [pnOffset h_end]. lia. }
  unfold parseHeader. destruct (len b =? 0); [discriminate|]. destruct (at_ b 0 .& 0x80 =? 0).
  { destruct (Z.ltb_spec (len b) (1 + k)); [discriminate|]. intros [= <-]. cbn [pnOffset h_end]. lia. }
  destruct (len b <? 7); [discriminate|].
  assert (forall p, 0 <= at_ b p) as Hat.
  { intros p. unfold at_. destruct (nth_in_or_default (Z.to_nat p) b 0) as [Hin| ->]; [|lia].
    unfold bytes_ok in Hb. rewrite Forall_forall in Hb. now apply Hb in Hin as [? _]. }
  pose proof (Hat 5) as Hdl. destruct (_ || _); [discriminate|].
  pose proof (Hat (6 + at_ b 5)) as Hsl. destruct (_ || _); [discriminate|].
  destruct (negb _); [discriminate|]. destruct (_ =? 0); [discriminate|].
  destruct (_ =? packetRetry); [intros [= <-]; cbn [pnOffset h_end]; lia|].
  destruct (_ =? packetInitial); [|apply Hlen; lia].
  set (p := 6 + at_ b 5 + 1 + at_ b (6 + at_ b 5)).
  destruct (ReadVarint_spec (zdrop p b)) as [[-> _]|(v & t & -> & Ht & _ & Hv)]; [now apply Forall_drop|discriminate|].
  assert (0 < 2 ^ t) by lia. rewrite (proj2 (Z.eqb_neq _ 0)) by lia. cbn [orb].
  destruct (_ <? v); [discriminate|]. apply Hlen. unfold p. lia.
Qed.

(** A version negotiation packet answers with the peer's connection IDs
    swapped and version 0, which parseHeader reads back, and which is never
    itself answered, so two endpoints cannot keep each other answering. *)
Theorem VersionNegotiation_reply (r r' : Z) (datagram out : bytes) :
  is_byte r -> bytes_ok datagram -> VersionNegotiation r datagram = Some out ->
  VersionNegotiation r' out = None /\
  (parseHeader out 0).2 = Some errUnknownVersion /\ version (parseHeader out 0).1 = 0 /\
  dcid (parseHeader out 0).1 = scid (parseHeader datagram 0).1 /\ scid (parseHeader out 0).1 = dcid (parseHeader datagram 0).1.
Proof.
  intros Hr Hb. unfold VersionNegotiation at 1. destruct (parseHeader datagram 0) as [h err] eqn:Eh.
  destruct (bool_decide_reflect (err = Some errUnknownVersion)) as [->|]; cbn [negb orb]; [|discriminate].
  destruct (version h =? 0); cbn [orb]; [discriminate|]. destruct (len datagram <? minInitialDatagram); [discriminate|].
  intros [= <-]. destruct (parse_unknown _ _ _ Hb Eh) as [Hd Hs]. cbn [fst].
  pose proof (len_nonneg (dcid h)). pose proof (len_nonneg (scid h)).
  assert (((0x80 .| r) .& 0x80 =? 0) = false) as Hf by byte_check r.
  match goal with |- VersionNegotiation _ ?o = None /\ _ => assert (exists tl,
    o = [0x80 .| r; 0; 0; 0; 0; len (scid h)] ++ scid h ++ [len (dcid h)] ++ dcid h ++ tl) as [tl ->] end.
  { rewrite (u8_id (len (scid h))), (u8_id (len (dcid h))) by (unfold is_byte; lia).
    unfold appendBe32. rewrite <- !app_assoc. cbn [app]. rewrite <- !app_assoc. cbn [app]. eexists. reflexivity. }
  pose proof (parse_negotiation (0x80 .| r) (scid h) (dcid h) tl 0 Hf Hs Hd) as Ep.
  rewrite Ep. splits; auto.
  unfold VersionNegotiation. rewrite Ep. cbn [version]. now rewrite orb_true_r.
Qed.

(** A stateless reset is smaller than the datagram it answers, so that two
    endpoints resetting each other run out of bytes; it looks like a short header
    packet, and ends with the token of the connection ID it answers. *)
Theorem StatelessReset_shrinks (rnd : Z -> bytes) (tok : bytes -> bytes) (datagram out : bytes) :
  (forall n, 0 <= n -> len (rnd n) = n) -> (forall c, len (tok c) = statelessResetTokenLen) ->
  StatelessReset rnd tok datagram = Some out ->
  len out < len datagram /\ len out <= 64 /\ (exists pre, out = pre ++ tok (sub datagram 1 cidLen)) /\ at_ out 0 .& 0xc0 = 0x40.
Proof.
  intros Hrnd Htok. unfold StatelessReset. change (1 + cidLen + 21) with 30. change statelessResetTokenLen with 16 in *.
  destruct (Z.ltb_spec (len datagram) 30); [discriminate|]. destruct (negb _); [discriminate|]. cbn [orb]. intros [= <-].
  set (size := Z.min (len datagram - 1) 64). assert (29 <= size <= 64) as Hs by (unfold size; lia).
  assert (len (rnd (size - 16)) = size - 16) as Hl by (apply Hrnd; lia).
  assert (forall f, len (alter f 0%nat (rnd (size - 16))) = size - 16) as Hal
    by (intros f; unfold len in *; now rewrite length_alter).
  rewrite len_app, Htok, Hal.
  split; [unfold size; lia|]. split; [unfold size; lia|]. split; [eexists; reflexivity|].
  destruct (rnd (size - 16)) as [|x l]; [change (len []) with 0 in Hl; lia|]. cbn [alter list_alter app]. change (at_ (?y :: ?z) 0) with y.
  apply Z.bits_inj'. intros i Hi. rewrite Z.land_spec, Z.lor_spec, Z.land_spec.
  destruct (Z.lt_ge_cases i 8) as [Hlt|Hge].
  - assert (i = 0 \/ i = 1 \/ i = 2 \/ i = 3 \/ i = 4 \/ i = 5 \/ i = 6 \/ i = 7) as Hc by lia.
    destruct Hc as [-> | [-> | [-> | [-> | [-> | [-> | [-> | ->]]]]]]]; cbn; rewrite ?andb_false_r, ?orb_true_r; reflexivity.
  - rewrite !(testbit_small 0xc0 8), (testbit_small 0x40 8) by lia. now rewrite andb_false_r.
Qed.

(** ** Witnesses *)

Definition testMask (s : bytes) : bytes := take 5 s.
Definition testSeal (n p a : bytes) : bytes := p ++ replicate 16 7.
Definition testOpen (n c a : bytes) : option bytes := Some (ztake (len c - 16) c).

Lemma test_laws : aead_laws testSeal testOpen.
Proof.
  split; intros n p a; unfold testOpen, testSeal; rewrite len_app; change (len (replicate 16 7)) with 16; [|reflexivity].
  replace (len p + 16 - 16) with (len p) by lia. now rewrite ztake_app.
Qed.

Lemma packet_number_roundtrip_witness :
  1 <= pnLen 0xac5c02 0xabe8b3 <= 4 /\ decodePN 0xac5c00 (0xac5c02 mod 2 ^ (8 * pnLen 0xac5c02 0xabe8b3)) (pnLen 0xac5c02 0xabe8b3) = 0xac5c02.
Proof. apply (packet_number_roundtrip 0xac5c02 0xabe8b3 0xac5c00); vm_compute; auto; split; discriminate || reflexivity. Defined.

(** The packet of RFC 9000's example: two bytes are enough of its number. *)
Lemma test_reach : inReach 0xac5c02 0xabe8b3 0xac5c00.
Proof. split; vm_compute; intuition congruence. Qed.

Lemma long_packet_roundtrip_witness :
  let hdr := appendLong packetInitial [1; 2; 3] [4] [5; 6] 2 (len [9; 9; 9]) in
  let sealed := sealPlan testMask testSeal (replicate 12 1) hdr 2 0xac5c02 [9; 9; 9] in
  parseHeader (sealed ++ [0; 0]) 8 = (mkHeader packetInitial Version1 [1; 2; 3] [4] [5; 6] (len hdr) (len sealed), None) /\
  exists pkt, unprotect testMask sealed (len hdr) 0xac5c00 = Some (pkt, 0xac5c02, 2) /\ open testOpen (replicate 12 1) pkt (len hdr + 2) 0xac5c02 = Ok [9; 9; 9].
Proof.
  apply (long_packet_roundtrip testMask testSeal testOpen (replicate 12 1) packetInitial [1; 2; 3] [4] [5; 6] [9; 9; 9] [0; 0] 0xac5c02 0xabe8b3 0xac5c00 8 test_laws (or_introl eq_refl) test_reach);
    vm_compute; (reflexivity || discriminate).
Defined.

Lemma short_packet_roundtrip_witness :
  let hdr := appendShort true [1; 2; 3] 2 in
  let sealed := sealPlan testMask testSeal (replicate 12 1) hdr 2 0xac5c02 [9; 9; 9] in
  parseHeader sealed (len [1; 2; 3]) = (mkHeader packet1RTT 0 [1; 2; 3] [] [] (len hdr) (len sealed), None) /\
  exists pkt, unprotect testMask sealed (len hdr) 0xac5c00 = Some (pkt, 0xac5c02, 2) /\ open testOpen (replicate 12 1) pkt (len hdr + 2) 0xac5c02 = Ok [9; 9; 9].
Proof. apply (short_packet_roundtrip testMask testSeal testOpen (replicate 12 1) true [1; 2; 3] [9; 9; 9] 0xac5c02 0xabe8b3 0xac5c00 test_laws test_reach). vm_compute. discriminate. Defined.

Lemma parseHeader_bounds_witness :
  exists h, parseHeader [0x40; 1; 2; 3; 4; 5; 6; 7; 8; 9] 8 = (h, None) /\ 0 <= pnOffset h <= h_end h /\ h_end h <= len [0x40; 1; 2; 3; 4; 5; 6; 7; 8; 9].
Proof.
  eexists. split; [reflexivity|]. apply (parseHeader_bounds [0x40; 1; 2; 3; 4; 5; 6; 7; 8; 9] 8); [|lia|reflexivity].
  repeat (apply List.Forall_cons; [unfold is_byte; lia|]). apply List.Forall_nil.
Defined.

(** A long header of version 2, padded out. *)
Definition testUnknown : bytes := [0xc0; 0; 0; 0; 2; 1; 11; 2; 21; 22] ++ replicate 1190 0.

Lemma VersionNegotiation_reply_witness :
  exists out, VersionNegotiation 3 testUnknown = Some out /\ VersionNegotiation 4 out = None /\
  (parseHeader out 0).2 = Some errUnknownVersion /\ version (parseHeader out 0).1 = 0 /\
  dcid (parseHeader out 0).1 = scid (parseHeader testUnknown 0).1 /\ scid (parseHeader out 0).1 = dcid (parseHeader testUnknown 0).1.
Proof.
  eexists. split; [vm_compute; reflexivity|].
  apply (VersionNegotiation_reply 3 4 testUnknown); [unfold is_byte; lia| |vm_compute; reflexivity].
  apply Forall_app. split; [repeat (apply List.Forall_cons; [unfold is_byte; lia|]); apply List.Forall_nil|].
  apply Forall_replicate. unfold is_byte. lia.
Defined.

Lemma StatelessReset_shrinks_witness :
  exists out, StatelessReset (fun n => replicate (Z.to_nat n) 0xff) (fun _ => replicate 16 1) (replicate 40 0x41) = Some out /\
  len out < len (replicate 40 0x41) /\ len out <= 64 /\
  (exists pre, out = pre ++ (fun _ : bytes => replicate 16 1) (sub (replicate 40 0x41) 1 cidLen)) /\ at_ out 0 .& 0xc0 = 0x40.
Proof.
  eexists. split; [vm_compute; reflexivity|].
  apply (StatelessReset_shrinks (fun n => replicate (Z.to_nat n) 0xff) (fun _ => replicate 16 1) (replicate 40 0x41));
    [intros n Hn; unfold len; rewrite length_replicate; lia|reflexivity|vm_compute; reflexivity].
Defined.

End Packet.
