(* ===== verification/QuicFrames.v ===== *)
(** * QUIC frames (src/http3/quic/frames.go)

    The frames this side writes, the acknowledgement frame both ways, and the
    handlers of the frames that keep state of their own: ACK_FREQUENCY,
    PATH_CHALLENGE and NEW_CONNECTION_ID. *)

From S2P Require Import Prelude QuicVarint QuicRanges.
From stdpp Require Import base list numbers gmap.
From Stdlib Require Import ZArith Lia.

Local Open Scope Z_scope.
Local Open Scope go_scope.

Module Frames.
Import Varint.
Import Ranges.

Definition framePadding : Z := 0x00.
Definition framePing : Z := 0x01.
Definition frameAck : Z := 0x02.
Definition frameAckECN : Z := 0x03.
Definition frameResetStream : Z := 0x04.
Definition frameStopSending : Z := 0x05.
Definition frameMaxStreamData : Z := 0x11.
Definition frameStreamDataBlocked : Z := 0x15.
Definition frameConnectionClose : Z := 0x1c.
Definition frameConnectionCloseApp : Z := 0x1d.

(** The transport error codes the handlers close the connection with. *)
Inductive terr : Type := errFrameEncoding | errProtocolViolation | errConnectionIDLimit | errExcessiveLoad.

#[export] Instance terr_eq_dec : EqDecision terr.
Proof. solve_decision. Defined.

Definition errInternal : Z := 0x01.
Definition errApplication : Z := 0x0c.

(** Go's signed 64-bit wrap-around, for durations. *)
Definition i64 (x : Z) : Z := (x + 2 ^ 63) mod 2 ^ 64 - 2 ^ 63.

(** ** Writers *)

Definition appendStopSending (b : bytes) (id code : Z) : bytes :=
  AppendVarint (AppendVarint (b ++ [frameStopSending]) id) code.

Definition appendMaxStreamData (b : bytes) (id max : Z) : bytes :=
  AppendVarint (AppendVarint (b ++ [frameMaxStreamData]) id) max.

Definition appendStreamDataBlocked (b : bytes) (id at_ : Z) : bytes :=
  AppendVarint (AppendVarint (b ++ [frameStreamDataBlocked]) id) at_.

Definition appendResetStream (b : bytes) (id code finalSize : Z) : bytes :=
  AppendVarint (AppendVarint (AppendVarint (b ++ [frameResetStream]) id) code) finalSize.

(** The errors a connection is closed with. *)
Inductive closeError : Type :=
| ApplicationError (Code : Z) (Reason : bytes)
| TransportError (Code : Z) (Reason : bytes)
| OtherError.

Definition appendConnectionClose (b : bytes) (err : closeError) (oneRTT : bool) : bytes :=
  match err with
  | ApplicationError code reason =>
      if oneRTT then
        AppendVarint (AppendVarint (b ++ [frameConnectionCloseApp]) code) (len reason) ++ reason
      else AppendVarint (AppendVarint (AppendVarint (b ++ [frameConnectionClose]) errApplication) 0) 0
  | TransportError code reason =>
      let b := AppendVarint (AppendVarint (b ++ [frameConnectionClose]) code) 0 in
      let reason := if 256 <? len reason then ztake 256 reason else reason in
      AppendVarint b (len reason) ++ reason
  | OtherError => AppendVarint (AppendVarint (AppendVarint (b ++ [frameConnectionClose]) errInternal) 0) 0
  end.

(** [for i := len(r) - 2; i >= 0; i--]: the ranges below, from the top. *)
Fixpoint appendGaps (b : bytes) (prev : Z) (below : list pnRange) : bytes :=
  match below with
  | [] => b
  | x :: below =>
      let b := AppendVarint b (u64 (prev - hi x - 2)) in
      let b := AppendVarint b (u64 (hi x - lo x)) in
      appendGaps b (lo x) below
  end.

(** The acknowledgement delay of the application space, the time since the
    largest packet came in units of this side's exponent; times are nanoseconds. *)
Definition ackDelay (isApp : bool) (largestRecvTime exponent now : Z) : Z :=
  if isApp then u64 (Z.quot (now - largestRecvTime) 1000) .>> exponent else 0.

(** [None] is the panic of [r[len(r)-1]] where nothing has been received. *)
Definition appendAck (b : bytes) (r : rangeSet) (isApp : bool) (largestRecvTime exponent now : Z) : option bytes :=
  match reverse r with
  | [] => None
  | largest :: below =>
      let delay := ackDelay isApp largestRecvTime exponent now in
      let b := b ++ [frameAck] in
      let b := AppendVarint b (hi largest) in
      let b := AppendVarint b delay in
      let b := AppendVarint b (len r - 1) in
      let b := AppendVarint b (u64 (hi largest - lo largest)) in
      Some (appendGaps b (lo largest) below)
  end.

(** ** Reading an acknowledgement *)

Fixpoint ackLoop (count : nat) (r : reader) (smallest : Z) (ranges : list pnRange) : option (reader * list pnRange) :=
  match count with
  | O => Some (r, ranges)
  | S count =>
      let '(gap, r) := varint r in
      let '(length, r) := varint r in
      if r_bad r || (smallest <? u64 (gap + 2)) || (u64 (smallest - gap - 2) <? length) then None
      else
        let h := u64 (smallest - gap - 2) in
        let smallest := u64 (h - length) in
        ackLoop count r smallest (ranges ++ [mkRange smallest h])
  end.

(** handleAckFrame up to the call of onAckReceived: the ranges, largest first,
    and the delay in nanoseconds. [peer] is the peer's exponent, once its
    parameters are known. *)
Definition handleAckFrame (r : reader) (ecn : bool) (peer : option Z) : res terr (list pnRange * Z) * reader :=
  let '(largest, r) := varint r in
  let '(delay, r) := varint r in
  let '(count, r) := varint r in
  let '(first, r) := varint r in
  if r_bad r || (largest <? first) || (1 .<< 16 <? count) then (Err errFrameEncoding, r)
  else
    match ackLoop (Z.to_nat count) r (largest - first) [mkRange (largest - first) largest] with
    | None => (Err errFrameEncoding, r)
    | Some (r, ranges) =>
        let r := if ecn then let '(_, r) := varint r in let '(_, r) := varint r in let '(_, r) := varint r in r else r in
        if r_bad r then (Err errFrameEncoding, r)
        else
          let exp := match peer with Some exp => exp | None => 3 end in
          (Ok (ranges, i64 (i64 (u64 (delay .<< exp)) * 1000)), r)
    end.

(** ** ACK_FREQUENCY *)

Record ackFrequency : Type := mkFreq { f_valid : bool; f_seq : Z; f_threshold : Z; f_maxDelay : Z; f_reordering : Z }.

(** Durations are nanoseconds; [minAckDelay] is this side's own. *)
Definition handleAckFrequency (f : ackFrequency) (minAckDelay : Z) (r : reader) : res terr ackFrequency * reader :=
  let '(seq, r) := varint r in
  let '(threshold, r) := varint r in
  let '(delay, r) := varint r in
  let '(reordering, r) := varint r in
  if r_bad r then (Err errFrameEncoding, r)
  else if f_valid f && (seq <=? f_seq f) then (Ok f, r)
  else if ((1 .<< 14) * 1000 <=? delay) || (i64 (delay * 1000) <? minAckDelay) then (Err errProtocolViolation, r)
  else (Ok (mkFreq true seq threshold (i64 (delay * 1000)) reordering), r).

(** ** PATH_CHALLENGE *)

Definition maxPathResponses : nat := 4.

Definition queuePathResponse (q : list bytes) (data : bytes) : list bytes :=
  let q := if (maxPathResponses <=? length q)%nat then drop (length q - maxPathResponses + 1) q else q in
  q ++ [data].

(** ** Lemmas *)

Lemma varint_read v rest bad : 0 <= v < 2 ^ 62 -> varint (mkReader (AppendVarint [] v ++ rest) bad) = (v, mkReader rest bad).
Proof.
  intros Hv. unfold varint. cbn [r_b r_bad]. destruct (ReadVarint_AppendVarint v rest Hv) as [El ->].
  assert (1 <= VarintLen v) by (unfold VarintLen; repeat case_match; lia).
  rewrite (proj2 (Z.eqb_neq _ 0)) by lia. now rewrite <- El, zdrop_app.
Qed.

Lemma i64_id x : - 2 ^ 63 <= x < 2 ^ 63 -> i64 x = x.
Proof. intros Hx. unfold i64. rewrite Z.mod_small; lia. Qed.

Lemma read_bytes_app s n rest bad : len s = n -> read_bytes (mkReader (s ++ rest) bad) n = (s, mkReader rest bad).
Proof.
  intros <-. unfold read_bytes. cbn [r_b r_bad]. rewrite len_app, (proj2 (Z.ltb_ge _ _)) by (pose proof (len_nonneg rest); lia).
  now rewrite ztake_app, zdrop_app.
Qed.

(** What a read leaves: the numbers are in range whatever the bytes. *)
Lemma varint_range r v r' : bytes_ok (r_b r) -> varint r = (v, r') -> 0 <= v < 2 ^ 62 /\ bytes_ok (r_b r').
Proof.
  intros Hb. unfold varint. destruct (ReadVarint_spec (r_b r) Hb) as [[-> _]|(x & t & -> & Ht & Hl & Hx)].
  - intros [= <- <-]. split; [lia|apply List.Forall_nil].
  - assert (0 < 2 ^ t) by lia. rewrite (proj2 (Z.eqb_neq _ 0)) by lia. intros [= <- <-]. split; [|now apply Forall_drop].
    assert (2 ^ (8 * 2 ^ t - 2) <= 2 ^ 62); [|lia]. apply Z.pow_le_mono_r; [lia|].
    assert (2 ^ t <= 2 ^ 3) by (apply Z.pow_le_mono_r; lia). lia.
Qed.

Lemma appendGaps_app b prev below : appendGaps b prev below = b ++ appendGaps [] prev below.
Proof.
  revert b prev. induction below as [|x below IH]; intros b prev; cbn [appendGaps]; [now rewrite app_nil_r|].
  rewrite IH, (IH (AppendVarint (AppendVarint [] _) _)).
  rewrite (AppendVarint_app (AppendVarint b _)), (AppendVarint_app b), (AppendVarint_app (AppendVarint [] _)).
  now rewrite <- !app_assoc.
Qed.

(** Ranges from the top down, [prev] the low end of the one above. *)
Fixpoint descending (prev : Z) (rs : list pnRange) : Prop :=
  match rs with
  | [] => True
  | x :: rs => 0 <= lo x <= hi x /\ hi x + 2 <= prev /\ descending (lo x) rs
  end.

Lemma ackLoop_gaps below prev acc rest :
  0 <= prev < 2 ^ 62 -> descending prev below ->
  ackLoop (length below) (mkReader (appendGaps [] prev below ++ rest) false) prev acc =
  Some (mkReader rest false, acc ++ below).
Proof.
  revert prev acc. induction below as [|x below IH]; intros prev acc Hp Hd; cbn [appendGaps ackLoop length].
  - now rewrite app_nil_r.
  - destruct Hd as (Hx & Hgap & Hd). rewrite !u64_id by lia.
    rewrite appendGaps_app, (AppendVarint_app (AppendVarint [] _)), <- !app_assoc.
    rewrite varint_read by lia. cbn beta iota. rewrite varint_read by lia. cbn [r_bad orb].
    rewrite (u64_id (prev - hi x - 2 + 2)), (proj2 (Z.ltb_ge prev _)) by lia.
    replace (prev - (prev - hi x - 2) - 2) with (hi x) by lia. rewrite (u64_id (hi x)), (proj2 (Z.ltb_ge (hi x) _)) by lia. cbn [orb].
    replace (hi x - (hi x - lo x)) with (lo x) by lia. rewrite u64_id by lia. rewrite IH by (try lia; exact Hd).
    rewrite <- app_assoc. now destruct x.
Qed.

(** The kept set read from its end. *)
Lemma wf_descending from r x :
  0 <= from -> wf from (to_span <$> r ++ [x]) -> 0 <= lo x <= hi x /\ descending (lo x) (reverse r).
Proof.
  revert x. induction r as [|y r IH] using rev_ind; intros x Hf Hw.
  - cbn in Hw. cbn. split; [lia|exact I].
  - rewrite fmap_app, wf_app in Hw. destruct Hw as [Hw [Hx _]]. cbn [to_span s_off s_end] in Hx.
    destruct (IH y Hf Hw) as [Hy Hd].
    assert (after from (to_span <$> r ++ [y]) = hi y + 1 + 1) as Ea.
    { clear. revert from. induction r as [|z r IH]; intros from; cbn; [reflexivity|apply IH]. }
    rewrite Ea in Hx. split; [lia|]. rewrite reverse_snoc. cbn. splits; auto; lia.
Qed.

(** Ranges the loop has read, from the top: each below the last with a gap. *)
Lemma ackLoop_descending count r smallest acc r' ranges :
  bytes_ok (r_b r) -> 0 <= smallest < 2 ^ 62 ->
  ackLoop count r smallest acc = Some (r', ranges) ->
  bytes_ok (r_b r') /\ exists below, ranges = acc ++ below /\ descending smallest below /\ length below = count.
Proof.
  revert r smallest acc. induction count as [|count IH]; intros r smallest acc Hb Hs; cbn [ackLoop].
  - intros [= <- <-]. split; [exact Hb|]. exists []. rewrite app_nil_r. splits; auto; exact I.
  - destruct (varint r) as [gap r1] eqn:E1. destruct (varint_range _ _ _ Hb E1) as [Hg Hb1].
    destruct (varint r1) as [length r2] eqn:E2. destruct (varint_range _ _ _ Hb1 E2) as [Hl Hb2].
    rewrite (u64_id (gap + 2)) by lia. destruct (r_bad r2); [discriminate|]. cbn [orb].
    destruct (Z.ltb_spec smallest (gap + 2)) as [|Hge]; [discriminate|]. cbn [orb].
    rewrite (u64_id (smallest - gap - 2)) by lia. destruct (Z.ltb_spec (smallest - gap - 2) length) as [|Hge2]; [discriminate|].
    rewrite u64_id by lia. intros H. apply IH in H as [Hb' (below & -> & Hd & Hc)]; [|exact Hb2|lia].
    split; [exact Hb'|]. exists (mkRange (smallest - gap - 2 - length) (smallest - gap - 2) :: below).
    rewrite <- app_assoc. cbn. splits; auto; lia.
Qed.

(** ** What the handlers keep *)

(** Three counts follow an ACK frame with ECN, none otherwise. *)
Definition appendECN (ecn : bool) (a b c : Z) : bytes :=
  if ecn then AppendVarint (AppendVarint (AppendVarint [] a) b) c else [].

Lemma appendAck_split r x isApp since exp now :
  appendAck [] (r ++ [x]) isApp since exp now = Some $
  [frameAck] ++ AppendVarint [] (hi x) ++ AppendVarint [] (ackDelay isApp since exp now) ++ AppendVarint [] (len (r ++ [x]) - 1) ++
  AppendVarint [] (u64 (hi x - lo x)) ++ appendGaps [] (lo x) (reverse r).
Proof.
  unfold appendAck. rewrite reverse_snoc. cbv zeta. f_equal. rewrite appendGaps_app, (AppendVarint_app (AppendVarint _ _)).
  rewrite (AppendVarint_app (AppendVarint (AppendVarint _ _) _)), (AppendVarint_app (AppendVarint ([] ++ _) _)), (AppendVarint_app ([] ++ _)).
  now rewrite <- !app_assoc.
Qed.

Lemma handleAckFrame_read r x delay ecn peer rest :
  rs_ok (r ++ [x]) -> hi x < 2 ^ 62 -> 0 <= delay < 2 ^ 62 ->
  handleAckFrame (mkReader (AppendVarint [] (hi x) ++ AppendVarint [] delay ++ AppendVarint [] (len (r ++ [x]) - 1) ++
    AppendVarint [] (u64 (hi x - lo x)) ++ appendGaps [] (lo x) (reverse r) ++ appendECN ecn 0 0 0 ++ rest) false) ecn peer =
  (Ok (x :: reverse r, i64 (i64 (u64 (delay .<< match peer with Some exp => exp | None => 3 end)) * 1000)), mkReader rest false).
Proof.
  intros Hok Hx Hd. destruct (wf_descending 0 r x) as [Hlo Hdesc]; [lia|apply Hok|].
  assert (len (r ++ [x]) - 1 = len r) as El by (rewrite len_app; change (len [x]) with 1; lia). assert (0 <= len r < 32) as Hr.
  { destruct Hok as [_ Hm]. rewrite length_app in Hm. cbn in Hm. unfold maxAckRanges in Hm. unfold len. lia. }
  unfold handleAckFrame. rewrite El, u64_id by lia.
  do 4 (rewrite varint_read by lia; cbn beta iota).
  change (1 .<< 16) with (2 ^ 16).
  cbn [r_bad orb]. rewrite (proj2 (Z.ltb_ge (hi x) _)), (proj2 (Z.ltb_ge (2 ^ 16) _)) by lia. cbn [orb].
  replace (hi x - (hi x - lo x)) with (lo x) by lia.
  replace (Z.to_nat (len r)) with (length (reverse r)) by (rewrite length_reverse; unfold len; lia).
  rewrite ackLoop_gaps by (try lia; exact Hdesc). destruct ecn.
  - unfold appendECN. rewrite (AppendVarint_app (AppendVarint _ _)), (AppendVarint_app (AppendVarint _ _) 0), <- !app_assoc.
    do 3 (rewrite varint_read by lia; cbn beta iota). cbn. now destruct x.
  - cbn. now destruct x.
Qed.

(** The delay that is written and read back is the time that passed, rounded down
    to the unit of the exponent. *)
Lemma ackDelay_scaled isApp since exp now :
  0 <= exp -> 0 <= now - since < 2 ^ 63 ->
  0 <= ackDelay isApp since exp now < 2 ^ 62 /\
  i64 (i64 (u64 (ackDelay isApp since exp now .<< exp)) * 1000) = if isApp then (now - since) / (1000 * 2 ^ exp) * (1000 * 2 ^ exp) else 0.
Proof.
  intros He Hn. unfold ackDelay. destruct isApp; [|rewrite Z.shiftl_0_l; split; [lia|reflexivity]].
  assert (0 < 2 ^ exp) as Hp by lia. rewrite Z.quot_div_nonneg by lia. set (us := (now - since) / 1000). assert (0 <= us <= (now - since) / 1000) as Hus by (subst us; split; [apply Z.div_pos; lia|lia]).
  assert ((now - since) / 1000 * 1000 <= now - since) as Hmul by (pose proof (Z.mul_div_le (now - since) 1000 ltac:(lia)); lia).
  rewrite (u64_id us), Z.shiftr_div_pow2, Z.shiftl_mul_pow2 by lia. rewrite <- Z.div_div by lia. fold us. set (q := us / 2 ^ exp).
  assert (0 <= q /\ q * 2 ^ exp <= us) as [Hq0 Hq] by (subst q; split; [apply Z.div_pos; lia|pose proof (Z.mul_div_le us (2 ^ exp) Hp); lia]).
  assert (q <= us) by nia. split; [lia|]. rewrite u64_id, (i64_id (q * 2 ^ exp)), i64_id by nia. ring.
Qed.

(** C31: what one side writes of the packets it has received, the other side reads
    back exactly. handleAckFrame on an ACK frame appendAck wrote takes the whole
    frame and nothing after it, and gives the recorded ranges from the largest
    down and, in the application space, the time since the largest came, rounded
    down to the unit of the exponent; in the others no delay. *)
Theorem ack_roundtrip r isApp since exp now peer rest :
  rs_ok r -> r <> [] -> Forall (fun x => hi x < 2 ^ 62) r -> 0 <= exp -> match peer with Some e => e | None => 3 end = exp -> 0 <= now - since < 2 ^ 63 ->
  exists body, appendAck [] r isApp since exp now = Some (frameAck :: body) /\
    handleAckFrame (mkReader (body ++ rest) false) false peer =
    (Ok (reverse r, if isApp then (now - since) / (1000 * 2 ^ exp) * (1000 * 2 ^ exp) else 0), mkReader rest false).
Proof.
  intros Hok Hne Hhi Hexp Hpeer Hnow. destruct (exists_last Hne) as (r' & x & ->).
  apply Forall_app in Hhi as [_ Hx]. apply Forall_inv in Hx. destruct (ackDelay_scaled isApp since exp now Hexp Hnow) as [Hd Es].
  eexists. split; [rewrite appendAck_split; cbn [app]; reflexivity|]. rewrite <- !app_assoc.
  pose proof (handleAckFrame_read r' x _ false peer rest Hok Hx Hd) as H. cbn [appendECN app] in H. now rewrite H, reverse_snoc, Hpeer, Es.
Qed.

Lemma ack_roundtrip_witness :
  exists body, appendAck [] [mkRange 3 5; mkRange 8 8; mkRange 12 900] true 1000000 3 1567999 = Some (frameAck :: body) /\
    handleAckFrame (mkReader (body ++ [1; 0]) false) false (Some 3) =
    (Ok ([mkRange 12 900; mkRange 8 8; mkRange 3 5], 560000), mkReader [1; 0] false).
Proof.
  apply (ack_roundtrip [mkRange 3 5; mkRange 8 8; mkRange 12 900] true 1000000 3 1567999 (Some 3) [1; 0]); try lia; try discriminate.
  - split; [cbn; lia|cbn; unfold maxAckRanges; lia].
  - repeat constructor.
Defined.

(** Whatever bytes a peer sends, the ranges handleAckFrame goes on with are packet numbers below 2^62, each range
    the right way round, from the top down, with at least one number between any two, and no more than 2^16 + 1 of
    them: no subtraction on the way wrapped around. *)
Theorem ack_ranges_safe b ecn peer ranges delay r' :
  bytes_ok b -> handleAckFrame (mkReader b false) ecn peer = (Ok (ranges, delay), r') ->
  exists top below, ranges = top :: below /\ 0 <= lo top <= hi top /\ hi top < 2 ^ 62 /\ descending (lo top) below /\
    len below <= 2 ^ 16.
Proof.
  intros Hb. unfold handleAckFrame.
  destruct (varint _) as [largest r1] eqn:E1. destruct (varint_range (mkReader b false) _ _ Hb E1) as [Hl Hb1].
  destruct (varint r1) as [d r2] eqn:E2. destruct (varint_range _ _ _ Hb1 E2) as [_ Hb2].
  destruct (varint r2) as [count r3] eqn:E3. destruct (varint_range _ _ _ Hb2 E3) as [Hc Hb3].
  destruct (varint r3) as [first r4] eqn:E4. destruct (varint_range _ _ _ Hb3 E4) as [Hf Hb4].
  destruct (r_bad r4); [discriminate|]. cbn [orb]. destruct (Z.ltb_spec largest first) as [|Hge]; [discriminate|].
  destruct (Z.ltb_spec (1 .<< 16) count) as [|Hcount]; [discriminate|]. cbn [orb]. change (1 .<< 16) with (2 ^ 16) in Hcount.
  destruct (ackLoop _ _ _ _) as [[r5 rs]|] eqn:El; [|discriminate].
  apply ackLoop_descending in El as [_ (below & -> & Hd & Hlen)]; [|exact Hb4|lia].
  destruct (r_bad _); [discriminate|]. intros H. injection H as <- _ _.
  exists (mkRange (largest - first) largest), below. cbn [lo hi app]. splits; auto; try lia. unfold len. lia.
Qed.

Lemma ack_ranges_safe_witness :
  exists top below, [mkRange 8 9; mkRange 2 5] = top :: below /\ 0 <= lo top <= hi top /\ hi top < 2 ^ 62 /\
    descending (lo top) below /\ len below <= 2 ^ 16.
Proof.
  apply (ack_ranges_safe [9; 0; 1; 1; 1; 3] false (Some 3) _ 0 (mkReader [] false)); [repeat constructor; cbn; lia|vm_compute; reflexivity].
Defined.

End Frames.
