(* ===== verification/QuicCid.v ===== *)
(** * QUIC connection IDs (src/http3/quic/cid.go, frames.go)

    Both ends of the connection IDs of a connection: those the peer offers with
    NEW_CONNECTION_ID, of which one is in use and which the peer may retire
    (frames.go), and those this side issues, tells its handler of, sends, and
    drops as the peer retires them (cid.go). The flood budget a frame is
    charged to is an argument [tok], whether a token was left. *)

From S2P Require Import Prelude QuicVarint QuicFrames.
From stdpp Require Import base list numbers gmap.
From stdpp Require relations.
From Stdlib Require Import ZArith Lia.

Local Open Scope Z_scope.
Local Open Scope go_scope.

Module Cid.
Import Varint.
Import Frames.

Definition maxCIDLen : Z := 20.
Definition statelessResetTokenLen : Z := 16.
Definition frameNewConnectionID : Z := 0x18.

(** ** The peer's connection IDs *)

Record peerCID : Type := mkPeer { p_cid : bytes; p_token : bytes }.

Record peerSide : Type := mkPeerSide {
  peerCIDs : gmap Z peerCID;
  dcidSeq : Z;
  dcid : bytes;
  peerResetToken : bytes;
  retiredPrior : Z;
  retireCIDs : list Z;
  activeCIDLimit : Z
}.

(** The most RETIRE_CONNECTION_ID frames that may wait. *)
Definition retireLimit (st : peerSide) : Z := Z.max (u64 (4 * Z.min (activeCIDLimit st) (1 .<< 10))) 16.

Definition retireQueued (st : peerSide) : res terr peerSide :=
  if retireLimit st <? len (retireCIDs st) then Err errConnectionIDLimit else Ok st.

(** One turn of [for s := range c.peerCIDs]. *)
Definition retireOne (retirePrior : Z) (st : gmap Z peerCID * list Z) (s : Z) : gmap Z peerCID * list Z :=
  if s <? retirePrior then (base.delete s st.1, st.2 ++ [s]) else st.

(** Once the map is [m], the new ID in it: the IDs below [retirePrior] go, and
    the connection moves off one that does. [order] is the order Go ranges
    over the map's keys in, which the language leaves open. *)
Definition retireBelow (order : gmap Z peerCID -> list Z) (st : peerSide) (m : gmap Z peerCID) (retirePrior : Z) : peerSide :=
  if retiredPrior st <? retirePrior then
    let '(m, queue) := fold_left (retireOne retirePrior) (order m) (m, retireCIDs st) in
    if dcidSeq st <? retirePrior then
      let next := fold_left Z.min (order m) (2 ^ 64 - 1) in
      if next =? 2 ^ 64 - 1 then mkPeerSide m (dcidSeq st) (dcid st) (peerResetToken st) retirePrior queue (activeCIDLimit st)
      else
        let p := default (mkPeer [] []) (m !! next) in
        mkPeerSide m next (p_cid p) (p_token p) retirePrior queue (activeCIDLimit st)
    else mkPeerSide m (dcidSeq st) (dcid st) (peerResetToken st) retirePrior queue (activeCIDLimit st)
  else mkPeerSide m (dcidSeq st) (dcid st) (peerResetToken st) (retiredPrior st) (retireCIDs st) (activeCIDLimit st).

(** What is done with a frame that has been read and is well formed. *)
Definition takeNewCID (order : gmap Z peerCID -> list Z) (st : peerSide) (tok : bool) (seq retirePrior : Z) (cid token : bytes)
    : res terr peerSide :=
  if len (dcid st) =? 0 then Err errProtocolViolation
  else if seq <? retiredPrior st then
    let queue := if decide (seq ∈ retireCIDs st) then retireCIDs st else retireCIDs st ++ [seq] in
    let st := mkPeerSide (peerCIDs st) (dcidSeq st) (dcid st) (peerResetToken st) (retiredPrior st) queue (activeCIDLimit st) in
    if tok then retireQueued st else Err errExcessiveLoad
  else
    match peerCIDs st !! seq with
    | Some old => if decide (p_cid old = cid) then Ok st else Err errProtocolViolation
    | None =>
        let st := retireBelow order st (<[seq := mkPeer cid token]> (peerCIDs st)) retirePrior in
        if activeCIDLimit st <? Z.of_nat (size (peerCIDs st)) then Err errConnectionIDLimit
        else retireQueued st
    end.

(** A truncated frame changes nothing here: the caller sees the reader. *)
Definition handleNewConnectionID (order : gmap Z peerCID -> list Z) (st : peerSide) (tok : bool) (r : reader)
    : res terr peerSide * reader :=
  let '(seq, r) := varint r in
  let '(retirePrior, r) := varint r in
  let '(n, r) := read_byte r in
  let '(cid, r) := read_bytes r n in
  let '(token, r) := read_bytes r statelessResetTokenLen in
  if r_bad r then (Ok st, r)
  else if (n =? 0) || (maxCIDLen <? n) || (seq <? retirePrior) then (Err errFrameEncoding, r)
  else (takeNewCID order st tok seq retirePrior cid token, r).

(** ** The connection IDs this side issues *)

Record localCID : Type := mkLocal { l_seq : Z; l_cid : bytes; l_token : bytes; l_pending : bool }.

Inductive cidEvent : Type := evIssueCID | evRetireCID (cid : bytes).

Record localSide : Type := mkLocalSide {
  handshakeConfirmed : bool;
  closed : bool;
  peerLimit : option Z;           (* peerParams.activeCIDLimit, once known *)
  ActiveConnectionIDs : Z;        (* of the configuration *)
  localCIDs : list localCID;
  nextCIDSeq : Z;
  cidsIssuing : Z;
  cidsPending : bool;
  wantFlush : bool;
  events : list cidEvent;
  owned : list bytes              (* what Owns and LocalCIDs see *)
}.

Definition set_cids (st : localSide) (cids : list localCID) : localSide :=
  mkLocalSide (handshakeConfirmed st) (closed st) (peerLimit st) (ActiveConnectionIDs st) cids (nextCIDSeq st)
    (cidsIssuing st) (cidsPending st) (wantFlush st) (events st) (owned st).

Definition publishCIDsLocked (st : localSide) : localSide :=
  mkLocalSide (handshakeConfirmed st) (closed st) (peerLimit st) (ActiveConnectionIDs st) (localCIDs st) (nextCIDSeq st)
    (cidsIssuing st) (cidsPending st) (wantFlush st) (events st) (l_cid <$> localCIDs st).

Definition addEvent (st : localSide) (e : cidEvent) : localSide :=
  mkLocalSide (handshakeConfirmed st) (closed st) (peerLimit st) (ActiveConnectionIDs st) (localCIDs st) (nextCIDSeq st)
    (cidsIssuing st) (cidsPending st) (wantFlush st) (events st ++ [e]) (owned st).

(** [c.cidsIssuing++] and the event, as often as the loop runs. *)
Definition issueOne (st : localSide) : localSide :=
  mkLocalSide (handshakeConfirmed st) (closed st) (peerLimit st) (ActiveConnectionIDs st) (localCIDs st) (nextCIDSeq st)
    (cidsIssuing st + 1) (cidsPending st) (wantFlush st) (events st ++ [evIssueCID]) (owned st).

Fixpoint issueLoop (fuel : nat) (limit : Z) (st : localSide) : localSide :=
  match fuel with
  | O => st
  | S fuel => if len (localCIDs st) + cidsIssuing st <? limit then issueLoop fuel limit (issueOne st) else st
  end.

(** The loop runs at most [limit] times. *)
Definition issueCIDsLocked (st : localSide) : localSide :=
  match peerLimit st with
  | Some peer =>
      if negb (handshakeConfirmed st) || closed st then st
      else let limit := Z.min (ActiveConnectionIDs st) peer in issueLoop (Z.to_nat limit) limit st
  | None => st
  end.

(** issueCID up to the call of the handler, which happens unless the
    connection is closed: the new ID is [cid], random, and [token] its reset
    token. *)
Definition issueBegin (st : localSide) (cid token : bytes) : localSide :=
  let st := mkLocalSide (handshakeConfirmed st) (closed st) (peerLimit st) (ActiveConnectionIDs st) (localCIDs st)
    (nextCIDSeq st) (cidsIssuing st - 1) (cidsPending st) (wantFlush st) (events st) (owned st) in
  if closed st then st
  else publishCIDsLocked (mkLocalSide (handshakeConfirmed st) (closed st) (peerLimit st) (ActiveConnectionIDs st)
         (localCIDs st ++ [mkLocal (nextCIDSeq st) cid token false]) (nextCIDSeq st + 1) (cidsIssuing st)
         (cidsPending st) (wantFlush st) (events st) (owned st)).

Definition markPending (hit : localCID -> bool) (l : localCID) : localCID :=
  if hit l then mkLocal (l_seq l) (l_cid l) (l_token l) true else l.

(** issueCID after the handler's call. *)
Definition issueEnd (st : localSide) (cid : bytes) : localSide :=
  let hit l := bool_decide (l_cid l = cid) in
  let any := existsb hit (localCIDs st) in
  mkLocalSide (handshakeConfirmed st) (closed st) (peerLimit st) (ActiveConnectionIDs st) (markPending hit <$> localCIDs st)
    (nextCIDSeq st) (cidsIssuing st) (cidsPending st || any) (wantFlush st || any) (events st) (owned st).

(** The first entry with that sequence number, and the list without it. *)
Fixpoint removeSeq (seq : Z) (cids : list localCID) : option (localCID * list localCID) :=
  match cids with
  | [] => None
  | l :: cids =>
      if negb (l_seq l =? seq) then
        match removeSeq seq cids with Some (x, rest) => Some (x, l :: rest) | None => None end
      else Some (l, cids)
  end.

(** [rxDCID] is the connection ID of the packet the frame came in. *)
Definition handleRetireCID (st : localSide) (tok : bool) (seq : Z) (rxDCID : bytes) : res terr localSide :=
  if nextCIDSeq st <=? seq then Err errProtocolViolation
  else if negb tok then Err errExcessiveLoad
  else
    match removeSeq seq (localCIDs st) with
    | Some (l, rest) =>
        if decide (l_cid l = rxDCID) then Err errProtocolViolation
        else Ok (issueCIDsLocked (addEvent (publishCIDsLocked (set_cids st rest)) (evRetireCID (l_cid l))))
    | None => Ok st
    end.

Definition newCIDFrame (l : localCID) : bytes :=
  AppendVarint (AppendVarint [frameNewConnectionID] (l_seq l)) 0 ++ [u8 (len (l_cid l))] ++ l_cid l ++ l_token l.

(** The loop over localCIDs: the bytes, the entries after it, those written,
    whose sequence numbers the packet's record keeps, and whether some were
    left. *)
Fixpoint appendLoop (b : bytes) (max : Z) (cids : list localCID) : bytes * list localCID * list localCID * bool :=
  match cids with
  | [] => (b, [], [], false)
  | l :: cids =>
      if negb (l_pending l) then
        let '(b, cids, sent, more) := appendLoop b max cids in (b, l :: cids, sent, more)
      else if max <? len b + (1 + VarintLen (l_seq l) + 1 + 1 + len (l_cid l) + len (l_token l)) then
        let '(b, cids, sent, more) := appendLoop b max cids in (b, l :: cids, sent, true)
      else
        let '(b, cids, sent, more) := appendLoop (b ++ newCIDFrame l) max cids in
        (b, mkLocal (l_seq l) (l_cid l) (l_token l) false :: cids, l :: sent, more)
  end.

Definition appendNewCIDs (st : localSide) (b : bytes) (max : Z) : bytes * list localCID * localSide :=
  if negb (cidsPending st) then (b, [], st)
  else
    let '(b, cids, sent, more) := appendLoop b max (localCIDs st) in
    (b, sent, mkLocalSide (handshakeConfirmed st) (closed st) (peerLimit st) (ActiveConnectionIDs st) cids
       (nextCIDSeq st) (cidsIssuing st) more (wantFlush st) (events st) (owned st)).

Definition newCIDLost (st : localSide) (seq : Z) : localSide :=
  let hit l := l_seq l =? seq in
  mkLocalSide (handshakeConfirmed st) (closed st) (peerLimit st) (ActiveConnectionIDs st) (markPending hit <$> localCIDs st)
    (nextCIDSeq st) (cidsIssuing st) (cidsPending st || existsb hit (localCIDs st)) (wantFlush st) (events st) (owned st).

(** ** Lemmas on the peer's side *)

(** Go visits every key of a map once, in an order it does not fix. *)
Definition order_ok (order : gmap Z peerCID -> list Z) : Prop := forall m, order m ≡ₚ (map_to_list m).*1.

Lemma order_keys order m s : order_ok order -> s ∈ order m <-> is_Some (m !! s).
Proof.
  intros Ho. rewrite (Ho m), list_elem_of_fmap. split.
  - intros ([k p] & -> & Hin). apply elem_of_map_to_list in Hin. now exists p.
  - intros [p Hp]. exists (s, p). split; [reflexivity|now apply elem_of_map_to_list].
Qed.

Lemma order_nodup order m : order_ok order -> NoDup (order m).
Proof. intros Ho. rewrite (Ho m). apply NoDup_fst_map_to_list. Qed.

Lemma retireOne_fold prior keys m q :
  let '(m', q') := fold_left (retireOne prior) keys (m, q) in
  (forall s, m' !! s = if decide (s ∈ keys /\ s < prior) then None else m !! s) /\ q' = q ++ filter (fun s => s < prior) keys.
Proof.
  revert m q. induction keys as [|k keys IH]; intros m q; cbn [fold_left].
  - split; [|cbn; now rewrite app_nil_r]. intros s. rewrite decide_False; [reflexivity|]. rewrite elem_of_nil. tauto.
  - unfold retireOne at 2. cbn [fst snd]. rewrite filter_cons. destruct (Z.ltb_spec k prior) as [Hk|Hk].
    + rewrite decide_True by exact Hk. specialize (IH (base.delete k m) (q ++ [k])).
      destruct (fold_left _ _ _) as [m' q']. destruct IH as [Hm ->]. split; [|now rewrite <- app_assoc].
      intros s. rewrite Hm. destruct (decide (s = k)) as [->|Hs].
      * rewrite (decide_True (P := k ∈ k :: keys /\ _)) by (split; [left|lia]). case_decide; [reflexivity|apply lookup_delete_eq].
      * rewrite lookup_delete_ne by auto.
        destruct (decide (s ∈ keys /\ s < prior)) as [[? ?]|Hn]; [now rewrite decide_True by (split; [right|]; auto)|].
        rewrite decide_False; [reflexivity|]. rewrite elem_of_cons. tauto.
    + rewrite decide_False by lia. specialize (IH m q). destruct (fold_left _ _ _) as [m' q']. destruct IH as [Hm ->].
      split; [|reflexivity]. intros s. rewrite Hm.
      destruct (decide (s ∈ keys /\ s < prior)) as [[? ?]|Hn]; [now rewrite decide_True by (split; [right|]; auto)|].
      rewrite decide_False; [reflexivity|]. rewrite elem_of_cons. intros [[->|?] ?]; [lia|tauto].
Qed.

Lemma fold_min_spec keys big :
  let n := fold_left Z.min keys big in (n = big \/ n ∈ keys) /\ n <= big /\ Forall (fun k => n <= k) keys.
Proof.
  revert big. induction keys as [|k keys IH]; intros big; cbn [fold_left]; [splits; auto; lia|].
  destruct (IH (Z.min big k)) as (Hin & Hle & Hall). splits; [|lia|].
  - destruct Hin as [->|Hin]; [|right; now right]. destruct (Z.min_spec big k) as [[_ ->]|[_ ->]]; [now left|right; left].
  - constructor; [lia|exact Hall].
Qed.

(** What holds of the connection IDs kept: none that the peer has retired, the
    one in use among them with its token, no more than this side allows, and
    the queue to retire free of repeats. *)
Record peer_ok (st : peerSide) : Prop := mkPeerOk {
  po_live : forall s, is_Some (peerCIDs st !! s) -> retiredPrior st <= s < 2 ^ 62;
  po_use : peerCIDs st !! dcidSeq st = Some (mkPeer (dcid st) (peerResetToken st));
  po_count : Z.of_nat (size (peerCIDs st)) <= activeCIDLimit st;
  po_below : Forall (fun s => s < retiredPrior st) (retireCIDs st);
  po_nodup : NoDup (retireCIDs st);
  po_queue : len (retireCIDs st) <= retireLimit st
}.

(** Every connection ID the peer has told of: kept, or waiting to be retired. *)
Definition known (st : peerSide) (s : Z) : Prop := is_Some (peerCIDs st !! s) \/ s ∈ retireCIDs st.

Lemma retireQueued_spec st st' : retireQueued st = Ok st' -> st' = st /\ len (retireCIDs st) <= retireLimit st.
Proof. unfold retireQueued. destruct (Z.ltb_spec (retireLimit st) (len (retireCIDs st))); [discriminate|]. intros [= <-]. auto. Qed.

(** All of the invariant but its two bounds, which the code checks last. *)
Lemma retireBelow_ok order st seq prior cid token :
  order_ok order -> peer_ok st -> retiredPrior st <= seq < 2 ^ 62 -> prior <= seq -> peerCIDs st !! seq = None ->
  let st' := retireBelow order st (<[seq := mkPeer cid token]> (peerCIDs st)) prior in
  (forall s, is_Some (peerCIDs st' !! s) -> retiredPrior st' <= s < 2 ^ 62) /\
  peerCIDs st' !! dcidSeq st' = Some (mkPeer (dcid st') (peerResetToken st')) /\
  Forall (fun s => s < retiredPrior st') (retireCIDs st') /\ NoDup (retireCIDs st') /\
  activeCIDLimit st' = activeCIDLimit st /\ retiredPrior st' = Z.max (retiredPrior st) prior /\
  (forall s, known st' s <-> known st s \/ s = seq) /\
  (forall s, prior <= s -> peerCIDs st' !! s = <[seq := mkPeer cid token]> (peerCIDs st) !! s).
Proof.
  intros Ho [Hlive Huse Hcount Hbelow Hnd Hq] Hseq Hprior Hnone. set (m := <[seq := _]> _).
  assert (forall s, is_Some (m !! s) -> retiredPrior st <= s < 2 ^ 62) as Hm.
  { intros s. unfold m. destruct (decide (s = seq)) as [->|Hs]; [intros _; lia|]. rewrite lookup_insert_ne by auto. apply Hlive. }
  assert (forall s, is_Some (m !! s) <-> is_Some (peerCIDs st !! s) \/ s = seq) as Hdom.
  { intros s. unfold m. destruct (decide (s = seq)) as [->|Hs].
    - rewrite lookup_insert_eq. split; [now right|now eexists].
    - rewrite lookup_insert_ne by auto. tauto. }
  assert (dcidSeq st <> seq) as Hds by (intros <-; congruence).
  unfold retireBelow. destruct (Z.ltb_spec (retiredPrior st) prior) as [Hp|Hp]; cycle 1.
  { cbn. splits; auto; try lia.
    - unfold m. rewrite lookup_insert_ne by auto. exact Huse.
    - intros s. unfold known. cbn. rewrite Hdom. tauto. }
  pose proof (retireOne_fold prior (order m) m (retireCIDs st)) as Hf.
  destruct (fold_left _ _ _) as [m' q']. destruct Hf as [Hm' ->].
  assert (forall s, prior <= s -> m' !! s = m !! s) as Hkeep by (intros s Hs; rewrite Hm', decide_False; [reflexivity|lia]).
  assert (forall s, is_Some (m' !! s) -> prior <= s < 2 ^ 62) as Hlive'.
  { intros s. rewrite Hm'. case_decide as Hd; [intros [? ?]; discriminate|]. intros Hs. specialize (Hm s Hs) as ?.
    apply (order_keys order m s Ho) in Hs. split; [|lia]. apply Z.nlt_ge. tauto. }
  assert (Forall (fun s => s < prior) (retireCIDs st ++ filter (fun s => s < prior) (order m))) as Hbelow'.
  { apply Forall_app. split; [eapply Forall_impl; [exact Hbelow|cbn; lia]|].
    rewrite List.Forall_forall. intros s Hs. apply list_elem_of_In in Hs. now apply list_elem_of_filter in Hs as [? _]. }
  assert (NoDup (retireCIDs st ++ filter (fun s => s < prior) (order m))) as Hnd'.
  { apply NoDup_app. splits; [exact Hnd| |apply NoDup_filter, order_nodup, Ho]. intros s Hs Hin.
    apply list_elem_of_filter in Hin as [_ Hin]. apply (order_keys _ _ _ Ho), Hm in Hin.
    rewrite List.Forall_forall in Hbelow. apply list_elem_of_In, Hbelow in Hs. lia. }
  assert (forall s, is_Some (m' !! s) \/ s ∈ retireCIDs st ++ filter (fun s => s < prior) (order m) <-> known st s \/ s = seq) as Hk.
  { intros s. unfold known. rewrite elem_of_app, list_elem_of_filter, (order_keys _ _ _ Ho), Hm'.
    destruct (decide (s < prior)).
    - rewrite Hdom. case_decide as Hd; rewrite (order_keys _ _ _ Ho), Hdom in Hd; [|rewrite Hdom; tauto].
      split; [|tauto]. intros [[? ?]|?]; [discriminate|tauto].
    - rewrite decide_False by tauto. rewrite Hdom. tauto. }
  assert (is_Some (m' !! seq)) as Hsome by (rewrite Hkeep by lia; unfold m; rewrite lookup_insert_eq; now eexists).
  destruct (Z.ltb_spec (dcidSeq st) prior) as [Hmove|Hstay].
  - destruct (fold_min_spec (order m') (2 ^ 64 - 1)) as (Hin & Hle & Hall). set (next := fold_left Z.min _ _) in *.
    rewrite List.Forall_forall in Hall. assert (next <= seq) by (apply Hall, list_elem_of_In; now apply order_keys).
    rewrite (proj2 (Z.eqb_neq next _)) by lia. destruct Hin as [->|Hin]; [lia|].
    apply (order_keys _ _ _ Ho) in Hin as [[c t] Hc]. rewrite Hc. cbn. splits; auto; lia.
  - cbn. splits; auto; try lia. rewrite Hkeep by lia. unfold m. rewrite lookup_insert_ne by auto. exact Huse.
Qed.

(** The invariant is kept, and no connection ID goes missing. *)
Lemma takeNewCID_ok order st tok seq prior cid token st' :
  order_ok order -> peer_ok st -> 0 <= prior <= seq -> seq < 2 ^ 62 -> 
  takeNewCID order st tok seq prior cid token = Ok st' ->
  peer_ok st' /\ activeCIDLimit st' = activeCIDLimit st /\ retiredPrior st <= retiredPrior st' /\
  (forall s, known st' s <-> known st s \/ s = seq) /\
  (seq < retiredPrior st \/ exists p, peerCIDs st' !! seq = Some p /\ p_cid p = cid).
Proof.
  intros Ho Hok Hp Hs. unfold takeNewCID. destruct (len (dcid st) =? 0); [discriminate|].
  destruct (Z.ltb_spec seq (retiredPrior st)) as [Hr|Hr].
  - destruct tok; [|discriminate]. intros H. apply retireQueued_spec in H as [-> Hq]. destruct Hok as [Hlive Huse Hcount Hbelow Hnd Hq0].
    cbn in *. splits; try lia; [|intros s; unfold known; cbn; case_decide; [split; [tauto|intros [?| ->]; tauto]|rewrite elem_of_app, list_elem_of_singleton; tauto]].
    split; cbn; auto; case_decide; auto; [apply Forall_app; split; auto|apply NoDup_app; splits; auto].
    + intros x Hx ->%list_elem_of_singleton. tauto.
    + apply NoDup_singleton.
  - destruct (peerCIDs st !! seq) as [old|] eqn:Eold.
    + case_decide as Hc; [|discriminate]. intros [= <-]. splits; auto; try lia; [|right; eauto].
      intros s. split; [tauto|]. intros [?| ->]; [tauto|]. left. rewrite Eold. now eexists.
    + pose proof (retireBelow_ok order st seq prior cid token Ho Hok ltac:(lia) ltac:(lia) Eold) as H. cbv zeta in H.
      set (st2 := retireBelow _ _ _ _) in *. destruct H as (Hlive & Huse & Hbelow & Hnd & Hlim & Hrp & Hk & Hkeep).
      destruct (Z.ltb_spec (activeCIDLimit st2) (Z.of_nat (size (peerCIDs st2)))) as [|Hsz]; [discriminate|].
      intros H. apply retireQueued_spec in H as [-> Hq]. splits; auto; try lia; [split; auto|].
      right. exists (mkPeer cid token). rewrite Hkeep, lookup_insert_eq by lia. auto.
Qed.

(** The body of a NEW_CONNECTION_ID frame (RFC 9000 section 19.15). *)
Definition newCIDBody (seq prior : Z) (cid token : bytes) : bytes :=
  AppendVarint [] seq ++ AppendVarint [] prior ++ [len cid] ++ cid ++ token.

Lemma handleNewConnectionID_body order st tok seq prior cid token rest :
  0 <= prior <= seq -> seq < 2 ^ 62 -> 1 <= len cid <= 20 -> len token = 16 ->
  handleNewConnectionID order st tok (mkReader (newCIDBody seq prior cid token ++ rest) false) =
  (takeNewCID order st tok seq prior cid token, mkReader rest false).
Proof.
  intros Hp Hs Hc Ht. unfold handleNewConnectionID, newCIDBody. rewrite <- !app_assoc.
  rewrite varint_read by lia. cbv beta iota. rewrite varint_read by lia. cbn [read_byte app r_b r_bad].
  rewrite read_bytes_app, read_bytes_app by auto. cbn [r_bad]. unfold maxCIDLen.
  rewrite (proj2 (Z.eqb_neq _ _)), (proj2 (Z.ltb_ge 20 _)), (proj2 (Z.ltb_ge seq _)) by lia. reflexivity.
Qed.

Lemma newCIDFrame_body l :
  0 <= l_seq l -> len (l_cid l) <= 20 -> newCIDFrame l = frameNewConnectionID :: newCIDBody (l_seq l) 0 (l_cid l) (l_token l).
Proof.
  intros Hs Hc. unfold newCIDFrame, newCIDBody. rewrite (AppendVarint_app (AppendVarint _ _)), (AppendVarint_app [_]), <- !app_assoc.
  rewrite u8_id; [reflexivity|]. pose proof (len_nonneg (l_cid l)). unfold is_byte. lia.
Qed.

(** ** Lemmas on this side's *)

Fixpoint issues (es : list cidEvent) : Z :=
  match es with [] => 0 | evIssueCID :: es => 1 + issues es | evRetireCID _ :: es => issues es end.

Lemma issues_app es fs : issues (es ++ fs) = issues es + issues fs.
Proof. induction es as [|[|c] es IH]; cbn [issues app]; lia. Qed.

(** The loop's only effect is on the count and the events, and it stops at the
    limit. *)
Lemma issueLoop_spec fuel limit st :
  limit <= Z.of_nat fuel + (len (localCIDs st) + cidsIssuing st) ->
  exists n es, issueLoop fuel limit st =
    mkLocalSide (handshakeConfirmed st) (closed st) (peerLimit st) (ActiveConnectionIDs st) (localCIDs st) (nextCIDSeq st)
      (cidsIssuing st + n) (cidsPending st) (wantFlush st) (events st ++ es) (owned st) /\ issues es = n /\ 0 <= n /\
    len (localCIDs st) + (cidsIssuing st + n) = Z.max limit (len (localCIDs st) + cidsIssuing st).
Proof.
  revert st. induction fuel as [|fuel IH]; intros st Hf; cbn [issueLoop].
  - exists 0, []. rewrite app_nil_r, Z.add_0_r. destruct st; cbn in *. splits; auto; lia.
  - destruct (Z.ltb_spec (len (localCIDs st) + cidsIssuing st) limit) as [Hlt|Hge].
    + destruct (IH (issueOne st)) as (n & es & E & Hn & Hn0 & Hm); [cbn; lia|]. exists (n + 1), (evIssueCID :: es). rewrite E.
      unfold issueOne in *. cbn in *. rewrite <- app_assoc. splits; try lia. f_equal. lia.
    + exists 0, []. rewrite app_nil_r, Z.add_0_r. destruct st; cbn in *. splits; auto; lia.
Qed.

Lemma removeSeq_spec seq cids l rest :
  removeSeq seq cids = Some (l, rest) -> exists a b, cids = a ++ l :: b /\ rest = a ++ b /\ l_seq l = seq.
Proof.
  revert rest. induction cids as [|x cids IH]; intros rest; cbn [removeSeq]; [discriminate|].
  destruct (Z.eqb_spec (l_seq x) seq) as [E|E]; cbn [negb].
  - intros [= -> ->]. now exists [], rest.
  - destruct (removeSeq seq cids) as [[y r]|]; [|discriminate]. intros [= -> <-].
    destruct (IH r eq_refl) as (a & b & -> & -> & Hs). now exists (x :: a), b.
Qed.

(** Entries agree but for the pending mark. *)
Definition same_id (l l' : localCID) : Prop := l_seq l' = l_seq l /\ l_cid l' = l_cid l /\ l_token l' = l_token l.

Lemma appendLoop_spec b max cids b' cids' sent more :
  appendLoop b max cids = (b', cids', sent, more) ->
  Forall2 (fun l l' => same_id l l' /\ (l_pending l' = true -> l_pending l = true)) cids cids' /\
  Forall (fun l => l ∈ cids /\ l_pending l = true) sent /\ b' = b ++ concat (newCIDFrame <$> sent) /\
  (more = false -> Forall (fun l => l_pending l = false) cids').
Proof.
  revert b b' cids' sent more. induction cids as [|l cids IH]; intros b b' cids' sent more; cbn [appendLoop].
  - intros [= <- <- <- <-]. splits; auto. cbn. now rewrite app_nil_r.
  - assert (forall sent : list localCID, Forall (fun l => l ∈ cids /\ l_pending l = true) sent ->
      Forall (fun x => x ∈ l :: cids /\ l_pending x = true) sent) as Hmono.
    { intros s Hs. eapply Forall_impl; [exact Hs|]. intros x [? ?]. split; [now right|assumption]. }
    destruct (l_pending l) eqn:El; cbn [negb];
      [destruct (max <? _)|]; destruct (appendLoop _ _ cids) as [[[b1 c1] s1] m1] eqn:E; apply IH in E as (H1 & H2 & H3 & H4);
      intros [= <- <- <- <-]; splits; auto; try discriminate; unfold same_id.
    + constructor; [auto|exact H1].
    + constructor; [|exact H1]. cbn. auto.
    + constructor; [split; [left|exact El]|auto].
    + rewrite H3, <- app_assoc. reflexivity.
    + constructor; [auto|exact H1].
Qed.

(** ** The life of the connection IDs issued

    The connection's operations in any order, with what the handler has been
    told ([told], the calls of OnConnectionID in order), the ID whose issue is
    under way on the goroutine of the handler's calls ([calling]), and the
    entries NEW_CONNECTION_ID frames were written for ([sent]). *)
Record life : Type := mkLife { ls : localSide; told : list (bytes * bool); calling : option bytes; sent : list localCID }.

Definition popEvent (st : localSide) : localSide :=
  mkLocalSide (handshakeConfirmed st) (closed st) (peerLimit st) (ActiveConnectionIDs st) (localCIDs st) (nextCIDSeq st)
    (cidsIssuing st) (cidsPending st) (wantFlush st) (List.tl (events st)) (owned st).

Definition setParams (st : localSide) (limit : Z) : localSide :=
  mkLocalSide (handshakeConfirmed st) (closed st) (Some limit) (ActiveConnectionIDs st) (localCIDs st) (nextCIDSeq st)
    (cidsIssuing st) (cidsPending st) (wantFlush st) (events st) (owned st).

(** confirmHandshake, as far as connection IDs go. *)
Definition confirm (st : localSide) : localSide :=
  issueCIDsLocked (mkLocalSide true (closed st) (peerLimit st) (ActiveConnectionIDs st) (localCIDs st) (nextCIDSeq st)
    (cidsIssuing st) (cidsPending st) (wantFlush st) (events st) (owned st)).

Definition close (st : localSide) : localSide :=
  mkLocalSide (handshakeConfirmed st) true (peerLimit st) (ActiveConnectionIDs st) (localCIDs st) (nextCIDSeq st)
    (cidsIssuing st) (cidsPending st) (wantFlush st) (events st) (owned st).

Inductive cstep : life -> life -> Prop :=
| CParams st t c snt limit : peerLimit st = None -> 2 <= limit -> cstep (mkLife st t c snt) (mkLife (setParams st limit) t c snt)
| CConfirm st t c snt : cstep (mkLife st t c snt) (mkLife (confirm st) t c snt)
| CBegin st t snt cid token es :
    events st = evIssueCID :: es ->
    cstep (mkLife st t None snt) (mkLife (issueBegin (popEvent st) cid token) t (if closed st then None else Some cid) snt)
| CEnd st t snt cid : cstep (mkLife st t (Some cid) snt) (mkLife (issueEnd st cid) (t ++ [(cid, true)]) None snt)
| CTellRetired st t snt cid es :
    events st = evRetireCID cid :: es -> cstep (mkLife st t None snt) (mkLife (popEvent st) (t ++ [(cid, false)]) None snt)
| CRetire st t c snt tok seq rxDCID st' :
    handleRetireCID st tok seq rxDCID = Ok st' -> cstep (mkLife st t c snt) (mkLife st' t c snt)
| CSend st t c snt b max b' new st' :
    appendNewCIDs st b max = (b', new, st') -> cstep (mkLife st t c snt) (mkLife st' t c (snt ++ new))
| CLost st t c snt seq : seq ∈ l_seq <$> snt -> cstep (mkLife st t c snt) (mkLife (newCIDLost st seq) t c snt)
| CClose st t c snt : cstep (mkLife st t c snt) (mkLife (close st) t c snt).

(** newConn's: the ID of the handshake, and nothing known of the peer. *)
Definition life0 (scid : bytes) (active : Z) : life :=
  mkLife (mkLocalSide false false None active [mkLocal 0 scid [] false] 1 0 false false [] [scid]) [] None [].

(** How many IDs the peer may have. *)
Definition allowed (st : localSide) : Z :=
  match peerLimit st with Some p => Z.min (ActiveConnectionIDs st) p | None => 1 end.

Record life_ok (x : life) : Prop := mkLifeOk {
  lo_config : 1 <= ActiveConnectionIDs (ls x) /\ 0 <= nextCIDSeq (ls x) /\ (forall p, peerLimit (ls x) = Some p -> 2 <= p);
  lo_count : len (localCIDs (ls x)) + cidsIssuing (ls x) <= allowed (ls x);
  lo_issuing : cidsIssuing (ls x) = issues (events (ls x));
  lo_seqs : NoDup (l_seq <$> localCIDs (ls x)) /\ Forall (fun l => 0 <= l_seq l < nextCIDSeq (ls x)) (localCIDs (ls x));
  lo_owned : owned (ls x) = l_cid <$> localCIDs (ls x);
  lo_told : Forall (fun l => l_pending l = true -> (l_cid l, true) ∈ told x) (localCIDs (ls x));
  lo_sent : Forall (fun e => (l_cid e, true) ∈ told x /\ 0 <= l_seq e < nextCIDSeq (ls x) /\
    Forall (fun l => l_seq l = l_seq e -> l_cid l = l_cid e) (localCIDs (ls x))) (sent x)
}.

Lemma issues_nonneg es : 0 <= issues es.
Proof. induction es as [|[|c] es IH]; cbn [issues]; lia. Qed.

(** Issuing more keeps everything. *)
Lemma issueCIDsLocked_ok st t c snt :
  life_ok (mkLife st t c snt) -> life_ok (mkLife (issueCIDsLocked st) t c snt).
Proof.
  intros [Hcfg Hc Hi Hs How Ht Hsn]. unfold issueCIDsLocked. destruct (peerLimit st) as [p|] eqn:Ep; [|now split].
  destruct (_ || _); [now split|]. cbn in *.
  destruct (issueLoop_spec (Z.to_nat (Z.min (ActiveConnectionIDs st) p)) (Z.min (ActiveConnectionIDs st) p) st) as (n & es & -> & Hes & Hn & Hmax).
  { pose proof (issues_nonneg (events st)). pose proof (len_nonneg (localCIDs st)). lia. }
  unfold allowed in Hc. rewrite Ep in Hc.
  split; cbn; auto; [unfold allowed; cbn; rewrite Ep; lia|rewrite issues_app; lia].
Qed.

(** Entries that only gave up or gained a mark. *)
Lemma same_ids cids cids' : Forall2 same_id cids cids' -> l_seq <$> cids' = l_seq <$> cids /\ l_cid <$> cids' = l_cid <$> cids.
Proof. induction 1 as [|l l' cids cids' (E1 & E2 & _) _ [IH1 IH2]]; cbn; [auto|]. rewrite E1, E2, IH1, IH2. auto. Qed.

Lemma Forall_same (P : Z -> bytes -> Prop) cids cids' :
  Forall2 same_id cids cids' -> Forall (fun l => P (l_seq l) (l_cid l)) cids -> Forall (fun l => P (l_seq l) (l_cid l)) cids'.
Proof.
  induction 1 as [|l l' cids cids' (E1 & E2 & _) _ IH]; intros H; [constructor|]. apply Forall_cons in H as [H1 H2].
  constructor; [now rewrite E1, E2|auto].
Qed.

(** A list of entries the same but for their marks, all of them told of. *)
Lemma remark_ok st t c snt st' t' c' snt' :
  life_ok (mkLife st t c snt) -> Forall2 same_id (localCIDs st) (localCIDs st') ->
  peerLimit st' = peerLimit st -> ActiveConnectionIDs st' = ActiveConnectionIDs st -> nextCIDSeq st' = nextCIDSeq st ->
  cidsIssuing st' = cidsIssuing st -> issues (events st') = issues (events st) -> owned st' = owned st -> t ⊆ t' ->
  Forall (fun l => l_pending l = true -> (l_cid l, true) ∈ t') (localCIDs st') ->
  Forall (fun e => e ∈ snt \/ e ∈ localCIDs st /\ l_pending e = true) snt' ->
  life_ok (mkLife st' t' c' snt').
Proof.
  intros [Hcfg Hc Hi [Hs1 Hs2] How Ht Hsn] H2 E1 E2 E3 E4 E5 E6 Htt Hp Hsub. destruct (same_ids _ _ H2) as [Eq1 Eq2].
  cbn in *. unfold allowed in *. cbn in *. split; cbn; unfold allowed; rewrite ?E1, ?E2, ?E3, ?E4, ?E5, ?E6, ?Eq1, ?Eq2; auto.
  - assert (len (localCIDs st') = len (localCIDs st)) as ->; [|exact Hc]. unfold len. now rewrite (Forall2_length _ _ _ H2).
  - split; [exact Hs1|]. apply (Forall_same (fun s _ => 0 <= s < nextCIDSeq st) _ _ H2 Hs2).
  - rewrite List.Forall_forall in *. intros e He. specialize (Hsub e He) as [Hin|[Hin Hpe]].
    + destruct (Hsn e) as (H & Hb & Hag); [now apply list_elem_of_In|]. splits; auto; try lia.
      apply (Forall_same (fun s b => s = l_seq e -> b = l_cid e) _ _ H2 Hag).
    + apply list_elem_of_In in Hin. splits; auto; try now apply Hs2.
      apply (Forall_same (fun s b => s = l_seq e -> b = l_cid e) _ _ H2). rewrite List.Forall_forall.
      intros l Hl E. f_equal. apply list_elem_of_In, list_elem_of_lookup in Hin as [i Hi'].
      apply list_elem_of_In, list_elem_of_lookup in Hl as [j Hj]. 
      assert (i = j) as ->; [|congruence]. eapply NoDup_lookup; [exact Hs1|rewrite list_lookup_fmap, Hi'; reflexivity|].
      rewrite list_lookup_fmap, Hj. cbn. now f_equal.
Qed.

Lemma markPending_same hit cids : Forall2 same_id cids (markPending hit <$> cids).
Proof. induction cids as [|l cids IH]; cbn; constructor; [|exact IH]. unfold markPending, same_id. destruct (hit l); auto. Qed.

(** The entries marked are those hit, or marked before. *)
Lemma markPending_told hit cids (t : list (bytes * bool)) :
  Forall (fun l => l_pending l = true -> (l_cid l, true) ∈ t) cids ->
  Forall (fun l => hit l = true -> (l_cid l, true) ∈ t) cids ->
  Forall (fun l => l_pending l = true -> (l_cid l, true) ∈ t) (markPending hit <$> cids).
Proof.
  induction 1 as [|l cids Hl _ IH]; intros H; [constructor|]. apply Forall_cons in H as [H1 H2].
  cbn. constructor; [|auto]. unfold markPending. destruct (hit l); cbn; auto.
Qed.

Lemma retire_ok st t c snt tok seq rxDCID st' :
  life_ok (mkLife st t c snt) -> handleRetireCID st tok seq rxDCID = Ok st' -> life_ok (mkLife st' t c snt).
Proof.
  intros Hok. unfold handleRetireCID. destruct (nextCIDSeq st <=? seq); [discriminate|]. destruct tok; [|discriminate]. cbn [negb].
  destruct (removeSeq seq (localCIDs st)) as [[l rest]|] eqn:E; [|now intros [= <-]].
  case_decide as Hd; [discriminate|]. intros [= <-]. apply issueCIDsLocked_ok.
  destruct (removeSeq_spec _ _ _ _ E) as (a & b & Ea & Eb & _). destruct Hok as [Hcfg Hc Hi [Hs1 Hs2] How Ht Hsn]. cbn in *.
  assert (forall P : localCID -> Prop, Forall P (localCIDs st) -> Forall P rest) as Hsub.
  { intros P H. rewrite Ea in H. rewrite Eb. apply Forall_app in H as [? H]. apply Forall_cons in H as [_ ?]. now apply Forall_app. }
  assert (len rest + 1 = len (localCIDs st)) as Hl by (rewrite Ea, Eb, !len_app, len_cons; unfold len; lia).
  split; cbn; auto.
  - unfold allowed in *. cbn. lia.
  - rewrite issues_app. cbn. lia.
  - split; [|auto]. rewrite Ea in Hs1. rewrite Eb. rewrite fmap_app, fmap_cons in Hs1. rewrite fmap_app.
    apply NoDup_app in Hs1 as (N1 & N2 & N3). apply NoDup_cons in N3 as [N3 N4]. apply NoDup_app. splits; auto.
    intros x Hx Hin. apply (N2 x Hx). now right.
  - eapply Forall_impl; [exact Hsn|]. cbn. intros e (? & ? & ?). auto.
Qed.

Lemma cstep_ok x y : life_ok x -> cstep x y -> life_ok y.
Proof.
  intros Hok Hs. destruct Hs as [st t c snt limit Hn H2|st t c snt|st t snt cid token es He|st t snt cid|st t snt cid es He|
    st t c snt tok seq rx st' E|st t c snt b max b' new st' E|st t c snt seq Hin|st t c snt].
  - destruct Hok as [Hcfg Hc Hi Hsq How Ht Hsn]. cbn in *. unfold allowed in Hc. rewrite Hn in Hc. split; cbn; auto.
    + splits; try lia. intros p [= <-]. exact H2.
    + unfold allowed. cbn. lia.
  - apply issueCIDsLocked_ok. destruct Hok as [Hcfg Hc Hi Hsq How Ht Hsn]. now split.
  - destruct Hok as [Hcfg Hc Hi [Hs1 Hs2] How Ht Hsn]. cbn in *. rewrite He in Hi. cbn in Hi. unfold issueBegin, allowed in *. cbn.
    destruct (closed st); cbn.
    + split; cbn; rewrite ?He; auto; [unfold allowed; cbn; lia|cbn; lia].
    + split; cbn; rewrite ?He; auto.
      * splits; try lia. apply Hcfg.
      * rewrite len_app. change (len [_]) with 1. unfold allowed. cbn. lia.
      * cbn. lia.
      * split.
        -- rewrite fmap_app. apply NoDup_app. splits; [exact Hs1| |apply NoDup_singleton].
           intros s Hsn' ->%list_elem_of_singleton. apply list_elem_of_fmap in Hsn' as (l & El & Hl).
           rewrite List.Forall_forall in Hs2. apply list_elem_of_In, Hs2 in Hl. cbn in El. lia.
        -- apply Forall_app. split; [eapply Forall_impl; [exact Hs2|cbn; lia]|]. constructor; [cbn; lia|constructor].
      * apply Forall_app. split; [exact Ht|]. constructor; [discriminate|constructor].
      * eapply Forall_impl; [exact Hsn|]. cbn. intros e (? & ? & Hag). splits; auto; try lia.
        apply Forall_app. split; [exact Hag|]. constructor; [cbn; lia|constructor].
  - eapply remark_ok; [exact Hok|apply markPending_same|reflexivity..| | |].
    + set_solver.
    + apply markPending_told.
      * eapply Forall_impl; [apply (lo_told _ Hok)|]. cbn. set_solver.
      * cbn. apply List.Forall_forall. intros l _ Hb. apply bool_decide_eq_true in Hb as ->. set_solver.
    + apply List.Forall_forall. intros e He. left. now apply list_elem_of_In.
  - eapply remark_ok; [exact Hok|..]; try reflexivity.
    + cbn. clear. induction (localCIDs st); constructor; unfold same_id; auto.
    + cbn. rewrite He. reflexivity.
    + set_solver.
    + eapply Forall_impl; [apply (lo_told _ Hok)|]. cbn. set_solver.
    + apply List.Forall_forall. intros e Hin. left. now apply list_elem_of_In.
  - now apply (retire_ok _ _ _ _ _ _ _ _ Hok E).
  - unfold appendNewCIDs in E. destruct (negb (cidsPending st)); [injection E as <- <- <-; now rewrite app_nil_r|].
    destruct (appendLoop b max (localCIDs st)) as [[[b1 c1] s1] m1] eqn:El. injection E as <- <- <-.
    destruct (appendLoop_spec _ _ _ _ _ _ _ El) as (H1 & H2 & _).
    eapply remark_ok; [exact Hok|..]; try reflexivity; cbn.
    + eapply Forall2_impl; [exact H1|]. cbn. tauto.
    + pose proof (lo_told _ Hok) as Ht. cbn in Ht. clear -H1 Ht.
      induction H1 as [|l l' cs cs' ((_ & Ec & _) & Hp) _ IH]; [constructor|]. apply Forall_cons in Ht as [Ht1 Ht2].
      constructor; [rewrite Ec; auto|auto].
    + apply Forall_app. split; [apply List.Forall_forall; intros e He; left; now apply list_elem_of_In|].
      eapply Forall_impl; [exact H2|]. cbn. auto.
  - eapply remark_ok; [exact Hok|apply markPending_same|reflexivity..| | |].
    + set_solver.
    + apply markPending_told; [apply (lo_told _ Hok)|]. cbn. apply list_elem_of_fmap in Hin as (e & -> & He).
      pose proof (lo_sent _ Hok) as Hsn. cbn in Hsn. rewrite List.Forall_forall in Hsn. apply list_elem_of_In, Hsn in He as (Ht & _ & Hag).
      eapply Forall_impl; [exact Hag|]. cbn. intros l Hl Heq. apply Z.eqb_eq, Hl in Heq as ->. exact Ht.
    + apply List.Forall_forall. intros e He. left. now apply list_elem_of_In.
  - destruct Hok as [Hcfg Hc Hi Hsq How Ht Hsn]. now split.
Qed.

Lemma life_reachable scid active x : 1 <= active -> relations.rtc cstep (life0 scid active) x -> life_ok x.
Proof.
  intros Ha H. assert (life_ok (life0 scid active)) as H0.
  { unfold life0. split; cbn; auto.
    - splits; [exact Ha|lia|discriminate].
    - unfold allowed. cbn. reflexivity.
    - split; [apply NoDup_singleton|]. repeat constructor; cbn; lia.
    - repeat constructor. discriminate. }
  induction H as [x|x y z Hs _ IH]; [exact H0|]. apply IH, (cstep_ok _ _ H0 Hs).
Qed.

Lemma issueLoop_active fuel limit st : ActiveConnectionIDs (issueLoop fuel limit st) = ActiveConnectionIDs st.
Proof. revert st. induction fuel as [|fuel IH]; intros st; cbn [issueLoop]; [auto|]. destruct (_ <? _); [rewrite IH|]; reflexivity. Qed.

Lemma issueCIDs_active st : ActiveConnectionIDs (issueCIDsLocked st) = ActiveConnectionIDs st.
Proof. unfold issueCIDsLocked. repeat case_match; auto using issueLoop_active. Qed.

(** The configuration does not change. *)
Lemma active_const scid active x : relations.rtc cstep (life0 scid active) x -> ActiveConnectionIDs (ls x) = active.
Proof.
  intros H. assert (forall y z, cstep y z -> ActiveConnectionIDs (ls z) = ActiveConnectionIDs (ls y)) as Hstep.
  { clear. intros y z Hs. destruct Hs; cbn; auto.
    - unfold confirm. now rewrite issueCIDs_active.
    - unfold issueBegin. now destruct (closed (popEvent st)).
    - unfold handleRetireCID in *. repeat case_match; simplify_eq; auto. now rewrite issueCIDs_active.
    - unfold appendNewCIDs in *. repeat case_match; simplify_eq; auto. }
  change active with (ActiveConnectionIDs (ls (life0 scid active))). induction H as [x|x y z Hs _ IH]; [reflexivity|].
  now rewrite IH, (Hstep _ _ Hs).
Qed.

(** ** Properties *)

(** C35: whatever a NEW_CONNECTION_ID frame holds, and in whatever order the map is ranged over, a connection that goes
    on keeps no ID the peer has retired, uses one it keeps, with that ID's reset token, has no more of them than it
    allows, and no more queued to retire than retireQueued's bound, each once; and no ID goes missing: those known
    after the frame, kept or queued, are those known before and the frame's. *)
Theorem newcid_invariant order st tok b st' r' :
  order_ok order -> peer_ok st -> bytes_ok b ->
  handleNewConnectionID order st tok (mkReader b false) = (Ok st', r') ->
  peer_ok st' /\ retiredPrior st <= retiredPrior st' /\
  (r_bad r' = false -> forall s, known st' s <-> known st s \/ s = (varint (mkReader b false)).1).
Proof.
  intros Ho Hok Hb. unfold handleNewConnectionID.
  destruct (varint _) as [seq r1] eqn:E1. destruct (varint_range (mkReader b false) _ _ Hb E1) as [Hs Hb1].
  destruct (varint r1) as [prior r2] eqn:E2. destruct (varint_range _ _ _ Hb1 E2) as [Hp _].
  destruct (read_byte r2) as [n r3]. destruct (read_bytes r3 n) as [cid r4]. destruct (read_bytes r4 _) as [token r5].
  destruct (r_bad r5) eqn:Ebad; [intros [= <- <-]; splits; auto; [lia|congruence]|].
  destruct (_ || _) eqn:Eg; [discriminate|]. apply orb_false_iff in Eg as [_ Eg]. apply Z.ltb_ge in Eg.
  intros [= H <-]. apply takeNewCID_ok in H as (H1 & _ & H2 & H3 & _); auto; lia.
Qed.

(** The keys in increasing order, to run the model with. *)
Definition keys_of (m : gmap Z peerCID) : list Z := (map_to_list m).*1.

Definition peer0 : peerSide := mkPeerSide {[0 := mkPeer [7; 7] []]} 0 [7; 7] [] 0 [] 2.

Lemma peer0_ok : peer_ok peer0.
Proof.
  unfold peer0. split; cbn; [|reflexivity|rewrite map_size_singleton; lia|constructor|constructor|vm_compute; discriminate].
  intros s [p Hp]. apply lookup_singleton_Some in Hp as [<- _]. lia.
Qed.

Lemma newcid_invariant_witness :
  exists st', handleNewConnectionID keys_of peer0 true (mkReader ([1; 1; 2; 5; 6] ++ replicate 16 9) false) = (Ok st', mkReader [] false) /\
    dcid st' = [5; 6] /\ retireCIDs st' = [0] /\ peer_ok st'.
Proof.
  eexists. split; [vm_compute; reflexivity|]. split; [reflexivity|]. split; [reflexivity|].
  apply (newcid_invariant keys_of peer0 true ([1; 1; 2; 5; 6] ++ replicate 16 9) _ (mkReader [] false)).
  - intros m. reflexivity.
  - exact peer0_ok.
  - cbn. repeat constructor; cbn; lia.
  - vm_compute. reflexivity.
Defined.

(** A connection ID this side issues reaches its peer as it is: the NEW_CONNECTION_ID frame appendNewCIDs writes
    for an entry is read by the peer's handleNewConnectionID as that sequence number, ID and reset token, retiring
    none, with nothing of what follows the frame taken; and if the peer goes on it keeps the ID, unless it had
    retired that sequence number. *)
Theorem newcid_roundtrip order st tok l rest st' :
  order_ok order -> peer_ok st -> 0 <= l_seq l < 2 ^ 62 -> 1 <= len (l_cid l) <= 20 -> len (l_token l) = 16 ->
  exists body, newCIDFrame l = frameNewConnectionID :: body /\
    (handleNewConnectionID order st tok (mkReader (body ++ rest) false)).2 = mkReader rest false /\
    ((handleNewConnectionID order st tok (mkReader (body ++ rest) false)).1 = Ok st' ->
     l_seq l < retiredPrior st \/ exists p, peerCIDs st' !! l_seq l = Some p /\ p_cid p = l_cid l).
Proof.
  intros Ho Hok Hs Hc Ht. exists (newCIDBody (l_seq l) 0 (l_cid l) (l_token l)). rewrite handleNewConnectionID_body by lia.
  splits; [apply newCIDFrame_body; lia|reflexivity|]. cbn [fst]. intros H. apply takeNewCID_ok in H; auto; try lia. tauto.
Qed.

Lemma newcid_roundtrip_witness :
  exists st', (handleNewConnectionID keys_of peer0 true (mkReader (newCIDBody 300 0 [1; 2; 3] (replicate 16 4)) false)).1 = Ok st' /\
    exists p, peerCIDs st' !! 300 = Some p /\ p_cid p = [1; 2; 3].
Proof.
  eexists. split; [vm_compute; reflexivity|].
  destruct (newcid_roundtrip keys_of peer0 true (mkLocal 300 [1; 2; 3] (replicate 16 4) true) []
    (mkPeerSide (<[300 := mkPeer [1; 2; 3] (replicate 16 4)]> (peerCIDs peer0)) 0 [7; 7] [] 0 [] 2)) as (body & E & _ & H).
  - intros m. reflexivity.
  - exact peer0_ok.
  - cbn. lia.
  - change (1 <= 3 <= 20). lia.
  - reflexivity.
  - injection E as <-. destruct H as [H|H]; [vm_compute; reflexivity|cbn in H; lia|]. exact H.
Defined.

(** However sending, losing, confirming, retiring, the handler's calls and closing interleave, the IDs the
    connection has issued or is issuing never exceed what the peer and the configuration allow; their sequence numbers
    are distinct and below the next one; what Owns and LocalCIDs see is exactly the IDs kept; and no NEW_CONNECTION_ID
    goes out for an ID before the handler has been told of it. *)
Theorem local_cids_safe scid active x :
  1 <= active -> relations.rtc cstep (life0 scid active) x ->
  (exists p, (peerLimit (ls x) = Some p \/ peerLimit (ls x) = None /\ p = 1) /\
     len (localCIDs (ls x)) + cidsIssuing (ls x) <= Z.min active p) /\
  NoDup (l_seq <$> localCIDs (ls x)) /\ Forall (fun l => l_seq l < nextCIDSeq (ls x)) (localCIDs (ls x)) /\
  owned (ls x) = l_cid <$> localCIDs (ls x) /\
  Forall (fun e => (l_cid e, true) ∈ told x) (sent x).
Proof.
  intros Ha H. assert (ActiveConnectionIDs (ls x) = active) as Eact by exact (active_const _ _ _ H).
  destruct (life_reachable _ _ _ Ha H) as [Hcfg Hc Hi [Hs1 Hs2] How Ht Hsn]. splits; auto.
  - unfold allowed in Hc. rewrite Eact in Hc. destruct (peerLimit (ls x)) as [p|]; [exists p; auto|].
    exists 1. split; [auto|lia].
  - eapply Forall_impl; [exact Hs2|]. cbn. lia.
  - eapply Forall_impl; [exact Hsn|]. cbn. tauto.
Qed.

Lemma local_cids_safe_witness :
  exists x, relations.rtc cstep (life0 [1; 1] 4) x /\ sent x = [mkLocal 1 [2; 2] (replicate 16 0) true] /\
    Forall (fun e => (l_cid e, true) ∈ told x) (sent x).
Proof.
  eassert (relations.rtc cstep (life0 [1; 1] 4) _) as H.
  { unfold life0. eapply relations.rtc_l; [apply (CParams _ _ _ _ 3); [reflexivity|lia]|].
    eapply relations.rtc_l; [apply CConfirm|]. eapply relations.rtc_l; [eapply (CBegin _ _ _ [2; 2] (replicate 16 0)); vm_compute; reflexivity|].
    cbn [closed setParams confirm]. eapply relations.rtc_l; [apply CEnd|].
    eapply relations.rtc_l; [eapply (CSend _ _ _ _ [] 1200); vm_compute; reflexivity|]. apply relations.rtc_refl. }
  eexists. split; [exact H|]. split; [reflexivity|]. apply (local_cids_safe [1; 1] 4 _ ltac:(lia) H).
Defined.

End Cid.
