(* ===== verification/QuicParams.v ===== *)
(** * QUIC transport parameters (src/http3/quic/params.go)

    What each side tells the other about itself in the handshake: the encoder,
    the parser, and the limits a server remembers with a session ticket and
    checks early data against. *)

From S2P Require Import Prelude QuicVarint QuicFrames.
From stdpp Require Import base list numbers gmap.
From Stdlib Require Import ZArith Lia.

Local Open Scope Z_scope.
Local Open Scope go_scope.

Module Params.
Import Varint.
Import Frames.

Definition paramOriginalDCID : Z := 0x00.
Definition paramMaxIdleTimeout : Z := 0x01.
Definition paramStatelessResetToken : Z := 0x02.
Definition paramMaxUDPPayloadSize : Z := 0x03.
Definition paramInitialMaxData : Z := 0x04.
Definition paramMaxStreamDataBidiLoc : Z := 0x05.
Definition paramMaxStreamDataBidiRem : Z := 0x06.
Definition paramMaxStreamDataUni : Z := 0x07.
Definition paramInitialMaxStreamsBidi : Z := 0x08.
Definition paramInitialMaxStreamsUni : Z := 0x09.
Definition paramAckDelayExponent : Z := 0x0a.
Definition paramMaxAckDelay : Z := 0x0b.
Definition paramDisableMigration : Z := 0x0c.
Definition paramPreferredAddress : Z := 0x0d.
Definition paramActiveCIDLimit : Z := 0x0e.
Definition paramInitialSCID : Z := 0x0f.
Definition paramRetrySCID : Z := 0x10.
Definition paramMinAckDelay : Z := 0xff04de1b.

(** Durations in nanoseconds. *)
Definition Microsecond : Z := 1000.
Definition Millisecond : Z := 1000000.

(** time.Duration(n) * unit *)
Definition duration (n unit : Z) : Z := i64 (i64 n * unit).

(** A nil reset token is [None]. *)
Record transportParams : Type := mkParams {
  originalDCID : bytes;
  initialSCID : bytes;
  retrySCID : bytes;
  hasOriginalDCID : bool;
  hasInitialSCID : bool;
  hasRetrySCID : bool;
  statelessResetToken : option bytes;
  maxIdleTimeout : Z;
  maxUDPPayloadSize : Z;
  initialMaxData : Z;
  maxStreamDataBidiL : Z;
  maxStreamDataBidiR : Z;
  maxStreamDataUni : Z;
  maxStreamsBidi : Z;
  maxStreamsUni : Z;
  ackDelayExponent : Z;
  maxAckDelay : Z;
  disableMigration : bool;
  activeCIDLimit : Z;
  minAckDelay : Z;
  hasMinAckDelay : bool
}.

Definition set_originalDCID (v : bytes) (p : transportParams) : transportParams :=
  mkParams v (initialSCID p) (retrySCID p) true (hasInitialSCID p) (hasRetrySCID p) (statelessResetToken p)
    (maxIdleTimeout p) (maxUDPPayloadSize p) (initialMaxData p) (maxStreamDataBidiL p) (maxStreamDataBidiR p)
    (maxStreamDataUni p) (maxStreamsBidi p) (maxStreamsUni p) (ackDelayExponent p) (maxAckDelay p) (disableMigration
    p) (activeCIDLimit p) (minAckDelay p) (hasMinAckDelay p).

Definition set_statelessResetToken (v : bytes) (p : transportParams) : transportParams :=
  mkParams (originalDCID p) (initialSCID p) (retrySCID p) (hasOriginalDCID p) (hasInitialSCID p) (hasRetrySCID p)
    (Some v) (maxIdleTimeout p) (maxUDPPayloadSize p) (initialMaxData p) (maxStreamDataBidiL p) (maxStreamDataBidiR p)
    (maxStreamDataUni p) (maxStreamsBidi p) (maxStreamsUni p) (ackDelayExponent p) (maxAckDelay p) (disableMigration
    p) (activeCIDLimit p) (minAckDelay p) (hasMinAckDelay p).

Definition set_disableMigration (p : transportParams) : transportParams :=
  mkParams (originalDCID p) (initialSCID p) (retrySCID p) (hasOriginalDCID p) (hasInitialSCID p) (hasRetrySCID p)
    (statelessResetToken p) (maxIdleTimeout p) (maxUDPPayloadSize p) (initialMaxData p) (maxStreamDataBidiL p)
    (maxStreamDataBidiR p) (maxStreamDataUni p) (maxStreamsBidi p) (maxStreamsUni p) (ackDelayExponent p) (maxAckDelay
    p) true (activeCIDLimit p) (minAckDelay p) (hasMinAckDelay p).

Definition set_initialSCID (v : bytes) (p : transportParams) : transportParams :=
  mkParams (originalDCID p) v (retrySCID p) (hasOriginalDCID p) true (hasRetrySCID p) (statelessResetToken p)
    (maxIdleTimeout p) (maxUDPPayloadSize p) (initialMaxData p) (maxStreamDataBidiL p) (maxStreamDataBidiR p)
    (maxStreamDataUni p) (maxStreamsBidi p) (maxStreamsUni p) (ackDelayExponent p) (maxAckDelay p) (disableMigration
    p) (activeCIDLimit p) (minAckDelay p) (hasMinAckDelay p).

Definition set_retrySCID (v : bytes) (p : transportParams) : transportParams :=
  mkParams (originalDCID p) (initialSCID p) v (hasOriginalDCID p) (hasInitialSCID p) true (statelessResetToken p)
    (maxIdleTimeout p) (maxUDPPayloadSize p) (initialMaxData p) (maxStreamDataBidiL p) (maxStreamDataBidiR p)
    (maxStreamDataUni p) (maxStreamsBidi p) (maxStreamsUni p) (ackDelayExponent p) (maxAckDelay p) (disableMigration
    p) (activeCIDLimit p) (minAckDelay p) (hasMinAckDelay p).

Definition set_minAckDelay (v : Z) (p : transportParams) : transportParams :=
  mkParams (originalDCID p) (initialSCID p) (retrySCID p) (hasOriginalDCID p) (hasInitialSCID p) (hasRetrySCID p)
    (statelessResetToken p) (maxIdleTimeout p) (maxUDPPayloadSize p) (initialMaxData p) (maxStreamDataBidiL p)
    (maxStreamDataBidiR p) (maxStreamDataUni p) (maxStreamsBidi p) (maxStreamsUni p) (ackDelayExponent p) (maxAckDelay
    p) (disableMigration p) (activeCIDLimit p) v true.

Definition set_maxIdleTimeout (v : Z) (p : transportParams) : transportParams :=
  mkParams (originalDCID p) (initialSCID p) (retrySCID p) (hasOriginalDCID p) (hasInitialSCID p) (hasRetrySCID p)
    (statelessResetToken p) v (maxUDPPayloadSize p) (initialMaxData p) (maxStreamDataBidiL p) (maxStreamDataBidiR p)
    (maxStreamDataUni p) (maxStreamsBidi p) (maxStreamsUni p) (ackDelayExponent p) (maxAckDelay p) (disableMigration
    p) (activeCIDLimit p) (minAckDelay p) (hasMinAckDelay p).

Definition set_maxUDPPayloadSize (v : Z) (p : transportParams) : transportParams :=
  mkParams (originalDCID p) (initialSCID p) (retrySCID p) (hasOriginalDCID p) (hasInitialSCID p) (hasRetrySCID p)
    (statelessResetToken p) (maxIdleTimeout p) v (initialMaxData p) (maxStreamDataBidiL p) (maxStreamDataBidiR p)
    (maxStreamDataUni p) (maxStreamsBidi p) (maxStreamsUni p) (ackDelayExponent p) (maxAckDelay p) (disableMigration
    p) (activeCIDLimit p) (minAckDelay p) (hasMinAckDelay p).

Definition set_initialMaxData (v : Z) (p : transportParams) : transportParams :=
  mkParams (originalDCID p) (initialSCID p) (retrySCID p) (hasOriginalDCID p) (hasInitialSCID p) (hasRetrySCID p)
    (statelessResetToken p) (maxIdleTimeout p) (maxUDPPayloadSize p) v (maxStreamDataBidiL p) (maxStreamDataBidiR p)
    (maxStreamDataUni p) (maxStreamsBidi p) (maxStreamsUni p) (ackDelayExponent p) (maxAckDelay p) (disableMigration
    p) (activeCIDLimit p) (minAckDelay p) (hasMinAckDelay p).

Definition set_maxStreamDataBidiL (v : Z) (p : transportParams) : transportParams :=
  mkParams (originalDCID p) (initialSCID p) (retrySCID p) (hasOriginalDCID p) (hasInitialSCID p) (hasRetrySCID p)
    (statelessResetToken p) (maxIdleTimeout p) (maxUDPPayloadSize p) (initialMaxData p) v (maxStreamDataBidiR p)
    (maxStreamDataUni p) (maxStreamsBidi p) (maxStreamsUni p) (ackDelayExponent p) (maxAckDelay p) (disableMigration
    p) (activeCIDLimit p) (minAckDelay p) (hasMinAckDelay p).

Definition set_maxStreamDataBidiR (v : Z) (p : transportParams) : transportParams :=
  mkParams (originalDCID p) (initialSCID p) (retrySCID p) (hasOriginalDCID p) (hasInitialSCID p) (hasRetrySCID p)
    (statelessResetToken p) (maxIdleTimeout p) (maxUDPPayloadSize p) (initialMaxData p) (maxStreamDataBidiL p) v
    (maxStreamDataUni p) (maxStreamsBidi p) (maxStreamsUni p) (ackDelayExponent p) (maxAckDelay p) (disableMigration
    p) (activeCIDLimit p) (minAckDelay p) (hasMinAckDelay p).

Definition set_maxStreamDataUni (v : Z) (p : transportParams) : transportParams :=
  mkParams (originalDCID p) (initialSCID p) (retrySCID p) (hasOriginalDCID p) (hasInitialSCID p) (hasRetrySCID p)
    (statelessResetToken p) (maxIdleTimeout p) (maxUDPPayloadSize p) (initialMaxData p) (maxStreamDataBidiL p)
    (maxStreamDataBidiR p) v (maxStreamsBidi p) (maxStreamsUni p) (ackDelayExponent p) (maxAckDelay p)
    (disableMigration p) (activeCIDLimit p) (minAckDelay p) (hasMinAckDelay p).

Definition set_maxStreamsBidi (v : Z) (p : transportParams) : transportParams :=
  mkParams (originalDCID p) (initialSCID p) (retrySCID p) (hasOriginalDCID p) (hasInitialSCID p) (hasRetrySCID p)
    (statelessResetToken p) (maxIdleTimeout p) (maxUDPPayloadSize p) (initialMaxData p) (maxStreamDataBidiL p)
    (maxStreamDataBidiR p) (maxStreamDataUni p) v (maxStreamsUni p) (ackDelayExponent p) (maxAckDelay p)
    (disableMigration p) (activeCIDLimit p) (minAckDelay p) (hasMinAckDelay p).

Definition set_maxStreamsUni (v : Z) (p : transportParams) : transportParams :=
  mkParams (originalDCID p) (initialSCID p) (retrySCID p) (hasOriginalDCID p) (hasInitialSCID p) (hasRetrySCID p)
    (statelessResetToken p) (maxIdleTimeout p) (maxUDPPayloadSize p) (initialMaxData p) (maxStreamDataBidiL p)
    (maxStreamDataBidiR p) (maxStreamDataUni p) (maxStreamsBidi p) v (ackDelayExponent p) (maxAckDelay p)
    (disableMigration p) (activeCIDLimit p) (minAckDelay p) (hasMinAckDelay p).

Definition set_ackDelayExponent (v : Z) (p : transportParams) : transportParams :=
  mkParams (originalDCID p) (initialSCID p) (retrySCID p) (hasOriginalDCID p) (hasInitialSCID p) (hasRetrySCID p)
    (statelessResetToken p) (maxIdleTimeout p) (maxUDPPayloadSize p) (initialMaxData p) (maxStreamDataBidiL p)
    (maxStreamDataBidiR p) (maxStreamDataUni p) (maxStreamsBidi p) (maxStreamsUni p) v (maxAckDelay p)
    (disableMigration p) (activeCIDLimit p) (minAckDelay p) (hasMinAckDelay p).

Definition set_maxAckDelay (v : Z) (p : transportParams) : transportParams :=
  mkParams (originalDCID p) (initialSCID p) (retrySCID p) (hasOriginalDCID p) (hasInitialSCID p) (hasRetrySCID p)
    (statelessResetToken p) (maxIdleTimeout p) (maxUDPPayloadSize p) (initialMaxData p) (maxStreamDataBidiL p)
    (maxStreamDataBidiR p) (maxStreamDataUni p) (maxStreamsBidi p) (maxStreamsUni p) (ackDelayExponent p) v
    (disableMigration p) (activeCIDLimit p) (minAckDelay p) (hasMinAckDelay p).

Definition set_activeCIDLimit (v : Z) (p : transportParams) : transportParams :=
  mkParams (originalDCID p) (initialSCID p) (retrySCID p) (hasOriginalDCID p) (hasInitialSCID p) (hasRetrySCID p)
    (statelessResetToken p) (maxIdleTimeout p) (maxUDPPayloadSize p) (initialMaxData p) (maxStreamDataBidiL p)
    (maxStreamDataBidiR p) (maxStreamDataUni p) (maxStreamsBidi p) (maxStreamsUni p) (ackDelayExponent p) (maxAckDelay
    p) (disableMigration p) v (minAckDelay p) (hasMinAckDelay p).

Definition DefaultMaxAckDelay : Z := 25 * Millisecond.

Definition maxAckDelayLimit : Z := ((1 .<< 14) - 1) * Millisecond.

Definition defaultParams : transportParams :=
  mkParams [] [] [] false false false None 0 65527 0 0 0 0 0 0 3 DefaultMaxAckDelay false 2 0 false.

(** ** Encoding *)

Definition appendParamVarint (b : bytes) (id v : Z) : bytes :=
  AppendVarint (AppendVarint (AppendVarint b id) (VarintLen v)) v.

Definition appendParamBytes (b : bytes) (id : Z) (v : bytes) : bytes :=
  AppendVarint (AppendVarint b id) (len v) ++ v.

Definition encode (p : transportParams) : bytes :=
  let b := [] in
  let b := if hasOriginalDCID p then appendParamBytes b paramOriginalDCID (originalDCID p) else b in
  let b := if 0 <? maxIdleTimeout p then appendParamVarint b paramMaxIdleTimeout (u64 (Z.quot (maxIdleTimeout p) Millisecond)) else b in
  let b := match statelessResetToken p with Some t => appendParamBytes b paramStatelessResetToken t | None => b end in
  let b := appendParamVarint b paramInitialMaxData (initialMaxData p) in
  let b := appendParamVarint b paramMaxStreamDataBidiLoc (maxStreamDataBidiL p) in
  let b := appendParamVarint b paramMaxStreamDataBidiRem (maxStreamDataBidiR p) in
  let b := appendParamVarint b paramMaxStreamDataUni (maxStreamDataUni p) in
  let b := appendParamVarint b paramInitialMaxStreamsBidi (maxStreamsBidi p) in
  let b := appendParamVarint b paramInitialMaxStreamsUni (maxStreamsUni p) in
  let b := if (0 <? maxAckDelay p) && negb (maxAckDelay p =? DefaultMaxAckDelay)
           then appendParamVarint b paramMaxAckDelay (u64 (Z.quot (maxAckDelay p) Millisecond)) else b in
  let b := if disableMigration p then appendParamBytes b paramDisableMigration [] else b in
  let b := if 2 <? activeCIDLimit p then appendParamVarint b paramActiveCIDLimit (activeCIDLimit p) else b in
  let b := if hasInitialSCID p then appendParamBytes b paramInitialSCID (initialSCID p) else b in
  let b := if hasRetrySCID p then appendParamBytes b paramRetrySCID (retrySCID p) else b in
  appendParamVarint b paramMinAckDelay (u64 (Z.quot (minAckDelay p) Microsecond)).

(** ** Parsing *)

(** The reasons of the TRANSPORT_PARAMETER_ERROR the parser ends with. *)
Inductive paramErr : Type := truncated | duplicate | invalid | serverOnlyErr | minAboveMax.

#[export] Instance paramErr_eq_dec : EqDecision paramErr.
Proof. solve_decision. Defined.

(** intValue, and whether vr is then bad. *)
Definition intValue (v : bytes) : Z * bool :=
  let '(n, vr) := varint (mkReader v false) in (n, r_bad vr || (0 <? len (r_b vr))).

(** One parameter: the parameters with it, whether it is invalid, and whether
    only a server may send it. *)
Definition setParam (p : transportParams) (id : Z) (v : bytes) : transportParams * bool * bool :=
  let '(n, bad) := intValue v in
  if id =? paramOriginalDCID then (set_originalDCID v p, false, true)
  else if id =? paramMaxIdleTimeout then (set_maxIdleTimeout (duration n Millisecond) p, bad, false)
  else if id =? paramStatelessResetToken then (set_statelessResetToken v p, negb (len v =? 16), true)
  else if id =? paramMaxUDPPayloadSize then (set_maxUDPPayloadSize n p, bad || (n <? 1200), false)
  else if id =? paramInitialMaxData then (set_initialMaxData n p, bad, false)
  else if id =? paramMaxStreamDataBidiLoc then (set_maxStreamDataBidiL n p, bad, false)
  else if id =? paramMaxStreamDataBidiRem then (set_maxStreamDataBidiR n p, bad, false)
  else if id =? paramMaxStreamDataUni then (set_maxStreamDataUni n p, bad, false)
  else if id =? paramInitialMaxStreamsBidi then (set_maxStreamsBidi n p, bad || (1 .<< 60 <? n), false)
  else if id =? paramInitialMaxStreamsUni then (set_maxStreamsUni n p, bad || (1 .<< 60 <? n), false)
  else if id =? paramAckDelayExponent then (set_ackDelayExponent n p, bad || (20 <? n), false)
  else if id =? paramMaxAckDelay then (set_maxAckDelay (duration n Millisecond) p, bad || (1 .<< 14 <=? n), false)
  else if id =? paramDisableMigration then (set_disableMigration p, negb (len v =? 0), false)
  else if id =? paramPreferredAddress then (p, false, true)
  else if id =? paramActiveCIDLimit then (set_activeCIDLimit n p, bad || (n <? 2), false)
  else if id =? paramInitialSCID then (set_initialSCID v p, false, false)
  else if id =? paramRetrySCID then (set_retrySCID v p, false, true)
  else if id =? paramMinAckDelay then (set_minAckDelay (duration n Microsecond) p, bad || ((1 .<< 14) * 1000 <? n), false)
  else (p, false, false).

(** The loop; every turn takes at least a byte, so [fuel] is the length. *)
Fixpoint parseLoop (fuel : nat) (isClient : bool) (p : transportParams) (seen : gset Z) (b : bytes) : res paramErr transportParams :=
  match fuel, b with
  | _, [] => Ok p
  | O, _ => Err truncated
  | S fuel, _ =>
      let '(id, r) := varint (mkReader b false) in
      let '(n, r) := varint r in
      let '(v, r) := read_bytes r n in
      if r_bad r then Err truncated
      else if decide (id ∈ seen) then Err duplicate
      else
        let '(p, bad, serverOnly) := setParam p id v in
        if bad then Err invalid
        else if serverOnly && negb isClient then Err serverOnlyErr
        else parseLoop fuel isClient p ({[id]} ∪ seen) (r_b r)
  end.

Definition parseParams (b : bytes) (isClient : bool) : res paramErr transportParams :=
  match parseLoop (length b) isClient defaultParams ∅ b with
  | Err e => Err e
  | Ok p => if hasMinAckDelay p && (maxAckDelay p <? minAckDelay p) then Err minAboveMax else Ok p
  end.

(** ** What is remembered with a session ticket *)

Definition rememberedLimits (l : transportParams) : bytes :=
  [1] ++ encode (mkParams [] [] [] false false false None 0 0 (initialMaxData l) (maxStreamDataBidiL l) (maxStreamDataBidiR l)
    (maxStreamDataUni l) (maxStreamsBidi l) (maxStreamsUni l) 0 0 false (activeCIDLimit l) 0 false).

Definition earlyAllowed (l : transportParams) (extra : list bytes) : bool :=
  match extra with
  | [1 :: b] =>
      match parseParams b true with
      | Err _ => false
      | Ok old =>
          (initialMaxData old <=? initialMaxData l) && (maxStreamDataBidiL old <=? maxStreamDataBidiL l) &&
          (maxStreamDataBidiR old <=? maxStreamDataBidiR l) && (maxStreamDataUni old <=? maxStreamDataUni l) &&
          (maxStreamsBidi old <=? maxStreamsBidi l) && (maxStreamsUni old <=? maxStreamsUni l) &&
          (activeCIDLimit old <=? activeCIDLimit l)
      end
  | _ => false
  end.

(** [None] where the code returns false. *)
Definition parseRemembered (extra : list bytes) : option transportParams :=
  match list.last extra with
  | Some (1 :: b) => match parseParams b true with Ok p => Some p | Err _ => None end
  | _ => None
  end.

Definition limitsNotBelow (now old : transportParams) : bool :=
  (initialMaxData old <=? initialMaxData now) && (maxStreamDataBidiL old <=? maxStreamDataBidiL now) &&
  (maxStreamDataBidiR old <=? maxStreamDataBidiR now) && (maxStreamDataUni old <=? maxStreamDataUni now) &&
  (maxStreamsBidi old <=? maxStreamsBidi now) && (maxStreamsUni old <=? maxStreamsUni now) &&
  (activeCIDLimit old <=? activeCIDLimit now).

(** What handlePeerParams makes of the idle timeout. *)
Definition idleAfter (idleTimeout : Z) (p : transportParams) : Z :=
  if (0 <? maxIdleTimeout p) && (maxIdleTimeout p <? idleTimeout) then maxIdleTimeout p else idleTimeout.

(** ** Lemmas: the parameters as a list *)

Definition flat (fs : list (Z * bytes)) : bytes := concat ((fun f => appendParamBytes [] f.1 f.2) <$> fs).

Lemma appendParamBytes_app b id v : appendParamBytes b id v = b ++ appendParamBytes [] id v.
Proof.
  unfold appendParamBytes. rewrite (AppendVarint_app (AppendVarint b _)), (AppendVarint_app b), (AppendVarint_app (AppendVarint [] _)).
  now rewrite <- !app_assoc.
Qed.

Lemma appendParamVarint_bytes b id v : 0 <= v < 2 ^ 62 -> appendParamVarint b id v = appendParamBytes b id (AppendVarint [] v).
Proof.
  intros Hv. unfold appendParamVarint, appendParamBytes. rewrite AppendVarint_app. now rewrite (proj1 (ReadVarint_AppendVarint v [] Hv)).
Qed.

Lemma intValue_varint v : 0 <= v < 2 ^ 62 -> intValue (AppendVarint [] v) = (v, false).
Proof.
  intros Hv. unfold intValue. rewrite <- (app_nil_r (AppendVarint [] v)), varint_read by exact Hv. reflexivity.
Qed.

(** What the loop makes of parameters one after the other, none twice. *)
Fixpoint setAll (isClient : bool) (p : transportParams) (fs : list (Z * bytes)) : res paramErr transportParams :=
  match fs with
  | [] => Ok p
  | (id, v) :: fs =>
      let '(p, bad, serverOnly) := setParam p id v in
      if bad then Err invalid else if serverOnly && negb isClient then Err serverOnlyErr else setAll isClient p fs
  end.

(** Parameters in increasing order of their IDs, from one on. *)
Fixpoint rising (from : Z) (fs : list (Z * bytes)) : Prop :=
  match fs with
  | [] => True
  | (id, v) :: fs => from <= id < 2 ^ 62 /\ len v < 2 ^ 62 /\ rising (id + 1) fs
  end.

Lemma appendParamBytes_cons id v : 0 <= id < 2 ^ 62 -> exists x b, appendParamBytes [] id v = x :: b.
Proof.
  intros Hid. unfold appendParamBytes. rewrite (AppendVarint_app (AppendVarint [] _)), <- app_assoc.
  destruct (ReadVarint_AppendVarint id [] Hid) as [El _].
  destruct (AppendVarint [] id) as [|x b]; [|now exists x, (b ++ AppendVarint [] (len v) ++ v)].
  change (len []) with 0 in El. unfold VarintLen in El. repeat case_match; lia.
Qed.

Lemma parseLoop_flat fs isClient p seen from fuel :
  0 <= from -> rising from fs -> (forall id, id ∈ seen -> id < from) -> (length fs <= fuel)%nat ->
  parseLoop fuel isClient p seen (flat fs) = setAll isClient p fs.
Proof.
  revert p seen from fuel. induction fs as [|[id v] fs IH]; intros p seen from fuel Hf Hr Hs Hfu; [now destruct fuel|].
  destruct Hr as (Hid & Hv & Hr). destruct fuel as [|fuel]; [cbn in Hfu; lia|]. cbn [setAll].
  destruct (appendParamBytes_cons id v ltac:(lia)) as (x & t & Ec).
  assert (flat ((id, v) :: fs) = x :: (t ++ flat fs)) as E by (unfold flat; cbn; now rewrite Ec).
  rewrite E. cbn [parseLoop]. rewrite app_comm_cons, <- Ec.
  unfold appendParamBytes. rewrite (AppendVarint_app (AppendVarint [] id)), <- !app_assoc.
  rewrite varint_read by lia. cbv beta iota. rewrite varint_read by (pose proof (len_nonneg v); lia). cbv beta iota.
  rewrite read_bytes_app by reflexivity. cbv beta iota. cbn [r_bad]. rewrite decide_False by (intros H; apply Hs in H; lia).
  destruct (setParam p id v) as [[p' bad] so]. destruct bad; [reflexivity|]. destruct (so && negb isClient); [reflexivity|].
  cbn [r_b]. apply (IH _ _ (id + 1)); auto; [lia| |cbn in Hfu; lia].
  intros i. rewrite elem_of_union, elem_of_singleton. intros [->|H]; [lia|apply Hs in H; lia].
Qed.

(** ** Lemmas: what encode writes *)

Definition opt (c : bool) (id : Z) (v : bytes) : list (Z * bytes) := if c then [(id, v)] else [].

Definition is_some {A} (o : option A) : bool := match o with Some _ => true | None => false end.

(** The parameters encode writes, in its order. *)
Definition fields (p : transportParams) : list (Z * bytes) :=
  opt (hasOriginalDCID p) paramOriginalDCID (originalDCID p) ++
  opt (0 <? maxIdleTimeout p) paramMaxIdleTimeout (AppendVarint [] (u64 (Z.quot (maxIdleTimeout p) Millisecond))) ++
  opt (is_some (statelessResetToken p)) paramStatelessResetToken (default [] (statelessResetToken p)) ++
  opt true paramInitialMaxData (AppendVarint [] (initialMaxData p)) ++
  opt true paramMaxStreamDataBidiLoc (AppendVarint [] (maxStreamDataBidiL p)) ++
  opt true paramMaxStreamDataBidiRem (AppendVarint [] (maxStreamDataBidiR p)) ++
  opt true paramMaxStreamDataUni (AppendVarint [] (maxStreamDataUni p)) ++
  opt true paramInitialMaxStreamsBidi (AppendVarint [] (maxStreamsBidi p)) ++
  opt true paramInitialMaxStreamsUni (AppendVarint [] (maxStreamsUni p)) ++
  opt ((0 <? maxAckDelay p) && negb (maxAckDelay p =? DefaultMaxAckDelay)) paramMaxAckDelay
    (AppendVarint [] (u64 (Z.quot (maxAckDelay p) Millisecond))) ++
  opt (disableMigration p) paramDisableMigration [] ++
  opt (2 <? activeCIDLimit p) paramActiveCIDLimit (AppendVarint [] (activeCIDLimit p)) ++
  opt (hasInitialSCID p) paramInitialSCID (initialSCID p) ++
  opt (hasRetrySCID p) paramRetrySCID (retrySCID p) ++
  opt true paramMinAckDelay (AppendVarint [] (u64 (Z.quot (minAckDelay p) Microsecond))).

(** Parameters that can be put on the wire. *)
Record wire_ok (p : transportParams) : Prop := mkWireOk {
  wo_cids : len (originalDCID p) <= 20 /\ len (initialSCID p) <= 20 /\ len (retrySCID p) <= 20;
  wo_token : forall t, statelessResetToken p = Some t -> len t = 16;
  wo_idle : 0 <= maxIdleTimeout p < 2 ^ 63;
  wo_data : 0 <= initialMaxData p < 2 ^ 62 /\ 0 <= maxStreamDataBidiL p < 2 ^ 62 /\ 0 <= maxStreamDataBidiR p < 2 ^ 62 /\
    0 <= maxStreamDataUni p < 2 ^ 62;
  wo_streams : 0 <= maxStreamsBidi p <= 2 ^ 60 /\ 0 <= maxStreamsUni p <= 2 ^ 60;
  wo_delays : 0 <= maxAckDelay p <= maxAckDelayLimit /\ 0 <= minAckDelay p <= maxAckDelayLimit;
  wo_active : 2 <= activeCIDLimit p < 2 ^ 62
}.

Lemma quot_small t unit : 0 < unit -> 0 <= t < 2 ^ 63 -> 0 <= Z.quot t unit * unit <= t /\ 0 <= Z.quot t unit <= t.
Proof.
  intros Hu Ht. rewrite Z.quot_div_nonneg by lia. pose proof (Z.mul_div_le t unit Hu). pose proof (Z.div_pos t unit ltac:(lia) Hu). nia.
Qed.

Lemma quot_varint t unit : 1000 <= unit -> 0 <= t < 2 ^ 63 -> 0 <= u64 (Z.quot t unit) < 2 ^ 62 /\ duration (u64 (Z.quot t unit)) unit = Z.quot t unit * unit.
Proof.
  intros Hu Ht. destruct (quot_small t unit ltac:(lia) Ht) as [H1 H2]. rewrite u64_id by lia. unfold duration.
  rewrite !i64_id by (rewrite ?i64_id by lia; lia). split; [nia|reflexivity].
Qed.

Lemma opt_bytes (c : bool) b id v : (if c then appendParamBytes b id v else b) = b ++ flat (opt c id v).
Proof. destruct c; cbn; rewrite app_nil_r; [apply appendParamBytes_app|reflexivity]. Qed.

Lemma opt_varint (c : bool) b id v : 0 <= v < 2 ^ 62 -> (if c then appendParamVarint b id v else b) = b ++ flat (opt c id (AppendVarint [] v)).
Proof. intros Hv. rewrite <- opt_bytes. destruct c; [now apply appendParamVarint_bytes|reflexivity]. Qed.

Lemma flat_app fs gs : flat (fs ++ gs) = flat fs ++ flat gs.
Proof. unfold flat. now rewrite fmap_app, concat_app. Qed.

Lemma flat_one id v : flat [(id, v)] = appendParamBytes [] id v.
Proof. unfold flat. cbn. apply app_nil_r. Qed.

Lemma encode_flat p : wire_ok p -> encode p = flat (fields p).
Proof.
  intros [Hc Ht Hi Hd Hs Ha Hact]. unfold encode, fields. rewrite !flat_app. change maxAckDelayLimit with 16383000000 in Ha.
  destruct (quot_varint (maxIdleTimeout p) Millisecond ltac:(easy) Hi) as [Hidle _].
  destruct (quot_varint (maxAckDelay p) Millisecond ltac:(easy) ltac:(lia)) as [Hmax _].
  destruct (quot_varint (minAckDelay p) Microsecond ltac:(easy) ltac:(lia)) as [Hmin _].
  assert (forall b id v, 0 <= v < 2 ^ 62 -> appendParamVarint b id v = b ++ flat (opt true id (AppendVarint [] v))) as Hv.
  { intros b id v Hv. exact (opt_varint true b id v Hv). }
  cbv zeta. rewrite !opt_bytes, !opt_varint by first [assumption|lia]. rewrite !Hv by first [assumption|lia].
  destruct (statelessResetToken p) as [t|]; cbn [is_some default opt]; [rewrite appendParamBytes_app|]; rewrite <- !app_assoc; [|reflexivity].
  change (id t) with t. now rewrite (flat_one paramStatelessResetToken t).
Qed.

Lemma rising_mono from from' fs : from <= from' -> rising from' fs -> rising from fs.
Proof. destruct fs as [|[id v] fs]; [auto|]. cbn. intros ? (? & ? & ?). splits; auto; lia. Qed.

Lemma rising_opt c from id v fs : from <= id < 2 ^ 62 -> (c = true -> len v < 2 ^ 62) -> rising (id + 1) fs -> rising from (opt c id v ++ fs).
Proof. intros Hid Hv Hf. destruct c; cbn; [splits; auto; lia|]. apply (rising_mono from (id + 1)); [lia|exact Hf]. Qed.

Lemma len_AppendVarint v : 0 <= v < 2 ^ 62 -> 0 < len (AppendVarint [] v) < 2 ^ 62.
Proof.
  intros Hv. rewrite (proj1 (ReadVarint_AppendVarint v [] Hv)). unfold VarintLen. repeat case_match; lia.
Qed.

Lemma rising_fields p : wire_ok p -> rising 0 (fields p).
Proof.
  intros [Hc Ht Hi Hd Hs Ha Hact]. change maxAckDelayLimit with 16383000000 in Ha.
  destruct (quot_varint (maxIdleTimeout p) Millisecond ltac:(easy) Hi) as [Hidle _].
  destruct (quot_varint (maxAckDelay p) Millisecond ltac:(easy) ltac:(lia)) as [Hmax _].
  destruct (quot_varint (minAckDelay p) Microsecond ltac:(easy) ltac:(lia)) as [Hmin _].
  unfold fields. rewrite <- (app_nil_r (opt true paramMinAckDelay _)), <- ?app_assoc.
  repeat (apply rising_opt; [vm_compute; split; congruence|intros Eopt; first [apply len_AppendVarint; first [assumption|lia]|lia|idtac]|]).
  - destruct (statelessResetToken p) as [t|] eqn:Et; [|discriminate]. change (default [] (Some t)) with t. rewrite (Ht t eq_refl). lia.
  - change (len []) with 0. lia.
  - exact I.
Qed.

(** One parameter, or none. *)
Lemma setAll_opt (c : bool) (f : transportParams -> transportParams) so isClient p id v fs :
  (c = true -> setParam p id v = (f p, false, so) /\ (so = true -> isClient = true)) ->
  setAll isClient p (opt c id v ++ fs) = setAll isClient (if c then f p else p) fs.
Proof.
  intros H. destruct c; [|reflexivity]. destruct (H eq_refl) as [E Hs]. cbn [opt app setAll]. rewrite E.
  destruct so; [now rewrite Hs|reflexivity].
Qed.

Lemma setAll_int (c : bool) (f : Z -> transportParams -> transportParams) (chk : Z -> bool) isClient p id n fs :
  (forall p v, setParam p id v = (f (intValue v).1 p, (intValue v).2 || chk (intValue v).1, false)) ->
  0 <= n < 2 ^ 62 -> (c = true -> chk n = false) ->
  setAll isClient p (opt c id (AppendVarint [] n) ++ fs) = setAll isClient (if c then f n p else p) fs.
Proof.
  intros H Hn Hc. apply (setAll_opt c (f n) false). intros E. split; [|discriminate]. rewrite H, intValue_varint by exact Hn.
  cbn [fst snd orb]. now rewrite (Hc E).
Qed.

(** What a peer makes of what encode wrote. *)
Definition decoded (p : transportParams) : transportParams :=
  mkParams (if hasOriginalDCID p then originalDCID p else []) (if hasInitialSCID p then initialSCID p else [])
    (if hasRetrySCID p then retrySCID p else []) (hasOriginalDCID p) (hasInitialSCID p) (hasRetrySCID p) (statelessResetToken p)
    (Z.quot (maxIdleTimeout p) Millisecond * Millisecond) 65527 (initialMaxData p) (maxStreamDataBidiL p) (maxStreamDataBidiR p)
    (maxStreamDataUni p) (maxStreamsBidi p) (maxStreamsUni p) 3
    (if 0 <? maxAckDelay p then Z.quot (maxAckDelay p) Millisecond * Millisecond else DefaultMaxAckDelay)
    (disableMigration p) (activeCIDLimit p) (Z.quot (minAckDelay p) Microsecond * Microsecond) true.

(** Only a server sends these. *)
Definition client_ok (p : transportParams) (isClient : bool) : Prop :=
  isClient = true \/ (hasOriginalDCID p = false /\ hasRetrySCID p = false /\ statelessResetToken p = None).

(** The next parameter is an integer, stored by [f], invalid where [chk]. *)
Ltac int_param f chk :=
  rewrite (setAll_int _ f chk);
    [|intros ? v; unfold setParam; destruct (intValue v) as [n bad]; cbn [fst snd]; rewrite ?orb_false_r; reflexivity
     |first [assumption|lia]
     |intros ?; cbn beta; first [reflexivity|change (1 .<< 60) with (2 ^ 60); bool_cases; first [reflexivity|lia]]].

Ltac bytes_param f so :=
  rewrite (setAll_opt _ f so);
    [|intros E; split; [unfold setParam; destruct (intValue _); reflexivity|]].

(** The parameters set one by one, put together. *)
Lemma fields_record p idle ack min :
  (if 0 <? maxIdleTimeout p then idle else 0) = Z.quot (maxIdleTimeout p) Millisecond * Millisecond ->
  (if (0 <? maxAckDelay p) && negb (maxAckDelay p =? DefaultMaxAckDelay) then ack else DefaultMaxAckDelay) =
    (if 0 <? maxAckDelay p then Z.quot (maxAckDelay p) Millisecond * Millisecond else DefaultMaxAckDelay) ->
  (if 2 <? activeCIDLimit p then activeCIDLimit p else 2) = activeCIDLimit p ->
  set_minAckDelay min
    (let q := defaultParams in
     let q := if hasOriginalDCID p then set_originalDCID (originalDCID p) q else q in
     let q := if 0 <? maxIdleTimeout p then set_maxIdleTimeout idle q else q in
     let q := if is_some (statelessResetToken p) then set_statelessResetToken (default [] (statelessResetToken p)) q else q in
     let q := set_maxStreamsUni (maxStreamsUni p) (set_maxStreamsBidi (maxStreamsBidi p) (set_maxStreamDataUni (maxStreamDataUni p)
       (set_maxStreamDataBidiR (maxStreamDataBidiR p) (set_maxStreamDataBidiL (maxStreamDataBidiL p) (set_initialMaxData (initialMaxData p) q))))) in
     let q := if (0 <? maxAckDelay p) && negb (maxAckDelay p =? DefaultMaxAckDelay) then set_maxAckDelay ack q else q in
     let q := if disableMigration p then set_disableMigration q else q in
     let q := if 2 <? activeCIDLimit p then set_activeCIDLimit (activeCIDLimit p) q else q in
     let q := if hasInitialSCID p then set_initialSCID (initialSCID p) q else q in
     if hasRetrySCID p then set_retrySCID (retrySCID p) q else q) =
  mkParams (if hasOriginalDCID p then originalDCID p else []) (if hasInitialSCID p then initialSCID p else [])
    (if hasRetrySCID p then retrySCID p else []) (hasOriginalDCID p) (hasInitialSCID p) (hasRetrySCID p) (statelessResetToken p)
    (Z.quot (maxIdleTimeout p) Millisecond * Millisecond) 65527 (initialMaxData p) (maxStreamDataBidiL p) (maxStreamDataBidiR p)
    (maxStreamDataUni p) (maxStreamsBidi p) (maxStreamsUni p) 3
    (if 0 <? maxAckDelay p then Z.quot (maxAckDelay p) Millisecond * Millisecond else DefaultMaxAckDelay)
    (disableMigration p) (activeCIDLimit p) min true.
Proof.
  intros <- <- H3. destruct (statelessResetToken p); destruct (0 <? maxIdleTimeout p), (hasOriginalDCID p), (_ && _), (disableMigration p),
    (2 <? activeCIDLimit p), (hasInitialSCID p), (hasRetrySCID p); first [reflexivity|rewrite <- H3; reflexivity].
Qed.

Lemma setAll_fields p isClient :
  wire_ok p -> client_ok p isClient -> setAll isClient defaultParams (fields p) = Ok (decoded p).
Proof.
  intros [Hc Ht Hi Hd Hs Ha Hact] Hcl. change maxAckDelayLimit with 16383000000 in Ha.
  destruct (quot_varint (maxIdleTimeout p) Millisecond ltac:(easy) Hi) as [Hidle Edidle].
  destruct (quot_varint (maxAckDelay p) Millisecond ltac:(easy) ltac:(lia)) as [Hmax Emax].
  destruct (quot_varint (minAckDelay p) Microsecond ltac:(easy) ltac:(lia)) as [Hmin Emin].
  unfold fields. rewrite <- (app_nil_r (opt true paramMinAckDelay _)), <- ?app_assoc.
  bytes_param (set_originalDCID (originalDCID p)) true; [|destruct Hcl as [->|(? & _)]; congruence].
  int_param (fun n => set_maxIdleTimeout (duration n Millisecond)) (fun _ : Z => false).
  rewrite (setAll_opt _ (set_statelessResetToken (default [] (statelessResetToken p))) true).
  2:{ intros E. split; [|destruct Hcl as [->|(_ & _ & E')]; [reflexivity|now rewrite E' in E]].
      unfold setParam. destruct (intValue _). destruct (statelessResetToken p) as [t|]; [|discriminate]. cbn. now rewrite (Ht t eq_refl). }
  int_param set_initialMaxData (fun _ : Z => false). int_param set_maxStreamDataBidiL (fun _ : Z => false).
  int_param set_maxStreamDataBidiR (fun _ : Z => false). int_param set_maxStreamDataUni (fun _ : Z => false).
  int_param set_maxStreamsBidi (fun n => 1 .<< 60 <? n). int_param set_maxStreamsUni (fun n => 1 .<< 60 <? n).
  rewrite (setAll_int _ (fun n => set_maxAckDelay (duration n Millisecond)) (fun n => 1 .<< 14 <=? n)).
  2:{ intros ? v. unfold setParam. destruct (intValue v). reflexivity. }
  2:{ exact Hmax. }
  2:{ intros _. apply Z.leb_gt. change (1 .<< 14) with 16384. rewrite u64_id; rewrite Z.quot_div_nonneg by (try lia; reflexivity).
      - apply Z.div_lt_upper_bound; unfold Millisecond; lia.
      - destruct (quot_small (maxAckDelay p) Millisecond) as [_ H]; [reflexivity|lia|]. rewrite Z.quot_div_nonneg in H by (try lia; reflexivity). lia. }
  bytes_param set_disableMigration false; [|discriminate].
  int_param set_activeCIDLimit (fun n => n <? 2).
  bytes_param (set_initialSCID (initialSCID p)) false; [|discriminate].
  bytes_param (set_retrySCID (retrySCID p)) true; [|destruct Hcl as [->|(_ & ? & _)]; congruence].
  rewrite (setAll_int _ (fun n => set_minAckDelay (duration n Microsecond)) (fun n => (1 .<< 14) * 1000 <? n)).
  2:{ intros ? v. unfold setParam. destruct (intValue v). reflexivity. }
  2:{ exact Hmin. }
  2:{ intros _. apply Z.ltb_ge. change ((1 .<< 14) * 1000) with 16384000. rewrite u64_id; rewrite Z.quot_div_nonneg by (try lia; reflexivity).
      - apply Z.div_le_upper_bound; unfold Microsecond; lia.
      - destruct (quot_small (minAckDelay p) Microsecond) as [_ H]; [reflexivity|lia|]. rewrite Z.quot_div_nonneg in H by (try lia; reflexivity). lia. }
  cbn [setAll]. cbv beta. rewrite Edidle, Emax, Emin. f_equal. apply fields_record.
  - destruct (Z.ltb_spec 0 (maxIdleTimeout p)); [reflexivity|]. now replace (maxIdleTimeout p) with 0 by lia.
  - destruct (Z.ltb_spec 0 (maxAckDelay p)) as [Hp|Hp]; [|reflexivity]. cbn [andb].
    destruct (Z.eqb_spec (maxAckDelay p) DefaultMaxAckDelay) as [->|_]; reflexivity.
  - destruct (Z.ltb_spec 2 (activeCIDLimit p)); [reflexivity|]. lia.
Qed.

Lemma length_flat fs : (forall f, f ∈ fs -> 0 <= f.1 < 2 ^ 62) -> (length fs <= length (flat fs))%nat.
Proof.
  induction fs as [|[id v] fs IH]; intros H; [cbn; lia|]. unfold flat. cbn.
  destruct (appendParamBytes_cons id v) as (x & b & E); [apply (H (id, v)); left|]. rewrite E. cbn. rewrite length_app.
  specialize (IH ltac:(intros f Hf; apply H; now right)). unfold flat in IH. lia.
Qed.

Lemma rising_ids from fs f : 0 <= from -> rising from fs -> f ∈ fs -> 0 <= f.1 < 2 ^ 62.
Proof.
  revert from. induction fs as [|[id v] fs IH]; intros from Hf Hr Hin; [now apply elem_of_nil in Hin|].
  destruct Hr as (Hid & _ & Hr). apply elem_of_cons in Hin as [->|Hin]; [cbn; lia|]. apply (IH (id + 1)); auto. lia.
Qed.

Lemma parse_encode p isClient :
  wire_ok p -> client_ok p isClient -> minAckDelay (decoded p) <= maxAckDelay (decoded p) ->
  parseParams (encode p) isClient = Ok (decoded p).
Proof.
  intros Hw Hcl Hm. unfold parseParams. rewrite (encode_flat p Hw). pose proof (rising_fields p Hw) as Hr.
  rewrite (parseLoop_flat _ _ _ _ 0), (setAll_fields p isClient Hw Hcl); auto; [|lia| |].
  - rewrite (proj2 (Z.ltb_ge _ _)) by exact Hm. now rewrite andb_false_r.
  - intros i Hi. now apply elem_of_empty in Hi.
  - apply length_flat. intros f. apply (rising_ids 0); [lia|exact Hr].
Qed.

(** A value of a unit, as the configuration makes them. *)
Lemma quot_exact t unit : 0 < unit -> t mod unit = 0 -> Z.quot t unit * unit = t.
Proof. intros Hu Hm. apply Z.mod_divide in Hm as [k ->]; [|lia]. rewrite Z.quot_mul by lia. reflexivity. Qed.

(** The parameters of a connection: what encode leaves out has its default. *)
Record local_ok (p : transportParams) : Prop := mkLocalOk {
  lo_o : hasOriginalDCID p = false -> originalDCID p = [];
  lo_i : hasInitialSCID p = false -> initialSCID p = [];
  lo_r : hasRetrySCID p = false -> retrySCID p = [];
  lo_idle : maxIdleTimeout p mod Millisecond = 0;
  lo_max : 0 < maxAckDelay p /\ maxAckDelay p mod Millisecond = 0;
  lo_min : minAckDelay p mod Microsecond = 0 /\ minAckDelay p <= maxAckDelay p;
  lo_const : maxUDPPayloadSize p = 65527 /\ ackDelayExponent p = 3
}.

(** ** Lemmas: what the parser lets through *)

Record params_ok (isClient : bool) (p : transportParams) : Prop := mkParamsOk {
  pk_udp : 1200 <= maxUDPPayloadSize p < 2 ^ 62;
  pk_data : 0 <= initialMaxData p < 2 ^ 62 /\ 0 <= maxStreamDataBidiL p < 2 ^ 62 /\ 0 <= maxStreamDataBidiR p < 2 ^ 62 /\
    0 <= maxStreamDataUni p < 2 ^ 62;
  pk_streams : 0 <= maxStreamsBidi p <= 2 ^ 60 /\ 0 <= maxStreamsUni p <= 2 ^ 60;
  pk_exp : 0 <= ackDelayExponent p <= 20;
  pk_max : 0 <= maxAckDelay p <= maxAckDelayLimit;
  pk_min : 0 <= minAckDelay p <= 2 ^ 14 * Millisecond;
  pk_active : 2 <= activeCIDLimit p < 2 ^ 62;
  pk_token : forall t, statelessResetToken p = Some t -> len t = 16;
  pk_client : isClient = false -> hasOriginalDCID p = false /\ hasRetrySCID p = false /\ statelessResetToken p = None
}.

Lemma intValue_range v n bad : bytes_ok v -> intValue v = (n, bad) -> 0 <= n < 2 ^ 62.
Proof.
  intros Hv. unfold intValue. destruct (varint _) as [x r] eqn:E. destruct (varint_range (mkReader v false) _ _ Hv E) as [H _].
  now intros [= <- _].
Qed.

Lemma duration_small n unit : 0 <= n <= 2 ^ 24 -> 0 <= unit <= 2 ^ 24 -> duration n unit = n * unit.
Proof. intros Hn Hu. unfold duration. rewrite !i64_id by (rewrite ?i64_id by lia; nia). reflexivity. Qed.

Lemma setParam_safe isClient p id v p' so :
  bytes_ok v -> params_ok isClient p -> setParam p id v = (p', false, so) -> so && negb isClient = false -> params_ok isClient p'.
Proof.
  intros Hv [H1 H2 H3 H4 H5 H6 H7 H8 H9]. unfold setParam. destruct (intValue v) as [n bad] eqn:En.
  apply (intValue_range _ _ _ Hv) in En.
  change (1 .<< 60) with (2 ^ 60). change (1 .<< 14) with 16384.
  repeat (destruct (id =? _); [intros E Hso; simplify_eq; split; cbn; auto;
    repeat match goal with H : _ || _ = false |- _ => apply orb_false_iff in H as [_ H] end; try (bool_cases; [discriminate|lia]);
    try (intros ->; discriminate)|]).
  - intros t [= <-]. match goal with H : negb _ = false |- _ => apply negb_false_iff, Z.eqb_eq in H; exact H end.
  - lia.
  - lia.
  - lia.
  - lia.
  - bool_cases; [discriminate|]. change maxAckDelayLimit with 16383000000. rewrite duration_small; unfold Millisecond; lia.
  - bool_cases; [discriminate|]. rewrite duration_small; unfold Microsecond, Millisecond; lia.
  - intros [= <- <-] _. now split.
Qed.

Lemma read_bytes_ok r n v r' : bytes_ok (r_b r) -> read_bytes r n = (v, r') -> bytes_ok v /\ bytes_ok (r_b r').
Proof.
  intros Hb. unfold read_bytes. destruct (_ <? _); intros [= <- <-]; cbn; [split; constructor|].
  split; [now apply Forall_take|now apply Forall_drop].
Qed.

Lemma parseLoop_safe fuel isClient p seen b p' :
  bytes_ok b -> params_ok isClient p -> parseLoop fuel isClient p seen b = Ok p' -> params_ok isClient p'.
Proof.
  revert p seen b. induction fuel as [|fuel IH]; intros p seen b Hb Hp; cbn [parseLoop].
  - destruct b; [now intros [= <-]|discriminate].
  - destruct b as [|x b]; [now intros [= <-]|]. set (bb := x :: b) in *. clearbody bb.
    destruct (varint (mkReader bb false)) as [id r1] eqn:E1. destruct (varint_range (mkReader bb false) _ _ Hb E1) as [_ Hb1].
    destruct (varint r1) as [n r2] eqn:E2. destruct (varint_range _ _ _ Hb1 E2) as [_ Hb2].
    destruct (read_bytes r2 n) as [v r3] eqn:E3. destruct (read_bytes_ok _ _ _ _ Hb2 E3) as [Hv Hb3].
    destruct (r_bad r3); [discriminate|]. case_decide; [discriminate|].
    destruct (setParam p id v) as [[p1 bad] so] eqn:Es. destruct bad; [discriminate|].
    destruct (so && negb isClient) eqn:Eso; [discriminate|]. apply IH; [exact Hb3|].
    exact (setParam_safe _ _ _ _ _ _ Hv Hp Es Eso).
Qed.

(** The loop never runs out of turns: each takes a byte at least. *)
Lemma varint_shorter r v r' : bytes_ok (r_b r) -> varint r = (v, r') -> r_bad r' = false -> (length (r_b r') < length (r_b r))%nat.
Proof.
  intros Hb. unfold varint. destruct (ReadVarint_spec (r_b r) Hb) as [[-> _]|(x & t & -> & Ht & Hl & Hx)]; [now intros [= _ <-]|].
  assert (0 < 2 ^ t) by lia. rewrite (proj2 (Z.eqb_neq _ 0)) by lia. intros [= _ <-] _. cbn. unfold zdrop. rewrite length_drop. unfold len in *. lia.
Qed.

Lemma varint_bad r v r' : varint r = (v, r') -> r_bad r = true -> r_bad r' = true.
Proof. unfold varint. destruct (ReadVarint _) as [x n]. destruct (n =? 0); intros [= <- <-]; auto. Qed.

Lemma read_bytes_shorter r n v r' : read_bytes r n = (v, r') -> r_bad r' = false -> (length (r_b r') <= length (r_b r))%nat /\ r_bad r = false.
Proof.
  unfold read_bytes. destruct (_ <? _); intros [= <- <-]; [discriminate|]. cbn. intros Hb. split; [|exact Hb].
  unfold zdrop. rewrite length_drop. lia.
Qed.

Lemma parseLoop_enough fuel fuel' isClient p seen b :
  bytes_ok b -> (length b <= fuel)%nat -> (length b <= fuel')%nat -> parseLoop fuel isClient p seen b = parseLoop fuel' isClient p seen b.
Proof.
  revert fuel' p seen b. induction fuel as [|fuel IH]; intros fuel' p seen b Hb H1 H2.
  { destruct b; [now destruct fuel'|cbn in H1; lia]. }
  destruct b as [|x b]; [now destruct fuel'|]. destruct fuel' as [|fuel']; [cbn in H2; lia|]. cbn [parseLoop].
  set (bb := x :: b) in *. destruct (varint (mkReader bb false)) as [id r1] eqn:E1. destruct (varint_range (mkReader bb false) _ _ Hb E1) as [_ Hb1].
  destruct (varint r1) as [n r2] eqn:E2. destruct (varint_range _ _ _ Hb1 E2) as [_ Hb2].
  destruct (read_bytes r2 n) as [v r3] eqn:E3. destruct (read_bytes_ok _ _ _ _ Hb2 E3) as [Hv Hb3].
  destruct (r_bad r3) eqn:Ebad; [reflexivity|]. case_decide; [reflexivity|].
  destruct (setParam p id v) as [[p1 bad] so]. destruct bad; [reflexivity|]. destruct (so && negb isClient); [reflexivity|].
  destruct (read_bytes_shorter _ _ _ _ E3 Ebad) as [Hs Ebad2]. pose proof (varint_shorter _ _ _ Hb1 E2 Ebad2).
  assert (r_bad r1 = false) as Ebad1 by (destruct (r_bad r1) eqn:Eb; [|reflexivity]; rewrite (varint_bad _ _ _ E2 Eb) in Ebad2; discriminate).
  pose proof (varint_shorter (mkReader bb false) _ _ Hb E1 Ebad1). cbn in *. apply IH; [exact Hb3|lia|lia].
Qed.

(** ** Properties *)

(** A peer reads exactly the transport parameters a connection sends: parseParams on what encode wrote, by a client
    or by a server where the sender is a client, gives the connection's parameters back, with the acknowledgement
    frequency extension offered. *)
Theorem params_roundtrip p isClient :
  wire_ok p -> client_ok p isClient -> local_ok p -> parseParams (encode p) isClient = Ok (set_minAckDelay (minAckDelay p) p).
Proof.
  intros Hw Hcl [Ho Hi Hr Hidle [Hmax Hmm] [Hmin Hle] [Hu He]].
  assert (decoded p = set_minAckDelay (minAckDelay p) p) as E.
  { unfold decoded. rewrite !quot_exact by (auto; reflexivity). rewrite (proj2 (Z.ltb_lt _ _) Hmax). destruct p; cbn in *. subst.
    unfold set_minAckDelay. cbn. f_equal; match goal with |- (if ?b then _ else _) = _ => destruct b end; first [reflexivity|symmetry; auto]. }
  rewrite <- E. apply parse_encode; auto. rewrite E. exact Hle.
Qed.

(** A server takes early data exactly where it may: with the limits rememberedLimits kept with a ticket, earlyAllowed
    says yes if and only if none of them is above what the connection gives now. *)
Theorem early_data_limits old now :
  0 <= initialMaxData old < 2 ^ 62 -> 0 <= maxStreamDataBidiL old < 2 ^ 62 -> 0 <= maxStreamDataBidiR old < 2 ^ 62 ->
  0 <= maxStreamDataUni old < 2 ^ 62 -> 0 <= maxStreamsBidi old <= 2 ^ 60 -> 0 <= maxStreamsUni old <= 2 ^ 60 ->
  2 <= activeCIDLimit old < 2 ^ 62 ->
  earlyAllowed now [rememberedLimits old] = limitsNotBelow now old.
Proof.
  intros. unfold rememberedLimits. cbn [app earlyAllowed]. rewrite parse_encode; [reflexivity| |now left|vm_compute; discriminate].
  split; cbn; try lia; try discriminate; splits; first [lia|vm_compute; discriminate].
Qed.

(** Whatever bytes a peer sends as its parameters, those parseParams accepts are within the bounds the rest of the
    connection counts on, a client has sent none that only a server may, and the delays are in order. *)
Theorem parseParams_safe b isClient p :
  bytes_ok b -> parseParams b isClient = Ok p -> params_ok isClient p /\ (hasMinAckDelay p = true -> minAckDelay p <= maxAckDelay p).
Proof.
  intros Hb. unfold parseParams. destruct (parseLoop _ _ _ _ _) as [q|e] eqn:E; [|discriminate].
  assert (params_ok isClient defaultParams) as H0.
  { split; cbn; try lia; try discriminate; auto; splits; first [lia|vm_compute; discriminate]. }
  apply parseLoop_safe in E; auto. destruct (hasMinAckDelay q) eqn:Eh; cbn [andb].
  - destruct (Z.ltb_spec (maxAckDelay q) (minAckDelay q)); [discriminate|]. intros [= <-]. auto.
  - intros [= <-]. split; [exact E|]. congruence.
Qed.

(** A max_idle_timeout of about 584 years, a legal value, wraps around in nanoseconds: the connection is given an
    idle timeout of 448 microseconds, which handlePeerParams then takes over any longer one of its own. *)
Theorem idle_timeout_wraps :
  exists p, parseParams (appendParamVarint [] paramMaxIdleTimeout 18446744073710) false = Ok p /\
    idleAfter (30000 * Millisecond) p = 448384.
Proof. exists (set_maxIdleTimeout 448384 defaultParams). split; [vm_compute; reflexivity|reflexivity]. Qed.

(** A server's parameters. *)
Definition serverParams : transportParams :=
  mkParams [1; 2; 3; 4] [5; 6] [] true true false (Some (replicate 16 9)) (30000 * Millisecond) 65527 1000000 70000 80000 90000
    100 3 3 (25 * Millisecond) true 4 (500 * Microsecond) false.

Lemma serverParams_ok : wire_ok serverParams.
Proof.
  split; cbn [serverParams originalDCID initialSCID retrySCID statelessResetToken maxIdleTimeout initialMaxData maxStreamDataBidiL
    maxStreamDataBidiR maxStreamDataUni maxStreamsBidi maxStreamsUni maxAckDelay minAckDelay activeCIDLimit];
    [|intros t [= <-]; reflexivity|..]; splits; vm_compute; congruence.
Qed.

Lemma params_roundtrip_witness :
  parseParams (encode serverParams) true = Ok (set_minAckDelay (500 * Microsecond) serverParams).
Proof.
  apply (params_roundtrip serverParams true serverParams_ok); [now left|].
  split; try discriminate; try reflexivity; split; try reflexivity; vm_compute; discriminate.
Defined.

Lemma early_data_limits_witness : earlyAllowed serverParams [rememberedLimits serverParams] = true.
Proof. rewrite (early_data_limits serverParams serverParams) by (cbn; lia). reflexivity. Defined.

Lemma parseParams_safe_witness :
  params_ok true (set_minAckDelay (500 * Microsecond) serverParams) /\
  (hasMinAckDelay (set_minAckDelay (500 * Microsecond) serverParams) = true -> 500 * Microsecond <= 25 * Millisecond).
Proof.
  apply (parseParams_safe (encode serverParams)); [apply bytes_okb_ok|]; vm_compute; reflexivity.
Defined.

End Params.
