(* ===== verification/QuicStream.v ===== *)
(** * QUIC streams (src/http3/quic/stream.go, conn.go, blocked.go, frames.go, send.go)

    What a connection makes of its streams: which there are, what of their data is
    delivered, what is sent of what was written, and the limits each side is held
    to, of the connection, of each stream and of their number. A stream is a value
    the operations take and return, with the connection it belongs to; the frame
    handlers and the calls of the application look it up and put it back. The
    callbacks of writers that wait for room, the reuse of a finished stream's memory
    and the end of a connection that waits for its streams are left out. *)

From S2P Require Import Prelude QuicVarint QuicRanges QuicRecv QuicSend QuicFrames.
From stdpp Require Import base list numbers gmap.
From Stdlib Require Import ZArith Lia.

Local Open Scope Z_scope.
Local Open Scope go_scope.

Module QStream.
Import Varint Recv.

(** ** State *)

Inductive terr : Type := errFrameEncoding | errFinalSize | errFlowControl | errStreamState | errStreamLimit | errProtocolViolation | errFlood.

(** What the connection's handler is called with. *)
Inductive event : Type :=
  | evStreamData (id : Z) (data : bytes) (fin : bool)
  | evStreamReset (id code : Z)
  | evStopSending (id code : Z)
  | evStreamsAvailable.

(** What a sent packet carried that loss or acknowledgement matters to. *)
Inductive sentFrame : Type :=
  | sfStream (id off n : Z) (fin : bool)
  | sfMaxStreamData (id : Z)
  | sfResetStream (id : Z)
  | sfStopSending (id : Z)
  | sfStreamDataBlocked (id at' : Z)
  | sfMaxData
  | sfMaxStreams (bidi : bool)
  | sfDataBlocked (at' : Z)
  | sfStreamsBlocked (bidi : bool) (at' : Z).

(** The BLOCKED frame of one limit. *)
Record blockedReport : Type := mkBlocked { b_at : Z; b_reported : bool; b_pending : bool }.

Definition notBlocked : blockedReport := mkBlocked 0 false false.

Definition block (b : blockedReport) (at' : Z) : blockedReport :=
  if b_reported b && (b_at b =? at') then b else mkBlocked at' true true.

Definition lost (b : blockedReport) (at' limit : Z) : blockedReport :=
  if b_reported b && (b_at b =? at') && (limit =? at') then mkBlocked (b_at b) (b_reported b) true else b.

Definition settled (b : blockedReport) : blockedReport := mkBlocked (b_at b) (b_reported b) false.

Definition armed (b : blockedReport) (limit : Z) : blockedReport * bool :=
  if negb (b_pending b) then (b, false)
  else if negb (b_at b =? limit) then (settled b, false)
  else (b, true).

Record sendSide : Type := mkSendSide {
  hasSend : bool;
  send : Send.sendBuffer;
  (** The peer's limit on the stream's offsets. *)
  sendMax : Z;
  finQueued : bool;
  finSent : bool;
  finAcked : bool;
  (** From when a reset is decided, while it waits to go out, and once the peer has it. *)
  reset : bool;
  resetPending : bool;
  resetAcked : bool;
  resetCode : Z;
  (** The final size, once it is known. *)
  finalSize : Z;
  blocked : blockedReport
}.

Definition sd_hasSend (x : sendSide) (v : bool) : sendSide := mkSendSide v (send x) (sendMax x) (finQueued x) (finSent x) (finAcked x) (reset x) (resetPending x) (resetAcked x) (resetCode x) (finalSize x) (blocked x).
Definition sd_send (x : sendSide) (v : Send.sendBuffer) : sendSide := mkSendSide (hasSend x) v (sendMax x) (finQueued x) (finSent x) (finAcked x) (reset x) (resetPending x) (resetAcked x) (resetCode x) (finalSize x) (blocked x).
Definition sd_sendMax (x : sendSide) (v : Z) : sendSide := mkSendSide (hasSend x) (send x) v (finQueued x) (finSent x) (finAcked x) (reset x) (resetPending x) (resetAcked x) (resetCode x) (finalSize x) (blocked x).
Definition sd_finQueued (x : sendSide) (v : bool) : sendSide := mkSendSide (hasSend x) (send x) (sendMax x) v (finSent x) (finAcked x) (reset x) (resetPending x) (resetAcked x) (resetCode x) (finalSize x) (blocked x).
Definition sd_finSent (x : sendSide) (v : bool) : sendSide := mkSendSide (hasSend x) (send x) (sendMax x) (finQueued x) v (finAcked x) (reset x) (resetPending x) (resetAcked x) (resetCode x) (finalSize x) (blocked x).
Definition sd_finAcked (x : sendSide) (v : bool) : sendSide := mkSendSide (hasSend x) (send x) (sendMax x) (finQueued x) (finSent x) v (reset x) (resetPending x) (resetAcked x) (resetCode x) (finalSize x) (blocked x).
Definition sd_reset (x : sendSide) (v : bool) : sendSide := mkSendSide (hasSend x) (send x) (sendMax x) (finQueued x) (finSent x) (finAcked x) v (resetPending x) (resetAcked x) (resetCode x) (finalSize x) (blocked x).
Definition sd_resetPending (x : sendSide) (v : bool) : sendSide := mkSendSide (hasSend x) (send x) (sendMax x) (finQueued x) (finSent x) (finAcked x) (reset x) v (resetAcked x) (resetCode x) (finalSize x) (blocked x).
Definition sd_resetAcked (x : sendSide) (v : bool) : sendSide := mkSendSide (hasSend x) (send x) (sendMax x) (finQueued x) (finSent x) (finAcked x) (reset x) (resetPending x) v (resetCode x) (finalSize x) (blocked x).
Definition sd_resetCode (x : sendSide) (v : Z) : sendSide := mkSendSide (hasSend x) (send x) (sendMax x) (finQueued x) (finSent x) (finAcked x) (reset x) (resetPending x) (resetAcked x) v (finalSize x) (blocked x).
Definition sd_finalSize (x : sendSide) (v : Z) : sendSide := mkSendSide (hasSend x) (send x) (sendMax x) (finQueued x) (finSent x) (finAcked x) (reset x) (resetPending x) (resetAcked x) (resetCode x) v (blocked x).
Definition sd_blocked (x : sendSide) (v : blockedReport) : sendSide := mkSendSide (hasSend x) (send x) (sendMax x) (finQueued x) (finSent x) (finAcked x) (reset x) (resetPending x) (resetAcked x) (resetCode x) (finalSize x) v.

Record recvSide : Type := mkRecvSide {
  hasRecv : bool;
  recv : recvBuffer;
  (** The limit given to the peer, the highest offset it has reached, and its final size, below zero while it is not known. *)
  recvMax : Z;
  recvHigh : Z;
  recvFin : Z;
  recvDone : bool;
  peerReset : bool;
  maxDataPending : bool;
  stopPending : bool;
  stopSent : bool;
  stopCode : Z;
  (** How far the stream counts as read. *)
  recvRead : Z;
  holdCredit : bool;
  (** How far the application has consumed it, if it gives the room back itself. *)
  creditAt : Z;
  (** The highest limit the peer said it was blocked at. *)
  blockedAt_ : Z
}.

Definition rv_hasRecv (x : recvSide) (v : bool) : recvSide := mkRecvSide v (recv x) (recvMax x) (recvHigh x) (recvFin x) (recvDone x) (peerReset x) (maxDataPending x) (stopPending x) (stopSent x) (stopCode x) (recvRead x) (holdCredit x) (creditAt x) (blockedAt_ x).
Definition rv_recv (x : recvSide) (v : recvBuffer) : recvSide := mkRecvSide (hasRecv x) v (recvMax x) (recvHigh x) (recvFin x) (recvDone x) (peerReset x) (maxDataPending x) (stopPending x) (stopSent x) (stopCode x) (recvRead x) (holdCredit x) (creditAt x) (blockedAt_ x).
Definition rv_recvMax (x : recvSide) (v : Z) : recvSide := mkRecvSide (hasRecv x) (recv x) v (recvHigh x) (recvFin x) (recvDone x) (peerReset x) (maxDataPending x) (stopPending x) (stopSent x) (stopCode x) (recvRead x) (holdCredit x) (creditAt x) (blockedAt_ x).
Definition rv_recvHigh (x : recvSide) (v : Z) : recvSide := mkRecvSide (hasRecv x) (recv x) (recvMax x) v (recvFin x) (recvDone x) (peerReset x) (maxDataPending x) (stopPending x) (stopSent x) (stopCode x) (recvRead x) (holdCredit x) (creditAt x) (blockedAt_ x).
Definition rv_recvFin (x : recvSide) (v : Z) : recvSide := mkRecvSide (hasRecv x) (recv x) (recvMax x) (recvHigh x) v (recvDone x) (peerReset x) (maxDataPending x) (stopPending x) (stopSent x) (stopCode x) (recvRead x) (holdCredit x) (creditAt x) (blockedAt_ x).
Definition rv_recvDone (x : recvSide) (v : bool) : recvSide := mkRecvSide (hasRecv x) (recv x) (recvMax x) (recvHigh x) (recvFin x) v (peerReset x) (maxDataPending x) (stopPending x) (stopSent x) (stopCode x) (recvRead x) (holdCredit x) (creditAt x) (blockedAt_ x).
Definition rv_peerReset (x : recvSide) (v : bool) : recvSide := mkRecvSide (hasRecv x) (recv x) (recvMax x) (recvHigh x) (recvFin x) (recvDone x) v (maxDataPending x) (stopPending x) (stopSent x) (stopCode x) (recvRead x) (holdCredit x) (creditAt x) (blockedAt_ x).
Definition rv_maxDataPending (x : recvSide) (v : bool) : recvSide := mkRecvSide (hasRecv x) (recv x) (recvMax x) (recvHigh x) (recvFin x) (recvDone x) (peerReset x) v (stopPending x) (stopSent x) (stopCode x) (recvRead x) (holdCredit x) (creditAt x) (blockedAt_ x).
Definition rv_stopPending (x : recvSide) (v : bool) : recvSide := mkRecvSide (hasRecv x) (recv x) (recvMax x) (recvHigh x) (recvFin x) (recvDone x) (peerReset x) (maxDataPending x) v (stopSent x) (stopCode x) (recvRead x) (holdCredit x) (creditAt x) (blockedAt_ x).
Definition rv_stopSent (x : recvSide) (v : bool) : recvSide := mkRecvSide (hasRecv x) (recv x) (recvMax x) (recvHigh x) (recvFin x) (recvDone x) (peerReset x) (maxDataPending x) (stopPending x) v (stopCode x) (recvRead x) (holdCredit x) (creditAt x) (blockedAt_ x).
Definition rv_stopCode (x : recvSide) (v : Z) : recvSide := mkRecvSide (hasRecv x) (recv x) (recvMax x) (recvHigh x) (recvFin x) (recvDone x) (peerReset x) (maxDataPending x) (stopPending x) (stopSent x) v (recvRead x) (holdCredit x) (creditAt x) (blockedAt_ x).
Definition rv_recvRead (x : recvSide) (v : Z) : recvSide := mkRecvSide (hasRecv x) (recv x) (recvMax x) (recvHigh x) (recvFin x) (recvDone x) (peerReset x) (maxDataPending x) (stopPending x) (stopSent x) (stopCode x) v (holdCredit x) (creditAt x) (blockedAt_ x).
Definition rv_holdCredit (x : recvSide) (v : bool) : recvSide := mkRecvSide (hasRecv x) (recv x) (recvMax x) (recvHigh x) (recvFin x) (recvDone x) (peerReset x) (maxDataPending x) (stopPending x) (stopSent x) (stopCode x) (recvRead x) v (creditAt x) (blockedAt_ x).
Definition rv_creditAt (x : recvSide) (v : Z) : recvSide := mkRecvSide (hasRecv x) (recv x) (recvMax x) (recvHigh x) (recvFin x) (recvDone x) (peerReset x) (maxDataPending x) (stopPending x) (stopSent x) (stopCode x) (recvRead x) (holdCredit x) v (blockedAt_ x).
Definition rv_blockedAt_ (x : recvSide) (v : Z) : recvSide := mkRecvSide (hasRecv x) (recv x) (recvMax x) (recvHigh x) (recvFin x) (recvDone x) (peerReset x) (maxDataPending x) (stopPending x) (stopSent x) (stopCode x) (recvRead x) (holdCredit x) (creditAt x) v.

Record stream : Type := mkStream {
  sid : Z;
  (** Its fields of the sending side, and of the receiving side. *)
  ss : sendSide;
  rs : recvSide;
  queued : bool;
  done : bool;
  floodCounted : bool
}.

Definition st_ss (x : stream) (v : sendSide) : stream := mkStream (sid x) v (rs x) (queued x) (done x) (floodCounted x).
Definition st_rs (x : stream) (v : recvSide) : stream := mkStream (sid x) (ss x) v (queued x) (done x) (floodCounted x).
Definition st_queued (x : stream) (v : bool) : stream := mkStream (sid x) (ss x) (rs x) v (done x) (floodCounted x).
Definition st_done (x : stream) (v : bool) : stream := mkStream (sid x) (ss x) (rs x) (queued x) v (floodCounted x).
Definition st_floodCounted (x : stream) (v : bool) : stream := mkStream (sid x) (ss x) (rs x) (queued x) (done x) v.

(** [maxBidi], [peerOpenedBidi], [peerDoneBidi], [maxStreamsBidiPending] and [streamsBlockedAt\[0\]], or those of the unidirectional streams. *)
Record quota : Type := mkQuota {
  q_max : Z;
  q_opened : Z;
  q_done : Z;
  q_pending : bool;
  q_blockedAt : Z
}.

Definition qt_q_max (x : quota) (v : Z) : quota := mkQuota v (q_opened x) (q_done x) (q_pending x) (q_blockedAt x).
Definition qt_q_opened (x : quota) (v : Z) : quota := mkQuota (q_max x) v (q_done x) (q_pending x) (q_blockedAt x).
Definition qt_q_done (x : quota) (v : Z) : quota := mkQuota (q_max x) (q_opened x) v (q_pending x) (q_blockedAt x).
Definition qt_q_pending (x : quota) (v : bool) : quota := mkQuota (q_max x) (q_opened x) (q_done x) v (q_blockedAt x).
Definition qt_q_blockedAt (x : quota) (v : Z) : quota := mkQuota (q_max x) (q_opened x) (q_done x) (q_pending x) v.

(** [openedBidi], [peerMaxBidi] and [streamsBlocked\[0\]], or those of the unidirectional streams. *)
Record allowance : Type := mkAllowance {
  a_opened : Z;
  a_max : Z;
  a_blocked : blockedReport
}.

Definition al_a_opened (x : allowance) (v : Z) : allowance := mkAllowance v (a_max x) (a_blocked x).
Definition al_a_max (x : allowance) (v : Z) : allowance := mkAllowance (a_opened x) v (a_blocked x).
Definition al_a_blocked (x : allowance) (v : blockedReport) : allowance := mkAllowance (a_opened x) (a_max x) v.

Record conn : Type := mkConn {
  isClient : bool;
  closed : bool;
  (** Every stream there was; one that is done is out of reach. *)
  streams : gmap Z stream;
  sendQueue : list Z;
  events : list event;
  (** What the peer has sent on all streams, the limit it was given, and what of it was read. *)
  recvData : Z;
  recvMaxData : Z;
  recvConsumed : Z;
  connDataPending : bool;
  dataBlockedAt : Z;
  (** What was sent on all streams, and the limit the peer gave. *)
  sentData : Z;
  peerMaxData : Z;
  dataBlocked : blockedReport;
  (** The peer's streams, and this side's. *)
  peerBidi : quota;
  peerUni : quota;
  ownBidi : allowance;
  ownUni : allowance;
  (** The answers the budgets of resets and of glitches give, in the order they are asked. *)
  resets : list bool;
  glitches : list bool
}.

Definition set_closed (x : conn) (v : bool) : conn := mkConn (isClient x) v (streams x) (sendQueue x) (events x) (recvData x) (recvMaxData x) (recvConsumed x) (connDataPending x) (dataBlockedAt x) (sentData x) (peerMaxData x) (dataBlocked x) (peerBidi x) (peerUni x) (ownBidi x) (ownUni x) (resets x) (glitches x).
Definition set_streams (x : conn) (v : gmap Z stream) : conn := mkConn (isClient x) (closed x) v (sendQueue x) (events x) (recvData x) (recvMaxData x) (recvConsumed x) (connDataPending x) (dataBlockedAt x) (sentData x) (peerMaxData x) (dataBlocked x) (peerBidi x) (peerUni x) (ownBidi x) (ownUni x) (resets x) (glitches x).
Definition set_sendQueue (x : conn) (v : list Z) : conn := mkConn (isClient x) (closed x) (streams x) v (events x) (recvData x) (recvMaxData x) (recvConsumed x) (connDataPending x) (dataBlockedAt x) (sentData x) (peerMaxData x) (dataBlocked x) (peerBidi x) (peerUni x) (ownBidi x) (ownUni x) (resets x) (glitches x).
Definition set_events (x : conn) (v : list event) : conn := mkConn (isClient x) (closed x) (streams x) (sendQueue x) v (recvData x) (recvMaxData x) (recvConsumed x) (connDataPending x) (dataBlockedAt x) (sentData x) (peerMaxData x) (dataBlocked x) (peerBidi x) (peerUni x) (ownBidi x) (ownUni x) (resets x) (glitches x).
Definition set_recvData (x : conn) (v : Z) : conn := mkConn (isClient x) (closed x) (streams x) (sendQueue x) (events x) v (recvMaxData x) (recvConsumed x) (connDataPending x) (dataBlockedAt x) (sentData x) (peerMaxData x) (dataBlocked x) (peerBidi x) (peerUni x) (ownBidi x) (ownUni x) (resets x) (glitches x).
Definition set_recvMaxData (x : conn) (v : Z) : conn := mkConn (isClient x) (closed x) (streams x) (sendQueue x) (events x) (recvData x) v (recvConsumed x) (connDataPending x) (dataBlockedAt x) (sentData x) (peerMaxData x) (dataBlocked x) (peerBidi x) (peerUni x) (ownBidi x) (ownUni x) (resets x) (glitches x).
Definition set_recvConsumed (x : conn) (v : Z) : conn := mkConn (isClient x) (closed x) (streams x) (sendQueue x) (events x) (recvData x) (recvMaxData x) v (connDataPending x) (dataBlockedAt x) (sentData x) (peerMaxData x) (dataBlocked x) (peerBidi x) (peerUni x) (ownBidi x) (ownUni x) (resets x) (glitches x).
Definition set_connDataPending (x : conn) (v : bool) : conn := mkConn (isClient x) (closed x) (streams x) (sendQueue x) (events x) (recvData x) (recvMaxData x) (recvConsumed x) v (dataBlockedAt x) (sentData x) (peerMaxData x) (dataBlocked x) (peerBidi x) (peerUni x) (ownBidi x) (ownUni x) (resets x) (glitches x).
Definition set_dataBlockedAt (x : conn) (v : Z) : conn := mkConn (isClient x) (closed x) (streams x) (sendQueue x) (events x) (recvData x) (recvMaxData x) (recvConsumed x) (connDataPending x) v (sentData x) (peerMaxData x) (dataBlocked x) (peerBidi x) (peerUni x) (ownBidi x) (ownUni x) (resets x) (glitches x).
Definition set_sentData (x : conn) (v : Z) : conn := mkConn (isClient x) (closed x) (streams x) (sendQueue x) (events x) (recvData x) (recvMaxData x) (recvConsumed x) (connDataPending x) (dataBlockedAt x) v (peerMaxData x) (dataBlocked x) (peerBidi x) (peerUni x) (ownBidi x) (ownUni x) (resets x) (glitches x).
Definition set_peerMaxData (x : conn) (v : Z) : conn := mkConn (isClient x) (closed x) (streams x) (sendQueue x) (events x) (recvData x) (recvMaxData x) (recvConsumed x) (connDataPending x) (dataBlockedAt x) (sentData x) v (dataBlocked x) (peerBidi x) (peerUni x) (ownBidi x) (ownUni x) (resets x) (glitches x).
Definition set_dataBlocked (x : conn) (v : blockedReport) : conn := mkConn (isClient x) (closed x) (streams x) (sendQueue x) (events x) (recvData x) (recvMaxData x) (recvConsumed x) (connDataPending x) (dataBlockedAt x) (sentData x) (peerMaxData x) v (peerBidi x) (peerUni x) (ownBidi x) (ownUni x) (resets x) (glitches x).
Definition set_peerBidi (x : conn) (v : quota) : conn := mkConn (isClient x) (closed x) (streams x) (sendQueue x) (events x) (recvData x) (recvMaxData x) (recvConsumed x) (connDataPending x) (dataBlockedAt x) (sentData x) (peerMaxData x) (dataBlocked x) v (peerUni x) (ownBidi x) (ownUni x) (resets x) (glitches x).
Definition set_peerUni (x : conn) (v : quota) : conn := mkConn (isClient x) (closed x) (streams x) (sendQueue x) (events x) (recvData x) (recvMaxData x) (recvConsumed x) (connDataPending x) (dataBlockedAt x) (sentData x) (peerMaxData x) (dataBlocked x) (peerBidi x) v (ownBidi x) (ownUni x) (resets x) (glitches x).
Definition set_ownBidi (x : conn) (v : allowance) : conn := mkConn (isClient x) (closed x) (streams x) (sendQueue x) (events x) (recvData x) (recvMaxData x) (recvConsumed x) (connDataPending x) (dataBlockedAt x) (sentData x) (peerMaxData x) (dataBlocked x) (peerBidi x) (peerUni x) v (ownUni x) (resets x) (glitches x).
Definition set_ownUni (x : conn) (v : allowance) : conn := mkConn (isClient x) (closed x) (streams x) (sendQueue x) (events x) (recvData x) (recvMaxData x) (recvConsumed x) (connDataPending x) (dataBlockedAt x) (sentData x) (peerMaxData x) (dataBlocked x) (peerBidi x) (peerUni x) (ownBidi x) v (resets x) (glitches x).
Definition set_resets (x : conn) (v : list bool) : conn := mkConn (isClient x) (closed x) (streams x) (sendQueue x) (events x) (recvData x) (recvMaxData x) (recvConsumed x) (connDataPending x) (dataBlockedAt x) (sentData x) (peerMaxData x) (dataBlocked x) (peerBidi x) (peerUni x) (ownBidi x) (ownUni x) v (glitches x).
Definition set_glitches (x : conn) (v : list bool) : conn := mkConn (isClient x) (closed x) (streams x) (sendQueue x) (events x) (recvData x) (recvMaxData x) (recvConsumed x) (connDataPending x) (dataBlockedAt x) (sentData x) (peerMaxData x) (dataBlocked x) (peerBidi x) (peerUni x) (ownBidi x) (ownUni x) (resets x) v.

(** What the peer lets this side send on a stream to begin with. *)
Record peerLimits : Type := mkPeerLimits { maxStreamDataUni : Z; maxStreamDataBidiL : Z; maxStreamDataBidiR : Z }.

Definition isBidi (id : Z) : bool := id .& 2 =? 0.
Definition isClientStream (id : Z) : bool := id .& 1 =? 0.

Definition local (c : conn) (id : Z) : bool := Bool.eqb (isClientStream id) (isClient c).

Definition put (c : conn) (s : stream) : conn := set_streams c (<[sid s := s]> (streams c)).

Definition queueStream (c : conn) (s : stream) : conn * stream :=
  if negb (queued s) && negb (done s) then (set_sendQueue c (sendQueue c ++ [sid s]), st_queued s true) else (c, s).

Definition emit (c : conn) (e : event) : conn := set_events c (events c ++ [e]).

(** The quota and the allowance of the streams of a kind. *)
Definition quotaOf (c : conn) (bidi : bool) : quota := if bidi then peerBidi c else peerUni c.
Definition set_quota (c : conn) (bidi : bool) (q : quota) : conn := if bidi then set_peerBidi c q else set_peerUni c q.
Definition allowanceOf (c : conn) (bidi : bool) : allowance := if bidi then ownBidi c else ownUni c.
Definition set_allowance (c : conn) (bidi : bool) (a : allowance) : conn := if bidi then set_ownBidi c a else set_ownUni c a.

Section Config.
(** [StreamReceiveWindow], [ConnReceiveWindow], [MaxIncomingStreams] and
    [MaxIncomingUniStreams], and the peer's parameters. *)
Context (streamWindow connWindow maxIncoming maxIncomingUni : Z) (peerParams : option peerLimits).

(** ** Opening *)

Definition streamSendMax (c : conn) (id : Z) : Z :=
  match peerParams with
  | None => 0
  | Some p => if negb (isBidi id) then maxStreamDataUni p else if local c id then maxStreamDataBidiR p else maxStreamDataBidiL p
  end.

Definition freshStream (c : conn) (id : Z) : stream :=
  let hasSend := isBidi id || local c id in
  let hasRecv := isBidi id || negb (local c id) in
  mkStream id
    (mkSendSide hasSend Send.newSend (streamSendMax c id) false false false false false false 0 0 notBlocked)
    (mkRecvSide hasRecv (mkRecv 0 [] 0) (if hasRecv then streamWindow else 0) 0 (-1) false false false false false 0 0 false 0 0)
    false false false.

Definition newStream (c : conn) (id : Z) : conn := put c (freshStream c id).

Definition streamByID (c : conn) (id : Z) : option stream :=
  match streams c !! id with Some s => if done s then None else Some s | None => None end.

(** The streams the peer opens with one of theirs, which are those up to it. *)
Fixpoint openUpTo (n : nat) (c : conn) (id seq : Z) : conn :=
  match n with O => c | S n => openUpTo n (newStream c (u64 (seq .<< 2) .| (id .& 3))) id (seq + 1) end.

Definition peerStream (c : conn) (id : Z) (recvSide : bool) : conn * res terr (option stream) :=
  if negb (isBidi id) && Bool.eqb (local c id) recvSide then (c, Err errStreamState)
  else
    match streamByID c id with
    | Some s => (c, Ok (Some s))
    | None =>
        let seq := id .>> 2 in
        if local c id then
          if a_opened (allowanceOf c (isBidi id)) <=? seq then (c, Err errStreamState) else (c, Ok None)
        else
          let q := quotaOf c (isBidi id) in
          if seq <? q_opened q then (c, Ok None)
          else if q_max q <=? seq then (c, Err errStreamLimit)
          else
            let c := openUpTo (Z.to_nat (seq + 1 - q_opened q)) c id (q_opened q) in
            let c := set_quota c (isBidi id) (qt_q_opened q (seq + 1)) in
            (c, Ok (streamByID c id))
    end.

(** [openStreamLocked] of a connection whose handshake lets it. *)
Definition openStreamLocked (c : conn) (bidi : bool) : conn * option Z :=
  if closed c then (c, None)
  else
    let a := allowanceOf c bidi in
    if a_max a <=? a_opened a then (set_allowance c bidi (al_a_blocked a (block (a_blocked a) (a_max a))), None)
    else
      let id := u64 (a_opened a .<< 2) .| (if bidi then 0 else 2) in
      let id := if isClient c then id else id .| 1 in
      (newStream (set_allowance c bidi (al_a_opened a (u64 (a_opened a + 1)))) id, Some id).

(** ** Finishing *)

Definition sendDone (s : stream) : bool :=
  let x := ss s in
  if negb (hasSend x) then true else if reset x then resetAcked x else finAcked x && Send.allAcked (send x).

Definition recvFinished (s : stream) : bool := negb (hasRecv (rs s)) || recvDone (rs s) || peerReset (rs s).

Definition maybeFinish (c : conn) (s : stream) : conn * stream :=
  if done s || negb (sendDone s) || negb (recvFinished s) then (c, s)
  else
    let s := st_done s true in
    if local c (sid s) then (c, s)
    else
      let incoming := if isBidi (sid s) then maxIncoming else maxIncomingUni in
      let q := quotaOf c (isBidi (sid s)) in
      let q := qt_q_done q (u64 (q_done q + 1)) in
      let q := if u64 (q_max q - q_done q) <? incoming / 2 + 1 then qt_q_pending (qt_q_max q (u64 (q_done q + incoming))) true else q in
      (set_quota c (isBidi (sid s)) q, s).

(** ** Receiving *)

Definition consumed (c : conn) (s : stream) (offset : Z) : conn * stream :=
  let '(c, s) :=
    if recvRead (rs s) <? offset then (set_recvConsumed c (u64 (recvConsumed c + (offset - recvRead (rs s)))), st_rs s (rv_recvRead (rs s) offset))
    else (c, s) in
  let '(c, s) :=
    if (recvFin (rs s) <? 0) && negb (recvDone (rs s)) && (u64 (recvMax (rs s) - offset) <? streamWindow / 2)
    then queueStream c (st_rs s (rv_maxDataPending (rv_recvMax (rs s) (u64 (offset + streamWindow))) true))
    else (c, s) in
  if u64 (recvMaxData c - recvConsumed c) <? connWindow / 2 then (set_connDataPending (set_recvMaxData c (u64 (recvConsumed c + connWindow))) true, s)
  else (c, s).

Definition deliver (c : conn) (s : stream) (data : bytes) (fin : bool) : conn * stream :=
  let '(c, s) := consumed c s (if holdCredit (rs s) then creditAt (rs s) else offset (recv (rs s))) in
  (emit c (evStreamData (sid s) data fin), s).

(** The last chunk is held back a step. *)
Fixpoint deliverLoop (fuel : nat) (c : conn) (s : stream) (last : option bytes) : option (conn * stream * option bytes) :=
  match fuel with
  | O => None
  | S fuel =>
      match pop (recv (rs s)) with
      | (None, r) => Some (c, st_rs s (rv_recv (rs s) r), last)
      | (Some chunk, r) =>
          let s := st_rs s (rv_recv (rs s) r) in
          let '(c, s) := match last with Some data => deliver c s data false | None => (c, s) end in
          deliverLoop fuel c s (Some chunk)
      end
  end.

(** The highest offset of a stream moved up, within the connection's limit. *)
Definition reach (c : conn) (s : stream) (end_ : Z) : conn * stream * option terr :=
  if recvHigh (rs s) <? end_ then
    let c := set_recvData c (u64 (recvData c + (end_ - recvHigh (rs s)))) in
    (c, st_rs s (rv_recvHigh (rs s) end_), if recvMaxData c <? recvData c then Some errFlowControl else None)
  else (c, s, None).

(** From the segments on: what can be is delivered, the end with the last of it. *)
Definition takeIn (c : conn) (s : stream) (off : Z) (data : bytes) : option (conn * stream * option terr) :=
  let '(last, r, ok) := take_ (recv (rs s)) off data (recvSegmentLimit streamWindow) in
  let s := st_rs s (rv_recv (rs s) r) in
  if negb ok then Some (c, s, Some errFlood)
  else
    match deliverLoop (S (length (segments r))) c s last with
    | None => None
    | Some (c, s, last) =>
        if (0 <=? recvFin (rs s)) && (offset (recv (rs s)) =? recvFin (rs s)) && negb (recvDone (rs s)) then
          let s := st_rs s (rv_recvDone (rs s) true) in
          let '(c, s) := deliver c s (default [] last) true in
          let '(c, s) := maybeFinish c s in Some (c, s, None)
        else
          match last with
          | Some data => let '(c, s) := deliver c s data false in Some (c, s, None)
          | None => Some (c, s, None)
          end
    end.

(** Nobody reads it, so it counts as read at once. *)
Definition discard (c : conn) (s : stream) (end_ : Z) : conn * stream :=
  let '(c, s) := consumed c s end_ in
  if stopSent (rs s) && (0 <=? recvFin (rs s)) && negb (recvDone (rs s)) then maybeFinish c (st_rs s (rv_recvDone (rs s) true))
  else (c, s).

Definition onStreamFrame (c : conn) (s : stream) (off : Z) (data : bytes) (fin : bool) : option (conn * stream * option terr) :=
  let end_ := u64 (off + len data) in
  if maxVarint <? end_ then Some (c, s, Some errFrameEncoding)
  else if (0 <=? recvFin (rs s)) && ((recvFin (rs s) <? end_) || fin && negb (end_ =? recvFin (rs s))) then Some (c, s, Some errFinalSize)
  else if fin && (end_ <? recvHigh (rs s)) then Some (c, s, Some errFinalSize)
  else
    let s := if fin then st_rs s (rv_recvFin (rs s) end_) else s in
    if recvMax (rs s) <? end_ then Some (c, s, Some errFlowControl)
    else
      match reach c s end_ with
      | (c, s, Some e) => Some (c, s, Some e)
      | (c, s, None) =>
          if recvDone (rs s) || peerReset (rs s) || stopSent (rs s) then Some (discard c s end_, None)
          else takeIn c s off data
      end.

(** A reset counted against the peer, the stream having done so once at most. *)
Definition resetCounted (c : conn) (s : stream) : conn * stream * bool :=
  if isClient c || floodCounted s then (c, s, true)
  else
    let s := st_floodCounted s true in
    match resets c with [] => (c, s, true) | b :: l => (set_resets c l, s, b) end.

Definition glitch (c : conn) : conn * bool :=
  match glitches c with [] => (c, true) | b :: l => (set_glitches c l, b) end.

Definition onResetStream (c : conn) (s : stream) (code finalSize : Z) : conn * stream * option terr :=
  if (0 <=? recvFin (rs s)) && negb (finalSize =? recvFin (rs s)) || (finalSize <? recvHigh (rs s)) then (c, s, Some errFinalSize)
  else if recvMax (rs s) <? finalSize then (c, s, Some errFlowControl)
  else
    match reach c s finalSize with
    | (c, s, Some e) => (c, s, Some e)
    | (c, s, None) =>
        let '(c, s) := consumed c (st_rs s (rv_recvFin (rs s) finalSize)) finalSize in
        if recvDone (rs s) || peerReset (rs s) then (c, s, None)
        else
          let '(c, s, ok) := if negb (stopSent (rs s)) then resetCounted c s else (c, s, true) in
          if negb ok then (c, s, Some errFlood)
          else
            let s := st_rs s (rv_recv (rv_maxDataPending (rv_peerReset (rs s) true) false) (mkRecv (offset (recv (rs s))) [] 0)) in
            let c := if negb (stopSent (rs s)) then emit c (evStreamReset (sid s) code) else c in
            let '(c, s) := maybeFinish c s in (c, s, None)
    end.

Definition stopSendingLocked (c : conn) (s : stream) (code : Z) : conn * stream :=
  if negb (hasRecv (rs s)) || recvDone (rs s) || stopSent (rs s) then (c, s)
  else
    queueStream c (st_rs s (rv_recv (rv_stopCode (rv_stopPending (rv_stopSent (rs s) true) true) code) (mkRecv (offset (recv (rs s))) [] 0))).

Definition HoldCredit (s : stream) : stream :=
  if negb (holdCredit (rs s)) then st_rs s (rv_creditAt (rv_holdCredit (rs s) true) (offset (recv (rs s)))) else s.

Definition Credit (c : conn) (s : stream) (n : Z) : conn * stream :=
  if negb (holdCredit (rs s)) || (n <=? 0) then (c, s)
  else
    let s := st_rs s (rv_creditAt (rs s) (Z.min (u64 (creditAt (rs s) + n)) (offset (recv (rs s))))) in
    consumed c s (creditAt (rs s)).

(** ** Writing *)

Definition st_send (s : stream) (b : Send.sendBuffer) : stream := st_ss s (sd_send (ss s) b).

Definition unwritable (c : conn) (s : stream) : bool := closed c || (negb (hasSend (ss s)) || finQueued (ss s) || reset (ss s)).

(** The end of a write, which may be the stream's. *)
Definition written (c : conn) (s : stream) (b : Send.sendBuffer) (fin : bool) : conn * stream :=
  let s := st_send s b in
  let s := if fin then st_ss s (sd_finalSize (sd_finQueued (ss s) true) (Send.end_ (send (ss s)))) else s in
  queueStream c s.

Definition writeLocked (c : conn) (s : stream) (p : bytes) (fin owned : bool) : conn * stream * bool :=
  if unwritable c s then (c, s, false)
  else (written c s (if owned then Send.adopt (send (ss s)) p else Send.write (send (ss s)) p) fin, true).

Definition writePartsLocked (c : conn) (s : stream) (parts : list Send.Part) (fin : bool) : conn * stream * bool :=
  if unwritable c s then (c, s, false) else (written c s (Send.writeParts (send (ss s)) parts) fin, true).

Definition resetLocked (c : conn) (s : stream) (code : Z) : conn * stream :=
  if negb (hasSend (ss s)) || reset (ss s) || finAcked (ss s) then (c, s)
  else
    let x := sd_resetCode (sd_resetPending (sd_reset (ss s) true) true) code in
    queueStream c (st_ss s (sd_send (sd_finalSize x (Send.next (send x))) (Send.release (send x)))).

Definition onStopSending (c : conn) (s : stream) (code : Z) : conn * stream * option terr :=
  if reset (ss s) || finAcked (ss s) then (c, s, None)
  else
    let '(c, s, ok) := resetCounted c s in
    if negb ok then (c, s, Some errFlood)
    else let '(c, s) := resetLocked c s code in (emit c (evStopSending (sid s) code), s, None).

(** ** Sending *)

Definition sendCredit (c : conn) (s : stream) : Z :=
  if (sendMax (ss s) <=? Send.next (send (ss s))) || (peerMaxData c <=? sentData c) then 0
  else Z.min (sendMax (ss s) - Send.next (send (ss s))) (peerMaxData c - sentData c).

(** Whether there is a frame to send now; [hasLost] drops the ranges acknowledged
    since. *)
Definition sendable (c : conn) (s : stream) : stream * bool :=
  if stopPending (rs s) || maxDataPending (rs s) || resetPending (ss s) then (s, true)
  else if b_pending (blocked (ss s)) && negb (reset (ss s)) && hasSend (ss s) then (s, true)
  else if reset (ss s) || negb (hasSend (ss s)) then (s, false)
  else
    let '(b, more) := Send.hasLost (send (ss s)) in
    let s := st_send s b in
    if more then (s, true)
    else if Send.next b <? Send.end_ b then (s, 0 <? sendCredit c s)
    else (s, finQueued (ss s) && negb (finSent (ss s))).

Definition frameStream : Z := 0x08.

Definition appendStreamFrame (s : stream) (b : bytes) (off : Z) (data : bytes) : stream * bytes * sentFrame :=
  let end_ := u64 (off + len data) in
  let fin := finQueued (ss s) && negb (finSent (ss s)) && (end_ =? finalSize (ss s)) in
  let typ := frameStream .| 0x02 in
  let typ := if 0 <? off then typ .| 0x04 else typ in
  let typ := if fin then typ .| 0x01 else typ in
  let s := if fin then st_ss s (sd_finSent (ss s) true) else s in
  let b := AppendVarint (b ++ [typ]) (sid s) in
  let b := if 0 <? off then AppendVarint b off else b in
  (s, AppendVarint b (len data) ++ data, sfStream (sid s) off (len data) fin).

(** [for s.send.hasLost()]: whether the stream goes on past it. A turn adds a byte
    to the packet at least. *)
Fixpoint lostLoop (fuel : nat) (s : stream) (b : bytes) (max : Z) (p : list sentFrame) : option (stream * bytes * list sentFrame * bool) :=
  match fuel with
  | O => None
  | S fuel =>
      let s := st_send s (Send.hasLost (send (ss s))).1 in
      match Send.lost (send (ss s)) with
      | [] => Some (s, b, p, true)
      | l :: _ =>
          let avail := max - len b - 1 - VarintLen (sid s) - VarintLen (Ranges.s_off l) - 2 in
          if avail <=? 0 then Some (s, b, p, false)
          else
            match Send.popLost (send (ss s)) avail with
            | None => None
            | Some (off, data, buf) =>
                let '(s, b, f) := appendStreamFrame (st_send s buf) b off data in lostLoop fuel s b max (p ++ [f])
            end
      end
  end.

(** [for s.send.next < s.send.end()]. *)
Fixpoint newLoop (fuel : nat) (c : conn) (s : stream) (b : bytes) (max : Z) (p : list sentFrame) : option (conn * stream * bytes * list sentFrame * bool) :=
  match fuel with
  | O => None
  | S fuel =>
      if Send.end_ (send (ss s)) <=? Send.next (send (ss s)) then Some (c, s, b, p, true)
      else
        let credit := sendCredit c s in
        let avail := max - len b - 1 - VarintLen (sid s) - VarintLen (Send.next (send (ss s))) - 2 in
        if (credit =? 0) || (avail <=? 0) then Some (c, s, b, p, false)
        else
          let '(off, data, buf) := Send.popNew (send (ss s)) (Z.min avail credit) in
          let c := set_sentData c (u64 (sentData c + len data)) in
          let '(s, b, f) := appendStreamFrame (st_send s buf) b off data in newLoop fuel c s b max (p ++ [f])
  end.

Definition noteBlocked (c : conn) (s : stream) : conn * stream :=
  let s := if sendMax (ss s) <=? Send.next (send (ss s)) then st_ss s (sd_blocked (ss s) (block (blocked (ss s)) (sendMax (ss s)))) else s in
  (if peerMaxData c <=? sentData c then set_dataBlocked c (block (dataBlocked c) (peerMaxData c)) else c, s).

(** What is deferred: a stream that has more to send and no credit for it says what
    holds it back. *)
Definition appendHeldBack (c : conn) (s : stream) (b : bytes) (max : Z) : conn * stream * bytes * list sentFrame :=
  let '(c, s) := if (Send.next (send (ss s)) <? Send.end_ (send (ss s))) && (sendCredit c s =? 0) then noteBlocked c s else (c, s) in
  let r := blocked (ss s) in
  let r := if b_pending r && (negb (b_at r =? sendMax (ss s)) || (Send.end_ (send (ss s)) <=? Send.next (send (ss s)))) then settled r else r in
  let s := st_ss s (sd_blocked (ss s) r) in
  let f := Frames.appendStreamDataBlocked [] (sid s) (b_at r) in
  if b_pending r && (len b + len f <=? max) then (c, st_ss s (sd_blocked (ss s) (settled r)), b ++ f, [sfStreamDataBlocked (sid s) (b_at r)])
  else (c, s, b, []).

(** The front of [appendFrames]: STOP_SENDING, MAX_STREAM_DATA and RESET_STREAM. *)
Definition appendControl (s : stream) (b : bytes) (max : Z) : stream * bytes * list sentFrame :=
  let '(s, b, p) :=
    let f := Frames.appendStopSending [] (sid s) (stopCode (rs s)) in
    if stopPending (rs s) && (len b + len f <=? max) then (st_rs s (rv_stopPending (rs s) false), b ++ f, [sfStopSending (sid s)]) else (s, b, []) in
  let '(s, b, p) :=
    let f := Frames.appendMaxStreamData [] (sid s) (recvMax (rs s)) in
    if maxDataPending (rs s) && (len b + len f <=? max) then (st_rs s (rv_maxDataPending (rs s) false), b ++ f, p ++ [sfMaxStreamData (sid s)]) else (s, b, p) in
  let f := Frames.appendResetStream [] (sid s) (resetCode (ss s)) (finalSize (ss s)) in
  if resetPending (ss s) && (len b + len f <=? max) then (st_ss s (sd_resetPending (ss s) false), b ++ f, p ++ [sfResetStream (sid s)]) else (s, b, p).

(** Its data: what was lost, what is new, and the end of the stream when that goes
    alone. *)
Definition appendData (c : conn) (s : stream) (b : bytes) (max : Z) : option (conn * stream * bytes * list sentFrame) :=
  match lostLoop (S (Z.to_nat (max - len b))) s b max [] with
  | None => None
  | Some (s, b, p, false) => Some (c, s, b, p)
  | Some (s, b, p, true) =>
      match newLoop (S (Z.to_nat (max - len b))) c s b max p with
      | None => None
      | Some (c, s, b, p, false) => Some (c, s, b, p)
      | Some (c, s, b, p, true) =>
          if finQueued (ss s) && negb (finSent (ss s)) && (0 <=? max - len b - 1 - VarintLen (sid s) - VarintLen (Send.next (send (ss s))) - 1) then
            let '(s, b, f) := appendStreamFrame s b (Send.next (send (ss s))) [] in Some (c, s, b, p ++ [f])
          else Some (c, s, b, p)
      end
  end.

Definition appendFrames (c : conn) (s : stream) (b : bytes) (max : Z) : option (conn * stream * bytes * list sentFrame) :=
  let '(s, b, p) := appendControl s b max in
  if reset (ss s) || negb (hasSend (ss s)) then Some (c, s, b, p)
  else
    match appendData c s b max with
    | None => None
    | Some (c, s, b, q) => let '(c, s, b, r) := appendHeldBack c s b max in Some (c, s, b, p ++ q ++ r)
    end.

(** [for i < len(c.sendQueue) && max-len(b) > 16]: a turn takes a stream off the
    queue or goes on to the one after it. A queued stream is one there is. *)
Fixpoint streamsLoop (fuel : nat) (c : conn) (i : nat) (b : bytes) (max : Z) (p : list sentFrame) : option (conn * nat * bytes * list sentFrame) :=
  match fuel with
  | O => None
  | S fuel =>
      match sendQueue c !! i with
      | None => Some (c, i, b, p)
      | Some id =>
          if max - len b <=? 16 then Some (c, i, b, p)
          else
            match streams c !! id with
            | None => None
            | Some s =>
                match (if done s then Some (c, s, b, []) else appendFrames c s b max) with
                | None => None
                | Some (c, s, b, q) =>
                    let '(s, more) := if done s then (s, false) else sendable c s in
                    if more then streamsLoop fuel (put c s) (S i) b max (p ++ q)
                    else
                      let c := put c (st_queued s false) in
                      streamsLoop fuel (set_sendQueue c (take i (sendQueue c) ++ drop (S i) (sendQueue c))) i b max (p ++ q)
                end
            end
      end
  end.

Definition appendStreams (c : conn) (b : bytes) (max : Z) : option (conn * bytes * list sentFrame) :=
  match streamsLoop (S (length (sendQueue c))) c 0 b max [] with
  | None => None
  | Some (c, i, b, p) =>
      match sendQueue c with
      | first :: (_ :: _) as rest => if (0 <? i)%nat then Some (set_sendQueue c (rest ++ [first]), b, p) else Some (c, b, p)
      | _ => Some (c, b, p)
      end
  end.

(** ** Acknowledgement and loss *)

Definition onDataAcked (c : conn) (s : stream) (off n : Z) (fin : bool) : conn * stream :=
  if reset (ss s) then (c, s)
  else
    let s := st_send s (Send.onAck (send (ss s)) off n) in
    maybeFinish c (if fin then st_ss s (sd_finAcked (ss s) true) else s).

Definition onDataLost (c : conn) (s : stream) (off n : Z) (fin : bool) : conn * stream :=
  if reset (ss s) || done s then (c, s)
  else
    let s := st_send s (Send.onLost (send (ss s)) off n) in
    queueStream c (if fin && negb (finAcked (ss s)) then st_ss s (sd_finSent (ss s) false) else s).

Definition onResetAcked (c : conn) (s : stream) : conn * stream := maybeFinish c (st_ss s (sd_resetAcked (ss s) true)).

Definition onResetLost (c : conn) (s : stream) : conn * stream :=
  if negb (resetAcked (ss s)) && negb (done s) then queueStream c (st_ss s (sd_resetPending (ss s) true)) else (c, s).

Definition onMaxDataLost (c : conn) (s : stream) : conn * stream :=
  if negb (recvDone (rs s)) && negb (done s) && (recvFin (rs s) <? 0) then queueStream c (st_rs s (rv_maxDataPending (rs s) true)) else (c, s).

Definition onBlockedLost (c : conn) (s : stream) (at' : Z) : conn * stream :=
  if negb (reset (ss s)) && negb (done s) then
    let s := st_ss s (sd_blocked (ss s) (lost (blocked (ss s)) at' (sendMax (ss s)))) in
    if b_pending (blocked (ss s)) then queueStream c s else (c, s)
  else (c, s).

Definition onStopSendingLost (c : conn) (s : stream) : conn * stream :=
  if negb (recvDone (rs s)) && negb (done s) then queueStream c (st_rs s (rv_stopPending (rs s) true)) else (c, s).

(** A stream the connection has, changed. *)
Definition on (c : conn) (id : Z) (f : conn -> stream -> conn * stream) : conn :=
  match streams c !! id with Some s => let '(c, s) := f c s in put c s | None => c end.

Definition frameAcked (c : conn) (f : sentFrame) : conn :=
  match f with
  | sfStream id off n fin => on c id (fun c s => onDataAcked c s off n fin)
  | sfResetStream id => on c id onResetAcked
  | _ => c
  end.

Definition frameLost (c : conn) (f : sentFrame) : conn :=
  match f with
  | sfStream id off n fin => on c id (fun c s => onDataLost c s off n fin)
  | sfMaxData => set_connDataPending c true
  | sfMaxStreamData id => on c id onMaxDataLost
  | sfMaxStreams bidi => set_quota c bidi (qt_q_pending (quotaOf c bidi) true)
  | sfResetStream id => on c id onResetLost
  | sfStopSending id => on c id onStopSendingLost
  | sfDataBlocked at' => set_dataBlocked c (lost (dataBlocked c) at' (peerMaxData c))
  | sfStreamsBlocked bidi at' => let a := allowanceOf c bidi in set_allowance c bidi (al_a_blocked a (lost (a_blocked a) at' (a_max a)))
  | sfStreamDataBlocked id at' => on c id (fun c s => onBlockedLost c s at')
  end.

(** ** The limits of the connection, as they are sent *)

(** The part of [appendControlFrames] that gives the peer credit: MAX_DATA, then
    MAX_STREAMS of each kind. *)
Definition appendMaxStreams (max : Z) (bidi : bool) '((c, b, p) : conn * bytes * list sentFrame) : conn * bytes * list sentFrame :=
  let q := quotaOf c bidi in
  if q_pending q && (len b + (1 + VarintLen (q_max q)) <=? max)
  then (set_quota c bidi (qt_q_pending q false), AppendVarint (b ++ [if bidi then 0x12 else 0x13]) (q_max q), p ++ [sfMaxStreams bidi])
  else (c, b, p).

Definition appendCredit (c : conn) (b : bytes) (max : Z) : conn * bytes * list sentFrame :=
  let r :=
    if connDataPending c && (len b + (1 + VarintLen (recvMaxData c)) <=? max)
    then (set_connDataPending c false, AppendVarint (b ++ [0x10]) (recvMaxData c), [sfMaxData]) else (c, b, []) in
  appendMaxStreams max false (appendMaxStreams max true r).

Definition appendStreamsBlocked (max : Z) (bidi : bool) '((c, b, p) : conn * bytes * list sentFrame) : conn * bytes * list sentFrame :=
  let a := allowanceOf c bidi in
  let '(r, go) := armed (a_blocked a) (a_max a) in
  if go && (len b + 1 + VarintLen (b_at r) <=? max)
  then (set_allowance c bidi (al_a_blocked a (settled r)), AppendVarint (b ++ [if bidi then 0x16 else 0x17]) (b_at r), p ++ [sfStreamsBlocked bidi (b_at r)])
  else (set_allowance c bidi (al_a_blocked a r), b, p).

Definition appendBlocked (c : conn) (b : bytes) (max : Z) : conn * bytes * list sentFrame :=
  let '(r, go) := armed (dataBlocked c) (peerMaxData c) in
  appendStreamsBlocked max false (appendStreamsBlocked max true
    (if go && (len b + 1 + VarintLen (b_at r) <=? max)
     then (set_dataBlocked c (settled r), AppendVarint (b ++ [0x14]) (b_at r), [sfDataBlocked (b_at r)])
     else (set_dataBlocked c r, b, []))).

(** The application space's frames of a packet: the limits, the streams, and the
    connection's limit again when a stream just ran into it. *)
Definition appendPacket (c : conn) (b : bytes) (max : Z) : option (conn * bytes * list sentFrame) :=
  let '(c, b, p) := appendCredit c b max in
  let '(c, b, q) := appendBlocked c b max in
  match appendStreams c b max with
  | None => None
  | Some (c, b, r) =>
      let '(c, b, u) := if b_pending (dataBlocked c) then appendBlocked c b max else (c, b, []) in
      Some (c, b, p ++ q ++ r ++ u)
  end.

(** ** The frames of a packet *)

(** The frames about streams and their limits, read; of another, its type. *)
Inductive frame : Type :=
  | FPadding
  | FPing
  | FResetStream (id code size : Z)
  | FStopSending (id code : Z)
  | FStream (id off : Z) (data : bytes) (fin : bool)
  | FMaxData (max : Z)
  | FMaxStreamData (id max : Z)
  | FMaxStreams (bidi : bool) (max : Z)
  | FDataBlocked (at' : Z)
  | FStreamDataBlocked (id at' : Z)
  | FStreamsBlocked (bidi : bool) (at' : Z)
  | FOther (typ : Z).

Fixpoint skipZeros (b : bytes) : bytes :=
  match b with x :: b' => if x =? 0 then skipZeros b' else b | [] => [] end.

(** The reader is bad when the frame is cut short. *)
Definition readFrame (r : reader) : frame * reader :=
  let '(typ, r) := varint r in
  if r_bad r then (FOther typ, r)
  else if typ =? 0x00 then (FPadding, mkReader (skipZeros (r_b r)) (r_bad r))
  else if typ =? 0x01 then (FPing, r)
  else if typ =? 0x04 then
    let '(id, r) := varint r in let '(code, r) := varint r in let '(size, r) := varint r in (FResetStream id code size, r)
  else if typ =? 0x05 then
    let '(id, r) := varint r in let '(code, r) := varint r in (FStopSending id code, r)
  else if (frameStream <=? typ) && (typ <=? frameStream .| 7) then
    let '(id, r) := varint r in
    let '(off, r) := if typ .& 0x04 =? 0 then (0, r) else varint r in
    let '(data, r) :=
      if typ .& 0x02 =? 0 then (r_b r, mkReader [] (r_bad r))
      else let '(n, r) := varint r in read_bytes r n in
    (FStream id off data (negb (typ .& 0x01 =? 0)), r)
  else if typ =? 0x10 then let '(max, r) := varint r in (FMaxData max, r)
  else if typ =? 0x11 then
    let '(id, r) := varint r in let '(max, r) := varint r in (FMaxStreamData id max, r)
  else if (typ =? 0x12) || (typ =? 0x13) then let '(max, r) := varint r in (FMaxStreams (typ =? 0x12) max, r)
  else if typ =? 0x14 then let '(at', r) := varint r in (FDataBlocked at', r)
  else if typ =? 0x15 then
    let '(id, r) := varint r in let '(at', r) := varint r in (FStreamDataBlocked id at', r)
  else if (typ =? 0x16) || (typ =? 0x17) then let '(at', r) := varint r in (FStreamsBlocked (typ =? 0x16) at', r)
  else (FOther typ, r).

(** What became of a frame: handled, with whether it asks for more than an
    acknowledgement; refused; or not about streams. *)
Inductive outcome : Type := Handled (asking : bool) | Refused (e : terr) | Outside (typ : Z).

Definition blockedAt (c : conn) (last at' given : Z) : conn * Z * outcome :=
  if given <? at' then let '(c, ok) := glitch c in (c, last, if ok then Handled false else Refused errFlood)
  else if last <? at' then (c, at', Handled true)
  else (c, last, Handled false).

(** A frame about the stream of a side. *)
Definition onStream (c : conn) (id : Z) (recvSide : bool) (f : conn -> stream -> option (conn * stream * outcome)) : option (conn * outcome) :=
  match peerStream c id recvSide with
  | (c, Err e) => Some (c, Refused e)
  | (c, Ok None) => Some (c, Handled true)
  | (c, Ok (Some s)) => match f c s with None => None | Some (c, s, o) => Some (put c s, o) end
  end.

Definition outcomeOf (e : option terr) : outcome := match e with Some e => Refused e | None => Handled true end.

Definition handleFrame (c : conn) (f : frame) : option (conn * outcome) :=
  match f with
  | FPadding | FPing => Some (c, Handled false)
  | FResetStream id code size => onStream c id true (fun c s => let '(c, s, e) := onResetStream c s code size in Some (c, s, outcomeOf e))
  | FStopSending id code => onStream c id false (fun c s => let '(c, s, e) := onStopSending c s code in Some (c, s, outcomeOf e))
  | FStream id off data fin =>
      onStream c id true (fun c s =>
        let '(c, ok) := if (len data =? 0) && negb fin then glitch c else (c, true) in
        if negb ok then Some (c, s, Refused errFlood)
        else match onStreamFrame c s off data fin with None => None | Some (c, s, e) => Some (c, s, outcomeOf e) end)
  | FMaxData max => if peerMaxData c <? max then Some (set_peerMaxData c max, Handled true) else Some (c, Handled false)
  | FMaxStreamData id max =>
      onStream c id false (fun c s =>
        if sendMax (ss s) <? max then let '(c, s) := queueStream c (st_ss s (sd_sendMax (ss s) max)) in Some (c, s, Handled true)
        else Some (c, s, Handled (reset (ss s) || finQueued (ss s))))
  | FMaxStreams bidi max =>
      let a := allowanceOf c bidi in
      if 1 .<< 60 <? max then Some (c, Refused errFrameEncoding)
      else if a_max a <? max then Some (emit (set_allowance c bidi (al_a_max a max)) evStreamsAvailable, Handled true)
      else Some (c, Handled false)
  | FDataBlocked at' => let '(c, last, o) := blockedAt c (dataBlockedAt c) at' (recvMaxData c) in Some (set_dataBlockedAt c last, o)
  | FStreamDataBlocked id at' =>
      onStream c id true (fun c s =>
        let '(c, last, o) := blockedAt c (blockedAt_ (rs s)) at' (recvMax (rs s)) in Some (c, st_rs s (rv_blockedAt_ (rs s) last), o))
  | FStreamsBlocked bidi at' =>
      let q := quotaOf c bidi in
      let '(c, last, o) := blockedAt c (q_blockedAt q) at' (q_max q) in Some (set_quota c bidi (qt_q_blockedAt q last), o)
  | FOther typ => Some (c, Outside typ)
  end.

(** The streams with something to send, once the connection's limit is raised. The
    order is the map's. *)
Definition queueSendable (c : conn) : conn :=
  foldl (fun c id =>
    match streamByID c id with
    | Some s => let '(s, more) := sendable c s in let '(c, s) := if more then queueStream c s else (c, s) in put c s
    | None => c
    end) c (map_to_list (streams c)).*1.

(** Whether a frame counts as a PING, and whether it raised the connection's limit. *)
Definition isPing (f : frame) (asking : bool) : bool := match f with FPadding => false | FPing => true | _ => negb asking end.
Definition raisesData (f : frame) (asking : bool) : bool := match f with FMaxData _ => asking | _ => false end.

(** A turn reads a byte at least. *)
Fixpoint framesLoop (fuel : nat) (c : conn) (r : reader) (pinged asked raised : bool) : option (conn * outcome * (bool * bool * bool)) :=
  match fuel with
  | O => None
  | S fuel =>
      if (len (r_b r) =? 0) || closed c then Some (c, Handled true, (pinged, asked, raised))
      else
        let '(f, r) := readFrame r in
        if r_bad r then Some (c, Refused errFrameEncoding, (pinged, asked, raised))
        else
          match handleFrame c f with
          | None => None
          | Some (c, Handled asking) => framesLoop fuel c r (pinged || isPing f asking) (asked || asking) (raised || raisesData f asking)
          | Some (c, o) => Some (c, o, (pinged, asked, raised))
          end
  end.

(** [handleFrames] of a packet of the application space with frames about streams. *)
Definition handleFrames (c : conn) (payload : bytes) : option (conn * outcome) :=
  if len payload =? 0 then Some (c, Refused errProtocolViolation)
  else
    match framesLoop (S (length payload)) c (mkReader payload false) false false false with
    | None => None
    | Some (c, Handled _, (pinged, asked, raised)) =>
        let c := if raised then queueSendable c else c in
        let '(c, ok) := if pinged && negb asked && negb (closed c) then glitch c else (c, true) in
        Some (c, if ok then Handled true else Refused errFlood)
    | Some (c, o, _) => Some (c, o)
    end.

End Config.

End QStream.
