(* ===== verification/QuicSent.v ===== *)
(** * The packets of QUIC on their way (src/http3/quic/sent.go)

    A ring of slots, one for each packet number from the first packet still waiting
    on. It is shown to be a map from packet numbers to packets that are in flight. *)

From S2P Require Import Prelude QuicRanges QuicSend QuicStream.
From stdpp Require Import base list numbers gmap.
From Stdlib Require Import ZArith Lia.

Local Open Scope Z_scope.
Local Open Scope go_scope.

Module Sent.

(** ** Operations *)

(** What a packet carried: crypto data and the frames of the connection itself, and
    those of its streams and their limits. *)
Inductive sentFrame : Type :=
  | sfCrypto (off n : Z)
  | sfHandshakeDone
  | sfRetireCID (seq : Z)
  | sfPathChallenge
  | sfNewCID (seq : Z)
  | sfAckFrequency
  | sfNewToken
  | sfOf (f : QStream.sentFrame).

(** Times are in nanoseconds. *)
Record sentPacket : Type := mkSent {
  pn : Z;
  ackOf : Z;
  time : Z;
  size : Z;
  ackEliciting : bool;
  inFlight : bool;
  early : bool;
  mtuProbe : bool;
  frames : list sentFrame
}.

(** [panicked] is that an index was out of range: nothing that comes after it is
    meant, and [queueStep] stops there, as the steps of a connection do. *)
Record sentQueue : Type := mkQueue {
  slots : list (option sentPacket);
  head : Z;
  n : Z;
  live : Z;
  base : Z;
  panicked : bool
}.

Definition newQueue : sentQueue := mkQueue [] 0 0 0 0 false.

Definition fail (q : sentQueue) : sentQueue := mkQueue (slots q) (head q) (n q) (live q) (base q) true.

Definition maxIdleSlots : Z := 1024.

Definition end_ (q : sentQueue) : Z := u64 (base q + n q).

(** The place of a slot in the ring. The index is never negative: the mask is not when
    there are slots, and the sum is not when there are none. *)
Definition place (q : sentQueue) (i : Z) : nat := Z.to_nat (Z.land (head q + i) (len (slots q) - 1)).

(** [None] is an index out of range. *)
Definition slot (q : sentQueue) (k : Z) : option (option sentPacket) := slots q !! place q (u64 (k - base q)).

Definition set_slot (q : sentQueue) (i : nat) (x : option sentPacket) : sentQueue :=
  if (i <? length (slots q))%nat then mkQueue (<[i := x]> (slots q)) (head q) (n q) (live q) (base q) (panicked q) else fail q.

Definition grow (q : sentQueue) : sentQueue :=
  let size := Z.to_nat (Z.max 16 (2 * len (slots q))) in
  match mapM (fun i => slots q !! place q (Z.of_nat i)) (seq 0 (Z.to_nat (n q))) with
  | Some copied => if (length copied <=? size)%nat then mkQueue (copied ++ replicate (size - length copied) None) 0 (n q) (live q) (base q) (panicked q) else fail q
  | None => fail q
  end.

(** An empty slot more. *)
Definition extend (q : sentQueue) : sentQueue :=
  let q := if n q =? len (slots q) then grow q else q in
  let q := set_slot q (place q (n q)) None in
  mkQueue (slots q) (head q) (n q + 1) (live q) (base q) (panicked q).

Fixpoint extendBy (gap : nat) (q : sentQueue) : sentQueue :=
  match gap with O => q | S gap => extendBy gap (extend q) end.

(** [None] is the panic. *)
Definition push (q : sentQueue) (p : sentPacket) : option sentQueue :=
  let q := if live q =? 0 then mkQueue (slots q) 0 0 (live q) (pn p) (panicked q) else q in
  if pn p <? end_ q then None
  else
    let q := extendBy (S (Z.to_nat (u64 (pn p - end_ q)))) q in
    let q := set_slot q (place q (u64 (pn p - base q))) (Some p) in
    Some (mkQueue (slots q) (head q) (n q) (live q + 1) (base q) (panicked q)).

Definition take_ (q : sentQueue) (k : Z) : option sentPacket * sentQueue :=
  if (k <? base q) || (end_ q <=? k) then (None, q)
  else
    match slot q k with
    | Some (Some p) =>
        let q := set_slot q (place q (u64 (k - base q))) None in
        (Some p, mkQueue (slots q) (head q) (n q) (live q - 1) (base q) (panicked q))
    | Some None => (None, q)
    | None => (None, fail q)
    end.

(** [for q.n > 0 && q.slots\[q.head\] == nil]. *)
Fixpoint trimLoop (fuel : nat) (q : sentQueue) : sentQueue :=
  match fuel with
  | O => q
  | S fuel =>
      if 0 <? n q then
        match slots q !! Z.to_nat (head q) with
        | Some None => trimLoop fuel (mkQueue (slots q) (Z.land (head q + 1) (len (slots q) - 1)) (n q - 1) (live q) (u64 (base q + 1)) (panicked q))
        | Some (Some _) => q
        | None => fail q
        end
      else q
  end.

Definition trim (q : sentQueue) : sentQueue :=
  let q := trimLoop (Z.to_nat (n q)) q in
  if n q =? 0 then mkQueue (if maxIdleSlots <? len (slots q) then [] else slots q) 0 (n q) (live q) (base q) (panicked q) else q.

(** The packets below [e], in order, until [f] says to stop; [None] is an index out of
    range. *)
Fixpoint eachLoop {A} (fuel : nat) (q : sentQueue) (k : Z) (f : A -> sentPacket -> A * bool) (a : A) : option A :=
  match fuel with
  | O => Some a
  | S fuel =>
      match slot q k with
      | Some (Some p) => let '(a, more) := f a p in if more then eachLoop fuel q (k + 1) f a else Some a
      | Some None => eachLoop fuel q (k + 1) f a
      | None => None
      end
  end.

Definition each {A} (q : sentQueue) (e : Z) (f : A -> sentPacket -> A * bool) (a : A) : option A :=
  eachLoop (Z.to_nat (Z.min e (end_ q) - base q)) q (base q) f a.

Definition reset (q : sentQueue) : sentQueue := mkQueue (replicate (length (slots q)) None) 0 0 0 (base q) (panicked q).

(** ** The ring as a list *)

Definition isLive (x : option sentPacket) : Z := match x with Some _ => 1 | None => 0 end.
Fixpoint countLive (l : list (option sentPacket)) : Z := match l with [] => 0 | x :: l => isLive x + countLive l end.

Lemma countLive_app l l' : countLive (l ++ l') = countLive l + countLive l'.
Proof. induction l as [|x l IH]; cbn [countLive app]; [reflexivity|]. lia. Qed.

Lemma countLive_insert l i x y : l !! i = Some y -> countLive (<[i := x]> l) = countLive l - isLive y + isLive x.
Proof.
  intros Hi. rewrite insert_take_drop by (now apply lookup_lt_Some in Hi). rewrite <- (take_drop_middle l i y Hi) at 3. rewrite !countLive_app. cbn [countLive]. lia.
Qed.

Lemma countLive_nonneg l : 0 <= countLive l.
Proof. induction l as [|[p|] l IH]; cbn [countLive isLive]; lia. Qed.

Lemma countLive_zero l i p : countLive l = 0 -> l !! i = Some (Some p) -> False.
Proof.
  intros H Hi. rewrite <- (take_drop_middle l i _ Hi), countLive_app in H. cbn [countLive isLive] in H. pose proof (countLive_nonneg (take i l)). pose proof (countLive_nonneg (drop (S i) l)). lia.
Qed.

(** The slots in use, from the first on. *)
Record tracks (q : sentQueue) (l : list (option sentPacket)) : Prop := {
  tr_cap : slots q = [] \/ exists k, 0 <= k /\ len (slots q) = 2 ^ k;
  tr_head : 0 <= head q /\ (slots q = [] -> head q = 0) /\ (slots q <> [] -> head q < len (slots q));
  tr_n : n q = len l /\ len l <= len (slots q);
  tr_laid : forall i x, l !! i = Some x -> slots q !! place q (Z.of_nat i) = Some x;
  tr_live : live q = countLive l;
  tr_pn : forall i p, l !! i = Some (Some p) -> pn p = base q + Z.of_nat i;
  tr_base : 0 <= base q /\ base q + len l <= 2 ^ 62;
  tr_fine : panicked q = false
}.

(** Where slots are, as long as there are enough of them. *)
Lemma place_mod q k i : len (slots q) = 2 ^ k -> 0 <= k -> 0 <= head q -> 0 <= i -> Z.of_nat (place q i) = (head q + i) mod len (slots q).
Proof.
  intros Hl Hk Hh Hi. unfold place. rewrite Hl, land_low_bits by exact Hk. assert (0 < 2 ^ k) by lia. pose proof (Z.mod_pos_bound (head q + i) (2 ^ k) ltac:(lia)). lia.
Qed.

Lemma place_inj q k i j : len (slots q) = 2 ^ k -> 0 <= k -> 0 <= head q -> 0 <= i < len (slots q) -> 0 <= j < len (slots q) -> place q i = place q j -> i = j.
Proof.
  intros Hl Hk Hh Hi Hj E. apply (f_equal Z.of_nat) in E. rewrite !(place_mod q k) in E by (auto; lia). rewrite Hl in *. assert (0 < 2 ^ k) as Hp by lia. set (L := 2 ^ k) in *.
  pose proof (Z.div_mod (head q + i) L ltac:(lia)). pose proof (Z.div_mod (head q + j) L ltac:(lia)). assert ((head q + i) / L = (head q + j) / L) by nia. nia.
Qed.

Lemma place_lt q k i : len (slots q) = 2 ^ k -> 0 <= k -> 0 <= head q -> 0 <= i -> (place q i < length (slots q))%nat.
Proof.
  intros Hl Hk Hh Hi. pose proof (place_mod q k i Hl Hk Hh Hi). pose proof (Z.mod_pos_bound (head q + i) (len (slots q)) ltac:(lia)). unfold len in *. lia.
Qed.

Lemma place_same q q' i : head q' = head q -> len (slots q') = len (slots q) -> place q' i = place q i.
Proof. intros E1 E2. unfold place. now rewrite E1, E2. Qed.

Lemma len_insert {A} i (x : A) l : len (<[i := x]> l) = len l.
Proof. unfold len. now rewrite length_insert. Qed.

Lemma nonempty_cap q l : tracks q l -> l <> [] -> exists k, 0 <= k /\ len (slots q) = 2 ^ k.
Proof.
  intros H Hl. destruct (tr_cap _ _ H) as [E|]; [|assumption]. exfalso. destruct (tr_n _ _ H) as [_ H2]. rewrite E in H2. destruct l; [congruence|]. rewrite len_cons in H2. change (len ([] : list (option sentPacket))) with 0 in H2. pose proof (len_nonneg l). lia.
Qed.

(** A slot in use is written. *)
Lemma set_tracks q l i x y :
  tracks q l -> l !! i = Some y -> (forall p, x = Some p -> pn p = base q + Z.of_nat i) ->
  tracks (mkQueue (<[place q (Z.of_nat i) := x]> (slots q)) (head q) (n q) (live q - isLive y + isLive x) (base q) (panicked q)) (<[i := x]> l).
Proof.
  intros H Hi Hx. pose proof H as [_ T2 T3 T4 T5 T6 T7 T8]. assert (l <> []) as Hne by (intros ->; discriminate). destruct (nonempty_cap q l H Hne) as (k & Hk & Hcap). pose proof (lookup_lt_Some _ _ _ Hi) as Hlt. assert (0 < 2 ^ k) by lia.
  assert (slots q <> []) as Hs by (intros E; rewrite E in Hcap; change (len ([] : list (option sentPacket))) with 0 in Hcap; lia). split; cbn [slots head n live base panicked]; rewrite ?len_insert; auto.
  - right. eauto.
  - splits; [tauto| |tauto]. intros E. apply (f_equal length) in E. rewrite length_insert in E. destruct (slots q); [congruence|discriminate].
  - intros j z Hj. rewrite (place_same q) by (cbn; now rewrite ?len_insert). destruct (decide (j = i)) as [->|Hne2].
    + rewrite list_lookup_insert_eq in Hj by exact Hlt. injection Hj as <-. apply list_lookup_insert_eq. apply (place_lt q k); auto; lia.
    + rewrite list_lookup_insert_ne in Hj by congruence. rewrite list_lookup_insert_ne; [now apply T4|]. intros E. apply Hne2. apply (place_inj q k) in E; auto; try lia; unfold len in *; apply lookup_lt_Some in Hj; lia.
  - rewrite (countLive_insert l i x y Hi). lia.
  - intros j p Hj. destruct (decide (j = i)) as [->|Hne2]; [rewrite list_lookup_insert_eq in Hj by exact Hlt; injection Hj as ->; now apply Hx|]. rewrite list_lookup_insert_ne in Hj by congruence. now apply T6.
Qed.

(** What is copied is what is in use. *)
Lemma grow_copies q l : tracks q l -> mapM (fun i => slots q !! place q (Z.of_nat i)) (seq 0 (Z.to_nat (n q))) = Some l.
Proof.
  intros H. apply mapM_Some. destruct (tr_n _ _ H) as [En _]. apply Forall2_same_length_lookup_2; [rewrite length_seq; unfold len in *; lia|].
  intros i j x Hi Hx. apply lookup_seq in Hi as [-> _]. exact (tr_laid _ _ H i x Hx).
Qed.

Lemma grow_tracks q l : tracks q l -> n q = len (slots q) -> tracks (grow q) l /\ len l < len (slots (grow q)) /\ base (grow q) = base q.
Proof.
  intros H Hn. pose proof H as [T1 T2 T3 T4 T5 T6 T7 T8]. unfold grow. rewrite (grow_copies q l H). set (L := Z.max 16 (2 * len (slots q))). pose proof (len_nonneg (slots q)) as Hsl.
  rewrite (proj2 (Nat.leb_le _ _)) by (unfold L, len in *; lia). set (q1 := mkQueue _ _ _ _ _ _).
  assert (len (slots q1) = L) as EL by (unfold q1, len in *; cbn [slots]; rewrite length_app, length_replicate; lia).
  assert (exists k, 0 <= k /\ L = 2 ^ k) as (k & Hk & Hcap).
  { unfold L. destruct T1 as [->|(k & Hk & ->)]; [exists 4; now split|]. destruct (Z.le_gt_cases 16 (2 * 2 ^ k)) as [Hle|Hgt]; [exists (k + 1); rewrite Z.pow_add_r by lia; change (2 ^ 1) with 2; lia|exists 4; change (2 ^ 4) with 16; lia]. }
  assert (len l < L) as Hlt by (unfold L; lia). split; [|split; [now rewrite EL|reflexivity]]. split; rewrite ?EL; auto; cbn [q1 n live base head]; auto.
  - right. eauto.
  - split; [lia|]. split; [auto|]. intros _. pose proof (len_nonneg l). lia.
  - split; [tauto|lia].
  - intros i x Hi. pose proof (lookup_lt_Some _ _ _ Hi) as Hil. assert (place q1 (Z.of_nat i) = i) as ->.
    { apply Nat2Z.inj. rewrite (place_mod q1 k) by (rewrite ?EL; cbn; lia). rewrite EL. cbn [q1 head]. rewrite Z.add_0_l. apply Z.mod_small. unfold len in *. lia. }
    cbn [q1 slots]. rewrite lookup_app_l by lia. exact Hi.
Qed.

Lemma extend_tracks q l : tracks q l -> base q + len l + 1 <= 2 ^ 62 -> tracks (extend q) (l ++ [None]) /\ base (extend q) = base q.
Proof.
  intros H Hb. unfold extend. set (q1 := if n q =? len (slots q) then grow q else q).
  assert (tracks q1 l /\ len l < len (slots q1) /\ base q1 = base q) as (H1 & Hlt & Eb).
  { unfold q1. destruct (Z.eqb_spec (n q) (len (slots q))) as [E|E]; [destruct (grow_tracks q l H E) as (? & ? & ?); auto|]. splits; auto. destruct (tr_n _ _ H). lia. }
  clearbody q1. pose proof (len_nonneg l). pose proof H1 as [T1 T2 [T3 T3'] T4 T5 T6 T7 T8]. destruct T1 as [E|(k & Hk & Hcap)]; [rewrite E in Hlt; change (len ([] : list (option sentPacket))) with 0 in Hlt; lia|]. rewrite T3.
  assert (len (l ++ [None]) = len l + 1) as Elen by (rewrite len_app; reflexivity). unfold set_slot. rewrite (proj2 (Nat.ltb_lt _ _)) by (apply (place_lt q1 k); auto; lia). split; [|exact Eb]. split; cbn [slots head n live base panicked]; rewrite ?len_insert, ?Elen; auto.
  - right. eauto.
  - splits; [tauto| |intros _; apply T2; intros E; rewrite E in Hlt; change (len ([] : list (option sentPacket))) with 0 in Hlt; lia]. intros E. apply (f_equal length) in E. rewrite length_insert in E. destruct (slots q1); [tauto|discriminate].
  - lia.
  - intros i x Hi. rewrite (place_same q1) by (cbn; now rewrite ?len_insert). apply lookup_app_Some in Hi as [Hi|[Hge Hi]].
    + rewrite list_lookup_insert_ne; [now apply T4|]. apply lookup_lt_Some in Hi. intros E. apply (place_inj q1 k) in E; auto; unfold len in *; lia.
    + apply list_lookup_singleton_Some in Hi as [Hi <-]. replace (Z.of_nat i) with (len l) by (unfold len; lia). apply list_lookup_insert_eq. apply (place_lt q1 k); auto; lia.
  - rewrite countLive_app, T5. cbn. lia.
  - intros i p Hi. apply lookup_app_Some in Hi as [Hi|[_ Hi]]; [now apply T6|]. apply list_lookup_singleton_Some in Hi as [_ Hi]. discriminate.
  - rewrite Eb. lia.
Qed.

Lemma extendBy_tracks gap q l : tracks q l -> base q + len l + Z.of_nat gap <= 2 ^ 62 -> tracks (extendBy gap q) (l ++ replicate gap None) /\ base (extendBy gap q) = base q.
Proof.
  revert q l. induction gap as [|gap IH]; intros q l H Hb; cbn [extendBy replicate]; [now rewrite app_nil_r|]. destruct (extend_tracks q l H ltac:(lia)) as [H1 E1]. destruct (IH (extend q) (l ++ [None]) H1) as [H2 E2].
  - rewrite E1, len_app. change (len [None]) with 1. lia.
  - rewrite <- app_assoc in H2. split; [exact H2|congruence].
Qed.

Lemma end_tracks q l : tracks q l -> end_ q = base q + len l.
Proof. intros [_ _ [T3 _] _ _ _ T7 _]. unfold end_. pose proof (len_nonneg l). rewrite T3. apply u64_id. lia. Qed.

(** The queue with nothing in it, from [k] on. *)
Lemma cleared_tracks q l k : tracks q l -> 0 <= k <= 2 ^ 62 -> live q = 0 -> tracks (mkQueue (slots q) 0 0 (live q) k (panicked q)) [].
Proof.
  intros [T1 T2 T3 T4 T5 T6 T7 T8] Hk Hl. split; cbn [slots head n live base panicked]; auto; try (intros i x Hi; rewrite lookup_nil in Hi; discriminate); change (len ([] : list (option sentPacket))) with 0.
  - splits; [lia|auto|]. intros Hs. unfold len. destruct (slots q); [congruence|cbn; lia].
  - split; [reflexivity|apply len_nonneg].
  - lia.
Qed.

(** ** The operations *)

(** What is there after a push. *)
Definition pushed (q : sentQueue) (l : list (option sentPacket)) (p : sentPacket) : list (option sentPacket) :=
  if live q =? 0 then [Some p] else l ++ replicate (Z.to_nat (pn p - (base q + len l))) None ++ [Some p].

Lemma push_tracks q l p : tracks q l -> 0 <= pn p < 2 ^ 62 -> (live q <> 0 -> base q + len l <= pn p) ->
  exists q', push q p = Some q' /\ tracks q' (pushed q l p) /\ base q' = (if live q =? 0 then pn p else base q).
Proof.
  intros H Hp Hge. unfold push, pushed. set (l0 := if live q =? 0 then [] else l). set (q0 := if live q =? 0 then _ else _).
  assert (tracks q0 l0 /\ base q0 + len l0 <= pn p /\ base q0 = if live q =? 0 then pn p else base q) as (H0 & Hle & Eb0).
  { unfold q0, l0. destruct (Z.eqb_spec (live q) 0) as [E|E]; [|splits; auto]. split; [apply (cleared_tracks q l); auto; lia|]. cbn. change (len ([] : list (option sentPacket))) with 0. split; [lia|reflexivity]. }
  assert (0 <= base q0) as Hb0 by apply (tr_base _ _ H0). pose proof (len_nonneg l0) as Hl0. rewrite (end_tracks q0 l0 H0). rewrite (proj2 (Z.ltb_ge (pn p) _)) by lia. rewrite (u64_id (pn p - (base q0 + len l0))) by lia. set (gap := Z.to_nat (pn p - (base q0 + len l0))).
  destruct (extendBy_tracks (S gap) q0 l0 H0 ltac:(unfold gap; lia)) as [H1 E1]. set (q1 := extendBy (S gap) q0) in *. rewrite E1. rewrite (u64_id (pn p - base q0)) by lia.
  assert ((l0 ++ replicate (S gap) None) !! (length l0 + gap)%nat = Some None) as Hlast by (rewrite lookup_app_r by lia; apply lookup_replicate; split; [reflexivity|lia]).
  pose proof (set_tracks q1 _ (length l0 + gap) (Some p) None H1 Hlast) as H2. replace (Z.of_nat (length l0 + gap)) with (pn p - base q0) in H2 by (unfold gap; unfold len in *; lia).
  specialize (H2 ltac:(intros p' [= <-]; rewrite E1; lia)). destruct (nonempty_cap q1 _ H1 ltac:(destruct l0; discriminate)) as (cap & Hcap & Ecap). unfold set_slot. rewrite (proj2 (Nat.ltb_lt _ _)) by (apply (place_lt q1 cap); auto; [apply (tr_head _ _ H1)|lia]).
  eexists. split; [reflexivity|]. split; [|rewrite <- Eb0; cbn; exact E1].
  replace (if live q =? 0 then [Some p] else l ++ replicate (Z.to_nat (pn p - (base q + len l))) None ++ [Some p]) with (<[(length l0 + gap)%nat := Some p]> (l0 ++ replicate (S gap) None)); [cbn [isLive] in H2; rewrite Z.sub_0_r in H2; exact H2|].
  rewrite insert_app_r. replace (replicate (S gap) None) with (replicate gap (None : option sentPacket) ++ [None]) by (symmetry; apply (replicate_S_end gap)). rewrite <- (Nat.add_0_r gap) at 1. rewrite <- (length_replicate gap (None : option sentPacket)) at 1. rewrite insert_app_r. cbn [insert list_insert].
  unfold l0, gap, q0. destruct (Z.eqb_spec (live q) 0); [|reflexivity]. cbn [base app]. change (len ([] : list (option sentPacket))) with 0. rewrite Z.add_0_r, Z.sub_diag. reflexivity.
Qed.

(** A slot the queue has, looked at. *)
Lemma slot_tracks q l k : tracks q l -> base q <= k < base q + len l -> exists x, l !! Z.to_nat (k - base q) = Some x /\ slot q k = Some x /\ place q (u64 (k - base q)) = place q (Z.of_nat (Z.to_nat (k - base q))).
Proof.
  intros H Hk. destruct (tr_base _ _ H). pose proof (len_nonneg l). destruct (lookup_lt_is_Some_2 l (Z.to_nat (k - base q))) as [x Hx]; [unfold len in *; lia|]. exists x. split; [exact Hx|]. unfold slot. rewrite u64_id by lia. rewrite <- (tr_laid _ _ H _ _ Hx). rewrite Z2Nat.id by lia. auto.
Qed.

(** The packet of number [k]. *)
Definition packet (q : sentQueue) (l : list (option sentPacket)) (k : Z) : option sentPacket := if k <? base q then None else mjoin (l !! Z.to_nat (k - base q)).

Lemma packet_out q l k : k < base q \/ base q + len l <= k -> packet q l k = None.
Proof. intros H. unfold packet. destruct (Z.ltb_spec k (base q)); [reflexivity|]. rewrite lookup_ge_None_2 by (unfold len in *; lia). reflexivity. Qed.

Lemma take_tracks q l k : tracks q l ->
  exists l', (take_ q k).1 = packet q l k /\ tracks (take_ q k).2 l' /\ base (take_ q k).2 = base q /\ length l' = length l /\ forall j, packet (take_ q k).2 l' j = if decide (j = k) then None else packet q l j.
Proof.
  intros H. unfold take_. assert (packet q l k = None -> forall j, packet q l j = if decide (j = k) then None else packet q l j) as Hsame by (intros E j; case_decide; congruence).
  rewrite (end_tracks q l H). destruct ((k <? base q) || (base q + len l <=? k)) eqn:Eo.
  - exists l. assert (packet q l k = None) as E by (apply packet_out; apply orb_true_iff in Eo; rewrite Z.ltb_lt, Z.leb_le in Eo; exact Eo). splits; auto.
  - apply orb_false_iff in Eo as [E1 E2]. apply Z.ltb_ge in E1. apply Z.leb_gt in E2. destruct (slot_tracks q l k H ltac:(lia)) as (x & Hx & -> & Hpl). set (i := Z.to_nat (k - base q)) in *.
    assert (packet q l k = x) as Ep by (unfold packet; rewrite (proj2 (Z.ltb_ge k (base q))) by lia; fold i; now rewrite Hx). destruct x as [p|].
    + destruct (nonempty_cap q l H ltac:(intros ->; discriminate)) as (cap & Hcap & Ecap). unfold set_slot. rewrite (proj2 (Nat.ltb_lt _ _)) by (rewrite Hpl; apply (place_lt q cap); auto; [apply (tr_head _ _ H)|lia]). cbn [fst snd]. exists (<[i := None]> l). rewrite Hpl. split; [now rewrite Ep|]. split; [pose proof (set_tracks q l i None (Some p) H Hx ltac:(discriminate)) as Ht; cbn [isLive] in Ht; rewrite Z.add_0_r in Ht; exact Ht|]. split; [reflexivity|]. split; [apply length_insert|].
      intros j. unfold packet. cbn [base]. destruct (Z.ltb_spec j (base q)) as [Hj|Hj]; [now case_decide|]. case_decide as Ejk.
      * subst j. fold i. rewrite list_lookup_insert_eq; [reflexivity|]. now apply lookup_lt_Some in Hx.
      * rewrite list_lookup_insert_ne by (unfold i; lia). reflexivity.
    + exists l. splits; auto.
Qed.

(** The slot at the head dropped, which is nothing to the packets. *)
Lemma tail_tracks q l :
  tracks q (None :: l) -> let q' := mkQueue (slots q) (Z.land (head q + 1) (len (slots q) - 1)) (n q - 1) (live q) (u64 (base q + 1)) (panicked q) in
  tracks q' l /\ base q' = base q + 1.
Proof.
  intros H q'. destruct (nonempty_cap q _ H ltac:(discriminate)) as (k & Hk & Hcap). pose proof H as [_ T2 [T3 T3'] T4 T5 T6 [T7 T8] T9]. rewrite len_cons in *. pose proof (len_nonneg l). assert (0 < 2 ^ k) as Hpos by lia.
  assert (u64 (base q + 1) = base q + 1) as Eb by (apply u64_id; lia). assert (head q' = (head q + 1) mod len (slots q)) as Eh by (cbn; rewrite Hcap; now apply land_low_bits).
  pose proof (Z.mod_pos_bound (head q + 1) (len (slots q)) ltac:(lia)) as Hmod. split; [|exact Eb]. assert (slots q' = slots q /\ n q' = n q - 1 /\ live q' = live q /\ base q' = base q + 1 /\ panicked q' = panicked q) as (Es & En & El & Eb' & Ep) by (splits; auto). clearbody q'. split; rewrite ?Eh, ?Es, ?En, ?El, ?Eb', ?Ep; auto; try lia.
  - right. eauto.
  - split; [lia|]. split; [|intros _; lia]. intros E. rewrite E in Hcap. change (len ([] : list (option sentPacket))) with 0 in Hcap. lia.
  - intros i x Hi. rewrite <- (T4 (S i) x Hi). f_equal. apply Nat2Z.inj. rewrite (place_mod q' k), (place_mod q k) by (rewrite ?Eh, ?Es; auto; lia). rewrite Eh, Es. rewrite Zplus_mod_idemp_l. f_equal. lia.
  - intros i p Hi. rewrite (T6 (S i) p Hi). lia.
Qed.

Lemma head_place q l x : tracks q (x :: l) -> slots q !! Z.to_nat (head q) = Some x.
Proof.
  intros H. destruct (nonempty_cap q _ H ltac:(discriminate)) as (k & Hk & Hcap). rewrite <- (tr_laid _ _ H 0%nat x eq_refl). f_equal. assert (0 < 2 ^ k) as Hpos by lia. destruct (tr_head _ _ H) as (H1 & _ & H2). apply Nat2Z.inj. rewrite (place_mod q k) by (auto; lia). rewrite Z2Nat.id, Z.add_0_r by lia.
  symmetry. apply Z.mod_small. split; [lia|]. apply H2. intros E. rewrite E in Hcap. change (len ([] : list (option sentPacket))) with 0 in Hcap. lia.
Qed.

Lemma packet_tail q q' l j : base q' = base q + 1 -> packet q' l j = packet q (None :: l) j.
Proof.
  intros E. unfold packet. rewrite E. destruct (Z.ltb_spec j (base q + 1)), (Z.ltb_spec j (base q)); try lia; auto.
  - replace (Z.to_nat (j - base q)) with 0%nat by lia. reflexivity.
  - replace (Z.to_nat (j - base q)) with (S (Z.to_nat (j - (base q + 1)))) by lia. reflexivity.
Qed.

(** The same packets in fewer slots. *)
Record trimmed (q : sentQueue) (l : list (option sentPacket)) (q' : sentQueue) (l' : list (option sentPacket)) : Prop := {
  tm_tracks : tracks q' l';
  tm_packets : forall j, packet q' l' j = packet q l j;
  tm_end : base q' + len l' = base q + len l;
  tm_first : forall x l2, l' = x :: l2 -> x <> None
}.

Lemma trimLoop_tracks fuel q l : tracks q l -> (length l <= fuel)%nat -> exists l', trimmed q l (trimLoop fuel q) l'.
Proof.
  revert q l. induction fuel as [|fuel IH]; intros q l H Hf; cbn [trimLoop].
  - assert (l = []) as -> by (destruct l; [reflexivity|cbn in Hf; lia]). exists []. split; auto; discriminate.
  - destruct (tr_n _ _ H) as [En _]. destruct l as [|x l].
    + rewrite En. exists []. split; auto; discriminate.
    + rewrite (proj2 (Z.ltb_lt 0 (n q))) by (rewrite En, len_cons; pose proof (len_nonneg l); lia). rewrite (head_place q l x H). destruct x as [p|]; [exists (Some p :: l); split; auto; congruence|].
      destruct (tail_tracks q l H) as [H1 Eb]. cbn [length] in Hf. destruct (IH _ l H1 ltac:(lia)) as (l' & [A1 A2 A3 A4]). exists l'. split; auto.
      * intros j. rewrite A2. now apply packet_tail.
      * rewrite A3, Eb, len_cons. lia.
Qed.

Lemma trim_tracks q l : tracks q l -> exists l', trimmed q l (trim q) l'.
Proof.
  intros H. unfold trim. destruct (tr_n _ _ H) as [En _]. destruct (trimLoop_tracks (Z.to_nat (n q)) q l H ltac:(rewrite En; unfold len; lia)) as (l' & [A1 A2 A3 A4]). set (q1 := trimLoop _ q) in *.
  destruct (Z.eqb_spec (n q1) 0) as [E|E]; [|exists l'; now split]. assert (l' = []) as -> by (destruct (tr_n _ _ A1) as [En1 _]; rewrite E in En1; destruct l'; [reflexivity|unfold len in En1; cbn in En1; lia]).
  exists []. split; [|exact A2|exact A3|discriminate]. destruct A1 as [T1 T2 T3 T4 T5 T6 T7 T8]. split; cbn [slots head n live base panicked]; auto; try (intros i x Hi; rewrite lookup_nil in Hi; discriminate).
  - destruct (_ <? _); auto.
  - splits; [lia|auto|]. intros Hs. unfold len. destruct (if _ <? _ then _ else _); [congruence|cbn; lia].
  - rewrite E. split; [reflexivity|]. apply len_nonneg.
Qed.

Lemma reset_tracks q l : tracks q l -> tracks (reset q) [].
Proof.
  intros [T1 T2 T3 T4 T5 T6 T7 T8]. assert (len (replicate (length (slots q)) (None : option sentPacket)) = len (slots q)) as El by (unfold len; now rewrite length_replicate). split; cbn [reset slots head n live base panicked]; rewrite ?El; auto; try (intros i x Hi; rewrite lookup_nil in Hi; discriminate).
  - destruct T1 as [->|]; auto.
  - splits; [lia|auto|]. intros Hs. unfold len. destruct (slots q); [now destruct Hs|cbn; lia].
  - split; [reflexivity|apply len_nonneg].
  - change (len ([] : list (option sentPacket))) with 0. pose proof (len_nonneg l). lia.
Qed.

(** ** Walking through the packets *)

(** A fold that may stop. *)
Fixpoint until {A} (f : A -> sentPacket -> A * bool) (a : A) (ps : list sentPacket) : A :=
  match ps with [] => a | p :: ps => let '(a, more) := f a p in if more then until f a ps else a end.

Lemma eachLoop_packets {A} fuel q l k (f : A -> sentPacket -> A * bool) a :
  tracks q l -> base q <= k -> k + Z.of_nat fuel <= base q + len l -> eachLoop fuel q k f a = Some (until f a (omap (packet q l) (seqZ k (Z.of_nat fuel)))).
Proof.
  intros H. revert k a. induction fuel as [|fuel IH]; intros k a Hk Hl; [reflexivity|]. cbn [eachLoop]. rewrite seqZ_cons by lia. replace (Z.pred (Z.of_nat (S fuel))) with (Z.of_nat fuel) by lia. cbn [omap list_omap].
  destruct (slot_tracks q l k H ltac:(lia)) as (x & Hx & -> & _). assert (packet q l k = x) as -> by (unfold packet; rewrite (proj2 (Z.ltb_ge k (base q))) by lia; now rewrite Hx). change (Z.succ k) with (k + 1). destruct x as [p|]; [|apply IH; lia].
  cbn [until]. destruct (f a p) as [a' more]. destruct more; [|reflexivity]. apply IH; lia.
Qed.

Lemma omap_none {A B} (g : A -> option B) l : (forall x, x ∈ l -> g x = None) -> omap g l = [].
Proof. induction l as [|x l IH]; intros H; cbn; [reflexivity|]. rewrite (H x) by (apply elem_of_cons; now left). apply IH. intros y Hy. apply H. apply elem_of_cons. now right. Qed.

Lemma each_packets {A} q l e (f : A -> sentPacket -> A * bool) a :
  tracks q l -> 0 <= e -> each q e f a = Some (until f a (omap (packet q l) (seqZ 0 e))).
Proof.
  intros H He. unfold each. rewrite (end_tracks q l H). destruct (tr_base _ _ H) as [Hb _]. pose proof (len_nonneg l). set (stop := Z.min e (base q + len l)). rewrite (eachLoop_packets _ q l) by (auto; lia). do 2 f_equal.
  destruct (Z.le_gt_cases stop (base q)) as [Hs|Hs].
  - replace (Z.to_nat (stop - base q)) with 0%nat by lia. symmetry. apply omap_none. intros k Hk. apply elem_of_seqZ in Hk. apply packet_out. lia.
  - rewrite Z2Nat.id by lia. replace e with (base q + ((stop - base q) + (e - stop))) by lia. rewrite !seqZ_app, !omap_app by lia. rewrite Z.add_0_l. rewrite (omap_none _ (seqZ 0 (base q))), (omap_none _ (seqZ (base q + (stop - base q)) (e - stop))), app_nil_r; [reflexivity| |]; intros k Hk; apply elem_of_seqZ in Hk; apply packet_out; lia.
Qed.

(** ** The queue as a map *)

(** The packets of a queue, and a bound of the numbers it was given. *)
Definition shows (q : sentQueue) (m : gmap Z sentPacket) (next : Z) : Prop :=
  exists l, tracks q l /\ (forall k, m !! k = packet q l k) /\ base q + len l <= next <= 2 ^ 62.

Lemma shows_numbered q m next k p : shows q m next -> m !! k = Some p -> pn p = k /\ 0 <= k < next.
Proof.
  intros (l & H & Hm & Hn) E. rewrite Hm in E. destruct (tr_base _ _ H). unfold packet in E. destruct (Z.ltb_spec k (base q)); [discriminate|]. destruct (l !! Z.to_nat (k - base q)) as [x|] eqn:Ex; [|discriminate]. cbn in E. subst x.
  rewrite (tr_pn _ _ H _ _ Ex). apply lookup_lt_Some in Ex. unfold len in *. lia.
Qed.

Lemma size_live l : forall b (m : gmap Z sentPacket), (forall k, m !! k = if k <? b then None else mjoin (l !! Z.to_nat (k - b))) -> Z.of_nat (base.size m) = countLive l.
Proof.
  induction l as [|x l IH]; intros b m Hm.
  - assert (m = ∅) as ->; [|now rewrite map_size_empty]. apply map_empty. intros k. rewrite Hm. now destruct (_ <? _).
  - cbn [countLive]. assert (m !! b = x) as Ex by (rewrite Hm, Z.ltb_irrefl, Z.sub_diag; reflexivity). rewrite <- (IH (b + 1) (delete b m)).
    + rewrite map_size_delete, Ex. destruct x as [p|]; cbn [isLive]; [|cbn; lia]. cbn. assert (base.size m <> 0%nat); [|lia]. intros E. apply map_size_empty_inv in E. subst m. rewrite lookup_empty in Ex. discriminate.
    + intros k. destruct (decide (k = b)) as [->|Hk]; [rewrite lookup_delete_eq; now rewrite (proj2 (Z.ltb_lt b (b + 1))) by lia|]. rewrite lookup_delete_ne by congruence. rewrite Hm. destruct (Z.ltb_spec k b), (Z.ltb_spec k (b + 1)); try lia; auto.
      replace (Z.to_nat (k - b)) with (S (Z.to_nat (k - (b + 1)))) by lia. reflexivity.
Qed.

Lemma shows_live q m next : shows q m next -> live q = Z.of_nat (base.size m).
Proof. intros (l & H & Hm & _). rewrite (tr_live _ _ H). symmetry. now apply (size_live l (base q)). Qed.

Lemma shows_new : shows newQueue ∅ 0.
Proof.
  exists []. split; [|split; [intros k; unfold packet; rewrite lookup_empty; now destruct (_ <? _)|change (0 + 0 <= 0 <= 2 ^ 62); lia]]. split; cbn; auto; try (intros i x Hi; rewrite lookup_nil in Hi; discriminate); rewrite ?len_nil; splits; auto; try lia; try congruence. change (0 + 0 <= 2 ^ 62). lia.
Qed.

Lemma shows_push q m next p : shows q m next -> next <= pn p < 2 ^ 62 -> exists q', push q p = Some q' /\ shows q' (<[pn p := p]> m) (pn p + 1).
Proof.
  intros Hs Hp. pose proof (shows_live _ _ _ Hs) as El. destruct Hs as (l & H & Hm & Hn). destruct (tr_base _ _ H) as [Hb _]. pose proof (len_nonneg l). destruct (push_tracks q l p H ltac:(lia) ltac:(lia)) as (q' & -> & H' & Eb). exists q'. split; [reflexivity|]. exists (pushed q l p). split; [exact H'|].
  unfold pushed, packet in *. rewrite Eb. destruct (Z.eqb_spec (live q) 0) as [E0|E0].
  - assert (m = ∅) as -> by (apply map_size_empty_inv; lia). split; [|change (len [Some p]) with 1; lia]. intros k. destruct (decide (k = pn p)) as [->|Hk]; [now rewrite lookup_insert_eq, Z.ltb_irrefl, Z.sub_diag|]. rewrite lookup_insert_ne, lookup_empty by congruence.
    destruct (Z.ltb_spec k (pn p)); [reflexivity|]. rewrite lookup_ge_None_2 by (cbn; lia). reflexivity.
  - set (gap := Z.to_nat (pn p - (base q + len l))). assert (len (l ++ replicate gap None ++ [Some p]) = len l + Z.of_nat gap + 1) as Elen by (unfold len; rewrite !length_app, length_replicate; cbn; lia). rewrite Elen. split; [|lia].
    intros k. destruct (decide (k = pn p)) as [->|Hk].
    + rewrite lookup_insert_eq. rewrite (proj2 (Z.ltb_ge (pn p) (base q))) by lia. rewrite lookup_app_r by (unfold len in *; lia). rewrite lookup_app_r by (rewrite length_replicate; unfold len in *; lia). rewrite length_replicate. replace (_ - _ - _)%nat with 0%nat by (unfold len in *; lia). reflexivity.
    + rewrite lookup_insert_ne by congruence. rewrite Hm. destruct (Z.ltb_spec k (base q)); [reflexivity|]. destruct (Nat.lt_ge_cases (Z.to_nat (k - base q)) (length l)) as [Hlt|Hge]; [now rewrite lookup_app_l|]. rewrite (lookup_ge_None_2 l) by lia. rewrite lookup_app_r by lia.
      destruct (Nat.lt_ge_cases (Z.to_nat (k - base q) - length l) gap) as [Hlt|Hge2]; [rewrite lookup_app_l by (rewrite length_replicate; lia); rewrite lookup_replicate_2 by lia; reflexivity|].
      rewrite lookup_ge_None_2; [reflexivity|]. rewrite length_app, length_replicate. cbn. unfold len in *. lia.
Qed.

Lemma shows_take q m next k : shows q m next -> (take_ q k).1 = m !! k /\ shows (take_ q k).2 (delete k m) next.
Proof.
  intros (l & H & Hm & Hn). destruct (take_tracks q l k H) as (l' & E1 & H' & Eb & Elen & Hp). split; [now rewrite E1, Hm|]. exists l'. split; [exact H'|]. split; [|rewrite Eb; unfold len in *; lia].
  intros j. rewrite Hp. case_decide as E; [subst; apply lookup_delete_eq|]. rewrite lookup_delete_ne by congruence. apply Hm.
Qed.

Lemma shows_trim q m next : shows q m next -> shows (trim q) m next /\ (base (trim q) < end_ (trim q) -> m !! base (trim q) <> None).
Proof.
  intros (l & H & Hm & Hn). destruct (trim_tracks q l H) as (l' & [A1 A2 A3 A4]). split; [exists l'; splits; auto; try lia; intros k; now rewrite A2|]. rewrite (end_tracks _ _ A1). intros Hlt. rewrite Hm, <- A2. unfold packet. rewrite Z.ltb_irrefl, Z.sub_diag. destruct l' as [|x l']; [rewrite len_nil in Hlt; lia|]. exact (A4 x l' eq_refl).
Qed.

Lemma shows_reset q m next : shows q m next -> shows (reset q) ∅ next.
Proof.
  intros (l & H & Hm & Hn). exists []. split; [now apply (reset_tracks q l)|]. split; [intros k; unfold packet; rewrite lookup_empty; now destruct (_ <? _)|]. cbn [base reset]. rewrite len_nil. pose proof (len_nonneg l). lia.
Qed.

(** The packets of a map that are numbered from [b] up to below [e], in order. *)
Definition between (m : gmap Z sentPacket) (b e : Z) : list sentPacket := omap (m !!.) (seqZ b (e - b)).

Lemma shows_each {A} q m next e (f : A -> sentPacket -> A * bool) a : shows q m next -> 0 <= e -> each q e f a = Some (until f a (between m 0 e)).
Proof.
  intros (l & H & Hm & _) He. rewrite (each_packets q l e f a H He). unfold between. rewrite Z.sub_0_r. do 2 f_equal. apply list_omap_ext. apply Forall2_same_length_lookup_2; [reflexivity|]. intros i x y Hx Hy. assert (x = y) as -> by congruence. symmetry. apply Hm.
Qed.

(** ** Properties *)

Inductive qop : Type := Push (p : sentPacket) | Take (k : Z) | Trim | Each (e : Z) (stop : sentPacket -> bool) | Len | Reset.

(** What a call says. *)
Inductive answer : Type := Done | Got (p : option sentPacket) | Seen (ps : list sentPacket) | Count (n : Z).

Definition visit (stop : sentPacket -> bool) (ps : list sentPacket) (p : sentPacket) : list sentPacket * bool := (ps ++ [p], negb (stop p)).

Definition queueCall (q : sentQueue) (o : qop) : option (sentQueue * answer) :=
  match o with
  | Push p => q ← push q p; Some (q, Done)
  | Take k => Some ((take_ q k).2, Got (take_ q k).1)
  | Trim => Some (trim q, Done)
  | Each e stop => ps ← each q e (visit stop) []; Some (q, Seen ps)
  | Len => Some (q, Count (live q))
  | Reset => Some (reset q, Done)
  end.

(** A call, unless an index was out of range in it. *)
Definition queueStep (q : sentQueue) (o : qop) : option (sentQueue * answer) :=
  '(q, a) ← queueCall q o; if panicked q then None else Some (q, a).

(** The same of a map. *)
Definition mapStep (m : gmap Z sentPacket) (o : qop) : gmap Z sentPacket * answer :=
  match o with
  | Push p => (<[pn p := p]> m, Done)
  | Take k => (delete k m, Got (m !! k))
  | Trim => (m, Done)
  | Each e stop => (m, Seen (until (visit stop) [] (between m 0 e)))
  | Len => (m, Count (Z.of_nat (base.size m)))
  | Reset => (∅, Done)
  end.

Fixpoint queueRun (q : sentQueue) (ops : list qop) : option (list answer) :=
  match ops with [] => Some [] | o :: ops => '(q, a) ← queueStep q o; rest ← queueRun q ops; Some (a :: rest) end.

Fixpoint mapRun (m : gmap Z sentPacket) (ops : list qop) : list answer :=
  match ops with [] => [] | o :: ops => let '(m, a) := mapStep m o in a :: mapRun m ops end.

(** Packets are sent in the order of their numbers. *)
Fixpoint ascending (next : Z) (ops : list qop) : Prop :=
  match ops with
  | [] => True
  | Push p :: ops => next <= pn p < 2 ^ 62 /\ ascending (pn p + 1) ops
  | Each e _ :: ops => 0 <= e /\ ascending next ops
  | _ :: ops => ascending next ops
  end.

Lemma shows_fine q m next : shows q m next -> panicked q = false.
Proof. intros (l & H & _). exact (tr_fine _ _ H). Qed.

Lemma queueRun_shows ops q m next : shows q m next -> ascending next ops -> queueRun q ops = Some (mapRun m ops).
Proof.
  revert q m next. induction ops as [|o ops IH]; intros q m next H Ha; [reflexivity|]. cbn [queueRun mapRun].
  assert (exists q' next', queueCall q o = Some (q', (mapStep m o).2) /\ shows q' (mapStep m o).1 next' /\ ascending next' ops) as (q' & next' & E & H' & Ha').
  { destruct o as [p|k| |e stop| |]; cbn [queueCall mapStep ascending fst snd] in *.
    - destruct Ha as [Hp Ha]. destruct (shows_push q m next p H Hp) as (q' & -> & H'). cbn. eauto.
    - destruct (shows_take q m next k H) as [-> H']. eauto 6.
    - destruct (shows_trim q m next H) as [H' _]. eauto 6.
    - destruct Ha as [He Ha]. rewrite (shows_each q m next e (visit stop) [] H He). cbn. eauto 6.
    - rewrite (shows_live _ _ _ H). eauto 6.
    - pose proof (shows_reset _ _ _ H). eauto 6. }
  unfold queueStep. rewrite E. cbn. rewrite (shows_fine _ _ _ H'). cbn. rewrite (IH q' _ _ H' Ha'). now destruct (mapStep m o).
Qed.

(** C8: the ring of the packets sent, with its slots wrapped around, grown, skipped and dropped, answers every sequence
    of calls as a map from packet numbers to packets does, as long as packets are added in the order of their numbers:
    it never panics, a packet is taken once and only if it is there, and a walk sees those below its end in order. *)
Theorem sent_queue_refines ops : ascending 0 ops -> queueRun newQueue ops = Some (mapRun ∅ ops).
Proof. exact (queueRun_shows ops newQueue ∅ 0 shows_new). Qed.

(** A packet with nothing in it. *)
Definition numbered (k : Z) : sentPacket := mkSent k 0 0 0 true true false false [].

(** Past the end of the ring and into a bigger one, with numbers skipped and packets taken. *)
Definition wraps : list qop :=
  (Push ∘ numbered <$> seqZ 100 10) ++ (Take <$> seqZ 100 5) ++ [Trim] ++ (Push ∘ numbered <$> seqZ 110 40) ++ [Take 107; Take 107; Take 99; Trim; Len; Each 110 (fun _ => false); Push (numbered 153); Take 151; Take 153] ++ (Take <$> seqZ 105 50) ++ [Trim; Len; Push (numbered 5000); Take 5000; Reset].

Lemma sent_queue_refines_witness : queueRun newQueue wraps = Some (mapRun ∅ wraps).
Proof. apply (sent_queue_refines wraps). vm_compute. intuition discriminate. Defined.

End Sent.
