(* ===== verification/QuicCongestion.v ===== *)
(** * QUIC's congestion controller (src/http3/quic/congestion.go, recovery.go)

    The window of a connection: slow start with HyStart++, NewReno and CUBIC, and
    what is in flight. CUBIC counts in float64, which is the standard library's
    model of the IEEE format; its products and sums are rounded one by one. *)

From S2P Require Import Prelude.
From stdpp Require Import base list numbers.
From Stdlib Require Import ZArith Lia SpecFloat.

Local Open Scope Z_scope.

Module Cong.

(** ** Floating point *)

Definition float : Type := spec_float.

Definition ofZ (x : Z) : float := binary_normalize 53 1024 x 0 false.
Definition fmul : float -> float -> float := SFmul 53 1024.
Definition fdiv : float -> float -> float := SFdiv 53 1024.
Definition fadd : float -> float -> float := SFadd 53 1024.
Definition fsub : float -> float -> float := SFsub 53 1024.
Definition fltb : float -> float -> bool := SFltb.
Definition fleb : float -> float -> bool := SFleb.
Definition fzero : float := S754_zero false.
(** A constant, which is exact until it is used. *)
Definition fconst (a b : Z) : float := fdiv (ofZ a) (ofZ b).
(** min and max, for numbers that are not NaN. *)
Definition fmin (x y : float) : float := if fltb y x then y else x.
Definition fmax (x y : float) : float := if fltb x y then y else x.

Definition signed (s : bool) (m : positive) : Z := if s then Z.neg m else Z.pos m.

Definition floor (x : float) : float :=
  match x with
  | S754_finite s m e => if 0 <=? e then x else ofZ (signed s m / 2 ^ (- e))
  | _ => x
  end.

(** [uint64(x)], of an [x] in its range; what becomes of others is up to the
    machine. *)
Definition toU64 (x : float) : Z :=
  match x with
  | S754_finite s m e => u64 (if 0 <=? e then signed s m * 2 ^ e else Z.quot (signed s m) (2 ^ (- e)))
  | _ => 0
  end.

(** ** Times *)

(** Times and durations are in nanoseconds, and [None] is the zero Time, which every
    other comes after. *)
Definition After (t : Z) (u : option Z) : bool := match u with Some u => u <? t | None => true end.

Definition Millisecond : Z := 1000000.
Definition Second : Z := 1000000000.

Definition Seconds (d : Z) : float := fadd (ofZ (Z.quot d Second)) (fdiv (ofZ (Z.rem d Second)) (ofZ 1000000000)).

(** ** The controller *)

Inductive CongestionControl : Type := CUBIC | NewReno.

Record hystart : Type := mkHy {
  started : bool;
  roundEnd : Z;
  curMin : Z;
  lastMin : Z;
  samples : Z;
  inCSS : bool;
  cssRounds : Z;
  baseline : Z;
  hyGrown : float
}.

(** The state of CUBIC. *)
Record cubic : Type := mkCubic { wMax : float; cwndPrior : float; wEst : float; grown : float; epoch : option Z; k : float }.

Record congestion : Type := mkCC {
  algo : CongestionControl;
  maxDatagramSize : Z;
  cwnd : Z;
  ssthresh : Z;
  bytesInFlight : Z;
  recoveryStart : option Z;
  hy : hystart;
  cub : cubic
}.

Definition set_cwnd (cc : congestion) (x : Z) : congestion := mkCC (algo cc) (maxDatagramSize cc) x (ssthresh cc) (bytesInFlight cc) (recoveryStart cc) (hy cc) (cub cc).
Definition set_ssthresh (cc : congestion) (x : Z) : congestion := mkCC (algo cc) (maxDatagramSize cc) (cwnd cc) x (bytesInFlight cc) (recoveryStart cc) (hy cc) (cub cc).
Definition set_flight (cc : congestion) (x : Z) : congestion := mkCC (algo cc) (maxDatagramSize cc) (cwnd cc) (ssthresh cc) x (recoveryStart cc) (hy cc) (cub cc).
Definition set_recovery (cc : congestion) (x : option Z) : congestion := mkCC (algo cc) (maxDatagramSize cc) (cwnd cc) (ssthresh cc) (bytesInFlight cc) x (hy cc) (cub cc).
Definition set_hy (cc : congestion) (x : hystart) : congestion := mkCC (algo cc) (maxDatagramSize cc) (cwnd cc) (ssthresh cc) (bytesInFlight cc) (recoveryStart cc) x (cub cc).
Definition set_cub (cc : congestion) (x : cubic) : congestion := mkCC (algo cc) (maxDatagramSize cc) (cwnd cc) (ssthresh cc) (bytesInFlight cc) (recoveryStart cc) (hy cc) x.

Definition maxDatagram : Z := 1200.
Definition noThreshold : Z := 2 ^ 64 - 1.

Definition datagramSize (size : Z) : Z := Z.max size maxDatagram.
Definition initialWindow (size : Z) : Z := let mds := datagramSize size in Z.min (10 * mds) (Z.max (2 * mds) 14720).
Definition minWindow (size : Z) : Z := 2 * datagramSize size.

Definition noHystart : hystart := mkHy false 0 0 0 0 false 0 0 fzero.
Definition noCubic : cubic := mkCubic fzero fzero fzero fzero None fzero.

Definition newCongestion (a : CongestionControl) (size : Z) : congestion :=
  let size := datagramSize size in mkCC a size (initialWindow size) noThreshold 0 None noHystart noCubic.

Definition resetPath (cc : congestion) (now : Z) (size : Z) : congestion :=
  let size := datagramSize size in mkCC (algo cc) size (initialWindow size) noThreshold (bytesInFlight cc) (Some now) noHystart noCubic.

Definition setMaxDatagramSize (cc : congestion) (size : Z) : congestion :=
  let size := datagramSize size in
  let cc := mkCC (algo cc) size (cwnd cc) (ssthresh cc) (bytesInFlight cc) (recoveryStart cc) (hy cc) (cub cc) in
  if cwnd cc <? minWindow size then set_cwnd cc (minWindow size) else cc.

Definition canSend (cc : congestion) : bool := u64 (bytesInFlight cc + maxDatagramSize cc) <=? cwnd cc.

Definition maxBurstLimited : Z := 3.

Definition limited (cc : congestion) (prior : Z) (paced : bool) : bool :=
  if paced || (cwnd cc <=? u64 (prior + u64 (maxBurstLimited * maxDatagramSize cc))) then true
  else (cwnd cc <? ssthresh cc) && (cwnd cc / 2 <? prior).

(** *** HyStart++ *)

Definition hystartSamples : Z := 8.
Definition hystartDivisor : Z := 8.
Definition hystartGrowthDivisor : Z := 4.
Definition hystartRounds : Z := 5.
Definition hystartMinThresh : Z := 4 * Millisecond.
Definition hystartMaxThresh : Z := 16 * Millisecond.

Definition hystartThreshold (last : Z) : Z := Z.max hystartMinThresh (Z.min (Z.quot last hystartDivisor) hystartMaxThresh).

Definition hystartExit (cc : congestion) : congestion :=
  let h := hy cc in
  let cc := set_hy cc (mkHy (started h) (roundEnd h) (curMin h) (lastMin h) (samples h) false (cssRounds h) (baseline h) (hyGrown h)) in
  let cc := set_ssthresh cc (cwnd cc) in
  match algo cc with
  | NewReno => cc
  | CUBIC => let w := ofZ (cwnd cc) in set_cub cc (mkCubic w w w fzero None fzero)
  end.

(** A round that [largest] ends, and whether slow start ends with it. *)
Definition hystartRound (h : hystart) (largest nextPN : Z) : hystart * bool :=
  let h := if started h then h else mkHy true (nextPN - 1) (curMin h) (lastMin h) (samples h) (inCSS h) (cssRounds h) (baseline h) (hyGrown h) in
  if roundEnd h <=? largest then
    let h := mkHy (started h) (nextPN - 1) 0 (curMin h) 0 (inCSS h) (cssRounds h) (baseline h) (hyGrown h) in
    if inCSS h then
      let h := mkHy (started h) (roundEnd h) (curMin h) (lastMin h) (samples h) (inCSS h) (cssRounds h + 1) (baseline h) (hyGrown h) in
      (h, hystartRounds <? cssRounds h)
    else (h, false)
  else (h, false).

(** A sample of the round. *)
Definition hystartSample (h : hystart) (rtt : Z) : hystart :=
  let h := if (curMin h =? 0) || (rtt <? curMin h) then mkHy (started h) (roundEnd h) rtt (lastMin h) (samples h) (inCSS h) (cssRounds h) (baseline h) (hyGrown h) else h in
  let h := mkHy (started h) (roundEnd h) (curMin h) (lastMin h) (samples h + 1) (inCSS h) (cssRounds h) (baseline h) (hyGrown h) in
  if samples h <? hystartSamples then h
  else if inCSS h then
    if negb (baseline h =? 0) && (curMin h <? baseline h) then mkHy (started h) (roundEnd h) (curMin h) (lastMin h) (samples h) false (cssRounds h) 0 (hyGrown h) else h
  else if lastMin h =? 0 then h
  else if lastMin h + hystartThreshold (lastMin h) <=? curMin h then mkHy (started h) (roundEnd h) (curMin h) (lastMin h) (samples h) true 1 (curMin h) fzero
  else h.

Definition hystartAck (cc : congestion) (rtt : Z) (sampled : bool) (largest nextPN : Z) : congestion :=
  if negb (ssthresh cc =? noThreshold) || (ssthresh cc <=? cwnd cc) || (nextPN =? 0) then cc
  else
    let '(h, exit) := hystartRound (hy cc) largest nextPN in
    let cc := set_hy cc h in
    if exit then hystartExit cc
    else if negb sampled then cc
    else set_hy cc (hystartSample h rtt).

(** *** CUBIC *)

Definition cubicC : float := fconst 4 10.
Definition cubicBeta : float := fconst 7 10.
(** [3 * (1 - 0.7) / (1 + 0.7)], and [1 + 0.7]. *)
Definition cubicAlpha : float := fconst 9 17.
Definition onePlusBeta : float := fconst 17 10.

Definition cubicTarget (cc : congestion) (t : float) : float :=
  let d := fsub t (k (cub cc)) in
  fadd (fmul (fmul (fmul (fmul cubicC (ofZ (maxDatagramSize cc))) d) d) d) (wMax (cub cc)).

Section Cubic.
(** math.Cbrt. *)
Context (Cbrt : float -> float).

(** The stage of congestion avoidance, started at its first acknowledgement. *)
Definition cubicStage (cc : congestion) (now : Z) : congestion :=
  let w := ofZ (cwnd cc) in
  let c := cub cc in
  match epoch c with
  | Some _ => cc
  | None =>
      set_cub cc (if fleb (wMax c) w then mkCubic w (cwndPrior c) w (grown c) (Some now) fzero
                  else mkCubic (wMax c) (cwndPrior c) w (grown c) (Some now) (Cbrt (fdiv (fsub (wMax c) w) (fmul cubicC (ofZ (maxDatagramSize cc))))))
  end.

Definition cubicAcked (cc : congestion) (acked : float) (now rtt : Z) : congestion :=
  let w := ofZ (cwnd cc) in
  let cc := cubicStage cc now in
  let c := cub cc in
  let t := Seconds (now - default 0 (epoch c)) in
  let alpha := if fleb (cwndPrior c) (wEst c) then ofZ 1 else cubicAlpha in
  let est := fadd (wEst c) (fdiv (fmul (fmul alpha (ofZ (maxDatagramSize cc))) acked) w) in
  let cc := set_cub cc (mkCubic (wMax c) (cwndPrior c) est (grown c) (epoch c) (k c)) in
  let grow :=
    if fltb (cubicTarget cc t) est then fsub est w
    else
      let target := fmin (fmax (cubicTarget cc (fadd t (Seconds rtt))) w) (fmul (fconst 3 2) w) in
      fdiv (fmul (fsub target w) acked) w in
  if fleb grow fzero then cc
  else
    let c := cub cc in
    let g := fadd (grown c) grow in
    let whole := floor g in
    let cc := set_cwnd cc (u64 (cwnd cc + toU64 whole)) in
    set_cub cc (mkCubic (wMax c) (cwndPrior c) (wEst c) (fsub g whole) (epoch c) (k c)).

(** *** What is heard of packets *)

(** A packet in flight of [size] bytes, sent at [time]. *)
Definition onAcked (cc : congestion) (size time : Z) (now rtt : Z) (lim : bool) : congestion :=
  let cc := set_flight cc (u64 (bytesInFlight cc - size)) in
  if negb (After time (recoveryStart cc)) then cc
  else if negb lim then let c := cub cc in set_cub cc (mkCubic (wMax c) (cwndPrior c) (wEst c) (grown c) None (k c))
  else if cwnd cc <? ssthresh cc then
    if inCSS (hy cc) then
      let h := hy cc in
      let g := fadd (hyGrown h) (fdiv (ofZ size) (ofZ hystartGrowthDivisor)) in
      let whole := floor g in
      let cc := set_cwnd cc (u64 (cwnd cc + toU64 whole)) in
      set_hy cc (mkHy (started h) (roundEnd h) (curMin h) (lastMin h) (samples h) (inCSS h) (cssRounds h) (baseline h) (fsub g whole))
    else set_cwnd cc (u64 (cwnd cc + size))
  else
    match algo cc with
    | NewReno => set_cwnd cc (u64 (cwnd cc + u64 (maxDatagramSize cc * size) / cwnd cc))
    | CUBIC => cubicAcked cc (ofZ size) now rtt
    end.

End Cubic.

Definition onCongestion (cc : congestion) (sent now : Z) : congestion :=
  if negb (After sent (recoveryStart cc)) then cc
  else
    let cc := set_recovery cc (Some now) in
    match algo cc with
    | NewReno =>
        let cc := set_ssthresh cc (Z.max (cwnd cc / 2) (minWindow (maxDatagramSize cc))) in
        set_cwnd cc (ssthresh cc)
    | CUBIC =>
        let w := ofZ (cwnd cc) in
        let c := cub cc in
        let top := if fltb w (wMax c) then fdiv (fmul w onePlusBeta) (ofZ 2) else w in
        let cc := set_ssthresh cc (Z.max (toU64 (fmul w cubicBeta)) (minWindow (maxDatagramSize cc))) in
        let cc := set_cwnd cc (ssthresh cc) in
        set_cub cc (mkCubic top w (wEst c) fzero None (k c))
    end.

Definition onPersistentCongestion (cc : congestion) : congestion :=
  let cc := set_cwnd cc (minWindow (maxDatagramSize cc)) in
  let cc := set_recovery cc None in
  let c := cub cc in
  set_cub cc (mkCubic fzero (cwndPrior c) (wEst c) fzero None (k c)).

(** ** The quarters of HyStart++ *)

#[export] Instance float_eq_dec : EqDecision float.
Proof. unfold EqDecision, float, Decision. decide equality; auto using decide; [apply bool_eq_dec..|apply Z.eq_dec|apply Pos.eq_dec|apply bool_eq_dec]. Defined.

(** A number of quarters. *)
Definition quarters (q : Z) : float := fdiv (ofZ q) (ofZ 4).

(** What the conservative phase does to its fraction and to the window, decided. *)
Definition quarter_ok (q size : Z) : bool :=
  let g := fadd (quarters q) (fdiv (ofZ size) (ofZ hystartGrowthDivisor)) in
  (toU64 (floor g) =? (q + size) / 4) && bool_decide (fsub g (floor g) = quarters ((q + size) mod 4)).

Lemma quarter_table : forallb (fun size => forallb (fun q => quarter_ok q size) [0; 1; 2; 3]) (seqZ 0 2048) = true.
Proof. vm_compute. reflexivity. Qed.

(** float64 counts them without an error, in packets of a datagram. *)
Lemma quarter_exact q size : 0 <= q < 4 -> 0 <= size < 2048 ->
  let g := fadd (quarters q) (fdiv (ofZ size) (ofZ hystartGrowthDivisor)) in toU64 (floor g) = (q + size) / 4 /\ fsub g (floor g) = quarters ((q + size) mod 4).
Proof.
  intros Hq Hs. pose proof quarter_table as H. rewrite forallb_forall in H. specialize (H size). rewrite forallb_forall in H. specialize (H ltac:(apply list_elem_of_In, elem_of_seqZ; lia) q ltac:(cbn; lia)). unfold quarter_ok in H. apply andb_true_iff in H as [H1 H2]. apply Z.eqb_eq in H1. apply bool_decide_eq_true in H2. now split.
Qed.

(** ** The window of NewReno *)

Inductive cop : Type :=
  | Acks (size time now rtt : Z) (lim : bool)
  | Congested (sent now : Z)
  | Persistent
  | SetSize (size : Z)
  | NewPath (now size : Z)
  | Hears (rtt : Z) (sampled : bool) (largest nextPN : Z).

Section Runs.
Context (Cbrt : float -> float).

Definition cstep (cc : congestion) (o : cop) : congestion :=
  match o with
  | Acks size time now rtt lim => onAcked Cbrt cc size time now rtt lim
  | Congested sent now => onCongestion cc sent now
  | Persistent => onPersistentCongestion cc
  | SetSize size => setMaxDatagramSize cc size
  | NewPath now size => resetPath cc now size
  | Hears rtt sampled largest nextPN => hystartAck cc rtt sampled largest nextPN
  end.

Definition ackedBytes (o : cop) : Z := match o with Acks size _ _ _ _ => size | _ => 0 end.
Definition totalAcked (ops : list cop) : Z := foldr (fun o n => ackedBytes o + n) 0 ops.

(** Datagrams are of less than 2048 bytes. *)
Definition cop_ok (o : cop) : Prop := match o with Acks size _ _ _ _ => 0 <= size < 2048 | SetSize size | NewPath _ size => size < 2048 | _ => True end.

Record reno (cc : congestion) (total : Z) : Prop := {
  re_algo : algo cc = NewReno;
  re_size : maxDatagram <= maxDatagramSize cc < 2048;
  re_low : 2 * maxDatagramSize cc <= cwnd cc;
  re_high : cwnd cc <= 14720 + total;
  re_quarters : exists q, 0 <= q < 4 /\ hyGrown (hy cc) = quarters q
}.

Lemma minWindow_size size : maxDatagram <= size -> minWindow size = 2 * size.
Proof. intros H. unfold minWindow, datagramSize. lia. Qed.

Lemma reno_more cc total total' : reno cc total -> total <= total' -> reno cc total'.
Proof. intros [H1 H2 H3 H4 H5] Ht. split; auto. lia. Qed.

Lemma reno_acked cc total size time now rtt lim : reno cc total -> 0 <= size < 2048 -> 14720 + total + size < 2 ^ 64 -> reno (onAcked Cbrt cc size time now rtt lim) (total + size).
Proof.
  intros Hr Hs Ht. pose proof Hr as [R1 R2 R3 R4 R5]. unfold maxDatagram in R2. unfold onAcked. cbn [set_flight recoveryStart cwnd ssthresh hy algo maxDatagramSize].
  assert (reno (set_flight cc (u64 (bytesInFlight cc - size))) (total + size)) as H0 by (apply (reno_more _ total); [now split|lia]).
  destruct (negb (After time _)); [exact H0|]. destruct (negb lim); [now destruct H0|]. destruct (cwnd cc <? ssthresh cc).
  - destruct (inCSS (hy cc)); [|split; cbn -[Z.mul u64]; auto; unfold maxDatagram; rewrite ?u64_id by lia; lia]. destruct R5 as (q & Hq & ->). destruct (quarter_exact q size Hq Hs) as [-> E2]. pose proof (Z.mod_pos_bound (q + size) 4 ltac:(lia)) as Hmod. pose proof (Z.div_mod (q + size) 4 ltac:(lia)) as Hdiv.
    split; cbn -[Z.mul u64]; auto; unfold maxDatagram; [rewrite ?u64_id by lia; lia..|]. exists ((q + size) mod 4). now split.
  - rewrite R1. assert (0 <= maxDatagramSize cc * size < 2 ^ 64) as Hm by nia. rewrite (u64_id _ Hm). assert (0 <= maxDatagramSize cc * size / cwnd cc <= size) as Hg by (split; [apply Z.div_pos; lia|apply Z.div_le_upper_bound; nia]).
    split; cbn -[Z.mul u64]; auto; unfold maxDatagram; rewrite ?u64_id by lia; lia.
Qed.

Lemma reno_congested cc total sent now : reno cc total -> 0 <= total -> reno (onCongestion cc sent now) total.
Proof.
  intros Hr Ht. pose proof Hr as [R1 R2 R3 R4 R5]. unfold onCongestion. cbn [set_recovery algo]. destruct (negb _); [exact Hr|]. rewrite R1. split; cbn; auto; rewrite minWindow_size by lia; unfold maxDatagram in R2; Z.div_mod_to_equations; lia.
Qed.

Lemma reno_heard cc total rtt sampled largest nextPN : reno cc total -> reno (hystartAck cc rtt sampled largest nextPN) total.
Proof.
  intros Hr. pose proof Hr as [R1 R2 R3 R4 (q & Hq & Eq)]. unfold hystartAck. destruct (_ || _); [exact Hr|]. destruct (hystartRound (hy cc) largest nextPN) as [h exit] eqn:Eh. assert (hyGrown h = quarters q) as E1 by (unfold hystartRound in Eh; repeat case_match; injection Eh as <- _; exact Eq).
  assert (reno (set_hy cc h) total) as H1 by (split; cbn; eauto). destruct exit; [unfold hystartExit; cbn [set_hy algo set_ssthresh]; rewrite R1; split; cbn; eauto|]. destruct (negb sampled); [exact H1|]. split; cbn; auto.
  assert (hyGrown (hystartSample h rtt) = quarters q \/ hyGrown (hystartSample h rtt) = quarters 0) as [->| ->]; [unfold hystartSample; repeat case_match; cbn; auto|now exists q|exists 0; split; [lia|reflexivity]].
Qed.

Lemma reno_fresh size bif rec : size < 2048 -> forall total, 0 <= total -> reno (mkCC NewReno (datagramSize size) (initialWindow (datagramSize size)) noThreshold bif rec noHystart noCubic) total.
Proof.
  intros Hs total Ht. unfold initialWindow, datagramSize, maxDatagram in *. split; cbn; auto; unfold maxDatagram; try lia. exists 0. split; [lia|reflexivity].
Qed.

Lemma reno_step cc total o : reno cc total -> 0 <= total -> cop_ok o -> 14720 + total + ackedBytes o < 2 ^ 64 -> reno (cstep cc o) (total + ackedBytes o).
Proof.
  intros Hr Ht Ho Hb. pose proof Hr as [R1 R2 R3 R4 R5]. destruct o as [size time now rtt lim|sent now| |size|now size|rtt sampled largest nextPN]; cbn [cstep cop_ok ackedBytes] in *; rewrite ?Z.add_0_r.
  - now apply reno_acked.
  - now apply reno_congested.
  - split; cbn; auto; rewrite minWindow_size by lia; unfold maxDatagram in *; lia.
  - unfold setMaxDatagramSize. cbn [cwnd]. assert (maxDatagram <= datagramSize size < 2048) as Hd by (unfold datagramSize, maxDatagram; lia). rewrite minWindow_size by lia. unfold maxDatagram in *. destruct (Z.ltb_spec (cwnd cc) (2 * datagramSize size)); split; cbn; auto; unfold maxDatagram; lia.
  - unfold resetPath. rewrite R1. now apply reno_fresh.
  - now apply reno_heard.
Qed.

(** C25: a NewReno window, whatever is acknowledged and lost and however the path and its datagrams change, is never
    smaller than two datagrams of the path's size, never larger than the largest it starts with and the bytes
    acknowledged since, and so never wraps around. *)
Theorem newreno_window ops size : size < 2048 -> Forall cop_ok ops -> 14720 + totalAcked ops < 2 ^ 64 ->
  let cc := foldl cstep (newCongestion NewReno size) ops in minWindow (maxDatagramSize cc) <= cwnd cc <= 14720 + totalAcked ops.
Proof.
  intros Hs Ho Hb. assert (forall ops cc total, Forall cop_ok ops -> reno cc total -> 0 <= total -> 14720 + total + totalAcked ops < 2 ^ 64 -> reno (foldl cstep cc ops) (total + totalAcked ops)) as H.
  { clear. induction ops as [|o ops IH]; intros cc total Ho Hr Ht Hb; cbn [foldl totalAcked foldr]; [now rewrite Z.add_0_r|]. inversion Ho as [|? ? H1 H2]; subst. fold (totalAcked ops) in *. cbn [totalAcked foldr] in Hb. fold (totalAcked ops) in Hb. rewrite Z.add_assoc.
    assert (0 <= ackedBytes o /\ 0 <= totalAcked ops) as [P1 P2]. { assert (forall o, cop_ok o -> 0 <= ackedBytes o) as P by (intros []; cbn; lia). split; [auto|]. clear -H2 P. induction H2 as [|x l Hx _ IHl]; cbn; [lia|]. fold (totalAcked l). specialize (P x Hx). lia. }
    apply IH; auto; [apply reno_step; auto; lia|lia|lia]. }
  destruct (H ops _ 0 Ho (reno_fresh size 0 None Hs 0 ltac:(lia)) ltac:(lia) ltac:(lia)) as [_ R2 R3 R4 _]. cbv zeta. rewrite minWindow_size by apply R2. change (newCongestion NewReno size) with (mkCC NewReno (datagramSize size) (initialWindow (datagramSize size)) noThreshold 0 None noHystart noCubic). lia.
Qed.

(** ** A round trip *)

(** Acknowledgements of packets of a round, each its size and when it was sent. *)
Definition acks (cc : congestion) (now rtt : Z) (ps : list (Z * Z)) : congestion := foldl (fun cc p => onAcked Cbrt cc p.1 p.2 now rtt true) cc ps.
Definition sizes (ps : list (Z * Z)) : Z := foldr (fun p n => p.1 + n) 0 ps.

Lemma sizes_nonneg ps : Forall (fun p => 0 <= p.1 < 2 ^ 32) ps -> 0 <= sizes ps.
Proof. induction 1 as [|p ps Hp _ IH]; cbn; [lia|]. fold (sizes ps). lia. Qed.

Lemma acks_round ps cc now rtt w :
  algo cc = NewReno -> ssthresh cc <= cwnd cc -> 0 <= maxDatagramSize cc < 2 ^ 31 -> 0 < w <= cwnd cc -> cwnd cc + maxDatagramSize cc * sizes ps / w < 2 ^ 64 -> Forall (fun p => 0 <= p.1 < 2 ^ 32) ps ->
  cwnd cc <= cwnd (acks cc now rtt ps) <= cwnd cc + maxDatagramSize cc * sizes ps / w.
Proof.
  revert cc. induction ps as [|[size time] ps IH]; intros cc Ha Hss Hm Hw Hb Hp; [cbn; rewrite Z.mul_0_r, Z.div_0_l by lia; lia|]. inversion Hp as [|? ? H1 H2]; subst. cbn [fst] in H1. pose proof (sizes_nonneg ps H2) as H0. cbn [acks foldl sizes foldr fst snd] in *. fold (sizes ps) in *.
  set (a := maxDatagramSize cc * size). set (b := maxDatagramSize cc * sizes ps). replace (maxDatagramSize cc * (size + sizes ps)) with (a + b) in * by (unfold a, b; lia). assert (0 <= a < 2 ^ 64 /\ 0 <= b) as [Ha0 Hb0] by (unfold a, b; nia).
  assert (0 <= a / cwnd cc /\ 0 <= b / w /\ a / cwnd cc + b / w <= (a + b) / w) as (D1 & D2 & D3).
  { split; [apply Z.div_pos; lia|]. split; [apply Z.div_pos; lia|]. assert (a / cwnd cc <= a / w) by (apply Z.div_le_compat_l; lia). assert (a / w + b / w <= (a + b) / w); [|lia]. apply Z.div_le_lower_bound; [lia|]. pose proof (Z.mul_div_le a w ltac:(lia)). pose proof (Z.mul_div_le b w ltac:(lia)). lia. }
  set (cc1 := onAcked Cbrt cc size time now rtt true).
  assert (algo cc1 = NewReno /\ ssthresh cc1 = ssthresh cc /\ maxDatagramSize cc1 = maxDatagramSize cc /\ cwnd cc <= cwnd cc1 <= cwnd cc + a / cwnd cc) as (E1 & E2 & E3 & E4).
  { unfold cc1, onAcked. cbn [set_flight recoveryStart cwnd ssthresh hy algo maxDatagramSize negb]. destruct (negb (After time _)); [cbn; splits; auto; lia|]. rewrite (proj2 (Z.ltb_ge (cwnd cc) (ssthresh cc))) by lia. rewrite Ha. fold a. rewrite (u64_id a) by lia. cbn. rewrite u64_id by lia. splits; auto; lia. }
  destruct (IH cc1) as [I1 I2]; rewrite ?E2, ?E3; auto; fold b; try lia. rewrite E3 in I2. fold b in I2. unfold acks in *. lia.
Qed.

(** Out of slow start, the acknowledgements of a window's worth of bytes, a round trip's, grow a NewReno window
    by a datagram at most, and never shrink it. *)
Theorem newreno_round cc now rtt ps :
  algo cc = NewReno -> ssthresh cc <= cwnd cc -> 0 <= maxDatagramSize cc < 2 ^ 31 -> 0 < cwnd cc < 2 ^ 63 -> Forall (fun p => 0 <= p.1 < 2 ^ 32) ps -> sizes ps <= cwnd cc ->
  cwnd cc <= cwnd (acks cc now rtt ps) <= cwnd cc + maxDatagramSize cc.
Proof.
  intros Ha Hs Hm Hw Hp Hsum. assert (0 <= maxDatagramSize cc * sizes ps / cwnd cc <= maxDatagramSize cc) as Hd. { pose proof (sizes_nonneg ps Hp). split; [apply Z.div_pos; nia|]. apply Z.div_le_upper_bound; nia. }
  pose proof (acks_round ps cc now rtt (cwnd cc) Ha Hs Hm ltac:(lia) ltac:(lia) Hp). lia.
Qed.

(** ** A recovery period *)

(** News of packets sent up to [t]. *)
Definition upTo (t : Z) (o : cop) : Prop := match o with Acks _ time _ _ _ => time <= t | Congested sent _ => sent <= t | Hears _ _ _ _ => True | _ => False end.

Lemma in_recovery t cc o : recoveryStart cc = Some t -> ssthresh cc <> noThreshold -> upTo t o -> let cc' := cstep cc o in recoveryStart cc' = Some t /\ ssthresh cc' = ssthresh cc /\ cwnd cc' = cwnd cc.
Proof.
  intros Hr Hs Ho. destruct o as [size time now rtt lim|sent now| | | |rtt sampled largest nextPN]; cbn [upTo cstep] in *; try contradiction.
  - unfold onAcked. cbn [set_flight recoveryStart]. rewrite Hr. cbn [After]. rewrite (proj2 (Z.ltb_ge t time)) by lia. auto.
  - unfold onCongestion. rewrite Hr. cbn [After]. rewrite (proj2 (Z.ltb_ge t sent)) by lia. auto.
  - unfold hystartAck. rewrite (proj2 (Z.eqb_neq _ _) Hs). auto.
Qed.

(** C26: of both algorithms, a loss that starts a recovery period leaves a window of two datagrams at least, and until
    the period is over, whatever more is heard of packets sent before it began neither shrinks the window again nor
    grows it. *)
Theorem one_reduction cc sent now ops :
  After sent (recoveryStart cc) = true -> Forall (upTo now) ops -> let cc1 := onCongestion cc sent now in
  ssthresh cc1 <> noThreshold -> minWindow (maxDatagramSize cc) <= cwnd cc1 /\ cwnd (foldl cstep cc1 ops) = cwnd cc1.
Proof.
  intros Hs Ho cc1 Hss. assert (recoveryStart cc1 = Some now /\ minWindow (maxDatagramSize cc) <= cwnd cc1) as [Hr Hm] by (unfold cc1, onCongestion; rewrite Hs; cbn [negb set_recovery algo]; destruct (algo cc); (split; [reflexivity|cbn -[minWindow Z.max]; lia])). split; [exact Hm|].
  clearbody cc1. clear Hm Hs. revert cc1 Hr Hss. induction Ho as [|o ops Ho _ IH]; intros c Hr Hss; [reflexivity|]. cbn [foldl]. destruct (in_recovery now c o Hr Hss Ho) as (E1 & E2 & E3). rewrite IH; congruence.
Qed.

End Runs.

(** ** Witnesses *)

Definition noCbrt (x : float) : float := x.

(** Slow start, its conservative phase, a loss, and congestion avoidance. *)
Definition ride : list cop :=
  [Acks 1200 5 10 9 true; Acks 1201 6 11 9 true; Hears 5 true 3 4; Congested 7 20; Acks 1200 8 30 9 true; Acks 1200 21 40 9 true; SetSize 1452; Persistent; Acks 1452 42 50 9 true; NewPath 60 1200].

Lemma newreno_window_witness : let cc := foldl (cstep noCbrt) (newCongestion NewReno 1200) ride in minWindow (maxDatagramSize cc) <= cwnd cc <= 14720 + totalAcked ride.
Proof. apply (newreno_window noCbrt ride 1200); [lia|repeat (apply List.Forall_cons; [cbn; lia|]); apply List.Forall_nil|vm_compute; reflexivity]. Defined.

Definition avoiding (a : CongestionControl) : congestion := set_ssthresh (newCongestion a 1200) 12000.

Lemma newreno_round_witness : cwnd (avoiding NewReno) <= cwnd (acks noCbrt (avoiding NewReno) 50 9 [(1200, 40); (1200, 41); (9600, 42)]) <= cwnd (avoiding NewReno) + maxDatagramSize (avoiding NewReno).
Proof. refine (newreno_round noCbrt (avoiding NewReno) 50 9 [(1200, 40); (1200, 41); (9600, 42)] _ _ _ _ _ _); [reflexivity|vm_compute; intuition discriminate..| |vm_compute; intuition discriminate]. repeat (apply List.Forall_cons; [cbn; lia|]). apply List.Forall_nil. Defined.

(** The window of CUBIC after a loss, of 12000 bytes. *)
Example cubic_reduction : cwnd (onCongestion (avoiding CUBIC) 5 10) = 8400.
Proof. vm_compute. reflexivity. Qed.

Lemma one_reduction_witness :
  minWindow (maxDatagramSize (avoiding CUBIC)) <= cwnd (onCongestion (avoiding CUBIC) 5 10) /\ cwnd (foldl (cstep noCbrt) (onCongestion (avoiding CUBIC) 5 10) [Acks 1200 9 12 5 true; Congested 10 12]) = cwnd (onCongestion (avoiding CUBIC) 5 10).
Proof. apply (one_reduction noCbrt (avoiding CUBIC) 5 10); [reflexivity|repeat (apply List.Forall_cons; [cbn; lia|]); apply List.Forall_nil|vm_compute; discriminate]. Defined.

End Cong.
