(* ===== verification/QuicMtu.v ===== *)
(** * Path MTU discovery of QUIC (src/http3/quic/pmtud.go)

    The sizes of datagrams a path carries, searched for with probes, and given up
    when large packets no longer get through. *)

From S2P Require Import Prelude QuicSent QuicCongestion.
From stdpp Require Import base list numbers.
From Stdlib Require Import ZArith Lia.

Local Open Scope Z_scope.

Module Mtu.
Import Sent Cong.

(** ** Operations *)

Definition mtuProbeAttempts : Z := 3.
Definition mtuSearchStep : Z := 20.
Definition mtuRaiseInterval : Z := 10 * (60 * Second).
Definition mtuBlackHoleWait : Z := 60 * Second.
Definition mtuBlackHoleLosses : Z := 3.
Definition maxDatagramLimit : Z := 1472.
Definition maxDatagramIPv6 : Z := 1452.

(** The address of the peer: an UDPAddr, which may be a nil pointer and may hold an
    IPv4 address, or another with the name of its network. *)
Inductive netAddr : Type := UDPAddr (isNil to4 : bool) | OtherAddr (network : bytes).

Definition maxDatagramFor (remote : option netAddr) : Z :=
  match remote with
  | Some (UDPAddr isNil to4) => if negb isNil && to4 then maxDatagramLimit else maxDatagramIPv6
  | Some (OtherAddr network) => if decide (network = str "udp4") then maxDatagramLimit else maxDatagramIPv6
  | None => maxDatagramIPv6
  end.

Record mtuState : Type := mkMtu {
  on : bool;
  limit : Z;
  lo : Z;
  hi : Z;
  probe : Z;
  at_ : option Z;
  inFlight : bool;
  probePN : Z;
  fails : Z;
  largeAcked : option Z;
  largeLost : Z
}.

(** What discovery has to do with of a connection: the address of its peer, its
    largest datagram and the controller. *)
Record path : Type := mkPath { remote : option netAddr; mtu : mtuState; largest : Z; cc : congestion; wantFlush : bool }.

Definition set_mtu (c : path) (m : mtuState) : path := mkPath (remote c) m (largest c) (cc c) (wantFlush c).
Definition set_cc (c : path) (x : congestion) : path := mkPath (remote c) (mtu c) (largest c) x (wantFlush c).
Definition flush (c : path) : path := mkPath (remote c) (mtu c) (largest c) (cc c) true.

Definition idle (now : option Z) : mtuState := mkMtu false 0 0 0 0 None false 0 0 now 0.

Definition setMaxDatagramLocked (c : path) (size : Z) : path :=
  let size := Z.min size (maxDatagramFor (remote c)) in mkPath (remote c) (mtu c) size (setMaxDatagramSize (cc c) size) (wantFlush c).

(** [maxUDP] is the peer's limit, once its parameters are known, and [df] whether the
    path agrees not to fragment. *)
Definition startMTUDiscoveryLocked (c : path) (disabled : bool) (maxUDP : option Z) (confirmed : bool) (maxProbe : Z) (df : bool) (now : Z) : path :=
  let c := set_mtu c (idle (Some now)) in
  match maxUDP with
  | None => c
  | Some maxUDP =>
      if disabled || negb confirmed then c
      else
        let limit := Z.min (Z.min maxProbe maxUDP) (maxDatagramFor (remote c)) in
        if limit <=? largest c then c
        else if negb df then c
        else flush (set_mtu c (mkMtu true limit (largest c) (limit + 1) limit None false 0 0 (Some now) 0))
  end.

Definition stopMTUDiscoveryLocked (c : path) (now : Z) : path := set_mtu c (idle (Some now)).

(** [ready] is that the path is validated, the keys are there and the connection is
    not closing, and [paced] what the pacer says. *)
Definition mtuProbeDue (c : path) (ready paced : bool) (now : Z) : Z :=
  let m := mtu c in
  if negb (on m) || (probe m =? 0) || inFlight m || match at_ m with Some t => now <? t | None => false end then 0
  else if negb ready then 0
  else if (cwnd (cc c) <? u64 (bytesInFlight (cc c) + probe m)) || negb paced then 0
  else probe m.

Definition mtuProbeTimer (c : path) : option Z := let m := mtu c in if on m && (0 <? probe m) && negb (inFlight m) then at_ m else None.

(** The end of appendMTUProbe: the probe has left as packet [pn]. *)
Definition probeSent (c : path) (pn : Z) : path :=
  let m := mtu c in set_mtu c (mkMtu (on m) (limit m) (lo m) (hi m) (probe m) None true pn (fails m) (largeAcked m) (largeLost m)).

Definition nextMTUProbeLocked (c : path) (now : Z) : path :=
  let m := mtu c in
  if limit m <=? lo m then set_mtu c (mkMtu (on m) (limit m) (lo m) (hi m) 0 (at_ m) (inFlight m) (probePN m) (fails m) (largeAcked m) (largeLost m))
  else if hi m - lo m <? mtuSearchStep then
    set_mtu c (mkMtu (on m) (limit m) (lo m) (limit m + 1) (limit m) (Some (now + mtuRaiseInterval)) (inFlight m) (probePN m) (fails m) (largeAcked m) (largeLost m))
  else flush (set_mtu c (mkMtu (on m) (limit m) (lo m) (hi m) ((lo m + hi m) ÷ 2) None (inFlight m) (probePN m) (fails m) (largeAcked m) (largeLost m))).

Definition mtuAckedLocked (c : path) (p : sentPacket) (now : Z) : path :=
  let m := mtu c in
  let m := if (maxDatagram <? size p) && After (time p) (largeAcked m) then mkMtu (on m) (limit m) (lo m) (hi m) (probe m) (at_ m) (inFlight m) (probePN m) (fails m) (Some (time p)) 0 else m in
  let c := set_mtu c m in
  if negb (mtuProbe p) || negb (inFlight m) || negb (pn p =? probePN m) then c
  else
    let c := set_mtu c (mkMtu (on m) (limit m) (Z.max (lo m) (size p)) (hi m) (probe m) (at_ m) false (probePN m) 0 (largeAcked m) (largeLost m)) in
    let c := setMaxDatagramLocked c (Z.max (largest c) (size p)) in
    nextMTUProbeLocked c now.

Definition mtuLostLocked (c : path) (p : sentPacket) (now : Z) : path :=
  let m := mtu c in
  if mtuProbe p then
    if negb (inFlight m) || negb (pn p =? probePN m) then c
    else
      let m := mkMtu (on m) (limit m) (lo m) (hi m) (probe m) (at_ m) false (probePN m) (fails m + 1) (largeAcked m) (largeLost m) in
      if fails m <? mtuProbeAttempts then flush (set_mtu c m)
      else nextMTUProbeLocked (set_mtu c (mkMtu (on m) (limit m) (lo m) (Z.min (hi m) (size p)) (probe m) (at_ m) (inFlight m) (probePN m) 0 (largeAcked m) (largeLost m))) now
  else if ackEliciting p && (maxDatagram <? size p) && After (time p) (largeAcked m) then
    set_mtu c (mkMtu (on m) (limit m) (lo m) (hi m) (probe m) (at_ m) (inFlight m) (probePN m) (fails m) (largeAcked m) (largeLost m + 1))
  else c.

Definition mtuBlackHoleLocked (c : path) (now : Z) : path :=
  let c := setMaxDatagramLocked c maxDatagram in
  let m := mtu c in
  if negb (on m) then set_mtu c (mkMtu (on m) (limit m) (lo m) (hi m) (probe m) (at_ m) (inFlight m) (probePN m) (fails m) (Some now) 0)
  else set_mtu c (mkMtu (on m) (limit m) maxDatagram (limit m + 1) (limit m) (Some (now + mtuBlackHoleWait)) false (probePN m) 0 (Some now) 0).

Definition mtuCheckBlackHoleLocked (c : path) (now : Z) : path :=
  if (mtuBlackHoleLosses <=? largeLost (mtu c)) && (maxDatagram <? largest c) then mtuBlackHoleLocked c now else c.

(** ** The search *)

(** A path that carries datagrams of up to [M] bytes, and what becomes of a probe of
    it. *)
Definition probeOf (c : path) (k now : Z) : sentPacket := mkSent k 0 now (probe (mtu c)) true true false true [].

Definition attempt (M : Z) (c : path) (k now : Z) : path :=
  let p := probeOf c k now in
  let c := probeSent c k in
  if size p <=? M then mtuAckedLocked c p now else mtuLostLocked c p now.

(** Nothing is to be probed for now. *)
Definition resting (c : path) : bool := (probe (mtu c) =? 0) || match at_ (mtu c) with Some _ => true | None => false end.

Fixpoint search (fuel : nat) (M : Z) (c : path) (k now : Z) : option path :=
  if resting c then Some c else match fuel with O => None | S fuel => search fuel M (attempt M c k now) (k + 1) now end.

(** The search under way: what is carried is between [lo] and [hi]. *)
Record seeking (M : Z) (c : path) : Prop := {
  sk_on : on (mtu c) = true /\ at_ (mtu c) = None;
  sk_limit : maxDatagram <= lo (mtu c) < limit (mtu c) /\ limit (mtu c) <= maxDatagramFor (remote c);
  sk_known : lo (mtu c) <= M /\ Z.min M (limit (mtu c)) < hi (mtu c) <= limit (mtu c) + 1;
  sk_largest : largest c = lo (mtu c) /\ maxDatagramSize (cc c) = lo (mtu c);
  sk_probe : lo (mtu c) < probe (mtu c) < hi (mtu c) /\ probe (mtu c) <= limit (mtu c);
  sk_fails : 0 <= fails (mtu c) < mtuProbeAttempts
}.

(** The search over. *)
Record settled (M : Z) (lim : Z) (c : path) : Prop := {
  se_size : largest c <= Z.min M lim < largest c + mtuSearchStep;
  se_cc : maxDatagramSize (cc c) = largest c
}.

(** Sizes left, in [r] rounds of halving; the first probe asks for all of it. *)
Definition rounds (c : path) (r : Z) : Prop :=
  let m := mtu c in
  probe m = (lo m + hi m) ÷ 2 /\ mtuSearchStep <= hi m - lo m <= 19 * 2 ^ r \/ probe m = limit m /\ 1 <= r /\ hi m = limit m + 1 /\ limit m - lo m <= 19 * 2 ^ (r - 1).

(** A size learnt about. *)
Lemma next_seeking M c now r :
  on (mtu c) = true -> maxDatagram <= lo (mtu c) <= limit (mtu c) -> limit (mtu c) <= maxDatagramFor (remote c) -> lo (mtu c) <= M -> Z.min M (limit (mtu c)) < hi (mtu c) <= limit (mtu c) + 1 -> largest c = lo (mtu c) -> maxDatagramSize (cc c) = lo (mtu c) -> fails (mtu c) = 0 -> hi (mtu c) - lo (mtu c) <= 19 * 2 ^ r -> 0 <= r ->
  let c' := nextMTUProbeLocked c now in resting c' = true /\ settled M (limit (mtu c)) c' \/ resting c' = false /\ seeking M c' /\ rounds c' r /\ limit (mtu c') = limit (mtu c) /\ fails (mtu c') = 0.
Proof.
  intros Hon Hlo Hlim HM Hhi Hl Hcc Hf Hr Hr0. unfold nextMTUProbeLocked, mtuSearchStep. destruct (Z.leb_spec (limit (mtu c)) (lo (mtu c))) as [E1|E1].
  - left. split; [reflexivity|]. split; cbn; unfold mtuSearchStep; lia.
  - destruct (Z.ltb_spec (hi (mtu c) - lo (mtu c)) 20) as [E2|E2].
    + left. split; [unfold resting; cbn; apply orb_true_r|]. split; cbn; unfold mtuSearchStep; lia.
    + right. unfold maxDatagram in Hlo. assert (lo (mtu c) < (lo (mtu c) + hi (mtu c)) ÷ 2 < hi (mtu c)) as Hmid by (rewrite Z.quot_div_nonneg by lia; Z.div_mod_to_equations; lia).
      split; [unfold resting; cbn; rewrite (proj2 (Z.eqb_neq _ 0)) by lia; reflexivity|]. split; [split; cbn; unfold mtuProbeAttempts, maxDatagram; splits; auto; lia|]. split; [left; cbn; unfold mtuSearchStep; lia|auto].
Qed.

(** A probe that gets through, and one that does not. *)
Lemma attempt_hit M c k now : probe (mtu c) <= M ->
  exists la ll, attempt M c k now = nextMTUProbeLocked (setMaxDatagramLocked (set_mtu c (mkMtu (on (mtu c)) (limit (mtu c)) (Z.max (lo (mtu c)) (probe (mtu c))) (hi (mtu c)) (probe (mtu c)) None false k 0 la ll)) (Z.max (largest c) (probe (mtu c)))) now.
Proof.
  intros H. unfold attempt. cbn [probeOf size]. rewrite (proj2 (Z.leb_le _ _) H). unfold mtuAckedLocked. destruct c as [r [] l x w]. cbn -[nextMTUProbeLocked setMaxDatagramLocked Z.max Z.ltb After]. destruct (_ && _); cbn -[nextMTUProbeLocked setMaxDatagramLocked Z.max]; rewrite Z.eqb_refl; eexists _, _; reflexivity.
Qed.

Lemma attempt_miss M c k now : M < probe (mtu c) ->
  attempt M c k now = let m := mtu c in
    if fails m + 1 <? mtuProbeAttempts then flush (set_mtu c (mkMtu (on m) (limit m) (lo m) (hi m) (probe m) None false k (fails m + 1) (largeAcked m) (largeLost m)))
    else nextMTUProbeLocked (set_mtu c (mkMtu (on m) (limit m) (lo m) (Z.min (hi m) (probe m)) (probe m) None false k 0 (largeAcked m) (largeLost m))) now.
Proof.
  intros H. unfold attempt. cbn [probeOf size]. rewrite (proj2 (Z.leb_gt _ _) H). unfold mtuLostLocked. destruct c as [r [] l x w]. cbn -[nextMTUProbeLocked Z.min Z.ltb]. rewrite Z.eqb_refl. reflexivity.
Qed.

(** One probe. *)
Lemma attempt_seeking M c k now r :
  seeking M c -> rounds c r -> 0 <= r -> let c' := attempt M c k now in
  (resting c' = true /\ settled M (limit (mtu c)) c') \/
  resting c' = false /\ seeking M c' /\ limit (mtu c') = limit (mtu c) /\ (fails (mtu c') = fails (mtu c) + 1 /\ rounds c' r \/ 1 <= r /\ fails (mtu c') = 0 /\ rounds c' (r - 1)).
Proof.
  intros [[S1 S2] [S3 S4] [S5 S6] [S7 S8] [S9 S10] S11] Hr Hr0. unfold maxDatagram in *. assert (exists g, 1 <= r /\ 19 * 2 ^ (r - 1) = g /\ (probe (mtu c) <= M -> probe (mtu c) = limit (mtu c) \/ hi (mtu c) - probe (mtu c) <= g) /\ probe (mtu c) - lo (mtu c) <= g) as (g & Hr1 & Hg & Hg1 & Hg2).
  { destruct Hr as [[E1 E2]|(E1 & E2 & E3 & E4)]; [|exists (19 * 2 ^ (r - 1)); splits; auto; try lia; left; exact E1]. unfold mtuSearchStep in E2. destruct (Z.eq_dec r 0) as [->|]; [change (2 ^ 0) with 1 in E2; lia|]. exists (19 * 2 ^ (r - 1)). assert (2 ^ r = 2 * 2 ^ (r - 1)) as E3 by (rewrite <- Z.pow_succ_r by lia; f_equal; lia). rewrite Z.quot_div_nonneg in E1 by lia. splits; try lia; [intros _; right|]; Z.div_mod_to_equations; lia. }
  cbv zeta. destruct (Z.le_gt_cases (probe (mtu c)) M) as [Hhit|Hmiss].
  - destruct (attempt_hit M c k now Hhit) as (la & ll & ->). rewrite (Z.max_r (lo (mtu c))), S7, Z.max_r by lia. unfold setMaxDatagramLocked. cbn [remote set_mtu mtu cc]. rewrite Z.min_l by lia.
    match goal with |- context [nextMTUProbeLocked ?x now] => set (c1 := x) end. assert (maxDatagramSize (cc c1) = probe (mtu c)) as Ecc by (cbn; unfold setMaxDatagramSize, datagramSize, maxDatagram; destruct (_ <? _); cbn; lia).
    assert (hi (mtu c1) - lo (mtu c1) <= 19 * 2 ^ (r - 1)) as Hgap by (cbn; destruct (Hg1 Hhit) as [E|E]; [assert (0 < 2 ^ (r - 1)) by lia|]; lia).
    destruct (next_seeking M c1 now (r - 1)) as [H|(A1 & A2 & A3 & A4 & A5)]; auto; try (cbn; unfold maxDatagram; lia). right. split; [exact A1|]. split; [exact A2|]. split; [exact A4|]. right. split; [exact Hr1|]. now split.
  - rewrite (attempt_miss M c k now Hmiss). unfold mtuProbeAttempts in *. cbv zeta. destruct (Z.ltb_spec (fails (mtu c) + 1) 3) as [Ef|Ef].
    + right. cbn. split; [unfold resting; cbn; rewrite (proj2 (Z.eqb_neq _ 0)) by lia; reflexivity|]. split; [split; cbn; unfold mtuProbeAttempts, maxDatagram; splits; auto; lia|]. split; [reflexivity|]. left. split; [reflexivity|exact Hr].
    + match goal with |- context [nextMTUProbeLocked ?x now] => set (c1 := x) end.
      destruct (next_seeking M c1 now (r - 1)) as [H|(A1 & A2 & A3 & A4 & A5)]; auto; try (cbn; unfold maxDatagram; lia). right. split; [exact A1|]. split; [exact A2|]. split; [exact A4|]. right. split; [exact Hr1|]. now split.
Qed.

Lemma search_settles n : forall M c k now r, seeking M c -> rounds c r -> 0 <= r -> 3 * r - fails (mtu c) <= Z.of_nat n -> resting c = false -> exists c', search n M c k now = Some c' /\ resting c' = true /\ settled M (limit (mtu c)) c'.
Proof.
  induction n as [|n IH]; intros M c k now r Hs Hr Hr0 Hn Hrest; destruct (attempt_seeking M c k now r Hs Hr Hr0) as [[A1 A2]|(A1 & A2 & A3 & A4)]; pose proof (sk_fails _ _ Hs) as Hf; unfold mtuProbeAttempts in Hf.
  - exfalso. destruct Hr as [[_ E]|(_ & E & _)]; [|lia]. unfold mtuSearchStep in E. assert (r = 0) as -> by lia. change (2 ^ 0) with 1 in E. lia.
  - exfalso. destruct A4 as [[A4 _]|(A4 & _)]; [|lia]. destruct Hr as [[_ E]|(_ & E & _)]; [|lia]. unfold mtuSearchStep in E. assert (r = 0) as -> by lia. change (2 ^ 0) with 1 in E. lia.
  - cbn [search]. rewrite Hrest. exists (attempt M c k now). split; [|auto]. destruct n; cbn [search]; now rewrite A1.
  - cbn [search]. rewrite Hrest. rewrite <- A3. destruct A4 as [[A4 A5]|(A4 & A5 & A6)]; [apply (IH _ _ _ _ r)|apply (IH _ _ _ _ (r - 1))]; auto; lia.
Qed.

(** C24: discovery on a path that carries datagrams of up to [M] bytes: within fifteen probes it has settled on a size
    the path carries, less than [mtuSearchStep] bytes below the largest it carries and may be asked for, and the
    congestion controller counts in that size. *)
Theorem mtu_search c maxUDP maxProbe now M k :
  maxDatagram <= largest c <= M -> maxDatagramSize (cc c) = largest c ->
  let lim := Z.min (Z.min maxProbe maxUDP) (maxDatagramFor (remote c)) in
  largest c < lim ->
  exists c', search 15 M (startMTUDiscoveryLocked c false (Some maxUDP) true maxProbe true now) k now = Some c' /\ resting c' = true /\ settled M lim c'.
Proof.
  intros Hl Hcc lim Hlim. unfold startMTUDiscoveryLocked. cbn [orb negb set_mtu remote largest]. fold lim. rewrite (proj2 (Z.leb_gt lim (largest c))) by lia. assert (lim <= 1472) as H72 by (assert (maxDatagramFor (remote c) <= 1472) by (unfold maxDatagramFor, maxDatagramLimit, maxDatagramIPv6; repeat case_match; lia); lia).
  match goal with |- context [search 15 M ?x] => set (c1 := x) end. unfold maxDatagram in Hl. change lim with (limit (mtu c1)). apply (search_settles 15 M c1 k now 5); try (cbn; lia).
  - split; cbn; unfold maxDatagram, mtuProbeAttempts; splits; auto; lia.
  - right. cbn. lia.
  - unfold resting. cbn. rewrite (proj2 (Z.eqb_neq _ 0)) by lia. reflexivity.
Qed.

(** A path over IPv4 that carries 1400 bytes. *)
Definition tunnel : path := mkPath (Some (UDPAddr false true)) (idle None) 1200 (newCongestion CUBIC 1200) false.

Example tunnel_settles : (fun c => (largest c, probe (mtu c))) <$> search 15 1400 (startMTUDiscoveryLocked tunnel false (Some 65527) true 1472 true 0) 0 0 = Some (1387, 1472).
Proof. vm_compute. reflexivity. Qed.

Lemma mtu_search_witness : exists c', search 15 1400 (startMTUDiscoveryLocked tunnel false (Some 65527) true 1472 true 0) 0 0 = Some c' /\ resting c' = true /\ settled 1400 (Z.min (Z.min 1472 65527) (maxDatagramFor (remote tunnel))) c'.
Proof. refine (mtu_search tunnel 65527 1472 0 1400 0 _ _ _); vm_compute; intuition (discriminate || reflexivity). Defined.

End Mtu.
