(* ===== verification/QuicFlow.v ===== *)
(** * Flow control of QUIC streams, received (src/http3/quic/stream.go, conn.go)

    Whatever frames a peer sends and in whatever order, and whatever the
    application does with its streams: the limits given are kept, no counter wraps
    around, and the peer never has more on its way than the windows. *)

From S2P Require Import Prelude QuicVarint QuicRecv QuicStream.
From stdpp Require Import base list numbers gmap.
From Stdlib Require Import ZArith Lia.

Local Open Scope Z_scope.
Local Open Scope go_scope.

Module QFlow.
Import Varint Recv QStream.

(** ** The buffer of any frames *)

(** The buffer with the bytes blanked: two frames of a stream need not agree, and
    where the bytes go does not depend on them. *)
Definition blank (d : bytes) : bytes := (fun _ => 0) <$> d.
Definition erase_seg (s : segment) : segment := mkSeg (seg_off s) (blank (seg_data s)).
Definition erase (r : recvBuffer) : recvBuffer := mkRecv (offset r) (erase_seg <$> segments r) (buffered r).

Lemma blank_len d : len (blank d) = len d.
Proof. unfold len, blank. now rewrite length_fmap. Qed.

Lemma blank_agrees off d : agrees (fun _ => 0) off (blank d).
Proof. intros k x. unfold blank. rewrite list_lookup_fmap. destruct (d !! k); [|discriminate]. now intros [= <-]. Qed.

Lemma blank_drop n d : blank (zdrop n d) = zdrop n (blank d).
Proof. unfold blank, zdrop. now rewrite fmap_drop. Qed.

Lemma blank_take n d : blank (ztake n d) = ztake n (blank d).
Proof. unfold blank, ztake. now rewrite fmap_take. Qed.

Lemma erase_end s : seg_end (erase_seg s) = seg_end s.
Proof. unfold seg_end. cbn. now rewrite blank_len. Qed.

Lemma erase_held segs x : held (erase_seg <$> segs) x <-> held segs x.
Proof.
  induction segs as [|s segs IH]; [reflexivity|]. cbn [fmap list_fmap]. change (list_fmap segment segment erase_seg segs) with (erase_seg <$> segs).
  rewrite !held_cons, erase_end, IH. reflexivity.
Qed.

Lemma erase_search segs off : sort_Search (length (erase_seg <$> segs)) (endsPast (erase_seg <$> segs) off) = sort_Search (length segs) (endsPast segs off).
Proof.
  rewrite length_fmap. apply sort_Search_ext. intros i. unfold endsPast. rewrite list_lookup_fmap. destruct (segs !! i); cbn; [now rewrite erase_end|reflexivity].
Qed.

Lemma erase_cover j e segs : coverLoop j e (erase_seg <$> segs) = coverLoop j e segs.
Proof. revert j. induction segs as [|s segs IH]; intros j; [reflexivity|]. cbn [fmap list_fmap coverLoop]. rewrite erase_end. destruct (_ <=? e); [apply IH|reflexivity]. Qed.

Lemma erase_bytesOf segs : bytesOf (erase_seg <$> segs) = bytesOf segs.
Proof. unfold bytesOf. induction segs as [|s segs IH]; [reflexivity|]. cbn. rewrite blank_len. now rewrite <- IH. Qed.

Lemma erase_clipFront segs i off e data :
  clipFront (erase_seg <$> segs) i off e (blank data) = match clipFront segs i off e data with Some (d, o, k) => Some (blank d, o, k) | None => None end.
Proof.
  unfold clipFront. rewrite list_lookup_fmap. destruct (segs !! i) as [s|]; cbn [fmap option_fmap option_map]; [|reflexivity]. rewrite erase_end. cbn.
  destruct (_ <=? off); [|reflexivity]. destruct (_ <=? _); [reflexivity|]. now rewrite blank_drop.
Qed.

Lemma erase_clipBack segs j off e data : clipBack (erase_seg <$> segs) j off e (blank data) = blank <$> clipBack segs j off e data.
Proof.
  unfold clipBack. rewrite list_lookup_fmap. destruct (segs !! j) as [s|]; cbn [fmap option_fmap option_map]; [|reflexivity]. cbn.
  destruct (_ <? e); [|reflexivity]. rewrite <- blank_take, blank_len. now destruct (_ =? 0).
Qed.

Lemma erase_cut segs i j : cutSegments (erase_seg <$> segs) i j = erase_seg <$> cutSegments segs i j.
Proof. unfold cutSegments. destruct (i =? j)%nat; [reflexivity|]. now rewrite fmap_app, fmap_take, fmap_drop. Qed.

Lemma erase_store (segs : list segment) i j off data limit :
  store (erase_seg <$> segs) i j off (blank data) limit = match store segs i j off data limit with Some l => Some (erase_seg <$> l) | None => None end.
Proof.
  unfold store. destruct i as [|k].
  - destruct (_ <? j)%nat.
    + cbn [fmap option_fmap option_map]. f_equal. rewrite <- erase_cut. f_equal. now rewrite list_fmap_insert.
    + unfold len. rewrite length_fmap. destruct (_ <=? _); [reflexivity|]. cbn [take drop]. cbn. reflexivity.
  - rewrite list_lookup_fmap. destruct (segs !! k) as [s|]; cbn [fmap option_fmap option_map]; [rewrite erase_end; destruct (_ =? off)|].
    1: { f_equal. rewrite <- erase_cut. f_equal. rewrite list_fmap_insert. f_equal. unfold erase_seg. cbn. f_equal. unfold blank. now rewrite fmap_app. }
    all: destruct (_ <? j)%nat; [cbn; f_equal; rewrite <- erase_cut; f_equal; now rewrite list_fmap_insert|];
      unfold len; rewrite length_fmap; destruct (_ <=? _); [reflexivity|]; cbn [fmap option_fmap option_map]; f_equal;
      rewrite fmap_app, fmap_take, fmap_cons, fmap_drop; reflexivity.
Qed.

Lemma erase_push r off data limit : push (erase r) off (blank data) limit = (erase (push r off data limit).1, (push r off data limit).2).
Proof.
  unfold push. rewrite blank_len. cbn [erase offset]. destruct (_ || _); [reflexivity|].
  assert (forall o d, insertData (erase r) o (off + len data) (blank d) limit = (erase (insertData r o (off + len data) d limit).1, (insertData r o (off + len data) d limit).2)) as Hi.
  { intros o d. unfold insertData. cbn [erase segments offset buffered]. rewrite erase_search, erase_clipFront. destruct (clipFront _ _ _ _ _) as [[[d1 o1] i]|]; [|reflexivity].
    rewrite <- fmap_drop, erase_cover, erase_clipBack. destruct (clipBack _ _ _ _ _) as [d2|]; cbn [fmap option_fmap option_map]; [|reflexivity].
    rewrite <- fmap_take, erase_bytesOf, erase_store. destruct (store _ _ _ _ _ _) as [segs|]; cbn; [now rewrite blank_len|reflexivity]. }
  destruct (off <? offset r); [rewrite <- blank_drop|]; apply Hi.
Qed.

Lemma erase_take r off data limit :
  take_ (erase r) off (blank data) limit = (blank <$> (take_ r off data limit).1.1, erase (take_ r off data limit).1.2, (take_ r off data limit).2).
Proof.
  unfold take_. rewrite erase_push, blank_len. unfold len. cbn [erase segments offset]. rewrite length_fmap.
  destruct (_ || _); [destruct (push r off data limit); reflexivity|]. destruct (_ <=? _); [reflexivity|]. cbn [fst snd fmap option_fmap option_map]. now rewrite <- blank_drop.
Qed.

Lemma erase_pop r : pop (erase r) = (blank <$> (pop r).1, erase (pop r).2).
Proof.
  unfold pop. cbn [erase segments]. destruct (segments r) as [|s rest]; [reflexivity|]. cbn [fmap list_fmap]. rewrite erase_end. cbn [erase_seg seg_off seg_data offset].
  destruct (_ <? _); [reflexivity|]. rewrite blank_len. cbn [fst snd fmap option_fmap option_map]. now rewrite <- blank_drop.
Qed.

(** A buffer whose segments are in order, and which has nothing past [h]. *)
Record bufok (h : Z) (r : recvBuffer) : Prop := {
  bo_ok : ok (fun _ => 0) (erase r);
  bo_off : 0 <= offset r <= h;
  bo_held : forall x, held (segments r) x -> x < h
}.

Lemma bufok_empty h o : 0 <= o <= h -> bufok h (mkRecv o [] 0).
Proof. intros Ho. split; [split; [exact I|reflexivity]|exact Ho|]. intros x Hx. now apply held_nil in Hx. Qed.

Lemma bufok_le h h' r : h <= h' -> bufok h r -> bufok h' r.
Proof. intros Hle [H1 H2 H3]. split; [exact H1|lia|]. intros x Hx. specialize (H3 x Hx). lia. Qed.

Lemma bufok_take h r off data limit :
  bufok h r -> off + len data <= h ->
  bufok h (take_ r off data limit).1.2 /\ offset r <= offset (take_ r off data limit).1.2.
Proof.
  intros [Hok Ho Hh] He. pose proof (take_spec _ (erase r) off (blank data) limit Hok (blank_agrees off data)) as Ht. rewrite erase_take in Ht.
  destruct (take_ r off data limit) as [[first r'] ok']. cbn [fst snd] in *. destruct ok'.
  - destruct Ht as (Hok' & _ & Hl & _ & Hx). cbn [erase offset segments] in *. rewrite blank_len in Hx.
    assert (offset r <= offset r') as Hm by (match type of Hl with _ + ?n = _ => assert (0 <= n) by (destruct first; apply len_nonneg) end; lia).
    split; [|exact Hm]. split; [exact Hok'| |].
    + split; [lia|]. destruct (Z.le_gt_cases (offset r') h) as [|Hgt]; [assumption|]. destruct (proj1 (Hx (offset r' - 1) ltac:(lia)) ltac:(left; lia)) as [Hd|]; [|lia].
      apply erase_held, Hh in Hd. lia.
    + intros x Hd. apply erase_held in Hd. pose proof (held_ge _ _ _ _ (ok_segs _ _ Hok') Hd) as Hge. cbn [erase offset] in Hge.
      destruct (proj1 (Hx x ltac:(lia)) (or_intror Hd)) as [Hd'|]; [apply erase_held, Hh in Hd'; lia|lia].
  - destruct Ht as (_ & E & _). assert (offset r' = offset r /\ bufok h r'); [|lia || intuition lia].
    assert (offset r' = offset r) as Eo by (now injection E). split; [exact Eo|]. split; [now rewrite E|lia|].
    intros x Hd. apply Hh. apply erase_held. injection E as _ <- _. now apply erase_held.
Qed.

Lemma pop_none r r' : pop r = (None, r') -> r' = r.
Proof. unfold pop. destruct (segments r); [congruence|]. destruct (_ <? _); congruence. Qed.

Lemma bufok_pop h r :
  bufok h r -> bufok h (pop r).2 /\ offset r <= offset (pop r).2 /\ (length (segments (pop r).2) < length (segments r) \/ (pop r).1 = None /\ (pop r).2 = r)%nat.
Proof.
  intros [Hok Ho Hh]. pose proof (pop_spec _ (erase r) Hok) as Hp. rewrite erase_pop in Hp. destruct (pop r) as [[chunk|] r'] eqn:Ep; cbn [fst snd fmap option_fmap option_map] in *.
  - destruct Hp as (Hok' & _ & _ & Hlt & Hn & Hx). cbn [erase offset segments] in *. rewrite !length_fmap in Hn. split; [|split; [lia|now left]]. split; [exact Hok'| |].
    + split; [lia|]. destruct (Z.le_gt_cases (offset r') h) as [|Hgt]; [assumption|]. pose proof (proj2 (Hx (offset r' - 1) ltac:(lia)) ltac:(left; lia)) as Hd.
      apply erase_held, Hh in Hd. lia.
    + intros x Hd. apply erase_held in Hd. pose proof (held_ge _ _ _ _ (ok_segs _ _ Hok') Hd) as Hge. cbn [erase offset] in Hge.
      apply Hh. apply erase_held. apply Hx; [lia|now right].
  - apply pop_none in Ep as ->.
    split; [now split|]. split; [lia|now right].
Qed.

Lemma popAll_prefix fuel r a b : popAll fuel r (a ++ b) = (a ++ (popAll fuel r b).1, (popAll fuel r b).2).
Proof.
  revert r b. induction fuel as [|fuel IH]; intros r b; [reflexivity|]. cbn [popAll]. destruct (pop r) as [[chunk|] r']; [|reflexivity]. now rewrite <- app_assoc, IH.
Qed.

(** ** One stream and its connection *)

(** What is promised of the receiving side of a stream, with [W] its window. *)
Record rok (W : Z) (r : recvSide) : Prop := {
  ro_win : 0 <= W <= 2 ^ 62;
  ro_read : 0 <= recvRead r <= recvHigh r;
  ro_max : recvHigh r <= recvMax r <= recvRead r + W;
  ro_top : recvHigh r < 2 ^ 62;
  ro_buf : bufok (recvHigh r) (recv r);
  ro_fin : -1 <= recvFin r /\ (0 <= recvFin r -> recvFin r = recvHigh r);
  ro_credit : 0 <= creditAt r <= offset (recv r)
}.

(** And of the counters of its connection: [oh] and [orr] are what the other
    streams have reached and were read to, [K] a bound on what was received. *)
Record lok (W CW K oh orr : Z) (c : conn) (s : stream) : Prop := {
  lo_rok : rok W (rs s);
  lo_data : recvData c = oh + recvHigh (rs s);
  lo_cons : recvConsumed c = orr + recvRead (rs s);
  lo_rest : 0 <= orr <= oh;
  lo_max : recvData c <= recvMaxData c <= recvConsumed c + CW;
  lo_K : recvData c <= K /\ 0 <= CW /\ K + CW < 2 ^ 63
}.

(** Only what giving room back changes is different. *)
Definition ctidy (c c' : conn) : Prop :=
  c' = set_connDataPending (set_recvConsumed (set_recvMaxData (set_sendQueue c (sendQueue c')) (recvMaxData c')) (recvConsumed c')) (connDataPending c').

Definition stidy (s s' : stream) : Prop :=
  s' = st_queued (st_rs s (rv_maxDataPending (rv_recvMax (rv_recvRead (rs s) (recvRead (rs s'))) (recvMax (rs s'))) (maxDataPending (rs s')))) (queued s').

Section Flow.
Context (W CW : Z).

Lemma consumed_tidy c s off : ctidy c (consumed W CW c s off).1 /\ stidy s (consumed W CW c s off).2.
Proof.
  unfold consumed, queueStream, ctidy, stidy. destruct c, s as [i x [] q d f].
  repeat (case_match; cbn in *; simplify_eq); auto.
Qed.

Lemma half_le x : 0 <= x -> x / 2 <= x.
Proof. intros Hx. apply Z.div_le_upper_bound; lia. Qed.

Lemma lok_queue K oh orr c s : lok W CW K oh orr c s -> lok W CW K oh orr (queueStream c s).1 (queueStream c s).2.
Proof. intros [H1 H2 H3 H4 H5 H6]. unfold queueStream. destruct (_ && _); constructor; assumption. Qed.

Lemma lok_read K oh orr c s off :
  lok W CW K oh orr c s -> recvRead (rs s) < off <= recvHigh (rs s) ->
  lok W CW K oh orr (set_recvConsumed c (u64 (recvConsumed c + (off - recvRead (rs s))))) (st_rs s (rv_recvRead (rs s) off)).
Proof.
  intros [[Hw Hr Hm Ht Hb Hf Hc] Hd Hcs Hrest Hmx HK] Ho. rewrite u64_id by lia. constructor; cbn; try lia. constructor; cbn; try lia; assumption.
Qed.

Lemma lok_grow K oh orr c s off :
  lok W CW K oh orr c s -> 0 <= off <= recvRead (rs s) -> u64 (recvMax (rs s) - off) < W / 2 ->
  lok W CW K oh orr c (st_rs s (rv_maxDataPending (rv_recvMax (rs s) (u64 (off + W))) true)).
Proof.
  intros [[Hw Hr Hm Ht Hb Hf Hc] Hd Hcs Hrest Hmx HK] Ho. rewrite !u64_id by lia. intros Hlt. pose proof (half_le W). pose proof (half_le CW). constructor; cbn; try lia. constructor; cbn; try lia; assumption.
Qed.

Lemma lok_conn K oh orr c s :
  lok W CW K oh orr c s -> u64 (recvMaxData c - recvConsumed c) < CW / 2 ->
  lok W CW K oh orr (set_connDataPending (set_recvMaxData c (u64 (recvConsumed c + CW))) true) s.
Proof.
  intros [[Hw Hr Hm Ht Hb Hf Hc] Hd Hcs Hrest Hmx HK]. rewrite !u64_id by lia. intros Hlt. pose proof (half_le W). pose proof (half_le CW). constructor; cbn; try lia. constructor; cbn; try lia; assumption.
Qed.

Lemma consumed_ok K oh orr c s off :
  lok W CW K oh orr c s -> 0 <= off <= recvHigh (rs s) ->
  lok W CW K oh orr (consumed W CW c s off).1 (consumed W CW c s off).2 /\ recvRead (rs (consumed W CW c s off).2) = Z.max (recvRead (rs s)) off.
Proof.
  intros Hl Ho. unfold consumed.
  assert (exists c1 s1, (if recvRead (rs s) <? off then (set_recvConsumed c (u64 (recvConsumed c + (off - recvRead (rs s)))), st_rs s (rv_recvRead (rs s) off)) else (c, s)) = (c1, s1)
    /\ lok W CW K oh orr c1 s1 /\ recvRead (rs s1) = Z.max (recvRead (rs s)) off) as (c1 & s1 & -> & H1 & Hr1).
  { destruct (Z.ltb_spec (recvRead (rs s)) off); [|exists c, s; split; [reflexivity|split; [exact Hl|lia]]]. eexists _, _. split; [reflexivity|]. split; [apply lok_read; [exact Hl|lia]|cbn; lia]. }
  destruct ((_ <? 0) && _ && (_ <? W / 2)) eqn:Eg.
  - apply andb_true_iff in Eg as [_ Eg%Z.ltb_lt]. pose proof (lok_queue _ _ _ _ _ (lok_grow _ _ _ _ _ off H1 ltac:(lia) Eg)) as H2.
    assert (recvRead (rs (queueStream c1 (st_rs s1 (rv_maxDataPending (rv_recvMax (rs s1) (u64 (off + W))) true))).2) = recvRead (rs s1)) as Hr2 by (unfold queueStream; now destruct (_ && _)).
    destruct (queueStream _ _) as [c2 s2]. cbn [fst snd] in *. destruct (Z.ltb_spec (u64 (recvMaxData c2 - recvConsumed c2)) (CW / 2)); (split; [|cbn [snd]; lia]); [now apply lok_conn|exact H2].
  - destruct (Z.ltb_spec (u64 (recvMaxData c1 - recvConsumed c1)) (CW / 2)); (split; [|cbn [snd]; lia]); [now apply lok_conn|exact H1].
Qed.

(** What the handlers of a stream's receiving side leave alone. *)
Record others (c c' : conn) (s s' : stream) : Prop := {
  ot_client : isClient c' = isClient c;
  ot_closed : closed c' = closed c;
  ot_streams : streams c' = streams c;
  ot_sent : sentData c' = sentData c;
  ot_peerMax : peerMaxData c' = peerMaxData c;
  ot_dataBlocked : dataBlocked c' = dataBlocked c;
  ot_bidi : ownBidi c' = ownBidi c;
  ot_uni : ownUni c' = ownUni c;
  ot_sid : sid s' = sid s;
  ot_ss : ss s' = ss s;
  ot_done : done s' = true -> done s = true \/ sendDone s = true;
  ot_opened : forall b, q_opened (quotaOf c' b) = q_opened (quotaOf c b)
}.

Lemma others_refl c s : others c c s s.
Proof. split; auto. Qed.

Lemma others_trans c1 c2 c3 s1 s2 s3 : others c1 c2 s1 s2 -> others c2 c3 s2 s3 -> others c1 c3 s1 s3.
Proof.
  intros [] []. split; try congruence. intros Hd. destruct (ot_done1 Hd) as [|H]; [auto|]. right. unfold sendDone in *. now rewrite <- ot_ss0.
Qed.

Lemma consumed_others c s off : others c (consumed W CW c s off).1 s (consumed W CW c s off).2.
Proof.
  destruct (consumed_tidy c s off) as [Hc Hs]. destruct (consumed W CW c s off) as [c' s']. cbn [fst snd] in *. split; first [exact (f_equal isClient Hc)|exact (f_equal closed Hc)|exact (f_equal streams Hc)|exact (f_equal sentData Hc)|exact (f_equal peerMaxData Hc)|exact (f_equal dataBlocked Hc)|exact (f_equal ownBidi Hc)|exact (f_equal ownUni Hc)|exact (f_equal sid Hs)|exact (f_equal ss Hs)|intros Hd; left; now rewrite <- (f_equal done Hs : done s' = done s)|intros []; [exact (f_equal (fun c => q_opened (peerBidi c)) Hc)|exact (f_equal (fun c => q_opened (peerUni c)) Hc)]].
Qed.

(** And what handing data on keeps besides: how far the stream has come, and what
    is known of its end. *)
Record calm (c c' : conn) (s s' : stream) : Prop := {
  ca_others : others c c' s s';
  ca_data : recvData c' = recvData c;
  ca_flood : floodCounted s' = floodCounted s;
  ca_high : recvHigh (rs s') = recvHigh (rs s);
  ca_fin : recvFin (rs s') = recvFin (rs s);
  ca_reset : peerReset (rs s') = peerReset (rs s);
  ca_stop : stopSent (rs s') = stopSent (rs s);
  ca_has : hasRecv (rs s') = hasRecv (rs s);
  ca_stopPending : stopPending (rs s') = stopPending (rs s);
  ca_hold : holdCredit (rs s') = holdCredit (rs s);
  ca_off : offset (recv (rs s)) <= offset (recv (rs s'))
}.

Lemma calm_refl c s : calm c c s s.
Proof. split; try reflexivity. apply others_refl. Qed.

Lemma calm_trans c1 c2 c3 s1 s2 s3 : calm c1 c2 s1 s2 -> calm c2 c3 s2 s3 -> calm c1 c3 s1 s3.
Proof. intros [O1] [O2]. split; try congruence; [exact (others_trans _ _ _ _ _ _ O1 O2)|lia]. Qed.

(** Nor was a stream finished. *)
Definition unfinished (c c' : conn) (s s' : stream) : Prop := done s' = done s /\ peerBidi c' = peerBidi c /\ peerUni c' = peerUni c.

Lemma consumed_calm c s off :
  calm c (consumed W CW c s off).1 s (consumed W CW c s off).2 /\ unfinished c (consumed W CW c s off).1 s (consumed W CW c s off).2 /\
  recv (rs (consumed W CW c s off).2) = recv (rs s) /\ recvDone (rs (consumed W CW c s off).2) = recvDone (rs s) /\ events (consumed W CW c s off).1 = events c.
Proof.
  pose proof (consumed_others c s off) as Ho. destruct (consumed_tidy c s off) as [Hc Hs]. destruct (consumed W CW c s off) as [c' s']. cbn [fst snd] in *.
  pose proof (f_equal rs Hs) as Hr. cbn [st_queued st_rs rs] in Hr.
  split; [|split; [split; [exact (f_equal done Hs)|split; [exact (f_equal peerBidi Hc)|exact (f_equal peerUni Hc)]]|split; [exact (f_equal recv Hr)|split; [exact (f_equal recvDone Hr)|exact (f_equal events Hc)]]]].
  split; [exact Ho|exact (f_equal recvData Hc)|exact (f_equal floodCounted Hs)|exact (f_equal recvHigh Hr)|exact (f_equal recvFin Hr)|exact (f_equal peerReset Hr)|exact (f_equal stopSent Hr)|exact (f_equal hasRecv Hr)|exact (f_equal stopPending Hr)|exact (f_equal holdCredit Hr)|].
  pose proof (f_equal recv Hr : recv (rs s') = recv (rs s)) as ->. lia.
Qed.

(** A chunk handed on: an event more, and the room of what was handed on given back. *)
Lemma deliver_ok K oh orr c s data fin :
  lok W CW K oh orr c s ->
  let '(c', s') := deliver W CW c s data fin in
  lok W CW K oh orr c' s' /\ calm c c' s s' /\ unfinished c c' s s' /\ recv (rs s') = recv (rs s) /\ recvDone (rs s') = recvDone (rs s) /\
  events c' = events c ++ [evStreamData (sid s) data fin].
Proof.
  intros Hl. unfold deliver. set (off := if holdCredit (rs s) then _ else _).
  assert (0 <= off <= recvHigh (rs s)) as Ho.
  { pose proof (bo_off _ _ (ro_buf _ _ (lo_rok _ _ _ _ _ _ _ Hl))). pose proof (ro_credit _ _ (lo_rok _ _ _ _ _ _ _ Hl)). unfold off. destruct (holdCredit _); lia. }
  destruct (consumed_ok _ _ _ _ _ off Hl Ho) as [Hl' _]. destruct (consumed_calm c s off) as (Hcm & Hu & Er & Ed & Ee).
  destruct (consumed W CW c s off) as [c' s']. cbn [fst snd] in *. split; [destruct Hl' as [H1 H2 H3 H4 H5 H6]; now constructor|].
  split; [destruct Hcm as [[]]; split; [split|..]; assumption|]. split; [exact Hu|]. split; [exact Er|]. split; [exact Ed|]. cbn. now rewrite Ee, (ot_sid _ _ _ _ (ca_others _ _ _ _ Hcm)).
Qed.

Definition chunkEvents (id : Z) (chunks : list bytes) : list event := (fun d => evStreamData id d false) <$> chunks.

Lemma lok_recv K oh orr c s r :
  lok W CW K oh orr c s -> bufok (recvHigh (rs s)) r -> offset (recv (rs s)) <= offset r -> lok W CW K oh orr c (st_rs s (rv_recv (rs s) r)).
Proof. intros [[] ? ? ? ? ?] Hb Ho. constructor; [constructor; cbn; try assumption; lia|..]; assumption. Qed.

Lemma calm_recv c c' s s' r : offset (recv (rs s)) <= offset r -> calm c c' (st_rs s (rv_recv (rs s) r)) s' -> calm c c' s s'.
Proof. intros Ho [[]]. cbn in *. split; [split|..]; first [assumption|lia]. Qed.

(** The loop of [onStreamFrame] ends, and hands on what [popAll] takes out, less the
    last of it. *)
Lemma deliverLoop_ok fuel K oh orr c s last :
  lok W CW K oh orr c s -> (length (segments (recv (rs s))) < fuel)%nat ->
  exists c' s' last' chunks, deliverLoop W CW fuel c s last = Some (c', s', last') /\
    lok W CW K oh orr c' s' /\ calm c c' s s' /\ unfinished c c' s s' /\ recvDone (rs s') = recvDone (rs s) /\
    events c' = events c ++ chunkEvents (sid s) chunks /\
    popAll fuel (recv (rs s)) (default [] last) = (mjoin chunks ++ default [] last', recv (rs s')).
Proof.
  revert c s last. induction fuel as [|fuel IH]; intros c s last Hl Hf; [lia|]. cbn [deliverLoop popAll].
  destruct (bufok_pop _ _ (ro_buf _ _ (lo_rok _ _ _ _ _ _ _ Hl))) as (Hb' & Ho' & Hn).
  destruct (pop (recv (rs s))) as [[chunk|] r] eqn:Ep; cbn [fst snd] in *.
  - destruct Hn as [Hn|[? _]]; [|discriminate]. pose proof (lok_recv _ _ _ _ _ r Hl Hb' Ho') as Hl1. destruct last as [data|].
    + pose proof (deliver_ok K oh orr c _ data false Hl1) as Hd. destruct (deliver W CW c _ data false) as [c1 s1].
      destruct Hd as (Hl2 & Hcm & Hu & Er & Ed & Hev). cbn [st_rs rs rv_recv recv sid] in *.
      destruct (IH c1 s1 (Some chunk) Hl2 ltac:(rewrite Er; lia)) as (c' & s' & last' & chunks & E & Hl' & Hcm' & Hu' & Ed' & Hev' & Hpop).
      exists c', s', last', (data :: chunks). rewrite Er in Hpop. pose proof (ot_sid _ _ _ _ (ca_others _ _ _ _ Hcm)) as Es. cbn [st_rs sid] in Es.
      split; [exact E|]. split; [exact Hl'|]. split; [eapply calm_trans; [exact (calm_recv _ _ _ _ r Ho' Hcm)|exact Hcm']|].
      split; [destruct Hu as (? & ? & ?), Hu' as (? & ? & ?); cbn in *; repeat split; congruence|]. split; [cbn in *; congruence|].
      split; [rewrite Hev', Hev, Es, <- app_assoc; reflexivity|]. change (mjoin (data :: chunks)) with (data ++ mjoin chunks). change (default [] (Some chunk)) with chunk in Hpop.
      change (default [] (Some data)) with data. rewrite <- (app_assoc data), popAll_prefix. now rewrite Hpop.
    + destruct (IH c _ (Some chunk) Hl1 ltac:(cbn; lia)) as (c' & s' & last' & chunks & E & Hl' & Hcm' & Hu' & Ed' & Hev' & Hpop).
      exists c', s', last', chunks. split; [exact E|]. split; [exact Hl'|]. split; [exact (calm_recv _ _ _ _ r Ho' Hcm')|]. now split.
  - apply pop_none in Ep as ->. exists c, (st_rs s (rv_recv (rs s) (recv (rs s)))), last, []. split; [reflexivity|].
    assert (st_rs s (rv_recv (rs s) (recv (rs s))) = s) as -> by (now destruct s as [? ? [] ? ? ?]).
    split; [exact Hl|]. split; [apply calm_refl|]. split; [now split|]. split; [reflexivity|]. split; [now rewrite app_nil_r|reflexivity].
Qed.

(** ** The number of streams *)

(** The streams of the peer's of a kind: those it opened, those of them done, and
    the limit it was given, with [inc] how many it may have open. *)
Record qok (inc : Z) (live : Z) (q : quota) : Prop := {
  qo_live : q_opened q - q_done q = live;
  qo_pos : 0 <= q_done q /\ 0 <= live;
  qo_max : q_opened q <= q_max q <= q_done q + inc;
  qo_top : q_opened q <= 2 ^ 60 /\ 0 <= inc <= 2 ^ 60
}.

Context (MI MIU : Z).

Definition incoming (bidi : bool) : Z := if bidi then MI else MIU.

(** A stream that counts against the quota of a kind. *)
Definition counts (c : conn) (bidi : bool) (s : stream) : Z :=
  if negb (local c (sid s)) && Bool.eqb (isBidi (sid s)) bidi && negb (done s) then 1 else 0.

(** The quotas, with [ol] the other streams that count. *)
Definition nok (ol : bool -> Z) (c : conn) (s : stream) : Prop :=
  forall b, 0 <= ol b /\ qok (incoming b) (ol b + counts c b s) (quotaOf c b).

Lemma maybeFinish_opened c s b : q_opened (quotaOf (maybeFinish MI MIU c s).1 b) = q_opened (quotaOf c b).
Proof.
  unfold maybeFinish. destruct (_ || _ || _); [reflexivity|]. destruct (local _ _); [reflexivity|]. cbn [fst]. set (k := isBidi _). destruct k, b; cbn; repeat case_match; reflexivity.
Qed.

Lemma maybeFinish_tidy c s :
  (maybeFinish MI MIU c s).1 = set_peerUni (set_peerBidi c (peerBidi (maybeFinish MI MIU c s).1)) (peerUni (maybeFinish MI MIU c s).1) /\
  (maybeFinish MI MIU c s).2 = st_done s (done (maybeFinish MI MIU c s).2) /\
  done (maybeFinish MI MIU c s).2 = done s || sendDone s && recvFinished s.
Proof.
  unfold maybeFinish. destruct c, s as [i x y q d f]. cbn [done]. destruct d; cbn [orb]; [auto|].
  destruct (sendDone _); cbn [negb orb andb]; [|auto]. destruct (recvFinished _); cbn [negb orb andb]; [|auto].
  cbn [st_done sid]. destruct (local _ _); [auto|]. destruct (isBidi i); cbn; auto.
Qed.

Lemma quota_set c b b' q : quotaOf (set_quota c b q) b' = if Bool.eqb b b' then q else quotaOf c b'.
Proof. now destruct b, b'. Qed.

Lemma maybeFinish_nok ol c s : nok ol c s -> nok ol (maybeFinish MI MIU c s).1 (maybeFinish MI MIU c s).2.
Proof.
  intros Hn. unfold maybeFinish. destruct (done s) eqn:Ed; cbn [orb]; [exact Hn|]. destruct (negb (sendDone s) || negb (recvFinished s)); [exact Hn|]. cbn [st_done sid].
  destruct (local c (sid s)) eqn:El; cbn [fst snd].
  { intros b. specialize (Hn b). unfold counts in *. cbn [st_done sid]. rewrite El in *. exact Hn. }
  set (k := isBidi (sid s)) in *. intros b. pose proof (Hn b) as [Ho Hq]. rewrite quota_set. split; [exact Ho|].
  assert (counts c b s = if Bool.eqb k b then 1 else 0) as Ec by (unfold counts; rewrite El, Ed; fold k; now destruct (Bool.eqb k b)).
  assert (counts (set_quota c k (if u64 (q_max (qt_q_done (quotaOf c k) (u64 (q_done (quotaOf c k) + 1))) - q_done (qt_q_done (quotaOf c k) (u64 (q_done (quotaOf c k) + 1)))) <? (if k then MI else MIU) / 2 + 1
      then qt_q_pending (qt_q_max (qt_q_done (quotaOf c k) (u64 (q_done (quotaOf c k) + 1))) (u64 (q_done (qt_q_done (quotaOf c k) (u64 (q_done (quotaOf c k) + 1))) + (if k then MI else MIU)))) true
      else qt_q_done (quotaOf c k) (u64 (q_done (quotaOf c k) + 1)))) b (st_done s true) = 0) as -> by (unfold counts; cbn [st_done done]; now rewrite andb_false_r).
  rewrite Ec in Hq. destruct (Bool.eqb_spec k b) as [<-|]; [|exact Hq]. change (if k then MI else MIU) with (incoming k).
  destruct (quotaOf c k) as [m o d p ba]. destruct Hq as [H1 H2 H3 H4]. cbn [q_max q_opened q_done qt_q_done qt_q_max qt_q_pending] in *. rewrite !(u64_id (d + 1)) by lia.
  rewrite !u64_id by lia. pose proof (half_le (incoming k)). destruct (Z.ltb_spec (m - (d + 1)) (incoming k / 2 + 1)); constructor; cbn; lia.
Qed.

(** ** Frames *)

(** A stream moved up to [end_], its final size [f] known or not. *)
Lemma reach_ok K oh orr c s end_ f c' s' :
  lok W CW K oh orr c s -> recvMaxData c <= K -> 0 <= end_ < 2 ^ 62 -> end_ <= recvMax (rs s) ->
  -1 <= f -> (0 <= f -> f = Z.max (recvHigh (rs s)) end_) -> (0 <= recvFin (rs s) -> end_ <= recvHigh (rs s)) ->
  reach c (st_rs s (rv_recvFin (rs s) f)) end_ = (c', s', None) ->
  lok W CW K oh orr c' s' /\ c' = set_recvData c (recvData c') /\ s' = st_rs s (rv_recvHigh (rv_recvFin (rs s) f) (Z.max (recvHigh (rs s)) end_)).
Proof.
  intros [[Hw Hr Hm Ht Hb Hf Hc] Hd Hcs Hrest Hmx HK] HmK He Hmax Hf1 Hf2 Hfin. unfold reach. cbn [rs st_rs rv_recvFin recvHigh].
  destruct (Z.ltb_spec (recvHigh (rs s)) end_) as [Hlt|Hge].
  - rewrite u64_id by lia. cbn [set_recvData recvMaxData recvData]. destruct (Z.ltb_spec (recvMaxData c) (recvData c + (end_ - recvHigh (rs s)))); [discriminate|]. intros [= <- <-].
    split; [|split; [reflexivity|now rewrite Z.max_r by lia]]. constructor; cbn; try lia. constructor; cbn; try lia. eapply bufok_le; [|exact Hb]. lia.
  - intros [= <- <-]. rewrite Z.max_l in * by lia. split; [|split; [now destruct c|now destruct (rs s)]]. constructor; cbn; try lia. constructor; cbn; try lia. exact Hb.
Qed.

Lemma maybeFinish_ok K oh orr ol c s :
  lok W CW K oh orr c s -> nok ol c s ->
  let '(c', s') := maybeFinish MI MIU c s in
  lok W CW K oh orr c' s' /\ nok ol c' s' /\ calm c c' s s' /\ rs s' = rs s /\ events c' = events c /\ queued s' = queued s /\ sendQueue c' = sendQueue c /\
  done s' = done s || sendDone s && recvFinished s.
Proof.
  intros Hl Hn. pose proof (maybeFinish_nok _ _ _ Hn) as Hn'. pose proof (maybeFinish_opened c s) as Hop. destruct (maybeFinish_tidy c s) as (Hc & Hs & Hd). destruct (maybeFinish MI MIU c s) as [c' s']. cbn [fst snd] in *.
  pose proof (f_equal rs Hs : rs s' = rs s) as Er. pose proof (f_equal recvData Hc : recvData c' = recvData c) as E1.
  pose proof (f_equal recvConsumed Hc : recvConsumed c' = recvConsumed c) as E2. pose proof (f_equal recvMaxData Hc : recvMaxData c' = recvMaxData c) as E3.
  split; [destruct Hl; constructor; rewrite ?Er, ?E1, ?E2, ?E3; assumption|]. split; [exact Hn'|].
  split. { split; rewrite ?Er; try reflexivity; [|exact E1|exact (f_equal floodCounted Hs)].
    split; [exact (f_equal isClient Hc)|exact (f_equal closed Hc)|exact (f_equal streams Hc)|exact (f_equal sentData Hc)|exact (f_equal peerMaxData Hc)|exact (f_equal dataBlocked Hc)|exact (f_equal ownBidi Hc)|exact (f_equal ownUni Hc)|exact (f_equal sid Hs)|exact (f_equal ss Hs)|rewrite Hd, orb_true_iff, andb_true_iff; tauto|exact Hop]. }
  split; [exact Er|]. split; [exact (f_equal events Hc)|]. split; [exact (f_equal queued Hs)|]. split; [exact (f_equal sendQueue Hc)|exact Hd].
Qed.

Lemma nok_unfinished ol c c' s s' : others c c' s s' -> unfinished c c' s s' -> nok ol c s -> nok ol c' s'.
Proof. intros Ho (H1 & H2 & H3) Hn b. specialize (Hn b). unfold counts, local, quotaOf in *. now rewrite (ot_sid _ _ _ _ Ho), (ot_client _ _ _ _ Ho), H1, H2, H3. Qed.

(** What a frame's data makes of the buffer and of the events, the end of the stream
    with the last chunk when it [ends]. *)
Definition delivers (id : Z) (out : bytes) (ends : bool) (evs evs' : list event) : Prop :=
  exists chunks last, out = mjoin chunks ++ last /\ evs' = evs ++ chunkEvents id chunks ++ (if ends then [evStreamData id last true] else []) /\ (ends = false -> last = []).

Lemma delivers_last id chunks last evs : delivers id (mjoin chunks ++ last) true evs (evs ++ chunkEvents id chunks ++ [evStreamData id last true]).
Proof. exists chunks, last. now split. Qed.

Lemma delivers_more id chunks last evs :
  delivers id (mjoin chunks ++ default [] last) false evs (evs ++ chunkEvents id chunks ++ chunkEvents id (match last with Some d => [d] | None => [] end)).
Proof.
  exists (chunks ++ match last with Some d => [d] | None => [] end), []. split; [rewrite join_app, app_nil_r; destruct last; cbn; now rewrite ?app_nil_r|].
  unfold chunkEvents. now rewrite fmap_app, app_nil_r.
Qed.

(** What the data of a frame delivers is what the buffer of its stream does, and the
    stream's end goes with the last of it. *)
Lemma takeIn_ok K oh orr ol c s off data :
  lok W CW K oh orr c s -> nok ol c s -> off + len data <= recvHigh (rs s) -> recvDone (rs s) = false ->
  exists c' s' e, takeIn W CW MI MIU c s off data = Some (c', s', e) /\
    (e = None ->
      lok W CW K oh orr c' s' /\ nok ol c' s' /\ calm c c' s s' /\
      exists out, onFrame (recv (rs s)) off data (recvSegmentLimit W) = Some (out, recv (rs s')) /\ delivers (sid s) out (recvDone (rs s')) (events c) (events c') /\
        recvDone (rs s') = (0 <=? recvFin (rs s)) && (offset (recv (rs s')) =? recvFin (rs s))).
Proof.
  intros Hl Hn He Hnd. unfold takeIn, onFrame. destruct (bufok_take _ _ _ _ (recvSegmentLimit W) (ro_buf _ _ (lo_rok _ _ _ _ _ _ _ Hl)) He) as [Hb Ho].
  destruct (take_ (recv (rs s)) off data (recvSegmentLimit W)) as [[last r] ok']. cbn [fst snd] in *. destruct ok'; cbn [negb]; [|eexists _, _, _; split; [reflexivity|discriminate]].
  destruct (deliverLoop_ok (S (length (segments r))) _ _ _ c _ last (lok_recv _ _ _ _ _ r Hl Hb Ho) ltac:(cbn; lia)) as (c1 & s1 & last1 & chunks & -> & Hl2 & Hcm & Hu & Edn & Hev & Hpop).
  apply (calm_recv _ _ _ _ r Ho) in Hcm. cbn [st_rs rs sid rv_recv recv recvDone] in *. pose proof (ot_sid _ _ _ _ (ca_others _ _ _ _ Hcm)) as Es.
  pose proof (nok_unfinished _ _ _ _ _ (ca_others _ _ _ _ Hcm) Hu Hn) as Hn1. rewrite Hpop, (ca_fin _ _ _ _ Hcm), Edn, Hnd. clear Hpop. cbn [negb]. rewrite andb_true_r.
  destruct ((0 <=? recvFin (rs s)) && _) eqn:Ee.
  - assert (lok W CW K oh orr c1 (st_rs s1 (rv_recvDone (rs s1) true))) as Hl3 by (destruct Hl2 as [[] ? ? ? ? ?]; constructor; [constructor; assumption|..]; assumption).
    pose proof (deliver_ok _ _ _ c1 _ (default [] last1) true Hl3) as Hd. destruct (deliver W CW c1 (st_rs s1 (rv_recvDone (rs s1) true)) (default [] last1) true) as [c2 s2].
    destruct Hd as (Hl4 & Hcm2 & Hu2 & Er2 & Ed2 & Hev2). assert (calm c1 c2 s1 s2) as Hcm2' by (destruct Hcm2 as [[]]; split; [split|..]; assumption).
    pose proof (maybeFinish_ok _ _ _ ol c2 s2 Hl4 (nok_unfinished _ _ _ _ _ (ca_others _ _ _ _ Hcm2') Hu2 Hn1)) as Hf. destruct (maybeFinish MI MIU c2 s2) as [c3 s3].
    destruct Hf as (Hl5 & Hn3 & Hcm3 & Er3 & Hev3 & _). exists c3, s3, None. split; [reflexivity|]. intros _. split; [exact Hl5|]. split; [exact Hn3|].
    split; [exact (calm_trans _ _ _ _ _ _ Hcm (calm_trans _ _ _ _ _ _ Hcm2' Hcm3))|]. cbn [st_rs rs recv recvDone rv_recvDone sid] in *. rewrite Er3, Er2, Ed2, Ee.
    eexists. split; [reflexivity|]. split; [|reflexivity]. rewrite Hev3, Hev2, Hev, Es, <- app_assoc. apply delivers_last.
  - destruct last1 as [d|].
    + pose proof (deliver_ok _ _ _ c1 s1 d false Hl2) as Hd. destruct (deliver W CW c1 s1 d false) as [c2 s2]. destruct Hd as (Hl4 & Hcm2 & Hu2 & Er2 & Ed2 & Hev2).
      exists c2, s2, None. split; [reflexivity|]. intros _. split; [exact Hl4|]. split; [exact (nok_unfinished _ _ _ _ _ (ca_others _ _ _ _ Hcm2) Hu2 Hn1)|].
      split; [exact (calm_trans _ _ _ _ _ _ Hcm Hcm2)|]. rewrite Er2, Ed2, Edn, Hnd, Ee. eexists. split; [reflexivity|]. split; [|reflexivity]. rewrite Hev2, Hev, Es, <- app_assoc. apply (delivers_more _ _ (Some d)).
    + exists c1, s1, None. split; [reflexivity|]. intros _. split; [exact Hl2|]. split; [exact Hn1|]. split; [exact Hcm|]. rewrite Edn, Hnd, Ee. eexists. split; [reflexivity|]. split; [|reflexivity].
      rewrite Hev. pose proof (delivers_more (sid s) chunks None (events c)) as Hd. cbn in Hd. now rewrite (app_nil_r (chunkEvents _ _)) in Hd.
Qed.

Lemma discard_ok K oh orr ol c s end_ :
  lok W CW K oh orr c s -> nok ol c s -> 0 <= end_ <= recvHigh (rs s) ->
  let '(c', s') := discard W CW MI MIU c s end_ in
  lok W CW K oh orr c' s' /\ nok ol c' s' /\ calm c c' s s' /\ recv (rs s') = recv (rs s) /\ events c' = events c /\
  recvDone (rs s') = recvDone (rs s) || stopSent (rs s) && (0 <=? recvFin (rs s)).
Proof.
  intros Hl Hn He. unfold discard. destruct (consumed_ok _ _ _ _ _ end_ Hl He) as [Hl1 _]. destruct (consumed_calm c s end_) as (Hcm & Hu & Er & Ed & Ee).
  destruct (consumed W CW c s end_) as [c1 s1]. cbn [fst snd] in *. pose proof (nok_unfinished _ _ _ _ _ (ca_others _ _ _ _ Hcm) Hu Hn) as Hn1.
  rewrite (ca_stop _ _ _ _ Hcm), (ca_fin _ _ _ _ Hcm), Ed. destruct (stopSent (rs s) && _) eqn:Es; [destruct (recvDone (rs s)) eqn:Edn|]; cbn [negb andb].
  - rewrite Ed. now splits.
  - assert (lok W CW K oh orr c1 (st_rs s1 (rv_recvDone (rs s1) true))) as Hl2 by (destruct Hl1 as [[] ? ? ? ? ?]; constructor; [constructor; assumption|..]; assumption).
    pose proof (maybeFinish_ok _ _ _ ol c1 _ Hl2 Hn1) as Hf. destruct (maybeFinish MI MIU c1 _) as [c2 s2]. destruct Hf as (Hl3 & Hn3 & Hcm3 & Er3 & Hev3 & _).
    assert (calm c1 c2 s1 s2) as Hcm3' by (destruct Hcm3 as [[]]; split; [split|..]; assumption).
    split; [exact Hl3|]. split; [exact Hn3|]. split; [exact (calm_trans _ _ _ _ _ _ Hcm Hcm3')|]. rewrite Er3. cbn. now rewrite Hev3.
  - rewrite orb_false_r. now splits.
Qed.

(** What a STREAM frame that is accepted does. *)
Record frameTaken (c c' : conn) (s s' : stream) (off : Z) (data : bytes) (fin : bool) : Prop := {
  ft_others : others c c' s s';
  ft_high : recvHigh (rs s') = Z.max (recvHigh (rs s)) (off + len data);
  ft_fin : recvFin (rs s') = if fin then off + len data else recvFin (rs s);
  ft_within : 0 <= recvFin (rs s') -> off + len data <= recvFin (rs s');
  ft_reset : peerReset (rs s') = peerReset (rs s);
  ft_stop : stopSent (rs s') = stopSent (rs s);
  ft_has : hasRecv (rs s') = hasRecv (rs s);
  ft_out :
    if recvDone (rs s) || peerReset (rs s) || stopSent (rs s) then
      recv (rs s') = recv (rs s) /\ events c' = events c /\ recvDone (rs s') = recvDone (rs s) || stopSent (rs s) && (0 <=? recvFin (rs s'))
    else exists out, onFrame (recv (rs s)) off data (recvSegmentLimit W) = Some (out, recv (rs s')) /\ delivers (sid s) out (recvDone (rs s')) (events c) (events c') /\
      recvDone (rs s') = (0 <=? recvFin (rs s')) && (offset (recv (rs s')) =? recvFin (rs s'))
}.

Lemma onStreamFrame_ok K oh orr ol c s off data fin :
  lok W CW K oh orr c s -> nok ol c s -> recvMaxData c <= K -> 0 <= off < 2 ^ 62 -> len data < 2 ^ 62 ->
  exists c' s' e, onStreamFrame W CW MI MIU c s off data fin = Some (c', s', e) /\
    (e = None -> lok W CW K oh orr c' s' /\ nok ol c' s' /\ frameTaken c c' s s' off data fin).
Proof.
  intros Hl Hn HK Ho Hd. pose proof (len_nonneg data). unfold onStreamFrame. rewrite u64_id by lia. set (end_ := off + len data).
  pose proof (lo_rok _ _ _ _ _ _ _ Hl) as Hr. pose proof (ro_fin _ _ Hr) as Hf.
  destruct (Z.ltb_spec maxVarint end_) as [|Hmv]; [eexists _, _, _; split; [reflexivity|discriminate]|]. assert (0 <= end_ < 2 ^ 62) as He by (unfold maxVarint in Hmv; change ((1 .<< 62) - 1) with (2 ^ 62 - 1) in Hmv; lia).
  destruct ((0 <=? recvFin (rs s)) && _) eqn:E1; [eexists _, _, _; split; [reflexivity|discriminate]|].
  destruct (fin && (end_ <? recvHigh (rs s))) eqn:E2; [eexists _, _, _; split; [reflexivity|discriminate]|].
  set (f := if fin then end_ else recvFin (rs s)).
  assert ((if fin then st_rs s (rv_recvFin (rs s) end_) else s) = st_rs s (rv_recvFin (rs s) f)) as -> by (unfold f; destruct fin; [reflexivity|now destruct s as [? ? [] ? ? ?]]).
  assert ((0 <= recvFin (rs s) -> end_ <= recvHigh (rs s)) /\ (0 <= f -> f = Z.max (recvHigh (rs s)) end_) /\ -1 <= f) as (Hin & Hf2 & Hf1).
  { unfold f. destruct fin; cbn [andb] in E2; rewrite ?Z.ltb_ge in E2; destruct (Z.leb_spec 0 (recvFin (rs s))); cbn [andb] in E1; try (apply orb_false_iff in E1 as [E1%Z.ltb_ge E3]); cbn [andb negb] in *;
      try (apply negb_false_iff, Z.eqb_eq in E3); lia. }
  cbn [rs st_rs rv_recvFin recvMax]. destruct (Z.ltb_spec (recvMax (rs s)) end_); [eexists _, _, _; split; [reflexivity|discriminate]|].
  destruct (reach c _ end_) as [[c1 s1] [e|]] eqn:Er; [eexists _, _, _; split; [reflexivity|discriminate]|].
  apply (reach_ok K oh orr) in Er as (Hl1 & Hc1 & Hs1); [|assumption..].
  assert (others c c1 s s1) as Hot1 by (rewrite Hs1; split; first [exact (f_equal isClient Hc1)|exact (f_equal closed Hc1)|exact (f_equal streams Hc1)|exact (f_equal sentData Hc1)|exact (f_equal peerMaxData Hc1)|exact (f_equal dataBlocked Hc1)|exact (f_equal ownBidi Hc1)|exact (f_equal ownUni Hc1)|reflexivity|now left|intros []; [exact (f_equal (fun c => q_opened (peerBidi c)) Hc1)|exact (f_equal (fun c => q_opened (peerUni c)) Hc1)]]).
  assert (nok ol c1 s1) as Hn1 by (apply (nok_unfinished _ c _ s); [exact Hot1| |exact Hn]; rewrite Hs1; split; [reflexivity|split; [exact (f_equal peerBidi Hc1)|exact (f_equal peerUni Hc1)]]).
  assert (recvHigh (rs s1) = Z.max (recvHigh (rs s)) end_ /\ recvFin (rs s1) = f /\ peerReset (rs s1) = peerReset (rs s) /\ stopSent (rs s1) = stopSent (rs s) /\ hasRecv (rs s1) = hasRecv (rs s) /\
    recvDone (rs s1) = recvDone (rs s) /\ recv (rs s1) = recv (rs s)) as (F1 & F2 & F3 & F4 & F5 & F6 & F7) by (now rewrite Hs1).
  pose proof (f_equal events Hc1 : events c1 = events c) as Ev. rewrite F3, F4, F6. destruct (recvDone (rs s) || peerReset (rs s) || stopSent (rs s)) eqn:Ed.
  - pose proof (discard_ok _ _ _ ol c1 s1 end_ Hl1 Hn1 ltac:(lia)) as Hdis. destruct (discard W CW MI MIU c1 s1 end_) as [c2 s2]. destruct Hdis as (Hl2 & Hn2 & Hcm & G1 & G2 & G3).
    exists c2, s2, None. split; [reflexivity|]. intros _. split; [exact Hl2|]. split; [exact Hn2|]. destruct Hcm. split; [exact (others_trans _ _ _ _ _ _ Hot1 ca_others0)|rewrite ca_high0; exact F1|rewrite ca_fin0; exact F2|rewrite ca_fin0, F2; fold end_; lia|congruence|congruence|congruence|].
    rewrite Ed. split; [congruence|]. split; [congruence|]. rewrite ca_fin0, F2, <- F6, <- F4, <- F2. exact G3.
  - destruct (takeIn_ok _ _ _ ol c1 s1 off data Hl1 Hn1 ltac:(lia)) as (c2 & s2 & e & E & Hok); [rewrite F6; now destruct (recvDone (rs s))|]. exists c2, s2, e. split; [exact E|]. intros He'.
    destruct (Hok He') as (Hl2 & Hn2 & Hcm & out & G1 & G2 & G3). split; [exact Hl2|]. split; [exact Hn2|]. destruct Hcm. split; [exact (others_trans _ _ _ _ _ _ Hot1 ca_others0)|rewrite ca_high0; exact F1|rewrite ca_fin0; exact F2|rewrite ca_fin0, F2; fold end_; lia|congruence|congruence|congruence|].
    rewrite Ed. exists out. rewrite F7 in G1. rewrite Ev, (ot_sid _ _ _ _ Hot1) in G2. rewrite ca_fin0. now split.
Qed.

(** What a RESET_STREAM frame that is accepted does. *)
Record resetTaken (c c' : conn) (s s' : stream) (code size : Z) : Prop := {
  rt_others : others c c' s s';
  rt_high : recvHigh (rs s') = size /\ recvHigh (rs s) <= size;
  rt_fin : recvFin (rs s') = size /\ (0 <= recvFin (rs s) -> recvFin (rs s) = size);
  rt_reset : peerReset (rs s') = peerReset (rs s) || negb (recvDone (rs s));
  rt_stop : stopSent (rs s') = stopSent (rs s);
  rt_has : hasRecv (rs s') = hasRecv (rs s);
  rt_done : recvDone (rs s') = recvDone (rs s);
  rt_recv : recv (rs s') = if recvDone (rs s) || peerReset (rs s) then recv (rs s) else mkRecv (offset (recv (rs s))) [] 0;
  rt_read : recvRead (rs s') = size;
  rt_events : events c' = events c ++ if recvDone (rs s) || peerReset (rs s) || stopSent (rs s) then [] else [evStreamReset (sid s) code]
}.

Lemma resetCounted_tidy c s :
  (resetCounted c s).1.1 = set_resets c (resets (resetCounted c s).1.1) /\ (resetCounted c s).1.2 = st_floodCounted s (floodCounted (resetCounted c s).1.2).
Proof. unfold resetCounted. destruct c, s. cbn. repeat case_match; cbn; auto. Qed.

Lemma resetCounted_ok K oh orr ol c s c' s' ok' :
  lok W CW K oh orr c s -> nok ol c s -> resetCounted c s = (c', s', ok') ->
  lok W CW K oh orr c' s' /\ nok ol c' s' /\ others c c' s s' /\ rs s' = rs s /\ events c' = events c /\ done s' = done s /\ queued s' = queued s /\ sendQueue c' = sendQueue c.
Proof.
  intros Hl Hn E. destruct (resetCounted_tidy c s) as [Hc Hs]. rewrite E in Hc, Hs. cbn [fst snd] in *. rewrite Hc, Hs. split; [destruct Hl as [[] ? ? ? ? ?]; constructor; [constructor; assumption|..]; assumption|].
  split; [exact Hn|]. split; [split; auto|]. now splits.
Qed.

Lemma onResetStream_ok K oh orr ol c s code size c' s' :
  lok W CW K oh orr c s -> nok ol c s -> recvMaxData c <= K -> 0 <= size < 2 ^ 62 -> onResetStream W CW MI MIU c s code size = (c', s', None) ->
  lok W CW K oh orr c' s' /\ nok ol c' s' /\ resetTaken c c' s s' code size.
Proof.
  intros Hl Hn HK Hs. unfold onResetStream. pose proof (lo_rok _ _ _ _ _ _ _ Hl) as Hr. pose proof (ro_fin _ _ Hr) as Hf.
  destruct (_ || (size <? _)) eqn:E1; [discriminate|]. apply orb_false_iff in E1 as [E1 E2%Z.ltb_ge]. destruct (Z.ltb_spec (recvMax (rs s)) size); [discriminate|].
  assert (0 <= recvFin (rs s) -> recvFin (rs s) = size) as Hfs by (intros Hp; destruct (Z.leb_spec 0 (recvFin (rs s))); [|lia]; cbn [andb] in E1; apply negb_false_iff, Z.eqb_eq in E1; lia).
  assert (exists c1 s1 o, reach c s size = (c1, s1, o) /\ reach c (st_rs s (rv_recvFin (rs s) size)) size = (c1, st_rs s1 (rv_recvFin (rs s1) size), o)) as (c1 & s1 & o & -> & Er).
  { unfold reach. cbn [st_rs rs rv_recvFin recvHigh]. destruct (_ <? size); eexists _, _, _; split; reflexivity. }
  destruct o as [e|]; [discriminate|]. apply (reach_ok K oh orr) in Er as (Hl1 & Hc1 & Hs1); [|first [assumption|lia]..]. rewrite Z.max_r in Hs1 by lia. revert Hl1 Hs1. generalize (st_rs s1 (rv_recvFin (rs s1) size)). clear s1. intros s1 Hl1 Hs1.
  assert (others c c1 s s1) as Hot1 by (rewrite Hs1; split; first [exact (f_equal isClient Hc1)|exact (f_equal closed Hc1)|exact (f_equal streams Hc1)|exact (f_equal sentData Hc1)|exact (f_equal peerMaxData Hc1)|exact (f_equal dataBlocked Hc1)|exact (f_equal ownBidi Hc1)|exact (f_equal ownUni Hc1)|reflexivity|now left|intros []; [exact (f_equal (fun c => q_opened (peerBidi c)) Hc1)|exact (f_equal (fun c => q_opened (peerUni c)) Hc1)]]).
  assert (nok ol c1 s1) as Hn1 by (apply (nok_unfinished _ c _ s); [exact Hot1| |exact Hn]; rewrite Hs1; split; [reflexivity|split; [exact (f_equal peerBidi Hc1)|exact (f_equal peerUni Hc1)]]).
  assert (recvHigh (rs s1) = size) as Eh by (now rewrite Hs1). destruct (consumed_ok _ _ _ _ _ size Hl1 ltac:(lia)) as [Hl2 Hrd]. destruct (consumed_calm c1 s1 size) as (Hcm & Hu & Erv & Ed & Ee).
  destruct (consumed W CW c1 s1 size) as [c2 s2]. cbn [fst snd] in *. pose proof (nok_unfinished _ _ _ _ _ (ca_others _ _ _ _ Hcm) Hu Hn1) as Hn2.
  pose proof (ro_read _ _ (lo_rok _ _ _ _ _ _ _ Hl1)). rewrite Z.max_r in Hrd by lia.
  assert (recvHigh (rs s2) = size /\ recvFin (rs s2) = size /\ peerReset (rs s2) = peerReset (rs s) /\ stopSent (rs s2) = stopSent (rs s) /\ hasRecv (rs s2) = hasRecv (rs s) /\
    recvDone (rs s2) = recvDone (rs s) /\ recv (rs s2) = recv (rs s) /\ events c2 = events c) as (F1 & F2 & F3 & F4 & F5 & F6 & F7 & F8).
  { destruct Hcm. rewrite Hs1 in *. cbn in *. pose proof (f_equal events Hc1 : events c1 = events c). splits; congruence. }
  pose proof (others_trans _ _ _ _ _ _ Hot1 (ca_others _ _ _ _ Hcm)) as Hot2. rewrite F6, F3. destruct (recvDone (rs s) || peerReset (rs s)) eqn:Edr.
  - intros [= <- <-]. split; [exact Hl2|]. split; [exact Hn2|]. split; rewrite ?Edr; auto; [rewrite F3; now destruct (recvDone (rs s)), (peerReset (rs s))|now rewrite app_nil_r].
  - apply orb_false_iff in Edr as [Edn Epr].
    assert (exists c3 s3 ok3, (if negb (stopSent (rs s2)) then resetCounted c2 s2 else (c2, s2, true)) = (c3, s3, ok3) /\ lok W CW K oh orr c3 s3 /\ nok ol c3 s3 /\ others c2 c3 s2 s3 /\ rs s3 = rs s2 /\ events c3 = events c2) as (c3 & s3 & ok3 & -> & Hl3 & Hn3 & Hot3 & Er3 & Ev3).
    { destruct (negb (stopSent (rs s2))); [|exists c2, s2, true; splits; auto using others_refl]. destruct (resetCounted c2 s2) as [[c3 s3] ok3] eqn:Erc. exists c3, s3, ok3. split; [reflexivity|].
      destruct (resetCounted_ok _ _ _ _ _ _ _ _ _ Hl2 Hn2 Erc) as (H3 & H4 & H5 & H6 & H7 & _). now splits. }
    destruct ok3; cbn [negb]; [|discriminate]. rewrite Er3, F7. set (s4 := st_rs s3 _). set (c4 := if negb (stopSent (rs s4)) then _ else c3).
    assert (lok W CW K oh orr c3 s4 /\ nok ol c3 s4) as [Hl4' Hn4'].
    { pose proof (bo_off _ _ (ro_buf _ _ (lo_rok _ _ _ _ _ _ _ Hl3))) as Hbo. rewrite Er3, F7 in Hbo. split; [|exact Hn3]. destruct Hl3 as [[] ? ? ? ? ?]. unfold s4. rewrite Er3, F7 in *.
      constructor; [constructor; cbn; first [assumption|lia|apply bufok_empty; lia]|..]; cbn; first [assumption|lia]. }
    assert (lok W CW K oh orr c4 s4 /\ nok ol c4 s4 /\ others c3 c4 s3 s4) as (Hl4 & Hn4 & Hot4).
    { unfold c4. destruct (negb (stopSent (rs s4))); (split; [destruct Hl4'; now constructor|]); (split; [exact Hn4'|]); split; auto. }
    pose proof (maybeFinish_ok _ _ _ _ _ _ Hl4 Hn4) as Hmf. destruct (maybeFinish MI MIU c4 s4) as [c5 s5]. destruct Hmf as (Hl5 & Hn5 & Hcm5 & Er5 & Ev5 & _). intros [= <- <-].
    split; [exact Hl5|]. split; [exact Hn5|]. pose proof (others_trans _ _ _ _ _ _ Hot2 (others_trans _ _ _ _ _ _ Hot3 (others_trans _ _ _ _ _ _ Hot4 (ca_others _ _ _ _ Hcm5)))) as Hot5.
    split; rewrite ?Er5, ?Edn, ?Epr; auto; try (unfold s4; cbn; congruence); [unfold s4; cbn; auto..|]. rewrite Ev5. unfold c4, s4. cbn [st_rs rs rv_recv rv_maxDataPending rv_peerReset stopSent sid orb]. rewrite F4, <- F8, <- Ev3.
    destruct (stopSent (rs s)); cbn [negb]; [now rewrite app_nil_r|]. cbn. now rewrite (ot_sid _ _ _ _ Hot3), (ot_sid _ _ _ _ Hot2).
Qed.

(** ** The application *)

Lemma stopSending_ok K oh orr ol c s code :
  lok W CW K oh orr c s -> nok ol c s ->
  let '(c', s') := stopSendingLocked c s code in
  lok W CW K oh orr c' s' /\ nok ol c' s' /\ calm c c' s (st_rs s' (rv_stopPending (rv_stopSent (rs s') (stopSent (rs s))) (stopPending (rs s)))) /\ unfinished c c' s s' /\
  recvDone (rs s') = recvDone (rs s) /\ events c' = events c /\
  (if stopSent (rs s') then offset (recv (rs s')) = offset (recv (rs s)) else recv (rs s') = recv (rs s)) /\ (stopSent (rs s) = true -> stopSent (rs s') = true).
Proof.
  intros Hl Hn. unfold stopSendingLocked. destruct (negb (hasRecv (rs s)) || recvDone (rs s) || stopSent (rs s)) eqn:E.
  { assert (st_rs s (rv_stopPending (rv_stopSent (rs s) (stopSent (rs s))) (stopPending (rs s))) = s) as -> by (now destruct s as [? ? [] ? ? ?]). splits; auto using calm_refl; [now split|now destruct (stopSent (rs s))]. }
  set (s1 := st_rs s _). assert (lok W CW K oh orr c s1) as Hl1.
  { pose proof (bo_off _ _ (ro_buf _ _ (lo_rok _ _ _ _ _ _ _ Hl))). destruct Hl as [[] ? ? ? ? ?]. constructor; [constructor; cbn; first [assumption|apply bufok_empty; lia]|..]; assumption. }
  pose proof (lok_queue _ _ _ _ _ Hl1) as Hl2. unfold queueStream in *. destruct (negb (queued s1) && negb (done s1)); cbn [fst snd] in *.
  all: split; [exact Hl2|]; split; [exact Hn|]; split; [split; [split; auto|..]; try reflexivity; cbn; lia|]; split; [now split|]; now splits.
Qed.

Lemma HoldCredit_ok K oh orr ol c s :
  lok W CW K oh orr c s -> nok ol c s -> lok W CW K oh orr c (HoldCredit s) /\ nok ol c (HoldCredit s) /\ exists r, HoldCredit s = st_rs s r /\ recv r = recv (rs s) /\ recvHigh r = recvHigh (rs s) /\ recvFin r = recvFin (rs s) /\
    recvDone r = recvDone (rs s) /\ peerReset r = peerReset (rs s) /\ stopSent r = stopSent (rs s) /\ hasRecv r = hasRecv (rs s) /\ stopPending r = stopPending (rs s) /\ maxDataPending r = maxDataPending (rs s).
Proof.
  intros Hl Hn. unfold HoldCredit. destruct (holdCredit (rs s)); cbn [negb].
  - split; [exact Hl|]. split; [exact Hn|]. exists (rs s). split; [now destruct s|]. now splits.
  - pose proof (bo_off _ _ (ro_buf _ _ (lo_rok _ _ _ _ _ _ _ Hl))). split; [|split; [exact Hn|eexists; split; [reflexivity|now splits]]].
    destruct Hl as [[] ? ? ? ? ?]. constructor; [constructor; cbn; first [assumption|lia]|..]; assumption.
Qed.

Lemma Credit_ok K oh orr ol c s n :
  lok W CW K oh orr c s -> nok ol c s -> n < 2 ^ 63 ->
  let '(c', s') := Credit W CW c s n in
  lok W CW K oh orr c' s' /\ nok ol c' s' /\ calm c c' s s' /\ unfinished c c' s s' /\ recv (rs s') = recv (rs s) /\ recvDone (rs s') = recvDone (rs s) /\ events c' = events c.
Proof.
  intros Hl Hn Hb. unfold Credit. destruct (negb (holdCredit (rs s)) || (n <=? 0)) eqn:E; [splits; auto using calm_refl; now split|]. apply orb_false_iff in E as [_ En%Z.leb_gt].
  pose proof (ro_credit _ _ (lo_rok _ _ _ _ _ _ _ Hl)) as Hc. pose proof (bo_off _ _ (ro_buf _ _ (lo_rok _ _ _ _ _ _ _ Hl))) as Hbo. pose proof (ro_top _ _ (lo_rok _ _ _ _ _ _ _ Hl)) as Ht.
  rewrite u64_id by lia. set (s1 := st_rs s _). set (off := creditAt (rs s1)). assert (0 <= off <= offset (recv (rs s))) as Ho by (unfold off, s1; cbn; lia).
  assert (lok W CW K oh orr c s1) as Hl1 by (destruct Hl as [[] ? ? ? ? ?]; constructor; [constructor; cbn; first [assumption|unfold off, s1 in Ho; cbn in Ho; lia]|..]; assumption).
  destruct (consumed_ok _ _ _ _ _ off Hl1 ltac:(cbn; lia)) as [Hl2 _]. destruct (consumed_calm c s1 off) as (Hcm & Hu & Er & Ed & Ee). destruct (consumed W CW c s1 off) as [c' s']. cbn [fst snd] in *.
  assert (calm c c' s s') as Hcm' by (destruct Hcm as [[]]; split; [split|..]; assumption).
  split; [exact Hl2|]. split; [exact (nok_unfinished _ _ _ _ _ (ca_others _ _ _ _ Hcm') Hu Hn)|]. now splits.
Qed.

End Flow.

End QFlow.
