(* ===== verification/QuicOut.v ===== *)
(** * QUIC streams, sent (src/http3/quic/stream.go, blocked.go)

    What a stream puts in packets: its own bytes and its end, within the limits of
    the stream and of the connection, none of them forgotten until the peer has
    them; and that the frames read back as they were written. *)

From S2P Require Import Prelude QuicVarint QuicRanges QuicRecv QuicSend QuicFrames QuicStream QuicFlow.
From stdpp Require Import base list numbers gmap.
From Stdlib Require Import ZArith Lia.

Local Open Scope Z_scope.
Local Open Scope go_scope.

Module QOut.
Import Varint QStream.

(** ** Frames as bytes *)

Definition enc (f : frame) : bytes :=
  match f with
  | FResetStream id code size => Frames.appendResetStream [] id code size
  | FStopSending id code => Frames.appendStopSending [] id code
  | FMaxStreamData id max => Frames.appendMaxStreamData [] id max
  | FStreamDataBlocked id at' => Frames.appendStreamDataBlocked [] id at'
  | FStream id off data fin =>
      let typ := if 0 <? off then (if fin then 0x0f else 0x0e) else (if fin then 0x0b else 0x0a) in
      typ :: AppendVarint [] id ++ (if 0 <? off then AppendVarint [] off else []) ++ AppendVarint [] (len data) ++ data
  | _ => []
  end.

(** The frames a stream sends, each of its numbers one a frame can hold. *)
Definition enc_ok (f : frame) : Prop :=
  let fits x := 0 <= x < 2 ^ 62 in
  match f with
  | FResetStream id code size => fits id /\ fits code /\ fits size
  | FStopSending id code => fits id /\ fits code
  | FMaxStreamData id max => fits id /\ fits max
  | FStreamDataBlocked id at' => fits id /\ fits at'
  | FStream id off data fin => fits id /\ fits off /\ len data < 2 ^ 62
  | _ => False
  end.

(** What the record of a sent packet keeps of a frame. *)
Definition sentOf (f : frame) : sentFrame :=
  match f with
  | FResetStream id _ _ => sfResetStream id
  | FStopSending id _ => sfStopSending id
  | FMaxStreamData id _ => sfMaxStreamData id
  | FStreamDataBlocked id at' => sfStreamDataBlocked id at'
  | FStream id off data fin => sfStream id off (len data) fin
  | _ => sfMaxData
  end.

Lemma varint_type t rest bad : 0 <= t < 64 -> varint (mkReader (t :: rest) bad) = (t, mkReader rest bad).
Proof.
  intros Ht. pose proof (Frames.varint_read t rest bad ltac:(lia)) as H. unfold AppendVarint in H. change (1 .<< 6) with 64 in H.
  rewrite (proj2 (Z.ltb_lt t 64)) in H by lia. cbn [app] in H. unfold u8 in H. now rewrite Z.mod_small in H by lia.
Qed.

(** A test of constants, taken. *)
Ltac test :=
  match goal with
  | |- context [if ?b then _ else _] => let v := eval vm_compute in b in match v with true => idtac | false => idtac end; change b with v; cbv beta iota
  end.

(** The reader undoes the writer, whatever follows. *)
Lemma readFrame_enc f rest : enc_ok f -> readFrame (mkReader (enc f ++ rest) false) = (f, mkReader rest false).
Proof.
  destruct f as [| |id code size|id code|id off data fin| |id max| | |id at'| |]; cbn [enc_ok]; try tauto.
  1,2,4,5: intros Hf; cbn [enc]; unfold Frames.appendResetStream, Frames.appendStopSending, Frames.appendMaxStreamData, Frames.appendStreamDataBlocked;
    rewrite ?(AppendVarint_app (AppendVarint (AppendVarint _ _) _)), ?(AppendVarint_app (AppendVarint _ _)), ?(AppendVarint_app ([] ++ _)), <- ?app_assoc; cbn [app];
    unfold readFrame; rewrite varint_type by (vm_compute; split; congruence); repeat test; rewrite !Frames.varint_read by tauto; reflexivity.
  intros (Hid & Hoff & Hd). cbn [enc]. rewrite <- !app_comm_cons, <- !app_assoc. unfold readFrame.
  pose proof (len_nonneg data). destruct (Z.ltb_spec 0 off) as [Hp|Hz]; destruct fin; rewrite varint_type by lia; repeat test; rewrite ?app_nil_l, (Frames.varint_read id) by lia; repeat test;
    try (rewrite (Frames.varint_read off) by lia; repeat test); rewrite (Frames.varint_read (len data)) by lia; rewrite Frames.read_bytes_app by reflexivity;
    [reflexivity..|replace off with 0 by lia; reflexivity|replace off with 0 by lia; reflexivity].
Qed.

(** ** One stream and its connection *)

(** The bytes of a stream that was written [w]. *)
Definition cont (w : bytes) (x : Z) : Z := default 0 (w !! Z.to_nat x).

Lemma cont_agrees w off n : 0 <= off -> agrees (cont w) off (ztake n (zdrop off w)).
Proof.
  intros Ho k d Hk. unfold ztake, zdrop in Hk. apply lookup_take_Some in Hk as [Hk _]. rewrite lookup_drop in Hk. unfold cont.
  replace (Z.to_nat (off + Z.of_nat k)) with (Z.to_nat off + k)%nat by lia. now rewrite Hk.
Qed.

Lemma cont_app w p : agrees (cont (w ++ p)) (len w) p.
Proof.
  intros k d Hk. unfold cont, len. replace (Z.to_nat (Z.of_nat (length w) + Z.of_nat k)) with (length w + k)%nat by lia. now rewrite lookup_app_r, Nat.add_comm, Nat.add_sub, Hk by lia.
Qed.

Lemma cont_old w p off data : 0 <= off -> off + len data <= len w -> agrees (cont w) off data -> agrees (cont (w ++ p)) off data.
Proof.
  intros Ho He Ha k d Hk. rewrite (Ha k d Hk). unfold cont. apply lookup_lt_Some in Hk. unfold len in He. now rewrite lookup_app_l by lia.
Qed.

(** The bytes of a buffer are what was written, also once more is. *)
Lemma sok_app w p b : Send.sok (cont w) b -> Send.end_ b = len w -> Send.sok (cont (w ++ p)) b.
Proof.
  intros [Hc He Hn Hcur Hl Ha Hb] Hend. split; try assumption. rewrite Hend in He.
  assert (forall from ps, 0 <= from -> Send.chain (cont w) from ps -> Send.chain_end from ps <= len w -> Send.chain (cont (w ++ p)) from ps) as Hch; [|apply Hch; [lia|exact Hc|lia]].
  intros from ps. revert from. induction ps as [|q ps IH]; intros from Hf; [auto|]. cbn [Send.chain Send.chain_end]. intros (H1 & H2 & H3 & H4) H5.
  pose proof (Send.chain_end_ge _ _ _ H4) as H6. unfold Send.p_end in *. split; [exact H1|]. split; [exact H2|]. split; [apply cont_old; [lia|lia|exact H3]|]. apply IH; [lia|exact H4|exact H5].
Qed.

(** A byte of a stream is in a frame on its way. *)
Definition onItsWay (F : list sentFrame) (id x : Z) : Prop := exists off n fin, sfStream id off n fin ∈ F /\ off <= x < off + n.

(** What is promised of the sending side of a stream that was written [w]: [F] is
    what was sent and neither acknowledged nor lost yet, [os] what the other streams
    have sent. *)
Record xok (w : bytes) (F : list sentFrame) (os : Z) (c : conn) (s : stream) : Prop := {
  xo_w : len w < 2 ^ 62 /\ 0 <= sid s < 2 ^ 62;
  xo_sent : sentData c = os + Send.next (send (ss s)) /\ 0 <= os;
  xo_conn : sentData c <= peerMaxData c /\ peerMaxData c < 2 ^ 62;
  xo_max : 0 <= Send.next (send (ss s)) <= sendMax (ss s) /\ sendMax (ss s) < 2 ^ 62;
  xo_next : Send.next (send (ss s)) <= len w;
  xo_buf : reset (ss s) = false -> Send.sok (cont w) (send (ss s)) /\ Send.end_ (send (ss s)) = len w;
  xo_final : reset (ss s) = false -> finQueued (ss s) = true -> finalSize (ss s) = len w;
  xo_fin : (finSent (ss s) = true -> finQueued (ss s) = true) /\ (finAcked (ss s) = true -> finQueued (ss s) = true);
  xo_cut : reset (ss s) = true -> finalSize (ss s) = Send.next (send (ss s)) /\ 0 <= resetCode (ss s) < 2 ^ 62;
  xo_flight : forall off n fin, sfStream (sid s) off n fin ∈ F ->
    0 <= off /\ 0 <= n /\ off + n <= Send.next (send (ss s)) /\ (fin = true -> finQueued (ss s) = true /\ off + n = len w);
  xo_rel : reset (ss s) = false -> forall x, 0 <= x < Send.next (send (ss s)) ->
    Send.ackedSet (send (ss s)) x \/ Ranges.mem (Send.lost (send (ss s))) x \/ onItsWay F (sid s) x;
  xo_finrel : reset (ss s) = false -> finSent (ss s) = true -> finAcked (ss s) = true \/ exists off n, sfStream (sid s) off n true ∈ F;
  xo_resetrel : reset (ss s) = true -> resetPending (ss s) = true \/ resetAcked (ss s) = true \/ sfResetStream (sid s) ∈ F;
  xo_none : hasSend (ss s) = false -> reset (ss s) = false /\ finQueued (ss s) = false /\ w = [];
  xo_done : done s = true -> sendDone s = true;
  xo_flags : reset (ss s) = false -> resetPending (ss s) = false
}.

(** The bytes a frame carries are the stream's, and its end is where the stream
    ends. *)
Definition carries (w : bytes) (s : stream) (f : frame) : Prop :=
  match f with
  | FStream id off data fin => id = sid s /\ agrees (cont w) off data /\ off + len data <= len w /\ (fin = true -> finQueued (ss s) = true /\ off + len data = len w)
  | FResetStream id _ size => id = sid s /\ reset (ss s) = true /\ size = finalSize (ss s)
  | _ => True
  end.

Lemma onItsWay_app F G id x : onItsWay F id x -> onItsWay (F ++ G) id x.
Proof. intros (off & n & fin & Hin & Hx). exists off, n, fin. split; [apply elem_of_app; now left|exact Hx]. Qed.

(** A STREAM frame, as bytes. *)
Lemma appendStreamFrame_enc (w : bytes) s b off (data : bytes) :
  0 <= off -> off + len data <= len w -> len w < 2 ^ 62 -> (finQueued (ss s) = true -> finalSize (ss s) = len w) ->
  let fin := finQueued (ss s) && negb (finSent (ss s)) && (off + len data =? len w) in
  appendStreamFrame s b off data = (st_ss s (sd_finSent (ss s) (finSent (ss s) || fin)), b ++ enc (FStream (sid s) off data fin), sfStream (sid s) off (len data) fin).
Proof.
  intros Ho He Hw Hf. pose proof (len_nonneg data). unfold appendStreamFrame. rewrite u64_id by lia.
  assert (finQueued (ss s) && negb (finSent (ss s)) && (off + len data =? finalSize (ss s)) = finQueued (ss s) && negb (finSent (ss s)) && (off + len data =? len w)) as ->
    by (destruct (finQueued (ss s)); [now rewrite Hf|reflexivity]).
  set (fin := finQueued (ss s) && negb (finSent (ss s)) && (off + len data =? len w)). cbv zeta.
  assert ((if fin then st_ss s (sd_finSent (ss s) true) else s) = st_ss s (sd_finSent (ss s) (finSent (ss s) || fin))) as Es.
  { destruct fin; [now rewrite orb_true_r|]. rewrite orb_false_r. now destruct s as [? [] ? ? ? ?]. }
  f_equal; [f_equal; [exact Es|]|now destruct fin]. assert (sid (if fin then st_ss s (sd_finSent (ss s) true) else s) = sid s) as -> by (now destruct fin).
  cbn [enc]. rewrite (AppendVarint_app (if 0 <? off then _ else _)), (AppendVarint_app (AppendVarint _ _)), (AppendVarint_app (b ++ _)).
  destruct (0 <? off), fin; cbn [app]; rewrite <- ?app_assoc; cbn [app]; reflexivity.
Qed.

Lemma enc_stream_pos id off (data : bytes) fin : 1 + len data <= len (enc (FStream id off data fin)).
Proof. cbn [enc]. rewrite len_cons, !len_app. pose proof (len_nonneg (AppendVarint [] id)). pose proof (len_nonneg (if 0 <? off then AppendVarint [] off else [])). pose proof (len_nonneg (AppendVarint [] (len data))). lia. Qed.

Lemma varint_pos v : 1 <= VarintLen v <= 8.
Proof. unfold VarintLen. repeat case_match; lia. Qed.

Lemma enc_stream_len id off (data : bytes) fin : 0 <= id < 2 ^ 62 -> 0 <= off < 2 ^ 62 -> len data < 2 ^ 14 -> len (enc (FStream id off data fin)) <= 1 + VarintLen id + VarintLen off + 2 + len data.
Proof.
  intros Hid Ho Hd. pose proof (len_nonneg data). cbn [enc]. rewrite len_cons, !len_app.
  destruct (ReadVarint_AppendVarint id [] Hid) as [-> _]. destruct (ReadVarint_AppendVarint (len data) [] ltac:(lia)) as [-> _].
  assert (VarintLen (len data) <= 2) by (unfold VarintLen; rewrite !Z.shiftl_1_l; destruct (Z.ltb_spec (len data) (2 ^ 6)); [lia|]; rewrite (proj2 (Z.ltb_lt _ _)); lia).
  destruct (0 <? off); [destruct (ReadVarint_AppendVarint off [] Ho) as [-> _]; lia|]. change (len []) with 0. pose proof (varint_pos off). lia.
Qed.

(** What a stream gets on its way, from the buffer its bytes were taken off. *)
Lemma xok_frame w F os c c' s b buf off data :
  xok w F os c s -> reset (ss s) = false ->
  Send.sok (cont w) buf -> Send.end_ buf = Send.end_ (send (ss s)) -> Send.next (send (ss s)) <= Send.next buf <= sendMax (ss s) ->
  agrees (cont w) off data -> 0 <= off -> off + len data <= Send.next buf ->
  (forall x, Send.ackedSet (send (ss s)) x -> Send.ackedSet buf x) ->
  (forall x, 0 <= x < Send.next (send (ss s)) -> Ranges.mem (Send.lost (send (ss s))) x -> Send.ackedSet buf x \/ Ranges.mem (Send.lost buf) x \/ off <= x < off + len data) ->
  (forall x, Send.next (send (ss s)) <= x < Send.next buf -> off <= x < off + len data) ->
  sentData c' = sentData c + (Send.next buf - Send.next (send (ss s))) -> sentData c' <= peerMaxData c' -> peerMaxData c' = peerMaxData c ->
  (done s = true -> finAcked (ss s) = true /\ Send.allAcked buf = true) ->
  exists s' fin, appendStreamFrame (st_send s buf) b off data = (s', b ++ enc (FStream (sid s) off data fin), sfStream (sid s) off (len data) fin) /\
    xok w (F ++ [sfStream (sid s) off (len data) fin]) os c' s' /\ carries w s (FStream (sid s) off data fin) /\
    s' = st_ss s (sd_finSent (sd_send (ss s) buf) (finSent (ss s) || fin)) /\ fin = finQueued (ss s) && negb (finSent (ss s)) && (off + len data =? len w).
Proof.
  intros [Hw Hs Hc Hm Hn Hb Hfin Hfq Hcut Hfl Hrel Hfr Hrr Hno Hd Hfg] Hr Hok He Hnx Ha Ho Hoe Hak Hlost Hnew Hsd Hpm Hpe Hdn.
  destruct (Hb Hr) as [Hok0 He0]. pose proof (Send.so_next _ _ Hok) as Hbn. pose proof (len_nonneg data).
  rewrite (appendStreamFrame_enc w) by (cbn; auto; lia). cbn [st_send st_ss ss sd_send finQueued finSent sid].
  set (fin := finQueued (ss s) && negb (finSent (ss s)) && (off + len data =? len w)).
  assert (fin = true -> finQueued (ss s) = true /\ off + len data = len w) as Hft by (unfold fin; rewrite !andb_true_iff, Z.eqb_eq; tauto).
  eexists _, fin. split; [reflexivity|]. split; [|split; [split; [reflexivity|split; [exact Ha|split; [lia|exact Hft]]]|split; reflexivity]].
  split; cbn [st_ss ss sid sd_finSent sd_send send sendMax finQueued finSent finAcked reset resetPending resetAcked resetCode finalSize hasSend done]; try assumption; try congruence; try lia.
  - intros _. split; [exact Hok|lia].
  - split; [|tauto]. rewrite orb_true_iff. tauto.
  - intros off' n' fin' [Hin|Hin]%elem_of_app; [destruct (Hfl _ _ _ Hin) as (? & ? & ? & ?); splits; auto; lia|].
    apply list_elem_of_singleton in Hin. injection Hin as -> -> ->. splits; auto; lia.
  - intros _ x Hx. assert (off <= x < off + len data -> onItsWay (F ++ [sfStream (sid s) off (len data) fin]) (sid s) x) as Hway.
    { intros Hin. exists off, (len data), fin. split; [apply elem_of_app; right; now apply list_elem_of_singleton|exact Hin]. }
    destruct (Z.lt_ge_cases x (Send.next (send (ss s)))) as [Hlt|Hge]; [|right; right; apply Hway, Hnew; lia].
    destruct (Hrel Hr x ltac:(lia)) as [Hx1|[Hx2|Hx3]]; [left; auto| |right; right; now apply onItsWay_app]. destruct (Hlost x ltac:(lia) Hx2) as [?|[?|?]]; auto.
  - intros _ Hf. destruct (finSent (ss s)) eqn:Efs; cbn [orb] in Hf.
    + destruct (Hfr Hr eq_refl) as [?|(o & n & Hin)]; [now left|]. right. exists o, n. apply elem_of_app. now left.
    + right. exists off, (len data). apply elem_of_app. right. rewrite Hf. now apply list_elem_of_singleton.
  - intros Hdd. destruct (Hdn Hdd) as [Hf1 Hf2]. unfold sendDone. cbn. rewrite Hr, Hf1, Hf2. now destruct (hasSend (ss s)).
Qed.

Lemma skipped_sok content b : Send.sok content b -> Send.sok content (Send.hasLost b).1.
Proof.
  intros [Hc He Hn Hcur [Hl1 Hl2] Ha Hb]. destruct (Send.skipLost_spec _ _ (Send.base b) Hl1) as (H1 & H2 & H3 & H4 & H5). split; try assumption. cbn. split; [exact H1|now apply H5].
Qed.

(** Looking for what was lost forgets only what was acknowledged. *)
Lemma xok_hasLost w F os c s : xok w F os c s -> reset (ss s) = false -> xok w F os c (st_send s (Send.hasLost (send (ss s))).1).
Proof.
  intros [Hw Hs Hc Hm Hn Hb Hfin Hfq Hcut Hfl Hrel Hfr Hrr Hno Hd Hfg] Hr. destruct (Hb Hr) as [Hok He]. split; cbn; try assumption; try congruence.
  - intros _. split; [now apply skipped_sok|exact He].
  - intros _ x Hx. destruct (Hrel Hr x Hx) as [Hx1|[Hx2|Hx3]]; [now left| |now right; right]. destruct (Z.lt_ge_cases x (Send.base (send (ss s)))) as [Hlt|Hge]; [now left; left|].
    right; left. now apply (Send.skipLost_spec _ 0); [apply (Send.so_lost _ _ Hok)|..].
Qed.

(** Only the data sent is different. *)
Definition outsame (s s' : stream) : Prop := s' = st_ss s (sd_finSent (sd_send (ss s) (send (ss s'))) (finSent (ss s'))).

Lemma outsame_refl s : outsame s s.
Proof. unfold outsame. now destruct s as [? [] ? ? ? ?]. Qed.

Lemma outsame_trans s1 s2 s3 : outsame s1 s2 -> outsame s2 s3 -> outsame s1 s3.
Proof. unfold outsame. intros H1 H2. rewrite H2, H1. reflexivity. Qed.

(** The frames [fs] added to a packet and to its record. *)
Record added (w : bytes) (F : list sentFrame) (os : Z) (c' : conn) (s s' : stream) (b b' : bytes) (p p' : list sentFrame) (fs : list frame) : Prop := {
  ad_bytes : b' = b ++ mjoin (enc <$> fs);
  ad_sent : p' = p ++ (sentOf <$> fs);
  ad_xok : xok w (F ++ (sentOf <$> fs)) os c' s';
  ad_carries : Forall (fun f => carries w s f /\ enc_ok f) fs;
  ad_same : outsame s s'
}.

Lemma added_nil w F os c s b p : xok w F os c s -> added w F os c s s b b p p [].
Proof. intros H. split; cbn; rewrite ?app_nil_r; auto using outsame_refl. Qed.

Lemma carries_same w s s' f : outsame s s' -> carries w s' f -> carries w s f.
Proof. intros Hs. unfold outsame in Hs. rewrite Hs. destruct f; auto. Qed.

Lemma added_cons w F os c' s s1 s' b b' p p' f fs :
  outsame s s1 -> carries w s f -> enc_ok f -> added w (F ++ [sentOf f]) os c' s1 s' (b ++ enc f) b' (p ++ [sentOf f]) p' fs -> added w F os c' s s' b b' p p' (f :: fs).
Proof.
  intros Hs Hc He [H1 H2 H3 H4 H5]. split.
  - rewrite H1. cbn [fmap list_fmap mjoin list_join]. now rewrite <- app_assoc.
  - rewrite H2. cbn [fmap list_fmap]. now rewrite <- app_assoc.
  - cbn [fmap list_fmap]. now rewrite <- app_assoc in H3.
  - constructor; [now split|]. eapply List.Forall_impl; [|exact H4]. intros g [Hg1 Hg2]. split; [exact (carries_same _ _ _ _ Hs Hg1)|exact Hg2].
  - exact (outsame_trans _ _ _ Hs H5).
Qed.

Lemma added_skip w F os c' s s1 s' b b' p p' fs : outsame s s1 -> added w F os c' s1 s' b b' p p' fs -> added w F os c' s s' b b' p p' fs.
Proof.
  intros Hs [H1 H2 H3 H4 H5]. split; auto; [|exact (outsame_trans _ _ _ Hs H5)]. eapply List.Forall_impl; [|exact H4]. intros g [Hg1 Hg2]. split; [exact (carries_same _ _ _ _ Hs Hg1)|exact Hg2].
Qed.

(** No range queued to be sent again starts before what was acknowledged. *)
Definition aligned (b : Send.sendBuffer) : Prop := Forall (fun l => Send.base b <= Ranges.s_off l) (Send.lost b).

Lemma skipped_aligned b : aligned b -> aligned (Send.hasLost b).1.
Proof. unfold aligned. cbn. induction 1 as [|l rest Hl Hr IH]; cbn; [constructor|]. destruct (_ <=? _); [exact IH|now constructor]. Qed.

Lemma popLost_aligned content b n l rest off data buf :
  Send.sok content b -> 0 < n -> Send.lost b = l :: rest -> Send.base b < Ranges.s_end l -> aligned b -> Send.popLost b n = Some (off, data, buf) -> off = Ranges.s_off l /\ aligned buf.
Proof.
  intros Hok Hn El Hlt Hal E. unfold aligned in Hal. rewrite El in Hal. inversion Hal as [|? ? Hl Hr]; subst.
  assert (Send.skipLost (Send.lost b) (Send.base b) = l :: rest) as Es by (rewrite El; cbn; now rewrite (proj2 (Z.leb_gt _ _)) by lia).
  destruct (Send.popLost_head content b n l rest Hok Hn Es) as (d & E' & _ & Hd & _). rewrite E in E'. injection E' as -> -> ->. rewrite Z.max_l in * by lia. split; [reflexivity|].
  unfold aligned. cbn [Send.set_lost Send.lost Send.base]. destruct (_ <=? _); [exact Hr|]. constructor; [cbn; lia|exact Hr].
Qed.

(** What was lost goes first: the loop ends, and leaves off only when the packet is
    full or nothing is left of it. *)
Lemma lostLoop_ok fuel w F os c s b max p :
  xok w F os c s -> reset (ss s) = false -> done s = false -> (Z.to_nat (max - len b) < fuel)%nat ->
  exists s' b' p' go fs, lostLoop fuel s b max p = Some (s', b', p', go) /\ added w F os c s s' b b' p p' fs /\ Send.next (send (ss s')) = Send.next (send (ss s)) /\
    (go = true -> Send.lost (send (ss s')) = []) /\ (len b <= max -> max <= 2 ^ 14 -> aligned (send (ss s)) -> len b' <= max).
Proof.
  revert F s b p. induction fuel as [|fuel IH]; intros F s b p Hx Hr Hdn Hf; [lia|]. cbn [lostLoop]. pose proof (xok_hasLost _ _ _ _ _ Hx Hr) as Hx1.
  set (s1 := st_send s (Send.hasLost (send (ss s))).1) in *. assert (outsame s s1) as Hs1 by (unfold outsame, s1; now destruct s as [? [] ? ? ? ?]).
  destruct (xo_buf _ _ _ _ _ Hx1 Hr) as [Hok He]. pose proof (xo_buf _ _ _ _ _ Hx Hr) as [Hok0 _].
  destruct (Send.lost (send (ss s1))) as [|l rest] eqn:El.
  { exists s1, b, p, true, []. split; [reflexivity|]. split; [apply (added_skip _ _ _ _ _ s1); [exact Hs1|now apply added_nil]|]. split; [reflexivity|]. split; [auto|]. intros. assumption. }
  change (sid s1) with (sid s). destruct (Z.leb_spec (max - len b - 1 - VarintLen (sid s) - VarintLen (Ranges.s_off l) - 2) 0) as [Hfull|Hroom].
  { exists s1, b, p, false, []. split; [reflexivity|]. split; [apply (added_skip _ _ _ _ _ s1); [exact Hs1|now apply added_nil]|]. split; [reflexivity|]. split; [discriminate|]. intros. assumption. }
  set (avail := max - len b - 1 - VarintLen (sid s) - VarintLen (Ranges.s_off l) - 2) in *.
  destruct (Send.popLost_spec _ _ avail Hok ltac:(lia)) as (off & data & buf & Epop & Hok' & Hbase & Hnext & Hend & Hack & Hag & Hle & Hne & Ho & Hoe & Hob & Hin & Hkeep). rewrite Epop.
  assert (Send.base (send (ss s1)) < Ranges.s_end l) as Hhd by (destruct (Send.skipLost_spec _ _ (Send.base (send (ss s))) (proj1 (Send.so_lost _ _ Hok0))) as (_ & _ & _ & Hh & _); exact (Hh l rest El)).
  assert (data <> []) as Hdata.
  { intros E. destruct (Hne E) as [|Hno]; [lia|]. destruct (Send.so_lost _ _ Hok) as [Hwf _]. rewrite El in Hwf. destruct Hwf as [Hlo _].
    apply (Hno (Z.max (Ranges.s_off l) (Send.base (send (ss s1))))); [lia|]. rewrite El. apply Ranges.mem_cons. left. lia. }
  assert (0 < len data) as Hpos by (destruct data; [easy|rewrite len_cons; pose proof (len_nonneg data); lia]).
  pose proof (xo_max _ _ _ _ _ Hx1) as Hmx. pose proof (xo_w _ _ _ _ _ Hx1) as Hw. pose proof (xo_next _ _ _ _ _ Hx1) as Hnw.
  destruct (xok_frame w F os c c s1 b buf off data Hx1 Hr Hok' Hend ltac:(lia) Hag Ho ltac:(lia)) as (s2 & fin & -> & Hx2 & Hcar & Hs2 & Hfe).
  { intros x [?|?]; [left; lia|right; now rewrite Hack]. }
  { intros x Hx3 Hml. destruct (Z.lt_ge_cases x (Send.base (send (ss s1)))); [left; left; lia|]. destruct (Hkeep x ltac:(lia) Hml); auto. }
  { intros x Hx3. lia. } { lia. } { apply (xo_conn _ _ _ _ _ Hx1). } { reflexivity. } { change (done s1) with (done s). congruence. }
  change (sid s1) with (sid s) in *. pose proof (enc_stream_pos (sid s) off data fin) as Hep.
  assert (outsame s s2) as Hs2' by (rewrite Hs2; unfold outsame; now destruct s as [? [] ? ? ? ?]).
  assert (reset (ss s2) = false /\ done s2 = false /\ send (ss s2) = buf) as (Hr2 & Hd2 & Eb2) by (rewrite Hs2; cbn; auto).
  destruct (IH (F ++ [sfStream (sid s) off (len data) fin]) s2 (b ++ enc (FStream (sid s) off data fin)) (p ++ [sfStream (sid s) off (len data) fin]) Hx2 Hr2 Hd2) as (s' & b' & p' & go & fs & E & Had & Hnx & Hgo & Hlen).
  { rewrite len_app. pose proof (varint_pos (sid s)). pose proof (varint_pos (Ranges.s_off l)). lia. }
  exists s', b', p', go, (FStream (sid s) off data fin :: fs). split; [exact E|]. split.
  { apply (added_cons _ _ _ _ _ s2); [exact Hs2'|destruct s as [? [] ? ? ? ?]; exact Hcar|cbn; pose proof (len_nonneg data); lia|exact Had]. }
  split; [rewrite Hnx, Eb2; exact Hnext|]. split; [exact Hgo|]. intros Hb Hm Hal.
  destruct (popLost_aligned _ _ avail _ _ _ _ _ Hok ltac:(lia) El Hhd (skipped_aligned _ Hal) Epop) as [Eoff Hal'].
  apply Hlen; [|exact Hm|now rewrite Eb2]. rewrite len_app. pose proof (varint_pos (sid s)). pose proof (varint_pos (Ranges.s_off l)). pose proof (len_nonneg b). unfold avail in *. subst off.
  pose proof (enc_stream_len (sid s) (Ranges.s_off l) data fin ltac:(lia) ltac:(lia) ltac:(lia)). lia.
Qed.

Lemma sendCredit_bound w F os c s : xok w F os c s -> 0 <= sendCredit c s /\ Send.next (send (ss s)) + sendCredit c s <= sendMax (ss s) /\ sentData c + sendCredit c s <= peerMaxData c.
Proof.
  intros Hx. pose proof (xo_max _ _ _ _ _ Hx). pose proof (xo_conn _ _ _ _ _ Hx). unfold sendCredit. destruct (_ || _) eqn:E; [lia|]. apply orb_false_iff in E as [E1%Z.leb_gt E2%Z.leb_gt]. lia.
Qed.

(** Then what is new, as far as the credit goes. *)
Lemma newLoop_ok fuel w F os c s b max p :
  xok w F os c s -> reset (ss s) = false -> done s = false -> (Z.to_nat (max - len b) < fuel)%nat ->
  exists c' s' b' p' go fs, newLoop fuel c s b max p = Some (c', s', b', p', go) /\ c' = set_sentData c (sentData c') /\ sentData c <= sentData c' /\
    added w F os c' s s' b b' p p' fs /\ Send.lost (send (ss s')) = Send.lost (send (ss s)) /\
    (go = true -> Send.next (send (ss s')) = len w) /\ (len b <= max -> max <= 2 ^ 14 -> len b' <= max).
Proof.
  revert F c s b p. induction fuel as [|fuel IH]; intros F c s b p Hx Hr Hdn Hf; [lia|]. cbn [newLoop]. destruct (xo_buf _ _ _ _ _ Hx Hr) as [Hok He].
  pose proof (Send.so_next _ _ Hok) as Hbn. assert (set_sentData c (sentData c) = c) as Ec by (now destruct c).
  destruct (Z.leb_spec (Send.end_ (send (ss s))) (Send.next (send (ss s)))) as [Hend|Hmore].
  { exists c, s, b, p, true, []. split; [reflexivity|]. split; [auto|]. split; [lia|]. split; [now apply added_nil|]. split; [reflexivity|]. split; [lia|auto]. }
  destruct (sendCredit_bound _ _ _ _ _ Hx) as (Hc0 & Hc1 & Hc2). set (credit := sendCredit c s) in *.
  destruct (_ || _) eqn:Est. { exists c, s, b, p, false, []. split; [reflexivity|]. split; [auto|]. split; [lia|]. split; [now apply added_nil|]. split; [reflexivity|]. split; [discriminate|auto]. }
  apply orb_false_iff in Est as [Ecr%Z.eqb_neq Eav%Z.leb_gt]. set (avail := max - len b - 1 - VarintLen (sid s) - VarintLen (Send.next (send (ss s))) - 2) in *.
  pose proof (Send.popNew_spec _ _ (Z.min avail credit) Hok ltac:(lia)) as Hp. destruct (Send.popNew (send (ss s)) (Z.min avail credit)) as [[off data] buf].
  destruct Hp as (Hok' & -> & Hag & Hle & Hnx & Hbase & Hend' & Hlost & Hack & Hne).
  assert (0 < len data) as Hpos by (destruct data as [|x d]; [destruct (Hne eq_refl); lia|rewrite len_cons; pose proof (len_nonneg d); lia]).
  pose proof (xo_max _ _ _ _ _ Hx) as Hmx. pose proof (xo_w _ _ _ _ _ Hx) as Hw. pose proof (xo_next _ _ _ _ _ Hx) as Hnw. pose proof (xo_conn _ _ _ _ _ Hx) as Hcn. pose proof (xo_sent _ _ _ _ _ Hx) as Hsn.
  rewrite u64_id by lia. set (c1 := set_sentData c (sentData c + len data)).
  destruct (xok_frame w F os c c1 s b buf (Send.next (send (ss s))) data Hx Hr Hok' Hend' ltac:(lia) Hag ltac:(lia) ltac:(lia)) as (s2 & fin & -> & Hx2 & Hcar & Hs2 & Hfe).
  { intros x [?|?]; [left; lia|right; now rewrite Hack]. } { intros x Hx3 Hml. rewrite Hlost. auto. } { intros x Hx3. lia. } { cbn. lia. } { cbn. lia. } { reflexivity. } { congruence. }
  pose proof (enc_stream_pos (sid s) (Send.next (send (ss s))) data fin) as Hep. pose proof (varint_pos (sid s)). pose proof (varint_pos (Send.next (send (ss s)))). pose proof (len_nonneg b).
  assert (outsame s s2) as Hs2' by (rewrite Hs2; unfold outsame; now destruct s as [? [] ? ? ? ?]).
  assert (reset (ss s2) = false /\ done s2 = false /\ send (ss s2) = buf) as (Hr2 & Hd2 & Eb2) by (rewrite Hs2; cbn; auto).
  destruct (IH (F ++ [sfStream (sid s) (Send.next (send (ss s))) (len data) fin]) c1 s2 (b ++ enc (FStream (sid s) (Send.next (send (ss s))) data fin)) (p ++ [sfStream (sid s) (Send.next (send (ss s))) (len data) fin]) Hx2 Hr2 Hd2)
    as (c' & s' & b' & p' & go & fs & E & Hc' & Hsd' & Had & Hlo & Hgo & Hlen).
  { rewrite len_app. lia. }
  exists c', s', b', p', go, (FStream (sid s) (Send.next (send (ss s))) data fin :: fs). split; [exact E|]. split; [exact Hc'|]. split; [cbn in Hsd'; lia|].
  split; [apply (added_cons _ _ _ _ _ s2); [exact Hs2'|exact Hcar|cbn; pose proof (len_nonneg data); lia|exact Had]|].
  split; [rewrite Hlo, Eb2; exact Hlost|]. split; [exact Hgo|]. intros Hb Hm. apply Hlen; [|exact Hm]. rewrite len_app. unfold avail in *.
  pose proof (enc_stream_len (sid s) (Send.next (send (ss s))) data fin ltac:(lia) ltac:(lia) ltac:(lia)). lia.
Qed.

Lemma added_app w F os c1 c2 s s1 s2 b b1 b2 p p1 p2 fs gs :
  added w F os c1 s s1 b b1 p p1 fs -> added w (F ++ (sentOf <$> fs)) os c2 s1 s2 b1 b2 p1 p2 gs -> added w F os c2 s s2 b b2 p p2 (fs ++ gs).
Proof.
  intros [A1 A2 A3 A4 A5] [B1 B2 B3 B4 B5]. split.
  - rewrite B1, A1, <- app_assoc. f_equal. now rewrite fmap_app, join_app.
  - now rewrite B2, A2, <- app_assoc, fmap_app.
  - now rewrite fmap_app, app_assoc.
  - apply Forall_app. split; [exact A4|]. eapply List.Forall_impl; [|exact B4]. intros g [Hg1 Hg2]. split; [exact (carries_same _ _ _ _ A5 Hg1)|exact Hg2].
  - exact (outsame_trans _ _ _ A5 B5).
Qed.

(** The data of a stream in a packet: the code ends, what it adds is the stream's,
    within the limits; and the packet is not overfull unless a range lost starts
    before what was acknowledged. *)
Lemma appendData_ok w F os c s b max :
  xok w F os c s -> reset (ss s) = false -> done s = false ->
  exists c' s' b' q fs, appendData c s b max = Some (c', s', b', q) /\ c' = set_sentData c (sentData c') /\ sentData c <= sentData c' /\
    added w F os c' s s' b b' [] q fs /\ (len b <= max -> max <= 2 ^ 14 -> aligned (send (ss s)) -> len b' <= max).
Proof.
  intros Hx Hr Hdn. unfold appendData.
  destruct (lostLoop_ok (S (Z.to_nat (max - len b))) w F os c s b max [] Hx Hr Hdn ltac:(lia)) as (s1 & b1 & p1 & go1 & fs1 & -> & Ha1 & Hn1 & Hg1 & Hl1).
  assert (set_sentData c (sentData c) = c) as Ec by (now destruct c).
  destruct go1; [|exists c, s1, b1, p1, fs1; split; [reflexivity|split; [auto|split; [lia|split; [exact Ha1|exact Hl1]]]]].
  pose proof (ad_same _ _ _ _ _ _ _ _ _ _ _ Ha1) as Hs1. assert (reset (ss s1) = false /\ done s1 = false) as [Hr1 Hd1] by (rewrite Hs1; cbn; auto).
  destruct (newLoop_ok (S (Z.to_nat (max - len b1))) w _ os c s1 b1 max p1 (ad_xok _ _ _ _ _ _ _ _ _ _ _ Ha1) Hr1 Hd1 ltac:(lia)) as (c2 & s2 & b2 & p2 & go2 & fs2 & -> & Hc2 & Hsd & Ha2 & Hlo & Hg2 & Hl2).
  pose proof (added_app _ _ _ _ _ _ _ _ _ _ _ _ _ _ _ _ Ha1 Ha2) as Ha. assert (len b <= max -> max <= 2 ^ 14 -> aligned (send (ss s)) -> len b2 <= max) as Hl by auto.
  destruct go2; [|exists c2, s2, b2, p2, (fs1 ++ fs2); split; [reflexivity|split; [exact Hc2|split; [exact Hsd|split; [exact Ha|exact Hl]]]]].
  destruct (_ && _ && _) eqn:Ef; [|exists c2, s2, b2, p2, (fs1 ++ fs2); split; [reflexivity|split; [exact Hc2|split; [exact Hsd|split; [exact Ha|exact Hl]]]]].
  apply andb_true_iff in Ef as [_ Ef%Z.leb_le]. pose proof (ad_same _ _ _ _ _ _ _ _ _ _ _ Ha) as Hs2. assert (reset (ss s2) = false /\ done s2 = false) as [Hr2 Hd2] by (rewrite Hs2; cbn; auto).
  pose proof (ad_xok _ _ _ _ _ _ _ _ _ _ _ Ha) as Hx2. destruct (xo_buf _ _ _ _ _ Hx2 Hr2) as [Hok2 He2]. pose proof (xo_max _ _ _ _ _ Hx2). pose proof (xo_w _ _ _ _ _ Hx2).
  destruct (xok_frame w _ os c2 c2 s2 b2 (send (ss s2)) (Send.next (send (ss s2))) [] Hx2 Hr2 Hok2 eq_refl ltac:(lia) (agrees_nil _ _) ltac:(lia) ltac:(change (len []) with 0; lia)) as (s3 & fin & E3 & Hx3 & Hcar & Hs3 & Hfe); auto; try lia.
  { apply (xo_conn _ _ _ _ _ Hx2). } { congruence. }
  assert (st_send s2 (send (ss s2)) = s2) as Es by (now destruct s2 as [? [] ? ? ? ?]). rewrite Es in E3. rewrite E3. pose proof (varint_pos (sid s2)). pose proof (varint_pos (Send.next (send (ss s2)))).
  exists c2, s3, (b2 ++ enc (FStream (sid s2) (Send.next (send (ss s2))) [] fin)), (p2 ++ [sfStream (sid s2) (Send.next (send (ss s2))) (len ([] : bytes)) fin]), ((fs1 ++ fs2) ++ [FStream (sid s2) (Send.next (send (ss s2))) [] fin]).
  split; [reflexivity|]. split; [exact Hc2|]. split; [exact Hsd|]. split.
  - apply (added_app _ _ _ c2 _ _ s2 _ _ b2 _ _ p2 _ _ _ Ha). apply (added_cons _ _ _ _ _ s3); [rewrite Hs3; unfold outsame; now destruct s2 as [? [] ? ? ? ?]|exact Hcar|cbn [enc_ok]; change (len ([] : bytes)) with 0; lia|now apply added_nil].
  - intros Hb Hm Hal. rewrite len_app. specialize (Hl Hb Hm Hal). pose proof (len_nonneg b2). 
    assert (len (enc (FStream (sid s2) (Send.next (send (ss s2))) [] fin)) <= 1 + VarintLen (sid s2) + VarintLen (Send.next (send (ss s2))) + 1); [|lia].
    cbn [enc]. rewrite len_cons, !len_app. destruct (ReadVarint_AppendVarint (sid s2) [] ltac:(lia)) as [-> _]. change (len (AppendVarint [] (len ([] : bytes)))) with 1. change (len ([] : bytes)) with 0.
    destruct (0 <? _); [destruct (ReadVarint_AppendVarint (Send.next (send (ss s2))) [] ltac:(lia)) as [-> _]; lia|change (len ([] : bytes)) with 0; lia].
Qed.

(** ** The frames of a stream *)

(** What putting frames in a packet leaves alone. *)
Record sending (c c' : conn) (s s' : stream) : Prop := {
  sg_conn : c' = set_dataBlocked (set_sentData c (sentData c')) (dataBlocked c');
  sg_sent : sentData c <= sentData c';
  sg_rs : rs s' = rv_maxDataPending (rv_stopPending (rs s) (stopPending (rs s'))) (maxDataPending (rs s'));
  sg_flags : (stopPending (rs s') = true -> stopPending (rs s) = true) /\ (maxDataPending (rs s') = true -> maxDataPending (rs s) = true);
  sg_ss : ss s' = sd_blocked (sd_resetPending (sd_finSent (sd_send (ss s) (send (ss s'))) (finSent (ss s'))) (resetPending (ss s'))) (blocked (ss s'));
  sg_s : s' = st_ss (st_rs s (rs s')) (ss s')
}.

Lemma sending_refl c s : sending c c s s.
Proof. split; auto; [now destruct c|lia|now destruct (rs s)|now destruct (ss s)|now destruct s]. Qed.

Lemma sending_trans c1 c2 c3 s1 s2 s3 : sending c1 c2 s1 s2 -> sending c2 c3 s2 s3 -> sending c1 c3 s1 s3.
Proof.
  intros [A1 A2 A3 [A4 A5] A6 A7] [B1 B2 B3 [B4 B5] B6 B7]. split.
  - rewrite B1, A1. reflexivity.
  - lia.
  - rewrite B3, A3. reflexivity.
  - auto.
  - rewrite B6, A6. reflexivity.
  - rewrite B7, A7. reflexivity.
Qed.

Lemma outsame_sending c c' s s' : c' = set_sentData c (sentData c') -> sentData c <= sentData c' -> outsame s s' -> sending c c' s s'.
Proof.
  intros Hc Hle Hs. pose proof (f_equal dataBlocked Hc : dataBlocked c' = dataBlocked c) as E1. pose proof (f_equal rs Hs : rs s' = rs s) as E2. pose proof (f_equal ss Hs) as E3. cbn [st_ss ss] in E3.
  split; [rewrite E1; etransitivity; [exact Hc|now destruct c]|exact Hle|rewrite E2; now destruct (rs s)|now rewrite E2|rewrite E3; reflexivity|].
  etransitivity; [exact Hs|]. rewrite E2, E3. now destruct s.
Qed.

(** The frames [fs], in the packet and in its record, and on their way. *)
Record packed (w : bytes) (F : list sentFrame) (os : Z) (c c' : conn) (s s' : stream) (b b' : bytes) (p : list sentFrame) (fs : list frame) : Prop := {
  pk_bytes : b' = b ++ mjoin (enc <$> fs);
  pk_sent : p = sentOf <$> fs;
  pk_xok : xok w (F ++ p) os c' s';
  pk_carries : Forall (carries w s) fs;
  pk_sending : sending c c' s s'
}.

Lemma packed_nil w F os c s b : xok w F os c s -> packed w F os c c s s b b [] [].
Proof. intros H. split; cbn; rewrite ?app_nil_r; auto using sending_refl. Qed.

Lemma carries_sending w c c' s s' f : sending c c' s s' -> carries w s' f -> carries w s f.
Proof. intros [_ _ _ _ Hss Hs]. rewrite Hs. destruct f; cbn; auto; rewrite Hss; auto. Qed.

Lemma packed_app w F os c1 c2 c3 s1 s2 s3 b1 b2 b3 p q fs gs :
  packed w F os c1 c2 s1 s2 b1 b2 p fs -> packed w (F ++ p) os c2 c3 s2 s3 b2 b3 q gs -> packed w F os c1 c3 s1 s3 b1 b3 (p ++ q) (fs ++ gs).
Proof.
  intros [A1 A2 A3 A4 A5] [B1 B2 B3 B4 B5]. split.
  - rewrite B1, A1, <- app_assoc. f_equal. now rewrite fmap_app, join_app.
  - now rewrite fmap_app, A2, B2.
  - now rewrite app_assoc.
  - apply Forall_app. split; [exact A4|]. eapply List.Forall_impl; [|exact B4]. intros g Hg. exact (carries_sending _ _ _ _ _ _ A5 Hg).
  - exact (sending_trans _ _ _ _ _ _ A5 B5).
Qed.

(** Promises that do not mention what changed. *)
Lemma xok_rs w F os c s r : xok w F os c s -> hasRecv r = hasRecv (rs s) -> xok w F os c (st_rs s r).
Proof. intros [] _. split; assumption. Qed.

Lemma xok_more w F os c s f : xok w F os c s -> (forall off n fin, f <> sfStream (sid s) off n fin) -> xok w (F ++ [f]) os c s.
Proof.
  intros [Hw Hs Hc Hm Hn Hb Hfin Hfq Hcut Hfl Hrel Hfr Hrr Hno Hd Hfg] Hf. split; try assumption.
  - intros off n fin [Hin|Hin]%elem_of_app; [auto|]. apply list_elem_of_singleton in Hin. now destruct (Hf off n fin).
  - intros Hr x Hx. destruct (Hrel Hr x Hx) as [?|[?|?]]; auto using onItsWay_app.
  - intros Hr Hq. destruct (Hfr Hr Hq) as [?|(o & n & Hin)]; [now left|]. right. exists o, n. apply elem_of_app. now left.
  - intros Hr. destruct (Hrr Hr) as [?|[?|?]]; auto. right; right. apply elem_of_app. now left.
Qed.

Lemma packed_one w F os c s s' b f :
  xok w (F ++ [sentOf f]) os c s' -> carries w s f -> sending c c s s' -> packed w F os c c s s' b (b ++ enc f) [sentOf f] [f].
Proof. intros Hx Hc Hs. split; auto. cbn. now rewrite app_nil_r. Qed.

Ltac sends := match goal with |- sending ?c _ ?s _ => split; cbn; [now destruct c|lia|now destruct (rs s)|now split|now destruct (ss s)|now destruct s] end.

Lemma appendControl_ok w F os c s b max :
  xok w F os c s -> len b <= max -> exists s' b' p fs, appendControl s b max = (s', b', p) /\ packed w F os c c s s' b b' p fs /\ len b' <= max /\ send (ss s') = send (ss s).
Proof.
  intros Hx Hb. unfold appendControl.
  assert (exists s1 b1 p1 fs1, (if stopPending (rs s) && (len b + len (Frames.appendStopSending [] (sid s) (stopCode (rs s))) <=? max)
      then (st_rs s (rv_stopPending (rs s) false), b ++ Frames.appendStopSending [] (sid s) (stopCode (rs s)), [sfStopSending (sid s)]) else (s, b, [])) = (s1, b1, p1) /\
    packed w F os c c s s1 b b1 p1 fs1 /\ len b1 <= max /\ send (ss s1) = send (ss s)) as (s1 & b1 & p1 & fs1 & -> & Hp1 & Hb1 & Hs1).
  { destruct (_ && _) eqn:E; [|exists s, b, [], []; auto using packed_nil]. apply andb_true_iff in E as [Ep El%Z.leb_le]. exists (st_rs s (rv_stopPending (rs s) false)), (b ++ enc (FStopSending (sid s) (stopCode (rs s)))), [sfStopSending (sid s)], [FStopSending (sid s) (stopCode (rs s))].
    split; [reflexivity|]. split; [|rewrite len_app; cbn [enc]; auto]. apply (packed_one _ _ _ _ _ _ _ (FStopSending (sid s) (stopCode (rs s)))); [apply xok_more; [now apply xok_rs|discriminate]|exact I|]. sends. }
  assert (exists s2 b2 p2 fs2, (if maxDataPending (rs s1) && (len b1 + len (Frames.appendMaxStreamData [] (sid s1) (recvMax (rs s1))) <=? max)
      then (st_rs s1 (rv_maxDataPending (rs s1) false), b1 ++ Frames.appendMaxStreamData [] (sid s1) (recvMax (rs s1)), p1 ++ [sfMaxStreamData (sid s1)]) else (s1, b1, p1)) = (s2, b2, p1 ++ p2) /\
    packed w (F ++ p1) os c c s1 s2 b1 b2 p2 fs2 /\ len b2 <= max /\ send (ss s2) = send (ss s1)) as (s2 & b2 & p2 & fs2 & -> & Hp2 & Hb2 & Hs2).
  { pose proof (pk_xok _ _ _ _ _ _ _ _ _ _ _ Hp1) as Hx1. destruct (_ && _) eqn:E; [|exists s1, b1, [], []; rewrite app_nil_r; auto using packed_nil]. apply andb_true_iff in E as [Ep El%Z.leb_le].
    exists (st_rs s1 (rv_maxDataPending (rs s1) false)), (b1 ++ enc (FMaxStreamData (sid s1) (recvMax (rs s1)))), [sfMaxStreamData (sid s1)], [FMaxStreamData (sid s1) (recvMax (rs s1))].
    split; [reflexivity|]. split; [|rewrite len_app; cbn [enc]; auto]. apply (packed_one _ _ _ _ _ _ _ (FMaxStreamData (sid s1) (recvMax (rs s1)))); [apply xok_more; [now apply xok_rs|discriminate]|exact I|]. sends. }
  pose proof (packed_app _ _ _ _ _ _ _ _ _ _ _ _ _ _ _ _ Hp1 Hp2) as Hp. pose proof (pk_xok _ _ _ _ _ _ _ _ _ _ _ Hp) as Hx2.
  destruct (_ && _) eqn:E; [|exists s2, b2, (p1 ++ p2), (fs1 ++ fs2); split; [reflexivity|split; [exact Hp|split; [exact Hb2|congruence]]]]. apply andb_true_iff in E as [Ep El%Z.leb_le].
  assert (reset (ss s2) = true) as Hr by (destruct (reset (ss s2)) eqn:Er; [reflexivity|]; rewrite (xo_flags _ _ _ _ _ Hx2 Er) in Ep; discriminate).
  set (s3 := st_ss s2 (sd_resetPending (ss s2) false)). assert (xok w ((F ++ p1 ++ p2) ++ [sfResetStream (sid s2)]) os c s3) as Hx3.
  { destruct (xok_more _ _ _ _ _ (sfResetStream (sid s2)) Hx2 ltac:(discriminate)) as [Hw Hs Hc Hm Hn Hbu Hfin Hfq Hcut Hfl Hrel Hfr Hrr Hno Hd Hfg]. split; cbn; try assumption; [|auto].
    intros _. right; right. apply elem_of_app. right. now apply list_elem_of_singleton. }
  exists s3, (b2 ++ enc (FResetStream (sid s2) (resetCode (ss s2)) (finalSize (ss s2)))), ((p1 ++ p2) ++ [sfResetStream (sid s2)]), ((fs1 ++ fs2) ++ [FResetStream (sid s2) (resetCode (ss s2)) (finalSize (ss s2))]).
  split; [reflexivity|]. split; [|split; [rewrite len_app; cbn [enc]; lia|cbn; congruence]]. apply (packed_app _ _ _ _ _ _ _ _ _ _ _ _ _ _ _ _ Hp).
  apply (packed_one _ _ _ _ _ _ _ (FResetStream (sid s2) (resetCode (ss s2)) (finalSize (ss s2)))); [exact Hx3|now split|]. unfold s3. sends.
Qed.

Lemma appendHeldBack_ok w F os c s b max :
  xok w F os c s -> exists c' s' b' p fs, appendHeldBack c s b max = (c', s', b', p) /\ packed w F os c c' s s' b b' p fs /\ (len b <= max -> len b' <= max) /\ send (ss s') = send (ss s).
Proof.
  intros Hx. unfold appendHeldBack.
  assert (forall d r, xok w F os (set_dataBlocked c d) (st_ss s (sd_blocked (ss s) r)) /\ sending c (set_dataBlocked c d) s (st_ss s (sd_blocked (ss s) r))) as Hany.
  { intros d r. split; [destruct Hx; split; assumption|]. split; cbn; [now destruct c|lia|now destruct (rs s)|now split|now destruct (ss s)|now destruct s]. }
  assert (exists d r, (if (Send.next (send (ss s)) <? Send.end_ (send (ss s))) && (sendCredit c s =? 0) then noteBlocked c s else (c, s)) = (set_dataBlocked c d, st_ss s (sd_blocked (ss s) r))) as (d & r & ->).
  { destruct (_ && _); [|exists (dataBlocked c), (blocked (ss s)); f_equal; [now destruct c|now destruct s as [? [] ? ? ? ?]]]. unfold noteBlocked.
    destruct (_ <=? Send.next _); [|exists (if peerMaxData c <=? sentData c then block (dataBlocked c) (peerMaxData c) else dataBlocked c), (blocked (ss s)); f_equal; [destruct (_ <=? _); now destruct c|now destruct s as [? [] ? ? ? ?]]].
    eexists (if peerMaxData c <=? sentData c then block (dataBlocked c) (peerMaxData c) else dataBlocked c), _. f_equal. destruct (_ <=? _); now destruct c. }
  cbn [st_ss ss sd_blocked blocked send sendMax sid]. generalize (if b_pending r && (negb (b_at r =? sendMax (ss s)) || (Send.end_ (send (ss s)) <=? Send.next (send (ss s)))) then settled r else r). intros r1.
  destruct (_ && _) eqn:E; [|destruct (Hany d r1) as [H1 H2]; exists (set_dataBlocked c d), (st_ss s (sd_blocked (ss s) r1)), b, [], []; split; [reflexivity|]; split; [split; cbn; rewrite ?app_nil_r; auto|auto]].
  apply andb_true_iff in E as [_ E%Z.leb_le]. destruct (Hany d (settled r1)) as [H1 H2].
  exists (set_dataBlocked c d), (st_ss s (sd_blocked (ss s) (settled r1))), (b ++ enc (FStreamDataBlocked (sid s) (b_at r1))), [sfStreamDataBlocked (sid s) (b_at r1)], [FStreamDataBlocked (sid s) (b_at r1)].
  split; [reflexivity|]. split; [|split; [rewrite len_app; cbn [enc]; auto|reflexivity]]. split; cbn [fmap list_fmap mjoin list_join sentOf]; rewrite ?app_nil_r; auto; [apply xok_more; [exact H1|discriminate]|].
  constructor; [exact I|constructor].
Qed.

(** What a stream puts in a packet: the code ends, and the frames are its own bytes
    and its own end, within the limits; none of it is forgotten. The packet is not
    overfull unless a range lost starts before what was acknowledged. *)
Lemma appendFrames_ok w F os c s b max :
  xok w F os c s -> done s = false -> len b <= max ->
  exists c' s' b' p fs, appendFrames c s b max = Some (c', s', b', p) /\ packed w F os c c' s s' b b' p fs /\ (max <= 2 ^ 14 -> aligned (send (ss s)) -> len b' <= max).
Proof.
  intros Hx Hd Hb. unfold appendFrames. destruct (appendControl_ok w F os c s b max Hx Hb) as (s1 & b1 & p1 & fs1 & -> & Hp1 & Hb1 & Es1).
  destruct (reset (ss s1) || negb (hasSend (ss s1))) eqn:Er; [exists c, s1, b1, p1, fs1; auto|]. apply orb_false_iff in Er as [Hr _].
  assert (done s1 = false) as Hd1 by (rewrite (sg_s _ _ _ _ (pk_sending _ _ _ _ _ _ _ _ _ _ _ Hp1)); exact Hd).
  destruct (appendData_ok w _ os c s1 b1 max (pk_xok _ _ _ _ _ _ _ _ _ _ _ Hp1) Hr Hd1) as (c2 & s2 & b2 & q & fs2 & -> & Hc2 & Hsd & Ha & Hl2).
  assert (packed w (F ++ p1) os c c2 s1 s2 b1 b2 q fs2) as Hp2.
  { destruct Ha as [A1 A2 A3 A4 A5]. cbn [app] in A2. split; auto; [now rewrite A2|eapply List.Forall_impl; [|exact A4]; now intros f [? _]|now apply outsame_sending]. }
  pose proof (packed_app _ _ _ _ _ _ _ _ _ _ _ _ _ _ _ _ Hp1 Hp2) as Hp.
  destruct (appendHeldBack_ok w _ os c2 s2 b2 max (pk_xok _ _ _ _ _ _ _ _ _ _ _ Hp)) as (c3 & s3 & b3 & r & fs3 & -> & Hp3 & Hl3 & _).
  exists c3, s3, b3, (p1 ++ q ++ r), ((fs1 ++ fs2) ++ fs3). split; [reflexivity|]. split; [rewrite app_assoc; exact (packed_app _ _ _ _ _ _ _ _ _ _ _ _ _ _ _ _ Hp Hp3)|].
  intros Hm Hal. apply Hl3, Hl2; [exact Hb1|exact Hm|now rewrite Es1].
Qed.

(** ** Writing and giving up *)

Lemma xok_queue w F os c s : xok w F os c s -> xok w F os (queueStream c s).1 (queueStream c s).2.
Proof. intros []. unfold queueStream. destruct (_ && _); split; assumption. Qed.

(** The buffer after a write. *)
Definition wrote (b b' : Send.sendBuffer) (p : bytes) : Prop :=
  (forall content, Send.sok content b -> agrees content (Send.end_ b) p -> Send.sok content b' /\ Send.end_ b' = Send.end_ b + len p) /\
  Send.next b' = Send.next b /\ Send.base b' = Send.base b /\ Send.lost b' = Send.lost b /\ Send.acked b' = Send.acked b.

Lemma write_wrote b p : wrote b (Send.write b p) p.
Proof. split; [intros; now apply Send.write_ok|]. apply Send.write_frame. Qed.

Lemma adopt_wrote b p : wrote b (Send.adopt b p) p.
Proof. split; [intros; now apply Send.adopt_ok|]. apply Send.adopt_frame. Qed.

Lemma writeParts_wrote b parts : wrote b (Send.writeParts b parts) (mjoin (Send.Data <$> parts)).
Proof. split; [intros; now apply Send.writeParts_ok|]. apply Send.writeParts_frame. Qed.

(** What is written goes at the end of what was. *)
Lemma written_ok w F os c s buf p fin :
  xok w F os c s -> unwritable c s = false -> wrote (send (ss s)) buf p -> len (w ++ p) < 2 ^ 62 ->
  xok (w ++ p) F os (written c s buf fin).1 (written c s buf fin).2 /\ done s = false.
Proof.
  intros [Hw Hs Hc Hm Hn Hb Hfin Hfq Hcut Hfl Hrel Hfr Hrr Hno Hd Hfg] Hu (Hok & En & Eb & El & Ea) Hlen. unfold unwritable in Hu. apply orb_false_iff in Hu as [_ Hu]. apply orb_false_iff in Hu as [Hu Hr]. apply orb_false_iff in Hu as [Hhs Hfn].
  apply negb_false_iff in Hhs. pose proof (len_nonneg p) as Hp. assert (finSent (ss s) = false /\ finAcked (ss s) = false) as [Hfs Hfa] by (destruct Hfq as [H1 H2]; split; [destruct (finSent (ss s))|destruct (finAcked (ss s))]; auto; [rewrite H1 in Hfn by auto|rewrite H2 in Hfn by auto]; discriminate).
  assert (done s = false) as Hdn by (destruct (done s) eqn:E; [|reflexivity]; specialize (Hd eq_refl); unfold sendDone in Hd; rewrite Hhs, Hr, Hfa in Hd; discriminate).
  split; [|exact Hdn]. destruct (Hb Hr) as [Hok0 He0]. destruct (Hok (cont (w ++ p)) (sok_app _ _ _ Hok0 He0)) as [Hok1 He1]; [rewrite He0; apply cont_app|].
  unfold written. apply xok_queue. cbv zeta. assert (forall fs fq, (fq = true -> fs = len (w ++ p)) -> xok (w ++ p) F os c (st_ss s (sd_finalSize (sd_finQueued (sd_send (ss s) buf) fq) fs))) as Hg.
  { intros fs fq Hq. split; cbn; rewrite ?En, ?Hr, ?Hfs, ?Hfa, ?Hdn; try assumption; try congruence; try (split; congruence); try lia; [rewrite len_app; lia|..].
    - intros _. split; [exact Hok1|]. rewrite He1, He0, len_app. reflexivity.
    - auto.
    - intros off n fin' Hin. destruct (Hfl off n fin' Hin) as (H1 & H2 & H3 & H4). splits; auto. intros Hf. destruct (H4 Hf). congruence.
    - intros _ x Hx. unfold Send.ackedSet in *. rewrite Eb, Ea, El. apply Hrel; [exact Hr|exact Hx].
    - auto. }
  destruct fin; [apply Hg; intros _; cbn; rewrite He1, He0, len_app; reflexivity|]. specialize (Hg (finalSize (ss s)) (finQueued (ss s)) ltac:(congruence)).
  assert (st_send s buf = st_ss s (sd_finalSize (sd_finQueued (sd_send (ss s) buf) (finQueued (ss s))) (finalSize (ss s)))) as -> by (now destruct s as [? [] ? ? ? ?]). exact Hg.
Qed.

Lemma resetLocked_ok w F os c s code :
  xok w F os c s -> 0 <= code < 2 ^ 62 -> xok w F os (resetLocked c s code).1 (resetLocked c s code).2.
Proof.
  intros Hx Hcode. unfold resetLocked. destruct (_ || _ || _) eqn:E; [exact Hx|]. apply orb_false_iff in E as [E Hfa]. apply orb_false_iff in E as [Hhs Hr]. apply negb_false_iff in Hhs.
  apply xok_queue. destruct Hx as [Hw Hs Hc Hm Hn Hb Hfin Hfq Hcut Hfl Hrel Hfr Hrr Hno Hd Hfg].
  assert (done s = false) as Hdn by (destruct (done s) eqn:Ed; [|reflexivity]; specialize (Hd eq_refl); unfold sendDone in Hd; rewrite Hhs, Hr, Hfa in Hd; discriminate).
  split; cbn; try assumption; try congruence; try lia; try discriminate.
Qed.

(** ** Acknowledgement and loss *)

Lemma chain_nil content from ps : Send.chain content from ps -> Send.chain_end from ps = from -> ps = [].
Proof. destruct ps as [|p ps]; [reflexivity|]. cbn. intros (H1 & H2 & _ & H4) He. apply Send.chain_end_ge in H4. unfold Send.p_end in *. lia. Qed.

Lemma allAcked_iff content b : Send.sok content b -> (Send.allAcked b = true <-> Send.base b = Send.end_ b).
Proof.
  intros Hok. unfold Send.allAcked. rewrite Z.eqb_eq. pose proof (Send.so_end _ _ Hok) as He. split.
  - intros E. destruct (Send.pieces b) as [|p ps] eqn:Ep; [exact He|]. rewrite len_cons in E. pose proof (len_nonneg ps). lia.
  - intros E. rewrite (chain_nil _ _ _ (Send.so_chain _ _ Hok)); [reflexivity|congruence].
Qed.

(** A stream whose sending side needs nothing more has all it was written
    acknowledged, its end too, unless it was given up. *)
Lemma complete w F os c s : xok w F os c s -> sendDone s = true -> hasSend (ss s) = true -> reset (ss s) = false ->
  finAcked (ss s) = true /\ finQueued (ss s) = true /\ Send.base (send (ss s)) = len w /\ Send.next (send (ss s)) = len w.
Proof.
  intros Hx Hd Hh Hr. unfold sendDone in Hd. rewrite Hh, Hr in Hd. apply andb_true_iff in Hd as [Hf Ha]. destruct (xo_buf _ _ _ _ _ Hx Hr) as [Hok He].
  apply (allAcked_iff _ _ Hok) in Ha. pose proof (Send.so_next _ _ Hok). split; [exact Hf|]. split; [now apply (xo_fin _ _ _ _ _ Hx)|]. lia.
Qed.

(** Fewer frames on their way, when those gone are accounted for. *)
Lemma xok_fewer w F F' os c s :
  xok w F os c s -> (forall f, f ∈ F' -> f ∈ F) ->
  (reset (ss s) = false -> forall x, 0 <= x < Send.next (send (ss s)) -> onItsWay F (sid s) x -> Send.ackedSet (send (ss s)) x \/ Ranges.mem (Send.lost (send (ss s))) x \/ onItsWay F' (sid s) x) ->
  (reset (ss s) = false -> finSent (ss s) = true -> finAcked (ss s) = true \/ (exists off n, sfStream (sid s) off n true ∈ F) -> finAcked (ss s) = true \/ exists off n, sfStream (sid s) off n true ∈ F') ->
  (reset (ss s) = true -> sfResetStream (sid s) ∈ F -> resetPending (ss s) = true \/ resetAcked (ss s) = true \/ sfResetStream (sid s) ∈ F') -> xok w F' os c s.
Proof.
  intros [Hw Hs Hc Hm Hn Hb Hfin Hfq Hcut Hfl Hrel Hfr Hrr Hno Hd Hfg] Hsub H1 H2 H3. split; auto.
  - intros Hr x Hx. destruct (Hrel Hr x Hx) as [?|[?|?]]; auto.
  - intros Hr. destruct (Hrr Hr) as [?|[?|?]]; auto.
Qed.

Lemma xok_finish MI MIU w F os c s : xok w F os c s -> xok w F os (maybeFinish MI MIU c s).1 (maybeFinish MI MIU c s).2.
Proof.
  intros Hx. pose proof (xo_done _ _ _ _ _ Hx) as Hd0. destruct Hx. destruct (QFlow.maybeFinish_tidy MI MIU c s) as (Hc & Hs & Hd). destruct (maybeFinish MI MIU c s) as [c' s']. cbn [fst snd] in *. rewrite Hc, Hs. split; try assumption.
  intros E. change (done (st_done s (done s'))) with (done s') in E. rewrite Hd in E. apply orb_true_iff in E as [E|E]; [exact (Hd0 E)|]. now apply andb_true_iff in E as [E _].
Qed.

Lemma middle_sub (F1 F2 : list sentFrame) f g : g ∈ F1 ++ F2 -> g ∈ F1 ++ f :: F2.
Proof. rewrite !elem_of_app, elem_of_cons. tauto. Qed.

Lemma middle_other (F1 F2 : list sentFrame) f g : g ∈ F1 ++ f :: F2 -> g = f \/ g ∈ F1 ++ F2.
Proof. rewrite !elem_of_app, elem_of_cons. tauto. Qed.

(** A stream done with its sending, or given up, needs no frame of data on its way. *)
Lemma xok_drop_data w F1 F2 os c s off n fin :
  xok w (F1 ++ sfStream (sid s) off n fin :: F2) os c s -> reset (ss s) = true \/ done s = true -> xok w (F1 ++ F2) os c s.
Proof.
  intros Hx Hrd. apply (xok_fewer _ _ _ _ _ _ Hx); [intros f; apply middle_sub|..].
  - intros Hr x Hxr Hway. left. destruct Hrd as [|Hd]; [congruence|]. destruct Hway as (o & k & fi & Hin & Hxo). destruct (hasSend (ss s)) eqn:Hh.
    + destruct (complete _ _ _ _ _ Hx (xo_done _ _ _ _ _ Hx Hd) Hh Hr) as (_ & _ & Hb & _). pose proof (xo_next _ _ _ _ _ Hx). left. lia.
    + destruct (xo_none _ _ _ _ _ Hx Hh) as (_ & _ & ->). pose proof (xo_next _ _ _ _ _ Hx) as Hn. change (len []) with 0 in Hn. lia.
  - intros Hr Hs Hor. left. destruct Hrd as [|Hd]; [congruence|]. destruct (hasSend (ss s)) eqn:Hh; [now apply (complete _ _ _ _ _ Hx (xo_done _ _ _ _ _ Hx Hd) Hh Hr)|].
    destruct (xo_none _ _ _ _ _ Hx Hh) as (_ & Hq & _). apply (xo_fin _ _ _ _ _ Hx) in Hs. congruence.
  - intros _ Hin. apply middle_other in Hin as [|Hin]; [discriminate|auto].
Qed.

(** A frame acknowledged is on its way no more; its bytes are the peer's. *)
Lemma onDataAcked_ok MI MIU w F1 F2 os c s off n fin :
  xok w (F1 ++ sfStream (sid s) off n fin :: F2) os c s ->
  xok w (F1 ++ F2) os (onDataAcked MI MIU c s off n fin).1 (onDataAcked MI MIU c s off n fin).2.
Proof.
  intros Hx. unfold onDataAcked. destruct (reset (ss s)) eqn:Hr; [now apply (xok_drop_data _ _ _ _ _ _ off n fin); [|left]|]. apply xok_finish.
  destruct (xo_flight _ _ _ _ _ Hx off n fin) as (Ho & Hn0 & Hon & Hfin); [apply elem_of_app; right; apply elem_of_cons; now left|].
  destruct (xo_buf _ _ _ _ _ Hx Hr) as [Hok He]. destruct (Send.onAck_spec _ _ off n Hok Ho Hn0 Hon) as (Hok' & Hb' & He' & Hn' & Hl' & Ha').
  set (s1 := if fin then _ else _). assert (s1 = st_ss s (sd_finAcked (sd_send (ss s) (Send.onAck (send (ss s)) off n)) (finAcked (ss s) || fin))) as -> by (unfold s1; destruct fin; [now rewrite orb_true_r|rewrite orb_false_r; now destruct s as [? [] ? ? ? ?]]).
  set (s1 := st_ss s _). assert (xok w (F1 ++ sfStream (sid s) off n fin :: F2) os c s1) as Hx1.
  { destruct Hx as [Hw Hs Hc Hm Hnx Hb Hfi Hfq Hcut Hfl Hrel Hfr Hrr Hno Hd Hfg]. split; cbn; rewrite ?Hn'; try assumption; try congruence.
    - intros _. split; [exact Hok'|congruence].
    - split; [tauto|]. rewrite orb_true_iff. intros [?|Hf]; [tauto|]. now destruct (Hfin Hf).
    - intros _ x Hx. rewrite Hl'. destruct (Hrel Hr x Hx) as [?|[?|?]]; auto. left. apply Ha'; [lia|now left].
    - intros _ Hq. destruct (Hfr Hr Hq) as [->|?]; auto.
    - intros Hdn. specialize (Hd Hdn). unfold sendDone in *. cbn. rewrite Hr in *. destruct (hasSend (ss s)); [|reflexivity]. cbn [negb] in *. apply andb_true_iff in Hd as [-> Hal]. cbn [orb andb].
      apply (allAcked_iff _ _ Hok'). apply (allAcked_iff _ _ Hok) in Hal. pose proof (Send.so_next _ _ Hok'). lia. }
  apply (xok_fewer _ _ _ _ _ _ Hx1); [intros f; apply middle_sub|..]; cbn.
  - intros _ x Hxr (o & k & fi & Hin & Hxo). apply middle_other in Hin as [E|Hin]; [|right; right; now exists o, k, fi]. injection E as -> -> ->. left. apply Ha'; [lia|now right].
  - intros _ _ [?|(o & k & Hin)]; [now left|]. apply middle_other in Hin as [E|Hin]; [injection E as _ _ <-; left; apply orb_true_r|right; now exists o, k].
  - congruence.
Qed.

(** And one lost goes again, whether or not it may arrive still. *)
Lemma onDataLost_ok w F1 F2 os c s off n fin (gone : bool) :
  xok w (F1 ++ sfStream (sid s) off n fin :: F2) os c s ->
  xok w (if gone then F1 ++ F2 else F1 ++ sfStream (sid s) off n fin :: F2) os (onDataLost c s off n fin).1 (onDataLost c s off n fin).2.
Proof.
  intros Hx. unfold onDataLost. destruct (reset (ss s) || done s) eqn:Hrd.
  { destruct gone; [|exact Hx]. apply (xok_drop_data _ _ _ _ _ _ off n fin Hx). now apply orb_true_iff. }
  apply orb_false_iff in Hrd as [Hr Hdn]. apply xok_queue.
  destruct (xo_flight _ _ _ _ _ Hx off n fin) as (Ho & Hn0 & Hon & Hfin); [apply elem_of_app; right; apply elem_of_cons; now left|].
  destruct (xo_buf _ _ _ _ _ Hx Hr) as [Hok He]. destruct (Send.onLost_spec _ _ off n Hok Hon) as (Hok' & Hb' & He' & Hn' & Ha' & Hl').
  cbn [st_send st_ss ss sd_send finAcked]. set (s1 := if fin && negb (finAcked (ss s)) then _ else _).
  assert (s1 = st_ss s (sd_finSent (sd_send (ss s) (Send.onLost (send (ss s)) off n)) (finSent (ss s) && negb (fin && negb (finAcked (ss s)))))) as -> by (unfold s1; destruct (fin && negb (finAcked (ss s))); cbn [negb]; [now rewrite andb_false_r|rewrite andb_true_r; now destruct s as [? [] ? ? ? ?]]).
  set (s1 := st_ss s _). assert (xok w (F1 ++ sfStream (sid s) off n fin :: F2) os c s1) as Hx1.
  { destruct Hx as [Hw Hs Hc Hm Hnx Hb Hfi Hfq Hcut Hfl Hrel Hfr Hrr Hno Hd Hfg]. split; cbn; rewrite ?Hn'; try assumption; try congruence.
    - intros _. split; [exact Hok'|congruence].
    - split; [|tauto]. intros E. apply andb_true_iff in E as [E _]. tauto.
    - intros _ x Hx. destruct (Hrel Hr x Hx) as [Hx1|[Hx2|Hx3]]; [left; unfold Send.ackedSet in *; now rewrite Hb', Ha'| |auto].
      destruct (Z.lt_ge_cases x (Send.base (send (ss s)))); [left; left; lia|]. right; left. apply Hl'; [lia|now left].
    - intros _ E. apply andb_true_iff in E as [E _]. auto. }
  destruct gone; [|exact Hx1]. apply (xok_fewer _ _ _ _ _ _ Hx1); [intros f; apply middle_sub|..]; cbn.
  - intros _ x Hxr (o & k & fi & Hin & Hxo). apply middle_other in Hin as [E|Hin]; [|right; right; now exists o, k, fi]. injection E as -> -> ->.
    destruct (Z.lt_ge_cases x (Send.base (send (ss s)))); [left; left; lia|]. right; left. apply Hl'; [lia|now right].
  - intros _ E [?|(o & k & Hin)]; [now left|]. apply andb_true_iff in E as [_ E]. apply middle_other in Hin as [E'|Hin]; [injection E' as _ _ <-; cbn in E; left; now destruct (finAcked (ss s))|right; now exists o, k].
  - congruence.
Qed.

Lemma onResetAcked_ok MI MIU w F1 F2 os c s :
  xok w (F1 ++ sfResetStream (sid s) :: F2) os c s -> xok w (F1 ++ F2) os (onResetAcked MI MIU c s).1 (onResetAcked MI MIU c s).2.
Proof.
  intros Hx. unfold onResetAcked. apply xok_finish. set (s1 := st_ss s _). assert (xok w (F1 ++ sfResetStream (sid s) :: F2) os c s1) as Hx1.
  { destruct Hx as [Hw Hs Hc Hm Hnx Hb Hfi Hfq Hcut Hfl Hrel Hfr Hrr Hno Hd Hfg]. split; cbn; try assumption; [auto|]. intros E. specialize (Hd E). unfold sendDone in *. cbn. destruct (hasSend (ss s)), (reset (ss s)); cbn in *; auto. }
  apply (xok_fewer _ _ _ _ _ _ Hx1); [intros f; apply middle_sub|..]; cbn.
  - intros _ x _ (o & k & fi & Hin & Hxo). right; right. apply middle_other in Hin as [|Hin]; [discriminate|]. now exists o, k, fi.
  - intros _ _ [?|(o & k & Hin)]; [now left|]. right. apply middle_other in Hin as [|Hin]; [discriminate|]. now exists o, k.
  - auto.
Qed.

Lemma onResetLost_ok w F1 F2 os c s (gone : bool) :
  xok w (F1 ++ sfResetStream (sid s) :: F2) os c s -> reset (ss s) = true ->
  xok w (if gone then F1 ++ F2 else F1 ++ sfResetStream (sid s) :: F2) os (onResetLost c s).1 (onResetLost c s).2.
Proof.
  intros Hx Hr. assert (xok w (F1 ++ sfResetStream (sid s) :: F2) os (onResetLost c s).1 (onResetLost c s).2 /\ (resetPending (ss (onResetLost c s).2) = true \/ resetAcked (ss (onResetLost c s).2) = true) /\ sid (onResetLost c s).2 = sid s /\ reset (ss (onResetLost c s).2) = true) as (Hx1 & Hp & Es & Er).
  { unfold onResetLost. destruct (negb (resetAcked (ss s)) && negb (done s)) eqn:E.
    - set (s1 := st_ss s _). assert (xok w (F1 ++ sfResetStream (sid s) :: F2) os c s1) as Hx1 by (destruct Hx; split; cbn; try assumption; [auto|congruence]).
      split; [now apply xok_queue|]. unfold queueStream. destruct (negb (queued s1) && negb (done s1)); cbn; auto.
    - split; [exact Hx|]. split; [|auto]. right. cbn [fst snd]. apply andb_false_iff in E as [E|E]; [now destruct (resetAcked (ss s))|]. assert (done s = true) as Hd by (now destruct (done s)).
      pose proof (xo_done _ _ _ _ _ Hx Hd) as Hsd. unfold sendDone in Hsd. rewrite Hr in Hsd. destruct (hasSend (ss s)) eqn:Hh; [exact Hsd|]. destruct (xo_none _ _ _ _ _ Hx Hh). congruence. }
  destruct gone; [|exact Hx1]. apply (xok_fewer _ _ _ _ _ _ Hx1); [intros f; apply middle_sub|congruence|congruence|]. intros _ _. tauto.
Qed.

(** A frame that is not about the stream's data, nor its reset, is nothing to it. *)
Lemma xok_drop_other w F1 F2 os c s f :
  xok w (F1 ++ f :: F2) os c s -> (forall off n fin, f <> sfStream (sid s) off n fin) -> f <> sfResetStream (sid s) -> xok w (F1 ++ F2) os c s.
Proof.
  intros Hx Hf1 Hf2. apply (xok_fewer _ _ _ _ _ _ Hx); [intros g; apply middle_sub|..].
  - intros _ x _ (o & k & fi & Hin & Hxo). right; right. apply middle_other in Hin as [E|Hin]; [now destruct (Hf1 o k fi)|]. now exists o, k, fi.
  - intros _ _ [?|(o & k & Hin)]; [now left|]. right. apply middle_other in Hin as [E|Hin]; [now destruct (Hf1 o k true)|]. now exists o, k.
  - intros _ Hin. apply middle_other in Hin as [E|Hin]; [now destruct Hf2|auto].
Qed.

End QOut.
