(* ===== verification/QuicWake.v ===== *)
(** * The queue of QUIC streams with something to send (src/http3/quic/stream.go, conn.go, send.go)

    A stream that has a frame to send is in the queue, or nothing would ever look
    at it again: every handler that gives a stream something to send queues it, and
    the sender takes it off only once it has nothing. *)

From S2P Require Import Prelude QuicVarint QuicRanges QuicRecv QuicSend QuicFrames QuicStream QuicFlow QuicOut.
From stdpp Require Import base list numbers gmap.
From Stdlib Require Import ZArith Lia.

Local Open Scope Z_scope.
Local Open Scope go_scope.

Module QWake.
Import Recv QStream QFlow QOut.

(** ** One stream *)

Definition wants (c : conn) (s : stream) : bool := (sendable c s).2.

(** What of it is of the receiving side. *)
Definition flags (s : stream) : bool := stopPending (rs s) || maxDataPending (rs s).

Lemma wants_split c s :
  wants c s = flags s || resetPending (ss s) || (hasSend (ss s) && negb (reset (ss s)) &&
    (b_pending (blocked (ss s)) || negb (len (Send.skipLost (Send.lost (send (ss s))) (Send.base (send (ss s)))) =? 0) ||
     if Send.next (send (ss s)) <? Send.end_ (send (ss s)) then 0 <? sendCredit c s else finQueued (ss s) && negb (finSent (ss s)))).
Proof.
  unfold wants, sendable, flags, Send.hasLost. destruct (_ || _ || _) eqn:E1; [reflexivity|]. cbn [orb].
  destruct (b_pending (blocked (ss s))), (reset (ss s)), (hasSend (ss s)); cbn [andb orb negb snd]; try reflexivity.
  all: destruct (len _ =? 0); cbn [negb orb]; [|reflexivity]; cbn; destruct (_ <? _); reflexivity.
Qed.

(** The queue, of one stream: as it was, or with the stream at its end. *)
Definition qstep (c c' : conn) (s s' : stream) : Prop :=
  queued s' = queued s /\ sendQueue c' = sendQueue c \/ queued s = false /\ queued s' = true /\ sendQueue c' = sendQueue c ++ [sid s].

(** What a handler of the receiving side may do to it. *)
Record rung (c c' : conn) (s s' : stream) : Prop := {
  rg_sid : sid s' = sid s;
  rg_queue : qstep c c' s s';
  rg_done : done s = true -> done s' = true;
  rg_flags : flags s' = true -> flags s = true \/ queued s' = true \/ done s' = true
}.

Lemma qstep_trans c1 c2 c3 s1 s2 s3 : sid s2 = sid s1 -> qstep c1 c2 s1 s2 -> qstep c2 c3 s2 s3 -> qstep c1 c3 s1 s3.
Proof.
  intros Hi [[A1 A2]|(A1 & A2 & A3)] [[B1 B2]|(B1 & B2 & B3)]; unfold qstep; [left; split; congruence|right; splits; congruence|right; splits; congruence|congruence].
Qed.

Lemma qstep_mono c c' s s' : qstep c c' s s' -> queued s = true -> queued s' = true.
Proof. intros [[-> _]|(_ & -> & _)]; auto. Qed.

Lemma rung_refl c s : rung c c s s.
Proof. split; auto. now left. Qed.

Lemma rung_trans c1 c2 c3 s1 s2 s3 : rung c1 c2 s1 s2 -> rung c2 c3 s2 s3 -> rung c1 c3 s1 s3.
Proof.
  intros [A1 A2 A3 A4] [B1 B2 B3 B4]. split; [congruence|exact (qstep_trans _ _ _ _ _ _ A1 A2 B2)|auto|].
  intros Hf. destruct (B4 Hf) as [Hf2|[?|?]]; auto. destruct (A4 Hf2) as [?|[Hq|?]]; auto. right; left. exact (qstep_mono _ _ _ _ B2 Hq).
Qed.

(** Nothing new to say. *)
Lemma rung_still c c' s s' : sid s' = sid s -> queued s' = queued s -> sendQueue c' = sendQueue c -> (done s = true -> done s' = true) -> (flags s' = true -> flags s = true) -> rung c c' s s'.
Proof. intros H1 H2 H3 H4 H5. split; auto. now left. Qed.

(** Something new, and queued for it. *)
Lemma rung_queue c s s' : sid s' = sid s -> queued s' = queued s -> done s' = done s -> rung c (queueStream c s').1 s (queueStream c s').2.
Proof.
  intros H1 H2 H3. unfold queueStream. destruct (negb (queued s') && negb (done s')) eqn:E; cbn [fst snd].
  - apply andb_true_iff in E as [E1%negb_true_iff E2%negb_true_iff]. split; [exact H1|right; cbn; splits; congruence|cbn; congruence|cbn; auto].
  - split; [exact H1|left; now split|congruence|]. intros _. right. destruct (queued s'), (done s'); auto; discriminate.
Qed.

Ltac still := apply rung_still; cbn; auto; unfold flags; cbn; auto.

Section Config.
Context (W CW MI MIU : Z).

Lemma consumed_rung c s off : rung c (consumed W CW c s off).1 s (consumed W CW c s off).2.
Proof.
  unfold consumed. set (p := if recvRead (rs s) <? off then _ else _). assert (rung c p.1 s p.2) as H1 by (unfold p; destruct (_ <? _); [still|apply rung_refl]). destruct p as [c1 s1]. cbn [fst snd] in H1.
  set (q := if (_ <? 0) && _ && _ then _ else _). assert (rung c1 q.1 s1 q.2) as H2 by (unfold q; destruct (_ && _ && _); [now apply rung_queue|apply rung_refl]). destruct q as [c2 s2]. cbn [fst snd] in H2.
  eapply rung_trans; [exact H1|]. eapply rung_trans; [exact H2|]. destruct (_ <? _); [still|apply rung_refl].
Qed.

Lemma deliver_rung c s data fin : rung c (deliver W CW c s data fin).1 s (deliver W CW c s data fin).2.
Proof. unfold deliver. pose proof (consumed_rung c s (if holdCredit (rs s) then creditAt (rs s) else offset (recv (rs s)))) as H. destruct (consumed _ _ _ _ _) as [c' s']. eapply rung_trans; [exact H|]. cbn. still. Qed.

Lemma deliverLoop_rung fuel c s last c' s' last' : deliverLoop W CW fuel c s last = Some (c', s', last') -> rung c c' s s'.
Proof.
  revert c s last. induction fuel as [|fuel IH]; intros c s last; [discriminate|]. cbn [deliverLoop]. destruct (pop (recv (rs s))) as [[chunk|] r].
  - set (s1 := st_rs s _). assert (rung c c s s1) as H1 by still. destruct last as [d|]; [|intros E; eapply rung_trans; [exact H1|exact (IH _ _ _ E)]].
    pose proof (deliver_rung c s1 d false) as H2. destruct (deliver _ _ _ _ _ _) as [c1 s2]. intros E. eapply rung_trans; [exact H1|]. eapply rung_trans; [exact H2|exact (IH _ _ _ E)].
  - intros [= <- <- <-]. still.
Qed.

Lemma maybeFinish_rung c s : rung c (maybeFinish MI MIU c s).1 s (maybeFinish MI MIU c s).2.
Proof.
  destruct (maybeFinish_tidy MI MIU c s) as (Hc & Hs & Hd). destruct (maybeFinish MI MIU c s) as [c' s']. cbn [fst snd] in *.
  apply rung_still; [exact (f_equal sid Hs)|exact (f_equal queued Hs)|exact (f_equal sendQueue Hc)|intros E; rewrite Hd, E; reflexivity|unfold flags; now rewrite (f_equal rs Hs : rs s' = rs s)].
Qed.

Lemma takeIn_rung c s off data c' s' e : takeIn W CW MI MIU c s off data = Some (c', s', e) -> rung c c' s s'.
Proof.
  unfold takeIn. destruct (take_ _ _ _ _) as [[last r] ok']. set (s1 := st_rs s _). assert (rung c c s s1) as H1 by still. destruct ok'; cbn [negb]; [|intros [= <- <- <-]; exact H1].
  destruct (deliverLoop _ _ _ _ _ _) as [[[c2 s2] last2]|] eqn:El; [|discriminate]. apply deliverLoop_rung in El. pose proof (rung_trans _ _ _ _ _ _ H1 El) as H2. destruct (_ && _ && _).
  - set (s3 := st_rs s2 _). assert (rung c2 c2 s2 s3) as H3 by still. pose proof (deliver_rung c2 s3 (default [] last2) true) as H4. destruct (deliver _ _ _ _ _ _) as [c4 s4].
    pose proof (maybeFinish_rung c4 s4) as H5. destruct (maybeFinish _ _ _ _) as [c5 s5]. intros [= <- <- <-]. exact (rung_trans _ _ _ _ _ _ H2 (rung_trans _ _ _ _ _ _ H3 (rung_trans _ _ _ _ _ _ H4 H5))).
  - destruct last2 as [d|]; [|intros [= <- <- <-]; exact H2]. pose proof (deliver_rung c2 s2 d false) as H4. destruct (deliver _ _ _ _ _ _) as [c4 s4]. intros [= <- <- <-]. exact (rung_trans _ _ _ _ _ _ H2 H4).
Qed.

Lemma discard_rung c s e : rung c (discard W CW MI MIU c s e).1 s (discard W CW MI MIU c s e).2.
Proof.
  unfold discard. pose proof (consumed_rung c s e) as H1. destruct (consumed _ _ _ _ _) as [c1 s1]. cbn [fst snd] in H1. destruct (_ && _ && _); [|exact H1].
  eapply rung_trans; [exact H1|]. eapply rung_trans; [|apply maybeFinish_rung]. still.
Qed.

Lemma reach_rung c s e c' s' o : reach c s e = (c', s', o) -> rung c c' s s'.
Proof. unfold reach. destruct (_ <? _); intros [= <- <- <-]; [still|apply rung_refl]. Qed.

Lemma onStreamFrame_rung c s off data fin c' s' e : onStreamFrame W CW MI MIU c s off data fin = Some (c', s', e) -> rung c c' s s'.
Proof.
  unfold onStreamFrame. destruct (_ <? u64 _); [intros [= <- <- <-]; apply rung_refl|]. destruct (_ && _); [intros [= <- <- <-]; apply rung_refl|]. destruct (_ && _); [intros [= <- <- <-]; apply rung_refl|].
  set (s1 := if fin then _ else s). assert (rung c c s s1) as H1 by (unfold s1; destruct fin; [still|apply rung_refl]). destruct (_ <? u64 _); [intros [= <- <- <-]; exact H1|].
  destruct (reach _ _ _) as [[c2 s2] [o|]] eqn:Er; apply reach_rung in Er; pose proof (rung_trans _ _ _ _ _ _ H1 Er) as H2; [intros [= <- <- <-]; exact H2|]. destruct (_ || _ || _).
  - pose proof (discard_rung c2 s2 (u64 (off + len data))) as H3. destruct (discard _ _ _ _ _ _ _) as [c3 s3]. intros [= <- <- <-]. exact (rung_trans _ _ _ _ _ _ H2 H3).
  - intros E. exact (rung_trans _ _ _ _ _ _ H2 (takeIn_rung _ _ _ _ _ _ _ E)).
Qed.

Lemma resetCounted_rung c s : rung c (resetCounted c s).1.1 s (resetCounted c s).1.2.
Proof.
  destruct (resetCounted_tidy c s) as [Hc Hs]. destruct (resetCounted c s) as [[c' s'] ok']. cbn [fst snd] in *.
  apply rung_still; [exact (f_equal sid Hs)|exact (f_equal queued Hs)|exact (f_equal sendQueue Hc)|now rewrite (f_equal done Hs : done s' = done s)|unfold flags; now rewrite (f_equal rs Hs : rs s' = rs s)].
Qed.

Lemma onResetStream_rung c s code size c' s' e : onResetStream W CW MI MIU c s code size = (c', s', e) -> rung c c' s s'.
Proof.
  unfold onResetStream. destruct (_ || _); [intros [= <- <- <-]; apply rung_refl|]. destruct (_ <? size); [intros [= <- <- <-]; apply rung_refl|].
  destruct (reach _ _ _) as [[c2 s2] [o|]] eqn:Er; apply reach_rung in Er as H2; [intros [= <- <- <-]; exact H2|]. set (s3 := st_rs s2 _). assert (rung c2 c2 s2 s3) as H3 by still.
  pose proof (consumed_rung c2 s3 size) as H4. destruct (consumed _ _ _ _ _) as [c4 s4]. cbn [fst snd] in H4. pose proof (rung_trans _ _ _ _ _ _ H2 (rung_trans _ _ _ _ _ _ H3 H4)) as H5. destruct (_ || _); [intros [= <- <- <-]; exact H5|].
  set (p := if negb _ then resetCounted c4 s4 else _). assert (rung c4 p.1.1 s4 p.1.2) as H6 by (unfold p; destruct (negb _); [apply resetCounted_rung|apply rung_refl]). destruct p as [[c6 s6] ok6]. cbn [fst snd] in H6.
  pose proof (rung_trans _ _ _ _ _ _ H5 H6) as H7. destruct ok6; cbn [negb]; [|intros [= <- <- <-]; exact H7]. set (s7 := st_rs s6 _). set (c7 := if negb _ then _ else c6).
  assert (rung c6 c7 s6 s7) as H8 by (unfold c7; destruct (negb _); (apply rung_still; cbn; auto; unfold flags; cbn; rewrite orb_false_r; intros ->; reflexivity)). pose proof (maybeFinish_rung c7 s7) as H9. destruct (maybeFinish _ _ _ _) as [c9 s9]. intros [= <- <- <-].
  exact (rung_trans _ _ _ _ _ _ H7 (rung_trans _ _ _ _ _ _ H8 H9)).
Qed.

Lemma stopSending_rung c s code : rung c (stopSendingLocked c s code).1 s (stopSendingLocked c s code).2.
Proof. unfold stopSendingLocked. destruct (_ || _); [apply rung_refl|]. now apply rung_queue. Qed.

Lemma HoldCredit_rung c s : rung c c s (HoldCredit s).
Proof. unfold HoldCredit. destruct (negb _); [still|apply rung_refl]. Qed.

Lemma Credit_rung c s n : rung c (Credit W CW c s n).1 s (Credit W CW c s n).2.
Proof. unfold Credit. destruct (_ || _); [apply rung_refl|]. eapply rung_trans; [|apply consumed_rung]. still. Qed.

End Config.

(** ** Woken *)

(** A stream that has something to send is queued, unless it is done. *)
Definition woken (c : conn) (s : stream) : Prop := done s = false -> wants c s = true -> queued s = true.

Lemma queue_woken c s : woken (queueStream c s).1 (queueStream c s).2.
Proof. unfold woken, queueStream. destruct (queued s) eqn:Eq, (done s) eqn:Ed; cbn; intros; congruence. Qed.

(** What more is sent leaves a stream less credit, never more. *)
Lemma credit_mono c c' s : sentData c <= sentData c' -> peerMaxData c' = peerMaxData c -> 0 < sendCredit c' s -> 0 < sendCredit c s.
Proof.
  intros Hs Hp. unfold sendCredit. rewrite Hp. destruct (Z.leb_spec (sendMax (ss s)) (Send.next (send (ss s)))), (Z.leb_spec (peerMaxData c) (sentData c)), (Z.leb_spec (peerMaxData c) (sentData c')); cbn; lia.
Qed.

Lemma wants_mono c c' s : sentData c <= sentData c' -> peerMaxData c' = peerMaxData c -> wants c' s = true -> wants c s = true.
Proof.
  intros Hs Hp. rewrite !wants_split. destruct (flags s || _); [auto|]. cbn [orb]. destruct (hasSend _ && _); [|auto]. cbn [andb]. destruct (b_pending _ || _); [auto|]. cbn [orb].
  destruct (_ <? Send.end_ _); [|auto]. rewrite !Z.ltb_lt. now apply credit_mono.
Qed.

Lemma woken_mono c c' s : sentData c <= sentData c' -> peerMaxData c' = peerMaxData c -> woken c s -> woken c' s.
Proof. intros Hs Hp Hw Hd Hx. apply Hw; [exact Hd|]. exact (wants_mono _ _ _ Hs Hp Hx). Qed.

Lemma rung_woken c c' s s' : rung c c' s s' -> ss s' = ss s -> sentData c' = sentData c -> peerMaxData c' = peerMaxData c -> woken c s -> woken c' s'.
Proof.
  intros [Hi Hq Hdm Hf] Hs E1 E2 Hw Hd Hx. assert (done s = false) as Hd0 by (destruct (done s); [rewrite Hdm in Hd; auto|reflexivity]).
  assert (wants c s = true -> queued s' = true) as Hold by (intros Hx0; exact (qstep_mono _ _ _ _ Hq (Hw Hd0 Hx0))).
  rewrite wants_split, Hs in Hx. destruct (flags s') eqn:Ef.
  - destruct (Hf eq_refl) as [H|[H|H]]; [|exact H|congruence]. apply Hold. rewrite wants_split, H. reflexivity.
  - apply Hold. rewrite wants_split. cbn [orb] in Hx. destruct (flags s); [reflexivity|]. cbn [orb]. destruct (resetPending (ss s)); [reflexivity|]. cbn [orb] in *.
    assert (sendCredit c' s' = sendCredit c s) as <- by (unfold sendCredit; now rewrite Hs, E1, E2). exact Hx.
Qed.

Lemma skipLost_mono l b b' : b <= b' -> Send.skipLost l b' <> [] -> Send.skipLost l b <> [].
Proof.
  intros Hb. induction l as [|x l IH]; [auto|]. cbn. destruct (Z.leb_spec (Ranges.s_end x) b'), (Z.leb_spec (Ranges.s_end x) b); [auto|discriminate|lia|discriminate].
Qed.

Lemma len_zero {A} (l : list A) : len l =? 0 = true <-> l = [].
Proof. rewrite Z.eqb_eq. split; [destruct l; [reflexivity|rewrite len_cons; pose proof (len_nonneg l); lia]|now intros ->]. Qed.

(** An acknowledgement gives a stream nothing new to send. *)
Lemma onDataAcked_woken MI MIU w F os c s off n fin :
  xok w F os c s -> sfStream (sid s) off n fin ∈ F -> woken c s ->
  rung c (onDataAcked MI MIU c s off n fin).1 s (onDataAcked MI MIU c s off n fin).2 /\ woken (onDataAcked MI MIU c s off n fin).1 (onDataAcked MI MIU c s off n fin).2.
Proof.
  intros Hx Hin Hw. unfold onDataAcked. destruct (reset (ss s)) eqn:Hr; [split; [apply rung_refl|exact Hw]|].
  destruct (xo_flight _ _ _ _ _ Hx off n fin Hin) as (Ho & Hn0 & Hon & _). destruct (xo_buf _ _ _ _ _ Hx Hr) as [Hok _]. destruct (Send.onAck_spec _ _ off n Hok Ho Hn0 Hon) as (_ & Hb & He & Hn & Hl & _).
  set (s1 := if fin then _ else _). assert (rung c c s s1) as H1 by (unfold s1; destruct fin; still). assert (woken c s1) as Hw1.
  { intros Hd Hx1. assert (queued s1 = queued s /\ done s1 = done s) as [-> Ed] by (unfold s1; destruct fin; auto). apply Hw; [congruence|]. rewrite wants_split in *.
    assert (flags s1 = flags s /\ resetPending (ss s1) = resetPending (ss s) /\ hasSend (ss s1) = hasSend (ss s) /\ reset (ss s1) = reset (ss s) /\ blocked (ss s1) = blocked (ss s) /\ finQueued (ss s1) = finQueued (ss s) /\ finSent (ss s1) = finSent (ss s) /\
      sendMax (ss s1) = sendMax (ss s) /\ send (ss s1) = Send.onAck (send (ss s)) off n) as (E1 & E2 & E3 & E4 & E5 & E6 & E7 & E8 & E9) by (unfold s1; destruct fin; now splits).
    assert (sendCredit c s1 = sendCredit c s) as Ec by (unfold sendCredit; now rewrite E8, E9, Hn). rewrite E1, E2, E3, E4, E5, E6, E7, Ec, E9, Hn, He, Hl in Hx1.
    destruct (flags s || _); [auto|]. destruct (hasSend _ && _); [|auto]. destruct (b_pending _); [auto|]. cbn [orb andb] in *.
    destruct (len (Send.skipLost (Send.lost (send (ss s))) (Send.base (send (ss s)))) =? 0) eqn:Ez; [|reflexivity].
    destruct (len (Send.skipLost (Send.lost (send (ss s))) (Send.base (Send.onAck (send (ss s)) off n))) =? 0) eqn:Ez'; [exact Hx1|]. apply len_zero in Ez.
    exfalso. refine (skipLost_mono (Send.lost (send (ss s))) _ _ Hb _ Ez). intros E. apply len_zero in E. congruence. }
  split; [eapply rung_trans; [exact H1|apply maybeFinish_rung]|]. pose proof (maybeFinish_rung MI MIU c s1) as H2. destruct (maybeFinish_tidy MI MIU c s1) as (Hc & Hs & _). destruct (maybeFinish MI MIU c s1) as [c' s']. cbn [fst snd] in *.
  exact (rung_woken _ _ _ _ H2 (f_equal ss Hs) (f_equal sentData Hc) (f_equal peerMaxData Hc) Hw1).
Qed.

(** The other handlers queue the stream, or have nothing new for it. *)
Definition handled (c c' : conn) (s s' : stream) : Prop := rung c c' s s' /\ (woken c s -> woken c' s').

Lemma handled_refl c s : handled c c s s.
Proof. split; [apply rung_refl|auto]. Qed.

Lemma handled_queue c s s' : sid s' = sid s -> queued s' = queued s -> done s' = done s -> handled c (queueStream c s').1 s (queueStream c s').2.
Proof. intros H1 H2 H3. split; [now apply rung_queue|]. intros _. apply queue_woken. Qed.

Lemma written_handled c s b fin : handled c (written c s b fin).1 s (written c s b fin).2.
Proof. unfold written. apply handled_queue; now destruct fin. Qed.

Lemma resetLocked_handled c s code : handled c (resetLocked c s code).1 s (resetLocked c s code).2.
Proof. unfold resetLocked. destruct (_ || _ || _); [apply handled_refl|]. now apply handled_queue. Qed.

Lemma onDataLost_handled c s off n fin : handled c (onDataLost c s off n fin).1 s (onDataLost c s off n fin).2.
Proof. unfold onDataLost. destruct (_ || _); [apply handled_refl|]. apply handled_queue; now destruct (_ && _). Qed.

Lemma onResetLost_handled c s : handled c (onResetLost c s).1 s (onResetLost c s).2.
Proof. unfold onResetLost. destruct (_ && _); [|apply handled_refl]. now apply handled_queue. Qed.

Lemma onMaxDataLost_handled c s : handled c (onMaxDataLost c s).1 s (onMaxDataLost c s).2.
Proof. unfold onMaxDataLost. destruct (_ && _); [|apply handled_refl]. now apply handled_queue. Qed.

Lemma onStopSendingLost_handled c s : handled c (onStopSendingLost c s).1 s (onStopSendingLost c s).2.
Proof. unfold onStopSendingLost. destruct (_ && _); [|apply handled_refl]. now apply handled_queue. Qed.

Lemma onBlockedLost_handled c s at' : handled c (onBlockedLost c s at').1 s (onBlockedLost c s at').2.
Proof.
  unfold onBlockedLost. destruct (_ && _); [|apply handled_refl]. cbn [st_ss ss blocked sd_blocked]. destruct (b_pending (lost _ _ _)) eqn:Ep; [now apply handled_queue|].
  assert (lost (blocked (ss s)) at' (sendMax (ss s)) = blocked (ss s)) as -> by (revert Ep; unfold lost; now destruct (_ && _ && _)).
  assert (st_ss s (sd_blocked (ss s) (blocked (ss s))) = s) as -> by (now destruct s as [? [] ? ? ? ?]). apply handled_refl.
Qed.

Lemma onResetAcked_handled MI MIU c s : handled c (onResetAcked MI MIU c s).1 s (onResetAcked MI MIU c s).2.
Proof.
  unfold onResetAcked. set (s1 := st_ss s _). assert (rung c c s s1) as H1 by still. pose proof (maybeFinish_rung MI MIU c s1) as H2. split; [exact (rung_trans _ _ _ _ _ _ H1 H2)|]. intros Hw.
  destruct (maybeFinish_tidy MI MIU c s1) as (Hc & Hs & _). destruct (maybeFinish MI MIU c s1) as [c' s']. cbn [fst snd] in *.
  apply (rung_woken _ _ _ _ H2 (f_equal ss Hs) (f_equal sentData Hc) (f_equal peerMaxData Hc)). intros Hd Hx. apply Hw; [exact Hd|]. rewrite wants_split in *. exact Hx.
Qed.

End QWake.
