(* ===== verification/QuicConn.v ===== *)
(** * The streams of a QUIC connection together (src/http3/quic/stream.go, conn.go, frames.go, send.go)

    The promises of every stream and of the counters of their connection, kept by
    each operation: a frame of a packet, a call of the application, a packet filled,
    and what is heard of the packets sent. *)

From S2P Require Import Prelude QuicVarint QuicRanges QuicRecv QuicSend QuicFrames QuicStream QuicFlow QuicOut QuicWake.
From stdpp Require Import base list numbers gmap.
From Stdlib Require Import ZArith Lia.

Local Open Scope Z_scope.
Local Open Scope go_scope.

Module QConn.
Import Varint Recv QStream QFlow QOut QWake.

(** ** Sums over the streams *)

Definition total (f : stream -> Z) (m : gmap Z stream) : Z := map_fold (fun _ s n => f s + n) 0 m.

Lemma total_new f m i s : m !! i = None -> total f (<[i := s]> m) = f s + total f m.
Proof. intros Hi. unfold total. rewrite map_fold_insert_L; [reflexivity| |exact Hi]. intros. lia. Qed.

Lemma total_split f m i s : m !! i = Some s -> total f m = f s + total f (delete i m).
Proof. intros Hi. rewrite <- (total_new f (delete i m) i s) by apply lookup_delete_eq. now rewrite insert_delete_id. Qed.

Lemma total_set f m i s s' : m !! i = Some s -> total f (<[i := s']> m) = total f m - f s + f s'.
Proof. intros Hi. rewrite <- insert_delete_eq, total_new by apply lookup_delete_eq. rewrite (total_split f m i s Hi). lia. Qed.

Lemma total_le f g m : (forall i s, m !! i = Some s -> f s <= g s) -> total f m <= total g m.
Proof.
  induction m as [|i s m Hi IH] using map_ind; intros H; [reflexivity|]. rewrite !total_new by exact Hi.
  pose proof (H i s (lookup_insert_eq m i s)). assert (total f m <= total g m); [|lia]. apply IH. intros j t Hj. apply (H j). rewrite lookup_insert_ne by congruence. exact Hj.
Qed.

Lemma total_zero m : total (fun _ => 0) m = 0.
Proof. induction m as [|i s m Hi IH] using map_ind; [reflexivity|]. now rewrite total_new by exact Hi. Qed.

Lemma total_nonneg f m : (forall i s, m !! i = Some s -> 0 <= f s) -> 0 <= total f m.
Proof. intros H. rewrite <- (total_zero m). now apply total_le. Qed.

(** The sum over the others. *)
Lemma total_rest f g m i s : m !! i = Some s -> (forall j t, m !! j = Some t -> 0 <= f t <= g t) -> 0 <= total f m - f s <= total g m - g s.
Proof.
  intros Hi H. rewrite (total_split f m i s Hi), (total_split g m i s Hi).
  assert (forall j t, delete i m !! j = Some t -> 0 <= f t <= g t) as Hd by (intros j t Hj; apply lookup_delete_Some in Hj as [_ Hj]; eauto).
  pose proof (total_nonneg f (delete i m) ltac:(intros j t Hj; apply (Hd j t Hj))). pose proof (total_le f g (delete i m) ltac:(intros j t Hj; apply (Hd j t Hj))). lia.
Qed.

Lemma total_ext f g m : (forall i s, m !! i = Some s -> f s = g s) -> total f m = total g m.
Proof. intros H. apply Z.le_antisymm; apply total_le; intros i s Hs; rewrite (H i s Hs); lia. Qed.

(** ** The promises *)

Section Config.
Context (W CW MI MIU : Z) (pp : option peerLimits).

Definition high (s : stream) : Z := recvHigh (rs s).
Definition readTo (s : stream) : Z := recvRead (rs s).
Definition nextOf (s : stream) : Z := Send.next (send (ss s)).

(** Of what is received, after [n] frames. *)
Record cokR (n : Z) (c : conn) : Prop := {
  cr_rok : forall i s, streams c !! i = Some s -> rok W (rs s);
  cr_data : recvData c = total high (streams c);
  cr_cons : recvConsumed c = total readTo (streams c);
  cr_max : recvData c <= recvMaxData c <= recvConsumed c + CW;
  cr_n : recvData c <= CW * n /\ 0 <= n /\ 0 <= CW;
  cr_quota : forall b, qok (incoming MI MIU b) (total (counts c b) (streams c)) (quotaOf c b)
}.

(** Of which streams there are. *)
Record cokI (c : conn) : Prop := {
  ci_sid : forall i s, streams c !! i = Some s -> sid s = i;
  ci_ids : forall i s, streams c !! i = Some s -> 0 <= i < 2 ^ 62 /\ (i .>> 2) < if local c i then a_opened (allowanceOf c (isBidi i)) else q_opened (quotaOf c (isBidi i));
  ci_own : forall b, 0 <= a_opened (allowanceOf c b) <= a_max (allowanceOf c b) /\ a_max (allowanceOf c b) <= 2 ^ 60
}.

(** A frame about a stream's sending side. *)
Definition mine (i : Z) (f : sentFrame) : Prop :=
  match f with sfStream j _ _ _ => j = i | sfResetStream j => j = i | _ => False end.

(** Of what is sent: [w] is what each stream was written, [F] what is on its way. *)
Record cokX (w : Z -> bytes) (F : list sentFrame) (c : conn) : Prop := {
  cx_xok : forall i s, streams c !! i = Some s -> xok (w i) F (sentData c - nextOf s) c s;
  cx_sent : sentData c = total nextOf (streams c);
  cx_peer : sentData c <= peerMaxData c /\ peerMaxData c < 2 ^ 62;
  cx_new : forall i, streams c !! i = None -> w i = [] /\ forall f, f ∈ F -> ~ mine i f;
  cx_resets : forall i s, streams c !! i = Some s -> sfResetStream i ∈ F -> reset (ss s) = true
}.

(** Of the queue, with whether every stream that has something to send is [awake]:
    between a limit raised and the end of its packet they may not be. *)
Record cokQ (a : bool) (c : conn) : Prop := {
  cq_nodup : NoDup (sendQueue c);
  cq_in : forall i, i ∈ sendQueue c <-> exists s, streams c !! i = Some s /\ queued s = true;
  cq_woken : a = true -> forall i s, streams c !! i = Some s -> woken c s
}.

(** ** One stream changed *)

(** What the promises of one stream need to know of the others. *)
Lemma lok_of n K c i s : cokR n c -> streams c !! i = Some s -> CW * n <= K -> K + CW < 2 ^ 63 ->
  lok W CW K (total high (streams c) - high s) (total readTo (streams c) - readTo s) c s /\
  nok MI MIU (fun b => total (counts c b) (streams c) - counts c b s) c s /\ recvMaxData c <= CW * (n + 1).
Proof.
  intros [Hr Hd Hc Hm Hn Hq] Hi HK1 HK2.
  assert (0 <= total readTo (streams c) - readTo s <= total high (streams c) - high s) as Hrest by (apply (total_rest readTo high _ i); [exact Hi|]; intros j t Hj; pose proof (ro_read _ _ (Hr j t Hj)); unfold readTo, high; lia).
  pose proof (ro_read _ _ (Hr i s Hi)). unfold high, readTo in *. split; [constructor; [exact (Hr i s Hi)|..]; unfold high, readTo in *; lia|]. split; [|lia].
  intros b. specialize (Hq b). split; [|replace (total (counts c b) (streams c) - counts c b s + counts c b s) with (total (counts c b) (streams c)) by lia; exact Hq].
  apply (total_rest (counts c b) (counts c b) _ i); [exact Hi|]. intros j t _. unfold counts. destruct (_ && _ && _); lia.
Qed.

Lemma R_put n n' c i s c' s' oh orr ol :
  cokR n c -> streams c !! i = Some s -> streams c' = streams c -> isClient c' = isClient c -> sid s' = i ->
  oh = total high (streams c) - high s -> orr = total readTo (streams c) - readTo s -> ol = (fun b => total (counts c b) (streams c) - counts c b s) ->
  lok W CW (CW * n') oh orr c' s' -> nok MI MIU ol c' s' -> 0 <= n' -> cokR n' (put c' s').
Proof.
  intros [Hr Hd Hc Hm Hn Hq] Hi Hst Hcl Hsid -> -> -> [L1 L2 L3 L4 L5 L6] Hnok Hn'. unfold put. rewrite Hsid, Hst.
  split; cbn [set_streams streams recvData recvConsumed recvMaxData].
  - intros j t Hj. apply lookup_insert_Some in Hj as [[<- <-]|[_ Hj]]; [exact L1|eauto].
  - rewrite (total_set _ _ _ s) by exact Hi. unfold high in *. lia.
  - rewrite (total_set _ _ _ s) by exact Hi. unfold readTo in *. lia.
  - exact L5.
  - lia.
  - intros b. destruct (Hnok b) as [_ Hb]. rewrite (total_set _ _ _ s) by exact Hi. change (quotaOf (set_streams c' (<[i:=s']> (streams c))) b) with (quotaOf c' b).
    assert (forall t, counts (set_streams c' (<[i:=s']> (streams c))) b t = counts c b t) as E by (intros t; unfold counts, local; cbn; now rewrite Hcl).
    rewrite (total_ext _ (counts c b)) by (intros; apply E). rewrite !E. assert (counts c' b s' = counts c b s') as Ec by (unfold counts, local; now rewrite Hcl). now rewrite Ec in Hb.
Qed.

Lemma I_put c i s c' s' :
  cokI c -> streams c !! i = Some s -> streams c' = streams c -> isClient c' = isClient c -> sid s' = i ->
  (forall b, a_opened (allowanceOf c' b) = a_opened (allowanceOf c b) /\ a_max (allowanceOf c' b) = a_max (allowanceOf c b)) -> (forall b, q_opened (quotaOf c' b) = q_opened (quotaOf c b)) -> cokI (put c' s').
Proof.
  intros [Hs Hid Ho] Hi Hst Hcl Hsid Ha Hq. unfold put. rewrite Hsid, Hst. assert (forall j, local (set_streams c' (<[i:=s']> (streams c))) j = local c j) as El by (intros j; unfold local; cbn; now rewrite Hcl). split; cbn [set_streams streams].
  - intros j t Hj. apply lookup_insert_Some in Hj as [[<- <-]|[_ Hj]]; eauto.
  - intros j t Hj. rewrite El. change (allowanceOf (set_streams c' _) (isBidi j)) with (allowanceOf c' (isBidi j)). change (quotaOf (set_streams c' _) (isBidi j)) with (quotaOf c' (isBidi j)). rewrite (proj1 (Ha _)), Hq.
    apply lookup_insert_Some in Hj as [[<- <-]|[_ Hj]]; eauto.
  - intros b. change (allowanceOf (set_streams c' _) b) with (allowanceOf c' b). destruct (Ha b) as [-> ->]. apply Ho.
Qed.

(** A stream the frames are not about. *)
Lemma xok_other w F F' os os' c c' s :
  xok w F os c s -> (forall f, mine (sid s) f -> (f ∈ F <-> f ∈ F')) -> sentData c' = os' + nextOf s -> 0 <= os' -> sentData c' <= peerMaxData c' /\ peerMaxData c' < 2 ^ 62 -> xok w F' os' c' s.
Proof.
  intros [Hw Hs Hc Hm Hn Hb Hfin Hfq Hcut Hfl Hrel Hfr Hrr Hno Hd Hfg] HF Hse Hos Hpe. split; try assumption.
  - now split.
  - intros off n fin Hin. apply Hfl. now apply HF.
  - intros Hr x Hx. destruct (Hrel Hr x Hx) as [?|[?|(o & k & fi & Hin & Hxo)]]; auto. right; right. exists o, k, fi. split; [now apply HF|exact Hxo].
  - intros Hr Hq. destruct (Hfr Hr Hq) as [?|(o & k & Hin)]; [now left|]. right. exists o, k. now apply HF.
  - intros Hr. destruct (Hrr Hr) as [?|[?|Hin]]; auto. right; right. now apply HF.
Qed.

Lemma X_put w w' F F' c i s c' s' :
  cokX w F c -> cokI c -> streams c !! i = Some s -> streams c' = streams c -> sid s' = i -> peerMaxData c' = peerMaxData c ->
  xok w' F' (sentData c - nextOf s) c' s' -> (forall j f, j <> i -> mine j f -> (f ∈ F <-> f ∈ F')) -> (sfResetStream i ∈ F' -> reset (ss s') = true) ->
  cokX (fun j => if decide (j = i) then w' else w j) F' (put c' s').
Proof.
  intros [Hx Hse Hpe Hnew Hre] [Hsid _ _] Hi Hst Es Hpm Hx' HF Hre'. unfold put. rewrite Es, Hst. pose proof (xo_sent _ _ _ _ _ Hx') as [Hse' Hos]. pose proof (xo_conn _ _ _ _ _ Hx') as Hcn.
  split; cbn [set_streams streams sentData peerMaxData].
  - intros j t Hj. apply lookup_insert_Some in Hj as [[<- <-]|[Hne Hj]].
    + rewrite decide_True by reflexivity. destruct Hx'. split; try assumption. cbn [set_streams sentData]. unfold nextOf in *. lia.
    + rewrite decide_False by congruence. assert (sid t = j) as Et by eauto. apply (xok_other _ F _ (sentData c - nextOf t) _ c); [eauto|intros f Hf; rewrite Et in Hf; apply (HF j); auto|cbn; lia| |exact Hcn].
      cbn [set_streams sentData]. pose proof (total_nonneg nextOf (delete i (streams c))) as Hp. rewrite Hse' , Hse, (total_split _ _ _ _ Hi). unfold nextOf in *.
      assert (delete i (streams c) !! j = Some t) as Hjd by (now rewrite lookup_delete_ne). rewrite (total_split _ _ _ _ Hjd). pose proof (xo_max _ _ _ _ _ Hx').
      pose proof (total_nonneg (fun s => Send.next (send (ss s))) (delete j (delete i (streams c)))) as Hpp. cbn in Hpp. assert (0 <= total (fun s0 => Send.next (send (ss s0))) (delete j (delete i (streams c)))); [|lia].
      apply Hpp. intros k u Hk. apply lookup_delete_Some in Hk as [_ Hk]. apply lookup_delete_Some in Hk as [_ Hk]. apply (xo_max _ _ _ _ _ (Hx k u Hk)).
  - rewrite (total_set _ _ _ s) by exact Hi. rewrite Hse' , <- Hse. unfold nextOf. lia.
  - exact Hcn.
  - intros j Hj. apply lookup_insert_None in Hj as [Hj Hne]. rewrite decide_False by congruence. destruct (Hnew j Hj) as [H1 H2]. split; [exact H1|]. intros f Hf Hm. apply (H2 f); [|exact Hm]. apply (HF j); auto.
  - intros j t Hj Hin. apply lookup_insert_Some in Hj as [[<- <-]|[Hne Hj]]; [auto|]. apply (Hre j t Hj). now apply (HF j).
Qed.

Lemma Q_put a c i s c' s' :
  cokQ a c -> cokI c -> streams c !! i = Some s -> streams c' = streams c -> sentData c <= sentData c' -> peerMaxData c' = peerMaxData c -> rung c c' s s' -> (a = true -> woken c' s') -> cokQ a (put c' s').
Proof.
  intros [Hnd Hin Hw] [Hsid _ _] Hi Hst Hse Hpm [Hs Hq _ _] Hwk. unfold put. rewrite Hs, (Hsid _ _ Hi), Hst. assert (sid s = i) as Es by eauto.
  assert (forall j, j ∈ sendQueue c' <-> exists t, <[i:=s']> (streams c) !! j = Some t /\ queued t = true) as Hin'.
  { intros j. assert (j ∈ sendQueue c' <-> j ∈ sendQueue c \/ (j = i /\ queued s' = true)) as ->.
    { destruct Hq as [[E1 E2]|(E1 & E2 & E3)].
      - rewrite E2. split; [now left|]. intros [?|[-> Ht]]; [assumption|]. apply Hin. exists s. split; [exact Hi|congruence].
      - rewrite E3, elem_of_app, list_elem_of_singleton, Es. intuition congruence. }
    rewrite Hin. split.
    - intros [(t & Ht & Hqt)|[-> Ht]]; [|exists s'; now rewrite lookup_insert_eq]. destruct (decide (j = i)) as [->|Hne]; [|exists t; now rewrite lookup_insert_ne]. exists s'. rewrite lookup_insert_eq. split; [reflexivity|].
      assert (t = s) as -> by congruence. eapply qstep_mono; eassumption.
    - intros (t & Ht & Hqt). apply lookup_insert_Some in Ht as [[<- <-]|[Hne Ht]]; [now right|]. left. now exists t. }
  split; cbn [set_streams streams sendQueue].
  - destruct Hq as [[_ ->]|(E1 & _ & ->)]; [exact Hnd|]. apply NoDup_app. split; [exact Hnd|]. split; [|apply NoDup_singleton]. intros j Hj ->%list_elem_of_singleton. apply Hin in Hj as (t & Ht & Hqt). rewrite Es in Ht. congruence.
  - exact Hin'.
  - intros Ha j t Hj. apply lookup_insert_Some in Hj as [[<- <-]|[Hne Hj]]; [now apply Hwk|]. apply (woken_mono c); [exact Hse|exact Hpm|eauto].
Qed.

(** All of it. *)
Record inv (a : bool) (n : Z) (w : Z -> bytes) (F : list sentFrame) (c : conn) : Prop := {
  iv_R : cokR n c;
  iv_I : cokI c;
  iv_X : cokX w F c;
  iv_Q : cokQ a c
}.

Lemma upd_same w (F : list sentFrame) c i : cokX (fun j => if decide (j = i) then w i else w j) F c -> cokX w F c.
Proof.
  assert (forall j, (if decide (j = i) then w i else w j) = w j) as E by (intros j; destruct (decide (j = i)); now subst).
  intros [H1 H2 H3 H4 H5]. split; auto; [intros j s Hj; specialize (H1 j s Hj); now rewrite E in H1|intros j Hj; specialize (H4 j Hj); now rewrite E in H4].
Qed.

(** A stream changed, and its connection with it. *)
Lemma inv_stored a n n' w w' F F' c i s c' s' :
  inv a n w F c -> streams c !! i = Some s -> 0 <= n' ->
  lok W CW (CW * n') (total high (streams c) - high s) (total readTo (streams c) - readTo s) c' s' ->
  nok MI MIU (fun b => total (counts c b) (streams c) - counts c b s) c' s' ->
  streams c' = streams c -> isClient c' = isClient c ->
  (forall b, a_opened (allowanceOf c' b) = a_opened (allowanceOf c b) /\ a_max (allowanceOf c' b) = a_max (allowanceOf c b)) -> (forall b, q_opened (quotaOf c' b) = q_opened (quotaOf c b)) ->
  sentData c <= sentData c' -> peerMaxData c' = peerMaxData c ->
  xok w' F' (sentData c - nextOf s) c' s' -> (forall j f, j <> i -> mine j f -> (f ∈ F <-> f ∈ F')) -> (sfResetStream i ∈ F' -> reset (ss s') = true) ->
  rung c c' s s' -> (a = true -> woken c' s') -> inv a n' (fun j => if decide (j = i) then w' else w j) F' (put c' s').
Proof.
  intros [HR HI HX HQ] Hi Hn Hl Hnk Hst Hcl Hal Hop Hse Hpm Hx HF Hre Hrg Hwk. assert (sid s' = i) as Es by (rewrite (rg_sid _ _ _ _ Hrg); exact (ci_sid _ HI _ _ Hi)). split.
  - exact (R_put n n' c i s c' s' _ _ _ HR Hi Hst Hcl Es eq_refl eq_refl eq_refl Hl Hnk Hn).
  - exact (I_put c i s c' s' HI Hi Hst Hcl Es Hal Hop).
  - exact (X_put w w' F F' c i s c' s' HX HI Hi Hst Es Hpm Hx HF Hre).
  - exact (Q_put a c i s c' s' HQ HI Hi Hst Hse Hpm Hrg Hwk).
Qed.

Lemma inv_same a n w F c i : inv a n (fun j => if decide (j = i) then w i else w j) F c -> inv a n w F c.
Proof. intros [H1 H2 H3 H4]. split; auto. now apply upd_same in H3. Qed.

(** A handler of the receiving side of a stream. *)
Lemma inv_recv a n n' w F c i s c' s' :
  inv a n w F c -> streams c !! i = Some s -> 0 <= n' ->
  lok W CW (CW * n') (total high (streams c) - high s) (total readTo (streams c) - readTo s) c' s' ->
  nok MI MIU (fun b => total (counts c b) (streams c) - counts c b s) c' s' -> others c c' s s' -> rung c c' s s' -> inv a n' w F (put c' s').
Proof.
  intros Hinv Hi Hn Hl Hnk Hot Hrg. pose proof Hot as [].
  assert (forall b, allowanceOf c' b = allowanceOf c b) as Ea by (intros []; cbn; assumption).
  apply (inv_same _ _ _ _ _ i). refine (inv_stored a n n' w (w i) F F c i s c' s' Hinv Hi Hn Hl Hnk ot_streams0 ot_client0 _ ot_opened0 _ ot_peerMax0 _ _ _ Hrg _); [intros b; now rewrite Ea|lia| |tauto| |].
  - destruct (cx_xok _ _ _ (iv_X _ _ _ _ _ Hinv) i s Hi) as [Hw Hs Hc Hm Hnx Hb Hfin Hfq Hcut Hfl Hrel Hfr Hrr Hno Hd Hfg]. unfold nextOf in *. split; rewrite ?ot_ss0, ?ot_sid0, ?ot_sent0, ?ot_peerMax0; try assumption.
    intros E. unfold sendDone in *. rewrite ot_ss0. destruct (ot_done0 E); auto.
  - rewrite ot_ss0. now apply (cx_resets _ _ _ (iv_X _ _ _ _ _ Hinv) i).
  - intros Ha. apply (rung_woken c _ s); auto. exact (cq_woken _ _ (iv_Q _ _ _ _ _ Hinv) Ha i s Hi).
Qed.

(** Nothing changed that the promises are about. *)
Lemma inv_agree a n w F c c' :
  inv a n w F c -> streams c' = streams c -> isClient c' = isClient c -> sendQueue c' = sendQueue c -> recvData c' = recvData c -> recvConsumed c' = recvConsumed c -> recvMaxData c' = recvMaxData c ->
  sentData c' = sentData c -> peerMaxData c' = peerMaxData c ->
  (forall b, a_opened (allowanceOf c' b) = a_opened (allowanceOf c b) /\ a_max (allowanceOf c b) <= a_max (allowanceOf c' b) <= 2 ^ 60) ->
  (forall b, q_opened (quotaOf c' b) = q_opened (quotaOf c b) /\ q_done (quotaOf c' b) = q_done (quotaOf c b) /\ q_max (quotaOf c' b) = q_max (quotaOf c b)) -> inv a n w F c'.
Proof.
  intros [[R1 R2 R3 R4 R5 R6] [I1 I2 I3] [X1 X2 X3 X4 X5] [Q1 Q2 Q3]] Hst Hcl Hsq Hrd Hrc Hrm Hse Hpm Hal Hqu.
  assert (forall b s, counts c' b s = counts c b s) as Ec by (intros b s; unfold counts, local; now rewrite Hcl). assert (forall j, local c' j = local c j) as El by (intros j; unfold local; now rewrite Hcl).
  split; split; rewrite ?Hst, ?Hsq, ?Hse, ?Hpm, ?Hrd, ?Hrc, ?Hrm; auto.
  - intros b. rewrite (total_ext _ (counts c b)) by (intros; apply Ec). destruct (R6 b), (Hqu b) as (E1 & E2 & E3). constructor; rewrite ?E1, ?E2, ?E3; assumption.
  - intros j s Hj. rewrite El. destruct (I2 j s Hj) as [H1 H2]. split; [exact H1|]. now rewrite (proj1 (Hal _)), (proj1 (Hqu _)).
  - intros b. destruct (I3 b), (Hal b) as [-> ?]. lia.
  - intros j s Hj. apply (xok_other _ F _ (sentData c - nextOf s) _ c); [eauto|tauto|lia|apply (xo_sent _ _ _ _ _ (X1 j s Hj))|]. now rewrite Hse, Hpm.
  - intros Ha j s Hj. apply (woken_mono c); [lia|congruence|eauto].
Qed.

Lemma inv_weaken a n n' w F c : n <= n' -> inv a n w F c -> inv a n' w F c.
Proof. intros Hle [[R1 R2 R3 R4 R5 R6] HI HX HQ]. split; auto. split; auto. nia. Qed.

(** ** Opening *)

(** The identifier of the [seq]th stream of the kind of [k]. *)
Lemma id_bits seq k : 0 <= seq < 2 ^ 60 -> 0 <= k < 4 -> Z.lor (u64 (seq .<< 2)) k = 4 * seq + k.
Proof.
  intros Hs Hk. rewrite Z.shiftl_mul_pow2 by lia. change (2 ^ 2) with 4. rewrite u64_id by lia. rewrite (lor_disjoint _ _ 2); [lia|lia|apply Z.mod_mul; lia|exact Hk].
Qed.

Lemma id_parts seq k : 0 <= seq -> 0 <= k < 4 -> (4 * seq + k) .>> 2 = seq /\ Z.land (4 * seq + k) 3 = k.
Proof.
  intros Hs Hk. rewrite Z.shiftr_div_pow2 by lia. change (2 ^ 2) with 4. split; [rewrite Z.mul_comm, Z.div_add_l by lia; rewrite Z.div_small by lia; lia|].
  change 3 with (Z.ones 2). rewrite Z.land_ones by lia. change (2 ^ 2) with 4. rewrite Z.add_comm, Z.mul_comm, Z_mod_plus_full. now apply Z.mod_small.
Qed.

Lemma land_three x y : Z.land x 3 = Z.land y 3 -> isBidi x = isBidi y /\ isClientStream x = isClientStream y.
Proof.
  intros H. unfold isBidi, isClientStream. change 2 with (Z.land 3 2). change 1 with (Z.land 3 1). now rewrite !Z.land_assoc, H.
Qed.

Lemma id_same seq id : 0 <= seq < 2 ^ 60 ->
  let j := Z.lor (u64 (seq .<< 2)) (Z.land id 3) in 0 <= j < 2 ^ 62 /\ j .>> 2 = seq /\ isBidi j = isBidi id /\ isClientStream j = isClientStream id /\ Z.land j 3 = Z.land id 3.
Proof.
  intros Hs. assert (0 <= Z.land id 3 < 4) as Hk by (change 3 with (Z.ones 2); rewrite Z.land_ones by lia; apply Z.mod_pos_bound; lia).
  cbv zeta. rewrite id_bits by lia. destruct (id_parts seq (Z.land id 3) ltac:(lia) Hk) as [H1 H2]. destruct (land_three _ _ H2) as [H3 H4]. split; [lia|auto].
Qed.

(** The peer's parameters can be sent. *)
Definition pp_ok : Prop := match pp with Some p => 0 <= maxStreamDataUni p < 2 ^ 62 /\ 0 <= maxStreamDataBidiL p < 2 ^ 62 /\ 0 <= maxStreamDataBidiR p < 2 ^ 62 | None => True end.

Lemma fresh_rok c i : 0 <= W <= 2 ^ 62 -> rok W (rs (freshStream W pp c i)).
Proof. intros HW. split; cbn; try lia; [destruct (isBidi i || negb (local c i)); lia|]. now apply bufok_empty. Qed.

Lemma fresh_woken c c' i : woken c (freshStream W pp c' i).
Proof. intros _. rewrite wants_split. cbn. now rewrite andb_false_r. Qed.

Lemma fresh_xok c c' i F os : pp_ok -> 0 <= i < 2 ^ 62 -> (forall f, f ∈ F -> ~ mine i f) -> sentData c = os -> 0 <= os -> sentData c <= peerMaxData c /\ peerMaxData c < 2 ^ 62 -> xok [] F os c (freshStream W pp c' i).
Proof.
  intros Hp Hi HF Hs Ho Hpe. split; cbn; try discriminate; try (split; discriminate); auto; try lia.
  - change (len ([] : bytes)) with 0. lia.
  - unfold streamSendMax, pp_ok in *. repeat case_match; lia.
  - intros _. split; [apply Send.newSend_ok|reflexivity].
  - intros off k fin Hin. now destruct (HF _ Hin).
Qed.

(** A stream more, counted by [q] or by [a]. *)
Lemma inv_newStream a n w F c c1 i :
  inv a n w F c -> pp_ok -> 0 <= W <= 2 ^ 62 -> 0 <= i < 2 ^ 62 -> streams c !! i = None ->
  streams c1 = <[i := freshStream W pp c i]> (streams c) -> isClient c1 = isClient c -> sendQueue c1 = sendQueue c -> sentData c1 = sentData c -> peerMaxData c1 = peerMaxData c ->
  recvData c1 = recvData c -> recvConsumed c1 = recvConsumed c -> recvMaxData c1 = recvMaxData c ->
  (forall b, qok (incoming MI MIU b) (total (counts c b) (streams c) + counts c b (freshStream W pp c i)) (quotaOf c1 b)) ->
  (forall b, 0 <= a_opened (allowanceOf c1 b) <= a_max (allowanceOf c1 b) /\ a_max (allowanceOf c1 b) <= 2 ^ 60) ->
  (forall b, a_opened (allowanceOf c b) <= a_opened (allowanceOf c1 b) /\ q_opened (quotaOf c b) <= q_opened (quotaOf c1 b)) ->
  (i .>> 2 < if local c i then a_opened (allowanceOf c1 (isBidi i)) else q_opened (quotaOf c1 (isBidi i))) -> inv a n w F c1.
Proof.
  intros [[R1 R2 R3 R4 R5 R6] [I1 I2 I3] [X1 X2 X3 X4 X5] [Q1 Q2 Q3]] Hpp HW Hi Hno Hst Hcl Hsq Hse Hpm Hrd Hrc Hrm Hqk Hal Hop Hid.
  assert (forall b s, counts c1 b s = counts c b s) as Ec by (intros b s; unfold counts, local; now rewrite Hcl). assert (forall j, local c1 j = local c j) as El by (intros j; unfold local; now rewrite Hcl).
  destruct (X4 i Hno) as [Ew HF]. split; split; rewrite ?Hst, ?Hsq, ?Hse, ?Hpm, ?Hrd, ?Hrc, ?Hrm.
  - intros j s Hj. apply lookup_insert_Some in Hj as [[<- <-]|[_ Hj]]; [now apply fresh_rok|eauto].
  - rewrite total_new by exact Hno. rewrite R2. reflexivity.
  - rewrite total_new by exact Hno. rewrite R3. reflexivity.
  - exact R4.
  - exact R5.
  - intros b. rewrite (total_ext _ (counts c b)) by (intros; apply Ec). rewrite total_new by exact Hno. rewrite Z.add_comm. apply Hqk.
  - intros j s Hj. apply lookup_insert_Some in Hj as [[<- <-]|[_ Hj]]; [reflexivity|eauto].
  - intros j s Hj. rewrite El. apply lookup_insert_Some in Hj as [[<- <-]|[_ Hj]]; [now split|]. destruct (I2 j s Hj) as [H1 H2]. split; [exact H1|]. destruct (Hop (isBidi j)). destruct (local c j); lia.
  - exact Hal.
  - intros j s Hj. apply lookup_insert_Some in Hj as [[<- <-]|[Hne Hj]].
    + rewrite Ew. apply fresh_xok; auto; cbn; rewrite ?Hse, ?Hpm; try lia. rewrite Z.sub_0_r, X2. apply total_nonneg. intros j s Hj. apply (xo_max _ _ _ _ _ (X1 j s Hj)).
    + apply (xok_other _ F _ (sentData c - nextOf s) _ c); [eauto|tauto|lia|apply (xo_sent _ _ _ _ _ (X1 j s Hj))|]. now rewrite Hse, Hpm.
  - rewrite total_new by exact Hno. rewrite X2. reflexivity.
  - exact X3.
  - intros j Hj. apply lookup_insert_None in Hj as [Hj _]. auto.
  - intros j s Hj Hin. apply lookup_insert_Some in Hj as [[<- <-]|[_ Hj]]; [now destruct (HF _ Hin)|eauto].
  - exact Q1.
  - intros j. rewrite Q2. split.
    + intros (s & Hs & Hq). exists s. split; [|exact Hq]. rewrite lookup_insert_ne by congruence. exact Hs.
    + intros (s & Hs & Hq). apply lookup_insert_Some in Hs as [[<- <-]|[_ Hs]]; [discriminate|]. now exists s.
  - intros Ha j s Hj. apply lookup_insert_Some in Hj as [[<- <-]|[_ Hj]]; [apply fresh_woken|]. apply (woken_mono c); [lia|congruence|eauto].
Qed.

(** Streams more, none of those there are changed. *)
Record grown (c c1 : conn) : Prop := {
  gr_events : events c1 = events c;
  gr_client : isClient c1 = isClient c;
  gr_old : forall i s, streams c !! i = Some s -> streams c1 !! i = Some s;
  gr_new : forall i s, streams c1 !! i = Some s -> streams c !! i = Some s \/ streams c !! i = None /\ s = freshStream W pp c i
}.

Lemma grown_refl c : grown c c.
Proof. split; auto. Qed.

Lemma fresh_client c c1 i : isClient c1 = isClient c -> freshStream W pp c1 i = freshStream W pp c i.
Proof. intros E. unfold freshStream, streamSendMax, local. now rewrite E. Qed.

Lemma grown_trans c1 c2 c3 : grown c1 c2 -> grown c2 c3 -> grown c1 c3.
Proof.
  intros [A1 A2 A3 A4] [B1 B2 B3 B4]. split; [congruence|congruence|auto|]. intros i s Hs. destruct (B4 i s Hs) as [Hs2|[Hn ->]]; [auto|]. right.
  rewrite (fresh_client c1 c2 i A2). split; [|reflexivity]. destruct (streams c1 !! i) eqn:E; [|reflexivity]. apply A3 in E. congruence.
Qed.

Lemma openUpTo_quota k c id seq b q : openUpTo W pp k (set_quota c b q) id seq = set_quota (openUpTo W pp k c id seq) b q.
Proof. revert c seq. induction k as [|k IH]; intros c seq; [reflexivity|]. cbn [openUpTo]. rewrite <- IH. f_equal. now destruct b. Qed.

Lemma quota_same c b : set_quota c b (qt_q_opened (quotaOf c b) (q_opened (quotaOf c b))) = c.
Proof. destruct c, b; cbn; [now destruct peerBidi0|now destruct peerUni0]. Qed.

(** The streams of the peer's up to one are opened, each within its quota. *)
Lemma openUpTo_ok k a n w F c id :
  inv a n w F c -> pp_ok -> 0 <= W <= 2 ^ 62 -> local c id = false ->
  let q := quotaOf c (isBidi id) in q_opened q + Z.of_nat k <= q_max q -> q_opened q + Z.of_nat k <= 2 ^ 60 ->
  let c' := set_quota (openUpTo W pp k c id (q_opened q)) (isBidi id) (qt_q_opened q (q_opened q + Z.of_nat k)) in
  inv a n w F c' /\ grown c c'.
Proof.
  revert c. induction k as [|k IH]; intros c Hinv Hpp HW Hlo q Hmax Htop.
  { cbn [openUpTo]. rewrite Z.add_0_r. unfold q. rewrite quota_same. split; [exact Hinv|apply grown_refl]. }
  pose proof (cr_quota _ _ (iv_R _ _ _ _ _ Hinv) (isBidi id)) as Hq. fold q in Hq. pose proof (qo_pos _ _ _ Hq). pose proof (qo_live _ _ _ Hq).
  destruct (id_same (q_opened q) id ltac:(lia)) as (Hj & Hjs & Hjb & Hjc & Hj3). set (j := Z.lor (u64 (q_opened q .<< 2)) (Z.land id 3)) in *.
  set (c1 := set_quota (newStream W pp c j) (isBidi id) (qt_q_opened q (q_opened q + 1))).
  assert (local c j = false) as Hlj by (unfold local in *; now rewrite Hjc).
  assert (streams c !! j = None) as Hno. { destruct (streams c !! j) as [s|] eqn:E; [|reflexivity]. destruct (ci_ids _ (iv_I _ _ _ _ _ Hinv) j s E) as [_ Hlt]. rewrite Hlj, Hjb, Hjs in Hlt. fold q in Hlt. lia. }
  assert (streams c1 = <[j := freshStream W pp c j]> (streams c)) as Est by (unfold c1; now destruct (isBidi id)).
  assert (inv a n w F c1) as Hinv1.
  { apply (inv_newStream a n w F c c1 j Hinv Hpp HW Hj Hno Est); try (unfold c1; now destruct (isBidi id)).
    - intros b. unfold c1. rewrite quota_set. pose proof (cr_quota _ _ (iv_R _ _ _ _ _ Hinv) b) as Hb.
      assert (counts c b (freshStream W pp c j) = if Bool.eqb (isBidi id) b then 1 else 0) as -> by (unfold counts; cbn [freshStream sid done]; rewrite Hlj, Hjb; now destruct (Bool.eqb _ _)).
      change (quotaOf (newStream W pp c j) b) with (quotaOf c b). destruct (Bool.eqb_spec (isBidi id) b) as [<-|]; cbn [negb andb]; [|now rewrite Z.add_0_r]. fold q in Hb. destruct Hb. constructor; cbn; lia.
    - intros b. assert (allowanceOf c1 b = allowanceOf c b) as -> by (unfold c1; now destruct (isBidi id), b). apply (ci_own _ (iv_I _ _ _ _ _ Hinv)).
    - intros b. assert (allowanceOf c1 b = allowanceOf c b) as -> by (unfold c1; now destruct (isBidi id), b). split; [lia|]. unfold c1. rewrite quota_set. change (quotaOf (newStream W pp c j) b) with (quotaOf c b).
      destruct (Bool.eqb_spec (isBidi id) b) as [<-|]; [cbn; fold q; lia|lia].
    - rewrite Hlj, Hjs, Hjb. unfold c1. rewrite quota_set, Bool.eqb_reflx. cbn. lia. }
  assert (grown c c1) as Hg1.
  { split; try (unfold c1; now destruct (isBidi id)). - intros i s Hs. rewrite Est, lookup_insert_ne by congruence. exact Hs.
    - intros i s Hs. rewrite Est in Hs. apply lookup_insert_Some in Hs as [[<- <-]|[_ Hs]]; auto. }
  assert (quotaOf c1 (isBidi id) = qt_q_opened q (q_opened q + 1)) as Eq1 by (unfold c1; rewrite quota_set, Bool.eqb_reflx; reflexivity).
  assert (local c1 id = false) as Hlo1 by (unfold local in *; now rewrite (gr_client _ _ Hg1)).
  pose proof (IH c1 Hinv1 Hpp HW Hlo1) as IH1. cbv zeta in IH1. rewrite Eq1 in IH1. cbn [qt_q_opened q_opened q_max] in IH1. specialize (IH1 ltac:(lia) ltac:(lia)). destruct IH1 as [Hi2 Hg2].
  cbn [openUpTo]. fold j. unfold c1 in Hi2, Hg2. rewrite openUpTo_quota in Hi2, Hg2. fold c1 in Hg2.
  replace (q_opened q + 1 + Z.of_nat k) with (q_opened q + Z.of_nat (S k)) in * by lia.
  match type of Hi2 with inv _ _ _ _ ?x => assert (x = set_quota (openUpTo W pp k (newStream W pp c j) id (q_opened q + 1)) (isBidi id) (qt_q_opened q (q_opened q + Z.of_nat (S k)))) as Ex by (now destruct (isBidi id)) end.
  rewrite Ex in *. split; [exact Hi2|exact (grown_trans _ _ _ Hg1 Hg2)].
Qed.

Lemma peerStream_ok a n w F c id side :
  inv a n w F c -> pp_ok -> 0 <= W <= 2 ^ 62 -> 0 <= id < 2 ^ 62 ->
  let '(c1, r) := peerStream W pp c id side in inv a n w F c1 /\ grown c c1 /\ forall s, r = Ok (Some s) -> streams c1 !! id = Some s /\ done s = false.
Proof.
  intros Hinv Hpp HW Hid. assert (forall c s, streamByID c id = Some s -> streams c !! id = Some s /\ done s = false) as Hby.
  { intros c0 s. unfold streamByID. destruct (streams c0 !! id) as [t|]; [|discriminate]. destruct (done t) eqn:Ed; [discriminate|]. intros [= <-]. auto. }
  unfold peerStream. destruct (_ && _); [splits; auto using grown_refl; discriminate|]. destruct (streamByID c id) as [s|] eqn:Eb.
  { splits; auto using grown_refl. intros t [= <-]. auto. }
  destruct (local c id) eqn:El; [destruct (_ <=? _); (splits; auto using grown_refl; discriminate)|]. destruct (Z.ltb_spec (id .>> 2) (q_opened (quotaOf c (isBidi id)))); [splits; auto using grown_refl; discriminate|].
  destruct (Z.leb_spec (q_max (quotaOf c (isBidi id))) (id .>> 2)); [splits; auto using grown_refl; discriminate|].
  assert (0 <= id .>> 2 < 2 ^ 60) as Hseq by (apply (shiftr_bound id 2 62); lia). pose proof (openUpTo_ok (Z.to_nat (id .>> 2 + 1 - q_opened (quotaOf c (isBidi id)))) a n w F c id Hinv Hpp HW El) as Ho.
  cbv zeta in Ho. rewrite Z2Nat.id in Ho by lia. replace (q_opened (quotaOf c (isBidi id)) + (id .>> 2 + 1 - q_opened (quotaOf c (isBidi id)))) with (id .>> 2 + 1) in Ho by lia.
  specialize (Ho ltac:(lia) ltac:(lia)). destruct Ho as [Hi Hg]. split; [exact Hi|]. split; [exact Hg|]. intros s [= Es]. now apply Hby.
Qed.

End Config.

End QConn.
