(* ===== verification/QuicStep.v ===== *)
(** * What a QUIC connection does with its streams, step by step (src/http3/quic/conn.go, stream.go, frames.go, send.go)

    Every frame of a packet, every call of the application, every packet filled and
    every packet heard of keeps the promises of all streams and of their
    connection. *)

From S2P Require Import Prelude QuicVarint QuicRanges QuicRecv QuicSend QuicFrames QuicParams QuicStream QuicFlow QuicOut QuicWake QuicConn.
From stdpp Require Import base list numbers gmap.
From Stdlib Require Import ZArith Lia.

Local Open Scope Z_scope.
Local Open Scope go_scope.

Module QStep.
Import Varint Recv QStream QFlow QOut QWake QConn.

Section Config.
Context (W CW MI MIU : Z) (pp : option peerLimits).
Local Notation inv := (inv W CW MI MIU).

(** ** The sending side of a stream *)

(** Only what sending changes is different. *)
Definition csend (c c' : conn) : Prop :=
  c' = set_resets (set_events (set_dataBlocked (set_sentData (set_sendQueue c (sendQueue c')) (sentData c')) (dataBlocked c')) (events c')) (resets c').

Definition ssend (s s' : stream) : Prop :=
  s' = mkStream (sid s) (ss s') (rv_maxDataPending (rv_stopPending (rs s) (stopPending (rs s'))) (maxDataPending (rs s'))) (queued s') (done s) (floodCounted s').

Lemma lok_send K oh orr c c' s s' : csend c c' -> ssend s s' -> lok W CW K oh orr c s -> lok W CW K oh orr c' s'.
Proof.
  intros Hc Hs [L1 L2 L3 L4 L5 L6]. assert (recvData c' = recvData c) as E1 by exact (f_equal recvData Hc). assert (recvConsumed c' = recvConsumed c) as E2 by exact (f_equal recvConsumed Hc). assert (recvMaxData c' = recvMaxData c) as E3 by exact (f_equal recvMaxData Hc).
  assert (recvHigh (rs s') = recvHigh (rs s)) as E4 by exact (f_equal (fun s => recvHigh (rs s)) Hs). assert (recvRead (rs s') = recvRead (rs s)) as E5 by exact (f_equal (fun s => recvRead (rs s)) Hs).
  split; rewrite ?E1, ?E2, ?E3, ?E4, ?E5; auto. rewrite Hs. cbn. destruct L1. split; assumption.
Qed.

Lemma nok_send ol c c' s s' : csend c c' -> ssend s s' -> nok MI MIU ol c s -> nok MI MIU ol c' s'.
Proof.
  intros Hc Hs H b. specialize (H b). assert (counts c' b s' = counts c b s) as ->.
  { unfold counts, local. rewrite (f_equal sid Hs : sid s' = sid s), (f_equal done Hs : done s' = done s), (f_equal isClient Hc : isClient c' = isClient c). reflexivity. }
  now rewrite (f_equal (fun c => quotaOf c b) Hc : quotaOf c' b = quotaOf c b).
Qed.

Lemma csend_facts c c' : csend c c' ->
  streams c' = streams c /\ isClient c' = isClient c /\ peerMaxData c' = peerMaxData c /\ (forall b, allowanceOf c' b = allowanceOf c b) /\ (forall b, quotaOf c' b = quotaOf c b).
Proof. intros Hc. splits; [exact (f_equal streams Hc)|exact (f_equal isClient Hc)|exact (f_equal peerMaxData Hc)|intros b; exact (f_equal (fun c => allowanceOf c b) Hc)|intros b; exact (f_equal (fun c => quotaOf c b) Hc)]. Qed.

Lemma inv_sending a n w w' F F' c i s c' s' :
  inv a n w F c -> CW * (n + 1) < 2 ^ 63 -> streams c !! i = Some s -> csend c c' -> ssend s s' -> sentData c <= sentData c' ->
  xok w' F' (sentData c - nextOf s) c' s' -> (forall j f, j <> i -> mine j f -> (f ∈ F <-> f ∈ F')) -> (sfResetStream i ∈ F' -> reset (ss s') = true) ->
  rung c c' s s' -> (a = true -> woken c' s') -> inv a n (fun j => if decide (j = i) then w' else w j) F' (put c' s').
Proof.
  intros Hinv Hn Hi Hc Hs Hse Hx HF Hre Hrg Hwk. pose proof (iv_R _ _ _ _ _ _ _ _ _ Hinv) as HR. destruct (cr_n _ _ _ _ _ _ HR) as (Hn1 & Hn2 & Hn3). destruct (csend_facts c c' Hc) as (E1 & E2 & E3 & E4 & E5).
  destruct (lok_of W CW MI MIU n (CW * n) c i s HR Hi ltac:(lia) ltac:(lia)) as (HL & HN & _).
  refine (inv_stored W CW MI MIU a n n w w' F F' c i s c' s' Hinv Hi Hn2 (lok_send _ _ _ _ _ _ _ Hc Hs HL) (nok_send _ _ _ _ _ Hc Hs HN) E1 E2 _ _ Hse E3 Hx HF Hre Hrg Hwk).
  - intros b. now rewrite E4.
  - intros b. now rewrite E5.
Qed.

(** When nothing is written, nor anything put on its way. *)
Lemma inv_send0 a n w F c i s c' s' :
  inv a n w F c -> CW * (n + 1) < 2 ^ 63 -> streams c !! i = Some s -> csend c c' -> ssend s s' -> sentData c' = sentData c ->
  xok (w i) F (sentData c - nextOf s) c' s' -> (reset (ss s) = true -> reset (ss s') = true) -> rung c c' s s' -> (a = true -> woken c' s') -> inv a n w F (put c' s').
Proof.
  intros Hinv Hn Hi Hc Hs Hse Hx Hre Hrg Hwk. apply (inv_same _ _ _ _ _ _ _ _ _ i). apply (inv_sending a n w (w i) F F c i s c' s' Hinv Hn Hi Hc Hs ltac:(lia) Hx ltac:(tauto)); auto.
  intros Hin. apply Hre. exact (cx_resets _ _ _ (iv_X _ _ _ _ _ _ _ _ _ Hinv) i s Hi Hin).
Qed.

(** ** Frames *)

(** The numbers of a frame read are those a varint holds. *)
Definition frame_ok (f : frame) : Prop :=
  let fits x := 0 <= x < 2 ^ 62 in
  match f with
  | FResetStream id code size => fits id /\ fits code /\ fits size
  | FStopSending id code => fits id /\ fits code
  | FStream id off data _ => fits id /\ fits off /\ len data < 2 ^ 62
  | FMaxData m => fits m
  | FMaxStreamData id m => fits id /\ fits m
  | FStreamDataBlocked id _ => fits id
  | FMaxStreams _ m => fits m
  | _ => True
  end.

(** The same promises of a connection that took note of a glitch. *)
Lemma inv_glitch a n w F c : inv a n w F c -> inv a n w F (glitch c).1 /\ streams (glitch c).1 = streams c /\ sendQueue (glitch c).1 = sendQueue c.
Proof.
  intros H. assert (glitch c = (c, true) \/ exists b l, glitch c = (set_glitches c l, b)) as [->|(b & l & ->)] by (unfold glitch; destruct (glitches c); eauto); [auto|]. cbn [fst].
  splits; auto. apply (inv_agree _ _ _ _ _ _ _ _ c); auto; intros b0; pose proof (ci_own _ (iv_I _ _ _ _ _ _ _ _ _ H) b0); destruct b0; cbn in *; auto; lia.
Qed.

Section Frames.
Context (a : bool) (n : Z) (w : Z -> bytes) (F : list sentFrame).
Context (Hpp : pp_ok pp) (HW : 0 <= W <= 2 ^ 62) (Hn : CW * (n + 2) < 2 ^ 63).

(** A handler of a frame about a stream. *)
Lemma onStream_ok c id side f :
  inv a n w F c -> 0 <= id < 2 ^ 62 ->
  (forall c1 s, inv a n w F c1 -> streams c1 !! id = Some s -> done s = false ->
    exists c2 s2 o, f c1 s = Some (c2, s2, o) /\ forall asking, o = Handled asking -> inv a (n + 1) w F (put c2 s2)) ->
  exists c' o, onStream W pp c id side f = Some (c', o) /\ forall asking, o = Handled asking -> inv a (n + 1) w F c'.
Proof.
  intros Hinv Hid Hf. pose proof (peerStream_ok W CW MI MIU pp a n w F c id side Hinv Hpp HW Hid) as Hp. unfold onStream. destruct (peerStream W pp c id side) as [c1 r]. destruct Hp as (H1 & _ & Hs).
  destruct r as [[s|]|e].
  - destruct (Hs s eq_refl) as [Hs1 Hs2]. destruct (Hf c1 s H1 Hs1 Hs2) as (c2 & s2 & o & -> & Ho). eauto.
  - eexists _, _. split; [reflexivity|]. intros asking _. apply (inv_weaken _ _ _ _ _ n); [lia|exact H1].
  - eexists _, _. split; [reflexivity|]. discriminate.
Qed.

(** What it knows of the stream. *)
Lemma lok_frame c i s : inv a n w F c -> streams c !! i = Some s ->
  lok W CW (CW * (n + 1)) (total high (streams c) - high s) (total readTo (streams c) - readTo s) c s /\
  nok MI MIU (fun b => total (counts c b) (streams c) - counts c b s) c s /\ recvMaxData c <= CW * (n + 1) /\ 0 <= n + 1.
Proof.
  intros [HR _ _ _] Hi. destruct (cr_n _ _ _ _ _ _ HR) as (H1 & H2 & H3). destruct (lok_of W CW MI MIU n (CW * (n + 1)) c i s HR Hi) as (A & B & C); [nia|lia|]. splits; auto; lia.
Qed.

Lemma inv_onResetStream c i s code size c' s' :
  inv a n w F c -> streams c !! i = Some s -> 0 <= size < 2 ^ 62 -> onResetStream W CW MI MIU c s code size = (c', s', None) -> inv a (n + 1) w F (put c' s').
Proof.
  intros Hinv Hi Hsz E. destruct (lok_frame c i s Hinv Hi) as (HL & HN & Hm & Hn1). destruct (onResetStream_ok _ _ _ _ _ _ _ _ _ _ _ _ _ _ HL HN Hm Hsz E) as (HL' & HN' & []).
  exact (inv_recv _ _ _ _ a n (n + 1) w F c i s c' s' Hinv Hi Hn1 HL' HN' rt_others0 (onResetStream_rung _ _ _ _ _ _ _ _ _ _ _ E)).
Qed.

Lemma inv_onStreamFrame c i s off data fin :
  inv a n w F c -> streams c !! i = Some s -> 0 <= off < 2 ^ 62 -> len data < 2 ^ 62 ->
  exists c' s' e, onStreamFrame W CW MI MIU c s off data fin = Some (c', s', e) /\ (e = None -> inv a (n + 1) w F (put c' s') /\ frameTaken W c c' s s' off data fin).
Proof.
  intros Hinv Hi Hoff Hlen. destruct (lok_frame c i s Hinv Hi) as (HL & HN & Hm & Hn1). destruct (onStreamFrame_ok W CW MI MIU _ _ _ _ _ _ off data fin HL HN Hm Hoff Hlen) as (c' & s' & e & E & He).
  exists c', s', e. split; [exact E|]. intros ->. destruct (He eq_refl) as (HL' & HN' & Ht). split; [|exact Ht].
  exact (inv_recv _ _ _ _ a n (n + 1) w F c i s c' s' Hinv Hi Hn1 HL' HN' (ft_others _ _ _ _ _ _ _ _ Ht) (onStreamFrame_rung _ _ _ _ _ _ _ _ _ _ _ _ E)).
Qed.

(** A stream looked at, or told something of no consequence. *)
Lemma inv_still c i s r : inv a n w F c -> streams c !! i = Some s -> r = rs s \/ (exists x, r = rv_blockedAt_ (rs s) x) -> inv a (n + 1) w F (put c (st_rs s r)).
Proof.
  intros Hinv Hi Hr. destruct (lok_frame c i s Hinv Hi) as ([L1 L2 L3 L4 L5 L6] & HN & _ & Hn1).
  assert (st_rs s r = st_rs s (rv_blockedAt_ (rs s) (blockedAt_ r))) as -> by (destruct Hr as [->|[x ->]]; destruct s as [? ? []]; reflexivity).
  apply (inv_recv _ _ _ _ a n (n + 1) w F c i s); auto.
  - split; cbn; auto. destruct L1. now split.
  - split; auto.
  - apply rung_still; auto.
Qed.

Lemma resetCounted_cases c s : exists l f, (resetCounted c s).1 = (set_resets c l, st_floodCounted s f).
Proof. exists (resets (resetCounted c s).1.1), (floodCounted (resetCounted c s).1.2). destruct (resetCounted_tidy c s) as [E1 E2]. now apply injective_projections. Qed.

Lemma xok_tidy v os c s l f : xok v F os c s -> xok v F os (set_resets c l) (st_floodCounted s f).
Proof. intros []. now split. Qed.

Lemma xok_emit v G os c s e : xok v G os c s -> xok v G os (emit c e) s.
Proof. intros []. now split. Qed.

Lemma ssend_queue s s' c : ssend s s' -> csend c (queueStream c s').1 /\ ssend s (queueStream c s').2.
Proof. intros Hs. unfold queueStream. destruct (_ && _); cbn; (split; [now destruct c|]); [|exact Hs]. exact (f_equal (fun x => st_queued x true) Hs). Qed.

Lemma ssend_ss s x : ssend s (st_ss s x).
Proof. now destruct s as [? ? []]. Qed.

Lemma csend_refl c : csend c c.
Proof. now destruct c. Qed.

Lemma csend_trans c1 c2 c3 : csend c1 c2 -> csend c2 c3 -> csend c1 c3.
Proof. unfold csend. intros H1 H2. rewrite H1 in H2. exact H2. Qed.

Lemma ssend_trans s1 s2 s3 : ssend s1 s2 -> ssend s2 s3 -> ssend s1 s3.
Proof. unfold ssend. intros H1 H2. rewrite H1 in H2. exact H2. Qed.

Lemma resetLocked_send c s code : csend c (resetLocked c s code).1 /\ ssend s (resetLocked c s code).2 /\ sentData (resetLocked c s code).1 = sentData c /\ (reset (ss s) = true -> reset (ss (resetLocked c s code).2) = true).
Proof.
  unfold resetLocked. destruct (negb (hasSend (ss s)) || reset (ss s) || finAcked (ss s)).
  - splits; auto; [apply csend_refl|now destruct s as [? ? []]].
  - cbv zeta. match goal with |- context [queueStream c (st_ss s ?x)] => destruct (ssend_queue s (st_ss s x) c (ssend_ss s x)) as [H1 H2] end. splits; auto; unfold queueStream; destruct (_ && _); reflexivity.
Qed.

Lemma inv_onStopSending c i s code c' s' :
  inv a n w F c -> streams c !! i = Some s -> 0 <= code < 2 ^ 62 -> onStopSending c s code = (c', s', None) -> inv a (n + 1) w F (put c' s').
Proof.
  intros Hinv Hi Hcode. destruct (cr_n _ _ _ _ _ _ (iv_R _ _ _ _ _ _ _ _ _ Hinv)) as (_ & Hn0 & HC). unfold onStopSending. destruct (reset (ss s) || finAcked (ss s)).
  { intros [= <- <-]. replace s with (st_rs s (rs s)) by now destruct s. now apply (inv_still c i s); [| |left]. }
  pose proof (resetCounted_rung c s) as Hr1. destruct (resetCounted_cases c s) as (l & f & E). destruct (resetCounted c s) as [[c1 s1] ok]. cbn [fst snd] in *. injection E as -> ->. destruct ok; [|discriminate]. cbn [negb].
  assert (xok (w i) F (sentData c - nextOf s) (set_resets c l) (st_floodCounted s f)) as Hx by (apply xok_tidy, (cx_xok _ _ _ (iv_X _ _ _ _ _ _ _ _ _ Hinv)), Hi).
  pose proof (resetLocked_ok _ _ _ _ _ _ Hx Hcode) as Hx2. destruct (resetLocked_handled (set_resets c l) (st_floodCounted s f) code) as [Hr2 Hw2]. destruct (resetLocked_send (set_resets c l) (st_floodCounted s f) code) as (Hc & Hs & Hd & Hre).
  destruct (resetLocked (set_resets c l) (st_floodCounted s f) code) as [c2 s2]. cbn [fst snd] in *. intros [= <- <-]. apply (inv_weaken _ _ _ _ _ n); [lia|].
  refine (inv_send0 a n w F c i s (emit c2 (evStopSending (sid s2) code)) s2 Hinv _ Hi _ _ Hd (xok_emit _ _ _ _ _ _ Hx2) Hre _ _); [nia| | | |].
  - apply (csend_trans c (set_resets c l)); [now destruct c|]. apply (csend_trans _ c2); [exact Hc|now destruct c2].
  - apply (ssend_trans s (st_floodCounted s f)); [now destruct s as [? ? []]|exact Hs].
  - apply (rung_trans c (set_resets c l) _ s (st_floodCounted s f)); [exact Hr1|]. apply (rung_trans _ c2 _ _ s2); [exact Hr2|]. now apply rung_still.
  - intros Ha. apply (woken_mono c2); [cbn; lia|reflexivity|]. apply Hw2. apply (rung_woken c _ s); auto. exact (cq_woken _ _ (iv_Q _ _ _ _ _ _ _ _ _ Hinv) Ha i s Hi).
Qed.

Lemma inv_maxStreamData c i s m :
  inv a n w F c -> streams c !! i = Some s -> sendMax (ss s) < m -> m < 2 ^ 62 ->
  let '(c', s') := queueStream c (st_ss s (sd_sendMax (ss s) m)) in inv a (n + 1) w F (put c' s').
Proof.
  intros Hinv Hi Hm1 Hm2. destruct (cr_n _ _ _ _ _ _ (iv_R _ _ _ _ _ _ _ _ _ Hinv)) as (_ & Hn0 & HC). set (s1 := st_ss s (sd_sendMax (ss s) m)).
  destruct (ssend_queue s s1 c (ssend_ss s _)) as [Hc Hs]. pose proof (rung_queue c s s1 eq_refl eq_refl eq_refl) as Hr. pose proof (queue_woken c s1) as Hw.
  assert (xok (w i) F (sentData c - nextOf s) c s1) as Hx.
  { destruct (cx_xok _ _ _ (iv_X _ _ _ _ _ _ _ _ _ Hinv) i s Hi). split; try assumption. cbn. lia. }
  apply xok_queue in Hx. assert (sentData (queueStream c s1).1 = sentData c /\ reset (ss (queueStream c s1).2) = reset (ss s)) as [Hd He] by (unfold queueStream; destruct (_ && _); now split).
  destruct (queueStream c s1) as [c' s']. cbn [fst snd] in *. apply (inv_weaken _ _ _ _ _ n); [lia|]. apply (inv_send0 a n w F c i s); auto; [nia|congruence].
Qed.

Lemma blockedAt_cases c x at' g : exists c' y o, blockedAt c x at' g = (c', y, o) /\ (c' = c \/ c' = (glitch c).1).
Proof. unfold blockedAt. destruct (_ <? _); [|destruct (_ <? _)]; eauto 8. destruct (glitch c) as [c' ok]. eauto 8. Qed.

(** The connection's own limits and reports. *)
Lemma inv_own c c' :
  inv a n w F c -> streams c' = streams c -> isClient c' = isClient c -> sendQueue c' = sendQueue c -> recvData c' = recvData c -> recvConsumed c' = recvConsumed c -> recvMaxData c' = recvMaxData c ->
  sentData c' = sentData c -> peerMaxData c' = peerMaxData c ->
  (forall b, a_opened (allowanceOf c' b) = a_opened (allowanceOf c b) /\ a_max (allowanceOf c' b) = a_max (allowanceOf c b)) ->
  (forall b, q_opened (quotaOf c' b) = q_opened (quotaOf c b) /\ q_done (quotaOf c' b) = q_done (quotaOf c b) /\ q_max (quotaOf c' b) = q_max (quotaOf c b)) -> inv a n w F c'.
Proof. intros Hinv. intros. apply (inv_agree _ _ _ _ _ _ _ _ c); auto. intros b. destruct (ci_own _ (iv_I _ _ _ _ _ _ _ _ _ Hinv) b), (H7 b) as [-> ->]. lia. Qed.

(** More of the connection's credit, for which nothing was woken yet. *)
Lemma inv_peerMaxData c m : inv a n w F c -> peerMaxData c < m < 2 ^ 62 -> inv false n w F (set_peerMaxData c m).
Proof.
  intros [[R1 R2 R3 R4 R5 R6] [I1 I2 I3] [X1 X2 X3 X4 X5] [Q1 Q2 Q3]] Hm. split; split; auto; try discriminate.
  - intros i s Hi. destruct (X1 i s Hi). split; auto. cbn. lia.
  - cbn. lia.
Qed.

Lemma handleFrame_ok c f :
  inv a n w F c -> frame_ok f ->
  exists c' o, handleFrame W CW MI MIU pp c f = Some (c', o) /\ forall asking, o = Handled asking -> inv (a && negb (raisesData f asking)) (n + 1) w F c'.
Proof.
  intros Hinv Hf. assert (inv a (n + 1) w F c) as Hinv1 by (apply (inv_weaken _ _ _ _ _ n); [lia|exact Hinv]).
  assert (forall x, (exists c' o, x = Some (c', o) /\ forall asking : bool, o = Handled asking -> inv a (n + 1) w F c') -> (exists c' o, x = Some (c', o) /\ forall asking, o = Handled asking -> inv (a && true) (n + 1) w F c')) as Hand by (now rewrite andb_true_r).
  destruct f as [| |id code size|id code|id off data fin|m|id m|b m|at'|id at'|b at'|typ]; cbn [handleFrame raisesData negb frame_ok] in *.
  - apply Hand; eauto.
  - apply Hand; eauto.
  - destruct Hf as (Hid & Hcode & Hsz). apply Hand. apply onStream_ok; auto. intros c1 s H1 Hs Hd. destruct (onResetStream W CW MI MIU c1 s code size) as [[c2 s2] e] eqn:E. eexists _, _, _. split; [reflexivity|].
    intros asking He. destruct e; [discriminate|]. eapply inv_onResetStream; eauto.
  - destruct Hf as (Hid & Hcode). apply Hand. apply onStream_ok; auto. intros c1 s H1 Hs Hd. destruct (onStopSending c1 s code) as [[c2 s2] e] eqn:E. eexists _, _, _. split; [reflexivity|].
    intros asking He. destruct e; [discriminate|]. eapply inv_onStopSending; eauto.
  - destruct Hf as (Hid & Hoff & Hlen). apply Hand. apply onStream_ok; auto. intros c1 s H1 Hs Hd.
    assert (exists c2 ok, (if (len data =? 0) && negb fin then glitch c1 else (c1, true)) = (c2, ok) /\ inv a n w F c2 /\ streams c2 = streams c1) as (c2 & ok & -> & H2 & Est).
    { destruct (inv_glitch a n w F c1 H1) as (? & ? & _). destruct ((len data =? 0) && negb fin); [exists (glitch c1).1, (glitch c1).2; split; [apply surjective_pairing|auto]|eauto]. }
    destruct ok; [|eexists _, _, _; split; [reflexivity|discriminate]]. cbn [negb]. rewrite <- Est in Hs. destruct (inv_onStreamFrame c2 id s off data fin H2 Hs Hoff Hlen) as (c3 & s3 & e & -> & He). eexists _, _, _. split; [reflexivity|].
    intros asking Ho. destruct e; [discriminate|]. now apply He.
  - destruct (Z.ltb_spec (peerMaxData c) m); eexists _, _; (split; [reflexivity|]); intros asking [= <-]; cbn; rewrite ?andb_true_r, ?andb_false_r; [|exact Hinv1]. apply (inv_weaken _ _ _ _ _ n); [lia|]. apply inv_peerMaxData; [exact Hinv|lia].
  - destruct Hf as (Hid & Hm). apply Hand. apply onStream_ok; auto. intros c1 s H1 Hs Hd. destruct (Z.ltb_spec (sendMax (ss s)) m).
    + pose proof (inv_maxStreamData c1 id s m H1 Hs ltac:(lia) ltac:(lia)) as Hq. destruct (queueStream c1 _) as [c2 s2]. eauto 8.
    + eexists _, _, _. split; [reflexivity|]. intros asking _. replace s with (st_rs s (rs s)) by now destruct s. now apply (inv_still c1 id s); [| |left].
  - apply Hand. destruct (Z.ltb_spec (1 .<< 60) m) as [Hb|Hb]; [eexists _, _; split; [reflexivity|discriminate]|]. change (1 .<< 60) with (2 ^ 60) in Hb.
    destruct (Z.ltb_spec (a_max (allowanceOf c b)) m); [|eauto]. eexists _, _. split; [reflexivity|]. intros asking _. apply (inv_agree _ _ _ _ _ _ _ _ c); auto; try (now destruct b); intros b'; pose proof (ci_own _ (iv_I _ _ _ _ _ _ _ _ _ Hinv) b'); destruct b, b'; cbn in *; auto; lia.
  - apply Hand. destruct (blockedAt_cases c (dataBlockedAt c) at' (recvMaxData c)) as (c' & y & o & -> & Hc). eexists _, _. split; [reflexivity|]. intros asking _. assert (inv a (n + 1) w F c') as H' by (destruct Hc as [->| ->]; [exact Hinv1|]; apply (inv_weaken _ _ _ _ _ n); [lia|]; now apply inv_glitch).
    apply (inv_agree _ _ _ _ _ _ _ _ c'); auto. intros b. pose proof (ci_own _ (iv_I _ _ _ _ _ _ _ _ _ H') b). destruct b; cbn in *; lia.
  - apply Hand. apply onStream_ok; auto. intros c1 s H1 Hs Hd. destruct (blockedAt_cases c1 (blockedAt_ (rs s)) at' (recvMax (rs s))) as (c' & y & o & -> & Hc). eexists _, _, _. split; [reflexivity|]. intros asking _.
    destruct (inv_glitch a n w F c1 H1) as (Hg & Eg & _). assert (inv a n w F c' /\ streams c' !! id = Some s) as [H' Hs'] by (destruct Hc as [->| ->]; [auto|]; rewrite Eg; auto). apply (inv_still c' id s); eauto.
  - apply Hand. destruct (blockedAt_cases c (q_blockedAt (quotaOf c b)) at' (q_max (quotaOf c b))) as (c' & y & o & -> & Hc). eexists _, _. split; [reflexivity|]. intros asking _.
    destruct (inv_glitch a n w F c Hinv) as (Hg & _). assert (inv a (n + 1) w F c') as H' by (destruct Hc as [->| ->]; [exact Hinv1|]; apply (inv_weaken _ _ _ _ _ n); [lia|exact Hg]). assert (quotaOf c b = quotaOf c' b) as -> by (destruct Hc as [->| ->]; [reflexivity|]; unfold glitch; destruct (glitches c), b; reflexivity).
    apply (inv_agree _ _ _ _ _ _ _ _ c'); auto; try (now destruct b); intros b'; pose proof (ci_own _ (iv_I _ _ _ _ _ _ _ _ _ H') b'); destruct b, b'; cbn in *; auto; lia.
  - eexists _, _. split; [reflexivity|discriminate].
Qed.

End Frames.

(** ** Frames as they are read *)

Lemma varint_reads r v r' : bytes_ok (r_b r) -> varint r = (v, r') -> 0 <= v < 2 ^ 62 /\ bytes_ok (r_b r') /\ (length (r_b r') <= length (r_b r))%nat.
Proof.
  intros Hb E. destruct (Frames.varint_range r v r' Hb E) as [Hv Hb']. split; [exact Hv|]. split; [exact Hb'|]. revert E. unfold varint. destruct (ReadVarint _) as [x k]. destruct (k =? 0); intros [= <- <-]; cbn [r_b]; [cbn; lia|]. unfold zdrop. rewrite length_drop. lia.
Qed.

Ltac reads :=
  match goal with
  | |- context [varint ?r] => let v := fresh "v" in let r' := fresh "r" in let E := fresh "E" in
      destruct (varint r) as [v r'] eqn:E; apply varint_reads in E as (? & ? & ?); [|assumption]
  end.

(** A frame read has numbers a varint holds, and took a byte at least. *)
Lemma readFrame_ok r f r' :
  bytes_ok (r_b r) -> len (r_b r) < 2 ^ 62 -> readFrame r = (f, r') -> r_bad r' = false ->
  frame_ok f /\ bytes_ok (r_b r') /\ (length (r_b r') < length (r_b r))%nat.
Proof.
  intros Hb Hl. unfold readFrame. destruct (varint r) as [typ r1] eqn:E. pose proof (Params.varint_shorter r typ r1 Hb E) as Hsh. apply Frames.varint_range in E as [_ Hb1]; [|exact Hb].
  destruct (r_bad r1) eqn:Ebad; [intros [= <- <-]; congruence|]. specialize (Hsh eq_refl).
  destruct (typ =? 0).
  { intros [= <- <-] _. cbn [frame_ok r_b]. split; [exact I|]. revert Hb1 Hsh. generalize (length (r_b r)). induction (r_b r1) as [|x b IH]; intros k Hb1 Hk; cbn [skipZeros]; [auto|]. inversion Hb1. destruct (x =? 0); [|auto]. apply IH; [assumption|]. cbn in Hk. lia. }
  destruct (typ =? 1); [intros [= <- <-] _; cbn; auto|].
  destruct (typ =? 4); [do 3 reads; intros [= <- <-] _; cbn; splits; auto; lia|].
  destruct (typ =? 5); [do 2 reads; intros [= <- <-] _; cbn; splits; auto; lia|].
  destruct ((frameStream <=? typ) && (typ <=? frameStream .| 7)).
  { reads. assert (exists off r2, (if typ .& 4 =? 0 then (0, r0) else varint r0) = (off, r2) /\ 0 <= off < 2 ^ 62 /\ bytes_ok (r_b r2) /\ (length (r_b r2) <= length (r_b r0))%nat) as (off & r2 & -> & Hoff & Hb2 & Hl2).
    { destruct (typ .& 4 =? 0); [exists 0, r0; splits; auto; lia|]. reads. eexists _, _. split; [reflexivity|]. auto. }
    destruct (typ .& 2 =? 0).
    - intros [= <- <-] _. cbn. splits; auto; try lia; [unfold len in *; lia|apply List.Forall_nil].
    - reads. destruct (read_bytes r3 v0) as [d r4] eqn:Er. destruct (Params.read_bytes_ok _ _ _ _ H3 Er) as [_ Hb4]. intros [= <- <-] Hbad. pose proof (Params.read_bytes_shorter _ _ _ _ Er Hbad) as [Hs4 _]. cbn. splits; auto; try lia.
      revert Er. unfold read_bytes. destruct (_ <? _); intros [= <- <-]; [change (len ([] : bytes)) with 0; lia|]. unfold len, ztake in *. rewrite length_take. lia. }
  destruct (typ =? 16); [reads; intros [= <- <-] _; cbn; splits; auto; lia|].
  destruct (typ =? 17); [do 2 reads; intros [= <- <-] _; cbn; splits; auto; lia|].
  destruct ((typ =? 18) || (typ =? 19)); [reads; intros [= <- <-] _; cbn; splits; auto; lia|].
  destruct (typ =? 20); [reads; intros [= <- <-] _; cbn; splits; auto; lia|].
  destruct (typ =? 21); [do 2 reads; intros [= <- <-] _; cbn; splits; auto; lia|].
  destruct ((typ =? 22) || (typ =? 23)); [reads; intros [= <- <-] _; cbn; splits; auto; lia|].
  intros [= <- <-] _. cbn. auto.
Qed.

(** ** Waking the streams, and a whole packet *)

Lemma sendable_shape c s : (sendable c s).1 = s \/ reset (ss s) = false /\ (sendable c s).1 = st_send s (Send.hasLost (send (ss s))).1.
Proof.
  unfold sendable. destruct (_ || _ || _); [now left|]. destruct (_ && _ && _); [now left|]. destruct (reset (ss s) || negb (hasSend (ss s))) eqn:E; [now left|]. apply orb_false_iff in E as [E _]. right. split; [exact E|].
  unfold Send.hasLost. destruct (negb _); [reflexivity|]. destruct (_ <? _); reflexivity.
Qed.

Lemma skipLost_again l b : Send.skipLost (Send.skipLost l b) b = Send.skipLost l b.
Proof. induction l as [|x l IH]; [reflexivity|]. cbn. destruct (Ranges.s_end x <=? b) eqn:E; [exact IH|]. cbn. now rewrite E. Qed.

(** Asking whether a stream has something to send changes nothing of it that matters. *)
Lemma sendable_ok v F os c s :
  xok v F os c s -> let s1 := (sendable c s).1 in
  xok v F os c s1 /\ ssend s s1 /\ reset (ss s1) = reset (ss s) /\ queued s1 = queued s /\ flags s1 = flags s /\ done s1 = done s /\ wants c s1 = (sendable c s).2 /\ nextOf s1 = nextOf s /\
  (aligned (send (ss s)) -> aligned (send (ss s1))).
Proof.
  intros Hx s1. fold (wants c s). unfold s1. destruct (sendable_shape c s) as [->|[Hr ->]]; [splits; auto; now destruct s as [? ? []]|].
  splits; auto; [now apply xok_hasLost|now destruct s as [? ? []]| |apply skipped_aligned]. rewrite !wants_split. unfold Send.hasLost, sendCredit. cbn. now rewrite skipLost_again.
Qed.

Definition wakeOne (c : conn) (id : Z) : conn :=
  match streamByID c id with
  | Some s => let '(s, more) := sendable c s in let '(c, s) := if more then queueStream c s else (c, s) in put c s
  | None => c
  end.

Lemma wakeOne_ok n w F c id : inv false n w F c -> CW * (n + 1) < 2 ^ 63 ->
  inv false n w F (wakeOne c id) /\ sentData (wakeOne c id) = sentData c /\ peerMaxData (wakeOne c id) = peerMaxData c /\
  (forall s, streams (wakeOne c id) !! id = Some s -> woken (wakeOne c id) s) /\ (forall j, j <> id -> streams (wakeOne c id) !! j = streams c !! j).
Proof.
  intros Hinv Hn. unfold wakeOne, streamByID. destruct (streams c !! id) as [s|] eqn:Hi; [|splits; auto; congruence].
  destruct (done s) eqn:Ed; [splits; auto; intros t Ht; rewrite Hi in Ht; injection Ht as <-; intros Hd; congruence|].
  pose proof (cx_xok _ _ _ (iv_X _ _ _ _ _ _ _ _ _ Hinv) id s Hi) as Hx. pose proof (sendable_ok _ _ _ _ _ Hx) as Hs. destruct (sendable c s) as [s1 more]. cbn [fst snd] in Hs. destruct Hs as (Hx1 & Hs1 & Hr1 & Hq1 & Hf1 & Hd1 & Hw1 & Hn1 & _).
  assert (sid s1 = sid s) as Esid by exact (f_equal sid Hs1). assert (sid s = id) as Eid by exact (ci_sid _ (iv_I _ _ _ _ _ _ _ _ _ Hinv) id s Hi).
  set (r := if more then queueStream c s1 else (c, s1)). assert (csend c r.1 /\ ssend s r.2 /\ sentData r.1 = sentData c /\ xok (w id) F (sentData c - nextOf s) r.1 r.2 /\ reset (ss r.2) = reset (ss s) /\ rung c r.1 s r.2 /\ woken r.1 r.2 /\ sid r.2 = id) as (H1 & H2 & H3 & H4 & H5 & H6 & H7 & H8).
  { unfold r. destruct more; cbn [fst snd].
    - destruct (ssend_queue s s1 c Hs1) as [Q1 Q2]. splits; auto; try (unfold queueStream; destruct (_ && _); cbn; congruence); [now apply xok_queue|now apply rung_queue|apply queue_woken].
    - splits; try assumption; try congruence; try apply csend_refl; try (apply rung_still; auto; congruence). }
  destruct r as [c2 s2]. cbn [fst snd] in *. destruct (csend_facts _ _ H1) as (E1 & _ & E3 & _). unfold put. rewrite H8. splits.
  - change (inv false n w F (set_streams c2 (<[id := s2]> (streams c2)))). rewrite <- H8. refine (inv_send0 false n w F c id s c2 s2 Hinv Hn Hi H1 H2 H3 H4 _ H6 _); congruence.
  - exact H3.
  - exact E3.
  - intros t Ht. cbn in Ht. rewrite lookup_insert_eq in Ht. injection Ht as <-. apply (woken_mono c2); auto; cbn; lia.
  - intros j Hj. cbn. rewrite lookup_insert_ne by congruence. now rewrite E1.
Qed.

Lemma wakeAll_ok l n w F c : inv false n w F c -> CW * (n + 1) < 2 ^ 63 -> (forall i s, streams c !! i = Some s -> i ∈ l \/ woken c s) ->
  let c' := foldl wakeOne c l in inv false n w F c' /\ forall i s, streams c' !! i = Some s -> woken c' s.
Proof.
  revert c. induction l as [|id l IH]; intros c Hinv Hn Hl; cbn [foldl].
  { split; [exact Hinv|]. intros i s Hi. destruct (Hl i s Hi) as [Hin|]; [inversion Hin|assumption]. }
  destruct (wakeOne_ok n w F c id Hinv Hn) as (H1 & H2 & H3 & H4 & H5). apply IH; auto. intros i s Hi. destruct (decide (i = id)) as [->|Hne]; [right; auto|]. rewrite H5 in Hi by exact Hne.
  destruct (Hl i s Hi) as [Hin|Hwk]; [|right; apply (woken_mono c); auto; lia]. apply elem_of_cons in Hin as [->|]; [congruence|now left].
Qed.

(** Once the streams were asked, every one that has something to send is queued. *)
Lemma queueSendable_ok a n w F c : inv a n w F c -> CW * (n + 1) < 2 ^ 63 -> inv true n w F (queueSendable c).
Proof.
  intros [HR HI HX [Q1 Q2 Q3]] Hn. assert (inv false n w F c) as Hinv by (split; auto; split; auto; discriminate).
  destruct (wakeAll_ok (map_to_list (streams c)).*1 n w F c Hinv Hn) as [[A B C [D1 D2 _]] Hw].
  { intros i s Hi. left. apply list_elem_of_fmap. exists (i, s). split; [reflexivity|]. now apply elem_of_map_to_list. }
  split; auto. split; auto.
Qed.

Lemma framesLoop_ok fuel a n w F c r pinged asked raised :
  pp_ok pp -> 0 <= W <= 2 ^ 62 -> inv a n w F c -> bytes_ok (r_b r) -> len (r_b r) < 2 ^ 62 -> CW * (n + len (r_b r) + 2) < 2 ^ 63 -> (length (r_b r) < fuel)%nat -> (a = false -> raised = true) ->
  exists c' o fl, framesLoop W CW MI MIU pp fuel c r pinged asked raised = Some (c', o, fl) /\ forall x, o = Handled x -> exists a', inv a' (n + len (r_b r)) w F c' /\ (a' = false -> fl.2 = true).
Proof.
  intros Hpp HW. revert a n c r pinged asked raised. induction fuel as [|fuel IH]; intros a n c r pinged asked raised Hinv Hb Hl Hn Hfuel Ha; [lia|]. pose proof (len_nonneg (r_b r)).
  destruct (cr_n _ _ _ _ _ _ (iv_R _ _ _ _ _ _ _ _ _ Hinv)) as (_ & Hn0 & HC). cbn [framesLoop]. destruct (_ || _).
  { eexists _, _, _. split; [reflexivity|]. intros x _. exists a. split; [|exact Ha]. apply (inv_weaken _ _ _ _ _ n); [lia|exact Hinv]. }
  destruct (readFrame r) as [f r1] eqn:E. destruct (r_bad r1) eqn:Eb; [eexists _, _, _; split; [reflexivity|discriminate]|].
  destruct (readFrame_ok r f r1 Hb Hl E Eb) as (Hf & Hb1 & Hl1). assert (len (r_b r1) + 1 <= len (r_b r)) by (unfold len; lia).
  destruct (handleFrame_ok a n w F Hpp HW ltac:(nia) c f Hinv Hf) as (c1 & o & -> & Ho). destruct o as [asking|e|t]; [|eexists _, _, _; split; [reflexivity|discriminate]..].
  specialize (Ho asking eq_refl). destruct (IH (a && negb (raisesData f asking)) (n + 1) c1 r1 (pinged || isPing f asking) (asked || asking) (raised || raisesData f asking)) as (c' & o & fl & -> & Hres); auto; try lia; [nia| |].
  - destruct a, (raisesData f asking), raised; auto.
  - eexists _, _, _. split; [reflexivity|]. intros x Hx. destruct (Hres x Hx) as (a' & Hi & Hfl). exists a'. split; [|exact Hfl]. apply (inv_weaken _ _ _ _ _ (n + 1 + len (r_b r1))); [lia|exact Hi].
Qed.

(** A packet taken whole, or refused: the frames are read to the end, and the streams
    that may go on because of it are woken. *)
Lemma handleFrames_ok n w F c payload :
  pp_ok pp -> 0 <= W <= 2 ^ 62 -> inv true n w F c -> bytes_ok payload -> len payload < 2 ^ 62 -> CW * (n + len payload + 2) < 2 ^ 63 ->
  exists c' o, handleFrames W CW MI MIU pp c payload = Some (c', o) /\ forall x, o = Handled x -> inv true (n + len payload) w F c'.
Proof.
  intros Hpp HW Hinv Hb Hl Hn. pose proof (len_nonneg payload). destruct (cr_n _ _ _ _ _ _ (iv_R _ _ _ _ _ _ _ _ _ Hinv)) as (_ & Hn0 & HC). unfold handleFrames. destruct (len payload =? 0); [eexists _, _; split; [reflexivity|discriminate]|].
  destruct (framesLoop_ok (S (length payload)) true n w F c (mkReader payload false) false false false) as (c1 & o & [[pinged asked] raised] & -> & Ho); auto.
  destruct o as [x|e|t]; [|eexists _, _; split; [reflexivity|discriminate]..]. destruct (Ho x eq_refl) as (a' & Hi & Hfl). cbn [r_b snd] in *.
  assert (inv true (n + len payload) w F (if raised then queueSendable c1 else c1)) as H2 by (destruct raised; [apply (queueSendable_ok a'); [exact Hi|nia]|destruct a'; [exact Hi|now discriminate Hfl]]).
  set (c2 := if raised then queueSendable c1 else c1) in *. destruct (_ && _ && _); [destruct (inv_glitch true _ w F c2 H2) as (H3 & _); destruct (glitch c2) as [c3 ok]|]; eexists _, _; (split; [reflexivity|]); auto.
Qed.

(** ** The application *)

Section Calls.
Context (a : bool) (n : Z) (w : Z -> bytes) (F : list sentFrame) (c : conn) (i : Z) (s : stream).
Context (Hinv : inv a n w F c) (Hn : CW * (n + 1) < 2 ^ 63) (Hi : streams c !! i = Some s).

Lemma lok_call :
  lok W CW (CW * n) (total high (streams c) - high s) (total readTo (streams c) - readTo s) c s /\ nok MI MIU (fun b => total (counts c b) (streams c) - counts c b s) c s /\ 0 <= n.
Proof. destruct Hinv as [HR _ _ _]. destruct (cr_n _ _ _ _ _ _ HR) as (H1 & H2 & H3). destruct (lok_of W CW MI MIU n (CW * n) c i s HR Hi) as (A & B & C); [lia|lia|]. auto. Qed.

Lemma xok_call : xok (w i) F (sentData c - nextOf s) c s.
Proof. exact (cx_xok _ _ _ (iv_X _ _ _ _ _ _ _ _ _ Hinv) i s Hi). Qed.

Lemma woken_call : a = true -> woken c s.
Proof. intros Ha. exact (cq_woken _ _ (iv_Q _ _ _ _ _ _ _ _ _ Hinv) Ha i s Hi). Qed.

Lemma inv_stopSending code : let '(c', s') := stopSendingLocked c s code in inv a n w F (put c' s').
Proof.
  destruct lok_call as (HL & HN & Hn0). pose proof (stopSending_ok W CW MI MIU _ _ _ _ _ _ code HL HN) as Hs. pose proof (stopSending_rung c s code) as Hr. destruct (stopSendingLocked c s code) as [c' s'].
  destruct Hs as (HL' & HN' & [[] _ _ _ _ _ _ _ _ _ _] & _). apply (inv_recv _ _ _ _ a n n w F c i s); auto. split; auto.
Qed.

Lemma inv_HoldCredit : inv a n w F (put c (HoldCredit s)).
Proof.
  destruct lok_call as (HL & HN & Hn0). destruct (HoldCredit_ok W CW MI MIU _ _ _ _ _ _ HL HN) as (HL' & HN' & r & E & _). apply (inv_recv _ _ _ _ a n n w F c i s); auto; [|apply HoldCredit_rung]. rewrite E. split; auto.
Qed.

Lemma inv_Credit k : k < 2 ^ 63 -> let '(c', s') := Credit W CW c s k in inv a n w F (put c' s').
Proof.
  intros Hk. destruct lok_call as (HL & HN & Hn0). pose proof (Credit_ok W CW MI MIU _ _ _ _ _ _ k HL HN Hk) as Hs. pose proof (Credit_rung W CW c s k) as Hr. destruct (Credit W CW c s k) as [c' s'].
  destruct Hs as (HL' & HN' & [Hot _ _ _ _ _ _ _ _ _ _] & _). now apply (inv_recv _ _ _ _ a n n w F c i s).
Qed.

Lemma inv_resetLocked code : 0 <= code < 2 ^ 62 -> let '(c', s') := resetLocked c s code in inv a n w F (put c' s').
Proof.
  intros Hcode. pose proof (resetLocked_ok _ _ _ _ _ _ xok_call Hcode) as Hx. destruct (resetLocked_handled c s code) as [Hr Hw]. destruct (resetLocked_send c s code) as (Hc & Hs & Hd & Hre). destruct (resetLocked c s code) as [c' s'].
  apply (inv_send0 a n w F c i s); auto. intros Ha. now apply Hw, woken_call.
Qed.

(** The answer of the budget apart. *)
Lemma inv_resetCounted : inv a n w F (put (resetCounted c s).1.1 (resetCounted c s).1.2).
Proof.
  pose proof (resetCounted_rung c s) as Hr. destruct (resetCounted_cases c s) as (l & f & E). destruct (resetCounted c s) as [[c1 s1] ok]. cbn [fst snd] in *. injection E as -> ->.
  apply (inv_send0 a n w F c i s); auto; [now destruct c|now destruct s as [? ? []]|apply xok_tidy, xok_call|]. intros Ha. apply (rung_woken c _ s); auto. now apply woken_call.
Qed.

(** What is written is added to what the stream was written. *)
Lemma inv_written buf p fin : unwritable c s = false -> wrote (send (ss s)) buf p -> len (w i ++ p) < 2 ^ 62 ->
  let '(c', s') := written c s buf fin in inv a n (fun j => if decide (j = i) then w i ++ p else w j) F (put c' s').
Proof.
  intros Hu Hb Hl. destruct (written_ok _ _ _ _ _ buf p fin xok_call Hu Hb Hl) as [Hx Hd]. destruct (written_handled c s buf fin) as [Hr Hw].
  assert (csend c (written c s buf fin).1 /\ ssend s (written c s buf fin).2) as [Hc Hs] by (unfold written; apply ssend_queue; destruct fin; now destruct s as [? ? []]).
  assert (sentData (written c s buf fin).1 = sentData c /\ reset (ss (written c s buf fin).2) = reset (ss s)) as [Es Er] by (unfold written, queueStream; destruct fin; cbn [st_ss]; destruct (_ && _); now split).
  destruct (written c s buf fin) as [c' s']. cbn [fst snd] in *. refine (inv_sending a n w _ F F c i s c' s' Hinv Hn Hi Hc Hs _ Hx _ _ Hr _); [lia|tauto| |intros Ha; now apply Hw, woken_call].
  intros Hin. rewrite Er. exact (cx_resets _ _ _ (iv_X _ _ _ _ _ _ _ _ _ Hinv) i s Hi Hin).
Qed.

End Calls.

(** The identifier of this side's next stream of a kind. *)
Lemma own_id (cl bidi : bool) seq : 0 <= seq < 2 ^ 60 ->
  let id := u64 (seq .<< 2) .| (if bidi then 0 else 2) in let id := if cl then id else id .| 1 in
  0 <= id < 2 ^ 62 /\ id .>> 2 = seq /\ isBidi id = bidi /\ isClientStream id = cl.
Proof.
  intros Hs. cbv zeta. set (k := Z.lor (if bidi then 0 else 2) (if cl then 0 else 1)). assert (0 <= k < 4) as Hk by (unfold k; destruct bidi, cl; now vm_compute).
  assert ((if cl then u64 (seq .<< 2) .| (if bidi then 0 else 2) else (u64 (seq .<< 2) .| (if bidi then 0 else 2)) .| 1) = 4 * seq + k) as ->.
  { rewrite <- (id_bits seq k Hs Hk). unfold k. destruct cl; [now rewrite Z.lor_0_r|]. now rewrite Z.lor_assoc. }
  destruct (id_parts seq k ltac:(lia) Hk) as [H1 H2].
  assert (Z.land k 3 = k) as Hk3 by (unfold k; now destruct bidi, cl). rewrite <- Hk3 in H2 at 2. destruct (land_three _ _ H2) as [-> ->]. split; [lia|]. split; [exact H1|]. unfold k. now destruct bidi, cl.
Qed.

Lemma inv_open a n w F c bidi : inv a n w F c -> pp_ok pp -> 0 <= W <= 2 ^ 62 -> inv a n w F (openStreamLocked W pp c bidi).1.
Proof.
  intros Hinv Hpp HW. unfold openStreamLocked. destruct (closed c); [exact Hinv|]. set (al := allowanceOf c bidi). destruct (ci_own _ (iv_I _ _ _ _ _ _ _ _ _ Hinv) bidi) as [Ho1 Ho2]. fold al in Ho1, Ho2.
  destruct (Z.leb_spec (a_max al) (a_opened al)) as [Hge|Hlt]; cbn [fst].
  { apply (inv_own a n w F c); auto; try (now destruct bidi). intros b. unfold al. destruct bidi, b; now split. }
  destruct (own_id (isClient c) bidi (a_opened al) ltac:(lia)) as (Hid & Hseq & Hb & Hcl). set (id := if isClient c then _ else _) in *. clearbody id. rewrite (u64_id (a_opened al + 1)) by lia. set (c1 := set_allowance c bidi (al_a_opened al (a_opened al + 1))).
  assert (local c id = true) as Hlo by (unfold local; rewrite Hcl; apply Bool.eqb_reflx).
  assert (streams c !! id = None) as Hno. { destruct (streams c !! id) as [t|] eqn:E; [|reflexivity]. destruct (ci_ids _ (iv_I _ _ _ _ _ _ _ _ _ Hinv) id t E) as [_ Hlt2]. rewrite Hlo, Hb, Hseq in Hlt2. fold al in Hlt2. lia. }
  apply (inv_newStream W CW MI MIU pp a n w F c (newStream W pp c1 id) id Hinv Hpp HW Hid Hno); try (unfold c1; now destruct bidi).
  - intros b. assert (quotaOf (newStream W pp c1 id) b = quotaOf c b) as -> by (unfold c1; now destruct bidi, b). assert (counts c b (freshStream W pp c id) = 0) as -> by (unfold counts; cbn [freshStream sid]; now rewrite Hlo). rewrite Z.add_0_r. apply (cr_quota _ _ _ _ _ _ (iv_R _ _ _ _ _ _ _ _ _ Hinv)).
  - intros b. pose proof (ci_own _ (iv_I _ _ _ _ _ _ _ _ _ Hinv) b). unfold c1. unfold al in *. destruct bidi, b; cbn in *; lia.
  - intros b. unfold c1. unfold al in *. destruct bidi, b; cbn in *; lia.
  - rewrite Hlo, Hb, Hseq. unfold c1. unfold al in *. destruct bidi; cbn; lia.
Qed.

(** ** What is heard of the packets sent *)

Lemma ssend_refl s : ssend s s.
Proof. now destruct s as [? ? []]. Qed.

(** The frames of the others stay on their way. *)
Lemma middle_mine (F1 F2 : list sentFrame) g i : mine i g -> forall j f, j <> i -> mine j f -> (f ∈ F1 ++ g :: F2 <-> f ∈ F1 ++ F2).
Proof.
  intros Hg j f Hj Hf. split; [|apply middle_sub]. intros Hin. apply middle_other in Hin as [->|]; [|assumption]. destruct g; cbn in *; contradiction || congruence.
Qed.

(** A frame that is not about what a stream sends needs not be on its way. *)
Lemma inv_drop a n w F1 F2 f c : inv a n w (F1 ++ f :: F2) c -> (forall i, ~ mine i f) -> inv a n w (F1 ++ F2) c.
Proof.
  intros [HR [I1 I2 I3] [X1 X2 X3 X4 X5] HQ] Hm. split; auto; [now split|]. split; auto.
  - intros i s Hi. apply (xok_drop_other _ _ _ _ _ _ f); [eauto|intros off k fin ->; now apply (Hm (sid s))|intros ->; now apply (Hm (sid s))].
  - intros i Hi. destruct (X4 i Hi) as [H1 H2]. split; [exact H1|]. intros g Hg. apply H2. now apply middle_sub.
  - intros i s Hi Hin. apply (X5 i s Hi). now apply middle_sub.
Qed.

Lemma inv_has a n w F1 F2 f c i : inv a n w (F1 ++ f :: F2) c -> mine i f -> exists s, streams c !! i = Some s /\ sid s = i.
Proof.
  intros Hinv Hf. destruct (streams c !! i) as [s|] eqn:E; [exists s; split; [reflexivity|]; exact (ci_sid _ (iv_I _ _ _ _ _ _ _ _ _ Hinv) i s E)|].
  destruct (cx_new _ _ _ (iv_X _ _ _ _ _ _ _ _ _ Hinv) i E) as [_ H]. destruct (H f); [|exact Hf]. apply elem_of_app. right. apply elem_of_cons. now left.
Qed.

Section Heard.
Context (n : Z) (w : Z -> bytes) (F1 F2 : list sentFrame) (c : conn).
Context (Hn : CW * (n + 1) < 2 ^ 63).

(** A stream that may be done now. *)
Lemma inv_finish f i s s1 :
  inv true n w (F1 ++ f :: F2) c -> mine i f -> streams c !! i = Some s -> ssend s s1 -> (reset (ss s) = true -> reset (ss s1) = true) ->
  let '(c', s') := maybeFinish MI MIU c s1 in
  xok (w i) (F1 ++ F2) (sentData c - nextOf s) c' s' -> rung c c' s s' -> woken c' s' -> inv true n w (F1 ++ F2) (put c' s').
Proof.
  intros Hinv Hf Hi Hs Hre. destruct (lok_call true n w _ c i s Hinv Hn Hi) as (HL & HN & Hn0). apply (lok_send _ _ _ c c s s1 (csend_refl c) Hs) in HL. apply (nok_send _ c c s s1 (csend_refl c) Hs) in HN.
  pose proof (maybeFinish_ok W CW MI MIU _ _ _ _ _ _ HL HN) as Hm. pose proof (fun b => maybeFinish_opened MI MIU c s1 b) as Hop. destruct (maybeFinish MI MIU c s1) as [c' s']. cbn [fst] in Hop. destruct Hm as (HL' & HN' & [[] _ _ _ _ _ _ _ _ _ _] & _).
  intros Hx Hr Hw. apply (inv_same _ _ _ _ _ _ _ _ _ i). refine (inv_stored _ _ _ _ true n n w (w i) _ _ c i s c' s' Hinv Hi Hn0 HL' HN' ot_streams0 ot_client0 _ Hop _ ot_peerMax0 Hx (middle_mine F1 F2 f i Hf) _ Hr (fun _ => Hw)).
  - intros []; cbn; now rewrite ?ot_bidi0, ?ot_uni0.
  - lia.
  - intros Hin. rewrite ot_ss0. apply Hre. apply (cx_resets _ _ _ (iv_X _ _ _ _ _ _ _ _ _ Hinv) i s Hi). now apply middle_sub.
Qed.

Lemma inv_acked f : inv true n w (F1 ++ f :: F2) c -> inv true n w (F1 ++ F2) (frameAcked MI MIU c f).
Proof.
  intros Hinv. destruct f as [id off k fin| |id| | | | | |]; cbn [frameAcked]; try (apply (inv_drop _ _ _ _ _ _ _ Hinv); intros i []).
  - destruct (inv_has _ _ _ _ _ _ _ id Hinv eq_refl) as (s & Hi & Es). unfold on. rewrite Hi. pose proof (xok_call true n w _ c id s Hinv Hi) as Hx. rewrite <- Es in Hx at 2.
    destruct (onDataAcked_woken MI MIU _ _ _ c s off k fin Hx) as [Hr Hw]; [rewrite Es; apply elem_of_app; right; apply elem_of_cons; now left|exact (woken_call true n w _ c id s Hinv Hi eq_refl)|]. apply (onDataAcked_ok MI MIU) in Hx. revert Hx Hr Hw. unfold onDataAcked. destruct (reset (ss s)) eqn:Er.
    + cbn [fst snd]. intros Hx Hr Hw. apply (inv_same _ _ _ _ _ _ _ _ _ id). refine (inv_sending true n w _ _ _ c id s c s Hinv Hn Hi (csend_refl c) (ssend_refl s) _ Hx (middle_mine F1 F2 (sfStream id off k fin) id eq_refl) _ Hr (fun _ => Hw)); [lia|auto].
    + set (s1 := if fin then _ else _). pose proof (inv_finish _ id s s1 Hinv eq_refl Hi) as Hfin. destruct (maybeFinish MI MIU c s1) as [c' s']. intros Hx Hr Hw. apply Hfin; auto; [unfold s1; destruct fin; now destruct s as [? ? []]|congruence].
  - destruct (inv_has _ _ _ _ _ _ _ id Hinv eq_refl) as (s & Hi & Es). unfold on. rewrite Hi. pose proof (xok_call true n w _ c id s Hinv Hi) as Hx. rewrite <- Es in Hx at 2. apply (onResetAcked_ok MI MIU) in Hx.
    destruct (onResetAcked_handled MI MIU c s) as [Hr Hw]. revert Hx Hr Hw. unfold onResetAcked. set (s1 := st_ss s _). pose proof (inv_finish _ id s s1 Hinv eq_refl Hi (ssend_ss s _) ltac:(auto)) as Hfin. destruct (maybeFinish MI MIU c s1) as [c' s']. cbn [fst snd]. intros Hx Hr Hw. apply Hfin; auto.
    apply Hw. exact (woken_call true n w _ c id s Hinv Hi eq_refl).
Qed.

(** A frame given up for lost, or sent again for a probe while it may arrive still. *)
Context (gone : bool).
Local Notation left_ f := (if gone then F1 ++ F2 else F1 ++ f :: F2).

Lemma left_sub f g : g ∈ left_ f -> g ∈ F1 ++ f :: F2.
Proof. destruct gone; [apply middle_sub|auto]. Qed.

Lemma left_mine g i : mine i g -> forall j f, j <> i -> mine j f -> (f ∈ F1 ++ g :: F2 <-> f ∈ left_ g).
Proof. intros Hg j f Hj Hf. destruct gone; [now apply (middle_mine F1 F2 g i Hg j)|tauto]. Qed.

Lemma left_drop f : inv true n w (F1 ++ f :: F2) c -> (forall i, ~ mine i f) -> inv true n w (left_ f) c.
Proof. intros Hinv Hm. destruct gone; [exact (inv_drop _ _ _ _ _ _ _ Hinv Hm)|exact Hinv]. Qed.

(** A stream told of it. *)
Lemma inv_heardOf f i s h :
  inv true n w (F1 ++ f :: F2) c -> mine i f -> streams c !! i = Some s -> csend c (h c s).1 -> ssend s (h c s).2 -> sentData (h c s).1 = sentData c -> reset (ss (h c s).2) = reset (ss s) ->
  xok (w i) (left_ f) (sentData c - nextOf s) (h c s).1 (h c s).2 -> handled c (h c s).1 s (h c s).2 -> inv true n w (left_ f) (on c i h).
Proof.
  intros Hinv Hf Hi Hc Hs Hd Hre Hx [Hr Hw]. unfold on. rewrite Hi. destruct (h c s) as [c' s']. cbn [fst snd] in *. apply (inv_same _ _ _ _ _ _ _ _ _ i).
  refine (inv_sending true n w _ _ _ c i s c' s' Hinv Hn Hi Hc Hs _ Hx (left_mine f i Hf) _ Hr _); [lia| |intros _; apply Hw; exact (woken_call true n w _ c i s Hinv Hi eq_refl)].
  intros Hin. rewrite Hre. apply (cx_resets _ _ _ (iv_X _ _ _ _ _ _ _ _ _ Hinv) i s Hi). now apply left_sub.
Qed.

(** What of its limits and requests is to be sent again. *)
Definition again v F os s c' s' : Prop := csend c c' /\ ssend s s' /\ sentData c' = sentData c /\ reset (ss s') = reset (ss s) /\ (xok v F os c s -> xok v F os c' s').

Lemma inv_again F i h :
  inv true n w F c -> (forall s, streams c !! i = Some s -> again (w i) F (sentData c - nextOf s) s (h c s).1 (h c s).2 /\ handled c (h c s).1 s (h c s).2) -> inv true n w F (on c i h).
Proof.
  intros Hinv Hh. unfold on. destruct (streams c !! i) as [s|] eqn:Hi; [|exact Hinv]. destruct (Hh s eq_refl) as ((Hc & Hs & Hd & Hre & Hx) & Hr & Hw). destruct (h c s) as [c' s']. cbn [fst snd] in *.
  refine (inv_send0 true n w F c i s c' s' Hinv Hn Hi Hc Hs Hd (Hx (xok_call true n w F c i s Hinv Hi)) _ Hr _); [congruence|]. intros _. apply Hw. exact (woken_call true n w _ c i s Hinv Hi eq_refl).
Qed.

Lemma queue_same s : sentData (queueStream c s).1 = sentData c /\ ss (queueStream c s).2 = ss s.
Proof. unfold queueStream. destruct (_ && _); now split. Qed.

Lemma again_queue v F os s s' : ssend s s' -> reset (ss s') = reset (ss s) -> (xok v F os c s -> xok v F os c s') ->
  again v F os s (queueStream c s').1 (queueStream c s').2.
Proof.
  intros Hs Hre Hx. destruct (ssend_queue s s' c Hs) as [H1 H2], (queue_same s') as [H3 H4]. split; [exact H1|]. split; [exact H2|]. split; [exact H3|]. split; [congruence|]. intros H. now apply xok_queue, Hx.
Qed.

Lemma again_refl v F os s : again v F os s c s.
Proof. unfold again. splits; auto using csend_refl, ssend_refl. Qed.

Lemma inv_lost f : inv true n w (F1 ++ f :: F2) c -> inv true n w (left_ f) (frameLost c f).
Proof.
  intros Hinv. destruct f as [id off k fin|id|id|id|id at'| |b|at'|b at'].
  - destruct (inv_has _ _ _ _ _ _ _ id Hinv eq_refl) as (s & Hi & Es). pose proof (xok_call true n w _ c id s Hinv Hi) as Hx. rewrite <- Es in Hx at 2. apply (onDataLost_ok _ _ _ _ _ _ _ _ _ gone) in Hx. rewrite Es in Hx.
    assert (csend c (onDataLost c s off k fin).1 /\ ssend s (onDataLost c s off k fin).2 /\ sentData (onDataLost c s off k fin).1 = sentData c /\ reset (ss (onDataLost c s off k fin).2) = reset (ss s)) as (H1 & H2 & H3 & H4).
    { unfold onDataLost. destruct (_ || _); [splits; auto using csend_refl, ssend_refl|]. set (s1 := if fin && _ then _ else _). assert (ssend s s1 /\ reset (ss s1) = reset (ss s)) as [Hs1 Hr1] by (unfold s1; destruct (fin && _); (split; [now destruct s as [? ? []]|reflexivity])).
      destruct (ssend_queue s s1 c Hs1), (queue_same s1). splits; auto. congruence. }
    apply (inv_heardOf _ id s (fun c s => onDataLost c s off k fin) Hinv eq_refl Hi H1 H2 H3 H4 Hx). apply onDataLost_handled.
  - apply inv_again; [apply (left_drop _ Hinv); intros i []|]. intros s _. split; [|apply onMaxDataLost_handled]. unfold onMaxDataLost. destruct (_ && _ && _); [|apply again_refl]. apply again_queue; auto; [now destruct s as [? ? []]|]. intros H. now apply xok_rs.
  - destruct (inv_has _ _ _ _ _ _ _ id Hinv eq_refl) as (s & Hi & Es). pose proof (xok_call true n w _ c id s Hinv Hi) as Hx. rewrite <- Es in Hx at 2. apply (onResetLost_ok _ _ _ _ _ _ gone) in Hx; [|apply (cx_resets _ _ _ (iv_X _ _ _ _ _ _ _ _ _ Hinv) id s Hi); apply elem_of_app; right; apply elem_of_cons; now left]. rewrite Es in Hx.
    assert (csend c (onResetLost c s).1 /\ ssend s (onResetLost c s).2 /\ sentData (onResetLost c s).1 = sentData c /\ reset (ss (onResetLost c s).2) = reset (ss s)) as (H1 & H2 & H3 & H4).
    { unfold onResetLost. destruct (_ && _); [|splits; auto using csend_refl, ssend_refl]. set (s1 := st_ss s _). destruct (ssend_queue s s1 c (ssend_ss s _)), (queue_same s1) as [? E]. splits; auto. now rewrite E. }
    apply (inv_heardOf _ id s onResetLost Hinv eq_refl Hi H1 H2 H3 H4 Hx). apply onResetLost_handled.
  - apply inv_again; [apply (left_drop _ Hinv); intros i []|]. intros s _. split; [|apply onStopSendingLost_handled]. unfold onStopSendingLost. destruct (_ && _); [|apply again_refl]. apply again_queue; auto; [now destruct s as [? ? []]|]. intros H. now apply xok_rs.
  - apply inv_again; [apply (left_drop _ Hinv); intros i []|]. intros s _. split; [|apply onBlockedLost_handled]. unfold onBlockedLost. destruct (negb (reset (ss s)) && negb (done s)); [|apply again_refl].
    set (s1 := st_ss s _). assert (xok (w id) (left_ (sfStreamDataBlocked id at')) (sentData c - nextOf s) c s -> xok (w id) (left_ (sfStreamDataBlocked id at')) (sentData c - nextOf s) c s1) as Hx by (intros []; now split).
    destruct (b_pending _); [apply again_queue; auto; apply ssend_ss|]. unfold again. splits; auto using csend_refl. apply ssend_ss.
  - apply (inv_own _ _ _ _ c); auto; [apply (left_drop _ Hinv); intros i []|..]; intros []; auto.
  - apply (inv_own _ _ _ _ c); auto; try (now destruct b); [apply (left_drop _ Hinv); intros i []|..]; intros b'; destruct b, b'; auto.
  - apply (inv_own _ _ _ _ c); auto; [apply (left_drop _ Hinv); intros i []|..]; intros []; auto.
  - apply (inv_own _ _ _ _ c); auto; try (now destruct b); [apply (left_drop _ Hinv); intros i []|..]; intros b'; destruct b, b'; auto.
Qed.

End Heard.

(** ** Filling a packet *)

Lemma sending_send c c' s s' : sending c c' s s' -> csend c c' /\ ssend s s'.
Proof.
  intros [H1 _ H3 _ _ H6]. split.
  - unfold csend. rewrite H1. now destruct c.
  - unfold ssend. rewrite (f_equal queued H6 : queued s' = queued s), (f_equal floodCounted H6 : floodCounted s' = floodCounted s), <- H3. exact H6.
Qed.

(** A stream with nothing more to send leaves the queue. *)
Lemma inv_dequeue n w F c k id s :
  inv true n w F c -> CW * (n + 1) < 2 ^ 63 -> sendQueue c !! k = Some id -> streams c !! id = Some s -> done s = true \/ wants c s = false ->
  inv true n w F (set_sendQueue (put c (st_queued s false)) (take k (sendQueue c) ++ drop (S k) (sendQueue c))).
Proof.
  intros Hinv Hn Hk Hi Hw. set (q := take k (sendQueue c) ++ drop (S k) (sendQueue c)). set (c0 := set_sendQueue c q). change (inv true n w F (put c0 (st_queued s false))).
  destruct Hinv as [HR HI HX HQ]. destruct (cr_n _ _ _ _ _ _ HR) as (H1 & H2 & H3). destruct (lok_of W CW MI MIU n (CW * n) c id s HR Hi ltac:(lia) ltac:(lia)) as (HL & HN & _).
  assert (csend c c0) as Hc by now destruct c. assert (ssend s (st_queued s false)) as Hs by now destruct s as [? ? []]. assert (sid s = id) as Es by exact (ci_sid _ HI id s Hi).
  assert (sendQueue c = take k (sendQueue c) ++ id :: drop (S k) (sendQueue c)) as Eq by (symmetry; now apply take_drop_middle).
  split.
  - exact (R_put W CW MI MIU n n c id s c0 (st_queued s false) _ _ _ HR Hi eq_refl eq_refl Es eq_refl eq_refl eq_refl (lok_send _ _ _ _ _ _ _ Hc Hs HL) (nok_send _ _ _ _ _ Hc Hs HN) H2).
  - apply (I_put c id s); auto.
  - apply (upd_same _ _ _ id). refine (X_put w (w id) F F c id s c0 (st_queued s false) HX HI Hi eq_refl Es eq_refl _ _ (cx_resets _ _ _ HX id s Hi)); [|tauto]. destruct (cx_xok _ _ _ HX id s Hi). now split.
  - destruct HQ as [Q1 Q2 Q3]. rewrite Eq in Q1. unfold put. cbn [st_queued sid]. rewrite Es. apply NoDup_app in Q1 as (N1 & N2 & N3). apply NoDup_cons in N3 as [N3 N4].
    assert (forall j, j ∈ q <-> j ∈ sendQueue c /\ j <> id) as Hq.
    { intros j. unfold q. rewrite Eq at 3. rewrite !elem_of_app, elem_of_cons. split; [|tauto]. intros [Hj|Hj]; (split; [tauto|]); intros ->; [|tauto]. apply (N2 id Hj). apply elem_of_cons. now left. }
    split; cbn [set_streams streams sendQueue c0 set_sendQueue].
    + apply NoDup_app. split; [exact N1|]. split; [|exact N4]. intros j Hj Hj2. apply (N2 j Hj). apply elem_of_cons. now right.
    + intros j. rewrite Hq, Q2. split.
      * intros [(t & Ht & Hqt) Hne]. exists t. rewrite lookup_insert_ne by congruence. auto.
      * intros (t & Ht & Hqt). apply lookup_insert_Some in Ht as [[<- <-]|[Hne Ht]]; [discriminate|]. split; [eauto|congruence].
    + intros _ j t Hj. apply lookup_insert_Some in Hj as [[<- <-]|[Hne Hj]]; [|apply (woken_mono c); [cbn; lia|reflexivity|now apply (Q3 eq_refl j)]].
      intros Hd Hwt. destruct Hw as [Hw|Hw]; [cbn in Hd; congruence|]. assert (wants c s = true); [|congruence]. rewrite <- Hwt. rewrite !wants_split. reflexivity.
Qed.

(** What the frames of a packet are, of streams that were written [w]. *)
Definition sound (w : Z -> bytes) (f : frame) : Prop :=
  match f with
  | FStream id off data fin => agrees (cont (w id)) off data /\ 0 <= off /\ off + len data <= len (w id) /\ (fin = true -> off + len data = len (w id))
  | _ => True
  end.

End Config.

End QStep.
