(* ===== verification/QuicRun.v ===== *)
(** * A QUIC connection's streams from end to end (src/http3/quic/conn.go, stream.go, frames.go, send.go, recovery.go)

    Packets filled from the queue of streams, and a connection run: packets
    received, calls of the application, packets sent, acknowledged and lost in any
    order. *)

From S2P Require Import Prelude QuicVarint QuicRanges QuicRecv QuicSend QuicFrames QuicStream QuicFlow QuicOut QuicWake QuicConn QuicStep.
From stdpp Require Import base list numbers gmap.
From Stdlib Require Import ZArith Lia.

Local Open Scope Z_scope.
Local Open Scope go_scope.

Module QRun.
Import Varint Recv QStream QFlow QOut QWake QConn QStep.

Section Config.
Context (W CW MI MIU : Z) (pp : option peerLimits).
Local Notation inv := (inv W CW MI MIU).

(** ** Filling a packet *)

(** What the application gets of a stream, and what that depends on. *)
Definition view (s : stream) : recvBuffer * (bool * bool * bool) * (Z * Z) := (recv (rs s), (recvDone (rs s), peerReset (rs s), stopSent (rs s)), (recvFin (rs s), recvHigh (rs s))).

(** And what of it was read, and whether the stream is done. *)
Definition look (s : stream) : recvBuffer * (bool * bool * bool) * (Z * Z) * (Z * bool) := (view s, (recvRead (rs s), done s)).

Definition quiet (c c' : conn) : Prop := events c' = events c /\ forall i, look <$> streams c' !! i = look <$> streams c !! i.

Lemma quiet_refl c : quiet c c.
Proof. split; auto. Qed.

Lemma quiet_trans c1 c2 c3 : quiet c1 c2 -> quiet c2 c3 -> quiet c1 c3.
Proof. intros [H1 H2] [H3 H4]. split; [congruence|]. intros i. now rewrite H4. Qed.

Lemma quiet_put c c' i s s' : streams c !! i = Some s -> look s' = look s -> streams c' = streams c -> sid s' = i -> events c' = events c -> quiet c (put c' s').
Proof.
  intros Hi Hv Hst Hs He. split; [exact He|]. intros j. unfold put. cbn [set_streams streams]. rewrite Hst, Hs. destruct (decide (j = i)) as [->|]; [rewrite lookup_insert_eq, Hi; cbn; now rewrite Hv|now rewrite lookup_insert_ne by congruence].
Qed.

Lemma ssend_view s s' : ssend s s' -> view s' = view s.
Proof. intros Hs. exact (f_equal view Hs). Qed.

Lemma ssend_look s s' : ssend s s' -> look s' = look s.
Proof. intros Hs. exact (f_equal look Hs). Qed.

(** What one stream puts in it. *)
Lemma fill_ok n w F c id s b max :
  inv true n w F c -> CW * (n + 1) < 2 ^ 63 -> streams c !! id = Some s -> queued s = true -> done s = false -> len b <= max ->
  exists c1 s1 b1 q fs, appendFrames c s b max = Some (c1, s1, b1, q) /\ b1 = b ++ mjoin (enc <$> fs) /\ q = sentOf <$> fs /\ Forall (sound w) fs /\ (max <= 2 ^ 14 -> aligned (send (ss s)) -> len b1 <= max) /\
    let s2 := (sendable c1 s1).1 in
    inv true n w (F ++ q) (put c1 s2) /\ wants c1 s2 = (sendable c1 s1).2 /\ csend c c1 /\ sendQueue c1 = sendQueue c /\ sid s2 = id /\ (look s2 = look s /\ events c1 = events c) /\ done s1 = false.
Proof.
  intros Hinv Hn Hi Hq Hd Hb. pose proof (xok_call W CW MI MIU true n w F c id s Hinv Hi) as Hx. assert (sid s = id) as Es by exact (ci_sid _ (iv_I _ _ _ _ _ _ _ _ _ Hinv) id s Hi).
  destruct (appendFrames_ok _ _ _ _ _ b max Hx Hd Hb) as (c1 & s1 & b1 & q & fs & E & [P1 P2 P3 P4 P5] & Hlen). destruct (sending_send _ _ _ _ P5) as [Hc Hs]. pose proof (sendable_ok _ _ _ _ _ P3) as Hse. cbv zeta in Hse. destruct Hse as (Hx2 & Hs2 & Hr2 & Hq2 & Hf2 & Hd2 & Hw2 & _ & _).
  set (s2 := (sendable c1 s1).1) in *. assert (queued s2 = true) as Hqs2 by (rewrite Hq2, (f_equal queued (sg_s _ _ _ _ P5) : queued s1 = queued s); exact Hq).
  assert (reset (ss s2) = reset (ss s)) as Hre by (rewrite Hr2; exact (f_equal reset (sg_ss _ _ _ _ P5))).
  assert (Forall (fun f => forall j, mine j (sentOf f) -> j = id) fs) as Hmine. { eapply Forall_impl; [exact P4|]. intros f Hf j Hj. destruct f; cbn in *; try contradiction; destruct Hf; congruence. }
  exists c1, s1, b1, q, fs. split; [exact E|]. split; [exact P1|]. split; [exact P2|]. split; [|split; [exact Hlen|]].
  - apply List.Forall_forall. intros f Hf. rewrite List.Forall_forall in P4. specialize (P4 f Hf). destruct f as [| | | |j off data fin| | | | | | |]; try exact I. cbn in P4 |- *. destruct P4 as (-> & A1 & A2 & A3). rewrite Es in *.
    destruct (xo_flight _ _ _ _ _ P3 off (len data) fin) as (B1 & B2 & B3 & _). { apply elem_of_app. right. rewrite P2. apply list_elem_of_fmap. exists (FStream id off data fin). split; [|now apply list_elem_of_In]. cbn. f_equal. rewrite <- Es. exact (f_equal sid Hs). }
    splits; auto. intros Hfin. now apply A3.
  - cbv zeta. assert (sendQueue c1 = sendQueue c) as Eq by exact (f_equal sendQueue (sg_conn _ _ _ _ P5)). splits; auto; [|rewrite <- Es; unfold s2; rewrite (f_equal sid Hs2 : sid (sendable c1 s1).1 = sid s1); exact (f_equal sid Hs)|exact (ssend_look _ _ (ssend_trans _ _ _ Hs Hs2))|exact (f_equal events (sg_conn _ _ _ _ P5))|exact (eq_trans (f_equal done Hs) Hd)].
    apply (inv_same _ _ _ _ _ _ _ _ _ id). refine (inv_sending W CW MI MIU true n w _ F _ c id s c1 s2 Hinv Hn Hi Hc (ssend_trans _ _ _ Hs Hs2) (sg_sent _ _ _ _ P5) Hx2 _ _ _ _).
    + intros j f Hj Hf. rewrite elem_of_app. split; [tauto|]. intros [|Hin]; [assumption|]. rewrite P2 in Hin. apply list_elem_of_fmap in Hin as (g & -> & Hg). rewrite List.Forall_forall in Hmine. destruct Hj. apply (Hmine g); [now apply list_elem_of_In|exact Hf].
    + rewrite Hre. intros Hin. apply elem_of_app in Hin as [Hin|Hin]; [exact (cx_resets _ _ _ (iv_X _ _ _ _ _ _ _ _ _ Hinv) id s Hi Hin)|]. rewrite P2 in Hin. apply list_elem_of_fmap in Hin as (g & Eg & Hg). rewrite List.Forall_forall in P4. apply list_elem_of_In in Hg. specialize (P4 g Hg). destruct g; try discriminate. cbn in P4. tauto.
    + apply rung_still; [exact (f_equal sid (ssend_trans _ _ _ Hs Hs2))|congruence|exact Eq|rewrite (f_equal done (ssend_trans _ _ _ Hs Hs2) : done s2 = done s); auto|]. rewrite Hf2. unfold flags. destruct (sg_flags _ _ _ _ P5) as [G1 G2]. rewrite !orb_true_iff. tauto.
    + intros _ _ _. exact Hqs2.
Qed.

(** A queued stream is one there is. *)
Lemma queue_stream n w F c k id : inv true n w F c -> sendQueue c !! k = Some id -> exists s, streams c !! id = Some s /\ queued s = true /\ sid s = id.
Proof.
  intros Hinv Hk. destruct (cq_in _ _ (iv_Q _ _ _ _ _ _ _ _ _ Hinv) id) as [H _]. destruct H as (s & Hs & Hq); [now apply list_elem_of_lookup_2 in Hk|]. exists s. splits; auto. exact (ci_sid _ (iv_I _ _ _ _ _ _ _ _ _ Hinv) id s Hs).
Qed.

(** One off the queue. *)
Lemma drop_removed {A} k (x : A) l : l !! k = Some x -> drop k (take k l ++ drop (S k) l) = drop (S k) l /\ (length (take k l ++ drop (S k) l) = length l - 1)%nat.
Proof.
  intros Hk. pose proof (lookup_lt_Some _ _ _ Hk). split; [rewrite drop_app_length'; [reflexivity|rewrite length_take; lia]|]. rewrite length_app, length_take, length_drop. lia.
Qed.

(** The frames of the loop, from the [i]th stream on. *)
Record filled (n : Z) (w : Z -> bytes) (F : list sentFrame) (c c' : conn) (i : nat) (b b' : bytes) (max : Z) (q : list sentFrame) : Prop := {
  fi_inv : inv true n w (F ++ q) c';
  fi_frames : exists fs, b' = b ++ mjoin (enc <$> fs) /\ q = sentOf <$> fs /\ Forall (sound w) fs;
  fi_bound : len b <= max -> max <= 2 ^ 14 -> (forall id s, id ∈ drop i (sendQueue c) -> streams c !! id = Some s -> aligned (send (ss s))) -> len b' <= max;
  fi_quiet : quiet c c'
}.

(** A stream's turn, and the turns after it. *)
Lemma filled_cons n w F c c1 c' i i1 id b b1 b' max q1 q2 fs :
  drop i (sendQueue c) = id :: drop i1 (sendQueue c1) -> id ∉ drop i1 (sendQueue c1) -> (forall j, j <> id -> streams c1 !! j = streams c !! j) -> quiet c c1 ->
  b1 = b ++ mjoin (enc <$> fs) -> q1 = sentOf <$> fs -> Forall (sound w) fs -> (max <= 2 ^ 14 -> len b <= max -> (forall s, streams c !! id = Some s -> aligned (send (ss s))) -> len b1 <= max) ->
  filled n w (F ++ q1) c1 c' i1 b1 b' max q2 -> filled n w F c c' i b b' max (q1 ++ q2).
Proof.
  intros Ed Hnin Hst Hq -> -> Hfs Hb [A1 (gs & -> & -> & Hgs) A3 A4]. split.
  - now rewrite app_assoc.
  - exists (fs ++ gs). rewrite fmap_app, fmap_app, join_app, app_assoc. splits; auto. now apply Forall_app.
  - intros Hl Hm Hal. apply A3; auto.
    + apply Hb; auto. intros s Hs. apply (Hal id s); [rewrite Ed; apply elem_of_cons; now left|exact Hs].
    + intros j t Hj Ht. assert (j <> id) as Hne by congruence. rewrite Hst in Ht by exact Hne. apply (Hal j t); [rewrite Ed; apply elem_of_cons; now right|exact Ht].
  - exact (quiet_trans _ _ _ Hq A4).
Qed.

(** The loop ends, and every frame of it is a stream's own. *)
Lemma streamsLoop_ok fuel n w F c i b max p :
  inv true n w F c -> CW * (n + 1) < 2 ^ 63 -> (length (sendQueue c) - i < fuel)%nat ->
  exists c' i' b' q, streamsLoop fuel c i b max p = Some (c', i', b', p ++ q) /\ filled n w F c c' i b b' max q.
Proof.
  revert F c i b p. induction fuel as [|fuel IH]; intros F c i b p Hinv Hn Hfuel; [lia|]. cbn [streamsLoop].
  assert (filled n w F c c i b b max []) as Hstop by (split; [now rewrite app_nil_r|exists []; cbn; rewrite app_nil_r; auto|auto|apply quiet_refl]).
  destruct (sendQueue c !! i) as [id|] eqn:Hk; [|exists c, i, b, []; rewrite app_nil_r; auto]. destruct (Z.leb_spec (max - len b) 16) as [_|Hroom]; [exists c, i, b, []; rewrite app_nil_r; auto|].
  destruct (queue_stream _ _ _ _ _ _ Hinv Hk) as (s & Hi & Hqs & Es). rewrite Hi. pose proof (lookup_lt_Some _ _ _ Hk) as Hlt. destruct (drop_removed _ _ _ Hk) as [Ed El].
  assert (drop i (sendQueue c) = id :: drop (S i) (sendQueue c)) as Edr by now apply drop_S.
  assert (id ∉ drop (S i) (sendQueue c)) as Hnin. { pose proof (cq_nodup _ _ (iv_Q _ _ _ _ _ _ _ _ _ Hinv)) as Hnd. rewrite <- (take_drop i (sendQueue c)), Edr in Hnd. apply NoDup_app in Hnd as (_ & _ & Hnd). now apply NoDup_cons in Hnd as [? _]. }
  destruct (done s) eqn:Edone.
  - rewrite Edone. pose proof (inv_dequeue W CW MI MIU n w F c i id s Hinv Hn Hk Hi (or_introl Edone)) as H1. cbn [sendQueue put set_streams] in *. rewrite app_nil_r.
    match goal with |- context [streamsLoop fuel ?x i] => set (c1 := x) in * end. destruct (IH F c1 i b p H1 Hn) as (c' & i' & b' & q & -> & Hf); [cbn; rewrite El; lia|]. exists c', i', b', q. split; [reflexivity|].
    apply (filled_cons n w F c c1 c' i i id b b b' max [] q []); cbn [c1 sendQueue set_sendQueue]; rewrite ?Ed, ?app_nil_r; auto.
    + intros j Hj. cbn. rewrite Es. now rewrite lookup_insert_ne by congruence.
    + now apply (quiet_put c c id s (st_queued s false)).
  - destruct (fill_ok n w F c id s b max Hinv Hn Hi Hqs Edone ltac:(lia)) as (c1 & s1 & b1 & q & fs & -> & B1 & B2 & B3 & B4 & Hinv2 & Hw2 & Hcs & Eq & Es2 & Hview & Ed1). rewrite Ed1. destruct (csend_facts _ _ Hcs) as (Est & _).
    rewrite (surjective_pairing (sendable c1 s1)). set (s2 := (sendable c1 s1).1) in *. assert (streams (put c1 s2) !! id = Some s2) as Hi2 by (cbn; now rewrite Es2, lookup_insert_eq).
    assert (quiet c (put c1 s2)) as Hq1 by (apply (quiet_put c c1 id s s2); auto; apply Hview).
    assert (forall t j, j <> id -> sid t = id -> streams (put (put c1 s2) t) !! j = streams c !! j /\ streams (put c1 s2) !! j = streams c !! j) as Hoth by (intros t j Hj Ht; cbn; rewrite Ht, Es2, Est, !lookup_insert_ne by congruence; auto).
    assert (max <= 2 ^ 14 -> len b <= max -> (forall t, streams c !! id = Some t -> aligned (send (ss t))) -> len b1 <= max) as Hbnd by (intros; apply B4; auto).
    destruct (sendable c1 s1).2 eqn:Emore.
    + destruct (IH (F ++ q) (put c1 s2) (S i) b1 (p ++ q) Hinv2 Hn) as (c' & i' & b' & q' & -> & Hf); [cbn; rewrite Eq; lia|]. rewrite <- app_assoc. exists c', i', b', (q ++ q'). split; [reflexivity|].
      apply (filled_cons n w F c (put c1 s2) c' i (S i) id b b1 b' max q q' fs); cbn [put set_streams sendQueue]; rewrite ?Eq; auto. intros j Hj. now apply (Hoth s2).
    + assert (sendQueue (put c1 s2) !! i = Some id) as Hk2 by (cbn; now rewrite Eq). pose proof (inv_dequeue W CW MI MIU n w (F ++ q) (put c1 s2) i id s2 Hinv2 Hn Hk2 Hi2) as H3. assert (wants (put c1 s2) s2 = false) as Hwf by (rewrite <- Hw2, !wants_split; reflexivity). specialize (H3 (or_intror Hwf)).
      assert (put (put c1 s2) (st_queued s2 false) = put c1 (st_queued s2 false)) as Epp by (unfold put; cbn; now rewrite insert_insert_eq). rewrite Epp in H3. cbn [put set_streams sendQueue] in H3 |- *.
      match goal with |- context [streamsLoop fuel ?x i] => set (c2 := x) in * end. destruct (IH (F ++ q) c2 i b1 (p ++ q) H3 Hn) as (c' & i' & b' & q' & -> & Hf); [cbn; rewrite Eq, El; lia|]. rewrite <- app_assoc. exists c', i', b', (q ++ q'). split; [reflexivity|].
      apply (filled_cons n w F c c2 c' i i id b b1 b' max q q' fs); cbn [c2 sendQueue set_sendQueue put set_streams]; rewrite ?Eq, ?Ed; auto.
      * intros j Hj. cbn. rewrite Es2, lookup_insert_ne by congruence. now rewrite Est.
      * apply (quiet_trans _ _ _ Hq1). apply (quiet_put (put c1 s2) (put c1 s2) id s2 (st_queued s2 false)) in Hi2 as Hq2; auto. rewrite Epp in Hq2. exact Hq2.
Qed.

Lemma inv_rotate n w F c first rest : inv true n w F c -> sendQueue c = first :: rest -> inv true n w F (set_sendQueue c (rest ++ [first])).
Proof.
  intros [[R1 R2 R3 R4 R5 R6] [I1 I2 I3] [X1 X2 X3 X4 X5] [Q1 Q2 Q3]] Eq. assert (rest ++ [first] ≡ₚ sendQueue c) as Hp by (rewrite Eq; symmetry; apply Permutation_cons_append). split; split; auto.
  - intros i s Hi. destruct (X1 i s Hi). now split.
  - cbn [set_sendQueue sendQueue]. now rewrite Hp.
  - intros i. cbn [set_sendQueue sendQueue]. rewrite Hp. apply Q2.
Qed.

(** Every stream that has something to send has its turn. *)
Lemma appendStreams_ok n w F c b max :
  inv true n w F c -> CW * (n + 1) < 2 ^ 63 -> exists c' b' q, appendStreams c b max = Some (c', b', q) /\ filled n w F c c' 0 b b' max q.
Proof.
  intros Hinv Hn. unfold appendStreams. destruct (streamsLoop_ok (S (length (sendQueue c))) n w F c 0 b max [] Hinv Hn) as (c' & i' & b' & q & -> & Hf); [lia|]. cbn [app].
  destruct (sendQueue c') as [|first [|second rest]] eqn:Eq; [eauto 6..|]. destruct (0 <? i')%nat; [|eauto 6]. eexists _, _, _. split; [reflexivity|]. destruct Hf as [A1 A2 A3 [A4 A5]]. split; auto; [|now split]. now apply inv_rotate.
Qed.

(** ** The limits given and met *)

Lemma inv_more a n w F p c : inv a n w F c -> Forall (fun f => forall i, ~ mine i f) p -> inv a n w (F ++ p) c.
Proof.
  intros [HR HI [X1 X2 X3 X4 X5] HQ] Hp. rewrite List.Forall_forall in Hp. assert (forall f i, mine i f -> (f ∈ F <-> f ∈ F ++ p)) as HF. { intros f i Hf. rewrite elem_of_app. split; [tauto|]. intros [|Hin]; [assumption|]. apply list_elem_of_In in Hin. now destruct (Hp f Hin i). }
  split; auto. split; auto.
  - intros i s Hi. apply (xok_other _ F _ (sentData c - nextOf s) _ c); [eauto|intros f Hf; now apply (HF f (sid s))|lia|apply (xo_sent _ _ _ _ _ (X1 i s Hi))|exact X3].
  - intros i Hi. destruct (X4 i Hi) as [H1 H2]. split; [exact H1|]. intros f Hf Hm. apply (H2 f); [now apply (HF f i)|exact Hm].
  - intros i s Hi Hin. apply (X5 i s Hi). now apply (HF (sfResetStream i) i).
Qed.

(** Frames about limits, put in a packet: nothing of the streams is different. *)
Record limits (n : Z) (w : Z -> bytes) (F : list sentFrame) (c : conn) (max : Z) (b : bytes) (r : conn * bytes * list sentFrame) : Prop := {
  li_inv : inv true n w F r.1.1;
  li_streams : streams r.1.1 = streams c /\ sendQueue r.1.1 = sendQueue c /\ events r.1.1 = events c;
  li_frames : Forall (fun f => forall i, ~ mine i f) r.2;
  li_bytes : exists x, r.1.2 = b ++ x;
  li_bound : len b <= max -> len r.1.2 <= max
}.

Lemma limits_put n w F c max b c0 b0 p (g : bool) c1 c2 t v f :
  limits n w F c max b (c0, b0, p) -> (g = true -> len b0 + (1 + VarintLen v) <= max) -> (forall i, ~ mine i f) ->
  streams c1 = streams c0 /\ sendQueue c1 = sendQueue c0 /\ events c1 = events c0 -> streams c2 = streams c0 /\ sendQueue c2 = sendQueue c0 /\ events c2 = events c0 ->
  (inv true n w F c0 -> inv true n w F c1) -> (inv true n w F c0 -> inv true n w F c2) -> (g = true -> 0 <= v < 2 ^ 62) ->
  limits n w F c max b (if g then (c1, AppendVarint (b0 ++ [t]) v, p ++ [f]) else (c2, b0, p)).
Proof.
  intros [A1 (A2 & A3 & A4) A5 (x & A6) A7] Hg Hf (E1 & E2 & E3) (E4 & E5 & E6) Hi1 Hi2 Hv. cbn [fst snd] in *. destruct g; split; cbn [fst snd]; auto; try (splits; congruence).
  - apply Forall_app. split; [exact A5|]. now apply Forall_singleton.
  - rewrite AppendVarint_app, A6. exists (x ++ [t] ++ AppendVarint [] v). now rewrite <- !app_assoc.
  - intros _. rewrite AppendVarint_app, len_app, len_app. destruct (ReadVarint_AppendVarint v [] (Hv eq_refl)) as [-> _]. change (len [t]) with 1. specialize (Hg eq_refl). lia.
  - eauto.
Qed.

Lemma inv_ownT n w F c c' :
  streams c' = streams c -> isClient c' = isClient c -> sendQueue c' = sendQueue c -> recvData c' = recvData c -> recvConsumed c' = recvConsumed c -> recvMaxData c' = recvMaxData c ->
  sentData c' = sentData c -> peerMaxData c' = peerMaxData c -> (forall b, exists r, allowanceOf c' b = al_a_blocked (allowanceOf c b) r) -> (forall b, exists x, quotaOf c' b = qt_q_pending (quotaOf c b) x) ->
  inv true n w F c -> inv true n w F c'.
Proof. intros. apply (inv_own W CW MI MIU true n w F c); auto; intros b; [destruct (H7 b) as [r ->]|destruct (H8 b) as [x ->]]; auto. Qed.

Lemma allowance_same x : x = al_a_blocked x (a_blocked x).
Proof. now destruct x. Qed.

Lemma quota_kept x : x = qt_q_pending x (q_pending x).
Proof. now destruct x. Qed.

Ltac kept := apply inv_ownT; try reflexivity; try (match goal with b : bool |- _ => now destruct b end); intros b'; repeat (match goal with b : bool |- _ => destruct b end); eexists; solve [reflexivity|apply allowance_same|apply quota_kept].

Lemma appendMaxStreams_ok n w F c max b bidi r : limits n w F c max b r -> limits n w F c max b (appendMaxStreams max bidi r).
Proof.
  destruct r as [[c0 b0] p]. intros H. unfold appendMaxStreams. pose proof (cr_quota _ _ _ _ _ _ (iv_R _ _ _ _ _ _ _ _ _ (li_inv _ _ _ _ _ _ _ H)) bidi) as [Q1 Q2 Q3 Q4]. cbn [fst] in *.
  apply (limits_put n w F c max b c0 b0 p); auto; try (now destruct bidi); [intros E; apply andb_true_iff in E as [_ E]; lia|kept|lia].
Qed.

Lemma armed_at r l : (armed r l).2 = true -> b_at (armed r l).1 = l.
Proof. unfold armed. destruct (negb (b_pending r)); [discriminate|]. destruct (negb (b_at r =? l)) eqn:E; [discriminate|]. cbn. intros _. apply negb_false_iff in E. lia. Qed.

Lemma appendStreamsBlocked_ok n w F c max b bidi r : limits n w F c max b r -> limits n w F c max b (appendStreamsBlocked max bidi r).
Proof.
  destruct r as [[c0 b0] p]. intros H. unfold appendStreamsBlocked. pose proof (ci_own _ (iv_I _ _ _ _ _ _ _ _ _ (li_inv _ _ _ _ _ _ _ H)) bidi) as [Q1 Q2]. cbn [fst] in *. pose proof (armed_at (a_blocked (allowanceOf c0 bidi)) (a_max (allowanceOf c0 bidi))) as Hat. destruct (armed _ _) as [x go]. cbn [fst snd] in Hat.
  apply (limits_put n w F c max b c0 b0 p); auto; try (now destruct bidi); [intros E; apply andb_true_iff in E as [_ E]; lia|kept|kept|]. intros E. apply andb_true_iff in E as [E _]. rewrite (Hat E). lia.
Qed.

Lemma limits_refl n w F c max b : inv true n w F c -> limits n w F c max b (c, b, []).
Proof. intros H. split; cbn; auto. exists []. now rewrite app_nil_r. Qed.

Lemma appendCredit_ok n w F c max b : inv true n w F c -> CW * (n + 1) < 2 ^ 62 -> limits n w F c max b (appendCredit c b max).
Proof.
  intros Hinv Hn. unfold appendCredit. apply appendMaxStreams_ok, appendMaxStreams_ok. pose proof (iv_R _ _ _ _ _ _ _ _ _ Hinv) as HR. destruct (cr_n _ _ _ _ _ _ HR) as (H1 & H2 & H3). pose proof (cr_max _ _ _ _ _ _ HR) as H4.
  assert (0 <= recvConsumed c <= recvData c). { rewrite (cr_cons _ _ _ _ _ _ HR), (cr_data _ _ _ _ _ _ HR). split; [apply total_nonneg|apply total_le]; intros i s Hi; pose proof (ro_read _ _ (cr_rok _ _ _ _ _ _ HR i s Hi)); unfold readTo, high; lia. }
  apply (limits_put n w F c max b c b []); auto; [now apply limits_refl|intros E; apply andb_true_iff in E as [_ E]; lia|kept|lia].
Qed.

Lemma appendBlocked_ok n w F c max b : inv true n w F c -> limits n w F c max b (appendBlocked c b max).
Proof.
  intros Hinv. unfold appendBlocked. pose proof (armed_at (dataBlocked c) (peerMaxData c)) as Hat. destruct (armed _ _) as [x go]. cbn [fst snd] in Hat. apply appendStreamsBlocked_ok, appendStreamsBlocked_ok.
  pose proof (iv_X _ _ _ _ _ _ _ _ _ Hinv) as HX. pose proof (cx_peer _ _ _ HX). assert (0 <= sentData c) by (rewrite (cx_sent _ _ _ HX); apply total_nonneg; intros i s Hi; apply (xo_max _ _ _ _ _ (cx_xok _ _ _ HX i s Hi))).
  apply (limits_put n w F c max b c b []); auto; [now apply limits_refl|intros E; apply andb_true_iff in E as [_ E]; lia|kept|kept|]. intros E. apply andb_true_iff in E as [E _]. rewrite (Hat E). lia.
Qed.

(** The frames of a packet: the streams' own, with the limits around them. *)
Lemma appendPacket_ok n w F c b max :
  inv true n w F c -> CW * (n + 1) < 2 ^ 62 ->
  exists c' b' q, appendPacket c b max = Some (c', b', q) /\ inv true n w (F ++ q) c' /\ quiet c c' /\
    (exists x fs y, b' = b ++ x ++ mjoin (enc <$> fs) ++ y /\ Forall (sound w) fs /\ (forall id off k fin, sfStream id off k fin ∈ q -> sfStream id off k fin ∈ sentOf <$> fs)) /\
    (len b <= max -> max <= 2 ^ 14 -> (forall id s, id ∈ sendQueue c -> streams c !! id = Some s -> aligned (send (ss s))) -> len b' <= max).
Proof.
  intros Hinv Hn. unfold appendPacket. destruct (appendCredit_ok n w F c max b Hinv Hn) as [A1 (A2 & A3 & A4) A5 (xa & A6) A7]. destruct (appendCredit c b max) as [[c1 b1] p]. cbn [fst snd] in *.
  destruct (appendBlocked_ok n w F c1 max b1 A1) as [B1 (B2 & B3 & B4) B5 (xb & B6) B7]. destruct (appendBlocked c1 b1 max) as [[c2 b2] q]. cbn [fst snd] in *.
  destruct (appendStreams_ok n w (F ++ p ++ q) c2 b2 max) as (c3 & b3 & r & -> & [C1 (fs & C2 & C3 & C4) C5 [C6 C7]]); [apply inv_more; [exact B1|now apply Forall_app]|lia|].
  assert (exists c4 b4 u, (if b_pending (dataBlocked c3) then appendBlocked c3 b3 max else (c3, b3, [])) = (c4, b4, u) /\ limits n w ((F ++ p ++ q) ++ r) c3 max b3 (c4, b4, u)) as (c4 & b4 & u & -> & [D1 (D2 & D3 & D4) D5 (xd & D6) D7]).
  { destruct (b_pending _); [|exists c3, b3, []; split; [reflexivity|now apply limits_refl]]. pose proof (appendBlocked_ok n w _ c3 max b3 C1) as H. destruct (appendBlocked c3 b3 max) as [[c4 b4] u]. eauto. }
  cbn [fst snd] in *. exists c4, b4, (p ++ q ++ r ++ u). split; [reflexivity|]. splits.
  - replace (F ++ p ++ q ++ r ++ u) with (((F ++ p ++ q) ++ r) ++ u) by now rewrite <- !app_assoc. now apply inv_more.
  - split; [congruence|]. intros i. now rewrite D2, C7, B2, A2.
  - exists (xa ++ xb), fs, xd. split; [rewrite D6, C2, B6, A6; now rewrite <- !app_assoc|]. split; [exact C4|]. intros id off k fin Hin. rewrite <- C3. rewrite List.Forall_forall in A5, B5, D5.
    apply elem_of_app in Hin as [Hin|Hin]; [apply list_elem_of_In in Hin; now destruct (A5 _ Hin id)|]. apply elem_of_app in Hin as [Hin|Hin]; [apply list_elem_of_In in Hin; now destruct (B5 _ Hin id)|].
    apply elem_of_app in Hin as [Hin|Hin]; [exact Hin|]. apply list_elem_of_In in Hin. now destruct (D5 _ Hin id).
  - intros Hb Hm Hal. apply D7, C5; auto. cbn [drop]. rewrite B3, A3, B2, A2. exact Hal.
Qed.

(** ** A connection, run *)

(** A connection and the packets it has sent that were neither acknowledged nor
    given up for lost; and what the application wrote to each stream, for the
    statements. *)
Record sys : Type := mkSys { sy_conn : conn; sy_flight : list (list sentFrame); sy_written : Z -> bytes }.

Inductive op : Type :=
  | Packet (payload : bytes)
  | Open (bidi : bool)
  | Write (id : Z) (p : bytes) (fin owned : bool)
  | WriteParts (id : Z) (parts : list Send.Part) (fin : bool)
  | Reset (id code : Z)
  | StopSending (id code : Z)
  | ResetForPeerError (id code : Z)
  | HoldCredit_ (id : Z)
  | Credit_ (id n : Z)
  | Flush (max : Z) (early : bool)
  | Acked (k : nat)
  | Lost (k : nat)
  | Probed (k : nat).

(** A new connection, with the limits of the peer's parameters and the answers of
    the budgets. *)
Definition newConn (cl : bool) (maxData maxBidi maxUni : Z) (resets glitches : list bool) : conn :=
  mkConn cl false ∅ [] [] 0 CW 0 false 0 0 maxData notBlocked (mkQuota MI 0 0 false 0) (mkQuota MIU 0 0 false 0) (mkAllowance 0 maxBidi notBlocked) (mkAllowance 0 maxUni notBlocked) resets glitches.

Definition withConn (y : sys) (c : conn) : sys := mkSys c (sy_flight y) (sy_written y).
Definition wrote_to (w : Z -> bytes) (id : Z) (p : bytes) (j : Z) : bytes := if decide (j = id) then w id ++ p else w j.

(** A write, when there is the stream and it takes it. *)
Definition writeTo (y : sys) (id : Z) (p : bytes) (f : conn -> stream -> conn * stream * bool) : sys :=
  match streams (sy_conn y) !! id with
  | None => y
  | Some s => match f (sy_conn y) s with (c, s, true) => mkSys (put c s) (sy_flight y) (wrote_to (sy_written y) id p) | (c, s, false) => withConn y (put c s) end
  end.

Definition resetForPeerError (c : conn) (id code : Z) : conn * bool :=
  let c := on c id (fun c s => stopSendingLocked c s code) in
  let c := on c id (fun c s => resetLocked c s code) in
  match streams c !! id with Some s => let '(c, s, ok) := resetCounted c s in (put c s, ok) | None => (c, true) end.

Definition resetStream (c : conn) (id code : Z) : conn := if closed c then c else on c id (fun c s => resetLocked c s code).
Definition stopStream (c : conn) (id code : Z) : conn := if closed c then c else on c id (fun c s => stopSendingLocked c s code).

(** The frames of a packet that is heard of. *)
Definition packetAcked (c : conn) (q : list sentFrame) : conn := foldl (frameAcked MI MIU) c q.
Definition packetLost (c : conn) (q : list sentFrame) : conn := foldl frameLost c q.

(** The frames of a packet: of early data, of the streams only. *)
Definition fillPacket (c : conn) (max : Z) (early : bool) : option (conn * bytes * list sentFrame) := if early then appendStreams c [] max else appendPacket c [] max.

Lemma fillPacket_ok n w F c max early : inv true n w F c -> CW * (n + 1) < 2 ^ 62 -> exists c' b q, fillPacket c max early = Some (c', b, q) /\ inv true n w (F ++ q) c' /\ quiet c c'.
Proof.
  intros Hinv Hn. unfold fillPacket. destruct early.
  - destruct (appendStreams_ok n w F c [] max Hinv ltac:(lia)) as (c' & b & q & E & [A1 _ _ A4]). eauto 6.
  - destruct (appendPacket_ok n w F c [] max Hinv Hn) as (c' & b & q & E & A1 & A2 & _). eauto 6.
Qed.

(** A step, and whether the connection goes on after it. *)
Definition step (y : sys) (o : op) : option (sys * bool) :=
  let c := sy_conn y in
  let same c := Some (withConn y c, true) in
  match o with
  | Packet payload => match handleFrames W CW MI MIU pp c payload with None => None | Some (c, r) => Some (withConn y c, match r with Handled _ => true | _ => false end) end
  | Open bidi => same (openStreamLocked W pp c bidi).1
  | Write id p fin owned => Some (writeTo y id p (fun c s => writeLocked c s p fin owned), true)
  | WriteParts id parts fin => Some (writeTo y id (mjoin (Send.Data <$> parts)) (fun c s => writePartsLocked c s parts fin), true)
  | Reset id code => same (resetStream c id code)
  | StopSending id code => same (stopStream c id code)
  | ResetForPeerError id code => if closed c then same c else let '(c, ok) := resetForPeerError c id code in Some (withConn y c, ok)
  | HoldCredit_ id => same (on c id (fun c s => (c, HoldCredit s)))
  | Credit_ id n => same (on c id (fun c s => Credit W CW c s n))
  | Flush max early => match fillPacket c max early with None => None | Some (c, _, q) => Some (mkSys c (sy_flight y ++ [q]) (sy_written y), true) end
  | Acked k => match sy_flight y !! k with Some q => Some (mkSys (packetAcked c q) (delete k (sy_flight y)) (sy_written y), true) | None => Some (y, true) end
  | Lost k => match sy_flight y !! k with Some q => Some (mkSys (packetLost c q) (delete k (sy_flight y)) (sy_written y), true) | None => Some (y, true) end
  | Probed k => match sy_flight y !! k with Some q => same (packetLost c q) | None => Some (y, true) end
  end.

(** The steps up to the one the connection ends with, if it does. *)
Fixpoint run (y : sys) (ops : list op) : option (sys * bool) :=
  match ops with
  | [] => Some (y, true)
  | o :: ops => match step y o with None => None | Some (y, false) => Some (y, false) | Some (y, true) => run y ops end
  end.

(** What the steps are given: bytes, codes a frame can hold, and so much of it in all. *)
Definition got (o : op) : Z := match o with Packet payload => len payload | _ => 0 end.
Definition gave (o : op) : Z := match o with Write _ p _ _ => len p | WriteParts _ parts _ => len (mjoin (Send.Data <$> parts)) | _ => 0 end.
Definition op_ok (o : op) : Prop :=
  match o with
  | Packet payload => bytes_ok payload /\ len payload < 2 ^ 62
  | Reset _ code | StopSending _ code | ResetForPeerError _ code => 0 <= code < 2 ^ 62
  | Credit_ _ n => n < 2 ^ 63
  | _ => True
  end.
Definition sumOf (f : op -> Z) (ops : list op) : Z := foldr (fun o n => f o + n) 0 ops.

Definition flight (y : sys) : list sentFrame := mjoin (sy_flight y).

(** The promises, after [n] bytes of packets and [m] of writes. *)
Record good (n m : Z) (y : sys) : Prop := {
  gd_inv : inv true n (sy_written y) (flight y) (sy_conn y);
  gd_written : forall i, len (sy_written y i) <= m
}.

(** ** The promises are kept *)

Section Kept.
Context (n : Z) (w : Z -> bytes) (Hn : CW * (n + 1) < 2 ^ 62).

Lemma acks_ok q F1 F2 c : inv true n w (F1 ++ q ++ F2) c -> inv true n w (F1 ++ F2) (foldl (frameAcked MI MIU) c q).
Proof. revert c. induction q as [|f q IH]; intros c H; [exact H|]. cbn [foldl]. apply IH. exact (inv_acked W CW MI MIU n w F1 (q ++ F2) c ltac:(lia) f H). Qed.

Lemma losses_ok q F1 F2 c : inv true n w (F1 ++ q ++ F2) c -> inv true n w (F1 ++ F2) (foldl frameLost c q).
Proof. revert c. induction q as [|f q IH]; intros c H; [exact H|]. cbn [foldl]. apply IH. cbn [app] in H. pose proof (inv_lost W CW MI MIU n w F1 (q ++ F2) c ltac:(lia) true f H) as H1. exact H1. Qed.

Lemma probes_ok q F1 F2 c : inv true n w (F1 ++ q ++ F2) c -> inv true n w (F1 ++ q ++ F2) (foldl frameLost c q).
Proof.
  revert c F1. induction q as [|f q IH]; intros c F1 H; [exact H|]. cbn [foldl]. cbn [app] in *. pose proof (inv_lost W CW MI MIU n w F1 (q ++ F2) c ltac:(lia) false f H) as H1. cbn in H1.
  replace (F1 ++ f :: q ++ F2) with ((F1 ++ [f]) ++ q ++ F2) in * by now rewrite <- app_assoc. now apply IH.
Qed.

Lemma on_ok F c id h : inv true n w F c -> (forall s, streams c !! id = Some s -> let '(c', s') := h c s in inv true n w F (put c' s')) -> inv true n w F (on c id h).
Proof. intros H Hh. unfold on. destruct (streams c !! id) as [s|]; [|exact H]. specialize (Hh s eq_refl). destruct (h c s) as [c' s']. exact Hh. Qed.

Lemma resetForPeerError_ok F c id code : inv true n w F c -> 0 <= code < 2 ^ 62 -> inv true n w F (resetForPeerError c id code).1.
Proof.
  intros H Hcode. unfold resetForPeerError. set (c1 := on c id (fun c s => stopSendingLocked c s code)). assert (inv true n w F c1) as H1 by (apply on_ok; auto; intros s Hs; apply (inv_stopSending W CW MI MIU true n w F c id s); auto; lia).
  set (c2 := on c1 id (fun c s => resetLocked c s code)). assert (inv true n w F c2) as H2 by (apply on_ok; auto; intros s Hs; apply (inv_resetLocked W CW MI MIU true n w F c1 id s); auto; lia).
  destruct (streams c2 !! id) as [s|] eqn:Es; [|exact H2]. pose proof (inv_resetCounted W CW MI MIU true n w F c2 id s H2 ltac:(lia) Es) as H3. destruct (resetCounted c2 s) as [[c3 s3] ok]. exact H3.
Qed.

(** Writing. *)
Lemma writeTo_ok m y id p f :
  good n m y -> w = sy_written y -> m + len p < 2 ^ 62 ->
  (forall c s, f c s = (c, s, false) \/ exists buf fin, unwritable c s = false /\ wrote (send (ss s)) buf p /\ f c s = (written c s buf fin, true)) -> good n (m + len p) (writeTo y id p f).
Proof.
  intros [H1 H2] Ew Hm Hf. pose proof (len_nonneg p). subst w. unfold writeTo. destruct (streams (sy_conn y) !! id) as [s|] eqn:Es; [|split; [exact H1|intros i; specialize (H2 i); lia]].
  destruct (Hf (sy_conn y) s) as [->|(buf & fin & Hu & Hb & ->)].
  - split; [|intros i; cbn; specialize (H2 i); lia]. cbn. assert (put (sy_conn y) s = sy_conn y) as ->; [|exact H1]. unfold put. rewrite (ci_sid _ (iv_I _ _ _ _ _ _ _ _ _ H1) id s Es). rewrite insert_id by exact Es. now destruct (sy_conn y).
  - pose proof (inv_written W CW MI MIU true n (sy_written y) (flight y) (sy_conn y) id s H1 ltac:(lia) Es buf p fin Hu Hb) as Hw. destruct (written (sy_conn y) s buf fin) as [c' s']. split; cbn [sy_conn sy_written].
    + apply Hw. rewrite len_app. specialize (H2 id). lia.
    + intros i. unfold wrote_to. case_decide; [rewrite len_app|]; [specialize (H2 id)|specialize (H2 i)]; lia.
Qed.

Lemma flight_split y k q : sy_flight y !! k = Some q -> flight y = mjoin (take k (sy_flight y)) ++ q ++ mjoin (drop (S k) (sy_flight y)) /\ mjoin (delete k (sy_flight y)) = mjoin (take k (sy_flight y)) ++ mjoin (drop (S k) (sy_flight y)).
Proof. intros Hk. unfold flight. split; [rewrite <- (take_drop_middle _ _ _ Hk) at 1|rewrite delete_take_drop]; now rewrite join_app. Qed.

End Kept.

Lemma inv_more_n n n' w F c : n <= n' -> inv true n w F c -> inv true n' w F c.
Proof. apply inv_weaken. Qed.

(** Every step is taken, and keeps the promises while the connection goes on. *)
Lemma step_good n m y o :
  pp_ok pp -> 0 <= W <= 2 ^ 62 -> good n m y -> op_ok o -> CW * (n + got o + 2) < 2 ^ 62 -> m + gave o < 2 ^ 62 ->
  exists y' live, step y o = Some (y', live) /\ (live = true -> good (n + got o) (m + gave o) y').
Proof.
  intros Hpp HW Hg Ho Hn Hm. pose proof Hg as [H1 H2]. assert (0 <= got o) as Hgot by (destruct o; cbn; try lia; apply len_nonneg). destruct (cr_n _ _ _ _ _ _ (iv_R _ _ _ _ _ _ _ _ _ H1)) as (_ & Hn0 & HC). assert (CW * (n + 1) < 2 ^ 62) as Hn1 by nia.
  assert (forall c, got o = 0 -> gave o = 0 -> inv true n (sy_written y) (flight y) c -> good (n + got o) (m + gave o) (withConn y c)) as Hsame by (intros c -> -> Hc; rewrite !Z.add_0_r; now split).
  destruct o as [payload|bidi|id p fin owned|id parts fin|id code|id code|id code|id|id k|max early|k|k|k]; cbn [step op_ok] in *.
  - destruct Ho as [Ho Hl]. destruct (handleFrames_ok W CW MI MIU pp n (sy_written y) (flight y) (sy_conn y) payload Hpp HW H1 Ho Hl) as (c' & r & -> & Hr); [cbn in Hn; lia|]. eexists _, _. split; [reflexivity|]. intros Hlive. destruct r as [x| |]; try discriminate. split; cbn; [exact (Hr x eq_refl)|]. intros i. specialize (H2 i). lia.
  - eexists _, _. split; [reflexivity|]. intros _. apply Hsame; auto. now apply inv_open.
  - eexists _, _. split; [reflexivity|]. intros _. rewrite Z.add_0_r. cbn [gave] in *. apply (writeTo_ok n (sy_written y)); auto. intros c s. unfold writeLocked. destruct (unwritable c s) eqn:Eu; [now left|]. right. exists (if owned then Send.adopt (send (ss s)) p else Send.write (send (ss s)) p), fin. splits; auto. destruct owned; [apply adopt_wrote|apply write_wrote].
  - eexists _, _. split; [reflexivity|]. intros _. rewrite Z.add_0_r. cbn [gave] in *. apply (writeTo_ok n (sy_written y)); auto. intros c s. unfold writePartsLocked. destruct (unwritable c s) eqn:Eu; [now left|]. right. exists (Send.writeParts (send (ss s)) parts), fin. splits; auto. apply writeParts_wrote.
  - eexists _, _. split; [reflexivity|]. intros _. apply Hsame; auto. unfold resetStream. destruct (closed _); [exact H1|]. apply on_ok; auto. intros s Hs. apply (inv_resetLocked W CW MI MIU true n _ _ _ id); auto. lia.
  - eexists _, _. split; [reflexivity|]. intros _. apply Hsame; auto. unfold stopStream. destruct (closed _); [exact H1|]. apply on_ok; auto. intros s Hs. apply (inv_stopSending W CW MI MIU true n _ _ _ id); auto. lia.
  - destruct (closed _); [eexists _, _; split; [reflexivity|]; intros _; now apply Hsame|]. pose proof (resetForPeerError_ok n (sy_written y) Hn1 (flight y) (sy_conn y) id code H1 Ho) as H3. destruct (resetForPeerError _ _ _) as [c' ok]. eexists _, _. split; [reflexivity|]. intros _. now apply Hsame.
  - eexists _, _. split; [reflexivity|]. intros _. apply Hsame; auto. apply on_ok; auto. intros s Hs. apply (inv_HoldCredit W CW MI MIU true n _ _ _ id); auto. lia.
  - eexists _, _. split; [reflexivity|]. intros _. apply Hsame; auto. apply on_ok; auto. intros s Hs. apply (inv_Credit W CW MI MIU true n _ _ _ id); auto. lia.
  - destruct (fillPacket_ok n (sy_written y) (flight y) (sy_conn y) max early H1 Hn1) as (c' & b' & q & -> & H3 & _). eexists _, _. split; [reflexivity|]. intros _. cbn [got gave]. rewrite !Z.add_0_r. split; [|exact H2]. unfold flight. cbn. rewrite join_app. cbn. now rewrite app_nil_r.
  - destruct (sy_flight y !! k) as [q|] eqn:Ek; (eexists _, _; split; [reflexivity|]; intros _; cbn [got gave]; rewrite !Z.add_0_r); [|exact Hg]. destruct (flight_split y k q Ek) as [E1 E2]. rewrite E1 in H1. split; [|exact H2]. unfold flight. cbn [sy_conn sy_written sy_flight]. rewrite E2. now apply acks_ok.
  - destruct (sy_flight y !! k) as [q|] eqn:Ek; (eexists _, _; split; [reflexivity|]; intros _; cbn [got gave]; rewrite !Z.add_0_r); [|exact Hg]. destruct (flight_split y k q Ek) as [E1 E2]. rewrite E1 in H1. split; [|exact H2]. unfold flight. cbn [sy_conn sy_written sy_flight]. rewrite E2. now apply losses_ok.
  - destruct (sy_flight y !! k) as [q|] eqn:Ek; (eexists _, _; split; [reflexivity|]; intros _; cbn [got gave]; rewrite !Z.add_0_r); [|exact Hg]. destruct (flight_split y k q Ek) as [E1 E2]. split; [|exact H2]. cbn [sy_conn sy_written withConn]. change (flight (withConn y (packetLost (sy_conn y) q))) with (flight y). rewrite E1 in H1 |- *. now apply probes_ok.
Qed.

Lemma sumOf_nonneg ops : 0 <= sumOf got ops /\ 0 <= sumOf gave ops.
Proof.
  assert (forall f, (forall o, 0 <= f o) -> 0 <= sumOf f ops) as Hpos by (intros f Hf; induction ops as [|x l IHl]; cbn; [lia|]; pose proof (Hf x); fold (sumOf f l); lia).
  split; apply Hpos; intros []; cbn; try lia; apply len_nonneg.
Qed.

(** And so do all steps. *)
Lemma run_ok ops n m y :
  pp_ok pp -> 0 <= W <= 2 ^ 62 -> good n m y -> Forall op_ok ops -> CW * (n + sumOf got ops + 2) < 2 ^ 62 -> m + sumOf gave ops < 2 ^ 62 ->
  exists y' live, run y ops = Some (y', live) /\ (live = true -> good (n + sumOf got ops) (m + sumOf gave ops) y').
Proof.
  intros Hpp HW. revert n m y. induction ops as [|o ops IH]; intros n m y Hg Ho Hn Hm; cbn [run sumOf foldr].
  - eexists _, _. split; [reflexivity|]. now rewrite !Z.add_0_r.
  - inversion Ho as [|? ? Ho1 Ho2]; subst. cbn [sumOf foldr] in *. fold (sumOf got ops) in *. fold (sumOf gave ops) in *. pose proof (sumOf_nonneg ops) as [P1 P2]. destruct (cr_n _ _ _ _ _ _ (iv_R _ _ _ _ _ _ _ _ _ (gd_inv _ _ _ Hg))) as (_ & _ & HC).
    destruct (step_good n m y o Hpp HW Hg Ho1) as (y1 & live & -> & Hy1); [nia|lia|]. destruct live; [|eexists _, _; split; [reflexivity|discriminate]].
    destruct (IH _ _ y1 (Hy1 eq_refl) Ho2) as (y' & live & -> & Hy'); [nia|lia|]. eexists _, _. split; [reflexivity|]. intros Hl. specialize (Hy' Hl). now rewrite !Z.add_assoc.
Qed.

Definition start (cl : bool) (maxData maxBidi maxUni : Z) (resets glitches : list bool) : sys := mkSys (newConn cl maxData maxBidi maxUni resets glitches) [] (fun _ => []).

(** Settings a connection can have: windows and numbers of streams that frames can
    hold, on both sides. *)
Record settings (maxData maxBidi maxUni : Z) : Prop := {
  se_window : 0 <= W <= 2 ^ 62 /\ 0 <= CW;
  se_incoming : 0 <= MI <= 2 ^ 60 /\ 0 <= MIU <= 2 ^ 60;
  se_peer : 0 <= maxData < 2 ^ 62 /\ 0 <= maxBidi <= 2 ^ 60 /\ 0 <= maxUni <= 2 ^ 60;
  se_params : pp_ok pp
}.

Lemma start_good cl maxData maxBidi maxUni rl gl : settings maxData maxBidi maxUni -> good 0 0 (start cl maxData maxBidi maxUni rl gl).
Proof.
  intros [[H1 H2] [H3 H4] (H5 & H6 & H7) H8]. split; [|intros i; reflexivity]. unfold start, flight. cbn. split; split; cbn; try (intros i s Hi; rewrite lookup_empty in Hi; discriminate); auto; try lia.
  - intros b. assert (forall f, total f (∅ : gmap Z stream) = 0) as -> by reflexivity. destruct b; constructor; cbn; lia.
  - intros b. destruct b; cbn; lia.
  - intros i _. split; [reflexivity|]. intros f Hf. inversion Hf.
  - constructor.
  - intros i. split; [intros Hi; inversion Hi|intros (s & Hs & _); rewrite lookup_empty in Hs; discriminate].
  - intros _ i s Hi. rewrite lookup_empty in Hi. discriminate.
Qed.

(** What the steps of a run may be, in all. *)
Record runnable (ops : list op) : Prop := {
  rn_ops : Forall op_ok ops;
  rn_got : CW * (sumOf got ops + 2) < 2 ^ 62;
  rn_gave : sumOf gave ops < 2 ^ 62
}.

Lemma run_good cl maxData maxBidi maxUni rl gl ops : settings maxData maxBidi maxUni -> runnable ops ->
  exists y live, run (start cl maxData maxBidi maxUni rl gl) ops = Some (y, live) /\ (live = true -> good (sumOf got ops) (sumOf gave ops) y).
Proof.
  intros Hs [H1 H2 H3]. destruct (run_ok ops 0 0 (start cl maxData maxBidi maxUni rl gl)) as (y & live & E & Hy); [apply (se_params _ _ _ Hs)|apply (se_window _ _ _ Hs)|now apply start_good|exact H1|lia|lia|]. eauto.
Qed.

(** ** What the promises say *)

(** The peer's bytes, and its streams, within the limits it was given. *)
Definition heldTo (c : conn) : Prop :=
  (forall id s, streams c !! id = Some s -> 0 <= recvRead (rs s) <= recvHigh (rs s) /\ recvHigh (rs s) <= recvMax (rs s) <= recvRead (rs s) + W) /\
  recvData c = total high (streams c) /\ recvConsumed c = total readTo (streams c) /\ recvConsumed c <= recvData c <= recvMaxData c /\ recvMaxData c <= recvConsumed c + CW /\
  forall bidi, total (counts c bidi) (streams c) <= (if bidi then MI else MIU) /\ q_opened (quotaOf c bidi) <= q_max (quotaOf c bidi) <= q_done (quotaOf c bidi) + if bidi then MI else MIU.

Lemma good_held n m y : good n m y -> heldTo (sy_conn y).
Proof.
  intros [[[R1 R2 R3 R4 R5 R6] _ _ _] _]. split; [|splits; auto; try lia].
  - intros id s Hs. destruct (R1 id s Hs). split; assumption.
  - rewrite R2, R3. apply total_le. intros i s Hs. apply (ro_read _ _ (R1 i s Hs)).
  - intros bidi. destruct (R6 bidi) as [Q1 Q2 Q3 Q4]. unfold incoming in *. lia.
Qed.

(** What is sent, within the limits the peer gave. *)
Definition keepsTo (y : sys) : Prop :=
  let c := sy_conn y in
  (forall id s, streams c !! id = Some s -> 0 <= Send.next (send (ss s)) <= sendMax (ss s) /\ Send.next (send (ss s)) <= len (sy_written y id)) /\
  sentData c = total nextOf (streams c) /\ sentData c <= peerMaxData c.

Lemma good_keeps n m y : good n m y -> keepsTo y.
Proof.
  intros [[_ _ [X1 X2 X3 X4 X5] _] _]. split; [|now split]. intros id s Hs. destruct (X1 id s Hs). split; [apply xo_max0|assumption].
Qed.

(** Nothing is left to do for a stream: it is not one to send on, or it was given up
    and the peer knows, or the peer has all that was sent of it, which is all there is,
    its end too, or all that may be; and one that is done has none of it left. *)
Definition settledStream (y : sys) (id : Z) (s : stream) : Prop :=
  let c := sy_conn y in
  hasSend (ss s) = false \/ reset (ss s) = true /\ resetAcked (ss s) = true \/
  reset (ss s) = false /\ Send.base (send (ss s)) = Send.next (send (ss s)) /\
    (Send.next (send (ss s)) = len (sy_written y id) /\ (finQueued (ss s) = true -> finAcked (ss s) = true) \/
     done s = false /\ (Send.next (send (ss s)) = sendMax (ss s) \/ sentData c = peerMaxData c)).

Lemma done_settled w F os c s : xok w F os c s -> done s = true -> hasSend (ss s) = true ->
  reset (ss s) = true /\ resetAcked (ss s) = true \/
  reset (ss s) = false /\ Send.base (send (ss s)) = Send.next (send (ss s)) /\
    (Send.next (send (ss s)) = len w /\ (finQueued (ss s) = true -> finAcked (ss s) = true) \/ true = false /\ (Send.next (send (ss s)) = sendMax (ss s) \/ sentData c = peerMaxData c)).
Proof.
  intros Hx Hd Hh. pose proof (xo_done _ _ _ _ _ Hx Hd) as Hsd. destruct (reset (ss s)) eqn:Er.
  - left. unfold sendDone in Hsd. now rewrite Hh, Er in Hsd.
  - right. destruct (complete _ _ _ _ _ Hx Hsd Hh Er) as (A & B & C & D). splits; auto; congruence.
Qed.

Lemma good_settled n m y : good n m y -> sendQueue (sy_conn y) = [] -> mjoin (sy_flight y) = [] -> forall id s, streams (sy_conn y) !! id = Some s -> settledStream y id s.
Proof.
  intros [[HR HI HX [Q1 Q2 Q3]] _] Hq Hf id s Hs. unfold settledStream. destruct (hasSend (ss s)) eqn:Eh; [right|now left]. pose proof (cx_xok _ _ _ HX id s Hs) as Hx. destruct (done s) eqn:Ed; [now apply (done_settled _ _ _ _ _ Hx)|]. unfold flight in Hx. rewrite Hf in Hx.
  assert (wants (sy_conn y) s = false) as Hw. { destruct (wants (sy_conn y) s) eqn:E; [|reflexivity]. pose proof (Q3 eq_refl id s Hs Ed E) as Hqd. assert (id ∈ sendQueue (sy_conn y)) as Hin by (apply Q2; eauto). rewrite Hq in Hin. inversion Hin. }
  rewrite wants_split, Eh in Hw. apply orb_false_iff in Hw as [Hw Hw2]. apply orb_false_iff in Hw as [_ Hrp]. destruct (reset (ss s)) eqn:Er.
  { left. split; [reflexivity|]. destruct (xo_resetrel _ _ _ _ _ Hx Er) as [E|[E|E]]; [congruence|exact E|inversion E]. }
  right. split; [reflexivity|]. cbn [negb andb] in Hw2. apply orb_false_iff in Hw2 as [Hw2 Hw3]. apply orb_false_iff in Hw2 as [_ Hl]. apply negb_false_iff, len_zero in Hl. destruct (xo_buf _ _ _ _ _ Hx Er) as [Hok He].
  destruct (Send.skipLost_spec (Send.lost (send (ss s))) 0 (Send.base (send (ss s))) (proj1 (Send.so_lost _ _ Hok))) as (_ & _ & Hsk & _). rewrite Hl in Hsk.
  assert (Send.base (send (ss s)) = Send.next (send (ss s))) as Eb.
  { destruct (Send.so_next _ _ Hok) as [Hb1 _]. destruct (Z.eq_dec (Send.base (send (ss s))) (Send.next (send (ss s)))) as [|Hne]; [assumption|exfalso]. set (x := Send.base (send (ss s))) in *.
    destruct (xo_rel _ _ _ _ _ Hx Er x ltac:(lia)) as [[Ha|Ha]|[Ha|(o & k & fi & Ha & _)]]; [lia|apply (Send.so_base _ _ Hok) in Ha; lia|apply (Hsk x ltac:(lia)) in Ha; now apply Ranges.mem_nil in Ha|inversion Ha]. }
  split; [exact Eb|]. destruct (Z.ltb_spec (Send.next (send (ss s))) (Send.end_ (send (ss s)))) as [Hlt|Hge].
  - right. split; [reflexivity|]. unfold sendCredit in Hw3. pose proof (xo_max _ _ _ _ _ Hx). pose proof (xo_conn _ _ _ _ _ Hx). destruct (Z.leb_spec (sendMax (ss s)) (Send.next (send (ss s)))); [left; lia|]. destruct (Z.leb_spec (peerMaxData (sy_conn y)) (sentData (sy_conn y))); [right; lia|]. cbn [orb] in Hw3. lia.
  - left. pose proof (xo_next _ _ _ _ _ Hx). split; [lia|]. intros Hfq. rewrite Hfq in Hw3. cbn [andb] in Hw3. apply negb_false_iff in Hw3. destruct (xo_finrel _ _ _ _ _ Hx Er Hw3) as [E|(o & k & E)]; [exact E|inversion E].
Qed.

(** A stream done: all it was written is the peer's, its end too, unless it was given
    up, which the peer then knows. *)
Definition completeStream (y : sys) (id : Z) (s : stream) : Prop :=
  done s = true -> hasSend (ss s) = true ->
  if reset (ss s) then resetAcked (ss s) = true
  else finQueued (ss s) = true /\ finAcked (ss s) = true /\ Send.base (send (ss s)) = len (sy_written y id).

Lemma good_complete n m y : good n m y -> forall id s, streams (sy_conn y) !! id = Some s -> completeStream y id s.
Proof.
  intros [[_ _ HX _] _] id s Hs Hd Hh. pose proof (cx_xok _ _ _ HX id s Hs) as Hx. pose proof (xo_done _ _ _ _ _ Hx Hd) as Hsd. destruct (reset (ss s)) eqn:Er.
  - unfold sendDone in Hsd. now rewrite Hh, Er in Hsd.
  - destruct (complete _ _ _ _ _ Hx Hsd Hh Er) as (A & B & C & D). auto.
Qed.

(** ** Properties *)

Context (cl : bool) (maxData maxBidi maxUni : Z) (rl gl : list bool).

(** C4: whatever packets a peer sends, and whatever the application does with its streams in between, every step is
    taken to its end, and while the connection goes on the peer is held to the limits it was given: on each stream to
    the limit of the stream, which is never further ahead of what was read than the window; on the connection to the
    sum of its streams; and to the number of streams open at once. No counter wraps around. *)
Theorem quic_flow_control ops :
  settings maxData maxBidi maxUni -> runnable ops ->
  exists y live, run (start cl maxData maxBidi maxUni rl gl) ops = Some (y, live) /\ (live = true -> heldTo (sy_conn y)).
Proof. intros Hs Hr. destruct (run_good cl maxData maxBidi maxUni rl gl ops Hs Hr) as (y & live & E & Hy). exists y, live. split; [exact E|]. intros Hl. exact (good_held _ _ _ (Hy Hl)). Qed.

(** And in every such run what is sent keeps to the limits the peer gave, of each stream and of the connection,
    and is what the application wrote and no more. *)
Theorem quic_send_limits ops :
  settings maxData maxBidi maxUni -> runnable ops ->
  exists y live, run (start cl maxData maxBidi maxUni rl gl) ops = Some (y, live) /\ (live = true -> keepsTo y).
Proof. intros Hs Hr. destruct (run_good cl maxData maxBidi maxUni rl gl ops Hs Hr) as (y & live & E & Hy). exists y, live. split; [exact E|]. intros Hl. exact (good_keeps _ _ _ (Hy Hl)). Qed.

(** What is left to do, and what was done, for the streams of a connection: one that is done was sent whole, and with
    nothing queued and nothing on its way each is settled. *)
Definition accounted (y : sys) (idle : Prop) : Prop :=
  (forall id s, streams (sy_conn y) !! id = Some s -> completeStream y id s) /\
  (sendQueue (sy_conn y) = [] -> idle -> forall id s, streams (sy_conn y) !! id = Some s -> settledStream y id s).

Lemma good_accounted n m y : good n m y -> accounted y (mjoin (sy_flight y) = []).
Proof. intros H. split; [exact (good_complete _ _ _ H)|exact (good_settled _ _ _ H)]. Qed.

(** C5: nothing is forgotten: in every such run a stream counts as done only when every byte the application wrote to
    it and its end were acknowledged, or its reset was. And when no stream is queued and no packet is on its way, each
    stream that can be sent on, done or not, is settled: all that was sent of it was acknowledged, and that is all the
    application wrote, its end too if it was given, or, of a stream not done, as far as the peer's limits go; or it was
    reset, and the reset was acknowledged. What was lost, in whatever order, was sent again. *)
Theorem quic_quiescent ops :
  settings maxData maxBidi maxUni -> runnable ops ->
  exists y live, run (start cl maxData maxBidi maxUni rl gl) ops = Some (y, live) /\ (live = true -> accounted y (mjoin (sy_flight y) = [])).
Proof. intros Hs Hr. destruct (run_good cl maxData maxBidi maxUni rl gl ops Hs Hr) as (y & live & E & Hy). exists y, live. split; [exact E|]. intros Hl. exact (good_accounted _ _ _ (Hy Hl)). Qed.

(** C27: after every such run the next packet can be filled, and what STREAM frames it has are the bytes the
    application wrote, at their offsets, with the end where the stream ends; it is no longer than it may be, unless a
    range to be sent again starts before what was acknowledged. *)
Theorem quic_packet_sound ops max :
  settings maxData maxBidi maxUni -> runnable ops ->
  exists y live, run (start cl maxData maxBidi maxUni rl gl) ops = Some (y, live) /\
    (live = true -> exists c b q, appendPacket (sy_conn y) [] max = Some (c, b, q) /\
      (exists x fs z, b = x ++ mjoin (enc <$> fs) ++ z /\ Forall (sound (sy_written y)) fs /\ (forall id off k fin, sfStream id off k fin ∈ q -> sfStream id off k fin ∈ sentOf <$> fs)) /\
      (0 <= max <= 2 ^ 14 -> (forall id s, streams (sy_conn y) !! id = Some s -> aligned (send (ss s))) -> len b <= max)).
Proof.
  intros Hs Hr. destruct (run_good cl maxData maxBidi maxUni rl gl ops Hs Hr) as (y & live & E & Hy). exists y, live. split; [exact E|]. intros Hl. destruct (Hy Hl) as [Hinv _]. destruct (cr_n _ _ _ _ _ _ (iv_R _ _ _ _ _ _ _ _ _ Hinv)) as (_ & Hn0 & HC).
  pose proof (rn_got _ Hr). destruct (appendPacket_ok _ _ _ _ [] max Hinv ltac:(nia)) as (c & b & q & E2 & _ & _ & (x & fs & z & -> & Hfs & Hq) & Hlen). exists c, ([] ++ x ++ mjoin (enc <$> fs) ++ z), q. split; [exact E2|]. split; [exists x, fs, z; auto|].
  intros Hm Hal. apply Hlen; [change (len ([] : bytes)) with 0; lia|lia|]. intros id s _. apply Hal.
Qed.

End Config.

(** ** Witnesses *)

(** A server whose client opens a stream, is answered and ends it. *)
Definition served : list op :=
  [Packet [0x0a; 0; 3; 1; 2; 3]; Write 0 [7; 8; 9] true false; Flush 1200 false; Lost 0; Flush 1200 false; Acked 0; Packet [0x0f; 0; 3; 1; 4]].

Definition peerGives : option peerLimits := Some (mkPeerLimits 500 500 500).

Lemma served_settings : settings 1000 1500 4 3 peerGives 1000 5 5.
Proof. split; cbn; lia. Qed.

Lemma served_runnable : runnable 1500 served.
Proof. split; [|vm_compute; reflexivity|vm_compute; reflexivity]. repeat (apply List.Forall_cons; [first [exact I|split; [now apply bytes_okb_ok|reflexivity]]|]). apply List.Forall_nil. Qed.

Lemma quic_flow_control_witness :
  exists y live, run 1000 1500 4 3 peerGives (start 1500 4 3 false 1000 5 5 [] []) served = Some (y, live) /\ (live = true -> heldTo 1000 1500 4 3 (sy_conn y)).
Proof. apply (quic_flow_control 1000 1500 4 3 peerGives false 1000 5 5 [] [] served served_settings served_runnable). Defined.

Lemma quic_send_limits_witness :
  exists y live, run 1000 1500 4 3 peerGives (start 1500 4 3 false 1000 5 5 [] []) served = Some (y, live) /\ (live = true -> keepsTo y).
Proof. apply (quic_send_limits 1000 1500 4 3 peerGives false 1000 5 5 [] [] served served_settings served_runnable). Defined.

Lemma quic_quiescent_witness :
  exists y live, run 1000 1500 4 3 peerGives (start 1500 4 3 false 1000 5 5 [] []) served = Some (y, live) /\ (live = true -> accounted y (mjoin (sy_flight y) = [])).
Proof. apply (quic_quiescent 1000 1500 4 3 peerGives false 1000 5 5 [] [] served served_settings served_runnable). Defined.

Lemma quic_packet_sound_witness :
  exists y live, run 1000 1500 4 3 peerGives (start 1500 4 3 false 1000 5 5 [] []) served = Some (y, live) /\
    (live = true -> exists c b q, appendPacket (sy_conn y) [] 1200 = Some (c, b, q) /\
      (exists x fs z, b = x ++ mjoin (enc <$> fs) ++ z /\ Forall (sound (sy_written y)) fs /\ (forall id off k fin, sfStream id off k fin ∈ q -> sfStream id off k fin ∈ sentOf <$> fs)) /\
      (0 <= 1200 <= 2 ^ 14 -> (forall id s, streams (sy_conn y) !! id = Some s -> aligned (send (ss s))) -> len b <= 1200)).
Proof. apply (quic_packet_sound 1000 1500 4 3 peerGives false 1000 5 5 [] [] served 1200 served_settings served_runnable). Defined.

(** The run is one the connection goes on after, with the stream done on both sides,
    nothing queued and nothing on its way. *)
Example served_done :
  match run 1000 1500 4 3 peerGives (start 1500 4 3 false 1000 5 5 [] []) served with
  | Some (y, live) => (live, sendQueue (sy_conn y), mjoin (sy_flight y), done <$> streams (sy_conn y) !! 0, events (sy_conn y)) =
      (true, [], [], Some true, [evStreamData 0 [1; 2; 3] false; evStreamData 0 [4] true])
  | None => False
  end.
Proof. vm_compute. reflexivity. Qed.

(** ** Frames *)

(** A STREAM frame a stream puts in a packet is read back by the peer as the same stream, offset and bytes, with
    the end set exactly when they reach the end of what was written and it was not sent before, and the reader is left
    at what follows. *)
Theorem stream_frame_roundtrip (w : bytes) s b off (data : bytes) rest :
  0 <= sid s < 2 ^ 62 -> 0 <= off -> off + len data <= len w -> len w < 2 ^ 62 -> (finQueued (ss s) = true -> finalSize (ss s) = len w) ->
  exists s' fr fin, appendStreamFrame s b off data = (s', b ++ fr, sfStream (sid s) off (len data) fin) /\
    (fin = true <-> finQueued (ss s) = true /\ finSent (ss s) = false /\ off + len data = len w) /\ (fin = true -> finSent (ss s') = true) /\
    readFrame (mkReader (fr ++ rest) false) = (FStream (sid s) off data fin, mkReader rest false).
Proof.
  intros Hid Hoff Hend Hw Hfin. pose proof (len_nonneg data). rewrite (appendStreamFrame_enc w s b off data Hoff Hend Hw Hfin). eexists _, _, _. split; [reflexivity|]. split; [rewrite !andb_true_iff, negb_true_iff, Z.eqb_eq; tauto|]. split; [intros ->; apply orb_true_r|].
  apply readFrame_enc. cbn. lia.
Qed.

Lemma stream_frame_roundtrip_witness :
  let s := st_ss (freshStream 1000 peerGives (newConn 1500 4 3 true 1000 5 5 [] []) 4) (mkSendSide true (Send.write Send.newSend [1; 2; 3]) 500 true false false false false false 0 3 notBlocked) in
  exists s' fr fin, appendStreamFrame s [9] 1 [2; 3] = (s', [9] ++ fr, sfStream (sid s) 1 (len [2; 3]) fin) /\
    (fin = true <-> finQueued (ss s) = true /\ finSent (ss s) = false /\ 1 + len [2; 3] = len [1; 2; 3]) /\ (fin = true -> finSent (ss s') = true) /\
    readFrame (mkReader (fr ++ [0x01]) false) = (FStream (sid s) 1 [2; 3] fin, mkReader [0x01] false).
Proof. intros s. apply (stream_frame_roundtrip [1; 2; 3] s [9] 1 [2; 3] [0x01]); vm_compute; intuition congruence. Defined.

(** ** Where the code falls short *)

(** C29: a packet can be longer than it may be: of a range to be sent again, part of which was acknowledged since, the
    room for the offset is reckoned from where the range starts and not from where what is sent of it does. *)
Example packet_overfull :
  match run 1000 1500 4 3 (Some (mkPeerLimits 5000 5000 5000)) (start 1500 4 3 false 5000 5 5 [] [])
    [Packet [0x0a; 0; 1; 1]; Write 0 (replicate 700 7) true false; Flush 200 false; Flush 200 false; Flush 200 false; Probed 0; Probed 1; Lost 2; Acked 0] with
  | Some (y, _) => match appendPacket (sy_conn y) [] 200 with Some (_, b, _) => len b = 201 | None => False end
  | None => False
  end.
Proof. vm_compute. reflexivity. Qed.

End QRun.
