(* ===== verification/QuicDeliver.v ===== *)
(** * What the application gets of a QUIC connection's streams (src/http3/quic/stream.go, frames.go, conn.go)

    The bytes handed on of a stream are those its peer wrote, in order and once, with
    the end after the last of them, whatever the packets were cut into, repeated and
    reordered to, and whatever else the connection does in between. *)

From S2P Require Import Prelude QuicVarint QuicRanges QuicRecv QuicSend QuicFrames QuicStream QuicFlow QuicOut QuicWake QuicConn QuicStep QuicRun.
From stdpp Require Import base list numbers gmap.
From Stdlib Require Import ZArith Lia.

Local Open Scope Z_scope.
Local Open Scope go_scope.

Module QDeliver.
Import Varint Recv QStream QFlow QOut QWake QConn QStep QRun.

(** ** What the handler of a stream hears *)

Inductive phase : Type := Going | Ended | Cut.

(** Nothing may come after the end of a stream, nor after its reset. *)
Definition heardOne (id : Z) (st : option (bytes * phase)) (e : event) : option (bytes * phase) :=
  match st, e with
  | Some (d, ph), evStreamData j x fin => if j =? id then match ph with Going => Some (d ++ x, if fin then Ended else Going) | _ => None end else st
  | Some (d, ph), evStreamReset j _ => if j =? id then match ph with Going => Some (d, Cut) | _ => None end else st
  | _, _ => st
  end.

Definition heard (id : Z) (evs : list event) : option (bytes * phase) := foldl (heardOne id) (Some ([], Going)) evs.

(** An event that is not about what was received. *)
Definition silent (e : event) : Prop := match e with evStopSending _ _ | evStreamsAvailable => True | _ => False end.

Lemma heard_silent id evs es : Forall silent es -> heard id (evs ++ es) = heard id evs.
Proof.
  intros Hs. unfold heard. rewrite foldl_app. generalize (foldl (heardOne id) (Some ([], Going)) evs). induction Hs as [|e es He _ IH]; intros st; [reflexivity|]. cbn [foldl]. rewrite IH. destruct e; try contradiction; now destruct st as [[]|].
Qed.

Lemma heard_chunks id evs chunks d : heard id evs = Some (d, Going) -> heard id (evs ++ chunkEvents id chunks) = Some (d ++ mjoin chunks, Going).
Proof.
  intros H. unfold heard in *. rewrite foldl_app, H. clear H. revert d. induction chunks as [|x chunks IH]; intros d; cbn; [now rewrite app_nil_r|]. rewrite Z.eqb_refl, IH. now rewrite <- app_assoc.
Qed.

Lemma heard_chunks_other id j evs chunks : j <> id -> heard j (evs ++ chunkEvents id chunks) = heard j evs.
Proof.
  intros Hj. unfold heard. rewrite foldl_app. generalize (foldl (heardOne j) (Some ([], Going)) evs). induction chunks as [|x chunks IH]; intros st; [reflexivity|]. cbn. rewrite IH. destruct st as [[]|]; cbn; [|reflexivity]. now rewrite (proj2 (Z.eqb_neq id j)) by congruence.
Qed.

Lemma heard_snoc id evs e : heard id (evs ++ [e]) = heardOne id (heard id evs) e.
Proof. unfold heard. now rewrite foldl_app. Qed.

(** What a frame delivers, heard. *)
Lemma delivers_heard id out ends evs evs' d :
  delivers id out ends evs evs' -> heard id evs = Some (d, Going) -> heard id evs' = Some (d ++ out, if ends then Ended else Going).
Proof.
  intros (chunks & last & -> & -> & Hl) H. apply (heard_chunks id evs chunks) in H. rewrite app_assoc. destruct ends.
  - rewrite heard_snoc, H. cbn. rewrite Z.eqb_refl. now rewrite <- app_assoc.
  - rewrite Hl by reflexivity. now rewrite !app_nil_r.
Qed.

Lemma delivers_other id out ends evs evs' j : delivers id out ends evs evs' -> j <> id -> heard j evs' = heard j evs.
Proof.
  intros (chunks & last & -> & -> & Hl) Hj. rewrite app_assoc. destruct ends; [|rewrite app_nil_r; now apply heard_chunks_other]. rewrite heard_snoc, heard_chunks_other by exact Hj. destruct (heard j evs) as [[]|]; cbn; [|reflexivity]. now rewrite (proj2 (Z.eqb_neq id j)) by congruence.
Qed.

(** ** The promise of a stream the peer wrote [v] to *)

Record dok (v d : bytes) (ph : phase) (s : stream) : Prop := {
  d_buf : peerReset (rs s) = false -> stopSent (rs s) = false -> recvDone (rs s) = false ->
    ok (cont v) (recv (rs s)) /\ len d = offset (recv (rs s)) /\ ~ held (segments (recv (rs s))) (offset (recv (rs s)));
  d_pre : agrees (cont v) 0 d /\ len d <= len v;
  d_high : peerReset (rs s) = false -> recvHigh (rs s) <= len v;
  d_fin : peerReset (rs s) = false -> 0 <= recvFin (rs s) -> recvFin (rs s) = len v;
  d_done : recvDone (rs s) = true -> 0 <= recvFin (rs s);
  d_phase : match ph with Going => recvDone (rs s) = true -> stopSent (rs s) = true | Ended => recvDone (rs s) = true /\ len d = len v | Cut => peerReset (rs s) = true end
}.

Lemma dok_view v d ph s s' : view s' = view s -> dok v d ph s -> dok v d ph s'.
Proof.
  intros Hv [H1 H2 H3 H4 H5 H6]. injection Hv as E1 E2 E3 E4 E5 E6. split; rewrite ?E1, ?E2, ?E3, ?E4, ?E5, ?E6; auto.
Qed.

Lemma dok_fresh W pp v c i : dok v [] Going (freshStream W pp c i).
Proof.
  split; cbn; try discriminate; try lia; auto.
  - intros _ _ _. splits; [split; cbn; auto|reflexivity|]. intros Hh. unfold held in Hh. now apply Exists_nil in Hh.
  - split; [intros k x Hk; rewrite lookup_nil in Hk; discriminate|apply len_nonneg].
  - intros _. apply len_nonneg.
Qed.

(** A frame of the buffer. *)
Lemma onFrame_some content r off data limit out r' :
  ok content r -> agrees content off data -> onFrame r off data limit = Some (out, r') ->
  ok content r' /\ agrees content (offset r) out /\ offset r + len out = offset r' /\ ~ held (segments r') (offset r').
Proof.
  intros Hok Ha. unfold onFrame. pose proof (take_spec content r off data limit Hok Ha) as Ht. destruct (take_ r off data limit) as [[first r1] []]; [|discriminate]. destruct Ht as (Hok1 & Ha1 & Hl1 & _).
  pose proof (popAll_spec content (S (length (segments r1))) r1 (default [] first) (offset r) Hok1 ltac:(lia) Ha1 Hl1) as Hp. destruct (popAll _ r1 _) as [chunk r2]. destruct Hp as (Hok2 & Ha2 & Hl2 & _ & _ & Hgap & _). intros [= <- <-]. auto.
Qed.

Lemma dok_frame W v d ph c c' s s' off data fin :
  rok W (rs s') -> frameTaken W c c' s s' off data fin -> agrees (cont v) off data -> 0 <= off -> off + len data <= len v -> (fin = true -> off + len data = len v) ->
  dok v d ph s -> heard (sid s) (events c) = Some (d, ph) -> exists d' ph', heard (sid s) (events c') = Some (d', ph') /\ dok v d' ph' s' /\ forall j, j <> sid s -> heard j (events c') = heard j (events c).
Proof.
  intros Hr [_ F1 F2 F3 F4 F5 _ F6] Hag Hoff Hlen Hfin [D1 D2 D3 D4 D5 D6] Hh. pose proof (len_nonneg data).
  assert (peerReset (rs s') = false -> recvHigh (rs s') <= len v) as N3 by (intros E; rewrite F4 in E; specialize (D3 E); lia).
  assert (peerReset (rs s') = false -> 0 <= recvFin (rs s') -> recvFin (rs s') = len v) as N4 by (intros E; rewrite F4 in E; rewrite F2; destruct fin; [auto|now apply D4]).
  assert (0 <= recvFin (rs s) -> 0 <= recvFin (rs s')) as Nf by (rewrite F2; destruct fin; lia).
  destruct (recvDone (rs s) || peerReset (rs s) || stopSent (rs s)) eqn:Eo.
  - destruct F6 as (G1 & G2 & G3). exists d, ph. rewrite G2. split; [exact Hh|]. split; [|auto].
    assert (recvDone (rs s') = true -> recvDone (rs s) = true \/ stopSent (rs s) = true /\ 0 <= recvFin (rs s')) as Nd by (rewrite G3, orb_true_iff, andb_true_iff, Z.leb_le; tauto). split; auto.
    + intros A B C. rewrite F4 in A. rewrite F5 in B. rewrite G3 in C. apply orb_false_iff in C as [C _]. rewrite A, B, C in Eo. discriminate.
    + intros E. destruct (Nd E) as [E1|[_ E1]]; auto.
    + rewrite F4, F5. destruct ph; [|now rewrite G3, (proj1 D6)|exact D6]. intros E. destruct (Nd E) as [E1|[E1 _]]; auto.
  - apply orb_false_iff in Eo as [Eo Es]. apply orb_false_iff in Eo as [Ed Ep]. destruct F6 as (out & G1 & G2 & G3). assert (ph = Going) as -> by (destruct ph; [reflexivity|destruct D6; congruence|congruence]).
    destruct (D1 Ep Es Ed) as (B1 & B2 & _). destruct (onFrame_some _ _ _ _ _ _ _ B1 Hag G1) as (C1 & C2 & C3 & C4). exists (d ++ out), (if recvDone (rs s') then Ended else Going).
    pose proof (bo_off _ _ (ro_buf _ _ Hr)) as Hbo. assert (len (d ++ out) = offset (recv (rs s'))) as El by (rewrite len_app; lia). rewrite F4 in N3, N4. specialize (N3 Ep). specialize (N4 Ep).
    split; [exact (delivers_heard _ _ _ _ _ _ G2 Hh)|]. split; [|intros j Hj; exact (delivers_other _ _ _ _ _ _ G2 Hj)]. split; rewrite ?F4, ?F5; auto.
    + split; [apply agrees_app; [apply D2|]; rewrite Z.add_0_l, B2; exact C2|lia].
    + intros E. rewrite G3 in E. apply andb_true_iff in E as [E _]. lia.
    + destruct (recvDone (rs s')) eqn:Ed'; [|discriminate]. split; [reflexivity|]. symmetry in G3. apply andb_true_iff in G3 as [E1 E2]. apply Z.leb_le in E1. apply Z.eqb_eq in E2. rewrite El, E2. auto.
Qed.

Lemma dok_reset v d ph c c' s s' code size :
  resetTaken c c' s s' code size -> dok v d ph s -> heard (sid s) (events c) = Some (d, ph) ->
  exists d' ph', heard (sid s) (events c') = Some (d', ph') /\ dok v d' ph' s' /\ forall j, j <> sid s -> heard j (events c') = heard j (events c).
Proof.
  intros [_ [R1 R2] [R3 R4] R5 R6 _ R7 R8 _ R9] [D1 D2 D3 D4 D5 D6] Hh. assert (peerReset (rs s') = false -> peerReset (rs s) = false /\ recvDone (rs s) = true) as Np by (rewrite R5, orb_false_iff, negb_false_iff; tauto).
  assert (peerReset (rs s') = false -> size = len v) as Nv by (intros E; destruct (Np E) as [E1 E2]; specialize (D5 E2); rewrite <- (R4 D5); now apply D4).
  assert (forall ph', match ph' with Going => recvDone (rs s) = true -> stopSent (rs s) = true | Ended => recvDone (rs s) = true /\ len d = len v | Cut => peerReset (rs s') = true end -> dok v d ph' s') as Nk.
  { intros ph' Hph. split; rewrite ?R7, ?R6; auto.
    - intros E _ E2. destruct (Np E). congruence.
    - intros E. rewrite R1, (Nv E). lia.
    - intros E _. rewrite R3. auto.
    - intros E. rewrite R3, <- (R4 (D5 E)). auto. }
  rewrite R9. destruct (recvDone (rs s) || peerReset (rs s) || stopSent (rs s)) eqn:Eo.
  - rewrite app_nil_r. exists d, ph. split; [exact Hh|]. split; [|auto]. apply Nk. destruct ph; auto. rewrite R5, D6. reflexivity.
  - apply orb_false_iff in Eo as [Eo Es]. apply orb_false_iff in Eo as [Ed Ep]. assert (ph = Going) as -> by (destruct ph; [reflexivity|destruct D6; congruence|congruence]). exists d, Cut. rewrite heard_snoc, Hh. cbn. rewrite Z.eqb_refl. split; [reflexivity|]. split; [apply Nk; rewrite R5, Ed; apply orb_true_r|].
    intros j Hj. rewrite heard_snoc. destruct (heard j (events c)) as [[]|]; cbn; [|reflexivity]. now rewrite (proj2 (Z.eqb_neq (sid s) j)) by congruence.
Qed.

(** ** The connection *)

(** The frames of a payload, as far as it can be read. *)
Fixpoint framesOf (fuel : nat) (r : reader) : list frame :=
  match fuel with
  | O => []
  | S fuel => if len (r_b r) =? 0 then [] else let '(f, r) := readFrame r in if r_bad r then [] else f :: framesOf fuel r
  end.

(** Whether a frame is of a peer that wrote [w0], decided. *)
Definition soundb (w0 : Z -> bytes) (f : frame) : bool :=
  match f with
  | FStream id off data fin => (0 <=? off) && (off + len data <=? len (w0 id)) && bool_decide (ztake (len data) (zdrop off (w0 id)) = data) && (negb fin || (off + len data =? len (w0 id)))
  | _ => true
  end.

Lemma soundb_ok w0 f : soundb w0 f = true -> sound w0 f.
Proof.
  destruct f as [| | | |id off data fin| | | | | | |]; cbn; auto. rewrite !andb_true_iff, Z.leb_le, Z.leb_le, bool_decide_eq_true, orb_true_iff, negb_true_iff, Z.eqb_eq. intros [[[H1 H2] H3] H4]. split; [|splits; auto; intros ->; destruct H4; [discriminate|assumption]].
  rewrite <- H3. now apply cont_agrees.
Qed.

(** Its STREAM frames are of a peer that wrote [w0]. *)
Definition says (w0 : Z -> bytes) (payload : bytes) : Prop := Forall (sound w0) (framesOf (S (length payload)) (mkReader payload false)).

Section Config.
Context (W CW MI MIU : Z) (pp : option peerLimits).
Context (w0 : Z -> bytes).
Local Notation inv := (inv W CW MI MIU).

Definition Dinv (c : conn) : Prop :=
  forall id, exists d ph, heard id (events c) = Some (d, ph) /\ match streams c !! id with Some s => dok (w0 id) d ph s | None => d = [] /\ ph = Going end.

(** Nothing of what was received is different, and streams may be new. *)
Definition hush (c c' : conn) : Prop :=
  (exists es, events c' = events c ++ es /\ Forall silent es) /\
  forall i, view <$> streams c' !! i = view <$> streams c !! i \/ streams c !! i = None /\ exists cf, view <$> streams c' !! i = Some (view (freshStream W pp cf i)).

Lemma hush_Dinv c c' : hush c c' -> Dinv c -> Dinv c'.
Proof.
  intros [(es & Ee & Hes) Hv] Hd id. destruct (Hd id) as (d & ph & Hh & Hs). exists d, ph. rewrite Ee, heard_silent by exact Hes. split; [exact Hh|]. destruct (Hv id) as [E|[E (cf & Ef)]].
  - destruct (streams c' !! id) as [s'|], (streams c !! id) as [s|]; try discriminate; [|exact Hs]. cbn in E. exact (dok_view _ _ _ s s' ltac:(congruence) Hs).
  - rewrite E in Hs. destruct Hs as [-> ->]. destruct (streams c' !! id) as [s'|]; [|auto]. cbn in Ef. apply (dok_view _ _ _ (freshStream W pp cf id)); [congruence|apply dok_fresh].
Qed.

Lemma quiet_hush c c' : quiet c c' -> hush c c'.
Proof. intros [E Hv]. split; [exists []; now rewrite app_nil_r|]. intros i. left. specialize (Hv i). apply (f_equal (fmap fst)) in Hv. rewrite <- !option_fmap_compose in Hv. exact Hv. Qed.

Lemma hush_same c c' es : streams c' = streams c -> events c' = events c ++ es -> Forall silent es -> hush c c'.
Proof. intros E1 E2 Hes. split; [eauto|]. intros i. left. now rewrite E1. Qed.

Lemma grown_hush c c' : grown W pp c c' -> hush c c'.
Proof.
  intros [G1 G2 G3 G4]. split; [exists []; now rewrite app_nil_r|]. intros i. destruct (streams c' !! i) as [s'|] eqn:E'.
  - destruct (G4 i s' E') as [->|[E ->]]; [now left|]. right. split; [exact E|]. now exists c.
  - left. destruct (streams c !! i) as [s|] eqn:E; [|reflexivity]. apply G3 in E. congruence.
Qed.

(** One stream told something, which is nothing it received. *)
Definition mute (c c' : conn) (s s' : stream) : Prop := streams c' = streams c /\ sid s' = sid s /\ view s' = view s /\ exists es, events c' = events c ++ es /\ Forall silent es.

Lemma mute_hush c c' i s s' : streams c !! i = Some s -> sid s = i -> mute c c' s s' -> hush c (put c' s').
Proof.
  intros Hi Hs (E1 & E2 & E3 & E4). split; [exact E4|]. intros j. left. unfold put. cbn [set_streams streams]. rewrite E1, E2, Hs. destruct (decide (j = i)) as [->|]; [rewrite lookup_insert_eq, Hi; cbn; now rewrite E3|now rewrite lookup_insert_ne by congruence].
Qed.

Lemma mute_refl c s : mute c c s s.
Proof. unfold mute. splits; auto. exists []. now rewrite app_nil_r. Qed.

Lemma mute_trans c1 c2 c3 s1 s2 s3 : mute c1 c2 s1 s2 -> mute c2 c3 s2 s3 -> mute c1 c3 s1 s3.
Proof.
  intros (A1 & A2 & A3 & ea & A4 & A5) (B1 & B2 & B3 & eb & B4 & B5). unfold mute. splits; [congruence..|]. exists (ea ++ eb). rewrite B4, A4, app_assoc. split; [reflexivity|]. now apply Forall_app.
Qed.

Lemma mute_only c c' s s' : streams c' = streams c -> sid s' = sid s -> view s' = view s -> events c' = events c -> mute c c' s s'.
Proof. intros. unfold mute. splits; auto. exists []. now rewrite app_nil_r. Qed.

(** ** The handlers that receive nothing *)

Lemma queue_mute c s s' : sid s' = sid s -> view s' = view s -> mute c (queueStream c s').1 s (queueStream c s').2.
Proof. intros H1 H2. unfold queueStream. destruct (_ && _); now apply mute_only. Qed.

Lemma maybeFinish_mute c s s' : sid s' = sid s -> view s' = view s -> mute c (maybeFinish MI MIU c s').1 s (maybeFinish MI MIU c s').2.
Proof. intros H1 H2. destruct (maybeFinish_tidy MI MIU c s') as (E1 & E2 & _). apply mute_only; [rewrite E1|rewrite E2|rewrite E2|rewrite E1]; auto. Qed.

Lemma resetLocked_mute c s code : mute c (resetLocked c s code).1 s (resetLocked c s code).2.
Proof. unfold resetLocked. destruct (_ || _ || _); [apply mute_refl|now apply queue_mute]. Qed.

Lemma resetCounted_mute c s : mute c (resetCounted c s).1.1 s (resetCounted c s).1.2.
Proof. destruct (resetCounted_cases c s) as (l & f & ->). now apply mute_only. Qed.

Lemma onStopSending_mute c s code c' s' e : onStopSending c s code = (c', s', e) -> mute c c' s s'.
Proof.
  unfold onStopSending. destruct (_ || _); [intros [= <- <- _]; apply mute_refl|]. pose proof (resetCounted_mute c s) as H1. destruct (resetCounted c s) as [[c1 s1] ok]. cbn [fst snd] in H1. destruct ok; cbn [negb]; [|now intros [= <- <- _]].
  pose proof (resetLocked_mute c1 s1 code) as H2. destruct (resetLocked c1 s1 code) as [c2 s2]. cbn [fst snd] in H2. intros [= <- <- _]. apply (mute_trans _ _ _ _ _ _ H1). apply (mute_trans _ _ _ _ _ _ H2). unfold mute. splits; auto. exists [evStopSending (sid s2) code]. split; [reflexivity|]. now apply Forall_singleton.
Qed.

Lemma written_mute c s b fin : mute c (written c s b fin).1 s (written c s b fin).2.
Proof. unfold written. destruct fin; now apply queue_mute. Qed.

Lemma HoldCredit_mute c s : mute c c s (HoldCredit s).
Proof. unfold HoldCredit. destruct (negb _); [now apply mute_only|apply mute_refl]. Qed.

Lemma Credit_mute c s k : mute c (Credit W CW c s k).1 s (Credit W CW c s k).2.
Proof.
  unfold Credit. destruct (_ || _); [apply mute_refl|]. set (s1 := st_rs s _). destruct (consumed_calm W CW c s1 (creditAt (rs s1))) as (Hc & _ & Er & Ed & Ee). destruct Hc as [Ho _ _ Eh Ef Ep Es _ _ _ _].
  apply mute_only; [exact (ot_streams _ _ _ _ Ho)|exact (ot_sid _ _ _ _ Ho)| |exact Ee]. unfold view. now rewrite Er, Ed, Ep, Es, Ef, Eh.
Qed.

Lemma onDataAcked_mute c s off k fin : mute c (onDataAcked MI MIU c s off k fin).1 s (onDataAcked MI MIU c s off k fin).2.
Proof. unfold onDataAcked. destruct (reset _); [apply mute_refl|]. destruct fin; now apply maybeFinish_mute. Qed.

Lemma onResetAcked_mute c s : mute c (onResetAcked MI MIU c s).1 s (onResetAcked MI MIU c s).2.
Proof. now apply maybeFinish_mute. Qed.

Lemma onDataLost_mute c s off k fin : mute c (onDataLost c s off k fin).1 s (onDataLost c s off k fin).2.
Proof. unfold onDataLost. destruct (_ || _); [apply mute_refl|]. destruct (_ && _); now apply queue_mute. Qed.

Lemma onResetLost_mute c s : mute c (onResetLost c s).1 s (onResetLost c s).2.
Proof. unfold onResetLost. destruct (_ && _); [now apply queue_mute|apply mute_refl]. Qed.

Lemma onMaxDataLost_mute c s : mute c (onMaxDataLost c s).1 s (onMaxDataLost c s).2.
Proof. unfold onMaxDataLost. destruct (_ && _ && _); [now apply queue_mute|apply mute_refl]. Qed.

Lemma onStopSendingLost_mute c s : mute c (onStopSendingLost c s).1 s (onStopSendingLost c s).2.
Proof. unfold onStopSendingLost. destruct (_ && _); [now apply queue_mute|apply mute_refl]. Qed.

Lemma onBlockedLost_mute c s at' : mute c (onBlockedLost c s at').1 s (onBlockedLost c s at').2.
Proof. unfold onBlockedLost. destruct (_ && _); [|apply mute_refl]. destruct (b_pending _); [now apply queue_mute|now apply mute_only]. Qed.

(** A stream of a connection, told so. *)
Lemma on_hush a n w F c id h : inv a n w F c -> (forall s, mute c (h c s).1 s (h c s).2) -> hush c (on c id h).
Proof.
  intros Hinv Hm. unfold on. destruct (streams c !! id) as [s|] eqn:Es; [|apply quiet_hush, quiet_refl]. specialize (Hm s). destruct (h c s) as [c' s']. cbn [fst snd] in Hm. apply (mute_hush c c' id s s' Es); [exact (ci_sid _ (iv_I _ _ _ _ _ _ _ _ _ Hinv) id s Es)|exact Hm].
Qed.

Lemma frameAcked_hush a n w F c f : inv a n w F c -> hush c (frameAcked MI MIU c f).
Proof. intros Hinv. destruct f; cbn [frameAcked]; try (apply quiet_hush, quiet_refl); apply (on_hush a n w F); auto; intros s; [apply onDataAcked_mute|apply onResetAcked_mute]. Qed.

Lemma frameLost_hush a n w F c f : inv a n w F c -> hush c (frameLost c f).
Proof.
  intros Hinv. destruct f as [id off k fin|id|id|id|id at'| |b|at'|b at']; cbn [frameLost]; try (apply (hush_same _ _ []); [now try destruct b|now rewrite app_nil_r; try destruct b|constructor]); apply (on_hush a n w F); auto; intros s;
    [apply onDataLost_mute|apply onMaxDataLost_mute|apply onResetLost_mute|apply onStopSendingLost_mute|apply onBlockedLost_mute].
Qed.

Lemma hush_trans c1 c2 c3 : hush c1 c2 -> hush c2 c3 -> hush c1 c3.
Proof.
  intros [(ea & A1 & A2) A3] [(eb & B1 & B2) B3]. split; [exists (ea ++ eb); rewrite B1, A1, app_assoc; split; [reflexivity|now apply Forall_app]|]. intros i. destruct (B3 i) as [E|[E (cf & Ef)]].
  - rewrite E. apply A3.
  - right. split; [|eauto]. destruct (A3 i) as [E2|[E2 _]]; [|exact E2]. rewrite E in E2. now destruct (streams c1 !! i).
Qed.

Lemma hush_refl c : hush c c.
Proof. apply quiet_hush, quiet_refl. Qed.

Lemma glitch_hush c : hush c (glitch c).1.
Proof. unfold glitch. destruct (glitches c); [apply hush_refl|]. apply (hush_same _ _ []); [reflexivity|now rewrite app_nil_r|constructor]. Qed.

Lemma wakeOne_hush n w F c id : inv false n w F c -> hush c (wakeOne c id).
Proof.
  intros Hinv. unfold wakeOne, streamByID. destruct (streams c !! id) as [s|] eqn:Es; [|apply hush_refl]. destruct (done s); [apply hush_refl|]. pose proof (sendable_ok _ _ _ _ _ (cx_xok _ _ _ (iv_X _ _ _ _ _ _ _ _ _ Hinv) id s Es)) as Hs. destruct (sendable c s) as [s1 more]. cbn [fst snd] in Hs. destruct Hs as (_ & Hs & _).
  assert (sid s1 = sid s /\ view s1 = view s) as [E1 E2] by (split; [exact (f_equal sid Hs)|exact (ssend_view _ _ Hs)]). assert (mute c (if more then queueStream c s1 else (c, s1)).1 s (if more then queueStream c s1 else (c, s1)).2) as Hm by (destruct more; [now apply queue_mute|now apply mute_only]).
  destruct (if more then queueStream c s1 else (c, s1)) as [c2 s2]. apply (mute_hush c c2 id s s2 Es); [exact (ci_sid _ (iv_I _ _ _ _ _ _ _ _ _ Hinv) id s Es)|exact Hm].
Qed.

Lemma wakeAll_hush l n w F c : inv false n w F c -> CW * (n + 1) < 2 ^ 63 -> hush c (foldl wakeOne c l).
Proof.
  revert c. induction l as [|id l IH]; intros c Hinv Hn; [apply hush_refl|]. cbn [foldl]. apply (hush_trans _ (wakeOne c id)); [now apply (wakeOne_hush n w F)|]. apply IH; [|exact Hn]. now apply (wakeOne_ok W CW MI MIU n w F c id Hinv Hn).
Qed.

Lemma queueSendable_hush a n w F c : inv a n w F c -> CW * (n + 1) < 2 ^ 63 -> hush c (queueSendable c).
Proof. intros [HR HI HX [Q1 Q2 Q3]] Hn. apply (wakeAll_hush _ n w F); [|exact Hn]. split; auto. split; auto. discriminate. Qed.

(** ** The frames of a packet *)

Lemma put_Dinv c c' id s s' :
  Dinv c -> streams c !! id = Some s -> sid s' = id -> streams c' = streams c ->
  (forall d ph, heard id (events c) = Some (d, ph) -> dok (w0 id) d ph s -> exists d' ph', heard id (events c') = Some (d', ph') /\ dok (w0 id) d' ph' s' /\ forall j, j <> id -> heard j (events c') = heard j (events c)) ->
  Dinv (put c' s').
Proof.
  intros Hd Hi Hs Hst Hh j. destruct (Hd id) as (d & ph & H1 & H2). rewrite Hi in H2. destruct (Hh d ph H1 H2) as (d' & ph' & H3 & H4 & H5). unfold put. cbn [set_streams streams events]. rewrite Hs, Hst. destruct (decide (j = id)) as [->|Hne].
  - exists d', ph'. rewrite lookup_insert_eq. auto.
  - rewrite (H5 j Hne), lookup_insert_ne by congruence. exact (Hd j).
Qed.

Section Frames.
Context (a : bool) (n : Z) (w : Z -> bytes) (F : list sentFrame).
Context (Hpp : pp_ok pp) (HW : 0 <= W <= 2 ^ 62) (Hn : CW * (n + 2) < 2 ^ 63).

Lemma onStream_Dinv c id side f c' x :
  inv a n w F c -> Dinv c -> 0 <= id < 2 ^ 62 ->
  (forall c1 s c2 s2 o, inv a n w F c1 -> Dinv c1 -> streams c1 !! id = Some s -> sid s = id -> f c1 s = Some (c2, s2, o) -> o = Handled x -> Dinv (put c2 s2)) ->
  onStream W pp c id side f = Some (c', Handled x) -> Dinv c'.
Proof.
  intros Hinv Hd Hid Hf. pose proof (peerStream_ok W CW MI MIU pp a n w F c id side Hinv Hpp HW Hid) as Hp. unfold onStream. destruct (peerStream W pp c id side) as [c1 r]. destruct Hp as (H1 & Hg & Hs). pose proof (hush_Dinv _ _ (grown_hush _ _ Hg) Hd) as Hd1.
  destruct r as [[s|]|e]; [|now intros [= <- _]|discriminate]. destruct (Hs s eq_refl) as [Hs1 _]. destruct (f c1 s) as [[[c2 s2] o]|] eqn:E; [|discriminate]. intros [= <- Ho].
  exact (Hf c1 s c2 s2 o H1 Hd1 Hs1 (ci_sid _ (iv_I _ _ _ _ _ _ _ _ _ H1) id s Hs1) E Ho).
Qed.

Lemma mute_Dinv c c' id s s' : Dinv c -> streams c !! id = Some s -> sid s = id -> mute c c' s s' -> Dinv (put c' s').
Proof. intros Hd Hs Es Hm. exact (hush_Dinv _ _ (mute_hush c c' id s s' Hs Es Hm) Hd). Qed.

Lemma onStreamFrame_Dinv c id s off data fin c' s' :
  inv a n w F c -> Dinv c -> streams c !! id = Some s -> sid s = id -> 0 <= off < 2 ^ 62 -> len data < 2 ^ 62 -> sound w0 (FStream id off data fin) ->
  onStreamFrame W CW MI MIU c s off data fin = Some (c', s', None) -> Dinv (put c' s').
Proof.
  intros Hinv Hd Hi Es Hoff Hl (S1 & S2 & S3 & S4) E. destruct (inv_onStreamFrame W CW MI MIU a n w F Hn c id s off data fin Hinv Hi Hoff Hl) as (c1 & s1 & e & E1 & He). rewrite E in E1. injection E1 as <- <- <-. destruct (He eq_refl) as [Hinv' Ht].
  pose proof (ft_others _ _ _ _ _ _ _ _ Ht) as Ho. assert (sid s' = id) as Es' by (rewrite (ot_sid _ _ _ _ Ho); exact Es). assert (rok W (rs s')) as Hr by (apply (cr_rok _ _ _ _ _ _ (iv_R _ _ _ _ _ _ _ _ _ Hinv') id s'); cbn; now rewrite Es', lookup_insert_eq).
  apply (put_Dinv c c' id s s' Hd Hi Es' (ot_streams _ _ _ _ Ho)). intros d ph Hh Hk. subst id. exact (dok_frame W _ d ph c c' s s' off data fin Hr Ht S1 S2 S3 S4 Hk Hh).
Qed.

Lemma onResetStream_Dinv c id s code size c' s' :
  inv a n w F c -> Dinv c -> streams c !! id = Some s -> sid s = id -> 0 <= size < 2 ^ 62 -> onResetStream W CW MI MIU c s code size = (c', s', None) -> Dinv (put c' s').
Proof.
  intros Hinv Hd Hi Es Hsz E. destruct (lok_frame W CW MI MIU a n w F Hn c id s Hinv Hi) as (HL & HN & Hm & _). destruct (onResetStream_ok _ _ _ _ _ _ _ _ _ _ _ _ _ _ HL HN Hm Hsz E) as (_ & _ & Ht).
  pose proof (rt_others _ _ _ _ _ _ Ht) as Ho. apply (put_Dinv c c' id s s' Hd Hi); [rewrite (ot_sid _ _ _ _ Ho); exact Es|exact (ot_streams _ _ _ _ Ho)|]. intros d ph Hh Hk. subst id. exact (dok_reset _ d ph c c' s s' code size Ht Hk Hh).
Qed.

Lemma handleFrame_Dinv c f c' x : inv a n w F c -> Dinv c -> frame_ok f -> sound w0 f -> handleFrame W CW MI MIU pp c f = Some (c', Handled x) -> Dinv c'.
Proof.
  intros Hinv Hd Hf Hsd. assert (forall c' es, streams c' = streams c -> events c' = events c ++ es -> Forall silent es -> Dinv c') as Hsame by (intros c2 es E1 E2 E3; exact (hush_Dinv _ _ (hush_same c c2 es E1 E2 E3) Hd)).
  assert (forall c', streams c' = streams c -> events c' = events c -> Dinv c') as Heq by (intros c2 E1 E2; apply (Hsame c2 []); [exact E1|now rewrite app_nil_r|constructor]).
  assert (streams (glitch c).1 = streams c /\ events (glitch c).1 = events c) as [G1 G2] by (unfold glitch; now destruct (glitches c)).
  destruct f as [| |id code size|id code|id off data fin|m|id m|b m|at'|id at'|b at'|typ]; cbn [handleFrame frame_ok] in *.
  - now intros [= <- _].
  - now intros [= <- _].
  - apply onStream_Dinv; [exact Hinv|exact Hd|tauto|]. intros c1 s c2 s2 o H1 H2 H3 H4 E Ho. destruct (onResetStream W CW MI MIU c1 s code size) as [[c3 s3] e] eqn:Er. injection E as <- <- <-. destruct e; [discriminate|]. exact (onResetStream_Dinv c1 id s code size c3 s3 H1 H2 H3 H4 ltac:(tauto) Er).
  - apply onStream_Dinv; [exact Hinv|exact Hd|tauto|]. intros c1 s c2 s2 o H1 H2 H3 H4 E Ho. destruct (onStopSending c1 s code) as [[c3 s3] e] eqn:Er. injection E as <- <- _. exact (mute_Dinv c1 c3 id s s3 H2 H3 H4 (onStopSending_mute _ _ _ _ _ _ Er)).
  - destruct Hf as (Hid & Hoff & Hl). apply onStream_Dinv; [exact Hinv|exact Hd|exact Hid|]. intros c1 s c2 s2 o H1 H2 H3 H4 E Ho.
    assert (exists c3 ok, (if (len data =? 0) && negb fin then glitch c1 else (c1, true)) = (c3, ok) /\ inv a n w F c3 /\ streams c3 = streams c1 /\ Dinv c3) as (c3 & ok & Eg & I3 & Est & D3).
    { destruct (inv_glitch W CW MI MIU a n w F c1 H1) as (? & ? & _). destruct ((len data =? 0) && negb fin); [exists (glitch c1).1, (glitch c1).2; splits; auto; [apply surjective_pairing|exact (hush_Dinv _ _ (glitch_hush c1) H2)]|eauto 8]. }
    rewrite Eg in E. destruct ok; [|cbn in E; congruence]. cbn [negb] in E. destruct (onStreamFrame W CW MI MIU c3 s off data fin) as [[[c4 s4] e]|] eqn:Er; [|discriminate]. injection E as <- <- <-. destruct e; [discriminate|]. rewrite <- Est in H3. exact (onStreamFrame_Dinv c3 id s off data fin c4 s4 I3 D3 H3 H4 Hoff Hl Hsd Er).
  - destruct (_ <? _); intros [= <- _]; now apply Heq.
  - apply onStream_Dinv; [exact Hinv|exact Hd|tauto|]. intros c1 s c2 s2 o H1 H2 H3 H4 E Ho. destruct (_ <? _); [|injection E as <- <- _; exact (mute_Dinv c1 c1 id s s H2 H3 H4 (mute_refl c1 s))]. pose proof (queue_mute c1 s (st_ss s (sd_sendMax (ss s) m)) eq_refl eq_refl) as Hm. destruct (queueStream c1 _) as [c3 s3]. injection E as <- <- _. exact (mute_Dinv c1 c3 id s s3 H2 H3 H4 Hm).
  - destruct (_ <? _); [discriminate|]. destruct (_ <? _); intros [= <- _]; [|exact Hd]. apply (Hsame _ [evStreamsAvailable]); [now destruct b|now destruct b|]. now apply Forall_singleton.
  - destruct (blockedAt_cases c (dataBlockedAt c) at' (recvMaxData c)) as (c1 & y & o & -> & [->| ->]); intros [= <- _]; apply Heq; auto.
  - apply onStream_Dinv; [exact Hinv|exact Hd|exact Hf|]. intros c1 s c2 s2 o H1 H2 H3 H4 E Ho. destruct (blockedAt_cases c1 (blockedAt_ (rs s)) at' (recvMax (rs s))) as (c3 & y & o3 & Eb & Hc). rewrite Eb in E. injection E as <- <- _. apply (mute_Dinv c1 c3 id s); auto. apply mute_only; auto; destruct Hc as [->| ->]; auto; unfold glitch; now destruct (glitches c1).
  - destruct (blockedAt_cases c (q_blockedAt (quotaOf c b)) at' (q_max (quotaOf c b))) as (c1 & y & o & -> & [->| ->]); intros [= <- _]; apply Heq; destruct b; auto.
  - discriminate.
Qed.

End Frames.

Lemma framesLoop_Dinv fuel a n w F c r pinged asked raised c' x fl :
  pp_ok pp -> 0 <= W <= 2 ^ 62 -> inv a n w F c -> Dinv c -> bytes_ok (r_b r) -> len (r_b r) < 2 ^ 62 -> CW * (n + len (r_b r) + 2) < 2 ^ 63 -> Forall (sound w0) (framesOf fuel r) ->
  framesLoop W CW MI MIU pp fuel c r pinged asked raised = Some (c', Handled x, fl) -> Dinv c'.
Proof.
  intros Hpp HW. revert a n c r pinged asked raised. induction fuel as [|fuel IH]; intros a n c r pinged asked raised Hinv Hd Hb Hl Hn Hs; [discriminate|]. pose proof (len_nonneg (r_b r)).
  destruct (cr_n _ _ _ _ _ _ (iv_R _ _ _ _ _ _ _ _ _ Hinv)) as (_ & Hn0 & HC). cbn [framesLoop framesOf] in *. destruct (len (r_b r) =? 0); [now intros [= <- _ _]|]. destruct (closed c); [now intros [= <- _ _]|]. cbn [orb].
  destruct (readFrame r) as [f r1] eqn:E. destruct (r_bad r1) eqn:Eb; [discriminate|]. inversion Hs as [|? ? Hs1 Hs2]; subst.
  destruct (readFrame_ok r f r1 Hb Hl E Eb) as (Hf & Hb1 & Hl1). assert (len (r_b r1) + 1 <= len (r_b r)) by (unfold len; lia).
  destruct (handleFrame_ok W CW MI MIU pp a n w F Hpp HW ltac:(nia) c f Hinv Hf) as (c1 & o & Eh & Ho). rewrite Eh. destruct o as [asking|e|t]; [|discriminate..]. specialize (Ho asking eq_refl).
  pose proof (handleFrame_Dinv a n w F Hpp HW ltac:(nia) c f c1 asking Hinv Hd Hf Hs1 Eh) as Hd1. apply (IH _ (n + 1)  c1 r1 _ _ _ Ho Hd1 Hb1); [lia|nia|exact Hs2].
Qed.

Lemma handleFrames_Dinv n w F c payload c' x :
  pp_ok pp -> 0 <= W <= 2 ^ 62 -> inv true n w F c -> Dinv c -> bytes_ok payload -> len payload < 2 ^ 62 -> CW * (n + len payload + 2) < 2 ^ 63 -> says w0 payload ->
  handleFrames W CW MI MIU pp c payload = Some (c', Handled x) -> Dinv c'.
Proof.
  intros Hpp HW Hinv Hd Hb Hl Hn Hs. pose proof (len_nonneg payload). destruct (cr_n _ _ _ _ _ _ (iv_R _ _ _ _ _ _ _ _ _ Hinv)) as (_ & Hn0 & HC). unfold handleFrames. destruct (len payload =? 0); [discriminate|].
  destruct (framesLoop_ok W CW MI MIU pp (S (length payload)) true n w F c (mkReader payload false) false false false) as (c1 & o & [[pinged asked] raised] & E & Ho); auto. rewrite E. destruct o as [y|e|t]; [|discriminate..].
  pose proof (framesLoop_Dinv _ true n w F c (mkReader payload false) _ _ _ _ _ _ Hpp HW Hinv Hd Hb Hl Hn Hs E) as Hd1. destruct (Ho y eq_refl) as (a' & Hi & _). cbn [r_b] in Hi.
  assert (Dinv (if raised then queueSendable c1 else c1)) as Hd2 by (destruct raised; [|exact Hd1]; refine (hush_Dinv _ _ (queueSendable_hush a' _ w F c1 Hi _) Hd1); nia).
  set (c2 := if raised then queueSendable c1 else c1) in *. destruct (_ && _ && _); [pose proof (glitch_hush c2) as Hg; destruct (glitch c2) as [c3 ok]|]; (intros H'; injection H' as <- Ho'); [|exact Hd2]. exact (hush_Dinv _ _ Hg Hd2).
Qed.

(** ** The application and the packets sent *)

Lemma stopSending_Dinv a n w F c id code : inv a n w F c -> Dinv c -> Dinv (on c id (fun c s => stopSendingLocked c s code)).
Proof.
  intros Hinv Hd. unfold on. destruct (streams c !! id) as [s|] eqn:Es; [|exact Hd]. assert (sid s = id) as Ei by exact (ci_sid _ (iv_I _ _ _ _ _ _ _ _ _ Hinv) id s Es). unfold stopSendingLocked. destruct (_ || _ || _).
  { exact (mute_Dinv c c id s s Hd Es Ei (mute_refl c s)). }
  set (s1 := st_rs s _). pose proof (queue_mute c s1 s1 eq_refl eq_refl) as Hm. destruct (queueStream c s1) as [c2 s2]. cbn [fst snd] in Hm. destruct Hm as (M1 & M2 & M3 & es & M4 & M5). apply (put_Dinv c c2 id s s2 Hd Es); [rewrite M2; exact Ei|exact M1|].
  intros d ph Hh [D1 D2 D3 D4 D5 D6]. exists d, ph. rewrite M4, !heard_silent by exact M5. split; [exact Hh|]. split; [|intros j _; now rewrite heard_silent by exact M5]. apply (dok_view _ _ _ s1); [exact M3|]. split; cbn; auto; try discriminate. destruct ph; auto.
Qed.

Lemma acks_hush q n w F1 F2 c : CW * (n + 1) < 2 ^ 62 -> inv true n w (F1 ++ q ++ F2) c -> hush c (foldl (frameAcked MI MIU) c q).
Proof.
  intros Hn. revert c. induction q as [|f q IH]; intros c H; [apply hush_refl|]. cbn [foldl]. apply (hush_trans _ (frameAcked MI MIU c f)); [now apply (frameAcked_hush true n w _ _ _ H)|]. apply IH. exact (inv_acked W CW MI MIU n w F1 (q ++ F2) c ltac:(lia) f H).
Qed.

Lemma losses_hush q n w F1 F2 c : CW * (n + 1) < 2 ^ 62 -> inv true n w (F1 ++ q ++ F2) c -> hush c (foldl frameLost c q).
Proof.
  intros Hn. revert c. induction q as [|f q IH]; intros c H; [apply hush_refl|]. cbn [foldl]. apply (hush_trans _ (frameLost c f)); [now apply (frameLost_hush true n w _ _ _ H)|]. apply IH. exact (inv_lost W CW MI MIU n w F1 (q ++ F2) c ltac:(lia) true f H).
Qed.

(** The stream that is opened is a new one. *)
Lemma open_new a n w F c bidi : inv a n w F c -> a_opened (allowanceOf c bidi) < a_max (allowanceOf c bidi) ->
  let id := u64 (a_opened (allowanceOf c bidi) .<< 2) .| (if bidi then 0 else 2) in streams c !! (if isClient c then id else id .| 1) = None.
Proof.
  intros Hinv Hlt id0. destruct (ci_own _ (iv_I _ _ _ _ _ _ _ _ _ Hinv) bidi) as [Ho1 Ho2]. destruct (own_id (isClient c) bidi (a_opened (allowanceOf c bidi)) ltac:(lia)) as (_ & Hseq & Hb & Hcl). subst id0. set (id := if isClient c then _ else _) in *. clearbody id.
  destruct (streams c !! id) as [t|] eqn:E; [|reflexivity]. destruct (ci_ids _ (iv_I _ _ _ _ _ _ _ _ _ Hinv) id t E) as [_ Hlt2]. unfold local in Hlt2. rewrite Hcl, Bool.eqb_reflx, Hb, Hseq in Hlt2. lia.
Qed.

Lemma open_hush a n w F c bidi : inv a n w F c -> hush c (openStreamLocked W pp c bidi).1.
Proof.
  intros Hinv. unfold openStreamLocked. destruct (closed c); [apply hush_refl|]. destruct (Z.leb_spec (a_max (allowanceOf c bidi)) (a_opened (allowanceOf c bidi))) as [|Hlt]; [apply (hush_same _ _ []); [now destruct bidi|now rewrite app_nil_r; destruct bidi|constructor]|]. cbn [fst].
  pose proof (open_new a n w F c bidi Hinv Hlt) as Es. cbv zeta in Es. set (id := if isClient c then _ else _) in *. clearbody id.
  set (al := al_a_opened _ _). split; [exists []; rewrite app_nil_r; split; [now destruct bidi|constructor]|]. intros i. unfold newStream, put. cbn [freshStream sid set_streams streams].
  assert (streams (set_allowance c bidi al) = streams c) as -> by now destruct bidi. destruct (decide (i = id)) as [->|]; [|left; now rewrite lookup_insert_ne by congruence]. right. split; [exact Es|]. exists (set_allowance c bidi al). now rewrite lookup_insert_eq.
Qed.

(** A write, whether or not the stream takes it. *)
Lemma writeTo_hush n m y id p f :
  good W CW MI MIU n m y -> (forall c s, f c s = (c, s, false) \/ exists buf fin, f c s = (written c s buf fin, true)) -> hush (sy_conn y) (sy_conn (writeTo y id p f)).
Proof.
  intros [Hinv _] Hf. unfold writeTo. destruct (streams (sy_conn y) !! id) as [s|] eqn:Es; [|apply hush_refl]. pose proof (ci_sid _ (iv_I _ _ _ _ _ _ _ _ _ Hinv) id s Es) as Ei. destruct (Hf (sy_conn y) s) as [->|(buf & fin & ->)].
  - exact (mute_hush _ _ id s s Es Ei (mute_refl _ s)).
  - pose proof (written_mute (sy_conn y) s buf fin) as Hm. destruct (written (sy_conn y) s buf fin) as [c' s']. exact (mute_hush _ _ id s s' Es Ei Hm).
Qed.

Lemma resetForPeerError_Dinv n w F c id code : CW * (n + 1) < 2 ^ 62 -> inv true n w F c -> Dinv c -> 0 <= code < 2 ^ 62 -> Dinv (resetForPeerError c id code).1.
Proof.
  intros Hn H Hd Hcode. unfold resetForPeerError. set (c1 := on c id (fun c s => stopSendingLocked c s code)). assert (inv true n w F c1) as H1 by (apply on_ok; auto; intros s Hs; apply (inv_stopSending W CW MI MIU true n w F c id s); auto; lia).
  pose proof (stopSending_Dinv true n w F c id code H Hd) as D1. fold c1 in D1. set (c2 := on c1 id (fun c s => resetLocked c s code)). assert (inv true n w F c2) as H2 by (apply on_ok; auto; intros s Hs; apply (inv_resetLocked W CW MI MIU true n w F c1 id s); auto; lia).
  assert (Dinv c2) as D2 by (refine (hush_Dinv _ _ (on_hush true n w F c1 id _ H1 _) D1); intros s; apply resetLocked_mute). destruct (streams c2 !! id) as [s|] eqn:Es; [|exact D2].
  pose proof (resetCounted_mute c2 s) as Hm. destruct (resetCounted c2 s) as [[c3 s3] ok]. exact (mute_Dinv c2 c3 id s s3 D2 Es (ci_sid _ (iv_I _ _ _ _ _ _ _ _ _ H2) id s Es) Hm).
Qed.

(** ** A run *)

Definition op_says (o : op) : Prop := match o with Packet payload => says w0 payload | _ => True end.

Lemma step_Dinv n m y o y' :
  pp_ok pp -> 0 <= W <= 2 ^ 62 -> good W CW MI MIU n m y -> Dinv (sy_conn y) -> op_ok o -> op_says o -> CW * (n + got o + 2) < 2 ^ 62 -> step W CW MI MIU pp y o = Some (y', true) -> Dinv (sy_conn y').
Proof.
  intros Hpp HW Hg Hd Ho Hs Hn. pose proof Hg as [H1 _]. assert (0 <= got o) as Hgot by (destruct o; cbn; try lia; apply len_nonneg). destruct (cr_n _ _ _ _ _ _ (iv_R _ _ _ _ _ _ _ _ _ H1)) as (_ & Hn0 & HC). assert (CW * (n + 1) < 2 ^ 62) as Hn1 by nia.
  assert (forall y1 y2, hush (sy_conn y) (sy_conn y1) -> Some (y1, true) = Some (y2, true) -> Dinv (sy_conn y2)) as Hh by (intros y1 y2 Hu [= <-]; exact (hush_Dinv _ _ Hu Hd)).
  destruct o as [payload|bidi|id p fin owned|id parts fin|id code|id code|id code|id|id k|max early|k|k|k]; cbn [step op_ok op_says got] in *.
  - destruct Ho as [Ho Hl]. destruct (handleFrames W CW MI MIU pp (sy_conn y) payload) as [[c' r]|] eqn:E; [|discriminate]. intros [= <- Hr]. destruct r as [x| |]; try discriminate. exact (handleFrames_Dinv n _ _ _ payload c' x Hpp HW H1 Hd Ho Hl ltac:(lia) Hs E).
  - apply Hh. exact (open_hush true n _ _ _ bidi H1).
  - apply Hh. apply (writeTo_hush n m); [exact Hg|]. intros c s. unfold writeLocked. destruct (unwritable c s); [now left|right; eauto].
  - apply Hh. apply (writeTo_hush n m); [exact Hg|]. intros c s. unfold writePartsLocked. destruct (unwritable c s); [now left|right; eauto].
  - apply Hh. cbn. unfold resetStream. destruct (closed _); [apply hush_refl|]. apply (on_hush true n _ _ _ _ _ H1). intros s. apply resetLocked_mute.
  - intros [= <-]. cbn. unfold stopStream. destruct (closed _); [exact Hd|]. exact (stopSending_Dinv true n _ _ _ id code H1 Hd).
  - destruct (closed _); [apply Hh, hush_refl|]. pose proof (resetForPeerError_Dinv n _ _ _ id code Hn1 H1 Hd Ho) as Hp. destruct (resetForPeerError _ _ _) as [c' ok]. now intros [= <- _].
  - apply Hh. apply (on_hush true n _ _ _ _ _ H1). intros s. apply HoldCredit_mute.
  - apply Hh. apply (on_hush true n _ _ _ _ _ H1). intros s. apply Credit_mute.
  - destruct (fillPacket_ok W CW MI MIU n _ _ _ max early H1 Hn1) as (c' & b' & q & -> & _ & Hq). apply Hh. now apply quiet_hush.
  - destruct (sy_flight y !! k) as [q|] eqn:Ek; [|apply Hh, hush_refl]. apply Hh. destruct (flight_split y k q Ek) as [E1 _]. rewrite E1 in H1. exact (acks_hush q n _ _ _ _ Hn1 H1).
  - destruct (sy_flight y !! k) as [q|] eqn:Ek; [|apply Hh, hush_refl]. apply Hh. destruct (flight_split y k q Ek) as [E1 _]. rewrite E1 in H1. exact (losses_hush q n _ _ _ _ Hn1 H1).
  - destruct (sy_flight y !! k) as [q|] eqn:Ek; [|apply Hh, hush_refl]. apply Hh. destruct (flight_split y k q Ek) as [E1 _]. rewrite E1 in H1. exact (losses_hush q n _ _ _ _ Hn1 H1).
Qed.

Lemma run_Dinv ops n m y y' :
  pp_ok pp -> 0 <= W <= 2 ^ 62 -> good W CW MI MIU n m y -> Dinv (sy_conn y) -> Forall op_ok ops -> Forall op_says ops -> CW * (n + sumOf got ops + 2) < 2 ^ 62 -> m + sumOf gave ops < 2 ^ 62 ->
  run W CW MI MIU pp y ops = Some (y', true) -> Dinv (sy_conn y').
Proof.
  intros Hpp HW. revert n m y. induction ops as [|o ops IH]; intros n m y Hg Hd Ho Hs Hn Hm; [now intros [= <-]|]. inversion Ho as [|? ? Ho1 Ho2]; subst. inversion Hs as [|? ? Hs1 Hs2]; subst. cbn [sumOf foldr] in *. fold (sumOf got ops) in *. fold (sumOf gave ops) in *.
  pose proof (sumOf_nonneg ops) as [P1 P2]. destruct (cr_n _ _ _ _ _ _ (iv_R _ _ _ _ _ _ _ _ _ (gd_inv _ _ _ _ _ _ _ Hg))) as (_ & _ & HC). cbn [run].
  destruct (step_good W CW MI MIU pp n m y o Hpp HW Hg Ho1) as (y1 & live & E & Hy1); [nia|lia|]. rewrite E. destruct live; [|discriminate]. assert (CW * (n + got o + 2) < 2 ^ 62) as Hn1 by nia.
  apply (IH _ _ y1 (Hy1 eq_refl) (step_Dinv n m y o y1 Hpp HW Hg Hd Ho1 Hs1 Hn1 E) Ho2 Hs2); [nia|lia].
Qed.

Lemma start_Dinv cl maxData maxBidi maxUni rl gl : Dinv (sy_conn (start CW MI MIU cl maxData maxBidi maxUni rl gl)).
Proof. intros id. exists [], Going. cbn. now rewrite lookup_empty. Qed.

Lemma agrees_prefix v d : agrees (cont v) 0 d -> len d <= len v -> d `prefix_of` v.
Proof.
  intros Ha Hl. exists (drop (length d) v). rewrite <- (take_drop (length d) v) at 1. f_equal. apply list_eq. intros k. unfold len in Hl. destruct (d !! k) as [x|] eqn:E.
  - pose proof (lookup_lt_Some _ _ _ E) as Hk. specialize (Ha k x E). rewrite lookup_take_lt by exact Hk. destruct (lookup_lt_is_Some_2 v k ltac:(lia)) as [z Ez]. rewrite Ez. f_equal. revert Ha. unfold cont. rewrite Z.add_0_l, Nat2Z.id, Ez. cbn. congruence.
  - apply lookup_ge_None in E. rewrite lookup_take_ge by exact E. reflexivity.
Qed.

(** ** Properties *)

(** What the application heard of a stream whose peer wrote [v] to it. *)
Definition delivered (c : conn) (id : Z) (v : bytes) : Prop :=
  exists d ph, heard id (events c) = Some (d, ph) /\ d `prefix_of` v /\ (ph = Ended -> d = v) /\
    forall s, streams c !! id = Some s -> recvDone (rs s) = true -> stopSent (rs s) = false -> ph = Ended \/ ph = Cut.

Lemma Dinv_delivered c id : Dinv c -> delivered c id (w0 id).
Proof.
  intros Hd. destruct (Hd id) as (d & ph & Hh & Hs). exists d, ph. split; [exact Hh|]. destruct (streams c !! id) as [s|] eqn:Es.
  - destruct Hs as [_ [D2 D3] _ _ _ D6]. pose proof (agrees_prefix _ _ D2 D3) as Hp. split; [exact Hp|]. split.
    + intros ->. destruct D6 as [_ El]. destruct Hp as [r Er]. assert (r = []) as ->; [|now rewrite app_nil_r in Er]. apply nil_length_inv. rewrite Er, len_app in El. unfold len in El. lia.
    + intros t [= <-] E1 E2. destruct ph; auto. rewrite D6 in E2 by exact E1. discriminate.
  - destruct Hs as [-> ->]. split; [apply prefix_nil|]. split; discriminate.
Qed.

(** C1: whatever a connection's peer wrote to its streams, if the STREAM frames of the packets received are of those
    bytes, cut, repeated, overlapped and reordered in any way, and whatever else happens in between - other frames,
    calls of the application, packets sent, acknowledged and lost - while the connection goes on the application is
    handed a prefix of each stream's bytes, in order and once; it hears the end only after the last byte, and a reset
    only before the end; and nothing after either. A stream all of which was received has had its end. *)
Theorem quic_delivery cl maxData maxBidi maxUni rl gl ops :
  settings W CW MI MIU pp maxData maxBidi maxUni -> runnable CW ops -> Forall op_says ops ->
  exists y live, run W CW MI MIU pp (start CW MI MIU cl maxData maxBidi maxUni rl gl) ops = Some (y, live) /\ (live = true -> forall id, delivered (sy_conn y) id (w0 id)).
Proof.
  intros Hs Hr Hsay. destruct (run_good W CW MI MIU pp cl maxData maxBidi maxUni rl gl ops Hs Hr) as (y & live & E & _). exists y, live. split; [exact E|]. intros -> id. apply Dinv_delivered.
  refine (run_Dinv ops 0 0 _ y (se_params _ _ _ _ _ _ _ _ Hs) (proj1 (se_window _ _ _ _ _ _ _ _ Hs)) (start_good _ _ _ _ _ _ _ _ _ _ _ Hs) (start_Dinv _ _ _ _ _ _) (rn_ops _ _ Hr) Hsay _ _ E); [exact (rn_got _ _ Hr)|exact (rn_gave _ _ Hr)].
Qed.

End Config.

(** ** Witnesses *)

(** The peer's bytes come out of order and twice over. *)
Definition posted (id : Z) : bytes := if id =? 0 then [1; 2; 3; 4; 5] else [].

Definition shuffled : list op :=
  [Packet [0x0f; 0; 3; 2; 4; 5]; Open true; Packet [0x0a; 0; 2; 1; 2; 0x0e; 0; 1; 3; 2; 3; 4]; Packet [0x0a; 0; 1; 1]; Flush 1200 false].

(** All of it is heard, in order, and its end. *)
Example shuffled_heard :
  match run 1000 1500 4 3 peerGives (start 1500 4 3 false 1000 5 5 [] []) shuffled with
  | Some (y, live) => (live, heard 0 (events (sy_conn y))) = (true, Some ([1; 2; 3; 4; 5], Ended))
  | None => False
  end.
Proof. vm_compute. reflexivity. Qed.

Lemma quic_delivery_witness :
  exists y live, run 1000 1500 4 3 peerGives (start 1500 4 3 false 1000 5 5 [] []) shuffled = Some (y, live) /\ (live = true -> forall id, delivered (sy_conn y) id (posted id)).
Proof.
  apply (quic_delivery 1000 1500 4 3 peerGives posted false 1000 5 5 [] [] shuffled served_settings).
  - split; [|vm_compute; reflexivity|vm_compute; reflexivity]. repeat (apply List.Forall_cons; [first [exact I|split; [now apply bytes_okb_ok|reflexivity]]|]). apply List.Forall_nil.
  - repeat (apply List.Forall_cons; [first [exact I|unfold op_says, says; vm_compute framesOf; repeat (apply List.Forall_cons; [apply soundb_ok; vm_compute; reflexivity|]); apply List.Forall_nil]|]). apply List.Forall_nil.
Defined.

End QDeliver.
