(* ===== verification/QuicLeak.v ===== *)
(** * Credit that is lost (src/http3/quic/stream.go, conn.go)

    A stream that is done takes no more frames, so that what was received of it and
    what counts as read stay as they are, whatever follows. If it was stopped with
    bytes waiting behind a gap, the two differ for good, and the connection's peer
    may send that much less than its window from then on. *)

From S2P Require Import Prelude QuicVarint QuicRanges QuicRecv QuicSend QuicFrames QuicStream QuicFlow QuicOut QuicWake QuicConn QuicStep QuicRun QuicDeliver.
From stdpp Require Import base list numbers gmap.
From Stdlib Require Import ZArith Lia.

Local Open Scope Z_scope.
Local Open Scope go_scope.

Module QLeak.
Import Varint Recv QStream QFlow QOut QWake QConn QStep QRun QDeliver.

(** ** A stream that is done *)

(** What of a stream the credit of its connection goes by. *)
Definition credited (s : stream) : bool * Z * Z * Z := (done s, recvRead (rs s), recvHigh (rs s), offset (recv (rs s))).

(** A stream done with [r] bytes read of [h] received. *)
Definition spent (id r h : Z) (c : conn) : Prop :=
  exists s o, streams c !! id = Some s /\ credited s = (true, r, h, o) /\ o <= r.

(** A step after which such streams are as they were. *)
Definition spends (c c' : conn) : Prop := forall id r h, spent id r h c -> spent id r h c'.

(** What is done to a stream once it is done. *)
Definition idle (s s' : stream) : Prop := done s = true -> offset (recv (rs s)) <= recvRead (rs s) -> credited s' = credited s.

Lemma spends_refl c : spends c c.
Proof. intros id r h H. exact H. Qed.

Lemma spends_trans c1 c2 c3 : spends c1 c2 -> spends c2 c3 -> spends c1 c3.
Proof. intros H1 H2 id r h H. auto. Qed.

Lemma spends_same c c' : streams c' = streams c -> spends c c'.
Proof. intros E id r h H. unfold spent. now rewrite E. Qed.

Lemma spends_old c c' : (forall i s, streams c !! i = Some s -> streams c' !! i = Some s) -> spends c c'.
Proof. intros H id r h (s & o & Hs & E). exists s, o. auto. Qed.

Lemma spends_put c c' i s s' : streams c !! i = Some s -> sid s' = i -> streams c' = streams c -> idle s s' -> spends c (put c' s').
Proof.
  intros Hi Hs Hst Hid id r h (t & o & Ht & E & Hle). unfold spent, put. cbn [set_streams streams]. rewrite Hs, Hst. destruct (decide (id = i)) as [->|Hne]; [|exists t, o; now rewrite lookup_insert_ne by congruence].
  exists s', o. rewrite lookup_insert_eq. split; [reflexivity|]. split; [|exact Hle]. rewrite Hi in Ht. injection Ht as <-. rewrite <- E. apply Hid; [exact (f_equal (fun x => x.1.1.1) E)|]. pose proof (f_equal (fun x => x.1.1.2) E) as E1. pose proof (f_equal snd E) as E2. cbn in E1, E2. lia.
Qed.

Lemma quiet_spends c c' : quiet c c' -> spends c c'.
Proof.
  intros [_ Hl] id r h (s & o & Hs & E & Hle). specialize (Hl id). rewrite Hs in Hl. unfold spent. destruct (streams c' !! id) as [s'|]; [|discriminate]. exists s', o. split; [reflexivity|]. split; [|exact Hle]. rewrite <- E.
  injection Hl as E1 E2 E3 E4 E5 E6 E7 E8. unfold credited. congruence.
Qed.

(** ** What the handlers do to it *)

Lemma queue_idle c s s' : idle s s' -> idle s (queueStream c s').2.
Proof. intros H. unfold queueStream. destruct (_ && _); exact H. Qed.

Lemma finish_idle MI MIU c s s' : credited s' = credited s -> idle s (maybeFinish MI MIU c s').2.
Proof. intros E Hd _. unfold maybeFinish. assert (done s' = true) as -> by (rewrite <- Hd; exact (f_equal (fun x => x.1.1.1) E)). exact E. Qed.

Lemma stop_idle c s code : idle s (stopSendingLocked c s code).2.
Proof. unfold stopSendingLocked. destruct (_ || _ || _); [easy|]. now apply queue_idle. Qed.

Lemma Credit_idle W CW c s n : idle s (Credit W CW c s n).2.
Proof.
  intros Hd Ho. unfold Credit. destruct (_ || _); [reflexivity|]. set (s1 := st_rs s _). unfold consumed. change (recvRead (rs s1)) with (recvRead (rs s)). rewrite (proj2 (Z.ltb_ge _ _)) by (cbn; lia).
  unfold queueStream. repeat (destruct (_ <? _) || destruct (_ && _) || destruct (_ || _)); try reflexivity.
Qed.

(** One stream told something. *)
Definition told (c : conn) (s : stream) (p : conn * stream) : Prop := streams p.1 = streams c /\ sid p.2 = sid s /\ idle s p.2.

Lemma told_same c s : told c s (c, s).
Proof. now split. Qed.

Lemma told_queue c s s' : sid s' = sid s -> idle s s' -> told c s (queueStream c s').
Proof. intros E Hi. split; [|split; [|now apply queue_idle]]; unfold queueStream; destruct (_ && _); auto. Qed.

Lemma told_finish MI MIU c s s' : sid s' = sid s -> credited s' = credited s -> told c s (maybeFinish MI MIU c s').
Proof. intros E Hi. destruct (maybeFinish_tidy MI MIU c s') as (E1 & E2 & _). split; [now rewrite E1|]. split; [now rewrite E2|now apply finish_idle]. Qed.

Lemma told_reset c s code : told c s (resetLocked c s code).
Proof. unfold resetLocked. destruct (_ || _ || _); [apply told_same|now apply told_queue]. Qed.

Lemma told_counted c s : told c s (resetCounted c s).1.
Proof. destruct (resetCounted_cases c s) as (l & f & ->). now split. Qed.

Lemma told_stop c s code : told c s (stopSendingLocked c s code).
Proof. unfold stopSendingLocked. destruct (_ || _ || _); [apply told_same|now apply told_queue]. Qed.

Lemma told_credit W CW c s n : told c s (Credit W CW c s n).
Proof. destruct (Credit_mute W CW c s n) as (E1 & E2 & _). split; [exact E1|]. split; [exact E2|apply Credit_idle]. Qed.

Lemma told_hold c s : told c s (c, HoldCredit s).
Proof. unfold HoldCredit. destruct (negb _); now split. Qed.

Lemma told_written c s b fin : told c s (written c s b fin).
Proof. unfold written. now destruct fin; apply told_queue. Qed.

Lemma told_acked MI MIU c s off k fin : told c s (onDataAcked MI MIU c s off k fin).
Proof. unfold onDataAcked. destruct (reset _); [apply told_same|]. now destruct fin; apply told_finish. Qed.

Lemma told_lost c s off k fin : told c s (onDataLost c s off k fin).
Proof. unfold onDataLost. destruct (_ || _); [apply told_same|]. now destruct (_ && _); apply told_queue. Qed.

Lemma told_queued c s s' (b : bool) : sid s' = sid s -> idle s s' -> told c s (if b then queueStream c s' else (c, s)).
Proof. intros E Hi. destruct b; [now apply told_queue|apply told_same]. Qed.

Lemma told_blocked c s at' : told c s (onBlockedLost c s at').
Proof. unfold onBlockedLost. destruct (_ && _); [|apply told_same]. destruct (b_pending _); [now apply told_queue|now split]. Qed.

(** A stream of the connection told so. *)
Lemma told_spends c id s p : streams c !! id = Some s -> sid s = id -> told c s p -> spends c (put p.1 p.2).
Proof. intros Hi Hs (H1 & H2 & H3). apply (spends_put c p.1 id s p.2); congruence || assumption. Qed.

Section Config.
Context (W CW MI MIU : Z) (pp : option peerLimits).
Local Notation inv := (inv W CW MI MIU).

Lemma on_spends a n w F c id h : inv a n w F c -> (forall s, told c s (h c s)) -> spends c (on c id h).
Proof.
  intros Hinv Ht. unfold on. destruct (streams c !! id) as [s|] eqn:E; [|apply spends_refl]. pose proof (told_spends c id s (h c s) E (ci_sid _ (iv_I _ _ _ _ _ _ _ _ _ Hinv) id s E) (Ht s)) as H. now destruct (h c s).
Qed.

Lemma frameAcked_spends a n w F c f : inv a n w F c -> spends c (frameAcked MI MIU c f).
Proof. intros Hinv. destruct f; cbn [frameAcked]; try apply spends_refl; apply (on_spends a n w F); auto; intros s; [apply told_acked|now apply told_finish]. Qed.

Lemma frameLost_spends a n w F c f : inv a n w F c -> spends c (frameLost c f).
Proof.
  intros Hinv. destruct f as [id off k fin|id|id|id|id at'| |b|at'|b at']; cbn [frameLost]; try (apply spends_same; now try destruct b); apply (on_spends a n w F); auto; intros s;
    [apply told_lost|now apply told_queued|now apply told_queued|now apply told_queued|apply told_blocked].
Qed.

Lemma acks_spend q n w F1 F2 c : CW * (n + 1) < 2 ^ 62 -> inv true n w (F1 ++ q ++ F2) c -> spends c (foldl (frameAcked MI MIU) c q).
Proof.
  intros Hn. revert c. induction q as [|f q IH]; intros c H; [apply spends_refl|]. cbn [foldl]. apply (spends_trans _ (frameAcked MI MIU c f)); [now apply (frameAcked_spends true n w _ _ _ H)|]. apply IH. exact (inv_acked W CW MI MIU n w F1 (q ++ F2) c ltac:(lia) f H).
Qed.

Lemma losses_spend q n w F1 F2 c : CW * (n + 1) < 2 ^ 62 -> inv true n w (F1 ++ q ++ F2) c -> spends c (foldl frameLost c q).
Proof.
  intros Hn. revert c. induction q as [|f q IH]; intros c H; [apply spends_refl|]. cbn [foldl]. apply (spends_trans _ (frameLost c f)); [now apply (frameLost_spends true n w _ _ _ H)|]. apply IH. exact (inv_lost W CW MI MIU n w F1 (q ++ F2) c ltac:(lia) true f H).
Qed.

Lemma glitch_spends c : spends c (glitch c).1.
Proof. apply spends_same. unfold glitch. now destruct (glitches c). Qed.

Lemma wakeOne_spends n w F c id : inv false n w F c -> spends c (wakeOne c id).
Proof.
  intros Hinv. unfold wakeOne, streamByID. destruct (streams c !! id) as [s|] eqn:Es; [|apply spends_refl]. destruct (done s) eqn:Ed; [apply spends_refl|]. pose proof (sendable_ok _ _ _ _ _ (cx_xok _ _ _ (iv_X _ _ _ _ _ _ _ _ _ Hinv) id s Es)) as Hs. destruct (sendable c s) as [s1 more]. cbn [fst snd] in Hs. destruct Hs as (_ & Hs & _).
  assert (sid s1 = sid s) as E1 by exact (f_equal sid Hs). assert (forall t, idle s t) as Hi by (intros t Ht; congruence).
  pose proof (told_spends c id s (if more then queueStream c s1 else (c, s1)) Es (ci_sid _ (iv_I _ _ _ _ _ _ _ _ _ Hinv) id s Es)) as H. destruct more; [specialize (H (told_queue c s s1 E1 (Hi s1))); now destruct (queueStream c s1)|]. apply H. now split.
Qed.

Lemma wakeAll_spends l n w F c : inv false n w F c -> CW * (n + 1) < 2 ^ 63 -> spends c (foldl wakeOne c l).
Proof.
  revert c. induction l as [|id l IH]; intros c Hinv Hn; [apply spends_refl|]. cbn [foldl]. apply (spends_trans _ (wakeOne c id)); [now apply (wakeOne_spends n w F)|]. apply IH; [|exact Hn]. now apply (wakeOne_ok W CW MI MIU n w F c id Hinv Hn).
Qed.

Lemma queueSendable_spends a n w F c : inv a n w F c -> CW * (n + 1) < 2 ^ 63 -> spends c (queueSendable c).
Proof. intros [HR HI HX [Q1 Q2 Q3]] Hn. apply (wakeAll_spends _ n w F); [|exact Hn]. split; auto. split; auto. discriminate. Qed.

(** ** The frames of a packet *)

Section Frames.
Context (a : bool) (n : Z) (w : Z -> bytes) (F : list sentFrame).
Context (Hpp : pp_ok pp) (HW : 0 <= W <= 2 ^ 62) (Hn : CW * (n + 2) < 2 ^ 63).

(** A frame is about a stream that is not done. *)
Lemma onStream_spends c id side f c' x :
  inv a n w F c -> 0 <= id < 2 ^ 62 ->
  (forall c1 s c2 s2 o, inv a n w F c1 -> streams c1 !! id = Some s -> sid s = id -> f c1 s = Some (c2, s2, o) -> o = Handled x -> streams c2 = streams c1 /\ sid s2 = sid s) ->
  onStream W pp c id side f = Some (c', Handled x) -> spends c c'.
Proof.
  intros Hinv Hid Hf. pose proof (peerStream_ok W CW MI MIU pp a n w F c id side Hinv Hpp HW Hid) as Hp. unfold onStream. destruct (peerStream W pp c id side) as [c1 r]. destruct Hp as (H1 & Hg & Hs). pose proof (spends_old _ _ (gr_old _ _ _ _ Hg)) as Hk.
  destruct r as [[s|]|e]; [|now intros [= <- _]|discriminate]. destruct (Hs s eq_refl) as [Hs1 Hd]. destruct (f c1 s) as [[[c2 s2] o]|] eqn:E; [|discriminate]. intros [= <- Ho]. apply (spends_trans _ _ _ Hk).
  pose proof (ci_sid _ (iv_I _ _ _ _ _ _ _ _ _ H1) id s Hs1) as Ei. destruct (Hf c1 s c2 s2 o H1 Hs1 Ei E Ho) as [E1 E2]. apply (told_spends c1 id s (c2, s2) Hs1 Ei). split; [exact E1|]. split; [exact E2|]. intros Hd'. congruence.
Qed.

Lemma handleFrame_spends c f c' x : inv a n w F c -> frame_ok f -> handleFrame W CW MI MIU pp c f = Some (c', Handled x) -> spends c c'.
Proof.
  intros Hinv Hf. assert (streams (glitch c).1 = streams c) as G1 by (unfold glitch; now destruct (glitches c)).
  destruct f as [| |id code size|id code|id off data fin|m|id m|b m|at'|id at'|b at'|typ]; cbn [handleFrame frame_ok] in *.
  - intros [= <- _]. apply spends_refl.
  - intros [= <- _]. apply spends_refl.
  - assert (0 <= size < 2 ^ 62) as Hsz by tauto. apply onStream_spends; [exact Hinv|tauto|]. intros c1 s c2 s2 o H1 H3 H4 E Ho. destruct (onResetStream W CW MI MIU c1 s code size) as [[c3 s3] e] eqn:Er. injection E as <- <- <-. destruct e; [discriminate|].
    destruct (lok_frame W CW MI MIU a n w F Hn c1 id s H1 H3) as (HL & HN & Hm & _). destruct (onResetStream_ok _ _ _ _ _ _ _ _ _ _ _ _ _ _ HL HN Hm Hsz Er) as (_ & _ & Ht). pose proof (rt_others _ _ _ _ _ _ Ht) as Hot. split; [exact (ot_streams _ _ _ _ Hot)|exact (ot_sid _ _ _ _ Hot)].
  - apply onStream_spends; [exact Hinv|tauto|]. intros c1 s c2 s2 o H1 H3 H4 E Ho. destruct (onStopSending c1 s code) as [[c3 s3] e] eqn:Er. injection E as <- <- _. destruct (onStopSending_mute _ _ _ _ _ _ Er) as (E1 & E2 & _). auto.
  - destruct Hf as (Hid & Hoff & Hl). apply onStream_spends; [exact Hinv|exact Hid|]. intros c1 s c2 s2 o H1 H3 H4 E Ho.
    assert (exists c3 ok, (if (len data =? 0) && negb fin then glitch c1 else (c1, true)) = (c3, ok) /\ inv a n w F c3 /\ streams c3 = streams c1) as (c3 & ok & Eg & I3 & Est).
    { destruct (inv_glitch W CW MI MIU a n w F c1 H1) as (? & ? & _). destruct ((len data =? 0) && negb fin); [exists (glitch c1).1, (glitch c1).2; splits; auto; apply surjective_pairing|eauto 8]. }
    rewrite Eg in E. destruct ok; [|cbn in E; congruence]. cbn [negb] in E. destruct (onStreamFrame W CW MI MIU c3 s off data fin) as [[[c4 s4] e]|] eqn:Er; [|discriminate]. injection E as <- <- <-. destruct e; [discriminate|]. rewrite <- Est in H3.
    destruct (inv_onStreamFrame W CW MI MIU a n w F Hn c3 id s off data fin I3 H3 Hoff Hl) as (c5 & s5 & e & E5 & He). rewrite Er in E5. injection E5 as <- <- <-. destruct (He eq_refl) as [_ Ht]. pose proof (ft_others _ _ _ _ _ _ _ _ Ht) as Hot. split; [rewrite <- Est; exact (ot_streams _ _ _ _ Hot)|exact (ot_sid _ _ _ _ Hot)].
  - destruct (_ <? _); intros [= <- _]; now apply spends_same.
  - apply onStream_spends; [exact Hinv|tauto|]. intros c1 s c2 s2 o H1 H3 H4 E Ho. destruct (_ <? _); [|now injection E as <- <- _]. pose proof (queue_mute c1 s (st_ss s (sd_sendMax (ss s) m)) eq_refl eq_refl) as (E1 & E2 & _). destruct (queueStream c1 _) as [c3 s3]. injection E as <- <- _. auto.
  - destruct (_ <? _); [discriminate|]. destruct (_ <? _); intros [= <- _]; [|apply spends_refl]. apply spends_same. now destruct b.
  - destruct (blockedAt_cases c (dataBlockedAt c) at' (recvMaxData c)) as (c1 & y & o & -> & [->| ->]); intros [= <- _]; apply spends_same; auto.
  - apply onStream_spends; [exact Hinv|exact Hf|]. intros c1 s c2 s2 o H1 H3 H4 E Ho. destruct (blockedAt_cases c1 (blockedAt_ (rs s)) at' (recvMax (rs s))) as (c3 & y & o3 & Eb & Hc). rewrite Eb in E. injection E as <- <- _. split; [|reflexivity]. destruct Hc as [->| ->]; auto. unfold glitch. now destruct (glitches c1).
  - destruct (blockedAt_cases c (q_blockedAt (quotaOf c b)) at' (q_max (quotaOf c b))) as (c1 & y & o & -> & [->| ->]); intros [= <- _]; apply spends_same; destruct b; auto.
  - discriminate.
Qed.

End Frames.

Lemma framesLoop_spends fuel a n w F c r pinged asked raised c' x fl :
  pp_ok pp -> 0 <= W <= 2 ^ 62 -> inv a n w F c -> bytes_ok (r_b r) -> len (r_b r) < 2 ^ 62 -> CW * (n + len (r_b r) + 2) < 2 ^ 63 ->
  framesLoop W CW MI MIU pp fuel c r pinged asked raised = Some (c', Handled x, fl) -> spends c c'.
Proof.
  intros Hpp HW. revert a n c r pinged asked raised. induction fuel as [|fuel IH]; intros a n c r pinged asked raised Hinv Hb Hl Hn; [discriminate|]. pose proof (len_nonneg (r_b r)).
  destruct (cr_n _ _ _ _ _ _ (iv_R _ _ _ _ _ _ _ _ _ Hinv)) as (_ & Hn0 & HC). cbn [framesLoop]. destruct (len (r_b r) =? 0); [intros [= <- _ _]; apply spends_refl|]. destruct (closed c); [intros [= <- _ _]; apply spends_refl|]. cbn [orb].
  destruct (readFrame r) as [f r1] eqn:E. destruct (r_bad r1) eqn:Eb; [discriminate|]. destruct (readFrame_ok r f r1 Hb Hl E Eb) as (Hf & Hb1 & Hl1). assert (len (r_b r1) + 1 <= len (r_b r)) by (unfold len; lia).
  destruct (handleFrame_ok W CW MI MIU pp a n w F Hpp HW ltac:(nia) c f Hinv Hf) as (c1 & o & Eh & Ho). rewrite Eh. destruct o as [asking|e|t]; [|discriminate..]. specialize (Ho asking eq_refl). intros Hrun.
  apply (spends_trans _ c1); [exact (handleFrame_spends a n w F Hpp HW ltac:(nia) c f c1 asking Hinv Hf Eh)|]. refine (IH _ (n + 1) c1 r1 _ _ _ Ho Hb1 _ _ Hrun); [lia|nia].
Qed.

Lemma handleFrames_spends n w F c payload c' x :
  pp_ok pp -> 0 <= W <= 2 ^ 62 -> inv true n w F c -> bytes_ok payload -> len payload < 2 ^ 62 -> CW * (n + len payload + 2) < 2 ^ 63 ->
  handleFrames W CW MI MIU pp c payload = Some (c', Handled x) -> spends c c'.
Proof.
  intros Hpp HW Hinv Hb Hl Hn. pose proof (len_nonneg payload). destruct (cr_n _ _ _ _ _ _ (iv_R _ _ _ _ _ _ _ _ _ Hinv)) as (_ & Hn0 & HC). unfold handleFrames. destruct (len payload =? 0); [discriminate|].
  destruct (framesLoop_ok W CW MI MIU pp (S (length payload)) true n w F c (mkReader payload false) false false false) as (c1 & o & [[pinged asked] raised] & E & Ho); auto. rewrite E. destruct o as [y|e|t]; [|discriminate..].
  pose proof (framesLoop_spends _ true n w F c (mkReader payload false) _ _ _ _ _ _ Hpp HW Hinv Hb Hl Hn E) as K1. destruct (Ho y eq_refl) as (a' & Hi & _). cbn [r_b] in Hi.
  assert (spends c (if raised then queueSendable c1 else c1)) as K2 by (destruct raised; [|exact K1]; refine (spends_trans _ _ _ K1 (queueSendable_spends a' _ w F c1 Hi _)); nia).
  set (c2 := if raised then queueSendable c1 else c1) in *. destruct (_ && _ && _); [pose proof (glitch_spends c2) as Hg; destruct (glitch c2) as [c3 ok]|]; (intros H'; injection H' as <- Ho'); [|exact K2]. exact (spends_trans _ _ _ K2 Hg).
Qed.

(** ** A step *)

Lemma open_spends a n w F c bidi : inv a n w F c -> spends c (openStreamLocked W pp c bidi).1.
Proof.
  intros Hinv. unfold openStreamLocked. destruct (closed c); [apply spends_refl|]. destruct (Z.leb_spec (a_max (allowanceOf c bidi)) (a_opened (allowanceOf c bidi))) as [|Hlt]; [apply spends_same; now destruct bidi|]. cbn [fst].
  pose proof (open_new W CW MI MIU a n w F c bidi Hinv Hlt) as Es. cbv zeta in Es. set (id := if isClient c then _ else _) in *. clearbody id. apply spends_old. intros i s Hs. unfold newStream, put. cbn [freshStream sid set_streams streams].
  rewrite lookup_insert_ne by congruence. now destruct bidi.
Qed.

Lemma writeTo_spends n m y id p f :
  good W CW MI MIU n m y -> (forall c s, f c s = (c, s, false) \/ exists buf fin, f c s = (written c s buf fin, true)) -> spends (sy_conn y) (sy_conn (writeTo y id p f)).
Proof.
  intros [Hinv _] Hf. unfold writeTo. destruct (streams (sy_conn y) !! id) as [s|] eqn:Es; [|apply spends_refl]. pose proof (ci_sid _ (iv_I _ _ _ _ _ _ _ _ _ Hinv) id s Es) as Ei. destruct (Hf (sy_conn y) s) as [->|(buf & fin & ->)].
  - exact (told_spends _ id s _ Es Ei (told_same _ s)).
  - pose proof (told_spends _ id s _ Es Ei (told_written (sy_conn y) s buf fin)) as H. now destruct (written (sy_conn y) s buf fin).
Qed.

Lemma resetForPeerError_spends n w F c id code : CW * (n + 1) < 2 ^ 62 -> inv true n w F c -> 0 <= code < 2 ^ 62 -> spends c (resetForPeerError c id code).1.
Proof.
  intros Hn H Hcode. unfold resetForPeerError. set (c1 := on c id (fun c s => stopSendingLocked c s code)). assert (inv true n w F c1) as H1 by (apply on_ok; auto; intros s Hs; apply (inv_stopSending W CW MI MIU true n w F c id s); auto; lia).
  assert (spends c c1) as K1 by (apply (on_spends true n w F _ _ _ H); intros s; apply told_stop). set (c2 := on c1 id (fun c s => resetLocked c s code)). assert (inv true n w F c2) as H2 by (apply on_ok; auto; intros s Hs; apply (inv_resetLocked W CW MI MIU true n w F c1 id s); auto; lia).
  assert (spends c c2) as K2 by (apply (spends_trans _ _ _ K1); apply (on_spends true n w F _ _ _ H1); intros s; apply told_reset). destruct (streams c2 !! id) as [s|] eqn:Es; [|exact K2].
  pose proof (told_spends c2 id s _ Es (ci_sid _ (iv_I _ _ _ _ _ _ _ _ _ H2) id s Es) (told_counted c2 s)) as K3. destruct (resetCounted c2 s) as [[c3 s3] ok]. exact (spends_trans _ _ _ K2 K3).
Qed.

Lemma step_spends n m y o y' :
  pp_ok pp -> 0 <= W <= 2 ^ 62 -> good W CW MI MIU n m y -> op_ok o -> CW * (n + got o + 2) < 2 ^ 62 -> step W CW MI MIU pp y o = Some (y', true) -> spends (sy_conn y) (sy_conn y').
Proof.
  intros Hpp HW Hg Ho Hn. pose proof Hg as [H1 _]. assert (0 <= got o) as Hgot by (destruct o; cbn; try lia; apply len_nonneg). destruct (cr_n _ _ _ _ _ _ (iv_R _ _ _ _ _ _ _ _ _ H1)) as (_ & Hn0 & HC). assert (CW * (n + 1) < 2 ^ 62) as Hn1 by nia.
  assert (forall y1 y2, spends (sy_conn y) (sy_conn y1) -> Some (y1, true) = Some (y2, true) -> spends (sy_conn y) (sy_conn y2)) as Hk by (intros y1 y2 Hu [= <-]; exact Hu).
  destruct o as [payload|bidi|id p fin owned|id parts fin|id code|id code|id code|id|id k|max early|k|k|k]; cbn [step op_ok got] in *.
  - destruct Ho as [Ho Hl]. destruct (handleFrames W CW MI MIU pp (sy_conn y) payload) as [[c' r]|] eqn:E; [|discriminate]. intros [= <- Hr]. destruct r as [x| |]; try discriminate. exact (handleFrames_spends n _ _ _ payload c' x Hpp HW H1 Ho Hl ltac:(lia) E).
  - apply Hk. exact (open_spends true n _ _ _ bidi H1).
  - apply Hk. apply (writeTo_spends n m); [exact Hg|]. intros c s. unfold writeLocked. destruct (unwritable c s); [now left|right; eauto].
  - apply Hk. apply (writeTo_spends n m); [exact Hg|]. intros c s. unfold writePartsLocked. destruct (unwritable c s); [now left|right; eauto].
  - apply Hk. cbn. unfold resetStream. destruct (closed _); [apply spends_refl|]. apply (on_spends true n _ _ _ _ _ H1). intros s. apply told_reset.
  - apply Hk. cbn. unfold stopStream. destruct (closed _); [apply spends_refl|]. apply (on_spends true n _ _ _ _ _ H1). intros s. apply told_stop.
  - destruct (closed _); [apply Hk, spends_refl|]. pose proof (resetForPeerError_spends n _ _ _ id code Hn1 H1 Ho) as Hp. destruct (resetForPeerError _ _ _) as [c' ok]. now intros [= <- _].
  - apply Hk. apply (on_spends true n _ _ _ _ _ H1). intros s. apply told_hold.
  - apply Hk. apply (on_spends true n _ _ _ _ _ H1). intros s. apply told_credit.
  - destruct (fillPacket_ok W CW MI MIU n _ _ _ max early H1 Hn1) as (c' & b' & q & -> & _ & Hq). apply Hk. now apply quiet_spends.
  - destruct (sy_flight y !! k) as [q|] eqn:Ek; [|apply Hk, spends_refl]. apply Hk. destruct (flight_split y k q Ek) as [E1 _]. rewrite E1 in H1. exact (acks_spend q n _ _ _ _ Hn1 H1).
  - destruct (sy_flight y !! k) as [q|] eqn:Ek; [|apply Hk, spends_refl]. apply Hk. destruct (flight_split y k q Ek) as [E1 _]. rewrite E1 in H1. exact (losses_spend q n _ _ _ _ Hn1 H1).
  - destruct (sy_flight y !! k) as [q|] eqn:Ek; [|apply Hk, spends_refl]. apply Hk. destruct (flight_split y k q Ek) as [E1 _]. rewrite E1 in H1. exact (losses_spend q n _ _ _ _ Hn1 H1).
Qed.

Lemma run_spends ops n m y y' :
  pp_ok pp -> 0 <= W <= 2 ^ 62 -> good W CW MI MIU n m y -> Forall op_ok ops -> CW * (n + sumOf got ops + 2) < 2 ^ 62 -> m + sumOf gave ops < 2 ^ 62 ->
  run W CW MI MIU pp y ops = Some (y', true) -> spends (sy_conn y) (sy_conn y').
Proof.
  intros Hpp HW. revert n m y. induction ops as [|o ops IH]; intros n m y Hg Ho Hn Hm; [intros [= <-]; apply spends_refl|]. inversion Ho as [|? ? Ho1 Ho2]; subst. cbn [sumOf foldr] in *. fold (sumOf got ops) in *. fold (sumOf gave ops) in *.
  pose proof (sumOf_nonneg ops) as [P1 P2]. destruct (cr_n _ _ _ _ _ _ (iv_R _ _ _ _ _ _ _ _ _ (gd_inv _ _ _ _ _ _ _ Hg))) as (_ & _ & HC). cbn [run].
  destruct (step_good W CW MI MIU pp n m y o Hpp HW Hg Ho1) as (y1 & live & E & Hy1); [nia|lia|]. rewrite E. destruct live; [|discriminate]. assert (CW * (n + got o + 2) < 2 ^ 62) as Hn1 by nia. intros Hrun.
  apply (spends_trans _ (sy_conn y1)); [exact (step_spends n m y o y1 Hpp HW Hg Ho1 Hn1 E)|]. refine (IH _ _ y1 (Hy1 eq_refl) Ho2 _ _ Hrun); [nia|lia].
Qed.

(** The difference stays with the connection. *)
Lemma spent_gap n m y id r h : good W CW MI MIU n m y -> spent id r h (sy_conn y) -> recvConsumed (sy_conn y) + (h - r) <= recvData (sy_conn y) /\ recvMaxData (sy_conn y) <= recvData (sy_conn y) + CW - (h - r).
Proof.
  intros [[HR _ _ _] _] (s & o & Hs & E & _). destruct (cr_max _ _ _ _ _ _ HR) as [_ Hm]. assert (recvConsumed (sy_conn y) + (h - r) <= recvData (sy_conn y)); [|lia]. rewrite (cr_cons _ _ _ _ _ _ HR), (cr_data _ _ _ _ _ _ HR).
  destruct (total_rest readTo high (streams (sy_conn y)) id s Hs) as [_ H]; [intros j t Ht; pose proof (ro_read _ _ (cr_rok _ _ _ _ _ _ HR j t Ht)); unfold readTo, high; lia|].
  pose proof (f_equal (fun x => x.1.1.2) E : recvRead (rs s) = r) as E1. pose proof (f_equal (fun x => x.1.2) E : recvHigh (rs s) = h) as E2. unfold readTo, high in *. lia.
Qed.

End Config.

(** ** What a stopped stream held *)

(** The two halves of a stream of 200 bytes, the second with its end. *)
Definition secondHalf (id : Z) : op := Packet ([0x0f; id; 0x40; 100; 0x40; 100] ++ replicate 100 7).
Definition firstHalf (id : Z) : op := Packet ([0x0a; id; 0x40; 100] ++ replicate 100 7).

(** A server's connection, with a window of 1500 bytes. *)
Definition served (ops : list op) : option (sys * bool) := run 1000 1500 4 3 peerGives (start 1500 4 3 false 1000 5 5 [] []) ops.

(** Whether the connection goes on, what of the stream was read and received and
    whether it is done, and what of the connection's credit is used and given back. *)
Definition credit (id : Z) (ops : list op) : option (bool * option (bool * Z * Z * Z) * Z * Z) :=
  '(y, live) ← served ops; Some (live, credited <$> streams (sy_conn y) !! id, recvData (sy_conn y), recvConsumed (sy_conn y)).

(** The second half of the client's stream 2 comes, the application asks the client to
    stop, and the first half comes. *)
Definition leak : list op := [secondHalf 2; StopSending 2 3; firstHalf 2].

Lemma leak_spent : exists y, served leak = Some (y, true) /\ spent 2 100 200 (sy_conn y).
Proof.
  destruct (served leak) as [[y live]|] eqn:E; [|vm_compute in E; discriminate]. exists y. assert (credit 2 leak = Some (true, Some (true, 100, 200, 0), 200, 100)) as H by (vm_compute; reflexivity).
  unfold credit in H. rewrite E in H. cbn [mbind option_bind] in H.
  pose proof (f_equal (fun o => default false (option_map (fun x => x.1.1.1) o)) H) as Hl. pose proof (f_equal (fun o => default None (option_map (fun x => x.1.1.2) o)) H) as Hc. cbn in Hl, Hc. subst live. split; [reflexivity|].
  destruct (streams (sy_conn y) !! 2) as [s|] eqn:Es; [|discriminate]. exists s, 0. split; [exact Es|]. split; [|lia]. exact (f_equal (default (credited s)) Hc).
Qed.

Lemma run_concat W CW MI MIU pp y a b : run W CW MI MIU pp y (a ++ b) = match run W CW MI MIU pp y a with Some (y, true) => run W CW MI MIU pp y b | r => r end.
Proof. revert y. induction a as [|o a IH]; intros y; [reflexivity|]. cbn [run app]. destruct (step W CW MI MIU pp y o) as [[y1 []]|]; [apply IH|reflexivity..]. Qed.

Lemma sumOf_app f a b : sumOf f (a ++ b) = sumOf f a + sumOf f b.
Proof. unfold sumOf. induction a as [|o a IH]; cbn [app foldr]; lia. Qed.

Lemma runnable_app CW a b : 0 <= CW -> runnable CW (a ++ b) -> runnable CW a /\ Forall op_ok b.
Proof.
  intros HC [H1 H2 H3]. apply Forall_app in H1 as [Ha Hb]. rewrite sumOf_app in *. destruct (sumOf_nonneg a), (sumOf_nonneg b). split; [|exact Hb]. split; [exact Ha|nia|lia].
Qed.

(** C28: the bytes a stream holds out of order when the application asks the peer to stop are not counted as read, nor
    are they when the gap before them is filled: of a stream of the client's stopped between its second half, which had
    its end, and its first, all 200 bytes were received, 100 of them count as read, and the stream is done. Without the
    stop, or stopped before the second half came, all 200 count. And they are never counted after, whatever frames the
    peer sends, the end of the stream again or its reset among them, and whatever the application does: as long as the
    connection goes on, what counts as read stays 100 bytes at least behind what was received, and the limit given to
    the peer 100 below the window. *)
Theorem stopped_credit_lost :
  credit 2 leak = Some (true, Some (true, 100, 200, 0), 200, 100) /\
  credit 2 [secondHalf 2; firstHalf 2] = Some (true, Some (true, 200, 200, 200), 200, 200) /\
  credit 2 [Packet [0x0a; 2; 0]; StopSending 2 3; secondHalf 2; firstHalf 2] = Some (true, Some (true, 200, 200, 0), 200, 200) /\
  forall ops, runnable 1500 (leak ++ ops) ->
    exists y live, served (leak ++ ops) = Some (y, live) /\
      (live = true -> recvConsumed (sy_conn y) + 100 <= recvData (sy_conn y) /\ recvMaxData (sy_conn y) <= recvData (sy_conn y) + 1500 - 100).
Proof.
  split; [vm_compute; reflexivity|]. split; [vm_compute; reflexivity|]. split; [vm_compute; reflexivity|]. intros ops Hr.
  destruct (run_good 1000 1500 4 3 peerGives false 1000 5 5 [] [] _ served_settings Hr) as (y & live & E & Hg). exists y, live. split; [exact E|]. intros ->. specialize (Hg eq_refl).
  destruct leak_spent as (y0 & E0 & Hs). destruct (runnable_app 1500 leak ops ltac:(lia) Hr) as [Hl Ho]. destruct (run_good 1000 1500 4 3 peerGives false 1000 5 5 [] [] _ served_settings Hl) as (y1 & l1 & E1 & Hg1). unfold served in E0. rewrite E0 in E1. injection E1 as <- <-. specialize (Hg1 eq_refl).
  rewrite run_concat, E0 in E. destruct Hr as [_ H2 H3]. rewrite sumOf_app in H2, H3. apply (spent_gap 1000 1500 4 3 _ _ y 2 100 200 Hg).
  refine (run_spends 1000 1500 4 3 peerGives ops _ _ y0 y _ _ Hg1 Ho _ _ E 2 100 200 Hs); [apply (se_params _ _ _ _ _ _ _ _ served_settings)|lia|lia|lia].
Qed.

(** The end of the stream again, and its reset. *)
Definition again : list op := [secondHalf 2; Packet [0x04; 2; 3; 0x40; 200]; Credit_ 2 100].

Lemma stopped_credit_lost_witness :
  exists y live, served (leak ++ again) = Some (y, live) /\ (live = true -> recvConsumed (sy_conn y) + 100 <= recvData (sy_conn y) /\ recvMaxData (sy_conn y) <= recvData (sy_conn y) + 1500 - 100).
Proof.
  destruct stopped_credit_lost as (_ & _ & _ & H). apply (H again). split; [|vm_compute; reflexivity|vm_compute; reflexivity].
  repeat (apply List.Forall_cons; [first [exact I|split; [now apply bytes_okb_ok|reflexivity]|cbn; lia]|]). apply List.Forall_nil.
Defined.

End QLeak.
