(* ===== verification/WsUtf8.v ===== *)
(** * WebSocket text: incremental UTF-8 (src/websocket/utf8.go)

    The validator a text message goes through as its pieces arrive, [Valid] for
    the standard library's utf8.Valid, and what both mean: the bytes are the
    encodings of Unicode scalar values. *)

From S2P Require Import Prelude.
From stdpp Require Import base list numbers.
From Stdlib Require Import ZArith Lia.

Local Open Scope Z_scope.
Local Open Scope go_scope.

(** Division and remainder by a constant are linear. *)
Ltac Zify.zify_post_hook ::= Z.to_euclidean_division_equations.

Module Utf8.

(** ** utf8.Valid *)

Definition within (lo hi b : Z) : bool := (lo <=? b) && (b <=? hi).

Fixpoint Valid (s : bytes) : bool :=
  match s with
  | [] => true
  | b0 :: s =>
      if b0 <? 0x80 then Valid s
      else if within 0xc2 0xdf b0 then
        match s with b1 :: s => within 0x80 0xbf b1 && Valid s | _ => false end
      else if within 0xe0 0xef b0 then
        let lo := if b0 =? 0xe0 then 0xa0 else 0x80 in
        let hi := if b0 =? 0xed then 0x9f else 0xbf in
        match s with b1 :: b2 :: s => within lo hi b1 && within 0x80 0xbf b2 && Valid s | _ => false end
      else if within 0xf0 0xf4 b0 then
        let lo := if b0 =? 0xf0 then 0x90 else 0x80 in
        let hi := if b0 =? 0xf4 then 0x8f else 0xbf in
        match s with
        | b1 :: b2 :: b3 :: s => within lo hi b1 && within 0x80 0xbf b2 && within 0x80 0xbf b3 && Valid s
        | _ => false
        end
      else false
  end.

(** ** The validator *)

Record utf8Validator : Type := mkV { need : Z; v_lo : Z; v_hi : Z }.

Definition complete (v : utf8Validator) : bool := need v =? 0.

Definition reset : utf8Validator := mkV 0 0 0.

(** [None] where the code returns false. *)
Definition step (v : utf8Validator) (b : Z) : option utf8Validator :=
  if negb (need v =? 0) then
    if (b <? v_lo v) || (v_hi v <? b) then None else Some (mkV (need v - 1) 0x80 0xbf)
  else if b <? 0x80 then Some (mkV 0 0x80 0xbf)
  else if (0xc2 <=? b) && (b <=? 0xdf) then Some (mkV 1 0x80 0xbf)
  else if b =? 0xe0 then Some (mkV 2 0xa0 0xbf)
  else if b =? 0xed then Some (mkV 2 0x80 0x9f)
  else if (0xe1 <=? b) && (b <=? 0xef) then Some (mkV 2 0x80 0xbf)
  else if b =? 0xf0 then Some (mkV 3 0x90 0xbf)
  else if (0xf1 <=? b) && (b <=? 0xf3) then Some (mkV 3 0x80 0xbf)
  else if b =? 0xf4 then Some (mkV 3 0x80 0x8f)
  else None.

(** [for v.need != 0]: what is left of [p] once the sequence is whole. *)
Fixpoint drain (v : utf8Validator) (p : bytes) : option (utf8Validator * bytes) :=
  if need v =? 0 then Some (v, p)
  else
    match p with
    | [] => Some (v, [])
    | b :: p => match step v b with None => None | Some v => drain v p end
    end.

(** Where a sequence that the end of [p] cuts off starts, from [i] down. *)
Fixpoint tailLoop (k : nat) (i : Z) (p : bytes) : Z :=
  match k with
  | O => len p
  | S k =>
      if i <? 0 then len p
      else
        let b := nth (Z.to_nat i) p 0 in
        if negb (b .& 0xc0 =? 0x80) then (if 0xc0 <=? b then i else len p) else tailLoop k (i - 1) p
  end.

Definition write (v : utf8Validator) (p : bytes) : option utf8Validator :=
  match drain v p with
  | None => None
  | Some (v, p) =>
      if negb (need v =? 0) then Some v
      else
        let tail := tailLoop 3 (len p - 1) p in
        if negb (Valid (ztake tail p)) then None else foldM step v (zdrop tail p)
  end.

(** ** Lemmas: one byte at a time *)

(** States that go on the same way: the bounds count only inside a sequence. *)
Definition veq (v w : utf8Validator) : Prop := need v = need w /\ (need v <> 0 -> v = w).

#[export] Instance veq_equiv : Equivalence veq.
Proof.
  split.
  - intros v. split; auto.
  - intros v w [H1 H2]. split; [auto|]. intros H. symmetry. apply H2. congruence.
  - intros u v w [H1 H2] [H3 H4]. split; [congruence|]. intros H. rewrite H2 by auto. apply H4. congruence.
Qed.

Definition vok (v : utf8Validator) : Prop := 0 <= need v <= 3 /\ (need v <> 0 -> 0x80 <= v_lo v /\ v_hi v <= 0xbf).

Lemma step_veq v w b : veq v w -> step v b = step w b.
Proof.
  intros [H1 H2]. unfold step. rewrite <- H1. destruct (Z.eqb_spec (need v) 0) as [|Hn]; [reflexivity|]. now rewrite <- (H2 Hn).
Qed.

Lemma step_ok v b v' : vok v -> step v b = Some v' -> vok v'.
Proof.
  intros [H1 H2]. unfold step, vok. destruct (Z.eqb_spec (need v) 0) as [|Hn]; cbn [negb].
  - repeat (case_match; [intros [= <-]; cbn; lia|]). discriminate.
  - destruct (_ || _); [discriminate|]. intros [= <-]. cbn. lia.
Qed.

Lemma steps_app v p q : foldM step v (p ++ q) = match foldM step v p with Some v => foldM step v q | None => None end.
Proof. revert v. induction p as [|b p IH]; intros v; cbn [foldM app]; [reflexivity|]. destruct (step v b); auto. Qed.

Lemma steps_ok v p v' : vok v -> foldM step v p = Some v' -> vok v'.
Proof.
  revert v. induction p as [|b p IH]; intros v Hv; cbn [foldM]; [now intros [= <-]|].
  destruct (step v b) as [w|] eqn:E; [|discriminate]. apply IH. exact (step_ok _ _ _ Hv E).
Qed.

(** The same verdict, and states that go on the same way. *)
Definition oeq (x y : option utf8Validator) : Prop :=
  match x, y with Some v, Some w => veq v w | None, None => True | _, _ => False end.

#[export] Instance oeq_equiv : Equivalence oeq.
Proof.
  split.
  - intros [v|]; cbn; [reflexivity|auto].
  - intros [v|] [w|]; cbn; auto. intros H. now symmetry.
  - intros [u|] [v|] [w|]; cbn; auto; try tauto. intros H1 H2. now transitivity v.
Qed.

Lemma steps_veq v w p : veq v w -> oeq (foldM step v p) (foldM step w p).
Proof.
  destruct p as [|b p]; [auto|]. intros H. cbn [foldM]. rewrite (step_veq v w b H). destruct (step w b); [reflexivity|exact I].
Qed.

(** A byte of a sequence, or the first of one. *)
Lemma step_cont v b : need v <> 0 -> step v b = if (v_lo v <=? b) && (b <=? v_hi v) then Some (mkV (need v - 1) 0x80 0xbf) else None.
Proof. intros Hn. unfold step. rewrite (proj2 (Z.eqb_neq _ _) Hn). cbn [negb]. bool_cases; auto; lia. Qed.

Lemma step_first v b : need v = 0 -> step v b = step reset b.
Proof. intros Hn. unfold step. now rewrite Hn. Qed.

(** The kinds of first byte, as [Valid] has them. *)
Lemma step_class b :
  step reset b =
  if b <? 0x80 then Some (mkV 0 0x80 0xbf)
  else if within 0xc2 0xdf b then Some (mkV 1 0x80 0xbf)
  else if within 0xe0 0xef b then Some (mkV 2 (if b =? 0xe0 then 0xa0 else 0x80) (if b =? 0xed then 0x9f else 0xbf))
  else if within 0xf0 0xf4 b then Some (mkV 3 (if b =? 0xf0 then 0x90 else 0x80) (if b =? 0xf4 then 0x8f else 0xbf))
  else None.
Proof.
  unfold step. cbn [need reset Z.eqb negb]. fold (within 0xc2 0xdf b). destruct (b <? 0x80); [reflexivity|]. destruct (within 0xc2 0xdf b); [reflexivity|].
  destruct (Z.eqb_spec b 0xe0) as [->|He0]; [reflexivity|]. destruct (Z.eqb_spec b 0xed) as [->|Hed]; [reflexivity|].
  destruct (Z.eqb_spec b 0xf0) as [->|Hf0]; [reflexivity|]. destruct (Z.eqb_spec b 0xf4) as [->|Hf4]; [reflexivity|]. unfold within.
  assert ((0xe1 <=? b) = (0xe0 <=? b)) as -> by (apply eq_true_iff_eq; rewrite !Z.leb_le; lia).
  destruct ((0xe0 <=? b) && (b <=? 0xef)); [reflexivity|].
  assert ((0xf1 <=? b) = (0xf0 <=? b)) as -> by (apply eq_true_iff_eq; rewrite !Z.leb_le; lia).
  assert ((b <=? 0xf3) = (b <=? 0xf4)) as -> by (apply eq_true_iff_eq; rewrite !Z.leb_le; lia). reflexivity.
Qed.

Lemma Valid_steps s v : need v = 0 -> Valid s = match foldM step v s with Some w => complete w | None => false end.
Proof.
  remember (length s) as n eqn:En. revert s v En. induction n as [n IH] using (well_founded_induction lt_wf). intros s v En Hv.
  assert (forall t w, (length t < n)%nat -> need w = 0 -> Valid t = match foldM step w t with Some w => complete w | None => false end) as IH'.
  { intros t w Ht. apply (IH (length t)); auto. }
  destruct s as [|b0 s]; cbn [foldM]; [unfold complete; now rewrite Hv|]. cbn [length] in En. subst n.
  rewrite (step_first v b0 Hv), step_class. cbn [Valid].
  destruct (b0 <? 0x80); [apply IH'; [lia|reflexivity]|].
  destruct (within 0xc2 0xdf b0).
  { destruct s as [|b1 s]; [reflexivity|]. cbn [foldM]. rewrite step_cont by discriminate. cbn [v_lo v_hi need]. fold (within 0x80 0xbf b1).
    destruct (within _ _ b1); [|reflexivity]. apply IH'; [cbn; lia|reflexivity]. }
  destruct (within 0xe0 0xef b0).
  { set (lo := if b0 =? 0xe0 then _ else _). set (hi := if b0 =? 0xed then _ else _).
    destruct s as [|b1 s]; [reflexivity|]. cbn [foldM]. rewrite step_cont by discriminate. cbn [v_lo v_hi need]. fold (within lo hi b1).
    destruct s as [|b2 s]; [now destruct (within lo hi b1)|]. destruct (within lo hi b1); [|reflexivity]. cbn [andb foldM].
    rewrite step_cont by discriminate. cbn [v_lo v_hi need]. fold (within 0x80 0xbf b2).
    destruct (within _ _ b2); [|reflexivity]. apply IH'; [cbn; lia|reflexivity]. }
  destruct (within 0xf0 0xf4 b0); [|reflexivity].
  set (lo := if b0 =? 0xf0 then _ else _). set (hi := if b0 =? 0xf4 then _ else _).
  destruct s as [|b1 s]; [reflexivity|]. cbn [foldM]. rewrite step_cont by discriminate. cbn [v_lo v_hi need]. fold (within lo hi b1).
  destruct s as [|b2 s]; [now destruct (within lo hi b1)|].
  destruct (within lo hi b1); [|now destruct s]. cbn [andb foldM].
  rewrite step_cont by discriminate. cbn [v_lo v_hi need]. fold (within 0x80 0xbf b2).
  destruct s as [|b3 s]; [now destruct (within _ _ b2)|]. destruct (within _ _ b2); [|reflexivity]. cbn [andb foldM].
  rewrite step_cont by discriminate. cbn [v_lo v_hi need]. fold (within 0x80 0xbf b3).
  destruct (within _ _ b3); [|reflexivity]. apply IH'; [cbn; lia|reflexivity].
Qed.

(** ** Lemmas: the bulk check *)

Lemma drain_steps v p :
  match drain v p with
  | None => foldM step v p = None
  | Some (w, q) => foldM step v p = foldM step w q /\ (need w <> 0 -> q = [])
  end.
Proof.
  revert v. induction p as [|b p IH]; intros v; cbn [drain]; destruct (Z.eqb_spec (need v) 0) as [E|E]; auto.
  - split; [reflexivity|]. lia.
  - cbn [foldM]. destruct (step v b) as [w|]; [|reflexivity]. exact (IH w).
Qed.

(** A byte that continues a sequence. *)
Lemma cont_byte b : is_byte b -> (b .& 0xc0 =? 0x80) = within 0x80 0xbf b.
Proof. intros Hb. unfold within. byte_check b. Qed.

(** A byte that starts a sequence is taken only between sequences. *)
Lemma step_start v b w : vok v -> 0xc0 <= b -> step v b = Some w -> need v = 0.
Proof.
  intros [_ Hb] Hc H. destruct (Z.eq_dec (need v) 0) as [|Hn]; [assumption|]. rewrite step_cont in H by exact Hn.
  specialize (Hb Hn). rewrite (proj2 (Z.leb_gt b (v_hi v))), andb_false_r in H by lia. discriminate.
Qed.

Lemma step_ascii v b w : vok v -> b < 0x80 -> step v b = Some w -> need v = 0 /\ need w = 0.
Proof.
  intros [_ Hb] Hc H. destruct (Z.eq_dec (need v) 0) as [Hn|Hn].
  - rewrite step_first, step_class, (proj2 (Z.ltb_lt _ _) Hc) in H by exact Hn. injection H as <-. auto.
  - rewrite step_cont in H by exact Hn. specialize (Hb Hn). rewrite (proj2 (Z.leb_gt (v_lo v) b)) in H by lia. discriminate.
Qed.

Lemma step_middle v b w : within 0x80 0xbf b = true -> step v b = Some w -> need v <> 0 /\ need w = need v - 1.
Proof.
  intros Hb H. apply andb_true_iff in Hb as [H1 H2]. apply Z.leb_le in H1, H2. destruct (Z.eq_dec (need v) 0) as [Hn|Hn].
  - rewrite step_first, step_class in H by exact Hn. unfold within in H. exfalso. revert H. bool_cases; cbn [andb]; try discriminate; lia.
  - split; [exact Hn|]. rewrite step_cont in H by exact Hn. destruct (_ && _); [|discriminate]. now injection H as <-.
Qed.

(** After a run of continuation bytes that passes. *)
Lemma steps_middle v p w :
  Forall (fun b => within 0x80 0xbf b = true) p -> vok v -> foldM step v p = Some w -> need w = need v - len p /\ 0 <= need w.
Proof.
  intros Hp. revert v. induction Hp as [|b p Hb _ IH]; intros v Hv; cbn [foldM].
  - intros [= <-]. change (len []) with 0. destruct Hv. lia.
  - destruct (step v b) as [u|] eqn:E; [|discriminate]. intros H. apply IH in H; [|exact (step_ok _ _ _ Hv E)].
    destruct (step_middle v b u Hb E). rewrite len_cons. lia.
Qed.

(** The loop's answer, for the [n] bytes it has gone past at the end of [p]. *)
Lemma tailLoop_spec k pre suf :
  bytes_ok (pre ++ suf) -> Forall (fun b => within 0x80 0xbf b = true) suf ->
  let t := tailLoop k (len pre - 1) (pre ++ suf) in
  (exists q b r, pre = q ++ b :: r /\ 0xc0 <= b /\ t = len q /\ Forall (fun b => within 0x80 0xbf b = true) r) \/
  (t = len (pre ++ suf) /\
   ((exists q b r, pre = q ++ b :: r /\ b < 0x80 /\ Forall (fun b => within 0x80 0xbf b = true) r) \/
    Forall (fun b => within 0x80 0xbf b = true) pre \/
    (exists q r, pre = q ++ r /\ length r = k /\ Forall (fun b => within 0x80 0xbf b = true) r))).
Proof.
  revert pre suf. induction k as [|k IH]; intros pre suf Hok Hs; cbn [tailLoop].
  - right. split; [reflexivity|]. right. right. exists pre, []. rewrite app_nil_r. auto.
  - destruct pre as [|b pre _] using rev_ind.
    + change (len []) with 0. cbn [Z.ltb]. right. split; [reflexivity|]. right. left. constructor.
    + rewrite len_app. change (len [b]) with 1. replace (len pre + 1 - 1) with (len pre) by lia.
      rewrite (proj2 (Z.ltb_ge _ _)) by apply len_nonneg.
      assert (nth (Z.to_nat (len pre)) ((pre ++ [b]) ++ suf) 0 = b) as ->.
      { unfold len. rewrite Nat2Z.id, <- app_assoc. rewrite List.app_nth2 by lia. now rewrite Nat.sub_diag. }
      assert (is_byte b) as Hb. { rewrite <- app_assoc in Hok. apply bytes_ok_app in Hok as [_ Hok]. exact (Forall_inv Hok). }
      rewrite cont_byte by exact Hb. destruct (within 0x80 0xbf b) eqn:Ew; cbn [negb].
      * rewrite <- app_assoc in *. cbn [app] in *. destruct (IH pre (b :: suf) Hok) as [(q & c & r & -> & Hc & Ht & Hr)|[Ht Hcases]]; [now constructor|..].
        -- left. exists q, c, (r ++ [b]). rewrite <- app_assoc. splits; auto. apply Forall_app. auto.
        -- right. split; [exact Ht|]. destruct Hcases as [(q & c & r & -> & Hc & Hr)|[Hall|(q & r & -> & Hlen & Hr)]].
           ++ left. exists q, c, (r ++ [b]). rewrite <- app_assoc. splits; auto. apply Forall_app. auto.
           ++ right. left. apply Forall_app. auto.
           ++ right. right. exists q, (r ++ [b]). rewrite <- app_assoc, length_app. cbn. splits; auto; [lia|]. apply Forall_app. auto.
      * destruct (Z.leb_spec 0xc0 b) as [Hc|Hc].
        -- left. exists pre, b, []. auto.
        -- right. split; [reflexivity|]. left. exists pre, b, []. splits; auto.
           unfold within in Ew. destruct Hb. apply Z.nle_gt. intros Hle. apply andb_false_iff in Ew as [E|E]; apply Z.leb_gt in E; lia.
Qed.

Lemma ztake_all {A} (l : list A) : ztake (len l) l = l.
Proof. unfold ztake, len. rewrite Nat2Z.id. apply take_ge. lia. Qed.

(** What is left for the byte-by-byte check starts between sequences. *)
Lemma tail_boundary v p w :
  bytes_ok p -> vok v -> need v = 0 -> foldM step v p = Some w ->
  exists u, foldM step v (ztake (tailLoop 3 (len p - 1) p) p) = Some u /\ need u = 0.
Proof.
  intros Hp Hv Hn Hw. pose proof (tailLoop_spec 3 p []) as H. rewrite app_nil_r in H. specialize (H Hp ltac:(constructor)). cbv zeta in H.
  destruct H as [(q & b & r & -> & Hb & -> & Hr)|[-> Hcases]].
  - rewrite ztake_app. rewrite steps_app in Hw. destruct (foldM step v q) as [u|] eqn:Eu; [|discriminate].
    exists u. split; [reflexivity|]. cbn [foldM] in Hw. destruct (step u b) as [x|] eqn:Ex; [|discriminate].
    exact (step_start _ _ _ (steps_ok _ _ _ Hv Eu) Hb Ex).
  - exists w. rewrite ztake_all. split; [exact Hw|].
    destruct Hcases as [(q & b & r & -> & Hb & Hr)|[Hall|(q & r & -> & Hl & Hr)]].
    + rewrite steps_app in Hw. destruct (foldM step v q) as [u|] eqn:Eu; [|discriminate]. cbn [foldM] in Hw.
      destruct (step u b) as [x|] eqn:Ex; [|discriminate]. pose proof (steps_ok _ _ _ Hv Eu) as Hu.
      destruct (step_ascii _ _ _ Hu Hb Ex) as [_ Hx]. destruct (steps_middle _ _ _ Hr (step_ok _ _ _ Hu Ex) Hw).
      pose proof (len_nonneg r). lia.
    + destruct (steps_middle _ _ _ Hall Hv Hw). pose proof (len_nonneg p). lia.
    + rewrite steps_app in Hw. destruct (foldM step v q) as [u|] eqn:Eu; [|discriminate].
      pose proof (steps_ok _ _ _ Hv Eu) as [Hu _]. destruct (steps_middle _ _ _ Hr (steps_ok _ _ _ Hv Eu) Hw). unfold len in *. lia.
Qed.

(** The bulk check is the byte-by-byte one. *)
Lemma write_steps v p : bytes_ok p -> vok v -> oeq (write v p) (foldM step v p).
Proof.
  intros Hp Hv. unfold write. pose proof (drain_steps v p) as Hd. destruct (drain v p) as [[w q]|] eqn:Ed; [|now rewrite Hd].
  destruct Hd as [-> Hq]. assert (vok w /\ bytes_ok q) as [Hw Hbq].
  { clear Hq. revert v Hv Ed. induction Hp as [|b p Hb Hp IH]; intros v Hv; cbn [drain]; destruct (need v =? 0); try (intros [= <- <-]); auto.
    - split; [auto|constructor].
    - split; [auto|constructor].
    - split; [auto|now constructor].
    - destruct (step v b) as [x|] eqn:Ex; [|discriminate]. apply IH. exact (step_ok _ _ _ Hv Ex). }
  destruct (Z.eqb_spec (need w) 0) as [Hn|Hn]; cbn [negb]; [|rewrite (Hq Hn); reflexivity].
  set (t := tailLoop _ _ _). assert (foldM step w q = match foldM step w (ztake t q) with Some u => foldM step u (zdrop t q) | None => None end) as Es.
  { rewrite <- steps_app. unfold ztake, zdrop. now rewrite take_drop. }
  rewrite (Valid_steps _ w Hn). destruct (foldM step w (ztake t q)) as [u|] eqn:Eu.
  - unfold complete. destruct (Z.eqb_spec (need u) 0) as [Hu|Hu]; cbn [negb].
    + rewrite Es. apply steps_veq. split; [congruence|]. lia.
    + destruct (foldM step w q) as [x|] eqn:Ex; [|reflexivity]. destruct (tail_boundary w q x Hbq Hw Hn Ex) as (u' & E & Hu').
      unfold t in Eu. rewrite Eu in E. injection E as ->. lia.
  - cbn [negb]. now rewrite Es.
Qed.

(** A state inside a sequence can be completed. *)
Lemma completes v : vok v -> (need v <> 0 -> v_lo v <= v_hi v) -> exists t w, bytes_ok t /\ foldM step v t = Some w /\ need w = 0.
Proof.
  intros [Hn Hb] Hlo. assert (forall k : nat, (k <= 2)%nat -> foldM step (mkV (Z.of_nat k) 0x80 0xbf) (replicate k 0x80) = Some (mkV 0 0x80 0xbf)) as Hrest.
  { intros [|[|[|k]]] Hk; try reflexivity; lia. }
  destruct (Z.eq_dec (need v) 0) as [E|E]; [exists [], v; splits; [constructor|reflexivity|exact E]|].
  specialize (Hb E). specialize (Hlo E). exists (v_lo v :: replicate (Z.to_nat (need v - 1)) 0x80), (mkV 0 0x80 0xbf). splits; auto.
  - constructor; [unfold is_byte; lia|]. apply Forall_replicate. unfold is_byte. lia.
  - cbn [foldM]. rewrite step_cont by exact E. rewrite (proj2 (Z.leb_le (v_lo v) _)), (proj2 (Z.leb_le _ (v_hi v))) by lia. cbn [andb].
    rewrite <- (Z2Nat.id (need v - 1)) at 1 by lia. apply Hrest. lia.
Qed.

(** The bounds of a state reached are never empty. *)
Lemma step_bounds v b w : step v b = Some w -> v_lo w <= v_hi w.
Proof.
  unfold step. destruct (negb _).
  - destruct (_ || _); [discriminate|]. intros [= <-]. cbn. lia.
  - repeat (case_match; [intros [= <-]; cbn; lia|]). discriminate.
Qed.

Lemma steps_bounds v p w : (need v <> 0 -> v_lo v <= v_hi v) -> foldM step v p = Some w -> need w <> 0 -> v_lo w <= v_hi w.
Proof.
  revert v. induction p as [|b p IH]; intros v Hv; cbn [foldM]; [now intros [= <-]|].
  destruct (step v b) as [u|] eqn:E; [|discriminate]. apply IH. intros _. exact (step_bounds _ _ _ E).
Qed.

Lemma reset_ok : vok reset.
Proof. unfold vok, reset. cbn. lia. Qed.

(** Pieces one after another are one piece. *)
Lemma writes_steps v ps : Forall bytes_ok ps -> vok v -> oeq (foldM write v ps) (foldM step v (concat ps)).
Proof.
  intros Hps. revert v. induction Hps as [|p ps Hp Hps IH]; intros v Hv; cbn [foldM concat]; [reflexivity|].
  rewrite steps_app. pose proof (write_steps v p Hp Hv) as Hw. destruct (write v p) as [w|], (foldM step v p) as [u|] eqn:Eu; cbn in Hw; try tauto.
  assert (vok w) as Hokw. { pose proof (steps_ok _ _ _ Hv Eu) as [H1 H2]. destruct Hw as [E H]. split; [lia|]. intros Hn. rewrite (H Hn). apply H2. congruence. }
  etransitivity; [exact (IH w Hokw)|]. now apply steps_veq.
Qed.

(** ** What UTF-8 is *)

(** A Unicode scalar value, and its encoding (RFC 3629 section 3). *)
Definition scalar (c : Z) : Prop := 0 <= c < 0xd800 \/ 0xe000 <= c < 0x110000.

Definition encode (c : Z) : bytes :=
  if c <? 0x80 then [c]
  else if c <? 0x800 then [0xc0 + c / 64; 0x80 + c mod 64]
  else if c <? 0x10000 then [0xe0 + c / 4096; 0x80 + c / 64 mod 64; 0x80 + c mod 64]
  else [0xf0 + c / 262144; 0x80 + c / 4096 mod 64; 0x80 + c / 64 mod 64; 0x80 + c mod 64].


Lemma encode_bytes c : scalar c -> bytes_ok (encode c).
Proof.
  intros Hc. unfold encode, scalar in *. repeat case_match; repeat (constructor; [unfold is_byte; lia|]); constructor.
Qed.

(** [Valid] takes an encoding off the front. *)
Lemma Valid_encode c s : scalar c -> Valid (encode c ++ s) = Valid s.
Proof.
  intros Hc. unfold encode, scalar in *.
  destruct (Z.ltb_spec c 0x80) as [H1|H1]; [cbn [app Valid]; now rewrite (proj2 (Z.ltb_lt _ _)) by lia|].
  assert (forall lo hi b, lo <= b <= hi -> within lo hi b = true) as Hin by (intros; unfold within; rewrite andb_true_iff, !Z.leb_le; lia).
  assert (forall lo hi b, b < lo \/ hi < b -> within lo hi b = false) as Hout by (intros; unfold within; rewrite andb_false_iff, !Z.leb_gt; lia).
  destruct (Z.ltb_spec c 0x800) as [H2|H2]; [|destruct (Z.ltb_spec c 0x10000) as [H3|H3]]; cbn [app Valid]; rewrite (proj2 (Z.ltb_ge _ 0x80)) by lia.
  - rewrite !Hin by lia. reflexivity.
  - rewrite (Hout 0xc2 0xdf), (Hin 0xe0 0xef), (Hin 0x80 0xbf) by lia. rewrite Hin; [reflexivity|].
    destruct (Z.eqb_spec (0xe0 + c / 4096) 0xe0), (Z.eqb_spec (0xe0 + c / 4096) 0xed); lia.
  - rewrite (Hout 0xc2 0xdf), (Hout 0xe0 0xef), (Hin 0xf0 0xf4), !(Hin 0x80 0xbf) by lia. rewrite Hin; [reflexivity|].
    destruct (Z.eqb_spec (0xf0 + c / 262144) 0xf0), (Z.eqb_spec (0xf0 + c / 262144) 0xf4); lia.
Qed.

(** And nothing else: what it takes off the front is an encoding. *)
Lemma Valid_front b s :
  bytes_ok (b :: s) -> Valid (b :: s) = true -> exists c t, scalar c /\ b :: s = encode c ++ t /\ Valid t = true.
Proof.
  intros Hb. cbn [Valid]. assert (is_byte b) as Hb0 by exact (Forall_inv Hb). unfold is_byte in Hb0.
  assert (forall lo hi x, within lo hi x = true -> lo <= x <= hi) as Hin by (intros; unfold within in *; rewrite andb_true_iff, !Z.leb_le in *; lia).
  destruct (Z.ltb_spec b 0x80) as [H1|H1].
  { intros Hv. exists b, s. unfold scalar, encode. rewrite (proj2 (Z.ltb_lt _ _)) by lia. splits; auto; lia. }
  destruct (within 0xc2 0xdf b) eqn:E2.
  { apply Hin in E2. destruct s as [|b1 s]; [discriminate|]. rewrite andb_true_iff. intros [H Hv]. apply Hin in H.
    exists ((b - 0xc0) * 64 + (b1 - 0x80)), s. unfold scalar, encode. rewrite (proj2 (Z.ltb_ge _ 0x80)), (proj2 (Z.ltb_lt _ 0x800)) by lia.
    splits; auto; [lia|]. cbn. repeat f_equal; lia. }
  destruct (within 0xe0 0xef b) eqn:E3.
  { apply Hin in E3. destruct s as [|b1 [|b2 s]]; try discriminate. rewrite !andb_true_iff. intros [[H Hc] Hv]. apply Hin in H, Hc.
    exists ((b - 0xe0) * 4096 + (b1 - 0x80) * 64 + (b2 - 0x80)), s. unfold scalar, encode.
    assert (0x80 <= b1 <= 0xbf /\ (b = 0xe0 -> 0xa0 <= b1) /\ (b = 0xed -> b1 <= 0x9f)) as (H1' & H2' & H3').
    { destruct (Z.eqb_spec b 0xe0), (Z.eqb_spec b 0xed); lia. } clear H.
    rewrite (proj2 (Z.ltb_ge _ 0x80)), (proj2 (Z.ltb_ge _ 0x800)), (proj2 (Z.ltb_lt _ 0x10000)) by lia.
    splits; auto; [lia|]. cbn. repeat f_equal; lia. }
  destruct (within 0xf0 0xf4 b) eqn:E4; [|discriminate].
  apply Hin in E4. destruct s as [|b1 [|b2 [|b3 s]]]; try discriminate. rewrite !andb_true_iff. intros [[[H Hc] Hd] Hv]. apply Hin in H, Hc, Hd.
  exists ((b - 0xf0) * 262144 + (b1 - 0x80) * 4096 + (b2 - 0x80) * 64 + (b3 - 0x80)), s. unfold scalar, encode.
  assert (0x80 <= b1 <= 0xbf /\ (b = 0xf0 -> 0x90 <= b1) /\ (b = 0xf4 -> b1 <= 0x8f)) as (H1' & H2' & H3').
  { destruct (Z.eqb_spec b 0xf0), (Z.eqb_spec b 0xf4); lia. } clear H.
  rewrite (proj2 (Z.ltb_ge _ 0x80)), (proj2 (Z.ltb_ge _ 0x800)), (proj2 (Z.ltb_ge _ 0x10000)) by lia.
  splits; auto; [lia|]. cbn. repeat f_equal; lia.
Qed.

Lemma encode_length c : (0 < length (encode c))%nat.
Proof. unfold encode. repeat case_match; cbn; lia. Qed.

Lemma Valid_scalars s : bytes_ok s -> Valid s = true -> exists cs, Forall scalar cs /\ s = concat (encode <$> cs).
Proof.
  remember (length s) as n eqn:En. revert s En. induction n as [n IH] using (well_founded_induction lt_wf). intros s -> Hs Hv.
  destruct s as [|b s]; [exists []; auto|]. destruct (Valid_front b s Hs Hv) as (c & t & Hc & E & Ht).
  assert (bytes_ok t) as Hbt. { rewrite E in Hs. now apply bytes_ok_app in Hs as [_ ?]. }
  destruct (IH (length t)) with (s := t) as (cs & Hcs & Et); auto.
  { rewrite E, length_app. pose proof (encode_length c). lia. }
  exists (c :: cs). split; [now constructor|]. cbn. now rewrite <- Et.
Qed.

(** ** Properties *)

(** C39: text checked piece by piece, however it is cut up, gets the verdict of its bytes: the pieces pass and end on a
    boundary exactly when together they are the UTF-8 encodings of Unicode scalar values; and they are failed exactly
    when nothing that could still follow would make them so. *)
Theorem utf8_incremental ps :
  Forall bytes_ok ps ->
  ((exists v, foldM write reset ps = Some v /\ complete v = true) <->
   exists cs, Forall scalar cs /\ concat ps = concat (encode <$> cs)) /\
  (foldM write reset ps = None <-> forall t, bytes_ok t -> Valid (concat ps ++ t) = false).
Proof.
  intros Hps. pose proof (writes_steps reset ps Hps reset_ok) as Hw.
  assert (bytes_ok (concat ps)) as Hb. { clear Hw. induction Hps; [constructor|]. cbn. now apply bytes_ok_app. }
  split.
  - assert ((exists v, foldM write reset ps = Some v /\ complete v = true) <-> Valid (concat ps) = true) as ->.
    { rewrite (Valid_steps _ reset) by reflexivity. destruct (foldM write reset ps) as [v|], (foldM step reset (concat ps)) as [w|]; cbn in Hw; try tauto.
      - destruct Hw as [E _]. unfold complete. rewrite <- E. split; [now intros (x & [= <-] & H)|eauto].
      - split; [now intros (x & H & _)|discriminate]. }
    split; [now apply Valid_scalars|]. intros (cs & Hcs & ->). induction Hcs as [|c cs Hc _ IH]; [reflexivity|]. cbn. now rewrite Valid_encode.
  - assert (foldM write reset ps = None <-> foldM step reset (concat ps) = None) as ->.
    { destruct (foldM write reset ps), (foldM step reset (concat ps)); cbn in Hw; split; auto; try discriminate; tauto. }
    split.
    + intros E t _. rewrite (Valid_steps _ reset), steps_app, E by reflexivity. reflexivity.
    + intros H. destruct (foldM step reset (concat ps)) as [v|] eqn:E; [|reflexivity]. exfalso.
      destruct (completes v (steps_ok _ _ _ reset_ok E)) as (t & w & Ht & Hs & Hn); [exact (steps_bounds reset (concat ps) v ltac:(cbn; lia) E)|].
      specialize (H t Ht). rewrite (Valid_steps _ reset), steps_app, E, Hs in H by reflexivity. unfold complete in H. rewrite Hn in H. discriminate.
Qed.

(** The euro sign in two pieces, and a surrogate half. *)
Lemma utf8_incremental_witness :
  (exists v, foldM write reset [[0x41; 0xe2]; [0x82; 0xac]] = Some v /\ complete v = true) /\
  (exists cs, Forall scalar cs /\ concat [[0x41; 0xe2]; [0x82; 0xac]] = concat (encode <$> cs)) /\
  (foldM write reset [[0xed; 0xa0]] = None /\ forall t, bytes_ok t -> Valid ([0xed; 0xa0] ++ t) = false).
Proof.
  assert (exists v, foldM write reset [[0x41; 0xe2]; [0x82; 0xac]] = Some v /\ complete v = true) as Hv by (eexists; split; vm_compute; reflexivity).
  splits; [exact Hv|..].
  - apply (utf8_incremental [[0x41; 0xe2]; [0x82; 0xac]]); [|exact Hv].
    repeat (apply List.Forall_cons; [apply bytes_okb_ok; reflexivity|]). constructor.
  - vm_compute. reflexivity.
  - intros t. apply (utf8_incremental [[0xed; 0xa0]]); [|vm_compute; reflexivity].
    repeat (apply List.Forall_cons; [apply bytes_okb_ok; reflexivity|]). constructor.
Defined.

End Utf8.
