(* ===== verification/WsFrame.v ===== *)
(** * WebSocket frames (src/websocket/frame.go, handler.go)

    The incremental parser of RFC 6455 frames, with the reassembly of fragmented
    messages, the check of text as it arrives, the delivery frame by frame and
    permessage-deflate; the two ways of feeding it, with and without copying; and
    the writers of frames, masked and not.

    [extra], which the code allocates for the first message that needs it, is
    its zero value here until then: more() allocates it zeroed, and every read
    of a nil one takes the zero value. Where the parser keeps the bytes (its own
    array, the pool's, the lent read buffer) is [borrowedBuffer] only; the
    capacities of the arrays are not modelled. DEFLATE is a parameter. *)

From S2P Require Import Prelude WsUtf8.
From stdpp Require Import base list numbers.
From Stdlib Require Import ZArith Lia.

Local Open Scope Z_scope.
Local Open Scope go_scope.

Module WsFrame.
Import Utf8.

Definition Continuation : Z := 0x0.
Definition Text : Z := 0x1.
Definition Binary : Z := 0x2.
Definition Close : Z := 0x8.
Definition Ping : Z := 0x9.
Definition Pong : Z := 0xa.

Inductive wserr : Type := ErrProtocol | ErrMessageTooBig | ErrInvalidPayload.

#[export] Instance wserr_eq_dec : EqDecision wserr.
Proof. solve_decision. Defined.

Record Event : Type := mkEvent { Opcode : Z; Payload : bytes; Fin : bool }.

Record fragmentedMessage : Type := mkFrag { f_opcode : Z; f_compressed : bool; f_data : bytes }.

Record parserExtra : Type := mkExtra {
  fragment : option fragmentedMessage;
  text : utf8Validator;
  textChecked : Z;
  window : bytes
}.

Record Parser : Type := mkParser {
  maxMessageBytes : Z;
  buffer : bytes;
  borrowedTail : bytes;
  pendingConsume : Z;
  extra : parserExtra;
  fromServer : bool;
  borrowedBuffer : bool;
  perFrame : bool;
  deflate : bool;
  contextTakeover : bool
}.

Definition noExtra : parserExtra := mkExtra None reset 0 [].

Definition NewParser (max : Z) : Parser :=
  let max := if max <=? 0 then 16 .<< 20 else max in
  mkParser max [] [] 0 noExtra false false false false false.

Definition NewServerFrameParser (max : Z) : Parser :=
  let p := NewParser max in
  mkParser (maxMessageBytes p) [] [] 0 noExtra true false false false false.

Definition SetPerFrame (p : Parser) (on : bool) : Parser :=
  mkParser (maxMessageBytes p) (buffer p) (borrowedTail p) (pendingConsume p) (extra p) (fromServer p) (borrowedBuffer p) on
    (deflate p) (contextTakeover p).

(** What feeding changes: the bytes kept, and the messages in progress. *)
Definition setBuf (p : Parser) (b tail : bytes) (pending : Z) (borrowed : bool) : Parser :=
  mkParser (maxMessageBytes p) b tail pending (extra p) (fromServer p) borrowed (perFrame p) (deflate p) (contextTakeover p).

Definition setExtra (p : Parser) (x : parserExtra) : Parser :=
  mkParser (maxMessageBytes p) (buffer p) (borrowedTail p) (pendingConsume p) x (fromServer p) (borrowedBuffer p) (perFrame p)
    (deflate p) (contextTakeover p).

Definition setFragment (x : parserExtra) (f : option fragmentedMessage) : parserExtra := mkExtra f (text x) (textChecked x) (window x).
Definition setText (x : parserExtra) (v : utf8Validator) : parserExtra := mkExtra (fragment x) v (textChecked x) (window x).
Definition setChecked (x : parserExtra) (n : Z) : parserExtra := mkExtra (fragment x) (text x) n (window x).
Definition setWindow (x : parserExtra) (w : bytes) : parserExtra := mkExtra (fragment x) (text x) (textChecked x) w.

Definition Reset (p : Parser) : Parser := setExtra (setBuf p [] [] 0 false) noExtra.

(** ** Masking *)

Definition at_ (b : bytes) (i : Z) : Z := nth (Z.to_nat i) b 0.

(** binary.LittleEndian. *)
Definition le (b : bytes) : Z := foldr (fun x n => (n .<< 8) .| x) 0 b.

Fixpoint putLE (n : nat) (v : Z) : bytes :=
  match n with O => [] | S n => u8 v :: putLE n (v .>> 8) end.

(** PutUint64(b, Uint64(b) ^ mask64), the first eight bytes of [b]. *)
Definition maskWord (mask64 : Z) (b : bytes) : bytes := putLE 8 (Z.lxor (le (take 8 b)) mask64) ++ drop 8 b.

Definition maskWord4 (mask64 : Z) (b : bytes) : bytes :=
  let b := maskWord mask64 b in
  let b := take 8 b ++ maskWord mask64 (drop 8 b) in
  let b := take 16 b ++ maskWord mask64 (drop 16 b) in
  take 24 b ++ maskWord mask64 (drop 24 b).

Fixpoint maskLoop32 (fuel : nat) (mask64 : Z) (b : bytes) : bytes * bytes :=
  match fuel with
  | O => ([], b)
  | S fuel =>
      if 32 <=? len b then
        let b := maskWord4 mask64 b in
        let '(done, rest) := maskLoop32 fuel mask64 (drop 32 b) in (take 32 b ++ done, rest)
      else ([], b)
  end.

Fixpoint maskLoop8 (fuel : nat) (mask64 : Z) (b : bytes) : bytes * bytes :=
  match fuel with
  | O => ([], b)
  | S fuel =>
      if 8 <=? len b then
        let b := maskWord mask64 b in
        let '(done, rest) := maskLoop8 fuel mask64 (drop 8 b) in (take 8 b ++ done, rest)
      else ([], b)
  end.

(** One byte at a time, the [i]th with the key's byte [i & 3]. *)
Fixpoint maskBytes (i : Z) (mask b : bytes) : bytes :=
  match b with
  | [] => []
  | x :: b => Z.lxor x (at_ mask (i .& 3)) :: maskBytes (i + 1) mask b
  end.

(** In place: the bytes after. Each loop runs at most as often as [b] has
    bytes. *)
Definition applyMask (b mask : bytes) : bytes :=
  let mask32 := le (take 4 mask) in
  let mask64 := mask32 .| (mask32 .<< 32) in
  let '(d1, b) := maskLoop32 (length b) mask64 b in
  let '(d2, b) := maskLoop8 (length b) mask64 b in
  d1 ++ d2 ++ maskBytes 0 mask b.

(** ** Frame sizes *)

Definition frameHeaderSize (data : bytes) : Z :=
  if len data <? 2 then 2
  else
    let size := if negb (at_ data 1 .& 0x80 =? 0) then 2 + 4 else 2 in
    let n := at_ data 1 .& 0x7f in
    if n =? 126 then size + 2 else if n =? 127 then size + 8 else size.

(** A w-byte big-endian length at [off]. *)
Definition lengthAt (data : bytes) (off : Z) (w : nat) : Z := be (take w (zdrop off data)).

Definition frameSize (data : bytes) : option Z :=
  let headerSize := frameHeaderSize data in
  if len data <? headerSize then None
  else
    let payloadLen := at_ data 1 .& 0x7f in
    let payloadLen :=
      if payloadLen =? 126 then lengthAt data 2 2 else if payloadLen =? 127 then lengthAt data 2 8 else payloadLen in
    if (2 ^ 63 - 1) - headerSize <? payloadLen then None else Some (headerSize + payloadLen).

(** The buffer grown by what its frame still needs, and the rest. The header is
    completed in at most two turns. *)
Fixpoint appendCurrentFrame (fuel : nat) (buffer data : bytes) : bytes * bytes :=
  match fuel with
  | O => (buffer ++ data, [])
  | S fuel =>
      match frameSize buffer with
      | Some frameEnd =>
          let need := frameEnd - len buffer in
          if (need <=? 0) || (len data <=? need) then (buffer ++ data, []) else (buffer ++ ztake need data, zdrop need data)
      | None =>
          let need := frameHeaderSize buffer - len buffer in
          if (need <=? 0) || (len data <=? need) then (buffer ++ data, [])
          else appendCurrentFrame fuel (buffer ++ ztake need data) (zdrop need data)
      end
  end.

(** ** The parser's step *)

Definition validCloseCode (code : Z) : bool :=
  if (1000 <=? code) && (code <=? 1014) then negb (code =? 1004) && negb (code =? 1005) && negb (code =? 1006)
  else (3000 <=? code) && (code <=? 4999).

Definition consume (p : Parser) (n : Z) : Parser :=
  if n =? len (buffer p) then setBuf p [] (borrowedTail p) (pendingConsume p) false
  else setBuf p (zdrop n (buffer p)) (borrowedTail p) (pendingConsume p) (borrowedBuffer p).

Definition finishFrame (p : Parser) (frameEnd : Z) (borrowed : bool) : Parser :=
  if borrowed then setBuf p (buffer p) (borrowedTail p) frameEnd (borrowedBuffer p) else consume p frameEnd.

Definition maxWindowSize : Z := 1 .<< 15.

Definition keepWindow (window message : bytes) : bytes :=
  if maxWindowSize <=? len message then zdrop (len message - maxWindowSize) message
  else
    let excess := len window + len message - maxWindowSize in
    let window := if 0 <? excess then zdrop excess window else window in
    window ++ message.

(** The chunks of up to 512 bytes a masked partial payload is checked in. *)
Fixpoint checkChunks (fuel : nat) (v : utf8Validator) (i : Z) (mask available : bytes) : option utf8Validator :=
  match fuel with
  | O => Some v
  | S fuel =>
      if len available <=? i then Some v
      else
        let chunk := take 512 (zdrop i available) in
        match write v (maskBytes i mask chunk) with
        | None => None
        | Some v => checkChunks fuel v (i + len chunk) mask available
        end
  end.

(** [None] where the code returns false. *)
Definition checkPartialText (x : parserExtra) (available : bytes) (mask : option bytes) : option parserExtra :=
  let checked := textChecked x in
  if len available <=? checked then Some x
  else
    match
      match mask with
      | None => write (text x) (zdrop checked available)
      | Some mask => checkChunks (length available) (text x) checked mask available
      end
    with
    | None => None
    | Some v => Some (setChecked (setText x v) (len available))
    end.

(** What next makes of the buffer: an error, a wait for more, a frame taken
    that completes no event, or an event. *)
Inductive nextRes : Type :=
| NErr (e : wserr)
| NWait (p : Parser)
| NSkip (p : Parser)
| NEvent (p : Parser) (ev : Event).

(** The checks on the first two bytes. *)
Definition badHeader (p : Parser) (first second : Z) : bool :=
  let fin := negb (first .& 0x80 =? 0) in
  let opcode := first .& 0x0f in
  let masked := negb (second .& 0x80 =? 0) in
  let compressed := negb (first .& 0x40 =? 0) in
  let control := 0x8 <=? opcode in
  negb (first .& 0x30 =? 0) || Bool.eqb masked (fromServer p) ||
  (compressed && (negb (deflate p) || (negb (opcode =? Text) && negb (opcode =? Binary)))) ||
  (control && (negb fin || (125 <? second .& 0x7f))) ||
  (if opcode =? Continuation then match fragment (extra p) with None => true | Some _ => false end
   else if (opcode =? Text) || (opcode =? Binary) then match fragment (extra p) with Some _ => true | None => false end
   else negb ((opcode =? Close) || (opcode =? Ping) || (opcode =? Pong))).

(** The payload's length and where it or the mask starts: [None] when more
    bytes are needed. *)
Definition payloadLength (b : bytes) (second : Z) : option (res wserr (Z * Z)) :=
  let n := second .& 0x7f in
  if n =? 126 then
    if len b <? 4 then None
    else let n := lengthAt b 2 2 in if n <? 126 then Some (Err ErrProtocol) else Some (Ok (n, 4))
  else if n =? 127 then
    if len b <? 10 then None
    else let n := lengthAt b 2 8 in
         if (n <? 65536) || negb (n .>> 63 =? 0) then Some (Err ErrProtocol) else Some (Ok (n, 10))
  else Some (Ok (n, 2)).

(** A frame's header once it is all there. *)
Record frameHead : Type := mkHead {
  h_fin : bool; h_opcode : Z; h_compressed : bool;
  h_text : bool;              (* its payload is text to check as it comes *)
  h_mask : option bytes;
  h_offset : Z;               (* where the payload starts *)
  h_len : Z                   (* its length *)
}.

Inductive headRes : Type := HErr (e : wserr) | HShort | HFrame (h : frameHead).

(** next, up to the payload. *)
Definition readHead (p : Parser) : headRes :=
  let b := buffer p in
  if len b <? 2 then HShort
  else
    let first := at_ b 0 in
    let second := at_ b 1 in
    if badHeader p first second then HErr ErrProtocol
    else
      let fin := negb (first .& 0x80 =? 0) in
      let opcode := first .& 0x0f in
      let masked := negb (second .& 0x80 =? 0) in
      let compressed := negb (first .& 0x40 =? 0) in
      let control := 0x8 <=? opcode in
      match payloadLength b second with
      | None => HShort
      | Some (Err e) => HErr e
      | Some (Ok (payloadLen, offset)) =>
          let frag := fragment (extra p) in
          let current := match frag with Some f => len (f_data f) | None => 0 end in
          if negb control && ((maxMessageBytes p <? payloadLen) || (maxMessageBytes p - payloadLen <? current)) then HErr ErrMessageTooBig
          else if masked && (len b <? offset + 4) then HShort
          else
            let mask := if masked then Some (take 4 (zdrop offset b)) else None in
            let offset := if masked then offset + 4 else offset in
            let isText :=
              ((opcode =? Text) && negb compressed) ||
              ((opcode =? Continuation) && match frag with Some f => (f_opcode f =? Text) && negb (f_compressed f) | None => false end) in
            HFrame (mkHead fin opcode compressed isText mask offset payloadLen)
      end.

Section Deflate.

(** decompressMessage: the compressed message, the history it may refer to and
    the limit on what it inflates to. *)
Variable decompressMessage : bytes -> bytes -> Z -> res wserr bytes.

Definition inflate (p : Parser) (compressed : bytes) : res wserr (bytes * Parser) :=
  let w := if contextTakeover p then window (extra p) else [] in
  match decompressMessage compressed w (maxMessageBytes p) with
  | Err e => Err e
  | Ok message =>
      Ok (message, if contextTakeover p then setExtra p (setWindow (extra p) (keepWindow (window (extra p)) message)) else p)
  end.

(** A whole control frame. *)
Definition takeControl (p : Parser) (borrow : bool) (opcode : Z) (payload : bytes) (frameEnd : Z) : nextRes :=
  if (opcode =? Close) && ((len payload =? 1) || ((2 <=? len payload) && negb (validCloseCode (be (take 2 payload))))) then NErr ErrProtocol
  else if (opcode =? Close) && ((2 <? len payload) && negb (Valid (drop 2 payload))) then NErr ErrInvalidPayload
  else NEvent (finishFrame p frameEnd borrow) (mkEvent opcode payload true).

(** The first frame of a data message. *)
Definition takeFirst (p : Parser) (borrow : bool) (opcode : Z) (fin compressed isText : bool) (checked : Z) (payload : bytes)
    (frameEnd : Z) : nextRes :=
  let x := extra p in
  if fin && compressed then
    match inflate p payload with
    | Err e => NErr e
    | Ok (message, p) =>
        if (opcode =? Text) && negb (Valid message) then NErr ErrInvalidPayload
        else NEvent (finishFrame p frameEnd borrow) (mkEvent opcode message true)
    end
  else if fin then
    let good :=
      if negb isText then true
      else if checked =? 0 then Valid payload
      else match write (text x) (zdrop checked payload) with Some v => complete v | None => false end in
    if negb good then NErr ErrInvalidPayload
    else NEvent (finishFrame (if isText then setExtra p (setText x reset) else p) frameEnd borrow) (mkEvent opcode payload true)
  else
    match (if isText then write (text x) (zdrop checked payload) else Some (text x)) with
    | None => NErr ErrInvalidPayload
    | Some v =>
        let x := setText x v in
        if perFrame p && negb compressed then
          NEvent (finishFrame (setExtra p (setFragment x (Some (mkFrag opcode false [])))) frameEnd borrow) (mkEvent opcode payload false)
        else NSkip (consume (setExtra p (setFragment x (Some (mkFrag opcode compressed payload)))) frameEnd)
    end.

(** A later frame of the message [f]. *)
Definition takeContinuation (p : Parser) (borrow : bool) (f : fragmentedMessage) (fin isText : bool) (checked : Z) (payload : bytes)
    (frameEnd : Z) : nextRes :=
  let x := extra p in
  match (if isText then write (text x) (zdrop checked payload) else Some (text x)) with
  | None => NErr ErrInvalidPayload
  | Some v =>
      if isText && (fin && negb (complete v)) then NErr ErrInvalidPayload
      else
        let x := setText x v in
        if perFrame p && negb (f_compressed f) then
          let x := if fin then setFragment (setText x reset) None else x in
          NEvent (finishFrame (setExtra p x) frameEnd borrow) (mkEvent (f_opcode f) payload fin)
        else
          let f := mkFrag (f_opcode f) (f_compressed f) (f_data f ++ payload) in
          let p := consume (setExtra p (setFragment x (Some f))) frameEnd in
          if negb fin then NSkip p
          else
            let done p message := NEvent (setExtra p (setFragment (setText (extra p) reset) None)) (mkEvent (f_opcode f) message true) in
            if f_compressed f then
              match inflate p (f_data f) with
              | Err e => NErr e
              | Ok (message, p) => if (f_opcode f =? Text) && negb (Valid message) then NErr ErrInvalidPayload else done p message
              end
            else done p (f_data f)
  end.

Definition unmask (h : frameHead) (payload : bytes) : bytes :=
  match h_mask h with Some m => applyMask payload m | None => payload end.

(** next once the whole frame is there. *)
Definition takeFrame (borrow : bool) (p : Parser) (h : frameHead) : nextRes :=
  let b := buffer p in
  let frameEnd := h_offset h + h_len h in
  let checked := textChecked (extra p) in
  let p := setExtra p (setChecked (extra p) 0) in
  let payload := unmask h (ztake (h_len h) (zdrop (h_offset h) b)) in
  (* a lent payload is unmasked in place *)
  let p := if borrow then setBuf p (ztake (h_offset h) b ++ payload ++ zdrop frameEnd b) (borrowedTail p) (pendingConsume p) (borrowedBuffer p) else p in
  if 0x8 <=? h_opcode h then takeControl p borrow (h_opcode h) payload frameEnd
  else if (h_opcode h =? Text) || (h_opcode h =? Binary) then
    takeFirst p borrow (h_opcode h) (h_fin h) (h_compressed h) (h_text h) checked payload frameEnd
  else
    (* a continuation has a fragment: the header was checked *)
    match fragment (extra p) with
    | Some f => takeContinuation p borrow f (h_fin h) (h_text h) checked payload frameEnd
    | None => NErr ErrProtocol
    end.

Definition next (borrow : bool) (p : Parser) : nextRes :=
  match readHead p with
  | HErr e => NErr e
  | HShort => NWait p
  | HFrame h =>
      if len (buffer p) - h_offset h <? h_len h then
        if h_text h then
          match checkPartialText (extra p) (zdrop (h_offset h) (buffer p)) (h_mask h) with
          | None => NErr ErrInvalidPayload
          | Some x => NWait (setExtra p x)
          end
        else NWait p
      else takeFrame borrow p h
  end.

(** ** Feeding *)

(** feedOne's start: the bytes already seen go, and [data] is taken in. *)
Definition feedIn (p : Parser) (data : bytes) (borrow : bool) : Parser :=
  let p := if negb (pendingConsume p =? 0) then (fun p => setBuf p (buffer p) (borrowedTail p) 0 (borrowedBuffer p)) (consume p (pendingConsume p)) else p in
  let p := if (len (buffer p) =? 0) && negb (len (borrowedTail p) =? 0) then setBuf p (borrowedTail p) [] (pendingConsume p) true else p in
  if borrow && (len (buffer p) =? 0) && negb (len data =? 0) then setBuf p data (borrowedTail p) (pendingConsume p) true
  else if borrow && negb (borrowedBuffer p) && negb (len (buffer p) =? 0) && negb (len data =? 0) then
    let '(b, rest) := appendCurrentFrame 3 (buffer p) data in setBuf p b rest (pendingConsume p) false
  else
    (* adopt: the same bytes, in the parser's own array *)
    let p := if borrowedBuffer p && negb (len data =? 0) then setBuf p (buffer p) (borrowedTail p) (pendingConsume p) false else p in
    setBuf p (buffer p ++ data) (borrowedTail p) (pendingConsume p) (borrowedBuffer p).

Inductive feedRes : Type :=
| FErr (e : wserr)
| FWait (p : Parser)
| FEvent (p : Parser) (ev : Event).

(** feedOne's loop. A turn takes a frame, of two bytes at least, or moves on to
    the tail, once. *)
Fixpoint feedLoop (fuel : nat) (borrow : bool) (p : Parser) : option feedRes :=
  match fuel with
  | O => None
  | S fuel =>
      match next borrow p with
      | NErr e => Some (FErr e)
      | NWait p =>
          if (len (buffer p) =? 0) && negb (len (borrowedTail p) =? 0) then
            feedLoop fuel borrow (setBuf p (borrowedTail p) [] (pendingConsume p) true)
          else Some (FWait (if borrowedBuffer p && negb (len (buffer p) =? 0)
                            then setBuf p (buffer p) (borrowedTail p) (pendingConsume p) false else p))
      | NSkip p => feedLoop fuel borrow p
      | NEvent p ev => Some (FEvent p ev)
      end
  end.

Definition feedOne (p : Parser) (data : bytes) (borrow : bool) : option feedRes :=
  let p := feedIn p data borrow in feedLoop (length (buffer p) + length (borrowedTail p) + 2) borrow p.

Definition FeedOne (p : Parser) (data : bytes) : option feedRes := feedOne p data false.
Definition FeedOneBorrowed (p : Parser) (data : bytes) : option feedRes := feedOne p data true.

(** The events, and the parser or the error after them; [None] would be fuel
    that ran out. *)
Fixpoint drainEvents (fuel : nat) (borrow : bool) (p : Parser) (data : bytes) (events : list Event) : option (list Event * res wserr Parser) :=
  match fuel with
  | O => None
  | S fuel =>
      match feedOne p data borrow with
      | None => None
      | Some (FErr e) => Some (events, Err e)
      | Some (FWait p) => Some (events, Ok p)
      | Some (FEvent p ev) => drainEvents fuel borrow p [] (events ++ [ev])
      end
  end.

Definition Feed (p : Parser) (data : bytes) : option (list Event * res wserr Parser) :=
  drainEvents (length (buffer p) + length (borrowedTail p) + length data + 1) false p data [].

(** A reader that does not copy: FeedOneBorrowed with the data, then with nil
    until no event comes (ServerHandler's loop). *)
Definition FeedBorrowed (p : Parser) (data : bytes) : option (list Event * res wserr Parser) :=
  drainEvents (length (buffer p) + length (borrowedTail p) + length data + 1) true p data [].

End Deflate.

(** ReleaseBorrowed: a lent buffer is let go of. *)
Definition ReleaseBorrowed (p : Parser) : Parser :=
  let p := if negb (pendingConsume p =? 0) then (fun p => setBuf p (buffer p) (borrowedTail p) 0 (borrowedBuffer p)) (consume p (pendingConsume p)) else p in
  if borrowedBuffer p then setBuf p [] [] (pendingConsume p) false else setBuf p (buffer p) [] (pendingConsume p) (borrowedBuffer p).

(** ** Writing *)

Definition dataOrControl (opcode : Z) : bool :=
  (opcode =? Text) || (opcode =? Binary) || (opcode =? Close) || (opcode =? Ping) || (opcode =? Pong).

Definition frameHeader (opcode payloadLen : Z) : res wserr bytes :=
  if negb (dataOrControl opcode) then Err ErrProtocol
  else if (0x8 <=? opcode) && (125 <? payloadLen) then Err ErrProtocol
  else
    let first := 0x80 .| u8 opcode in
    if payloadLen <? 126 then Ok [first; u8 payloadLen]
    else if payloadLen <=? 65535 then Ok ([first; 126] ++ putBE 2 (u16 payloadLen))
    else Ok ([first; 127] ++ putBE 8 (u64 payloadLen)).

Definition MarshalFrame (opcode : Z) (payload : bytes) : res wserr bytes :=
  if negb (dataOrControl opcode) then Err ErrProtocol
  else if (0x8 <=? opcode) && (125 <? len payload) then Err ErrProtocol
  else
    let first := 0x80 .| u8 opcode in
    if len payload <? 126 then Ok ([first; u8 (len payload)] ++ payload)
    else if len payload <=? 65535 then Ok ([first; 126] ++ putBE 2 (u16 (len payload)) ++ payload)
    else Ok ([first; 127] ++ putBE 8 (u64 (len payload)) ++ payload).

(** header[0] |= 0x40 *)
Definition setRSV1 (compressed : bool) (header : bytes) : bytes :=
  match header with h0 :: h => (if compressed then h0 .| 0x40 else h0) :: h | [] => [] end.

(** frame[1] |= 0x80 *)
Definition setMasked (header : bytes) : bytes :=
  match header with h0 :: h1 :: h => h0 :: (h1 .| 0x80) :: h | _ => header end.

(** What a client puts on the wire, with the four random bytes [mask]. *)
Definition sendMaskedFrame (mask : bytes) (opcode : Z) (payload : bytes) (compressed : bool) : res wserr bytes :=
  match frameHeader opcode (len payload) with
  | Err e => Err e
  | Ok header => Ok (setMasked (setRSV1 compressed header) ++ mask ++ applyMask payload mask)
  end.

(** What sendFrame puts on the wire: a server's header goes beside the payload. *)
Definition sendFrame (client : bool) (mask : bytes) (opcode : Z) (payload : bytes) (compressed : bool) : res wserr bytes :=
  if client then sendMaskedFrame mask opcode payload compressed
  else
    match frameHeader opcode (len payload) with
    | Err e => Err e
    | Ok header => Ok (setRSV1 compressed header ++ payload)
    end.

(** The frame and the length of its header; the error, which a data frame
    does not meet, is ignored. *)
Definition buildFrame (opcode : Z) (payload : bytes) (compressed : bool) : bytes * Z :=
  match frameHeader opcode (len payload) with
  | Err _ => (payload, 0)
  | Ok header => (setRSV1 compressed header ++ payload, len header)
  end.

(** ** Lemmas: masking *)

Lemma lxor_byte x y : is_byte x -> is_byte y -> is_byte (Z.lxor x y).
Proof.
  intros Hx Hy. split; [apply Z.lxor_nonneg; destruct Hx, Hy; lia|].
  apply Z.nle_gt. intros Hge. assert (Z.testbit (Z.lxor x y) (Z.log2 (Z.lxor x y)) = true) as Hb by (apply Z.bit_log2; lia).
  assert (8 <= Z.log2 (Z.lxor x y)) as Hl by (apply Z.log2_le_pow2; lia). unfold is_byte in *.
  rewrite Z.lxor_spec, !(Z.bits_above_log2 _ (Z.log2 (Z.lxor x y))) in Hb; try discriminate; try lia.
  - destruct (Z.eq_dec y 0) as [->|]; [change (Z.log2 0) with 0; lia|]. assert (Z.log2 y < 8) by (apply Z.log2_lt_pow2; lia). lia.
  - destruct (Z.eq_dec x 0) as [->|]; [change (Z.log2 0) with 0; lia|]. assert (Z.log2 x < 8) by (apply Z.log2_lt_pow2; lia). lia.
Qed.

Lemma le_cons x b : le (x :: b) = (le b .<< 8) .| x.
Proof. reflexivity. Qed.

Lemma byte_high x n : is_byte x -> 8 <= n -> Z.testbit x n = false.
Proof.
  intros [Hx Hx'] Hn. destruct (Z.eq_dec x 0) as [->|Hne]; [apply Z.bits_0|].
  apply Z.bits_above_log2; [lia|]. assert (Z.log2 x < 8) by (apply Z.log2_lt_pow2; lia). lia.
Qed.

(** Xor acts on each byte of a word. *)
Lemma le_lxor a c : length a = length c -> bytes_ok a -> bytes_ok c -> Z.lxor (le a) (le c) = le (zip_with Z.lxor a c).
Proof.
  revert c. induction a as [|x a IH]; intros [|y c] Hl Ha Hc; try discriminate; [reflexivity|].
  cbn [zip_with]. rewrite !le_cons. cbn in Hl.
  assert (is_byte x) as Hx by exact (Forall_inv Ha). assert (is_byte y) as Hy by exact (Forall_inv Hc).
  rewrite <- (IH c) by first [lia|exact (Forall_inv_tail Ha)|exact (Forall_inv_tail Hc)].
  apply Z.bits_inj'. intros n Hn. rewrite Z.lxor_spec, !Z.lor_spec, !Z.shiftl_spec, !Z.lxor_spec by lia.
  destruct (Z.ltb_spec n 8) as [H8|H8].
  - rewrite !(Z.testbit_neg_r _ (n - 8)) by lia. reflexivity.
  - rewrite (byte_high x n), (byte_high y n) by (auto; lia). now rewrite !orb_false_r.
Qed.

Lemma le_nonneg b : bytes_ok b -> 0 <= le b.
Proof.
  induction 1 as [|x b Hx _ IH]; [cbn; lia|]. rewrite le_cons. apply Z.lor_nonneg. split; [apply Z.shiftl_nonneg; lia|apply Hx].
Qed.

Lemma putLE_le b : bytes_ok b -> putLE (length b) (le b) = b.
Proof.
  induction 1 as [|x b Hx Hb IH]; [reflexivity|]. cbn [length putLE]. rewrite le_cons. f_equal.
  - unfold u8. rewrite <- Z.land_ones by lia. apply Z.bits_inj'. intros n Hn.
    rewrite Z.land_spec, Z.lor_spec, Z.shiftl_spec, Z.testbit_ones_nonneg by lia. destruct (Z.ltb_spec n 8).
    + rewrite Z.testbit_neg_r by lia. now rewrite andb_true_r.
    + rewrite andb_false_r. symmetry. now apply byte_high.
  - transitivity (putLE (length b) (le b)); [f_equal|exact IH]. apply Z.bits_inj'. intros n Hn. rewrite Z.shiftr_spec, Z.lor_spec, Z.shiftl_spec by lia.
    rewrite (byte_high x) by (auto; lia). rewrite orb_false_r. f_equal. lia.
Qed.

Lemma le_app a c : bytes_ok a -> le (a ++ c) = (le c .<< (8 * len a)) .| le a.
Proof.
  induction 1 as [|x a Hx Ha IH].
  - change (len []) with 0. cbn [app le foldr]. rewrite Z.shiftl_0_r, Z.lor_0_r. reflexivity.
  - cbn [app]. rewrite !le_cons, IH, len_cons. rewrite Z.shiftl_lor, Z.shiftl_shiftl by (pose proof (len_nonneg a); lia).
    rewrite <- Z.lor_assoc. f_equal. f_equal. lia.
Qed.

Lemma land3 i : 0 <= i -> i .& 3 = i mod 4.
Proof. intros Hi. exact (Z.land_ones i 2 ltac:(lia)). Qed.

Lemma maskBytes_app i mask a b : maskBytes i mask (a ++ b) = maskBytes i mask a ++ maskBytes (i + len a) mask b.
Proof.
  revert i. induction a as [|x a IH]; intros i; cbn [app maskBytes].
  - change (len []) with 0. now rewrite Z.add_0_r.
  - rewrite IH, len_cons. do 3 f_equal. lia.
Qed.

Lemma maskBytes_mod i j mask b : 0 <= i -> 0 <= j -> i mod 4 = j mod 4 -> maskBytes i mask b = maskBytes j mask b.
Proof.
  revert i j. induction b as [|x b IH]; intros i j Hi Hj E; cbn [maskBytes]; [reflexivity|].
  rewrite !land3, E by lia. f_equal. apply IH; lia.
Qed.

Lemma length_maskBytes i mask b : length (maskBytes i mask b) = length b.
Proof. revert i. induction b as [|x b IH]; intros i; cbn [maskBytes length]; [reflexivity|]. now rewrite IH. Qed.

Lemma at_byte mask i : bytes_ok mask -> is_byte (at_ mask i).
Proof.
  intros Hm. unfold at_. destruct (nth_in_or_default (Z.to_nat i) mask 0) as [H| ->]; [|unfold is_byte; lia].
  unfold bytes_ok in Hm. rewrite List.Forall_forall in Hm. auto.
Qed.

Lemma maskBytes_bytes i mask b : bytes_ok mask -> bytes_ok b -> bytes_ok (maskBytes i mask b).
Proof.
  intros Hm Hb. revert i. induction Hb as [|x b Hx _ IH]; intros i; cbn [maskBytes]; [constructor|].
  constructor; [apply lxor_byte; [exact Hx|now apply at_byte]|apply IH].
Qed.

(** Masking twice is masking not at all. *)
Lemma maskBytes_twice i mask b : maskBytes i mask (maskBytes i mask b) = b.
Proof.
  revert i. induction b as [|x b IH]; intros i; cbn [maskBytes]; [reflexivity|].
  now rewrite Z.lxor_assoc, Z.lxor_nilpotent, Z.lxor_0_r, IH.
Qed.

Section Mask.
Variable mask : bytes.
Hypothesis Hlen : length mask = 4%nat.
Hypothesis Hmask : bytes_ok mask.

Let mask64 : Z := le (take 4 mask) .| (le (take 4 mask) .<< 32).

Lemma mask64_le : mask64 = le (mask ++ mask).
Proof.
  unfold mask64. rewrite take_ge by lia. rewrite le_app by exact Hmask. replace (8 * len mask) with 32 by (unfold len; lia).
  apply Z.lor_comm.
Qed.

Lemma maskWord_spec w r : length w = 8%nat -> bytes_ok w -> maskWord mask64 (w ++ r) = maskBytes 0 mask w ++ r.
Proof.
  intros Hw Hb. unfold maskWord. rewrite take_app_length', drop_app_length' by auto. f_equal. rewrite mask64_le.
  rewrite le_lxor by (auto; rewrite ?length_app; try lia; apply bytes_ok_app; auto).
  replace 8%nat with (length (zip_with Z.lxor w (mask ++ mask))) by (rewrite length_zip_with, length_app; lia).
  rewrite putLE_le.
  - clear Hb. destruct mask as [|m0 [|m1 [|m2 [|m3 [|]]]]]; try discriminate.
    do 9 (destruct w as [|? w]; try discriminate). reflexivity.
  - assert (bytes_ok (mask ++ mask)) as Hmm by (apply bytes_ok_app; auto). clear - Hb Hmm.
    revert Hmm. generalize (mask ++ mask). induction Hb as [|x w Hx _ IH]; intros l Hl; [constructor|].
    destruct Hl as [|y l Hy Hl]; cbn; [constructor|]. constructor; [now apply lxor_byte|now apply IH].
Qed.

Lemma maskBytes_word w r : len w mod 4 = 0 -> maskBytes 0 mask (w ++ r) = maskBytes 0 mask w ++ maskBytes 0 mask r.
Proof.
  intros Hw. rewrite maskBytes_app. f_equal. apply maskBytes_mod; [pose proof (len_nonneg w); lia|lia|]. rewrite Z.add_0_l, Hw. reflexivity.
Qed.

Lemma maskWord4_spec w r : length w = 32%nat -> bytes_ok w -> maskWord4 mask64 (w ++ r) = maskBytes 0 mask w ++ r.
Proof.
  intros Hw Hb. rewrite <- (take_drop 8 w), <- (take_drop 8 (drop 8 w)), <- (take_drop 8 (drop 8 (drop 8 w))).
  set (w1 := take 8 w). set (w2 := take 8 (drop 8 w)). set (w3 := take 8 (drop 8 (drop 8 w))). set (w4 := drop 8 (drop 8 (drop 8 w))).
  assert (length w1 = 8%nat /\ length w2 = 8%nat /\ length w3 = 8%nat /\ length w4 = 8%nat) as (L1 & L2 & L3 & L4).
  { unfold w1, w2, w3, w4. rewrite !length_take, !length_drop, Hw. auto. }
  assert (bytes_ok w1 /\ bytes_ok w2 /\ bytes_ok w3 /\ bytes_ok w4) as (B1 & B2 & B3 & B4).
  { unfold w1, w2, w3, w4. splits; repeat first [apply Forall_take|apply Forall_drop]; exact Hb. }
  clearbody w1 w2 w3 w4. rewrite !maskBytes_word by (unfold len; rewrite ?L1, ?L2, ?L3; reflexivity). rewrite <- !app_assoc.
  unfold maskWord4. rewrite maskWord_spec by auto.
  assert (forall (pre w r : bytes) k, k = length pre -> length w = 8%nat -> bytes_ok w ->
    take k (pre ++ w ++ r) ++ maskWord mask64 (drop k (pre ++ w ++ r)) = pre ++ maskBytes 0 mask w ++ r) as Hat.
  { intros pre w' r' k -> Lw Bw. now rewrite take_app_length, drop_app_length, maskWord_spec. }
  rewrite Hat by (auto; rewrite length_maskBytes; auto). rewrite app_assoc.
  rewrite Hat by (auto; rewrite length_app, !length_maskBytes; lia). rewrite app_assoc.
  rewrite Hat by (auto; rewrite !length_app, !length_maskBytes; lia). now rewrite <- !app_assoc.
Qed.

Lemma maskLoop32_spec fuel b : bytes_ok b -> let '(d, r) := maskLoop32 fuel mask64 b in d ++ maskBytes 0 mask r = maskBytes 0 mask b /\ bytes_ok r.
Proof.
  revert b. induction fuel as [|fuel IH]; intros b Hb; cbn [maskLoop32]; [auto|].
  destruct (Z.leb_spec 32 (len b)) as [Hl|_]; [|auto]. unfold len in Hl.
  assert (length (take 32 b) = 32%nat) as Lt by (rewrite length_take; lia).
  rewrite <- (take_drop 32 b), maskWord4_spec by (auto; now apply Forall_take).
  rewrite take_app_length', drop_app_length' by (now rewrite length_maskBytes).
  specialize (IH (drop 32 b) ltac:(now apply Forall_drop)). destruct (maskLoop32 _ _ _) as [d r]. destruct IH as [IH Hr].
  split; [|exact Hr]. rewrite <- app_assoc, IH, maskBytes_word; [reflexivity|]. unfold len. now rewrite Lt.
Qed.

Lemma maskLoop8_spec fuel b : bytes_ok b -> let '(d, r) := maskLoop8 fuel mask64 b in d ++ maskBytes 0 mask r = maskBytes 0 mask b /\ bytes_ok r.
Proof.
  revert b. induction fuel as [|fuel IH]; intros b Hb; cbn [maskLoop8]; [auto|].
  destruct (Z.leb_spec 8 (len b)) as [Hl|_]; [|auto]. unfold len in Hl.
  assert (length (take 8 b) = 8%nat) as Lt by (rewrite length_take; lia).
  rewrite <- (take_drop 8 b), maskWord_spec by (auto; now apply Forall_take).
  rewrite take_app_length', drop_app_length' by (now rewrite length_maskBytes).
  specialize (IH (drop 8 b) ltac:(now apply Forall_drop)). destruct (maskLoop8 _ _ _) as [d r]. destruct IH as [IH Hr].
  split; [|exact Hr]. rewrite <- app_assoc, IH, maskBytes_word; [reflexivity|]. unfold len. now rewrite Lt.
Qed.

(** A word at a time masks as a byte at a time does. *)
Lemma applyMask_bytes b : bytes_ok b -> applyMask b mask = maskBytes 0 mask b.
Proof.
  intros Hb. unfold applyMask. fold mask64. pose proof (maskLoop32_spec (length b) b Hb) as H.
  destruct (maskLoop32 _ _ b) as [d1 r1]. destruct H as [H1 Hr1]. pose proof (maskLoop8_spec (length r1) r1 Hr1) as H.
  destruct (maskLoop8 _ _ r1) as [d2 r2]. destruct H as [H2 _]. now rewrite H2.
Qed.

End Mask.

(** ** Properties of masking *)

Definition seq_bytes (n : nat) : bytes := Z.of_nat <$> seq 0 n.

(** ApplyMask, which goes four words and then a word at a time, masks exactly as RFC 6455 section 5.3 says, byte [i]
    with byte [i mod 4] of the key, and masking again with the same key gives the payload back. *)
Theorem applyMask_exact b mask :
  bytes_ok b -> bytes_ok mask -> length mask = 4%nat ->
  length (applyMask b mask) = length b /\
  (forall i x, b !! i = Some x -> applyMask b mask !! i = Some (Z.lxor x (nth (i mod 4) mask 0))) /\
  applyMask (applyMask b mask) mask = b.
Proof.
  intros Hb Hm Hl. rewrite (applyMask_bytes mask Hl Hm b Hb), (applyMask_bytes mask Hl Hm) by now apply maskBytes_bytes.
  splits; [apply length_maskBytes| |apply maskBytes_twice].
  intros i x. assert (forall j, 0 <= j -> b !! i = Some x -> maskBytes j mask b !! i = Some (Z.lxor x (nth (Z.to_nat (j + Z.of_nat i) mod 4) mask 0))) as H.
  { clear Hb. revert i. induction b as [|y b IH]; intros [|i] j Hj Hx; try discriminate; cbn in Hx.
    - injection Hx as <-. cbn [maskBytes lookup list_lookup]. do 2 f_equal. rewrite land3 by lia. unfold at_. f_equal.
      rewrite Z.add_0_r. rewrite Z2Nat.inj_mod by lia. reflexivity.
    - cbn [maskBytes]. rewrite lookup_cons. rewrite (IH i (j + 1)) by (auto; lia). do 5 f_equal. lia. }
  intros Hx. rewrite (H 0) by (auto; lia). now rewrite Z.add_0_l, Nat2Z.id.
Qed.

Lemma applyMask_exact_witness : applyMask (applyMask (seq_bytes 43) [0x12; 0xfe; 0x80; 1]) [0x12; 0xfe; 0x80; 1] = seq_bytes 43.
Proof. apply applyMask_exact; [apply bytes_okb_ok; vm_compute; reflexivity|apply bytes_okb_ok; reflexivity|reflexivity]. Defined.

End WsFrame.
