(* ===== verification/WsStream.v ===== *)
(** * WebSocket streams: the parser does not see where reads end

    What a client or a server writes reaches the other side's handler as the
    same messages, however the network cuts the bytes up, and with or without
    copying. The parser that has checked part of a text frame ([textChecked])
    is related to one that has not by the state [t0] the text had at the
    frame's start. *)

From S2P Require Import Prelude WsUtf8 WsFrame.
From stdpp Require Import base list numbers.
From Stdlib Require Import ZArith Lia.

Local Open Scope Z_scope.
Local Open Scope go_scope.

Module WsStream.
Import Utf8 WsFrame.

(** ** Headers *)

(** More bytes at the end. *)
Definition ext (c : bytes) (p : Parser) : Parser := setBuf p (buffer p ++ c) (borrowedTail p) (pendingConsume p) (borrowedBuffer p).

(** All but the check of the text under way. *)
Definition strip (p : Parser) : Parser := setExtra p (mkExtra (fragment (extra p)) reset 0 (window (extra p))).

Lemma at_app b c i : 0 <= i < len b -> at_ (b ++ c) i = at_ b i.
Proof. intros Hi. unfold at_. apply app_nth1. unfold len in Hi. lia. Qed.

Lemma zdrop_app_le {A} n (b c : list A) : 0 <= n <= len b -> zdrop n (b ++ c) = zdrop n b ++ c.
Proof. intros Hn. unfold zdrop, len in *. apply drop_app_le. lia. Qed.

Lemma ztake_app_le {A} n (b c : list A) : n <= len b -> ztake n (b ++ c) = ztake n b.
Proof. intros Hn. unfold ztake, len in *. apply take_app_le. lia. Qed.

Lemma lengthAt_app b c w : Z.of_nat w + 2 <= len b -> lengthAt (b ++ c) 2 w = lengthAt b 2 w.
Proof.
  intros Hw. unfold lengthAt. rewrite zdrop_app_le by lia. rewrite take_app_le; [reflexivity|]. unfold zdrop, len in *. rewrite length_drop. lia.
Qed.

Lemma payloadLength_app b c second r : payloadLength b second = Some r -> payloadLength (b ++ c) second = Some r.
Proof.
  unfold payloadLength. pose proof (len_nonneg c). rewrite len_app. destruct (_ =? 126); [|destruct (_ =? 127); [|auto]].
  - destruct (Z.ltb_spec (len b) 4); [discriminate|]. rewrite (proj2 (Z.ltb_ge _ 4)), lengthAt_app by lia. auto.
  - destruct (Z.ltb_spec (len b) 10); [discriminate|]. rewrite (proj2 (Z.ltb_ge _ 10)), lengthAt_app by lia. auto.
Qed.

Lemma payloadLength_bounds b second n off :
  payloadLength b second = Some (Ok (n, off)) -> 2 <= len b -> 2 <= off <= len b.
Proof.
  unfold payloadLength. intros H Hb. repeat case_match; try discriminate; injection H as <- <-; bool_cases; try discriminate; lia.
Qed.

(** A header that is there stays as it is. *)
Lemma readHead_ext p c : readHead p <> HShort -> readHead (ext c p) = readHead p.
Proof.
  unfold readHead. change (buffer (ext c p)) with (buffer p ++ c). pose proof (len_nonneg c). rewrite len_app.
  destruct (Z.ltb_spec (len (buffer p)) 2) as [|Hl]; [congruence|]. rewrite (proj2 (Z.ltb_ge _ 2)) by lia.
  rewrite !at_app by lia. change (badHeader (ext c p)) with (badHeader p). destruct (badHeader p _ _); [reflexivity|].
  destruct (payloadLength (buffer p) (at_ (buffer p) 1)) as [r|] eqn:E; [|congruence]. rewrite (payloadLength_app _ c _ _ E).
  destruct r as [[n off]|e]; [|reflexivity]. apply payloadLength_bounds in E; [|exact Hl].
  change (extra (ext c p)) with (extra p). change (maxMessageBytes (ext c p)) with (maxMessageBytes p).
  destruct (_ && (_ || _)); [reflexivity|]. destruct (negb (at_ (buffer p) 1 .& 0x80 =? 0)); cbn [andb]; [|reflexivity].
  destruct (Z.ltb_spec (len (buffer p)) (off + 4)); [congruence|]. rewrite (proj2 (Z.ltb_ge _ (off + 4))) by lia. intros _.
  do 3 f_equal. rewrite zdrop_app_le by lia. rewrite take_app_le; [reflexivity|]. unfold zdrop, len in *. rewrite length_drop. lia.
Qed.

Lemma land_nonneg_l x y : 0 <= x -> 0 <= x .& y.
Proof. intros Hx. apply Z.land_nonneg. now left. Qed.

(** What is known of a header. *)
Record head_ok (p : Parser) (h : frameHead) : Prop := mkHeadOk {
  hk_offset : 2 <= h_offset h <= len (buffer p);
  hk_len : 0 <= h_len h;
  hk_mask : forall m, h_mask h = Some m -> length m = 4%nat /\ bytes_ok m
}.

Lemma readHead_ok p h : bytes_ok (buffer p) -> readHead p = HFrame h -> head_ok p h.
Proof.
  intros Hb. unfold readHead. destruct (Z.ltb_spec (len (buffer p)) 2) as [|Hl]; [discriminate|].
  destruct (badHeader _ _ _); [discriminate|]. destruct (payloadLength _ _) as [[[n off]|e]|] eqn:E; try discriminate.
  destruct (_ && (_ || _)); [discriminate|]. pose proof (payloadLength_bounds _ _ _ _ E Hl) as Hoff.
  assert (0 <= n) as Hn.
  { assert (0 <= at_ (buffer p) 1) as H1 by (apply at_byte, Hb). unfold payloadLength in E.
    repeat case_match; try discriminate; injection E as <- <-; try (apply be_bytes; apply Forall_take, Forall_drop; exact Hb).
    now apply land_nonneg_l. }
  destruct (negb (at_ (buffer p) 1 .& 0x80 =? 0)); cbn [andb].
  - destruct (Z.ltb_spec (len (buffer p)) (off + 4)); [discriminate|]. intros [= <-]. split; cbn; [lia|exact Hn|].
    intros m [= <-]. split; [rewrite length_take; unfold zdrop, len in *; rewrite length_drop; lia|]. apply Forall_take, Forall_drop, Hb.
  - intros [= <-]. split; cbn; [lia|exact Hn|discriminate].
Qed.

(** The payload as it was before masking. *)
Definition plain (h : frameHead) (s : bytes) : bytes := match h_mask h with Some m => maskBytes 0 m s | None => s end.

Lemma unmask_plain p h s : head_ok p h -> bytes_ok s -> unmask h s = plain h s.
Proof. intros [_ _ Hm] Hs. unfold unmask, plain. destruct (h_mask h) as [m|]; [|reflexivity]. destruct (Hm m eq_refl). now apply applyMask_bytes. Qed.

Lemma plain_bytes p h s : head_ok p h -> bytes_ok s -> bytes_ok (plain h s).
Proof. intros [_ _ Hm] Hs. unfold plain. destruct (h_mask h) as [m|]; [|exact Hs]. destruct (Hm m eq_refl). now apply maskBytes_bytes. Qed.

Lemma plain_app h s t : plain h (s ++ t) = plain h s ++ match h_mask h with Some m => maskBytes (len s) m t | None => t end.
Proof. unfold plain. destruct (h_mask h); [apply maskBytes_app|reflexivity]. Qed.

Lemma len_plain h s : len (plain h s) = len s.
Proof. unfold plain, len. destruct (h_mask h); [now rewrite length_maskBytes|reflexivity]. Qed.

Lemma maskBytes_take i m n s : take n (maskBytes i m s) = maskBytes i m (take n s).
Proof. revert i n. induction s as [|x s IH]; intros i [|n]; cbn [maskBytes take]; auto. now rewrite IH. Qed.

Lemma maskBytes_drop i m n s : drop n (maskBytes i m s) = maskBytes (i + Z.of_nat n) m (drop n s).
Proof.
  revert i n. induction s as [|x s IH]; intros i [|n]; cbn [maskBytes drop]; auto.
  - now rewrite Z.add_0_r.
  - rewrite IH. f_equal. lia.
Qed.

Lemma plain_take h n s : ztake n (plain h s) = plain h (ztake n s).
Proof. unfold plain, ztake. destruct (h_mask h); [apply maskBytes_take|reflexivity]. Qed.

Lemma plain_drop h n s : 0 <= n -> zdrop n (plain h s) = match h_mask h with Some m => maskBytes n m (zdrop n s) | None => zdrop n s end.
Proof. intros Hn. unfold plain, zdrop. destruct (h_mask h); [|reflexivity]. rewrite maskBytes_drop. f_equal. lia. Qed.

(** ** The text of a frame, checked in parts *)

Lemma vok_veq v w : vok w -> veq v w -> vok v.
Proof. intros [H1 H2] [E H]. split; [lia|]. intros Hn. rewrite (H Hn). apply H2. congruence. Qed.

Lemma oeq_Some x w : oeq x (Some w) -> exists v, x = Some v /\ veq v w.
Proof. destruct x as [v|]; cbn; [eauto|tauto]. Qed.

Lemma oeq_None x : oeq None x -> x = None.
Proof. destruct x; cbn; tauto. Qed.

(** Some of the bytes now and the rest later. *)
Lemma write_rest t0 v done rest :
  vok t0 -> bytes_ok rest -> oeq (Some v) (foldM step t0 done) -> oeq (write v rest) (foldM step t0 (done ++ rest)).
Proof.
  intros H0 Hr Hd. rewrite steps_app. destruct (foldM step t0 done) as [w|] eqn:E; cbn in Hd; [|tauto].
  pose proof (steps_ok _ _ _ H0 E) as Hw. etransitivity; [apply write_steps; [exact Hr|exact (vok_veq _ _ Hw Hd)]|]. now apply steps_veq.
Qed.

Lemma checkChunks_spec fuel t0 v i mask s done :
  0 <= i -> len s - i <= Z.of_nat fuel -> bytes_ok s -> bytes_ok mask -> vok t0 -> oeq (Some v) (foldM step t0 done) ->
  oeq (checkChunks fuel v i mask s) (foldM step t0 (done ++ maskBytes i mask (zdrop i s))).
Proof.
  intros Hi Hf Hs Hm H0. revert v i done Hi Hf. induction fuel as [|fuel IH]; intros v i done Hi Hf Hv; cbn [checkChunks].
  - assert (zdrop i s = []) as -> by (unfold zdrop, len in *; apply drop_ge; lia). cbn [maskBytes]. now rewrite app_nil_r.
  - destruct (Z.leb_spec (len s) i) as [Hle|Hgt].
    + assert (zdrop i s = []) as -> by (unfold zdrop, len in *; apply drop_ge; lia). cbn [maskBytes]. now rewrite app_nil_r.
    + set (chunk := take 512 (zdrop i s)).
      assert (bytes_ok (maskBytes i mask chunk)) as Hc by (apply maskBytes_bytes; [exact Hm|now apply Forall_take, Forall_drop]).
      assert (maskBytes i mask (zdrop i s) = maskBytes i mask chunk ++ maskBytes (i + len chunk) mask (zdrop (i + len chunk) s)) as E.
      { rewrite <- (take_drop 512 (zdrop i s)) at 1. fold chunk. rewrite maskBytes_app. do 2 f_equal. unfold chunk, zdrop. rewrite drop_drop.
        unfold len. rewrite length_take, length_drop. destruct (Nat.le_gt_cases 512 (length s - Z.to_nat i)).
        - f_equal. lia.
        - rewrite !drop_ge by lia. reflexivity. }
      rewrite E, app_assoc. pose proof (write_rest t0 v done _ H0 Hc Hv) as Hw.
      destruct (write v (maskBytes i mask chunk)) as [w|].
      * apply IH; [pose proof (len_nonneg chunk); lia| |exact Hw].
        assert (0 < len chunk); [|lia]. unfold chunk, zdrop, len in *. rewrite length_take, length_drop. lia.
      * rewrite steps_app, (oeq_None _ Hw). reflexivity.
Qed.

(** [t0] is where the text stood at the start of the frame at the front. *)
Definition Tinv (t0 : utf8Validator) (p : Parser) : Prop :=
  vok t0 /\ (fragment (extra p) = None -> need t0 = 0) /\
  ((textChecked (extra p) = 0 /\ veq (text (extra p)) t0) \/
   (exists h, readHead p = HFrame h /\ h_text h = true /\ 0 < textChecked (extra p) <= h_len h /\
      textChecked (extra p) <= len (buffer p) - h_offset h /\
      oeq (Some (text (extra p))) (foldM step t0 (ztake (textChecked (extra p)) (plain h (zdrop (h_offset h) (buffer p))))))).

(** The part already checked, for the frame at the front. *)
Lemma Tinv_done t0 p h :
  Tinv t0 p -> readHead p = HFrame h -> bytes_ok (buffer p) ->
  0 <= textChecked (extra p) <= h_len h /\ textChecked (extra p) <= len (buffer p) - h_offset h /\
  oeq (Some (text (extra p))) (foldM step t0 (ztake (textChecked (extra p)) (plain h (zdrop (h_offset h) (buffer p))))).
Proof.
  intros (H0 & _ & Hc) Hh Hb. pose proof (readHead_ok _ _ Hb Hh) as [Ho Hl _].
  destruct Hc as [[-> Hv]|(h' & Hh' & _ & Hc)].
  - change (ztake 0 _) with (@nil Z). cbn [foldM oeq]. splits; auto; lia.
  - rewrite Hh in Hh'. injection Hh' as <-. intuition lia.
Qed.

Lemma len_avail p h : head_ok p h -> len (zdrop (h_offset h) (buffer p)) = len (buffer p) - h_offset h.
Proof. intros [Ho _ _]. apply len_zdrop. lia. Qed.

(** The check of a frame that is not all there yet. *)
Lemma partial_spec t0 p h :
  Tinv t0 p -> readHead p = HFrame h -> h_text h = true -> bytes_ok (buffer p) -> len (buffer p) - h_offset h < h_len h ->
  match checkPartialText (extra p) (zdrop (h_offset h) (buffer p)) (h_mask h) with
  | None => foldM step t0 (plain h (zdrop (h_offset h) (buffer p))) = None
  | Some x => fragment x = fragment (extra p) /\ window x = window (extra p) /\ Tinv t0 (setExtra p x) /\
      foldM step t0 (plain h (zdrop (h_offset h) (buffer p))) <> None
  end.
Proof.
  intros HT Hh Htx Hb Hinc. destruct (Tinv_done _ _ _ HT Hh Hb) as (Hc & Hc' & Hd). pose proof (readHead_ok _ _ Hb Hh) as Hok.
  pose proof (len_avail p h Hok) as Hla. pose proof HT as (H0 & Hnf & _).
  set (av := zdrop (h_offset h) (buffer p)) in *. assert (bytes_ok av) as Hav by (apply Forall_drop, Hb).
  unfold checkPartialText. set (c := textChecked (extra p)) in *. destruct (Z.leb_spec (len av) c) as [Hle|Hgt].
  - splits; auto. intros E. unfold ztake in Hd. rewrite take_ge in Hd by (pose proof (len_plain h av); unfold len in *; lia).
    fold av in E. rewrite E in Hd. exact Hd.
  - assert (oeq (match h_mask h with None => write (text (extra p)) (zdrop c av) | Some mask => checkChunks (length av) (text (extra p)) c mask av end)
              (foldM step t0 (plain h av))) as Hw.
    { assert (plain h av = ztake c (plain h av) ++ zdrop c (plain h av)) as E by (unfold ztake, zdrop; now rewrite take_drop).
      rewrite E, (plain_drop h c) by lia. destruct Hok as [_ _ Hm]. destruct (h_mask h) as [m|].
      - destruct (Hm m eq_refl) as [_ Hmb]. apply checkChunks_spec; auto; [lia|]. unfold len in *. lia.
      - apply write_rest; auto. apply Forall_drop, Hav. }
    destruct (match h_mask h with None => _ | Some _ => _ end) as [v|].
    + splits; auto; [|intros E; fold av in E; rewrite E in Hw; exact Hw]. unfold Tinv. cbn [extra setExtra setChecked setText fragment textChecked text buffer]. splits; auto. right.
      exists h. splits; auto; try lia. fold av. rewrite Hla in *. unfold ztake. rewrite take_ge; [exact Hw|].
      pose proof (len_plain h av). unfold len in *. lia.
    + exact (oeq_None _ Hw).
Qed.

(** The check of the rest of a frame that is all there. *)
Lemma rest_spec t0 p h :
  Tinv t0 p -> readHead p = HFrame h -> bytes_ok (buffer p) -> h_len h <= len (buffer p) - h_offset h ->
  let payload := unmask h (ztake (h_len h) (zdrop (h_offset h) (buffer p))) in
  bytes_ok payload /\ oeq (write (text (extra p)) (zdrop (textChecked (extra p)) payload)) (foldM step t0 payload).
Proof.
  intros HT Hh Hb Hall. cbv zeta. destruct (Tinv_done _ _ _ HT Hh Hb) as (Hc & Hc' & Hd). pose proof (readHead_ok _ _ Hb Hh) as Hok.
  pose proof HT as (H0 & _). set (av := zdrop (h_offset h) (buffer p)) in *. assert (bytes_ok av) as Hav by (apply Forall_drop, Hb).
  rewrite (unmask_plain p) by (auto; apply Forall_take, Hav). set (pl := plain h (ztake (h_len h) av)).
  assert (bytes_ok pl) as Hpl by (eapply plain_bytes; [exact Hok|apply Forall_take, Hav]). split; [exact Hpl|].
  set (c := textChecked (extra p)) in *.
  assert (pl = ztake c (plain h av) ++ zdrop c pl) as E.
  { rewrite <- (take_drop (Z.to_nat c) pl) at 1. unfold zdrop. f_equal. unfold pl. rewrite <- plain_take. unfold ztake. rewrite take_take. f_equal. lia. }
  rewrite E at 2. apply write_rest; auto. apply Forall_drop, Hpl.
Qed.

(** ** Parsers that differ only in how much text they have checked *)

Definition sim (p q : Parser) : Prop := strip p = strip q /\ exists t0, Tinv t0 p /\ Tinv t0 q.

Definition rsim (r s : nextRes) : Prop :=
  match r, s with
  | NErr e, NErr e' => e = e'
  | NWait p, NWait q => sim p q
  | NSkip p, NSkip q => sim p q
  | NEvent p ev, NEvent q ev' => sim p q /\ ev = ev'
  | _, _ => False
  end.

Lemma strip_consume p n : strip (consume p n) = consume (strip p) n.
Proof. unfold consume. change (buffer (strip p)) with (buffer p). now destruct (n =? _). Qed.

Lemma strip_finish p n b : strip (finishFrame p n b) = finishFrame (strip p) n b.
Proof. destruct b; [reflexivity|apply strip_consume]. Qed.

Lemma extra_consume p n : extra (consume p n) = extra p.
Proof. unfold consume. now destruct (n =? _). Qed.

Lemma extra_finish p n b : extra (finishFrame p n b) = extra p.
Proof. destruct b; [reflexivity|apply extra_consume]. Qed.

Lemma strip_setExtra p x : strip (setExtra p x) = setExtra (strip p) (mkExtra (fragment x) reset 0 (window x)).
Proof. reflexivity. Qed.

(** A state between frames, the text at [t]. *)
Definition fresh (t : utf8Validator) (x : parserExtra) : Prop :=
  vok t /\ (fragment x = None -> need t = 0) /\ textChecked x = 0 /\ veq (text x) t.

Lemma fresh_sim t p q : strip p = strip q -> fresh t (extra p) -> fresh t (extra q) -> sim p q.
Proof.
  intros Hs (H1 & H2 & H3 & H4) (H5 & H6 & H7 & H8). split; [exact Hs|]. exists t. split; unfold Tinv; splits; auto; left; auto.
Qed.

(** Two parsers with a whole frame before them: the text before it was at
    [t0], and what each has still to check of [payload] goes the same way. *)
Definition ready (t0 : utf8Validator) (x : parserExtra) (isText : bool) (checked : Z) (payload : bytes) : Prop :=
  textChecked x = 0 /\ (isText = true -> oeq (write (text x) (zdrop checked payload)) (foldM step t0 payload)) /\
  (isText = false -> veq (text x) t0).

(** What the checks on the header leave. *)
Lemma head_kind p h :
  readHead p = HFrame h ->
  ((0x8 <=? h_opcode h) = true -> h_text h = false) /\
  ((h_opcode h =? Text) || (h_opcode h =? Binary) = true -> fragment (extra p) = None /\ (h_compressed h = true -> h_text h = false)) /\
  ((0x8 <=? h_opcode h) = false -> (h_opcode h =? Text) || (h_opcode h =? Binary) = false -> exists f, fragment (extra p) = Some f).
Proof.
  unfold readHead. destruct (_ <? 2); [discriminate|]. set (first := at_ (buffer p) 0). set (second := at_ (buffer p) 1).
  destruct (badHeader p first second) eqn:Eb; [discriminate|]. destruct (payloadLength _ _) as [[[n off]|e]|]; try discriminate.
  destruct (_ && (_ || _)); [discriminate|]. destruct (_ && _); [discriminate|]. intros [= <-]. cbn [h_opcode h_text h_compressed].
  unfold badHeader in Eb. rewrite !orb_false_iff in Eb. destruct Eb as [_ Eb]. set (op := first .& 0x0f) in *. unfold Text, Binary, Continuation, Close, Ping, Pong in *.
  destruct (Z.eqb_spec op 0) as [Z0|Z0], (Z.eqb_spec op 1) as [Z1|Z1], (Z.eqb_spec op 2) as [Z2|Z2], (Z.leb_spec 8 op) as [L8|L8]; try lia;
    cbn [orb andb] in *; splits; auto; try discriminate.
  - intros _ _. destruct (fragment (extra p)); [eauto|discriminate].
  - intros _. split; [now destruct (fragment (extra p))|]. now intros ->.
  - intros _. split; [now destruct (fragment (extra p))|]. auto.
  - intros _ _. destruct (Z.eqb_spec op 8), (Z.eqb_spec op 9), (Z.eqb_spec op 10); try lia; discriminate.
Qed.

Lemma readHead_strip p q : strip p = strip q -> readHead p = readHead q.
Proof. intros H. change (readHead (strip p) = readHead (strip q)). now rewrite H. Qed.

(** Text that has been checked ahead is of a text frame. *)
Lemma Tinv_nontext t0 p h : Tinv t0 p -> readHead p = HFrame h -> h_text h = false -> fresh t0 (extra p).
Proof.
  intros (H0 & Hf & [[Hc Hv]|(h' & Hh' & Ht & _)]) Hh Hx; [unfold fresh; auto|]. rewrite Hh in Hh'. injection Hh' as <-. congruence.
Qed.

Section Deflate.
Variable decompressMessage : bytes -> bytes -> Z -> res wserr bytes.

Notation inflate := (inflate decompressMessage).
Notation takeFirst := (takeFirst decompressMessage).
Notation takeContinuation := (takeContinuation decompressMessage).
Notation takeFrame := (takeFrame decompressMessage).
Notation next := (next decompressMessage).

Lemma inflate_sim p q c :
  strip p = strip q ->
  match inflate p c, inflate q c with
  | Ok (m, p'), Ok (m', q') =>
      m = m' /\ strip p' = strip q' /\ text (extra p') = text (extra p) /\ text (extra q') = text (extra q) /\
      textChecked (extra p') = textChecked (extra p) /\ textChecked (extra q') = textChecked (extra q) /\
      fragment (extra p') = fragment (extra p)
  | Err e, Err e' => e = e'
  | _, _ => False
  end.
Proof.
  intros Hs. unfold WsFrame.inflate. pose proof (f_equal contextTakeover Hs) as E1. pose proof (f_equal maxMessageBytes Hs) as E2.
  pose proof (f_equal (fun p => window (extra p)) Hs) as E3. pose proof (f_equal (fun p => fragment (extra p)) Hs) as E4. cbn in E1, E2, E3, E4.
  rewrite E1, E2, E3. destruct (decompressMessage _ _ _) as [m|e]; [|reflexivity].
  destruct (contextTakeover q); [|splits; auto]. splits; auto. rewrite !strip_setExtra. cbn. now rewrite Hs, E4.
Qed.

Lemma oeq_good t0 v payload : oeq v (foldM step t0 payload) ->
  (match v with Some v => complete v | None => false end) = match foldM step t0 payload with Some w => complete w | None => false end.
Proof.
  intros H. destruct v as [v|], (foldM step t0 payload) as [w|]; cbn in H; try tauto. destruct H as [E _]. unfold complete. now rewrite E.
Qed.

Lemma takeControl_sim t0 p q b op payload n :
  strip p = strip q -> fresh t0 (extra p) -> fresh t0 (extra q) -> rsim (takeControl p b op payload n) (takeControl q b op payload n).
Proof.
  intros Hs Hp Hq. unfold takeControl. destruct (_ && _); [reflexivity|]. destruct (_ && _); [reflexivity|]. split; [|reflexivity].
  apply (fresh_sim t0); rewrite ?strip_finish, ?extra_finish, ?Hs; auto.
Qed.

(** The text state after a frame that passed. *)
Lemma ready_next t0 xp xq isText cp cq payload :
  vok t0 -> ready t0 xp isText cp payload -> ready t0 xq isText cq payload ->
  match (if isText then write (text xp) (zdrop cp payload) else Some (text xp)),
        (if isText then write (text xq) (zdrop cq payload) else Some (text xq)) with
  | Some v, Some w => exists t, vok t /\ veq v t /\ veq w t
  | None, None => True
  | _, _ => False
  end.
Proof.
  intros H0 (_ & Hp & Hp') (_ & Hq & Hq'). destruct isText.
  - specialize (Hp eq_refl). specialize (Hq eq_refl). destruct (foldM step t0 payload) as [t|] eqn:E.
    + apply oeq_Some in Hp as (v & -> & Hv). apply oeq_Some in Hq as (w & -> & Hw). exists t. splits; auto. exact (steps_ok _ _ _ H0 E).
    + destruct (write (text xp) _); [destruct Hp|]. destruct (write (text xq) _); [destruct Hq|exact I].
  - exists t0. auto.
Qed.

Lemma takeFirst_sim t0 p q b op fin compressed isText cp cq payload n :
  strip p = strip q -> vok t0 -> need t0 = 0 -> (compressed = true -> isText = false) ->
  ready t0 (extra p) isText cp payload -> ready t0 (extra q) isText cq payload ->
  rsim (takeFirst p b op fin compressed isText cp payload n) (takeFirst q b op fin compressed isText cq payload n).
Proof.
  intros Hs H0 Hn Hct Hp Hq. unfold WsFrame.takeFirst.
  pose proof (f_equal perFrame Hs) as E1. pose proof (f_equal (fun p => window (extra p)) Hs) as E3.
  pose proof (f_equal (fun p => fragment (extra p)) Hs) as E4. cbn in E1, E3, E4.
  pose proof Hp as (Hp0 & Hp1 & Hp2). pose proof Hq as (Hq0 & Hq1 & Hq2).
  destruct fin; cbn [andb].
  - destruct compressed.
    + specialize (Hct eq_refl). specialize (Hp2 Hct). specialize (Hq2 Hct). pose proof (inflate_sim p q payload Hs) as Hi.
      destruct (inflate p payload) as [[m p']|e], (inflate q payload) as [[m' q']|e']; try tauto.
      destruct Hi as (-> & Hs' & T1 & T2 & C1 & C2 & _). destruct (_ && _); [reflexivity|]. split; [|reflexivity].
      apply (fresh_sim t0); rewrite ?strip_finish, ?extra_finish, ?Hs'; auto; unfold fresh; splits; auto; congruence.
    + assert (forall x c, ready t0 x isText c payload ->
        (if negb isText then true else if c =? 0 then Valid payload
         else match write (text x) (zdrop c payload) with Some v => complete v | None => false end) =
        (if negb isText then true else match foldM step t0 payload with Some w => complete w | None => false end)) as Hgood.
      { intros x c (_ & Hx & _). destruct isText; [|reflexivity]. cbn [negb]. destruct (c =? 0); [now apply Valid_steps|]. now apply oeq_good, Hx. }
      rewrite (Hgood _ _ Hp), (Hgood _ _ Hq). destruct (negb (if negb isText then _ else _)); [reflexivity|]. split; [|reflexivity].
      destruct isText.
      * apply (fresh_sim reset); rewrite ?strip_finish, ?extra_finish, ?strip_setExtra, ?Hs; cbn; try (now rewrite E3, E4);
          unfold fresh; cbn; splits; auto using reset_ok; reflexivity.
      * apply (fresh_sim t0); rewrite ?strip_finish, ?extra_finish, ?Hs; auto; unfold fresh; splits; auto.
  - pose proof (ready_next t0 _ _ isText cp cq payload H0 Hp Hq) as Hnx.
    destruct (if isText then write (text (extra p)) _ else _) as [v|], (if isText then write (text (extra q)) _ else _) as [w|]; try tauto; [|reflexivity].
    destruct Hnx as (t & Ht & Hv & Hw). rewrite E1. destruct (perFrame q && negb compressed).
    + split; [|reflexivity]. apply (fresh_sim t); rewrite ?strip_finish, ?extra_finish, ?strip_setExtra, ?Hs; cbn; try (now rewrite E3);
        unfold fresh; cbn; splits; auto; discriminate.
    + apply (fresh_sim t); rewrite ?strip_consume, ?extra_consume, ?strip_setExtra, ?Hs; cbn; try (now rewrite E3);
        unfold fresh; cbn; splits; auto; discriminate.
Qed.

Lemma takeContinuation_sim t0 p q b f fin isText cp cq payload n :
  strip p = strip q -> vok t0 -> fragment (extra p) = Some f ->
  ready t0 (extra p) isText cp payload -> ready t0 (extra q) isText cq payload ->
  rsim (takeContinuation p b f fin isText cp payload n) (takeContinuation q b f fin isText cq payload n).
Proof.
  intros Hs H0 Hf Hp Hq. unfold WsFrame.takeContinuation.
  pose proof (f_equal perFrame Hs) as E1. pose proof (f_equal (fun p => window (extra p)) Hs) as E3. cbn in E1, E3.
  pose proof Hp as (Hp0 & _). pose proof Hq as (Hq0 & _).
  pose proof (ready_next t0 _ _ isText cp cq payload H0 Hp Hq) as Hnx.
  destruct (if isText then write (text (extra p)) _ else _) as [v|], (if isText then write (text (extra q)) _ else _) as [w|]; try tauto; [|reflexivity].
  destruct Hnx as (t & Ht & Hv & Hw). assert (complete v = complete w) as -> by (unfold complete; now rewrite (proj1 Hv), (proj1 Hw)).
  destruct (isText && _); [reflexivity|]. rewrite E1. destruct (perFrame q && negb (f_compressed f)).
  - split; [|reflexivity]. pose proof (f_equal (fun p => fragment (extra p)) Hs) as E4. cbn in E4. destruct fin.
    + apply (fresh_sim reset); rewrite ?strip_finish, ?extra_finish, ?strip_setExtra, ?Hs; cbn; try (now rewrite E3);
        unfold fresh; cbn; splits; auto using reset_ok; reflexivity.
    + apply (fresh_sim t); rewrite ?strip_finish, ?extra_finish, ?strip_setExtra, ?Hs; cbn; try (now rewrite E3, E4);
        unfold fresh; cbn; splits; auto; congruence.
  - set (f' := mkFrag _ _ _). set (p1 := consume (setExtra p _) n). set (q1 := consume (setExtra q _) n).
    assert (strip p1 = strip q1) as Hs1 by (unfold p1, q1; rewrite !strip_consume, !strip_setExtra, Hs; cbn; now rewrite E3).
    assert (textChecked (extra p1) = 0 /\ textChecked (extra q1) = 0) as [C1 C2] by (unfold p1, q1; rewrite !extra_consume; auto).
    assert (forall p' q', strip p' = strip q' -> textChecked (extra p') = 0 -> textChecked (extra q') = 0 ->
      sim (setExtra p' (setFragment (setText (extra p') reset) None)) (setExtra q' (setFragment (setText (extra q') reset) None))) as Hdone.
    { intros p' q' Hs' Cp Cq. pose proof (f_equal (fun p => window (extra p)) Hs') as E3'. cbn in E3'.
      apply (fresh_sim reset); rewrite ?strip_setExtra, ?Hs'; cbn; try (now rewrite E3'); unfold fresh; cbn; splits; auto using reset_ok; reflexivity. }
    destruct fin; cbn [negb].
    + destruct (f_compressed f').
      * pose proof (inflate_sim p1 q1 (f_data f') Hs1) as Hi.
        destruct (inflate p1 (f_data f')) as [[m p']|e], (inflate q1 (f_data f')) as [[m' q']|e']; try tauto.
        destruct Hi as (-> & Hs' & _ & _ & C3 & C4 & _). destruct (_ && _); [reflexivity|]. split; [|reflexivity]. apply Hdone; congruence.
      * split; [|reflexivity]. now apply Hdone.
    + apply (fresh_sim t); auto; unfold p1, q1; rewrite extra_consume; unfold fresh; cbn; splits; auto; discriminate.
Qed.

Lemma takeFrame_sim t0 b p q h :
  strip p = strip q -> Tinv t0 p -> Tinv t0 q -> readHead p = HFrame h -> bytes_ok (buffer p) -> h_len h <= len (buffer p) - h_offset h ->
  rsim (takeFrame b p h) (takeFrame b q h).
Proof.
  intros Hs HTp HTq Hh Hb Hall. pose proof (f_equal buffer Hs) as Eb. cbn in Eb.
  assert (readHead q = HFrame h) as Hhq by (rewrite <- (readHead_strip _ _ Hs); exact Hh).
  pose proof (rest_spec t0 p h HTp Hh Hb Hall) as [Hpl Hwp]. assert (h_len h <= len (buffer q) - h_offset h) as Hallq by (rewrite <- Eb; exact Hall).
  pose proof (rest_spec t0 q h HTq Hhq ltac:(rewrite <- Eb; exact Hb) Hallq) as [_ Hwq]. rewrite <- Eb in Hwq.
  unfold WsFrame.takeFrame. rewrite <- Eb. set (payload := unmask h _) in *.
  set (p1 := if b then setBuf (setExtra p _) _ _ _ _ else _). set (q1 := if b then setBuf (setExtra q _) _ _ _ _ else _).
  assert (strip p1 = strip q1 /\ extra p1 = setChecked (extra p) 0 /\ extra q1 = setChecked (extra q) 0) as (Hs1 & Ep & Eq).
  { pose proof (f_equal (fun p => fragment (extra p)) Hs) as E4. pose proof (f_equal (fun p => window (extra p)) Hs) as E3.
    pose proof (f_equal borrowedTail Hs) as E5. pose proof (f_equal pendingConsume Hs) as E6. pose proof (f_equal borrowedBuffer Hs) as E7.
    cbn in E3, E4, E5, E6, E7. unfold p1, q1. destruct b; splits; auto.
    change (setBuf (strip p) (ztake (h_offset h) (buffer p) ++ payload ++ zdrop (h_offset h + h_len h) (buffer p)) (borrowedTail p) (pendingConsume p) (borrowedBuffer p) =
        setBuf (strip q) (ztake (h_offset h) (buffer p) ++ payload ++ zdrop (h_offset h + h_len h) (buffer p)) (borrowedTail q) (pendingConsume q) (borrowedBuffer q)).
      now rewrite Hs, E5, E6, E7. }
  assert (forall r x, Tinv t0 r -> readHead r = HFrame h -> x = setChecked (extra r) 0 ->
    oeq (write (text (extra r)) (zdrop (textChecked (extra r)) payload)) (foldM step t0 payload) ->
    ready t0 x (h_text h) (textChecked (extra r)) payload) as Hready.
  { intros r x HT Hr -> Hw. split; [reflexivity|]. split; [auto|]. intros Hx. cbn. exact (proj2 (proj2 (proj2 (Tinv_nontext _ _ _ HT Hr Hx)))). }
  pose proof (Hready p _ HTp Hh Ep Hwp) as Rp. pose proof (Hready q _ HTq Hhq Eq Hwq) as Rq.
  destruct (head_kind p h Hh) as (K1 & K2 & K3). pose proof HTp as (H0 & Hn & _).
  destruct (0x8 <=? h_opcode h) eqn:E8.
  - pose proof (Tinv_nontext _ _ _ HTp Hh (K1 eq_refl)) as (? & ? & ? & ?). pose proof (Tinv_nontext _ _ _ HTq Hhq (K1 eq_refl)) as (? & ? & ? & ?).
    apply (takeControl_sim t0); auto; [rewrite Ep|rewrite Eq]; unfold fresh; cbn; auto.
  - destruct (_ || _) eqn:Eop.
    + destruct (K2 eq_refl) as [Hf Hc]. apply (takeFirst_sim t0); auto.
    + destruct (K3 eq_refl eq_refl) as [f Hf].
      assert (fragment (extra p1) = Some f /\ fragment (extra q1) = Some f) as [Fp Fq].
      { rewrite Ep, Eq. cbn. split; [exact Hf|]. rewrite <- (f_equal (fun p => fragment (extra p)) Hs : fragment (extra p) = fragment (extra q)). exact Hf. }
      rewrite Fp, Fq. now apply (takeContinuation_sim t0).
Qed.

(** The step does not depend on how much text was checked before. *)
Lemma next_sim b p q : sim p q -> bytes_ok (buffer p) -> rsim (next b p) (next b q).
Proof.
  intros [Hs (t0 & HTp & HTq)] Hb. pose proof (f_equal buffer Hs) as Eb. cbn in Eb. unfold WsFrame.next.
  rewrite <- (readHead_strip _ _ Hs), <- Eb. destruct (readHead p) as [e| |h] eqn:Hh; [reflexivity|split; eauto|].
  assert (readHead q = HFrame h) as Hhq by (rewrite <- (readHead_strip _ _ Hs); exact Hh).
  destruct (Z.ltb_spec (len (buffer p) - h_offset h) (h_len h)) as [Hinc|Hall].
  - destruct (h_text h) eqn:Et; [|split; eauto].
    pose proof (partial_spec t0 p h HTp Hh Et Hb Hinc) as Pp. pose proof (partial_spec t0 q h HTq Hhq Et) as Pq. rewrite <- Eb in Pq.
    specialize (Pq Hb Hinc).
    destruct (checkPartialText (extra p) _ _) as [xp|], (checkPartialText (extra q) _ _) as [xq|].
    + destruct Pp as (F1 & W1 & T1 & _), Pq as (F2 & W2 & T2 & _). split; [|eauto].
      pose proof (f_equal (fun p => fragment (extra p)) Hs) as E4. pose proof (f_equal (fun p => window (extra p)) Hs) as E3. cbn in E3, E4.
      rewrite !strip_setExtra, Hs. congruence.
    + now destruct Pp as (_ & _ & _ & []).
    + now destruct Pq as (_ & _ & _ & []).
    + reflexivity.
  - now apply (takeFrame_sim t0).
Qed.

(** ** More bytes behind a whole frame *)

Definition nmap (f : Parser -> Parser) (r : nextRes) : nextRes :=
  match r with NErr e => NErr e | NWait p => NWait (f p) | NSkip p => NSkip (f p) | NEvent p ev => NEvent (f p) ev end.

Lemma consume_ext c p n : borrowedBuffer p = false -> 0 <= n <= len (buffer p) -> consume (ext c p) n = ext c (consume p n).
Proof.
  intros Hbb Hn. unfold consume. change (buffer (ext c p)) with (buffer p ++ c). rewrite len_app.
  destruct (Z.eqb_spec n (len (buffer p))) as [->|Hne].
  - destruct (Z.eqb_spec (len (buffer p)) (len (buffer p) + len c)) as [E|_].
    + assert (c = []) as ->; [|reflexivity]. destruct c; [reflexivity|]. rewrite len_cons in E. pose proof (len_nonneg c). lia.
    + rewrite zdrop_app. unfold ext, setBuf. cbn. now rewrite Hbb.
  - rewrite (proj2 (Z.eqb_neq _ _)) by (pose proof (len_nonneg c); lia). rewrite zdrop_app_le by lia. reflexivity.
Qed.

Lemma borrowed_setExtra p x : borrowedBuffer (setExtra p x) = borrowedBuffer p.
Proof. reflexivity. Qed.

Lemma inflate_ext c p m : inflate (ext c p) m = match inflate p m with Ok (x, p') => Ok (x, ext c p') | Err e => Err e end.
Proof.
  unfold WsFrame.inflate. change (extra (ext c p)) with (extra p). change (maxMessageBytes (ext c p)) with (maxMessageBytes p).
  change (contextTakeover (ext c p)) with (contextTakeover p). destruct (decompressMessage _ _ _); [|reflexivity]. now destruct (contextTakeover p).
Qed.

(** Inflating leaves the bytes alone. *)
Lemma inflate_buf p m x p' :
  inflate p m = Ok (x, p') ->
  buffer p' = buffer p /\ borrowedTail p' = borrowedTail p /\ pendingConsume p' = pendingConsume p /\ borrowedBuffer p' = borrowedBuffer p.
Proof.
  unfold WsFrame.inflate. destruct (decompressMessage _ _ _); [|discriminate]. intros [= <- <-]. now destruct (contextTakeover p).
Qed.

Lemma takeFirst_ext c p op fin compressed isText checked payload n :
  borrowedBuffer p = false -> 0 <= n <= len (buffer p) ->
  takeFirst (ext c p) false op fin compressed isText checked payload n = nmap (ext c) (takeFirst p false op fin compressed isText checked payload n).
Proof.
  intros Hb Hn. unfold WsFrame.takeFirst, finishFrame. change (extra (ext c p)) with (extra p). change (perFrame (ext c p)) with (perFrame p).
  rewrite inflate_ext. destruct (fin && compressed).
  - destruct (inflate p payload) as [[m p']|e] eqn:Ei; [|reflexivity]. apply inflate_buf in Ei as (E1 & _ & _ & E4).
    destruct (_ && _); [reflexivity|]. cbn [nmap]. now rewrite consume_ext by (rewrite ?E1, ?E4; auto).
  - destruct fin.
    + destruct (negb _); [reflexivity|]. cbn [nmap]. destruct isText; [|now rewrite consume_ext by auto].
      change (setExtra (ext c p) ?x) with (ext c (setExtra p x)). now rewrite consume_ext by auto.
    + destruct (if isText then _ else _) as [v|]; [|reflexivity].
      destruct (perFrame p && _); cbn [nmap]; change (setExtra (ext c p) ?x) with (ext c (setExtra p x)); now rewrite consume_ext by auto.
Qed.

Lemma takeContinuation_ext c p f fin isText checked payload n :
  borrowedBuffer p = false -> 0 <= n <= len (buffer p) ->
  takeContinuation (ext c p) false f fin isText checked payload n = nmap (ext c) (takeContinuation p false f fin isText checked payload n).
Proof.
  intros Hb Hn. unfold WsFrame.takeContinuation, finishFrame. change (extra (ext c p)) with (extra p). change (perFrame (ext c p)) with (perFrame p).
  destruct (if isText then _ else _) as [v|]; [|reflexivity]. destruct (isText && _); [reflexivity|].
  destruct (perFrame p && _); cbn [nmap]; change (setExtra (ext c p) ?x) with (ext c (setExtra p x)); rewrite consume_ext by auto; [reflexivity|].
  set (p1 := consume _ n). destruct (negb fin); [reflexivity|]. cbn [f_compressed f_data f_opcode]. destruct (f_compressed f); [|reflexivity].
  rewrite inflate_ext. destruct (inflate p1 _) as [[m p']|e]; [|reflexivity]. now destruct (_ && _).
Qed.

Lemma takeFrame_ext c p h :
  borrowedBuffer p = false -> head_ok p h -> h_len h <= len (buffer p) - h_offset h ->
  takeFrame false (ext c p) h = nmap (ext c) (takeFrame false p h).
Proof.
  intros Hb [Ho Hl _] Hall. unfold WsFrame.takeFrame. change (buffer (ext c p)) with (buffer p ++ c). change (extra (ext c p)) with (extra p).
  rewrite zdrop_app_le by lia. rewrite ztake_app_le by (rewrite len_zdrop; lia). set (payload := unmask h _).
  change (setExtra (ext c p) ?x) with (ext c (setExtra p x)). set (p1 := setExtra p _).
  assert (0 <= h_offset h + h_len h <= len (buffer p1)) as Hn by (unfold p1; cbn; lia).
  destruct (0x8 <=? _).
  - unfold takeControl, finishFrame. destruct (_ && _); [reflexivity|]. destruct (_ && _); [reflexivity|]. cbn [nmap]. now rewrite consume_ext by auto.
  - destruct (_ || _); [now apply takeFirst_ext|]. change (extra (ext c p1)) with (extra p1). destruct (fragment (extra p1)); [|reflexivity].
    now apply takeContinuation_ext.
Qed.

(** What is left of the bytes once [n] are taken. *)
Definition took (n : Z) (p p' : Parser) : Prop :=
  buffer p' = zdrop n (buffer p) /\ borrowedTail p' = borrowedTail p /\ pendingConsume p' = pendingConsume p /\
  (borrowedBuffer p = false -> borrowedBuffer p' = false).

Lemma took_consume n p x : 0 <= n -> took n p (consume (setExtra p x) n).
Proof.
  intros Hn. unfold took, consume. cbn [buffer setExtra]. destruct (Z.eqb_spec n (len (buffer p))) as [->|]; cbn; splits; auto.
  unfold zdrop, len. rewrite Nat2Z.id. symmetry. apply drop_ge. lia.
Qed.

Lemma took_inflate n p p1 m x p' : took n p p1 -> inflate p1 m = Ok (x, p') -> took n p p'.
Proof. intros (H1 & H2 & H3 & H4) Hi. apply inflate_buf in Hi as (E1 & E2 & E3 & E4). unfold took. rewrite E1, E2, E3, E4. auto. Qed.

Lemma takeFrame_took p h :
  0 <= h_offset h + h_len h ->
  match takeFrame false p h with
  | NErr _ => True
  | NWait _ => False
  | NSkip p' | NEvent p' _ => took (h_offset h + h_len h) p p'
  end.
Proof.
  intros Hn. unfold WsFrame.takeFrame. set (payload := unmask h _). set (x0 := setChecked (extra p) 0). set (n := h_offset h + h_len h) in *.
  assert (forall x, took n p (consume (setExtra (setExtra p x0) x) n)) as Ht by (intros x; exact (took_consume n p x Hn)).
  pose proof (took_consume n p x0 Hn) as Ht0.
  destruct (0x8 <=? _).
  { unfold takeControl, finishFrame. destruct (_ && _); [exact I|]. destruct (_ && _); [exact I|]. exact Ht0. }
  destruct (_ || _).
  { unfold WsFrame.takeFirst, finishFrame. destruct (h_fin h && _).
    - destruct (inflate _ payload) as [[m p']|e] eqn:Ei; [|exact I]. destruct (_ && _); [exact I|]. apply inflate_buf in Ei as (E1 & E2 & E3 & E4). 
      cbn in E1, E2, E3, E4. pose proof (took_consume n p' (extra p') Hn) as (T1 & T2 & T3 & T4).
      assert (setExtra p' (extra p') = p') as Es by now destruct p'. rewrite Es in *. unfold took. rewrite T1, T2, T3, E1, E2, E3. splits; auto. intros Hb. apply T4. congruence.
    - destruct (h_fin h); [destruct (negb _); [exact I|]; destruct (h_text h); auto|].
      destruct (if h_text h then _ else _) as [v|]; [|exact I]. destruct (perFrame _ && _); apply Ht. }
  destruct (fragment _) as [f|]; [|exact I]. unfold WsFrame.takeContinuation, finishFrame.
  destruct (if h_text h then _ else _) as [v|]; [|exact I]. destruct (h_text h && _); [exact I|].
  destruct (perFrame _ && _); [apply Ht|]. destruct (negb _); [apply Ht|]. cbn [f_compressed f_data f_opcode].
  set (p1 := consume _ n). assert (took n p p1) as Ht1 by apply Ht. destruct (f_compressed f); [|exact Ht1].
  destruct (inflate p1 _) as [[m p']|e] eqn:Ei; [|exact I]. destruct (_ && _); [exact I|]. exact (took_inflate _ _ _ _ _ _ Ht1 Ei).
Qed.

Definition idle (p : Parser) : Prop := pendingConsume p = 0 /\ borrowedTail p = [] /\ borrowedBuffer p = false.

Lemma Tinv_ext t0 c p : bytes_ok (buffer p) -> Tinv t0 p -> Tinv t0 (ext c p).
Proof.
  intros Hb (H0 & Hn & Hc). unfold Tinv. change (extra (ext c p)) with (extra p). splits; auto. destruct Hc as [Hc|(h & Hh & Ht & Hc1 & Hc2 & Ho)]; [now left|].
  right. exists h. pose proof (readHead_ok _ _ Hb Hh) as Hok. pose proof (len_avail p h Hok) as Hla. destruct Hok as [Hoff _ _].
  change (buffer (ext c p)) with (buffer p ++ c). rewrite readHead_ext by congruence. rewrite len_app. splits; auto; try lia.
  - pose proof (len_nonneg c). lia.
  - rewrite zdrop_app_le by lia. rewrite plain_take, ztake_app_le, <- plain_take by lia. exact Ho.
Qed.

Lemma strip_ext c p q : strip p = strip q -> strip (ext c p) = strip (ext c q).
Proof. intros H. change (ext c (strip p) = ext c (strip q)). now rewrite H. Qed.

Lemma sim_ext c p q : bytes_ok (buffer p) -> sim p q -> sim (ext c p) (ext c q).
Proof.
  intros Hb [Hs (t0 & H1 & H2)]. split; [now apply strip_ext|]. exists t0. split; apply Tinv_ext; auto.
  change (bytes_ok (buffer (strip q))). rewrite <- Hs. exact Hb.
Qed.

Lemma sim_sym p q : sim p q -> sim q p.
Proof. intros [Hs (t0 & H1 & H2)]. split; [auto|]. eauto. Qed.

(** Text that fails does so whatever else the frame holds. *)
Lemma takeFrame_bad t0 p h :
  Tinv t0 p -> readHead p = HFrame h -> h_text h = true -> bytes_ok (buffer p) -> h_len h <= len (buffer p) - h_offset h ->
  foldM step t0 (unmask h (ztake (h_len h) (zdrop (h_offset h) (buffer p)))) = None -> takeFrame false p h = NErr ErrInvalidPayload.
Proof.
  intros HT Hh Ht Hb Hall Hbad. destruct (rest_spec t0 p h HT Hh Hb Hall) as [_ Hw]. destruct (head_kind p h Hh) as (K1 & K2 & K3).
  unfold WsFrame.takeFrame. set (payload := unmask h _) in *. rewrite Hbad in Hw. destruct (write (text (extra p)) _) as [v|] eqn:Ew; [destruct Hw|].
  destruct (0x8 <=? h_opcode h); [specialize (K1 eq_refl); congruence|]. destruct (_ || _).
  - destruct (K2 eq_refl) as [Hf Hc]. destruct (h_compressed h); [specialize (Hc eq_refl); congruence|]. unfold WsFrame.takeFirst. rewrite andb_false_r, Ht.
    cbn [negb extra setExtra text setChecked]. destruct (h_fin h).
    + destruct (textChecked (extra p) =? 0); [|now rewrite Ew]. destruct HT as (_ & Hn & _). rewrite (Valid_steps payload t0 (Hn Hf)), Hbad. reflexivity.
    + now rewrite Ew.
  - destruct (K3 eq_refl eq_refl) as [f Hf]. cbn [extra setExtra fragment setChecked]. rewrite Hf. unfold WsFrame.takeContinuation. rewrite Ht.
    cbn [extra setExtra text setChecked]. now rewrite Ew.
Qed.

Lemma next_ext t0 c p :
  Tinv t0 p -> bytes_ok (buffer p) -> bytes_ok c -> idle p ->
  match next false p with
  | NErr e => next false (ext c p) = NErr e
  | NWait p' => sim p' p /\ idle p' /\ buffer p' = buffer p
  | NSkip p' => next false (ext c p) = NSkip (ext c p') /\ idle p' /\ exists n, 2 <= n <= len (buffer p) /\ buffer p' = zdrop n (buffer p)
  | NEvent p' ev => next false (ext c p) = NEvent (ext c p') ev /\ idle p' /\ exists n, 2 <= n <= len (buffer p) /\ buffer p' = zdrop n (buffer p)
  end.
Proof.
  intros HT Hb Hc Hidle. assert (sim p p) as Hself by (split; eauto).
  pose proof (next_sim false p p Hself Hb) as Hns. unfold WsFrame.next in *. destruct (readHead p) as [e| |h] eqn:Hh.
  - now rewrite readHead_ext, Hh by congruence.
  - auto.
  - rewrite readHead_ext, Hh by congruence. pose proof (readHead_ok _ _ Hb Hh) as Hok. pose proof (len_avail p h Hok) as Hla.
    assert (bytes_ok (buffer (ext c p))) as Hbe by (apply bytes_ok_app; auto). assert (readHead (ext c p) = HFrame h) as Hhe by (rewrite readHead_ext; congruence).
    pose proof (Tinv_ext t0 c p Hb HT) as HTe. change (buffer (ext c p)) with (buffer p ++ c) in *. pose proof (len_nonneg c) as Hlc.
    destruct (Z.ltb_spec (len (buffer p) - h_offset h) (h_len h)) as [Hinc|Hall].
    + destruct (h_text h) eqn:Et; [|auto]. pose proof (partial_spec t0 p h HT Hh Et Hb Hinc) as Hp.
      destruct (checkPartialText (extra p) _ _) as [x|]; [destruct Hp as (F & W & T & _); splits; auto|].
      * split; [rewrite strip_setExtra, F, W; reflexivity|]. eauto.
      * rewrite len_app in *. destruct Hok as [Ho Hlen Hm]. rewrite zdrop_app_le in * by lia.
        assert (forall t, foldM step t0 (plain h (zdrop (h_offset h) (buffer p) ++ t)) = None) as Hbad by (intros t; now rewrite plain_app, steps_app, Hp).
        destruct (Z.ltb_spec (len (buffer p) + len c - h_offset h) (h_len h)) as [Hinc'|Hall'].
        -- pose proof (partial_spec t0 (ext c p) h HTe Hhe Et Hbe) as Hp'. change (buffer (ext c p)) with (buffer p ++ c) in Hp'.
           rewrite len_app, zdrop_app_le in Hp' by lia. specialize (Hp' Hinc'). change (extra (ext c p)) with (extra p) in *.
           destruct (checkPartialText (extra p) _ _) as [x|]; [|reflexivity]. exfalso. destruct Hp' as (_ & _ & _ & Hne). exact (Hne (Hbad c)).
        -- apply (takeFrame_bad t0); auto; change (buffer (ext c p)) with (buffer p ++ c); rewrite ?len_app; [lia|].
           rewrite (unmask_plain (ext c p)); [|now apply readHead_ok|apply Forall_take, Forall_drop, Hbe].
           rewrite zdrop_app_le by lia. unfold ztake. rewrite take_app_ge by (unfold len in *; lia). apply Hbad.
    + rewrite len_app, (proj2 (Z.ltb_ge _ _)) by lia. pose proof (takeFrame_took p h) as Htk.
      assert (0 <= h_offset h + h_len h) as Hpos by (destruct Hok; lia). specialize (Htk Hpos).
      rewrite takeFrame_ext by (auto; apply Hidle). destruct Hidle as (I1 & I2 & I3). destruct Hok as [Ho Hlen _].
      destruct (takeFrame false p h) as [e|p'|p'|p' ev]; [reflexivity|tauto|..]; destruct Htk as (T1 & T2 & T3 & T4); unfold idle; rewrite T2, T3;
        splits; auto; exists (h_offset h + h_len h); splits; auto; lia.
Qed.

(** ** The whole loop *)

Fixpoint run (fuel : nat) (p : Parser) : option (list Event * res wserr Parser) :=
  match fuel with
  | O => None
  | S fuel =>
      match next false p with
      | NErr e => Some ([], Err e)
      | NWait p => Some ([], Ok p)
      | NSkip p => run fuel p
      | NEvent p ev => match run fuel p with Some (evs, r) => Some (ev :: evs, r) | None => None end
      end
  end.

(** The same error, or parsers that differ only in the text checked. *)
Definition same_end (r s : res wserr Parser) : Prop :=
  match r, s with Err e, Err e' => e = e' | Ok p, Ok q => sim p q | _, _ => False end.

(** A parser that waits, with its bytes and its text in order. *)
Definition settled (p : Parser) : Prop :=
  idle p /\ bytes_ok (buffer p) /\ exists p', next false p = NWait p' /\ sim p' p.

Lemma sim_Tinv p q : sim p q -> exists t0, Tinv t0 p.
Proof. intros [_ (t0 & H & _)]. eauto. Qed.

Lemma zdrop_bytes n (b : bytes) : bytes_ok b -> bytes_ok (zdrop n b).
Proof. apply Forall_drop. Qed.

Lemma length_zdrop2 n (b : bytes) : 2 <= n <= len b -> (length (zdrop n b) < length b)%nat.
Proof. intros Hn. unfold zdrop, len in *. rewrite length_drop. lia. Qed.

(** The loop ends, with what a parser that has checked other parts of the text
    ends with. *)
Lemma run_sim fuel fuel' p q :
  sim p q -> idle p -> idle q -> bytes_ok (buffer p) -> (length (buffer p) < fuel)%nat -> (length (buffer p) < fuel')%nat ->
  exists evs r r', run fuel p = Some (evs, r) /\ run fuel' q = Some (evs, r') /\ same_end r r' /\
    (forall p', r = Ok p' -> settled p').
Proof.
  revert fuel' p q. induction fuel as [|fuel IH]; intros fuel' p q Hsim Hip Hiq Hb Hf Hf'; [lia|]. destruct fuel' as [|fuel']; [lia|]. cbn [run].
  destruct (sim_Tinv _ _ Hsim) as [tp HTp]. destruct (sim_Tinv _ _ (sim_sym _ _ Hsim)) as [tq HTq].
  pose proof (f_equal buffer (proj1 Hsim)) as Eb. cbn in Eb. assert (bytes_ok (buffer q)) as Hbq by (rewrite <- Eb; exact Hb).
  pose proof (next_sim false p q Hsim Hb) as Hns. pose proof (next_ext tp [] p HTp Hb ltac:(constructor) Hip) as Hp.
  pose proof (next_ext tq [] q HTq Hbq ltac:(constructor) Hiq) as Hq.
  destruct (next false p) as [e|p'|p'|p' ev] eqn:Ep, (next false q) as [e'|q'|q'|q' ev'] eqn:Eq; cbn in Hns; try tauto.
  - exists [], (Err e), (Err e'). splits; auto. discriminate.
  - exists [], (Ok p'), (Ok q'). splits; auto. intros x [= <-]. destruct Hp as (Hs1 & Hi1 & Hb1). unfold settled. splits; auto; [now rewrite Hb1|].
    pose proof (next_sim false p p' (sim_sym _ _ Hs1) Hb) as H. rewrite Ep in H. destruct (next false p') as [|p2| |] eqn:E2; cbn in H; try tauto.
    exists p2. split; [reflexivity|]. now apply sim_sym.
  - destruct Hp as (_ & Hi1 & n & Hn & Hb1), Hq as (_ & Hi2 & _). apply IH; auto; rewrite Hb1; [now apply zdrop_bytes|..]; pose proof (length_zdrop2 n (buffer p) Hn); lia.
  - destruct Hns as [Hns ->]. destruct Hp as (_ & Hi1 & n & Hn & Hb1), Hq as (_ & Hi2 & _).
    assert (bytes_ok (buffer p')) as Hbp' by (rewrite Hb1; now apply zdrop_bytes).
    assert (length (buffer p') < length (buffer p))%nat as Hlt by (rewrite Hb1; now apply length_zdrop2).
    destruct (IH fuel' p' q') as (evs & r & r' & -> & -> & Hr & Hset); auto; [lia|lia|].
    exists (ev' :: evs), r, r'. auto.
Qed.

(** More bytes at the end only add events at the end. *)
Lemma run_ext fuel fuel' t0 c p evs r :
  Tinv t0 p -> idle p -> bytes_ok (buffer p) -> bytes_ok c -> run fuel p = Some (evs, r) ->
  (length (buffer p) < fuel)%nat -> (length (buffer p) + length c < fuel')%nat ->
  match r with
  | Err e => run fuel' (ext c p) = Some (evs, Err e)
  | Ok p' => exists fuel'' evs' r', settled p' /\ sim p' p' /\ (length (buffer p') + length c < fuel'')%nat /\
      run fuel'' (ext c p') = Some (evs', r') /\
      exists r'', run fuel' (ext c p) = Some (evs ++ evs', r'') /\ same_end r' r''
  end.
Proof.
  revert fuel' t0 p evs r. induction fuel as [|fuel IH]; intros fuel' t0 p evs r HT Hi Hb Hc Hrun Hf Hf'; [lia|].
  destruct fuel' as [|fuel']; [lia|]. assert (sim p p) as Hself by (split; eauto).
  destruct (run_sim (S fuel) (S fuel) p p Hself Hi Hi Hb Hf Hf) as (evs0 & r0 & _ & E0 & _ & _ & Hset0).
  rewrite Hrun in E0. injection E0 as <- <-. cbn [run] in Hrun.
  pose proof (next_ext t0 c p HT Hb Hc Hi) as Hn. pose proof (next_sim false p p Hself Hb) as Hns.
  destruct (next false p) as [e|p'|p'|p' ev] eqn:Ep.
  - injection Hrun as <- <-. cbn [run]. now rewrite Hn.
  - injection Hrun as <- <-. destruct Hn as (Hs & Hi' & Hb').
    assert (bytes_ok (buffer p')) as Hbp' by (now rewrite Hb').
    destruct (run_sim (S fuel') (S fuel') (ext c p') (ext c p)) as (evs' & r' & r'' & R1 & R2 & Hsame & _); auto.
    + now apply sim_ext.
    + apply bytes_ok_app. auto.
    + change (buffer (ext c p')) with (buffer p' ++ c). rewrite length_app, Hb'. lia.
    + change (buffer (ext c p')) with (buffer p' ++ c). rewrite length_app, Hb'. lia.
    + exists (S fuel'), evs', r'. split; [exact (Hset0 p' eq_refl)|]. split; [destruct Hs as [_ (t & H1 & _)]; split; eauto|].
      rewrite Hb'. splits; [lia|exact R1|eauto].
  - destruct Hn as (Hn & Hi' & n & Hnn & Hb'). cbn in Hns. destruct (sim_Tinv _ _ Hns) as [t1 HT1]. cbn [run]. rewrite Hn.
    pose proof (length_zdrop2 n (buffer p) Hnn) as Hlt. apply (IH fuel' t1); auto; rewrite Hb'; [now apply zdrop_bytes|lia|lia].
  - destruct Hn as (Hn & Hi' & n & Hnn & Hb'). destruct Hns as [Hns _]. destruct (sim_Tinv _ _ Hns) as [t1 HT1]. cbn [run]. rewrite Hn.
    pose proof (length_zdrop2 n (buffer p) Hnn) as Hlt. destruct (run fuel p') as [[evs1 r1]|] eqn:Er; [|discriminate]. injection Hrun as <- <-.
    assert (bytes_ok (buffer p')) as Hbp' by (rewrite Hb'; now apply zdrop_bytes).
    pose proof (IH fuel' t1 p' evs1 r1 HT1 Hi' Hbp' Hc Er ltac:(rewrite Hb'; lia) ltac:(rewrite Hb'; lia)) as H.
    destruct r1 as [pe|e]; [|now rewrite H]. destruct H as (f'' & evs' & r' & H1 & H2 & H3 & H4 & r'' & -> & H5).
    exists f'', evs', r'. splits; auto. exists r''. auto.
Qed.

(** ** Feed is that loop *)

Notation feedLoop := (feedLoop decompressMessage).
Notation feedOne := (feedOne decompressMessage).
Notation drainEvents := (drainEvents decompressMessage).
Notation Feed := (Feed decompressMessage).
Notation FeedBorrowed := (FeedBorrowed decompressMessage).

Lemma feedIn_idle p data : idle p -> feedIn p data false = ext data p.
Proof.
  intros (I1 & I2 & I3). destruct p as [m b t k x fs bb pf d ct]. cbn in I1, I2, I3. subst k t bb. unfold feedIn, ext, setBuf.
  cbn [pendingConsume Z.eqb negb borrowedTail borrowedBuffer buffer andb]. change (len (@nil Z)) with 0. cbn [Z.eqb negb].
  now rewrite andb_false_r.
Qed.

(** What the loop counts on between frames. *)
Definition inv (p : Parser) : Prop := idle p /\ bytes_ok (buffer p) /\ exists t0, Tinv t0 p.

Lemma next_inv p :
  inv p ->
  match next false p with
  | NErr _ => True
  | NWait p' => inv p' /\ buffer p' = buffer p
  | NSkip p' | NEvent p' _ => inv p' /\ (length (buffer p') < length (buffer p))%nat
  end.
Proof.
  intros (Hi & Hb & t0 & HT). pose proof (next_ext t0 [] p HT Hb ltac:(constructor) Hi) as Hn. pose proof (next_sim false p p ltac:(split; eauto) Hb) as Hs.
  destruct (next false p) as [e|p'|p'|p' ev]; [exact I|..].
  - destruct Hn as (Hs' & Hi' & Hb'). split; [|exact Hb']. split; [exact Hi'|]. rewrite Hb'. split; [exact Hb|exact (sim_Tinv _ _ Hs')].
  - destruct Hn as (_ & Hi' & n & Hn & Hb'). split; [|rewrite Hb'; now apply length_zdrop2]. split; [exact Hi'|]. rewrite Hb'.
    split; [now apply zdrop_bytes|exact (sim_Tinv _ _ Hs)].
  - destruct Hn as (_ & Hi' & n & Hn & Hb'). split; [|rewrite Hb'; now apply length_zdrop2]. split; [exact Hi'|]. rewrite Hb'.
    split; [now apply zdrop_bytes|exact (sim_Tinv _ _ (proj1 Hs))].
Qed.

Lemma run_total fuel p : inv p -> (length (buffer p) < fuel)%nat -> exists evs r, run fuel p = Some (evs, r) /\ (length evs <= length (buffer p))%nat.
Proof.
  revert p. induction fuel as [|fuel IH]; intros p Hp Hf; [lia|]. cbn [run]. pose proof (next_inv p Hp) as Hn.
  destruct (next false p) as [e|p'|p'|p' ev].
  - exists [], (Err e). cbn. split; [reflexivity|lia].
  - exists [], (Ok p'). cbn. split; [reflexivity|lia].
  - destruct Hn as [Hp' Hlt]. destruct (IH p' Hp' ltac:(lia)) as (evs & r & E & Hl). exists evs, r. split; [exact E|lia].
  - destruct Hn as [Hp' Hlt]. destruct (IH p' Hp' ltac:(lia)) as (evs & r & -> & Hl). exists (ev :: evs), r. cbn. split; [reflexivity|lia].
Qed.

Lemma run_mono fuel fuel' p x : run fuel p = Some x -> (fuel <= fuel')%nat -> run fuel' p = Some x.
Proof.
  revert fuel' p x. induction fuel as [|fuel IH]; intros fuel' p x H Hle; [discriminate|]. destruct fuel' as [|fuel']; [lia|]. cbn [run] in *.
  destruct (next false p) as [e|p'|p'|p' ev]; auto; [apply IH; [exact H|lia]|].
  destruct (run fuel p') as [[evs r]|] eqn:E; [|discriminate]. rewrite (IH fuel' p' _ E) by lia. exact H.
Qed.

Lemma feedLoop_run fuel p evs r :
  inv p -> run fuel p = Some (evs, r) ->
  match evs with
  | [] => feedLoop fuel false p = Some (match r with Err e => FErr e | Ok p' => FWait p' end)
  | ev :: evs' => exists p' fuel', feedLoop fuel false p = Some (FEvent p' ev) /\ (fuel' < fuel)%nat /\ inv p' /\
      (length (buffer p') < length (buffer p))%nat /\ run fuel' p' = Some (evs', r)
  end.
Proof.
  revert p. induction fuel as [|fuel IH]; intros p Hp Hrun; [discriminate|]. cbn [run WsFrame.feedLoop] in *. pose proof (next_inv p Hp) as Hn.
  destruct (next false p) as [e|p'|p'|p' ev].
  - injection Hrun as <- <-. reflexivity.
  - injection Hrun as <- <-. destruct Hn as [((I1 & I2 & I3) & _) _]. rewrite I2, I3. change (len []) with 0. cbn [Z.eqb negb andb]. now rewrite andb_false_r.
  - destruct Hn as [Hp' Hlt]. specialize (IH p' Hp' Hrun). destruct evs; [exact IH|]. destruct IH as (q & f' & E & Hf & Hq & Hl & Hr).
    exists q, f'. splits; auto; lia.
  - destruct Hn as [Hp' Hlt]. destruct (run fuel p') as [[evs' r']|] eqn:E; [|discriminate]. injection Hrun as <- <-. exists p', fuel. splits; auto; lia.
Qed.

Lemma drain_run fuel g p acc evs r :
  inv p -> run g p = Some (evs, r) -> (length evs < fuel)%nat -> drainEvents fuel false p [] acc = Some (acc ++ evs, r).
Proof.
  revert g p acc evs. induction fuel as [|fuel IH]; intros g p acc evs Hp Hrun Hf; [lia|]. cbn [WsFrame.drainEvents]. unfold WsFrame.feedOne.
  rewrite feedIn_idle by apply Hp. assert (ext [] p = p) as -> by (unfold ext; rewrite app_nil_r; now destruct p).
  set (k := (length (buffer p) + length (borrowedTail p) + 2)%nat). assert (run k p = Some (evs, r)) as Hk.
  { destruct (run_total k p Hp) as (evs0 & r0 & E & _); [unfold k; lia|].
    destruct (Nat.le_ge_cases g k) as [Hle|Hle]; [exact (run_mono g k p _ Hrun Hle)|]. rewrite (run_mono k g p _ E Hle) in Hrun. congruence. }
  pose proof (feedLoop_run k p evs r Hp Hk) as H. destruct evs as [|ev evs].
  - rewrite H, app_nil_r. now destruct r.
  - destruct H as (p' & f' & -> & _ & Hp' & _ & Hr). rewrite (IH f' p' (acc ++ [ev]) evs Hp' Hr) by (cbn in Hf; lia). now rewrite <- app_assoc.
Qed.

Lemma Feed_run g p data evs r :
  inv p -> bytes_ok data -> run g (ext data p) = Some (evs, r) -> Feed p data = Some (evs, r).
Proof.
  intros Hp Hd Hrun. destruct Hp as (Hi & Hb & t0 & HT). assert (inv (ext data p)) as He.
  { split; [exact Hi|]. split; [now apply bytes_ok_app|]. exists t0. now apply Tinv_ext. }
  unfold WsFrame.Feed. set (N := (length (buffer p) + length (borrowedTail p) + length data + 1)%nat).
  assert (length (buffer (ext data p)) = length (buffer p) + length data)%nat as Hlen by (cbn; apply length_app).
  set (k := S (length (buffer (ext data p)))). destruct (run_total k (ext data p) He) as (evs0 & r0 & E & Hl); [unfold k; lia|].
  assert (evs0 = evs /\ r0 = r) as [-> ->].
  { destruct (Nat.le_ge_cases g k) as [Hle|Hle]; [rewrite (run_mono g k _ _ Hrun Hle) in E|rewrite (run_mono k g _ _ E Hle) in Hrun]; now simplify_eq. }
  assert (drainEvents N false p data [] = drainEvents N false (ext data p) [] []) as ->.
  { destruct N; [reflexivity|]. cbn [WsFrame.drainEvents]. unfold WsFrame.feedOne. rewrite !feedIn_idle by apply Hi.
    assert (ext [] (ext data p) = ext data p) as -> by (unfold ext; cbn; now rewrite app_nil_r). reflexivity. }
  rewrite (drain_run N k (ext data p) [] evs r He E); [reflexivity|]. unfold N. lia.
Qed.

(** ** Reads *)

(** The stream fed read by read, until an error. *)
Fixpoint feedAll (feed : Parser -> bytes -> option (list Event * res wserr Parser)) (p : Parser) (chunks : list bytes)
    : option (list Event * res wserr Parser) :=
  match chunks with
  | [] => Some ([], Ok p)
  | c :: chunks =>
      match feed p c with
      | None => None
      | Some (evs, Err e) => Some (evs, Err e)
      | Some (evs, Ok p) =>
          match feedAll feed p chunks with Some (evs', r) => Some (evs ++ evs', r) | None => None end
      end
  end.

Lemma settled_inv p : settled p -> inv p.
Proof. intros (Hi & Hb & p' & _ & [_ (t0 & _ & HT)]). split; eauto. Qed.

Lemma inv_sim p : inv p -> sim p p.
Proof. intros (_ & _ & t0 & HT). split; eauto. Qed.

Lemma inv_ext c p : inv p -> bytes_ok c -> inv (ext c p).
Proof. intros (Hi & Hb & t0 & HT) Hc. split; [exact Hi|]. split; [now apply bytes_ok_app|]. exists t0. now apply Tinv_ext. Qed.

(** Only what the ends have in common: the error, or all but the text. *)
Definition alike (r s : res wserr Parser) : Prop :=
  match r, s with Err e, Err e' => e = e' | Ok p, Ok q => strip p = strip q | _, _ => False end.

Lemma same_alike r s : same_end r s -> alike r s.
Proof. destruct r, s; cbn; auto. now intros [? _]. Qed.

Lemma alike_trans r s t : alike r s -> alike s t -> alike r t.
Proof. destruct r, s, t; cbn; try tauto; congruence. Qed.

Lemma feedAll_run chunks p :
  settled p -> Forall bytes_ok chunks ->
  exists g evs r r', feedAll Feed p chunks = Some (evs, r) /\ run g (ext (concat chunks) p) = Some (evs, r') /\ alike r r'.
Proof.
  revert p. induction chunks as [|c chunks IH]; intros p Hp Hc.
  - destruct Hp as (Hi & Hb & p' & Hn & Hs). exists 1%nat, [], (Ok p), (Ok p'). cbn [feedAll concat]. splits; auto; [|symmetry; apply Hs].
    assert (ext [] p = p) as -> by (unfold ext; rewrite app_nil_r; now destruct p). cbn [run]. now rewrite Hn.
  - pose proof (Forall_inv Hc) as Hc0. pose proof (Forall_inv_tail Hc) as Hcs. pose proof (settled_inv p Hp) as Hinv.
    pose proof (inv_ext c p Hinv Hc0) as He. set (k := S (length (buffer (ext c p)))).
    destruct (run_total k (ext c p) He) as (evs & r & E & _); [unfold k; lia|]. cbn [feedAll concat].
    rewrite (Feed_run k p c evs r Hinv Hc0 E).
    assert (bytes_ok (concat chunks)) as Hcc by (clear - Hcs; induction Hcs; [constructor|]; cbn; now apply bytes_ok_app).
    assert (ext (c ++ concat chunks) p = ext (concat chunks) (ext c p)) as -> by (unfold ext; cbn; now rewrite app_assoc).
    destruct He as (Hei & Heb & t0 & HeT). set (g := S (length (buffer (ext c p)) + length (concat chunks))).
    pose proof (run_ext k g t0 (concat chunks) (ext c p) evs r HeT Hei Heb Hcc E ltac:(unfold k; lia) ltac:(unfold g; lia)) as H.
    destruct r as [p1|e].
    + destruct H as (f & evs' & r' & Hset & _ & _ & Hrun & r'' & Hg & Hsame). destruct (IH p1 Hset Hcs) as (f2 & evs2 & r2 & r2' & -> & Hrun2 & Ha).
      assert (evs2 = evs' /\ r2' = r') as [-> ->].
      { destruct (Nat.le_ge_cases f f2) as [Hle|Hle]; [rewrite (run_mono f f2 _ _ Hrun Hle) in Hrun2|rewrite (run_mono f2 f _ _ Hrun2 Hle) in Hrun]; now simplify_eq. }
      exists g, (evs ++ evs'), r2, r''. splits; auto. eapply alike_trans; [exact Ha|now apply same_alike].
    + exists g, evs, (Err e), (Err e). splits; auto. reflexivity.
Qed.

(** ** Without copying *)

(** The parser that would have copied: the bytes not yet seen, all its own. *)
Definition own (p : Parser) : Parser := setBuf p (zdrop (pendingConsume p) (buffer p)) [] 0 false.

Definition view (p : Parser) : Parser := ext (borrowedTail p) (own p).

Lemma inflate_setBuf p c t k w m :
  inflate (setBuf p c t k w) m = match inflate p m with Ok (x, p') => Ok (x, setBuf p' c t k w) | Err e => Err e end.
Proof.
  unfold WsFrame.inflate. change (extra (setBuf p c t k w)) with (extra p). change (maxMessageBytes (setBuf p c t k w)) with (maxMessageBytes p).
  change (contextTakeover (setBuf p c t k w)) with (contextTakeover p). destruct (decompressMessage _ _ _); [|reflexivity]. now destruct (contextTakeover p).
Qed.

(** [p0] holds, as its own, bytes that from [n] on are those of [p]. *)
Definition lent (n : Z) (p p0 : Parser) : Prop :=
  pendingConsume p = 0 /\ exists b0, p0 = setBuf p b0 [] 0 false /\ zdrop n b0 = zdrop n (buffer p) /\ len b0 = len (buffer p).

Lemma lent_setExtra n p p0 x : lent n p p0 -> lent n (setExtra p x) (setExtra p0 x).
Proof. intros (H & b0 & -> & H2 & H3). split; [exact H|]. exists b0. auto. Qed.

Lemma own_consume n p p0 : 0 <= n <= len (buffer p) -> lent n p p0 -> consume p0 n = own (consume p n).
Proof.
  intros Hn (H & b0 & -> & H2 & H3). unfold consume. cbn [buffer setBuf]. rewrite H3. destruct (n =? len (buffer p)); unfold own; cbn; rewrite H.
  - reflexivity.
  - change (zdrop 0 ?l) with l. now rewrite H2.
Qed.

Lemma own_finish n p p0 : 0 <= n <= len (buffer p) -> lent n p p0 -> finishFrame p0 n false = own (finishFrame p n true).
Proof.
  intros Hn (H & b0 & -> & H2 & H3). unfold finishFrame, consume. cbn [buffer setBuf]. rewrite H3. unfold own. cbn.
  destruct (Z.eqb_spec n (len (buffer p))) as [->|]; [|unfold setBuf; cbn; now rewrite H2].
  unfold setBuf. cbn. do 2 f_equal. unfold zdrop, len. rewrite Nat2Z.id. symmetry. apply drop_ge. lia.
Qed.

Lemma lent_inflate n p p0 m :
  lent n p p0 ->
  match inflate p m, inflate p0 m with
  | Ok (x, p'), Ok (x', p0') => x = x' /\ lent n p' p0' /\ buffer p' = buffer p
  | Err e, Err e' => e = e'
  | _, _ => False
  end.
Proof.
  intros (H & b0 & -> & H2 & H3). rewrite inflate_setBuf. destruct (inflate p m) as [[x p']|e] eqn:E; [|reflexivity].
  apply inflate_buf in E as (E1 & _ & E3 & _). splits; auto. split; [congruence|]. exists b0. rewrite E1. auto.
Qed.

Lemma lent_extra n p p0 : lent n p p0 -> extra p0 = extra p /\ perFrame p0 = perFrame p.
Proof. intros (_ & b0 & -> & _). auto. Qed.

Lemma takeFirst_own n p p0 op fin compressed isText checked payload :
  0 <= n <= len (buffer p) -> lent n p p0 ->
  takeFirst p0 false op fin compressed isText checked payload n = nmap own (takeFirst p true op fin compressed isText checked payload n).
Proof.
  intros Hn Hl. unfold WsFrame.takeFirst. destruct (lent_extra _ _ _ Hl) as [-> ->]. destruct (fin && compressed).
  - pose proof (lent_inflate n p p0 payload Hl) as Hi. destruct (inflate p payload) as [[x p']|e], (inflate p0 payload) as [[x' p0']|e']; try tauto; [|now subst].
    destruct Hi as (-> & Hl' & Hb). destruct (_ && _); [reflexivity|]. cbn [nmap]. rewrite (own_finish n p' p0') by (auto; now rewrite Hb). reflexivity.
  - destruct fin.
    + destruct (negb _); [reflexivity|]. cbn [nmap]. destruct isText; erewrite own_finish; try reflexivity; auto using lent_setExtra.
    + destruct (if isText then _ else _) as [v|]; [|reflexivity]. destruct (perFrame p && _); cbn [nmap].
      * erewrite own_finish; [reflexivity|exact Hn|now apply lent_setExtra].
      * erewrite own_consume; [reflexivity|exact Hn|now apply lent_setExtra].
Qed.

Lemma own_setExtra p x : own (setExtra p x) = setExtra (own p) x.
Proof. reflexivity. Qed.

Lemma takeContinuation_own n p p0 f fin isText checked payload :
  0 <= n <= len (buffer p) -> lent n p p0 ->
  takeContinuation p0 false f fin isText checked payload n = nmap own (takeContinuation p true f fin isText checked payload n).
Proof.
  intros Hn Hl. unfold WsFrame.takeContinuation. destruct (lent_extra _ _ _ Hl) as [-> ->].
  destruct (if isText then _ else _) as [v|]; [|reflexivity]. destruct (isText && _); [reflexivity|]. destruct (perFrame p && _).
  - cbn [nmap]. erewrite own_finish; [reflexivity|exact Hn|now apply lent_setExtra].
  - cbn [f_compressed f_data f_opcode]. set (x1 := setFragment _ _).
    rewrite (own_consume n (setExtra p x1) (setExtra p0 x1)) by (auto; now apply lent_setExtra). set (p1 := consume (setExtra p x1) n). destruct (negb fin); [reflexivity|]. destruct (f_compressed f); [|reflexivity].
    unfold own at 1. rewrite inflate_setBuf. destruct (inflate p1 _) as [[x p']|e] eqn:E; [|reflexivity]. destruct (_ && _); [reflexivity|].
    apply inflate_buf in E as (E1 & _ & E3 & _). cbn [nmap]. rewrite own_setExtra. unfold own. now rewrite E1, E3.
Qed.

Lemma len_unmask p h s : head_ok p h -> bytes_ok s -> len (unmask h s) = len s.
Proof. intros Hok Hs. rewrite (unmask_plain p h s Hok Hs). apply len_plain. Qed.

(** A step that lends its payload is the step that copies it. *)
Lemma next_own p : pendingConsume p = 0 -> bytes_ok (buffer p) -> next false (own p) = nmap own (next true p).
Proof.
  intros Hpc Hb. assert (own p = setBuf p (buffer p) [] 0 false) as Eo by (unfold own; now rewrite Hpc). rewrite Eo.
  unfold WsFrame.next. change (readHead (setBuf p (buffer p) [] 0 false)) with (readHead p). change (extra (setBuf p (buffer p) [] 0 false)) with (extra p).
  change (buffer (setBuf p (buffer p) [] 0 false)) with (buffer p).
  destruct (readHead p) as [e| |h] eqn:Hh; [reflexivity|cbn [nmap]; now rewrite Eo|].
  destruct (Z.ltb_spec (len (buffer p) - h_offset h) (h_len h)) as [Hinc|Hall].
  - destruct (h_text h); [|cbn [nmap]; now rewrite Eo]. destruct (checkPartialText _ _ _) as [x|]; [|reflexivity]. cbn [nmap]. now rewrite own_setExtra, Eo.
  - unfold WsFrame.takeFrame. change (extra (setBuf p (buffer p) [] 0 false)) with (extra p). cbn [buffer setBuf].
    pose proof (readHead_ok _ _ Hb Hh) as Hok. pose proof (len_avail p h Hok) as Hla. set (pl := unmask h _). set (n := h_offset h + h_len h).
    assert (len pl = h_len h) as Hpl.
    { unfold pl. rewrite (len_unmask p) by (auto; apply Forall_take, Forall_drop, Hb). rewrite len_ztake; [reflexivity|]. destruct Hok. lia. }
    destruct Hok as [Ho Hlen _]. set (b1 := ztake (h_offset h) (buffer p) ++ pl ++ zdrop n (buffer p)).
    assert (len b1 = len (buffer p)) as Hb1.
    { unfold b1. rewrite !len_app, len_ztake, Hpl, len_zdrop by (unfold n; lia). unfold n. lia. }
    assert (zdrop n b1 = zdrop n (buffer p)) as Hz.
    { unfold b1. rewrite app_assoc. replace n with (len (ztake (h_offset h) (buffer p) ++ pl)) at 1 by (rewrite len_app, len_ztake, Hpl by lia; reflexivity).
      apply zdrop_app. }
    set (p1 := setBuf (setExtra p _) b1 _ _ _). set (p0 := setExtra (setBuf p _ _ _ _) _).
    assert (lent n p1 p0) as Hl by (split; [exact Hpc|]; exists (buffer p); splits; [reflexivity|symmetry; exact Hz|symmetry; exact Hb1]).
    assert (0 <= n <= len (buffer p1)) as Hn by (change (buffer p1) with b1; rewrite Hb1; unfold n; lia).
    destruct (0x8 <=? _).
    + unfold takeControl. destruct (_ && _); [reflexivity|]. destruct (_ && _); [reflexivity|]. cbn [nmap]. now rewrite (own_finish n p1 p0).
    + destruct (_ || _); [now apply takeFirst_own|]. change (extra p0) with (extra p1). destruct (fragment (extra p1)); [|reflexivity].
      now apply takeContinuation_own.
Qed.

(** What a step leaves alone. *)
Definition kept (p : Parser) (r : nextRes) : Prop :=
  match r with
  | NErr _ => True
  | NWait p' => borrowedTail p' = borrowedTail p /\ pendingConsume p' = pendingConsume p /\ buffer p' = buffer p
  | NSkip p' => borrowedTail p' = borrowedTail p /\ pendingConsume p' = pendingConsume p
  | NEvent p' _ => borrowedTail p' = borrowedTail p
  end.

Lemma consume_kept p n : borrowedTail (consume p n) = borrowedTail p /\ pendingConsume (consume p n) = pendingConsume p.
Proof. unfold consume. now destruct (n =? _). Qed.

Lemma finish_kept p n b : borrowedTail (finishFrame p n b) = borrowedTail p.
Proof. destruct b; [reflexivity|apply consume_kept]. Qed.

Lemma takeFirst_kept p b op fin compressed isText checked payload n : kept p (takeFirst p b op fin compressed isText checked payload n).
Proof.
  unfold WsFrame.takeFirst. destruct (fin && compressed).
  - destruct (inflate p payload) as [[x p']|e] eqn:E; [|exact I]. apply inflate_buf in E as (_ & E2 & _). destruct (_ && _); [exact I|]. cbn. now rewrite finish_kept.
  - destruct fin; [destruct (negb _); [exact I|]; cbn; rewrite finish_kept; now destruct isText|].
    destruct (if isText then _ else _); [|exact I]. destruct (perFrame p && _); cbn; [now rewrite finish_kept|]. apply (consume_kept (setExtra p _)).
Qed.

Lemma takeContinuation_kept p b f fin isText checked payload n : kept p (takeContinuation p b f fin isText checked payload n).
Proof.
  unfold WsFrame.takeContinuation. destruct (if isText then _ else _); [|exact I]. destruct (isText && _); [exact I|].
  destruct (perFrame p && _); [cbn; now rewrite finish_kept|]. destruct (consume_kept (setExtra p (setFragment (setText (extra p) u)
    (Some (mkFrag (f_opcode f) (f_compressed f) (f_data f ++ payload))))) n) as [K1 K2].
  destruct (negb fin); [now split|]. cbn [f_compressed f_data f_opcode]. destruct (f_compressed f); [|exact K1].
  destruct (inflate _ _) as [[x p']|e] eqn:E; [|exact I]. apply inflate_buf in E as (_ & E2 & _). destruct (_ && _); [exact I|]. cbn. now rewrite E2.
Qed.

Lemma takeFirst_taken p b op fin compressed isText checked payload n :
  match takeFirst p b op fin compressed isText checked payload n with NWait _ => False | _ => True end.
Proof.
  unfold WsFrame.takeFirst. destruct (fin && compressed); [destruct (inflate p payload) as [[x p']|e]; [|exact I]; now destruct (_ && _)|].
  destruct fin; [now destruct (negb _)|]. destruct (if isText then _ else _); [|exact I]. now destruct (perFrame p && _).
Qed.

Lemma takeContinuation_taken p b f fin isText checked payload n :
  match takeContinuation p b f fin isText checked payload n with NWait _ => False | _ => True end.
Proof.
  unfold WsFrame.takeContinuation. destruct (if isText then _ else _); [|exact I]. destruct (isText && _); [exact I|].
  destruct (perFrame p && _); [exact I|]. destruct (negb fin); [exact I|]. cbn [f_compressed f_data f_opcode].
  destruct (f_compressed f); [|exact I]. destruct (inflate _ _) as [[x p']|e]; [|exact I]. now destruct (_ && _).
Qed.

Lemma next_kept b p : kept p (next b p).
Proof.
  unfold WsFrame.next. destruct (readHead p) as [e| |h]; [exact I|cbn; auto|]. destruct (_ <? _).
  - destruct (h_text h); [|cbn; auto]. destruct (checkPartialText _ _ _); [|exact I]. cbn. auto.
  - unfold WsFrame.takeFrame. set (payload := unmask h _). set (p1 := if b then _ else _).
    assert (forall r, kept p1 r -> match r with NWait _ => False | _ => True end -> kept p r) as H.
    { intros r Hr Hw. assert (borrowedTail p1 = borrowedTail p /\ pendingConsume p1 = pendingConsume p) as [E1 E2] by (unfold p1; now destruct b).
      destruct r; cbn in *; rewrite ?E1, ?E2 in *; auto; tauto. }
    destruct (0x8 <=? _).
    + apply H; unfold takeControl; destruct (_ && _); try exact I; destruct (_ && _); try exact I. cbn. apply finish_kept.
    + destruct (_ || _); [apply H; [apply takeFirst_kept|apply takeFirst_taken]|].
      destruct (fragment _); [|exact I]. apply H; [apply takeContinuation_kept|apply takeContinuation_taken].
Qed.

(** ** The frame being received *)

Lemma frameHeaderSize_app b c : 2 <= len b -> frameHeaderSize (b ++ c) = frameHeaderSize b.
Proof.
  intros Hb. unfold frameHeaderSize. pose proof (len_nonneg c). rewrite len_app, !(proj2 (Z.ltb_ge _ 2)), at_app by lia. reflexivity.
Qed.

Lemma frameHeaderSize_ge b : 2 <= frameHeaderSize b /\ (2 <= len b -> at_ b 1 .& 0x7f = 126 -> 4 <= frameHeaderSize b) /\
  (2 <= len b -> at_ b 1 .& 0x7f = 127 -> 10 <= frameHeaderSize b).
Proof.
  unfold frameHeaderSize. destruct (Z.ltb_spec (len b) 2); [split; [lia|split; intros; lia]|]. generalize (at_ b 1 .& 0x7f) as n. intros n.
  destruct (negb _); destruct (Z.eqb_spec n 126), (Z.eqb_spec n 127); repeat split; intros; lia.
Qed.

Lemma frameSize_app b c e : frameSize b = Some e -> frameSize (b ++ c) = Some e.
Proof.
  unfold frameSize. pose proof (len_nonneg c). destruct (frameHeaderSize_ge b) as (G1 & G2 & G3).
  destruct (Z.ltb_spec (len b) (frameHeaderSize b)) as [|Hl]; [discriminate|]. rewrite frameHeaderSize_app by lia.
  rewrite len_app, (proj2 (Z.ltb_ge (len b + len c) (frameHeaderSize b))), at_app by lia.
  destruct (Z.eqb_spec (at_ b 1 .& 0x7f) 126) as [E|E]; [specialize (G2 ltac:(lia) E); rewrite lengthAt_app by lia; auto|].
  destruct (Z.eqb_spec (at_ b 1 .& 0x7f) 127) as [E'|E']; [specialize (G3 ltac:(lia) E'); rewrite lengthAt_app by lia; auto|auto].
Qed.

(** All of the data goes on, and what is put off starts at a frame. *)
Lemma appendCurrentFrame_spec fuel b data :
  let '(b', rest) := appendCurrentFrame fuel b data in
  (exists c, b' = b ++ c /\ data = c ++ rest) /\ (rest = [] \/ frameSize b' = Some (len b')).
Proof.
  revert b data. induction fuel as [|fuel IH]; intros b data; cbn [appendCurrentFrame].
  { split; [exists data; now rewrite app_nil_r|auto]. }
  assert (forall n, exists c, b ++ ztake n data = b ++ c /\ data = c ++ zdrop n data) as Happ by (intros n; exists (ztake n data); unfold ztake, zdrop; now rewrite take_drop).
  assert (exists c, b ++ data = b ++ c /\ data = c ++ []) as Hall by (exists data; now rewrite app_nil_r).
  destruct (frameSize b) as [e|] eqn:E.
  - destruct (Z.leb_spec (e - len b) 0) as [|H0]; cbn [orb]; [auto|].
    destruct (Z.leb_spec (len data) (e - len b)) as [|H1]; [auto|]. split; [apply Happ|]. right.
    rewrite (frameSize_app _ _ _ E). f_equal. rewrite len_app, len_ztake by lia. lia.
  - destruct (_ || _); [auto|]. set (n := frameHeaderSize b - len b). specialize (IH (b ++ ztake n data) (zdrop n data)).
    destruct (appendCurrentFrame fuel _ _) as [b' rest]. destruct IH as [(c & -> & Hc) Hr]. split; [|exact Hr].
    exists (ztake n data ++ c). rewrite <- !app_assoc, <- Hc. split; [reflexivity|]. unfold ztake, zdrop. now rewrite take_drop.
Qed.

(** A buffer that is one frame is one to the parser too. *)
Lemma exact_frame p :
  frameSize (buffer p) = Some (len (buffer p)) ->
  match readHead p with HErr _ => True | HShort => False | HFrame h => h_offset h + h_len h = len (buffer p) end.
Proof.
  unfold frameSize, readHead. set (b := buffer p). destruct (Z.ltb_spec (len b) (frameHeaderSize b)) as [|Hl]; [discriminate|]. intros Hf.
  destruct (frameHeaderSize_ge b) as (G1 & _). rewrite (proj2 (Z.ltb_ge _ 2)) by lia. destruct (badHeader _ _ _); [exact I|].
  unfold payloadLength. assert (len b <? 2 = false) as Hsz by (apply Z.ltb_ge; lia).
  unfold frameHeaderSize in Hf, Hl. rewrite Hsz in Hf, Hl.
  revert Hf Hl. generalize (negb (at_ b 1 .& 0x80 =? 0)) as m. generalize (at_ b 1 .& 0x7f) as n. intros n m Hf Hl.
  assert (forall off k, (if 2 ^ 63 - 1 - (if m then off + 4 else off) <? k then None else Some ((if m then off + 4 else off) + k)) = Some (len b) ->
    (if m then off + 4 else off) <= len b -> (m && (len b <? off + 4) = false) /\ (if m then off + 4 else off) + k = len b) as Hk.
  { intros off k H1 H2. destruct (_ <? k); [discriminate|]. injection H1 as H1. split; [|exact H1]. destruct m; [|reflexivity]. cbn [andb]. apply Z.ltb_ge. exact H2. }
  destruct (Z.eqb_spec n 126) as [E1|E1]; [|destruct (Z.eqb_spec n 127) as [E2|E2]].
  - destruct (Z.ltb_spec (len b) 4); [destruct m; lia|]. destruct (lengthAt b 2 2 <? 126); [exact I|]. destruct (_ && (_ || _)); [exact I|].
    destruct (Hk 4 (lengthAt b 2 2)) as [-> Hk2]; [now destruct m|destruct m; lia|exact Hk2].
  - destruct (Z.ltb_spec (len b) 10); [destruct m; lia|]. destruct (_ || _); [exact I|]. destruct (_ && (_ || _)); [exact I|].
    destruct (Hk 10 (lengthAt b 2 8)) as [-> Hk2]; [now destruct m|destruct m; lia|exact Hk2].
  - destruct (_ && (_ || _)); [exact I|]. destruct (Hk 2 n) as [-> Hk2]; [now destruct m|destruct m; lia|exact Hk2].
Qed.

Lemma exact_next p :
  inv p -> frameSize (buffer p) = Some (len (buffer p)) ->
  match next false p with NErr _ => True | NWait _ => False | NSkip p' | NEvent p' _ => buffer p' = [] end.
Proof.
  intros (_ & Hb & _) Hf. pose proof (exact_frame p Hf) as Hx. unfold WsFrame.next. destruct (readHead p) as [e| |h] eqn:Hh; [exact I|tauto|].
  pose proof (readHead_ok _ _ Hb Hh) as [Ho Hl _]. rewrite (proj2 (Z.ltb_ge _ _)) by lia. pose proof (takeFrame_took p h ltac:(lia)) as Ht. rewrite Hx in Ht.
  assert (zdrop (len (buffer p)) (buffer p) = []) as Ez by (unfold zdrop, len; rewrite Nat2Z.id; apply drop_ge; lia).
  destruct (takeFrame false p h); auto; destruct Ht as [-> _]; exact Ez.
Qed.

(** ** Lending the read buffer *)

(** Before a step, and after an event: the parser reads the tail only once it is
    done with its buffer, and the tail starts at a frame. *)
Definition reading (p : Parser) : Prop :=
  pendingConsume p = 0 /\ inv (own p) /\ bytes_ok (borrowedTail p) /\
  (borrowedTail p = [] \/ buffer p = [] \/ frameSize (buffer p) = Some (len (buffer p))).

Definition between (p : Parser) : Prop :=
  inv (own p) /\ bytes_ok (borrowedTail p) /\ (borrowedTail p = [] \/ buffer (own p) = []).

Lemma own_buffer p : pendingConsume p = 0 -> buffer (own p) = buffer p.
Proof. intros H. unfold own. cbn. now rewrite H. Qed.

Lemma view_nil p : borrowedTail p = [] -> view p = own p.
Proof. intros H. unfold view, ext. rewrite H, app_nil_r. reflexivity. Qed.

Lemma next_nil b p : buffer p = [] -> next b p = NWait p.
Proof. intros H. unfold WsFrame.next, readHead. now rewrite H. Qed.

(** A step on the buffer is the step on all the bytes. *)
Lemma next_view p :
  reading p ->
  match next true p with
  | NErr e => next false (view p) = NErr e
  | NWait p' =>
      pendingConsume p' = 0 /\ buffer p' = buffer p /\ borrowedTail p' = borrowedTail p /\
      ((borrowedTail p = [] /\ next false (view p) = NWait (own p')) \/ (borrowedTail p <> [] /\ p' = p /\ buffer p = []))
  | NSkip p' => next false (view p) = NSkip (view p') /\ reading p' /\ borrowedTail p' = borrowedTail p /\ (length (buffer p') < length (buffer p))%nat
  | NEvent p' ev => next false (view p) = NEvent (view p') ev /\ between p'
  end.
Proof.
  intros (Hpc & Hinv & Ht & Hc). pose proof Hinv as (Hi & Hb & t0 & HT). pose proof (own_buffer p Hpc) as Eb.
  pose proof (next_kept true p) as Hk. pose proof (next_ext t0 (borrowedTail p) (own p) HT Hb Ht Hi) as He. pose proof (next_inv _ Hinv) as Hv.
  pose proof (exact_next (own p) Hinv) as Hx. rewrite Eb in *. pose proof (next_own p Hpc Hb) as En. rewrite En in He, Hv, Hx. fold (view p) in He.
  pose proof (next_nil true p) as Hnil. destruct (next true p) as [e|p'|p'|p' ev]; cbn [nmap kept] in *; [exact He|..].
  - destruct Hk as (K1 & K2 & K3). rewrite K1, K2, K3. splits; auto. destruct (borrowedTail p) as [|x l] eqn:Et.
    + left. split; [reflexivity|]. rewrite view_nil by exact Et. exact En.
    + right. destruct Hc as [Hc|[Hc|Hc]]; [discriminate| |tauto]. specialize (Hnil Hc). splits; congruence.
  - destruct Hk as [K1 K2], Hv as [Hv Hlt], He as (He & _). rewrite <- K1 in He. splits; auto; [|rewrite own_buffer in Hlt by congruence; exact Hlt].
    unfold reading. rewrite K1. splits; auto; [congruence|]. destruct Hc as [Hc|[Hc|Hc]]; [auto|specialize (Hnil Hc); discriminate|].
    right. left. rewrite <- own_buffer by congruence. auto.
  - destruct Hv as [Hv _], He as (He & _). rewrite <- Hk in He. split; [exact He|]. unfold between. rewrite Hk. splits; auto.
    destruct Hc as [Hc|[Hc|Hc]]; [auto|specialize (Hnil Hc); discriminate|auto].
Qed.

Lemma feedLoop_borrow fuel g p evs r :
  reading p -> run g (view p) = Some (evs, r) ->
  (length (buffer p) + match borrowedTail p with [] => 0 | _ => S (length (borrowedTail p)) end < fuel)%nat ->
  match evs, r with
  | [], Err e => feedLoop fuel true p = Some (FErr e)
  | [], Ok q => exists p', feedLoop fuel true p = Some (FWait p') /\ ReleaseBorrowed p' = q
  | ev :: evs', _ => exists p' g', feedLoop fuel true p = Some (FEvent p' ev) /\ between p' /\ run g' (view p') = Some (evs', r)
  end.
Proof.
  revert g p. induction fuel as [|fuel IH]; intros g p Hp Hrun Hf; [lia|]. destruct g as [|g]; [discriminate|]. cbn [WsFrame.feedLoop].
  pose proof (next_view p Hp) as Hn. destruct (next true p) as [e|p'|p'|p' ev].
  - cbn [run] in Hrun. rewrite Hn in Hrun. now simplify_eq.
  - destruct Hn as (N1 & N2 & N3 & [[Ht Hn]|(Ht & -> & Hn)]).
    + cbn [run] in Hrun. rewrite Hn in Hrun. injection Hrun as <- <-. rewrite N3, Ht. change (len []) with 0. cbn [Z.eqb negb]. rewrite andb_false_r.
      eexists. split; [reflexivity|]. rewrite Ht in N3. destruct p' as [m b t k x fs bb pf d ct]. cbn in N1, N3. subst k t. unfold ReleaseBorrowed, own, setBuf.
      cbn [buffer borrowedBuffer pendingConsume borrowedTail]. change (zdrop 0 b) with b. destruct bb; cbn [andb]; [|reflexivity].
      destruct (Z.eqb_spec (len b) 0) as [E0|E0]; cbn; [|reflexivity]. destruct b; [reflexivity|]. rewrite len_cons in E0. pose proof (len_nonneg b). lia.
    + rewrite Hn. change (len []) with 0. destruct (borrowedTail p) as [|y l] eqn:Et; [congruence|]. cbn [Z.eqb andb].
      rewrite (proj2 (Z.eqb_neq _ _)) by (rewrite len_cons; pose proof (len_nonneg l); lia). cbn [negb].
      destruct Hp as (Hpc & Hinv & Htb & _). set (p1 := setBuf p (y :: l) [] (pendingConsume p) true).
      assert (view p1 = view p) as Ev by (unfold view, ext, own, setBuf, p1; cbn; rewrite Hpc, Hn, Et; cbn; rewrite app_nil_r; reflexivity).
      apply (IH (S g)); [|now rewrite Ev|rewrite Hn in Hf; cbn in *; lia].
      unfold reading. splits; auto; [|constructor]. rewrite <- view_nil, Ev by reflexivity. unfold view. apply inv_ext; [exact Hinv|exact Htb].
  - destruct Hn as (Hn & Hp' & Ht & Hlt). cbn [run] in Hrun. rewrite Hn in Hrun. apply (IH g p' Hp' Hrun). rewrite Ht. lia.
  - destruct Hn as (Hn & Hb). cbn [run] in Hrun. rewrite Hn in Hrun. destruct (run g (view p')) as [[evs' r']|] eqn:E; [|discriminate].
    injection Hrun as <- <-. exists p', g. auto.
Qed.

(** The next event is looked for past the one lent. *)
Lemma feedIn_between p : between p -> reading (feedIn p [] true) /\ view (feedIn p [] true) = view p.
Proof.
  intros (Hinv & Ht & Hc). unfold feedIn.
  set (p1 := if negb (pendingConsume p =? 0) then _ else p).
  assert (exists bb, p1 = setBuf p (zdrop (pendingConsume p) (buffer p)) (borrowedTail p) 0 bb) as [bb ->].
  { unfold p1. destruct (Z.eqb_spec (pendingConsume p) 0) as [E|E]; cbn [negb].
    - exists (borrowedBuffer p). rewrite E. destruct p. cbn in *. now subst.
    - unfold consume. destruct (Z.eqb_spec (pendingConsume p) (len (buffer p))) as [E'|E']; eexists; unfold setBuf; cbn; [|reflexivity].
      rewrite E'. f_equal. unfold zdrop, len. rewrite Nat2Z.id. symmetry. apply drop_ge. lia. }
  cbn [buffer borrowedTail pendingConsume borrowedBuffer setBuf]. change (len (@nil Z)) with 0. cbn [Z.eqb negb]. rewrite !andb_false_r, !app_nil_r.
  unfold own in Hc. cbn in Hc. set (b := zdrop _ _) in *. destruct (borrowedTail p) as [|y l] eqn:Et.
  - change (len []) with 0. cbn [Z.eqb negb]. rewrite !andb_false_r. cbn [borrowedBuffer buffer setBuf borrowedTail]. split.
    + unfold reading. cbn. splits; auto.
    + unfold view. cbn. rewrite Et. reflexivity.
  - destruct Hc as [Hc|Hc]; [discriminate|]. rewrite Hc. change (len []) with 0. cbn [Z.eqb andb].
    rewrite (proj2 (Z.eqb_neq _ _)) by (rewrite len_cons; pose proof (len_nonneg l); lia). cbn [negb buffer borrowedBuffer borrowedTail setBuf app].
    assert (view p = setBuf p (y :: l) [] 0 false) as Ev by (unfold view, ext, own; cbn; fold b; now rewrite Hc, Et).
    split; [|rewrite Ev; unfold view, ext, own, setBuf; cbn; rewrite app_nil_r; reflexivity]. unfold reading. cbn. splits; auto; [|constructor].
    assert (inv (view p)) as Hv by (unfold view; apply inv_ext; [exact Hinv|now rewrite Et]). rewrite Ev in Hv. exact Hv.
Qed.

(** A read lent to a parser that waits. *)
Lemma feedIn_lend p data : inv p -> bytes_ok data -> reading (feedIn p data true) /\ view (feedIn p data true) = ext data p.
Proof.
  intros Hp Hd. pose proof Hp as ((I1 & I2 & I3) & _). assert (own p = p) as Eo by (destruct p; cbn in I1, I2, I3; subst; reflexivity).
  destruct data as [|y data].
  { destruct (feedIn_between p) as [H1 ->]; [unfold between; rewrite Eo, I2; auto|]. split; [exact H1|]. unfold view. now rewrite Eo, I2. }
  assert (forall c rest, y :: data = c ++ rest -> (rest = [] \/ frameSize (buffer p ++ c) = Some (len (buffer p ++ c))) -> forall bb,
    reading (setBuf p (buffer p ++ c) rest 0 bb) /\ view (setBuf p (buffer p ++ c) rest 0 bb) = ext (y :: data) p) as H.
  { intros c rest E Hr bb. rewrite E in Hd |- *. assert (bytes_ok c /\ bytes_ok rest) as [Hc Hrest] by now apply Forall_app.
    assert (own (setBuf p (buffer p ++ c) rest 0 bb) = ext c p) as E1 by (unfold own, ext; destruct p; cbn in *; subst; reflexivity).
    split; [|unfold view; rewrite E1; unfold ext; cbn; now rewrite app_assoc]. unfold reading. rewrite E1. cbn [pendingConsume borrowedTail buffer setBuf].
    splits; auto; [now apply inv_ext|tauto]. }
  assert (len (y :: data) =? 0 = false) as En by (apply Z.eqb_neq; rewrite len_cons; pose proof (len_nonneg data); lia).
  destruct p as [m b t k x fs bb pf d ct]. cbn in I1, I2, I3. subst k t bb. unfold feedIn. cbn [pendingConsume Z.eqb negb borrowedTail borrowedBuffer buffer].
  change (len (@nil Z)) with 0. cbn [Z.eqb negb]. rewrite andb_false_r. cbn [pendingConsume borrowedTail borrowedBuffer buffer]. rewrite En. cbn [negb andb]. rewrite !andb_true_r.
  cbn [buffer] in H. destruct (Z.eqb_spec (len b) 0) as [E|E]; cbn [negb].
  - assert (b = []) as -> by (destruct b; [reflexivity|]; rewrite len_cons in E; pose proof (len_nonneg b); lia). apply (H (y :: data) []); [now rewrite app_nil_r|auto].
  - pose proof (appendCurrentFrame_spec 3 b (y :: data)) as Ha. destruct (appendCurrentFrame 3 _ _) as [b' rest]. destruct Ha as [(c & -> & Ec) Hr]. now apply (H c rest).
Qed.

Definition released (x : option (list Event * res wserr Parser)) : option (list Event * res wserr Parser) :=
  match x with Some (evs, Ok p) => Some (evs, Ok (ReleaseBorrowed p)) | x => x end.

(** One callback of the server: FeedOneBorrowed until no event comes, then
    ReleaseBorrowed. *)
Definition readBorrowed (p : Parser) (data : bytes) : option (list Event * res wserr Parser) := released (FeedBorrowed p data).

Lemma drain_borrow fuel g p data acc evs r :
  reading (feedIn p data true) -> run g (view (feedIn p data true)) = Some (evs, r) -> (length evs < fuel)%nat ->
  released (drainEvents fuel true p data acc) = Some (acc ++ evs, r).
Proof.
  revert g p data acc evs. induction fuel as [|fuel IH]; intros g p data acc evs Hp Hrun Hf; [lia|]. cbn [WsFrame.drainEvents]. unfold WsFrame.feedOne.
  set (p1 := feedIn p data true) in *. set (k := (length (buffer p1) + length (borrowedTail p1) + 2)%nat).
  pose proof (feedLoop_borrow k g p1 evs r Hp Hrun) as H. specialize (H ltac:(unfold k; destruct (borrowedTail p1); cbn; lia)).
  destruct evs as [|ev evs].
  - rewrite app_nil_r. destruct r as [q|e]; [destruct H as (p' & -> & <-)|rewrite H]; reflexivity.
  - assert (exists p' g', feedLoop k true p1 = Some (FEvent p' ev) /\ between p' /\ run g' (view p') = Some (evs, r)) as (p' & g' & -> & Hb & Hr) by (now destruct r).
    destruct (feedIn_between p' Hb) as [H1 H2]. cbn in Hf. rewrite (IH g' p' [] (acc ++ [ev]) evs H1); [now rewrite <- app_assoc|now rewrite H2|lia].
Qed.

Lemma readBorrowed_run p data : inv p -> bytes_ok data -> readBorrowed p data = Feed p data.
Proof.
  intros Hp Hd. destruct (feedIn_lend p data Hp Hd) as [H1 H2]. pose proof (inv_ext data p Hp Hd) as He.
  destruct (run_total (S (length (buffer (ext data p)))) (ext data p) He) as (evs & r & E & Hl); [lia|].
  rewrite (Feed_run _ p data evs r Hp Hd E). unfold readBorrowed, WsFrame.FeedBorrowed.
  rewrite (drain_borrow _ (S (length (buffer (ext data p)))) p data [] evs r); [reflexivity|exact H1|now rewrite H2|].
  change (buffer (ext data p)) with (buffer p ++ data) in Hl. rewrite length_app in Hl. lia.
Qed.

Lemma Feed_inv p data evs q : inv p -> bytes_ok data -> Feed p data = Some (evs, Ok q) -> inv q.
Proof.
  intros Hp Hd Hf. pose proof (inv_ext data p Hp Hd) as He. set (k := S (length (buffer (ext data p)))).
  destruct (run_sim k k (ext data p) (ext data p)) as (evs0 & r & _ & E & _ & _ & Hset); try apply He; [now apply inv_sim|unfold k; lia|unfold k; lia|].
  rewrite (Feed_run k p data evs0 r Hp Hd E) in Hf. simplify_eq. now apply settled_inv, Hset.
Qed.

Lemma feedAll_borrow p chunks : inv p -> Forall bytes_ok chunks -> feedAll readBorrowed p chunks = feedAll Feed p chunks.
Proof.
  intros Hp Hc. revert p Hp. induction Hc as [|c chunks Hb _ IH]; intros p Hp; [reflexivity|]. cbn [feedAll]. rewrite readBorrowed_run by auto.
  destruct (Feed p c) as [[evs [q|e]]|] eqn:E; auto. rewrite (IH q); [reflexivity|]. exact (Feed_inv p c evs q Hp Hb E).
Qed.

End Deflate.

(** A parser that has been fed nothing yet. *)
Definition started (p : Parser) : Prop := idle p /\ buffer p = [] /\ extra p = noExtra.

Lemma reset_Tinv p : fragment (extra p) = None -> textChecked (extra p) = 0 -> text (extra p) = reset -> Tinv reset p.
Proof. intros Hf Hc Ht. unfold Tinv. rewrite Ht. splits; [apply reset_ok|reflexivity|]. left. split; [exact Hc|reflexivity]. Qed.

Lemma started_settled d p : started p -> settled d p.
Proof.
  intros (Hi & Hb & Hx). assert (Tinv reset p) as HT by (apply reset_Tinv; now rewrite Hx). unfold settled. rewrite Hb. splits; [exact Hi|constructor|].
  exists p. split; [now apply next_nil|]. split; eauto.
Qed.

End WsStream.
