(* ===== verification/WsRoundtrip.v ===== *)
(** * WebSocket messages over any reads

    What the writers of frames (sendFrame for a client and for a server) put on
    the wire, the parser at the other end hands out again, whatever reads the
    bytes come in and whether or not the read buffer is lent; and in general
    the reads make no difference to what the parser finds. *)

From S2P Require Import Prelude WsUtf8 WsFrame WsStream.
From stdpp Require Import base list numbers.
From Stdlib Require Import ZArith Lia.

Local Open Scope Z_scope.
Local Open Scope go_scope.

Module WsRoundtrip.
Import Utf8 WsFrame WsStream.

(** ** Headers written and read *)

(** The second byte: a length up to 127 and the mask's bit. *)
Lemma second_byte n : 0 <= n < 128 ->
  negb ((n .| 0x80) .& 0x80 =? 0) = true /\ (n .| 0x80) .& 0x7f = n /\ negb (n .& 0x80 =? 0) = false /\ n .& 0x7f = n.
Proof.
  intros Hn. assert (forallb (fun n => negb ((n .| 0x80) .& 0x80 =? 0) && ((n .| 0x80) .& 0x7f =? n) && negb (negb (n .& 0x80 =? 0)) && (n .& 0x7f =? n))
    (Z.of_nat <$> seq 0 128) = true) as H by (vm_compute; reflexivity).
  rewrite forallb_forall in H. specialize (H n). rewrite !andb_true_iff, !Z.eqb_eq, negb_involutive, negb_true_iff in H.
  destruct H as [[[-> ->] ->] ->]; [|auto]. apply in_map_iff. exists (Z.to_nat n). split; [lia|]. apply in_seq. lia.
Qed.

(** How a length is written: its code, and the bytes after it. *)
Definition lenCode (n : Z) : Z * bytes :=
  if n <? 126 then (n, []) else if n <=? 65535 then (126, putBE 2 n) else (127, putBE 8 n).

Lemma frameHeader_code op n h :
  0 <= n < 2 ^ 63 -> frameHeader op n = Ok h ->
  dataOrControl op = true /\ (0x8 <= op -> n <= 125) /\ h = (0x80 .| op) :: (lenCode n).1 :: (lenCode n).2.
Proof.
  intros Hn. unfold frameHeader, lenCode. destruct (dataOrControl op) eqn:Ed; [|discriminate]. cbn [negb].
  assert (u8 op = op) as Eo.
  { unfold dataOrControl, Text, Binary, Close, Ping, Pong in Ed. rewrite !orb_true_iff, !Z.eqb_eq in Ed. intuition subst; reflexivity. }
  destruct (Z.leb_spec 8 op); cbn [andb]; [destruct (Z.ltb_spec 125 n); [discriminate|]|]; rewrite Eo; unfold u8, u16, u64;
    (destruct (Z.ltb_spec n 126); [intros [= <-]; rewrite Z.mod_small by lia; splits; auto; lia|]);
    (destruct (Z.leb_spec n 65535); intros [= <-]; rewrite Z.mod_small by lia; splits; auto; lia).
Qed.

Lemma payloadLength_code n b c2 rest m :
  0 <= n < 2 ^ 63 -> lenCode n = (c2, b) -> forall x, payloadLength (x :: (if m : bool then c2 .| 0x80 else c2) :: b ++ rest) (if m then c2 .| 0x80 else c2) = Some (Ok (n, 2 + len b)).
Proof.
  intros Hn Hl x. unfold payloadLength, lengthAt. unfold lenCode in Hl.
  assert (0 <= c2 < 128 /\ (if m then c2 .| 0x80 else c2) .& 0x7f = c2) as [_ ->].
  { assert (0 <= c2 < 128) as Hc by (destruct (Z.ltb_spec n 126); [simplify_eq; lia|destruct (Z.leb_spec n 65535); simplify_eq; lia]).
    split; [exact Hc|]. destruct (second_byte c2 Hc) as (_ & H1 & _ & H2). now destruct m. }
  change (zdrop 2 (x :: ?y :: ?l)) with l. pose proof (len_nonneg rest) as Hr.
  destruct (Z.ltb_spec n 126) as [H1|H1]; [|destruct (Z.leb_spec n 65535) as [H2|H2]]; apply pair_equal_spec in Hl as [<- <-].
  - rewrite !(proj2 (Z.eqb_neq _ _)) by lia. reflexivity.
  - cbn [Z.eqb]. change (126 =? 126) with true. cbn [Pos.eqb]. rewrite !len_cons, len_app.
    assert (len (putBE 2 n) = 2) as El by (unfold len; now rewrite length_putBE). rewrite El, (proj2 (Z.ltb_ge _ _)) by lia.
    rewrite take_app_length' by now rewrite length_putBE. rewrite be_putBE by (cbn; lia). now rewrite (proj2 (Z.ltb_ge _ _)) by lia.
  - change (127 =? 126) with false. change (127 =? 127) with true. cbv iota. rewrite !len_cons, len_app.
    assert (len (putBE 8 n) = 8) as El by (unfold len; now rewrite length_putBE). rewrite El, (proj2 (Z.ltb_ge _ _)) by lia.
    rewrite take_app_length' by now rewrite length_putBE. rewrite be_putBE by (cbn; lia). rewrite (proj2 (Z.ltb_ge _ _)) by lia.
    rewrite Z.shiftr_div_pow2, Z.div_small by lia. reflexivity.
Qed.

(** ** Frames on the wire *)

(** The first byte: FIN, the opcode, and RSV1 on a compressed message. *)
Definition opByte (compressed : bool) (op : Z) : Z := if compressed then (0x80 .| op) .| 0x40 else 0x80 .| op.

Definition wire (compressed : bool) (mask : option bytes) (op : Z) (payload : bytes) : bytes :=
  let '(c, b) := lenCode (len payload) in
  opByte compressed op :: (if mask then c .| 0x80 else c) :: b ++
    match mask with Some m => m ++ applyMask payload m | None => payload end.

Definition maskOf (client : bool) (mask : bytes) : option bytes := if client then Some mask else None.

Lemma send_wire client cp mask op payload w :
  len payload < 2 ^ 63 -> sendFrame client mask op payload cp = Ok w ->
  dataOrControl op = true /\ w = wire cp (maskOf client mask) op payload.
Proof.
  intros Hl. unfold sendFrame, sendMaskedFrame, wire, maskOf. pose proof (len_nonneg payload).
  destruct client; (destruct (frameHeader op (len payload)) as [h|] eqn:E; [|discriminate]); intros [= <-];
    (apply frameHeader_code in E as (Hd & _ & ->); [|lia]); (split; [exact Hd|]); now destruct (lenCode (len payload)).
Qed.

Lemma lenCode_ok n : 0 <= n -> bytes_ok (lenCode n).2 /\ is_byte (lenCode n).1 /\ (lenCode n).1 < 128.
Proof.
  intros Hn. unfold lenCode, is_byte. destruct (Z.ltb_spec n 126); [|destruct (n <=? 65535)]; cbn [fst snd]; splits; try lia; try apply putBE_bytes. constructor.
Qed.

Lemma wire_bytes cp mask op payload :
  dataOrControl op = true -> bytes_ok payload -> (forall m, mask = Some m -> bytes_ok m /\ length m = 4%nat) -> bytes_ok (wire cp mask op payload).
Proof.
  intros Hd Hp Hm. unfold wire. destruct (lenCode_ok (len payload) (len_nonneg _)) as (B1 & B2 & B3). destruct (lenCode (len payload)) as [c b]. cbn [fst snd] in *.
  constructor; [|constructor].
  - unfold dataOrControl, Text, Binary, Close, Ping, Pong in Hd. rewrite !orb_true_iff, !Z.eqb_eq in Hd. unfold is_byte, opByte. destruct cp; intuition (subst; vm_compute; congruence).
  - destruct mask; [|exact B2]. apply (lor_bound _ _ 8); [lia|exact B2|lia].
  - apply bytes_ok_app; split; [exact B1|]. destruct mask as [m|]; [|exact Hp]. destruct (Hm m eq_refl) as [Hmb Hml].
    apply bytes_ok_app; split; [exact Hmb|]. rewrite applyMask_bytes by auto. now apply maskBytes_bytes.
Qed.

(** A parser between messages, of a connection's one side. *)
Record calm (max : Z) (srv df : bool) (p : Parser) : Prop := mkCalm {
  calm_idle : idle p;
  calm_frag : fragment (extra p) = None;
  calm_text : textChecked (extra p) = 0;
  calm_side : fromServer p = srv;
  calm_max : maxMessageBytes p = max;
  calm_deflate : deflate p = df;
  calm_own : contextTakeover p = false
}.

(** What the other end takes: a payload no longer than its limit, RSV1 on data
    only, text that is UTF-8, a close frame with a code of RFC 6455 and a reason
    in UTF-8. [msg] is the payload once decompressed. *)
Definition deliverable (max : Z) (compressed : bool) (op : Z) (payload msg : bytes) : bool :=
  (if 0x8 <=? op then (len payload <=? 125) && negb compressed else len payload <=? max) &&
  (if op =? Text then Valid msg else true) &&
  (if op =? Close then (len payload =? 0) || ((2 <=? len payload) && validCloseCode (be (take 2 payload)) && Valid (drop 2 payload)) else true).

Lemma opByte_bits cp op : dataOrControl op = true ->
  opByte cp op .& 0x0f = op /\ negb (opByte cp op .& 0x80 =? 0) = true /\ negb (opByte cp op .& 0x40 =? 0) = cp /\
  negb (opByte cp op .& 0x30 =? 0) = false.
Proof.
  intros Hd. unfold dataOrControl, Text, Binary, Close, Ping, Pong in Hd. rewrite !orb_true_iff, !Z.eqb_eq in Hd. unfold opByte.
  destruct cp; intuition (subst; reflexivity).
Qed.

Lemma badHeader_wire p cp op second :
  dataOrControl op = true -> fragment (extra p) = None -> negb (second .& 0x80 =? 0) = negb (fromServer p) -> (0x8 <= op -> second .& 0x7f <= 125) ->
  (cp = true -> deflate p = true /\ op < 8) -> badHeader p (opByte cp op) second = false.
Proof.
  intros Hd Hf Hs Hc Hcp. destruct (opByte_bits cp op Hd) as (F1 & F2 & F3 & F4). unfold badHeader. rewrite F1, F2, F3, F4, Hf, Hs. cbn [orb andb negb].
  assert (Bool.eqb (negb (fromServer p)) (fromServer p) = false) as -> by now destruct (fromServer p). cbn [orb].
  assert ((0x8 <=? op) && (125 <? second .& 0x7f) = false) as ->.
  { destruct (Z.leb_spec 8 op); [|reflexivity]. apply Z.ltb_ge. auto. }
  unfold dataOrControl, Text, Binary, Close, Ping, Pong, Continuation in *. rewrite !orb_true_iff, !Z.eqb_eq in Hd.
  destruct cp; [destruct (Hcp eq_refl) as [-> H8]|]; intuition (subst; try reflexivity; lia).
Qed.

Lemma readHead_wire max df cp (mask : option bytes) op payload msg rest p :
  calm max (negb (if mask then true else false)) df p -> (forall m, mask = Some m -> bytes_ok m /\ length m = 4%nat) ->
  dataOrControl op = true -> len payload < 2 ^ 63 -> deliverable max cp op payload msg = true -> (cp = true -> df = true) ->
  buffer p = wire cp mask op payload ++ rest ->
  exists off, readHead p = HFrame (mkHead true op cp ((op =? Text) && negb cp) mask off (len payload)) /\ 0 <= off <= len (buffer p) /\
    zdrop off (buffer p) = match mask with Some m => applyMask payload m | None => payload end ++ rest.
Proof.
  intros [Hi Hf Hc Hs Hm Hdf _] Hmask Hop Hlen Hd Hcp Hb. unfold wire in Hb. destruct (lenCode (len payload)) as [c b] eqn:El.
  destruct (lenCode_ok (len payload) (len_nonneg _)) as (_ & B2 & B3). rewrite El in B2, B3. cbn [fst snd] in B2, B3.
  destruct (second_byte c ltac:(destruct B2; lia)) as (S1 & S2 & S3 & S4).
  set (body := match mask with Some m => m ++ applyMask payload m | None => payload end) in *.
  assert (buffer p = (opByte cp op) :: (if mask then c .| 0x80 else c) :: b ++ (body ++ rest)) as Hb' by (rewrite Hb; cbn [app]; now rewrite <- app_assoc).
  unfold readHead. rewrite Hb'. pose proof (len_nonneg (b ++ body ++ rest)) as Hl0. rewrite (proj2 (Z.ltb_ge _ 2)) by (rewrite !len_cons; lia).
  change (at_ (?x :: ?y :: ?l) 0) with x. change (at_ (?x :: ?y :: ?l) 1) with y. destruct (opByte_bits cp op Hop) as (-> & -> & -> & _).
  assert (deliverable max cp op payload msg = true) as Hd' by exact Hd. unfold deliverable in Hd'. rewrite !andb_true_iff in Hd'. destruct Hd' as [[Hd1 _] _].
  pose proof (payloadLength_code (len payload) b c (body ++ rest) (if mask then true else false) ltac:(pose proof (len_nonneg payload); lia) El (opByte cp op)) as Hpl.
  assert ((if (if mask then true else false) then c .| 0x80 else c) = (if mask then c .| 0x80 else c)) as Ec by now destruct mask. rewrite Ec in Hpl. clear Ec.
  rewrite badHeader_wire; [|exact Hop|exact Hf|rewrite Hs; destruct mask; cbn [negb]; assumption| |].
  3:{ intros ->. split; [rewrite Hdf; auto|]. destruct (Z.leb_spec 8 op); [|lia]. rewrite andb_false_r in Hd1. discriminate. }
  2:{ intros H8. rewrite (proj2 (Z.leb_le 8 op) H8) in Hd1. apply andb_true_iff in Hd1 as [Hd1 _]. apply Z.leb_le in Hd1. unfold lenCode in El. rewrite (proj2 (Z.ltb_lt _ _)) in El by lia.
      injection El as <- <-. destruct mask; rewrite ?S2, ?S4; exact Hd1. }
  rewrite Hpl. rewrite Hf, Hm.
  assert (negb (0x8 <=? op) && ((max <? len payload) || (max - len payload <? 0)) = false) as ->.
  { destruct (0x8 <=? op); [reflexivity|]. apply Z.leb_le in Hd1. cbn [negb andb]. rewrite orb_false_iff, !Z.ltb_ge. lia. }
  assert (forall k : bytes, zdrop (2 + len b) ((opByte cp op) :: (if mask then c .| 0x80 else c) :: b ++ k) = k) as Hz.
  { intros k. set (y := if mask then c .| 0x80 else c). change (zdrop (2 + len b) ([opByte cp op; y] ++ (b ++ k)) = k). rewrite app_assoc. replace (2 + len b) with (len ([(opByte cp op); y] ++ b)) by (rewrite len_app; reflexivity). apply zdrop_app. }
  rewrite andb_false_r, orb_false_r. destruct mask as [m|]; unfold body in *.
  - destruct (Hmask m eq_refl) as [_ Hml]. rewrite S1. cbn [andb]. rewrite (proj2 (Z.ltb_ge _ _)) by (rewrite !len_cons, !len_app; unfold len at 3; pose proof (len_nonneg (applyMask payload m)); pose proof (len_nonneg rest); lia).
    rewrite Hz. rewrite <- app_assoc, take_app_length' by lia. exists (2 + len b + 4). splits; [reflexivity|pose proof (len_nonneg b); lia| |].
    { rewrite !len_cons, !len_app. unfold len at 3. pose proof (len_nonneg (applyMask payload m)). pose proof (len_nonneg rest). lia. }
    replace (2 + len b + 4) with (4 + (2 + len b)) by lia. specialize (Hz (m ++ applyMask payload m ++ rest)).
    unfold zdrop in *. rewrite Z2Nat.inj_add by (pose proof (len_nonneg b); lia). rewrite Nat.add_comm, <- drop_drop, Hz. now apply drop_app_length'.
  - rewrite S3. cbn [andb]. exists (2 + len b). splits; [reflexivity|pose proof (len_nonneg b); lia| |apply Hz].
    rewrite !len_cons, !len_app. pose proof (len_nonneg payload). pose proof (len_nonneg rest). lia.
Qed.

(** A parser's bytes are those of a calm one, with others after. *)
Lemma consume_calm max srv df p n b x :
  calm max srv df p -> 0 <= n <= len (buffer p) -> zdrop n (buffer p) = b -> fragment x = None -> textChecked x = 0 ->
  let q := consume (setExtra p x) n in calm max srv df q /\ buffer q = b.
Proof.
  intros [(I1 & I2 & I3) Hf Hc Hs Hm Hdf Hct] Hn Hb Hx1 Hx2. cbv zeta. unfold consume. cbn [buffer setExtra]. destruct (Z.eqb_spec n (len (buffer p))) as [E|E].
  - assert (b = []) as -> by (rewrite <- Hb, E; unfold zdrop, len; rewrite Nat2Z.id; apply drop_ge; lia). split; [|reflexivity]. now constructor.
  - split; [|exact Hb]. now constructor.
Qed.

Section Run.
Variable d : bytes -> bytes -> Z -> res wserr bytes.

Lemma next_wire max df cp (mask : option bytes) op payload msg rest p :
  calm max (negb (if mask then true else false)) df p -> (forall m, mask = Some m -> bytes_ok m /\ length m = 4%nat) ->
  dataOrControl op = true -> bytes_ok payload -> len payload < 2 ^ 63 -> deliverable max cp op payload msg = true ->
  (if cp then df = true /\ d payload [] max = Ok msg else msg = payload) -> buffer p = wire cp mask op payload ++ rest ->
  exists p', next d false p = NEvent p' (mkEvent op msg true) /\ calm max (negb (if mask then true else false)) df p' /\ buffer p' = rest.
Proof.
  intros Hp Hmask Hop Hpb Hlen Hd Hmsg Hb. destruct (readHead_wire max df cp mask op payload msg rest p Hp Hmask Hop Hlen Hd ltac:(now destruct cp) Hb) as (off & Hh & Hoff & Hz).
  set (body := match mask with Some m => applyMask payload m | None => payload end) in *.
  assert (len body = len payload) as Hbl.
  { unfold body. destruct mask as [m|]; [|reflexivity]. destruct (Hmask m eq_refl). rewrite applyMask_bytes by auto. unfold len. now rewrite length_maskBytes. }
  assert (match mask with Some m => applyMask body m | None => body end = payload) as Hun.
  { unfold body. destruct mask as [m|]; [|reflexivity]. destruct (Hmask m eq_refl) as [M1 M2]. rewrite !applyMask_bytes by (auto; try rewrite applyMask_bytes by auto; now apply maskBytes_bytes).
    apply maskBytes_twice. }
  assert (len (buffer p) = off + len payload + len rest) as Hlb.
  { pose proof (f_equal len Hz) as E. rewrite len_app, Hbl, len_zdrop in E by lia. lia. }
  unfold WsFrame.next. rewrite Hh. cbn [h_offset h_len]. pose proof (len_nonneg rest). pose proof (len_nonneg payload). rewrite (proj2 (Z.ltb_ge _ _)) by lia.
  unfold WsFrame.takeFrame. cbn [h_offset h_len h_opcode h_fin h_compressed h_text]. unfold unmask. cbn [h_mask].
  assert (ztake (len payload) (zdrop off (buffer p)) = body) as -> by (rewrite Hz, <- Hbl; apply ztake_app).
  rewrite Hun, (calm_text _ _ _ _ Hp).
  assert (forall x, fragment x = None -> textChecked x = 0 -> let q := consume (setExtra p x) (off + len payload) in
    calm max (negb (if mask then true else false)) df q /\ buffer q = rest) as Hq.
  { intros x H1 H2. apply consume_calm; auto; [lia|]. rewrite <- Hbl, Z.add_comm. unfold zdrop in *. rewrite Z2Nat.inj_add, Nat.add_comm, <- drop_drop by (rewrite ?Hbl; lia).
    rewrite Hz. apply (zdrop_app body). }
  unfold deliverable in Hd. rewrite !andb_true_iff in Hd. destruct Hd as [[Hfit Ht] Hcl].
  destruct (0x8 <=? op) eqn:E8.
  - assert (forall P Q : bool, (op =? Close) = false \/ (P = false /\ Q = false) -> (op =? Close) && P = false /\ (op =? Close) && Q = false) as Hoc.
    { intros P Q [->|[-> ->]]; auto. now rewrite andb_false_r. }
    apply andb_true_iff in Hfit as [_ Hcp]. apply negb_true_iff in Hcp. subst cp. subst msg. unfold takeControl. set (P1 := _ || _). set (P2 := (2 <? len payload) && _). destruct (Hoc P1 P2) as [-> ->].
    { destruct (op =? Close); [right|auto]. unfold P1, P2. apply orb_true_iff in Hcl as [Hcl|Hcl]; [apply Z.eqb_eq in Hcl; rewrite Hcl; auto|].
      rewrite !andb_true_iff, Z.leb_le in Hcl. destruct Hcl as [[H2 ->] ->]. rewrite (proj2 (Z.eqb_neq _ _)) by lia. now rewrite !andb_false_r. }
    destruct (Hq (setChecked (extra p) 0)) as [Q1 Q2]; [exact (calm_frag _ _ _ _ Hp)|reflexivity|]. eexists. splits; [reflexivity|exact Q1|exact Q2].
  - assert ((op =? Text) || (op =? Binary) = true) as ->.
    { unfold dataOrControl, Text, Binary, Close, Ping, Pong in *. apply Z.leb_gt in E8. rewrite !orb_true_iff, !Z.eqb_eq in *. lia. }
    unfold WsFrame.takeFirst. change (0 =? 0) with true. cbv iota. pose proof (calm_frag _ _ _ _ Hp) as Hf. destruct cp; cbn [andb negb]; rewrite ?andb_false_r, ?andb_true_r.
    + destruct Hmsg as [_ Hmsg]. unfold inflate. cbn [contextTakeover maxMessageBytes setExtra]. rewrite (calm_own _ _ _ _ Hp), (calm_max _ _ _ _ Hp), Hmsg.
      assert ((op =? Text) && negb (Valid msg) = false) as -> by (destruct (op =? Text); [now rewrite Ht|reflexivity]).
      destruct (Hq (setChecked (extra p) 0)) as [Q1 Q2]; [exact Hf|reflexivity|]. eexists. splits; [reflexivity|exact Q1|exact Q2].
    + subst msg. destruct (op =? Text); cbn [negb].
      * rewrite Ht. cbn [negb]. destruct (Hq (setText (setChecked (extra p) 0) reset)) as [Q1 Q2]; [exact Hf|reflexivity|]. eexists. splits; [reflexivity|exact Q1|exact Q2].
      * destruct (Hq (setChecked (extra p) 0)) as [Q1 Q2]; [exact Hf|reflexivity|]. eexists. splits; [reflexivity|exact Q1|exact Q2].
Qed.

(** ** A run of frames *)

(** A frame to send: its opcode, the message, its payload (the message, or the
    message compressed) and, from a client, its mask. *)
Record frame : Type := mkFrame { fr_op : Z; fr_msg : bytes; fr_compressed : bool; fr_payload : bytes; fr_mask : bytes }.

(** What is written: by a client with a fresh mask for each frame, by a server
    unmasked. *)
Definition sent (client : bool) (f : frame) : res wserr bytes := sendFrame client (fr_mask f) (fr_op f) (fr_payload f) (fr_compressed f).

Definition frame_ok (f : frame) : Prop :=
  bytes_ok (fr_payload f) /\ bytes_ok (fr_mask f) /\ length (fr_mask f) = 4%nat /\ len (fr_payload f) < 2 ^ 63.

Definition event_of (f : frame) : Event := mkEvent (fr_op f) (fr_msg f) true.

(** The parser [p] takes the frame, and decompresses its payload to the
    message. *)
Definition taken (p : Parser) (f : frame) : Prop :=
  deliverable (maxMessageBytes p) (fr_compressed f) (fr_op f) (fr_payload f) (fr_msg f) = true /\
  if fr_compressed f then deflate p = true /\ d (fr_payload f) [] (maxMessageBytes p) = Ok (fr_msg f) else fr_msg f = fr_payload f.

Lemma sent_wire client f w : frame_ok f -> sent client f = Ok w ->
  dataOrControl (fr_op f) = true /\ w = wire (fr_compressed f) (maskOf client (fr_mask f)) (fr_op f) (fr_payload f) /\ bytes_ok w.
Proof.
  intros (H1 & H2 & H3 & H4) Hs. destruct (send_wire _ _ _ _ _ _ H4 Hs) as [Hd ->].
  splits; auto. apply wire_bytes; auto. intros m. unfold maskOf. destruct client; [intros [= <-]; auto|discriminate].
Qed.

Lemma run_frames p0 client fs ws p :
  Forall frame_ok fs -> Forall2 (fun f w => sent client f = Ok w) fs ws -> Forall (taken p0) fs ->
  calm (maxMessageBytes p0) (negb client) (deflate p0) p -> buffer p = concat ws ->
  exists q, run d (S (length fs)) p = Some (event_of <$> fs, Ok q) /\ buffer q = [].
Proof.
  intros Hok Hw. revert p. induction Hw as [|f w fs ws Hs _ IH]; intros p Hd Hp Hb.
  - exists p. cbn [run length]. rewrite next_nil by exact Hb. auto.
  - pose proof (Forall_inv Hok) as Hf. pose proof (Forall_inv Hd) as [Hdf Hmf]. apply Forall_inv_tail in Hok, Hd.
    destruct (sent_wire client f w Hf Hs) as (Hop & -> & _). pose proof Hf as (F1 & F2 & F3 & F4).
    assert (negb (if maskOf client (fr_mask f) then true else false) = negb client) as Ec by now destruct client.
    destruct (next_wire (maxMessageBytes p0) (deflate p0) (fr_compressed f) (maskOf client (fr_mask f)) (fr_op f) (fr_payload f) (fr_msg f) (concat ws) p)
      as (p' & Hn & Hp' & Hb'); auto; [now rewrite Ec| |].
    { intros m. unfold maskOf. destruct client; [intros [= <-]; auto|discriminate]. }
    rewrite Ec in Hp'. destruct (IH Hok p' Hd Hp' Hb') as (q & Hr & Hq). exists q. cbn [length].
    remember (S (length fs)) as k. cbn [run]. rewrite Hn, Hr. split; [reflexivity|exact Hq].
Qed.

Lemma concat_sent client fs ws : Forall frame_ok fs -> Forall2 (fun f w => sent client f = Ok w) fs ws -> bytes_ok (concat ws).
Proof.
  intros Hok Hw. induction Hw as [|f w fs ws Hs _ IH]; [constructor|]. pose proof (Forall_inv Hok) as Hf. apply Forall_inv_tail in Hok.
  apply bytes_ok_app. split; [apply (sent_wire client f w Hf Hs)|now apply IH].
Qed.

Lemma chunks_ok (chunks : list bytes) : bytes_ok (concat chunks) -> Forall bytes_ok chunks.
Proof.
  induction chunks as [|c chunks IH]; cbn [concat]; intros H; [constructor|]. apply bytes_ok_app in H as [H1 H2]. constructor; auto.
Qed.

Lemma run_unique f1 f2 p x y : run d f1 p = Some x -> run d f2 p = Some y -> x = y.
Proof. intros H1 H2. destruct (Nat.le_ge_cases f1 f2) as [H|H]; [rewrite (run_mono d f1 f2 _ _ H1 H) in H2|rewrite (run_mono d f2 f1 _ _ H2 H) in H1]; congruence. Qed.

End Run.

(** What one side sends, read in any chunks at the other. *)
Lemma sent_events d client p fs ws chunks :
  started p -> fromServer p = negb client -> contextTakeover p = false ->
  Forall frame_ok fs -> Forall (taken d p) fs -> Forall2 (fun f w => sent client f = Ok w) fs ws -> concat chunks = concat ws ->
  exists q, feedAll (Feed d) p chunks = Some (event_of <$> fs, Ok q) /\ buffer q = [].
Proof.
  intros Hp Hside Hct Hok Hd Hw Hc. pose proof (started_settled d p Hp) as Hs.
  assert (Forall bytes_ok chunks) as Hcb by (apply chunks_ok; rewrite Hc; exact (concat_sent client fs ws Hok Hw)).
  destruct (feedAll_run d chunks p Hs Hcb) as (g & evs & r & r' & H1 & H2 & H3).
  destruct Hp as (Hi & Hb & Hx). destruct (run_frames d p client fs ws (ext (concat chunks) p) Hok Hw Hd) as (q & Hr & Hq).
  { constructor; try reflexivity; try assumption; change (extra (ext (concat chunks) p)) with (extra p); now rewrite Hx. }
  { cbn. now rewrite Hb, Hc. }
  pose proof (run_unique d _ _ _ _ _ H2 Hr) as [= -> ->]. destruct r as [q'|]; [|destruct H3]. exists q'. split; [exact H1|].
  apply (f_equal buffer) in H3. cbn in H3. congruence.
Qed.

(** ** Properties *)

(** Where reads end makes no difference to the parser: a stream fed in any chunks, with the parts of text frames checked
    as they come, gives the events, and the error or the state between messages, that feeding it at once gives. *)
Theorem feed_chunking d p chunks :
  started p -> Forall bytes_ok chunks ->
  exists evs r r', feedAll (Feed d) p chunks = Some (evs, r) /\ Feed d p (concat chunks) = Some (evs, r') /\ alike r r'.
Proof.
  intros Hp Hc. pose proof (started_settled d p Hp) as Hs. destruct (feedAll_run d chunks p Hs Hc) as (g & evs & r & r' & H1 & H2 & H3).
  exists evs, r, r'. splits; auto. apply (Feed_run d g); auto; [now apply settled_inv in Hs|]. clear - Hc. induction Hc; [constructor|]. cbn. now apply bytes_ok_app.
Qed.

(** The parser that does not copy, lending the read buffer to the callbacks and putting off what follows the frame being
    completed, finds after each read, once ReleaseBorrowed has been called, exactly what the copying one finds, and is left in the same state. *)
Theorem borrowed_reads d p chunks :
  started p -> Forall bytes_ok chunks ->
  exists evs r, feedAll (readBorrowed d) p chunks = Some (evs, r) /\ feedAll (Feed d) p chunks = Some (evs, r).
Proof.
  intros Hp Hc. pose proof (started_settled d p Hp) as Hs. destruct (feedAll_run d chunks p Hs Hc) as (g & evs & r & r' & H1 & _).
  exists evs, r. split; [|exact H1]. rewrite feedAll_borrow; [exact H1|now apply settled_inv in Hs|exact Hc].
Qed.

(** The frames one side sends, masked by a client and plain from a server, compressed or not, come out of the other side's
    parser as the same opcodes and messages in the same order, whatever reads they arrive in, and leave nothing behind. *)
Theorem frames_roundtrip d client p fs ws chunks :
  started p -> fromServer p = negb client -> contextTakeover p = false ->
  Forall frame_ok fs -> Forall (taken d p) fs -> Forall2 (fun f w => sent client f = Ok w) fs ws -> concat chunks = concat ws ->
  exists q, feedAll (readBorrowed d) p chunks = Some (event_of <$> fs, Ok q) /\ buffer q = [].
Proof.
  intros Hp Hside Hct Hok Hd Hw Hc. pose proof (started_settled d p Hp) as Hs.
  assert (Forall bytes_ok chunks) as Hcb by (apply chunks_ok; rewrite Hc; exact (concat_sent client fs ws Hok Hw)).
  rewrite feedAll_borrow by (auto; now apply settled_inv in Hs). eapply sent_events; eauto.
Qed.

(** ** Their use *)

(** A code that reverses what it compresses, and reads no history. *)
Definition backwards : bytes -> bytes -> Z -> res wserr bytes :=
  fun c _ limit => if limit <? len c then Err ErrMessageTooBig else Ok (rev c).

(** Text with an accent, a ping, 300 bytes, and a compressed text. *)
Definition sample : list frame :=
  [mkFrame Text [104; 0xc3; 0xa9; 33] false [104; 0xc3; 0xa9; 33] [1; 2; 3; 4]; mkFrame Ping [] false [] [9; 9; 9; 9];
   mkFrame Binary (repeat 7 300) false (repeat 7 300) [0xff; 0; 0xff; 0]; mkFrame Text [97; 98] true [98; 97] [0xff; 0; 0xff; 0]].

(** A server's parser once permessage-deflate was agreed. *)
Definition deflating : Parser := mkParser (16 .<< 20) [] [] 0 noExtra false false false true false.

Definition sampleWire : list bytes :=
  match mapM (fun f => match sent true f with Ok w => Some w | Err _ => None end) sample with Some ws => ws | None => [] end.

(** The wire cut inside the first frame's header, text and mask. *)
Definition sampleChunks : list bytes := let w := concat sampleWire in [ztake 1 w; ztake 7 (zdrop 1 w); ztake 40 (zdrop 8 w); zdrop 48 w].

Lemma feed_chunking_witness : exists evs r, feedAll (Feed backwards) deflating sampleChunks = Some (evs, r) /\ length evs = 4%nat.
Proof.
  destruct (feed_chunking backwards deflating sampleChunks) as (evs & r & r' & H1 & H2 & H3).
  - repeat split.
  - apply chunks_ok, bytes_okb_ok. vm_compute. reflexivity.
  - exists evs, r. split; [exact H1|]. vm_compute in H1. injection H1 as <- _. reflexivity.
Defined.

Lemma borrowed_reads_witness : exists evs r, feedAll (readBorrowed backwards) deflating sampleChunks = Some (evs, r) /\ length evs = 4%nat.
Proof.
  destruct (borrowed_reads backwards deflating sampleChunks) as (evs & r & H1 & H2).
  - repeat split.
  - apply chunks_ok, bytes_okb_ok. vm_compute. reflexivity.
  - exists evs, r. split; [exact H1|]. vm_compute in H1. injection H1 as <- _. reflexivity.
Defined.

Lemma frames_roundtrip_witness : exists q, feedAll (readBorrowed backwards) deflating sampleChunks = Some (event_of <$> sample, Ok q) /\ buffer q = [].
Proof.
  apply (frames_roundtrip backwards true deflating sample sampleWire sampleChunks).
  - repeat split.
  - reflexivity.
  - reflexivity.
  - repeat constructor; try (apply bytes_okb_ok; vm_compute; reflexivity); try (vm_compute; congruence).
  - repeat constructor; vm_compute; reflexivity.
  - repeat constructor; vm_compute; reflexivity.
  - vm_compute. reflexivity.
Defined.

End WsRoundtrip.
