(* ===== verification/WsConn.v ===== *)
(** * WebSocket connections (src/websocket/handler.go, deflate.go, prepared.go)

    What an application does with a connection (WriteMessage, Ping, Pong, Close,
    prepared messages), what serveFrames does with the bytes of the peer
    (messages to the handler, pongs for pings, the closing handshake, the close
    code of an error), and the compression of permessage-deflate.

    compress/flate, the transport under the connection and the random bytes of
    the masks are parameters. The calls are in one order: a connection is used
    from several goroutines, and their interleaving within one call is not
    modelled. *)

From S2P Require Import Prelude WsUtf8 WsFrame WsStream WsRoundtrip.
From stdpp Require Import base list numbers relations.
From Stdlib Require Import ZArith Lia.

Local Open Scope Z_scope.
Local Open Scope go_scope.

Module WsConn.
Import Utf8 WsFrame WsStream WsRoundtrip.

Definition CloseNormal : Z := 1000.
Definition CloseProtocolError : Z := 1002.
Definition CloseInvalidPayload : Z := 1007.
Definition CloseMessageTooBig : Z := 1009.

Definition maxWindowBits : Z := 15.
Definition minWindowBits : Z := 8.

(** What Flush always ends with, and then an empty final block. *)
Definition flushTail : bytes := [0x00; 0x00; 0xff; 0xff].
Definition deflateTail : bytes := [0x00; 0x00; 0xff; 0xff; 0x01; 0x00; 0x00; 0xff; 0xff].

(** ** Compression *)

Section Flate.

(** What a flate.Writer at BestSpeed, just Reset, writes for Write and Flush. *)
Variable flush : bytes -> bytes.
(** What the Reads of a flate.Reader over these bytes with this dictionary give,
    and whether the last ends with io.EOF. *)
Variable inflated : bytes -> bytes -> list bytes * bool.

Fixpoint compressLoop (fuel : nat) (first : bool) (chunk : Z) (payload out : bytes) : bytes :=
  match fuel with
  | O => out
  | S fuel =>
      if first || negb (len payload =? 0) then
        let piece := if chunk <? len payload then ztake chunk payload else payload in
        compressLoop fuel false chunk (zdrop (len piece) payload) (out ++ flush piece)
      else out
  end.

(** The payload is compressed in at most as many pieces as it has bytes, and one
    if it has none. *)
Definition compressMessage (payload : bytes) (windowBits : Z) : bytes :=
  let chunk := if windowBits <? maxWindowBits then 1 .<< windowBits else len payload in
  let out := compressLoop (length payload + 2) true chunk payload [] in
  ztake (len out - 4) out.

Fixpoint readLoop (dst : bytes) (limit : Z) (reads : list bytes) (eof : bool) : res wserr bytes :=
  match reads with
  | [] => if eof then Ok dst else Err ErrInvalidPayload
  | r :: reads =>
      let dst := dst ++ r in
      if limit <? len dst then Err ErrMessageTooBig else readLoop dst limit reads eof
  end.

Definition decompressMessage (compressed dict : bytes) (limit : Z) : res wserr bytes :=
  let '(reads, eof) := inflated (compressed ++ deflateTail) dict in readLoop [] limit reads eof.

(** *** Its laws *)

(** What compress/flate documents: a Flush ends with an empty stored block, and a
    reader of flushed streams joined, with a final block after them, gives what
    was written and then io.EOF. *)
Class FlateLaws : Prop := {
  flush_tail p : exists b, flush p = b ++ flushTail;
  inflate_flushed ps : let '(reads, eof) := inflated (concat (flush <$> ps) ++ [0x01; 0x00; 0x00; 0xff; 0xff]) [] in concat reads = concat ps /\ eof = true
}.

Lemma compressLoop_spec fuel chunk payload out :
  0 < chunk -> (length payload < fuel)%nat ->
  exists ps, compressLoop fuel false chunk payload out = out ++ concat (flush <$> ps) /\ concat ps = payload /\ Forall (fun q => len q <= chunk) ps.
Proof.
  intros Hc. revert payload out. induction fuel as [|fuel IH]; intros payload out Hf; [lia|]. cbn [compressLoop orb].
  destruct (Z.eqb_spec (len payload) 0) as [E|E]; cbn [negb].
  { exists []. cbn. rewrite app_nil_r. destruct payload; [auto|]. rewrite len_cons in E. pose proof (len_nonneg payload). lia. }
  set (piece := if chunk <? len payload then ztake chunk payload else payload).
  assert (0 < len piece /\ len piece <= chunk /\ piece ++ zdrop (len piece) payload = payload) as (H1 & H2 & H3).
  { pose proof (len_nonneg payload). unfold piece. destruct (Z.ltb_spec chunk (len payload)) as [Hlt|Hge].
    - rewrite len_ztake by lia. splits; try lia. unfold ztake, zdrop. apply take_drop.
    - splits; try lia. unfold zdrop, len. rewrite Nat2Z.id, drop_ge by lia. apply app_nil_r. }
  destruct (IH (zdrop (len piece) payload) (out ++ flush piece)) as (ps & -> & Hps & Hall).
  { unfold zdrop, len in *. rewrite length_drop. lia. }
  exists (piece :: ps). cbn. rewrite Hps, H3, <- app_assoc. splits; auto.
Qed.

Lemma compressMessage_spec payload windowBits :
  0 <= windowBits -> FlateLaws ->
  exists ps, compressMessage payload windowBits ++ flushTail = concat (flush <$> ps) /\ concat ps = payload /\
    (windowBits < maxWindowBits -> Forall (fun q => len q <= 2 ^ windowBits) ps).
Proof.
  intros Hw Hl. unfold compressMessage. set (chunk := if windowBits <? maxWindowBits then 1 .<< windowBits else len payload).
  assert (exists ps, compressLoop (length payload + 2) true chunk payload [] = concat (flush <$> ps) /\ concat ps = payload /\ ps <> [] /\
    (windowBits < maxWindowBits -> Forall (fun q => len q <= 2 ^ windowBits) ps)) as (ps & -> & Hps & Hne & Hall).
  { rewrite Nat.add_comm. cbn [Nat.add compressLoop orb app]. unfold chunk. destruct (Z.ltb_spec windowBits maxWindowBits) as [Hlt|Hge].
    - rewrite Z.shiftl_1_l. assert (0 < 2 ^ windowBits) as Hp by lia. set (piece := if _ <? _ then _ else _).
      assert (len piece <= 2 ^ windowBits /\ piece ++ zdrop (len piece) payload = payload) as (H2 & H3).
      { pose proof (len_nonneg payload). unfold piece. destruct (Z.ltb_spec (2 ^ windowBits) (len payload)) as [H'|H'].
        - rewrite len_ztake by lia. split; [lia|]. unfold ztake, zdrop. apply take_drop.
        - split; [lia|]. unfold zdrop, len. rewrite Nat2Z.id, drop_ge by lia. apply app_nil_r. }
      destruct (compressLoop_spec (S (length payload)) (2 ^ windowBits) (zdrop (len piece) payload) (flush piece)) as (ps & E & Hps & Hall); auto.
      { unfold zdrop. rewrite length_drop. lia. }
      exists (piece :: ps). cbn [compressLoop orb] in E. cbn [fmap list_fmap concat]. rewrite Hps, H3. splits; auto; discriminate.
    - rewrite Z.ltb_irrefl. exists [payload]. cbn. unfold zdrop, len. rewrite Nat2Z.id, drop_ge by lia. cbn. rewrite !app_nil_r. splits; auto; first [discriminate|lia]. }
  exists ps. splits; auto. destruct (exists_last Hne) as (ps' & q & ->). rewrite fmap_app, concat_app. cbn. rewrite app_nil_r. destruct (flush_tail q) as [b ->].
  rewrite app_assoc. set (a := concat _ ++ b). replace (len (a ++ flushTail) - 4) with (len a) by (rewrite len_app; change (len flushTail) with 4; lia). now rewrite ztake_app.
Qed.

Lemma readLoop_spec dst limit reads :
  0 <= len dst <= limit -> readLoop dst limit reads true = if limit <? len (dst ++ concat reads) then Err ErrMessageTooBig else Ok (dst ++ concat reads).
Proof.
  revert dst. induction reads as [|r reads IH]; intros dst Hd; cbn [readLoop concat].
  - rewrite app_nil_r, (proj2 (Z.ltb_ge _ _)) by lia. reflexivity.
  - rewrite app_assoc. destruct (Z.ltb_spec limit (len (dst ++ r))) as [H|H].
    + rewrite (len_app (dst ++ r)), (proj2 (Z.ltb_lt _ _)) by (pose proof (len_nonneg (concat reads)); lia). reflexivity.
    + apply IH. pose proof (len_nonneg (dst ++ r)). lia.
Qed.

(** What is compressed is decompressed, or is refused for its size. *)
Lemma inflate_compressed payload windowBits limit :
  0 <= windowBits -> 0 <= limit -> FlateLaws ->
  decompressMessage (compressMessage payload windowBits) [] limit = if limit <? len payload then Err ErrMessageTooBig else Ok payload.
Proof.
  intros Hw Hl Hlaws. destruct (compressMessage_spec payload windowBits Hw Hlaws) as (ps & E & Hps & _). unfold decompressMessage.
  change deflateTail with (flushTail ++ [0x01; 0x00; 0x00; 0xff; 0xff]). rewrite app_assoc, E. pose proof (inflate_flushed ps) as Hi.
  destruct (inflated _ _) as [reads eof]. destruct Hi as [Hr ->]. rewrite readLoop_spec by (change (len []) with 0; lia). cbn [app]. now rewrite Hr, Hps.
Qed.

End Flate.

(** ** The connection *)

Inductive cerr : Type :=
| EFrame (e : wserr)
| errDataOpcode
| errCloseSent
| EReasonTooLong
| ETransport.            (* the transport did not take the frame *)

Record Connection : Type := mkConnection {
  client : bool;
  compress : bool;
  windowBits : Z;
  closeSent : bool;
  closeState : option (Z * bytes);
  sentFrames : list bytes;     (* what the transport was handed, in order *)
  masks : nat;                 (* keys drawn so far *)
  closeAfterSend : bool;
  closed : bool
}.

Definition setSent (c : Connection) (frames : list bytes) (masks : nat) : Connection :=
  mkConnection (client c) (compress c) (windowBits c) (closeSent c) (closeState c) frames masks (closeAfterSend c) (closed c).
Definition setClosing (c : Connection) (state : Z * bytes) : Connection :=
  mkConnection (client c) (compress c) (windowBits c) true (Some state) (sentFrames c) (masks c) (closeAfterSend c) (closed c).
Definition setCloseAfterSend (c : Connection) : Connection :=
  mkConnection (client c) (compress c) (windowBits c) (closeSent c) (closeState c) (sentFrames c) (masks c) true (closed c).
Definition setClosed (c : Connection) : Connection :=
  mkConnection (client c) (compress c) (windowBits c) (closeSent c) (closeState c) (sentFrames c) (masks c) (closeAfterSend c) true.

Definition closePayload (payload : bytes) : Z * bytes :=
  if len payload <? 2 then (CloseNormal, []) else (be (take 2 payload), drop 2 payload).

(** The frame a server sends uncompressed, and the length of its header. *)
Record PreparedMessage : Type := mkPrepared { m_opcode : Z; m_frame : bytes; m_headerLen : Z }.

Definition NewPreparedMessage (opcode : Z) (payload : bytes) : res cerr PreparedMessage :=
  if negb (opcode =? Text) && negb (opcode =? Binary) then Err errDataOpcode
  else if (opcode =? Text) && negb (Valid payload) then Err (EFrame ErrInvalidPayload)
  else let '(frame, headerLen) := buildFrame opcode payload false in Ok (mkPrepared opcode frame headerLen).

Definition m_payload (m : PreparedMessage) : bytes := zdrop (m_headerLen m) (m_frame m).

(** What an application asks of a connection in a callback. *)
Inductive op : Type :=
| OWrite (opcode : Z) (payload : bytes)
| OPrepared (opcode : Z) (payload : bytes)
| OPing (payload : bytes)
| OPong (payload : bytes)
| OClose (code : Z) (reason : bytes).

(** What a handler does with pings: it is no PingHandler; it takes them; or it is a
    HandlerFuncs whose Ping is nil, which replies as the default does but says nothing
    of how that went. *)
Inductive Pinging : Type := NoPingHandler | TakesPing (f : list Event -> bytes -> list op) | NilPing.

(** A handler: what it asks for when a message or a frame of one comes, and the
    pings and pongs it takes itself; each may go by all it was given before. *)
Record Handler : Type := mkHandler {
  OnMessage : list Event -> Z -> bool -> bytes -> list op;
  OnPing : Pinging;
  OnPong : option (list Event -> bytes -> list op)
}.

Section Connection.

Variable flush : bytes -> bytes.
Variable inflated : bytes -> bytes -> list bytes * bool.
(** Whether the transport, having been handed these frames, takes this one. *)
Variable accepts : list bytes -> bytes -> bool.
(** The four random bytes of the n-th masked frame. *)
Variable rnd : nat -> bytes.

Notation FeedOneBorrowed := (FeedOneBorrowed (decompressMessage inflated)).
Notation compressMessage := (compressMessage flush).

(** SendParts, SendOwned or SendShared. *)
Definition transmit (c : Connection) (frame : bytes) : Connection * option cerr :=
  if accepts (sentFrames c) frame then (setSent c (sentFrames c ++ [frame]) (masks c), None) else (c, Some ETransport).

Definition c_sendMaskedFrame (c : Connection) (opcode : Z) (payload : bytes) (compressed : bool) : Connection * option cerr :=
  match sendMaskedFrame (rnd (masks c)) opcode payload compressed with
  | Err e => (c, Some (EFrame e))
  | Ok frame => transmit (setSent c (sentFrames c) (S (masks c))) frame
  end.

Definition c_sendFrame (c : Connection) (opcode : Z) (payload : bytes) (compressed : bool) : Connection * option cerr :=
  if client c then c_sendMaskedFrame c opcode payload compressed
  else
    match frameHeader opcode (len payload) with
    | Err e => (c, Some (EFrame e))
    | Ok header => transmit c (setRSV1 compressed header ++ payload)
    end.

Definition sendClose (c : Connection) (payload : bytes) : Connection * option cerr :=
  if closeSent c then (c, None)
  else
    let c := setClosing c (closePayload payload) in
    match c_sendFrame c Close payload false with
    | (c, Some e) => (c, Some e)
    | (c, None) => (setCloseAfterSend c, None)
    end.

Definition writeFrame (c : Connection) (opcode : Z) (payload : bytes) : Connection * option cerr :=
  if closeSent c then (c, Some errCloseSent)
  else if compress c && ((opcode =? Text) || (opcode =? Binary)) then
    c_sendFrame c opcode (compressMessage payload (windowBits c)) true
  else c_sendFrame c opcode payload false.

Definition WriteMessage (c : Connection) (opcode : Z) (payload : bytes) : Connection * option cerr :=
  if negb (opcode =? Text) && negb (opcode =? Binary) then (c, Some errDataOpcode)
  else if (opcode =? Text) && negb (Valid payload) then (c, Some (EFrame ErrInvalidPayload))
  else writeFrame c opcode payload.

Definition c_Ping (c : Connection) (payload : bytes) : Connection * option cerr := writeFrame c Ping payload.
Definition c_Pong (c : Connection) (payload : bytes) : Connection * option cerr := writeFrame c Pong payload.

Definition replyPing (c : Connection) (payload : bytes) : Connection * bool :=
  match c_Pong c payload with
  | (c, Some _) => (setClosed c, false)
  | (c, None) => (c, true)
  end.

Definition c_Close (c : Connection) (code : Z) (reason : bytes) : Connection * option cerr :=
  if negb (validCloseCode code) || negb (Valid reason) then (c, Some (EFrame ErrInvalidPayload))
  else if 125 <? 2 + len reason then (c, Some EReasonTooLong)
  else sendClose c (putBE 2 code ++ reason).

(** The frame compressed for the window, which the code keeps once made. *)
Definition deflatedFrame (m : PreparedMessage) (windowBits : Z) : bytes * Z :=
  buildFrame (m_opcode m) (compressMessage (m_payload m) windowBits) true.

Definition WritePreparedMessage (c : Connection) (m : PreparedMessage) : Connection * option cerr :=
  if closeSent c then (c, Some errCloseSent)
  else
    let '(frame, headerLen) := if compress c then deflatedFrame m (windowBits c) else (m_frame m, m_headerLen m) in
    if client c then c_sendMaskedFrame c (m_opcode m) (zdrop headerLen frame) (compress c) else transmit c frame.

Definition exec (c : Connection) (o : op) : Connection :=
  match o with
  | OWrite opcode payload => (WriteMessage c opcode payload).1
  | OPrepared opcode payload => match NewPreparedMessage opcode payload with Ok m => (WritePreparedMessage c m).1 | Err _ => c end
  | OPing payload => (c_Ping c payload).1
  | OPong payload => (c_Pong c payload).1
  | OClose code reason => (c_Close c code reason).1
  end.

Definition execs (c : Connection) (os : list op) : Connection := fold_left exec os c.

(** ** What the peer's bytes do *)

Definition closeParserError (c : Connection) (e : wserr) : Connection :=
  let code := match e with ErrMessageTooBig => CloseMessageTooBig | ErrInvalidPayload => CloseInvalidPayload | ErrProtocol => CloseProtocolError end in
  (sendClose c (putBE 2 code)).1.

(** The connection after, what the handler was given in all, and whether to go on. *)
Definition onEvent (h : Handler) (calls : list Event) (c : Connection) (ev : Event) : Connection * list Event * bool :=
  if (Opcode ev =? Text) || (Opcode ev =? Binary) then (execs c (OnMessage h calls (Opcode ev) (Fin ev) (Payload ev)), calls ++ [ev], true)
  else if Opcode ev =? Ping then
    match OnPing h with
    | TakesPing f => (execs c (f calls (Payload ev)), calls ++ [ev], true)
    | NilPing => let '(c, _) := replyPing c (Payload ev) in (c, calls, true)
    | NoPingHandler => let '(c, ok) := replyPing c (Payload ev) in (c, calls, ok)
    end
  else if Opcode ev =? Pong then
    match OnPong h with
    | Some f => (execs c (f calls (Payload ev)), calls ++ [ev], true)
    | None => (c, calls, true)
    end
  else if Opcode ev =? Close then ((sendClose c (Payload ev)).1, calls, false)
  else (c, calls, true).

(** The connection, the parser, and what the handler was given in all. *)
Fixpoint serveLoop (fuel : nat) (h : Handler) (c : Connection) (p : Parser) (data : bytes) (calls : list Event)
    : option (Connection * Parser * list Event) :=
  match fuel with
  | O => None
  | S fuel =>
      if closeSent c then Some (c, p, calls)
      else
        match FeedOneBorrowed p data with
        | None => None
        | Some (FErr e) => Some (closeParserError c e, Reset p, calls)
        | Some (FWait p) => Some (c, p, calls)
        | Some (FEvent p ev) =>
            let '(c, calls, more) := onEvent h calls c ev in
            if more then serveLoop fuel h c p [] calls else Some (c, p, calls)
        end
  end.

(** The loop turns once for each event and once more. *)
Definition serveFrames (h : Handler) (calls : list Event) (c : Connection) (p : Parser) (data : bytes) : option (Connection * Parser * list Event) :=
  match serveLoop (length (buffer p) + length (borrowedTail p) + length data + 1) h c p data calls with
  | Some (c, p, calls) => Some (c, ReleaseBorrowed p, calls)
  | None => None
  end.

(** The reads of a connection, until it is closed. *)
Fixpoint serveAll (h : Handler) (calls : list Event) (c : Connection) (p : Parser) (chunks : list bytes) : option (Connection * Parser * list Event) :=
  match chunks with
  | [] => Some (c, p, calls)
  | d :: chunks =>
      if closed c then Some (c, p, calls)
      else
        match serveFrames h calls c p d with
        | None => None
        | Some (c, p, calls) => serveAll h calls c p chunks
        end
  end.

(** ** What serving is to do *)

(** A control frame of RFC 6455 section 5.2, whole, uncompressed and masked if a
    client sends it; it holds 125 bytes at most. *)
Definition controlFrame (fromClient : bool) (mask : bytes) (opcode : Z) (payload : bytes) : option bytes :=
  if 125 <? len payload then None
  else Some (if fromClient then [128 + opcode; 128 + len payload] ++ mask ++ applyMask payload mask else [128 + opcode; len payload] ++ payload).

(** One sent, and whether the transport took it. A client draws a new key for each. *)
Definition speak (c : Connection) (opcode : Z) (payload : bytes) : Connection * bool :=
  match controlFrame (client c) (rnd (masks c)) opcode payload with
  | None => (c, false)
  | Some w =>
      let keys := if client c then S (masks c) else masks c in
      if accepts (sentFrames c) w then (setSent c (sentFrames c ++ [w]) keys, true) else (setSent c (sentFrames c) keys, false)
  end.

(** The closing handshake: a Close frame, the last that is sent, and the connection is
    closed behind it; what the handler hears is the frame's code and reason. *)
Definition closing (c : Connection) (payload : bytes) : Connection :=
  let state := match payload with b0 :: b1 :: reason => (be [b0; b1], reason) | _ => (1000, []) end in
  match speak (setClosing c state) 8 payload with (c, true) => setCloseAfterSend c | (c, false) => c end.

(** The status codes of RFC 6455 section 7.4.1: protocol error, data that is not what
    its type says, and a message too big. *)
Definition statusCode (e : wserr) : bytes := match e with ErrProtocol => [0x03; 0xea] | ErrInvalidPayload => [0x03; 0xef] | ErrMessageTooBig => [0x03; 0xf1] end.

(** An event answered: data goes to the handler, a ping is answered with a pong of the
    same payload unless the handler takes it, a pong goes to a handler that wants it,
    and a Close is echoed. A pong the transport does not take closes the connection. *)
Definition answer (h : Handler) (calls : list Event) (c : Connection) (ev : Event) : Connection * list Event :=
  let opcode := Opcode ev in
  if (opcode =? 1) || (opcode =? 2) then (execs c (OnMessage h calls opcode (Fin ev) (Payload ev)), calls ++ [ev])
  else if opcode =? 9 then
    match OnPing h with
    | TakesPing f => (execs c (f calls (Payload ev)), calls ++ [ev])
    | _ => (match speak c 10 (Payload ev) with (c, true) => c | (c, false) => setClosed c end, calls)
    end
  else if opcode =? 10 then match OnPong h with Some f => (execs c (f calls (Payload ev)), calls ++ [ev]) | None => (c, calls) end
  else if opcode =? 8 then (closing c (Payload ev), calls)
  else (c, calls).

(** The events of the whole stream, one after the other, until the connection is
    closing or closed; then the error, if any, closes it with its code. *)
Fixpoint react (h : Handler) (calls : list Event) (c : Connection) (evs : list Event) (err : option wserr) : Connection * list Event :=
  if closeSent c || closed c then (c, calls)
  else
    match evs with
    | [] => (match err with Some e => closing c (statusCode e) | None => c end, calls)
    | ev :: evs => let '(c, calls) := answer h calls c ev in react h calls c evs err
    end.

Definition errOf (r : res wserr Parser) : option wserr := match r with Err e => Some e | Ok _ => None end.

(** What sending leaves alone. *)
Definition flags (c : Connection) : bool * bool := (closeSent c, closed c).

Lemma transmit_flags c frame : flags (transmit c frame).1 = flags c.
Proof. unfold transmit. now destruct (accepts _ _). Qed.

Lemma masked_flags c opcode payload compressed : flags (c_sendMaskedFrame c opcode payload compressed).1 = flags c.
Proof. unfold c_sendMaskedFrame. destruct (sendMaskedFrame _ _ _ _); [rewrite transmit_flags; reflexivity|reflexivity]. Qed.

Lemma sendFrame_flags c opcode payload compressed : flags (c_sendFrame c opcode payload compressed).1 = flags c.
Proof.
  unfold c_sendFrame. destruct (client c); [apply masked_flags|]. destruct (frameHeader _ _); [apply transmit_flags|reflexivity].
Qed.

Lemma writeFrame_flags c opcode payload : flags (writeFrame c opcode payload).1 = flags c.
Proof. unfold writeFrame. destruct (closeSent c) eqn:E; [reflexivity|]. destruct (_ && _); apply sendFrame_flags. Qed.

Lemma sendClose_flags c payload : flags (sendClose c payload).1 = (true, closed c).
Proof.
  unfold sendClose. destruct (closeSent c) eqn:E; [unfold flags; cbn; now rewrite E|].
  pose proof (sendFrame_flags (setClosing c (closePayload payload)) Close payload false) as H. destruct (c_sendFrame _ _ _ _) as [c' [e|]]; unfold flags in *; cbn in *; injection H as E1 E2; cbn; congruence.
Qed.

Lemma closeParserError_closing c e : closeSent (closeParserError c e) = true.
Proof. exact (f_equal fst (sendClose_flags c _)). Qed.

Lemma WriteMessage_flags c opcode payload : flags (WriteMessage c opcode payload).1 = flags c.
Proof. unfold WriteMessage. destruct (_ && _); [reflexivity|]. destruct (_ && _); [reflexivity|]. apply writeFrame_flags. Qed.

Lemma WritePrepared_flags c m : flags (WritePreparedMessage c m).1 = flags c.
Proof.
  unfold WritePreparedMessage. destruct (closeSent c); [reflexivity|]. destruct (if compress c then _ else _) as [frame n].
  destruct (client c); [apply masked_flags|apply transmit_flags].
Qed.

Definition isClose (o : op) : bool := match o with OClose _ _ => true | _ => false end.

Lemma exec_flags c o : closed (exec c o) = closed c /\ (isClose o = false -> closeSent (exec c o) = closeSent c).
Proof.
  assert (forall c', flags c' = flags c -> closed c' = closed c /\ closeSent c' = closeSent c) as H by (intros c' E; unfold flags in E; split; congruence).
  destruct o as [opcode payload|opcode payload|payload|payload|code reason]; cbn [exec isClose].
  - destruct (H _ (WriteMessage_flags c opcode payload)); auto.
  - destruct (NewPreparedMessage opcode payload) as [m|]; [destruct (H _ (WritePrepared_flags c m)); auto|auto].
  - destruct (H _ (writeFrame_flags c Ping payload)); auto.
  - destruct (H _ (writeFrame_flags c Pong payload)); auto.
  - split; [|discriminate]. unfold c_Close. destruct (_ || _); [reflexivity|]. destruct (_ <? _); [reflexivity|].
    pose proof (sendClose_flags c (putBE 2 code ++ reason)) as E. unfold flags in E. congruence.
Qed.

Lemma execs_flags c os : closed (execs c os) = closed c /\ (forallb (fun o => negb (isClose o)) os = true -> closeSent (execs c os) = closeSent c).
Proof.
  revert c. induction os as [|o os IH]; intros c; [auto|]. destruct (exec_flags c o) as [E1 E2], (IH (exec c o)) as [I1 I2].
  change (execs c (o :: os)) with (execs (exec c o) os). split; [congruence|]. cbn [forallb]. rewrite andb_true_iff, negb_true_iff. intros [H1 H2].
  rewrite I2, E2; auto.
Qed.

Lemma replyPing_flags c payload : let '(c', ok) := replyPing c payload in closed c' = closed c || negb ok /\ closeSent c' = closeSent c.
Proof.
  unfold replyPing, c_Pong. pose proof (writeFrame_flags c Pong payload) as H. destruct (writeFrame _ _ _) as [c' [e|]]; unfold flags in H; cbn in *.
  - now rewrite orb_true_r; split; [|congruence].
  - rewrite orb_false_r. split; congruence.
Qed.

(** The code sends control frames as they are to be. *)
Lemma speak_sent c opcode payload : opcode = 8 \/ opcode = 9 \/ opcode = 10 ->
  c_sendFrame c opcode payload false = ((speak c opcode payload).1, if (speak c opcode payload).2 then None else (c_sendFrame c opcode payload false).2) /\
  ((speak c opcode payload).2 = false -> (c_sendFrame c opcode payload false).2 <> None).
Proof.
  intros Ho. unfold c_sendFrame, c_sendMaskedFrame, sendMaskedFrame, speak, controlFrame. assert (dataOrControl opcode = true /\ (0x8 <=? opcode) = true /\ 0x80 .| u8 opcode = 128 + opcode) as (E1 & E2 & E3) by (destruct Ho as [->|[->| ->]]; vm_compute; auto).
  unfold frameHeader. rewrite E1, E2, E3. cbn [negb andb]. pose proof (len_nonneg payload) as Hl. destruct (Z.ltb_spec 125 (len payload)) as [Hgt|Hle]; [destruct (client c); (split; [reflexivity|intros _; discriminate])|].
  rewrite (proj2 (Z.ltb_lt _ _)) by lia. assert (u8 (len payload) = len payload) as -> by (unfold u8; rewrite Z.mod_small; lia). unfold transmit. destruct (client c) eqn:Ec.
  - cbn [setRSV1 setMasked app]. assert (len payload .| 0x80 = 128 + len payload) as ->.
    { rewrite Z.lor_comm. apply (lor_disjoint 128 (len payload) 7); [lia|reflexivity|lia]. }
    cbn [sentFrames setSent masks]. destruct (accepts (sentFrames c) _); cbn; (split; [reflexivity|intros ?; discriminate]).
  - cbn [setRSV1 app]. destruct (accepts (sentFrames c) _); cbn; (split; [f_equal; now destruct c|intros ?; discriminate]).
Qed.

Lemma replyPing_spoken c payload : closeSent c = false ->
  replyPing c payload = (match speak c 10 payload with (c, true) => c | (c, false) => setClosed c end, (speak c 10 payload).2).
Proof.
  intros Hc. unfold replyPing, c_Pong, writeFrame. rewrite Hc. change ((Pong =? Text) || (Pong =? Binary)) with false. rewrite andb_false_r. destruct (speak_sent c Pong payload ltac:(auto)) as [-> Hf]. change Pong with 10 in *.
  destruct (speak c 10 payload) as [c' []]; cbn [fst snd] in *; [reflexivity|]. destruct (c_sendFrame c 10 payload false).2; [reflexivity|]. now destruct (Hf eq_refl).
Qed.

Lemma sendClose_spoken c payload : closeSent c = false -> (sendClose c payload).1 = closing c payload.
Proof.
  intros Hc. unfold sendClose, closing. rewrite Hc. assert (closePayload payload = match payload with b0 :: b1 :: reason => (be [b0; b1], reason) | _ => (1000, []) end) as ->.
  { unfold closePayload. destruct payload as [|b0 [|b1 reason]]; [reflexivity..|]. rewrite (proj2 (Z.ltb_ge _ _)) by (rewrite !len_cons; pose proof (len_nonneg reason); lia). reflexivity. }
  set (c1 := setClosing c _). destruct (speak_sent c1 Close payload ltac:(auto)) as [-> Hf]. change Close with 8 in *. destruct (speak c1 8 payload) as [c' []]; cbn [fst snd] in *; [reflexivity|]. destruct (c_sendFrame c1 8 payload false).2; [reflexivity|]. now destruct (Hf eq_refl).
Qed.

Lemma closeParserError_spoken c e : closeSent c = false -> closeParserError c e = closing c (statusCode e).
Proof. intros Hc. unfold closeParserError. rewrite sendClose_spoken by exact Hc. now destruct e. Qed.

Lemma closing_closing c payload : closeSent c = false -> closeSent (closing c payload) = true.
Proof. intros Hc. rewrite <- sendClose_spoken by exact Hc. exact (f_equal fst (sendClose_flags c payload)). Qed.

(** The code does what is to be done with an event, and goes on while the connection
    does, or when a HandlerFuncs replied to a ping. *)
Lemma onEvent_answers h calls c ev : closeSent c = false -> closed c = false ->
  exists more, onEvent h calls c ev = (answer h calls c ev, more) /\ let c' := (answer h calls c ev).1 in
  if more then closed c' = false \/ OnPing h = NilPing else closeSent c' || closed c' = true.
Proof.
  intros Hs Hc. unfold onEvent, answer. change Text with 1. change Binary with 2. change Ping with 9. change Pong with 10. change Close with 8. cbv zeta. destruct (_ || _) eqn:E0.
  { exists true. split; [reflexivity|]. left. cbn [fst]. now rewrite (proj1 (execs_flags _ _)). }
  destruct (Opcode ev =? 9).
  { destruct (OnPing h) as [|f|].
    - rewrite replyPing_spoken by exact Hs. pose proof (replyPing_flags c (Payload ev)) as H. rewrite replyPing_spoken in H by exact Hs. destruct (speak c 10 (Payload ev)) as [c' []]; cbn [fst snd] in *; (eexists; split; [reflexivity|]).
      + destruct H as [-> _]. left. now rewrite Hc.
      + apply orb_true_r.
    - exists true. split; [reflexivity|]. left. cbn [fst]. now rewrite (proj1 (execs_flags _ _)).
    - rewrite replyPing_spoken by exact Hs. exists true. split; [now destruct (speak c 10 (Payload ev)) as [c' []]|now right]. }
  destruct (Opcode ev =? 10); [exists true; destruct (OnPong h); (split; [reflexivity|]); left; cbn [fst]; [now rewrite (proj1 (execs_flags _ _))|exact Hc]|].
  destruct (Opcode ev =? 8); [|exists true; split; [reflexivity|now left]]. exists false. rewrite sendClose_spoken by exact Hs. split; [reflexivity|]. cbn [fst]. now rewrite closing_closing.
Qed.

Lemma react_stopped h calls c evs err : closeSent c || closed c = true -> react h calls c evs err = (c, calls).
Proof. intros H. destruct evs; cbn [react]; now rewrite H. Qed.

(** Every pong was taken, if a handler does not look. *)
Definition answered (h : Handler) (c : Connection) : Prop := OnPing h = NilPing -> closed c = false.

#[local] Instance answered_dec h c : Decision (answered h c).
Proof. unfold answered. destruct (OnPing h); [left; discriminate|left; discriminate|]. destruct (closed c); [right; intros H; now specialize (H eq_refl)|left; auto]. Defined.

(** A read served is its events, handled in turn. *)
Lemma serveLoop_run fuel h c p data calls g evs r :
  closed c = false -> reading (feedIn p data true) -> run (decompressMessage inflated) g (view (feedIn p data true)) = Some (evs, r) -> (length evs < fuel)%nat -> answered h (react h calls c evs (errOf r)).1 ->
  exists p', serveLoop fuel h c p data calls = Some ((react h calls c evs (errOf r)).1, p', (react h calls c evs (errOf r)).2) /\
    (closeSent (react h calls c evs (errOf r)).1 || closed (react h calls c evs (errOf r)).1 = false -> r = Ok (ReleaseBorrowed p')).
Proof.
  revert c p data calls g evs. induction fuel as [|fuel IH]; intros c p data calls g evs Hc Hp Hrun Hf Ha; [lia|]. cbn [serveLoop].
  destruct (closeSent c) eqn:Ecs.
  { exists p. rewrite react_stopped by now rewrite Ecs. cbn [fst snd]. rewrite Ecs. split; [reflexivity|discriminate]. }
  unfold WsFrame.FeedOneBorrowed, WsFrame.feedOne. set (p1 := feedIn p data true) in *. set (k := (length (buffer p1) + length (borrowedTail p1) + 2)%nat).
  pose proof (feedLoop_borrow _ k g p1 evs r Hp Hrun ltac:(unfold k; destruct (borrowedTail p1); cbn; lia)) as H.
  destruct evs as [|ev evs]; cbn [react] in *; rewrite Ecs, Hc in *; cbn [orb] in *.
  - cbn [fst snd]. destruct r as [q|e].
    + destruct H as (p' & -> & <-). exists p'. auto.
    + rewrite H. exists (Reset p). cbn [errOf]. rewrite closeParserError_spoken by exact Ecs. split; [reflexivity|]. rewrite closing_closing by exact Ecs. discriminate.
  - assert (exists p' g', feedLoop (decompressMessage inflated) k true p1 = Some (FEvent p' ev) /\ between p' /\ run (decompressMessage inflated) g' (view p') = Some (evs, r))
      as (p' & g' & -> & Hb & Hr) by (now destruct r).
    destruct (onEvent_answers h calls c ev Ecs Hc) as (more & -> & Hfl). destruct (answer h calls c ev) as [c' called]. cbn [fst] in Hfl. destruct more.
    + assert (closed c' = false) as Hfl'. { destruct Hfl as [|Hn]; [assumption|]. destruct (closed c') eqn:E; [|reflexivity]. specialize (Ha Hn). rewrite react_stopped in Ha by (rewrite E; apply orb_true_r). cbn in Ha. congruence. }
      destruct (feedIn_between (decompressMessage inflated) p' Hb) as [H1 H2]. cbn in Hf. apply (IH c' p' [] called g' evs Hfl' H1); [now rewrite H2|lia|exact Ha].
    + exists p'. rewrite react_stopped by exact Hfl. cbn [fst snd]. rewrite Hfl. split; [reflexivity|discriminate].
Qed.

Notation inflater := (decompressMessage inflated).

Lemma serveFrames_run h calls c p data g evs r :
  closed c = false -> inv p -> bytes_ok data -> run inflater g (ext data p) = Some (evs, r) -> answered h (react h calls c evs (errOf r)).1 ->
  exists p', serveFrames h calls c p data = Some ((react h calls c evs (errOf r)).1, p', (react h calls c evs (errOf r)).2) /\
    (closeSent (react h calls c evs (errOf r)).1 || closed (react h calls c evs (errOf r)).1 = false -> r = Ok p').
Proof.
  intros Hc Hp Hd Hrun Ha. destruct (feedIn_lend inflater p data Hp Hd) as [H1 H2]. pose proof (inv_ext inflater data p Hp Hd) as He.
  destruct (run_total inflater (S (length (buffer (ext data p)))) (ext data p) He) as (evs0 & r0 & E & Hl); [lia|].
  pose proof (run_unique _ _ _ _ _ _ E Hrun) as [= -> ->]. change (buffer (ext data p)) with (buffer p ++ data) in Hl. rewrite length_app in Hl.
  unfold serveFrames. destruct (serveLoop_run (length (buffer p) + length (borrowedTail p) + length data + 1) h c p data calls g evs r Hc H1) as (p' & -> & Hend);
    [now rewrite H2|lia|exact Ha|]. exists (ReleaseBorrowed p'). split; [reflexivity|exact Hend].
Qed.

Lemma react_app h calls c evs evs' err :
  react h calls c (evs ++ evs') err = let '(c1, calls1) := react h calls c evs None in react h calls1 c1 evs' err.
Proof.
  revert calls c. induction evs as [|ev evs IH]; intros calls c.
  - cbn [app]. destruct (closeSent c || closed c) eqn:E.
    + rewrite (react_stopped h calls c [] None) by exact E. reflexivity.
    + cbn [react]. rewrite E. reflexivity.
  - cbn [app react]. destruct (closeSent c || closed c) eqn:E.
    + now rewrite react_stopped by exact E.
    + destruct (answer h calls c ev) as [c' called]. apply IH.
Qed.

Lemma serveAll_stopped h calls c p chunks : closeSent c || closed c = true -> exists p', serveAll h calls c p chunks = Some (c, p', calls).
Proof.
  intros H. revert p. induction chunks as [|d chunks IH]; intros p; cbn [serveAll]; [eauto|]. destruct (closed c) eqn:Ec; [eauto|]. rewrite orb_false_r in H.
  assert (serveFrames h calls c p d = Some (c, ReleaseBorrowed p, calls)) as ->.
  { unfold serveFrames. rewrite Nat.add_comm. cbn [serveLoop Nat.add]. now rewrite H. }
  apply IH.
Qed.

Lemma react_err h calls c evs e : closeSent (react h calls c evs (Some e)).1 || closed (react h calls c evs (Some e)).1 = true.
Proof.
  revert calls c. induction evs as [|ev evs IH]; intros calls c; cbn [react]; destruct (closeSent c || closed c) eqn:E; try exact E.
  - cbn [fst]. apply orb_false_iff in E as [E _]. now rewrite closing_closing.
  - destruct (answer h calls c ev) as [c' called]. apply IH.
Qed.

Lemma serveAll_run h calls c p chunks :
  closed c = false -> inv p -> Forall bytes_ok chunks ->
  exists evs r p', feedAll (Feed inflater) p chunks = Some (evs, r) /\
    (answered h (react h calls c evs (errOf r)).1 -> serveAll h calls c p chunks = Some ((react h calls c evs (errOf r)).1, p', (react h calls c evs (errOf r)).2)).
Proof.
  intros Hc Hp Hb. revert calls c p Hc Hp. induction Hb as [|d chunks Hd Hb IH]; intros calls c p Hc Hp; cbn [feedAll serveAll].
  - exists [], (Ok p), p. cbn [react errOf]. rewrite Hc. destruct (closeSent c || false); auto.
  - rewrite Hc. pose proof (inv_ext inflater d p Hp Hd) as He. destruct (run_total inflater (S (length (buffer (ext d p)))) (ext d p) He) as (evs & r & E & _); [lia|].
    pose proof (serveFrames_run h calls c p d _ evs r Hc Hp Hd E) as Hserve. pose proof (Feed_run inflater _ p d evs r Hp Hd E) as Hf. rewrite Hf. destruct r as [q|e].
    + cbn [errOf] in *. pose proof (Feed_inv inflater p d evs q Hp Hd Hf) as Hq. destruct (closeSent (react h calls c evs None).1 || closed (react h calls c evs None).1) eqn:Es.
      * destruct (IH calls (setSent (mkConnection (client c) (compress c) (windowBits c) false None [] 0 false false) [] 0) q eq_refl Hq) as (evs' & r' & _ & -> & _).
        assert (react h calls c (evs ++ evs') (errOf r') = react h calls c evs None) as Er by (rewrite react_app; destruct (react h calls c evs None) as [c1 calls1]; now rewrite react_stopped).
        destruct (closed (react h calls c evs None).1) eqn:Ecl; [destruct (OnPing h) eqn:Eping|].
        3: { exists (evs ++ evs'), r', p. split; [reflexivity|]. rewrite Er. intros Ha. specialize (Ha Eping). congruence. }
        all: destruct Hserve as (p1 & -> & _); [intros Hn; congruence|]; destruct (serveAll_stopped h (react h calls c evs None).2 (react h calls c evs None).1 p1 chunks) as [p' Hp']; [rewrite ?Ecl, ?orb_true_r in *; auto|]; exists (evs ++ evs'), r', p'; (split; [reflexivity|]); intros _; now rewrite Er, Hp'.
      * destruct Hserve as (p1 & -> & Hend); [intros _; now apply orb_false_iff in Es|]. injection (Hend eq_refl) as ->. apply orb_false_iff in Es as [_ Es].
        destruct (IH (react h calls c evs None).2 (react h calls c evs None).1 p1 Es Hq) as (evs' & r' & p'' & -> & Hall). exists (evs ++ evs'), r', p''. split; [reflexivity|].
        rewrite react_app. destruct (react h calls c evs None) as [c1 calls1]. exact Hall.
    + cbn [errOf] in *. destruct (decide (answered h (react h calls c evs (Some e)).1)) as [Ha|Ha].
      * destruct (Hserve Ha) as (p1 & -> & _). destruct (serveAll_stopped h (react h calls c evs (Some e)).2 (react h calls c evs (Some e)).1 p1 chunks (react_err h calls c evs e)) as [p' Hp']. exists evs, (Err e), p'. split; [reflexivity|]. intros _. exact Hp'.
      * exists evs, (Err e), p. split; [reflexivity|]. intros Ha'. now destruct Ha.
Qed.

(** ** Prepared messages *)

Lemma frameHeader_data opcode n : (opcode =? Text) || (opcode =? Binary) = true -> exists header, frameHeader opcode n = Ok header.
Proof.
  unfold frameHeader, dataOrControl, Text, Binary, Close, Ping, Pong. rewrite orb_true_iff, !Z.eqb_eq. intros [-> | ->]; cbn [Z.eqb orb negb Z.leb andb Z.compare];
    cbn -[putBE Z.ltb Z.leb]; destruct (n <? 126); eauto; destruct (n <=? 65535); eauto.
Qed.

Lemma buildFrame_body opcode payload cp : (opcode =? Text) || (opcode =? Binary) = true -> let '(frame, n) := buildFrame opcode payload cp in zdrop n frame = payload.
Proof.
  intros Hd. unfold buildFrame. destruct (frameHeader_data opcode (len payload) Hd) as [header ->].
  replace (len header) with (len (setRSV1 cp header)) by (now destruct header). apply zdrop_app.
Qed.

Lemma prepared_write c opcode payload :
  match NewPreparedMessage opcode payload with
  | Ok m => WritePreparedMessage c m = WriteMessage c opcode payload
  | Err e => WriteMessage c opcode payload = (c, Some e)
  end.
Proof.
  unfold NewPreparedMessage, WriteMessage. rewrite <- negb_orb. destruct ((opcode =? Text) || (opcode =? Binary)) eqn:Hd; cbn [negb]; [|reflexivity].
  destruct (_ && _); [reflexivity|]. pose proof (buildFrame_body opcode payload false Hd) as Hb. destruct (buildFrame opcode payload false) as [frame n] eqn:Eb.
  unfold WritePreparedMessage, writeFrame, deflatedFrame, m_payload. cbn [m_opcode m_frame m_headerLen]. rewrite Hb, Hd, andb_true_r. destruct (closeSent c); [reflexivity|].
  unfold c_sendFrame. destruct (compress c).
  - set (z := compressMessage payload (windowBits c)). pose proof (buildFrame_body opcode z true Hd) as Hz. unfold buildFrame in *.
    destruct (frameHeader_data opcode (len z) Hd) as [header Eh]. rewrite Eh in *. rewrite Hz. now destruct (client c).
  - rewrite Hb. unfold buildFrame in Eb. destruct (frameHeader_data opcode (len payload) Hd) as [header Eh]. rewrite Eh in *. injection Eb as <- <-. now destruct (client c).
Qed.

(** ** Closing *)

(** One of the frames of the opcode [o]. *)
Definition isFrame (srv : bool) (w : bytes) (o : Z) : Prop := exists mask payload cp, WsFrame.sendFrame srv mask o payload cp = Ok w.

(** What is on the wire are frames, of which only the last may be a Close, and
    only once it is noted as sent. *)
Definition wired (c : Connection) : Prop :=
  exists ops, Forall2 (isFrame (client c)) (sentFrames c) ops /\ ~ In Close (removelast ops) /\ (In Close ops -> closeSent c = true).

(** Sending adds one frame or none. *)
Definition adds (o : Z) (c c' : Connection) : Prop :=
  client c' = client c /\ closeSent c' = closeSent c /\
  (sentFrames c' = sentFrames c \/ exists w, isFrame (client c) w o /\ sentFrames c' = sentFrames c ++ [w]).

Lemma sendFrame_adds c o payload cp : adds o c (c_sendFrame c o payload cp).1.
Proof.
  assert (forall c0 w, client c0 = client c -> closeSent c0 = closeSent c -> sentFrames c0 = sentFrames c -> isFrame (client c) w o -> adds o c (transmit c0 w).1) as H.
  { intros c0 w E1 E2 E3 Hw. unfold transmit, adds. destruct (accepts _ _); cbn; rewrite ?E3; splits; auto. right. eauto. }
  unfold c_sendFrame, c_sendMaskedFrame. destruct (client c) eqn:Ec.
  - destruct (sendMaskedFrame _ _ _ _) as [w|] eqn:E; [|split; [|split]; auto]. apply H; auto. exists (rnd (masks c)), payload, cp. exact E.
  - destruct (frameHeader o (len payload)) as [header|] eqn:E; [|split; [|split]; auto]. apply H; auto. exists [], payload, cp. unfold WsFrame.sendFrame. now rewrite E.
Qed.

Lemma adds_wired o c c' : closeSent c = false -> o <> Close -> wired c -> adds o c c' -> wired c'.
Proof.
  intros Hc Ho (ops & H1 & H2 & H3) (E1 & E2 & [E3|(w & Hw & E3)]); unfold wired; rewrite E1, E2, E3, Hc in *; [eauto|].
  assert (~ In Close ops) as Hn by (intros Hin; specialize (H3 Hin); discriminate).
  exists (ops ++ [o]). splits; [apply Forall2_app; auto| |].
  - rewrite removelast_last. exact Hn.
  - rewrite in_app_iff. cbn. intros [Hin|[E|[]]]; [tauto|destruct (Ho E)].
Qed.

Lemma writeFrame_wired c o payload : o <> Close -> wired c -> wired (writeFrame c o payload).1.
Proof.
  intros Ho Hc. unfold writeFrame. destruct (closeSent c) eqn:E; [exact Hc|]. destruct (_ && _); eapply adds_wired; eauto using sendFrame_adds.
Qed.

Lemma sendClose_wired c payload : wired c -> wired (sendClose c payload).1.
Proof.
  intros Hc. unfold sendClose. destruct (closeSent c) eqn:E; [exact Hc|]. pose proof (sendFrame_adds (setClosing c (closePayload payload)) Close payload false) as Ha.
  destruct Hc as (ops & H1 & H2 & H3). assert (~ In Close ops) as Hn by (intros Hin; specialize (H3 Hin); congruence).
  assert (wired (c_sendFrame (setClosing c (closePayload payload)) Close payload false).1) as Hw.
  { destruct Ha as (E1 & E2 & Ha). unfold wired. rewrite E1, E2. destruct Ha as [E3|(w & Hw & E3)]; rewrite E3; cbn; [eauto|].
    exists (ops ++ [Close]). splits; auto; [apply Forall2_app; auto|]. now rewrite removelast_last. }
  destruct (c_sendFrame _ _ _ _) as [c' [e|]]; exact Hw.
Qed.

Lemma WriteMessage_wired c o payload : wired c -> wired (WriteMessage c o payload).1.
Proof.
  intros Hc. unfold WriteMessage. destruct (_ && _) eqn:E; [exact Hc|]. destruct ((o =? Text) && negb (Valid payload)); [exact Hc|]. apply writeFrame_wired; [|exact Hc].
  unfold Text, Binary, Close in *. apply andb_false_iff in E. rewrite !negb_false_iff, !Z.eqb_eq in E. lia.
Qed.

Lemma exec_wired c o : wired c -> wired (exec c o).
Proof.
  intros Hc. destruct o as [opcode payload|opcode payload|payload|payload|code reason]; cbn [exec].
  - now apply WriteMessage_wired.
  - pose proof (prepared_write c opcode payload) as Hp. destruct (NewPreparedMessage opcode payload) as [m|]; [|exact Hc]. rewrite Hp. now apply WriteMessage_wired.
  - now apply writeFrame_wired.
  - now apply writeFrame_wired.
  - unfold c_Close. destruct (_ || _); [exact Hc|]. destruct (_ <? _); [exact Hc|]. now apply sendClose_wired.
Qed.

Lemma execs_wired c os : wired c -> wired (execs c os).
Proof. revert c. induction os as [|o os IH]; intros c Hc; [exact Hc|]. apply IH. now apply exec_wired. Qed.

Lemma onEvent_wired h calls c ev : wired c -> wired (onEvent h calls c ev).1.1.
Proof.
  intros Hc. unfold onEvent. destruct (_ || _); [now apply execs_wired|]. destruct (Opcode ev =? Ping).
  { pose proof (writeFrame_wired c Pong (Payload ev) ltac:(discriminate) Hc) as Hw. unfold replyPing, c_Pong. destruct (OnPing h); [|now apply execs_wired|]; destruct (writeFrame _ _ _) as [c' [e|]]; exact Hw. }
  destruct (Opcode ev =? Pong); [destruct (OnPong h); [now apply execs_wired|exact Hc]|]. destruct (Opcode ev =? Close); [now apply sendClose_wired|exact Hc].
Qed.

Lemma serveFrames_wired h past c p data c' p' calls : wired c -> serveFrames h past c p data = Some (c', p', calls) -> wired c'.
Proof.
  unfold serveFrames. generalize (length (buffer p) + length (borrowedTail p) + length data + 1)%nat as fuel. intros fuel Hc.
  destruct (serveLoop fuel h c p data past) as [[[c1 p1] calls1]|] eqn:E; [|discriminate]. intros [= <- _ _]. revert past c p data p1 E Hc.
  induction fuel as [|fuel IH]; intros past c p data p1 E Hc; [discriminate|]. cbn [serveLoop] in E. destruct (closeSent c); [now simplify_eq|].
  destruct (FeedOneBorrowed p data) as [[e|q|q ev]|]; simplify_eq; auto; [now apply sendClose_wired|].
  pose proof (onEvent_wired h past c ev Hc) as Hw. destruct (onEvent h past c ev) as [[c2 called] [|]]; [eapply IH; eauto|now simplify_eq].
Qed.

(** An application's call, or bytes from the peer. *)
Inductive wstep (h : Handler) : Connection * Parser -> Connection * Parser -> Prop :=
| ws_call c p o : wstep h (c, p) (exec c o, p)
| ws_read past c p data c' p' calls : serveFrames h past c p data = Some (c', p', calls) -> wstep h (c, p) (c', p').

Lemma wsteps_wired h x y : rtc (wstep h) x y -> wired x.1 -> wired y.1.
Proof.
  induction 1 as [|x y z H _ IH]; [auto|]. intros Hx. apply IH. destruct H as [c p o|past c p data c' p' calls H]; cbn in *; [now apply exec_wired|eauto using serveFrames_wired].
Qed.

(** Nothing goes out after the Close. *)
Lemma closing_silent h c p c' p' : closeSent c = true -> wstep h (c, p) (c', p') -> sentFrames c' = sentFrames c.
Proof.
  intros Hc H. inversion H as [c1 p1 o E1 E2|past c1 p1 data c2 p2 calls Hs]; subst.
  - assert (forall o payload, (writeFrame c o payload).1 = c) as Hw by (intros; unfold writeFrame; now rewrite Hc).
    assert (forall o payload, (WriteMessage c o payload).1 = c) as Hm by (intros; unfold WriteMessage; destruct (_ && _); [reflexivity|]; now destruct (_ && _)).
    destruct o as [opcode payload|opcode payload|payload|payload|code reason]; cbn [exec]; unfold c_Ping, c_Pong; rewrite ?Hw, ?Hm; auto.
    + pose proof (prepared_write c opcode payload) as Hp. destruct (NewPreparedMessage opcode payload); [|reflexivity]. now rewrite Hp, Hm.
    + unfold c_Close. destruct (_ || _); [reflexivity|]. destruct (_ <? _); [reflexivity|]. unfold sendClose. now rewrite Hc.
  - unfold serveFrames in Hs. rewrite Nat.add_comm in Hs. cbn [Nat.add serveLoop] in Hs. rewrite Hc in Hs. now simplify_eq.
Qed.

(** ** Messages sent *)


(** WriteMessage one after the other, each without error. *)
Fixpoint writeAll (c : Connection) (ms : list (Z * bytes)) : option Connection :=
  match ms with
  | [] => Some c
  | m :: ms => match WriteMessage c m.1 m.2 with (c, None) => writeAll c ms | (_, Some _) => None end
  end.





End Connection.

(** ** Properties *)

(** C15: serving a connection's reads, whatever they are, with the read buffer lent to the handler, ends, and comes to
    answering the events of the whole stream in turn: messages go to the handler, a ping is answered with a pong of the
    same payload unless the handler takes it, a Close is echoed byte for byte and ends it, and an error in the stream
    closes with 1002, 1007 or 1009; each in a whole control frame of RFC 6455, and nothing is answered or delivered
    after. A pong the transport does not take closes the connection at once, except that a HandlerFuncs without Ping
    goes on with the same read, which is left out. *)
Theorem serve_reads flush inflated accepts rnd h c p chunks :
  started p -> closed c = false -> Forall bytes_ok chunks ->
  exists evs r p', Feed (decompressMessage inflated) p (concat chunks) = Some (evs, r) /\
    let '(c', calls) := react flush accepts rnd h [] c evs (errOf r) in
    answered h c' -> serveAll flush inflated accepts rnd h [] c p chunks = Some (c', p', calls).
Proof.
  intros Hp Hc Hb. pose proof (started_settled (decompressMessage inflated) p Hp) as Hs. pose proof (settled_inv _ _ Hs) as Hi.
  destruct (serveAll_run flush inflated accepts rnd h [] c p chunks Hc Hi Hb) as (evs & r & p' & H1 & H2).
  destruct (feedAll_run _ chunks p Hs Hb) as (g & evs' & r1 & r2 & H3 & H4 & H5). rewrite H1 in H3. injection H3 as <- <-.
  exists evs, r2, p'. split; [apply (Feed_run _ g); auto; clear - Hb; induction Hb; [constructor|]; cbn; now apply bytes_ok_app|].
  assert (errOf r2 = errOf r) as -> by (destruct r, r2; cbn in *; try tauto; congruence). now destruct (react _ _ _ _ _ _ _ _) as [c' calls].
Qed.

(** C16: whatever the application calls and the peer sends, in whatever order, what goes out is a sequence of frames in which
    a Close can only be the last; once it has been sent nothing follows it. *)
Theorem close_is_last flush inflated accepts rnd h c0 p0 c p :
  sentFrames c0 = [] -> rtc (wstep flush inflated accepts rnd h) (c0, p0) (c, p) ->
  (exists ops, Forall2 (isFrame (client c)) (sentFrames c) ops /\ ~ In Close (removelast ops) /\ (In Close ops -> closeSent c = true)) /\
  (forall c' p', closeSent c = true -> wstep flush inflated accepts rnd h (c, p) (c', p') -> sentFrames c' = sentFrames c).
Proof.
  intros H0 Hr. split; [|intros; eapply closing_silent; eauto]. apply (wsteps_wired _ _ _ _ _ _ _ Hr). exists []. cbn. rewrite H0. splits; auto.
Qed.

(** A message made ready once for many connections is sent, on each of them, exactly as WriteMessage would send it, with
    the same errors, from a client and from a server, compressed or not. *)
Theorem prepared_same flush accepts rnd c opcode payload :
  match NewPreparedMessage opcode payload with
  | Ok m => WritePreparedMessage flush accepts rnd c m = WriteMessage flush accepts rnd c opcode payload
  | Err e => WriteMessage flush accepts rnd c opcode payload = (c, Some e)
  end.
Proof. apply prepared_write. Qed.

(** A message compressed for any window is cut in pieces no longer than it, and is decompressed to itself unless it is
    longer than the limit, which is reported. *)
Theorem deflate_roundtrip flush inflated (Hlaws : FlateLaws flush inflated) payload windowBits limit :
  minWindowBits <= windowBits <= maxWindowBits -> 0 <= limit ->
  decompressMessage inflated (compressMessage flush payload windowBits) [] limit =
    (if limit <? len payload then Err ErrMessageTooBig else Ok payload) /\
  exists ps, compressMessage flush payload windowBits ++ flushTail = concat (flush <$> ps) /\ concat ps = payload /\
    (windowBits < maxWindowBits -> Forall (fun q => len q <= 2 ^ windowBits) ps).
Proof.
  unfold minWindowBits. intros Hw Hl. split; [apply inflate_compressed; auto; lia|]. apply (compressMessage_spec flush inflated); auto. lia.
Qed.


(** ** Their use *)

(** A code with flate's laws: a byte is written after a 2. *)
Definition toyFlush (p : bytes) : bytes := concat ((fun b => [2; b]) <$> p) ++ flushTail.

Fixpoint toyRead (src : bytes) : bytes * bool :=
  match src with
  | 2 :: b :: src => let '(out, eof) := toyRead src in (b :: out, eof)
  | 0 :: 0 :: 0xff :: 0xff :: src => toyRead src
  | [1; 0; 0; 0xff; 0xff] => ([], true)
  | _ => ([], false)
  end.

Definition toyInflated (src dict : bytes) : list bytes * bool := let '(out, eof) := toyRead src in ([out], eof).

#[export] Instance toy_laws : FlateLaws toyFlush toyInflated.
Proof.
  constructor; [intros p; now eexists|]. intros ps. unfold toyInflated.
  assert (toyRead (concat (toyFlush <$> ps) ++ [1; 0; 0; 0xff; 0xff]) = (concat ps, true)) as ->; [|cbn; now rewrite app_nil_r].
  induction ps as [|p ps IH]; [reflexivity|]. rewrite fmap_cons. cbn [concat]. rewrite <- app_assoc. set (rest := concat _ ++ _) in *.
  unfold toyFlush. induction p as [|b p IHp]; [exact IH|]. rewrite fmap_cons. cbn [concat app]. cbn [toyRead]. now rewrite IHp.
Qed.

Definition allOf : list bytes -> bytes -> bool := fun _ _ => true.
Definition key : nat -> bytes := fun n => [Z.of_nat (n mod 256); 1; 2; 3].

Definition clientConn : Connection := mkConnection true true 9 false None [] 0 false false.
Definition serverConn : Connection := mkConnection false true 15 false None [] 0 false false.
(** A server that sends back what it gets. *)
Definition echo : Handler := mkHandler (fun _ opcode _ payload => [OWrite opcode payload]) NilPing None.

Definition sampleMessages : list (Z * bytes) := [(Text, [104; 0xc3; 0xa9]); (Binary, repeat 7 600)].
Definition sampleSent : list bytes :=
  match writeAll toyFlush allOf key clientConn sampleMessages with Some c => sentFrames c | None => [] end.

(** A message, a ping, and a frame with bits set that nothing was agreed for: an echo,
    a pong, and a Close with 1002. *)
Lemma serve_reads_witness :
  exists c' p', serveAll toyFlush toyInflated allOf key echo [] serverConn deflating [concat sampleSent ++ [0x89; 0x82; 0; 0]; [0; 0; 7; 8; 0xff; 0x80]] =
    Some (c', p', [mkEvent Text [104; 0xc3; 0xa9] true; mkEvent Binary (repeat 7 600) true]) /\
    drop 2 (sentFrames c') = [[0x8a; 2; 7; 8]; [0x88; 2; 0x03; 0xea]] /\ closeState c' = Some (1002, []).
Proof.
  destruct (serve_reads toyFlush toyInflated allOf key echo serverConn deflating [concat sampleSent ++ [0x89; 0x82; 0; 0]; [0; 0; 7; 8; 0xff; 0x80]]) as (evs & r & p' & H1 & H2).
  - repeat split.
  - reflexivity.
  - constructor; [apply bytes_okb_ok; vm_compute; reflexivity|constructor; [apply bytes_okb_ok; vm_compute; reflexivity|constructor]].
  - vm_compute in H1. injection H1 as <- <-. destruct (react _ _ _ _ _ _ _ _) as [c' calls] eqn:E. vm_compute in E. injection E as <- <-. eexists _, p'. split; [apply H2; intros _; reflexivity|]. split; reflexivity.
Defined.

Lemma close_is_last_witness :
  let c := exec toyFlush allOf key (exec toyFlush allOf key clientConn (OWrite Text [104])) (OClose 1000 []) in
  closeSent c = true /\ length (sentFrames c) = 2%nat /\ forall o, sentFrames (exec toyFlush allOf key c o) = sentFrames c.
Proof.
  cbv zeta. splits; [reflexivity|reflexivity|]. intros o.
  eapply (close_is_last toyFlush toyInflated allOf key echo clientConn deflating); [reflexivity| |reflexivity|apply (ws_call _ _ _ _ _ _ deflating)].
  eapply rtc_l; [apply ws_call|]. eapply rtc_l; [apply ws_call|]. apply rtc_refl.
Defined.

Lemma deflate_roundtrip_witness : decompressMessage toyInflated (compressMessage toyFlush (repeat 7 600) 9) [] 600 = Ok (repeat 7 600).
Proof.
  apply (deflate_roundtrip toyFlush toyInflated toy_laws (repeat 7 600) 9 600); [vm_compute; split; congruence|lia].
Defined.


(** Where the code falls short: four bytes that do not compress to four or fewer are refused by a receiver that takes
    messages of four bytes, though its bound is said to be of the message once decompressed. *)
Example compressed_bound :
  let receiver := mkParser 4 [] [] 0 noExtra true false false true false in
  match writeAll toyFlush allOf key serverConn [(Binary, [1; 2; 3; 4])] with
  | Some c => Feed (decompressMessage toyInflated) receiver (concat (sentFrames c)) = Some ([], Err ErrMessageTooBig)
  | None => False
  end.
Proof. vm_compute. reflexivity. Qed.

End WsConn.
