(* ===== verification/WsDeflate.v ===== *)
(** * WebSocket extensions (src/websocket/deflate.go, token.go)

    The grammar of Sec-WebSocket-Extensions and what a server and a client agree
    on for permessage-deflate (RFC 7692). A header value is its bytes; a loop
    over one has as many turns as it has bytes at most. *)

From S2P Require Import Prelude WsFrame WsStream WsConn.
From stdpp Require Import base list numbers.
From Stdlib Require Import ZArith Lia.

Local Open Scope Z_scope.

Module WsDeflate.
Import WsFrame WsStream WsConn.

(** ** Tokens *)

(** ()<>@,;:\ and the double quote, /[]?={} , space and tab. *)
Definition separators : bytes := [40; 41; 60; 62; 64; 44; 59; 58; 92; 34; 47; 91; 93; 63; 61; 123; 125; 32; 9].

Definition tokenByte (b : Z) : bool := negb ((b <? 0x21) || (0x7e <? b) || existsb (Z.eqb b) separators).

Definition validToken (value : bytes) : bool := negb (len value =? 0) && forallb tokenByte value.

(** strings.TrimLeft of spaces and tabs. *)
Fixpoint trimLeft (v : bytes) : bytes :=
  match v with
  | b :: v' => if (b =? 32) || (b =? 9) then trimLeft v' else v
  | [] => []
  end.

(** The value up to the first byte of [set], as strings.IndexAny finds it, and
    the rest. *)
Fixpoint cutAny (set v : bytes) : bytes * bytes :=
  match v with
  | [] => ([], [])
  | b :: v' => if existsb (Z.eqb b) set then ([], v) else let '(a, r) := cutAny set v' in (b :: a, r)
  end.

(** ** The header's grammar *)

(** What comes of reading a header: what it says, or that it is not one, where the
    code returns false; or that the turns allowed were not enough to tell. *)
Inductive outcome (A : Type) : Type := Parsed (a : A) | Refused | Unfinished.
Arguments Parsed {A} a.
Arguments Refused {A}.
Arguments Unfinished {A}.

Definition obind {A B} (f : A -> outcome B) (o : outcome A) : outcome B := match o with Parsed a => f a | Refused => Refused | Unfinished => Unfinished end.
Definition ofOption {A} (o : option A) : outcome A := match o with Some a => Parsed a | None => Refused end.

Record extensionParam : Type := mkParam { p_name : bytes; p_value : bytes; p_hasValue : bool }.

(** The rest of a quoted string, and what it holds. *)
Fixpoint unquote (v acc : bytes) : option (bytes * bytes) :=
  match v with
  | [] => None
  | 34 :: v => Some (acc, v)
  | 92 :: v => match v with [] => None | c :: v => unquote v (acc ++ [c]) end
  | c :: v => unquote v (acc ++ [c])
  end.

(** The value, what follows, and whether it is one. *)
Definition parseParamValue (v : bytes) : bytes * bytes * bool :=
  match v with
  | 34 :: v =>
      match unquote v [] with
      | Some (unquoted, rest) => (unquoted, rest, validToken unquoted)
      | None => ([], [], false)
      end
  | _ => let '(value, rest) := cutAny [44; 59; 32; 9] v in (value, rest, validToken value)
  end.

(** One parameter, the first of its extension or not, and what follows. *)
Definition parseParam (first : bool) (value : bytes) : option (extensionParam * bytes) :=
  let '(name, value) := cutAny [44; 59; 61; 32; 9] (trimLeft value) in
  let value := trimLeft value in
  if negb (validToken name) then None
  else
    match value with
    | 61 :: value =>
        if first then None
        else
          let '(v, value, valid) := parseParamValue (trimLeft value) in
          if valid then Some (mkParam name v true, trimLeft value) else None
    | _ => Some (mkParam name [] false, value)
    end.

(** An extension: its name and its parameters. *)
Fixpoint parseExtension (fuel : nat) (extension : list extensionParam) (value : bytes) : outcome (list extensionParam * bytes) :=
  match fuel with
  | O => Unfinished
  | S fuel =>
      match parseParam (match extension with [] => true | _ => false end) value with
      | None => Refused
      | Some (param, value) =>
          let extension := extension ++ [param] in
          match value with
          | [] => Parsed (extension, value)
          | 44 :: _ => Parsed (extension, value)
          | 59 :: value => parseExtension fuel extension value
          | _ => Refused
          end
      end
  end.

(** The extensions of one header value, with so many turns for each loop. *)
Fixpoint parseValue (fuel : nat) (extensions : list (list extensionParam)) (value : bytes) : outcome (list (list extensionParam)) :=
  match fuel with
  | O => Unfinished
  | S fuel =>
      match value with
      | [] => Parsed extensions
      | _ =>
          match parseExtension (S (length value)) [] value with
          | Refused => Refused
          | Unfinished => Unfinished
          | Parsed (extension, value) =>
              let extensions := extensions ++ [extension] in
              match value with
              | [] => parseValue fuel extensions []
              | _ :: value => match trimLeft value with [] => Refused | _ => parseValue fuel extensions value end
              end
          end
      end
  end.

Fixpoint parseValues (extensions : list (list extensionParam)) (values : list bytes) : outcome (list (list extensionParam)) :=
  match values with
  | [] => Parsed extensions
  | value :: values => obind (fun extensions => parseValues extensions values) (parseValue (length value + 2) extensions value)
  end.

Definition parseExtensions (values : list bytes) : outcome (list (list extensionParam)) := parseValues [] values.

(** ** Numbers *)

Fixpoint digits (v : Z) (s : bytes) : option Z :=
  match s with
  | [] => Some v
  | c :: s => if (48 <=? c) && (c <=? 57) then digits (v * 10 + (c - 48)) s else None
  end.

(** strconv.Atoi: an optional sign and digits, in the range of an int. *)
Definition Atoi (s : bytes) : option Z :=
  let '(sign, d) := match s with 43 :: d => (1, d) | 45 :: d => (-1, d) | _ => (1, s) end in
  match d with
  | [] => None
  | _ => match digits 0 d with
         | Some v => if (- 2 ^ 63 <=? sign * v) && (sign * v <? 2 ^ 63) then Some (sign * v) else None
         | None => None
         end
  end.

Definition parseWindowBits (value : bytes) : Z * bool :=
  match value with
  | [] => (0, false)
  | 48 :: _ => (0, false)
  | _ => match Atoi value with
         | Some bits => (bits, (minWindowBits <=? bits) && (bits <=? maxWindowBits))
         | None => (0, false)
         end
  end.

(** ** The offer and the response *)

Record deflateParams : Type := mkDeflate { dp_windowBits : Z; peerContextTakeover : bool }.

Definition deflateExtension : bytes := str "permessage-deflate".
Definition server_no : bytes := str "server_no_context_takeover".
Definition client_no : bytes := str "client_no_context_takeover".
Definition server_bits : bytes := str "server_max_window_bits".
Definition client_bits : bytes := str "client_max_window_bits".

(** One parameter of an offer, with the names seen before it. *)
Definition offerParam (st : list bytes * deflateParams) (param : extensionParam) : option (list bytes * deflateParams) :=
  let '(seen, params) := st in
  if bool_decide (p_name param ∈ seen) then None
  else
    let seen := p_name param :: seen in
    if bool_decide (p_name param = server_no) || bool_decide (p_name param = client_no) then
      if p_hasValue param then None
      else Some (seen, if bool_decide (p_name param = client_no) then mkDeflate (dp_windowBits params) false else params)
    else if bool_decide (p_name param = server_bits) then
      let '(bits, valid) := parseWindowBits (p_value param) in
      if negb valid then None else Some (seen, mkDeflate bits (peerContextTakeover params))
    else if bool_decide (p_name param = client_bits) then
      if p_hasValue param && negb (parseWindowBits (p_value param)).2 then None else Some (seen, params)
    else None.

Definition isDeflate (head : extensionParam) : bool := bool_decide (p_name head = deflateExtension) && negb (p_hasValue head).

Definition offerParams (extension : list extensionParam) : option deflateParams :=
  match extension with
  | [] => None
  | head :: ps => if isDeflate head then snd <$> foldM offerParam ([], mkDeflate maxWindowBits true) ps else None
  end.

Definition response (params : deflateParams) : bytes :=
  deflateExtension ++ str "; server_no_context_takeover" ++
  (if peerContextTakeover params then [] else str "; client_no_context_takeover") ++
  (if dp_windowBits params =? maxWindowBits then [] else str "; server_max_window_bits=" ++ Itoa (dp_windowBits params)).

(** The first offer there is a response to; [None] is the empty response. *)
Fixpoint firstOffer (extensions : list (list extensionParam)) : option (bytes * deflateParams) :=
  match extensions with
  | [] => None
  | extension :: extensions => match offerParams extension with Some params => Some (response params, params) | None => firstOffer extensions end
  end.

(** [Refused] is the empty response. *)
Definition acceptDeflateOffer (values : list bytes) : outcome (bytes * deflateParams) := obind (fun extensions => ofOption (firstOffer extensions)) (parseExtensions values).

Definition deflateOffer : bytes := deflateExtension ++ str "; client_no_context_takeover; client_max_window_bits".

(** One parameter of a response. *)
Definition responseParam (st : list bytes * deflateParams) (param : extensionParam) : option (list bytes * deflateParams) :=
  let '(seen, params) := st in
  if bool_decide (p_name param ∈ seen) then None
  else
    let seen := p_name param :: seen in
    if bool_decide (p_name param = server_no) || bool_decide (p_name param = client_no) then
      if p_hasValue param then None
      else Some (seen, if bool_decide (p_name param = server_no) then mkDeflate (dp_windowBits params) false else params)
    else if bool_decide (p_name param = server_bits) then
      if negb (parseWindowBits (p_value param)).2 then None else Some (seen, params)
    else if bool_decide (p_name param = client_bits) then
      let '(bits, valid) := parseWindowBits (p_value param) in
      if negb valid then None else Some (seen, mkDeflate bits (peerContextTakeover params))
    else None.

(** [Refused] where ok is false, [Parsed None] where the extension is not in use. *)
Definition acceptDeflateResponse (values : list bytes) : outcome (option deflateParams) :=
  obind (fun extensions =>
    match extensions with
    | [] => Parsed None
    | [head :: ps] =>
        if isDeflate head then
          match foldM responseParam ([], mkDeflate maxWindowBits true) ps with Some (_, params) => Parsed (Some params) | None => Refused end
        else Refused
    | _ => Refused
    end) (parseExtensions values).

(** ** The two ends *)

(** A server's connection and parser once it answered these offers, and its
    answer (negotiateExtensions and upgrade). *)
Definition serverEnd (enableCompression : bool) (max : Z) (frames : bool) (offers : list bytes) : outcome (Connection * Parser * option bytes) :=
  match (match offers with [] => Refused | _ => if enableCompression then acceptDeflateOffer offers else Refused end) with
  | Parsed (extensions, deflate) =>
      Parsed (mkConnection false true (dp_windowBits deflate) false None [] 0 false false,
              mkParser max [] [] 0 noExtra false false frames true (peerContextTakeover deflate), Some extensions)
  | Refused =>
      Parsed (mkConnection false false 0 false None [] 0 false false, mkParser max [] [] 0 noExtra false false frames false false, None)
  | Unfinished => Unfinished
  end.

(** A client's, once it has the server's extensions: [Refused] fails the handshake
    (checkResponse and what follows it). *)
Definition clientEnd (enableCompression : bool) (max : Z) (frames : bool) (extensions : list bytes) : outcome (Connection * Parser) :=
  let accepted :=
    match extensions with
    | [] => Parsed None
    | _ => if negb enableCompression then Refused else acceptDeflateResponse extensions
    end in
  obind (fun deflate =>
    match deflate with
    | Some deflate =>
        Parsed (mkConnection true true (dp_windowBits deflate) false None [] 0 false false,
                mkParser max [] [] 0 noExtra true false frames true (peerContextTakeover deflate))
    | None =>
        Parsed (mkConnection true false 0 false None [] 0 false false, mkParser max [] [] 0 noExtra true false frames false false)
    end) accepted.

(** ** Lengths *)

Lemma trimLeft_length v : (length (trimLeft v) <= length v)%nat.
Proof. induction v as [|b v IH]; cbn; [lia|]. destruct (_ || _); cbn; lia. Qed.

Lemma cutAny_length set v : let '(a, r) := cutAny set v in (length a + length r = length v)%nat.
Proof.
  induction v as [|b v IH]; cbn; [reflexivity|]. destruct (existsb _ set); [reflexivity|]. destruct (cutAny set v) as [a r]. cbn. lia.
Qed.

Lemma unquote_length v acc x r : unquote v acc = Some (x, r) -> (length r < length v)%nat.
Proof.
  remember (length v) as n eqn:E. assert (length v <= n)%nat as Hn by lia. clear E. revert v acc Hn. induction n as [|n IH]; intros v acc Hn; destruct v as [|c v]; cbn in Hn; try discriminate; [lia|].
  assert (forall v' acc', (length v' <= length v)%nat -> unquote v' acc' = Some (x, r) -> (length r < S n)%nat) as H.
  { intros v' acc' Hl Hu. specialize (IH v' acc' ltac:(lia) Hu). lia. }
  cbn [unquote]. intros Hu.
  repeat match type of Hu with
         | (match ?z with _ => _ end) = _ => destruct z; try discriminate
         end; try (now apply H in Hu; cbn; lia); simplify_eq; cbn in *; try lia.
Qed.

Lemma parseParamValue_length v : (length (parseParamValue v).1.2 <= length v)%nat.
Proof.
  assert (forall u, (length (let '(value, rest) := cutAny [44; 59; 32; 9]%Z u in (value, rest, validToken value)).1.2 <= length u)%nat) as Hc.
  { intros u. pose proof (cutAny_length [44; 59; 32; 9] u) as H. destruct (cutAny _ u). cbn. lia. }
  destruct v as [|c v]; [apply Hc|]. destruct (Z.eqb_spec c 34) as [->|Hne].
  - cbn [parseParamValue]. destruct (unquote v []) as [[x r]|] eqn:E; cbn; [|lia]. apply unquote_length in E. lia.
  - assert (parseParamValue (c :: v) = let '(value, rest) := cutAny [44; 59; 32; 9] (c :: v) in (value, rest, validToken value)) as ->; [|apply Hc].
    unfold parseParamValue. destruct c as [|c|c]; try reflexivity. repeat (destruct c as [c|c|]; try reflexivity). congruence.
Qed.

(** A parameter takes bytes away. *)
Lemma parseParam_length first v p r : parseParam first v = Some (p, r) -> (length r < length v)%nat.
Proof.
  unfold parseParam. pose proof (trimLeft_length v) as H1. pose proof (cutAny_length [44; 59; 61; 32; 9] (trimLeft v)) as H2.
  destruct (cutAny _ (trimLeft v)) as [name rest]. destruct (validToken name) eqn:Ev; [|discriminate]. cbn [negb].
  assert (0 < length name)%nat as Hn by (destruct name; [discriminate|cbn; lia]). pose proof (trimLeft_length rest) as H3.
  assert (forall u, Some (mkParam name [] false, trimLeft rest) = Some (p, r) \/
    (length u < length (trimLeft rest))%nat /\ (let '(w, value, valid) := parseParamValue (trimLeft u) in if valid then Some (mkParam name w true, trimLeft value) else None) = Some (p, r) ->
    (length r < length v)%nat) as H.
  { intros u [H|[Hu H]]; [simplify_eq; lia|]. pose proof (parseParamValue_length (trimLeft u)) as H4. pose proof (trimLeft_length u) as H5.
    destruct (parseParamValue (trimLeft u)) as [[w value] valid]. destruct valid; [|discriminate]. simplify_eq. pose proof (trimLeft_length value). cbn in H4. lia. }
  destruct (trimLeft rest) as [|c u] eqn:Er; [intros E; apply (H []); auto|]. destruct (Z.eqb_spec c 61) as [->|Hne].
  - destruct first; [discriminate|]. intros E. apply (H u). right. cbn. split; [lia|exact E].
  - intros E. apply (H u). left. destruct c as [|c|c]; try exact E. repeat (destruct c as [c|c|]; try exact E). congruence.
Qed.

Lemma parseExtension_length fuel ext v x r : parseExtension fuel ext v = Parsed (x, r) -> (length r < length v)%nat.
Proof.
  revert ext v. induction fuel as [|fuel IH]; intros ext v; [discriminate|]. cbn [parseExtension]. destruct (parseParam _ v) as [[p w]|] eqn:E; [|discriminate].
  apply parseParam_length in E. destruct w as [|c w]; [intros; simplify_eq; exact E|].
  assert (Parsed (ext ++ [p], c :: w) = Parsed (x, r) \/ parseExtension fuel (ext ++ [p]) w = Parsed (x, r) -> (length r < length v)%nat) as H.
  { intros [H|H]; [simplify_eq; exact E|]. apply IH in H. cbn in E. lia. }
  intros Hw. apply H. destruct c as [|c|c]; try discriminate Hw. repeat (destruct c as [c|c|]; try discriminate Hw); auto.
Qed.

(** Turns enough are as good as any number, and enough to tell. *)
Lemma parseExtension_enough fuel fuel' ext v :
  (length v < fuel)%nat -> (length v < fuel')%nat -> parseExtension fuel ext v = parseExtension fuel' ext v.
Proof.
  revert fuel' ext v. induction fuel as [|fuel IH]; intros fuel' ext v H H'; [lia|]. destruct fuel' as [|fuel']; [lia|]. cbn [parseExtension].
  destruct (parseParam _ v) as [[p w]|] eqn:E; [|reflexivity]. apply parseParam_length in E. destruct w as [|c w]; [reflexivity|]. cbn in E.
  rewrite (IH fuel' (ext ++ [p]) w) by lia. reflexivity.
Qed.

Lemma parseExtension_tells fuel ext v : (length v < fuel)%nat -> parseExtension fuel ext v <> Unfinished.
Proof.
  revert ext v. induction fuel as [|fuel IH]; intros ext v H; [lia|]. cbn [parseExtension]. destruct (parseParam _ v) as [[p w]|] eqn:E; [|discriminate]. apply parseParam_length in E.
  destruct w as [|c w]; [discriminate|]. cbn in E. specialize (IH (ext ++ [p]) w ltac:(lia)). repeat case_match; congruence.
Qed.

Lemma parseValue_enough fuel fuel' exts v : (length v + 1 < fuel)%nat -> (length v + 1 < fuel')%nat -> parseValue fuel exts v = parseValue fuel' exts v.
Proof.
  revert fuel' exts v. induction fuel as [|fuel IH]; intros fuel' exts v H H'; [lia|]. destruct fuel' as [|fuel']; [lia|]. cbn [parseValue].
  destruct v as [|b v]; [reflexivity|]. destruct (parseExtension _ [] (b :: v)) as [[x r]| |] eqn:E; [|reflexivity..]. apply parseExtension_length in E. cbn [length] in *.
  destruct r as [|c r]; [apply IH; cbn; lia|]. cbn in E. destruct (trimLeft r); [reflexivity|]. apply IH; lia.
Qed.

Lemma parseValue_tells fuel exts v : (length v + 1 < fuel)%nat -> parseValue fuel exts v <> Unfinished.
Proof.
  revert exts v. induction fuel as [|fuel IH]; intros exts v H; [lia|]. cbn [parseValue]. destruct v as [|b v]; [discriminate|].
  pose proof (parseExtension_tells (S (length (b :: v))) [] (b :: v) ltac:(lia)) as Ht. destruct (parseExtension _ [] (b :: v)) as [[x r]| |] eqn:E; [|discriminate|congruence]. apply parseExtension_length in E. cbn [length] in *.
  destruct r as [|c r]; [apply IH; cbn; lia|]. cbn in E. destruct (trimLeft r); [discriminate|]. apply IH. lia.
Qed.

(** ** What an offer may hold *)

Definition goodParam (p : extensionParam) : bool :=
  if bool_decide (p_name p = server_no) || bool_decide (p_name p = client_no) then negb (p_hasValue p)
  else if bool_decide (p_name p = server_bits) then (parseWindowBits (p_value p)).2
  else if bool_decide (p_name p = client_bits) then negb (p_hasValue p) || (parseWindowBits (p_value p)).2
  else false.

(** An offer of permessage-deflate with no parameter twice, unknown or with a
    value it cannot have. *)
Definition acceptable (extension : list extensionParam) : bool :=
  match extension with
  | [] => false
  | head :: ps => isDeflate head && bool_decide (NoDup (p_name <$> ps)) && forallb goodParam ps
  end.

(** The bits asked of the server, and whether the client was asked for none of
    its context. *)
Fixpoint askedBits (bits : Z) (ps : list extensionParam) : Z :=
  match ps with
  | [] => bits
  | p :: ps => if bool_decide (p_name p = server_bits) then (parseWindowBits (p_value p)).1 else askedBits bits ps
  end.

Definition agreed (extension : list extensionParam) : deflateParams :=
  mkDeflate (askedBits maxWindowBits (tail extension)) (negb (existsb (fun p => bool_decide (p_name p = client_no)) (tail extension))).

Lemma askedBits_absent b ps : server_bits ∉ (p_name <$> ps) -> askedBits b ps = b.
Proof.
  induction ps as [|p ps IH]; cbn; intros H; [reflexivity|]. apply not_elem_of_cons in H as [H1 H2]. rewrite bool_decide_eq_false_2 by congruence. auto.
Qed.

Definition unseen (seen : list bytes) (ps : list extensionParam) : bool := forallb (fun p => negb (bool_decide (p_name p ∈ seen))) ps.

Lemma unseen_cons x seen ps : unseen (x :: seen) ps = negb (bool_decide (x ∈ (p_name <$> ps))) && unseen seen ps.
Proof.
  induction ps as [|p ps IH]; [reflexivity|]. cbn [unseen forallb]. fold (unseen (x :: seen) ps). fold (unseen seen ps). rewrite IH, fmap_cons.
  rewrite (bool_decide_ext (p_name p ∈ x :: seen) (p_name p = x \/ p_name p ∈ seen)) by apply elem_of_cons.
  rewrite (bool_decide_ext (x ∈ p_name p :: _) (p_name p = x \/ x ∈ (p_name <$> ps))) by (rewrite elem_of_cons; naive_solver).
  rewrite !bool_decide_or, !negb_orb. destruct (bool_decide (p_name p = x)), (bool_decide (x ∈ _)), (bool_decide (p_name p ∈ seen)), (unseen seen ps); reflexivity.
Qed.

Lemma NoDup_consb (x : bytes) l : bool_decide (NoDup (x :: l)) = negb (bool_decide (x ∈ l)) && bool_decide (NoDup l).
Proof.
  rewrite (bool_decide_ext (NoDup (x :: l)) (x ∉ l /\ NoDup l)) by apply list.NoDup_cons. now rewrite bool_decide_and, bool_decide_not.
Qed.

(** Each parameter in turn is all of them at once. *)
Lemma foldM_offer seen bits pct ps :
  snd <$> foldM offerParam (seen, mkDeflate bits pct) ps =
  if bool_decide (NoDup (p_name <$> ps)) && unseen seen ps && forallb goodParam ps
  then Some (mkDeflate (askedBits bits ps) (pct && negb (existsb (fun p => bool_decide (p_name p = client_no)) ps))) else None.
Proof.
  revert seen bits pct. induction ps as [|p ps IH]; intros seen bits pct; cbn [foldM fmap option_fmap option_map snd].
  { rewrite bool_decide_eq_true_2 by constructor. cbn. now rewrite andb_true_r. }
  rewrite fmap_cons. cbn [unseen forallb existsb askedBits]. fold (unseen seen ps). unfold offerParam at 1.
  destruct (bool_decide (p_name p ∈ seen)) eqn:Hs; cbn [negb andb]; [now rewrite andb_false_r|].
  assert (forall b c, snd <$> foldM offerParam (p_name p :: seen, mkDeflate b c) ps =
    if bool_decide (NoDup (p_name p :: (p_name <$> ps))) && unseen seen ps && forallb goodParam ps
    then Some (mkDeflate (askedBits b ps) (c && negb (existsb (fun p => bool_decide (p_name p = client_no)) ps))) else None) as Hi.
  { intros b c. rewrite IH, unseen_cons, NoDup_consb. destruct (bool_decide (NoDup (p_name <$> ps))), (bool_decide (p_name p ∈ (p_name <$> ps))), (unseen seen ps); reflexivity. }
  unfold goodParam at 1. set (good := forallb goodParam ps) in *.
  destruct (bool_decide (p_name p = server_no) || bool_decide (p_name p = client_no)) eqn:Ef.
  - assert (p_name p <> server_bits) as Hb by (apply orb_true_iff in Ef as [Ef|Ef]; apply bool_decide_eq_true in Ef; rewrite Ef; vm_compute; congruence).
    rewrite (bool_decide_eq_false_2 _ Hb). destruct (p_hasValue p); cbn [negb andb]; [now rewrite andb_false_r|]. cbn [dp_windowBits peerContextTakeover].
    destruct (bool_decide (p_name p = client_no)); rewrite Hi; cbn [orb negb]; [now rewrite andb_false_r|reflexivity].
  - apply orb_false_iff in Ef as [_ Ec]. rewrite Ec. cbn [orb]. destruct (bool_decide (p_name p = server_bits)) eqn:Eb.
    + destruct (parseWindowBits (p_value p)) as [b valid]. cbn [fst snd]. destruct valid; cbn [negb andb]; [|now rewrite andb_false_r]. rewrite Hi. cbn [peerContextTakeover].
      destruct (bool_decide (NoDup (p_name p :: (p_name <$> ps)))) eqn:En; [|reflexivity]. apply bool_decide_eq_true in En, Eb. apply list.NoDup_cons in En as [En _]. rewrite Eb in En.
      now rewrite askedBits_absent by exact En.
    + destruct (bool_decide (p_name p = client_bits)); [|cbn [andb]; now rewrite andb_false_r]. destruct (p_hasValue p); cbn [negb orb andb].
      * destruct (parseWindowBits (p_value p)).2; cbn [negb andb]; [apply Hi|now rewrite andb_false_r].
      * apply Hi.
Qed.

Lemma offerParams_spec ext : offerParams ext = if acceptable ext then Some (agreed ext) else None.
Proof.
  destruct ext as [|head ps]; [reflexivity|]. unfold offerParams, acceptable, agreed. cbn [tail]. destruct (isDeflate head); [|reflexivity]. cbn [andb].
  rewrite foldM_offer. assert (unseen [] ps = true) as ->; [|now rewrite andb_true_r].
  apply forallb_forall. intros p _. rewrite bool_decide_eq_false_2 by apply not_elem_of_nil. reflexivity.
Qed.

Lemma agreed_bits ext : acceptable ext = true -> minWindowBits <= dp_windowBits (agreed ext) <= maxWindowBits.
Proof.
  destruct ext as [|head ps]; [discriminate|]. unfold acceptable, agreed. cbn [tail dp_windowBits]. rewrite !andb_true_iff. intros [_ Hg].
  assert (forall b, minWindowBits <= b <= maxWindowBits -> minWindowBits <= askedBits b ps <= maxWindowBits) as H; [|apply H; vm_compute; split; congruence].
  induction ps as [|p ps IH]; intros b Hb; cbn [askedBits]; [exact Hb|]. cbn [forallb] in Hg. apply andb_true_iff in Hg as [Hp Hg].
  case_bool_decide as E; [|now apply IH]. unfold goodParam in Hp. rewrite E in Hp. rewrite !bool_decide_eq_false_2 in Hp by (vm_compute; congruence). cbn [orb] in Hp.
  rewrite bool_decide_eq_true_2 in Hp by reflexivity. unfold parseWindowBits in *.
  assert (forall o : option Z, (match o with Some bits => (bits, (minWindowBits <=? bits) && (bits <=? maxWindowBits)) | None => (0, false) end).2 = true ->
    minWindowBits <= (match o with Some bits => (bits, (minWindowBits <=? bits) && (bits <=? maxWindowBits)) | None => (0, false) end).1 <= maxWindowBits) as Ho.
  { intros [x|]; cbn; [|discriminate]. rewrite andb_true_iff, !Z.leb_le. auto. }
  destruct (p_value p) as [|c v]; [discriminate|]. destruct c as [|c|c]; try (now apply Ho). repeat (destruct c as [c|c|]; try (now apply Ho)). discriminate.
Qed.

Lemma firstOffer_spec exts : firstOffer exts = match List.find acceptable exts with Some e => Some (response (agreed e), agreed e) | None => None end.
Proof. induction exts as [|e exts IH]; cbn; [reflexivity|]. rewrite offerParams_spec. now destruct (acceptable e). Qed.

(** ** The header written out *)

Definition renderParam (p : extensionParam) : bytes := p_name p ++ (if p_hasValue p then 61 :: p_value p else []).

Fixpoint renderExtension (ps : list extensionParam) : bytes :=
  match ps with
  | [] => []
  | [p] => renderParam p
  | p :: ps => renderParam p ++ 59 :: 32 :: renderExtension ps
  end.

Fixpoint renderExtensions (es : list (list extensionParam)) : bytes :=
  match es with
  | [] => []
  | [e] => renderExtension e
  | e :: es => renderExtension e ++ 44 :: 32 :: renderExtensions es
  end.

Definition param_ok (first : bool) (p : extensionParam) : bool :=
  validToken (p_name p) && (if p_hasValue p then negb first && validToken (p_value p) else bool_decide (p_value p = [])).

Definition extension_ok (e : list extensionParam) : bool :=
  match e with [] => false | head :: ps => param_ok true head && forallb (param_ok false) ps end.

(** What follows a parameter. *)
Definition after (rest : bytes) : Prop := rest = [] \/ exists r, rest = 44 :: r \/ rest = 59 :: r.

Lemma token_clear t b : forallb tokenByte t = true -> In b t -> existsb (Z.eqb b) separators = false /\ 0x21 <= b <= 0x7e.
Proof.
  intros Ht Hb. rewrite forallb_forall in Ht. specialize (Ht b Hb). unfold tokenByte in Ht. rewrite negb_true_iff, !orb_false_iff, !Z.ltb_ge in Ht. tauto.
Qed.

Lemma cutAny_token set t rest :
  forallb tokenByte t = true -> (forall b, In b set -> existsb (Z.eqb b) separators = true) ->
  (rest = [] \/ exists b r, rest = b :: r /\ existsb (Z.eqb b) set = true) -> cutAny set (t ++ rest) = (t, rest).
Proof.
  intros Ht Hset Hrest. induction t as [|b t IH]; cbn [app cutAny].
  - destruct Hrest as [->|(b & r & -> & Hb)]; [reflexivity|]. cbn. now rewrite Hb.
  - destruct (token_clear (b :: t) b Ht ltac:(now left)) as [Hb _]. cbn [forallb] in Ht. apply andb_true_iff in Ht as [_ Ht]. rewrite (IH Ht).
    assert (existsb (Z.eqb b) set = false) as ->; [|reflexivity]. apply not_true_iff_false. intros He. apply existsb_exists in He as (x & Hx & E).
    apply Z.eqb_eq in E. subst x. rewrite (Hset b Hx) in Hb. discriminate.
Qed.

Lemma trimLeft_token t rest : validToken t = true -> trimLeft (t ++ rest) = t ++ rest.
Proof.
  unfold validToken. rewrite andb_true_iff. intros [Hl Ht]. destruct t as [|b t]; [discriminate|]. cbn.
  destruct (token_clear (b :: t) b Ht ltac:(now left)) as [_ Hb]. rewrite !(proj2 (Z.eqb_neq b _)) by lia. reflexivity.
Qed.

Lemma trimLeft_after rest : after rest -> trimLeft rest = rest.
Proof. intros [->|(r & [-> | ->])]; reflexivity. Qed.

Lemma parseParamValue_token t rest : validToken t = true -> after rest -> parseParamValue (t ++ rest) = (t, rest, true).
Proof.
  intros Hv Hr. assert (cutAny [44; 59; 32; 9] (t ++ rest) = (t, rest)) as Hc.
  { apply cutAny_token; [now apply andb_true_iff in Hv as [_ Hv]| |].
    - intros b Hb. cbn in Hb. destruct Hb as [<-|[<-|[<-|[<-|[]]]]]; reflexivity.
    - destruct Hr as [->|(r & [-> | ->])]; [now left|right; now exists 44, r|right; now exists 59, r]. }
  assert (parseParamValue (t ++ rest) = let '(value, rest) := cutAny [44; 59; 32; 9] (t ++ rest) in (value, rest, validToken value)) as ->; [|now rewrite Hc, Hv].
  apply andb_true_iff in Hv as [Hl Ht]. destruct t as [|c t]; [discriminate|]. destruct (token_clear (c :: t) c Ht ltac:(now left)) as [Hs _].
  assert (c <> 34) as Hne by (intros ->; discriminate Hs). cbn [app]. unfold parseParamValue.
  destruct c as [|c|c]; try reflexivity. repeat (destruct c as [c|c|]; try reflexivity). congruence.
Qed.

Lemma parseParam_render first p rest (sp : bool) :
  param_ok first p = true -> after rest -> parseParam first ((if sp then [32] else []) ++ renderParam p ++ rest) = Some (p, rest).
Proof.
  intros Hp Hr. unfold param_ok in Hp. apply andb_true_iff in Hp as [Hn Hv]. unfold parseParam, renderParam. rewrite <- app_assoc.
  set (tl := (if p_hasValue p then 61 :: p_value p else []) ++ rest).
  assert (trimLeft ((if sp then [32] else []) ++ p_name p ++ tl) = p_name p ++ tl) as ->.
  { destruct sp; cbn [app]; [|now apply trimLeft_token]. change (trimLeft (32 :: p_name p ++ tl)) with (trimLeft (p_name p ++ tl)). now apply trimLeft_token. }
  rewrite (cutAny_token _ (p_name p) tl).
  - rewrite Hn. cbn [negb]. unfold tl. destruct p as [name v [|]]; cbn [p_name p_value p_hasValue app] in *.
    + apply andb_true_iff in Hv as [Hf Hv]. apply negb_true_iff in Hf. subst first. change (trimLeft (61 :: v ++ rest)) with (61 :: v ++ rest). cbv iota.
      rewrite trimLeft_token by exact Hv. rewrite parseParamValue_token by auto. now rewrite trimLeft_after.
    + apply bool_decide_eq_true in Hv. subst v. rewrite trimLeft_after by exact Hr. destruct Hr as [->|(r & [-> | ->])]; reflexivity.
  - now apply andb_true_iff in Hn as [_ Hn].
  - intros b Hb. cbn in Hb. destruct Hb as [<-|[<-|[<-|[<-|[<-|[]]]]]]; reflexivity.
  - unfold tl. destruct (p_hasValue p); cbn [app]; [right; now exists 61, (p_value p ++ rest)|].
    destruct Hr as [->|(r & [-> | ->])]; [now left|right; now exists 44, r|right; now exists 59, r].
Qed.

Definition ends (rest : bytes) : Prop := rest = [] \/ exists r, rest = 44 :: r.

Lemma parseExtension_render fuel ext ps rest (sp : bool) :
  ends rest -> ps <> [] -> (length ps <= fuel)%nat ->
  match ps with [] => True | p :: ps => param_ok (match ext with [] => true | _ => false end) p = true /\ forallb (param_ok false) ps = true end ->
  parseExtension fuel ext ((if sp then [32] else []) ++ renderExtension ps ++ rest) = Parsed (ext ++ ps, rest).
Proof.
  intros Hr. revert fuel ext sp. induction ps as [|p ps IH]; intros fuel ext sp Hne Hf Hok; [congruence|]. destruct Hok as [Hp Hps].
  destruct fuel as [|fuel]; [cbn in Hf; lia|]. cbn [parseExtension]. destruct ps as [|q ps].
  - cbn [renderExtension]. rewrite parseParam_render; [|exact Hp|destruct Hr as [->|(r & ->)]; [now left|right; eauto]]. destruct Hr as [->|(r & ->)]; reflexivity.
  - change (renderExtension (p :: q :: ps)) with (renderParam p ++ 59 :: 32 :: renderExtension (q :: ps)). rewrite <- app_assoc.
    rewrite parseParam_render; [|exact Hp|right; eauto]. cbn [app]. change (32 :: renderExtension (q :: ps) ++ rest) with ((if true then [32] else []) ++ renderExtension (q :: ps) ++ rest).
    rewrite IH; [now rewrite <- app_assoc|discriminate|cbn in *; lia|]. cbn [forallb] in Hps. apply andb_true_iff in Hps as [Hq Hps]. destruct ext; auto.
Qed.

Lemma renderExtension_length ps : forallb (fun p => validToken (p_name p)) ps = true -> (length ps <= length (renderExtension ps))%nat.
Proof.
  induction ps as [|p ps IH]; intros H; [cbn; lia|]. cbn [forallb] in H. apply andb_true_iff in H as [Hp H]. specialize (IH H).
  assert (0 < length (renderParam p))%nat as Hl by (unfold renderParam; rewrite length_app; destruct (p_name p); [discriminate|cbn; lia]).
  destruct ps as [|q ps]; [cbn; lia|]. change (renderExtension (p :: q :: ps)) with (renderParam p ++ 59 :: 32 :: renderExtension (q :: ps)).
  rewrite length_app. cbn [length] in *. lia.
Qed.

Lemma names_ok ps : forallb (param_ok false) ps = true -> forallb (fun p => validToken (p_name p)) ps = true.
Proof. rewrite !forallb_forall. intros H p Hp. specialize (H p Hp). now apply andb_true_iff in H as [H _]. Qed.

Lemma parseValue_render fuel acc es (sp : bool) :
  (sp = true -> es <> []) -> forallb extension_ok es = true -> (length es + 1 <= fuel)%nat ->
  parseValue fuel acc ((if sp then [32] else []) ++ renderExtensions es) = Parsed (acc ++ es).
Proof.
  revert fuel acc sp. induction es as [|e es IH]; intros fuel acc sp Hsp Hok Hf.
  { destruct sp; [now destruct Hsp|]. destruct fuel; [lia|]. cbn. now rewrite app_nil_r. }
  cbn [forallb] in Hok. apply andb_true_iff in Hok as [He Hok]. destruct e as [|head ps]; [discriminate|]. cbn [extension_ok] in He. apply andb_true_iff in He as [Hh Hps].
  assert (forall rest, ends rest -> parseExtension (S (length ((if sp then [32] else []) ++ renderExtension (head :: ps) ++ rest))) []
    ((if sp then [32] else []) ++ renderExtension (head :: ps) ++ rest) = Parsed (head :: ps, rest)) as Hx.
  { intros rest Hr. rewrite parseExtension_render; auto. rewrite !length_app. pose proof (renderExtension_length (head :: ps)) as Hl.
    cbn [forallb] in Hl. rewrite names_ok in Hl by exact Hps. unfold param_ok in Hh. apply andb_true_iff in Hh as [Hh _]. rewrite Hh in Hl. specialize (Hl eq_refl). lia. }
  assert (exists b r, renderExtension (head :: ps) = b :: r) as (b & r & Eb).
  { assert (exists c n, p_name head = c :: n) as (c & n & En) by (unfold param_ok in Hh; destruct (p_name head); [discriminate|eauto]).
    destruct ps; cbn [renderExtension]; unfold renderParam; rewrite En; cbn; eauto. }
  destruct fuel as [|fuel]; [cbn in Hf; lia|]. destruct es as [|e2 es].
  - cbn [renderExtensions]. specialize (Hx [] ltac:(now left)). rewrite app_nil_r in Hx. set (v := _ ++ _) in *. cbn [parseValue].
    destruct v as [|c v'] eqn:Ev; [unfold v in Ev; rewrite Eb in Ev; now destruct sp|]. rewrite Hx. destruct fuel; [cbn in Hf; lia|reflexivity].
  - change (renderExtensions ((head :: ps) :: e2 :: es)) with (renderExtension (head :: ps) ++ 44 :: 32 :: renderExtensions (e2 :: es)).
    specialize (Hx (44 :: 32 :: renderExtensions (e2 :: es)) ltac:(right; eauto)). set (v := _ ++ renderExtension (head :: ps) ++ _) in *. cbn [parseValue].
    destruct v as [|c v'] eqn:Ev; [unfold v in Ev; rewrite Eb in Ev; now destruct sp|]. rewrite Hx.
    specialize (IH fuel (acc ++ [head :: ps]) true ltac:(discriminate) Hok ltac:(cbn in *; lia)). cbn [app] in IH.
    assert (trimLeft (32 :: renderExtensions (e2 :: es)) <> []) as Ht.
    { cbn [trimLeft Z.eqb orb]. cbn [forallb] in Hok. apply andb_true_iff in Hok as [He2 _]. destruct e2 as [|h2 ps2]; [discriminate|]. cbn [extension_ok] in He2.
      apply andb_true_iff in He2 as [H2 _]. unfold param_ok in H2. apply andb_true_iff in H2 as [H2 _].
      assert (exists tl, renderExtensions ((h2 :: ps2) :: es) = p_name h2 ++ tl) as (tl & ->).
      { destruct es; destruct ps2; cbn [renderExtensions renderExtension]; unfold renderParam; rewrite <- ?app_assoc; eauto. }
      change ((32 =? 32) || (32 =? 9)) with true. cbv iota. rewrite trimLeft_token by exact H2. destruct (p_name h2); discriminate. }
    destruct (trimLeft (32 :: _)); [congruence|]. rewrite IH. now rewrite <- app_assoc.
Qed.

Lemma response_accepted params :
  minWindowBits <= dp_windowBits params <= maxWindowBits -> acceptDeflateResponse [response params] = Parsed (Some (mkDeflate maxWindowBits false)).
Proof.
  destruct params as [bits pct]. unfold minWindowBits, maxWindowBits. cbn [dp_windowBits]. intros Hb.
  assert (bits = 8 \/ bits = 9 \/ bits = 10 \/ bits = 11 \/ bits = 12 \/ bits = 13 \/ bits = 14 \/ bits = 15) as Hc by lia.
  repeat (destruct Hc as [->|Hc]; [destruct pct; vm_compute; reflexivity|]). subst bits. destruct pct; vm_compute; reflexivity.
Qed.

(** ** Properties *)

(** Whatever a client offers, what the server answers is an answer a client accepts; both then hold that the server keeps no
    context, that the server's window is one of DEFLATE's, and the client's own is not limited. *)
Theorem offers_agree values resp params :
  acceptDeflateOffer values = Parsed (resp, params) ->
  minWindowBits <= dp_windowBits params <= maxWindowBits /\
  acceptDeflateResponse [resp] = Parsed (Some (mkDeflate maxWindowBits false)).
Proof.
  unfold acceptDeflateOffer. destruct (parseExtensions values) as [exts| |]; [|discriminate..]. cbn [obind]. rewrite firstOffer_spec.
  destruct (List.find acceptable exts) as [e|] eqn:E; [|discriminate]. apply find_some in E as [_ E]. intros [= <- <-]. pose proof (agreed_bits e E) as Hb.
  split; [exact Hb|now apply response_accepted].
Qed.

(** The server answers the first offer of permessage-deflate in which no parameter is repeated, unknown or of a value it cannot
    have, with the window it asks for and without the client's context if it offers that; and nothing if there is none. *)
Theorem offer_exact values :
  acceptDeflateOffer values =
    obind (fun exts => match List.find acceptable exts with Some e => Parsed (response (agreed e), agreed e) | None => Refused end) (parseExtensions values).
Proof.
  unfold acceptDeflateOffer. destruct (parseExtensions values) as [exts| |]; [|reflexivity..]. cbn [obind]. rewrite firstOffer_spec. now destruct (List.find acceptable exts).
Qed.

(** Extensions written in the grammar of RFC 6455 section 9.1 are parsed to what they say. *)
Theorem extensions_roundtrip es : forallb extension_ok es = true -> parseExtensions [renderExtensions es] = Parsed es.
Proof.
  intros Hok. unfold parseExtensions. cbn [parseValues]. change (renderExtensions es) with ((if false then [32] else []) ++ renderExtensions es) at 2.
  rewrite parseValue_render; [reflexivity|discriminate|exact Hok|]. clear - Hok. enough (length es <= length (renderExtensions es))%nat by lia.
  induction es as [|e es IH]; [cbn; lia|]. cbn [forallb] in Hok. apply andb_true_iff in Hok as [He Hok]. specialize (IH Hok).
  assert (0 < length (renderExtension e))%nat as Hl.
  { destruct e as [|head ps]; [discriminate|]. cbn [extension_ok] in He. apply andb_true_iff in He as [Hh Hps]. unfold param_ok in Hh. apply andb_true_iff in Hh as [Hh _].
    pose proof (renderExtension_length (head :: ps)) as Hl. cbn [forallb] in Hl. rewrite Hh, names_ok in Hl by exact Hps. specialize (Hl eq_refl). cbn in *. lia. }
  destruct es as [|e2 es]; [cbn; lia|]. change (renderExtensions (e :: e2 :: es)) with (renderExtension e ++ 44 :: 32 :: renderExtensions (e2 :: es)). rewrite length_app. cbn [length] in *. lia.
Qed.

(** C40: the reading of Sec-WebSocket-Extensions ends for any values a peer sends: it finds the extensions or refuses
    them, each loop within as many turns as the value has bytes and two more, and with more turns it finds the same. *)
Theorem parse_ends values :
  parseExtensions values <> Unfinished /\
  (forall value extensions extension fuel, (length value + 2 <= fuel)%nat ->
    parseValue fuel extensions value <> Unfinished /\ parseValue fuel extensions value = parseValue (length value + 2) extensions value /\
    parseExtension fuel extension value <> Unfinished /\ parseExtension fuel extension value = parseExtension (S (length value)) extension value).
Proof.
  split.
  - unfold parseExtensions. generalize ([] : list (list extensionParam)). induction values as [|v values IH]; intros exts; [discriminate|]. cbn [parseValues]. pose proof (parseValue_tells (length v + 2) exts v ltac:(lia)) as H. destruct (parseValue _ exts v); [apply IH|discriminate|congruence].
  - intros value extensions extension fuel Hf. splits; [apply parseValue_tells|apply parseValue_enough|apply parseExtension_tells|apply parseExtension_enough]; lia.
Qed.

(** A window size written with a sign, and zeros after it, is taken, though the grammar has neither. *)
Theorem window_bits_signed : parseWindowBits (str "+09") = (9, true) /\ parseWindowBits (str "09") = (0, false).
Proof. split; reflexivity. Qed.

(** A client and a server of this package, compression on or off at each, end up with connections and parsers that fit each
    other: each compresses exactly if the other's parser expects it, neither counts on the other's context, and windows are DEFLATE's. *)
Theorem ends_match clientOn serverOn maxC maxS framesC framesS :
  exists sc sp reply cc cp, serverEnd serverOn maxS framesS (if clientOn : bool then [deflateOffer] else []) = Parsed (sc, sp, reply) /\
    clientEnd clientOn maxC framesC (match reply with Some r => [r] | None => [] end) = Parsed (cc, cp) /\
    compress cc = clientOn && serverOn /\ compress sc = compress cc /\ deflate sp = compress cc /\ deflate cp = compress sc /\
    contextTakeover sp = false /\ contextTakeover cp = false /\ started sp /\ started cp /\
    fromServer sp = negb (client cc) /\ fromServer cp = negb (client sc) /\ maxMessageBytes sp = maxS /\ maxMessageBytes cp = maxC /\
    (compress cc = true -> minWindowBits <= windowBits cc <= maxWindowBits /\ minWindowBits <= windowBits sc <= maxWindowBits).
Proof.
  unfold serverEnd. assert (acceptDeflateOffer [deflateOffer] = Parsed (response (mkDeflate 15 false), mkDeflate 15 false)) as E by (vm_compute; reflexivity).
  destruct clientOn, serverOn; rewrite ?E; cbn [dp_windowBits peerContextTakeover]; do 5 eexists; (split; [reflexivity|]); unfold clientEnd; cbn [negb];
    rewrite ?response_accepted by (vm_compute; split; congruence); (split; [reflexivity|]); cbn [dp_windowBits peerContextTakeover];
    repeat split; try discriminate; vm_compute; congruence.
Qed.

(** ** Their use *)

Lemma offers_agree_witness :
  acceptDeflateResponse [str "permessage-deflate; server_no_context_takeover; client_no_context_takeover"] = Parsed (Some (mkDeflate maxWindowBits false)).
Proof. eapply (offers_agree [deflateOffer]). vm_compute. reflexivity. Defined.

Definition sampleExtensions : list (list extensionParam) :=
  [[mkParam (str "foo") [] false]; [mkParam deflateExtension [] false; mkParam server_bits (str "10") true; mkParam client_bits [] false]].

Lemma extensions_roundtrip_witness : parseExtensions [renderExtensions sampleExtensions] = Parsed sampleExtensions.
Proof. apply (extensions_roundtrip sampleExtensions). vm_compute. reflexivity. Defined.

Lemma parse_ends_witness : parseExtensions [deflateOffer; str "a; b"] <> Unfinished /\ parseValue 100 [] deflateOffer = parseValue (length deflateOffer + 2) [] deflateOffer.
Proof. destruct (parse_ends [deflateOffer; str "a; b"]) as [H1 H2]. split; [exact H1|]. apply (H2 deflateOffer [] [] 100%nat). vm_compute. lia. Defined.

End WsDeflate.
