(* ===== verification/Strtab.v ===== *)
(** * Fixed string tables (src/internal/strtab/strtab.go)

    The open-addressed tables of field names: [New] puts every key at the first
    free slot from its hash on, [Get] walks the same way. The hash is the
    source's, of the length and three bytes of a key. [None] is a panic, of an
    empty key or an index out of range, or a walk that does not end; the
    theorem shows that a table with free slots is a map from its keys to their
    first values. *)

From S2P Require Import Prelude.
From stdpp Require Import base list numbers.
From Stdlib Require Import ZArith Lia.

Local Open Scope Z_scope.
Local Open Scope go_scope.

Module Strtab.

(** [s[i]] of a string, in range for the indices [hash] uses. *)
Definition byteAt (s : bytes) (i : Z) : Z := nth (Z.to_nat i) s 0.

Definition hash (s : bytes) : Z :=
  let n := len s in
  let h := ((u32 (u32 n .<< 24) .| u32 (u32 (byteAt s 0) .<< 16)) .| u32 (u32 (byteAt s (n .>> 1)) .<< 8)) .| u32 (byteAt s (n - 1)) in
  let h := u32 (h * 0x9e3779b1) in
  h .^ (h .>> 15).

(** [for size < 4*len(keys) { size *= 2 }]: 64 turns are more than a length takes. *)
Fixpoint sizeFor (fuel : nat) (size want : Z) : Z :=
  match fuel with
  | O => size
  | S fuel => if size <? want then sizeFor fuel (size * 2) want else size
  end.

Section Table.
Context {V : Type} (zero : V).

Record slot : Type := mkSlot { key : bytes; val : V; used : bool }.

Record Table : Type := mkTable { slots : list slot; mask : Z }.

(** The walk of [New] to the slot of [k], which it takes if it is free. *)
Fixpoint place (fuel : nat) (t : Table) (k : bytes) (v : V) (j : Z) : option Table :=
  match fuel with
  | O => None
  | S fuel =>
      match slots t !! Z.to_nat j with
      | None => None
      | Some s =>
          if negb (used s) then Some (mkTable (<[Z.to_nat j := mkSlot k v true]> (slots t)) (mask t))
          else if bool_decide (key s = k) then Some t
          else place fuel t k v (u32 (j + 1) .& mask t)
      end
  end.

Fixpoint fill (t : Table) (kvs : list (bytes * V)) : option Table :=
  match kvs with
  | [] => Some t
  | (k, v) :: kvs =>
      if bool_decide (k = []) then None
      else match place (length (slots t)) t k v (hash k .& mask t) with None => None | Some t => fill t kvs end
  end.

(** [keys] with [vals[i]] the value of [keys[i]]. *)
Definition New (kvs : list (bytes * V)) : option Table :=
  let size := sizeFor 64 16 (4 * len kvs) in
  fill (mkTable (replicate (Z.to_nat size) (mkSlot [] zero false)) (u32 (size - 1))) kvs.

Fixpoint walk (fuel : nat) (t : Table) (k : bytes) (j : Z) : option (V * bool) :=
  match fuel with
  | O => None
  | S fuel =>
      match slots t !! Z.to_nat j with
      | None => None
      | Some s =>
          if negb (used s) then Some (zero, false)
          else if bool_decide (key s = k) then Some (val s, true)
          else walk fuel t k (u32 (j + 1) .& mask t)
      end
  end.

Definition Get (t : Table) (k : bytes) : option (V * bool) :=
  if bool_decide (k = []) then Some (zero, false) else walk (length (slots t)) t k (hash k .& mask t).

(** ** What a table holds *)

(** The first value a list gives a key. *)
Fixpoint first (kvs : list (bytes * V)) (k : bytes) : option V :=
  match kvs with
  | [] => None
  | (k', v) :: kvs => if bool_decide (k' = k) then Some v else first kvs k
  end.

(** How many slots are used. *)
Fixpoint taken (l : list slot) : Z :=
  match l with [] => 0 | s :: l => (if used s then 1 else 0) + taken l end.

Lemma taken_all l : (forall s, s ∈ l -> used s = true) -> taken l = len l.
Proof.
  induction l as [|s l IH]; intros H; cbn; [reflexivity|]. rewrite (H s), IH, len_cons; [lia| |left]. intros s' Hs'. apply H. now right.
Qed.

Lemma taken_insert l i s s' : l !! i = Some s -> used s = false -> taken (<[i := s']> l) <= taken l + 1.
Proof.
  revert i. induction l as [|x l IH]; intros [|i] Hi Hu; try discriminate.
  - injection Hi as ->. cbn. rewrite Hu. destruct (used s'); lia.
  - change (<[S i := s']> (x :: l)) with (x :: <[i := s']> l). cbn [taken]. specialize (IH i Hi Hu). lia.
Qed.

Lemma taken_none n : taken (replicate n (mkSlot [] zero false)) = 0.
Proof. induction n as [|n IH]; cbn; lia. Qed.

Section Sized.
Context (m : Z) (Hm : 0 < m <= 31).
Let N := 2 ^ m.

Lemma N_bounds : 2 <= N < 2 ^ 32.
Proof. unfold N. split; [apply (Z.pow_le_mono_r 2 1 m); lia|apply Z.pow_lt_mono_r; lia]. Qed.

Lemma land_N x : x .& (N - 1) = x mod N.
Proof. apply land_low_bits. lia. Qed.

Lemma next_slot j : 0 <= j < N -> u32 (j + 1) .& (N - 1) = (j + 1) mod N.
Proof.
  intros Hj. pose proof N_bounds as HN. rewrite land_N. unfold u32. destruct (Z.eq_dec (j + 1) (2 ^ 32)) as [E|]; [|rewrite (Z.mod_small (j + 1) (2 ^ 32)) by lia; reflexivity].
  exfalso. assert (N <= 2 ^ 31) by (unfold N; apply Z.pow_le_mono_r; lia). lia.
Qed.

(** The slot [d] steps from [h]. *)
Definition at_ (t : Table) (h d : Z) : option slot := slots t !! Z.to_nat ((h + d) mod N).

Record holds (t : Table) (kvs : list (bytes * V)) : Prop := {
  h_len : len (slots t) = N;
  h_mask : mask t = N - 1;
  (** every key given is found from its hash on, past other keys only *)
  h_found : forall k v, first kvs k = Some v -> exists d, 0 <= d < N /\ at_ t (hash k) d = Some (mkSlot k v true) /\
              forall d', 0 <= d' < d -> exists s, at_ t (hash k) d' = Some s /\ used s = true /\ key s <> k;
  h_only : forall i s, slots t !! i = Some s -> used s = true -> exists v, first kvs (key s) = Some v;
  h_count : taken (slots t) <= len kvs
}.

Lemma at_some t h d : len (slots t) = N -> exists s, at_ t h d = Some s.
Proof. intros E. apply lookup_lt_is_Some_2. pose proof N_bounds. pose proof (Z.mod_pos_bound (h + d) N ltac:(lia)). unfold len in E. lia. Qed.

(** Some slot is free when fewer than all hold a key. *)
Lemma free_slot t h : len (slots t) = N -> taken (slots t) < N -> exists d s, 0 <= d < N /\ at_ t h d = Some s /\ used s = false.
Proof.
  intros E Hc. destruct (decide (Exists (fun s => used s = false) (slots t))) as [Hex|Hno].
  - apply list.Exists_exists in Hex as (s & Hin & Hu). apply list_elem_of_lookup in Hin as [i Hi]. pose proof (lookup_lt_Some _ _ _ Hi). pose proof N_bounds.
    exists ((Z.of_nat i - h) mod N), s. split; [apply Z.mod_pos_bound; lia|]. split; [|exact Hu]. unfold at_. rewrite Zplus_mod_idemp_r. replace (h + (Z.of_nat i - h)) with (Z.of_nat i) by lia.
    rewrite Z.mod_small, Nat2Z.id by (unfold len in E; lia). exact Hi.
  - exfalso. rewrite taken_all, E in Hc; [lia|]. intros s Hs. destruct (used s) eqn:Eu; [reflexivity|]. exfalso. apply Hno, list.Exists_exists. eauto.
Qed.

(** The first slot from [h] on that is free or has [k], which every walk stops at. *)
Lemma stop_slot t h k :
  len (slots t) = N -> taken (slots t) < N ->
  exists d s, 0 <= d < N /\ at_ t h d = Some s /\ (used s = false \/ key s = k) /\
    forall d', 0 <= d' < d -> exists s', at_ t h d' = Some s' /\ used s' = true /\ key s' <> k.
Proof.
  intros E Hc. destruct (free_slot t h E Hc) as (d0 & s0 & Hd0 & Hs0 & Hu0).
  set (P := fun d => match at_ t h d with Some s => negb (used s) || bool_decide (key s = k) | None => false end).
  destruct (least_Z P d0 ltac:(lia)) as (d & Hd & HP & Hmin); [unfold P; now rewrite Hs0, Hu0|].
  destruct (at_some t h d E) as [s Hs]. exists d, s. unfold P in HP. rewrite Hs in HP. split; [lia|]. split; [exact Hs|]. split.
  - destruct (used s); [right; now apply bool_decide_eq_true in HP|now left].
  - intros d' Hd'. specialize (Hmin d' Hd'). unfold P in Hmin. destruct (at_some t h d' E) as [s' Hs']. rewrite Hs' in Hmin. exists s'. apply orb_false_iff in Hmin as [H1 H2].
    apply negb_false_iff in H1. apply bool_decide_eq_false in H2. auto.
Qed.

Lemma walk_stop t k h d s fuel :
  mask t = N - 1 -> 0 <= d < Z.of_nat fuel -> at_ t h d = Some s -> (used s = false \/ key s = k) ->
  (forall d', 0 <= d' < d -> exists s', at_ t h d' = Some s' /\ used s' = true /\ key s' <> k) ->
  walk fuel t k (h mod N) = Some (if used s then (val s, true) else (zero, false)).
Proof.
  intros Hmask. pose proof N_bounds as HN. revert h d. induction fuel as [|fuel IH]; intros h d Hd Hs Hk Hbefore; [lia|]. cbn [walk].
  assert (forall x, at_ t h 0 = x -> slots t !! Z.to_nat (h mod N) = x) as H0 by (intros x <-; unfold at_; now rewrite Z.add_0_r).
  destruct (Z.eq_dec d 0) as [->|Hne].
  - rewrite (H0 _ Hs). destruct (used s); cbn [negb]; [|reflexivity]. destruct Hk as [|Hk]; [discriminate|]. now rewrite (bool_decide_eq_true_2 _ Hk).
  - destruct (Hbefore 0 ltac:(lia)) as (s' & Hs' & Hu & Hk'). rewrite (H0 _ Hs'), Hu. cbn [negb]. rewrite (bool_decide_eq_false_2 _ Hk'), Hmask.
    rewrite next_slot, Zplus_mod_idemp_l by (apply Z.mod_pos_bound; lia). assert (forall e, at_ t (h + 1) e = at_ t h (e + 1)) as Hat by (intros e; unfold at_; do 2 f_equal; f_equal; lia).
    apply (IH (h + 1) (d - 1)); [lia|rewrite Hat; replace (d - 1 + 1) with d by lia; exact Hs|exact Hk|]. intros d' Hd'. rewrite Hat. apply Hbefore. lia.
Qed.

Lemma place_stop t k v h d s fuel :
  mask t = N - 1 -> 0 <= d < Z.of_nat fuel -> at_ t h d = Some s -> (used s = false \/ key s = k) ->
  (forall d', 0 <= d' < d -> exists s', at_ t h d' = Some s' /\ used s' = true /\ key s' <> k) ->
  place fuel t k v (h mod N) = Some (if used s then t else mkTable (<[Z.to_nat ((h + d) mod N) := mkSlot k v true]> (slots t)) (mask t)).
Proof.
  intros Hmask. pose proof N_bounds as HN. revert h d. induction fuel as [|fuel IH]; intros h d Hd Hs Hk Hbefore; [lia|]. cbn [place].
  assert (forall x, at_ t h 0 = x -> slots t !! Z.to_nat (h mod N) = x) as H0 by (intros x <-; unfold at_; now rewrite Z.add_0_r).
  destruct (Z.eq_dec d 0) as [->|Hne].
  - rewrite (H0 _ Hs), Z.add_0_r. destruct (used s); cbn [negb]; [|reflexivity]. destruct Hk as [|Hk]; [discriminate|]. now rewrite (bool_decide_eq_true_2 _ Hk).
  - destruct (Hbefore 0 ltac:(lia)) as (s' & Hs' & Hu & Hk'). rewrite (H0 _ Hs'), Hu. cbn [negb]. rewrite (bool_decide_eq_false_2 _ Hk'), Hmask.
    rewrite next_slot, Zplus_mod_idemp_l by (apply Z.mod_pos_bound; lia). assert (forall e, at_ t (h + 1) e = at_ t h (e + 1)) as Hat by (intros e; unfold at_; do 2 f_equal; f_equal; lia).
    replace (h + d) with (h + 1 + (d - 1)) by lia. rewrite <- Hmask.
    apply (IH (h + 1) (d - 1)); [lia|rewrite Hat; replace (d - 1 + 1) with d by lia; exact Hs|exact Hk|]. intros d' Hd'. rewrite Hat. apply Hbefore. lia.
Qed.

Lemma first_app kvs k v k' :
  first (kvs ++ [(k, v)]) k' = match first kvs k' with Some x => Some x | None => if bool_decide (k = k') then Some v else None end.
Proof. induction kvs as [|[k0 v0] kvs IH]; cbn; [reflexivity|]. destruct (bool_decide (k0 = k')); [reflexivity|exact IH]. Qed.

(** A slot of a table with one taken. *)
Lemma at_insert t p x h d :
  len (slots t) = N -> 0 <= p < N -> at_ (mkTable (<[Z.to_nat p := x]> (slots t)) (mask t)) h d = if decide ((h + d) mod N = p) then Some x else at_ t h d.
Proof.
  intros E Hp. pose proof N_bounds. pose proof (Z.mod_pos_bound (h + d) N ltac:(lia)). unfold at_. cbn [slots]. destruct (decide _) as [<-|Hne].
  - apply list_lookup_insert_eq. unfold len in E. lia.
  - apply list_lookup_insert_ne. lia.
Qed.

Lemma place_holds t kvs k v :
  holds t kvs -> taken (slots t) < N -> exists t', place (length (slots t)) t k v (hash k .& mask t) = Some t' /\ holds t' (kvs ++ [(k, v)]).
Proof.
  intros [Hlen Hmask Hfound Honly Hcount] Hroom. destruct (stop_slot t (hash k) k Hlen Hroom) as (d & s & Hd & Hs & Hk & Hbefore). rewrite Hmask, land_N.
  rewrite (place_stop t k v (hash k) d s) by (auto; unfold len in Hlen; lia). eexists. split; [reflexivity|].
  assert (len (kvs ++ [(k, v)]) = len kvs + 1) as El by (rewrite len_app; reflexivity). destruct (used s) eqn:Eu.
  - destruct Hk as [|Hk]; [discriminate|]. destruct (Honly _ s Hs Eu) as [v0 Hv0]. rewrite Hk in Hv0.
    assert (forall k', first (kvs ++ [(k, v)]) k' = first kvs k') as Ef by (intros k'; rewrite first_app; destruct (first kvs k') eqn:E'; [reflexivity|]; case_bool_decide; [subst; congruence|reflexivity]).
    split; auto; [intros k' v'|intros i s'|lia]; rewrite Ef; eauto.
  - set (p := (hash k + d) mod N). pose proof N_bounds as HN. assert (0 <= p < N) as Hp by (apply Z.mod_pos_bound; lia). assert (slots t !! Z.to_nat p = Some s) as Hps by exact Hs.
    assert (first kvs k = None) as Enone.
    { destruct (first kvs k) as [v0|] eqn:E; [|reflexivity]. exfalso. destruct (Hfound k v0 E) as (d0 & Hd0 & Hs0 & Hb0). destruct (Z.lt_trichotomy d d0) as [Hlt|[<-|Hgt]].
      - destruct (Hb0 d ltac:(lia)) as (s' & Hs' & Hu' & _). congruence.
      - rewrite Hs in Hs0. injection Hs0 as ->. discriminate.
      - destruct (Hbefore d0 ltac:(lia)) as (s' & Hs' & _ & Hk'). rewrite Hs0 in Hs'. injection Hs' as <-. now apply Hk'. }
    assert (forall h e s', at_ t h e = Some s' -> used s' = true -> at_ (mkTable (<[Z.to_nat p := mkSlot k v true]> (slots t)) (mask t)) h e = Some s') as Hkeep.
    { intros h e s' He Hu. rewrite at_insert by auto. destruct (decide _) as [Ep|]; [|exact He]. exfalso. unfold at_ in He. rewrite Ep in He. congruence. }
    split.
    + cbn [slots]. unfold len in *. now rewrite length_insert.
    + exact Hmask.
    + intros k' v' Hf. rewrite first_app in Hf. destruct (first kvs k') as [x|] eqn:E'.
      * injection Hf as ->. destruct (Hfound k' v' E') as (d0 & Hd0 & Hs0 & Hb0). exists d0. split; [exact Hd0|]. split; [now apply Hkeep|].
        intros d' Hd'. destruct (Hb0 d' Hd') as (s' & Hs' & Hu' & Hk'). exists s'. split; [now apply Hkeep|auto].
      * case_bool_decide as Ek; [|discriminate]. subst k'. injection Hf as <-. exists d. split; [exact Hd|]. split; [rewrite at_insert by auto; now rewrite decide_True|].
        intros d' Hd'. destruct (Hbefore d' Hd') as (s' & Hs' & Hu' & Hk'). exists s'. split; [now apply Hkeep|auto].
    + intros i s' Hi Hu. cbn [slots] in Hi. apply list_lookup_insert_Some in Hi as [(_ & <- & _)|[_ Hi]].
      * exists v. cbn [key]. rewrite first_app, Enone. now rewrite bool_decide_eq_true_2.
      * destruct (Honly i s' Hi Hu) as [v' Hv']. exists v'. now rewrite first_app, Hv'.
    + cbn [slots]. pose proof (taken_insert (slots t) (Z.to_nat p) s (mkSlot k v true) Hps Eu). lia.
Qed.

Lemma fill_holds kvs t done :
  holds t done -> Forall (fun kv => fst kv <> []) kvs -> len done + len kvs <= N ->
  exists t', fill t kvs = Some t' /\ holds t' (done ++ kvs).
Proof.
  revert t done. induction kvs as [|[k v] kvs IH]; intros t done Ht Hne Hl; cbn [fill].
  - exists t. now rewrite app_nil_r.
  - inversion Hne as [|? ? Hk Hrest]; subst. cbn in Hk. rewrite (bool_decide_eq_false_2 _ Hk). pose proof (len_nonneg kvs). rewrite len_cons in Hl.
    destruct (place_holds t done k v Ht) as (t1 & -> & Ht1); [pose proof (h_count _ _ Ht); lia|].
    destruct (IH t1 (done ++ [(k, v)]) Ht1 Hrest) as (t2 & -> & Ht2); [rewrite len_app; change (len [(k, v)]) with 1; lia|]. exists t2. split; [reflexivity|]. now rewrite <- app_assoc in Ht2.
Qed.

Lemma get_holds t kvs k :
  holds t kvs -> first kvs [] = None -> len kvs < N ->
  Get t k = Some (match first kvs k with Some v => (v, true) | None => (zero, false) end).
Proof.
  intros [Hlen Hmask Hfound Honly Hcount] Hnil Hl. unfold Get. case_bool_decide as Ek; [subst; now rewrite Hnil|].
  destruct (stop_slot t (hash k) k Hlen ltac:(lia)) as (d & s & Hd & Hs & Hk & Hbefore). rewrite Hmask, land_N, (walk_stop t k (hash k) d s) by (auto; unfold len in Hlen; lia).
  destruct (used s) eqn:Eu.
  - destruct Hk as [|Hk]; [discriminate|]. destruct (Honly _ s Hs Eu) as [v0 Hv0]. rewrite Hk in Hv0. rewrite Hv0. destruct (Hfound k v0 Hv0) as (d0 & Hd0 & Hs0 & Hb0).
    destruct (Z.lt_trichotomy d d0) as [Hlt|[<-|Hgt]].
    + destruct (Hb0 d ltac:(lia)) as (s' & Hs' & _ & Hk'). congruence.
    + rewrite Hs in Hs0. now injection Hs0 as ->.
    + destruct (Hbefore d0 ltac:(lia)) as (s' & Hs' & _ & Hk'). rewrite Hs0 in Hs'. injection Hs' as <-. now destruct Hk'.
  - destruct (first kvs k) as [v0|] eqn:E; [|reflexivity]. exfalso. destruct (Hfound k v0 E) as (d0 & Hd0 & Hs0 & Hb0). destruct (Z.lt_trichotomy d d0) as [Hlt|[<-|Hgt]].
    + destruct (Hb0 d ltac:(lia)) as (s' & Hs' & Hu' & _). congruence.
    + rewrite Hs in Hs0. injection Hs0 as ->. discriminate.
    + destruct (Hbefore d0 ltac:(lia)) as (s' & Hs' & _ & Hk'). rewrite Hs0 in Hs'. injection Hs' as <-. now apply Hk'.
Qed.

Lemma empty_holds : holds (mkTable (replicate (Z.to_nat N) (mkSlot [] zero false)) (N - 1)) [].
Proof.
  pose proof N_bounds. split; cbn [slots mask].
  - unfold len. rewrite length_replicate. lia.
  - reflexivity.
  - discriminate.
  - intros i s Hs Hu. apply lookup_replicate in Hs as [-> _]. discriminate.
  - rewrite taken_none. reflexivity.
Qed.

End Sized.

Lemma sizeFor_pow fuel a want :
  0 <= a -> a + Z.of_nat fuel >= 31 -> a <= 31 -> want <= 2 ^ 31 -> exists m, a <= m <= 31 /\ sizeFor fuel (2 ^ a) want = 2 ^ m /\ want <= 2 ^ m.
Proof.
  revert a. induction fuel as [|fuel IH]; intros a H0 Hf Ha Hw; cbn [sizeFor].
  - exists a. assert (a = 31) as -> by lia. repeat split; lia.
  - destruct (Z.ltb_spec (2 ^ a) want); [|exists a; repeat split; lia]. replace (2 ^ a * 2) with (2 ^ (a + 1)) by (rewrite Z.pow_add_r; lia).
    destruct (Z.eq_dec a 31) as [->|]; [lia|]. destruct (IH (a + 1)) as (m & Hm & E & Hle); try lia. exists m. repeat split; auto; lia.
Qed.

Lemma first_nil kvs : Forall (fun kv => fst kv <> []) kvs -> first kvs [] = None.
Proof. induction 1 as [|[k v] kvs Hk _ IH]; cbn in *; [reflexivity|]. now rewrite bool_decide_eq_false_2. Qed.

Lemma New_Get (kvs : list (bytes * V)) :
  Forall (fun kv => fst kv <> []) kvs -> len kvs <= 2 ^ 29 ->
  exists t, New kvs = Some t /\ forall k, Get t k = Some (match first kvs k with Some v => (v, true) | None => (zero, false) end).
Proof.
  intros Hne Hl. unfold New. destruct (sizeFor_pow 64 4 (4 * len kvs)) as (m & Hm & E & Hle); try lia. change (2 ^ 4) with 16 in E. rewrite E.
  pose proof (N_bounds m ltac:(lia)) as HN. replace (u32 (2 ^ m - 1)) with (2 ^ m - 1) by (unfold u32; rewrite Z.mod_small; lia). pose proof (len_nonneg kvs).
  destruct (fill_holds m ltac:(lia) kvs _ [] (empty_holds m ltac:(lia)) Hne) as (t & -> & Ht); [rewrite len_nil; lia|]. exists t. split; [reflexivity|]. intros k.
  apply (get_holds m ltac:(lia)); [exact Ht|now apply first_nil|]. assert (0 < 2 ^ m) by lia. lia.
Qed.

(** A table built from keys that are not empty, with their values, is found
    whole: [Get] gives the first value of a key, and reports the ones it does
    not have, its walk ending at a free slot. *)
Theorem strtab_get_first (kvs : list (bytes * V)) :
  Forall (fun kv => fst kv <> []) kvs -> len kvs <= 2 ^ 29 ->
  exists t, New kvs = Some t /\ forall k, Get t k = Some (match first kvs k with Some v => (v, true) | None => (zero, false) end).
Proof. apply New_Get. Qed.

End Table.

(** Keys given twice, keys not given, and the empty one. *)
Lemma strtab_get_first_witness :
  let kvs := [(str "date", 1); (str "etag", 2); (str "date", 3)] in
  exists t, New 0 kvs = Some t /\ Get 0 t (str "date") = Some (1, true) /\ Get 0 t (str "etag") = Some (2, true) /\ Get 0 t (str "age") = Some (0, false).
Proof.
  destruct (strtab_get_first 0 [(str "date", 1); (str "etag", 2); (str "date", 3)]) as (t & E & Hget).
  - repeat constructor; discriminate.
  - vm_compute. discriminate.
  - exists t. rewrite !Hget. repeat split; auto.
Defined.

End Strtab.
