(* ===== verification/QpackCodec.v ===== *)
(** * QPACK: integers, strings and the static table (src/http3/qpack/qpack.go, table.go)

    The integers and strings of field lines and of the instructions of the two
    QPACK streams, read where all of them is there ([readInt], [readString]) and
    where some may be still to come ([parseInt], [parseString]), and RFC 9204
    appendix A. The integers are HPACK's, with QPACK's error. *)

From S2P Require Import Prelude HpackInt HpackTables HpackHuffman Strtab.
From stdpp Require Import base list numbers.
From Stdlib Require Import ZArith Lia String.
Local Notation length := List.length (only parsing).

Local Open Scope Z_scope.
Local Open Scope go_scope.

Module Qpack.

(** The errors of the package, and what a caller's emit may return. *)
Inductive qerr : Type := ErrDecompression | ErrTooLarge | ErrBlocked | ErrEncoderStream | ErrDecoderStream | ErrEmit (e : Z).

#[export] Instance qerr_eq_dec : EqDecision qerr.
Proof. solve_decision. Defined.

Section Static.
Local Open Scope string_scope.

Definition staticTable : list HeaderField := [
  sf ":authority" "";
  sf ":path" "/";
  sf "age" "0";
  sf "content-disposition" "";
  sf "content-length" "0";
  sf "cookie" "";
  sf "date" "";
  sf "etag" "";
  sf "if-modified-since" "";
  sf "if-none-match" "";
  sf "last-modified" "";
  sf "link" "";
  sf "location" "";
  sf "referer" "";
  sf "set-cookie" "";
  sf ":method" "CONNECT";
  sf ":method" "DELETE";
  sf ":method" "GET";
  sf ":method" "HEAD";
  sf ":method" "OPTIONS";
  sf ":method" "POST";
  sf ":method" "PUT";
  sf ":scheme" "http";
  sf ":scheme" "https";
  sf ":status" "103";
  sf ":status" "200";
  sf ":status" "304";
  sf ":status" "404";
  sf ":status" "503";
  sf "accept" "*/*";
  sf "accept" "application/dns-message";
  sf "accept-encoding" "gzip, deflate, br";
  sf "accept-ranges" "bytes";
  sf "access-control-allow-headers" "cache-control";
  sf "access-control-allow-headers" "content-type";
  sf "access-control-allow-origin" "*";
  sf "cache-control" "max-age=0";
  sf "cache-control" "max-age=2592000";
  sf "cache-control" "max-age=604800";
  sf "cache-control" "no-cache";
  sf "cache-control" "no-store";
  sf "cache-control" "public, max-age=31536000";
  sf "content-encoding" "br";
  sf "content-encoding" "gzip";
  sf "content-type" "application/dns-message";
  sf "content-type" "application/javascript";
  sf "content-type" "application/json";
  sf "content-type" "application/x-www-form-urlencoded";
  sf "content-type" "image/gif";
  sf "content-type" "image/jpeg";
  sf "content-type" "image/png";
  sf "content-type" "text/css";
  sf "content-type" "text/html; charset=utf-8";
  sf "content-type" "text/plain";
  sf "content-type" "text/plain;charset=utf-8";
  sf "range" "bytes=0-";
  sf "strict-transport-security" "max-age=31536000";
  sf "strict-transport-security" "max-age=31536000; includesubdomains";
  sf "strict-transport-security" "max-age=31536000; includesubdomains; preload";
  sf "vary" "accept-encoding";
  sf "vary" "origin";
  sf "x-content-type-options" "nosniff";
  sf "x-xss-protection" "1; mode=block";
  sf ":status" "100";
  sf ":status" "204";
  sf ":status" "206";
  sf ":status" "302";
  sf ":status" "400";
  sf ":status" "403";
  sf ":status" "421";
  sf ":status" "425";
  sf ":status" "500";
  sf "accept-language" "";
  sf "access-control-allow-credentials" "FALSE";
  sf "access-control-allow-credentials" "TRUE";
  sf "access-control-allow-headers" "*";
  sf "access-control-allow-methods" "get";
  sf "access-control-allow-methods" "get, post, options";
  sf "access-control-allow-methods" "options";
  sf "access-control-expose-headers" "content-length";
  sf "access-control-request-headers" "content-type";
  sf "access-control-request-method" "get";
  sf "access-control-request-method" "post";
  sf "alt-svc" "clear";
  sf "authorization" "";
  sf "content-security-policy" "script-src 'none'; object-src 'none'; base-uri 'none'";
  sf "early-data" "1";
  sf "expect-ct" "";
  sf "forwarded" "";
  sf "if-range" "";
  sf "origin" "";
  sf "purpose" "prefetch";
  sf "server" "";
  sf "timing-allow-origin" "*";
  sf "upgrade-insecure-requests" "1";
  sf "user-agent" "";
  sf "x-forwarded-for" "";
  sf "x-frame-options" "deny";
  sf "x-frame-options" "sameorigin"
].

End Static.

(** The entries of the static table by name, the names in the order they are
    first in it. *)
Fixpoint addEntry (entries : list (bytes * list Z)) (name : bytes) (i : Z) : list (bytes * list Z) :=
  match entries with
  | [] => [(name, [i])]
  | (k, l) :: entries => if bool_decide (k = name) then (k, l ++ [i]) :: entries else (k, l) :: addEntry entries name i
  end.

Fixpoint nameEntries (i : Z) (fs : list HeaderField) (entries : list (bytes * list Z)) : list (bytes * list Z) :=
  match fs with
  | [] => entries
  | f :: fs => nameEntries (i + 1) fs (addEntry entries (Name f) i)
  end.

Definition staticEntries : list (bytes * list Z) := Eval vm_compute in nameEntries 0 staticTable [].

Definition staticNameIndex : option (Strtab.Table (V := list Z)) := Strtab.New [] staticEntries.

(** [staticNameIndex.Get], without the flag its callers ignore. *)
Definition staticGet (name : bytes) : list Z :=
  match staticNameIndex with
  | None => []
  | Some t => match Strtab.Get [] t name with Some (l, _) => l | None => [] end
  end.

(** ** Integers *)

Fixpoint readInt_loop (v shift : Z) (b : bytes) : res qerr (Z * bytes) :=
  match b with
  | [] => Err ErrDecompression
  | c :: b =>
      let v := u64 (v + u64 ((c .& 0x7f) .<< shift)) in
      if (c .& 0x80) =? 0 then Ok (v, b)
      else let shift := shift + 7 in if 56 <=? shift then Err ErrDecompression else readInt_loop v shift b
  end.

Definition readInt (b : bytes) (n : Z) : res qerr (Z * bytes) :=
  match b with
  | [] => Err ErrDecompression
  | b0 :: b =>
      let mask := u64 (u64 (1 .<< n) - 1) in
      let v := b0 .& mask in
      if v <? mask then Ok (v, b) else readInt_loop v 0 b
  end.

(** [for v >= 0x80]: ten turns are more than a [uint64] takes. *)
Fixpoint appendInt_loop (fuel : nat) (dst : bytes) (v : Z) : bytes :=
  match fuel with
  | O => dst ++ [u8 v]
  | S fuel => if 0x80 <=? v then appendInt_loop fuel (dst ++ [u8 v .| 0x80]) (v .>> 7) else dst ++ [u8 v]
  end.

Definition appendInt (dst : bytes) (first n v : Z) : bytes :=
  let mask := u64 (u64 (1 .<< n) - 1) in
  if v <? mask then dst ++ [first .| u8 v] else appendInt_loop 10 (dst ++ [first .| u8 mask]) (v - mask).

(** The value and how many bytes it took; zero bytes is one not all there. *)
Fixpoint parseInt_loop (v shift i : Z) (b : bytes) : res qerr (Z * Z) :=
  match b with
  | [] => Ok (0, 0)
  | c :: b =>
      let v := u64 (v + u64 ((c .& 0x7f) .<< shift)) in
      if (c .& 0x80) =? 0 then Ok (v, i + 1)
      else let shift := shift + 7 in if 56 <=? shift then Err ErrDecompression else parseInt_loop v shift (i + 1) b
  end.

Definition parseInt (b : bytes) (n : Z) : res qerr (Z * Z) :=
  match b with
  | [] => Ok (0, 0)
  | b0 :: b =>
      let mask := u64 (u64 (1 .<< n) - 1) in
      let v := b0 .& mask in
      if v <? mask then Ok (v, 1) else parseInt_loop v 0 1 b
  end.

(** ** Strings *)

Definition readString (b : bytes) (n maxLen : Z) : res qerr (bytes * bytes) :=
  match b with
  | [] => Err ErrDecompression
  | b0 :: _ =>
      let huffman := negb (b0 .& (1 .<< n) =? 0) in
      match readInt b n with
      | Err e => Err e
      | Ok (length, rest) =>
          if len rest <? length then Err ErrDecompression
          else
            let raw := ztake length rest in
            let rest := zdrop length rest in
            if (0 <? maxLen) && (maxLen <? len raw) then Err ErrTooLarge
            else if negb huffman then Ok (raw, rest)
            else
              match Huffman.HuffmanDecode raw maxLen with
              | Err ErrStringTooLong => Err ErrTooLarge
              | Err _ => Err ErrDecompression
              | Ok s => Ok (s, rest)
              end
      end
  end.

Definition appendString (dst : bytes) (first n : Z) (s : bytes) : bytes :=
  let h := Huffman.HuffmanLen s in
  if h <? len s then Huffman.AppendHuffman (appendInt dst (first .| (1 .<< n)) n h) s
  else appendInt dst first n (len s) ++ s.

(** The string and how many bytes it took, as parseInt. *)
Definition parseString (b : bytes) (n maxRaw maxLen : Z) : res qerr (bytes * Z) :=
  match parseInt b n with
  | Err e => Err e
  | Ok (length, k) =>
      if k =? 0 then Ok ([], 0)
      else if maxRaw <? length then Err ErrTooLarge
      else if len b - k <? length then Ok ([], 0)
      else
        match readString (ztake (k + length) b) n maxLen with
        | Err e => Err e
        | Ok (s, _) => Ok (s, k + length)
        end
  end.

(** ** Lemmas *)

Lemma staticEntries_keys : Forall (fun kv => fst kv <> []) staticEntries.
Proof. apply Forall_forall. intros kv Hkv. assert (forallb (fun kv => negb (bool_decide (fst kv = []))) staticEntries = true) as H by (vm_compute; reflexivity).
  rewrite forallb_forall in H. apply H, negb_true_iff, bool_decide_eq_false in Hkv. exact Hkv. Qed.

(** What the index gives for a name are entries with it. *)
Lemma staticGet_name name i : i ∈ staticGet name -> 0 <= i < 99 /\ exists f, staticTable !! Z.to_nat i = Some f /\ Name f = name.
Proof.
  unfold staticGet, staticNameIndex. destruct (Strtab.New_Get (V := list Z) [] staticEntries staticEntries_keys) as (t & -> & ->); [vm_compute; discriminate|].
  assert (forall k l, Strtab.first staticEntries k = Some l -> (k, l) ∈ staticEntries) as Hin.
  { generalize staticEntries as kvs. induction kvs as [|[k0 l0] kvs IH]; intros k l H; cbn in H; [discriminate|]. case_bool_decide; [injection H as <-; subst; left|right; auto]. }
  destruct (Strtab.first staticEntries name) as [l|] eqn:E; [|intros H; now apply elem_of_nil in H]. intros Hi. apply Hin in E. apply list_elem_of_In in E.
  assert (forallb (fun kl => forallb (fun i => (0 <=? i) && (i <? 99) && match staticTable !! Z.to_nat i with Some f => bool_decide (Name f = fst kl) | None => false end) (snd kl)) staticEntries = true) as H by (vm_compute; reflexivity).
  rewrite forallb_forall in H. specialize (H _ E). cbn [fst snd] in H. rewrite forallb_forall in H. apply list_elem_of_In in Hi. apply H in Hi.
  rewrite !andb_true_iff, Z.leb_le, Z.ltb_lt in Hi. destruct Hi as [Hi Hf]. split; [exact Hi|]. destruct (staticTable !! Z.to_nat i) as [f|]; [|discriminate]. exists f. split; [reflexivity|]. now apply bool_decide_eq_true in Hf.
Qed.

Lemma readInt_hpack b n : readInt b n = match HInt.readInt b n with Ok x => Ok x | Err _ => Err ErrDecompression end.
Proof.
  destruct b as [|b0 b]; [reflexivity|]. unfold readInt, HInt.readInt. destruct (_ <? _); [reflexivity|]. generalize (b0 .& u64 (u64 (1 .<< n) - 1)) as v. generalize 0 as s.
  induction b as [|c b IH]; intros s v; [reflexivity|]. cbn [readInt_loop HInt.readInt_loop]. destruct (_ =? 0); [reflexivity|]. destruct (56 <=? _); [reflexivity|apply IH].
Qed.

Lemma appendInt_hpack : appendInt = HInt.appendInt.
Proof. reflexivity. Qed.

Lemma readInt_append first n v rest :
  1 <= n <= 8 -> first mod 2 ^ n = 0 -> 0 <= v < 2 ^ 56 -> readInt (appendInt [] first n v ++ rest) n = Ok (v, rest).
Proof.
  intros Hn Hf Hv. rewrite readInt_hpack, appendInt_hpack, HInt.readInt_appendInt_rest; auto. pose proof (Z.pow_pos_nonneg 2 n ltac:(lia) ltac:(lia)). lia.
Qed.

Lemma appendInt_acc dst first n v : appendInt dst first n v = dst ++ appendInt [] first n v.
Proof. rewrite appendInt_hpack. apply HInt.appendInt_app. Qed.

Lemma appendInt_shape first n v :
  1 <= n <= 8 -> 0 <= v -> exists x tl, appendInt [] first n v = Z.lor first x :: tl /\ 0 <= x < 2 ^ n /\ bytes_ok tl.
Proof. rewrite appendInt_hpack. apply HInt.appendInt_head. Qed.

Lemma bit_test a n : 0 <= n -> (a .& (1 .<< n) =? 0) = negb (Z.testbit a n).
Proof.
  intros Hn. rewrite Z.shiftl_1_l. destruct (Z.testbit a n) eqn:E; cbn [negb].
  - apply Z.eqb_neq. intros H. assert (Z.testbit (a .& 2 ^ n) n = true) as Hb by (rewrite Z.land_spec, E, Z.pow2_bits_true by lia; reflexivity). rewrite H, Z.bits_0 in Hb. discriminate.
  - apply Z.eqb_eq. apply Z.bits_inj'. intros i Hi. rewrite Z.land_spec, Z.bits_0. destruct (Z.eq_dec i n) as [->|Hne]; [now rewrite E|]. rewrite Z.pow2_bits_false by lia. apply andb_false_r.
Qed.

(** The bits of a first byte: those above the prefix are the writer's. *)
Lemma first_testbit first x n i : 0 <= x < 2 ^ n -> 0 <= n <= i -> Z.testbit (first .| x) i = Z.testbit first i.
Proof. intros Hx Hi. rewrite Z.lor_spec, (testbit_small x n i), orb_false_r by lia. reflexivity. Qed.

Lemma low_bits_zero first n i : first mod 2 ^ n = 0 -> 0 <= i < n -> Z.testbit first i = false.
Proof. intros Hf Hi. rewrite <- (Z.mod_pow2_bits_low first n i) by lia. now rewrite Hf, Z.bits_0. Qed.

Lemma mod_weaken first n : 0 <= n -> first mod 2 ^ (n + 1) = 0 -> first mod 2 ^ n = 0.
Proof.
  intros Hn Hf. apply Z.mod_divide in Hf; [|lia]. apply Z.mod_divide; [lia|]. destruct Hf as [q ->]. exists (q * 2). rewrite Z.pow_add_r by lia. lia.
Qed.

(** The first byte with the Huffman flag on, which is above an n-bit prefix. *)
Lemma flagged_mod first n : 0 <= n -> first mod 2 ^ (n + 1) = 0 -> (first .| (1 .<< n)) mod 2 ^ n = 0.
Proof.
  intros Hn Hf. rewrite Z.shiftl_1_l. apply Z.bits_inj'. intros i Hi. rewrite Z.bits_0. destruct (Z.ltb_spec i n).
  - rewrite Z.mod_pow2_bits_low, Z.lor_spec, (low_bits_zero first (n + 1) i), Z.pow2_bits_false by (auto; lia). reflexivity.
  - apply Z.mod_pow2_bits_high. lia.
Qed.

Lemma string_coded first n body s rest maxLen (huffman : bool) :
  1 <= n <= 7 -> first mod 2 ^ n = 0 -> Z.testbit first n = huffman -> len body < 2 ^ 56 ->
  (maxLen <= 0 \/ len body <= maxLen) -> (if huffman then Huffman.HuffmanDecode body maxLen = Ok s else s = body) ->
  readString (appendInt [] first n (len body) ++ body ++ rest) n maxLen = Ok (s, rest).
Proof.
  intros Hn Hf Hb Hl Hm Hs. pose proof (len_nonneg body) as H0. pose proof (readInt_append first n (len body) (body ++ rest) ltac:(lia) Hf ltac:(lia)) as Hr.
  destruct (appendInt_shape first n (len body) ltac:(lia) H0) as (x & tl & E & Hx & _). rewrite E in *. cbn [app readString] in *. rewrite Hr.
  rewrite bit_test, (first_testbit first x n n), Hb, negb_involutive by lia. rewrite len_app, (proj2 (Z.ltb_ge _ _)), ztake_app, zdrop_app by (pose proof (len_nonneg rest); lia).
  assert ((0 <? maxLen) && (maxLen <? len body) = false) as -> by (destruct (Z.ltb_spec 0 maxLen), (Z.ltb_spec maxLen (len body)); cbn; auto; lia).
  destruct huffman; cbn [negb]; [now rewrite Hs|now subst].
Qed.

Lemma huffLen_nonneg s : bytes_ok s -> 0 <= Huffman.HuffmanLen s.
Proof. intros Hs. unfold Huffman.HuffmanLen. rewrite <- Huffman.len_huffmanAppend by exact Hs. apply len_nonneg. Qed.

(** A string as written: the integer, and the bytes it counts. *)
Lemma appendString_split first n s :
  bytes_ok s -> 1 <= n <= 7 -> first mod 2 ^ (n + 1) = 0 ->
  exists first' body huffman, appendString [] first n s = appendInt [] first' n (len body) ++ body /\ first' mod 2 ^ n = 0 /\ Z.testbit first' n = huffman /\
    len body <= len s /\ bytes_ok body /\ (forall maxLen, maxLen <= 0 \/ len s <= maxLen -> if huffman then Huffman.HuffmanDecode body maxLen = Ok s else s = body) /\
    (first' = first \/ first' = first .| (1 .<< n)).
Proof.
  intros Hs Hn Hf. unfold appendString, Huffman.AppendHuffman. destruct (Z.ltb_spec (Huffman.HuffmanLen s) (len s)) as [Hlt|Hge].
  - exists (first .| (1 .<< n)), (Huffman.huffmanAppend [] s), true. rewrite Huffman.huffmanAppend_app. unfold Huffman.HuffmanLen in *. rewrite Huffman.len_huffmanAppend by exact Hs.
    splits; auto; try lia.
    + now apply flagged_mod; [lia|].
    + rewrite Z.lor_spec, Z.shiftl_1_l, Z.pow2_bits_true by lia. apply orb_true_r.
    + now apply Huffman.huffmanAppend_bytes.
    + intros maxLen Hm. now apply Huffman.huffman_roundtrip.
  - exists first, s, false. splits; auto; try lia; [apply mod_weaken; auto; lia|apply (low_bits_zero first (n + 1)); auto; lia].
Qed.

Lemma readString_append first n s rest maxLen :
  bytes_ok s -> len s < 2 ^ 56 -> 1 <= n <= 7 -> first mod 2 ^ (n + 1) = 0 -> (maxLen <= 0 \/ len s <= maxLen) ->
  readString (appendString [] first n s ++ rest) n maxLen = Ok (s, rest).
Proof.
  intros Hs Hl Hn Hf Hm. destruct (appendString_split first n s Hs Hn Hf) as (first' & body & huffman & -> & H1 & H2 & H3 & _ & H4 & _).
  rewrite <- app_assoc. apply (string_coded _ _ _ _ _ _ huffman); [exact Hn|exact H1|exact H2|lia|destruct Hm; lia|now apply H4].
Qed.

Lemma appendString_acc dst first n s : appendString dst first n s = dst ++ appendString [] first n s.
Proof.
  unfold appendString, Huffman.AppendHuffman. destruct (_ <? _); [rewrite (Huffman.huffmanAppend_app (appendInt dst _ _ _)), (Huffman.huffmanAppend_app (appendInt [] _ _ _))|];
    rewrite (appendInt_acc dst); now rewrite <- app_assoc.
Qed.

Lemma appendInt_ok first n v : is_byte first -> 1 <= n <= 8 -> 0 <= v -> bytes_ok (appendInt [] first n v).
Proof. rewrite appendInt_hpack. intros. now apply HInt.appendInt_bytes. Qed.

Lemma appendString_ok first n s : bytes_ok s -> is_byte first -> 1 <= n <= 7 -> first mod 2 ^ (n + 1) = 0 -> bytes_ok (appendString [] first n s).
Proof.
  intros Hs Hb Hn Hf. destruct (appendString_split first n s Hs Hn Hf) as (first' & body & huffman & -> & _ & _ & _ & Hbody & _ & Hfirst).
  apply bytes_ok_app. split; [|exact Hbody]. apply appendInt_ok; [|lia|apply len_nonneg]. destruct Hfirst as [->| ->]; [exact Hb|].
  unfold is_byte. rewrite Z.shiftl_1_l. apply (lor_bound _ _ 8); [lia|exact Hb|]. split; [lia|]. apply Z.pow_lt_mono_r; lia.
Qed.

(** ** Reading what may not all be there *)

Lemma parseInt_loop_hpack v shift i b :
  parseInt_loop v shift i b =
  match HInt.readInt_loop v shift b with Ok (v, rest) => Ok (v, i + (len b - len rest)) | Err ErrTruncated => Ok (0, 0) | Err _ => Err ErrDecompression end.
Proof.
  revert v shift i. induction b as [|c b IH]; intros v shift i; [reflexivity|]. cbn [parseInt_loop HInt.readInt_loop].
  destruct (_ =? 0); [rewrite len_cons; do 2 f_equal; lia|]. destruct (56 <=? _); [reflexivity|]. rewrite IH.
  destruct (HInt.readInt_loop _ _ b) as [[v' rest]|e]; [|reflexivity]. rewrite len_cons. do 2 f_equal. lia.
Qed.

Lemma parseInt_hpack b n :
  parseInt b n = match HInt.readInt b n with Ok (v, rest) => Ok (v, len b - len rest) | Err ErrTruncated => Ok (0, 0) | Err _ => Err ErrDecompression end.
Proof.
  destruct b as [|b0 b]; [reflexivity|]. unfold parseInt, HInt.readInt. destruct (_ <? _); [rewrite len_cons; do 2 f_equal; lia|].
  rewrite parseInt_loop_hpack. destruct (HInt.readInt_loop _ _ b) as [[v' rest]|e]; [|reflexivity]. rewrite len_cons. do 2 f_equal. lia.
Qed.

(** More bytes change only what is cut short. *)
Lemma readInt_loop_more v shift p q :
  match HInt.readInt_loop v shift p with
  | Ok (v', r) => HInt.readInt_loop v shift (p ++ q) = Ok (v', r ++ q)
  | Err ErrTruncated => True
  | Err e => HInt.readInt_loop v shift (p ++ q) = Err e
  end.
Proof.
  revert v shift. induction p as [|c p IH]; intros v shift; [exact I|]. cbn [app HInt.readInt_loop]. destruct (_ =? 0); [reflexivity|]. destruct (56 <=? _); [reflexivity|apply IH].
Qed.

Lemma readInt_more p q n :
  match HInt.readInt p n with
  | Ok (v, r) => HInt.readInt (p ++ q) n = Ok (v, r ++ q)
  | Err ErrTruncated => True
  | Err e => HInt.readInt (p ++ q) n = Err e
  end.
Proof. destruct p as [|c p]; [exact I|]. cbn [app HInt.readInt]. destruct (_ <? _); [reflexivity|apply readInt_loop_more]. Qed.

(** [f] takes [w] for [x] whatever follows, and waits where [w] is cut short. *)
Definition partial {A} (f : bytes -> res qerr (A * Z)) (zero : A) (w : bytes) (x : A) : Prop :=
  (forall rest, f (w ++ rest) = Ok (x, len w)) /\ (forall p q, w = p ++ q -> q <> [] -> f p = Ok (zero, 0)).

Lemma parseInt_partial first n v :
  1 <= n <= 8 -> first mod 2 ^ n = 0 -> 0 <= v < 2 ^ 56 -> partial (fun b => parseInt b n) 0 (appendInt [] first n v) v.
Proof.
  intros Hn Hf Hv. assert (forall rest, HInt.readInt (appendInt [] first n v ++ rest) n = Ok (v, rest)) as Hr.
  { intros rest. rewrite appendInt_hpack. apply HInt.readInt_appendInt_rest; auto. pose proof (Z.pow_pos_nonneg 2 n ltac:(lia) ltac:(lia)). lia. }
  split.
  - intros rest. rewrite parseInt_hpack, Hr, len_app. do 2 f_equal. lia.
  - intros p q E Hq. specialize (Hr []). rewrite app_nil_r, E in Hr. pose proof (readInt_more p q n) as Hm. rewrite parseInt_hpack.
    destruct (HInt.readInt p n) as [[v' r]|e]; [rewrite Hr in Hm; injection Hm as _ Hm; symmetry in Hm; apply app_eq_nil in Hm as [_ ->]; congruence|].
    destruct e; try reflexivity; rewrite Hr in Hm; discriminate.
Qed.

Lemma parseString_partial first n s maxRaw maxLen :
  bytes_ok s -> len s < 2 ^ 56 -> 1 <= n <= 7 -> first mod 2 ^ (n + 1) = 0 -> (maxLen <= 0 \/ len s <= maxLen) -> len s <= maxRaw ->
  partial (fun b => parseString b n maxRaw maxLen) [] (appendString [] first n s) s.
Proof.
  intros Hs Hl Hn Hf Hm Hr. pose proof (readString_append first n s [] maxLen Hs Hl Hn Hf Hm) as Hread. rewrite app_nil_r in Hread.
  destruct (appendString_split first n s Hs Hn Hf) as (first' & body & huffman & E & H1 & H2 & H3 & _ & _ & _). rewrite E in *. pose proof (len_nonneg body) as H0.
  destruct (parseInt_partial first' n (len body) ltac:(lia) H1 ltac:(lia)) as [Hw Hp]. set (w := appendInt [] first' n (len body)) in *.
  assert (0 < len w) as Hw0 by (destruct (appendInt_shape first' n (len body) ltac:(lia) H0) as (x & tl & Ew & _); unfold w; rewrite Ew, len_cons; pose proof (len_nonneg tl); lia).
  split.
  - intros rest. unfold parseString. rewrite <- app_assoc, Hw, (proj2 (Z.eqb_neq _ _)), (proj2 (Z.ltb_ge _ _)) by lia.
    rewrite !len_app, (proj2 (Z.ltb_ge _ _)) by (pose proof (len_nonneg rest); lia). rewrite app_assoc, <- len_app, ztake_app, Hread. reflexivity.
  - intros p q Epq Hq. unfold parseString. destruct (Z.ltb_spec (len p) (len w)) as [Hlt|Hge].
    + assert (exists r, w = p ++ r /\ r <> []) as (r & Er & Hr0).
      { exists (drop (length p) w). assert (take (length p) w = p) as Et.
        { apply (f_equal (take (length p))) in Epq. rewrite take_app_length, take_app_le in Epq by (unfold len in Hlt; lia). exact Epq. }
        split; [rewrite <- Et at 1; now rewrite take_drop|]. intros Hd. apply (f_equal length) in Hd. rewrite length_drop in Hd. cbn in Hd. unfold len in Hlt. lia. }
      now rewrite (Hp p r Er Hr0).
    + assert (exists r, p = w ++ r) as (r & ->).
      { exists (drop (length w) p). apply (f_equal (take (length w))) in Epq. rewrite take_app_length, take_app_le in Epq by (unfold len in Hge; lia). rewrite Epq at 1. now rewrite take_drop. }
      rewrite Hw, (proj2 (Z.eqb_neq _ _)), (proj2 (Z.ltb_ge _ _)) by lia. rewrite <- app_assoc in Epq. apply app_inv_head in Epq. subst body.
      rewrite (proj2 (Z.ltb_lt _ _)); [reflexivity|]. rewrite !len_app. destruct q as [|z q]; [congruence|]. rewrite len_cons. pose proof (len_nonneg q). lia.
Qed.

(** ** What a reader took *)

Lemma readInt_loop_split v0 shift b v rest :
  readInt_loop v0 shift b = Ok (v, rest) ->
  exists read, read <> [] /\ b = read ++ rest /\ forall x, readInt_loop v0 shift (read ++ x) = Ok (v, x).
Proof.
  revert v0 shift. induction b as [|c b IH]; intros v0 shift; cbn [readInt_loop]; [discriminate|]. destruct (c .& 0x80 =? 0) eqn:Ec.
  - intros [= <- <-]. exists [c]. splits; [discriminate|reflexivity|]. intros x. cbn [app readInt_loop]. now rewrite Ec.
  - destruct (56 <=? shift + 7) eqn:Es; [discriminate|]. intros (read & _ & -> & Hx)%IH. exists (c :: read). splits; [discriminate|reflexivity|].
    intros x. cbn [app readInt_loop]. rewrite Ec, Es. apply Hx.
Qed.

(** What was read is read the same whatever follows it. *)
Lemma readInt_split b n v rest :
  bytes_ok b -> 1 <= n <= 8 -> readInt b n = Ok (v, rest) ->
  0 <= v < 2 ^ 57 /\ exists read, read <> [] /\ b = read ++ rest /\ forall x, readInt (read ++ x) n = Ok (v, x).
Proof.
  intros Hb Hn H. split.
  - rewrite readInt_hpack in H. destruct (HInt.readInt b n) as [[v' r']|] eqn:E; [|discriminate]. injection H as <- <-. apply HInt.readInt_bounded_suffix in E as [E _]; auto.
    assert (2 ^ n <= 2 ^ 8) by (apply Z.pow_le_mono_r; lia). lia.
  - destruct b as [|c b]; [discriminate|]. cbn [readInt] in H. destruct (c .& u64 (u64 (1 .<< n) - 1) <? u64 (u64 (1 .<< n) - 1)) eqn:E.
    + injection H as <- <-. exists [c]. splits; [discriminate|reflexivity|]. intros x. cbn [app readInt]. now rewrite E.
    + apply readInt_loop_split in H as (read & _ & -> & Hx). exists (c :: read). splits; [discriminate|reflexivity|]. intros x. cbn [app readInt]. rewrite E. apply Hx.
Qed.

(** A Huffman string that decodes within one bound decodes within any that
    holds it. *)
Lemma HuffmanDecode_within raw maxLen s :
  bytes_ok raw -> Huffman.HuffmanDecode raw maxLen = Ok s ->
  bytes_ok s /\ (maxLen <= 0 \/ len s <= maxLen) /\ forall maxLen', maxLen' <= 0 \/ len s <= maxLen' -> Huffman.HuffmanDecode raw maxLen' = Ok s.
Proof.
  intros Hraw H. apply Huffman.huffmanDecode_bits in H as (Hs & Hk & Hl); [|exact Hraw]. splits; auto. intros maxLen' H'. apply Huffman.huffmanDecode_bits; auto.
Qed.

Lemma readString_split b n maxLen s rest :
  bytes_ok b -> 1 <= n <= 7 -> readString b n maxLen = Ok (s, rest) ->
  bytes_ok s /\ (maxLen <= 0 \/ len s <= maxLen) /\
  exists hdr raw, hdr <> [] /\ b = (hdr ++ raw) ++ rest /\ (forall x, readInt (hdr ++ x) n = Ok (len raw, x)) /\
    forall maxLen' x, maxLen' <= 0 \/ len raw <= maxLen' /\ len s <= maxLen' -> readString ((hdr ++ raw) ++ x) n maxLen' = Ok (s, x).
Proof.
  intros Hb Hn H. destruct b as [|c b0] eqn:Eb; [discriminate|]. unfold readString in H. rewrite <- Eb in *.
  destruct (readInt b n) as [[lv after]|e] eqn:Er; [|discriminate]. destruct (readInt_split b n lv after Hb ltac:(lia) Er) as (Hl & hdr & Hh & E & Hx).
  destruct (Z.ltb_spec (len after) lv); [discriminate|]. destruct ((0 <? maxLen) && (maxLen <? len (ztake lv after))) eqn:Em; [discriminate|].
  rewrite andb_false_iff, !Z.ltb_ge in Em. assert (len (ztake lv after) = lv) as El by (apply len_ztake; lia).
  assert (bytes_ok (ztake lv after)) as Hraw by (rewrite E in Hb; apply bytes_ok_app in Hb as [_ Hb]; now apply Forall_take).
  assert (forall s maxLen', (maxLen' <= 0 \/ lv <= maxLen' /\ len s <= maxLen') -> (if negb (c .& (1 .<< n) =? 0) then Huffman.HuffmanDecode (ztake lv after) maxLen' = Ok s else s = ztake lv after) ->
    forall x, readString ((hdr ++ ztake lv after) ++ x) n maxLen' = Ok (s, x)) as Hread.
  { intros s' maxLen' Hm' Hd x. destruct hdr as [|h hdr]; [congruence|]. rewrite Eb in E. cbn [app] in E. injection E as <- E. rewrite <- app_assoc. cbn [app]. unfold readString.
    change (c :: hdr ++ ztake lv after ++ x) with ((c :: hdr) ++ (ztake lv after ++ x)). rewrite Hx, len_app, (proj2 (Z.ltb_ge _ _)) by (pose proof (len_nonneg x); lia).
    assert (ztake lv (ztake lv after ++ x) = ztake lv after) as -> by (rewrite <- El at 1; apply ztake_app).
    assert (zdrop lv (ztake lv after ++ x) = x) as -> by (rewrite <- El at 1; apply zdrop_app).
    assert ((0 <? maxLen') && (maxLen' <? len (ztake lv after)) = false) as -> by (destruct (Z.ltb_spec 0 maxLen'), (Z.ltb_spec maxLen' (len (ztake lv after))); cbn; auto; lia).
    destruct (negb (c .& (1 .<< n) =? 0)); cbn [negb]; [now rewrite Hd|now subst]. }
  assert (b = (hdr ++ ztake lv after) ++ zdrop lv after) as Esplit by (rewrite <- app_assoc; unfold ztake, zdrop; rewrite take_drop; exact E).
  destruct (negb (c .& (1 .<< n) =? 0)); cbn [negb] in H.
  - destruct (Huffman.HuffmanDecode _ maxLen) as [s'|e] eqn:Ed; [|destruct e; discriminate]. injection H as -> <-.
    apply HuffmanDecode_within in Ed as (Hs & Hsl & Hd); [|exact Hraw]. splits; auto. exists hdr, (ztake lv after). splits; auto; [now rewrite El|].
    intros maxLen' x Hm'. rewrite El in Hm'. apply Hread; [exact Hm'|]. apply Hd. lia.
  - injection H as <- <-. split; [exact Hraw|]. split; [lia|]. exists hdr, (ztake lv after). splits; auto; [now rewrite El|].
    intros maxLen' x Hm'. rewrite El in Hm'. apply Hread; [lia|reflexivity].
Qed.

Lemma parseInt_bounds b n v k : bytes_ok b -> 1 <= n <= 8 -> parseInt b n = Ok (v, k) -> 0 <= v < 2 ^ 57 /\ 0 <= k <= len b.
Proof.
  intros Hb Hn. rewrite parseInt_hpack. destruct (HInt.readInt b n) as [[v' rest]|e] eqn:E.
  - intros [= <- <-]. apply HInt.readInt_bounded_suffix in E as [Hv (read & _ & ->)]; auto. assert (2 ^ n <= 2 ^ 8) by (apply Z.pow_le_mono_r; lia).
    rewrite len_app. pose proof (len_nonneg read). pose proof (len_nonneg rest). lia.
  - pose proof (len_nonneg b). destruct e; try discriminate. intros [= <- <-]. lia.
Qed.

Lemma parseString_bounds b n maxRaw maxLen s k :
  bytes_ok b -> 1 <= n <= 7 -> parseString b n maxRaw maxLen = Ok (s, k) ->
  0 <= k <= len b /\ bytes_ok s /\ (k = 0 \/ maxLen <= 0 \/ len s <= maxLen).
Proof.
  intros Hb Hn. unfold parseString. destruct (parseInt b n) as [[l k']|e] eqn:Ei; [|discriminate]. apply parseInt_bounds in Ei as [Hl Hk]; auto; [|lia]. pose proof (len_nonneg b).
  destruct (k' =? 0); [intros [= <- <-]; split; [lia|]; split; [constructor|now left]|]. destruct (maxRaw <? l); [discriminate|].
  destruct (Z.ltb_spec (len b - k') l); [intros [= <- <-]; split; [lia|]; split; [constructor|now left]|].
  destruct (readString _ n maxLen) as [[s' rest]|e] eqn:Es; [|discriminate]. intros [= <- <-].
  apply readString_split in Es as (Hs & Hm & _); auto; [|now apply Forall_take]. split; [lia|]. split; [exact Hs|]. now right.
Qed.

End Qpack.
