(* ===== verification/QpackTable.v ===== *)
(** * The QPACK dynamic table (src/http3/qpack/table.go)

    The table the encoder and the decoder each keep: a ring that grows, with
    the counts that name its entries. What it holds is a suffix of the list of
    everything ever inserted, [tracks], which is what the two sides agree on.

    An operation returns [None] where the code would index out of range or
    divide by zero; the lemmas show that it never does. *)

From S2P Require Import Prelude HpackTables.
From stdpp Require Import base list numbers.
From Stdlib Require Import ZArith Lia.

Local Open Scope Z_scope.
Local Open Scope go_scope.

Module QTable.

Definition entryOverhead : Z := 32.

Record table : Type := mkTable {
  ring : list HeaderField;
  head : Z;
  n : Z;
  inserted : Z;
  size : Z;
  capacity : Z
}.

(** The zero value. *)
Definition empty : table := mkTable [] 0 0 0 0 0.

Definition entrySize (name value : bytes) : Z := u64 (u64 (len name + len value) + entryOverhead).

Definition dropped (t : table) : Z := u64 (inserted t - u64 (n t)).

(** [t.ring[i%len(t.ring)]] for an [i] that is not negative. *)
Definition at_ring (t : table) (i : Z) : option HeaderField :=
  if len (ring t) =? 0 then None else ring t !! Z.to_nat (i mod len (ring t)).

Definition entry (t : table) (abs : Z) : option HeaderField := at_ring t (head t + u64 (abs - dropped t)).

Definition has (t : table) (abs : Z) : bool := (abs <? inserted t) && (dropped t <=? abs).

Definition evict (t : table) : option (HeaderField * table) :=
  match ring t !! Z.to_nat (head t) with
  | None => None
  | Some f =>
      let ring' := <[Z.to_nat (head t) := emptyField]> (ring t) in
      Some (f, mkTable ring' ((head t + 1) mod len (ring t)) (n t - 1) (inserted t)
                 (u64 (size t - entrySize (Name f) (Value f))) (capacity t))
  end.

(** The ring of [add], copied to one twice the size. *)
Fixpoint copyRing (t : table) (i count : nat) (ring' : list HeaderField) : option (list HeaderField) :=
  match count with
  | O => Some ring'
  | S count =>
      match at_ring t (head t + Z.of_nat i) with
      | None => None
      | Some f => copyRing t (S i) count (<[i := f]> ring')
      end
  end.

Definition grown (t : table) : option table :=
  if n t =? len (ring t) then
    match copyRing t 0 (Z.to_nat (n t)) (replicate (Z.to_nat (Z.max 8 (2 * len (ring t)))) emptyField) with
    | None => None
    | Some ring' => Some (mkTable ring' 0 (n t) (inserted t) (size t) (capacity t))
    end
  else Some t.

Definition add (t : table) (f : HeaderField) : option table :=
  match grown t with
  | None => None
  | Some t =>
      let i := Z.to_nat ((head t + n t) mod len (ring t)) in
      if (i <? length (ring t))%nat then
        Some (mkTable (<[i := f]> (ring t)) (head t) (n t + 1) (u64 (inserted t + 1))
                (u64 (size t + entrySize (Name f) (Value f))) (capacity t))
      else None
  end.

Definition setCapacity (t : table) (c : Z) : table := mkTable (ring t) (head t) (n t) (inserted t) (size t) c.

(** ** What a table holds *)

Definition weigh (f : HeaderField) : Z := len (Name f) + len (Value f) + entryOverhead.

Fixpoint weight (l : list HeaderField) : Z :=
  match l with [] => 0 | f :: l => weigh f + weight l end.

(** The entries of the ring, oldest first, at [head] and after. *)
Definition laid (t : table) (l : list HeaderField) : Prop :=
  forall i f, l !! i = Some f -> at_ring t (head t + Z.of_nat i) = Some f.

(** [t] is what is left of [log], everything inserted so far, with [k] gone. *)
Record tracks (t : table) (log : list HeaderField) (k : nat) : Prop := {
  tr_head : 0 <= head t /\ (head t < len (ring t) \/ head t = 0 /\ ring t = []);
  tr_inserted : inserted t = len log;
  tr_k : (k <= length log)%nat;
  tr_n : n t = len log - Z.of_nat k;
  tr_fit : n t <= len (ring t);
  tr_laid : laid t (drop k log);
  tr_size : size t = weight (drop k log);
  tr_log : len log < 2 ^ 62;
  tr_weight : weight (drop k log) < 2 ^ 62
}.

(** ** Lemmas *)

Lemma weigh_pos f : 32 <= weigh f.
Proof. unfold weigh, entryOverhead. pose proof (len_nonneg (Name f)). pose proof (len_nonneg (Value f)). lia. Qed.

Lemma weight_nonneg l : 0 <= weight l.
Proof. induction l as [|f l IH]; cbn; [lia|]. pose proof (weigh_pos f). lia. Qed.

Lemma weight_app l k : weight (l ++ k) = weight l + weight k.
Proof. induction l as [|f l IH]; cbn; [lia|]. lia. Qed.

(** Every entry weighs at least [entryOverhead]. *)
Lemma weight_count l : 32 * len l <= weight l.
Proof. induction l as [|f l IH]; [reflexivity|]. cbn [weight]. rewrite len_cons. pose proof (weigh_pos f). lia. Qed.

Lemma entrySize_weigh f : weigh f < 2 ^ 62 -> entrySize (Name f) (Value f) = weigh f.
Proof.
  unfold weigh, entrySize, entryOverhead. intros H. pose proof (len_nonneg (Name f)). pose proof (len_nonneg (Value f)).
  rewrite (u64_id (len _ + len _)), u64_id by lia. reflexivity.
Qed.

Lemma drop_cons {A} (l : list A) k : (k < length l)%nat -> exists x, l !! k = Some x /\ drop k l = x :: drop (S k) l.
Proof. intros Hk. destruct (lookup_lt_is_Some_2 l k Hk) as [x Hx]. exists x. split; [exact Hx|]. now apply drop_S. Qed.

Section Tracks.
Context (t : table) (log : list HeaderField) (k : nat).
Hypothesis (Ht : tracks t log k).

Lemma dropped_tracks : dropped t = Z.of_nat k.
Proof.
  destruct Ht as [_ Hi Hk Hn _ _ _ Hl _]. unfold dropped. unfold len in *. rewrite Hi, Hn. rewrite (u64_id (Z.of_nat (length log) - Z.of_nat k)), u64_id; lia.
Qed.

Lemma has_tracks abs : has t abs = true <-> Z.of_nat k <= abs < len log.
Proof.
  unfold has. rewrite dropped_tracks, (tr_inserted _ _ _ Ht), andb_true_iff, Z.ltb_lt, Z.leb_le. lia.
Qed.

(** An entry is found by its absolute index. *)
Lemma entry_tracks abs : has t abs = true -> exists f, entry t abs = Some f /\ log !! Z.to_nat abs = Some f.
Proof.
  intros Hh. apply has_tracks in Hh. destruct (lookup_lt_is_Some_2 log (Z.to_nat abs)) as [f Hf]; [unfold len in Hh; lia|]. exists f. split; [|exact Hf].
  unfold entry. rewrite dropped_tracks, u64_id by (pose proof (tr_log _ _ _ Ht); lia).
  replace (abs - Z.of_nat k) with (Z.of_nat (Z.to_nat abs - k)) by lia. apply (tr_laid _ _ _ Ht). rewrite lookup_drop. replace (k + (Z.to_nat abs - k))%nat with (Z.to_nat abs) by lia. exact Hf.
Qed.

(** What is in the table weighs at least 32 bytes an entry. *)
Lemma dropped_bound : len log - Z.of_nat k <= weight (drop k log) / 32.
Proof.
  apply Z.div_le_lower_bound; [lia|]. pose proof (weight_count (drop k log)) as H. unfold len in *. rewrite length_drop in H. pose proof (tr_k _ _ _ Ht). lia.
Qed.

End Tracks.

Lemma at_ring_lookup t i : 0 < len (ring t) -> at_ring t i = ring t !! Z.to_nat (i mod len (ring t)).
Proof. intros H. unfold at_ring. now rewrite (proj2 (Z.eqb_neq _ _)) by lia. Qed.

(** Two places of the ring less than its length apart are not the same. *)
Lemma ring_apart h i j L : 0 < L -> 0 <= i < L -> 0 <= j < L -> (h + i) mod L = (h + j) mod L -> i = j.
Proof.
  intros HL Hi Hj E. assert ((i - j) mod L = 0) as H0.
  { replace (i - j) with ((h + i) - (h + j)) by lia. rewrite Zminus_mod, E, Z.sub_diag. apply Zmod_0_l. }
  apply Z.mod_divide in H0 as [q Hq]; [|lia]. assert (q = 0) by nia. lia.
Qed.

Lemma evict_tracks t log k :
  tracks t log k -> (k < length log)%nat ->
  exists f t', log !! k = Some f /\ evict t = Some (f, t') /\ tracks t' log (S k) /\ capacity t' = capacity t.
Proof.
  intros [Hh Hi Hk Hn Hfit Hlaid Hsize Hlog Hw] Hlt. destruct (drop_cons log k Hlt) as (f & Hf & Ed). exists f.
  assert (0 < len (ring t)) as HL by (unfold len in *; lia).
  assert (head t < len (ring t)) as Hhd by (destruct Hh as [_ [?|[_ E]]]; [assumption|rewrite E in HL; discriminate HL]).
  pose proof (Hlaid O f ltac:(rewrite Ed; reflexivity)) as H0. cbn in H0. rewrite Z.add_0_r, at_ring_lookup in H0 by exact HL. rewrite Z.mod_small in H0 by lia.
  assert (weigh f < 2 ^ 62) as Hwf by (rewrite Ed in Hw; cbn in Hw; pose proof (weight_nonneg (drop (S k) log)); lia).
  unfold evict. rewrite H0. eexists. split; [exact Hf|]. split; [reflexivity|]. split; [|reflexivity].
  assert (len (<[Z.to_nat (head t) := emptyField]> (ring t)) = len (ring t)) as Elen by (unfold len; now rewrite length_insert).
  split; cbn; rewrite ?Elen; auto; try lia.
  - pose proof (Z.mod_pos_bound (head t + 1) (len (ring t)) HL). lia.
  - intros i g Hg. rewrite at_ring_lookup by (cbn; lia). cbn. rewrite Elen, Zplus_mod_idemp_l.
    replace (head t + 1 + Z.of_nat i) with (head t + Z.of_nat (S i)) by lia.
    assert (Hg' : drop k log !! S i = Some g) by (rewrite Ed; exact Hg). pose proof (Hlaid _ _ Hg') as Hat. rewrite at_ring_lookup in Hat by lia.
    rewrite list_lookup_insert_ne; [exact Hat|]. intros E. apply lookup_lt_Some in Hg'. rewrite length_drop in Hg'.
    pose proof (Z.mod_pos_bound (head t + Z.of_nat (S i)) (len (ring t)) HL).
    apply (f_equal Z.of_nat) in E. rewrite !Z2Nat.id in E by lia.
    enough (0 = Z.of_nat (S i)) by lia. apply (ring_apart (head t) _ _ (len (ring t))); auto; try (unfold len in *; lia). rewrite Z.add_0_r, Z.mod_small by lia. exact E.
  - rewrite entrySize_weigh, Hsize, Ed by exact Hwf. cbn. pose proof (weight_nonneg (drop (S k) log)). rewrite Ed in Hw. cbn in Hw. rewrite u64_id; pose proof (weigh_pos f); lia.
  - rewrite Ed in Hw. cbn in Hw. pose proof (weigh_pos f). lia.
Qed.

(** The copy puts the entries where they are read from a ring with head 0. *)
Lemma copyRing_spec t l : laid t l -> forall count i ring',
  (i + count <= length l)%nat -> (length l <= length ring')%nat ->
  exists ring2, copyRing t i count ring' = Some ring2 /\ length ring2 = length ring' /\
    (forall j, (j < i)%nat -> ring2 !! j = ring' !! j) /\ (forall j, (i <= j < i + count)%nat -> ring2 !! j = l !! j).
Proof.
  intros Hlaid. induction count as [|count IH]; intros i ring' Hc Hr; cbn [copyRing].
  - exists ring'. splits; auto. intros j Hj. lia.
  - destruct (lookup_lt_is_Some_2 l i ltac:(lia)) as [f Hf]. rewrite (Hlaid _ _ Hf).
    destruct (IH (S i) (<[i := f]> ring') ltac:(lia) ltac:(rewrite length_insert; lia)) as (ring2 & E & Hlen & Hlow & Hhigh).
    exists ring2. rewrite length_insert in Hlen. splits; auto.
    + intros j Hj. rewrite Hlow, list_lookup_insert_ne by lia. reflexivity.
    + intros j Hj. destruct (Nat.eq_dec j i) as [->|Hne]; [|apply Hhigh; lia]. rewrite Hlow, list_lookup_insert_eq by lia. now rewrite Hf.
Qed.

Lemma grown_tracks t log k :
  tracks t log k -> exists t', grown t = Some t' /\ tracks t' log k /\ n t' < len (ring t') /\ capacity t' = capacity t.
Proof.
  intros Ht. pose proof Ht as [Hh Hi Hk Hn Hfit Hlaid Hsize Hlog Hw]. unfold grown. destruct (Z.eqb_spec (n t) (len (ring t))) as [E|Hne]; [|exists t; splits; auto; lia].
  set (c := Z.to_nat (Z.max 8 (2 * len (ring t)))). pose proof (len_nonneg (ring t)).
  assert (length (drop k log) = Z.to_nat (n t)) as El by (rewrite length_drop; unfold len in *; lia).
  destruct (copyRing_spec t (drop k log) Hlaid (Z.to_nat (n t)) 0 (replicate c emptyField) ltac:(lia) ltac:(rewrite length_replicate; lia)) as (ring2 & -> & Hlen & _ & Hcopy).
  eexists. split; [reflexivity|]. rewrite length_replicate in Hlen. assert (len ring2 = Z.max 8 (2 * len (ring t))) as Elen by (unfold len at 1; lia).
  split; [|cbn; split; [lia|reflexivity]].
  split; cbn; auto; try lia.
  intros i f Hf. rewrite at_ring_lookup by (cbn [ring]; lia). cbn [head ring]. rewrite Z.add_0_l. pose proof (lookup_lt_Some _ _ _ Hf). rewrite Z.mod_small, Nat2Z.id by lia. rewrite Hcopy by lia. exact Hf.
Qed.

Lemma add_tracks t log k f :
  tracks t log k -> len log + 1 < 2 ^ 62 -> weight (drop k log) + weigh f < 2 ^ 62 ->
  exists t', add t f = Some t' /\ tracks t' (log ++ [f]) k /\ capacity t' = capacity t.
Proof.
  intros Ht Hl Hw. unfold add. destruct (grown_tracks t log k Ht) as (t1 & -> & Ht1 & Hroom & Hcap). clear Ht.
  destruct Ht1 as [Hh Hi Hk Hn Hfit Hlaid Hsize Hlog Hw1]. pose proof (weight_nonneg (drop k log)). pose proof (weigh_pos f). pose proof (len_nonneg log).
  assert (0 <= n t1) as Hn0 by (unfold len in *; lia).
  pose proof (Z.mod_pos_bound (head t1 + n t1) (len (ring t1)) ltac:(lia)) as Hm.
  rewrite (proj2 (Nat.ltb_lt _ _)) by (unfold len in *; lia). eexists. split; [reflexivity|]. split; [|exact Hcap].
  assert (forall x, len (<[Z.to_nat ((head t1 + n t1) mod len (ring t1)) := x]> (ring t1)) = len (ring t1)) as Elen by (intros x; unfold len; now rewrite length_insert).
  assert (drop k (log ++ [f]) = drop k log ++ [f]) as Ed by (rewrite drop_app_le; [reflexivity|exact Hk]).
  split; cbn; rewrite ?Elen, ?len_app, ?Ed, ?weight_app; cbn [weight]; rewrite ?len_cons, ?len_nil; auto; try lia.
  - rewrite Hi, u64_id; lia.
  - rewrite length_app; lia.
  - intros i g Hg. rewrite at_ring_lookup by (cbn; rewrite Elen; lia). cbn. rewrite Elen.
    assert (length (drop k log) = Z.to_nat (n t1)) as El by (rewrite length_drop; unfold len in *; lia).
    apply lookup_app_Some in Hg as [Hg|[Hge Hg]].
    + pose proof (lookup_lt_Some _ _ _ Hg). rewrite list_lookup_insert_ne; [pose proof (Hlaid _ _ Hg) as Hat; now rewrite at_ring_lookup in Hat by lia|].
      intros E. pose proof (Z.mod_pos_bound (head t1 + Z.of_nat i) (len (ring t1)) ltac:(lia)). apply (f_equal Z.of_nat) in E. rewrite !Z2Nat.id in E by lia.
      apply ring_apart in E; lia.
    + apply list_lookup_singleton_Some in Hg as [Hi0 ->]. assert (Z.of_nat i = n t1) as -> by lia. apply list_lookup_insert_eq. unfold len in *; lia.
  - rewrite entrySize_weigh, Hsize, u64_id by lia. lia.
Qed.

Lemma setCapacity_tracks t log k c : tracks t log k -> tracks (setCapacity t c) log k.
Proof. now intros [? ? ? ? ? ? ? ? ?]. Qed.

Lemma empty_tracks : tracks empty [] 0.
Proof. split; cbn; auto; try lia; try (split; [lia|now right]); try reflexivity. intros i f Hf. discriminate. Qed.

(** [k'] is the first index from [k] on with room for [room] more bytes. *)
Definition makes_room (cap : Z) (log : list HeaderField) (k : nat) (room : Z) (k' : nat) : Prop :=
  (k <= k' <= length log)%nat /\ weight (drop k' log) + room <= cap /\
  forall j, (k <= j < k')%nat -> cap < weight (drop j log) + room.

(** A weight within the capacity is that of what is inserted. *)
Lemma makes_room_weight cap log k f k' : makes_room cap log k (weigh f) k' -> weight (drop k' (log ++ [f])) <= cap.
Proof. intros (Hk & Hw & _). rewrite drop_app_le, weight_app by lia. cbn. lia. Qed.

(** Both sides find the same index. *)
Lemma makes_room_unique cap log k room k1 k2 : makes_room cap log k room k1 -> makes_room cap log k room k2 -> k1 = k2.
Proof.
  intros (H1 & H2 & H3) (H4 & H5 & H6). destruct (Nat.lt_trichotomy k1 k2) as [Hlt|[E|Hlt]]; [|exact E|].
  - specialize (H6 k1 ltac:(lia)). lia.
  - specialize (H3 k2 ltac:(lia)). lia.
Qed.

Lemma weight_drop_le l i j : (i <= j)%nat -> weight (drop j l) <= weight (drop i l).
Proof.
  intros Hij. replace j with (i + (j - i))%nat by lia. rewrite <- drop_drop. generalize (drop i l) as m. generalize (j - i)%nat as d.
  induction d as [|d IH]; intros [|f m]; cbn; try lia. specialize (IH m). pose proof (weigh_pos f). lia.
Qed.

End QTable.
