(* ===== verification/QpackDecoder.v ===== *)
(** * The QPACK decoder (src/http3/qpack/decoder.go, qpack.go)

    The decoder of a connection: its dynamic table, which the encoder stream
    fills, what it owes the encoder on the decoder stream, the strings it
    remembers by their place in a section, and the decoding of field sections.

    A function that changes the decoder takes it and returns it with its
    result; [None] is where the code would index out of range, or a loop that
    has not ended, which the theorems show never happens. *)

From S2P Require Import Prelude HpackTables HpackHuffman QpackCodec QpackTable.
From stdpp Require Import base list numbers gmap.
From Stdlib Require Import ZArith Lia.

Local Open Scope Z_scope.
Local Open Scope go_scope.

Module QDecoder.
Import Qpack QTable.

(** Go's [int(x)] of a [uint64]. *)
Definition int (x : Z) : Z := if x <? 2 ^ 63 then x else x - 2 ^ 64.

(** ** The table the encoder stream fills *)

Record decoderTable : Type := mkDyn {
  tab : table;
  maxCapacity : Z;
  maxEntries : Z;
  maxBlocked : Z;
  blocked : gset Z;
  told : Z;
  in_ : bytes;
  out : bytes
}.

Definition with_tab (t : decoderTable) (x : table) : decoderTable :=
  mkDyn x (maxCapacity t) (maxEntries t) (maxBlocked t) (blocked t) (told t) (in_ t) (out t).
Definition with_blocked (t : decoderTable) (x : gset Z) : decoderTable :=
  mkDyn (tab t) (maxCapacity t) (maxEntries t) (maxBlocked t) x (told t) (in_ t) (out t).
Definition with_told (t : decoderTable) (x : Z) : decoderTable :=
  mkDyn (tab t) (maxCapacity t) (maxEntries t) (maxBlocked t) (blocked t) x (in_ t) (out t).
Definition with_in (t : decoderTable) (x : bytes) : decoderTable :=
  mkDyn (tab t) (maxCapacity t) (maxEntries t) (maxBlocked t) (blocked t) (told t) x (out t).
Definition with_out (t : decoderTable) (x : bytes) : decoderTable :=
  mkDyn (tab t) (maxCapacity t) (maxEntries t) (maxBlocked t) (blocked t) (told t) (in_ t) x.

(** [for t.size+size > t.capacity { t.evict() }], which with no [size] is the
    loop of Set Dynamic Table Capacity. *)
Fixpoint evictFor (fuel : nat) (t : table) (room : Z) : option table :=
  if capacity t <? u64 (size t + room) then
    match fuel with
    | O => None
    | S fuel => match evict t with None => None | Some (_, t) => evictFor fuel t room end
    end
  else Some t.

Definition insert (t : table) (f : HeaderField) : option (table * res qerr unit) :=
  let size' := entrySize (Name f) (Value f) in
  if capacity t <? size' then Some (t, Err ErrEncoderStream)
  else
    match evictFor (Z.to_nat (n t)) t size' with
    | None => None
    | Some t => match add t f with None => None | Some t => Some (t, Ok ()) end
    end.

(** An insertion that ends an instruction of [k] bytes. *)
Definition inserting (t : decoderTable) (f : HeaderField) (k : Z) : option (decoderTable * res qerr Z) :=
  match insert (tab t) f with
  | None => None
  | Some (x, Ok _) => Some (with_tab t x, Ok k)
  | Some (x, Err e) => Some (with_tab t x, Err e)
  end.

(** The entry of relative index [i] in an encoder instruction. *)
Definition newest (t : table) (i : Z) : option (res qerr HeaderField) :=
  if (inserted t <=? i) || negb (has t (u64 (u64 (inserted t - 1) - i))) then Some (Err ErrEncoderStream)
  else match entry t (u64 (u64 (inserted t - 1) - i)) with None => None | Some f => Some (Ok f) end.

Definition staticEntry (i : Z) : option HeaderField := staticTable !! Z.to_nat i.

(** Insert With Name Reference, its name read and [k] bytes of it. *)
Definition namedInsert (t : decoderTable) (b : bytes) (k : Z) (name : bytes) : option (decoderTable * res qerr Z) :=
  match parseString (zdrop k b) 7 (u64 (4 * maxCapacity t)) (int (maxCapacity t)) with
  | Err e => Some (t, Err e)
  | Ok (value, n) => if n =? 0 then Some (t, Ok 0) else inserting t (mkField name value) (k + n)
  end.

Definition instruction (t : decoderTable) (b : bytes) : option (decoderTable * res qerr Z) :=
  let maxLen := int (maxCapacity t) in
  let maxRaw := u64 (4 * maxCapacity t) in
  match b with
  | [] => None
  | c :: _ =>
      if negb (c .& 0x80 =? 0) then
        match parseInt b 6 with
        | Err e => Some (t, Err e)
        | Ok (i, k) =>
            if k =? 0 then Some (t, Ok 0)
            else if negb (c .& 0x40 =? 0) then
              if len staticTable <=? i then Some (t, Err ErrEncoderStream)
              else match staticEntry i with None => None | Some f => namedInsert t b k (Name f) end
            else
              match newest (tab t) i with
              | None => None
              | Some (Err e) => Some (t, Err e)
              | Some (Ok f) => namedInsert t b k (Name f)
              end
        end
      else if c .& 0xc0 =? 0x40 then
        match parseString b 5 maxRaw maxLen with
        | Err e => Some (t, Err e)
        | Ok (name, k) => if k =? 0 then Some (t, Ok 0) else namedInsert t b k name
        end
      else if c .& 0xe0 =? 0x20 then
        match parseInt b 5 with
        | Err e => Some (t, Err e)
        | Ok (c, k) =>
            if k =? 0 then Some (t, Ok 0)
            else if maxCapacity t <? c then Some (t, Err ErrEncoderStream)
            else
              match evictFor (Z.to_nat (n (tab t))) (setCapacity (tab t) c) 0 with
              | None => None
              | Some x => Some (with_tab t x, Ok k)
              end
        end
      else
        match parseInt b 5 with
        | Err e => Some (t, Err e)
        | Ok (i, k) =>
            if k =? 0 then Some (t, Ok 0)
            else
              match newest (tab t) i with
              | None => None
              | Some (Err e) => Some (t, Err e)
              | Some (Ok f) => inserting t f k
              end
        end
  end.

(** The loop of FeedEncoder: what is left of the buffer. *)
Fixpoint feedLoop (fuel : nat) (t : decoderTable) (buf : bytes) : option (decoderTable * res qerr bytes) :=
  match buf with
  | [] => Some (t, Ok [])
  | _ :: _ =>
      match fuel with
      | O => None
      | S fuel =>
          match instruction t buf with
          | None => None
          | Some (t, Err _) => Some (t, Err ErrEncoderStream)
          | Some (t, Ok n) => if n =? 0 then Some (t, Ok buf) else feedLoop fuel t (zdrop n buf)
          end
      end
  end.

(** The Insert Count Increment FeedEncoder owes. *)
Definition owe (t : decoderTable) : decoderTable :=
  if told t <? inserted (tab t) then
    with_told (with_out t (appendInt (out t) 0x00 6 (u64 (inserted (tab t) - told t)))) (inserted (tab t))
  else t.

Definition feedTable (t : decoderTable) (data : bytes) : option (decoderTable * res qerr unit) :=
  let buf := if 0 <? len (in_ t) then in_ t ++ data else data in
  let t := if 0 <? len (in_ t) then with_in t buf else t in
  match feedLoop (length buf) t buf with
  | None => None
  | Some (t, Err e) => Some (t, Err e)
  | Some (t, Ok buf) => Some (owe (with_in t buf), Ok ())
  end.

Definition requiredInsertCount (t : decoderTable) (encoded : Z) : res qerr Z :=
  let full := u64 (2 * maxEntries t) in
  if full <? encoded then Err ErrDecompression
  else
    let maxValue := u64 (inserted (tab t) + maxEntries t) in
    let ric := u64 (u64 (u64 (maxValue / full * full) + encoded) - 1) in
    if maxValue <? ric then
      if ric <=? full then Err ErrDecompression
      else let ric := u64 (ric - full) in if ric =? 0 then Err ErrDecompression else Ok ric
    else if ric =? 0 then Err ErrDecompression else Ok ric.

Definition block (t : decoderTable) (streamID : Z) : decoderTable * qerr :=
  if bool_decide (streamID ∈ blocked t) then (t, ErrBlocked)
  else if maxBlocked t <=? Z.of_nat (base.size (blocked t)) then (t, ErrDecompression)
  else (with_blocked t ({[streamID]} ∪ blocked t), ErrBlocked).

(** What a field line refers to, and how far references have gone; without a
    table, to nothing. *)
Definition referred (t : table) (abs ric largest : Z) : option (res qerr (HeaderField * Z)) :=
  if (ric <=? abs) || negb (has t abs) then Some (Err ErrDecompression)
  else match entry t abs with None => None | Some f => Some (Ok (f, Z.max largest (u64 (abs + 1)))) end.

Definition relative (t : option table) (base i ric largest : Z) : option (res qerr (HeaderField * Z)) :=
  match t with
  | None => Some (Err ErrDecompression)
  | Some t => if base <=? i then Some (Err ErrDecompression) else referred t (u64 (u64 (base - 1) - i)) ric largest
  end.

Definition postBase (t : option table) (base i ric largest : Z) : option (res qerr (HeaderField * Z)) :=
  match t with
  | None => Some (Err ErrDecompression)
  | Some t => if ric <=? i then Some (Err ErrDecompression) else referred t (u64 (base + i)) ric largest
  end.

Definition acknowledge (t : option decoderTable) (streamID ric : Z) : option decoderTable :=
  match t with
  | None => None
  | Some t =>
      if ric =? 0 then Some t
      else
        let t := with_blocked t (blocked t ∖ {[streamID]}) in
        let t := with_out t (appendInt (out t) 0x80 7 streamID) in
        Some (with_told t (Z.max (told t) ric))
  end.

(** ** The decoder *)

Record recentString : Type := mkRecent { encoded : bytes; decoded : bytes; prefix : Z }.

Record Decoder : Type := mkDecoder { recent : list recentString; place : Z; dyn : option decoderTable }.

Definition recentStrings : Z := 16.
Definition maxRecentString : Z := 256.

(** The zero value. *)
Definition zeroDecoder : Decoder := mkDecoder (replicate 16 (mkRecent [] [] 0)) 0 None.

Definition with_place (d : Decoder) (x : Z) : Decoder := mkDecoder (recent d) x (dyn d).
Definition with_recent (d : Decoder) (x : list recentString) : Decoder := mkDecoder x (place d) (dyn d).
Definition with_dyn (d : Decoder) (x : option decoderTable) : Decoder := mkDecoder (recent d) (place d) x.

Definition EnableDynamic (d : Decoder) (cap blockedMax : Z) : Decoder :=
  if cap =? 0 then d
  else with_dyn d (Some (mkDyn empty cap (cap / entryOverhead) blockedMax ∅ 0 [] [])).

Definition Dynamic (d : Decoder) : bool := bool_decide (is_Some (dyn d)).

Definition Blocked (d : Decoder) : Z := match dyn d with None => 0 | Some t => Z.of_nat (base.size (blocked t)) end.

Definition AppendInstructions (d : Decoder) (dst : bytes) : Decoder * bytes :=
  match dyn d with
  | None => (d, dst)
  | Some t => if len (out t) =? 0 then (d, dst) else (with_dyn d (Some (with_out t [])), dst ++ out t)
  end.

Definition Cancel (d : Decoder) (streamID : Z) : Decoder :=
  match dyn d with
  | None => d
  | Some t =>
      let t := with_blocked t (blocked t ∖ {[streamID]}) in
      with_dyn d (Some (with_out t (appendInt (out t) 0x40 6 streamID)))
  end.

Definition FeedEncoder (d : Decoder) (data : bytes) : option (Decoder * res qerr unit) :=
  match dyn d with
  | None => Some (d, Err ErrEncoderStream)
  | Some t => match feedTable t data with None => None | Some (t, r) => Some (with_dyn d (Some t), r) end
  end.

(** A remembered string, where it is one the bytes would be read as. *)
Definition recalled (r : recentString) (b : bytes) (n maxLen : Z) : option (bytes * bytes) :=
  match readInt b n with
  | Err _ => None
  | Ok (length, after) =>
      if (length <=? len after) && ((maxLen <=? 0) || (length <=? maxLen)) then
        let end_ := len b - len after + length in
        if end_ <=? maxRecentString then
          if (prefix r =? n) && bool_decide (encoded r = ztake end_ b) && ((maxLen <=? 0) || (len (decoded r) <=? maxLen))
          then Some (decoded r, zdrop end_ b) else None
        else None
      else None
  end.

(** [Decoder.readString]; a nil Decoder is [None]. *)
Definition dReadString (d : option Decoder) (b : bytes) (n maxLen : Z)
    : option (option Decoder * res qerr (bytes * bytes)) :=
  match d with
  | None => Some (None, readString b n maxLen)
  | Some d =>
      if recentStrings <=? place d then Some (Some d, readString b n maxLen)
      else
        let i := Z.to_nat (place d) in
        match recent d !! i with
        | None => None
        | Some r =>
            let d := with_place d (place d + 1) in
            match recalled r b n maxLen with
            | Some x => Some (Some d, Ok x)
            | None =>
                match readString b n maxLen with
                | Err e => Some (Some d, Err e)
                | Ok (s, rest) =>
                    let enc := ztake (len b - len rest) b in
                    if len enc <=? maxRecentString
                    then Some (Some (with_recent d (<[i := mkRecent enc s n]> (recent d))), Ok (s, rest))
                    else Some (Some d, Ok (s, rest))
                end
            end
        end
  end.

(** ** Field lines *)

Section Line.
Context (dynT : option table) (base ric maxSize : Z).

(** A name found, and the value after it. *)
Definition valued (d : option Decoder) (name rest : bytes) (largest : Z)
    : option (option Decoder * res qerr (HeaderField * bytes * Z)) :=
  match dReadString d rest 7 maxSize with
  | None => None
  | Some (d, Err e) => Some (d, Err e)
  | Some (d, Ok (value, rest)) => Some (d, Ok (mkField name value, rest, largest))
  end.

(** One turn of the loop of [decode]: the field, what follows it, and one past
    the largest index referred to. *)
Definition fieldLine (d : option Decoder) (largest : Z) (rest : bytes)
    : option (option Decoder * res qerr (HeaderField * bytes * Z)) :=
  match rest with
  | [] => None
  | b :: _ =>
      if negb (b .& 0x80 =? 0) then
        match readInt rest 6 with
        | Err e => Some (d, Err e)
        | Ok (i, rest) =>
            if b .& 0x40 =? 0 then
              match relative dynT base i ric largest with
              | None => None
              | Some (Err e) => Some (d, Err e)
              | Some (Ok (f, largest)) => Some (d, Ok (f, rest, largest))
              end
            else if len staticTable <=? i then Some (d, Err ErrDecompression)
            else match staticEntry i with None => None | Some f => Some (d, Ok (f, rest, largest)) end
        end
      else if b .& 0xc0 =? 0x40 then
        match readInt rest 4 with
        | Err e => Some (d, Err e)
        | Ok (i, rest) =>
            if b .& 0x10 =? 0 then
              match relative dynT base i ric largest with
              | None => None
              | Some (Err e) => Some (d, Err e)
              | Some (Ok (f, largest)) => valued d (Name f) rest largest
              end
            else if len staticTable <=? i then Some (d, Err ErrDecompression)
            else match staticEntry i with None => None | Some f => valued d (Name f) rest largest end
        end
      else if b .& 0xe0 =? 0x20 then
        match dReadString d rest 3 maxSize with
        | None => None
        | Some (d, Err e) => Some (d, Err e)
        | Some (d, Ok (name, rest)) => valued d name rest largest
        end
      else if b .& 0xf0 =? 0x10 then
        match readInt rest 4 with
        | Err e => Some (d, Err e)
        | Ok (i, rest) =>
            match postBase dynT base i ric largest with
            | None => None
            | Some (Err e) => Some (d, Err e)
            | Some (Ok (f, largest)) => Some (d, Ok (f, rest, largest))
            end
        end
      else
        match readInt rest 3 with
        | Err e => Some (d, Err e)
        | Ok (i, rest) =>
            match postBase dynT base i ric largest with
            | None => None
            | Some (Err e) => Some (d, Err e)
            | Some (Ok (f, largest)) => valued d (Name f) rest largest
            end
        end
  end.

End Line.

(** ** Field sections *)

Section Decode.
(** Where fields go: the caller's [emit] and what it changes; with none, the
    list they are appended to. *)
Context {W : Type} (emit : HeaderField -> W -> W * option Z).

(** [dyn.acknowledge] through the Decoder that holds it. *)
Definition acked (d : option Decoder) (dynT : option table) (streamID ric : Z) : option Decoder :=
  match dynT, d with
  | Some _, Some d => Some (with_dyn d (acknowledge (dyn d) streamID ric))
  | _, _ => d
  end.

Fixpoint lines (fuel : nat) (dynT : option table) (base ric maxSize streamID : Z) (d : option Decoder)
    (w : W) (largest size : Z) (rest : bytes) : option (option Decoder * W * res qerr unit) :=
  match rest with
  | [] =>
      if largest =? ric then Some (acked d dynT streamID ric, w, Ok ())
      else Some (d, w, Err ErrDecompression)
  | _ :: _ =>
      match fuel with
      | O => None
      | S fuel =>
          match fieldLine dynT base ric maxSize d largest rest with
          | None => None
          | Some (d, Err e) => Some (d, w, Err e)
          | Some (d, Ok (f, rest, largest)) =>
              let size := size + (len (Name f) + len (Value f) + 32) in
              if (0 <? maxSize) && (maxSize <? size) then Some (acked d dynT streamID ric, w, Err ErrTooLarge)
              else
                match emit f w with
                | (w, Some e) => Some (d, w, Err (ErrEmit e))
                | (w, None) => lines fuel dynT base ric maxSize streamID d w largest size rest
                end
          end
      end
  end.

(** The section's base, from its required insert count and the sign and delta
    of its prefix. *)
Definition baseOf (ric delta : Z) (sign : bool) : res qerr Z :=
  if negb sign then Ok (u64 (ric + delta))
  else if ric <=? delta then Err ErrDecompression
  else Ok (u64 (u64 (ric - delta) - 1)).

(** What the prefix says of the table: [Ok None] for a section without one. *)
Definition sectionTable (d : option Decoder) (enc : Z) : res qerr (option (decoderTable * Z)) :=
  if enc =? 0 then Ok None
  else
    match d with
    | Some (mkDecoder _ _ (Some t)) =>
        match requiredInsertCount t enc with Err e => Err e | Ok ric => Ok (Some (t, ric)) end
    | _ => Err ErrDecompression
    end.

Definition startSection (d : option Decoder) : option Decoder :=
  match d with None => None | Some d => Some (with_place d 0) end.

Definition decode (d : option Decoder) (blk : bytes) (maxSize : Z) (w : W) (streamID : Z)
    : option (option Decoder * W * res qerr unit) :=
  match readInt blk 8 with
  | Err e => Some (d, w, Err e)
  | Ok (enc, rest) =>
      match sectionTable d enc with
      | Err e => Some (d, w, Err e)
      | Ok used =>
          match rest with
          | [] => Some (d, w, Err ErrDecompression)
          | b :: _ =>
              match readInt rest 7 with
              | Err e => Some (d, w, Err e)
              | Ok (delta, rest) =>
                  match used with
                  | None => lines (length rest) None 0 0 maxSize streamID (startSection d) w 0 0 rest
                  | Some (t, ric) =>
                      match baseOf ric delta (negb (b .& 0x80 =? 0)) with
                      | Err e => Some (d, w, Err e)
                      | Ok base =>
                          if inserted (tab t) <? ric then
                            let '(t, e) := block t streamID in
                            Some (match d with None => None | Some d => Some (with_dyn d (Some t)) end, w, Err e)
                          else lines (length rest) (Some (tab t)) base ric maxSize streamID (startSection d) w 0 0 rest
                      end
                  end
              end
          end
      end
  end.

End Decode.

(** [Decode]: with a nil Decoder. *)
Definition Decode {W} (blk : bytes) (maxSize : Z) (emit : HeaderField -> W -> W * option Z) (w : W)
    : option (W * res qerr unit) :=
  match decode emit None blk maxSize w 0 with None => None | Some (_, w, r) => Some (w, r) end.

(** Fields appended to [*dst], which cannot fail. *)
Definition append (f : HeaderField) (dst : list HeaderField) : list HeaderField * option Z := (dst ++ [f], None).

Definition AppendSection (d : option Decoder) (dst : list HeaderField) (blk : bytes) (maxSize streamID : Z)
    : option (option Decoder * list HeaderField * res qerr unit) := decode append d blk maxSize dst streamID.

Definition AppendFields (d : option Decoder) (dst : list HeaderField) (blk : bytes) (maxSize : Z)
    : option (option Decoder * list HeaderField * res qerr unit) := decode append d blk maxSize dst 0.

(** ** A connection's use of a decoder *)

Inductive dop : Type :=
| Section_ (blk : bytes) (maxSize streamID : Z)
| Feed (data : bytes)
| CancelStream (streamID : Z)
| TakeInstructions.

Inductive dres : Type :=
| Fields (fs : list HeaderField) (r : res qerr unit)
| Fed (r : res qerr unit)
| Cancelled
| Taken (b : bytes).

Definition dstep (d : Decoder) (op : dop) : option (Decoder * dres) :=
  match op with
  | Section_ blk maxSize streamID =>
      match AppendSection (Some d) [] blk maxSize streamID with
      | Some (Some d, fs, r) => Some (d, Fields fs r)
      | _ => None
      end
  | Feed data => match FeedEncoder d data with None => None | Some (d, r) => Some (d, Fed r) end
  | CancelStream streamID => Some (Cancel d streamID, Cancelled)
  | TakeInstructions => let '(d, b) := AppendInstructions d [] in Some (d, Taken b)
  end.

(** A run of operations, [before] each of which something may be done to the
    decoder; a stream error ends the connection, and so the run. *)
Fixpoint drun (before : Decoder -> Decoder) (d : Decoder) (ops : list dop) : option (Decoder * list dres) :=
  match ops with
  | [] => Some (d, [])
  | op :: ops =>
      match dstep (before d) op with
      | None => None
      | Some (d, Fed (Err e)) => Some (d, [Fed (Err e)])
      | Some (d, r) => match drun before d ops with None => None | Some (d, rs) => Some (d, r :: rs) end
      end
  end.

(** A decoder that remembers no string. *)
Definition forget (d : Decoder) : Decoder := mkDecoder (recent zeroDecoder) 0 (dyn d).

(** ** The strings remembered *)

Definition recent_ok (r : recentString) : Prop :=
  encoded r = [] \/
  exists hdr raw, encoded r = hdr ++ raw /\ (forall x, readInt (hdr ++ x) (prefix r) = Ok (len raw, x)) /\
    forall maxLen x, maxLen <= 0 \/ len raw <= maxLen /\ len (decoded r) <= maxLen ->
      readString ((hdr ++ raw) ++ x) (prefix r) maxLen = Ok (decoded r, x).

Definition cache_ok (d : Decoder) : Prop := length (recent d) = 16%nat /\ Forall recent_ok (recent d) /\ 0 <= place d.

Definition caches (d : option Decoder) : Prop := match d with None => True | Some d => cache_ok d end.

Definition dynOf (d : option Decoder) : option decoderTable := match d with None => None | Some d => dyn d end.

Lemma recalled_ok r b n maxLen x :
  bytes_ok b -> 1 <= n <= 7 -> recent_ok r -> recalled r b n maxLen = Some x -> readString b n maxLen = Ok x.
Proof.
  intros Hb Hn Hr. unfold recalled. destruct (readInt b n) as [[l after]|] eqn:E; [|discriminate]. destruct (readInt_split b n l after Hb ltac:(lia) E) as (Hl & hd & Hhd & Eb & _).
  destruct ((l <=? len after) && ((maxLen <=? 0) || (l <=? maxLen))) eqn:E1; [|discriminate]. set (end_ := len b - len after + l). destruct (end_ <=? maxRecentString); [|discriminate].
  destruct ((prefix r =? n) && bool_decide (encoded r = ztake end_ b) && ((maxLen <=? 0) || (len (decoded r) <=? maxLen))) eqn:E2; [|discriminate]. intros [= <-].
  rewrite !andb_true_iff, ?orb_true_iff, ?Z.leb_le, Z.eqb_eq, bool_decide_eq_true in *. destruct E1 as [H1 H2], E2 as [[<- H3] H4].
  assert (end_ = len hd + l) as Hend by (unfold end_; rewrite Eb, len_app; lia). assert (b = ztake end_ b ++ zdrop end_ b) as Esplit by (unfold ztake, zdrop; now rewrite take_drop).
  destruct Hr as [Hr|(hdr & raw & Henc & Hi & Hs)].
  { exfalso. rewrite Hr in H3. apply (f_equal len) in H3. destruct hd as [|h0 hd]; [congruence|]. rewrite len_ztake, len_nil, len_cons in * by (rewrite Eb, len_app; pose proof (len_nonneg (h0 :: hd)); lia).
    pose proof (len_nonneg hd). lia. }
  rewrite Esplit, <- H3, Henc, <- app_assoc, Hi in E. injection E as El _. rewrite Esplit at 1. rewrite <- H3, Henc. apply Hs. lia.
Qed.

Lemma dReadString_spec d b n maxLen :
  bytes_ok b -> 1 <= n <= 7 -> caches d ->
  exists d', dReadString d b n maxLen = Some (d', readString b n maxLen) /\ caches d' /\ dynOf d' = dynOf d.
Proof.
  intros Hb Hn Hd. destruct d as [d|]; [|now exists None]. destruct Hd as (Hlen & Hall & Hp). unfold dReadString. destruct (Z.leb_spec recentStrings (place d)) as [|Hlt]; [now exists (Some d)|].
  unfold recentStrings in Hlt. destruct (lookup_lt_is_Some_2 (recent d) (Z.to_nat (place d)) ltac:(lia)) as [r Hr]. rewrite Hr. pose proof (Forall_lookup_1 _ _ _ _ Hall Hr) as Hrok.
  assert (forall l, length l = 16%nat -> Forall recent_ok l -> caches (Some (with_recent (with_place d (place d + 1)) l))) as Hc by (intros l H1 H2; split; [exact H1|split; [exact H2|cbn; lia]]).
  destruct (recalled r b n maxLen) as [x|] eqn:Erec.
  { apply recalled_ok in Erec; auto. rewrite Erec. eexists; splits; [reflexivity|now apply Hc|reflexivity]. }
  destruct (readString b n maxLen) as [[s rest]|e] eqn:Es; [|eexists; splits; [reflexivity|now apply Hc|reflexivity]].
  destruct (_ <=? maxRecentString); [|eexists; splits; [reflexivity|now apply Hc|reflexivity]].
  eexists. splits; [reflexivity| |reflexivity]. apply Hc; [now rewrite length_insert|]. apply Forall_insert; [exact Hall|]. right.
  apply readString_split in Es as (_ & _ & hdr & raw & Hh & -> & Hi & Hs); auto. exists hdr, raw. cbn [encoded decoded prefix].
  replace (len ((hdr ++ raw) ++ rest) - len rest) with (len (hdr ++ raw)) by (rewrite (len_app (hdr ++ raw)); lia). rewrite ztake_app. auto.
Qed.

(** A line read by a decoder that remembers, and by one that does not. *)
Lemma valued_nil maxSize d name rest largest :
  bytes_ok rest -> caches d ->
  exists d' r, valued maxSize d name rest largest = Some (d', r) /\ valued maxSize None name rest largest = Some (None, r) /\ caches d' /\ dynOf d' = dynOf d.
Proof.
  intros Hb Hd. unfold valued at 1. destruct (dReadString_spec d rest 7 maxSize Hb ltac:(lia) Hd) as (d' & -> & Hc & Ed). unfold valued, dReadString.
  destruct (readString rest 7 maxSize) as [[value rest']|e]; eauto 10.
Qed.

Lemma readInt_bytes b n v rest : bytes_ok b -> 1 <= n <= 8 -> readInt b n = Ok (v, rest) -> bytes_ok rest /\ 0 <= v < 2 ^ 57 /\ (length rest < length b)%nat.
Proof.
  intros Hb Hn H. apply readInt_split in H as (Hv & read & Hr & -> & _); auto. apply bytes_ok_app in Hb as [_ Hb]. split; [exact Hb|]. split; [exact Hv|]. rewrite length_app. destruct read; [congruence|]. cbn. lia.
Qed.

Lemma readString_bytes b n maxLen s rest : bytes_ok b -> 1 <= n <= 7 -> readString b n maxLen = Ok (s, rest) -> bytes_ok rest /\ bytes_ok s /\ (length rest < length b)%nat.
Proof.
  intros Hb Hn H. apply readString_split in H as (Hs & _ & hdr & raw & Hh & -> & _); auto. apply bytes_ok_app in Hb as [_ Hb]. splits; auto. rewrite !length_app. destruct hdr; [congruence|]. cbn. lia.
Qed.

Definition tracked (t : table) : Prop := exists log k, tracks t log k.

Definition trackedO (t : option table) : Prop := match t with None => True | Some t => tracked t end.

Lemma referred_total t abs ric largest : tracked t -> exists r, referred t abs ric largest = Some r.
Proof.
  intros (log & k & Ht). unfold referred. destruct (ric <=? abs); cbn [orb]; [eauto|]. destruct (has t abs) eqn:E; cbn [negb]; [|eauto].
  apply (entry_tracks t log k Ht) in E as (f & -> & _). eauto.
Qed.

Lemma relative_total t base i ric largest : trackedO t -> exists r, relative t base i ric largest = Some r.
Proof. intros Ht. destruct t as [t|]; cbn; [|eauto]. destruct (base <=? i); [eauto|now apply referred_total]. Qed.

Lemma postBase_total t base i ric largest : trackedO t -> exists r, postBase t base i ric largest = Some r.
Proof. intros Ht. destruct t as [t|]; cbn; [|eauto]. destruct (ric <=? i); [eauto|now apply referred_total]. Qed.

Lemma staticEntry_total i : 0 <= i -> (len staticTable <=? i) = false -> exists f, staticEntry i = Some f.
Proof. intros H0 Hi. apply Z.leb_gt in Hi. unfold staticEntry. apply lookup_lt_is_Some_2. unfold len in Hi. lia. Qed.

(** [x] goes on with what it returns, and a decoder that remembers ends where
    one that does not would. *)
Definition agree (bound : nat) (d : option Decoder) (x y : option (option Decoder * res qerr (HeaderField * bytes * Z))) : Prop :=
  exists d' r, x = Some (d', r) /\ y = Some (None, r) /\ caches d' /\ dynOf d' = dynOf d /\
    forall f rest l, r = Ok (f, rest, l) -> bytes_ok rest /\ (length rest < bound)%nat.

Lemma agree_err bound d e : caches d -> agree bound d (Some (d, Err e)) (Some (None, Err e)).
Proof. intros Hd. exists d, (Err e). splits; auto. discriminate. Qed.

Lemma agree_ok bound d f rest l : caches d -> bytes_ok rest -> (length rest < bound)%nat -> agree bound d (Some (d, Ok (f, rest, l))) (Some (None, Ok (f, rest, l))).
Proof. intros Hd Hr Hb. exists d, (Ok (f, rest, l)). splits; auto. now intros ? ? ? [= <- <- <-]. Qed.

Lemma agree_valued bound maxSize d name rest largest :
  caches d -> bytes_ok rest -> (length rest < bound)%nat -> agree bound d (valued maxSize d name rest largest) (valued maxSize None name rest largest).
Proof.
  intros Hd Hr Hb. destruct (valued_nil maxSize d name rest largest Hr Hd) as (d' & r & E1 & E2 & Hc & Ed). exists d', r. splits; auto.
  intros f rest' l ->. unfold valued, dReadString in E2. destruct (readString rest 7 maxSize) as [[value rest2]|e] eqn:Es; [|discriminate]. injection E2 as <- <- <-.
  apply readString_bytes in Es as (H1 & _ & H2); auto; [|lia]. split; [exact H1|lia].
Qed.

#[local] Hint Resolve agree_err agree_ok agree_valued : core.

Lemma fieldLine_agrees dynT base ric maxSize d largest rest :
  rest <> [] -> bytes_ok rest -> caches d -> trackedO dynT ->
  agree (length rest) d (fieldLine dynT base ric maxSize d largest rest) (fieldLine dynT base ric maxSize None largest rest).
Proof.
  intros Hne Hb Hd Ht. destruct rest as [|b rest0] eqn:Erest; [congruence|]. unfold fieldLine. rewrite <- Erest in *. clear Hne.
  destruct (negb (b .& 0x80 =? 0)).
  { destruct (readInt rest 6) as [[i rest1]|e] eqn:Ei; [|auto]. destruct (readInt_bytes rest 6 i rest1 Hb ltac:(lia) Ei) as (H1 & H2 & H3).
    destruct (b .& 0x40 =? 0); [destruct (relative_total dynT base i ric largest Ht) as [[[f l]|e] ->]; auto|].
    destruct (len staticTable <=? i) eqn:El; [auto|]. destruct (staticEntry_total i ltac:(lia) El) as [f ->]. auto. }
  destruct (b .& 0xc0 =? 0x40).
  { destruct (readInt rest 4) as [[i rest1]|e] eqn:Ei; [|auto]. destruct (readInt_bytes rest 4 i rest1 Hb ltac:(lia) Ei) as (H1 & H2 & H3).
    destruct (b .& 0x10 =? 0); [destruct (relative_total dynT base i ric largest Ht) as [[[f l]|e] ->]; auto|].
    destruct (len staticTable <=? i) eqn:El; [auto|]. destruct (staticEntry_total i ltac:(lia) El) as [f ->]. auto. }
  destruct (b .& 0xe0 =? 0x20).
  { destruct (dReadString_spec d rest 3 maxSize Hb ltac:(lia) Hd) as (d' & -> & Hc & Ed). cbn [dReadString]. destruct (readString rest 3 maxSize) as [[name rest1]|e] eqn:Es.
    - apply readString_bytes in Es as (H1 & _ & H2); auto; [|lia]. destruct (agree_valued (length rest) maxSize d' name rest1 largest Hc H1 H2) as (d2 & r & E1 & E2 & Hc2 & Ed2 & Hr).
      exists d2, r. splits; auto. congruence.
    - exists d', (Err e). splits; auto. discriminate. }
  destruct (b .& 0xf0 =? 0x10).
  { destruct (readInt rest 4) as [[i rest1]|e] eqn:Ei; [|auto]. destruct (readInt_bytes rest 4 i rest1 Hb ltac:(lia) Ei) as (H1 & H2 & H3).
    destruct (postBase_total dynT base i ric largest Ht) as [[[f l]|e] ->]; auto. }
  destruct (readInt rest 3) as [[i rest1]|e] eqn:Ei; [|auto]. destruct (readInt_bytes rest 3 i rest1 Hb ltac:(lia) Ei) as (H1 & H2 & H3).
  destruct (postBase_total dynT base i ric largest Ht) as [[[f l]|e] ->]; auto.
Qed.

(** ** Decoding twice *)

(** Two runs that return the same, and leave the same table. *)
Definition same_run {W} (x y : option (option Decoder * W * res qerr unit)) : Prop :=
  exists d1 d2 w r, x = Some (d1, w, r) /\ y = Some (d2, w, r) /\ caches d1 /\ caches d2 /\ dynOf d1 = dynOf d2.

Lemma acked_same d1 d2 dynT streamID ric :
  caches d1 -> caches d2 -> dynOf d1 = dynOf d2 ->
  caches (acked d1 dynT streamID ric) /\ caches (acked d2 dynT streamID ric) /\ dynOf (acked d1 dynT streamID ric) = dynOf (acked d2 dynT streamID ric).
Proof. intros H1 H2 E. destruct dynT, d1 as [d1|], d2 as [d2|]; cbn in *; splits; auto; first [now rewrite E|now rewrite <- E]. Qed.

Section Same.
Context {W : Type} (emit : HeaderField -> W -> W * option Z).

Lemma lines_same fuel dynT base ric maxSize streamID d1 d2 w largest size rest :
  (length rest <= fuel)%nat -> bytes_ok rest -> caches d1 -> caches d2 -> dynOf d1 = dynOf d2 -> trackedO dynT ->
  same_run (lines emit fuel dynT base ric maxSize streamID d1 w largest size rest) (lines emit fuel dynT base ric maxSize streamID d2 w largest size rest).
Proof.
  intros Hf. revert fuel Hf d1 d2 w largest size. induction rest as [rest IH] using (induction_ltof1 _ (@List.length Z)). intros fuel Hf d1 d2 w largest size Hb H1 H2 E Ht.
  destruct fuel as [|fuel]; destruct rest as [|b rest0] eqn:Erest; cbn [length] in Hf; try lia; cbn [lines].
  1,2: pose proof (acked_same d1 d2 dynT streamID ric H1 H2 E) as (Ha1 & Ha2 & Ea); destruct (_ =? _); eexists _, _, _, _; splits; eauto.
  rewrite <- Erest in *. assert (rest <> []) as Hne by (rewrite Erest; discriminate).
  destruct (fieldLine_agrees dynT base ric maxSize d1 largest rest Hne Hb H1 Ht) as (d1' & r & -> & Er & Hc1 & Ed1 & Hrest).
  destruct (fieldLine_agrees dynT base ric maxSize d2 largest rest Hne Hb H2 Ht) as (d2' & r' & -> & Er' & Hc2 & Ed2 & _). rewrite Er in Er'. injection Er' as <-.
  destruct r as [[[f rest'] l]|e]; [|eexists _, _, _, _; splits; eauto; congruence]. destruct (Hrest _ _ _ eq_refl) as [Hb' Hlt].
  destruct (_ && _).
  { pose proof (acked_same d1' d2' dynT streamID ric Hc1 Hc2 ltac:(congruence)) as (Ha1 & Ha2 & Ea). eexists _, _, _, _; splits; eauto. }
  destruct (emit f w) as [w' [e|]]; [eexists _, _, _, _; splits; eauto; congruence|]. apply IH; auto; first [congruence|unfold ltof; lia|rewrite Erest in Hlt; cbn in Hlt; lia].
Qed.

Lemma decode_same d1 d2 blk maxSize w streamID :
  bytes_ok blk -> caches d1 -> caches d2 -> dynOf d1 = dynOf d2 -> (forall t, dynOf d1 = Some t -> tracked (tab t)) ->
  same_run (decode emit d1 blk maxSize w streamID) (decode emit d2 blk maxSize w streamID).
Proof.
  intros Hb H1 H2 E Ht. unfold decode. assert (forall e, same_run (Some (d1, w, Err e)) (Some (d2, w, Err e))) as Herr by (intros e; eexists _, _, _, _; splits; eauto).
  destruct (readInt blk 8) as [[enc rest]|e] eqn:Ei; [|apply Herr]. destruct (readInt_bytes blk 8 enc rest Hb ltac:(lia) Ei) as (Hr & _ & _).
  assert (sectionTable d1 enc = sectionTable d2 enc) as Es by (unfold sectionTable; destruct (enc =? 0); [reflexivity|]; destruct d1 as [[? ? [?|]]|], d2 as [[? ? [?|]]|]; cbn in E; try discriminate; try reflexivity; now injection E as ->).
  rewrite Es. destruct (sectionTable d2 enc) as [used|e] eqn:Eu; [|apply Herr]. destruct rest as [|b rest0]; [apply Herr|]. destruct (readInt (b :: rest0) 7) as [[delta rest1]|e] eqn:Ed; [|apply Herr].
  destruct (readInt_bytes (b :: rest0) 7 delta rest1 Hr ltac:(lia) Ed) as (Hr1 & _ & _).
  assert (caches (startSection d1) /\ caches (startSection d2) /\ dynOf (startSection d1) = dynOf (startSection d2)) as (Hs1 & Hs2 & Hs).
  { destruct d1 as [d1|], d2 as [d2|]; cbn in *; splits; auto; unfold cache_ok in *; cbn; destruct_and?; splits; auto; lia. }
  destruct used as [[t ric]|]; [|apply lines_same; auto; exact I]. destruct (baseOf _ _ _) as [base|e]; [|apply Herr].
  assert (dynOf d2 = Some t) as Et by (unfold sectionTable in Eu; destruct (enc =? 0); [discriminate|]; destruct d2 as [[? ? [t'|]]|]; try discriminate; destruct (requiredInsertCount t' enc); [|discriminate]; now injection Eu as -> _).
  destruct (_ <? ric).
  - destruct (block t streamID) as [t' e]. eexists _, _, _, _. splits; [reflexivity|reflexivity|..]; destruct d1 as [d1|], d2 as [d2|]; try exact I; try assumption; cbn in *; congruence.
  - apply lines_same; auto. apply Ht. congruence.
Qed.

End Same.

(** ** The table as the encoder stream changes it *)

Lemma evictFor_tracks fuel t log k room :
  tracks t log k -> 0 <= room <= capacity t -> capacity t < 2 ^ 62 -> n t <= Z.of_nat fuel ->
  exists t' k', evictFor fuel t room = Some t' /\ tracks t' log k' /\ makes_room (capacity t) log k room k' /\ capacity t' = capacity t.
Proof.
  revert t k. induction fuel as [|fuel IH]; intros t k Ht Hr Hc Hn; cbn [evictFor];
    (pose proof (tr_size _ _ _ Ht) as Hs; pose proof (tr_weight _ _ _ Ht) as Hw; pose proof (weight_nonneg (drop k log)) as H0; rewrite u64_id by lia;
     destruct (Z.ltb_spec (capacity t) (size t + room)) as [Hlt|Hge];
     [|exists t, k; splits; auto; pose proof (tr_k _ _ _ Ht); split; [lia|]; split; [lia|]; intros j Hj; lia]).
  - exfalso. assert (k = length log) as -> by (pose proof (tr_n _ _ _ Ht); pose proof (tr_k _ _ _ Ht); unfold len in *; lia). rewrite drop_all in Hs. cbn in Hs. lia.
  - assert (k < length log)%nat as Hk.
    { pose proof (tr_k _ _ _ Ht). destruct (Nat.eq_dec k (length log)) as [->|]; [|lia]. rewrite drop_all in Hs. cbn in Hs. lia. }
    destruct (evict_tracks t log k Ht Hk) as (f & t1 & _ & -> & Ht1 & Ec). rewrite <- Ec in Hr, Hc.
    destruct (IH t1 (S k) Ht1 Hr Hc) as (t' & k' & -> & Ht' & (Hk' & Hroom & Hmin) & Ec').
    { pose proof (tr_n _ _ _ Ht). pose proof (tr_n _ _ _ Ht1). lia. }
    exists t', k'. rewrite Ec in *. splits; auto. split; [lia|]. split; [exact Hroom|]. intros j Hj. destruct (Nat.eq_dec j k) as [->|]; [lia|]. apply Hmin. lia.
Qed.

Lemma insert_tracks t log k f :
  tracks t log k -> capacity t < 2 ^ 62 -> weigh f <= capacity t -> len log + 1 < 2 ^ 62 ->
  exists t' k', insert t f = Some (t', Ok ()) /\ makes_room (capacity t) log k (weigh f) k' /\ tracks t' (log ++ [f]) k' /\ capacity t' = capacity t.
Proof.
  intros Ht Hc Hf Hl. unfold insert. rewrite entrySize_weigh, (proj2 (Z.ltb_ge _ _)) by lia. pose proof (weigh_pos f).
  destruct (evictFor_tracks (Z.to_nat (n t)) t log k (weigh f) Ht ltac:(lia) Hc ltac:(lia)) as (t1 & k1 & -> & Ht1 & Hroom & Ec).
  destruct (add_tracks t1 log k1 f Ht1 Hl) as (t2 & -> & Ht2 & Ec2); [destruct Hroom as (_ & Hroom & _); lia|].
  exists t2, k1. splits; auto. congruence.
Qed.

(** What holds of a decoder's table at any time. *)
Record dt_ok (t : decoderTable) (log : list HeaderField) (k : nat) : Prop := {
  dt_tracks : tracks (tab t) log k;
  dt_cap : 0 <= capacity (tab t) <= maxCapacity t;
  dt_max : 0 < maxCapacity t < 2 ^ 56;
  dt_weight : weight (drop k log) <= capacity (tab t);
  dt_entries : maxEntries t = maxCapacity t / 32;
  dt_told : 0 <= told t <= len log;
  dt_blocked : Z.of_nat (base.size (blocked t)) <= Z.max 0 (maxBlocked t);
  dt_in : bytes_ok (in_ t)
}.

(** [t'] is [t] but for its table and what is buffered. *)
Definition only_tab (t t' : decoderTable) : Prop := exists x, t' = with_tab t x.

Lemma only_tab_refl t : only_tab t t.
Proof. exists (tab t). now destruct t. Qed.

Lemma only_tab_trans t1 t2 t3 : only_tab t1 t2 -> only_tab t2 t3 -> only_tab t1 t3.
Proof. intros [x ->] [y ->]. now exists y. Qed.

Lemma dt_ok_tab t log k x log' k' :
  dt_ok t log k -> tracks x log' k' -> 0 <= capacity x <= maxCapacity t -> weight (drop k' log') <= capacity x -> len log <= len log' -> dt_ok (with_tab t x) log' k'.
Proof. intros [? ? ? ? ? ? ? ?] Hx Hc Hw Hl. split; cbn; auto. lia. Qed.

(** An insertion of any field a bounded string and a name of the table make. *)
Lemma inserting_safe t log k f m :
  dt_ok t log k -> weigh f < 2 ^ 62 -> len log + 1 < 2 ^ 62 ->
  exists t' r log' k', inserting t f m = Some (t', r) /\ dt_ok t' log' k' /\ only_tab t t' /\ len log <= len log' <= len log + 1 /\ (r = Ok m \/ exists e, r = Err e).
Proof.
  intros Ht Hf Hl. unfold inserting. pose proof (dt_cap _ _ _ Ht). pose proof (dt_max _ _ _ Ht). destruct (Z.ltb_spec (capacity (tab t)) (weigh f)) as [Hlt|Hge].
  - unfold insert. rewrite entrySize_weigh, (proj2 (Z.ltb_lt _ _)) by lia. eexists _, _, log, k. split; [reflexivity|].
    split; [destruct t; exact Ht|]. split; [eexists; reflexivity|]. split; [lia|]. right. eauto.
  - destruct (insert_tracks (tab t) log k f (dt_tracks _ _ _ Ht) ltac:(lia) Hge Hl) as (x & k' & -> & Hroom & Hx & Ec).
    eexists _, _, (log ++ [f]), k'. split; [reflexivity|]. assert (len (log ++ [f]) = len log + 1) as El by (rewrite len_app; reflexivity).
    split; [apply (dt_ok_tab t log k); auto; rewrite ?Ec; auto; [now apply makes_room_weight with (k := k)|lia]|]. split; [eexists; reflexivity|]. split; [lia|]. now left.
Qed.

Lemma newest_safe t log k i : tracks t log k -> 0 <= i -> weight (drop k log) < 2 ^ 56 ->
  (exists e, newest t i = Some (Err e)) \/ exists f, newest t i = Some (Ok f) /\ weigh f < 2 ^ 56.
Proof.
  intros Ht Hi Hw. unfold newest. rewrite (tr_inserted _ _ _ Ht). destruct (Z.leb_spec (len log) i); cbn [orb]; [eauto|]. destruct (has t _) eqn:Eh; cbn [negb]; [|eauto].
  right. destruct (entry_tracks t log k Ht _ Eh) as (f & -> & Hf). exists f. split; [reflexivity|]. apply (has_tracks t log k Ht) in Eh. set (a := u64 _) in *.
  assert (drop k log !! (Z.to_nat a - k)%nat = Some f) as Hd by (rewrite lookup_drop; replace (k + (Z.to_nat a - k))%nat with (Z.to_nat a) by lia; exact Hf).
  apply list_elem_of_split_length in Hd as (l1 & l2 & E & _). rewrite E, weight_app in Hw. cbn in Hw. pose proof (weight_nonneg l1). pose proof (weight_nonneg l2). lia.
Qed.

(** What an instruction does to a table that is sound, whatever its bytes. *)
Definition safe_step (t : decoderTable) (log : list HeaderField) (b : bytes) (x : option (decoderTable * res qerr Z)) : Prop :=
  exists t' r log' k', x = Some (t', r) /\ dt_ok t' log' k' /\ only_tab t t' /\ len log <= len log' <= len log + 1 /\
    (log' = log \/ exists m, r = Ok m /\ m <> 0 \/ exists e, r = Err e) /\ forall m, r = Ok m -> 0 <= m <= len b.

Lemma safe_err t log k b e : dt_ok t log k -> safe_step t log b (Some (t, Err e)).
Proof. intros Ht. exists t, (Err e), log, k. split; [reflexivity|]. split; [exact Ht|]. split; [apply only_tab_refl|]. split; [lia|]. split; [now left|discriminate]. Qed.

Lemma safe_wait t log k b : dt_ok t log k -> safe_step t log b (Some (t, Ok 0)).
Proof. intros Ht. exists t, (Ok 0), log, k. split; [reflexivity|]. split; [exact Ht|]. split; [apply only_tab_refl|]. split; [lia|]. split; [now left|]. intros m [= <-]. pose proof (len_nonneg b). lia. Qed.

Lemma safe_inserting t log k b f m : dt_ok t log k -> weigh f < 2 ^ 62 -> len log + 1 < 2 ^ 62 -> 0 < m <= len b -> safe_step t log b (inserting t f m).
Proof.
  intros Ht Hf Hl Hm. destruct (inserting_safe t log k f m Ht Hf Hl) as (t' & r & log' & k' & E & Hok & Ho & Hlen & Hr). exists t', r, log', k'.
  split; [exact E|]. split; [exact Hok|]. split; [exact Ho|]. split; [exact Hlen|]. split.
  - right. exists m. destruct Hr as [-> | [e ->]]; [left; split; [reflexivity|lia]|right; eauto].
  - intros m' E'. destruct Hr as [-> | [e ->]]; [injection E' as <-; lia|discriminate].
Qed.

Lemma int_small x : 0 <= x < 2 ^ 56 -> int x = x.
Proof. intros Hx. unfold int. now rewrite (proj2 (Z.ltb_lt _ _)) by lia. Qed.

Lemma safe_named t log k b m name :
  dt_ok t log k -> bytes_ok b -> len name < 2 ^ 57 -> len log + 1 < 2 ^ 62 -> 0 < m <= len b -> safe_step t log b (namedInsert t b m name).
Proof.
  intros Ht Hb Hn Hl Hm. unfold namedInsert. pose proof (dt_max _ _ _ Ht). rewrite int_small by lia. destruct (parseString (zdrop m b) 7 _ _) as [[value n]|e] eqn:Ep; [|now apply safe_err with k].
  apply parseString_bounds in Ep as (Hk & _ & Hv); [|now apply Forall_drop|lia]. rewrite len_zdrop in Hk by lia.
  destruct (Z.eqb_spec n 0); [now apply safe_wait with k|]. apply safe_inserting with k; auto; [|lia]. unfold weigh, entryOverhead. cbn [Name Value]. lia.
Qed.

Lemma static_names_short : Forall (fun f => len (Name f) < 2 ^ 57) staticTable.
Proof. apply Forall_forall. intros f Hf. assert (forallb (fun f => len (Name f) <? 2 ^ 57) staticTable = true) as H by (vm_compute; reflexivity). rewrite forallb_forall in H. apply Z.ltb_lt, H. now apply list_elem_of_In. Qed.

Lemma instruction_safe t log k b :
  dt_ok t log k -> bytes_ok b -> b <> [] -> len log + 1 < 2 ^ 62 -> safe_step t log b (instruction t b).
Proof.
  intros Ht Hb Hne Hl. destruct b as [|c b0] eqn:Eb; [congruence|]. unfold instruction. rewrite <- Eb in *. clear Hne.
  pose proof (dt_max _ _ _ Ht) as Hmax. pose proof (dt_cap _ _ _ Ht) as Hcap. pose proof (dt_weight _ _ _ Ht) as Hw. rewrite !int_small by lia.
  assert (forall i, 0 <= i -> (exists e, newest (tab t) i = Some (Err e)) \/ exists f, newest (tab t) i = Some (Ok f) /\ weigh f < 2 ^ 56) as Hnew.
  { intros i Hi. apply (newest_safe _ log k); [exact (dt_tracks _ _ _ Ht)|exact Hi|lia]. }
  assert (forall f, len (Name f) <= weigh f) as Hname by (intros f; unfold weigh, entryOverhead; pose proof (len_nonneg (Value f)); lia).
  destruct (negb (c .& 0x80 =? 0)).
  { destruct (parseInt b 6) as [[i m]|e] eqn:Ei; [|now apply safe_err with k]. apply parseInt_bounds in Ei as [Hi Hm]; auto; [|lia]. destruct (Z.eqb_spec m 0); [now apply safe_wait with k|].
    destruct (negb (c .& 0x40 =? 0)).
    - destruct (len staticTable <=? i) eqn:El; [now apply safe_err with k|]. destruct (staticEntry_total i ltac:(lia) El) as [f Hf]. rewrite Hf. apply safe_named with k; auto; [|lia].
      exact (Forall_lookup_1 _ _ _ _ static_names_short Hf).
    - destruct (Hnew i ltac:(lia)) as [[e ->]|(f & -> & Hf)]; [now apply safe_err with k|]. apply safe_named with k; auto; [specialize (Hname f); lia|lia]. }
  destruct (c .& 0xc0 =? 0x40).
  { destruct (parseString b 5 _ _) as [[name m]|e] eqn:Ep; [|now apply safe_err with k]. apply parseString_bounds in Ep as (Hm & _ & Hn); auto; [|lia].
    destruct (Z.eqb_spec m 0); [now apply safe_wait with k|]. apply safe_named with k; auto; lia. }
  destruct (c .& 0xe0 =? 0x20).
  { destruct (parseInt b 5) as [[cap m]|e] eqn:Ei; [|now apply safe_err with k]. apply parseInt_bounds in Ei as [Hi Hm]; auto; [|lia]. destruct (Z.eqb_spec m 0); [now apply safe_wait with k|].
    destruct (Z.ltb_spec (maxCapacity t) cap); [now apply safe_err with k|]. pose proof (setCapacity_tracks _ _ _ cap (dt_tracks _ _ _ Ht)) as Hset.
    destruct (evictFor_tracks (Z.to_nat (n (tab t))) (setCapacity (tab t) cap) log k 0 Hset) as (x & k' & -> & Hx & (Hk' & Hroom & _) & Ec); cbn [capacity setCapacity n] in *; try lia.
    eexists _, _, log, k'. split; [reflexivity|]. split; [apply (dt_ok_tab t log k); auto; rewrite ?Ec; lia|]. split; [eexists; reflexivity|]. split; [lia|]. split; [now left|]. intros m' [= <-]. lia. }
  destruct (parseInt b 5) as [[i m]|e] eqn:Ei; [|now apply safe_err with k]. apply parseInt_bounds in Ei as [Hi Hm]; auto; [|lia]. destruct (Z.eqb_spec m 0); [now apply safe_wait with k|].
  destruct (Hnew i ltac:(lia)) as [[e ->]|(f & -> & Hf)]; [now apply safe_err with k|]. apply safe_inserting with k; auto; lia.
Qed.

Lemma feedLoop_safe fuel t log k buf :
  dt_ok t log k -> bytes_ok buf -> (length buf <= fuel)%nat -> len log + len buf < 2 ^ 61 ->
  exists t' r log' k', feedLoop fuel t buf = Some (t', r) /\ dt_ok t' log' k' /\ only_tab t t' /\ len log <= len log' <= len log + len buf /\
    forall rest, r = Ok rest -> bytes_ok rest /\ len log' + len rest <= len log + len buf.
Proof.
  revert t log k buf. induction fuel as [|fuel IH]; intros t log k buf Ht Hb Hf Hl; (destruct buf as [|c buf0] eqn:Ebuf; cbn [length] in Hf; try lia; cbn [feedLoop]).
  1,2: eexists _, _, log, k; split; [reflexivity|]; split; [exact Ht|]; split; [apply only_tab_refl|]; split; [rewrite len_nil; lia|]; intros rest [= <-]; split; [constructor|lia].
  rewrite <- Ebuf in *. pose proof (len_nonneg buf0). assert (len buf = 1 + len buf0) as El by (rewrite Ebuf; apply len_cons).
  destruct (instruction_safe t log k buf Ht Hb) as (t1 & r & log1 & k1 & -> & Ht1 & Ho1 & Hlen1 & Hlog1 & Hm); [rewrite Ebuf; discriminate|lia|].
  destruct r as [m|e]; [|eexists _, _, log1, k1; split; [reflexivity|]; split; [exact Ht1|]; split; [exact Ho1|]; split; [lia|discriminate]].
  specialize (Hm m eq_refl). destruct (Z.eqb_spec m 0) as [->|Hm0].
  { eexists _, _, log1, k1. split; [reflexivity|]. split; [exact Ht1|]. split; [exact Ho1|]. split; [lia|]. intros rest [= <-]. split; [exact Hb|].
    destruct Hlog1 as [-> | (m & [[Em Hm0]|[e Em]])]; [lia|injection Em as <-; congruence|discriminate]. }
  assert (len (zdrop m buf) = len buf - m) as Ez by (apply len_zdrop; lia).
  destruct (IH t1 log1 k1 (zdrop m buf) Ht1) as (t2 & r & log2 & k2 & -> & Ht2 & Ho2 & Hlen2 & Hr2); [now apply Forall_drop|unfold len in Ez; rewrite Ebuf in Ez at 2; cbn [length] in Ez; lia|lia|].
  exists t2, r, log2, k2. split; [reflexivity|]. split; [exact Ht2|]. split; [now apply only_tab_trans with t1|]. split; [lia|]. intros rest E. destruct (Hr2 rest E) as [H1 H2]. split; [exact H1|lia].
Qed.

Lemma dt_in_ok t log k x : dt_ok t log k -> bytes_ok x -> dt_ok (with_in t x) log k.
Proof. intros [? ? ? ? ? ? ? ?] Hx. now split. Qed.

Lemma owe_ok t log k : dt_ok t log k -> dt_ok (owe t) log k.
Proof.
  intros Ht. unfold owe. destruct (_ <? _); [|exact Ht]. pose proof (tr_inserted _ _ _ (dt_tracks _ _ _ Ht)). destruct Ht as [? ? ? ? ? ? ? ?]. split; cbn; auto. pose proof (len_nonneg log). lia.
Qed.

Lemma feedTable_safe t log k data :
  dt_ok t log k -> bytes_ok data -> len log + len (in_ t) + len data < 2 ^ 61 ->
  exists t' r log' k', feedTable t data = Some (t', r) /\ dt_ok t' log' k' /\ maxCapacity t' = maxCapacity t /\ maxBlocked t' = maxBlocked t /\
    (r = Ok () -> len log' + len (in_ t') <= len log + len (in_ t) + len data).
Proof.
  intros Ht Hd Hl. unfold feedTable. set (buf := if 0 <? len (in_ t) then in_ t ++ data else data). set (t0 := if 0 <? len (in_ t) then with_in t buf else t).
  pose proof (dt_in _ _ _ Ht) as Hin. pose proof (len_nonneg (in_ t)) as H0. pose proof (len_nonneg data).
  assert (bytes_ok buf /\ len buf = len (in_ t) + len data) as [Hb Elen].
  { unfold buf. destruct (Z.ltb_spec 0 (len (in_ t))); [split; [now apply bytes_ok_app|apply len_app]|split; [exact Hd|lia]]. }
  assert (dt_ok t0 log k /\ maxCapacity t0 = maxCapacity t /\ maxBlocked t0 = maxBlocked t) as (Ht0 & E1 & E2).
  { unfold t0. destruct (0 <? len (in_ t)); splits; auto. now apply dt_in_ok. }
  clearbody t0 buf.
  destruct (feedLoop_safe (length buf) t0 log k buf Ht0 Hb ltac:(lia) ltac:(lia)) as (t1 & r & log1 & k1 & -> & Ht1 & [x Ho] & Hlen & Hr).
  destruct r as [rest|e].
  - destruct (Hr rest eq_refl) as [Hrest Hle]. eexists _, _, log1, k1. split; [reflexivity|]. split; [now apply owe_ok, dt_in_ok|]. unfold owe. rewrite Ho. destruct (_ <? _); cbn; splits; auto; intros _; lia.
  - eexists _, _, log1, k1. split; [reflexivity|]. rewrite Ho in *. cbn. splits; auto. discriminate.
Qed.

(** ** What decoding changes *)

Lemma requiredInsertCount_pos t enc ric : requiredInsertCount t enc = Ok ric -> 0 < ric.
Proof.
  unfold requiredInsertCount. destruct (_ <? enc); [discriminate|]. destruct (_ <? _).
  - destruct (_ <=? _); [discriminate|]. destruct (Z.eqb_spec (u64 (u64 (u64 (u64 (u64 (inserted (tab t) + maxEntries t) / u64 (2 * maxEntries t) * u64 (2 * maxEntries t)) + enc) - 1) - u64 (2 * maxEntries t))) 0); [discriminate|].
    intros [= <-]. match goal with |- 0 < u64 ?x => pose proof (u64_range x) end. lia.
  - destruct (Z.eqb_spec (u64 (u64 (u64 (u64 (inserted (tab t) + maxEntries t) / u64 (2 * maxEntries t) * u64 (2 * maxEntries t)) + enc) - 1)) 0); [discriminate|].
    intros [= <-]. match goal with |- 0 < u64 ?x => pose proof (u64_range x) end. lia.
Qed.

Lemma acknowledge_ok t log k streamID ric :
  dt_ok t log k -> 0 <= ric <= len log -> exists t', acknowledge (Some t) streamID ric = Some t' /\ dt_ok t' log k /\ maxBlocked t' = maxBlocked t /\ maxCapacity t' = maxCapacity t /\ in_ t' = in_ t.
Proof.
  intros Ht Hr. unfold acknowledge. destruct (ric =? 0); eexists; (split; [reflexivity|]); [auto|]. destruct Ht as [? ? ? ? ? ? Hb ?]. splits; auto. split; cbn; auto; [lia|].
  pose proof (subseteq_size (blocked t ∖ {[streamID]}) (blocked t) ltac:(set_solver)). lia.
Qed.

Lemma block_ok t log k streamID : dt_ok t log k -> dt_ok (fst (block t streamID)) log k /\ maxBlocked (fst (block t streamID)) = maxBlocked t /\ maxCapacity (fst (block t streamID)) = maxCapacity t /\ in_ (fst (block t streamID)) = in_ t.
Proof.
  intros Ht. unfold block. case_bool_decide as Hin; [auto|]. destruct (Z.leb_spec (maxBlocked t) (Z.of_nat (base.size (blocked t)))); [auto|]. destruct Ht as [? ? ? ? ? ? Hb ?]. cbn. splits; auto. split; cbn; auto.
  rewrite size_union, size_singleton by set_solver. lia.
Qed.

(** [d'] has the table of [d], or it after an acknowledgment. *)
Definition may_ack (streamID ric : Z) (d d' : option Decoder) : Prop :=
  caches d' /\ (is_Some d -> is_Some d') /\ (dynOf d' = dynOf d \/ dynOf d' = acknowledge (dynOf d) streamID ric).

Lemma fieldLine_some dynT base ric maxSize d largest rest d' r :
  fieldLine dynT base ric maxSize d largest rest = Some (d', r) -> is_Some d -> is_Some d'.
Proof.
  intros H [d0 ->]. destruct d'; [eauto|]. exfalso. revert H. clear. unfold fieldLine, valued, dReadString. intros H. repeat (case_match; try discriminate H; simplify_eq).
Qed.

Lemma lines_acks {W} (emit : HeaderField -> W -> W * option Z) fuel dynT base ric maxSize streamID d w largest size rest d' w' r :
  lines emit fuel dynT base ric maxSize streamID d w largest size rest = Some (d', w', r) -> bytes_ok rest -> caches d -> trackedO dynT -> may_ack streamID ric d d'.
Proof.
  assert (forall d, caches d -> may_ack streamID ric d (acked d dynT streamID ric)) as Hack.
  { intros [d0|] Hc; destruct dynT; cbn; (split; [exact Hc|]); split; cbn; eauto. }
  revert d w largest size rest. induction fuel as [|fuel IH]; intros d w largest size rest H Hb Hc Ht; (destruct rest as [|b rest0] eqn:Er; cbn [lines] in H; [|try discriminate]).
  1,2: destruct (_ =? _); injection H as <- <- <-; [now apply Hack|split; [exact Hc|auto]].
  rewrite <- Er in *. destruct (fieldLine_agrees dynT base ric maxSize d largest rest ltac:(rewrite Er; discriminate) Hb Hc Ht) as (d1 & r1 & E1 & E1' & Hc1 & Ed1 & Hrest). rewrite E1 in H.
  pose proof (fieldLine_some _ _ _ _ _ _ _ _ _ E1) as Hs.
  assert (forall d', may_ack streamID ric d1 d' -> may_ack streamID ric d d') as Hvia by (intros x (H1 & H2 & H3); split; [exact H1|]; split; [auto|now rewrite <- Ed1]).
  destruct r1 as [[[f rest'] l]|e]; [|injection H as <- <- <-; apply Hvia; split; [exact Hc1|auto]]. destruct (Hrest _ _ _ eq_refl) as [Hb' _].
  destruct (_ && _); [injection H as <- <- <-; now apply Hvia, Hack|]. destruct (emit f w) as [w1 [e|]]; [injection H as <- <- <-; apply Hvia; split; [exact Hc1|auto]|]. now apply Hvia, (IH _ _ _ _ _ H).
Qed.

(** ** Any run of a decoder *)

(** The decoder of a connection, [room] bytes of encoder stream to go. *)
Record d_ok (d : Decoder) (log : list HeaderField) (k : nat) (cap blk room : Z) : Prop := {
  d_cache : cache_ok d;
  d_dyn : exists t, dyn d = Some t /\ dt_ok t log k /\ maxCapacity t = cap /\ maxBlocked t = blk /\ len log + len (in_ t) + room < 2 ^ 61
}.

Lemma AppendSection_ok d log k cap blk room block maxSize streamID :
  d_ok d log k cap blk room -> bytes_ok block ->
  exists d' fs r, AppendSection (Some d) [] block maxSize streamID = Some (Some d', fs, r) /\ d_ok d' log k cap blk room.
Proof.
  intros [Hc (t & Et & Ht & Ecap & Eblk & Hroom)] Hb. assert (forall t0, dynOf (Some d) = Some t0 -> tracked (tab t0)) as Htr.
  { intros t0 E. cbn in E. rewrite Et in E. injection E as <-. exists log, k. exact (dt_tracks _ _ _ Ht). }
  destruct (decode_same append (Some d) (Some d) block maxSize [] streamID Hb Hc Hc eq_refl Htr) as (d1 & d2 & fs & r & E & _ & Hc1 & _).
  unfold AppendSection. rewrite E. assert (d_ok d log k cap blk room) as Hd by (split; eauto 10).
  assert (forall d', d1 = Some d' -> (dyn d' = dyn d \/ exists t', dyn d' = Some t' /\ dt_ok t' log k /\ maxBlocked t' = maxBlocked t /\ maxCapacity t' = maxCapacity t /\ in_ t' = in_ t) -> d_ok d' log k cap blk room) as Hdone.
  { intros d' -> [Ed|(t' & Ed & Ht' & E1 & E2 & E3)]; (split; [exact Hc1|]); [exists t; rewrite Ed; auto|exists t'; rewrite E3, <- Ecap, <- Eblk; auto]. }
  assert (forall ric, 0 <= ric <= len log -> may_ack streamID ric (startSection (Some d)) d1 -> exists d' fs' r', Some (d1, fs, r) = Some (Some d', fs', r') /\ d_ok d' log k cap blk room) as Hlines.
  { intros ric Hric (_ & Hs & Hdyn). destruct (Hs ltac:(cbn; eauto)) as [d' ->]. exists d', fs, r. split; [reflexivity|]. apply Hdone; [reflexivity|]. cbn in Hdyn. rewrite Et in Hdyn.
    destruct Hdyn as [Hd'|Hd']; [left; congruence|right]. destruct (acknowledge_ok t log k streamID ric Ht Hric) as (t' & Ea & Hok). exists t'. now rewrite Hd', Ea. }
  assert (caches (startSection (Some d))) as Hstart by (destruct Hc as (? & ? & ?); cbn; split; [assumption|split; [assumption|cbn; lia]]).
  unfold decode in E. destruct (readInt block 8) as [[enc rest]|e] eqn:Ei; [|injection E as <- <- <-; eauto 10]. destruct (readInt_bytes block 8 enc rest Hb ltac:(lia) Ei) as (Hr & _ & _).
  destruct (sectionTable (Some d) enc) as [used|e] eqn:Eu; [|injection E as <- <- <-; eauto 10]. destruct rest as [|b rest0]; [injection E as <- <- <-; eauto 10|].
  destruct (readInt (b :: rest0) 7) as [[delta rest1]|e] eqn:Ed; [|injection E as <- <- <-; eauto 10]. destruct (readInt_bytes (b :: rest0) 7 delta rest1 Hr ltac:(lia) Ed) as (Hr1 & _ & _).
  pose proof (len_nonneg log). destruct used as [[t' ric]|]; [|apply (Hlines 0 ltac:(lia)); eapply lines_acks; eauto; exact I].
  assert (t' = t /\ 0 < ric) as [-> Hric].
  { unfold sectionTable in Eu. destruct (enc =? 0); [discriminate|]. destruct d as [? ? dd]. cbn in Et. subst dd. destruct (requiredInsertCount t enc) as [ric'|] eqn:Er; [|discriminate].
    injection Eu as <- <-. split; [reflexivity|now apply requiredInsertCount_pos in Er]. }
  destruct (baseOf _ _ _) as [base|e]; [|injection E as <- <- <-; eauto 10]. rewrite (tr_inserted _ _ _ (dt_tracks _ _ _ Ht)) in E. destruct (Z.ltb_spec (len log) ric).
  - destruct (block_ok t log k streamID Ht) as (Hok & E1 & E2 & E3). destruct (QDecoder.block t streamID) as [t' e]. injection E as <- <- <-. eexists _, _, _. split; [reflexivity|]. apply Hdone; [reflexivity|]. right. exists t'. auto.
  - apply (Hlines ric ltac:(lia)). eapply lines_acks; eauto. exists log, k. exact (dt_tracks _ _ _ Ht).
Qed.

Definition op_ok (op : dop) : Prop :=
  match op with Section_ blk _ _ => bytes_ok blk | Feed data => bytes_ok data | _ => True end.

(** The bytes of encoder stream a run brings. *)
Fixpoint fed (ops : list dop) : Z :=
  match ops with [] => 0 | Feed data :: ops => len data + fed ops | _ :: ops => fed ops end.

Lemma fed_nonneg ops : 0 <= fed ops.
Proof. induction ops as [|[] ops IH]; cbn; try lia. pose proof (len_nonneg data). lia. Qed.

Lemma cache_dyn d x : cache_ok d -> cache_ok (with_dyn d x).
Proof. auto. Qed.

Lemma dstep_ok d log k cap blk ops op :
  d_ok d log k cap blk (fed (op :: ops)) -> op_ok op ->
  exists d' r log' k', dstep d op = Some (d', r) /\ cache_ok d' /\ (exists t, dyn d' = Some t /\ dt_ok t log' k' /\ maxCapacity t = cap /\ maxBlocked t = blk) /\
    ((exists e, r = Fed (Err e)) \/ d_ok d' log' k' cap blk (fed ops)).
Proof.
  intros Hd Ho. assert (forall d' r, d_ok d' log k cap blk (fed ops) -> cache_ok d' /\ (exists t, dyn d' = Some t /\ dt_ok t log k /\ maxCapacity t = cap /\ maxBlocked t = blk) /\
    ((exists e, r = Fed (Err e)) \/ d_ok d' log k cap blk (fed ops))) as Hsame.
  { intros d' r Hd'. pose proof Hd' as [Hc (t & H1 & H2 & H3 & H4 & _)]. splits; eauto 10. }
  destruct op as [block maxSize streamID|data|streamID|]; cbn [dstep fed op_ok] in *.
  - destruct (AppendSection_ok d log k cap blk (fed ops) block maxSize streamID Hd Ho) as (d' & fs & r & -> & Hd'). eexists _, _, log, k. split; [reflexivity|]. now apply Hsame.
  - destruct Hd as [Hc (t & Et & Ht & Ecap & Eblk & Hroom)]. pose proof (fed_nonneg ops). unfold FeedEncoder. rewrite Et.
    destruct (feedTable_safe t log k data Ht Ho ltac:(lia)) as (t' & r & log' & k' & -> & Ht' & E1 & E2 & Hr). eexists _, _, log', k'. split; [reflexivity|]. split; [now apply cache_dyn|].
    split; [exists t'; cbn; splits; auto; congruence|]. destruct r as [[]|e]; [right|left; eauto]. specialize (Hr eq_refl). split; [now apply cache_dyn|]. exists t'. cbn. splits; auto; try congruence. lia.
  - destruct Hd as [Hc (t & Et & Ht & Ecap & Eblk & Hroom)]. eexists _, _, log, k. split; [reflexivity|]. apply Hsame. unfold Cancel. rewrite Et. split; [now apply cache_dyn|].
    eexists. split; [reflexivity|]. destruct Ht as [? ? ? ? ? ? Hb ?]. splits; auto. split; cbn; auto. pose proof (subseteq_size (blocked t ∖ {[streamID]}) (blocked t) ltac:(set_solver)). lia.
  - destruct Hd as [Hc (t & Et & Ht & Ecap & Eblk & Hroom)]. unfold AppendInstructions. rewrite Et. destruct (len (out t) =? 0); (eexists _, _, log, k; split; [reflexivity|]); apply Hsame; (split; [now try apply cache_dyn|]); [eauto 10|].
    eexists. split; [reflexivity|]. destruct Ht as [? ? ? ? ? ? Hb ?]. splits; auto. split; cbn; auto.
Qed.

Lemma drun_ok ops d log k cap blk :
  d_ok d log k cap blk (fed ops) -> Forall op_ok ops ->
  exists d' rs t log' k', drun id d ops = Some (d', rs) /\ dyn d' = Some t /\ dt_ok t log' k' /\ maxCapacity t = cap /\ maxBlocked t = blk.
Proof.
  revert d log k. induction ops as [|op ops IH]; intros d log k Hd Ho; cbn [drun].
  - destruct Hd as [_ (t & H1 & H2 & H3 & H4 & _)]. eexists _, _, t, log, k. eauto.
  - inversion Ho as [|? ? Hop Hops]; subst. destruct (dstep_ok d log k cap blk ops op Hd Hop) as (d' & r & log' & k' & E & _ & (t & H1 & H2 & H3 & H4) & Hr). cbn [id]. rewrite E.
    destruct Hr as [[e ->]|Hd']; [eexists _, _, t, log', k'; eauto|]. destruct (IH d' log' k' Hd' Hops) as (d2 & rs & t2 & log2 & k2 & -> & Hrest).
    destruct r as [| [] | |]; eexists _, _, _, _, _; split; try reflexivity; eauto.
Qed.

Lemma enabled_ok cap blk room : 0 < cap < 2 ^ 56 -> room < 2 ^ 61 -> d_ok (EnableDynamic zeroDecoder cap blk) [] 0 cap blk room.
Proof.
  intros Hcap Hroom. unfold EnableDynamic. rewrite (proj2 (Z.eqb_neq _ _)) by lia. split.
  - split; [reflexivity|]. split; [|cbn; lia]. apply Forall_replicate. now left.
  - eexists. split; [reflexivity|]. splits; try reflexivity; [|cbn [in_]; rewrite (@len_nil HeaderField), (@len_nil Z); lia]. split; cbn; auto; try lia; [apply empty_tracks|unfold len; cbn; lia|rewrite (size_empty (C := gset Z)); lia|constructor].
Qed.

(** ** Remembering or not *)

Lemma forget_ok d log k cap blk room : d_ok d log k cap blk room -> d_ok (forget d) log k cap blk room.
Proof. intros [_ Hd]. split; [|exact Hd]. split; [reflexivity|]. split; [apply Forall_replicate; now left|cbn; lia]. Qed.

Lemma dstep_same d1 d2 log k cap blk room op d1' r1 d2' r2 :
  d_ok d1 log k cap blk room -> d_ok d2 log k cap blk room -> dyn d1 = dyn d2 -> op_ok op ->
  dstep d1 op = Some (d1', r1) -> dstep d2 op = Some (d2', r2) -> r1 = r2 /\ dyn d1' = dyn d2'.
Proof.
  intros [Hc1 (t & Et1 & Ht & _)] [Hc2 _] Ed Ho E1 E2. assert (dyn d2 = Some t) as Et2 by congruence.
  destruct op as [block maxSize streamID|data|streamID|]; cbn [dstep op_ok] in *.
  - unfold AppendSection in *. destruct (decode_same append (Some d1) (Some d2) block maxSize [] streamID Ho Hc1 Hc2) as (x1 & x2 & w & r & H1 & H2 & _ & _ & Hdyn); [cbn; congruence| |].
    { intros t0 E. cbn in E. rewrite Et1 in E. injection E as <-. exists log, k. exact (dt_tracks _ _ _ Ht). }
    rewrite H1 in E1. rewrite H2 in E2. destruct x1 as [x1|], x2 as [x2|]; try discriminate. injection E1 as <- <-. injection E2 as <- <-. auto.
  - unfold FeedEncoder in *. rewrite Et1 in E1. rewrite Et2 in E2. destruct (feedTable t data) as [[t' r]|]; [|discriminate]. injection E1 as <- <-. injection E2 as <- <-. auto.
  - unfold Cancel in *. rewrite Et1 in E1. rewrite Et2 in E2. injection E1 as <- <-. injection E2 as <- <-. auto.
  - unfold AppendInstructions in *. rewrite Et1 in E1. rewrite Et2 in E2. destruct (_ =? 0); injection E1 as <- <-; injection E2 as <- <-; auto.
Qed.

Lemma drun_same ops d1 d2 log k cap blk :
  d_ok d1 log k cap blk (fed ops) -> d_ok d2 log k cap blk (fed ops) -> dyn d1 = dyn d2 -> Forall op_ok ops ->
  exists d1' d2' rs, drun id d1 ops = Some (d1', rs) /\ drun forget d2 ops = Some (d2', rs) /\ dyn d1' = dyn d2'.
Proof.
  revert d1 d2 log k. induction ops as [|op ops IH]; intros d1 d2 log k H1 H2 Ed Ho; cbn [drun]; [exists d1, d2, []; auto|]. inversion Ho as [|? ? Hop Hops]; subst.
  apply forget_ok in H2. destruct (dstep_ok d1 log k cap blk ops op H1 Hop) as (d1' & r & log' & k' & E1 & _ & (t1 & Et1 & Ht1 & _) & Hr).
  destruct (dstep_ok (forget d2) log k cap blk ops op H2 Hop) as (d2' & r2 & log2 & k2 & E2 & Hc2 & _ & _).
  destruct (dstep_same d1 (forget d2) log k cap blk _ op _ _ _ _ H1 H2 Ed Hop E1 E2) as [<- Ed']. cbn [id]. rewrite E1, E2.
  destruct Hr as [[e ->]|Hd']; [eauto 10|]. assert (d_ok d2' log' k' cap blk (fed ops)) as Hd2' by (split; [exact Hc2|]; destruct Hd' as [_ Hd']; now rewrite <- Ed').
  destruct (IH d1' d2' log' k' Hd' Hd2' Ed' Hops) as (x1 & x2 & rs & -> & -> & E). destruct r as [| [] | |]; eauto 10.
Qed.

(** ** Properties *)

(** C18: whatever a peer sends, its encoder stream, field sections and the order of
    them, the decoder never indexes its ring out of range nor loops, and its
    table stays what the stream inserted less what was evicted, within the
    capacity the stream set, itself within what this side allowed; the insert
    count it acknowledges never passes what it has, and no more streams wait than
    it allowed. *)
Theorem qpack_decoder_safe (cap blk : Z) (ops : list dop) :
  0 < cap < 2 ^ 56 -> Forall op_ok ops -> fed ops < 2 ^ 60 ->
  exists d rs t log k, drun id (EnableDynamic zeroDecoder cap blk) ops = Some (d, rs) /\ dyn d = Some t /\
    tracks (tab t) log k /\ size (tab t) <= capacity (tab t) <= cap /\
    told t <= inserted (tab t) /\ Z.of_nat (base.size (blocked t)) <= Z.max 0 blk.
Proof.
  intros Hcap Ho Hfed. destruct (drun_ok ops _ _ _ _ _ (enabled_ok cap blk (fed ops) Hcap ltac:(lia)) Ho) as (d & rs & t & log & k & E & Ed & Ht & E1 & E2).
  exists d, rs, t, log, k. pose proof (tr_size _ _ _ (dt_tracks _ _ _ Ht)). pose proof (tr_inserted _ _ _ (dt_tracks _ _ _ Ht)). destruct Ht as [Htr Hc _ Hw _ Htold Hb _].
  splits; auto; lia.
Qed.

(** The strings a decoder remembers by their place in a section are not seen:
    over any run, it gives the fields, errors and instructions it would give
    having forgotten them before every call. *)
Theorem recent_strings_invisible (cap blk : Z) (ops : list dop) :
  0 < cap < 2 ^ 56 -> Forall op_ok ops -> fed ops < 2 ^ 60 ->
  exists d d' rs, drun id (EnableDynamic zeroDecoder cap blk) ops = Some (d, rs) /\
    drun forget (EnableDynamic zeroDecoder cap blk) ops = Some (d', rs) /\ dyn d = dyn d'.
Proof. intros Hcap Ho Hfed. pose proof (enabled_ok cap blk (fed ops) Hcap ltac:(lia)) as Hd. now apply (drun_same ops _ _ [] 0 cap blk). Qed.

(** A section that waits for its entry, the entry, and the section again. *)
Definition waitingRun : list dop := [Section_ [2; 128; 16] 0 0; Feed [63; 69; 65]; Feed [97; 0]; Section_ [2; 128; 16] 0 0; TakeInstructions].

Lemma waitingRun_ok : Forall op_ok waitingRun /\ fed waitingRun < 2 ^ 60.
Proof. split; [|reflexivity]. repeat (apply List.Forall_cons; [first [exact I|now apply bytes_okb_ok]|]). apply List.Forall_nil. Qed.

Lemma qpack_decoder_safe_witness :
  exists d rs t log k, drun id (EnableDynamic zeroDecoder 100 1) waitingRun = Some (d, rs) /\ dyn d = Some t /\
    tracks (tab t) log k /\ size (tab t) <= capacity (tab t) <= 100 /\ told t <= inserted (tab t) /\ Z.of_nat (base.size (blocked t)) <= Z.max 0 1.
Proof. destruct waitingRun_ok. apply qpack_decoder_safe; auto. Defined.

Lemma recent_strings_invisible_witness :
  exists d d' rs, drun id (EnableDynamic zeroDecoder 100 1) waitingRun = Some (d, rs) /\ drun forget (EnableDynamic zeroDecoder 100 1) waitingRun = Some (d', rs) /\ dyn d = dyn d'.
Proof. destruct waitingRun_ok. apply recent_strings_invisible; auto. Defined.

(** What the run gives. *)
Example waitingRun_results :
  option_map snd (drun id (EnableDynamic zeroDecoder 100 1) waitingRun) =
  Some [Fields [] (Err ErrBlocked); Fed (Ok ()); Fed (Ok ()); Fields [mkField [97] []] (Ok ()); Taken [1; 128]].
Proof. vm_compute. reflexivity. Qed.

End QDecoder.
