(* ===== verification/QpackEncoder.v ===== *)
(** * The QPACK encoder (src/http3/qpack/encoder.go, qpack.go)

    The encoder of a connection: its table, found by two maps, the sections it
    has sent and the peer has not acknowledged, the fields it has seen lately,
    and its encoder stream. [maphash], under a seed drawn at start-up, is a
    parameter: any function of a string.

    A section holds the encoder from [Begin] to [End], so each is one step of
    the state; what [flush] does between them is in QpackFlush. [None] is a
    division by zero or an index out of range, which the theorems show never
    happens. *)

From S2P Require Import Prelude HpackTables HpackHuffman QpackCodec QpackTable.
From stdpp Require Import base list numbers gmap.
From Stdlib Require Import ZArith Lia.

Local Open Scope Z_scope.
Local Open Scope go_scope.

#[export] Instance HeaderField_countable : Countable HeaderField.
Proof. apply (inj_countable' (fun f => (Name f, Value f)) (fun p => mkField (fst p) (snd p))). now intros []. Defined.

Module QEncoder.
Import Qpack QTable.

Record sentSection : Type := mkSent { s_ric : Z; s_oldest : Z }.

Record Encoder : Type := mkEncoder {
  t : table;
  maxCapacity : Z;
  peerEntries : Z;
  known : Z;
  peerBlocked : Z;
  maxRIC : Z;
  fields : gmap HeaderField Z;
  names : gmap bytes Z;
  unacked : gmap Z (list sentSection);
  pending : Z;
  seen : list (Z * Z);
  lcg : Z;
  out : bytes;
  flushing : bool;
  in_ : bytes
}.

Definition seenSets : Z := 128.
Definition maxPending : Z := 1024.
Definition minIndexedCookie : Z := 20.

Definition NewEncoder (cap : Z) : Encoder :=
  mkEncoder empty cap 0 0 0 0 ∅ ∅ ∅ 0 (replicate 128 (0, 0)) 0 [] false [].

(** Updates of one field, or of what one operation changes together. *)
Definition with_table (e : Encoder) (x : table) (fs : gmap HeaderField Z) (ns : gmap bytes Z) : Encoder :=
  mkEncoder x (maxCapacity e) (peerEntries e) (known e) (peerBlocked e) (maxRIC e) fs ns (unacked e) (pending e) (seen e) (lcg e) (out e) (flushing e) (in_ e).
Definition with_acks (e : Encoder) (k : Z) (u : gmap Z (list sentSection)) (p : Z) : Encoder :=
  mkEncoder (t e) (maxCapacity e) (peerEntries e) k (peerBlocked e) (maxRIC e) (fields e) (names e) u p (seen e) (lcg e) (out e) (flushing e) (in_ e).
Definition with_ric (e : Encoder) (x : Z) : Encoder :=
  mkEncoder (t e) (maxCapacity e) (peerEntries e) (known e) (peerBlocked e) x (fields e) (names e) (unacked e) (pending e) (seen e) (lcg e) (out e) (flushing e) (in_ e).
Definition with_seen (e : Encoder) (x : list (Z * Z)) (l : Z) : Encoder :=
  mkEncoder (t e) (maxCapacity e) (peerEntries e) (known e) (peerBlocked e) (maxRIC e) (fields e) (names e) (unacked e) (pending e) x l (out e) (flushing e) (in_ e).
Definition with_out (e : Encoder) (x : bytes) : Encoder :=
  mkEncoder (t e) (maxCapacity e) (peerEntries e) (known e) (peerBlocked e) (maxRIC e) (fields e) (names e) (unacked e) (pending e) (seen e) (lcg e) x (flushing e) (in_ e).
Definition with_flushing (e : Encoder) (x : bool) : Encoder :=
  mkEncoder (t e) (maxCapacity e) (peerEntries e) (known e) (peerBlocked e) (maxRIC e) (fields e) (names e) (unacked e) (pending e) (seen e) (lcg e) (out e) x (in_ e).
Definition with_in (e : Encoder) (x : bytes) : Encoder :=
  mkEncoder (t e) (maxCapacity e) (peerEntries e) (known e) (peerBlocked e) (maxRIC e) (fields e) (names e) (unacked e) (pending e) (seen e) (lcg e) (out e) (flushing e) x.
Definition with_peer (e : Encoder) (x : table) (entries blocked : Z) : Encoder :=
  mkEncoder x (maxCapacity e) entries (known e) blocked (maxRIC e) (fields e) (names e) (unacked e) (pending e) (seen e) (lcg e) (out e) (flushing e) (in_ e).

(** [SetPeerSettings], up to the flush it ends with. *)
Definition SetPeerSettings (e : Encoder) (peerMax blockedMax : Z) : Encoder :=
  let cap := Z.min (maxCapacity e) peerMax in
  if (cap =? 0) || negb (capacity (t e) =? 0) then e
  else
    let e := with_peer e (setCapacity (t e) cap) (peerMax / entryOverhead) blockedMax in
    with_out e (appendInt (out e) 0x20 5 cap).

Definition Counts (e : Encoder) : Z * Z := (inserted (t e), known e).

(** ** Sections *)

(** [live] is the section of an Encoder, not of a nil one. *)
Record Section_ : Type := mkSection {
  live : bool;
  start : Z;
  base : Z;
  ric : Z;
  oldest : Z;
  streamID : Z;
  refer : bool;
  block : bool
}.

Definition Prefix : bytes := [0; 0].

(** The streams other than [id] that may wait, and whether [id] may: the walk of
    mayBlock over the unacknowledged sections, which may be in any order. *)
Fixpoint blocking (known_ : Z) (id : Z) (l : list (Z * list sentSection)) (n : Z) : option Z :=
  match l with
  | [] => Some n
  | (i, sections) :: l =>
      if existsb (fun sent => known_ <? s_ric sent) sections then
        if i =? id then None else blocking known_ id l (n + 1)
      else blocking known_ id l n
  end.

Definition mayBlock (e : Encoder) (id : Z) : bool :=
  if (peerBlocked e =? 0) || (maxRIC e <=? known e) then 0 <? peerBlocked e
  else match blocking (known e) id (map_to_list (unacked e)) 0 with
       | None => true
       | Some n => n <? peerBlocked e
       end.

Definition Begin (e : option Encoder) (dst : bytes) (id : Z) : Section_ * bytes :=
  match e with
  | None => (mkSection false 0 0 0 0 0 false false, dst ++ Prefix)
  | Some e =>
      let refer := (0 <? capacity (t e)) && (pending e <? maxPending) in
      let blk := refer && mayBlock e id in
      (mkSection true (len dst) (if blk then inserted (t e) else known e) 0 (2 ^ 64 - 1) id refer blk, dst ++ Prefix)
  end.

Definition indexable (name value : bytes) (neverIndex : bool) : bool :=
  if negb neverIndex then true
  else (bool_decide (name = str "cookie") || bool_decide (name = str "set-cookie")) && (minIndexedCookie <=? len value).

(** Whether the section may refer to [abs], and it having noted that it does. *)
Definition mayRefer (s : Section_) (abs : Z) : Section_ * bool :=
  if negb (refer s) || (negb (block s) && (base s <=? abs)) then (s, false)
  else (mkSection (live s) (start s) (base s) (Z.max (ric s) (u64 (abs + 1))) (Z.min (oldest s) abs) (streamID s) (refer s) (block s), true).

(** The static entry with a value, among those with a name. *)
Fixpoint indexed (static : list Z) (value : bytes) : option Z :=
  match static with
  | [] => None
  | i :: static => if bool_decide (Value <$> staticTable !! Z.to_nat i = Some value) then Some i else indexed static value
  end.

(** [AppendField]: without a dynamic table. *)
Definition AppendField (dst name value : bytes) (neverIndex : bool) : bytes :=
  match staticGet name with
  | [] => appendString (appendString dst (if neverIndex then 0x20 .| 0x10 else 0x20) 3 name) 0 7 value
  | i0 :: _ =>
      match (if neverIndex then None else indexed (staticGet name) value) with
      | Some i => appendInt dst 0xc0 6 i
      | None => appendString (appendInt dst (if neverIndex then 0x50 .| 0x20 else 0x50) 4 i0) 0 7 value
      end
  end.

Section Hash.
Context (maphash : bytes -> Z).

Definition seenHash (name value : bytes) : Z := u64 (u64 (maphash name) * 31) .^ u64 (maphash value).

Definition repeated (e : Encoder) (name value : bytes) : option (Encoder * bool) :=
  let h := seenHash name value in
  let i := Z.to_nat (h mod seenSets) in
  match seen e !! i with
  | None => None
  | Some (w0, w1) =>
      if (w0 =? h) || (w1 =? h) then Some (e, true)
      else if w0 =? 0 then Some (with_seen e (<[i := (h, w1)]> (seen e)) (lcg e), false)
      else if w1 =? 0 then Some (with_seen e (<[i := (w0, h)]> (seen e)) (lcg e), false)
      else
        let l := u64 (u64 (lcg e * 6364136223846793005) + 1442695040888963407) in
        Some (with_seen e (<[i := if l .>> 63 =? 0 then (h, w1) else (w0, h)]> (seen e)) l, false)
  end.

(** The oldest entry a section in flight, or [s], still needs. *)
Definition keepFrom (e : Encoder) (s : Section_) : Z :=
  foldl Z.min (Z.min (oldest s) (inserted (t e))) (map s_oldest (mjoin (map snd (map_to_list (unacked e))))).

(** How far the table has to be evicted to free [need] bytes: [Some None] is
    not at all, for an entry [keep] needs is in the way. *)
Fixpoint freeing (fuel : nat) (x : table) (keep need freed abs : Z) : option (option Z) :=
  if freed <? need then
    if keep <=? abs then Some None
    else
      match fuel, entry x abs with
      | S fuel, Some old => freeing fuel x keep need (u64 (freed + entrySize (Name old) (Value old))) (u64 (abs + 1))
      | _, _ => None
      end
  else Some (Some abs).

(** [if m[k] == at { delete(m, k) }], where a key that is not there gives 0. *)
Definition deleteAt {K} `{Countable K} (m : gmap K Z) (k : K) (at_ : Z) : gmap K Z :=
  if default 0 (m !! k) =? at_ then delete k m else m.

Fixpoint evictUpTo (fuel : nat) (x : table) (fs : gmap HeaderField Z) (ns : gmap bytes Z) (abs : Z)
    : option (table * gmap HeaderField Z * gmap bytes Z) :=
  if dropped x <? abs then
    match fuel, evict x with
    | S fuel, Some (old, x) =>
        let at_ := u64 (dropped x - 1) in
        evictUpTo fuel x (deleteAt fs old at_) (deleteAt ns (Name old) at_) abs
    | _, _ => None
    end
  else Some (x, fs, ns).

(** The room [insert] makes: [Some None] is that it cannot. *)
Definition makeRoom (e : Encoder) (s : Section_) (size' : Z) : option (option Encoder) :=
  let x := t e in
  if capacity x <? u64 (size x + size') then
    match freeing (Z.to_nat (n x)) x (keepFrom e s) (u64 (u64 (size x + size') - capacity x)) 0 (dropped x) with
    | None => None
    | Some None => Some None
    | Some (Some abs) =>
        match evictUpTo (Z.to_nat (n x)) x (fields e) (names e) abs with
        | None => None
        | Some (x, fs, ns) => Some (Some (with_table e x fs ns))
        end
    end
  else Some (Some e).

Definition insert (e : Encoder) (f : HeaderField) (static : list Z) (s : Section_) : option (Encoder * bool) :=
  let size' := entrySize (Name f) (Value f) in
  if capacity (t e) <? size' then Some (e, false)
  else
    match makeRoom e s size' with
    | None => None
    | Some None => Some (e, false)
    | Some (Some e) =>
        let out1 := match static with
                    | i :: _ => appendInt (out e) 0xc0 6 i
                    | [] => appendString (out e) 0x40 5 (Name f)
                    end in
        let e := with_out e (appendString out1 0 7 (Value f)) in
        match add (t e) f with
        | None => None
        | Some x => Some (with_table e x (<[f := inserted (t e)]> (fields e)) (<[Name f := inserted (t e)]> (names e)), true)
        end
    end.

(** The field's entry, inserted now if it has repeated and fits. *)
Definition lookupOrInsert (e : Encoder) (s : Section_) (name value : bytes) (static : list Z) (idx : bool)
    : option (Encoder * option Z) :=
  let f := mkField name value in
  match fields e !! f with
  | Some abs => Some (e, Some abs)
  | None =>
      if negb idx then Some (e, None)
      else
        match repeated e name value with
        | None => None
        | Some (e, false) => Some (e, None)
        | Some (e, true) =>
            match insert e f static s with
            | None => None
            | Some (e, true) => Some (e, Some (u64 (inserted (t e) - 1)))
            | Some (e, false) => Some (e, None)
            end
        end
  end.

(** A field line whose value is a literal. *)
Definition literal (e : Encoder) (s : Section_) (dst name value : bytes) (static : list Z) (neverIndex : bool) : Section_ * bytes :=
  let nb := if neverIndex then 0x20 else 0 in
  match static with
  | i :: _ => (s, appendString (appendInt dst (0x50 .| nb) 4 i) 0 7 value)
  | [] =>
      let whole := appendString (appendString dst (0x20 .| (nb .>> 1)) 3 name) 0 7 value in
      match names e !! name with
      | Some abs =>
          let '(s, ok) := mayRefer s abs in
          if ok then
            if abs <? base s then (s, appendString (appendInt dst (0x40 .| nb) 4 (u64 (u64 (base s - 1) - abs))) 0 7 value)
            else (s, appendString (appendInt dst (nb .>> 2) 3 (u64 (abs - base s))) 0 7 value)
          else (s, whole)
      | None => (s, whole)
      end
  end.

(** [Section.Append] *)
Definition Append (e : Encoder) (s : Section_) (dst name value : bytes) (neverIndex : bool)
    : option (Encoder * Section_ * bytes) :=
  if negb (live s) || (capacity (t e) =? 0) then Some (e, s, AppendField dst name value neverIndex)
  else
    let static := staticGet name in
    match (if neverIndex then None else indexed static value) with
    | Some i => Some (e, s, appendInt dst 0xc0 6 i)
    | None =>
        let idx := indexable name value neverIndex in
        match lookupOrInsert e s name value static idx with
        | None => None
        | Some (e, found) =>
            let '(s, ok) := match found with
                            | Some abs => if idx then mayRefer s abs else (s, false)
                            | None => (s, false)
                            end in
            match found, ok with
            | Some abs, true =>
                if abs <? base s then Some (e, s, appendInt dst 0x80 6 (u64 (u64 (base s - 1) - abs)))
                else Some (e, s, appendInt dst 0x10 4 (u64 (abs - base s)))
            | _, _ => let '(s, dst) := literal e s dst name value static neverIndex in Some (e, s, dst)
            end
        end
    end.

(** Go's [copy(dst[i:], src)]. *)
Definition copyAt (dst : bytes) (i : Z) (src : bytes) : bytes :=
  ztake i dst ++ ztake (len dst - i) src ++ zdrop (i + len src) dst.

(** The section's prefix, as [End] writes it over the one [Begin] left. *)
Definition putPrefix (dst : bytes) (at_ : Z) (p : bytes) : bytes :=
  let grow := len p - len Prefix in
  let dst := if 0 <? grow then
               let dst := dst ++ ztake grow p in
               copyAt dst (at_ + len p) (zdrop (at_ + len Prefix) (ztake (len dst - grow) dst))
             else dst in
  copyAt dst at_ p.

Definition sectionPrefix (entries : Z) (s : Section_) : bytes :=
  let p := appendInt [] 0 8 (u64 (ric s mod u64 (2 * entries) + 1)) in
  if ric s <=? base s then appendInt p 0 7 (base s - ric s)
  else appendInt p 0x80 7 (u64 (u64 (ric s - base s) - 1)).

(** [Section.End], up to the flush it ends with. *)
Definition End_ (e : Encoder) (s : Section_) (dst : bytes) : option (Encoder * bytes) :=
  if negb (live s) then Some (e, dst)
  else if 0 <? ric s then
    let u := <[streamID s := default [] (unacked e !! streamID s) ++ [mkSent (ric s) (oldest s)]]> (unacked e) in
    let e := with_ric (with_acks e (known e) u (pending e + 1)) (Z.max (maxRIC e) (ric s)) in
    if u64 (2 * peerEntries e) =? 0 then None
    else Some (e, putPrefix dst (start s) (sectionPrefix (peerEntries e) s))
  else Some (e, dst).

(** ** The decoder stream *)

(** One instruction of the decoder stream, of value [v] and first byte [c]. *)
Definition ackInstruction (e : Encoder) (c v : Z) : res qerr Encoder :=
  if negb (c .& 0x80 =? 0) then
    match unacked e !! v with
    | Some (s0 :: rest) =>
        let u := match rest with [] => delete v (unacked e) | _ => <[v := rest]> (unacked e) end in
        Ok (with_acks e (Z.max (known e) (s_ric s0)) u (pending e - 1))
    | _ => Err ErrDecoderStream
    end
  else if negb (c .& 0x40 =? 0) then
    Ok (with_acks e (known e) (delete v (unacked e)) (pending e - len (default [] (unacked e !! v))))
  else if (v =? 0) || (u64 (inserted (t e) - known e) <? v) then Err ErrDecoderStream
  else Ok (with_acks e (u64 (known e + v)) (unacked e) (pending e)).

Fixpoint ackLoop (fuel : nat) (e : Encoder) (buf : bytes) : option (Encoder * res qerr bytes) :=
  match buf with
  | [] => Some (e, Ok [])
  | c :: _ =>
      match fuel with
      | O => None
      | S fuel =>
          match parseInt buf (if negb (c .& 0x80 =? 0) then 7 else 6) with
          | Err _ => Some (e, Err ErrDecoderStream)
          | Ok (v, k) =>
              if k =? 0 then Some (e, Ok buf)
              else
                match ackInstruction e c v with
                | Err x => Some (e, Err x)
                | Ok e => ackLoop fuel e (zdrop k buf)
                end
          end
      end
  end.

Definition FeedDecoder (e : Encoder) (data : bytes) : option (Encoder * res qerr unit) :=
  let buf := if 0 <? len (in_ e) then in_ e ++ data else data in
  let e := if 0 <? len (in_ e) then with_in e buf else e in
  match ackLoop (length buf) e buf with
  | None => None
  | Some (e, Err x) => Some (e, Err x)
  | Some (e, Ok buf) => Some (with_in e buf, Ok ())
  end.

End Hash.

(** ** Room in the table *)

(** A map finds, of the entries left, one with the key. *)
Definition index_ok {K} `{Countable K} (kf : HeaderField -> K) (m : gmap K Z) (log : list HeaderField) (k : nat) : Prop :=
  forall key abs, m !! key = Some abs -> Z.of_nat k <= abs < len log /\ exists f, log !! Z.to_nat abs = Some f /\ kf f = key.

Lemma deleteAt_ok {K} `{Countable K} (kf : HeaderField -> K) m log k old :
  index_ok kf m log k -> log !! k = Some old -> index_ok kf (deleteAt m (kf old) (Z.of_nat k)) log (S k).
Proof.
  intros Hm Hold key abs Hk. assert (m !! key = Some abs /\ abs <> Z.of_nat k) as [Hk' Hne].
  { unfold deleteAt in Hk. destruct (Z.eqb_spec (default 0 (m !! kf old)) (Z.of_nat k)) as [E|Hne].
    - apply lookup_delete_Some in Hk as [Hne Hk]. split; [exact Hk|]. intros ->. destruct (Hm _ _ Hk) as (_ & f & Hf & <-). rewrite Nat2Z.id, Hold in Hf. injection Hf as <-. congruence.
    - split; [exact Hk|]. intros ->. destruct (Hm _ _ Hk) as (_ & f & Hf & <-). rewrite Nat2Z.id, Hold in Hf. injection Hf as <-. rewrite Hk in Hne. cbn in Hne. congruence. }
  destruct (Hm _ _ Hk') as (Hr & Hf). split; [lia|exact Hf].
Qed.

Lemma index_ok_insert {K} `{Countable K} (kf : HeaderField -> K) m log k f :
  index_ok kf m log k -> (k <= length log)%nat -> index_ok kf (<[kf f := len log]> m) (log ++ [f]) k.
Proof.
  intros Hm Hk key abs Hl. rewrite len_app. change (len [f]) with 1. apply lookup_insert_Some in Hl as [[<- <-]|[_ Hl]].
  - split; [unfold len; lia|]. exists f. split; [|reflexivity]. unfold len. rewrite Nat2Z.id, lookup_app_r, Nat.sub_diag by lia. reflexivity.
  - destruct (Hm _ _ Hl) as (Hr & g & Hg & E). split; [lia|]. exists g. split; [now apply lookup_app_l_Some|exact E].
Qed.

Lemma evictUpTo_spec fuel x fs ns log k k' :
  tracks x log k -> index_ok id fs log k -> index_ok Name ns log k -> (k <= k' <= length log)%nat -> (k' - k <= fuel)%nat ->
  exists x' fs' ns', evictUpTo fuel x fs ns (Z.of_nat k') = Some (x', fs', ns') /\ tracks x' log k' /\ capacity x' = capacity x /\
    index_ok id fs' log k' /\ index_ok Name ns' log k'.
Proof.
  revert x fs ns k. induction fuel as [|fuel IH]; intros x fs ns k Hx Hfs Hns Hk Hf; cbn [evictUpTo]; rewrite (dropped_tracks _ _ _ Hx); destruct (Z.ltb_spec (Z.of_nat k) (Z.of_nat k')).
  1,2,4: first [lia|replace k' with k by lia; exists x, fs, ns; auto].
  destruct (evict_tracks x log k Hx ltac:(lia)) as (old & x1 & Hold & -> & Hx1 & Ec). pose proof (dropped_tracks _ _ _ Hx1) as Hd. rewrite Hd.
  replace (u64 (Z.of_nat (S k) - 1)) with (Z.of_nat k) by (pose proof (tr_log _ _ _ Hx); unfold len in *; rewrite u64_id; lia).
  destruct (IH x1 (deleteAt fs old (Z.of_nat k)) (deleteAt ns (Name old) (Z.of_nat k)) (S k) Hx1) as (x' & fs' & ns' & -> & H'); [now apply (deleteAt_ok id)|now apply (deleteAt_ok Name)|lia|lia|].
  rewrite <- Ec. eauto 10.
Qed.

Lemma freeing_spec fuel x log k keep room j :
  tracks x log k -> 0 <= room -> capacity x < weight (drop k log) + room < 2 ^ 62 -> keep <= len log ->
  (k <= j <= length log)%nat -> (length log - j <= fuel)%nat -> 0 <= capacity x ->
  (forall i, (k <= i < j)%nat -> capacity x < weight (drop i log) + room) ->
  exists r, freeing fuel x keep (weight (drop k log) + room - capacity x) (weight (drop k log) - weight (drop j log)) (Z.of_nat j) = Some r /\
    forall abs, r = Some abs -> exists k', abs = Z.of_nat k' /\ (j <= k')%nat /\ makes_room (capacity x) log k room k' /\ (k' = j \/ Z.of_nat k' <= keep).
Proof.
  intros Hx Hr Hw Hkeep. revert j. induction fuel as [|fuel IH]; intros j Hj Hf H0 Hbefore; cbn [freeing]; pose proof (weight_drop_le log k j ltac:(lia)) as Hle; pose proof (weight_nonneg (drop j log)) as Hpos.
  - destruct (Z.ltb_spec (weight (drop k log) - weight (drop j log)) (weight (drop k log) + room - capacity x)).
    + rewrite (proj2 (Z.leb_le _ _)) by (unfold len in *; lia). exists None. split; [reflexivity|discriminate].
    + eexists. split; [reflexivity|]. intros abs [= <-]. exists j. splits; auto. split; [lia|]. split; [lia|exact Hbefore].
  - destruct (Z.ltb_spec (weight (drop k log) - weight (drop j log)) (weight (drop k log) + room - capacity x)) as [Hlt|Hge].
    + destruct (Z.leb_spec keep (Z.of_nat j)) as [|Hkj]; [exists None; split; [reflexivity|discriminate]|].
      destruct (entry_tracks x log k Hx (Z.of_nat j)) as (old & -> & Hold); [apply (has_tracks _ _ _ Hx); unfold len in *; lia|]. rewrite Nat2Z.id in Hold.
      destruct (drop_cons log j) as (f & Hf' & Ed); [unfold len in *; lia|]. rewrite Hold in Hf'. injection Hf' as <-.
      pose proof (weight_nonneg (drop (S j) log)). pose proof (weigh_pos old). assert (weight (drop j log) = weigh old + weight (drop (S j) log)) as Ew by (rewrite Ed; reflexivity).
      rewrite entrySize_weigh, u64_id by lia. replace (u64 (Z.of_nat j + 1)) with (Z.of_nat (S j)) by (pose proof (tr_log _ _ _ Hx); unfold len in *; rewrite u64_id; lia).
      replace (weight (drop k log) - weight (drop j log) + weigh old) with (weight (drop k log) - weight (drop (S j) log)) by lia.
      destruct (IH (S j)) as (r & -> & Hres); [unfold len in *; lia|lia|lia|intros i Hi; destruct (Nat.eq_dec i j) as [->|]; [lia|apply Hbefore; lia]|].
      exists r. split; [reflexivity|]. intros abs E. destruct (Hres abs E) as (k' & -> & Hk' & Hroom & Hkk). exists k'. splits; auto; [lia|]. right. destruct Hkk as [->|]; lia.
    + eexists. split; [reflexivity|]. intros abs [= <-]. exists j. splits; auto. split; [lia|]. split; [lia|exact Hbefore].
Qed.

(** ** What holds of an encoder *)

Definition field_ok (f : HeaderField) : Prop := bytes_ok (Name f) /\ bytes_ok (Value f) /\ len (Name f) < 2 ^ 55 /\ len (Value f) < 2 ^ 55.

(** A sum over the sections of the streams of a map. *)
Definition msum (g : list sentSection -> Z) (u : gmap Z (list sentSection)) : Z := foldr (fun p n => g (snd p) + n) 0 (map_to_list u).

(** The sections, and the streams with one the peer may wait for. *)
Definition total (u : gmap Z (list sentSection)) : Z := msum len u.

Definition waits (known_ : Z) (sections : list sentSection) : bool := existsb (fun sent => known_ <? s_ric sent) sections.

Definition waiting (known_ : Z) (u : gmap Z (list sentSection)) : Z := msum (fun l => if waits known_ l then 1 else 0) u.

Definition sent_ok (e : Encoder) (log : list HeaderField) (k : nat) (x : sentSection) : Prop :=
  Z.of_nat k <= s_oldest x < s_ric x /\ s_ric x <= len log /\ s_ric x <= maxRIC e.

Record e_ok (e : Encoder) (log : list HeaderField) (k : nat) : Prop := {
  e_tracks : tracks (t e) log k;
  e_cap : 0 <= capacity (t e) < 2 ^ 56;
  e_weight : weight (drop k log) <= capacity (t e);
  e_entries : capacity (t e) / 32 <= peerEntries e < 2 ^ 51;
  e_fields : index_ok id (fields e) log k;
  e_names : index_ok Name (names e) log k;
  e_known : 0 <= known e <= len log;
  e_ric : 0 <= maxRIC e <= len log;
  e_unacked : forall id l, unacked e !! id = Some l -> l <> [] /\ Forall (sent_ok e log k) l;
  e_pending : pending e = total (unacked e);
  e_blocking : 0 <= peerBlocked e /\ waiting (known e) (unacked e) <= peerBlocked e;
  e_seen : length (seen e) = 128%nat;
  e_log : Forall field_ok log;
  e_in : bytes_ok (in_ e)
}.

Record s_ok (e : Encoder) (s : Section_) (log : list HeaderField) (k : nat) : Prop := {
  so_live : live s = true;
  so_base : 0 <= base s <= len log;
  so_known : block s = false -> base s = known e;
  so_refs : ric s = 0 /\ oldest s = 2 ^ 64 - 1 \/ Z.of_nat k <= oldest s < ric s /\ ric s <= len log;
  so_refer : refer s = false -> ric s = 0;
  so_plain : block s = false -> ric s <= base s
}.

(** The insertion of [f] on the encoder stream. *)
Definition insertion (f : HeaderField) : bytes :=
  match staticGet (Name f) with
  | i :: _ => appendInt [] 0xc0 6 i
  | [] => appendString [] 0x40 5 (Name f)
  end ++ appendString [] 0 7 (Value f).

Lemma foldl_min l x y : y ∈ l -> foldl Z.min x l <= y.
Proof.
  revert x. induction l as [|z l IH]; intros x Hy; [now apply elem_of_nil in Hy|]. cbn. apply elem_of_cons in Hy as [->|Hy]; [|now apply IH].
  enough (forall w, foldl Z.min w l <= w) by (specialize (H (Z.min x z)); lia). clear. induction l as [|z l IH]; intros w; cbn; [lia|]. specialize (IH (Z.min w z)). lia.
Qed.

Lemma foldl_min_start l x : foldl Z.min x l <= x.
Proof. revert x. induction l as [|z l IH]; intros w; cbn; [lia|]. specialize (IH (Z.min w z)). lia. Qed.

Lemma keepFrom_le e s :
  keepFrom e s <= oldest s /\ keepFrom e s <= inserted (t e) /\ forall id l x, unacked e !! id = Some l -> x ∈ l -> keepFrom e s <= s_oldest x.
Proof.
  unfold keepFrom. pose proof (foldl_min_start (map s_oldest (mjoin (map snd (map_to_list (unacked e))))) (Z.min (oldest s) (inserted (t e)))) as H. splits; try lia.
  intros id l x Hl Hx. apply foldl_min. apply list_elem_of_fmap. exists x. split; [reflexivity|]. apply list_elem_of_join. exists l. split; [exact Hx|]. apply list_elem_of_fmap. exists (id, l). split; [reflexivity|].
  now apply elem_of_map_to_list.
Qed.

(** [e'] is [e] but for its table, the maps that find its entries, what it has
    seen, and what is to be written. *)
Definition same_acks (e e' : Encoder) : Prop :=
  peerEntries e' = peerEntries e /\ known e' = known e /\ peerBlocked e' = peerBlocked e /\ maxRIC e' = maxRIC e /\ unacked e' = unacked e /\ pending e' = pending e /\
  maxCapacity e' = maxCapacity e /\ capacity (t e') = capacity (t e) /\ flushing e' = flushing e /\ in_ e' = in_ e.

Lemma makeRoom_ok e s log k f :
  e_ok e log k -> s_ok e s log k -> field_ok f -> weigh f <= capacity (t e) ->
  exists r, makeRoom e s (weigh f) = Some r /\
    forall e', r = Some e' -> exists x fs ns k', e' = with_table e x fs ns /\ capacity x = capacity (t e) /\ tracks x log k' /\ makes_room (capacity (t e)) log k (weigh f) k' /\
      index_ok id fs log k' /\ index_ok Name ns log k' /\ (k' = k \/ Z.of_nat k' <= keepFrom e s).
Proof.
  intros He Hs Hf Hc. pose proof (e_tracks _ _ _ He) as Ht. pose proof (e_cap _ _ _ He). pose proof (e_weight _ _ _ He). pose proof (weigh_pos f). pose proof (weight_nonneg (drop k log)).
  pose proof (tr_k _ _ _ Ht) as Hk. pose proof (tr_log _ _ _ Ht). unfold makeRoom. rewrite (tr_size _ _ _ Ht), !(u64_id (weight (drop k log) + weigh f)) by lia.
  destruct (Z.ltb_spec (capacity (t e)) (weight (drop k log) + weigh f)) as [Hlt|Hge].
  - rewrite u64_id by lia. rewrite (dropped_tracks _ _ _ Ht). pose proof (keepFrom_le e s) as (_ & Hkeep & _). rewrite (tr_inserted _ _ _ Ht) in Hkeep.
    destruct (freeing_spec (Z.to_nat (n (t e))) (t e) log k (keepFrom e s) (weigh f) k Ht) as (r & Er & Hr); try lia.
    { rewrite (tr_n _ _ _ Ht). unfold len. lia. }
    rewrite Z.sub_diag in Er. rewrite Er. destruct r as [abs|]; [|eexists; split; [reflexivity|discriminate]]. destruct (Hr abs eq_refl) as (k' & -> & Hk' & Hroom & Hkk).
    destruct (evictUpTo_spec (Z.to_nat (n (t e))) (t e) (fields e) (names e) log k k' Ht (e_fields _ _ _ He) (e_names _ _ _ He)) as (x & fs & ns & -> & Hx & Ec & Hfs & Hns).
    { destruct Hroom as (? & _). lia. } { rewrite (tr_n _ _ _ Ht). destruct Hroom as (? & _). unfold len. lia. }
    eexists. split; [reflexivity|]. intros e' [= <-]. exists x, fs, ns, k'. splits; auto.
  - eexists. split; [reflexivity|]. intros e' [= <-]. exists (t e), (fields e), (names e), k. splits; auto; [now destruct e| |exact (e_fields _ _ _ He)|exact (e_names _ _ _ He)].
    split; [lia|]. split; [lia|]. intros j Hj. lia.
Qed.

Lemma insert_ok e s log k f :
  e_ok e log k -> s_ok e s log k -> field_ok f -> len log + 1 < 2 ^ 62 ->
  exists e' b, insert e f (staticGet (Name f)) s = Some (e', b) /\
    if b then exists k', weigh f <= capacity (t e) /\ makes_room (capacity (t e)) log k (weigh f) k' /\ e_ok e' (log ++ [f]) k' /\ s_ok e' s (log ++ [f]) k' /\
           out e' = out e ++ insertion f /\ same_acks e e' /\ seen e' = seen e
    else e' = e.
Proof.
  intros He Hs Hf Hl. destruct Hf as (Hfn & Hfv & Hln & Hlv). assert (field_ok f) as Hf by (split; auto). assert (weigh f < 2 ^ 62) as Hw by (unfold weigh, entryOverhead; lia).
  unfold insert. rewrite entrySize_weigh by exact Hw. destruct (Z.ltb_spec (capacity (t e)) (weigh f)) as [|Hc]; [exists e, false; auto|].
  destruct (makeRoom_ok e s log k f He Hs Hf Hc) as (r & -> & Hr). destruct r as [e1|]; [|exists e, false; auto]. destruct (Hr e1 eq_refl) as (x & fs & ns & k' & -> & Ec & Hx & Hroom & Hfs & Hns & Hkk).
  cbn [t with_out with_table]. destruct (add_tracks x log k' f Hx Hl) as (x' & -> & Hx' & Ec'); [destruct Hroom as (_ & Hroom & _); pose proof (e_cap _ _ _ He); lia|].
  eexists _, true. split; [reflexivity|]. exists k'. assert (len (log ++ [f]) = len log + 1) as El by (rewrite len_app; reflexivity). pose proof (keepFrom_le e s) as (Hk1 & Hk2 & Hk3).
  destruct He as [Ht Hcap Hwt Hent Hfi Hna Hkn Hric Hun Hpe Hbl Hse Hlo Hib]. rewrite (tr_inserted _ _ _ Hx). pose proof Hroom as ((Hkle & Hkl) & _ & _).
  splits; auto.
  - split; cbn; auto; rewrite ?Ec', ?Ec, ?El; auto; try lia.
    + rewrite <- Ec at 1. rewrite Ec. now apply (makes_room_weight _ _ k).
    + now apply (index_ok_insert id).
    + now apply (index_ok_insert Name).
    + intros id l Hl'. destruct (Hun id l Hl') as [Hne Hall]. split; [exact Hne|]. apply Forall_forall. intros y Hy. rewrite Forall_forall in Hall. specialize (Hall y Hy). destruct Hall as (H1 & H2 & H3).
      split; [|cbn; rewrite El; lia]. destruct Hkk as [->|Hkk]; [lia|]. specialize (Hk3 id l y Hl' Hy). lia.
    + apply Forall_app. split; [exact Hlo|]. now constructor.
  - destruct Hs as [H1 H2 H3 H4 H5 H6]. split; cbn; auto; rewrite ?El; [lia|]. destruct H4 as [H4|[H4 H4']]; [now left|right]. split; [|lia]. destruct Hkk as [->|Hkk]; lia.
  - cbn. unfold insertion. rewrite (appendString_acc (match staticGet (Name f) with _ => _ end)). destruct (staticGet (Name f)) as [|i l]; [rewrite (appendString_acc (out e))|rewrite (appendInt_acc (out e))]; now rewrite <- app_assoc.
  - unfold same_acks. cbn. splits; auto. congruence.
Qed.

(** ** Sections and acknowledgments *)

Lemma foldr_perm (g : list sentSection -> Z) (l1 l2 : list (Z * list sentSection)) : l1 ≡ₚ l2 -> foldr (fun p n => g (snd p) + n) 0 l1 = foldr (fun p n => g (snd p) + n) 0 l2.
Proof. induction 1; cbn; lia. Qed.

Lemma msum_delete g u i l : u !! i = Some l -> msum g u = g l + msum g (delete i u).
Proof. intros H. unfold msum. rewrite <- (foldr_perm g _ _ (map_to_list_delete u i l H)). reflexivity. Qed.

Lemma msum_absent g u i : u !! i = None -> msum g u = msum g (delete i u).
Proof. intros H. now rewrite delete_id. Qed.

Lemma msum_insert g u i l : msum g (<[i := l]> u) = g l + msum g (delete i u).
Proof. rewrite (msum_delete g (<[i := l]> u) i l) by apply lookup_insert_eq. now rewrite delete_insert_eq. Qed.

Lemma msum_le g h u : (forall i l, u !! i = Some l -> g l <= h l) -> msum g u <= msum h u.
Proof.
  intros H. unfold msum. assert (forall p, p ∈ map_to_list u -> g (snd p) <= h (snd p)) as H' by (intros [i l] Hp; apply elem_of_map_to_list in Hp; eauto). revert H'. generalize (map_to_list u) as l. clear.
  induction l as [|p l IH]; intros H; cbn; [lia|]. pose proof (H p ltac:(left)). specialize (IH (fun q Hq => H q ltac:(now right))). lia.
Qed.

Lemma waits_mono k1 k2 l : k1 <= k2 -> waits k2 l = true -> waits k1 l = true.
Proof. intros Hk. unfold waits. rewrite !existsb_exists. intros (x & Hx & Hw). exists x. split; [exact Hx|]. apply Z.ltb_lt in Hw. apply Z.ltb_lt. lia. Qed.

Lemma waiting_mono k1 k2 u : k1 <= k2 -> waiting k2 u <= waiting k1 u.
Proof. intros Hk. apply msum_le. intros i l _. destruct (waits k2 l) eqn:E; [now rewrite (waits_mono k1 k2 l Hk E)|destruct (waits k1 l); lia]. Qed.

Lemma waiting_nonneg k u : 0 <= waiting k u.
Proof. unfold waiting, msum. induction (map_to_list u) as [|p l IH]; cbn; [lia|]. destruct (waits k (snd p)); lia. Qed.

Lemma waiting_delete k u i : waiting k (delete i u) <= waiting k u.
Proof.
  unfold waiting. destruct (u !! i) as [l|] eqn:E; [|rewrite (msum_absent _ u i E); reflexivity]. rewrite (msum_delete _ u i l E). destruct (waits k l); lia.
Qed.

(** What is left of a stream's sections waits only where all of them did. *)
Lemma waiting_shrink k u i s0 rest : u !! i = Some (s0 :: rest) -> waiting k (<[i := rest]> u) <= waiting k u.
Proof.
  intros E. unfold waiting. rewrite msum_insert, (msum_delete _ u i _ E). destruct (waits k rest) eqn:Ew; [|destruct (waits k (s0 :: rest)); lia].
  assert (waits k (s0 :: rest) = true) as -> by (cbn; unfold waits in Ew; rewrite Ew; apply orb_true_r). lia.
Qed.

Lemma e_ok_acks e log k known_ u p :
  e_ok e log k -> 0 <= known_ <= len log -> (forall id l, u !! id = Some l -> l <> [] /\ Forall (sent_ok e log k) l) -> p = total u -> waiting known_ u <= peerBlocked e ->
  e_ok (with_acks e known_ u p) log k.
Proof. intros [? ? ? ? ? ? ? ? ? ? ? ? ? ?] Hk Hu Hp Hw. split; cbn; auto. split; [lia|exact Hw]. Qed.

Lemma ackInstruction_ok e log k c v e' : e_ok e log k -> 0 <= v -> ackInstruction e c v = Ok e' -> e_ok e' log k /\ known e <= known e'.
Proof.
  intros He Hv. unfold ackInstruction. pose proof (e_known _ _ _ He) as Hkn. pose proof (e_unacked _ _ _ He) as Hun. pose proof (e_pending _ _ _ He) as Hpe. pose proof (e_blocking _ _ _ He) as [_ Hbl].
  pose proof (tr_inserted _ _ _ (e_tracks _ _ _ He)) as Ei. pose proof (tr_log _ _ _ (e_tracks _ _ _ He)).
  destruct (negb (c .& 0x80 =? 0)); [|destruct (negb (c .& 0x40 =? 0))].
  - destruct (unacked e !! v) as [[|s0 rest]|] eqn:Eu; try discriminate. intros [= <-]. destruct (Hun v _ Eu) as [_ Hall]. inversion Hall as [|? ? Hs0 Hrest]; subst. destruct Hs0 as (H1 & H2 & H3).
    assert (known e <= Z.max (known e) (s_ric s0)) as Hle by lia. split; [|exact Hle]. apply e_ok_acks; auto; [lia| | |].
    + intros id l Hl. destruct rest as [|s1 rest]; [apply lookup_delete_Some in Hl as [_ Hl]; now apply (Hun id)|]. apply lookup_insert_Some in Hl as [[<- <-]|[_ Hl]]; [split; [discriminate|exact Hrest]|now apply (Hun id)].
    + rewrite Hpe. unfold total. rewrite (msum_delete _ _ _ _ Eu), len_cons. destruct rest as [|s1 rest]; [unfold len; cbn; lia|]. rewrite msum_insert. lia.
    + transitivity (waiting (known e) (unacked e)); [|exact Hbl]. etransitivity; [apply (waiting_mono (known e)); exact Hle|]. destruct rest as [|s1 rest]; [apply waiting_delete|now apply waiting_shrink with s0].
  - intros [= <-]. split; [|cbn; lia]. apply e_ok_acks; auto.
    + intros id l Hl. apply lookup_delete_Some in Hl as [_ Hl]. now apply (Hun id).
    + rewrite Hpe. unfold total. destruct (unacked e !! v) as [l|] eqn:Eu; cbn [default from_option]; [rewrite (msum_delete _ _ _ _ Eu); unfold Datatypes.id; lia|rewrite (msum_absent _ _ _ Eu); unfold len; cbn; lia].
    + pose proof (waiting_delete (known e) (unacked e) v). lia.
  - destruct ((v =? 0) || (u64 (inserted (t e) - known e) <? v)) eqn:Ev; [discriminate|]. intros [= <-]. apply orb_false_iff in Ev as [Ev1 Ev2]. apply Z.eqb_neq in Ev1. apply Z.ltb_ge in Ev2. rewrite Ei, u64_id in Ev2 by lia.
    rewrite u64_id by lia. split; [|cbn; lia]. apply e_ok_acks; auto; [lia|]. pose proof (waiting_mono (known e) (known e + v) (unacked e) ltac:(lia)). lia.
Qed.

Lemma ackLoop_ok fuel e log k buf :
  e_ok e log k -> bytes_ok buf -> (length buf <= fuel)%nat ->
  exists e' r, ackLoop fuel e buf = Some (e', r) /\ e_ok e' log k /\ forall rest, r = Ok rest -> bytes_ok rest.
Proof.
  revert e buf. induction fuel as [|fuel IH]; intros e buf He Hb Hf; (destruct buf as [|c buf0] eqn:Eb; cbn [length] in Hf; try lia; cbn [ackLoop]);
    [exists e, (Ok []); splits; auto; now intros ? [= <-]|exists e, (Ok []); splits; auto; now intros ? [= <-]|]. rewrite <- Eb in *.
  assert (forall x : qerr, exists e' r, Some (e, Err x) = Some (e', r) /\ e_ok e' log k /\ forall rest : bytes, r = Ok rest -> bytes_ok rest) as Herr by (intros x; eexists _, _; splits; eauto; discriminate).
  set (p := if negb (c .& 0x80 =? 0) then 7 else 6). assert (1 <= p <= 8) as Hp by (unfold p; destruct (negb _); lia). destruct (parseInt buf p) as [[v m]|x] eqn:Ei; [|apply Herr].
  apply parseInt_bounds in Ei as [Hv Hm]; auto. destruct (Z.eqb_spec m 0); [exists e, (Ok buf); splits; auto; now intros ? [= <-]|]. destruct (ackInstruction e c v) as [e1|x] eqn:Ea; [|apply Herr]. apply ackInstruction_ok with (log := log) (k := k) in Ea as [He1 _]; auto; [|lia].
  apply IH; auto; [now apply Forall_drop|]. pose proof (len_zdrop m buf Hm) as Ez. rewrite Eb in Ez at 2. rewrite len_cons in Ez. unfold len in *. lia.
Qed.

Lemma FeedDecoder_ok e log k data : e_ok e log k -> bytes_ok data -> exists e' r, FeedDecoder e data = Some (e', r) /\ e_ok e' log k.
Proof.
  intros He Hd. pose proof (e_in _ _ _ He) as Hin. unfold FeedDecoder. set (buf := if 0 <? len (in_ e) then in_ e ++ data else data). set (e0 := if 0 <? len (in_ e) then with_in e buf else e).
  assert (bytes_ok buf) as Hb by (unfold buf; destruct (0 <? len (in_ e)); [now apply bytes_ok_app|exact Hd]).
  assert (forall e x, e_ok e log k -> bytes_ok x -> e_ok (with_in e x) log k) as Hw by (intros ? ? [? ? ? ? ? ? ? ? ? ? ? ? ? ?]; split; auto).
  assert (e_ok e0 log k) as He0 by (unfold e0; destruct (0 <? len (in_ e)); auto). destruct (ackLoop_ok (length buf) e0 log k buf He0 Hb ltac:(lia)) as (e1 & r & -> & He1 & Hr). destruct r as [rest|x]; [eexists _, _; split; [reflexivity|]; apply Hw; auto|eauto].
Qed.

End QEncoder.
