(* ===== verification/QpackRoundtrip.v ===== *)
(** * QPACK: what the encoder writes, read by the decoder

    The field lines of [Section.Append] and their section, through [decode]
    (src/http3/qpack/encoder.go, decoder.go, qpack.go): each line is read as the
    field it was written for, by a decoder whose table holds the entry it refers
    to, and a section as all its fields. *)

From S2P Require Import Prelude HpackTables HpackHuffman QpackCodec QpackTable QpackDecoder QpackEncoder.
From stdpp Require Import base list numbers gmap.
From Stdlib Require Import ZArith Lia.

Local Open Scope Z_scope.
Local Open Scope go_scope.

Module QRound.
Import Qpack QTable QDecoder QEncoder.

(** ** Field lines *)

Definition fits (maxSize : Z) (f : HeaderField) : Prop := maxSize <= 0 \/ weigh f <= maxSize.

(** [w] is read as [f], through the entry [ref] if it refers to one. *)
Definition line_ok (base : Z) (w : bytes) (f : HeaderField) (ref : option (Z * HeaderField)) : Prop :=
  w <> [] /\ bytes_ok w /\ forall dynT base' R maxSize largest rest, fits maxSize f ->
    (forall abs g, ref = Some (abs, g) -> base' = base /\ abs < R /\ exists x, dynT = Some x /\ has x abs = true /\ entry x abs = Some g) ->
    fieldLine dynT base' R maxSize None largest (w ++ rest) = Some (None, Ok (f, rest, match ref with None => largest | Some (abs, _) => Z.max largest (u64 (abs + 1)) end)).

Lemma appendString_shape first n s :
  bytes_ok s -> 1 <= n <= 7 -> first mod 2 ^ (n + 1) = 0 -> exists x tl, appendString [] first n s = (first .| x) :: tl /\ 0 <= x < 2 ^ (n + 1).
Proof.
  intros Hs Hn Hf. destruct (appendString_split first n s Hs Hn Hf) as (first' & body & huffman & -> & _ & _ & _ & _ & _ & Hfirst).
  destruct (appendInt_shape first' n (len body) ltac:(lia) (len_nonneg body)) as (x & tl & -> & Hx & _). assert (2 ^ n < 2 ^ (n + 1)) by (apply Z.pow_lt_mono_r; lia).
  destruct Hfirst as [->| ->].
  - exists x, (tl ++ body). split; [reflexivity|lia].
  - exists ((1 .<< n) .| x), (tl ++ body). rewrite <- Z.lor_assoc. split; [reflexivity|]. apply lor_bound; [lia| |lia]. rewrite Z.shiftl_1_l. lia.
Qed.

Lemma valued_append maxSize name value rest largest :
  bytes_ok value -> len value < 2 ^ 56 -> fits maxSize (mkField name value) ->
  valued maxSize None name (appendString [] 0 7 value ++ rest) largest = Some (None, Ok (mkField name value, rest, largest)).
Proof.
  intros Hv Hl Hm. unfold valued, dReadString. rewrite readString_append; auto; try lia. unfold fits, weigh, entryOverhead in Hm. cbn in Hm. pose proof (len_nonneg name). lia.
Qed.

(** The seven kinds of field line, by their first byte. *)
Inductive lkind : Type := IndexedDyn | IndexedStatic | NameDyn | NameStatic | Literal | PostIndexed | PostName.

#[local] Instance lkind_eq_dec : EqDecision lkind.
Proof. solve_decision. Defined.

Definition kind (b : Z) : lkind :=
  if negb (b .& 0x80 =? 0) then if b .& 0x40 =? 0 then IndexedDyn else IndexedStatic
  else if b .& 0xc0 =? 0x40 then if b .& 0x10 =? 0 then NameDyn else NameStatic
  else if b .& 0xe0 =? 0x20 then Literal
  else if b .& 0xf0 =? 0x10 then PostIndexed
  else PostName.

(** A first byte is of the kind its high bits say, whatever the low ones. *)
Lemma kind_of K first n x :
  all_bytes (fun x => implb (x <? 2 ^ n) (bool_decide (kind (first .| x) = K))) = true -> 0 <= x < 2 ^ n -> n <= 8 -> kind (first .| x) = K.
Proof. intros H Hx Hn. apply (bool_decide_eq_true_1 _ (lead (fun x => bool_decide (kind (first .| x) = K)) n x H Hx Hn)). Qed.

Section Kinds.
Context (dynT : option table) (base R maxSize : Z) (d : option Decoder) (largest b : Z) (r : bytes).

Definition refLine (x : option (res qerr (HeaderField * Z))) (f : HeaderField -> Z -> option (option Decoder * res qerr (HeaderField * bytes * Z)))
    : option (option Decoder * res qerr (HeaderField * bytes * Z)) :=
  match x with None => None | Some (Err e) => Some (d, Err e) | Some (Ok (g, l)) => f g l end.

Lemma fieldLine_kind :
  fieldLine dynT base R maxSize d largest (b :: r) =
  match kind b with
  | IndexedDyn => match readInt (b :: r) 6 with Err e => Some (d, Err e) | Ok (i, rest) => refLine (relative dynT base i R largest) (fun g l => Some (d, Ok (g, rest, l))) end
  | IndexedStatic => match readInt (b :: r) 6 with Err e => Some (d, Err e) | Ok (i, rest) => if len staticTable <=? i then Some (d, Err ErrDecompression) else match staticEntry i with None => None | Some f => Some (d, Ok (f, rest, largest)) end end
  | NameDyn => match readInt (b :: r) 4 with Err e => Some (d, Err e) | Ok (i, rest) => refLine (relative dynT base i R largest) (fun g l => valued maxSize d (Name g) rest l) end
  | NameStatic => match readInt (b :: r) 4 with Err e => Some (d, Err e) | Ok (i, rest) => if len staticTable <=? i then Some (d, Err ErrDecompression) else match staticEntry i with None => None | Some f => valued maxSize d (Name f) rest largest end end
  | Literal => match dReadString d (b :: r) 3 maxSize with None => None | Some (d, Err e) => Some (d, Err e) | Some (d, Ok (name, rest)) => valued maxSize d name rest largest end
  | PostIndexed => match readInt (b :: r) 4 with Err e => Some (d, Err e) | Ok (i, rest) => refLine (postBase dynT base i R largest) (fun g l => Some (d, Ok (g, rest, l))) end
  | PostName => match readInt (b :: r) 3 with Err e => Some (d, Err e) | Ok (i, rest) => refLine (postBase dynT base i R largest) (fun g l => valued maxSize d (Name g) rest l) end
  end.
Proof.
  unfold fieldLine, kind, refLine. destruct (negb (b .& 0x80 =? 0)); [destruct (b .& 0x40 =? 0); reflexivity|]. destruct (b .& 0xc0 =? 0x40); [destruct (b .& 0x10 =? 0); reflexivity|].
  destruct (b .& 0xe0 =? 0x20); [reflexivity|]. destruct (b .& 0xf0 =? 0x10); reflexivity.
Qed.

End Kinds.

(** ** References *)

Lemma relative_ref x base abs R largest g :
  0 <= abs < base -> base < 2 ^ 62 -> abs < R -> has x abs = true -> entry x abs = Some g ->
  relative (Some x) base (u64 (u64 (base - 1) - abs)) R largest = Some (Ok (g, Z.max largest (u64 (abs + 1)))).
Proof.
  intros Ha Hb HR Hh He. cbn [relative]. rewrite (u64_id (base - 1)), (u64_id (base - 1 - abs)) by lia. rewrite (proj2 (Z.leb_gt _ _)) by lia. replace (u64 (base - 1 - (base - 1 - abs))) with abs by (rewrite u64_id; lia).
  unfold referred. now rewrite (proj2 (Z.leb_gt _ _)), Hh, He by lia.
Qed.

Lemma postBase_ref x base abs R largest g :
  0 <= base <= abs -> abs < R -> abs < 2 ^ 62 -> has x abs = true -> entry x abs = Some g ->
  postBase (Some x) base (u64 (abs - base)) R largest = Some (Ok (g, Z.max largest (u64 (abs + 1)))).
Proof.
  intros Hb HR HR' Hh He. cbn [postBase]. rewrite (u64_id (abs - base)) by lia. rewrite (proj2 (Z.leb_gt _ _)) by lia. replace (u64 (base + (abs - base))) with abs by (rewrite u64_id; lia).
  unfold referred. now rewrite (proj2 (Z.leb_gt _ _)), Hh, He by lia.
Qed.

(** ** The lines the encoder writes *)

Ltac decided := first [vm_compute; reflexivity | lia].

(** A line that starts with an integer of [n] bits. *)
Ltac int_line first n v rest :=
  let x := fresh "x" in let tl := fresh "tl" in let E := fresh "E" in let Hx := fresh "Hx" in let Hr := fresh "Hr" in
  destruct (appendInt_shape first n v ltac:(lia) ltac:(lia)) as (x & tl & E & Hx & _);
  pose proof (readInt_append first n v rest ltac:(lia) eq_refl ltac:(lia)) as Hr; rewrite E in *; cbn [app] in *; rewrite fieldLine_kind.

Lemma appendInt_ne first n v w : 1 <= n <= 8 -> 0 <= v -> appendInt [] first n v ++ w <> [].
Proof. intros Hn Hv. destruct (appendInt_shape first n v Hn Hv) as (x & tl & -> & _). discriminate. Qed.

Lemma int_bytes first n v : is_byte first -> 1 <= n <= 8 -> 0 <= v -> bytes_ok (appendInt [] first n v).
Proof. apply appendInt_ok. Qed.

Lemma value_bytes w v : bytes_ok w -> bytes_ok v -> bytes_ok (w ++ appendString [] 0 7 v).
Proof. intros Hw Hv. apply bytes_ok_app. split; [exact Hw|]. apply appendString_ok; auto; [unfold is_byte; lia|lia]. Qed.

Lemma line_static base i f : 0 <= i < 99 -> staticTable !! Z.to_nat i = Some f -> line_ok base (appendInt [] 0xc0 6 i) f None.
Proof.
  intros Hi Hf. split; [rewrite <- (app_nil_r (appendInt _ _ _ _)); apply appendInt_ne; lia|]. split; [apply int_bytes; unfold is_byte; lia|]. intros dynT base' R maxSize largest rest _ _. int_line 0xc0 6 i rest.
  rewrite (kind_of IndexedStatic 0xc0 6), Hr by decided. rewrite (proj2 (Z.leb_gt _ _)) by (change (len staticTable) with 99; lia). unfold staticEntry. now rewrite Hf.
Qed.

Section Lines.
Context (base : Z) (Hbase : 0 <= base < 2 ^ 56).

Lemma line_indexed abs f : 0 <= abs < base -> line_ok base (appendInt [] 0x80 6 (u64 (u64 (base - 1) - abs))) f (Some (abs, f)).
Proof.
  intros Ha. assert (0 <= u64 (u64 (base - 1) - abs) < 2 ^ 56) as Hi by (rewrite (u64_id (base - 1)), u64_id; lia).
  split; [rewrite <- (app_nil_r (appendInt _ _ _ _)); apply appendInt_ne; lia|]. split; [apply int_bytes; unfold is_byte; lia|]. intros dynT base' R maxSize largest rest _ Href. destruct (Href abs f eq_refl) as (-> & HR & x & -> & Hh & He).
  int_line 0x80 6 (u64 (u64 (base - 1) - abs)) rest. rewrite (kind_of IndexedDyn 0x80 6), Hr by decided. rewrite (relative_ref x base abs R largest f) by (auto; lia). reflexivity.
Qed.

Lemma line_post abs f : base <= abs < 2 ^ 56 -> line_ok base (appendInt [] 0x10 4 (u64 (abs - base))) f (Some (abs, f)).
Proof.
  intros Ha. assert (0 <= u64 (abs - base) < 2 ^ 56) as Hi by (rewrite u64_id; lia).
  split; [rewrite <- (app_nil_r (appendInt _ _ _ _)); apply appendInt_ne; lia|]. split; [apply int_bytes; unfold is_byte; lia|]. intros dynT base' R maxSize largest rest _ Href. destruct (Href abs f eq_refl) as (-> & HR & x & -> & Hh & He).
  int_line 0x10 4 (u64 (abs - base)) rest. rewrite (kind_of PostIndexed 0x10 4), Hr by decided. rewrite (postBase_ref x base abs R largest f) by (auto; lia). reflexivity.
Qed.

Section Value.
Context (name value : bytes) (Hv : bytes_ok value) (Hlv : len value < 2 ^ 56).

Lemma line_name_static i f (never : bool) :
  0 <= i < 99 -> staticTable !! Z.to_nat i = Some f -> Name f = name ->
  line_ok base (appendInt [] (if never then 0x70 else 0x50) 4 i ++ appendString [] 0 7 value) (mkField name value) None.
Proof.
  intros Hi Hf Hn. split; [apply appendInt_ne; lia|]. split; [apply value_bytes; [apply int_bytes; [unfold is_byte; destruct never; lia|lia|lia]|exact Hv]|]. intros dynT base' R maxSize largest rest Hm _. rewrite <- app_assoc.
  destruct never; [int_line 0x70 4 i (appendString [] 0 7 value ++ rest); rewrite (kind_of NameStatic 0x70 4), Hr by decided|int_line 0x50 4 i (appendString [] 0 7 value ++ rest); rewrite (kind_of NameStatic 0x50 4), Hr by decided];
    rewrite (proj2 (Z.leb_gt _ _)) by (change (len staticTable) with 99; lia); unfold staticEntry; rewrite Hf, Hn; now apply valued_append.
Qed.

Lemma line_name abs g (never : bool) :
  0 <= abs < base -> Name g = name ->
  line_ok base (appendInt [] (if never then 0x60 else 0x40) 4 (u64 (u64 (base - 1) - abs)) ++ appendString [] 0 7 value) (mkField name value) (Some (abs, g)).
Proof.
  intros Ha Hn. assert (0 <= u64 (u64 (base - 1) - abs) < 2 ^ 56) as Hi by (rewrite (u64_id (base - 1)), u64_id; lia).
  split; [apply appendInt_ne; lia|]. split; [apply value_bytes; [apply int_bytes; [unfold is_byte; destruct never; lia|lia|lia]|exact Hv]|]. intros dynT base' R maxSize largest rest Hm Href. rewrite <- app_assoc. destruct (Href abs g eq_refl) as (-> & HR & x & -> & Hh & He).
  destruct never; [int_line 0x60 4 (u64 (u64 (base - 1) - abs)) (appendString [] 0 7 value ++ rest); rewrite (kind_of NameDyn 0x60 4), Hr by decided
                  |int_line 0x40 4 (u64 (u64 (base - 1) - abs)) (appendString [] 0 7 value ++ rest); rewrite (kind_of NameDyn 0x40 4), Hr by decided];
    rewrite (relative_ref x base abs R largest g) by (auto; lia); cbn [refLine]; rewrite Hn; now apply valued_append.
Qed.

Lemma line_name_post abs g (never : bool) :
  base <= abs < 2 ^ 56 -> Name g = name ->
  line_ok base (appendInt [] (if never then 0x08 else 0) 3 (u64 (abs - base)) ++ appendString [] 0 7 value) (mkField name value) (Some (abs, g)).
Proof.
  intros Ha Hn. assert (0 <= u64 (abs - base) < 2 ^ 56) as Hi by (rewrite u64_id; lia).
  split; [apply appendInt_ne; lia|]. split; [apply value_bytes; [apply int_bytes; [unfold is_byte; destruct never; lia|lia|lia]|exact Hv]|]. intros dynT base' R maxSize largest rest Hm Href. rewrite <- app_assoc. destruct (Href abs g eq_refl) as (-> & HR & x & -> & Hh & He).
  destruct never; [int_line 0x08 3 (u64 (abs - base)) (appendString [] 0 7 value ++ rest); rewrite (kind_of PostName 0x08 3), Hr by decided
                  |int_line 0 3 (u64 (abs - base)) (appendString [] 0 7 value ++ rest); rewrite (kind_of PostName 0 3), Hr by decided];
    rewrite (postBase_ref x base abs R largest g) by (auto; lia); cbn [refLine]; rewrite Hn; now apply valued_append.
Qed.

Lemma line_literal (never : bool) :
  bytes_ok name -> len name < 2 ^ 56 ->
  line_ok base (appendString [] (if never then 0x30 else 0x20) 3 name ++ appendString [] 0 7 value) (mkField name value) None.
Proof.
  intros Hn Hln. assert (forall first, is_byte first -> first mod 2 ^ 4 = 0 -> all_bytes (fun x => implb (x <? 2 ^ 4) (bool_decide (kind (first .| x) = Literal))) = true ->
    line_ok base (appendString [] first 3 name ++ appendString [] 0 7 value) (mkField name value) None) as H.
  { intros first Hb Hf Hk. destruct (appendString_shape first 3 name Hn ltac:(lia) Hf) as (x & tl & E & Hx). split; [rewrite E; discriminate|]. split; [apply value_bytes; [apply appendString_ok; auto; lia|exact Hv]|]. intros dynT base' R maxSize largest rest Hm _. rewrite <- app_assoc.
    assert (maxSize <= 0 \/ len name <= maxSize) as Hmn by (unfold fits, weigh, entryOverhead in Hm; cbn in Hm; pose proof (len_nonneg value); lia).
    pose proof (readString_append first 3 name (appendString [] 0 7 value ++ rest) maxSize Hn Hln ltac:(lia) Hf Hmn) as Hr. rewrite E in *. cbn [app] in *.
    rewrite fieldLine_kind, (kind_of Literal first 4) by (auto; lia). unfold dReadString. rewrite Hr. now apply valued_append. }
  destruct never; apply H; first [unfold is_byte; lia|decided].
Qed.

End Value.
End Lines.

(** ** One field appended *)

(** The insertions of [fs] one after another, each with the room it makes. *)
Fixpoint rooms (cap : Z) (log : list HeaderField) (k : nat) (fs : list HeaderField) (k' : nat) : Prop :=
  match fs with
  | [] => k' = k
  | f :: fs => exists k1, weigh f <= cap /\ makes_room cap log k (weigh f) k1 /\ rooms cap (log ++ [f]) k1 fs k'
  end.

Definition insertions (fs : list HeaderField) : bytes := mjoin (map insertion fs).

Lemma rooms_app cap log k fs gs k1 k2 : rooms cap log k fs k1 -> rooms cap (log ++ fs) k1 gs k2 -> rooms cap log k (fs ++ gs) k2.
Proof.
  revert log k. induction fs as [|f fs IH]; intros log k H1 H2; cbn in *; [subst; now rewrite app_nil_r in H2|]. destruct H1 as (k0 & Hw & Hr & H1). exists k0. splits; auto. apply IH; [exact H1|]. now rewrite <- app_assoc.
Qed.

Lemma indexed_spec static value i : indexed static value = Some i -> i ∈ static /\ Value <$> staticTable !! Z.to_nat i = Some value.
Proof.
  induction static as [|j static IH]; cbn; [discriminate|]. case_bool_decide as E; [intros [= ->]; split; [left|exact E]|]. intros H. apply IH in H as [H1 H2]. split; [now right|exact H2].
Qed.

Lemma line_indexed_static base name value i : indexed (staticGet name) value = Some i -> line_ok base (appendInt [] 0xc0 6 i) (mkField name value) None.
Proof.
  intros H. apply indexed_spec in H as [Hin Hv]. apply staticGet_name in Hin as (Hi & f & Hf & Hn). rewrite Hf in Hv. injection Hv as <-. subst name. apply line_static; [exact Hi|]. destruct f; exact Hf.
Qed.

Lemma staticGet_head name i l : staticGet name = i :: l -> 0 <= i < 99 /\ exists f, staticTable !! Z.to_nat i = Some f /\ Name f = name.
Proof. intros H. apply staticGet_name. rewrite H. left. Qed.

Section Append.
Context (base : Z) (name value : bytes) (Hf : field_ok (mkField name value)).

(** [AppendField], and the same two lines of [Append]. *)
Lemma AppendField_line dst never : exists w, AppendField dst name value never = dst ++ w /\ line_ok base w (mkField name value) None.
Proof.
  destruct Hf as (Hn & Hv & Hln & Hlv). cbn in Hn, Hv, Hln, Hlv. unfold AppendField. destruct (staticGet name) as [|i l] eqn:Es.
  - rewrite (appendString_acc (appendString _ _ _ _)), (appendString_acc dst), <- app_assoc. eexists. split; [reflexivity|]. destruct never; [apply (line_literal base name value Hv ltac:(lia) true)|apply (line_literal base name value Hv ltac:(lia) false)]; auto; lia.
  - destruct (staticGet_head name i l Es) as (Hi & f & Hf' & Hn'). destruct (if never then None else indexed (i :: l) value) as [j|] eqn:Ej.
    + destruct never; [discriminate|]. rewrite <- Es in Ej. rewrite appendInt_acc. eexists. split; [reflexivity|]. now apply line_indexed_static.
    + rewrite appendString_acc, (appendInt_acc dst), <- app_assoc. eexists. split; [reflexivity|].
      destruct never; [apply (line_name_static base name value Hv ltac:(lia) i f true)|apply (line_name_static base name value Hv ltac:(lia) i f false)]; auto.
Qed.

End Append.

(** What a section noted of a line: [s'] is [s] having referred to [ref]. *)
Definition noted (log : list HeaderField) (s s' : Section_) (ref : option (Z * HeaderField)) : Prop :=
  start s' = start s /\ base s' = base s /\ streamID s' = streamID s /\ block s' = block s /\ live s' = live s /\
  match ref with
  | None => ric s' = ric s /\ oldest s' = oldest s
  | Some (abs, g) => 0 <= abs < len log /\ log !! Z.to_nat abs = Some g /\ ric s' = Z.max (ric s) (abs + 1) /\ oldest s' = Z.min (oldest s) abs
  end.

Lemma noted_none log s : noted log s s None.
Proof. unfold noted. auto 10. Qed.

Lemma mayRefer_ok e s log k abs g :
  s_ok e s log k -> Z.of_nat k <= abs < len log -> len log < 2 ^ 56 -> log !! Z.to_nat abs = Some g ->
  exists s' ok, mayRefer s abs = (s', ok) /\ s_ok e s' log k /\ if ok then noted log s s' (Some (abs, g)) else s' = s.
Proof.
  intros Hs Ha Hl Hg. unfold mayRefer. destruct (negb (refer s) || (negb (block s) && (QEncoder.base s <=? abs))) eqn:E; [exists s, false; auto|]. apply orb_false_iff in E as [E1 E2]. apply negb_false_iff in E1.
  eexists _, true. split; [reflexivity|]. rewrite u64_id by lia. destruct Hs as [H1 H2 H3 H4 H5 H6]. split.
  - split; cbn; auto; [right; destruct H4 as [[-> ->]|H4]; lia|congruence|]. intros Hb. rewrite Hb in E2. cbn in E2. apply Z.leb_gt in E2. specialize (H6 Hb). lia.
  - unfold noted. cbn. splits; auto; lia.
Qed.

Lemma repeated_ok maphash e log k name value :
  e_ok e log k -> exists e' b, repeated maphash e name value = Some (e', b) /\ e_ok e' log k /\ same_acks e e' /\ out e' = out e /\ fields e' = fields e /\ t e' = t e.
Proof.
  intros He. unfold repeated. set (h := seenHash maphash name value). pose proof (Z.mod_pos_bound h seenSets ltac:(unfold seenSets; lia)) as Hm. pose proof (e_seen _ _ _ He) as Hs. unfold seenSets in *.
  destruct (lookup_lt_is_Some_2 (seen e) (Z.to_nat (h mod 128)) ltac:(lia)) as [[w0 w1] ->].
  assert (forall x l, length x = 128%nat -> e_ok (with_seen e x l) log k) as Hok by (intros x l Hx; destruct He as [? ? ? ? ? ? ? ? ? ? ? ? ? ?]; split; auto).
  destruct ((w0 =? h) || (w1 =? h)); [eexists _, _; splits; eauto; unfold same_acks; auto 20|].
  destruct (w0 =? 0); [|destruct (w1 =? 0)]; (eexists _, _; split; [reflexivity|]; split; [apply Hok; now rewrite length_insert|]; unfold same_acks; cbn; auto 20).
Qed.

Lemma same_acks_trans e1 e2 e3 : same_acks e1 e2 -> same_acks e2 e3 -> same_acks e1 e3.
Proof. unfold same_acks. intros H1 H2. destruct_and!. splits; congruence. Qed.

Lemma same_acks_refl e : same_acks e e.
Proof. unfold same_acks. auto 20. Qed.

Lemma s_ok_same e e' s log k : s_ok e s log k -> same_acks e e' -> s_ok e' s log k.
Proof. intros [? ? ? ? ? ?] (_ & E & _). split; auto. rewrite E. auto. Qed.

(** What an operation of a section does to the encoder: it inserts [gs]. *)
Record inserts (e e' : Encoder) (log : list HeaderField) (k : nat) (gs : list HeaderField) (k' : nat) : Prop := {
  in_rooms : rooms (capacity (t e)) log k gs k';
  in_fields : Forall field_ok gs;
  in_out : out e' = out e ++ insertions gs;
  in_ok : e_ok e' (log ++ gs) k';
  in_same : same_acks e e'
}.

Lemma inserts_refl e e' log k : e_ok e' log k -> same_acks e e' -> out e' = out e -> inserts e e' log k [] k.
Proof. intros He Hs Ho. split; cbn; auto; rewrite app_nil_r; auto. Qed.

Lemma inserts_trans e1 e2 e3 log k gs k2 hs k3 : inserts e1 e2 log k gs k2 -> inserts e2 e3 (log ++ gs) k2 hs k3 -> inserts e1 e3 log k (gs ++ hs) k3.
Proof.
  intros [H1 H2 H3 H4 H5] [H6 H7 H8 H9 H10]. assert (capacity (t e2) = capacity (t e1)) as Ec by (unfold same_acks in H5; destruct_and!; congruence). split.
  - rewrite Ec in H6. now apply rooms_app with k2.
  - now apply Forall_app.
  - rewrite H8, H3, <- app_assoc. unfold insertions. now rewrite map_app, join_app.
  - now rewrite app_assoc.
  - now apply same_acks_trans with e2.
Qed.

Section Append.
Context (maphash : bytes -> Z) (name value : bytes) (Hf : field_ok (mkField name value)).

Lemma lookupOrInsert_ok e s log k idx :
  e_ok e log k -> s_ok e s log k -> len log + 1 < 2 ^ 56 ->
  exists e' found gs k', lookupOrInsert maphash e s name value (staticGet name) idx = Some (e', found) /\ inserts e e' log k gs k' /\ len gs <= 1 /\ s_ok e' s (log ++ gs) k' /\
    forall abs, found = Some abs -> Z.of_nat k' <= abs < len (log ++ gs) /\ (log ++ gs) !! Z.to_nat abs = Some (mkField name value).
Proof.
  intros He Hs Hl. unfold lookupOrInsert. pose proof (same_acks_refl e) as Hrefl. destruct (fields e !! mkField name value) as [abs|] eqn:Ef.
  { exists e, (Some abs), [], k. split; [reflexivity|]. split; [now apply inserts_refl|]. split; [rewrite len_nil; lia|]. rewrite app_nil_r. split; [exact Hs|]. intros a [= <-]. destruct (e_fields _ _ _ He _ _ Ef) as (Hr & f & Hlog & E). cbn in E. subst f. auto. }
  assert (forall e', e_ok e' log k -> same_acks e e' -> out e' = out e -> exists e2 found gs k', Some (e', None) = Some (e2, found) /\ inserts e e2 log k gs k' /\ len gs <= 1 /\ s_ok e2 s (log ++ gs) k' /\
    forall abs, found = Some abs -> Z.of_nat k' <= abs < len (log ++ gs) /\ (log ++ gs) !! Z.to_nat abs = Some (mkField name value)) as Hnone.
  { intros e' He' Hs' Ho'. exists e', None, [], k. split; [reflexivity|]. split; [now apply inserts_refl|]. split; [rewrite len_nil; lia|]. rewrite app_nil_r. split; [now apply s_ok_same with e|discriminate]. }
  destruct idx; cbn [negb]; [|now apply Hnone]. destruct (repeated_ok maphash e log k name value He) as (e1 & b & -> & He1 & Hs1 & Ho1 & Hfs1 & Et1). destruct b; [|now apply Hnone].
  pose proof (s_ok_same e e1 s log k Hs Hs1) as Hse1. destruct (insert_ok e1 s log k (mkField name value) He1 Hse1 Hf ltac:(lia)) as (e2 & b & Ei2 & Hb). cbn [Name] in Ei2. rewrite Ei2. destruct b; [|subst e2; now apply Hnone].
  destruct Hb as (k' & Hw & Hroom & He2 & Hse2 & Ho2 & Hs2 & _). rewrite Et1 in Hw, Hroom. eexists _, _, [mkField name value], k'. split; [reflexivity|]. assert (len (log ++ [mkField name value]) = len log + 1) as El by (rewrite len_app; reflexivity).
  assert (inserted (t e2) = len log + 1) as Ei by (rewrite (tr_inserted _ _ _ (e_tracks _ _ _ He2)); exact El). pose proof (len_nonneg log).
  split; [|split; [change (len [mkField name value]) with 1; lia|split; [exact Hse2|]]].
  - split; cbn; auto; [exists k'; splits; auto|rewrite Ho2, Ho1, app_nil_r; reflexivity|now apply same_acks_trans with e1].
  - intros abs [= <-]. rewrite Ei, u64_id by lia. replace (len log + 1 - 1) with (len log) by lia. destruct Hroom as ((_ & Hk') & _). split; [unfold len in *; lia|]. unfold len. rewrite Nat2Z.id, lookup_app_r, Nat.sub_diag by lia. reflexivity.
Qed.

Lemma literal_ok e s log k dst (never : bool) :
  e_ok e log k -> s_ok e s log k -> len log < 2 ^ 56 ->
  exists s' w ref, literal e s dst name value (staticGet name) never = (s', dst ++ w) /\ s_ok e s' log k /\ noted log s s' ref /\ line_ok (QEncoder.base s) w (mkField name value) ref.
Proof.
  intros He Hs Hl. pose proof (so_base _ _ _ _ Hs) as Hb. destruct Hf as (Hn & Hv & Hln & Hlv). cbn in Hn, Hv, Hln, Hlv. unfold literal. destruct (staticGet name) as [|i l] eqn:Es.
  - assert (exists w, appendString (appendString dst (0x20 .| ((if never then 0x20 else 0) .>> 1)) 3 name) 0 7 value = dst ++ w /\ line_ok (QEncoder.base s) w (mkField name value) None) as (w & Ew & Hw).
    { rewrite (appendString_acc (appendString _ _ _ _)), (appendString_acc dst), <- app_assoc. eexists. split; [reflexivity|]. destruct never; [apply (line_literal (QEncoder.base s) name value Hv ltac:(lia) true)|apply (line_literal (QEncoder.base s) name value Hv ltac:(lia) false)]; auto; lia. }
    rewrite Ew. destruct (names e !! name) as [abs|] eqn:En; [|exists s, w, None; splits; auto using noted_none]. destruct (e_names _ _ _ He _ _ En) as (Hr & g & Hg & Hgn).
    destruct (mayRefer_ok e s log k abs g Hs Hr Hl Hg) as (s' & ok & -> & Hs' & Hok). destruct ok; [|subst s'; exists s, w, None; splits; auto using noted_none].
    pose proof Hok as (_ & Eb & _). rewrite Eb. destruct (Z.ltb_spec abs (QEncoder.base s)).
    + rewrite appendString_acc, (appendInt_acc dst), <- app_assoc. eexists s', _, (Some (abs, g)). splits; [reflexivity|exact Hs'|exact Hok|]. destruct never; [apply (line_name (QEncoder.base s) ltac:(lia) name value Hv ltac:(lia) abs g true)|apply (line_name (QEncoder.base s) ltac:(lia) name value Hv ltac:(lia) abs g false)]; auto; lia.
    + rewrite appendString_acc, (appendInt_acc dst), <- app_assoc. eexists s', _, (Some (abs, g)). splits; [reflexivity|exact Hs'|exact Hok|]. destruct never; [apply (line_name_post (QEncoder.base s) ltac:(lia) name value Hv ltac:(lia) abs g true)|apply (line_name_post (QEncoder.base s) ltac:(lia) name value Hv ltac:(lia) abs g false)]; auto; lia.
  - destruct (staticGet_head name i l Es) as (Hi & f & Hf' & Hn'). rewrite appendString_acc, (appendInt_acc dst), <- app_assoc. eexists s, _, None. splits; [reflexivity|exact Hs|apply noted_none|].
    destruct never; [apply (line_name_static (QEncoder.base s) name value Hv ltac:(lia) i f true)|apply (line_name_static (QEncoder.base s) name value Hv ltac:(lia) i f false)]; auto.
Qed.

Lemma Append_ok e s log k dst never :
  e_ok e log k -> s_ok e s log k -> len log + 1 < 2 ^ 56 ->
  exists e' s' w ref gs k', Append maphash e s dst name value never = Some (e', s', dst ++ w) /\ inserts e e' log k gs k' /\ len gs <= 1 /\
    s_ok e' s' (log ++ gs) k' /\ noted (log ++ gs) s s' ref /\ line_ok (QEncoder.base s) w (mkField name value) ref.
Proof.
  intros He Hs Hl. pose proof (so_base _ _ _ _ Hs) as Hb. pose proof (len_nonneg log). unfold Append. rewrite (so_live _ _ _ _ Hs). cbn [negb orb].
  assert (forall dst' w, dst' = dst ++ w -> line_ok (QEncoder.base s) w (mkField name value) None ->
    exists e' s' w ref gs k', Some (e, s, dst') = Some (e', s', dst ++ w) /\ inserts e e' log k gs k' /\ len gs <= 1 /\ s_ok e' s' (log ++ gs) k' /\ noted (log ++ gs) s s' ref /\ line_ok (QEncoder.base s) w (mkField name value) ref) as Hplain.
  { intros dst' w -> Hw. exists e, s, w, None, [], k. rewrite app_nil_r. splits; auto using noted_none; [apply inserts_refl; auto using same_acks_refl|unfold len; cbn; lia]. }
  destruct (capacity (t e) =? 0); [destruct (AppendField_line (QEncoder.base s) name value Hf dst never) as (w & E & Hw); now apply (Hplain _ w)|].
  destruct (if never then None else indexed (staticGet name) value) as [i|] eqn:Ei.
  { destruct never; [discriminate|]. apply (Hplain _ (appendInt [] 0xc0 6 i)); [apply appendInt_acc|now apply line_indexed_static]. }
  destruct (lookupOrInsert_ok e s log k (indexable name value never) He Hs Hl) as (e1 & found & gs & k1 & -> & Hin & Hgs & Hs1 & Hfound).
  assert (len (log ++ gs) < 2 ^ 56) as Hl1 by (rewrite len_app; lia). pose proof (in_ok _ _ _ _ _ _ Hin) as He1.
  assert (forall s1, s1 = s -> exists e' s' w ref gs' k', (let '(s2, dst2) := literal e1 s1 dst name value (staticGet name) never in Some (e1, s2, dst2)) = Some (e', s', dst ++ w) /\ inserts e e' log k gs' k' /\ len gs' <= 1 /\ s_ok e' s' (log ++ gs') k' /\ noted (log ++ gs') s s' ref /\ line_ok (QEncoder.base s) w (mkField name value) ref) as Hlit.
  { intros s1 ->. destruct (literal_ok e1 s (log ++ gs) k1 dst never He1 Hs1 Hl1) as (s' & w & ref & -> & Hs' & Hno & Hline). exists e1, s', w, ref, gs, k1. splits; auto. }
  destruct found as [abs|]; [|now apply Hlit]. destruct (indexable name value never); [|now apply Hlit]. destruct (Hfound abs eq_refl) as [Ha Hlog].
  destruct (mayRefer_ok e1 s (log ++ gs) k1 abs _ Hs1 Ha Hl1 Hlog) as (s' & ok & -> & Hs' & Hok). destruct ok; [|now apply Hlit]. pose proof Hok as (_ & Eb & _). rewrite Eb. destruct (Z.ltb_spec abs (QEncoder.base s)).
  - eexists e1, s', _, (Some (abs, mkField name value)), gs, k1. rewrite appendInt_acc. splits; [reflexivity|exact Hin|exact Hgs|exact Hs'|exact Hok|]. apply line_indexed; lia.
  - eexists e1, s', _, (Some (abs, mkField name value)), gs, k1. rewrite appendInt_acc. splits; [reflexivity|exact Hin|exact Hgs|exact Hs'|exact Hok|]. apply line_post; lia.
Qed.

End Append.

(** ** A section's lines *)

(** [w] is the lines of [fs], which refer to [rs]. *)
Inductive lined (base : Z) : bytes -> list HeaderField -> list (option (Z * HeaderField)) -> Prop :=
| lined_nil : lined base [] [] []
| lined_cons w f r ws fs rs : line_ok base w f r -> lined base ws fs rs -> lined base (w ++ ws) (f :: fs) (r :: rs).

Lemma lined_snoc base w fs rs w1 f r : lined base w fs rs -> line_ok base w1 f r -> lined base (w ++ w1) (fs ++ [f]) (rs ++ [r]).
Proof.
  induction 1 as [|w0 f0 r0 ws fs rs H0 _ IH]; intros H1; cbn [app]; [rewrite <- (app_nil_r w1); constructor; [exact H1|constructor]|]. rewrite <- app_assoc. constructor; auto.
Qed.

Lemma lined_bytes base w fs rs : lined base w fs rs -> bytes_ok w.
Proof. induction 1 as [|w0 f0 r0 ws fs rs (_ & H0 & _) _ IH]; [constructor|now apply bytes_ok_app]. Qed.

(** One past the largest index referred to. *)
Definition reach1 (largest : Z) (r : option (Z * HeaderField)) : Z :=
  match r with None => largest | Some (abs, _) => Z.max largest (u64 (abs + 1)) end.

Definition reach : Z -> list (option (Z * HeaderField)) -> Z := foldl reach1.

(** A table that has what the lines refer to. *)
Definition resolves (dynT : option table) (base base' R : Z) (rs : list (option (Z * HeaderField))) : Prop :=
  Forall (fun r => forall abs g, r = Some (abs, g) -> base' = base /\ abs < R /\ exists x, dynT = Some x /\ has x abs = true /\ entry x abs = Some g) rs.

Lemma lines_decode base w fs rs :
  lined base w fs rs -> forall fuel dynT base' R maxSize streamID d acc largest size,
  (length w <= fuel)%nat -> caches d -> trackedO dynT -> resolves dynT base base' R rs -> 0 <= size -> (maxSize <= 0 \/ size + weight fs <= maxSize) -> reach largest rs = R ->
  exists d', caches d' /\ dynOf d' = dynOf d /\ (is_Some d -> is_Some d') /\
    lines append fuel dynT base' R maxSize streamID d acc largest size w = Some (acked d' dynT streamID R, acc ++ fs, Ok ()).
Proof.
  induction 1 as [|w f r ws fs rs Hline Hl IH]; intros fuel dynT base' R maxSize streamID d acc largest size Hfuel Hc Ht Hres H0 Hm Hr.
  - cbn in Hr. exists d. splits; auto. rewrite app_nil_r. destruct fuel; cbn [lines]; now rewrite Hr, Z.eqb_refl.
  - pose proof Hline as (Hne & Hb & Hread). inversion Hres as [|? ? Hr1 Hrs]; subst. cbn [weight] in Hm. pose proof (weigh_pos f). pose proof (weight_nonneg fs).
    specialize (Hread dynT base' (reach largest (r :: rs)) maxSize largest ws ltac:(unfold fits; lia) Hr1).
    destruct (fieldLine_agrees dynT base' (reach largest (r :: rs)) maxSize d largest (w ++ ws)) as (d1 & r1 & E1 & E1' & Hc1 & Ed1 & Hb1); auto.
    { destruct w; [congruence|discriminate]. } { apply bytes_ok_app. split; [exact Hb|now apply lined_bytes in Hl]. }
    rewrite Hread in E1'. injection E1' as <-. pose proof (fieldLine_some _ _ _ _ _ _ _ _ _ E1) as Hs1.
    rewrite length_app in Hfuel. destruct w as [|b w0]; [congruence|]. cbn [length] in Hfuel. destruct fuel as [|fuel]; [lia|]. cbn [app lines]. change (b :: w0 ++ ws) with ((b :: w0) ++ ws) in *. rewrite E1.
    fold (reach1 largest r). assert ((0 <? maxSize) && (maxSize <? size + (len (Name f) + len (Value f) + 32)) = false) as ->.
    { change (len (Name f) + len (Value f) + 32) with (weigh f). destruct (Z.ltb_spec 0 maxSize), (Z.ltb_spec maxSize (size + weigh f)); cbn; auto; lia. }
    unfold append at 1. cbn [fst snd]. destruct (IH fuel dynT base' (reach largest (r :: rs)) maxSize streamID d1 (acc ++ [f]) (reach1 largest r) (size + (len (Name f) + len (Value f) + 32))) as (d' & Hc' & Ed' & Hs' & E'); auto; try lia.
    { change (len (Name f) + len (Value f) + 32) with (weigh f). lia. } { change (len (Name f) + len (Value f) + 32) with (weigh f). lia. }
    exists d'. splits; auto; [congruence|]. rewrite E'. now rewrite <- app_assoc.
Qed.

(** ** The required insert count *)

(** A count within [maxEntries] of the decoder's comes back from what it is
    encoded as. *)
Lemma requiredInsertCount_wraps t ric :
  0 < maxEntries t < 2 ^ 57 -> 0 <= inserted (tab t) < 2 ^ 62 -> 0 < ric -> inserted (tab t) - maxEntries t < ric <= inserted (tab t) + maxEntries t ->
  requiredInsertCount t (ric mod u64 (2 * maxEntries t) + 1) = Ok ric.
Proof.
  intros HE HI Hpos Hw. unfold requiredInsertCount. set (E := maxEntries t) in *. set (I := inserted (tab t)) in *. rewrite (u64_id (2 * E)), (u64_id (I + E)) by lia.
  pose proof (Z.mod_pos_bound ric (2 * E) ltac:(lia)) as Hm. rewrite (proj2 (Z.ltb_ge _ _)) by lia.
  pose proof (Z.div_mod (I + E) (2 * E) ltac:(lia)) as Hq. pose proof (Z.mod_pos_bound (I + E) (2 * E) ltac:(lia)) as Hqm. pose proof (Z.div_mod ric (2 * E) ltac:(lia)) as Hr.
  set (q := (I + E) / (2 * E)) in *. set (q' := ric / (2 * E)) in *. set (m := ric mod (2 * E)) in *. assert (0 <= q) by (apply Z.div_pos; lia).
  assert (q' = q \/ q' = q - 1) as Hqq by nia.
  rewrite (u64_id (q * (2 * E))) by nia. rewrite (u64_id (q * (2 * E) + (m + 1))) by nia. replace (q * (2 * E) + (m + 1) - 1) with (q * (2 * E) + m) by lia. rewrite u64_id by nia.
  destruct Hqq as [->| ->].
  - assert (q * (2 * E) + m = ric) as -> by nia. rewrite (proj2 (Z.ltb_ge _ _)) by lia. now rewrite (proj2 (Z.eqb_neq _ _)) by lia.
  - assert (q * (2 * E) + m = ric + 2 * E) as -> by nia. rewrite (proj2 (Z.ltb_lt _ _)), (proj2 (Z.leb_gt _ _)) by lia. replace (ric + 2 * E - 2 * E) with ric by lia. rewrite u64_id by lia. now rewrite (proj2 (Z.eqb_neq _ _)) by lia.
Qed.

(** ** A section *)

(** A caller's fields, appended one after another. *)
Fixpoint AppendAll (maphash : bytes -> Z) (e : Encoder) (s : Section_) (dst : bytes) (fs : list (HeaderField * bool)) : option (Encoder * Section_ * bytes) :=
  match fs with
  | [] => Some (e, s, dst)
  | (f, never) :: fs =>
      match Append maphash e s dst (Name f) (Value f) never with
      | None => None
      | Some (e, s, dst) => AppendAll maphash e s dst fs
      end
  end.

(** [Begin], the fields, and [End]. *)
Definition encodeSection (maphash : bytes -> Z) (e : Encoder) (dst : bytes) (id : Z) (fs : list (HeaderField * bool)) : option (Encoder * Section_ * bytes) :=
  let '(s, dst) := Begin (Some e) dst id in
  match AppendAll maphash e s dst fs with
  | None => None
  | Some (e, s, dst) => match End_ e s dst with None => None | Some (e, dst) => Some (e, s, dst) end
  end.

(** What [rs] refer to is in [log], from the section's oldest to its newest. *)
Definition refs_in (log : list HeaderField) (s : Section_) (rs : list (option (Z * HeaderField))) : Prop :=
  Forall (fun r => forall abs g, r = Some (abs, g) -> oldest s <= abs < ric s /\ log !! Z.to_nat abs = Some g) rs /\ ric s = reach 0 rs.

Lemma Forall_snoc {A} (P : A -> Prop) l x : Forall P l -> P x -> Forall P (l ++ [x]).
Proof. intros Hl Hx. apply Forall_app. split; [exact Hl|]. now constructor. Qed.

Lemma refs_in_step log gs s s' rs r :
  refs_in log s rs -> noted (log ++ gs) s s' r -> len (log ++ gs) < 2 ^ 56 -> refs_in (log ++ gs) s' (rs ++ [r]).
Proof.
  intros [Hr He] (_ & _ & _ & _ & _ & Hn) Hl. unfold refs_in, reach. rewrite foldl_app. cbn [foldl]. fold (reach 0 rs). rewrite <- He. split.
  - apply Forall_snoc.
    + eapply Forall_impl; [exact Hr|]. intros r0 H0 abs g E. destruct (H0 abs g E) as [H1 H2]. split; [|now apply lookup_app_l_Some]. destruct r as [[a g']|]; destruct_and!; lia.
    + intros abs g ->. destruct_and!. split; [lia|assumption].
  - destruct r as [[a g']|]; cbn; destruct_and!; [rewrite u64_id by lia|]; congruence.
Qed.

Lemma AppendAll_ok maphash fs e s log k dst w done rs :
  e_ok e log k -> s_ok e s log k -> Forall field_ok (map fst fs) -> len log + len fs < 2 ^ 56 -> lined (QEncoder.base s) w done rs -> refs_in log s rs ->
  exists e' s' w' gs k' rs', AppendAll maphash e s (dst ++ w) fs = Some (e', s', dst ++ w') /\ inserts e e' log k gs k' /\ len gs <= len fs /\ s_ok e' s' (log ++ gs) k' /\
    QEncoder.base s' = QEncoder.base s /\ start s' = start s /\ streamID s' = streamID s /\ block s' = block s /\ lined (QEncoder.base s) w' (done ++ map fst fs) rs' /\ refs_in (log ++ gs) s' rs'.
Proof.
  revert e s log k w done rs. induction fs as [|[f never] fs IH]; intros e s log k w done rs He Hs Hf Hl Hw Hr; cbn [AppendAll map fst].
  - exists e, s, w, [], k, rs. rewrite !app_nil_r. splits; auto; [apply inserts_refl; auto using same_acks_refl|unfold len; cbn; lia].
  - inversion Hf as [|? ? Hf1 Hfs]; subst. rewrite len_cons in Hl. pose proof (len_nonneg fs). destruct f as [name value].
    destruct (Append_ok maphash name value Hf1 e s log k (dst ++ w) never He Hs ltac:(lia)) as (e1 & s1 & w1 & r & gs & k1 & E1 & Hin & Hgs & Hs1 & Hno & Hline). cbn [Name Value]. rewrite E1, <- app_assoc.
    assert (len (log ++ gs) = len log + len gs) as El by apply len_app. pose proof Hno as (Hst & Hb & Hid & Hbl & _). rewrite <- Hb in Hw, Hline.
    destruct (IH e1 s1 (log ++ gs) k1 (w ++ w1) (done ++ [mkField name value]) (rs ++ [r])) as (e2 & s2 & w2 & hs & k2 & rs2 & E2 & Hin2 & Hhs & Hs2 & Hb2 & Hst2 & Hid2 & Hbl2 & Hl2 & Hr2); auto; [exact (in_ok _ _ _ _ _ _ Hin)|lia|now apply lined_snoc|apply refs_in_step with s; auto; lia|].
    exists e2, s2, w2, (gs ++ hs), k2, rs2. rewrite E2, (app_assoc log), len_app, len_cons. rewrite Hb in *. rewrite <- app_assoc in Hl2. splits; auto; try congruence; [now apply inserts_trans with e1 k1|lia].
Qed.

Lemma Begin_ok e log k dst id s dst' :
  e_ok e log k -> Begin (Some e) dst id = (s, dst') -> s_ok e s log k /\ dst' = dst ++ Prefix /\ start s = len dst /\ streamID s = id /\ refs_in log s [].
Proof.
  intros He [= <- <-]. pose proof (e_known _ _ _ He). pose proof (tr_inserted _ _ _ (e_tracks _ _ _ He)) as Ei. pose proof (len_nonneg log).
  splits; auto; [|split; [constructor|reflexivity]]. split; cbn; auto; destruct (_ && mayBlock _ _); rewrite ?Ei; try lia; try discriminate; auto.
Qed.

(** ** Ending a section *)

Lemma ztake_eq {A} (a b : list A) m : m = len a -> ztake m (a ++ b) = a.
Proof. intros ->. apply ztake_app. Qed.

Lemma zdrop_eq {A} (a b : list A) m : m = len a -> zdrop m (a ++ b) = b.
Proof. intros ->. apply zdrop_app. Qed.

Lemma ztake_ge {A} (a : list A) m : len a <= m -> ztake m a = a.
Proof. intros H. unfold ztake. apply take_ge. unfold len in H. lia. Qed.

(** Whatever its length, the prefix takes the place of the one left for it. *)
Lemma putPrefix_spec a w p : 2 <= len p -> putPrefix (a ++ Prefix ++ w) (len a) p = a ++ p ++ w.
Proof.
  intros Hp. unfold putPrefix. set (grow := len p - len Prefix). pose proof (len_nonneg a). pose proof (len_nonneg w). assert (len Prefix = 2) as E2 by reflexivity.
  assert (exists y, len y = len p /\ (if 0 <? grow then copyAt ((a ++ Prefix ++ w) ++ ztake grow p) (len a + len p)
      (zdrop (len a + len Prefix) (ztake (len ((a ++ Prefix ++ w) ++ ztake grow p) - grow) ((a ++ Prefix ++ w) ++ ztake grow p))) else a ++ Prefix ++ w) = a ++ y ++ w) as (y & Hy & ->).
  { destruct (Z.ltb_spec 0 grow) as [Hg|Hg]; [|exists Prefix; split; [unfold grow in Hg; lia|reflexivity]].
    assert (len (ztake grow p) = grow) as Eg by (apply len_ztake; unfold grow; lia). set (rest := Prefix ++ w ++ ztake grow p). assert (len rest = len p + len w) as Er by (unfold rest; rewrite !len_app, Eg, E2; unfold grow; lia).
    assert ((a ++ Prefix ++ w) ++ ztake grow p = a ++ rest) as -> by (unfold rest; now rewrite <- !app_assoc).
    exists (ztake (len p) rest). assert (len (ztake (len p) rest) = len p) as Ey by (apply len_ztake; lia). split; [exact Ey|].
    assert (zdrop (len a + len Prefix) (ztake (len (a ++ rest) - grow) (a ++ rest)) = w) as ->.
    { assert (a ++ rest = ((a ++ Prefix) ++ w) ++ ztake grow p) as -> by (unfold rest; now rewrite <- !app_assoc).
      rewrite (ztake_eq ((a ++ Prefix) ++ w)) by (rewrite !len_app; lia). apply zdrop_eq. symmetry. apply len_app. }
    unfold copyAt. assert (ztake (len a + len p) (a ++ rest) = a ++ ztake (len p) rest) as ->.
    { rewrite <- (take_drop (Z.to_nat (len p)) rest) at 1. fold (ztake (len p) rest). rewrite app_assoc. apply ztake_eq. rewrite len_app. lia. }
    rewrite (ztake_ge w) by (rewrite len_app, Er; lia). rewrite <- app_assoc. do 2 f_equal. assert (zdrop (len a + len p + len w) (a ++ rest) = []) as -> by (apply drop_ge; rewrite length_app; unfold len in *; lia). apply app_nil_r. }
  unfold copyAt. rewrite (ztake_eq a) by reflexivity. f_equal. rewrite (ztake_ge p) by (rewrite !len_app; lia). f_equal. rewrite app_assoc. apply zdrop_eq. rewrite len_app. lia.
Qed.

Lemma sectionPrefix_bytes entries s :
  exists p, sectionPrefix entries s = appendInt [] 0 8 (u64 (ric s mod u64 (2 * entries) + 1)) ++ p /\
    p = (if ric s <=? QEncoder.base s then appendInt [] 0 7 (QEncoder.base s - ric s) else appendInt [] 0x80 7 (u64 (u64 (ric s - QEncoder.base s) - 1))).
Proof. unfold sectionPrefix. destruct (_ <=? _); rewrite appendInt_acc; eauto. Qed.

Lemma blocking_spec known_ id l n :
  match blocking known_ id l n with
  | None => exists sec, (id, sec) ∈ l /\ waits known_ sec = true
  | Some m => m = n + foldr (fun p n => (if waits known_ (snd p) then 1 else 0) + n) 0 l
  end.
Proof.
  revert n. induction l as [|[i sec] l IH]; intros n; cbn [blocking foldr snd]; [lia|]. fold (waits known_ sec). destruct (waits known_ sec) eqn:Ew.
  - destruct (Z.eqb_spec i id) as [->|]; [exists sec; split; [left|exact Ew]|]. specialize (IH (n + 1)). destruct (blocking known_ id l (n + 1)); [lia|]. destruct IH as (x & Hx & Hw). exists x. split; [now right|exact Hw].
  - specialize (IH n). destruct (blocking known_ id l n); [lia|]. destruct IH as (x & Hx & Hw). exists x. split; [now right|exact Hw].
Qed.

(** A section that may have its stream wait does not take the peer over its
    limit. *)
Lemma mayBlock_room e log k id x :
  e_ok e log k -> mayBlock e id = true -> waiting (known e) (<[id := default [] (unacked e !! id) ++ [x]]> (unacked e)) <= peerBlocked e.
Proof.
  intros He Hm. pose proof (e_blocking _ _ _ He) as [H0 Hw]. set (l := default [] (unacked e !! id)). unfold waiting. rewrite msum_insert.
  assert (msum (fun l => if waits (known e) l then 1 else 0) (unacked e) = (if waits (known e) l then 1 else 0) + msum (fun l => if waits (known e) l then 1 else 0) (delete id (unacked e))) as Es.
  { unfold l. destruct (unacked e !! id) as [l'|] eqn:E; [now rewrite (msum_delete _ _ _ _ E)|]. rewrite (msum_absent _ _ _ E). cbn. lia. }
  unfold waiting in Hw. unfold mayBlock in Hm. destruct ((peerBlocked e =? 0) || (maxRIC e <=? known e)) eqn:Eb.
  - apply Z.ltb_lt in Hm. apply orb_true_iff in Eb as [Eb|Eb]; [apply Z.eqb_eq in Eb; lia|]. apply Z.leb_le in Eb.
    assert (msum (fun l => if waits (known e) l then 1 else 0) (delete id (unacked e)) <= msum (fun _ => 0) (delete id (unacked e))) as Hz.
    { apply msum_le. intros i l' Hl'. apply lookup_delete_Some in Hl' as [_ Hl']. destruct (e_unacked _ _ _ He i l' Hl') as [_ Hall]. destruct (waits (known e) l') eqn:Ew; [|lia]. exfalso.
      unfold waits in Ew. apply existsb_exists in Ew as (y & Hy & Hlt). apply Z.ltb_lt in Hlt. apply list_elem_of_In in Hy. rewrite Forall_forall in Hall. destruct (Hall y Hy) as (_ & _ & H3). lia. }
    assert (msum (fun _ => 0) (delete id (unacked e)) = 0) as Hz0 by (unfold msum; generalize (map_to_list (delete id (unacked e))) as m; induction m as [|p m IH]; cbn; lia). destruct (waits (known e) (l ++ [x])); lia.
  - pose proof (blocking_spec (known e) id (map_to_list (unacked e)) 0) as Hspec. destruct (blocking (known e) id (map_to_list (unacked e)) 0) as [m|].
    + apply Z.ltb_lt in Hm. fold (msum (fun l => if waits (known e) l then 1 else 0) (unacked e)) in Hspec. destruct (waits (known e) (l ++ [x])), (waits (known e) l); lia.
    + destruct Hspec as (sec & Hin & Hws). apply elem_of_map_to_list in Hin. assert (l = sec) as El by (unfold l; now rewrite Hin). rewrite El, Hws in Es. destruct (waits (known e) (l ++ [x])); lia.
Qed.

(** The prefix of a section once it has ended. *)
Definition prefixOf (entries : Z) (s : Section_) : bytes := if 0 <? ric s then sectionPrefix entries s else Prefix.

(** The sections of the streams after one more. *)
Definition recorded (e : Encoder) (s : Section_) : gmap Z (list sentSection) :=
  if 0 <? ric s then <[streamID s := default [] (unacked e !! streamID s) ++ [mkSent (ric s) (oldest s)]]> (unacked e) else unacked e.

Lemma sectionPrefix_len entries s : 0 <= QEncoder.base s -> 0 <= ric s -> 0 < entries < 2 ^ 51 -> 2 <= len (sectionPrefix entries s).
Proof.
  intros Hb Hr He. destruct (sectionPrefix_bytes entries s) as (p & -> & ->). rewrite len_app, (u64_id (2 * entries)) by lia. pose proof (Z.mod_pos_bound (ric s) (2 * entries) ltac:(lia)). rewrite (u64_id (_ + 1)) by lia.
  destruct (appendInt_shape 0 8 (ric s mod (2 * entries) + 1) ltac:(lia) ltac:(lia)) as (x & tl & -> & _). rewrite len_cons. pose proof (len_nonneg tl).
  destruct (Z.leb_spec (ric s) (QEncoder.base s)).
  - destruct (appendInt_shape 0 7 (QEncoder.base s - ric s) ltac:(lia) ltac:(lia)) as (y & tl2 & -> & _). rewrite len_cons. pose proof (len_nonneg tl2). lia.
  - destruct (appendInt_shape 0x80 7 (u64 (u64 (ric s - QEncoder.base s) - 1)) ltac:(lia) (proj1 (u64_range _))) as (y & tl2 & -> & _). rewrite len_cons. pose proof (len_nonneg tl2). lia.
Qed.

(** A section that refers to the table means the peer allows an entry. *)
Lemma entries_pos e s log k : e_ok e log k -> s_ok e s log k -> 0 < ric s -> 0 < peerEntries e < 2 ^ 51.
Proof.
  intros He Hs Hr. pose proof (e_entries _ _ _ He). pose proof (e_weight _ _ _ He) as Hw. pose proof (dropped_bound _ _ _ (e_tracks _ _ _ He)) as Hd.
  destruct (so_refs _ _ _ _ Hs) as [[? _]|[? ?]]; [lia|]. assert (weight (drop k log) / 32 <= capacity (t e) / 32) by (apply Z.div_le_mono; lia). lia.
Qed.

Lemma End_ok e s log k dst w :
  e_ok e log k -> s_ok e s log k -> (block s = true -> mayBlock e (streamID s) = true) -> start s = len dst ->
  exists e', End_ e s (dst ++ Prefix ++ w) = Some (e', dst ++ prefixOf (peerEntries e) s ++ w) /\ e_ok e' log k /\ unacked e' = recorded e s /\
    t e' = t e /\ out e' = out e /\ known e' = known e /\ peerEntries e' = peerEntries e /\ peerBlocked e' = peerBlocked e /\ maxCapacity e' = maxCapacity e /\ flushing e' = flushing e /\ in_ e' = in_ e.
Proof.
  intros He Hs Hmay Hst. unfold End_, prefixOf, recorded. rewrite (so_live _ _ _ _ Hs). cbn [negb]. destruct (Z.ltb_spec 0 (ric s)) as [Hr|]; [|exists e; splits; auto].
  pose proof (entries_pos e s log k He Hs Hr) as HE. pose proof (so_base _ _ _ _ Hs) as Hb. cbn [peerEntries with_ric with_acks]. rewrite (u64_id (2 * _)), (proj2 (Z.eqb_neq _ _)) by lia.
  rewrite Hst, putPrefix_spec by (apply sectionPrefix_len; lia). eexists. split; [reflexivity|]. split; [|cbn; auto 20].
  destruct (so_refs _ _ _ _ Hs) as [[? _]|[Ho Hl]]; [lia|]. assert (waiting (known e) (<[streamID s := default [] (unacked e !! streamID s) ++ [mkSent (ric s) (oldest s)]]> (unacked e)) <= peerBlocked e) as Hwait.
  { destruct (block s) eqn:Eb; [now apply (mayBlock_room e log k); auto|]. pose proof (so_plain _ _ _ _ Hs Eb) as Hp. rewrite (so_known _ _ _ _ Hs Eb) in Hp. pose proof (e_blocking _ _ _ He) as [_ Hw]. unfold waiting in *. rewrite msum_insert.
    set (l := default [] (unacked e !! streamID s)). assert (waits (known e) (l ++ [mkSent (ric s) (oldest s)]) = waits (known e) l) as ->.
    { unfold waits. rewrite existsb_app. cbn [existsb s_ric]. rewrite (proj2 (Z.ltb_ge _ _)) by lia. now rewrite !orb_false_r. }
    unfold l. destruct (unacked e !! streamID s) as [l'|] eqn:E; [now rewrite (msum_delete _ _ _ _ E) in Hw|]. rewrite (msum_absent _ _ _ E) in Hw. cbn. lia. }
  destruct He as [? ? ? ? ? ? ? ? Hun Hpe [? ?] ? ? ?]. split; cbn; auto; try lia.
  - intros id l Hl'. apply lookup_insert_Some in Hl' as [[<- <-]|[_ Hl']].
    + split; [now destruct (default [] (unacked e !! streamID s))|]. apply Forall_snoc; [|split; cbn; lia]. destruct (unacked e !! streamID s) as [l'|] eqn:E; [|constructor]. destruct (Hun _ _ E) as [_ Hall]. eapply Forall_impl; [exact Hall|]. intros x (H1' & H2' & H3'). split; [exact H1'|]. cbn. lia.
    + destruct (Hun _ _ Hl') as [Hne Hall]. split; [exact Hne|]. eapply Forall_impl; [exact Hall|]. intros x (H1' & H2' & H3'). split; [exact H1'|]. cbn. lia.
  - rewrite Hpe. unfold total. rewrite msum_insert, len_app. change (len [mkSent (ric s) (oldest s)]) with 1. destruct (unacked e !! streamID s) as [l'|] eqn:E; [rewrite (msum_delete _ _ _ _ E); cbn; unfold Datatypes.id; lia|rewrite (msum_absent _ _ _ E); change (len (default [] None)) with 0; lia].
Qed.

Lemma mayBlock_same e e' id : same_acks e e' -> mayBlock e' id = mayBlock e id.
Proof. intros (_ & E1 & E2 & E3 & E4 & _). unfold mayBlock. now rewrite E1, E2, E3, E4. Qed.

(** What a section sent is: its lines, and what they refer to. *)
Record section_of (log : list HeaderField) (s : Section_) (w : bytes) (fs : list HeaderField) : Prop := {
  sec_lines : exists rs, lined (QEncoder.base s) w fs rs /\ refs_in log s rs;
  sec_base : 0 <= QEncoder.base s < 2 ^ 56;
  sec_ric : ric s = 0 \/ 0 <= oldest s < ric s /\ ric s < 2 ^ 56;
  sec_oldest : 0 <= oldest s
}.

Lemma encodeSection_ok maphash e log k dst id fs :
  e_ok e log k -> Forall field_ok (map fst fs) -> len log + len fs < 2 ^ 56 ->
  exists e' s w gs k', encodeSection maphash e dst id fs = Some (e', s, dst ++ prefixOf (peerEntries e) s ++ w) /\
    e_ok e' (log ++ gs) k' /\ rooms (capacity (t e)) log k gs k' /\ Forall field_ok gs /\ len gs <= len fs /\ out e' = out e ++ insertions gs /\
    section_of (log ++ gs) s w (map fst fs) /\ streamID s = id /\ unacked e' = recorded e s /\ (0 < ric s -> Z.of_nat k' <= oldest s /\ ric s <= len (log ++ gs)) /\
    known e' = known e /\ peerEntries e' = peerEntries e /\ peerBlocked e' = peerBlocked e /\ maxCapacity e' = maxCapacity e /\ capacity (t e') = capacity (t e) /\ flushing e' = flushing e /\ in_ e' = in_ e.
Proof.
  intros He Hf Hl. unfold encodeSection. destruct (Begin (Some e) dst id) as [s0 dst0] eqn:Eb. pose proof (Begin_ok e log k dst id s0 dst0 He Eb) as (Hs0 & -> & Hst0 & Hid0 & Hr0).
  assert (block s0 = true -> mayBlock e id = true) as Hmay by (injection Eb as <-; cbn; intros H; now apply andb_true_iff in H as [_ H]).
  destruct (AppendAll_ok maphash fs e s0 log k (dst ++ Prefix) [] [] [] He Hs0 Hf Hl (lined_nil _) Hr0) as (e1 & s1 & w & gs & k1 & rs & E1 & Hin & Hgs & Hs1 & Hb1 & Hst1 & Hid1 & Hbl1 & Hw & Hr1).
  rewrite app_nil_r in E1. rewrite E1. cbn [app] in Hw. destruct Hin as [Hrooms Hgf Hout He1 Hsame]. rewrite <- app_assoc.
  destruct (End_ok e1 s1 (log ++ gs) k1 dst w He1 Hs1) as (e2 & -> & He2 & Hun & Et & Eo & Ek & Ep & Epb & Emc & Efl & Ein); [|congruence|].
  { intros Hbl. rewrite (mayBlock_same e e1), Hid1, Hid0 by exact Hsame. apply Hmay. congruence. }
  assert (len (log ++ gs) < 2 ^ 56) as Hl2 by (rewrite len_app; lia). unfold same_acks in Hsame. destruct_and!. pose proof (so_base _ _ _ _ Hs1). pose proof (so_refs _ _ _ _ Hs1) as Hrefs.
  exists e2, s1, w, gs, k1. replace (peerEntries e1) with (peerEntries e) by congruence. splits; auto; try congruence.
  - split; [exists rs; rewrite Hb1; auto|lia| |]; destruct Hrefs as [[? ?]|[? ?]]; first [now left|right; lia|lia].
  - rewrite Hun. unfold recorded. match goal with E : unacked e1 = unacked e |- _ => now rewrite E end.
  - destruct Hrefs as [[? _]|[? ?]]; lia.
Qed.

(** ** A section decoded *)

Section Decoded.
Context (log : list HeaderField) (s : Section_) (w : bytes) (fs : list HeaderField) (Hsec : section_of log s w fs).

(** A section without references, by any decoder. *)
Lemma decode_plain d entries maxSize acc id :
  ric s = 0 -> caches d -> (maxSize <= 0 \/ weight fs <= maxSize) ->
  exists d', decode append d (prefixOf entries s ++ w) maxSize acc id = Some (d', acc ++ fs, Ok ()) /\ caches d' /\ dynOf d' = dynOf d /\ (is_Some d -> is_Some d').
Proof.
  intros Hr Hc Hm. destruct (sec_lines _ _ _ _ Hsec) as (rs & Hl & Hrs & Ereach). unfold prefixOf. rewrite Hr in *. change (0 <? 0) with false. cbn iota.
  assert (resolves None (QEncoder.base s) 0 0 rs) as Hres by (eapply Forall_impl; [exact Hrs|]; intros r H abs g E; destruct (H abs g E) as [? _]; pose proof (sec_oldest _ _ _ _ Hsec); lia).
  assert (caches (startSection d) /\ dynOf (startSection d) = dynOf d /\ (is_Some d -> is_Some (startSection d))) as (Hc' & Ed' & Hs').
  { destruct d as [d|]; cbn; splits; eauto. destruct Hc as (? & ? & ?). split; [assumption|split; [assumption|cbn; lia]]. }
  destruct (lines_decode _ _ _ _ Hl (length w) None 0 0 maxSize id (startSection d) acc 0 0) as (d' & Hc2 & Ed2 & Hs2 & E2); auto; try lia; [exact I|]. exists d'. split; [exact E2|]. splits; auto; congruence.
Qed.

Context (t : decoderTable) (logd : list HeaderField) (kd : nat) (Ht : dt_ok t logd kd).
Hypothesis (Hlogd : len logd < 2 ^ 62).
Context (d : Decoder) (Hc : cache_ok d) (Hd : dyn d = Some t).
Hypothesis (Hric : 0 < ric s).
(** The count is within the window its encoding leaves. *)
Hypothesis (Hwindow : len logd - maxEntries t < ric s <= len logd + maxEntries t).

(** The prefix is read back, up to the lines. *)
Lemma decode_prefix maxSize acc id :
  0 < maxEntries t ->
  decode append (Some d) (prefixOf (maxEntries t) s ++ w) maxSize acc id =
  if len logd <? ric s then let '(t', e) := QDecoder.block t id in Some (Some (with_dyn d (Some t')), acc, Err e)
  else lines append (length w) (Some (tab t)) (QEncoder.base s) (ric s) maxSize id (startSection (Some d)) acc 0 0 w.
Proof.
  intros HE. pose proof (sec_base _ _ _ _ Hsec) as Hb. destruct (sec_ric _ _ _ _ Hsec) as [?|[Ho Hr]]; [lia|]. pose proof (dt_entries _ _ _ Ht) as Eent. pose proof (dt_max _ _ _ Ht) as Hmax.
  assert (maxEntries t < 2 ^ 51) as HE2 by (rewrite Eent; apply Z.div_lt_upper_bound; lia). set (E := maxEntries t) in *. pose proof (tr_inserted _ _ _ (dt_tracks _ _ _ Ht)) as Ei. pose proof (len_nonneg logd).
  unfold prefixOf. rewrite (proj2 (Z.ltb_lt _ _)) by lia. destruct (sectionPrefix_bytes E s) as (p & -> & Ep). rewrite (u64_id (2 * E)) by lia. pose proof (Z.mod_pos_bound (ric s) (2 * E) ltac:(lia)). rewrite (u64_id (_ + 1)) by lia.
  rewrite <- app_assoc. unfold decode. rewrite (readInt_append 0 8 (ric s mod (2 * E) + 1) (p ++ w)) by (try reflexivity; lia).
  assert (sectionTable (Some d) (ric s mod (2 * E) + 1) = Ok (Some (t, ric s))) as ->.
  { unfold sectionTable. rewrite (proj2 (Z.eqb_neq _ _)) by lia. destruct d as [rc pl dd]. cbn in Hd. subst dd. rewrite <- (u64_id (2 * E)) by lia. unfold E. rewrite requiredInsertCount_wraps; [reflexivity|fold E; lia|lia|lia|rewrite Ei; fold E; lia]. }
  assert (exists b r0 delta, p ++ w = b :: r0 /\ readInt (b :: r0) 7 = Ok (delta, w) /\ baseOf (ric s) delta (negb (b .& 0x80 =? 0)) = Ok (QEncoder.base s)) as (b & r0 & delta & -> & Hread & Hbase).
  { destruct (Z.leb_spec (ric s) (QEncoder.base s)).
    - destruct (appendInt_shape 0 7 (QEncoder.base s - ric s) ltac:(lia) ltac:(lia)) as (x & tl & Es & Hx & _). pose proof (readInt_append 0 7 (QEncoder.base s - ric s) w ltac:(lia) eq_refl ltac:(lia)) as Hr'. rewrite <- Ep in Hr', Es. rewrite Es in *.
      exists (0 .| x), (tl ++ w), (QEncoder.base s - ric s). splits; [reflexivity|exact Hr'|]. rewrite (lead (fun x => (0 .| x) .& 0x80 =? 0) 7 x) by decided. unfold baseOf. cbn [negb]. f_equal. rewrite u64_id; lia.
    - set (v := u64 (u64 (ric s - QEncoder.base s) - 1)) in *. assert (v = ric s - QEncoder.base s - 1) as Ev by (unfold v; rewrite (u64_id (ric s - QEncoder.base s)), u64_id; lia).
      destruct (appendInt_shape 0x80 7 v ltac:(lia) ltac:(lia)) as (x & tl & Es & Hx & _). pose proof (readInt_append 0x80 7 v w ltac:(lia) eq_refl ltac:(lia)) as Hr'. rewrite <- Ep in Hr', Es. rewrite Es in *.
      exists (0x80 .| x), (tl ++ w), v. splits; [reflexivity|exact Hr'|]. rewrite (lead (fun x => negb ((0x80 .| x) .& 0x80 =? 0)) 7 x) by decided. unfold baseOf. cbn [negb]. rewrite (proj2 (Z.leb_gt _ _)) by lia. f_equal. rewrite (u64_id (ric s - v)), u64_id; lia. }
  rewrite Hread, Hbase, Ei. reflexivity.
Qed.

(** A section whose entries the table has: its fields, and an acknowledgment. *)
Lemma decode_refs maxSize acc id :
  ric s <= len logd -> Z.of_nat kd <= oldest s -> (forall i, oldest s <= Z.of_nat i < ric s -> logd !! i = log !! i) -> (maxSize <= 0 \/ weight fs <= maxSize) ->
  exists d', decode append (Some d) (prefixOf (maxEntries t) s ++ w) maxSize acc id = Some (Some d', acc ++ fs, Ok ()) /\ cache_ok d' /\ dyn d' = acknowledge (Some t) id (ric s).
Proof.
  intros Hle Hk Hagree Hm. destruct (sec_ric _ _ _ _ Hsec) as [?|[Ho Hr]]; [lia|].
  assert (0 < maxEntries t) as HE by lia.
  rewrite decode_prefix, (proj2 (Z.ltb_ge _ _)) by auto. destruct (sec_lines _ _ _ _ Hsec) as (rs & Hl & Hrs & Ereach).
  assert (resolves (Some (tab t)) (QEncoder.base s) (QEncoder.base s) (ric s) rs) as Hres.
  { eapply Forall_impl; [exact Hrs|]. intros r H abs g E. destruct (H abs g E) as [Ha Hlog]. split; [reflexivity|]. split; [lia|]. exists (tab t). split; [reflexivity|].
    assert (has (tab t) abs = true) as Hh by (apply (has_tracks _ _ _ (dt_tracks _ _ _ Ht)); lia). split; [exact Hh|]. destruct (entry_tracks _ _ _ (dt_tracks _ _ _ Ht) abs Hh) as (f & -> & Hf).
    rewrite Hagree, Hlog in Hf by lia. congruence. }
  assert (caches (startSection (Some d))) as Hc' by (destruct Hc as (? & ? & ?); split; [assumption|split; [assumption|cbn; lia]]).
  destruct (lines_decode _ _ _ _ Hl (length w) (Some (tab t)) (QEncoder.base s) (ric s) maxSize id (startSection (Some d)) acc 0 0) as (d' & Hc2 & Ed2 & Hs2 & E2); auto; try lia; [exists logd, kd; exact (dt_tracks _ _ _ Ht)|].
  destruct (Hs2 ltac:(cbn; eauto)) as [d2 ->]. exists (with_dyn d2 (acknowledge (dyn d2) id (ric s))). split; [exact E2|]. split; [now apply cache_dyn|]. cbn in Ed2 |- *. now rewrite Ed2, Hd.
Qed.

(** A section that refers to entries still to come waits for them. *)
Lemma decode_waits maxSize acc id :
  len logd < ric s -> decode append (Some d) (prefixOf (maxEntries t) s ++ w) maxSize acc id = Some (Some (with_dyn d (Some (fst (QDecoder.block t id)))), acc, Err (snd (QDecoder.block t id))).
Proof. intros Hlt. assert (0 < maxEntries t) as HE by lia. rewrite decode_prefix, (proj2 (Z.ltb_lt _ _)) by auto. now destruct (QDecoder.block t id). Qed.

End Decoded.

End QRound.
