(* ===== verification/QpackStreams.v ===== *)
(** * The two QPACK streams (src/http3/qpack/encoder.go, decoder.go)

    The encoder stream, as [insert] and [SetPeerSettings] write it, carried out
    by [FeedEncoder] in whatever pieces it arrives; the decoder stream, as
    [acknowledge], [Cancel] and [FeedEncoder] write it, by [FeedDecoder]. What
    has come is a number of whole instructions and the start of one. *)

From S2P Require Import Prelude HpackTables HpackHuffman QpackCodec QpackTable QpackDecoder QpackEncoder QpackRoundtrip.
From stdpp Require Import base list numbers gmap.
From Stdlib Require Import ZArith Lia.

Local Open Scope Z_scope.
Local Open Scope go_scope.

Module QStreams.
Import Qpack QTable QDecoder QEncoder QRound.

(** ** Pieces of a stream *)

(** [p] is what has come of the instructions [ws]: none of the first, or the
    start of it. *)
Definition started (p : bytes) (ws : list bytes) : Prop :=
  match ws with [] => p = [] | w :: _ => exists q, w = p ++ q /\ q <> [] end.

Lemma split_prefix (w1 w2 p q : bytes) :
  w1 ++ w2 = p ++ q -> (exists r, w1 = p ++ r /\ r <> []) \/ (exists p2, p = w1 ++ p2 /\ w2 = p2 ++ q).
Proof.
  intros E. apply app_eq_app in E as [r [[-> ->]|[-> ->]]]; [|right; exists r; auto]. destruct r as [|x r]; [right; exists []; rewrite !app_nil_r; auto|left; exists (x :: r); split; [reflexivity|discriminate]].
Qed.

(** ** Encoder instructions *)

Inductive instr : Type := SetCap (c : Z) | Ins (f : HeaderField).

Definition ibytes (i : instr) : bytes := match i with SetCap c => appendInt [] 0x20 5 c | Ins f => insertion f end.

(** [i] takes the table [x] to [x'], for a decoder that allows [M], and waits
    where it is cut short. *)
Definition carries (M : Z) (x : table) (i : instr) (x' : table) : Prop :=
  ibytes i <> [] /\ bytes_ok (ibytes i) /\ forall t, QDecoder.maxCapacity t = M -> tab t = x ->
    (forall rest, instruction t (ibytes i ++ rest) = Some (with_tab t x', Ok (len (ibytes i)))) /\
    (forall p q, ibytes i = p ++ q -> q <> [] -> p <> [] -> instruction t p = Some (t, Ok 0)).

Inductive chain (M : Z) : table -> list instr -> table -> Prop :=
| chain_nil x : chain M x [] x
| chain_cons x i x1 is_ x2 : carries M x i x1 -> chain M x1 is_ x2 -> chain M x (i :: is_) x2.

Lemma instr_chain_app M x is1 x1 is2 x2 : chain M x is1 x1 -> chain M x1 is2 x2 -> chain M x (is1 ++ is2) x2.
Proof. induction 1; intros; cbn; [assumption|]. econstructor; eauto. Qed.

Lemma chain_cons_inv M x i is_ x2 : chain M x (i :: is_) x2 -> exists x1, carries M x i x1 /\ chain M x1 is_ x2.
Proof. inversion 1; subst; eauto. Qed.

Lemma chain_nil_inv M x x2 : chain M x [] x2 -> x2 = x.
Proof. now inversion 1. Qed.

(** The loop of FeedEncoder carries out the instructions that are whole. *)
Lemma feedLoop_chain M x is_ x2 :
  chain M x is_ x2 -> forall fuel t buf more, QDecoder.maxCapacity t = M -> tab t = x -> buf ++ more = mjoin (map ibytes is_) -> (length buf <= fuel)%nat ->
  exists is1 is2 p x1, is_ = is1 ++ is2 /\ chain M x is1 x1 /\ chain M x1 is2 x2 /\ buf = mjoin (map ibytes is1) ++ p /\ started p (map ibytes is2) /\
    p ++ more = mjoin (map ibytes is2) /\ feedLoop fuel t buf = Some (with_tab t x1, Ok p).
Proof.
  induction 1 as [x|x i x1 is_ x2 Hi Hch IH]; intros fuel t buf more HM Hx E Hf.
  - apply app_eq_nil in E as [-> ->]. exists [], [], [], x. splits; try constructor. subst x. destruct fuel, t; reflexivity.
  - cbn [map mjoin list_join] in E. pose proof Hi as (Hne & _ & Hc). destruct (Hc t HM Hx) as [Hwhole Hpart].
    assert (exists y, with_tab t y = t) as [y Ey] by (exists (tab t); now destruct t).
    assert (forall p, started p (map ibytes (i :: is_)) -> p = buf -> feedLoop fuel t buf = Some (with_tab t x, Ok p) ->
      exists is1 is2 p0 x3, i :: is_ = is1 ++ is2 /\ chain M x is1 x3 /\ chain M x3 is2 x2 /\ buf = mjoin (map ibytes is1) ++ p0 /\ started p0 (map ibytes is2) /\ p0 ++ more = mjoin (map ibytes is2) /\ feedLoop fuel t buf = Some (with_tab t x3, Ok p0)) as Hnone.
    { intros p Hst -> Hfeed. exists [], (i :: is_), buf, x. splits; auto; [constructor|econstructor; eauto]. }
    assert (with_tab t x = t) as Etx by (subst x; now destruct t).
    destruct buf as [|b buf0] eqn:Eb; [apply (Hnone []); [exists (ibytes i); auto|reflexivity|rewrite Etx; now destruct fuel]|]. rewrite <- Eb in *.
    symmetry in E. apply split_prefix in E as [(r & Er & Hr)|(buf1 & -> & E)].
    + apply (Hnone buf); [exists r; auto|reflexivity|]. destruct fuel as [|fuel]; [rewrite Eb in Hf; cbn in Hf; lia|]. rewrite Etx. pose proof (Hpart buf r Er Hr ltac:(rewrite Eb; discriminate)) as Hp. rewrite Eb in *. cbn [feedLoop]. now rewrite Hp.
    + destruct (ibytes i) as [|b' w0] eqn:Ew; [congruence|]. destruct fuel as [|fuel]; [cbn in Hf; lia|]. rewrite <- Ew in *. assert (0 < len (ibytes i)) as Hlen by (rewrite Ew, len_cons; pose proof (len_nonneg w0); lia).
      destruct (IH fuel (with_tab t x1) buf1 more) as (is1 & is2 & p & x3 & -> & Hc1 & Hc2 & -> & Hst & Hmore & Hfeed); auto; [rewrite length_app in Hf; unfold len in Hlen; lia|].
      exists (i :: is1), is2, p, x3. splits; auto; [econstructor; eauto|cbn [map mjoin list_join]; now rewrite app_assoc|].
      assert (exists b2 r2, ibytes i ++ mjoin (map ibytes is1) ++ p = b2 :: r2) as (b2 & r2 & Eb2) by (rewrite Ew; cbn; eauto). rewrite Eb2. cbn [feedLoop]. rewrite <- Eb2, Hwhole, (proj2 (Z.eqb_neq _ _)), zdrop_app by lia. rewrite Hfeed. reflexivity.
Qed.

(** The kinds of encoder instruction, by their first byte. *)
Inductive ikind : Type := NameRefStatic | NameRefDyn | LiteralName | SetCapacity | Duplicate.

#[local] Instance ikind_eq_dec : EqDecision ikind.
Proof. solve_decision. Defined.

Definition ikind_of (c : Z) : ikind :=
  if negb (c .& 0x80 =? 0) then if negb (c .& 0x40 =? 0) then NameRefStatic else NameRefDyn
  else if c .& 0xc0 =? 0x40 then LiteralName
  else if c .& 0xe0 =? 0x20 then SetCapacity
  else Duplicate.

Lemma ikind_bits K first n x :
  all_bytes (fun x => implb (x <? 2 ^ n) (bool_decide (ikind_of (first .| x) = K))) = true -> 0 <= x < 2 ^ n -> n <= 8 -> ikind_of (first .| x) = K.
Proof. intros H Hx Hn. apply (bool_decide_eq_true_1 _ (lead (fun x => bool_decide (ikind_of (first .| x) = K)) n x H Hx Hn)). Qed.

Section Kinds.
Context (t : decoderTable) (c : Z) (r : bytes).

Lemma instruction_static : ikind_of c = NameRefStatic ->
  instruction t (c :: r) = match parseInt (c :: r) 6 with
    | Err e => Some (t, Err e)
    | Ok (i, k) => if k =? 0 then Some (t, Ok 0) else if len staticTable <=? i then Some (t, Err ErrEncoderStream)
                   else match staticEntry i with None => None | Some f => namedInsert t (c :: r) k (Name f) end
    end.
Proof. unfold ikind_of, instruction. destruct (negb (c .& 0x80 =? 0)); [destruct (negb (c .& 0x40 =? 0)); [reflexivity|discriminate]|]. destruct (c .& 0xc0 =? 0x40); [discriminate|]. destruct (c .& 0xe0 =? 0x20); discriminate. Qed.

Lemma instruction_literal : ikind_of c = LiteralName ->
  instruction t (c :: r) = match parseString (c :: r) 5 (u64 (4 * QDecoder.maxCapacity t)) (int (QDecoder.maxCapacity t)) with
    | Err e => Some (t, Err e)
    | Ok (name, k) => if k =? 0 then Some (t, Ok 0) else namedInsert t (c :: r) k name
    end.
Proof. unfold ikind_of, instruction. destruct (negb (c .& 0x80 =? 0)); [destruct (negb (c .& 0x40 =? 0)); discriminate|]. destruct (c .& 0xc0 =? 0x40); [reflexivity|]. destruct (c .& 0xe0 =? 0x20); discriminate. Qed.

Lemma instruction_capacity : ikind_of c = SetCapacity ->
  instruction t (c :: r) = match parseInt (c :: r) 5 with
    | Err e => Some (t, Err e)
    | Ok (cap, k) => if k =? 0 then Some (t, Ok 0) else if QDecoder.maxCapacity t <? cap then Some (t, Err ErrEncoderStream)
                     else match evictFor (Z.to_nat (n (tab t))) (setCapacity (tab t) cap) 0 with None => None | Some x => Some (with_tab t x, Ok k) end
    end.
Proof. unfold ikind_of, instruction. destruct (negb (c .& 0x80 =? 0)); [destruct (negb (c .& 0x40 =? 0)); discriminate|]. destruct (c .& 0xc0 =? 0x40); [discriminate|]. destruct (c .& 0xe0 =? 0x20); [reflexivity|discriminate]. Qed.

End Kinds.

Lemma int_len first n v : 1 <= n <= 8 -> 0 <= v -> 0 < len (appendInt [] first n v).
Proof. intros Hn Hv. destruct (appendInt_shape first n v Hn Hv) as (x & tl & -> & _). rewrite len_cons. pose proof (len_nonneg tl). lia. Qed.

Lemma carries_capacity M c : 0 < c <= M -> M < 2 ^ 56 -> carries M empty (SetCap c) (setCapacity empty c).
Proof.
  intros Hc HM. unfold carries. cbn [ibytes]. destruct (appendInt_shape 0x20 5 c ltac:(lia) ltac:(lia)) as (x & tl & E & Hx & _). split; [rewrite E; discriminate|]. split; [apply int_bytes; unfold is_byte; lia|].
  intros t HtM Htab. pose proof (int_len 0x20 5 c ltac:(lia) ltac:(lia)) as Hlen. destruct (parseInt_partial 0x20 5 c ltac:(lia) eq_refl ltac:(lia)) as [Hw Hp].
  assert (ikind_of (0x20 .| x) = SetCapacity) as Hk by (apply (ikind_bits _ 0x20 5); decided). split.
  - intros rest. specialize (Hw rest). rewrite E in Hw, Hlen |- *. cbn [app] in *. rewrite instruction_capacity, Hw by exact Hk. rewrite (proj2 (Z.eqb_neq _ _)), HtM, (proj2 (Z.ltb_ge _ _)), Htab by lia.
    change (evictFor (Z.to_nat (n empty)) (setCapacity empty c) 0) with (if c <? 0 then None else Some (setCapacity empty c)). now rewrite (proj2 (Z.ltb_ge _ _)) by lia.
  - intros p q Epq Hq Hne. specialize (Hp p q Epq Hq). destruct p as [|b p]; [congruence|]. rewrite E in Epq. injection Epq as <- _. rewrite instruction_capacity by exact Hk. now rewrite Hp.
Qed.

(** A field's value after its name, whole or not. *)
Lemma namedInsert_partial t w1 name value :
  bytes_ok value -> len value < 2 ^ 55 -> 0 < QDecoder.maxCapacity t < 2 ^ 56 -> len value <= QDecoder.maxCapacity t ->
  (forall rest, namedInsert t (w1 ++ appendString [] 0 7 value ++ rest) (len w1) name = inserting t (mkField name value) (len (w1 ++ appendString [] 0 7 value))) /\
  (forall p q, appendString [] 0 7 value = p ++ q -> q <> [] -> namedInsert t (w1 ++ p) (len w1) name = Some (t, Ok 0)).
Proof.
  intros Hv Hl HM Hc. unfold namedInsert. rewrite int_small, (u64_id (4 * _)) by lia. destruct (parseString_partial 0 7 value (4 * QDecoder.maxCapacity t) (QDecoder.maxCapacity t) Hv ltac:(lia) ltac:(lia) eq_refl ltac:(lia) ltac:(lia)) as [Hw Hp]. split.
  - intros rest. rewrite zdrop_app, Hw, len_app. destruct (appendString_shape 0 7 value Hv ltac:(lia) eq_refl) as (x & tl & -> & _). rewrite len_cons. pose proof (len_nonneg tl). now rewrite (proj2 (Z.eqb_neq _ _)) by lia.
  - intros p q E Hq. now rewrite zdrop_app, (Hp p q E Hq).
Qed.

Lemma carries_insert M x log k f x' :
  tracks x log k -> field_ok f -> weigh f <= M -> 0 < M < 2 ^ 56 -> QDecoder.insert x f = Some (x', Ok ()) -> carries M x (Ins f) x'.
Proof.
  intros Hx Hf Hw HM Hins. pose proof Hf as (Hn & Hv & Hln & Hlv). destruct f as [name value]. cbn [Name Value] in *. unfold weigh, entryOverhead in Hw. cbn [Name Value] in Hw. pose proof (len_nonneg name). pose proof (len_nonneg value).
  assert (forall t m, tab t = x -> inserting t (mkField name value) m = Some (with_tab t x', Ok m)) as Hdo by (intros t m <-; unfold inserting; now rewrite Hins).
  assert (bytes_ok (appendString [] 0 7 value)) as Hvb by (apply appendString_ok; auto; [unfold is_byte; lia|lia]). unfold carries, ibytes, insertion. cbn [Name Value]. destruct (staticGet name) as [|i l] eqn:Es.
  - destruct (appendString_shape 0x40 5 name Hn ltac:(lia) eq_refl) as (y & tl & E & Hy). set (w1 := appendString [] 0x40 5 name) in *. assert (0 < len w1) as Hlen by (rewrite E, len_cons; pose proof (len_nonneg tl); lia).
    split; [rewrite E; discriminate|]. split; [apply bytes_ok_app; split; [apply appendString_ok; auto; [unfold is_byte; lia|lia]|exact Hvb]|]. intros t HtM Htab.
    destruct (parseString_partial 0x40 5 name (4 * M) M Hn ltac:(lia) ltac:(lia) eq_refl ltac:(lia) ltac:(lia)) as [Hwp Hpp]. fold w1 in Hwp, Hpp.
    destruct (namedInsert_partial t w1 name value Hv Hlv ltac:(lia) ltac:(lia)) as [Hwhole Hpart]. assert (ikind_of (0x40 .| y) = LiteralName) as Hk by (apply (ikind_bits _ 0x40 6); decided).
    assert (forall b, (exists r, b = (0x40 .| y) :: r) -> instruction t b = match parseString b 5 (4 * M) M with Err e => Some (t, Err e) | Ok (name, k) => if k =? 0 then Some (t, Ok 0) else namedInsert t b k name end) as Hi.
    { intros b [r ->]. rewrite instruction_literal by exact Hk. now rewrite HtM, int_small, (u64_id (4 * M)) by lia. }
    split.
    + intros rest. rewrite <- app_assoc, Hi by (rewrite E; cbn; eauto). rewrite Hwp, (proj2 (Z.eqb_neq _ _)), Hwhole by lia. now apply Hdo.
    + intros p q Epq Hq Hne. rewrite Hi. 2:{ destruct p as [|b p]; [congruence|]. rewrite E in Epq. injection Epq as <- _. eauto. }
      apply split_prefix in Epq as [(r & Er & Hr)|(p2 & -> & E2)]; [now rewrite (Hpp p r Er Hr)|]. rewrite Hwp, (proj2 (Z.eqb_neq _ _)) by lia. now apply Hpart with q.
  - destruct (staticGet_head name i l Es) as (Hi0 & g & Hg & Hgn). destruct (appendInt_shape 0xc0 6 i ltac:(lia) ltac:(lia)) as (y & tl & E & Hy & _). pose proof (int_len 0xc0 6 i ltac:(lia) ltac:(lia)) as Hlen.
    destruct (parseInt_partial 0xc0 6 i ltac:(lia) eq_refl ltac:(lia)) as [Hwp Hpp]. pose proof (int_bytes 0xc0 6 i ltac:(unfold is_byte; lia) ltac:(lia) ltac:(lia)) as Hib. set (w1 := appendInt [] 0xc0 6 i) in *.
    split; [rewrite E; discriminate|]. split; [apply bytes_ok_app; auto|]. intros t HtM Htab.
    destruct (namedInsert_partial t w1 name value Hv Hlv ltac:(lia) ltac:(lia)) as [Hwhole Hpart]. assert (ikind_of (0xc0 .| y) = NameRefStatic) as Hk by (apply (ikind_bits _ 0xc0 6); decided).
    assert (forall b, (exists r, b = (0xc0 .| y) :: r) -> instruction t b = match parseInt b 6 with Err e => Some (t, Err e) | Ok (i, k) => if k =? 0 then Some (t, Ok 0) else if len staticTable <=? i then Some (t, Err ErrEncoderStream) else match staticEntry i with None => None | Some f => namedInsert t b k (Name f) end end) as Hi.
    { intros b [r ->]. now rewrite instruction_static. }
    assert (staticEntry i = Some g) as Hse by exact Hg. split.
    + intros rest. rewrite <- app_assoc, Hi by (rewrite E; cbn; eauto). rewrite Hwp, (proj2 (Z.eqb_neq _ _)), (proj2 (Z.leb_gt _ _)), Hse, Hgn, Hwhole by (change (len staticTable) with 99; lia). now apply Hdo.
    + intros p q Epq Hq Hne. rewrite Hi. 2:{ destruct p as [|b p]; [congruence|]. rewrite E in Epq. injection Epq as <- _. eauto. }
      apply split_prefix in Epq as [(r & Er & Hr)|(p2 & -> & E2)]; [now rewrite (Hpp p r Er Hr)|]. rewrite Hwp, (proj2 (Z.eqb_neq _ _)), (proj2 (Z.leb_gt _ _)), Hse, Hgn by (change (len staticTable) with 99; lia). now apply Hpart with q.
Qed.

(** ** The table follows the encoder's *)

(** The decoder's table after the insertions the encoder made. *)
Lemma rooms_chain M cap gs x log k k' :
  tracks x log k -> capacity x = cap -> 0 < cap <= M -> M < 2 ^ 56 -> rooms cap log k gs k' -> Forall field_ok gs -> len log + len gs < 2 ^ 62 ->
  exists x', chain M x (map Ins gs) x' /\ tracks x' (log ++ gs) k' /\ capacity x' = cap.
Proof.
  revert x log k. induction gs as [|g gs IH]; intros x log k Hx Hcap Hc HM Hr Hf Hl; cbn [rooms map] in *.
  - subst k'. exists x. rewrite app_nil_r. splits; auto. constructor.
  - destruct Hr as (k1 & Hw & Hroom & Hr). inversion Hf as [|? ? Hg Hgs]; subst. rewrite len_cons in Hl. pose proof (len_nonneg gs).
    destruct (insert_tracks x log k g Hx ltac:(lia) ltac:(lia) ltac:(lia)) as (x1 & k2 & Hins & Hroom2 & Hx1 & Ec). assert (k2 = k1) as -> by now apply (makes_room_unique (capacity x) log k (weigh g)).
    destruct (IH x1 (log ++ [g]) k1 Hx1 Ec Hc HM Hr Hgs) as (x2 & Hch & Hx2 & Ec2); [rewrite len_app; change (len [g]) with 1; lia|]. exists x2. rewrite <- app_assoc in Hx2. splits; auto. econstructor; [|exact Hch].
    apply carries_insert with log k; auto; lia.
Qed.

(** An index only rises, and the rooms of a prefix are those of the whole. *)
Lemma rooms_le cap log k gs k' : rooms cap log k gs k' -> (k <= k')%nat.
Proof. revert log k. induction gs as [|g gs IH]; intros log k Hr; cbn in Hr; [lia|]. destruct Hr as (k1 & _ & ((? & _) & _) & Hr). apply IH in Hr. lia. Qed.

Lemma rooms_det cap log k gs k1 k2 : rooms cap log k gs k1 -> rooms cap log k gs k2 -> k1 = k2.
Proof.
  revert log k. induction gs as [|g gs IH]; intros log k H1 H2; cbn in *; [congruence|]. destruct H1 as (a & _ & Ha & H1), H2 as (b & _ & Hb & H2). rewrite (makes_room_unique _ _ _ _ _ _ Ha Hb) in H1. eauto.
Qed.

Lemma rooms_weight cap log k gs k' : weight (drop k log) <= cap -> rooms cap log k gs k' -> weight (drop k' (log ++ gs)) <= cap.
Proof.
  revert log k. induction gs as [|g gs IH]; intros log k Hw Hr; cbn in Hr; [subst; now rewrite app_nil_r|]. destruct Hr as (k1 & _ & Hroom & Hr). apply IH in Hr; [|now apply makes_room_weight with k]. now rewrite <- app_assoc in Hr.
Qed.

Lemma rooms_split cap log k gs hs k' : rooms cap log k (gs ++ hs) k' -> exists k1, rooms cap log k gs k1 /\ rooms cap (log ++ gs) k1 hs k'.
Proof.
  revert log k. induction gs as [|g gs IH]; intros log k Hr; cbn [rooms app] in *; [exists k; rewrite app_nil_r; auto|]. destruct Hr as (k0 & Hw & Hroom & Hr). destruct (IH _ _ Hr) as (k1 & H1 & H2). exists k1. rewrite <- app_assoc in H2. split; [eauto|exact H2].
Qed.

Lemma started_bytes M x is_ x2 p : chain M x is_ x2 -> started p (map ibytes is_) -> bytes_ok p.
Proof. destruct 1 as [x|x i x1 is_ x2 (_ & Hb & _) _]; cbn; [intros ->; constructor|]. intros (q & E & _). rewrite E in Hb. now apply bytes_ok_app in Hb as [Hb _]. Qed.

(** Feeding the next bytes of the stream, however many, moves on through it
    without error, and owes what it inserted. *)
Lemma feedTable_follows t todo x2 data more :
  chain (QDecoder.maxCapacity t) (tab t) todo x2 -> QDecoder.in_ t ++ data ++ more = mjoin (map ibytes todo) ->
  exists is1 is2 x1 p, todo = is1 ++ is2 /\ feedTable t data = Some (owe (QDecoder.with_in (with_tab t x1) p), Ok ()) /\
    chain (QDecoder.maxCapacity t) (tab t) is1 x1 /\ chain (QDecoder.maxCapacity t) x1 is2 x2 /\ started p (map ibytes is2) /\ p ++ more = mjoin (map ibytes is2).
Proof.
  intros Ht E. unfold feedTable. set (buf := if 0 <? len (QDecoder.in_ t) then QDecoder.in_ t ++ data else data). set (t0 := if 0 <? len (QDecoder.in_ t) then QDecoder.with_in t buf else t).
  assert (buf = QDecoder.in_ t ++ data) as Eb by (unfold buf; destruct (Z.ltb_spec 0 (len (QDecoder.in_ t))); [reflexivity|]; destruct (QDecoder.in_ t) as [|b l]; [reflexivity|rewrite len_cons in *; pose proof (len_nonneg l); lia]).
  assert (QDecoder.maxCapacity t0 = QDecoder.maxCapacity t /\ tab t0 = tab t) as [EM Etab] by (unfold t0; destruct (0 <? len (QDecoder.in_ t)); auto).
  rewrite app_assoc, <- Eb in E. destruct (feedLoop_chain _ _ _ _ Ht (length buf) t0 buf more EM Etab E ltac:(lia)) as (is1 & is2 & p & x1 & -> & Hc1 & Hc2 & _ & Hst & Hmore & ->).
  exists is1, is2, x1, p. assert (QDecoder.with_in (with_tab t0 x1) p = QDecoder.with_in (with_tab t x1) p) as -> by (unfold t0; now destruct (0 <? len (QDecoder.in_ t))).
  splits; auto.
Qed.

Lemma carries_det M x i x1 x2 : 0 < M -> carries M x i x1 -> carries M x i x2 -> x1 = x2.
Proof.
  intros HM (_ & _ & H1) (_ & _ & H2). set (t := mkDyn x M 0 0 ∅ 0 [] []). destruct (H1 t eq_refl eq_refl) as [E1 _]. destruct (H2 t eq_refl eq_refl) as [E2 _]. specialize (E1 []). rewrite E2 in E1. now injection E1 as ->.
Qed.

Lemma chain_det M x is_ x1 x2 : 0 < M -> chain M x is_ x1 -> chain M x is_ x2 -> x1 = x2.
Proof.
  intros HM H. revert x2. induction H as [x|x i y is_ x1 Hi _ IH]; intros x2 H2; inversion H2 as [|? ? z ? ? Hz Hzs]; subst; [reflexivity|]. apply IH. now rewrite (carries_det M x i y z HM Hi Hz).
Qed.

(** ** Decoder instructions *)

Inductive ack : Type := AckSec (id : Z) | AckCancel (id : Z) | AckInc (n : Z).

Definition abytes (a : ack) : bytes :=
  match a with AckSec id => appendInt [] 0x80 7 id | AckCancel id => appendInt [] 0x40 6 id | AckInc n => appendInt [] 0x00 6 n end.

Definition avalue (a : ack) : Z := match a with AckSec id => id | AckCancel id => id | AckInc n => n end.

Definition avalid (a : ack) : Prop := 0 <= avalue a < 2 ^ 56.

(** What an instruction does to the count and the sections it acknowledges, of
    an encoder that has inserted [I]. *)
Definition pstep (I : Z) (ku : Z * gmap Z (list sentSection)) (a : ack) : option (Z * gmap Z (list sentSection)) :=
  let '(k, u) := ku in
  match a with
  | AckSec id =>
      match u !! id with
      | Some (s0 :: rest) => Some (Z.max k (s_ric s0), match rest with [] => delete id u | _ => <[id := rest]> u end)
      | _ => None
      end
  | AckCancel id => Some (k, delete id u)
  | AckInc n => if (0 <? n) && (n <=? I - k) then Some (k + n, u) else None
  end.

Definition prun (I : Z) : Z * gmap Z (list sentSection) -> list ack -> option (Z * gmap Z (list sentSection)) := foldM (pstep I).

Lemma prun_app I ku as1 as2 : prun I ku (as1 ++ as2) = match prun I ku as1 with None => None | Some ku => prun I ku as2 end.
Proof. unfold prun. revert ku. induction as1 as [|a as1 IH]; intros ku; cbn; [reflexivity|]. destruct (pstep I ku a); auto. Qed.

Lemma ack_bits first n x (b7 b6 : bool) :
  all_bytes (fun x => implb (x <? 2 ^ n) (Bool.eqb (negb ((first .| x) .& 0x80 =? 0)) b7 && (b7 || Bool.eqb (negb ((first .| x) .& 0x40 =? 0)) b6))) = true -> 0 <= x < 2 ^ n -> n <= 8 ->
  negb ((first .| x) .& 0x80 =? 0) = b7 /\ (b7 = true \/ negb ((first .| x) .& 0x40 =? 0) = b6).
Proof.
  intros H Hx Hn. pose proof (lead (fun x => Bool.eqb (negb ((first .| x) .& 0x80 =? 0)) b7 && (b7 || Bool.eqb (negb ((first .| x) .& 0x40 =? 0)) b6)) n x H Hx Hn) as E.
  apply andb_true_iff in E as [E1 E2]. apply Bool.eqb_prop in E1. split; [exact E1|]. destruct b7; [now left|right; now apply Bool.eqb_prop].
Qed.

(** The loop of FeedDecoder reads an instruction whole, or waits for it. *)
Lemma abytes_read a : avalid a -> exists c tl, abytes a = c :: tl /\ bytes_ok (abytes a) /\
  let p := if negb (c .& 0x80 =? 0) then 7 else 6 in
  partial (fun b => parseInt b p) 0 (abytes a) (avalue a) /\
  forall e k u, pstep (inserted (t e)) (known e, unacked e) a = Some (k, u) -> 0 <= known e <= inserted (t e) -> inserted (t e) < 2 ^ 62 ->
    exists pend, ackInstruction e c (avalue a) = Ok (with_acks e k u pend).
Proof.
  intros Ha. unfold avalid in Ha. destruct a as [id|id|m]; cbn [abytes avalue] in *.
  - destruct (appendInt_shape 0x80 7 id ltac:(lia) ltac:(lia)) as (x & tl & E & Hx & _). exists (0x80 .| x), tl. destruct (ack_bits 0x80 7 x true false) as [Hb _]; [vm_compute; reflexivity|exact Hx|lia|]. rewrite Hb.
    split; [exact E|]. split; [apply int_bytes; unfold is_byte; lia|]. split; [apply parseInt_partial; [lia|reflexivity|lia]|]. intros e k u Hp _ _. unfold pstep in Hp. unfold ackInstruction. rewrite Hb. destruct (unacked e !! id) as [[|s0 rest]|]; try discriminate. injection Hp as <- <-. eauto.
  - destruct (appendInt_shape 0x40 6 id ltac:(lia) ltac:(lia)) as (x & tl & E & Hx & _). exists (0x40 .| x), tl. destruct (ack_bits 0x40 6 x false true) as [Hb [?|Hb2]]; [vm_compute; reflexivity|exact Hx|lia|discriminate|]. rewrite Hb.
    split; [exact E|]. split; [apply int_bytes; unfold is_byte; lia|]. split; [apply parseInt_partial; [lia|reflexivity|lia]|]. intros e k u Hp _ _. unfold pstep in Hp. injection Hp as <- <-. unfold ackInstruction. rewrite Hb, Hb2. eauto.
  - destruct (appendInt_shape 0x00 6 m ltac:(lia) ltac:(lia)) as (x & tl & E & Hx & _). exists (0x00 .| x), tl. destruct (ack_bits 0x00 6 x false false) as [Hb [?|Hb2]]; [vm_compute; reflexivity|exact Hx|lia|discriminate|]. rewrite Hb.
    split; [exact E|]. split; [apply int_bytes; unfold is_byte; lia|]. split; [apply parseInt_partial; [lia|reflexivity|lia]|]. intros e k u Hp Hk HI. unfold pstep in Hp. destruct ((0 <? m) && (m <=? inserted (t e) - known e)) eqn:Em; [|discriminate]. injection Hp as <- <-.
    apply andb_true_iff in Em as [E1 E2]. apply Z.ltb_lt in E1. apply Z.leb_le in E2. unfold ackInstruction. rewrite Hb, Hb2, (u64_id (inserted (t e) - known e)) by lia. rewrite (proj2 (Z.eqb_neq _ _)), (proj2 (Z.ltb_ge _ _)) by lia. cbn [orb]. rewrite u64_id by lia. eauto.
Qed.

(** The loop of FeedDecoder carries out the instructions that are whole. *)
Lemma ackLoop_runs as_ : Forall avalid as_ -> forall fuel e log kk buf more ku2,
  e_ok e log kk -> prun (inserted (t e)) (known e, unacked e) as_ = Some ku2 -> buf ++ more = mjoin (map abytes as_) -> (length buf <= fuel)%nat ->
  exists as1 as2 p k1 u1 pend, as_ = as1 ++ as2 /\ prun (inserted (t e)) (known e, unacked e) as1 = Some (k1, u1) /\ prun (inserted (t e)) (k1, u1) as2 = Some ku2 /\
    started p (map abytes as2) /\ p ++ more = mjoin (map abytes as2) /\ ackLoop fuel e buf = Some (with_acks e k1 u1 pend, Ok p) /\ e_ok (with_acks e k1 u1 pend) log kk.
Proof.
  induction 1 as [|a as_ Ha Has IH]; intros fuel e log kk buf more ku2 He Hrun E Hf.
  - apply app_eq_nil in E as [-> ->]. exists [], [], [], (known e), (unacked e), (pending e). assert (with_acks e (known e) (unacked e) (pending e) = e) as -> by now destruct e. splits; auto; [reflexivity|now destruct fuel].
  - destruct (abytes_read a Ha) as (c & tl & Ew & Hb & Hread). set (pf := if negb (c .& 0x80 =? 0) then 7 else 6) in *. destruct Hread as [[Hw Hp] Hdo]. cbn [map mjoin list_join] in E.
    cbn [prun foldM] in Hrun. destruct (pstep (inserted (t e)) (known e, unacked e) a) as [[k1 u1]|] eqn:Eps; [|discriminate]. fold (prun (inserted (t e))) in Hrun. pose proof (tr_inserted _ _ _ (e_tracks _ _ _ He)) as EI. pose proof (tr_log _ _ _ (e_tracks _ _ _ He)) as Hlog. pose proof (e_known _ _ _ He) as Hkn.
    destruct (Hdo e k1 u1 Eps ltac:(lia) ltac:(lia)) as [pend Hack].
    assert (started buf (map abytes (a :: as_)) -> ackLoop fuel e buf = Some (e, Ok buf) -> exists as1 as2 p k1 u1 pend, a :: as_ = as1 ++ as2 /\ prun (inserted (t e)) (known e, unacked e) as1 = Some (k1, u1) /\ prun (inserted (t e)) (k1, u1) as2 = Some ku2 /\
      started p (map abytes as2) /\ p ++ more = mjoin (map abytes as2) /\ ackLoop fuel e buf = Some (with_acks e k1 u1 pend, Ok p) /\ e_ok (with_acks e k1 u1 pend) log kk) as Hnone.
    { intros Hst Hl. exists [], (a :: as_), buf, (known e), (unacked e), (pending e). assert (with_acks e (known e) (unacked e) (pending e) = e) as -> by now destruct e. splits; auto. cbn [prun foldM]. now rewrite Eps. }
    destruct buf as [|b buf0] eqn:Eb; [apply Hnone; [exists (abytes a); rewrite Ew; auto|now destruct fuel]|]. rewrite <- Eb in *. destruct fuel as [|fuel]; [rewrite Eb in Hf; cbn in Hf; lia|].
    symmetry in E. apply split_prefix in E as [(r & Er & Hr)|(buf1 & -> & E)].
    + assert (b = c) as -> by (rewrite Ew, Eb in Er; now injection Er as -> _). apply Hnone; [exists r; auto|]. pose proof (Hp buf r Er Hr) as Hpp. rewrite Eb in *. cbn [ackLoop]. fold pf. now rewrite Hpp.
    + assert (b = c) as -> by (rewrite Ew in Eb; now injection Eb as -> _). assert (0 < len (abytes a)) as Hlen by (rewrite Ew, len_cons; pose proof (len_nonneg tl); lia).
      apply (ackInstruction_ok e log kk) in Hack as He1; auto; [|unfold avalid in Ha; lia]. destruct He1 as [He1 _].
      destruct (IH fuel (with_acks e k1 u1 pend) log kk buf1 more ku2 He1 Hrun (eq_sym E)) as (as1 & as2 & p & k2 & u2 & pend2 & -> & H1 & H2 & H3 & H4 & H5 & H6); [rewrite length_app in Hf; unfold len in Hlen; lia|].
      exists (a :: as1), as2, p, k2, u2, pend2. splits; auto; [cbn [prun foldM]; now rewrite Eps|]. rewrite Eb. cbn [ackLoop]. fold pf. rewrite <- Eb, Hw, (proj2 (Z.eqb_neq _ _)), Hack, zdrop_app by lia. exact H5.
Qed.

Lemma with_in_ok e log k x : e_ok e log k -> bytes_ok x -> e_ok (QEncoder.with_in e x) log k.
Proof. intros [? ? ? ? ? ? ? ? ? ? ? ? ? ?] Hx. now split. Qed.

(** Feeding the next bytes of the decoder stream carries out what is whole. *)
Lemma FeedDecoder_runs e log kk as_ data more ku2 :
  e_ok e log kk -> Forall avalid as_ -> prun (inserted (t e)) (known e, unacked e) as_ = Some ku2 -> QEncoder.in_ e ++ data ++ more = mjoin (map abytes as_) ->
  exists as1 as2 p k1 u1 pend, as_ = as1 ++ as2 /\ prun (inserted (t e)) (k1, u1) as2 = Some ku2 /\ started p (map abytes as2) /\ p ++ more = mjoin (map abytes as2) /\
    FeedDecoder e data = Some (QEncoder.with_in (with_acks e k1 u1 pend) p, Ok ()) /\ e_ok (QEncoder.with_in (with_acks e k1 u1 pend) p) log kk.
Proof.
  intros He Has Hrun E. unfold FeedDecoder. set (buf := if 0 <? len (QEncoder.in_ e) then QEncoder.in_ e ++ data else data). set (e0 := if 0 <? len (QEncoder.in_ e) then QEncoder.with_in e buf else e).
  assert (buf = QEncoder.in_ e ++ data) as Eb by (unfold buf; destruct (Z.ltb_spec 0 (len (QEncoder.in_ e))); [reflexivity|]; destruct (QEncoder.in_ e) as [|b l]; [reflexivity|rewrite len_cons in *; pose proof (len_nonneg l); lia]).
  rewrite app_assoc, <- Eb in E. assert (bytes_ok (mjoin (map abytes as_))) as Hall by (clear -Has; induction Has as [|a as_ Ha _ IH]; cbn; [constructor|]; apply bytes_ok_app; split; [now destruct (abytes_read a Ha) as (? & ? & _ & ? & _)|exact IH]).
  assert (bytes_ok buf) as Hbuf by (rewrite <- E in Hall; now apply bytes_ok_app in Hall as [Hall _]).
  assert (e_ok e0 log kk /\ inserted (t e0) = inserted (t e) /\ known e0 = known e /\ unacked e0 = unacked e) as (He0 & E1 & E2 & E3) by (unfold e0; destruct (0 <? len (QEncoder.in_ e)); auto using with_in_ok).
  rewrite <- E1, <- E2, <- E3 in Hrun. destruct (ackLoop_runs as_ Has (length buf) e0 log kk buf more ku2 He0 Hrun E ltac:(lia)) as (as1 & as2 & p & k1 & u1 & pend & -> & _ & H2 & H3 & H4 & -> & H6).
  exists as1, as2, p, k1, u1, pend. rewrite E1 in H2. assert (QEncoder.with_in (with_acks e0 k1 u1 pend) p = QEncoder.with_in (with_acks e k1 u1 pend) p) as Ew by (unfold e0; now destruct (0 <? len (QEncoder.in_ e))). rewrite <- Ew. splits; auto.
  apply with_in_ok; [exact H6|]. rewrite map_app, join_app in Hall. apply bytes_ok_app in Hall as [_ Hall]. rewrite <- H4 in Hall. now apply bytes_ok_app in Hall as [Hall _].
Qed.

(** What is left of a stream's sections is the end of what it had. *)
Lemma prun_suffix I k u as_ k2 u2 id l2 : prun I (k, u) as_ = Some (k2, u2) -> u2 !! id = Some l2 -> exists pre, u !! id = Some (pre ++ l2).
Proof.
  unfold prun. revert k u. induction as_ as [|a as_ IH]; intros k u H Hl; cbn [foldM] in H; [injection H as <- <-; now exists []|]. destruct (pstep I (k, u) a) as [[k1 u1]|] eqn:Ep; [|discriminate]. destruct (IH k1 u1 H Hl) as [pre Hu1].
  destruct a as [i|i|m]; cbn in Ep.
  - destruct (u !! i) as [[|s0 rest]|] eqn:Eu; try discriminate. injection Ep as <- <-. destruct (Z.eq_dec i id) as [->|Hne].
    + destruct rest as [|s1 rest]; [now rewrite lookup_delete_eq in Hu1|]. rewrite lookup_insert_eq in Hu1. injection Hu1 as E. exists (s0 :: pre). cbn. now rewrite Eu, E.
    + destruct rest; [rewrite lookup_delete_ne in Hu1 by congruence|rewrite lookup_insert_ne in Hu1 by congruence]; eauto.
  - injection Ep as <- <-. apply lookup_delete_Some in Hu1 as [_ Hu1]. eauto.
  - destruct (_ && _); [|discriminate]. injection Ep as <- <-. eauto.
Qed.

(** ** Acknowledgments on their way *)

Lemma prun_mono I I' ku as_ ku2 : I <= I' -> prun I ku as_ = Some ku2 -> prun I' ku as_ = Some ku2.
Proof.
  intros HI. unfold prun. revert ku. induction as_ as [|a as_ IH]; intros ku; cbn; [auto|]. destruct (pstep I ku a) as [ku1|] eqn:E; [|discriminate]. intros H.
  assert (pstep I' ku a = Some ku1) as ->; [|auto]. destruct ku as [k u], a as [id|id|m]; cbn in *; auto. destruct ((0 <? m) && (m <=? I - k)) eqn:Em; [|discriminate]. apply andb_true_iff in Em as [-> Em]. apply Z.leb_le in Em. now rewrite (proj2 (Z.leb_le _ _)) by lia.
Qed.

Definition sent (u : gmap Z (list sentSection)) (id : Z) : list sentSection := default [] (u !! id).

Definition sending (u : gmap Z (list sentSection)) (id : Z) (x : sentSection) : gmap Z (list sentSection) := <[id := sent u id ++ [x]]> u.

Lemma sent_insert u id l : sent (<[id := l]> u) id = l.
Proof. unfold sent. now rewrite lookup_insert_eq. Qed.

Lemma sent_other u id id' x : id' <> id -> sent (sending u id x) id' = sent u id'.
Proof. intros H. unfold sent, sending. now rewrite lookup_insert_ne by congruence. Qed.

(** A section sent while acknowledgments are on their way is behind them all. *)
Lemma prun_sending I k u as_ k2 u2 id x :
  prun I (k, u) as_ = Some (k2, u2) ->
  exists u3, prun I (k, sending u id x) as_ = Some (k2, u3) /\ ((~ AckCancel id ∈ as_) -> u3 = sending u2 id x) /\ (forall id', id' <> id -> sent u3 id' = sent u2 id').
Proof.
  revert k u. induction as_ as [|a as_ IH]; intros k u H; cbn [prun foldM] in *; fold (prun I) in *.
  - injection H as <- <-. exists (sending u id x). splits; auto. intros id' Hne. now apply sent_other.
  - destruct (pstep I (k, u) a) as [[k1 u1]|] eqn:E; [|discriminate].
    assert ((a = AckCancel id /\ pstep I (k, sending u id x) a = Some (k1, u1)) \/ (a <> AckCancel id /\ pstep I (k, sending u id x) a = Some (k1, sending u1 id x))) as [[-> Ep]|[Hne Ep]].
    { destruct a as [i|i|m]; cbn in *.
      - right. split; [discriminate|]. destruct (Z.eq_dec i id) as [->|Hi].
        + destruct (u !! id) as [[|s0 rest]|] eqn:Eu; try discriminate. injection E as <- <-. assert (sending u id x = <[id := s0 :: rest ++ [x]]> u) as -> by (unfold sending, sent; now rewrite Eu). rewrite lookup_insert_eq. do 2 f_equal.
          destruct rest as [|s1 rest]; unfold sending, sent; cbn [app]; rewrite ?lookup_delete_eq, ?lookup_insert_eq, !insert_insert_eq, ?insert_delete_eq; reflexivity.
        + unfold sending at 1. rewrite lookup_insert_ne by congruence. destruct (u !! i) as [[|s0 rest]|] eqn:Eu; try discriminate. injection E as <- <-. do 2 f_equal.
          assert (forall v, v !! id = u !! id -> sending v id x = <[id := sent u id ++ [x]]> v) as Hs by (intros v Hv; unfold sending, sent; now rewrite Hv).
          destruct rest; [rewrite (Hs (delete i u)) by (now rewrite lookup_delete_ne by congruence); unfold sending; now rewrite delete_insert_ne by congruence|rewrite (Hs (<[i := _]> u)) by (now rewrite lookup_insert_ne by congruence); unfold sending; now rewrite insert_insert_ne by congruence].
      - injection E as <- <-. destruct (Z.eq_dec i id) as [->|Hi]; [left; split; [reflexivity|]; unfold sending; now rewrite delete_insert_eq|right]. split; [congruence|].
        unfold sending, sent. rewrite lookup_delete_ne by congruence. now rewrite delete_insert_ne by congruence.
      - right. split; [discriminate|]. destruct (_ && _); [|discriminate]. now injection E as <- <-. }
    + rewrite Ep. exists u2. splits; auto. intros Hn. exfalso. apply Hn. left.
    + rewrite Ep. destruct (IH k1 u1 H) as (u3 & E3 & H3 & H4). exists u3. splits; auto. intros Hn. apply H3. intros Hin. apply Hn. now right.
Qed.

End QStreams.
