(* ===== verification/QpackSystem.v ===== *)
(** * QPACK between two endpoints (src/http3/qpack)

    An encoder and a decoder, and what is on its way between them: the encoder
    stream, the field sections of each stream, in order on their own stream and
    in no order with the rest, and the decoder stream. Every interleaving is an
    event list; QUIC delivers each stream in order and in pieces of any size. *)

From S2P Require Import Prelude HpackTables HpackHuffman QpackCodec QpackTable QpackDecoder QpackEncoder QpackRoundtrip QpackStreams.
From stdpp Require Import base list numbers gmap.
From Stdlib Require Import ZArith Lia.

Local Open Scope Z_scope.
Local Open Scope go_scope.

Module QSystem.
Import Qpack QTable QDecoder QEncoder QRound QStreams.

(** A field section on its way, with the fields it was made of and the record
    its encoder has of it. *)
Record flight : Type := mkFlight { f_block : bytes; f_fields : list HeaderField; f_sec : Section_ }.

Record sys : Type := mkSys {
  enc : Encoder;
  dec : Decoder;
  wire : bytes;
  acks : bytes;
  flights : gmap Z (list flight);
  gone : gset Z;
  sends : list (Z * list HeaderField);
  got : list (Z * list HeaderField)
}.

(** The sections of a stream. *)
Definition of_stream (id : Z) (l : list (Z * list HeaderField)) : list (list HeaderField) := map snd (filter (fun p => fst p = id) l).

Definition queue (s : sys) (id : Z) : list flight := default [] (flights s !! id).

Inductive event : Type :=
| Settings
| Send (id : Z) (fs : list (HeaderField * bool))
| Write
| Bring (n : nat)
| Receive (id maxSize : Z)
| Reply
| Heard (n : nat)
| Abandon (id : Z).

Section System.
Context (maphash : bytes -> Z) (ours M B : Z).

Definition start : sys := mkSys (NewEncoder ours) (EnableDynamic zeroDecoder M B) [] [] ∅ ∅ [] [].

Definition apply (s : sys) (ev : event) : option sys :=
  match ev with
  | Settings => Some (mkSys (SetPeerSettings (enc s) M B) (dec s) (wire s) (acks s) (flights s) (gone s) (sends s) (got s))
  | Send id fs =>
      match encodeSection maphash (enc s) [] id fs with
      | None => None
      | Some (e, sec, blk) =>
          Some (mkSys e (dec s) (wire s) (acks s) (<[id := queue s id ++ [mkFlight blk (map fst fs) sec]]> (flights s)) (gone s) (sends s ++ [(id, map fst fs)]) (got s))
      end
  | Write => Some (mkSys (with_out (enc s) []) (dec s) (wire s ++ out (enc s)) (acks s) (flights s) (gone s) (sends s) (got s))
  | Bring n =>
      match FeedEncoder (dec s) (take n (wire s)) with
      | Some (d, Ok _) => Some (mkSys (enc s) d (drop n (wire s)) (acks s) (flights s) (gone s) (sends s) (got s))
      | _ => None
      end
  | Receive id maxSize =>
      match queue s id with
      | [] => None
      | f :: rest =>
          match AppendSection (Some (dec s)) [] (f_block f) maxSize id with
          | Some (Some d, fs, Ok _) => Some (mkSys (enc s) d (wire s) (acks s) (<[id := rest]> (flights s)) (gone s) (sends s) (got s ++ [(id, fs)]))
          | Some (Some d, _, Err ErrBlocked) => Some (mkSys (enc s) d (wire s) (acks s) (flights s) (gone s) (sends s) (got s))
          | _ => None
          end
      end
  | Reply => let '(d, b) := AppendInstructions (dec s) [] in Some (mkSys (enc s) d (wire s) (acks s ++ b) (flights s) (gone s) (sends s) (got s))
  | Heard n =>
      match FeedDecoder (enc s) (take n (acks s)) with
      | Some (e, Ok _) => Some (mkSys e (dec s) (wire s) (drop n (acks s)) (flights s) (gone s) (sends s) (got s))
      | _ => None
      end
  | Abandon id => Some (mkSys (enc s) (Cancel (dec s) id) (wire s) (acks s) (delete id (flights s)) ({[id]} ∪ gone s) (sends s) (got s))
  end.

Definition id_ok (id : Z) : bool := (0 <=? id) && (id <? 2 ^ 56).

Definition field_okb (f : HeaderField) : bool :=
  bytes_okb (Name f) && bytes_okb (Value f) && (len (Name f) <? 2 ^ 55) && (len (Value f) <? 2 ^ 55).

(** The first section of a stream waits for entries still to come. *)
Definition stuck (s : sys) (have : Z) (id : Z) : bool := match queue s id with [] => false | f :: _ => have <? ric (f_sec f) end.

(** When an event may happen. A section is received once it is first on its
    stream, within the limit of the receiver, with its required insert count
    within the window of its encoding, and, if it has to wait, once the sections
    that no longer have to have been received. *)
Definition guard (s : sys) (ev : event) : bool :=
  match ev with
  | Send id fs => id_ok id && forallb field_okb (map fst fs) && (inserted (t (enc s)) + len fs <? 2 ^ 56)
  | Receive id maxSize =>
      match queue s id, dyn (dec s) with
      | f :: _, Some x =>
          negb (bool_decide (id ∈ gone s)) && ((maxSize <=? 0) || (weight (f_fields f) <=? maxSize)) &&
          (ric (f_sec f) <=? inserted (tab x) + maxEntries x) &&
          ((ric (f_sec f) <=? inserted (tab x)) || bool_decide (id ∈ blocked x) || forallb (stuck s (inserted (tab x))) (elements (blocked x)))
      | _, _ => false
      end
  | Abandon id => id_ok id
  | _ => true
  end.

(** A run carries out its events one by one, and fails where an endpoint fails or
    refuses what it is given. *)
Definition run : sys -> list event -> option sys := foldM apply.

(** Each event of a run may happen when it does. *)
Fixpoint allowed (s : sys) (evs : list event) : bool :=
  match evs with
  | [] => true
  | ev :: evs => guard s ev && match apply s ev with None => true | Some s' => allowed s' evs end
  end.

(** ** The invariant *)

Definition E : Z := M / 32.

(** The records of the sections of a queue that refer to the table. *)
Definition records (q : list flight) : list sentSection :=
  map (fun f => mkSent (ric (f_sec f)) (oldest (f_sec f))) (filter (fun f => 0 < ric (f_sec f)) q).

(** Where the decoder is on the encoder stream, [todo] of it still to come: the
    table is not in use, or the decoder has not seen that it is, or it has what
    was first inserted of [log]. *)
Definition phase (e : Encoder) (x : decoderTable) (log logd : list HeaderField) (todo : list instr) : Prop :=
  (capacity (t e) = 0 /\ log = [] /\ logd = [] /\ todo = [] /\ tab x = empty) \/
  (0 < capacity (t e) /\ logd = [] /\ tab x = empty /\ todo = SetCap (capacity (t e)) :: map Ins log) \/
  (0 < capacity (t e) /\ capacity (tab x) = capacity (t e) /\ exists gs, log = logd ++ gs /\ todo = map Ins gs).

Record inv (s : sys) (x : decoderTable) (log : list HeaderField) (k : nat) (logd : list HeaderField) (kd : nat) (todo : list instr) (as_ : list ack) (u2 : gmap Z (list sentSection)) : Prop := {
  i_enc : e_ok (enc s) log k;
  i_max : 0 <= maxCapacity (enc s) < 2 ^ 56;
  i_log : len log < 2 ^ 56;
  i_cap : capacity (t (enc s)) = 0 \/ capacity (t (enc s)) <= M /\ peerEntries (enc s) = E /\ peerBlocked (enc s) = B;
  i_rooms : rooms (capacity (t (enc s))) [] 0 log k;
  i_cache : cache_ok (dec s);
  i_dyn : dyn (dec s) = Some x;
  i_table : dt_ok x logd kd;
  i_limit : QDecoder.maxCapacity x = M;
  i_roomsd : rooms (capacity (t (enc s))) [] 0 logd kd;
  i_phase : phase (enc s) x log logd todo;
  i_start : QStreams.started (QDecoder.in_ x) (map ibytes todo);
  i_wire : QDecoder.in_ x ++ wire s ++ out (enc s) = mjoin (map ibytes todo);
  i_acks : prun (inserted (t (enc s))) (known (enc s), unacked (enc s)) as_ = Some (told x, u2);
  i_valid : Forall avalid as_;
  i_astart : QStreams.started (QEncoder.in_ (enc s)) (map abytes as_);
  i_reply : QEncoder.in_ (enc s) ++ acks s ++ QDecoder.out x = mjoin (map abytes as_);
  i_gone : forall id, AckCancel id ∈ as_ -> id ∈ gone s;
  i_queue : forall id f, f ∈ queue s id -> id_ok id = true /\ exists w, f_block f = prefixOf E (f_sec f) ++ w /\ section_of log (f_sec f) w (f_fields f) /\ ric (f_sec f) <= len log;
  i_sent : forall id, id ∉ gone s -> sent u2 id = records (queue s id);
  i_got : forall id, exists rest, of_stream id (sends s) = of_stream id (got s) ++ rest /\ (id ∉ gone s -> rest = map f_fields (queue s id));
  i_maxb : maxBlocked x = B;
  i_blocked : forall id, id ∈ blocked x -> id ∉ gone s /\ exists f rest, queue s id = f :: rest /\ 0 < ric (f_sec f)
}.

Definition Inv (s : sys) : Prop := exists x log k logd kd todo as_ u2, inv s x log k logd kd todo as_ u2.

Hypothesis (Hours : 0 <= ours < 2 ^ 56).
Hypothesis (HM : 0 < M < 2 ^ 56).
Hypothesis (HB : 0 <= B).

Lemma E_bound : 0 <= E < 2 ^ 51.
Proof. unfold E. split; [apply Z.div_pos; lia|apply Z.div_lt_upper_bound; lia]. Qed.

(** ** What follows from it *)

Lemma phase_prefix e x log logd todo : phase e x log logd todo -> exists gs, log = logd ++ gs.
Proof. intros [(_ & -> & -> & _)|[(_ & -> & _)|(_ & _ & gs & -> & _)]]; eauto. Qed.

(** The rest of the stream can be carried out. *)
Lemma todo_chain e x log k logd kd todo :
  phase e x log logd todo -> capacity (t e) = 0 \/ capacity (t e) <= M -> dt_ok x logd kd -> rooms (capacity (t e)) [] 0 log k -> rooms (capacity (t e)) [] 0 logd kd -> Forall field_ok log -> len log < 2 ^ 56 ->
  exists x2, chain M (tab x) todo x2.
Proof.
  intros Hp Hcap Ht Hr Hrd Hf Hl. destruct Hp as [(_ & _ & _ & -> & _)|[(Hc & -> & -> & ->)|(Hc & Ec & gs & -> & ->)]]; [exists (tab x); constructor|..].
  - pose proof (setCapacity_tracks _ _ _ (capacity (t e)) empty_tracks) as Hs. destruct (rooms_chain M (capacity (t e)) log _ [] 0 k Hs eq_refl ltac:(lia) ltac:(lia) Hr Hf) as (x2 & Hch & _); [change (len []) with 0; lia|].
    exists x2. econstructor; [apply carries_capacity; lia|exact Hch].
  - apply rooms_split in Hr as (k1 & Hr1 & Hr2). rewrite (rooms_det _ _ _ _ _ _ Hr1 Hrd) in Hr2. apply Forall_app in Hf as [_ Hf]. rewrite len_app in Hl. cbn [app] in Hr2.
    destruct (rooms_chain M (capacity (t e)) gs (tab x) logd kd k (dt_tracks _ _ _ Ht) Ec ltac:(lia) ltac:(lia) Hr2 Hf ltac:(lia)) as (x2 & Hch & _). eauto.
Qed.

(** The decoder has evicted no more than the encoder. *)
Lemma kd_le cap log k logd kd gs : log = logd ++ gs -> rooms cap [] 0 log k -> rooms cap [] 0 logd kd -> (kd <= k)%nat.
Proof. intros -> Hr Hrd. apply rooms_split in Hr as (k1 & H1 & H2). rewrite (rooms_det _ _ _ _ _ _ H1 Hrd) in H2. now apply rooms_le in H2. Qed.

(** ** Each event keeps it *)

Lemma with_out_ok e log k x : e_ok e log k -> e_ok (with_out e x) log k.
Proof. intros [? ? ? ? ? ? ? ? ? ? ? ? ? ?]. now split. Qed.

Lemma inv_write s x log k logd kd todo as_ u2 :
  inv s x log k logd kd todo as_ u2 -> exists s', apply s Write = Some s' /\ Inv s'.
Proof.
  intros [? ? ? ? ? ? ? ? ? ? ? ? Hw ? ? ? ? ? ? ? ? ? ?]. eexists. split; [reflexivity|]. exists x, log, k, logd, kd, todo, as_, u2. split; auto; cbn; [now apply with_out_ok|]. now rewrite app_nil_r.
Qed.

Lemma inv_reply s x log k logd kd todo as_ u2 :
  inv s x log k logd kd todo as_ u2 -> exists s', apply s Reply = Some s' /\ Inv s'.
Proof.
  intros [? ? ? ? ? Hca Hdy Hta ? ? Hph ? ? ? ? ? Hre ? ? ? ? ? ?]. cbn [apply]. unfold AppendInstructions. rewrite Hdy. destruct (Z.eqb_spec (len (QDecoder.out x)) 0) as [E0|_].
  - assert (QDecoder.out x = []) as Eo by (destruct (QDecoder.out x) as [|b l]; [reflexivity|rewrite len_cons in E0; pose proof (len_nonneg l); lia]).
    eexists. split; [reflexivity|]. exists x, log, k, logd, kd, todo, as_, u2. split; auto. cbn. now rewrite app_nil_r.
  - eexists. split; [reflexivity|]. exists (QDecoder.with_out x []), log, k, logd, kd, todo, as_, u2. split; auto; cbn; [now destruct Hta; split|]. now rewrite app_nil_r.
Qed.

Lemma inv_heard s x log k logd kd todo as_ u2 m :
  inv s x log k logd kd todo as_ u2 -> exists s', apply s (Heard m) = Some s' /\ Inv s'.
Proof.
  intros [He ? ? ? ? ? ? ? ? ? ? ? ? Hac Hva Has Hre Hgo ? ? ? ? ?]. cbn [apply]. assert (QEncoder.in_ (enc s) ++ take m (acks s) ++ (drop m (acks s) ++ QDecoder.out x) = mjoin (map abytes as_)) as E by (rewrite (app_assoc (take m _)), take_drop; exact Hre).
  destruct (FeedDecoder_runs (enc s) log k as_ _ _ _ He Hva Hac E) as (as1 & as2 & p & k1 & u1 & pend & -> & H2 & H3 & H4 & -> & H6). apply Forall_app in Hva as [_ Hva].
  eexists. split; [reflexivity|]. exists x, log, k, logd, kd, todo, as2, u2. split; auto. cbn. intros id Hid. apply Hgo. apply elem_of_app. now right.
Qed.

Lemma prun_snoc I ku as_ ku2 a ku3 : prun I ku as_ = Some ku2 -> pstep I ku2 a = Some ku3 -> prun I ku (as_ ++ [a]) = Some ku3.
Proof. intros H1 H2. rewrite prun_app, H1. cbn. now rewrite H2. Qed.

Lemma astarted_snoc p as_ a : Forall avalid as_ -> avalid a -> QStreams.started p (map abytes as_) -> QStreams.started p (map abytes (as_ ++ [a])).
Proof. intros _ Ha. destruct as_ as [|b as_]; cbn; [|auto]. intros ->. destruct (abytes_read a Ha) as (c & tl & E & _). exists (abytes a). rewrite E. auto. Qed.

Lemma join_snoc (as_ : list ack) a (w : bytes) : w = mjoin (map abytes as_) -> w ++ abytes a = mjoin (map abytes (as_ ++ [a])).
Proof. intros ->. rewrite map_app, join_app. cbn. now rewrite app_nil_r. Qed.

Lemma id_ok_iff id : id_ok id = true <-> 0 <= id < 2 ^ 56.
Proof. unfold id_ok. rewrite andb_true_iff, Z.leb_le, Z.ltb_lt. reflexivity. Qed.

Lemma inv_abandon s x log k logd kd todo as_ u2 id :
  inv s x log k logd kd todo as_ u2 -> id_ok id = true -> exists s', apply s (Abandon id) = Some s' /\ Inv s'.
Proof.
  intros [? ? ? ? ? Hca Hdy Hta ? ? Hph ? ? Hac Hva Has Hre Hgo Hqu Hse Hgt Hmb Hbl] Hid. apply id_ok_iff in Hid. assert (avalid (AckCancel id)) as Hv by exact Hid. eexists. split; [reflexivity|].
  unfold Cancel. rewrite Hdy. set (x' := QDecoder.with_out _ _). exists x', log, k, logd, kd, todo, (as_ ++ [AckCancel id]), (delete id u2).
  assert (forall id', id' <> id -> queue (mkSys (enc s) (with_dyn (dec s) (Some x')) (wire s) (acks s) (delete id (flights s)) ({[id]} ∪ gone s) (sends s) (got s)) id' = queue s id') as Hq by (intros id' Hne; unfold queue; cbn; now rewrite lookup_delete_ne by congruence).
  assert (queue (mkSys (enc s) (with_dyn (dec s) (Some x')) (wire s) (acks s) (delete id (flights s)) ({[id]} ∪ gone s) (sends s) (got s)) id = []) as Hq0 by (unfold queue; cbn; now rewrite lookup_delete_eq).
  split; auto; cbn -[queue].
  - destruct Hta as [? ? ? ? ? ? Hb ?]. split; cbn; auto. pose proof (subseteq_size (blocked x ∖ {[id]}) (blocked x) ltac:(set_solver)). lia.
  - apply (prun_snoc _ _ as_ (told x, u2)); [exact Hac|reflexivity].
  - now apply Forall_snoc.
  - now apply astarted_snoc.
  - rewrite (appendInt_acc (QDecoder.out x)). rewrite !app_assoc. rewrite !app_assoc in Hre. exact (join_snoc as_ (AckCancel id) _ Hre).
  - intros id' Hin. apply elem_of_app in Hin as [Hin|Hin]; [apply elem_of_union; right; auto|]. apply list_elem_of_singleton in Hin as [= ->]. set_solver.
  - intros id' f. destruct (Z.eq_dec id' id) as [->|Hne]; [rewrite Hq0; intros Hf; now apply elem_of_nil in Hf|rewrite Hq by exact Hne; apply Hqu].
  - intros id' Hn. assert (id' <> id /\ id' ∉ gone s) as [Hne Hn'] by set_solver. rewrite Hq, <- Hse by auto. unfold sent. now rewrite lookup_delete_ne by congruence.
  - intros id'. destruct (Hgt id') as (rest & E1 & E2). exists rest. split; [exact E1|]. intros Hn. assert (id' <> id /\ id' ∉ gone s) as [Hne Hn'] by set_solver. rewrite Hq by exact Hne. auto.
  - intros id' Hin. assert (id' <> id /\ id' ∈ blocked x) as [Hne Hin'] by set_solver. destruct (Hbl id' Hin') as [Hng Hf]. rewrite Hq by exact Hne. split; [set_solver|exact Hf].
Qed.

(** Nothing is unacknowledged of a table that has held nothing. *)
Lemma unacked_none e k : e_ok e [] k -> unacked e = ∅.
Proof.
  intros He. apply map_eq. intros id. rewrite lookup_empty. destruct (unacked e !! id) as [l|] eqn:El; [|reflexivity]. exfalso. destruct (e_unacked _ _ _ He id l El) as [Hne Hall]. destruct l as [|y l]; [congruence|].
  inversion Hall as [|? ? (Hy & Hy' & _) _]; subst. change (len []) with 0 in Hy'. lia.
Qed.

Lemma settings_ok e k : e_ok e [] k -> 0 < Z.min (maxCapacity e) M < 2 ^ 56 -> e_ok (with_out (with_peer e (setCapacity (t e) (Z.min (maxCapacity e) M)) E B) (appendInt (out e) 0x20 5 (Z.min (maxCapacity e) M))) [] k.
Proof.
  intros He Hc. pose proof (unacked_none e k He) as Hu. pose proof E_bound. assert (Z.min (maxCapacity e) M / 32 <= E) by (unfold E; apply Z.div_le_mono; lia).
  destruct He as [Ht ? ? ? ? ? ? ? Hun ? ? ? ? ?]. split; cbn; auto; try lia.
  - now apply setCapacity_tracks.
  - rewrite drop_nil. cbn. lia.
  - rewrite Hu. split; [exact HB|]. unfold waiting, msum. rewrite map_to_list_empty. exact HB.
Qed.

Lemma inv_settings s x log k logd kd todo as_ u2 :
  inv s x log k logd kd todo as_ u2 -> exists s', apply s Settings = Some s' /\ Inv s'.
Proof.
  intros Hi. pose proof Hi as [He Hmx Hlg Hcp Hro Hca Hdy Hta Hli Hrd Hph Hst Hwi Hac ? ? ? ? ? ? ? ? ?]. eexists. split; [reflexivity|]. unfold SetPeerSettings. destruct ((Z.min (maxCapacity (enc s)) M =? 0) || negb (capacity (t (enc s)) =? 0)) eqn:Eq.
  { exists x, log, k, logd, kd, todo, as_, u2. destruct s; exact Hi. }
  apply orb_false_iff in Eq as [E1 E2]. apply Z.eqb_neq in E1. apply negb_false_iff, Z.eqb_eq in E2. destruct Hph as [(_ & -> & -> & -> & Etab)|[(? & _)|(? & _)]]; [|lia|lia].
  change (M / entryOverhead) with E. set (cap := Z.min (maxCapacity (enc s)) M) in *. assert (0 < cap) as Hcap by (unfold cap in *; lia). cbn in Hwi. apply app_eq_nil in Hwi as [Hin Hwi]. apply app_eq_nil in Hwi as [Hw Ho].
  rewrite E2 in *. cbn in Hro, Hrd. subst k kd. exists x, [], 0%nat, [], 0%nat, [SetCap cap], as_, u2. split; auto; cbn -[E]; auto.
  - apply settings_ok; [exact He|]. fold cap. unfold cap. lia.
  - right. unfold cap. split; [lia|split; reflexivity].
  - right. left. auto.
  - rewrite Hin. exists (appendInt [] 0x20 5 cap). split; [reflexivity|]. destruct (appendInt_shape 0x20 5 cap ltac:(lia) ltac:(lia)) as (y & tl & -> & _). discriminate.
  - rewrite Hin, Hw, Ho, app_nil_r. reflexivity.
Qed.

(** ** The encoder stream brought *)

Lemma map_Ins_app gs is1 is2 : map Ins gs = is1 ++ is2 -> exists gs1 gs2, gs = gs1 ++ gs2 /\ is1 = map Ins gs1 /\ is2 = map Ins gs2.
Proof. intros H. apply map_eq_app in H as (gs1 & gs2 & -> & <- & <-). eauto. Qed.

(** Whatever is brought, the table is that of some of the insertions. *)
Lemma brought e x log k logd kd todo is1 is2 x1 :
  phase e x log logd todo -> capacity (t e) = 0 \/ capacity (t e) <= M -> dt_ok x logd kd -> QDecoder.maxCapacity x = M -> rooms (capacity (t e)) [] 0 log k -> rooms (capacity (t e)) [] 0 logd kd -> Forall field_ok log -> len log < 2 ^ 56 ->
  todo = is1 ++ is2 -> chain M (tab x) is1 x1 ->
  exists logd' kd', dt_ok (with_tab x x1) logd' kd' /\ phase e (with_tab x x1) log logd' is2 /\ rooms (capacity (t e)) [] 0 logd' kd'.
Proof.
  intros Hp Hcap Ht HtM Hr Hrd Hf Hl Etodo Hch. destruct is1 as [|i1 is1].
  { apply chain_nil_inv in Hch as ->. cbn in Etodo. subst is2. exists logd, kd. assert (with_tab x (tab x) = x) as -> by now destruct x. auto. }
  assert (forall x0 log0 k0 gs1 gs2, tracks x0 log0 k0 -> capacity x0 = capacity (t e) -> 0 < capacity (t e) -> weight (drop k0 log0) <= capacity (t e) -> log = log0 ++ gs1 ++ gs2 -> rooms (capacity (t e)) [] 0 log0 k0 -> chain M x0 (map Ins gs1) x1 ->
    is2 = map Ins gs2 -> len logd <= len log0 -> exists logd' kd', dt_ok (with_tab x x1) logd' kd' /\ phase e (with_tab x x1) log logd' is2 /\ rooms (capacity (t e)) [] 0 logd' kd') as Hgo.
  { intros x0 log0 k0 gs1 gs2 Hx0 Ec0 Hpos Hw0 El Hr0 Hch1 E2 Hlen. rewrite El, app_assoc in Hr. apply rooms_split in Hr as (k1 & Hr1 & _). pose proof Hr1 as Hr1'. apply rooms_split in Hr1' as (k0' & Hr0' & Hr2). rewrite (rooms_det _ _ _ _ _ _ Hr0' Hr0) in Hr2. cbn [app] in Hr2.
    assert (Forall field_ok gs1) as Hf1 by (rewrite El in Hf; rewrite !Forall_app in Hf; tauto). assert (len log0 + len gs1 < 2 ^ 62) as Hl1 by (rewrite El, !len_app in Hl; pose proof (len_nonneg gs2); lia).
    destruct (rooms_chain M (capacity (t e)) gs1 x0 log0 k0 k1 Hx0 Ec0 ltac:(lia) ltac:(lia) Hr2 Hf1 Hl1) as (x' & Hch' & Hx' & Ec'). rewrite (chain_det M _ _ _ _ ltac:(lia) Hch1 Hch').
    exists (log0 ++ gs1), k1. split; [|split; [|exact Hr1]].
    - apply (dt_ok_tab x logd kd); auto; rewrite ?Ec'; [lia|now apply (rooms_weight _ _ k0)|rewrite len_app; pose proof (len_nonneg gs1); lia].
    - right. right. cbn. splits; auto. exists gs2. split; [now rewrite <- app_assoc|exact E2]. }
  destruct Hp as [(_ & _ & _ & -> & _)|[(Hc & -> & Etab & ->)|(Hc & Ec & gs & El & ->)]]; [discriminate| |].
  - injection Etodo as <- Etodo. apply map_Ins_app in Etodo as (gs1 & gs2 & El & -> & ->). apply chain_cons_inv in Hch as (y & Hi & Hch1). rewrite Etab in Hi. rewrite (carries_det M _ _ _ _ ltac:(lia) Hi (carries_capacity M (capacity (t e)) ltac:(lia) ltac:(lia))) in Hch1.
    apply (Hgo (setCapacity empty (capacity (t e))) [] 0%nat gs1 gs2); auto; try reflexivity; [apply setCapacity_tracks, empty_tracks|cbn; lia].
  - apply map_Ins_app in Etodo as (gs1 & gs2 & -> & E1 & E2). rewrite E1 in Hch. apply (Hgo (tab x) logd kd gs1 gs2); auto; [exact (dt_tracks _ _ _ Ht)|rewrite <- Ec; exact (dt_weight _ _ _ Ht)|reflexivity].
Qed.

Lemma inv_bring s x log k logd kd todo as_ u2 m :
  inv s x log k logd kd todo as_ u2 -> exists s', apply s (Bring m) = Some s' /\ Inv s'.
Proof.
  intros [He Hmx Hlg Hcp Hro Hca Hdy Hta Hli Hrd Hph Hst Hwi Hac Hva Has Hre Hgo Hqu Hse Hgt Hmb Hbl]. cbn [apply]. unfold FeedEncoder. rewrite Hdy. assert (capacity (t (enc s)) = 0 \/ capacity (t (enc s)) <= M) as Hcp' by tauto.
  destruct (todo_chain _ _ _ _ _ _ _ Hph Hcp' Hta Hro Hrd (e_log _ _ _ He) Hlg) as [x2 Hch].
  assert (QDecoder.in_ x ++ take m (wire s) ++ (drop m (wire s) ++ out (enc s)) = mjoin (map ibytes todo)) as Ew by (rewrite (app_assoc (take m _)), take_drop; exact Hwi). rewrite <- Hli in Hch.
  destruct (feedTable_follows x todo x2 _ _ Hch Ew) as (is1 & is2 & x1 & p & Etodo & -> & Hch1 & Hch2 & Hst2 & Hmore). rewrite Hli in Hch1, Hch2. eexists. split; [reflexivity|].
  destruct (brought _ _ _ _ _ _ _ _ _ _ Hph Hcp' Hta Hli Hro Hrd (e_log _ _ _ He) Hlg Etodo Hch1) as (logd' & kd' & Hok & Hph' & Hrd'). set (y := QDecoder.with_in (with_tab x x1) p) in *.
  assert (dt_ok y logd' kd') as Hy by (apply dt_in_ok; [exact Hok|]; apply (started_bytes M x1 is2 x2); auto).
  assert (exists as2, prun (inserted (t (enc s))) (known (enc s), unacked (enc s)) as2 = Some (told (owe y), u2) /\ Forall avalid as2 /\ QStreams.started (QEncoder.in_ (enc s)) (map abytes as2) /\
    QEncoder.in_ (enc s) ++ acks s ++ QDecoder.out (owe y) = mjoin (map abytes as2) /\ forall id, AckCancel id ∈ as2 -> AckCancel id ∈ as_) as (as2 & Ha1 & Ha2 & Ha3 & Ha4 & Ha5).
  { unfold owe. pose proof (tr_inserted _ _ _ (dt_tracks _ _ _ Hy)) as Ei. pose proof (tr_inserted _ _ _ (e_tracks _ _ _ He)) as EI. destruct (Z.ltb_spec (told y) (inserted (tab y))) as [Hlt|]; [|exists as_; splits; auto]. destruct (phase_prefix _ _ _ _ _ Hph') as [gs El].
    assert (len logd' <= len log) as Hle by (rewrite El, len_app; pose proof (len_nonneg gs); lia). pose proof (dt_told _ _ _ Hy) as Htold. rewrite Ei in *. change (told y) with (told x) in *. rewrite (u64_id (len logd' - told x)) by lia.
    assert (avalid (AckInc (len logd' - told x))) as Hv by (unfold avalid; cbn; lia). exists (as_ ++ [AckInc (len logd' - told x)]). splits.
    - apply (prun_snoc _ _ as_ (told x, u2)); [exact Hac|]. cbn. rewrite EI, (proj2 (Z.ltb_lt _ _)), (proj2 (Z.leb_le _ _)) by lia. cbn. do 2 f_equal. lia.
    - now apply Forall_snoc.
    - now apply astarted_snoc.
    - cbn. rewrite (appendInt_acc (QDecoder.out x)), !app_assoc. rewrite !app_assoc in Hre. exact (join_snoc as_ (AckInc _) _ Hre).
    - intros id Hin. apply elem_of_app in Hin as [Hin|Hin]; [exact Hin|]. apply list_elem_of_singleton in Hin. discriminate. }
  assert (forall A (f : decoderTable -> A), (forall z v w, f (QDecoder.with_out z w) = f z /\ f (with_told z v) = f z) -> f (owe y) = f y) as Howe.
  { intros A f Hf'. unfold owe. destruct (_ <? _); [|reflexivity]. destruct (Hf' (QDecoder.with_out y (appendInt (QDecoder.out y) 0 6 (u64 (inserted (tab y) - told y)))) (inserted (tab y)) []) as [_ ->]. apply Hf'; exact 0. }
  exists (owe y), log, k, logd', kd', is2, as2, u2. split; auto; cbn -[owe].
  - now apply owe_ok.
  - rewrite (Howe _ QDecoder.maxCapacity) by auto. exact Hli.
  - destruct Hph' as [H|[H|H]]; [left|right; left|right; right]; rewrite (Howe _ tab) by auto; exact H.
  - rewrite (Howe _ QDecoder.in_) by auto. exact Hst2.
  - rewrite (Howe _ QDecoder.in_) by auto. exact Hmore.
  - rewrite (Howe _ maxBlocked) by auto. exact Hmb.
  - rewrite (Howe _ blocked) by auto. exact Hbl.
Qed.

(** ** A section sent *)

Lemma section_of_app log gs s w fs : section_of log s w fs -> section_of (log ++ gs) s w fs.
Proof.
  intros [(rs & Hl & Hrs & Hr) Hb Hric Ho]. split; auto. exists rs. split; [exact Hl|]. split; [|exact Hr]. eapply Forall_impl; [exact Hrs|]. intros r H abs g Er. destruct (H abs g Er) as [H1 H2]. split; [exact H1|now apply lookup_app_l_Some].
Qed.

Lemma insertion_ne f : field_ok f -> insertion f <> [].
Proof. intros (_ & Hv & _). unfold insertion. destruct (appendString_shape 0 7 (Value f) Hv ltac:(lia) eq_refl) as (y & tl & -> & _). intros H. now apply app_eq_nil in H as [_ H]. Qed.

Lemma started_more p is_ gs : Forall field_ok gs -> QStreams.started p (map ibytes is_) -> QStreams.started p (map ibytes (is_ ++ map Ins gs)).
Proof.
  intros Hf. destruct is_ as [|i is_]; cbn; [|auto]. intros ->. destruct Hf as [|g gs Hg _]; cbn; [reflexivity|]. exists (insertion g). split; [reflexivity|now apply insertion_ne].
Qed.

Lemma insertions_join gs : insertions gs = mjoin (map ibytes (map Ins gs)).
Proof. unfold insertions. now rewrite map_map. Qed.

(** Nothing is inserted in a table of no capacity. *)
Lemma rooms_zero log k gs k' : rooms 0 log k gs k' -> gs = [].
Proof. destruct gs as [|g gs]; [reflexivity|]. intros (k1 & Hw & _). pose proof (weigh_pos g). lia. Qed.

Lemma phase_send e e' x log logd todo k gs k' :
  phase e x log logd todo -> capacity (t e') = capacity (t e) -> rooms (capacity (t e)) log k gs k' -> phase e' x (log ++ gs) logd (todo ++ map Ins gs).
Proof.
  intros Hp Ec Hr. unfold phase. rewrite Ec. destruct Hp as [(E0 & -> & -> & -> & Et)|[(Hc & -> & Et & ->)|(Hc & Et & hs & -> & ->)]].
  - rewrite E0 in Hr. apply rooms_zero in Hr as ->. left. auto.
  - right. left. splits; auto. cbn. now rewrite map_app.
  - right. right. splits; auto. exists (hs ++ gs). split; [now rewrite app_assoc|now rewrite map_app].
Qed.

Lemma of_stream_snoc id l id' fs : of_stream id (l ++ [(id', fs)]) = of_stream id l ++ if decide (id' = id) then [fs] else [].
Proof. unfold of_stream. rewrite filter_app, map_app. f_equal. cbn [filter list_filter fst]. destruct (decide (id' = id)); reflexivity. Qed.

Lemma records_snoc q f : records (q ++ [f]) = records q ++ if decide (0 < ric (f_sec f)) then [mkSent (ric (f_sec f)) (oldest (f_sec f))] else [].
Proof. unfold records. rewrite filter_app, map_app. f_equal. cbn [filter list_filter]. destruct (decide (0 < ric (f_sec f))); reflexivity. Qed.

Lemma field_okb_ok f : field_okb f = true -> field_ok f.
Proof. unfold field_okb. rewrite !andb_true_iff, !Z.ltb_lt. intros [[[H1 H2] H3] H4]. split; [now apply bytes_okb_ok|]. split; [now apply bytes_okb_ok|auto]. Qed.

(** The sections the encoder counts on, with one more of them sent. *)
Lemma prun_recorded e I I' as_ k2 u2 sec :
  prun I (known e, unacked e) as_ = Some (k2, u2) -> I <= I' ->
  exists u3, prun I' (known e, recorded e sec) as_ = Some (k2, u3) /\ (forall id', id' <> streamID sec -> sent u3 id' = sent u2 id') /\
    (AckCancel (streamID sec) ∉ as_ -> sent u3 (streamID sec) = sent u2 (streamID sec) ++ if decide (0 < ric sec) then [mkSent (ric sec) (oldest sec)] else []).
Proof.
  intros H HI. apply (prun_mono _ _ _ _ _ HI) in H. unfold recorded. destruct (Z.ltb_spec 0 (ric sec)) as [Hr|Hr].
  - destruct (prun_sending I' (known e) (unacked e) as_ k2 u2 (streamID sec) (mkSent (ric sec) (oldest sec)) H) as (u3 & E3 & H3 & H4). exists u3. splits; auto. intros Hn. rewrite (H3 Hn), decide_True by lia. unfold sending. apply sent_insert.
  - exists u2. splits; auto. intros _. rewrite decide_False by lia. now rewrite app_nil_r.
Qed.

Lemma inv_send s x log k logd kd todo as_ u2 id fs :
  inv s x log k logd kd todo as_ u2 -> guard s (Send id fs) = true -> exists s', apply s (Send id fs) = Some s' /\ Inv s'.
Proof.
  intros [He Hmx Hlg Hcp Hro Hca Hdy Hta Hli Hrd Hph Hst Hwi Hac Hva Has Hre Hgo Hqu Hse Hgt Hmb Hbl] Hg. cbn [guard] in Hg. rewrite !andb_true_iff, Z.ltb_lt in Hg. destruct Hg as [[Hid Hfs] Hn].
  assert (Forall field_ok (map fst fs)) as Hf by (apply List.Forall_forall; rewrite forallb_forall in Hfs; intros f Hin; apply field_okb_ok; auto). pose proof (tr_inserted _ _ _ (e_tracks _ _ _ He)) as EI. rewrite EI in Hn.
  destruct (encodeSection_ok maphash (enc s) log k [] id fs He Hf Hn) as (e' & sec & w & gs & k' & Eenc & He' & Hr' & Hgf & Hgl & Eout & Hsec & Esid & Eun & Hric & Ekn & Epe & Epb & Emc & Ecap & Efl & Ein).
  cbn [apply]. rewrite Eenc. eexists. split; [reflexivity|]. pose proof (tr_inserted _ _ _ (e_tracks _ _ _ He')) as EI'. assert (len (log ++ gs) = len log + len gs) as Elen by apply len_app. pose proof (len_nonneg gs).
  destruct (prun_recorded (enc s) (inserted (t (enc s))) (inserted (t e')) as_ (told x) u2 sec Hac ltac:(lia)) as (u3 & Hac3 & Hoth & Hown). rewrite Esid in Hoth, Hown.
  set (f := mkFlight ([] ++ prefixOf (peerEntries (enc s)) sec ++ w) (map fst fs) sec). set (s' := mkSys _ _ _ _ _ _ _ _).
  assert (queue s' id = queue s id ++ [f]) as Hq by (unfold queue at 1; cbn; now rewrite lookup_insert_eq). assert (forall id', id' <> id -> queue s' id' = queue s id') as Hq' by (intros id' Hne; unfold queue; cbn; now rewrite lookup_insert_ne by congruence).
  assert (f_block f = prefixOf E sec ++ w) as Hblk.
  { cbn. f_equal. unfold prefixOf. destruct (Z.ltb_spec 0 (ric sec)) as [Hpos|]; [|reflexivity]. destruct Hcp as [E0|[_ [-> _]]]; [|reflexivity]. exfalso. rewrite E0 in Hr'. apply rooms_zero in Hr' as ->. destruct (Hric Hpos) as [H1 H2].
    destruct Hph as [(_ & -> & _)|[(? & _)|(? & _)]]; [|lia|lia]. change (len ([] ++ [])) with 0 in H2. lia. }
  exists x, (log ++ gs), k', logd, kd, (todo ++ map Ins gs), as_, u3. split; auto; cbn -[queue of_stream]; rewrite ?Ecap, ?Emc, ?Epe, ?Epb, ?Ekn, ?Eun, ?Ein; auto.
  - lia.
  - apply (rooms_app _ _ _ _ _ k); auto.
  - now apply (phase_send (enc s) e' x log logd todo k gs k').
  - now apply started_more.
  - rewrite Eout, map_app, join_app, insertions_join, <- Hwi. now rewrite !app_assoc.
  - intros id' g Hin. destruct (Z.eq_dec id' id) as [->|Hne].
    + rewrite Hq in Hin. apply elem_of_app in Hin as [Hin|Hin]; [|apply list_elem_of_singleton in Hin as ->; split; [exact Hid|]; exists w; splits; auto; cbn; rewrite Elen; destruct (Z.lt_ge_cases 0 (ric sec)) as [Hpos|]; [apply Hric in Hpos; lia|pose proof (len_nonneg log); lia]].
      destruct (Hqu _ _ Hin) as (H1 & w1 & H2 & H3 & H4). split; [exact H1|]. exists w1. splits; auto; [now apply section_of_app|lia].
    + rewrite Hq' in Hin by exact Hne. destruct (Hqu _ _ Hin) as (H1 & w1 & H2 & H3 & H4). split; [exact H1|]. exists w1. splits; auto; [now apply section_of_app|lia].
  - intros id' Hng. destruct (Z.eq_dec id' id) as [->|Hne]; [|rewrite Hoth, Hq' by exact Hne; auto]. rewrite Hown, Hq, records_snoc, Hse; auto.
  - intros id'. destruct (Hgt id') as (rest & E1 & E2). rewrite of_stream_snoc, E1. destruct (decide (id = id')) as [<-|Hne].
    + exists (rest ++ [map fst fs]). split; [now rewrite app_assoc|]. intros Hng. rewrite Hq, map_app, (E2 Hng). reflexivity.
    + exists rest. rewrite app_nil_r. split; [reflexivity|]. rewrite Hq' by congruence. exact E2.
  - intros id' Hin. destruct (Hbl id' Hin) as [Hng (g & rest & Eg & Hpos)]. split; [exact Hng|]. destruct (Z.eq_dec id' id) as [->|Hne]; [rewrite Hq, Eg; cbn; eauto|rewrite Hq' by exact Hne; eauto].
Qed.

(** ** A section received *)

Lemma records_cons f q : records (f :: q) = (if decide (0 < ric (f_sec f)) then [mkSent (ric (f_sec f)) (oldest (f_sec f))] else []) ++ records q.
Proof. unfold records. cbn [filter list_filter]. destruct (decide (0 < ric (f_sec f))); reflexivity. Qed.

Lemma sent_some u id y l : sent u id = y :: l -> u !! id = Some (y :: l).
Proof. unfold sent. destruct (u !! id) as [l'|]; cbn; [now intros ->|discriminate]. Qed.

(** A section not received yet is one the encoder keeps the entries of. *)
Lemma kept s x log k logd kd todo as_ u2 id f rest :
  inv s x log k logd kd todo as_ u2 -> queue s id = f :: rest -> id ∉ gone s -> 0 < ric (f_sec f) ->
  u2 !! id = Some (mkSent (ric (f_sec f)) (oldest (f_sec f)) :: records rest) /\ Z.of_nat k <= oldest (f_sec f) < ric (f_sec f).
Proof.
  intros Hi Hq Hg Hr. pose proof (i_sent _ _ _ _ _ _ _ _ _ Hi id Hg) as Hs. rewrite Hq, records_cons, decide_True in Hs by exact Hr. apply sent_some in Hs. split; [exact Hs|].
  destruct (prun_suffix _ _ _ _ _ _ _ _ (i_acks _ _ _ _ _ _ _ _ _ Hi) Hs) as [pre Hu]. destruct (e_unacked _ _ _ (i_enc _ _ _ _ _ _ _ _ _ Hi) _ _ Hu) as [_ Hall]. apply Forall_app in Hall as [_ Hall]. inversion Hall as [|? ? (H1 & _) _]; subst. exact H1.
Qed.

(** As many streams as wait are counted. *)
Lemma waiting_count (S : gset Z) known_ u : (forall id, id ∈ S -> exists l, u !! id = Some l /\ waits known_ l = true) -> Z.of_nat (base.size S) <= waiting known_ u.
Proof.
  revert u. induction S as [|id S Hid IH] using set_ind_L; intros u H; [rewrite size_empty; apply waiting_nonneg|].
  destruct (H id ltac:(set_solver)) as (l & El & Hl). rewrite size_union, size_singleton by set_solver. unfold waiting. rewrite (msum_delete _ u id l El), Hl.
  specialize (IH (delete id u)). unfold waiting in IH. rewrite Nat2Z.inj_add. apply Z.add_le_mono_l, IH. intros id' Hin. rewrite lookup_delete_ne by set_solver. apply H. set_solver.
Qed.

Lemma prun_ge I k u as_ k2 u2 : prun I (k, u) as_ = Some (k2, u2) -> k <= k2.
Proof.
  unfold prun. revert k u. induction as_ as [|a as_ IH]; intros k u H; cbn [foldM] in H; [injection H as <- _; lia|]. destruct (pstep I (k, u) a) as [[k1 u1]|] eqn:Ep; [|discriminate]. apply IH in H. transitivity k1; [|exact H].
  destruct a as [i|i|m]; cbn in Ep; [destruct (u !! i) as [[|s0 rest]|]; try discriminate|..|destruct (Z.ltb_spec 0 m); [|discriminate]; destruct (_ <=? _); [|discriminate]]; injection Ep as <- _; lia.
Qed.

(** A stream whose first section waits is one the encoder counts. *)
Lemma stuck_counted s x log k logd kd todo as_ u2 id f rest :
  inv s x log k logd kd todo as_ u2 -> queue s id = f :: rest -> id ∉ gone s -> inserted (tab x) < ric (f_sec f) -> exists l, unacked (enc s) !! id = Some l /\ waits (known (enc s)) l = true.
Proof.
  intros Hi Hq Hng Hlt. pose proof (i_acks _ _ _ _ _ _ _ _ _ Hi) as Hac. pose proof (i_table _ _ _ _ _ _ _ _ _ Hi) as Hta. pose proof (tr_inserted _ _ _ (dt_tracks _ _ _ Hta)) as Ei. pose proof (dt_told _ _ _ Hta). pose proof (prun_ge _ _ _ _ _ _ Hac). pose proof (len_nonneg logd).
  destruct (kept _ _ _ _ _ _ _ _ _ _ _ _ Hi Hq Hng ltac:(lia)) as [Hu _]. destruct (prun_suffix _ _ _ _ _ _ _ _ Hac Hu) as [pre Hpre]. eexists. split; [exact Hpre|]. unfold waits. rewrite existsb_app. apply orb_true_iff. right. cbn. apply orb_true_iff. left. apply Z.ltb_lt. lia.
Qed.

(** The encoder leaves room for one more stream to wait. *)
Lemma room_to_wait s x log k logd kd todo as_ u2 id f rest :
  inv s x log k logd kd todo as_ u2 -> queue s id = f :: rest -> id ∉ gone s -> inserted (tab x) < ric (f_sec f) -> id ∉ blocked x -> forallb (stuck s (inserted (tab x))) (elements (blocked x)) = true -> Z.of_nat (base.size (blocked x)) < maxBlocked x.
Proof.
  intros Hi Hq Hng Hlt Hnb Hall. rewrite forallb_forall in Hall. assert (Z.of_nat (base.size ({[id]} ∪ blocked x)) <= waiting (known (enc s)) (unacked (enc s))) as Hc.
  { apply waiting_count. intros id' Hin. apply elem_of_union in Hin as [Hin|Hin]; [apply elem_of_singleton in Hin as ->; exact (stuck_counted _ _ _ _ _ _ _ _ _ _ _ _ Hi Hq Hng Hlt)|].
    destruct (i_blocked _ _ _ _ _ _ _ _ _ Hi id' Hin) as [Hng' (g & rest' & Eg & _)]. specialize (Hall id' ltac:(now apply list_elem_of_In, elem_of_elements)). unfold stuck in Hall. rewrite Eg in Hall. apply Z.ltb_lt in Hall. exact (stuck_counted _ _ _ _ _ _ _ _ _ _ _ _ Hi Eg Hng' Hall). }
  rewrite size_union, size_singleton in Hc by set_solver. pose proof (e_blocking _ _ _ (i_enc _ _ _ _ _ _ _ _ _ Hi)) as [_ Hb]. rewrite (i_maxb _ _ _ _ _ _ _ _ _ Hi).
  destruct (i_cap _ _ _ _ _ _ _ _ _ Hi) as [E0|(_ & _ & Epb)]; [|lia]. exfalso. pose proof (i_queue _ _ _ _ _ _ _ _ _ Hi id f ltac:(rewrite Hq; left)) as (_ & _ & _ & _ & Hric). destruct (i_phase _ _ _ _ _ _ _ _ _ Hi) as [(_ & -> & _ & _ & Et)|[(? & _)|(? & _)]]; [|lia|lia]. rewrite Et in Hlt. cbn in Hlt. change (len []) with 0 in Hric. lia.
Qed.

(** What a section received finds: its fields, or that it has to wait. *)
Lemma receive_found s x log k logd kd todo as_ u2 id f rest maxSize :
  inv s x log k logd kd todo as_ u2 -> queue s id = f :: rest -> id ∉ gone s -> (maxSize <= 0 \/ weight (f_fields f) <= maxSize) -> ric (f_sec f) <= inserted (tab x) + maxEntries x ->
  exists d', cache_ok d' /\
    ((ric (f_sec f) <= inserted (tab x) /\ AppendSection (Some (dec s)) [] (f_block f) maxSize id = Some (Some d', f_fields f, Ok ()) /\
      dyn d' = if decide (0 < ric (f_sec f)) then acknowledge (Some x) id (ric (f_sec f)) else Some x) \/
     (inserted (tab x) < ric (f_sec f) /\ AppendSection (Some (dec s)) [] (f_block f) maxSize id = Some (Some d', [], Err (snd (QDecoder.block x id))) /\ dyn d' = Some (fst (QDecoder.block x id)))).
Proof.
  intros Hi Hq Hg Hm Hw. pose proof (i_queue _ _ _ _ _ _ _ _ _ Hi id f ltac:(rewrite Hq; left)) as (Hid & w & Hblk & Hsec & Hric). unfold AppendSection. rewrite Hblk.
  pose proof (i_table _ _ _ _ _ _ _ _ _ Hi) as Hta. pose proof (i_dyn _ _ _ _ _ _ _ _ _ Hi) as Hdy. pose proof (i_cache _ _ _ _ _ _ _ _ _ Hi) as Hca. pose proof (tr_inserted _ _ _ (dt_tracks _ _ _ Hta)) as Ei. rewrite Ei in *.
  assert (maxEntries x = E) as EE by (rewrite (dt_entries _ _ _ Hta), (i_limit _ _ _ _ _ _ _ _ _ Hi); reflexivity). pose proof (len_nonneg logd).
  destruct (Z.lt_ge_cases 0 (ric (f_sec f))) as [Hpos|Hz].
  - destruct (kept _ _ _ _ _ _ _ _ _ _ _ _ Hi Hq Hg Hpos) as [Hu Hk]. destruct (phase_prefix _ _ _ _ _ (i_phase _ _ _ _ _ _ _ _ _ Hi)) as [gs El]. pose proof (kd_le _ _ _ _ _ gs El (i_rooms _ _ _ _ _ _ _ _ _ Hi) (i_roomsd _ _ _ _ _ _ _ _ _ Hi)) as Hkd.
    assert (len logd - maxEntries x <= Z.of_nat kd) as Hlow.
    { pose proof (dropped_bound _ _ _ (dt_tracks _ _ _ Hta)) as Hb. assert (weight (drop kd logd) / 32 <= maxEntries x); [|lia]. rewrite (dt_entries _ _ _ Hta). apply Z.div_le_mono; [lia|]. pose proof (dt_weight _ _ _ Hta). pose proof (dt_cap _ _ _ Hta). lia. }
    pose proof (tr_log _ _ _ (dt_tracks _ _ _ Hta)) as Hlgd. assert (len logd - maxEntries x < ric (f_sec f) <= len logd + maxEntries x) as Hwin by lia.
    rewrite <- EE. destruct (Z.lt_ge_cases (len logd) (ric (f_sec f))) as [Hlt|Hge].
    + exists (with_dyn (dec s) (Some (fst (QDecoder.block x id)))). split; [now apply cache_dyn|]. right. split; [exact Hlt|]. split; [|reflexivity]. now apply (decode_waits log (f_sec f) w (f_fields f) Hsec x logd kd Hta).
    + destruct (decode_refs log (f_sec f) w (f_fields f) Hsec x logd kd Hta (dec s) Hca Hdy Hpos Hwin maxSize [] id) as (d' & Ed & Hc' & Hd'); auto; try lia.
      { intros i Hi'. rewrite El, lookup_app_l; [reflexivity|]. unfold len in Hge. lia. }
      exists d'. split; [exact Hc'|]. left. rewrite decide_True by exact Hpos. auto.
  - assert (ric (f_sec f) = 0) as Hz0 by (destruct (sec_ric _ _ _ _ Hsec); lia). destruct (decode_plain log (f_sec f) w (f_fields f) Hsec (Some (dec s)) E maxSize [] id Hz0 Hca Hm) as (d' & Ed & Hc' & Hdn & Hs').
    destruct (Hs' ltac:(eauto)) as [d2 ->]. exists d2. split; [exact Hc'|]. left. rewrite decide_False by lia. split; [lia|]. split; [exact Ed|]. cbn in Hdn. congruence.
Qed.

Lemma queue_pop s d id rest fs id' :
  queue (mkSys (enc s) d (wire s) (acks s) (<[id := rest]> (flights s)) (gone s) (sends s) (got s ++ [(id, fs)])) id' = if decide (id' = id) then rest else queue s id'.
Proof. unfold queue. cbn. destruct (decide (id' = id)) as [->|Hne]; [now rewrite lookup_insert_eq|now rewrite lookup_insert_ne by congruence]. Qed.

Lemma inv_receive s x log k logd kd todo as_ u2 id maxSize :
  inv s x log k logd kd todo as_ u2 -> guard s (Receive id maxSize) = true -> exists s', apply s (Receive id maxSize) = Some s' /\ Inv s'.
Proof.
  intros Hi Hg. cbn [guard] in Hg. rewrite (i_dyn _ _ _ _ _ _ _ _ _ Hi) in Hg. destruct (queue s id) as [|f rest] eqn:Hq; [discriminate|]. rewrite !andb_true_iff, !orb_true_iff, !Z.leb_le, negb_true_iff, !bool_decide_eq_true, bool_decide_eq_false in Hg.
  destruct Hg as [[[Hng Hm] Hw] Hroom]. destruct (receive_found s x log k logd kd todo as_ u2 id f rest maxSize Hi Hq Hng Hm Hw) as (d' & Hc' & Hfound).
  pose proof (kept _ _ _ _ _ _ _ _ _ _ _ _ Hi Hq Hng) as Hkept. pose proof (i_queue _ _ _ _ _ _ _ _ _ Hi id f ltac:(rewrite Hq; left)) as (Hid & _). apply id_ok_iff in Hid.
  pose proof Hi as [He Hmx Hlg Hcp Hro Hca Hdy Hta Hli Hrd Hph Hst Hwi Hac Hva Has Hre Hgo Hqu Hse Hgt Hmb Hbl]. cbn [apply]. rewrite Hq.
  pose proof (tr_inserted _ _ _ (dt_tracks _ _ _ Hta)) as Ei. destruct Hfound as [(Hle & -> & Hd')|(Hlt & -> & Hd')].
  - eexists. split; [reflexivity|]. assert (forall id', exists rest', of_stream id' (sends s) = of_stream id' (got s ++ [(id, f_fields f)]) ++ rest' /\ (id' ∉ gone s -> rest' = map f_fields (if decide (id' = id) then rest else queue s id'))) as Hgt'.
    { intros id'. destruct (Hgt id') as (r & E1 & E2). rewrite of_stream_snoc. destruct (decide (id = id')) as [<-|Hne].
      - rewrite decide_True by reflexivity. specialize (E2 Hng). rewrite Hq in E2. subst r. exists (map f_fields rest). split; [rewrite E1, <- app_assoc; reflexivity|auto].
      - rewrite decide_False by congruence. exists r. rewrite app_nil_r. auto. }
    assert (forall id' g, g ∈ (if decide (id' = id) then rest else queue s id') -> g ∈ queue s id') as Hsub by (intros id' g; destruct (decide (id' = id)) as [->|]; [rewrite Hq; now right|auto]).
    destruct (decide (0 < ric (f_sec f))) as [Hpos|Hz].
    + destruct (Hkept Hpos) as [Hu _]. unfold acknowledge in Hd'. rewrite (proj2 (Z.eqb_neq _ _)) in Hd' by lia. set (x' := with_told _ _) in Hd'. assert (avalid (AckSec id)) as Hv by exact Hid.
      set (u3 := match records rest with [] => delete id u2 | l => <[id := l]> u2 end). assert (forall id', sent u3 id' = if decide (id' = id) then records rest else sent u2 id') as Hu3.
      { intros id'. unfold u3, sent. destruct (decide (id' = id)) as [->|Hne]; destruct (records rest); rewrite ?lookup_delete_eq, ?lookup_insert_eq, ?lookup_delete_ne, ?lookup_insert_ne by congruence; reflexivity. }
      exists x', log, k, logd, kd, todo, (as_ ++ [AckSec id]), u3. split; auto; cbn -[queue of_stream].
      * destruct Hta as [? ? ? ? ? ? Hb ?]. split; cbn; auto; [lia|]. pose proof (subseteq_size (blocked x ∖ {[id]}) (blocked x) ltac:(set_solver)). lia.
      * apply (prun_snoc _ _ as_ (told x, u2)); [exact Hac|]. cbn. rewrite Hu. unfold u3. destruct (records rest); reflexivity.
      * now apply Forall_snoc.
      * now apply astarted_snoc.
      * rewrite (appendInt_acc (QDecoder.out x)), !app_assoc. rewrite !app_assoc in Hre. exact (join_snoc as_ (AckSec id) _ Hre).
      * intros id' Hin. apply elem_of_app in Hin as [Hin|Hin]; [auto|]. apply list_elem_of_singleton in Hin. discriminate.
      * intros id' g. rewrite queue_pop. eauto.
      * intros id' Hn. rewrite Hu3, queue_pop. destruct (decide (id' = id)); auto.
      * intros id'. rewrite queue_pop. apply Hgt'.
      * intros id' Hin. assert (id' <> id /\ id' ∈ blocked x) as [Hne Hin'] by set_solver. rewrite queue_pop, decide_False by exact Hne. auto.
    + exists x, log, k, logd, kd, todo, as_, u2. split; auto; cbn -[queue of_stream].
      * intros id' g. rewrite queue_pop. eauto.
      * intros id' Hn. rewrite queue_pop. destruct (decide (id' = id)) as [->|]; [|auto]. rewrite (Hse id Hn), Hq, records_cons, decide_False by exact Hz. reflexivity.
      * intros id'. rewrite queue_pop. apply Hgt'.
      * intros id' Hin. destruct (Hbl id' Hin) as [Hng' (g & rest' & Eg & Hg)]. rewrite queue_pop. destruct (decide (id' = id)) as [->|]; [|eauto]. rewrite Hq in Eg. injection Eg as <- _. contradiction.
  - assert (snd (QDecoder.block x id) = ErrBlocked) as Hb.
    { unfold QDecoder.block. case_bool_decide as Hin; [reflexivity|]. rewrite (proj2 (Z.leb_gt _ _)); [reflexivity|]. destruct Hroom as [[Hr|Hr]|Hr]; [lia|contradiction|]. exact (room_to_wait _ _ _ _ _ _ _ _ _ _ _ _ Hi Hq Hng Hlt Hin Hr). }
    rewrite Hb. eexists. split; [reflexivity|]. destruct (block_ok x logd kd id Hta) as (Hok & E1 & E2 & E3). exists (fst (QDecoder.block x id)), log, k, logd, kd, todo, as_, u2.
    assert (tab (fst (QDecoder.block x id)) = tab x /\ told (fst (QDecoder.block x id)) = told x /\ QDecoder.out (fst (QDecoder.block x id)) = QDecoder.out x) as (T1 & T2 & T3) by (unfold QDecoder.block; repeat case_match; auto).
    split; auto; cbn -[queue of_stream]; rewrite ?E3, ?T2, ?T3; auto; [congruence|unfold phase; rewrite T1; exact Hph|congruence|].
    intros id' Hin. assert (id' ∈ blocked x \/ id' = id) as [Hin'| ->] by (revert Hin; unfold QDecoder.block; repeat case_match; cbn; set_solver); [exact (Hbl id' Hin')|]. split; [exact Hng|]. exists f, rest. split; [exact Hq|]. pose proof (len_nonneg logd). lia.
Qed.

(** ** Any run *)

Lemma new_encoder_ok : e_ok (NewEncoder ours) [] 0.
Proof.
  split; [apply empty_tracks|cbn; lia|cbn; lia|split; [discriminate|reflexivity]|..].
  1, 2: intros key abs Hk; cbn in Hk; rewrite lookup_empty in Hk; discriminate.
  1, 2: cbn; change (len []) with 0; lia.
  - intros id l Hl. cbn in Hl. rewrite lookup_empty in Hl. discriminate.
  - cbn. unfold total, msum. now rewrite map_to_list_empty.
  - cbn. unfold waiting, msum. now rewrite map_to_list_empty.
  - reflexivity.
  - constructor.
  - constructor.
Qed.

Lemma enabled : dyn (EnableDynamic zeroDecoder M B) = Some (mkDyn empty M E B ∅ 0 [] []).
Proof. unfold EnableDynamic. now rewrite (proj2 (Z.eqb_neq _ _)) by lia. Qed.

Lemma inv_start : Inv start.
Proof.
  exists (mkDyn empty M E B ∅ 0 [] []), [], 0%nat, [], 0%nat, [], [], ∅. pose proof (enabled_ok M B 0 HM ltac:(lia)) as Hd.
  assert (forall id, queue start id = []) as Hq by (intros id; unfold queue; cbn; now rewrite lookup_empty).
  split; try (cbn -[E]; now auto).
  - apply new_encoder_ok.
  - unfold start. cbn [dec]. apply Hd.
  - apply enabled.
  - destruct Hd as [_ (y & Ey & Hy & _)]. rewrite enabled in Ey. congruence.
  - left. auto.
  - intros id. exists []. split; [reflexivity|]. intros _. now rewrite Hq.
Qed.

Lemma apply_inv s ev : Inv s -> guard s ev = true -> exists s', apply s ev = Some s' /\ Inv s'.
Proof.
  intros (x & log & k & logd & kd & todo & as_ & u2 & Hi) Hg. destruct ev as [|id fs| |m|id maxSize| |m|id].
  - now apply (inv_settings s x log k logd kd todo as_ u2).
  - now apply (inv_send s x log k logd kd todo as_ u2).
  - now apply (inv_write s x log k logd kd todo as_ u2).
  - now apply (inv_bring s x log k logd kd todo as_ u2).
  - now apply (inv_receive s x log k logd kd todo as_ u2).
  - now apply (inv_reply s x log k logd kd todo as_ u2).
  - now apply (inv_heard s x log k logd kd todo as_ u2).
  - now apply (inv_abandon s x log k logd kd todo as_ u2).
Qed.

Lemma run_cons s ev evs : run s (ev :: evs) = match apply s ev with None => None | Some s' => run s' evs end.
Proof. unfold run. cbn. destruct (apply s ev); reflexivity. Qed.

Lemma run_inv evs s : Inv s -> allowed s evs = true -> exists s', run s evs = Some s' /\ Inv s'.
Proof.
  revert s. induction evs as [|ev evs IH]; intros s Hs Ha; [now exists s|]. cbn [allowed] in Ha. apply andb_true_iff in Ha as [Hg Ha]. rewrite run_cons. destruct (apply_inv s ev Hs Hg) as (s' & E & Hs'). rewrite E in *. auto.
Qed.

(** ** Nothing waits for ever *)

(** With nothing on its way, the decoder has carried out all of the stream. *)
Lemma caught_up s x log k logd kd todo as_ u2 : inv s x log k logd kd todo as_ u2 -> wire s = [] -> out (enc s) = [] -> inserted (tab x) = len log.
Proof.
  intros Hi Hw Ho. pose proof (i_wire _ _ _ _ _ _ _ _ _ Hi) as E. rewrite Hw, Ho, !app_nil_r in E. pose proof (i_start _ _ _ _ _ _ _ _ _ Hi) as Hst. assert (todo = []) as ->.
  { destruct todo as [|i todo]; [reflexivity|]. exfalso. cbn [map] in *. rewrite E in Hst. cbn in Hst. destruct Hst as (r & Er & Hr). apply Hr. apply (f_equal length) in Er. rewrite !length_app in Er. destruct r; [reflexivity|cbn in Er; lia]. }
  rewrite (tr_inserted _ _ _ (dt_tracks _ _ _ (i_table _ _ _ _ _ _ _ _ _ Hi))). destruct (i_phase _ _ _ _ _ _ _ _ _ Hi) as [(_ & -> & -> & _)|[(_ & _ & _ & ?)|(_ & _ & [|g gs] & -> & H)]]; try discriminate; [reflexivity|now rewrite app_nil_r].
Qed.

Lemma receive_now s id f rest :
  Inv s -> wire s = [] -> out (enc s) = [] -> queue s id = f :: rest -> id ∉ gone s ->
  exists s', guard s (Receive id 0) = true /\ apply s (Receive id 0) = Some s' /\ Inv s' /\ wire s' = [] /\ out (enc s') = [] /\ queue s' id = rest /\ gone s' = gone s /\ sends s' = sends s /\ got s' = got s ++ [(id, f_fields f)].
Proof.
  intros (x & log & k & logd & kd & todo & as_ & u2 & Hi) Hw Ho Hq Hng. pose proof (caught_up _ _ _ _ _ _ _ _ _ Hi Hw Ho) as Hall. pose proof (i_queue _ _ _ _ _ _ _ _ _ Hi id f ltac:(rewrite Hq; left)) as (_ & _ & _ & _ & Hric).
  assert (maxEntries x = E) as EE by (rewrite (dt_entries _ _ _ (i_table _ _ _ _ _ _ _ _ _ Hi)), (i_limit _ _ _ _ _ _ _ _ _ Hi); reflexivity). pose proof E_bound.
  assert (guard s (Receive id 0) = true) as Hg.
  { cbn [guard]. rewrite Hq, (i_dyn _ _ _ _ _ _ _ _ _ Hi), bool_decide_eq_false_2, Hall by exact Hng. assert (ric (f_sec f) <=? len log + maxEntries x = true) as -> by (apply Z.leb_le; lia). assert (ric (f_sec f) <=? len log = true) as -> by (apply Z.leb_le; lia). reflexivity. }
  destruct (inv_receive _ _ _ _ _ _ _ _ _ _ _ Hi Hg) as (s' & Es & Hs'). exists s'. split; [exact Hg|]. split; [exact Es|]. split; [exact Hs'|].
  destruct (receive_found _ _ _ _ _ _ _ _ _ id f rest 0 Hi Hq Hng ltac:(lia) ltac:(lia)) as (d' & _ & [(_ & Ea & _)|(? & _)]); [|lia]. cbn [apply] in Es. rewrite Hq, Ea in Es. injection Es as <-. cbn -[queue]. rewrite queue_pop, decide_True by reflexivity. auto 10.
Qed.

Lemma receive_all n s id :
  Inv s -> wire s = [] -> out (enc s) = [] -> length (queue s id) = n -> id ∉ gone s ->
  exists s', allowed s (replicate n (Receive id 0)) = true /\ run s (replicate n (Receive id 0)) = Some s' /\ of_stream id (got s') = of_stream id (sends s).
Proof.
  revert s. induction n as [|n IH]; intros s Hs Hw Ho Hn Hng.
  - exists s. split; [reflexivity|]. split; [reflexivity|]. destruct Hs as (x & log & k & logd & kd & todo & as_ & u2 & Hi). destruct (i_got _ _ _ _ _ _ _ _ _ Hi id) as (r & E1 & E2). apply length_zero_iff_nil in Hn. rewrite Hn in E2. rewrite E1, (E2 Hng). cbn. now rewrite app_nil_r.
  - destruct (queue s id) as [|f rest] eqn:Hq; [discriminate|]. destruct (receive_now s id f rest Hs Hw Ho Hq Hng) as (s1 & Hg & E1 & H1 & Hw1 & Ho1 & Hq1 & Eg & Es & _).
    cbn [allowed replicate]. rewrite run_cons, Hg, E1, <- Es. apply IH; auto; [rewrite Hq1; now injection Hn|congruence].
Qed.

End System.

(** ** What the two promise each other *)

(** C10: in every run whose events may happen when they do, no endpoint ever
    refuses what the other sent, each stream's sections are decoded in the order
    they were sent to the very fields they were made of, so that what a stream
    got is always a prefix of what was sent on it, and at most as many streams
    wait as the receiver lets wait. The encoder stream, each stream and the
    decoder stream come in pieces of any size and in any order with one another.
    What [allowed] leaves out is a section received on a stream that was given
    up, one over the receiver's own limit, one whose required insert count is
    ahead of the receiver's by more than the window of its encoding, and one that
    would wait before a waiting one whose entries have come is received again. *)
Theorem qpack_delivers maphash ours M B evs :
  0 <= ours < 2 ^ 56 -> 0 < M < 2 ^ 56 -> 0 <= B -> allowed maphash M B (start ours M B) evs = true ->
  exists s x, run maphash M B (start ours M B) evs = Some s /\ dyn (dec s) = Some x /\ Z.of_nat (base.size (blocked x)) <= B /\
  forall id, exists rest, of_stream id (sends s) = of_stream id (got s) ++ rest.
Proof.
  intros Ho HM HB Ha. destruct (run_inv maphash ours M B Ho HM HB evs _ (inv_start ours M B Ho HM) Ha) as (s & -> & x & log & k & logd & kd & todo & as_ & u2 & Hi).
  exists s, x. split; [reflexivity|]. split; [apply (i_dyn _ _ _ _ _ _ _ _ _ _ _ Hi)|]. split.
  - pose proof (dt_blocked _ _ _ (i_table _ _ _ _ _ _ _ _ _ _ _ Hi)) as Hb. rewrite (i_maxb _ _ _ _ _ _ _ _ _ _ _ Hi) in Hb. lia.
  - intros id. destruct (i_got _ _ _ _ _ _ _ _ _ _ _ Hi id) as (rest & E & _). eauto.
Qed.

(** C11: nothing waits for ever. In any state that a run whose events may happen
    when they do ([allowed]) comes to, once what the encoder has written is
    brought, every section still to be received on a stream that was not
    abandoned may be received, and is decoded, in order: the stream has all that
    was sent on it. *)
Theorem qpack_no_deadlock maphash ours M B evs s id :
  0 <= ours < 2 ^ 56 -> 0 < M < 2 ^ 56 -> 0 <= B -> allowed maphash M B (start ours M B) evs = true -> run maphash M B (start ours M B) evs = Some s -> id ∉ gone s ->
  let rest := Write :: Bring (length (wire s ++ out (enc s))) :: replicate (length (queue s id)) (Receive id 0) in
  allowed maphash M B s rest = true /\ exists s', run maphash M B s rest = Some s' /\ of_stream id (got s') = of_stream id (sends s).
Proof.
  intros Ho HM HB Ha Hrun Hng. destruct (run_inv maphash ours M B Ho HM HB evs _ (inv_start ours M B Ho HM) Ha) as (s0 & E & Hs). rewrite Hrun in E. injection E as <-.
  destruct (apply_inv maphash ours M B Ho HM HB s Write Hs eq_refl) as (s1 & E1 & H1). set (n := length (wire s ++ out (enc s))). destruct (apply_inv maphash ours M B Ho HM HB s1 (Bring n) H1 eq_refl) as (s2 & E2 & H2).
  intros rest. unfold rest. rewrite !run_cons. cbn [allowed guard andb]. rewrite E1, !run_cons, E2. injection E1 as <-. cbn [apply enc dec wire acks flights gone sends got] in E2. destruct (FeedEncoder _ _) as [[d []]|]; try discriminate. injection E2 as <-.
  destruct (receive_all maphash ours M B Ho HM HB _ _ id H2 (drop_ge _ n (le_n _)) eq_refl eq_refl Hng) as (s' & Ha' & E' & Eg). eauto.
Qed.

(** ** A run *)

Definition sumHash (b : bytes) : Z := fold_left (fun h c => h * 257 + c) b 1.

Definition fld (c : Z) : HeaderField := mkField [c] [].

Definition sendAll (id : Z) (cs : list Z) : event := Send id (map (fun c => (fld c, false)) cs).

(** A section waits for the entry it refers to while another, that refers to
    none, passes it; the encoder stream comes in two pieces, cut in the middle of
    an instruction, and a third stream is abandoned. *)
Definition aRun : list event :=
  [Settings; sendAll 0 [97; 97]; Receive 0 0; sendAll 4 [98]; Receive 4 0; sendAll 8 [97]; Write; Bring 3; Receive 0 0; Bring 9; Receive 0 0; Abandon 8; Reply; Heard 1; Heard 9; sendAll 0 [97]; Receive 0 0].

Lemma qpack_delivers_witness :
  allowed sumHash 100 1 (start 100 100 1) aRun = true /\
  exists s x, run sumHash 100 1 (start 100 100 1) aRun = Some s /\ dyn (dec s) = Some x /\ Z.of_nat (base.size (blocked x)) <= 1 /\
  forall id, exists rest, of_stream id (sends s) = of_stream id (got s) ++ rest.
Proof. assert (allowed sumHash 100 1 (start 100 100 1) aRun = true) as Ha by (vm_compute; reflexivity). split; [exact Ha|]. apply (qpack_delivers sumHash 100 100 1 aRun); [lia|lia|lia|exact Ha]. Defined.

Example aRun_gets :
  option_map (fun s => (got s, Counts (enc s), acks s)) (run sumHash 100 1 (start 100 100 1) aRun) =
  Some ([(4, [fld 98]); (0, [fld 97; fld 97]); (0, [fld 97])], (1, 1), []).
Proof. vm_compute. reflexivity. Qed.

Lemma qpack_no_deadlock_witness :
  exists s, run sumHash 100 1 (start 100 100 1) (take 6 aRun) = Some s /\ (0 ∉ gone s) /\ length (queue s 0) = 1%nat /\
  let rest := Write :: Bring (length (wire s ++ out (enc s))) :: replicate (length (queue s 0)) (Receive 0 0) in
  allowed sumHash 100 1 s rest = true /\ exists s', run sumHash 100 1 s rest = Some s' /\ of_stream 0 (got s') = of_stream 0 (sends s).
Proof.
  assert (allowed sumHash 100 1 (start 100 100 1) (take 6 aRun) = true) as Ha by (vm_compute; reflexivity).
  destruct (run sumHash 100 1 (start 100 100 1) (take 6 aRun)) as [s|] eqn:E; [|vm_compute in E; discriminate]. exists s. split; [reflexivity|]. assert (0 ∉ gone s /\ length (queue s 0) = 1%nat) as [Hg Hq].
  { assert (option_map (fun s => (bool_decide (0 ∈ gone s), length (queue s 0))) (Some s) = Some (false, 1%nat)) as H by (rewrite <- E; vm_compute; reflexivity). injection H as H1 H2. apply bool_decide_eq_false in H1. auto. }
  split; [exact Hg|]. split; [exact Hq|]. apply (qpack_no_deadlock sumHash 100 100 1 (take 6 aRun)); [lia|lia|lia|exact Ha|exact E|exact Hg].
Defined.

End QSystem.
