(* ===== verification/QpackLimits.v ===== *)
(** * What a QPACK encoder keeps to (src/http3/qpack/encoder.go)

    An encoder against any peer: the settings it sends, at any time, and any
    bytes on its decoder stream. And what the encoder does not keep to: a run of
    two endpoints in which the required insert count of a section wraps too far. *)

From S2P Require Import Prelude HpackTables HpackHuffman QpackCodec QpackTable QpackDecoder QpackEncoder QpackRoundtrip QpackStreams QpackSystem.
From stdpp Require Import base list numbers gmap.
From Stdlib Require Import ZArith Lia.

Local Open Scope Z_scope.
Local Open Scope go_scope.

Module QLimits.
Import Qpack QTable QEncoder QRound QStreams QSystem.

(** ** An encoder and any peer *)

Inductive eop : Type :=
| PeerSettings (peerMax peerBlocked : Z)
| SendSection (id : Z) (fs : list (HeaderField * bool))
| DecoderStream (data : bytes)
| TakeOut.

(** An error on the decoder stream ends the connection; here the encoder goes
    on, whatever it was. *)
Definition estep (maphash : bytes -> Z) (e : Encoder) (op : eop) : option Encoder :=
  match op with
  | PeerSettings peerMax blk => Some (SetPeerSettings e peerMax blk)
  | SendSection id fs => match encodeSection maphash e [] id fs with None => None | Some (e, _, _) => Some e end
  | DecoderStream data => match FeedDecoder e data with None => None | Some (e, _) => Some e end
  | TakeOut => Some (with_out e [])
  end.

Definition erun (maphash : bytes -> Z) : Encoder -> list eop -> option Encoder := foldM (estep maphash).

Definition eop_ok (op : eop) : Prop :=
  match op with
  | PeerSettings peerMax blk => 0 <= peerMax < 2 ^ 56 /\ 0 <= blk
  | SendSection _ fs => Forall field_ok (map fst fs)
  | DecoderStream data => bytes_ok data
  | TakeOut => True
  end.

(** The fields a run sends. *)
Fixpoint fieldsOf (ops : list eop) : Z :=
  match ops with [] => 0 | SendSection _ fs :: ops => len fs + fieldsOf ops | _ :: ops => fieldsOf ops end.

Lemma fieldsOf_nonneg ops : 0 <= fieldsOf ops.
Proof. induction ops as [|[] ops IH]; cbn; try lia. pose proof (len_nonneg fs). lia. Qed.

(** Until the settings come the table is not used. *)
Record alone (ours : Z) (e : Encoder) (log : list HeaderField) (k : nat) (room : Z) : Prop := {
  al_ok : e_ok e log k;
  al_max : maxCapacity e = ours;
  al_cap : capacity (t e) <= ours;
  al_log : capacity (t e) = 0 -> log = [];
  al_room : len log + room < 2 ^ 56
}.

Section Alone.
Context (maphash : bytes -> Z) (ours : Z) (Hours : 0 <= ours < 2 ^ 56).

Lemma settings_alone e log k room peerMax blk : alone ours e log k room -> 0 <= peerMax < 2 ^ 56 -> 0 <= blk -> alone ours (SetPeerSettings e peerMax blk) log k room.
Proof.
  intros [He Em Hc Hl Hr] Hp Hb. unfold SetPeerSettings. destruct ((Z.min (maxCapacity e) peerMax =? 0) || negb (capacity (t e) =? 0)) eqn:Eq; [now split|].
  apply orb_false_iff in Eq as [E1 E2]. apply Z.eqb_neq in E1. apply negb_false_iff, Z.eqb_eq in E2. pose proof (Hl E2) as ->. split; auto; [|cbn; lia].
  exact (settings_ok peerMax blk ltac:(lia) Hb e k He ltac:(lia)).
Qed.

Lemma FeedDecoder_table e data e' r : FeedDecoder e data = Some (e', r) -> t e' = t e /\ maxCapacity e' = maxCapacity e.
Proof.
  assert (forall fuel e buf e' r, ackLoop fuel e buf = Some (e', r) -> t e' = t e /\ maxCapacity e' = maxCapacity e) as Hloop.
  { clear. induction fuel as [|fuel IH]; intros e buf e' r H; cbn [ackLoop] in H; repeat (case_match; try discriminate; simplify_eq; auto); match goal with Hi : ackInstruction _ _ _ = _ |- _ => unfold ackInstruction in Hi; repeat (case_match; try discriminate; simplify_eq; auto) end; try (apply IH in H as [-> ->]; auto). }
  unfold FeedDecoder. intros H. repeat (case_match; try discriminate). all: simplify_eq. all: match goal with Hl : ackLoop _ _ _ = _ |- _ => apply Hloop in Hl as [E1 E2] end; cbn in *; repeat case_match; cbn in *; auto.
Qed.

Lemma estep_alone e log k op ops :
  alone ours e log k (fieldsOf (op :: ops)) -> eop_ok op -> exists e' log' k', estep maphash e op = Some e' /\ alone ours e' log' k' (fieldsOf ops).
Proof.
  intros Ha Hop. pose proof (fieldsOf_nonneg ops). destruct op as [peerMax blk|id fs|data|]; cbn [estep eop_ok fieldsOf] in *.
  - eexists _, log, k. split; [reflexivity|]. now apply settings_alone.
  - destruct Ha as [He Em Hc Hl Hr]. destruct (encodeSection_ok maphash e log k [] id fs He Hop ltac:(lia)) as (e' & sec & w & gs & k' & -> & He' & Hr' & _ & Hgl & _ & _ & _ & _ & _ & _ & _ & _ & Emc & Ecap & _).
    exists e', (log ++ gs), k'. split; [reflexivity|]. split; rewrite ?Ecap; auto; [congruence| |rewrite len_app; lia]. intros E0. rewrite (Hl E0). rewrite E0 in Hr'. now apply rooms_zero in Hr' as ->.
  - destruct Ha as [He Em Hc Hl Hr]. destruct (FeedDecoder_ok e log k data He Hop) as (e' & r & E & He'). rewrite E. apply FeedDecoder_table in E as [E1 E2]. exists e', log, k. split; [reflexivity|]. split; rewrite ?E1, ?E2; auto.
  - destruct Ha as [He Em Hc Hl Hr]. eexists _, log, k. split; [reflexivity|]. split; auto. now apply with_out_ok.
Qed.

Lemma erun_alone ops e log k : alone ours e log k (fieldsOf ops) -> Forall eop_ok ops -> exists e' log' k', erun maphash e ops = Some e' /\ alone ours e' log' k' 0.
Proof.
  revert e log k. induction ops as [|op ops IH]; intros e log k Ha Ho; [exists e, log, k; auto|]. apply Forall_cons in Ho as [Hop Ho].
  destruct (estep_alone e log k op ops Ha Hop) as (e1 & log1 & k1 & E & H1). destruct (IH e1 log1 k1 H1 Ho) as (e2 & log2 & k2 & E2 & H2). exists e2, log2, k2. split; [|exact H2]. unfold erun. cbn. rewrite E. exact E2.
Qed.

End Alone.

(** C17: whatever settings a peer sends, whatever it writes on its decoder stream,
    and whatever is sent to it meanwhile, the encoder goes on (it indexes no ring
    out of range) and its table stays within the capacity it chose, itself within
    what this side allows; every entry an unacknowledged section refers to is
    still in the table; no more streams can be waiting than the peer lets wait;
    and what the peer is known to have never passes what was inserted. *)
Theorem qpack_encoder_safe maphash ours ops :
  0 <= ours < 2 ^ 56 -> Forall eop_ok ops -> fieldsOf ops < 2 ^ 56 ->
  exists e, erun maphash (NewEncoder ours) ops = Some e /\
    size (t e) <= capacity (t e) <= ours /\ 0 <= known e <= inserted (t e) /\
    waiting (known e) (unacked e) <= peerBlocked e /\ pending e = total (unacked e) /\
    forall id l x abs, unacked e !! id = Some l -> x ∈ l -> s_oldest x <= abs < s_ric x -> has (t e) abs = true.
Proof.
  intros Ho Hops Hf. destruct (erun_alone maphash ours Ho ops (NewEncoder ours) [] 0) as (e & log & k & E & [He Em Hc _ _]); auto.
  { split; auto; [apply (new_encoder_ok ours 1 Ho); lia|cbn; lia]. }
  exists e. split; [exact E|]. pose proof (e_tracks _ _ _ He) as Ht. rewrite (tr_size _ _ _ Ht), (tr_inserted _ _ _ Ht). pose proof (e_weight _ _ _ He). pose proof (e_known _ _ _ He).
  split; [lia|]. split; [lia|]. split; [apply (e_blocking _ _ _ He)|]. split; [apply (e_pending _ _ _ He)|]. intros id l x abs Hl Hx Habs. destruct (e_unacked _ _ _ He id l Hl) as [_ Hall].
  rewrite list.Forall_forall in Hall. destruct (Hall x Hx) as (H1 & H2 & _). apply (has_tracks _ _ _ Ht). lia.
Qed.

Lemma qpack_encoder_safe_witness :
  exists e, erun sumHash (NewEncoder 100) [PeerSettings 4096 2; SendSection 0 [(fld 97, false); (fld 97, false)]; DecoderStream [1; 200]] = Some e /\
    size (t e) <= capacity (t e) <= 100 /\ waiting (known e) (unacked e) <= peerBlocked e.
Proof.
  destruct (qpack_encoder_safe sumHash 100 [PeerSettings 4096 2; SendSection 0 [(fld 97, false); (fld 97, false)]; DecoderStream [1; 200]]) as (e & E & H1 & _ & H2 & _); [lia| |vm_compute; reflexivity|exists e; auto].
  assert (field_ok (fld 97)) as Hf by (apply field_okb_ok; reflexivity). assert (bytes_ok [1; 200]) as Hb by now apply bytes_okb_ok.
  apply List.Forall_cons; [split; lia|]. apply List.Forall_cons; [|apply List.Forall_cons; [exact Hb|apply List.Forall_nil]]. apply List.Forall_cons; [exact Hf|]. apply List.Forall_cons; [exact Hf|apply List.Forall_nil].
Defined.

(** ** Where the required insert count wraps *)

(** Entries the decoder has not been brought are evicted: their sections were
    acknowledged or cancelled, or they never had one. *)
Definition wrapRun : list event :=
  [Settings; sendAll 0 [97; 97]; Write; Bring 100; Receive 0 0; Reply; Heard 100;
   sendAll 4 [98; 98]; sendAll 8 [99; 99; 100; 100]; Abandon 4; Reply; Heard 100;
   sendAll 12 [100]; sendAll 16 [101; 101; 102; 102; 103]; Abandon 12; Reply; Heard 100; sendAll 20 [103]; Receive 20 0].

(** C38: the encoder evicts entries the decoder has not acknowledged, so more than
    the table holds can be on its way, and a required insert count is then read
    as a smaller one: here a section of the field "g" is decoded, without an
    error, to the field "a". Every event but the last may happen when it does
    ([allowed]). *)
Theorem required_insert_count_confused :
  allowed sumHash 100 1 (start 100 100 1) (take 18 wrapRun) = true /\
  option_map (fun s => (of_stream 20 (sends s), of_stream 20 (got s), Counts (enc s))) (run sumHash 100 1 (start 100 100 1) wrapRun) = Some ([[fld 103]], [[fld 97]], (7, 1)).
Proof. split; vm_compute; reflexivity. Qed.

End QLimits.
