(* ===== verification/QpackFlush.v ===== *)
(** * Writing the encoder stream (src/http3/qpack/encoder.go, [flush])

    Goroutines that make instructions append them to [out] under the lock; one of
    them at a time writes, with the lock let go of, and two arrays take turns.
    Slices share arrays here: an append writes into the array it has room in, and
    what a write finds is what the array holds then. A run is any interleaving of
    goroutines that make instructions, pieces of a write, and the writer taking
    the lock again, after a write that went through or one that failed: [flush]
    ignores its error and goes on. *)

From S2P Require Import Prelude.
From stdpp Require Import base list numbers gmap.
From Stdlib Require Import ZArith Lia.

Module QFlush.

(** ** Slices and arrays *)

(** A slice from the start of an array; [None] is nil. *)
Record slice : Type := mkSlice { arr : nat; slen : nat }.

Notation heap := (list bytes).

Definition contents (h : heap) (s : option slice) : bytes :=
  match s with None => [] | Some s => take (slen s) (default [] (h !! arr s)) end.

Definition slength (s : option slice) : nat := match s with None => 0 | Some s => slen s end.

(** [s[:0]]. *)
Definition reslice (s : option slice) : option slice := match s with None => None | Some s => Some (mkSlice (arr s) 0) end.

(** [append], in place where the array has room and otherwise into a new array
    with room for [extra] more. *)
Definition append (h : heap) (s : option slice) (x : bytes) (extra : nat) : heap * option slice :=
  let grown := (h ++ [contents h s ++ x ++ replicate extra 0%Z], Some (mkSlice (length h) (slength s + length x))) in
  match s with
  | None => if (length x =? 0)%nat then (h, None) else grown
  | Some s0 =>
      let a := default [] (h !! arr s0) in
      if (slen s0 + length x <=? length a)%nat
      then (<[arr s0 := take (slen s0) a ++ x ++ drop (slen s0 + length x) a]> h, Some (mkSlice (arr s0) (slen s0 + length x)))
      else grown
  end.

(** ** The encoder's part of the state *)

Record st : Type := mkSt {
  mem : heap;
  out : option slice;
  spare : option slice;
  flushing : bool;
  (** What the goroutine in [flush] took, and how much of it is written. *)
  writing : option (slice * nat);
  (** What writes were given, in order, and whether each piece went out. *)
  pieces : list (bool * bytes);
  (** All that was ever appended. *)
  made : bytes
}.

(** What the stream carries, and what it would had no write failed. *)
Definition wire (s : st) : bytes := mjoin (map snd (filter (fun p => fst p = true) (pieces s))).
Definition tried (s : st) : bytes := mjoin (map snd (pieces s)).

Definition init : st := mkSt [] None None false None [] [].

(** The head of the loop, under the lock. *)
Definition loopHead (s : st) : st :=
  match out s with
  | Some o => if (slen o =? 0)%nat then mkSt (mem s) (out s) (spare s) false None (pieces s) (made s) else mkSt (mem s) (reslice (spare s)) None true (Some (o, 0%nat)) (pieces s) (made s)
  | None => mkSt (mem s) (out s) (spare s) false None (pieces s) (made s)
  end.

(** [flush], up to the first time it lets go of the lock. *)
Definition flush (s : st) : st := if flushing s || (slength (out s) =? 0)%nat then s else loopHead s.

(** A goroutine that makes the instructions [x] and flushes. *)
Definition make (s : st) (x : bytes) (extra : nat) : st :=
  let '(h, o) := append (mem s) (out s) x extra in
  flush (mkSt h o (spare s) (flushing s) (writing s) (pieces s) (made s ++ x)).

(** The next [n] bytes of the write. *)
Definition write (s : st) (n : nat) : st :=
  match writing s with
  | None => s
  | Some (o, pos) => let b := take n (drop pos (contents (mem s) (Some o))) in mkSt (mem s) (out s) (spare s) (flushing s) (Some (o, pos + length b)%nat) (pieces s ++ [(true, b)]) (made s)
  end.

(** The lock again, the spare array, and the loop. *)
Definition relock (s : st) (o : slice) : st :=
  loopHead (mkSt (mem s) (out s) (match spare s with None => reslice (Some o) | Some _ => spare s end) (flushing s) (writing s) (pieces s) (made s)).

(** The write is over: all of it went out, or, where it failed, the rest never
    does. *)
Definition written (s : st) : st :=
  match writing s with Some (o, pos) => if (pos =? slen o)%nat then relock s o else s | None => s end.

Definition failed (s : st) : st :=
  match writing s with
  | Some (o, pos) => relock (mkSt (mem s) (out s) (spare s) (flushing s) (writing s) (pieces s ++ [(false, drop pos (contents (mem s) (Some o)))]) (made s)) o
  | None => s
  end.

Inductive step : st -> st -> Prop :=
| step_make s x extra : step s (make s x extra)
| step_write s n : step s (write s n)
| step_written s : step s (written s)
| step_failed s : step s (failed s).

Inductive reachable : st -> Prop :=
| reach_init : reachable init
| reach_step s s' : reachable s -> step s s' -> reachable s'.

(** ** The invariant *)

(** A slice lies within its array. *)
Definition fits (h : heap) (s : option slice) : Prop :=
  match s with None => True | Some s => exists a, h !! arr s = Some a /\ slen s <= length a end.

(** Two slices do not share an array. *)
Definition apart (s1 s2 : option slice) : Prop :=
  match s1, s2 with Some s1, Some s2 => arr s1 <> arr s2 | _, _ => True end.

Record flush_ok (s : st) : Prop := {
  f_out : fits (mem s) (out s);
  f_spare : fits (mem s) (spare s);
  f_apart : apart (out s) (spare s);
  f_empty : slength (spare s) = 0;
  f_write : match writing s with
            | None => flushing s = false /\ contents (mem s) (out s) = [] /\ made s = tried s
            | Some (o, pos) => flushing s = true /\ fits (mem s) (Some o) /\ apart (out s) (Some o) /\ apart (spare s) (Some o) /\ pos <= slen o /\
                made s = tried s ++ drop pos (contents (mem s) (Some o)) ++ contents (mem s) (out s)
            end
}.

Lemma tried_snoc m o sp f w ps b md x : tried (mkSt m o sp f w (ps ++ [(b, x)]) md) = mjoin (map snd ps) ++ x.
Proof. unfold tried. cbn [pieces]. rewrite map_app, join_app. cbn. now rewrite app_nil_r. Qed.

Lemma contents_length h s : fits h s -> length (contents h s) = slength s.
Proof. destruct s as [s|]; cbn; [|reflexivity]. intros (a & -> & Ha). cbn. rewrite length_take. lia. Qed.

(** What an append does to its slice, and that it leaves others alone. *)
Lemma append_spec h s x extra h' s' :
  append h s x extra = (h', s') -> fits h s ->
  fits h' s' /\ contents h' s' = contents h s ++ x /\ slength s' = slength s + length x /\
  forall o, fits h o -> apart s o -> fits h' o /\ contents h' o = contents h o /\ apart s' o.
Proof.
  intros Ha Hs.
  assert (forall o, fits h o -> forall c, fits (h ++ [c]) o /\ contents (h ++ [c]) o = contents h o /\ (forall n, apart (Some (mkSlice (length h) n)) o)) as Hnew.
  { intros [o|] Ho c; cbn in *; [|auto]. destruct Ho as (a & Ea & Hl). pose proof (lookup_lt_Some _ _ _ Ea). rewrite lookup_app_l by lia. rewrite Ea. split; [eauto|]. split; [reflexivity|]. intros n. lia. }
  assert (h' = h ++ [contents h s ++ x ++ replicate extra 0%Z] -> s' = Some (mkSlice (length h) (slength s + length x)) ->
    fits h' s' /\ contents h' s' = contents h s ++ x /\ slength s' = slength s + length x /\ forall o, fits h o -> apart s o -> fits h' o /\ contents h' o = contents h o /\ apart s' o) as Hgrown.
  { intros -> ->. pose proof (contents_length h s Hs) as Hlen. cbn. rewrite lookup_app_r, Nat.sub_diag by lia. cbn. splits.
    - eexists. split; [reflexivity|]. rewrite !length_app. lia.
    - rewrite app_assoc. apply take_app_length'. rewrite length_app. lia.
    - reflexivity.
    - intros o Ho _. destruct (Hnew o Ho (contents h s ++ x ++ replicate extra 0%Z)) as (H1 & H2 & H3). split; [exact H1|]. split; [exact H2|exact (H3 0)]. }
  unfold append in Ha. destruct s as [s|].
  - cbn [fits] in Hs. destruct Hs as (a & Ea & Hl). rewrite Ea in Ha. change (default [] (Some a)) with a in Ha. cbv zeta in Ha. destruct (Nat.leb_spec (slen s + length x) (length a)); injection Ha as <- <-; [|apply Hgrown; reflexivity].
    pose proof (lookup_lt_Some _ _ _ Ea) as Hlt. cbn. rewrite list_lookup_insert_eq, Ea by exact Hlt. cbn. splits.
    + eexists. split; [reflexivity|]. rewrite !length_app, length_take, length_drop. lia.
    + rewrite app_assoc. apply take_app_length'. rewrite length_app, length_take. lia.
    + reflexivity.
    + intros [o|] Ho Hap; cbn in *; [|auto]. rewrite list_lookup_insert_ne by exact Hap. auto.
  - destruct (Nat.eqb_spec (length x) 0) as [E|]; injection Ha as <- <-; [|apply Hgrown; reflexivity]. destruct x; [|discriminate]. cbn. splits; auto.
Qed.

Lemma reslice_fits h s : fits h s -> fits h (reslice s).
Proof. destruct s as [s|]; cbn; [|auto]. intros (a & E & _). exists a. split; [exact E|lia]. Qed.

Lemma empty_contents h s : slength s = 0 -> contents h s = [].
Proof. destruct s as [s|]; cbn; [intros ->; reflexivity|reflexivity]. Qed.

(** The head of the loop, with all that was taken before written. *)
Lemma loopHead_ok s :
  fits (mem s) (out s) -> fits (mem s) (spare s) -> apart (out s) (spare s) -> slength (spare s) = 0 -> made s = tried s ++ contents (mem s) (out s) -> flush_ok (loopHead s).
Proof.
  intros Ho Hs Ha He Hm. unfold loopHead. destruct (out s) as [o|] eqn:Eo; [destruct (Nat.eqb_spec (slen o) 0) as [E0|Hne]|].
  - pose proof (empty_contents (mem s) (Some o) E0) as Ec. split; cbn [mem out spare flushing writing pieces made]; rewrite ?Eo; auto. splits; auto. now rewrite Hm, Ec, app_nil_r.
  - split; cbn [mem out spare flushing writing pieces made]; auto using reslice_fits; [cbn; auto|destruct (spare s); exact I|]. splits; auto; [destruct (spare s); cbn in *; auto|exact I|lia|].
    rewrite drop_0, Hm. f_equal. rewrite (empty_contents _ (reslice (spare s))); [now rewrite app_nil_r|destruct (spare s); reflexivity].
  - split; cbn [mem out spare flushing writing pieces made]; rewrite ?Eo; auto. splits; auto. now rewrite Hm, app_nil_r.
Qed.

Lemma make_ok s x extra : flush_ok s -> flush_ok (make s x extra).
Proof.
  intros [Ho Hs Ha He Hw]. unfold make. destruct (append (mem s) (out s) x extra) as [h o] eqn:E. destruct (append_spec _ _ _ _ _ _ E Ho) as (Ho' & Ec & El & Hoth). destruct (Hoth (spare s) Hs Ha) as (Hs' & _ & Ha').
  unfold flush. cbn [flushing out]. destruct (writing s) as [[w pos]|] eqn:Ew.
  - destruct Hw as (Ef & Hf & Hap & Hap2 & Hp & Hm). rewrite Ef. cbn [orb]. destruct (Hoth (Some w) Hf Hap) as (Hf' & Ec' & Hap'). split; cbn [mem out spare flushing writing pieces made]; auto. rewrite Ec', Ec, Hm. splits; auto. now rewrite !app_assoc.
  - destruct Hw as (Ef & Eo & Hm). rewrite Ef. cbn [orb]. rewrite Eo in Ec. destruct (Nat.eqb_spec (slength o) 0) as [E0|].
    + split; cbn [mem out spare flushing writing pieces made]; auto. rewrite (empty_contents h o E0) in Ec |- *. cbn in Ec. subst x. rewrite app_nil_r. auto.
    + apply loopHead_ok; cbn [mem out spare flushing writing pieces made]; auto. now rewrite Ec, Hm.
Qed.

Lemma writing_ok s n : flush_ok s -> flush_ok (write s n).
Proof.
  intros [Ho Hs Ha He Hw]. unfold write. destruct (writing s) as [[w pos]|] eqn:Ew; [|split; rewrite ?Ew; auto].
  destruct Hw as (Ef & Hf & Hap & Hap2 & Hp & Hm). pose proof (contents_length _ _ Hf) as Hlen. cbn [slength] in Hlen. split; cbn [mem out spare flushing writing pieces made]; auto. splits; auto.
  - rewrite length_take, length_drop. lia.
  - rewrite tried_snoc, Hm, <- !app_assoc. unfold tried. f_equal. rewrite length_take, length_drop, app_assoc. f_equal. rewrite <- drop_drop. rewrite <- (take_drop n (drop pos _)) at 1. f_equal.
    destruct (Nat.le_ge_cases n (length (contents (mem s) (Some w)) - pos)); [now rewrite Nat.min_l by lia|]. rewrite Nat.min_r by lia. rewrite !drop_ge; [reflexivity|rewrite length_drop; lia|rewrite length_drop; lia].
Qed.

Lemma relock_ok s o :
  fits (mem s) (out s) -> fits (mem s) (spare s) -> apart (out s) (spare s) -> slength (spare s) = 0 ->
  fits (mem s) (Some o) -> apart (out s) (Some o) -> made s = tried s ++ contents (mem s) (out s) -> flush_ok (relock s o).
Proof.
  intros Ho Hs Ha He Hf Hap Hm. unfold relock. destruct (spare s) as [sp|] eqn:Es; apply loopHead_ok; cbn [mem out spare flushing writing pieces made]; auto.
  now apply (reslice_fits (mem s) (Some o)).
Qed.

Lemma relocked_ok s : flush_ok s -> flush_ok (written s).
Proof.
  intros [Ho Hs Ha He Hw]. unfold written. destruct (writing s) as [[w pos]|] eqn:Ew; [|split; rewrite ?Ew; auto].
  destruct (Nat.eqb_spec pos (slen w)) as [->|]; [|split; rewrite ?Ew; auto]. destruct Hw as (Ef & Hf & Hap & _ & Hp & Hm). pose proof (contents_length _ _ Hf) as Hlen. cbn [slength] in Hlen.
  rewrite drop_ge in Hm by lia. now apply relock_ok.
Qed.

Lemma failed_ok s : flush_ok s -> flush_ok (failed s).
Proof.
  intros [Ho Hs Ha He Hw]. unfold failed. destruct (writing s) as [[w pos]|] eqn:Ew; [|split; rewrite ?Ew; auto].
  destruct Hw as (Ef & Hf & Hap & _ & _ & Hm). apply relock_ok; cbn [mem out spare made]; auto. now rewrite tried_snoc, Hm, <- app_assoc.
Qed.

Lemma reachable_ok s : reachable s -> flush_ok s.
Proof.
  induction 1 as [|s s' _ IH H]; [split; cbn; auto|]. destruct H; auto using make_ok, writing_ok, relocked_ok, failed_ok.
Qed.

Lemma wire_tried (ps : list (bool * bytes)) : sublist (mjoin (map snd (filter (fun p => fst p = true) ps))) (mjoin (map snd ps)).
Proof.
  induction ps as [|[b x] ps IH]; [constructor|]. rewrite filter_cons. destruct (decide (fst (b, x) = true)); cbn; [now apply sublist_app|now apply sublist_inserts_l].
Qed.

Lemma filter_all (ps : list (bool * bytes)) : Forall (fun p => fst p = true) ps -> filter (fun p => fst p = true) ps = ps.
Proof. induction 1 as [|p ps Hp _ IH]; [reflexivity|]. rewrite filter_cons, decide_True by exact Hp. now rewrite IH. Qed.

(** ** Properties *)

(** C37: however goroutines that make instructions interleave with the one that
    writes, the stream carries the instructions in the order they were made: what
    writes were given, what is left of the one under way, and what is still to be
    taken are together all that was made; the stream carries all of what they
    were given as long as no write fails, and otherwise leaves out what the
    failed ones did not write. No append touches the array a write reads, and when no
    goroutine is writing nothing is left behind. *)
Theorem flush_in_order s :
  reachable s ->
  made s = tried s ++ (match writing s with None => [] | Some (o, pos) => drop pos (contents (mem s) (Some o)) end) ++ contents (mem s) (out s) /\
  (flushing s = false -> tried s = made s) /\
  (Forall (fun p => fst p = true) (pieces s) -> wire s = tried s) /\ sublist (wire s) (made s) /\
  match writing s with None => True | Some (o, _) => apart (out s) (Some o) /\ apart (spare s) (Some o) end.
Proof.
  intros Hs. apply reachable_ok in Hs as [_ _ _ _ Hw]. assert (Forall (fun p => fst p = true) (pieces s) -> wire s = tried s) as Hall by (intros H; unfold wire, tried; now rewrite filter_all).
  pose proof (wire_tried (pieces s)) as Hsub. change (sublist (wire s) (tried s)) in Hsub. destruct (writing s) as [[o pos]|].
  - destruct Hw as (Ef & _ & Hap & Hap2 & _ & Hm). splits; auto; [rewrite Ef; discriminate|]. rewrite Hm. now apply sublist_inserts_r.
  - destruct Hw as (Ef & Eo & Hm). rewrite Eo, Hm. splits; auto. cbn. now rewrite app_nil_r.
Qed.

(** Two makers while the first writes, the arrays taking turns, and a write that
    fails after a byte. *)
Definition turns : st :=
  failed (write (make (written (write (make (written (write (make (write (make (make init [1; 2]%Z 4) [3]%Z 2) 1) [4; 5]%Z 0) 9)) [6]%Z 0) 9)) [7]%Z 0) 1).

Lemma turns_reachable : reachable turns.
Proof. unfold turns. repeat (eapply reach_step; [|constructor]). constructor. Qed.

Lemma flush_in_order_witness :
  tried turns ++ (match writing turns with None => [] | Some (o, pos) => drop pos (contents (mem turns) (Some o)) end) ++ contents (mem turns) (out turns) = [1; 2; 3; 4; 5; 6; 7]%Z /\
  sublist (wire turns) [1; 2; 3; 4; 5; 6; 7]%Z.
Proof. destruct (flush_in_order turns turns_reachable) as (<- & _ & _ & Hs & _). split; [reflexivity|exact Hs]. Defined.

End QFlush.
