(* ===== verification/H2Frame.v ===== *)
(** * HTTP/2 frames (src/http/h2_frame.go, src/http/h2_server.go)

    The frames of RFC 9113 as they are written and parsed, and the reading side
    of a server up to the handlers: the preface, the loop over the frames of a
    read, the checks of each frame, and the putting together of header blocks
    from HEADERS and CONTINUATION. What each frame makes the server do is the
    [action] it is handed to. *)

From S2P Require Import Prelude.
From stdpp Require Import base list numbers.
From Stdlib Require Import ZArith Lia.

Local Open Scope Z_scope.
Local Open Scope go_scope.

Module H2.

(** ** Constants *)

Definition h2FrameHeaderLen : Z := 9.
Definition h2DefaultMaxFrameSize : Z := 16384.
Definition h2MaxFrameSizeLimit : Z := 2 ^ 24 - 1.
Definition h2MaxWindow : Z := 2 ^ 31 - 1.

Definition h2FrameData : Z := 0x0.
Definition h2FrameHeaders : Z := 0x1.
Definition h2FramePriority : Z := 0x2.
Definition h2FrameRSTStream : Z := 0x3.
Definition h2FrameSettings : Z := 0x4.
Definition h2FramePushPromise : Z := 0x5.
Definition h2FramePing : Z := 0x6.
Definition h2FrameGoAway : Z := 0x7.
Definition h2FrameWindowUpdate : Z := 0x8.
Definition h2FrameContinuation : Z := 0x9.

Definition h2FlagEndStream : Z := 0x1.
Definition h2FlagAck : Z := 0x1.
Definition h2FlagEndHeaders : Z := 0x4.
Definition h2FlagPadded : Z := 0x8.
Definition h2FlagPriority : Z := 0x20.

Definition H2ProtocolError : Z := 0x1.
Definition H2FrameSizeError : Z := 0x6.
Definition H2EnhanceYourCalm : Z := 0xb.

(** H2ConnError and H2StreamError, by their codes. *)
Inductive herr : Type :=
| ConnErr (code : Z)
| StreamErr (id code : Z).

#[export] Instance herr_eq : EqDecision herr.
Proof. solve_decision. Defined.

(** ** Reading *)

Record h2Frame : Type := mkFrame {
  typ : Z;
  flags : Z;
  streamID : Z;
  payload : bytes;
  f_length : Z
}.

Definition zeroFrame : h2Frame := mkFrame 0 0 0 [] 0.

Definition has (f : h2Frame) (flag : Z) : bool := negb (flags f .& flag =? 0).

(** [b[i]], in range. *)
Definition at_ (b : bytes) (i : nat) : Z := nth i b 0.

(** The padding taken off the types that may have it. *)
Definition unpad (f : h2Frame) : res herr h2Frame :=
  if has f h2FlagPadded && ((typ f =? h2FrameData) || (typ f =? h2FrameHeaders) || (typ f =? h2FramePushPromise)) then
    match payload f with
    | [] => Err (ConnErr H2FrameSizeError)
    | pad :: _ =>
        if len (payload f) <=? pad then Err (ConnErr H2ProtocolError)
        else Ok (mkFrame (typ f) (flags f) (streamID f) (ztake (len (payload f) - pad - 1) (zdrop 1 (payload f))) (f_length f))
    end
  else Ok f.

(** The frame and the bytes it took: none of a frame that is not all there. *)
Definition h2ReadFrame (buf : bytes) (maxFrameSize : Z) : res herr (h2Frame * Z) :=
  if len buf <? h2FrameHeaderLen then Ok (zeroFrame, 0)
  else
    let length := be (take 3 buf) in
    if maxFrameSize <? length then Err (ConnErr H2FrameSizeError)
    else
      let end_ := h2FrameHeaderLen + length in
      if len buf <? end_ then Ok (zeroFrame, 0)
      else
        let f := mkFrame (at_ buf 3) (at_ buf 4) (be (take 4 (drop 5 buf)) .& 0x7fffffff) (ztake length (zdrop h2FrameHeaderLen buf)) length in
        match unpad f with Err e => Err e | Ok f => Ok (f, end_) end.

(** ** Writing *)

Definition h2AppendFrameHeader (dst : bytes) (typ flags streamID length : Z) : bytes :=
  dst ++ [u8 (length .>> 16); u8 (length .>> 8); u8 length; u8 typ; flags; u8 (streamID .>> 24) .& 0x7f; u8 (streamID .>> 16); u8 (streamID .>> 8); u8 streamID].

Definition h2AppendSettings (dst : bytes) (settings : list (Z * Z)) : bytes :=
  fold_left (fun dst s => (dst ++ putBE 2 (u16 (fst s))) ++ putBE 4 (snd s)) settings (h2AppendFrameHeader dst h2FrameSettings 0 0 (6 * len settings)).

Definition h2AppendWindowUpdate (dst : bytes) (streamID increment : Z) : bytes :=
  h2AppendFrameHeader dst h2FrameWindowUpdate 0 streamID 4 ++ putBE 4 (increment .& 0x7fffffff).

Definition h2AppendRSTStream (dst : bytes) (streamID code : Z) : bytes :=
  h2AppendFrameHeader dst h2FrameRSTStream 0 streamID 4 ++ putBE 4 code.

Definition h2AppendGoAway (dst : bytes) (lastStreamID code : Z) (debug : bytes) : bytes :=
  ((h2AppendFrameHeader dst h2FrameGoAway 0 0 (8 + len debug) ++ putBE 4 (lastStreamID .& 0x7fffffff)) ++ putBE 4 code) ++ debug.

(** The frames of a header block, from one of type [typ] on. *)
Fixpoint headerFrames (fuel : nat) (dst : bytes) (typ flags streamID : Z) (block : bytes) (maxFrameSize : Z) : option bytes :=
  match fuel with
  | O => None
  | S fuel =>
      let chunk := if maxFrameSize <? len block then ztake maxFrameSize block else block in
      let block := zdrop (len chunk) block in
      let f := if len block =? 0 then flags .| h2FlagEndHeaders else flags in
      let dst := h2AppendFrameHeader dst typ f streamID (len chunk) ++ chunk in
      if len block =? 0 then Some dst else headerFrames fuel dst h2FrameContinuation 0 streamID block maxFrameSize
  end.

Definition h2AppendHeaderBlock (dst : bytes) (streamID : Z) (block : bytes) (endStream : bool) (maxFrameSize : Z) : option bytes :=
  headerFrames (S (length block)) dst h2FrameHeaders (if endStream then h2FlagEndStream else 0) streamID block maxFrameSize.

(** A slice past its end, or with an end below zero, panics. *)
Definition h2AppendPushPromise (dst : bytes) (streamID promisedID : Z) (block : bytes) (maxFrameSize : Z) : option bytes :=
  if maxFrameSize - 4 <? 0 then None
  else
    let chunk := ztake (Z.min (len block) (maxFrameSize - 4)) block in
    let block := zdrop (len chunk) block in
    let flags := if len block =? 0 then h2FlagEndHeaders else 0 in
    let dst := h2AppendFrameHeader dst h2FramePushPromise flags streamID (4 + len chunk) in
    let dst := (dst ++ putBE 4 (promisedID .& 0x7fffffff)) ++ chunk in
    if len block =? 0 then Some dst else headerFrames (length block) dst h2FrameContinuation 0 streamID block maxFrameSize.

(** ** SETTINGS *)

Section ParseSettings.
Context {A : Type} (apply : A -> Z -> Z -> A * option herr).

Fixpoint settingsLoop (fuel : nat) (a : A) (payload : bytes) : option (A * option herr) :=
  if len payload =? 0 then Some (a, None)
  else
    match fuel with
    | O => None
    | S fuel =>
        match apply a (be (take 2 payload)) (be (take 4 (drop 2 payload))) with
        | (a, Some e) => Some (a, Some e)
        | (a, None) => settingsLoop fuel a (zdrop 6 payload)
        end
    end.

Definition h2ParseSettings (a : A) (payload : bytes) : option (A * option herr) :=
  if negb (len payload mod 6 =? 0) then Some (a, Some (ConnErr H2FrameSizeError)) else settingsLoop (length payload) a payload.

End ParseSettings.

(** ** A server's reading side *)

(** What a frame is handed to: [handleData] and the like, with what it takes. *)
Inductive action : Type :=
| Block (id : Z) (block : bytes) (endStream : bool)
| Data (f : h2Frame)
| RSTStream (f : h2Frame)
| Settings (f : h2Frame)
| Pong (payload : bytes)
| PingAck (payload : bytes)
| GoingAway
| WindowUpdate (f : h2Frame)
| Nothing.

(** What a connection's reader does: an action, the reset of a stream for an
    error made on it, or its end. *)
Inductive event : Type :=
| Act (a : action)
| Reset (id code : Z)
| Fail (code : Z).

Record reader : Type := mkReader {
  in_ : bytes;
  gotPreface : bool;
  gotSettings : bool;
  settingsSeen : bool;
  contStream : Z;
  contEndStream : bool;
  contBlock : bytes;
  contFrames : Z;
  closed : bool;
  (** The answers the flood budgets give, in the order they are asked. *)
  budget : list bool
}.

Definition with_in (r : reader) (x : bytes) : reader := mkReader x (gotPreface r) (gotSettings r) (settingsSeen r) (contStream r) (contEndStream r) (contBlock r) (contFrames r) (closed r) (budget r).
Definition with_preface (r : reader) : reader := mkReader (in_ r) true (gotSettings r) (settingsSeen r) (contStream r) (contEndStream r) (contBlock r) (contFrames r) (closed r) (budget r).
Definition with_settings (r : reader) : reader := mkReader (in_ r) (gotPreface r) true (settingsSeen r) (contStream r) (contEndStream r) (contBlock r) (contFrames r) (closed r) (budget r).
Definition with_seen (r : reader) : reader := mkReader (in_ r) (gotPreface r) (gotSettings r) true (contStream r) (contEndStream r) (contBlock r) (contFrames r) (closed r) (budget r).
Definition with_cont (r : reader) (id : Z) (es : bool) (b : bytes) (n : Z) : reader := mkReader (in_ r) (gotPreface r) (gotSettings r) (settingsSeen r) id es b n (closed r) (budget r).
Definition with_closed (r : reader) : reader := mkReader [] (gotPreface r) (gotSettings r) (settingsSeen r) (contStream r) (contEndStream r) (contBlock r) (contFrames r) true (budget r).
Definition with_budget (r : reader) (x : list bool) : reader := mkReader (in_ r) (gotPreface r) (gotSettings r) (settingsSeen r) (contStream r) (contEndStream r) (contBlock r) (contFrames r) (closed r) x.

(** A flood budget asked: [glitch] or [resetCounted]. *)
Definition take_ (r : reader) : reader * option herr :=
  match budget r with
  | [] => (r, None)
  | b :: l => (with_budget r l, if b then None else Some (ConnErr H2EnhanceYourCalm))
  end.

Section Server.
Context (maxFrame maxHeaderBytes maxContFrames : Z).

(** The fields of a deprecated priority taken off. *)
Definition stripPriority (f : h2Frame) : res herr bytes :=
  if has f h2FlagPriority then
    if len (payload f) <? 5 then Err (ConnErr H2FrameSizeError)
    else if be (take 4 (payload f)) .& 0x7fffffff =? streamID f then Err (StreamErr (streamID f) H2ProtocolError)
    else Ok (zdrop 5 (payload f))
  else Ok (payload f).

Definition handleHeaders (r : reader) (f : h2Frame) : reader * res herr action :=
  if (streamID f =? 0) || (streamID f mod 2 =? 0) then (r, Err (ConnErr H2ProtocolError))
  else
    match stripPriority f with
    | Err e => (r, Err e)
    | Ok block =>
        if negb (has f h2FlagEndHeaders) then
          if maxHeaderBytes <? len block then (r, Err (ConnErr H2EnhanceYourCalm))
          else
            let '(r, e) := if len block =? 0 then take_ r else (r, None) in
            match e with
            | Some e => (r, Err e)
            | None => (with_cont r (streamID f) (has f h2FlagEndStream) block 0, Ok Nothing)
            end
        else (r, Ok (Block (streamID f) block (has f h2FlagEndStream)))
    end.

Definition handleContinuation (r : reader) (f : h2Frame) : reader * res herr action :=
  if contStream r =? 0 then (r, Err (ConnErr H2ProtocolError))
  else
    let r := with_cont r (contStream r) (contEndStream r) (contBlock r ++ payload f) (contFrames r) in
    if maxHeaderBytes <? len (contBlock r) then (r, Err (ConnErr H2EnhanceYourCalm))
    else
      let r := with_cont r (contStream r) (contEndStream r) (contBlock r) (contFrames r + 1) in
      if maxContFrames <? contFrames r then (r, Err (ConnErr H2EnhanceYourCalm))
      else if negb (has f h2FlagEndHeaders) then
        if len (payload f) =? 0 then let '(r, e) := take_ r in (r, match e with Some e => Err e | None => Ok Nothing end)
        else (r, Ok Nothing)
      else (with_cont r 0 (contEndStream r) (contBlock r) (contFrames r), Ok (Block (contStream r) (contBlock r) (contEndStream r))).

(** The front of [handleSettings]. *)
Definition settingsFrame (r : reader) (f : h2Frame) : reader * res herr action :=
  if negb (streamID f =? 0) then (r, Err (ConnErr H2ProtocolError))
  else if has f h2FlagAck then if negb (len (payload f) =? 0) then (r, Err (ConnErr H2FrameSizeError)) else (r, Ok (Settings f))
  else
    let '(r, e) := if settingsSeen r then take_ r else (r, None) in
    match e with Some e => (r, Err e) | None => (with_seen r, Ok (Settings f)) end.

Definition pingFrame (r : reader) (f : h2Frame) : reader * res herr action :=
  if negb (streamID f =? 0) then (r, Err (ConnErr H2ProtocolError))
  else if negb (len (payload f) =? 8) then (r, Err (ConnErr H2FrameSizeError))
  else if negb (has f h2FlagAck) then let '(r, e) := take_ r in (r, match e with Some e => Err e | None => Ok (Pong (payload f)) end)
  else (r, Ok (PingAck (payload f))).

(** The front of [handleData]. *)
Definition dataFrame (r : reader) (f : h2Frame) : reader * res herr action :=
  if streamID f =? 0 then (r, Err (ConnErr H2ProtocolError))
  else
    let '(r, e) := if (len (payload f) =? 0) && negb (has f h2FlagEndStream) then take_ r else (r, None) in
    (r, match e with Some e => Err e | None => Ok (Data f) end).

Definition handleFrame (r : reader) (f : h2Frame) : reader * res herr action :=
  if negb (contStream r =? 0) && (negb (typ f =? h2FrameContinuation) || negb (streamID f =? contStream r)) then (r, Err (ConnErr H2ProtocolError))
  else if negb (gotSettings r) && (negb (typ f =? h2FrameSettings) || has f h2FlagAck) then (r, Err (ConnErr H2ProtocolError))
  else
    let r := if gotSettings r then r else with_settings r in
    if typ f =? h2FrameData then dataFrame r f
    else if typ f =? h2FrameHeaders then handleHeaders r f
    else if typ f =? h2FrameContinuation then handleContinuation r f
    else if typ f =? h2FramePriority then
      (r, if streamID f =? 0 then Err (ConnErr H2ProtocolError)
          else if negb (len (payload f) =? 5) then Err (StreamErr (streamID f) H2FrameSizeError)
          else if be (take 4 (payload f)) .& 0x7fffffff =? streamID f then Err (StreamErr (streamID f) H2ProtocolError)
          else Ok Nothing)
    else if typ f =? h2FrameRSTStream then
      (r, if streamID f =? 0 then Err (ConnErr H2ProtocolError) else if negb (len (payload f) =? 4) then Err (ConnErr H2FrameSizeError) else Ok (RSTStream f))
    else if typ f =? h2FrameSettings then settingsFrame r f
    else if typ f =? h2FramePushPromise then (r, Err (ConnErr H2ProtocolError))
    else if typ f =? h2FramePing then pingFrame r f
    else if typ f =? h2FrameGoAway then
      (r, if negb (streamID f =? 0) then Err (ConnErr H2ProtocolError) else if len (payload f) <? 8 then Err (ConnErr H2FrameSizeError) else Ok GoingAway)
    else if typ f =? h2FrameWindowUpdate then
      (r, if negb (len (payload f) =? 4) then Err (ConnErr H2FrameSizeError) else Ok (WindowUpdate f))
    else (r, Ok Nothing).

(** [handleError] *)
Definition handleError (r : reader) (e : herr) : reader * list event :=
  match e with
  | StreamErr id code => let '(r, e) := take_ r in match e with None => (r, [Reset id code]) | Some (ConnErr c) | Some (StreamErr _ c) => (with_closed r, [Reset id code; Fail c]) end
  | ConnErr code => (with_closed r, [Fail code])
  end.

(** The loop of [feed] over the frames of what was read. *)
Fixpoint feedLoop (fuel : nat) (r : reader) : option (reader * list event) :=
  match fuel with
  | O => None
  | S fuel =>
      match h2ReadFrame (in_ r) maxFrame with
      | Err e => let '(r, evs) := handleError r e in if closed r then Some (r, evs) else match feedLoop fuel r with None => None | Some (r, evs') => Some (r, evs ++ evs') end
      | Ok (f, n) =>
          if n =? 0 then Some (r, [])
          else
            let r := with_in r (zdrop n (in_ r)) in
            let '(r, evs) := match handleFrame r f with
                             | (r, Ok a) => (r, [Act a])
                             | (r, Err e) => handleError r e
                             end in
            if closed r then Some (r, evs) else match feedLoop fuel r with None => None | Some (r, evs') => Some (r, evs ++ evs') end
      end
  end.

(** What is read of a connection that has not ended. *)
Definition h2Preface : bytes := str "PRI * HTTP/2.0" ++ [13; 10; 13; 10] ++ str "SM" ++ [13; 10; 13; 10].

Definition feed (r : reader) (data : bytes) : option (reader * list event) :=
  if closed r then Some (r, [])
  else
    let r := with_in r (in_ r ++ data) in
    if negb (gotPreface r) then
      if len (in_ r) <? len h2Preface then Some (r, [])
      else if negb (bool_decide (ztake (len h2Preface) (in_ r) = h2Preface)) then Some (with_closed r, [Fail H2ProtocolError])
      else feedLoop (S (length (in_ r))) (with_in (with_preface r) (zdrop (len h2Preface) (in_ r)))
    else feedLoop (S (length (in_ r))) r.

Fixpoint feeds (r : reader) (reads : list bytes) : option (reader * list event) :=
  match reads with
  | [] => Some (r, [])
  | data :: reads =>
      match feed r data with
      | None => None
      | Some (r, evs) => match feeds r reads with None => None | Some (r, evs') => Some (r, evs ++ evs') end
      end
  end.

(** ** A frame read *)

Lemma ztake_app_l {A} n (x y : list A) : n <= len x -> ztake n (x ++ y) = ztake n x.
Proof. intros H. unfold ztake. apply take_app_le. unfold len in H. lia. Qed.

Lemma zdrop_app_l {A} n (x y : list A) : n <= len x -> zdrop n (x ++ y) = zdrop n x ++ y.
Proof. intros H. unfold zdrop. apply drop_app_le. unfold len in H. lia. Qed.

(** A frame all there, or an error, is the same whatever follows. *)
Lemma readFrame_app m x y : bytes_ok x -> (forall f, h2ReadFrame x m <> Ok (f, 0)) -> h2ReadFrame (x ++ y) m = h2ReadFrame x m.
Proof.
  intros Hx Hne. unfold h2ReadFrame in *. destruct (Z.ltb_spec (len x) h2FrameHeaderLen) as [|H9]; [now destruct (Hne zeroFrame)|]. unfold h2FrameHeaderLen in *. pose proof (len_nonneg y).
  rewrite len_app, (proj2 (Z.ltb_ge (len x + len y) 9)) by lia. assert (9 <= length x)%nat as H9' by (unfold len in H9; lia).
  rewrite (take_app_le x y 3), (drop_app_le x y 5), (take_app_le (drop 5 x) y 4) by (rewrite ?length_drop; lia). assert (0 <= be (take 3 x)) as Hbe by (apply be_bytes; now apply Forall_take). set (n := be (take 3 x)) in *.
  destruct (m <? n); [reflexivity|]. destruct (Z.ltb_spec (len x) (9 + n)) as [|Hn]; [now destruct (Hne zeroFrame)|]. rewrite (proj2 (Z.ltb_ge (len x + len y) (9 + n))) by lia.
  rewrite (zdrop_app_l 9 x y), (ztake_app_l n (zdrop 9 x) y) by (rewrite ?len_zdrop; lia). unfold at_. now rewrite !app_nth1 by lia.
Qed.

Inductive read_spec (x : bytes) (m : Z) : res herr (h2Frame * Z) -> Prop :=
| read_part : len x < 9 + Z.max 0 m -> read_spec x m (Ok (zeroFrame, 0))
| read_err c : read_spec x m (Err (ConnErr c))
| read_frame f n : 9 <= n <= len x -> n <= 9 + m -> bytes_ok (payload f) -> len (payload f) <= m -> read_spec x m (Ok (f, n)).

Lemma readFrame_spec x m : bytes_ok x -> read_spec x m (h2ReadFrame x m).
Proof.
  intros Hx. unfold h2ReadFrame, h2FrameHeaderLen. destruct (Z.ltb_spec (len x) 9); [constructor; lia|]. assert (0 <= be (take 3 x)) as Hbe by (apply be_bytes; now apply Forall_take). set (n := be (take 3 x)) in *.
  destruct (Z.ltb_spec m n); [constructor|]. destruct (Z.ltb_spec (len x) (9 + n)); [constructor; lia|]. set (p := ztake n (zdrop 9 x)). assert (len p = n) as Hp by (unfold p; apply len_ztake; rewrite len_zdrop; lia).
  assert (bytes_ok p) as Hpb by (unfold p; apply Forall_take; now apply Forall_drop). unfold unpad. cbn [payload typ flags streamID f_length]. destruct (_ && _); [|constructor; cbn; auto; lia].
  destruct p as [|pad p'] eqn:Ep; [constructor|]. destruct (Z.leb_spec (len (pad :: p')) pad) as [|Hpad]; [constructor|]. inversion Hpb as [|? ? Hpad' Hpb']; subst. clear Hpb. rename Hpb' into Hpb. unfold is_byte in Hpad'.
  constructor; cbn [payload]; try lia; [apply Forall_take; exact Hpb|]. change (zdrop 1 (pad :: p')) with p'. rewrite len_cons in Hp, Hpad. rewrite len_cons. rewrite len_ztake; lia.
Qed.

(** ** Frames handled, whatever else was read *)

Lemma take_in r x : take_ (with_in r x) = (with_in (take_ r).1 x, (take_ r).2).
Proof. unfold take_. cbn [budget with_in]. now destruct (budget r). Qed.

Lemma handleFrame_in r x f : handleFrame (with_in r x) f = (with_in (handleFrame r f).1 x, (handleFrame r f).2).
Proof.
  unfold handleFrame. change (contStream (with_in r x)) with (contStream r). change (gotSettings (with_in r x)) with (gotSettings r).
  destruct (_ && (_ || _)); [reflexivity|]. destruct (_ && (_ || _)); [reflexivity|]. set (r1 := if gotSettings r then r else with_settings r).
  assert ((if gotSettings r then with_in r x else with_settings (with_in r x)) = with_in r1 x) as -> by (unfold r1; now destruct (gotSettings r)). clearbody r1.
  destruct (typ f =? h2FrameData).
  { unfold dataFrame. destruct (streamID f =? 0); [reflexivity|]. destruct (_ && _); [|reflexivity]. rewrite take_in. now destruct (take_ r1). }
  destruct (typ f =? h2FrameHeaders).
  { unfold handleHeaders. destruct (_ || _); [reflexivity|]. destruct (stripPriority f) as [block|e]; [|reflexivity].
    destruct (negb _); [|reflexivity]. destruct (maxHeaderBytes <? len block); [reflexivity|]. destruct (len block =? 0); [|reflexivity]. rewrite take_in. destruct (take_ r1) as [r2 [e|]]; reflexivity. }
  destruct (typ f =? h2FrameContinuation).
  { unfold handleContinuation. cbn [contStream contEndStream contBlock contFrames with_in with_cont]. destruct (contStream r1 =? 0); [reflexivity|]. destruct (maxHeaderBytes <? _); [reflexivity|]. destruct (maxContFrames <? _); [reflexivity|]. destruct (negb _); [|reflexivity]. destruct (len (payload f) =? 0); [|reflexivity].
    match goal with |- context [take_ ?a] => match a with with_cont (with_cont (with_in r1 x) ?i ?e ?b ?n) ?i2 ?e2 ?b2 ?n2 => change a with (with_in (with_cont (with_cont r1 i e b n) i2 e2 b2 n2) x) end end. rewrite take_in. destruct (take_ _) as [r2 [e|]]; reflexivity. }
  destruct (typ f =? h2FramePriority); [reflexivity|]. destruct (typ f =? h2FrameRSTStream); [reflexivity|]. destruct (typ f =? h2FrameSettings).
  { unfold settingsFrame. destruct (negb _); [reflexivity|]. destruct (has f h2FlagAck); [now destruct (negb _)|]. change (settingsSeen (with_in r1 x)) with (settingsSeen r1). destruct (settingsSeen r1); [|reflexivity]. rewrite take_in. destruct (take_ r1) as [r2 [e|]]; reflexivity. }
  destruct (typ f =? h2FramePushPromise); [reflexivity|]. destruct (typ f =? h2FramePing).
  { unfold pingFrame. destruct (negb _); [reflexivity|]. destruct (negb _); [reflexivity|]. destruct (negb _); [|reflexivity]. rewrite take_in. destruct (take_ r1) as [r2 [e|]]; reflexivity. }
  now repeat match goal with |- (if ?b then _ else _) = _ => destruct b end.
Qed.

(** One turn of the loop, after a frame. *)
Definition turn (r : reader) (f : h2Frame) : reader * list event :=
  match handleFrame r f with (r, Ok a) => (r, [Act a]) | (r, Err e) => handleError r e end.

Lemma take_keeps r : in_ (take_ r).1 = in_ r /\ closed (take_ r).1 = closed r.
Proof. unfold take_. now destruct (budget r). Qed.

Lemma handleFrame_keeps r f : in_ (handleFrame r f).1 = in_ r /\ closed (handleFrame r f).1 = closed r.
Proof.
  split.
  - pose proof (handleFrame_in r (in_ r) f) as E. replace (with_in r (in_ r)) with r in E by now destruct r. rewrite E. reflexivity.
  - unfold handleFrame, dataFrame, handleHeaders, handleContinuation, settingsFrame, pingFrame, take_. repeat (case_match; simplify_eq; auto).
Qed.

(** A turn ends the connection or keeps what is left to read. *)
Lemma turn_in r x f : closed r = false ->
  (closed (turn r f).1 = true /\ turn (with_in r x) f = turn r f) \/
  (closed (turn r f).1 = false /\ in_ (turn r f).1 = in_ r /\ turn (with_in r x) f = (with_in (turn r f).1 x, (turn r f).2)).
Proof.
  intros Hc. unfold turn. rewrite handleFrame_in. destruct (handleFrame_keeps r f) as [Ei Ec]. destruct (handleFrame r f) as [r1 [a|e]]; cbn [fst snd] in *; [right; cbn; split; [congruence|split; [exact Ei|reflexivity]]|].
  destruct e as [code|id code]; cbn [handleError]; [left; split; reflexivity|]. rewrite take_in. destruct (take_keeps r1) as [Ei1 Ec1]. destruct (take_ r1) as [r2 [[c|i c]|]]; cbn [fst snd] in *; [left; split; reflexivity|left; split; reflexivity|].
  right. split; [congruence|]. split; [congruence|reflexivity].
Qed.

Lemma feedLoop_turn fuel r :
  feedLoop (S fuel) r =
  match h2ReadFrame (in_ r) maxFrame with
  | Err e => let '(r, evs) := handleError r e in if closed r then Some (r, evs) else match feedLoop fuel r with None => None | Some (r, evs') => Some (r, evs ++ evs') end
  | Ok (f, n) => if n =? 0 then Some (r, []) else let '(r, evs) := turn (with_in r (zdrop n (in_ r))) f in if closed r then Some (r, evs) else match feedLoop fuel r with None => None | Some (r, evs') => Some (r, evs ++ evs') end
  end.
Proof. reflexivity. Qed.

Lemma feedLoop_more fuel r z : feedLoop fuel r = Some z -> feedLoop (S fuel) r = Some z.
Proof.
  revert r z. induction fuel as [|fuel IH]; intros r z; [discriminate|]. rewrite feedLoop_turn. intros H. rewrite feedLoop_turn. destruct (h2ReadFrame (in_ r) maxFrame) as [[f n]|e].
  - destruct (n =? 0); [exact H|]. destruct (turn _ f) as [r1 evs]. destruct (closed r1); [exact H|]. destruct (feedLoop fuel r1) as [[r2 evs2]|] eqn:E; [|discriminate]. now rewrite (IH _ _ E).
  - destruct (handleError r e) as [r1 evs]. destruct (closed r1); [exact H|]. destruct (feedLoop fuel r1) as [[r2 evs2]|] eqn:E; [|discriminate]. now rewrite (IH _ _ E).
Qed.

Lemma feedLoop_fuel fuel fuel' r z : feedLoop fuel r = Some z -> (fuel <= fuel')%nat -> feedLoop fuel' r = Some z.
Proof. intros H Hle. induction Hle as [|fuel' _ IH]; [exact H|now apply feedLoop_more]. Qed.

(** The loop ends, by itself: a turn takes a frame. *)
Lemma feedLoop_total fuel r : bytes_ok (in_ r) -> closed r = false -> (length (in_ r) < fuel)%nat -> exists r' evs, feedLoop fuel r = Some (r', evs) /\ bytes_ok (in_ r') /\ (closed r' = false -> len (in_ r') < 9 + Z.max 0 maxFrame).
Proof.
  revert r. induction fuel as [|fuel IH]; intros r Hb Hc Hf; [lia|]. rewrite feedLoop_turn. destruct (readFrame_spec (in_ r) maxFrame Hb) as [Hp|c|f n Hn].
  - exists r, []. rewrite Z.eqb_refl. auto.
  - cbn. eexists _, _. split; [reflexivity|]. split; [constructor|discriminate].
  - rewrite (proj2 (Z.eqb_neq n 0)) by lia. set (r1 := with_in r (zdrop n (in_ r))). destruct (turn_in r1 (in_ r1) f Hc) as [[Hcl _]|(Hcl & Ei & _)]; destruct (turn r1 f) as [r2 evs] eqn:Et; cbn [fst] in *; rewrite Hcl.
    + eexists _, _. split; [reflexivity|]. split; [|congruence]. assert (in_ r2 = [] \/ in_ r2 = in_ r1) as [-> | ->]; [|constructor|now apply Forall_drop].
      revert Et. unfold turn. destruct (handleFrame_keeps r1 f) as [Ei Ec]. destruct (handleFrame r1 f) as [r3 [a|[c|id c]]]; cbn in *; [intros [= <- <-]; auto|intros [= <- <-]; auto|]. destruct (take_keeps r3) as [Ei3 _]. destruct (take_ r3) as [r4 [[c'|i c']|]]; cbn in *; intros [= <- <-]; cbn; auto; right; congruence.
    + assert (length (in_ r2) < fuel)%nat as Hl by (rewrite Ei; cbn; unfold zdrop; rewrite length_drop; unfold len in Hn; lia). destruct (IH r2) as (r' & evs' & -> & Hb' & Hle); auto; [rewrite Ei; now apply Forall_drop|]. eauto 10.
Qed.

(** What was read and what is read next, as if read at once. *)
Lemma feedLoop_app fuel r y r1 evs1 :
  bytes_ok (in_ r) -> closed r = false -> feedLoop fuel r = Some (r1, evs1) ->
  (closed r1 = true /\ feedLoop fuel (with_in r (in_ r ++ y)) = Some (r1, evs1)) \/
  (closed r1 = false /\ forall fuel2 r2 evs2, feedLoop fuel2 (with_in r1 (in_ r1 ++ y)) = Some (r2, evs2) -> feedLoop (fuel + fuel2) (with_in r (in_ r ++ y)) = Some (r2, evs1 ++ evs2)).
Proof.
  revert r evs1. induction fuel as [|fuel IH]; intros r evs1 Hb Hc H; [discriminate|]. rewrite feedLoop_turn in H. pose proof (readFrame_app maxFrame (in_ r) y Hb) as Happ. destruct (readFrame_spec (in_ r) maxFrame Hb) as [Hp|c|f n Hn].
  - rewrite Z.eqb_refl in H. injection H as <- <-. right. split; [exact Hc|]. intros fuel2 r2 evs2 H2. apply (feedLoop_fuel fuel2); [exact H2|lia].
  - specialize (Happ ltac:(intros f'; discriminate)). cbn in H. injection H as <- <-. left. split; [reflexivity|]. rewrite feedLoop_turn. cbn [in_ with_in]. rewrite Happ. reflexivity.
  - specialize (Happ ltac:(intros f' E; injection E as _ E; lia)). rewrite (proj2 (Z.eqb_neq n 0)) in H by lia. set (ra := with_in r (zdrop n (in_ r))) in *.
    assert (forall k, feedLoop (S k) (with_in r (in_ r ++ y)) = let '(r', evs) := turn (with_in ra (in_ ra ++ y)) f in if closed r' then Some (r', evs) else match feedLoop k r' with None => None | Some (r', evs') => Some (r', evs ++ evs') end) as Hstep.
    { intros k. rewrite feedLoop_turn. cbn [in_ with_in]. rewrite Happ, (proj2 (Z.eqb_neq n 0)) by lia. now rewrite (zdrop_app_l n (in_ r) y) by lia. }
    destruct (turn_in ra (in_ ra ++ y) f Hc) as [[Hcl Et]|(Hcl & Ei & Et)]; destruct (turn ra f) as [rb evs] eqn:Er; cbn [fst snd] in *; rewrite Hcl in H.
    + injection H as <- <-. left. split; [exact Hcl|]. rewrite Hstep, Et, Hcl. reflexivity.
    + destruct (feedLoop fuel rb) as [[rc evs']|] eqn:El; [|discriminate]. injection H as <- <-. replace (with_in rb (in_ ra ++ y)) with (with_in rb (in_ rb ++ y)) in Et by now rewrite Ei. destruct (IH rb evs') as [[Hc1 E1]|[Hc1 E1]]; auto; [rewrite Ei; now apply Forall_drop|..].
      * left. split; [exact Hc1|]. rewrite Hstep, Et. cbn [closed with_in]. now rewrite Hcl, E1.
      * right. split; [exact Hc1|]. intros fuel2 r2 evs2 Hrun. cbn [Nat.add]. rewrite Hstep, Et. cbn [closed with_in]. rewrite Hcl, (E1 _ _ _ Hrun). now rewrite app_assoc.
Qed.

(** ** Reads *)

Lemma preface_len : len h2Preface = 24.
Proof. reflexivity. Qed.

(** The reader as what was read leaves it to the loop. *)
Definition primed (r : reader) : reader := if gotPreface r then r else with_in (with_preface r) (zdrop 24 (in_ r)).

Lemma feed_cases r data :
  closed r = false -> bytes_ok (in_ r ++ data) -> let r0 := with_in r (in_ r ++ data) in
  (gotPreface r = false /\ len (in_ r ++ data) < 24 /\ feed r data = Some (r0, [])) \/
  (gotPreface r = false /\ 24 <= len (in_ r ++ data) /\ ztake 24 (in_ r ++ data) <> h2Preface /\ feed r data = Some (with_closed r0, [Fail H2ProtocolError])) \/
  ((gotPreface r = true \/ 24 <= len (in_ r ++ data) /\ ztake 24 (in_ r ++ data) = h2Preface) /\ feed r data = feedLoop (S (length (in_ (primed r0)))) (primed r0)).
Proof.
  intros Hc Hb r0. unfold feed. rewrite Hc, preface_len. fold r0. change (gotPreface r0) with (gotPreface r). change (in_ r0) with (in_ r ++ data). unfold primed. change (gotPreface r0) with (gotPreface r). destruct (gotPreface r) eqn:Eg; cbn [negb]; [right; right; auto|].
  destruct (Z.ltb_spec (len (in_ r ++ data)) 24); [left; auto|]. case_bool_decide as Hp; cbn [negb]; [|right; left; auto]. right. right. split; [auto|]. change (in_ r0) with (in_ r ++ data).
  assert (bytes_ok (zdrop 24 (in_ r ++ data))) as Hb' by now apply Forall_drop. set (rp := with_in (with_preface r0) (zdrop 24 (in_ r ++ data))).
  destruct (feedLoop_total (S (length (in_ rp))) rp) as (r' & evs & E & _); [exact Hb'|exact Hc|lia|]. rewrite E. apply (feedLoop_fuel _ _ _ _ E). cbn. unfold zdrop. rewrite length_drop. lia.
Qed.

Lemma feed_total r data :
  bytes_ok (in_ r) -> bytes_ok data -> exists r' evs, feed r data = Some (r', evs) /\ bytes_ok (in_ r') /\ (closed r' = false -> len (in_ r') < Z.max 24 (9 + Z.max 0 maxFrame)).
Proof.
  intros Hr Hd. destruct (closed r) eqn:Hc; [exists r, []; unfold feed; rewrite Hc; splits; auto; discriminate|]. assert (bytes_ok (in_ r ++ data)) as Hb by (apply bytes_ok_app; auto).
  destruct (feed_cases r data Hc Hb) as [(_ & Hl & ->)|[(_ & _ & _ & ->)|[_ ->]]].
  - eexists _, _. split; [reflexivity|]. cbn. split; [exact Hb|lia].
  - eexists _, _. split; [reflexivity|]. split; [constructor|discriminate].
  - set (r0 := with_in r (in_ r ++ data)). assert (bytes_ok (in_ (primed r0))) as Hp by (unfold primed; destruct (gotPreface r0); [exact Hb|now apply Forall_drop]).
    assert (closed (primed r0) = false) as Hcp by (unfold primed; destruct (gotPreface r0); exact Hc). destruct (feedLoop_total (S (length (in_ (primed r0)))) (primed r0)) as (r' & evs & -> & Hb' & Hl); auto. eexists _, _. split; [reflexivity|]. split; [exact Hb'|]. intros H. specialize (Hl H). lia.
Qed.

Lemma feed_closed r data : closed r = true -> feed r data = Some (r, []).
Proof. intros H. unfold feed. now rewrite H. Qed.

Lemma feedLoop_got fuel r r' evs : feedLoop fuel r = Some (r', evs) -> gotPreface r = true -> gotPreface r' = true.
Proof.
  assert (forall r e, gotPreface (handleError r e).1 = gotPreface r) as He by (intros r0 [c|id c]; cbn; [reflexivity|]; unfold take_; destruct (budget r0) as [|[] l]; reflexivity).
  assert (forall r f, gotPreface (handleFrame r f).1 = gotPreface r) as Hf by (intros r0 f; unfold handleFrame, dataFrame, handleHeaders, handleContinuation, settingsFrame, pingFrame, take_; repeat (case_match; simplify_eq; auto)).
  revert r evs. induction fuel as [|fuel IH]; intros r evs H Hg; [discriminate|]. rewrite feedLoop_turn in H. destruct (h2ReadFrame (in_ r) maxFrame) as [[f n]|e].
  - destruct (n =? 0); [now injection H as <- <-|]. set (r1 := with_in r (zdrop n (in_ r))) in H. assert (gotPreface (turn r1 f).1 = true) as Ht.
    { unfold turn. specialize (Hf r1 f). change (gotPreface r1) with (gotPreface r) in Hf. destruct (handleFrame r1 f) as [r2 [a|e]]; cbn [fst] in *; [congruence|]. rewrite He. congruence. }
    destruct (turn r1 f) as [r2 evs1]. cbn [fst] in Ht. destruct (closed r2); [now injection H as <- <-|]. destruct (feedLoop fuel r2) as [[r3 evs2]|] eqn:E; [|discriminate]. injection H as <- <-. eauto.
  - specialize (He r e). destruct (handleError r e) as [r2 evs1]. cbn [fst] in He. destruct (closed r2); [injection H as <- <-; congruence|]. destruct (feedLoop fuel r2) as [[r3 evs2]|] eqn:E; [|discriminate]. injection H as <- <-. apply (IH r2 evs2 E). congruence.
Qed.

(** Two reads are one. *)
Lemma feed_app r a b r1 e1 r2 e2 :
  bytes_ok (in_ r) -> bytes_ok a -> bytes_ok b -> feed r a = Some (r1, e1) -> feed r1 b = Some (r2, e2) -> feed r (a ++ b) = Some (r2, e1 ++ e2).
Proof.
  intros Hr Ha Hb E1 E2. destruct (closed r) eqn:Hc; [rewrite feed_closed in E1 by exact Hc; injection E1 as <- <-; rewrite feed_closed in E2 |- * by exact Hc; exact E2|].
  assert (bytes_ok (in_ r ++ a)) as Hxa by (apply bytes_ok_app; auto). assert (bytes_ok (in_ r ++ a ++ b)) as Hxab by (apply bytes_ok_app; split; [auto|apply bytes_ok_app; auto]). pose proof (len_nonneg b).
  destruct (feed_cases r a Hc Hxa) as [(Hg & Hl & E)|[(Hg & Hl & Hp & E)|[Hp E]]]; rewrite E in E1.
  - injection E1 as <- <-. cbn [app]. rewrite <- E2. unfold feed. cbn [closed in_ with_in gotPreface]. rewrite Hc, Hg. now rewrite app_assoc.
  - injection E1 as <- <-. rewrite feed_closed in E2 by reflexivity. injection E2 as <- <-. unfold feed. rewrite Hc, preface_len. cbn [gotPreface with_in in_]. rewrite Hg. cbn [negb]. rewrite app_assoc, (proj2 (Z.ltb_ge _ _)), bool_decide_eq_false_2; [reflexivity| |rewrite len_app; lia].
    rewrite ztake_app_l by exact Hl. exact Hp.
  - set (r0 := with_in r (in_ r ++ a)) in *. set (rab := with_in r (in_ r ++ a ++ b)).
    assert (primed rab = with_in (primed r0) (in_ (primed r0) ++ b) /\ feed r (a ++ b) = feedLoop (S (length (in_ (primed rab)))) (primed rab)) as [Eab Efab].
    { unfold primed. cbn [gotPreface with_in r0 rab]. destruct (feed_cases r (a ++ b) Hc Hxab) as [(Hg' & Hl' & _)|[(Hg' & Hl' & Hp' & _)|[_ ->]]].
      - exfalso. destruct Hp as [Hp|[Hp _]]; [congruence|]. rewrite app_assoc, len_app in Hl'. lia.
      - exfalso. destruct Hp as [Hp|[Hp Hp2]]; [congruence|]. apply Hp'. now rewrite app_assoc, ztake_app_l by lia.
      - split; [|reflexivity]. unfold r0, rab. cbn [gotPreface with_in]. destruct (gotPreface r) eqn:Eg; cbn [in_ with_in with_preface]; rewrite app_assoc; [reflexivity|]. destruct Hp as [Hp|[Hp _]]; [congruence|]. now rewrite zdrop_app_l by lia. }
    assert (bytes_ok (in_ (primed r0)) /\ closed (primed r0) = false /\ gotPreface (primed r0) = true) as (Hbp & Hcp & Hgp).
    { unfold primed. destruct (gotPreface r0) eqn:Eg; [splits; auto|splits; auto; now apply Forall_drop]. }
    destruct (feedLoop_app _ _ b _ _ Hbp Hcp E1) as [[Hc1 El]|[Hc1 El]].
    + rewrite feed_closed in E2 by exact Hc1. injection E2 as <- <-. rewrite app_nil_r, Efab, Eab. apply (feedLoop_fuel _ _ _ _ El). rewrite Eab in *. cbn. rewrite length_app. lia.
    + pose proof (feedLoop_got _ _ _ _ E1 Hgp) as Hg1. assert (feed r1 b = feedLoop (S (length (in_ r1 ++ b))) (with_in r1 (in_ r1 ++ b))) as Ef by (unfold feed; rewrite Hc1; cbn [gotPreface with_in]; now rewrite Hg1). rewrite Ef in E2.
      specialize (El _ _ _ E2). rewrite <- Eab in El. destruct (feed_total r (a ++ b) Hr ltac:(apply bytes_ok_app; auto)) as (r' & evs & Et & _). rewrite Et. rewrite Efab in Et. pose proof (feedLoop_fuel _ (S (length (in_ (primed r0))) + S (length (in_ r1 ++ b)) + S (length (in_ (primed rab)))) _ _ Et ltac:(lia)) as F1. pose proof (feedLoop_fuel _ (S (length (in_ (primed r0))) + S (length (in_ r1 ++ b)) + S (length (in_ (primed rab)))) _ _ El ltac:(lia)) as F2. congruence.
Qed.

Lemma feeds_total r reads : bytes_ok (in_ r) -> Forall bytes_ok reads -> exists r' evs, feeds r reads = Some (r', evs) /\ bytes_ok (in_ r').
Proof.
  revert r. induction reads as [|d reads IH]; intros r Hr Hf; [exists r, []; auto|]. inversion Hf as [|? ? Hd Hf']; subst. destruct (feed_total r d Hr Hd) as (r1 & e1 & E1 & Hr1 & _). destruct (IH r1 Hr1 Hf') as (r2 & e2 & E2 & Hr2). cbn [feeds]. rewrite E1, E2. eauto.
Qed.

(** Reads are one read of all they bring. *)
Lemma feeds_join r d reads : bytes_ok (in_ r) -> bytes_ok d -> Forall bytes_ok reads -> feeds r (d :: reads) = feed r (d ++ mjoin reads).
Proof.
  revert r d. induction reads as [|d2 reads IH]; intros r d Hr Hd Hf.
  - cbn [feeds mjoin list_join]. rewrite app_nil_r. destruct (feed_total r d Hr Hd) as (r1 & e1 & -> & _). now rewrite app_nil_r.
  - inversion Hf as [|? ? Hd2 Hf']; subst. assert (bytes_ok (d2 ++ mjoin reads)) as Hd2' by (apply bytes_ok_app; split; [exact Hd2|]; clear -Hf'; induction Hf'; [constructor|apply bytes_ok_app; auto]).
    change (feeds r (d :: d2 :: reads)) with (match feed r d with None => None | Some (r, evs) => match feeds r (d2 :: reads) with None => None | Some (r, evs') => Some (r, evs ++ evs') end end).
    destruct (feed_total r d Hr Hd) as (r1 & e1 & E1 & Hr1 & _). rewrite E1, (IH r1 d2 Hr1 Hd2 Hf'). destruct (feed_total r1 (d2 ++ mjoin reads) Hr1 Hd2') as (r2 & e2 & E2 & _). rewrite E2. symmetry. exact (feed_app r d (d2 ++ mjoin reads) r1 e1 r2 e2 Hr Hd Hd2' E1 E2).
Qed.

(** ** What a peer can make the reader hold *)

Definition held (r : reader) : Prop := len (contBlock r) <= Z.max 0 maxHeaderBytes.

Lemma handleFrame_held r f : held r -> match (handleFrame r f).2 with Err (ConnErr _) => True | _ => held (handleFrame r f).1 end.
Proof.
  assert (forall r, contBlock (take_ r).1 = contBlock r) as Ht by (intros r0; unfold take_; now destruct (budget r0)).
  assert (forall r, snd (take_ r) = None \/ snd (take_ r) = Some (ConnErr H2EnhanceYourCalm)) as He by (intros r0; unfold take_; destruct (budget r0) as [|[] l]; cbn; auto).
  assert (forall r, held (take_ r).1 <-> held r) as Hh by (intros r0; unfold held; now rewrite Ht).
  intros Hr. unfold handleFrame. destruct (_ && (_ || _)); [exact I|]. destruct (_ && (_ || _)); [exact I|]. set (r1 := if gotSettings r then r else with_settings r). assert (held r1) as Hr1 by (unfold r1; now destruct (gotSettings r)). clearbody r1. specialize (Hh r1). specialize (He r1).
  destruct (typ f =? h2FrameData). { unfold dataFrame. destruct (streamID f =? 0); [exact I|]. destruct (_ && _); [|exact Hr1]. destruct (take_ r1) as [r2 oe]. cbn in *. destruct He as [-> | ->]; [now apply Hh|exact I]. }
  destruct (typ f =? h2FrameHeaders).
  { unfold handleHeaders. destruct (_ || _); [exact I|]. destruct (stripPriority f) as [block|[c|id c]]; [|exact I|exact Hr1]. destruct (negb _); [|exact Hr1]. destruct (Z.ltb_spec maxHeaderBytes (len block)); [exact I|].
    destruct (len block =? 0); [|unfold held; cbn; lia]. destruct (take_ r1) as [r2 oe]. cbn in He. destruct He as [-> | ->]; [unfold held; cbn; lia|exact I]. }
  destruct (typ f =? h2FrameContinuation).
  { unfold handleContinuation. destruct (contStream r1 =? 0); [exact I|]. cbv zeta. cbn [contBlock with_cont contFrames contStream contEndStream]. destruct (Z.ltb_spec maxHeaderBytes (len (contBlock r1 ++ payload f))); [exact I|]. destruct (maxContFrames <? _); [exact I|].
    destruct (negb _); [|unfold held; cbn; lia]. destruct (len (payload f) =? 0); [|unfold held; cbn; lia]. clear He Hh. match goal with |- context [take_ ?a] => pose proof (Ht a) as Ea; destruct (take_ a) as [r2 [[c|id c]|]] eqn:Et end; cbn in *; [exact I| |unfold held; rewrite Ea; lia].
    unfold take_ in Et. destruct (budget _) as [|[] ?] in Et; discriminate. }
  destruct (typ f =? h2FramePriority); [repeat (case_match; try exact I); exact Hr1|]. destruct (typ f =? h2FrameRSTStream); [repeat (case_match; try exact I); exact Hr1|].
  destruct (typ f =? h2FrameSettings). { unfold settingsFrame. destruct (negb _); [exact I|]. destruct (has f h2FlagAck); [destruct (negb _); [exact I|exact Hr1]|]. destruct (settingsSeen r1); [|exact Hr1]. destruct (take_ r1) as [r2 oe]. cbn in *. destruct He as [-> | ->]; [now apply Hh|exact I]. }
  destruct (typ f =? h2FramePushPromise); [exact I|]. destruct (typ f =? h2FramePing). { unfold pingFrame. destruct (negb _); [exact I|]. destruct (negb _); [exact I|]. destruct (negb _); [|exact Hr1]. destruct (take_ r1) as [r2 oe]. cbn in *. destruct He as [-> | ->]; [now apply Hh|exact I]. }
  destruct (typ f =? h2FrameGoAway); [repeat (case_match; try exact I); exact Hr1|]. destruct (typ f =? h2FrameWindowUpdate); [repeat (case_match; try exact I); exact Hr1|]. exact Hr1.
Qed.

Lemma turn_held r f : held r -> closed (turn r f).1 = false -> held (turn r f).1.
Proof.
  intros Hr. unfold turn. pose proof (handleFrame_held r f Hr) as H. destruct (handleFrame r f) as [r1 [a|[c|id c]]]; cbn in *; [auto|discriminate|]. unfold take_. destruct (budget r1) as [|[] l]; cbn; auto.
Qed.

Lemma feedLoop_held fuel r r' evs : bytes_ok (in_ r) -> held r -> feedLoop fuel r = Some (r', evs) -> closed r' = false -> held r'.
Proof.
  revert r evs. induction fuel as [|fuel IH]; intros r evs Hb Hr H Hc; [discriminate|]. rewrite feedLoop_turn in H. destruct (readFrame_spec (in_ r) maxFrame Hb) as [_|c|f n Hn].
  - rewrite Z.eqb_refl in H. now injection H as <- <-.
  - cbn in H. injection H as <- <-. discriminate.
  - rewrite (proj2 (Z.eqb_neq n 0)) in H by lia. set (r1 := with_in r (zdrop n (in_ r))) in *. pose proof (turn_held r1 f Hr) as Hh. assert (closed (turn r1 f).1 = false -> bytes_ok (in_ (turn r1 f).1)) as Hin.
    { intros Hc1. destruct (closed r1) eqn:Ec.
      - exfalso. revert Hc1. unfold turn. pose proof (handleFrame_keeps r1 f) as [_ E]. destruct (handleFrame r1 f) as [r2 [a|[c|id c]]]; cbn in *; try congruence. pose proof (take_keeps r2) as [_ E2]. destruct (take_ r2) as [r3 [[c'|i c']|]]; cbn in *; congruence.
      - destruct (turn_in r1 [] f Ec) as [[E _]|(_ & E & _)]; [congruence|rewrite E; now apply Forall_drop]. }
    destruct (turn r1 f) as [r2 evs2]. cbn [fst] in *. destruct (closed r2) eqn:Ec2; [injection H as <- <-; congruence|]. destruct (feedLoop fuel r2) as [[r3 evs3]|] eqn:El; [|discriminate]. injection H as <- <-. exact (IH _ _ (Hin eq_refl) (Hh eq_refl) El Hc).
Qed.

Lemma feed_held r data r' evs : bytes_ok (in_ r) -> bytes_ok data -> held r -> feed r data = Some (r', evs) -> closed r' = false -> held r'.
Proof.
  intros Hr Hd Hh E Hc. destruct (closed r) eqn:Hcr; [rewrite feed_closed in E by exact Hcr; injection E as <- <-; congruence|]. assert (bytes_ok (in_ r ++ data)) as Hb by (apply bytes_ok_app; auto).
  destruct (feed_cases r data Hcr Hb) as [(_ & _ & E')|[(_ & _ & _ & E')|[_ E']]]; rewrite E' in E; [injection E as <- <-; exact Hh|injection E as <- <-; discriminate|].
  refine (feedLoop_held _ _ _ _ _ _ E Hc); unfold primed; destruct (gotPreface _); try exact Hh; [exact Hb|now apply Forall_drop].
Qed.

End Server.

End H2.
