(* ===== verification/H2Roundtrip.v ===== *)
(** * What one side of an HTTP/2 connection writes, the other reads
    (src/http/h2_frame.go, src/http/h2_server.go)

    Frames written and read back, header blocks cut into frames and put together
    again, and header fields from the encoder of one side to the decoder of the
    other. *)

From S2P Require Import Prelude HpackInt HpackTables HpackDecoder HpackEncoder HpackRoundtrip H2Frame.
From stdpp Require Import base list numbers.
From Stdlib Require Import ZArith Lia.

Local Open Scope Z_scope.
Local Open Scope go_scope.

Module H2Round.
Import H2.

(** ** One frame *)

Lemma header_bytes t fl id n : 0 <= id < 2 ^ 31 -> h2AppendFrameHeader [] t fl id n = putBE 3 n ++ [u8 t; fl] ++ putBE 4 id.
Proof.
  intros Hid. unfold h2AppendFrameHeader. cbn [app putBE]. change (8 * Z.of_nat 2) with 16. change (8 * Z.of_nat 1) with 8. change (8 * Z.of_nat 0) with 0. change (8 * Z.of_nat 3) with 24. rewrite !Z.shiftr_0_r.
  assert (u8 (id .>> 24) .& 0x7f = u8 (id .>> 24)) as ->; [|reflexivity]. unfold u8. rewrite Z.shiftr_div_pow2 by lia. change 127 with (2 ^ 7 - 1). rewrite land_low_bits by lia.
  assert (0 <= id / 2 ^ 24 < 2 ^ 7) by (split; [apply Z.div_pos; lia|apply Z.div_lt_upper_bound; lia]). rewrite (Z.mod_small _ (2 ^ 8)), Z.mod_small; lia.
Qed.

(** A frame as it is written, without padding. *)
Definition frame (t fl id : Z) (p : bytes) : bytes := h2AppendFrameHeader [] t fl id (len p) ++ p.

Record frame_ok (t fl id : Z) (p : bytes) : Prop := {
  fo_typ : is_byte t;
  fo_flags : fl .& h2FlagPadded = 0;
  fo_id : 0 <= id < 2 ^ 31;
  fo_len : len p < 2 ^ 24
}.

Lemma append_header dst t fl id n : h2AppendFrameHeader dst t fl id n = dst ++ h2AppendFrameHeader [] t fl id n.
Proof. reflexivity. Qed.

Lemma frame_len t fl id p : len (frame t fl id p) = 9 + len p.
Proof. unfold frame. rewrite len_app. reflexivity. Qed.

Lemma read_frame t fl id p rest m :
  frame_ok t fl id p -> len p <= m -> h2ReadFrame (frame t fl id p ++ rest) m = Ok (mkFrame t fl id p (len p), 9 + len p).
Proof.
  intros [Ht Hf Hid Hl] Hm. pose proof (len_nonneg p). pose proof (len_nonneg rest). unfold h2ReadFrame, h2FrameHeaderLen. rewrite len_app, frame_len, (proj2 (Z.ltb_ge _ 9)) by lia.
  unfold frame. rewrite header_bytes, <- !app_assoc by exact Hid. rewrite (take_app_length' (putBE 3 (len p))) by reflexivity. rewrite (be_putBE 3) by (cbn; lia). rewrite (proj2 (Z.ltb_ge m _)), (proj2 (Z.ltb_ge _ (9 + len p))) by lia.
  assert (drop 5 (putBE 3 (len p) ++ [u8 t; fl] ++ putBE 4 id ++ p ++ rest) = putBE 4 id ++ p ++ rest) as -> by reflexivity. rewrite (take_app_length' (putBE 4 id)) by reflexivity. rewrite (be_putBE 4) by (cbn; lia).
  assert (zdrop 9 (putBE 3 (len p) ++ [u8 t; fl] ++ putBE 4 id ++ p ++ rest) = p ++ rest) as -> by reflexivity. rewrite ztake_app.
  assert (id .& 0x7fffffff = id) as -> by (change 0x7fffffff with (2 ^ 31 - 1); rewrite land_low_bits by lia; apply Z.mod_small; lia). unfold at_. cbn [putBE app nth]. rewrite u8_id by exact Ht.
  unfold unpad, has. cbn [flags]. rewrite Hf. reflexivity.
Qed.

(** ** Frames taken one after the other *)

Section Server.
Context (maxFrame maxHeaderBytes maxContFrames : Z).

Notation loop := (feedLoop maxFrame maxHeaderBytes maxContFrames).
Notation handle := (handleFrame maxHeaderBytes maxContFrames).

(** The reader [r] takes [w] to [r'], whatever follows. *)
Definition takes (r : reader) (w : bytes) (r' : reader) (evs : list event) : Prop :=
  forall rest fuel r2 evs2, loop fuel (with_in r' rest) = Some (r2, evs2) -> exists fuel', loop fuel' (with_in r (w ++ rest)) = Some (r2, evs ++ evs2).

Lemma takes_nil r : takes r [] r [].
Proof. intros rest fuel r2 evs2 H. exists fuel. exact H. Qed.

Lemma takes_app r w r' evs w' r'' evs' : takes r w r' evs -> takes r' w' r'' evs' -> takes r (w ++ w') r'' (evs ++ evs').
Proof.
  intros H1 H2 rest fuel r2 evs2 H. destruct (H2 _ _ _ _ H) as [f2 E2]. destruct (H1 _ _ _ _ E2) as [f1 E1]. exists f1. now rewrite <- !app_assoc.
Qed.

Lemma takes_frame r t fl id p r' a :
  frame_ok t fl id p -> len p <= maxFrame -> closed r = false -> handle r (mkFrame t fl id p (len p)) = (r', Ok a) -> takes r (frame t fl id p) r' [Act a].
Proof.
  intros Hok Hm Hc Hh rest fuel r2 evs2 H. exists (S fuel). rewrite feedLoop_turn. cbn [in_ with_in]. rewrite (read_frame _ _ _ _ _ _ Hok Hm). pose proof (len_nonneg p). rewrite (proj2 (Z.eqb_neq _ 0)) by lia.
  rewrite <- (frame_len t fl id p), zdrop_app. set (rr := with_in (with_in r (frame t fl id p ++ rest)) rest). change rr with (with_in r rest). unfold turn. rewrite handleFrame_in, Hh. cbn [fst snd].
  assert (closed r' = false) as Hc'. { pose proof (handleFrame_keeps maxHeaderBytes maxContFrames r (mkFrame t fl id p (len p))) as [_ E]. rewrite Hh in E. cbn in E. congruence. }
  cbn [closed with_in]. rewrite Hc', H. reflexivity.
Qed.

(** ** Header blocks *)

(** A reader past the preface and the first SETTINGS, with budgets that last. *)
Record ready (r : reader) : Prop := {
  rd_closed : closed r = false;
  rd_settings : gotSettings r = true;
  rd_budget : budget r = []
}.

Lemma ready_cont r id es b n : ready r -> ready (with_cont r id es b n).
Proof. intros [? ? ?]. now split. Qed.

Definition framesFor (m n : Z) : Z := (n + m - 1) / m.

Lemma framesFor_more m n : 0 < m -> framesFor m n = 1 + framesFor m (n - m).
Proof. intros Hm. unfold framesFor. replace (n + m - 1) with ((n - m + m - 1) + 1 * m) by lia. rewrite Z.div_add by lia. lia. Qed.

Lemma framesFor_nonneg m n : 0 < m -> 0 <= n -> 0 <= framesFor m n.
Proof. intros. apply Z.div_pos; lia. Qed.

Lemma framesFor_pos m n : 0 < m -> 0 < n -> 1 <= framesFor m n.
Proof. intros. unfold framesFor. apply Z.div_le_lower_bound; lia. Qed.

Lemma handle_cont r fl p :
  ready r -> contStream r <> 0 -> len (contBlock r ++ p) <= maxHeaderBytes -> contFrames r + 1 <= maxContFrames -> p <> [] \/ fl = h2FlagEndHeaders -> fl = 0 \/ fl = h2FlagEndHeaders ->
  handle r (mkFrame h2FrameContinuation fl (contStream r) p (len p)) =
  if fl =? 0 then (with_cont r (contStream r) (contEndStream r) (contBlock r ++ p) (contFrames r + 1), Ok Nothing)
  else (with_cont r 0 (contEndStream r) (contBlock r ++ p) (contFrames r + 1), Ok (Block (contStream r) (contBlock r ++ p) (contEndStream r))).
Proof.
  intros [Hc Hs Hb] Hn Hm Hk Hp Hfl. unfold handleFrame. cbn [typ streamID flags payload]. rewrite (Z.eqb_refl (contStream r)). rewrite (proj2 (Z.eqb_neq (contStream r) 0)) by exact Hn. cbn [negb andb orb]. change (h2FrameContinuation =? h2FrameContinuation) with true. cbn [negb orb]. rewrite Hs. cbn [negb andb].
  change (h2FrameContinuation =? h2FrameData) with false. change (h2FrameContinuation =? h2FrameHeaders) with false. cbv iota. unfold handleContinuation. rewrite (proj2 (Z.eqb_neq (contStream r) 0)) by exact Hn. cbn [contStream contEndStream contBlock contFrames with_cont payload]. rewrite (proj2 (Z.ltb_ge _ _)), (proj2 (Z.ltb_ge _ _)) by lia.
  destruct Hfl as [-> | ->]; [|reflexivity]. change (negb (has _ _)) with true. change (0 =? 0) with true. cbv iota. destruct Hp as [Hp|Hp]; [|discriminate]. rewrite (proj2 (Z.eqb_neq (len p) 0)); [reflexivity|]. destruct p; [congruence|rewrite len_cons; pose proof (len_nonneg p); lia].
Qed.

(** The rest of a block, in CONTINUATION frames. *)
Lemma cont_frames m fuel block r :
  0 < m <= maxFrame -> m < 2 ^ 24 -> ready r -> 0 < contStream r < 2 ^ 31 -> block <> [] -> (length block <= fuel)%nat ->
  len (contBlock r ++ block) <= maxHeaderBytes -> contFrames r + framesFor m (len block) <= maxContFrames ->
  exists w n k, (forall dst, headerFrames fuel dst h2FrameContinuation 0 (contStream r) block m = Some (dst ++ w)) /\
    takes r w (with_cont r 0 (contEndStream r) (contBlock r ++ block) k) (replicate n (Act Nothing) ++ [Act (Block (contStream r) (contBlock r ++ block) (contEndStream r))]).
Proof.
  intros Hm Hm24. revert block r. induction fuel as [|fuel IH]; intros block r Hr Hid Hne Hf Hl Hk; [destruct block; [congruence|cbn in Hf; lia]|].
  assert (0 < len block) as Hpos by (destruct block as [|b bl]; [congruence|rewrite len_cons; pose proof (len_nonneg bl); lia]). pose proof (framesFor_pos m (len block) ltac:(lia) Hpos). rewrite len_app in Hl. cbn [headerFrames]. destruct (Z.ltb_spec m (len block)) as [Hlt|Hge].
  - set (chunk := ztake m block). assert (len chunk = m) as Ec by (apply len_ztake; lia). rewrite Ec. set (rest := zdrop m block). assert (len rest = len block - m) as Er by (apply len_zdrop; lia). assert (block = chunk ++ rest) as Esplit by (unfold chunk, rest, ztake, zdrop; now rewrite take_drop).
    rewrite (proj2 (Z.eqb_neq (len rest) 0)) by lia. set (r1 := with_cont r (contStream r) (contEndStream r) (contBlock r ++ chunk) (contFrames r + 1)). rewrite (framesFor_more m (len block)) in Hk by lia.
    assert (rest <> []) as Hrne by (intros E0; rewrite E0 in Er; change (len []) with 0 in Er; lia). destruct (IH rest r1) as (w & n & k & Ew & Ht); [now apply ready_cont|exact Hid|exact Hrne|unfold len in Er; unfold len in Hlt; lia|cbn; rewrite <- app_assoc, <- Esplit, len_app; lia|cbn; rewrite Er; lia|].
    cbn [contStream contEndStream contBlock contFrames with_cont r1] in Ew, Ht. rewrite <- app_assoc, <- Esplit in Ht. exists (frame h2FrameContinuation 0 (contStream r) chunk ++ w), (S n), k. split.
    + intros dst. rewrite append_header, <- app_assoc. unfold frame. rewrite Ec. rewrite Ew. now rewrite <- !app_assoc.
    + cbn [replicate app]. apply (takes_app r _ r1 [Act Nothing]); [|exact Ht]. apply takes_frame; [split; [split; [discriminate|reflexivity]|reflexivity|lia|lia]|lia|exact (rd_closed _ Hr)|].
      rewrite handle_cont; [reflexivity|exact Hr|lia|rewrite len_app; lia|pose proof (framesFor_pos m (len block - m) ltac:(lia) ltac:(lia)); lia|left; intros E0; rewrite E0 in Ec; change (len []) with 0 in Ec; lia|now left].
  - assert (zdrop (len block) block = []) as -> by (unfold zdrop, len; apply drop_ge; lia). change (len [] =? 0) with true. cbv iota. exists (frame h2FrameContinuation (0 .| h2FlagEndHeaders) (contStream r) block), 0%nat, (contFrames r + 1). split.
    + intros dst. rewrite append_header. unfold frame. now rewrite <- app_assoc.
    + cbn [replicate app]. apply takes_frame; [split; [split; [discriminate|reflexivity]|reflexivity|lia|lia]|lia|exact (rd_closed _ Hr)|]. rewrite handle_cont; [reflexivity|exact Hr|lia|rewrite len_app; lia|lia|now right|now right].
Qed.

(** Between blocks. *)
Definition idle (r : reader) : Prop := ready r /\ contStream r = 0.

Lemma handle_idle r f : idle r -> typ f <> h2FrameContinuation -> handle r f =
  if typ f =? h2FrameData then dataFrame r f
  else if typ f =? h2FrameHeaders then handleHeaders maxHeaderBytes r f
  else if typ f =? h2FramePriority then
    (r, if streamID f =? 0 then Err (ConnErr H2ProtocolError)
        else if negb (len (payload f) =? 5) then Err (StreamErr (streamID f) H2FrameSizeError)
        else if be (take 4 (payload f)) .& 0x7fffffff =? streamID f then Err (StreamErr (streamID f) H2ProtocolError)
        else Ok Nothing)
  else if typ f =? h2FrameRSTStream then
    (r, if streamID f =? 0 then Err (ConnErr H2ProtocolError) else if negb (len (payload f) =? 4) then Err (ConnErr H2FrameSizeError) else Ok (RSTStream f))
  else if typ f =? h2FrameSettings then settingsFrame r f
  else if typ f =? h2FramePushPromise then (r, Err (ConnErr H2ProtocolError))
  else if typ f =? h2FramePing then pingFrame r f
  else if typ f =? h2FrameGoAway then
    (r, if negb (streamID f =? 0) then Err (ConnErr H2ProtocolError) else if len (payload f) <? 8 then Err (ConnErr H2FrameSizeError) else Ok GoingAway)
  else if typ f =? h2FrameWindowUpdate then
    (r, if negb (len (payload f) =? 4) then Err (ConnErr H2FrameSizeError) else Ok (WindowUpdate f))
  else (r, Ok Nothing).
Proof. intros [[_ Hs _] Hc] Ht. unfold handleFrame. rewrite Hc, Hs, (proj2 (Z.eqb_neq (typ f) h2FrameContinuation)) by exact Ht. reflexivity. Qed.

Lemma take_lasts r : ready r -> take_ r = (r, None).
Proof. intros [_ _ Hb]. unfold take_. now rewrite Hb. Qed.

Lemma odd_id id : 0 < id -> id mod 2 = 1 -> (id =? 0) || (id mod 2 =? 0) = false.
Proof. intros H1 H2. rewrite H2, (proj2 (Z.eqb_neq _ _)) by lia. reflexivity. Qed.

Definition endFlag (es : bool) : Z := if es then h2FlagEndStream else 0.

Lemma handle_headers r id es last p :
  idle r -> 0 < id -> id mod 2 = 1 -> last = true \/ p <> [] /\ len p <= maxHeaderBytes ->
  handle r (mkFrame h2FrameHeaders (if last then endFlag es .| h2FlagEndHeaders else endFlag es) id p (len p)) =
  if last then (r, Ok (Block id p es)) else (with_cont r id es p 0, Ok Nothing).
Proof.
  intros Hr Hid Hodd Hp. rewrite handle_idle by (auto; discriminate). cbn [typ]. change (h2FrameHeaders =? h2FrameData) with false. change (h2FrameHeaders =? h2FrameHeaders) with true. cbv iota. unfold handleHeaders. cbn [streamID]. rewrite odd_id by auto.
  assert (forall fl, fl .& h2FlagPriority = 0 -> stripPriority (mkFrame h2FrameHeaders fl id p (len p)) = Ok p) as Hstrip by (intros fl Hfl; unfold stripPriority, has; cbn [flags]; now rewrite Hfl). rewrite Hstrip by now destruct last, es.
  destruct last; [now destruct es|]. destruct Hp as [?|[Hne Hl]]; [discriminate|]. assert (negb (has (mkFrame h2FrameHeaders (endFlag es) id p (len p)) h2FlagEndHeaders) = true) as -> by now destruct es. rewrite (proj2 (Z.ltb_ge _ _)) by lia.
  rewrite (proj2 (Z.eqb_neq (len p) 0)) by (destruct p as [|b p]; [congruence|rewrite len_cons; pose proof (len_nonneg p); lia]). now destruct es.
Qed.

(** A header block in as many frames as it takes. *)
Definition block_fits (m : Z) (block : bytes) : Prop :=
  len block <= m \/ len block <= maxHeaderBytes /\ framesFor m (len block - m) <= maxContFrames.

Lemma block_written m r id block es :
  0 < m <= maxFrame -> m < 2 ^ 24 -> idle r -> 0 < id < 2 ^ 31 -> id mod 2 = 1 -> block_fits m block ->
  exists w n r', (forall dst, h2AppendHeaderBlock dst id block es m = Some (dst ++ w)) /\ takes r w r' (replicate n (Act Nothing) ++ [Act (Block id block es)]) /\ idle r'.
Proof.
  intros Hm Hm24 Hr Hid Hodd Hfit. unfold h2AppendHeaderBlock. cbn [headerFrames]. fold (endFlag es). destruct (Z.ltb_spec m (len block)) as [Hlt|Hge].
  - set (chunk := ztake m block). assert (len chunk = m) as Ec by (apply len_ztake; lia). rewrite Ec. set (rest := zdrop m block). assert (len rest = len block - m) as Er by (apply len_zdrop; lia). assert (block = chunk ++ rest) as Esplit by (unfold chunk, rest, ztake, zdrop; now rewrite take_drop).
    rewrite (proj2 (Z.eqb_neq (len rest) 0)) by lia. destruct Hfit as [?|[Hfit Hk]]; [lia|]. assert (chunk <> []) as Hcne by (intros E0; rewrite E0 in Ec; change (len []) with 0 in Ec; lia). assert (rest <> []) as Hrne by (intros E0; rewrite E0 in Er; change (len []) with 0 in Er; lia).
    set (r1 := with_cont r id es chunk 0). destruct (cont_frames m (length block) rest r1) as (w & n & k & Ew & Ht); [exact Hm|exact Hm24|apply ready_cont, Hr|exact Hid|exact Hrne|unfold rest, zdrop; rewrite length_drop; lia|cbn [contBlock with_cont r1]; unfold r1; cbn [contBlock with_cont]; rewrite <- Esplit; lia|unfold r1; cbn [contFrames with_cont]; rewrite Er; lia|].
    cbn [contStream contEndStream contBlock contFrames with_cont r1] in Ew, Ht. rewrite <- Esplit in Ht. exists (frame h2FrameHeaders (endFlag es) id chunk ++ w), (S n), (with_cont r1 0 es block k). split; [|split; [|split; [apply ready_cont, ready_cont, Hr|reflexivity]]].
    + intros dst. rewrite append_header, <- app_assoc. unfold frame. rewrite Ec. rewrite Ew. now rewrite <- !app_assoc.
    + cbn [replicate app]. apply (takes_app r _ r1 [Act Nothing]); [|exact Ht]. apply takes_frame; [split; [split; [discriminate|reflexivity]|now destruct es|lia|lia]|lia|apply Hr|]. rewrite (handle_headers r id es false); auto; [lia|right; split; [exact Hcne|lia]].
  - assert (zdrop (len block) block = []) as -> by (unfold zdrop, len; apply drop_ge; lia). change (len [] =? 0) with true. cbv iota. exists (frame h2FrameHeaders (endFlag es .| h2FlagEndHeaders) id block), 0%nat, r. split; [|split; [|exact Hr]].
    + intros dst. rewrite append_header. unfold frame. now rewrite <- app_assoc.
    + cbn [replicate app]. apply takes_frame; [split; [split; [discriminate|reflexivity]|now destruct es|lia|lia]|lia|apply Hr|]. rewrite (handle_headers r id es true); auto. lia.
Qed.

(** ** Everything a client writes *)

Inductive item : Type :=
| IBlock (id : Z) (block : bytes) (es : bool)
| IData (id : Z) (chunk : bytes) (es : bool)
| IWindow (id increment : Z)
| IRST (id code : Z)
| ISettings (l : list (Z * Z))
| IGoAway (lastID code : Z) (debug : bytes)
| IPing (p : bytes) (isAck : bool).

Definition item_bytes (m : Z) (it : item) : option bytes :=
  match it with
  | IBlock id block es => h2AppendHeaderBlock [] id block es m
  | IData id chunk es => Some (h2AppendFrameHeader [] h2FrameData (endFlag es) id (len chunk) ++ chunk)
  | IWindow id increment => Some (h2AppendWindowUpdate [] id increment)
  | IRST id code => Some (h2AppendRSTStream [] id code)
  | ISettings l => Some (h2AppendSettings [] l)
  | IGoAway lastID code debug => Some (h2AppendGoAway [] lastID code debug)
  | IPing p isAck => Some (h2AppendFrameHeader [] h2FramePing (if isAck then h2FlagAck else 0) 0 8 ++ p)
  end.

Definition settingBytes (s : Z * Z) : bytes := putBE 2 (u16 (fst s)) ++ putBE 4 (snd s).

Definition expects (it : item) : action :=
  match it with
  | IBlock id block es => Block id block es
  | IData id chunk es => Data (mkFrame h2FrameData (endFlag es) id chunk (len chunk))
  | IWindow id increment => WindowUpdate (mkFrame h2FrameWindowUpdate 0 id (putBE 4 increment) 4)
  | IRST id code => RSTStream (mkFrame h2FrameRSTStream 0 id (putBE 4 code) 4)
  | ISettings l => Settings (mkFrame h2FrameSettings 0 0 (mjoin (map settingBytes l)) (6 * len l))
  | IGoAway _ _ _ => GoingAway
  | IPing p isAck => if isAck then PingAck p else Pong p
  end.

Definition item_ok (m : Z) (it : item) : Prop :=
  match it with
  | IBlock id block _ => 0 < id < 2 ^ 31 /\ id mod 2 = 1 /\ block_fits m block
  | IData id chunk _ => 0 < id < 2 ^ 31 /\ len chunk <= m
  | IWindow id increment => 0 <= id < 2 ^ 31 /\ 0 <= increment < 2 ^ 31
  | IRST id _ => 0 < id < 2 ^ 31
  | ISettings l => 6 * len l <= m
  | IGoAway _ _ debug => 8 + len debug <= m
  | IPing p _ => len p = 8
  end.

Lemma settings_frame l : h2AppendSettings [] l = frame h2FrameSettings 0 0 (mjoin (map settingBytes l)) /\ len (mjoin (map settingBytes l)) = 6 * len l.
Proof.
  assert (len (mjoin (map settingBytes l)) = 6 * len l) as Hl by (induction l as [|x l IH]; [reflexivity|]; cbn [map]; change (mjoin (settingBytes x :: map settingBytes l)) with (settingBytes x ++ mjoin (map settingBytes l)); rewrite len_app, IH, len_cons; change (len (settingBytes x)) with 6; lia).
  split; [|exact Hl]. unfold h2AppendSettings, frame. rewrite Hl. generalize (h2AppendFrameHeader [] h2FrameSettings 0 0 (6 * len l)) as dst. clear Hl. induction l as [|x l IH]; intros dst; cbn [fold_left map]; [now rewrite app_nil_r|].
  rewrite IH. change (mjoin (settingBytes x :: map settingBytes l)) with (settingBytes x ++ mjoin (map settingBytes l)). unfold settingBytes. now rewrite <- !app_assoc.
Qed.

(** A frame that one turn takes, and that leaves the reader between blocks. *)
Lemma takes_idle m r t fl id p a :
  0 < m <= maxFrame -> m < 2 ^ 24 -> idle r -> is_byte t -> fl .& h2FlagPadded = 0 -> 0 <= id < 2 ^ 31 -> len p <= m ->
  (exists r', idle r' /\ handle r (mkFrame t fl id p (len p)) = (r', Ok a)) ->
  exists n r', takes r (frame t fl id p) r' (replicate n (Act Nothing) ++ [Act a]) /\ idle r'.
Proof. intros Hm Hm24 Hr Ht Hf Hid Hl (r' & Hr' & Hh). exists 0%nat, r'. split; [|exact Hr']. apply takes_frame; [split; auto; lia|lia|apply Hr|exact Hh]. Qed.

Lemma item_taken m r it :
  0 < m <= maxFrame -> 16 <= m < 2 ^ 24 -> idle r -> item_ok m it ->
  exists w n r', item_bytes m it = Some w /\ takes r w r' (replicate n (Act Nothing) ++ [Act (expects it)]) /\ idle r'.
Proof.
  intros Hm Hm24 Hr Hok. pose proof (take_lasts r (proj1 Hr)) as Htake. destruct it as [id block es|id chunk es|id inc|id code|l|lastID code debug|p isAck]; cbn [item_bytes expects item_ok] in *.
  - destruct Hok as (Hid & Hodd & Hfit). destruct (block_written m r id block es Hm ltac:(lia) Hr Hid Hodd Hfit) as (w & n & r' & Ew & Ht & Hr'). exists w, n, r'. rewrite (Ew []). auto.
  - destruct Hok as [Hid Hl]. eexists. edestruct (takes_idle m r h2FrameData (endFlag es) id chunk) as (n & r' & Ht & Hr'); [exact Hm|lia|exact Hr|split; [discriminate|reflexivity]|now destruct es|lia|exact Hl| |exists n, r'; split; [reflexivity|split; [exact Ht|exact Hr']]].
    exists r. split; [exact Hr|]. rewrite handle_idle by (auto; discriminate). cbn [typ]. change (h2FrameData =? h2FrameData) with true. cbv iota. unfold dataFrame. cbn [streamID payload]. rewrite (proj2 (Z.eqb_neq id 0)) by lia. destruct (_ && _); [rewrite Htake|]; reflexivity.
  - destruct Hok as [Hid Hinc]. assert (inc .& 0x7fffffff = inc) as Ei by (change 0x7fffffff with (2 ^ 31 - 1); rewrite land_low_bits by lia; apply Z.mod_small; lia). unfold h2AppendWindowUpdate. rewrite Ei. eexists.
    edestruct (takes_idle m r h2FrameWindowUpdate 0 id (putBE 4 inc)) as (n & r' & Ht & Hr'); [exact Hm|lia|exact Hr|split; [discriminate|reflexivity]|reflexivity|lia|change (len (putBE 4 inc)) with 4; lia| |exists n, r'; split; [reflexivity|split; [exact Ht|exact Hr']]].
    exists r. split; [exact Hr|]. now rewrite handle_idle by (auto; discriminate).
  - eexists. edestruct (takes_idle m r h2FrameRSTStream 0 id (putBE 4 code)) as (n & r' & Ht & Hr'); [exact Hm|lia|exact Hr|split; [discriminate|reflexivity]|reflexivity|lia|change (len (putBE 4 code)) with 4; lia| |exists n, r'; split; [reflexivity|split; [exact Ht|exact Hr']]].
    exists r. split; [exact Hr|]. rewrite handle_idle by (auto; discriminate). cbn [typ streamID payload]. change (h2FrameRSTStream =? h2FrameRSTStream) with true. cbv iota beta. change (h2FrameRSTStream =? h2FrameData) with false. change (h2FrameRSTStream =? h2FrameHeaders) with false. change (h2FrameRSTStream =? h2FramePriority) with false. cbv iota. rewrite (proj2 (Z.eqb_neq id 0)) by lia. reflexivity.
  - destruct (settings_frame l) as [Ef El]. rewrite Ef. eexists. edestruct (takes_idle m r h2FrameSettings 0 0 (mjoin (map settingBytes l))) as (n & r' & Ht & Hr'); [exact Hm|lia|exact Hr|split; [discriminate|reflexivity]|reflexivity|lia|lia| |exists n, r'; split; [reflexivity|split; [exact Ht|exact Hr']]].
    exists (with_seen r). split; [destruct Hr as [[? ? ?] ?]; split; [now split|assumption]|]. rewrite handle_idle by (auto; discriminate). cbn [typ]. change (h2FrameSettings =? h2FrameData) with false. change (h2FrameSettings =? h2FrameHeaders) with false. change (h2FrameSettings =? h2FramePriority) with false. change (h2FrameSettings =? h2FrameRSTStream) with false. change (h2FrameSettings =? h2FrameSettings) with true. cbv iota.
    unfold settingsFrame. cbn [streamID]. change (negb (0 =? 0)) with false. change (has _ h2FlagAck) with false. cbv iota. rewrite El. destruct (settingsSeen r); [rewrite Htake|]; reflexivity.
  - eexists. edestruct (takes_idle m r h2FrameGoAway 0 0 (putBE 4 (lastID .& 0x7fffffff) ++ putBE 4 code ++ debug)) as (n & r' & Ht & Hr'); [exact Hm|lia|exact Hr|split; [discriminate|reflexivity]|reflexivity|lia|rewrite !len_app; change (len (putBE 4 (lastID .& 0x7fffffff))) with 4; change (len (putBE 4 code)) with 4; lia| |exists n, r'; split; [|split; [exact Ht|exact Hr']]].
    + exists r. split; [exact Hr|]. rewrite handle_idle by (auto; discriminate). cbn [typ streamID payload]. change (negb (0 =? 0)) with false. rewrite (proj2 (Z.ltb_ge _ 8)); [reflexivity|]. rewrite !len_app. change (len (putBE 4 (lastID .& 0x7fffffff))) with 4. change (len (putBE 4 code)) with 4. pose proof (len_nonneg debug). lia.
    + f_equal. unfold h2AppendGoAway, frame. rewrite !len_app. change (len (putBE 4 (lastID .& 0x7fffffff))) with 4. change (len (putBE 4 code)) with 4. replace (4 + (4 + len debug)) with (8 + len debug) by lia. now rewrite <- !app_assoc.
  - eexists. edestruct (takes_idle m r h2FramePing (if isAck then h2FlagAck else 0) 0 p) as (n & r' & Ht & Hr'); [exact Hm|lia|exact Hr|split; [discriminate|reflexivity]|now destruct isAck|lia|lia| |exists n, r'; split; [|split; [exact Ht|exact Hr']]].
    + exists r. split; [exact Hr|]. rewrite handle_idle by (auto; discriminate). cbn [typ]. change (h2FramePing =? h2FrameData) with false. change (h2FramePing =? h2FrameHeaders) with false. change (h2FramePing =? h2FramePriority) with false. change (h2FramePing =? h2FrameRSTStream) with false. change (h2FramePing =? h2FrameSettings) with false. change (h2FramePing =? h2FramePushPromise) with false. change (h2FramePing =? h2FramePing) with true. cbv iota.
      unfold pingFrame. cbn [streamID payload]. change (negb (0 =? 0)) with false. rewrite Hok. destruct isAck; [reflexivity|]. cbn. rewrite Htake. reflexivity.
    + unfold frame. now rewrite Hok.
Qed.

(** What a run does, less the frames that only gather. *)
Definition acts (evs : list event) : list event := List.filter (fun ev => match ev with Act Nothing => false | _ => true end) evs.

Lemma acts_app a b : acts (a ++ b) = acts a ++ acts b.
Proof. apply List.filter_app. Qed.

Lemma acts_item n it : acts (replicate n (Act Nothing) ++ [Act (expects it)]) = [Act (expects it)].
Proof. induction n as [|n IH]; [destruct it as [| | | | | |p []]; reflexivity|exact IH]. Qed.

Fixpoint items_bytes (m : Z) (items : list item) : option bytes :=
  match items with
  | [] => Some []
  | it :: items => match item_bytes m it, items_bytes m items with Some a, Some b => Some (a ++ b) | _, _ => None end
  end.

Lemma items_taken m items r :
  0 < m <= maxFrame -> 16 <= m < 2 ^ 24 -> idle r -> Forall (item_ok m) items ->
  exists w r' evs, items_bytes m items = Some w /\ takes r w r' evs /\ idle r' /\ acts evs = map (fun it => Act (expects it)) items.
Proof.
  intros Hm Hm24. revert r. induction items as [|it items IH]; intros r Hr Hok; [exists [], r, []; splits; auto using takes_nil|]. inversion Hok as [|? ? Hit Hok']; subst.
  destruct (item_taken m r it Hm Hm24 Hr Hit) as (w1 & n & r1 & E1 & T1 & Hr1). destruct (IH r1 Hr1 Hok') as (w2 & r2 & evs2 & E2 & T2 & Hr2 & A2). exists (w1 ++ w2), r2, ((replicate n (Act Nothing) ++ [Act (expects it)]) ++ evs2).
  cbn [items_bytes map]. rewrite E1, E2. split; [reflexivity|]. split; [exact (takes_app _ _ _ _ _ _ _ T1 T2)|]. split; [exact Hr2|]. now rewrite acts_app, acts_item, A2.
Qed.

Definition newReader : reader := mkReader [] false false false 0 false [] 0 false [].

(** The settings that follow the preface. *)
Lemma first_settings l : 6 * len l <= maxFrame -> 6 * len l < 2 ^ 24 -> exists r', takes (with_preface newReader) (h2AppendSettings [] l) r' [Act (expects (ISettings l))] /\ idle r'.
Proof.
  intros Hm Hl. destruct (settings_frame l) as [Ef El]. rewrite Ef. exists (with_seen (with_settings (with_preface newReader))). split; [|split; [split; reflexivity|reflexivity]].
  apply takes_frame; [split; [split; [discriminate|reflexivity]|reflexivity|lia|lia]|lia|reflexivity|]. cbn [expects]. rewrite El. reflexivity.
Qed.

Lemma loop_run r w r' evs : bytes_ok w -> closed r = false -> takes r w r' evs -> loop (S (length w)) (with_in r w) = Some (with_in r' [], evs).
Proof.
  intros Hw Hc Ht. destruct (Ht [] 1%nat (with_in r' []) []) as [fuel E]; [reflexivity|]. rewrite !app_nil_r in E.
  destruct (feedLoop_total maxFrame maxHeaderBytes maxContFrames (S (length w)) (with_in r w)) as (r2 & evs2 & E2 & _); [exact Hw|exact Hc|cbn; lia|].
  rewrite E2. pose proof (feedLoop_fuel _ _ _ _ (fuel + S (length w)) _ _ E ltac:(lia)) as F1. pose proof (feedLoop_fuel _ _ _ _ (fuel + S (length w)) _ _ E2 ltac:(lia)) as F2. congruence.
Qed.

(** All of a connection, however it is cut into reads. *)
(** What there is to send can be sent: the loop over a block's frames ends. *)
Lemma items_written m items : 0 < m <= maxFrame -> 16 <= m < 2 ^ 24 -> Forall (item_ok m) items -> exists w, items_bytes m items = Some w.
Proof.
  intros Hm Hm24 Hok. destruct (first_settings [] ltac:(change (len ([] : list (Z * Z))) with 0; lia) ltac:(change (len ([] : list (Z * Z))) with 0; lia)) as (r & _ & Hr). destruct (items_taken m items r Hm Hm24 Hr Hok) as (w & _ & _ & E & _). eauto.
Qed.

Lemma connection_read m l items w reads :
  0 < m <= maxFrame -> 16 <= m < 2 ^ 24 -> 6 * len l <= m -> Forall (item_ok m) items -> items_bytes m items = Some w -> Forall bytes_ok reads -> mjoin reads = h2Preface ++ h2AppendSettings [] l ++ w ->
  exists r evs, feeds maxFrame maxHeaderBytes maxContFrames newReader reads = Some (r, evs) /\ closed r = false /\ in_ r = [] /\ acts evs = map (fun it => Act (expects it)) (ISettings l :: items).
Proof.
  intros Hm Hm24 Hl Hok Ew Hb E. destruct (first_settings l ltac:(lia) ltac:(lia)) as (r1 & T1 & Hr1). destruct (items_taken m items r1 Hm Hm24 Hr1 Hok) as (w' & r2 & evs & Ew' & T2 & Hr2 & A2). rewrite Ew in Ew'. injection Ew' as <-.
  assert (bytes_ok (mjoin reads)) as Hall by (clear -Hb; induction Hb; [constructor|apply bytes_ok_app; auto]). destruct reads as [|d reads]; [discriminate|]. inversion Hb as [|? ? Hd Hb']; subst. rewrite feeds_join; [|constructor|exact Hd|exact Hb']. change (d ++ mjoin reads) with (mjoin (d :: reads)). rewrite E in *.
  apply bytes_ok_app in Hall as [_ Hall]. pose proof (takes_app _ _ _ _ _ _ _ T1 T2) as T. pose proof (loop_run _ _ _ _ Hall (eq_refl : closed (with_preface newReader) = false) T) as Hrun.
  exists (with_in r2 []), ([Act (expects (ISettings l))] ++ evs). split; [|split; [apply Hr2|split; [reflexivity|rewrite acts_app, A2; reflexivity]]]. rewrite <- Hrun. set (tl := h2AppendSettings [] l ++ w) in *. unfold feed. cbn [closed newReader in_ gotPreface with_in app]. rewrite len_app. pose proof (len_nonneg tl). rewrite (proj2 (Z.ltb_ge _ _)) by lia.
  rewrite ztake_app, zdrop_app, bool_decide_eq_true_2 by reflexivity. cbn [negb]. destruct (feedLoop_total maxFrame maxHeaderBytes maxContFrames (S (length tl)) (with_in (with_preface newReader) tl)) as (r3 & evs3 & E3 & _); [exact Hall|reflexivity|cbn; lia|]. rewrite E3. apply (feedLoop_fuel _ _ _ _ _ _ _ E3). rewrite length_app. lia.
Qed.

End Server.

(** ** Header fields, from the encoder to the decoder *)

Section Headers.
Context (maphash : bytes -> Z) (maxHeaderBytes : Z).

(** What [handleHeaderBlock] keeps of the fields: the size of the list, whether
    it went over the limit, and the fields until it did. *)
Definition gather (a : Z * bool * list HeaderField) (f : HeaderField) : Z * bool * list HeaderField * option HpackInt.herr :=
  let '(listSize, tooLarge, fields) := a in
  let listSize := listSize + (len (Name f) + len (Value f) + 32) in
  let tooLarge := tooLarge || (maxHeaderBytes <? listSize) in
  (listSize, tooLarge, if tooLarge then fields else fields ++ [f], None).

Definition decodeBlock (d : HDecoder.Decoder) (block : bytes) : option (HDecoder.Decoder * (bool * list HeaderField)) :=
  match HDecoder.Decode maphash gather d (0, false, []) block with
  | Some (d, (_, tooLarge, fields), None) => Some (d, (tooLarge, fields))
  | _ => None
  end.

(** The header blocks among what a reader does, decoded. *)
Fixpoint requests (d : HDecoder.Decoder) (evs : list event) : option (list (Z * list HeaderField * bool * bool)) :=
  match evs with
  | [] => Some []
  | Act (Block id block es) :: evs =>
      match decodeBlock d block with
      | None => None
      | Some (d, (tooLarge, fields)) => match requests d evs with None => None | Some l => Some ((id, fields, es, tooLarge) :: l) end
      end
  | _ :: evs => requests d evs
  end.

(** What a client sends: requests, and other frames between them. *)
Inductive send : Type :=
| Req (id : Z) (fs : list (HeaderField * bool)) (es : bool)
| Other (it : item).

Fixpoint sent (e : HEncoder.Encoder) (l : list send) : option (list item) :=
  match l with
  | [] => Some []
  | Req id fs es :: l =>
      match HEncoder.encodeBlock maphash e fs with
      | None => None
      | Some (e, block) => match sent e l with None => None | Some items => Some (IBlock id block es :: items) end
      end
  | Other it :: l => match sent e l with None => None | Some items => Some (it :: items) end
  end.

Definition listSize (fs : list HeaderField) : Z := foldr (fun f n => len (Name f) + len (Value f) + 32 + n) 0 fs.

Definition send_ok (x : send) : Prop :=
  match x with
  | Req id fs _ => Forall (fun p => HRound.field_ok maxHeaderBytes p.1) fs /\ listSize fs.*1 <= maxHeaderBytes
  | Other (IBlock _ _ _) => False
  | Other _ => True
  end.

Definition asked (x : send) : list (Z * list HeaderField * bool * bool) :=
  match x with Req id fs es => [(id, fs.*1, es, false)] | Other _ => [] end.

(** A callback that never fails sees the fields in turn. *)
Lemma Decode_folds {A} (emit : A -> HeaderField -> A * option HpackInt.herr) d (a : A) block d' out e :
  (forall a f, snd (emit a f) = None) -> HDecoder.Decode maphash HRound.collect d [] block = Some (d', out, e) ->
  HDecoder.Decode maphash emit d a block = Some (d', foldl (fun a f => fst (emit a f)) a out, e).
Proof.
  intros Hemit. unfold HDecoder.Decode. destruct (HDecoder.mustShrink d && _); [intros [= <- <- <-]; reflexivity|].
  enough (forall fuel d a pre start block d' out e, HDecoder.decodeLoop maphash HRound.collect fuel d pre start block = Some (d', out, e) -> exists out', out = pre ++ out' /\ HDecoder.decodeLoop maphash emit fuel d a start block = Some (d', foldl (fun a f => fst (emit a f)) a out', e)) as H.
  { intros Hd. destruct (H _ _ a [] _ _ _ _ _ Hd) as (out' & -> & E). exact E. }
  clear -Hemit. induction fuel as [|fuel IH]; intros d a pre start block d' out e; destruct block as [|b block]; cbn [HDecoder.decodeLoop]; try discriminate.
  1, 2: intros [= <- <- <-]; exists []; now rewrite app_nil_r.
  destruct (HDecoder.decodeOne maphash d start (b :: block)) as [[d1 [[[rest [f|]] st]|err]]|]; [| |intros [= <- <- <-]; exists []; now rewrite app_nil_r|discriminate].
  - cbn [HRound.collect]. intros H. destruct (IH _ (fst (emit a f)) _ _ _ _ _ _ H) as (out' & -> & E). exists (f :: out'). split; [now rewrite <- app_assoc|]. cbn [foldl]. specialize (Hemit a f). destruct (emit a f) as [a1 oe]. cbn in Hemit. subst oe. exact E.
  - intros H. exact (IH _ a _ _ _ _ _ _ H).
Qed.

Lemma listSize_nonneg fs : 0 <= listSize fs.
Proof. induction fs as [|f fs IH]; [reflexivity|]. unfold listSize in *. cbn [foldr]. pose proof (len_nonneg (Name f)). pose proof (len_nonneg (Value f)). lia. Qed.

Lemma gathered fs n out : n + listSize fs <= maxHeaderBytes -> foldl (fun a f => fst (gather a f)) (n, false, out) fs = (n + listSize fs, false, out ++ fs).
Proof.
  revert n out. induction fs as [|f fs IH]; intros n out Hn; unfold listSize in *; cbn [foldl foldr] in *; [f_equal; [f_equal; lia|now rewrite app_nil_r]|]. cbn [gather fst]. pose proof (len_nonneg (Name f)). pose proof (len_nonneg (Value f)).
  fold (listSize fs) in *. pose proof (listSize_nonneg fs). rewrite (proj2 (Z.ltb_ge _ _)) by lia. cbn [orb]. rewrite IH by lia. f_equal; [f_equal; lia|now rewrite <- app_assoc].
Qed.

Lemma requests_acts d evs : requests d (acts evs) = requests d evs.
Proof.
  revert d. induction evs as [|ev evs IH]; intros d; [reflexivity|]. destruct ev as [a|id c|c]; cbn [acts List.filter]; [|exact (IH d)|exact (IH d)]. destruct a; cbn [requests]; try exact (IH d). destruct (decodeBlock d block) as [[d1 [tl fs]]|]; [|reflexivity]. now fold (acts evs); rewrite IH.
Qed.

Lemma sent_total l e d : HRound.sync maphash e d -> HDecoder.MaxStringLength d = maxHeaderBytes -> Forall send_ok l -> exists items, sent e l = Some items.
Proof.
  intros Hs Hd Hok. revert e d Hs Hd. induction Hok as [|x l Hx _ IH]; intros e d Hs Hd; cbn [sent]; [eauto|]. destruct x as [id fs es|it].
  - destruct Hx as [Hf _]. rewrite <- Hd in Hf. destruct (HRound.block_decode maphash e d fs Hs Hf) as (e' & block & d' & -> & _ & Hs' & _ & Hm'). destruct (IH e' d' Hs' ltac:(congruence)) as (items & ->). eauto.
  - destruct (IH e d Hs Hd) as (items & ->). eauto.
Qed.

Lemma requests_sent l e d items :
  HRound.sync maphash e d -> HDecoder.MaxStringLength d = maxHeaderBytes -> Forall send_ok l -> sent e l = Some items ->
  requests d (map (fun it => Act (expects it)) items) = Some (mjoin (map asked l)).
Proof.
  revert e d items. induction l as [|x l IH]; intros e d items Hs Hd Hok; cbn [sent]; [intros [= <-]; reflexivity|]. inversion Hok as [|? ? Hx Hok']; subst. destruct x as [id fs es|it].
  - destruct Hx as [Hf Hsz]. rewrite <- Hd in Hf. destruct (HRound.block_decode maphash e d fs Hs Hf) as (e' & block & d' & -> & Ed & Hs' & _ & Hm'). destruct (sent e' l) as [its|] eqn:El; [|discriminate]. intros [= <-].
    cbn [map expects requests]. unfold decodeBlock. rewrite (Decode_folds gather d _ block d' fs.*1 None); [|now intros [[? ?] ?] ?|exact Ed]. rewrite gathered by lia. rewrite (IH e' d' its Hs') by (auto; congruence). reflexivity.
  - destruct (sent e l) as [its|] eqn:El; [|discriminate]. intros [= <-]. specialize (IH e d its Hs Hd Hok' El). destruct it; cbn in Hx; try contradiction; cbn [map expects requests]; try exact IH. destruct isAck; exact IH.
Qed.

End Headers.

(** ** Properties *)

(** Everything a client writes after the preface and its settings, header
    blocks cut into HEADERS and CONTINUATION frames, data, settings, window
    updates, resets, pings and GOAWAY, reaches the server's handlers as it was
    written and in that order, however the connection cuts it into reads. Sizes
    are within what the server allows and its flood budgets last. *)
Theorem h2_frames_delivered (maxFrame maxHeaderBytes maxContFrames m : Z) (l : list (Z * Z)) (items : list item) :
  0 < m <= maxFrame -> 16 <= m < 2 ^ 24 -> 6 * len l <= m -> Forall (item_ok maxHeaderBytes maxContFrames m) items ->
  exists w, items_bytes m items = Some w /\ forall reads, Forall bytes_ok reads -> mjoin reads = h2Preface ++ h2AppendSettings [] l ++ w ->
    exists r evs, feeds maxFrame maxHeaderBytes maxContFrames newReader reads = Some (r, evs) /\ closed r = false /\ in_ r = [] /\ acts evs = map (fun it => Act (expects it)) (ISettings l :: items).
Proof.
  intros Hm Hm24 Hl Hok. destruct (items_written maxFrame maxHeaderBytes maxContFrames m items Hm Hm24 Hok) as (w & E). exists w. split; [exact E|]. intros reads Hb Hj. now apply (connection_read _ _ _ m l items w).
Qed.

(** C12: header fields a client encodes with HPACK, frames and sends, between other
    frames, can all be sent: the encoder takes every field, and, if each block is
    within the server's limits of bytes and of CONTINUATION frames, the loop that cuts
    it into frames ends. They come out of the server's decoder as the client had
    them, on their streams and in order, however the bytes are cut into reads. *)
Theorem h2_headers_delivered (maphash : bytes -> Z) (maxFrame maxHeaderBytes maxContFrames m : Z) (l : list (Z * Z)) (xs : list send) :
  0 < m <= maxFrame -> 16 <= m < 2 ^ 24 -> 6 * len l <= m -> Forall (send_ok maxHeaderBytes) xs ->
  exists items, sent maphash HEncoder.NewEncoder xs = Some items /\
    (Forall (item_ok maxHeaderBytes maxContFrames m) items ->
     exists w, items_bytes m items = Some w /\ forall reads, Forall bytes_ok reads -> mjoin reads = h2Preface ++ h2AppendSettings [] l ++ w ->
       exists r evs, feeds maxFrame maxHeaderBytes maxContFrames newReader reads = Some (r, evs) /\
         requests maphash maxHeaderBytes (HRound.decoder_with maxHeaderBytes) evs = Some (mjoin (map asked xs))).
Proof.
  intros Hm Hm24 Hl Hxs. destruct (sent_total maphash maxHeaderBytes xs HEncoder.NewEncoder (HRound.decoder_with maxHeaderBytes) (HRound.new_sync _ _) eq_refl Hxs) as (items & Hsent). exists items. split; [exact Hsent|]. intros Hok.
  destruct (items_written maxFrame maxHeaderBytes maxContFrames m items Hm Hm24 Hok) as (w & Hw). exists w. split; [exact Hw|]. intros reads Hb E. destruct (connection_read _ _ _ m l items w reads Hm Hm24 Hl Hok Hw Hb E) as (r & evs & Ef & _ & _ & Ha). exists r, evs. split; [exact Ef|].
  rewrite <- requests_acts, Ha. cbn [map expects requests]. apply (requests_sent maphash maxHeaderBytes xs HEncoder.NewEncoder); auto. apply HRound.new_sync.
Qed.

(** C19: whatever a peer sends, the reader ends, with the same events and the same
    state however the bytes were cut into reads; and a connection that goes on
    holds no more than a frame that has not all arrived and a header block within
    the limit. *)
Theorem h2_reads_bounded (maxFrame maxHeaderBytes maxContFrames : Z) (reads reads' : list bytes) :
  Forall bytes_ok reads -> Forall bytes_ok reads' -> reads <> [] -> reads' <> [] -> mjoin reads = mjoin reads' ->
  exists r evs, feeds maxFrame maxHeaderBytes maxContFrames newReader reads = Some (r, evs) /\ feeds maxFrame maxHeaderBytes maxContFrames newReader reads' = Some (r, evs) /\
    (closed r = false -> len (in_ r) < Z.max 24 (9 + Z.max 0 maxFrame) /\ len (contBlock r) <= Z.max 0 maxHeaderBytes).
Proof.
  intros Hb Hb' Hne Hne' E. destruct reads as [|d reads]; [congruence|]. destruct reads' as [|d' reads']; [congruence|]. inversion Hb as [|? ? Hd Hbs]; subst. inversion Hb' as [|? ? Hd' Hbs']; subst.
  rewrite !feeds_join by (auto; constructor). change (d' ++ mjoin reads') with (mjoin (d' :: reads')). rewrite <- E. change (mjoin (d :: reads)) with (d ++ mjoin reads) in *.
  assert (bytes_ok (d ++ mjoin reads)) as Hall by (apply bytes_ok_app; split; [exact Hd|]; clear -Hbs; induction Hbs; [constructor|apply bytes_ok_app; auto]).
  destruct (feed_total maxFrame maxHeaderBytes maxContFrames newReader (d ++ mjoin reads)) as (r & evs & Ef & _ & Hl); [constructor|exact Hall|]. exists r, evs. splits; auto. intros Hc. split; [now apply Hl|].
  refine (feed_held _ _ _ _ _ _ _ _ _ _ Ef Hc); [constructor|exact Hall|]. unfold held. change (len (contBlock newReader)) with 0. lia.
Qed.

(** The settings a peer lists are applied in its order, as it gave them. *)
Theorem h2_settings_roundtrip {A} (apply : A -> Z -> Z -> A * option herr) (l : list (Z * Z)) (a : A) :
  Forall (fun s => 0 <= fst s < 2 ^ 16 /\ 0 <= snd s < 2 ^ 32) l -> (forall a i v, snd (apply a i v) = None) ->
  h2ParseSettings apply a (mjoin (map settingBytes l)) = Some (foldl (fun a s => fst (apply a (fst s) (snd s))) a l, None).
Proof.
  intros Hl Hn. destruct (settings_frame l) as [_ El]. unfold h2ParseSettings. rewrite El, Z.mul_comm, Z.mod_mul by lia. cbn [negb Z.eqb]. assert (length l <= length (mjoin (map settingBytes l)))%nat as Hf by (unfold len in El; lia).
  clear El. revert a Hf. generalize (length (mjoin (map settingBytes l))) as fuel. induction Hl as [|[i v] l [Hi Hv] _ IH]; intros fuel a Hf; [destruct fuel; reflexivity|]. destruct fuel as [|fuel]; [cbn in Hf; lia|].
  cbn [map]. change (mjoin (settingBytes (i, v) :: map settingBytes l)) with (settingBytes (i, v) ++ mjoin (map settingBytes l)). unfold settingBytes at 1. cbn [fst snd] in *. rewrite <- app_assoc. cbn [settingsLoop]. rewrite len_app. change (len (putBE 2 (u16 i))) with 2. pose proof (len_nonneg (putBE 4 v ++ mjoin (map settingBytes l))). rewrite (proj2 (Z.eqb_neq _ 0)) by lia.
  rewrite (take_app_length' (putBE 2 (u16 i))), (drop_app_length' (putBE 2 (u16 i))), (take_app_length' (putBE 4 v)) by reflexivity. rewrite (be_putBE 2), (be_putBE 4), u16_id by (cbn; rewrite ?u16_id by exact Hi; lia). specialize (Hn a i v). destruct (apply a i v) as [a1 oe] eqn:Ea. cbn in Hn. subst oe.
  change (zdrop 6 (putBE 2 (u16 i) ++ putBE 4 v ++ mjoin (map settingBytes l))) with (mjoin (map settingBytes l)). cbn [foldl fst snd]. rewrite Ea. apply IH. cbn in Hf. lia.
Qed.

(** ** A connection *)

Definition user (v : Z) : HeaderField * bool := (mkField (str "x-user") [v], false).

(** A value that takes more than one frame of 16 bytes. *)
Definition long : HeaderField * bool := (mkField (str "x-note") (repeat 0x7e 10 ++ repeat 0x40 12), false).

Definition twoRequests : list send := [Req 1 [user 97] false; Other (IData 1 [1; 2; 3] true); Req 3 [user 98; long; user 97] true].

Definition twoItems : list item := default [] (sent HRound.testHash HEncoder.NewEncoder twoRequests).

Definition twoBytes : bytes := default [] (items_bytes 16 twoItems).

Definition connection : bytes := h2Preface ++ h2AppendSettings [] [(3, 100)] ++ twoBytes.

Lemma two_ok : Forall (item_ok 200 4 16) twoItems.
Proof. apply (List.Forall_cons); [|apply List.Forall_cons; [|apply List.Forall_cons; [|apply List.Forall_nil]]]; (split; [lia|]); [split; [reflexivity|left; now apply Z.leb_le]|now apply Z.leb_le|split; [reflexivity|right; split; now apply Z.leb_le]]. Qed.

Lemma two_reads : Forall bytes_ok [take 30 connection; drop 30 connection] /\ mjoin [take 30 connection; drop 30 connection] = connection.
Proof. split; [|reflexivity]. apply List.Forall_cons; [now apply bytes_okb_ok|]. apply List.Forall_cons; [now apply bytes_okb_ok|apply List.Forall_nil]. Qed.

Lemma h2_frames_delivered_witness :
  exists r evs, feeds 16384 200 4 newReader [take 30 connection; drop 30 connection] = Some (r, evs) /\ closed r = false /\ in_ r = [] /\ acts evs = map (fun it => Act (expects it)) (ISettings [(3, 100)] :: twoItems).
Proof.
  destruct two_reads as [Hb Hj]. destruct (h2_frames_delivered 16384 200 4 16 [(3, 100)] twoItems) as (w & E & H); [lia|lia|vm_compute; discriminate|exact two_ok|]. apply H; [exact Hb|]. rewrite Hj. unfold connection, twoBytes. now rewrite E.
Defined.

Lemma user_ok v : 0 <= v < 256 -> HRound.field_ok 200 (user v).1.
Proof. intros Hv. split; (split; [|split; [reflexivity|right; apply Z.leb_le; reflexivity]]); [now apply bytes_okb_ok|]. apply List.Forall_cons; [exact Hv|apply List.Forall_nil]. Qed.

Lemma long_ok : HRound.field_ok 200 long.1.
Proof. split; (split; [now apply bytes_okb_ok|split; [reflexivity|right; apply Z.leb_le; reflexivity]]). Qed.

(** The second block goes out in HEADERS and CONTINUATION. *)
Lemma h2_headers_delivered_witness :
  exists r evs, feeds 16384 200 4 newReader [take 30 connection; drop 30 connection] = Some (r, evs) /\
    requests HRound.testHash 200 (HRound.decoder_with 200) evs = Some [(1, [(user 97).1], false, false); (3, [(user 98).1; long.1; (user 97).1], true, false)] /\
    In (Act Nothing) evs.
Proof.
  destruct two_reads as [Hb Hj]. destruct (h2_headers_delivered HRound.testHash 16384 200 4 16 [(3, 100)] twoRequests) as (items & E & H); [lia|lia|vm_compute; discriminate| |].
  - apply List.Forall_cons; [split; [apply List.Forall_cons; [apply user_ok; lia|apply List.Forall_nil]|vm_compute; discriminate]|]. apply List.Forall_cons; [exact I|]. apply List.Forall_cons; [|apply List.Forall_nil]. split; [|vm_compute; discriminate].
    apply List.Forall_cons; [apply user_ok; lia|]. apply List.Forall_cons; [exact long_ok|]. apply List.Forall_cons; [apply user_ok; lia|apply List.Forall_nil].
  - assert (items = twoItems) as -> by (unfold twoItems; now rewrite E). destruct (H two_ok) as (w & Ew & Hr). destruct (Hr [take 30 connection; drop 30 connection] Hb) as (r & evs & Ef & Eq); [rewrite Hj; unfold connection, twoBytes; now rewrite Ew|]. exists r, evs. split; [exact Ef|]. split; [exact Eq|].
    vm_compute in Ef. injection Ef as <- <-. cbn. tauto.
Defined.

Lemma h2_reads_bounded_witness :
  exists r evs, feeds 16384 100 4 newReader [take 30 connection; drop 30 connection] = Some (r, evs) /\ feeds 16384 100 4 newReader [connection] = Some (r, evs).
Proof.
  destruct two_reads as [Hb Hj]. destruct (h2_reads_bounded 16384 100 4 [take 30 connection; drop 30 connection] [connection]) as (r & evs & E1 & E2 & _); [exact Hb|apply List.Forall_cons; [now apply bytes_okb_ok|apply List.Forall_nil]|discriminate|discriminate|reflexivity|]. exists r, evs. auto.
Defined.

Lemma h2_settings_roundtrip_witness : h2ParseSettings (fun l i v => (l ++ [(i, v)], None)) [] (mjoin (map settingBytes [(3, 100); (4, 65535)])) = Some ([(3, 100); (4, 65535)], None).
Proof. apply (h2_settings_roundtrip (fun l i v => (l ++ [(i, v)], None)) [(3, 100); (4, 65535)] []); [|reflexivity]. apply List.Forall_cons; [cbn; lia|]. apply List.Forall_cons; [cbn; lia|apply List.Forall_nil]. Defined.

(** ** A header block that is not decoded *)

(** HEADERS of a whole block with the priority field, of a stream that depends
    on itself. *)
Definition selfDependent (id : Z) (b : bytes) : bytes :=
  h2AppendFrameHeader [] h2FrameHeaders (h2FlagEndStream .| h2FlagEndHeaders .| h2FlagPriority) id (5 + len b) ++ (putBE 4 id ++ [16]) ++ b.

Definition threeBlocks : list bytes :=
  match sent HRound.testHash HEncoder.NewEncoder [Req 1 [user 97] true; Req 3 [user 98] true; Req 5 [user 98] true] with
  | Some items => map (fun it => match it with IBlock _ b _ => b | _ => [] end) items
  | None => []
  end.

(** The three blocks on their streams, the second with a priority of its own. *)
Definition threeFrames : bytes :=
  match threeBlocks with
  | [b1; b2; b3] => h2Preface ++ h2AppendSettings [] [] ++ frame h2FrameHeaders 5 1 b1 ++ selfDependent 3 b2 ++ frame h2FrameHeaders 5 5 b3
  | _ => []
  end.

(** C22: a header block with a priority that depends on its own stream resets the
    stream without being decoded, and the connection goes on with a dynamic table
    that is no longer the client's: in the next block the user "b", which the client
    refers to by its index, is read as "a". *)
Theorem h2_priority_desync :
  match feeds 16384 100 4 newReader [threeFrames] with
  | Some (r, evs) => closed r = false /\ In (Reset 3 H2ProtocolError) evs /\ requests HRound.testHash 100 (HRound.decoder_with 100) evs = Some [(1, [(user 97).1], true, false); (5, [(user 97).1], true, false)]
  | None => False
  end.
Proof. vm_compute. auto 10. Qed.

End H2Round.
