(* ===== verification/H2Send.v ===== *)
(** * Sending response bodies over HTTP/2 (src/http/h2_server.go)

    What the windows of the connection and of its streams let go of the bodies
    that wait, the turns the streams take at it, and what becomes of a stream
    once its body has gone. Streams are named by their numbers. Timers, wake-ups
    and callbacks on other goroutines are left out: they touch nothing here. *)

From S2P Require Import Prelude HpackTables HpackTable HpackDecoder HpackEncoder HpackRoundtrip H2Frame H2Roundtrip.
From stdpp Require Import base list numbers gmap.
From Stdlib Require Import ZArith Lia.

Local Open Scope Z_scope.
Local Open Scope go_scope.

Module H2Send.
Import H2.

(** ** State *)

Record stream : Type := mkStream {
  sid : Z;
  (** What of the body is still to be framed. *)
  pending : bytes;
  sWindow : Z;
  weight : Z;
  turn : Z;
  queued : bool;
  shared : bool;
  (** Of a tunnel: whether it is upgraded, and whether it is ending. *)
  tunnel : option (bool * bool);
  (** Of a response that streams: whether it is ending. *)
  streaming : option bool;
  trailer : option (list (HeaderField * bool));
  localDone : bool;
  remoteDone : bool;
  responded : bool;
  reset : bool;
  connHeld : Z;
  pushed : bool
}.

Definition st_sid (c : stream) (x : Z) : stream := mkStream x (pending c) (sWindow c) (weight c) (turn c) (queued c) (shared c) (tunnel c) (streaming c) (trailer c) (localDone c) (remoteDone c) (responded c) (reset c) (connHeld c) (pushed c).
Definition st_pending (c : stream) (x : bytes) : stream := mkStream (sid c) x (sWindow c) (weight c) (turn c) (queued c) (shared c) (tunnel c) (streaming c) (trailer c) (localDone c) (remoteDone c) (responded c) (reset c) (connHeld c) (pushed c).
Definition st_sWindow (c : stream) (x : Z) : stream := mkStream (sid c) (pending c) x (weight c) (turn c) (queued c) (shared c) (tunnel c) (streaming c) (trailer c) (localDone c) (remoteDone c) (responded c) (reset c) (connHeld c) (pushed c).
Definition st_weight (c : stream) (x : Z) : stream := mkStream (sid c) (pending c) (sWindow c) x (turn c) (queued c) (shared c) (tunnel c) (streaming c) (trailer c) (localDone c) (remoteDone c) (responded c) (reset c) (connHeld c) (pushed c).
Definition st_turn (c : stream) (x : Z) : stream := mkStream (sid c) (pending c) (sWindow c) (weight c) x (queued c) (shared c) (tunnel c) (streaming c) (trailer c) (localDone c) (remoteDone c) (responded c) (reset c) (connHeld c) (pushed c).
Definition st_queued (c : stream) (x : bool) : stream := mkStream (sid c) (pending c) (sWindow c) (weight c) (turn c) x (shared c) (tunnel c) (streaming c) (trailer c) (localDone c) (remoteDone c) (responded c) (reset c) (connHeld c) (pushed c).
Definition st_shared (c : stream) (x : bool) : stream := mkStream (sid c) (pending c) (sWindow c) (weight c) (turn c) (queued c) x (tunnel c) (streaming c) (trailer c) (localDone c) (remoteDone c) (responded c) (reset c) (connHeld c) (pushed c).
Definition st_tunnel (c : stream) (x : option (bool * bool)) : stream := mkStream (sid c) (pending c) (sWindow c) (weight c) (turn c) (queued c) (shared c) x (streaming c) (trailer c) (localDone c) (remoteDone c) (responded c) (reset c) (connHeld c) (pushed c).
Definition st_streaming (c : stream) (x : option bool) : stream := mkStream (sid c) (pending c) (sWindow c) (weight c) (turn c) (queued c) (shared c) (tunnel c) x (trailer c) (localDone c) (remoteDone c) (responded c) (reset c) (connHeld c) (pushed c).
Definition st_trailer (c : stream) (x : option (list (HeaderField * bool))) : stream := mkStream (sid c) (pending c) (sWindow c) (weight c) (turn c) (queued c) (shared c) (tunnel c) (streaming c) x (localDone c) (remoteDone c) (responded c) (reset c) (connHeld c) (pushed c).
Definition st_localDone (c : stream) (x : bool) : stream := mkStream (sid c) (pending c) (sWindow c) (weight c) (turn c) (queued c) (shared c) (tunnel c) (streaming c) (trailer c) x (remoteDone c) (responded c) (reset c) (connHeld c) (pushed c).
Definition st_remoteDone (c : stream) (x : bool) : stream := mkStream (sid c) (pending c) (sWindow c) (weight c) (turn c) (queued c) (shared c) (tunnel c) (streaming c) (trailer c) (localDone c) x (responded c) (reset c) (connHeld c) (pushed c).
Definition st_responded (c : stream) (x : bool) : stream := mkStream (sid c) (pending c) (sWindow c) (weight c) (turn c) (queued c) (shared c) (tunnel c) (streaming c) (trailer c) (localDone c) (remoteDone c) x (reset c) (connHeld c) (pushed c).
Definition st_reset (c : stream) (x : bool) : stream := mkStream (sid c) (pending c) (sWindow c) (weight c) (turn c) (queued c) (shared c) (tunnel c) (streaming c) (trailer c) (localDone c) (remoteDone c) (responded c) x (connHeld c) (pushed c).
Definition st_connHeld (c : stream) (x : Z) : stream := mkStream (sid c) (pending c) (sWindow c) (weight c) (turn c) (queued c) (shared c) (tunnel c) (streaming c) (trailer c) (localDone c) (remoteDone c) (responded c) (reset c) x (pushed c).
Definition st_pushed (c : stream) (x : bool) : stream := mkStream (sid c) (pending c) (sWindow c) (weight c) (turn c) (queued c) (shared c) (tunnel c) (streaming c) (trailer c) (localDone c) (remoteDone c) (responded c) (reset c) (connHeld c) x.

Record conn : Type := mkConn {
  streams : gmap Z stream;
  (** The streams waiting for the windows, by their numbers, from [sendHead] on. *)
  sendQueue : list (option Z);
  sendHead : nat;
  sendWindow : Z;
  peerMaxFrame : Z;
  enc : HEncoder.Encoder;
  goAway : bool;
  peerGoingAway : bool;
  closeScheduled : bool;
  closed : bool;
  outputFull : bool;
  drainArmed : bool;
  (** What the socket's queue leaves room for each time it is asked; [] is a connection without a limit. *)
  rooms : list Z;
  recvWindow : Z;
  recvUnacked : Z;
  connWindow : Z;
  pushedStreams : Z;
  peerWindow : Z;
  pushEnabled : bool;
  peerMaxPush : Z;
  peerMaxHeaderList : Z;
  maxClientID : Z;
  nextPushID : Z;
  lastStreamID : Z;
  maxStreams : Z;
  (** Whether a layer such as TLS is between the connection and its socket. *)
  layered : bool;
  (** All that was handed to the connection. *)
  wire : bytes
}.

Definition set_streams (c : conn) (x : gmap Z stream) : conn := mkConn x (sendQueue c) (sendHead c) (sendWindow c) (peerMaxFrame c) (enc c) (goAway c) (peerGoingAway c) (closeScheduled c) (closed c) (outputFull c) (drainArmed c) (rooms c) (recvWindow c) (recvUnacked c) (connWindow c) (pushedStreams c) (peerWindow c) (pushEnabled c) (peerMaxPush c) (peerMaxHeaderList c) (maxClientID c) (nextPushID c) (lastStreamID c) (maxStreams c) (layered c) (wire c).
Definition set_sendQueue (c : conn) (x : list (option Z)) : conn := mkConn (streams c) x (sendHead c) (sendWindow c) (peerMaxFrame c) (enc c) (goAway c) (peerGoingAway c) (closeScheduled c) (closed c) (outputFull c) (drainArmed c) (rooms c) (recvWindow c) (recvUnacked c) (connWindow c) (pushedStreams c) (peerWindow c) (pushEnabled c) (peerMaxPush c) (peerMaxHeaderList c) (maxClientID c) (nextPushID c) (lastStreamID c) (maxStreams c) (layered c) (wire c).
Definition set_sendHead (c : conn) (x : nat) : conn := mkConn (streams c) (sendQueue c) x (sendWindow c) (peerMaxFrame c) (enc c) (goAway c) (peerGoingAway c) (closeScheduled c) (closed c) (outputFull c) (drainArmed c) (rooms c) (recvWindow c) (recvUnacked c) (connWindow c) (pushedStreams c) (peerWindow c) (pushEnabled c) (peerMaxPush c) (peerMaxHeaderList c) (maxClientID c) (nextPushID c) (lastStreamID c) (maxStreams c) (layered c) (wire c).
Definition set_sendWindow (c : conn) (x : Z) : conn := mkConn (streams c) (sendQueue c) (sendHead c) x (peerMaxFrame c) (enc c) (goAway c) (peerGoingAway c) (closeScheduled c) (closed c) (outputFull c) (drainArmed c) (rooms c) (recvWindow c) (recvUnacked c) (connWindow c) (pushedStreams c) (peerWindow c) (pushEnabled c) (peerMaxPush c) (peerMaxHeaderList c) (maxClientID c) (nextPushID c) (lastStreamID c) (maxStreams c) (layered c) (wire c).
Definition set_peerMaxFrame (c : conn) (x : Z) : conn := mkConn (streams c) (sendQueue c) (sendHead c) (sendWindow c) x (enc c) (goAway c) (peerGoingAway c) (closeScheduled c) (closed c) (outputFull c) (drainArmed c) (rooms c) (recvWindow c) (recvUnacked c) (connWindow c) (pushedStreams c) (peerWindow c) (pushEnabled c) (peerMaxPush c) (peerMaxHeaderList c) (maxClientID c) (nextPushID c) (lastStreamID c) (maxStreams c) (layered c) (wire c).
Definition set_enc (c : conn) (x : HEncoder.Encoder) : conn := mkConn (streams c) (sendQueue c) (sendHead c) (sendWindow c) (peerMaxFrame c) x (goAway c) (peerGoingAway c) (closeScheduled c) (closed c) (outputFull c) (drainArmed c) (rooms c) (recvWindow c) (recvUnacked c) (connWindow c) (pushedStreams c) (peerWindow c) (pushEnabled c) (peerMaxPush c) (peerMaxHeaderList c) (maxClientID c) (nextPushID c) (lastStreamID c) (maxStreams c) (layered c) (wire c).
Definition set_goAway (c : conn) (x : bool) : conn := mkConn (streams c) (sendQueue c) (sendHead c) (sendWindow c) (peerMaxFrame c) (enc c) x (peerGoingAway c) (closeScheduled c) (closed c) (outputFull c) (drainArmed c) (rooms c) (recvWindow c) (recvUnacked c) (connWindow c) (pushedStreams c) (peerWindow c) (pushEnabled c) (peerMaxPush c) (peerMaxHeaderList c) (maxClientID c) (nextPushID c) (lastStreamID c) (maxStreams c) (layered c) (wire c).
Definition set_peerGoingAway (c : conn) (x : bool) : conn := mkConn (streams c) (sendQueue c) (sendHead c) (sendWindow c) (peerMaxFrame c) (enc c) (goAway c) x (closeScheduled c) (closed c) (outputFull c) (drainArmed c) (rooms c) (recvWindow c) (recvUnacked c) (connWindow c) (pushedStreams c) (peerWindow c) (pushEnabled c) (peerMaxPush c) (peerMaxHeaderList c) (maxClientID c) (nextPushID c) (lastStreamID c) (maxStreams c) (layered c) (wire c).
Definition set_closeScheduled (c : conn) (x : bool) : conn := mkConn (streams c) (sendQueue c) (sendHead c) (sendWindow c) (peerMaxFrame c) (enc c) (goAway c) (peerGoingAway c) x (closed c) (outputFull c) (drainArmed c) (rooms c) (recvWindow c) (recvUnacked c) (connWindow c) (pushedStreams c) (peerWindow c) (pushEnabled c) (peerMaxPush c) (peerMaxHeaderList c) (maxClientID c) (nextPushID c) (lastStreamID c) (maxStreams c) (layered c) (wire c).
Definition set_closed (c : conn) (x : bool) : conn := mkConn (streams c) (sendQueue c) (sendHead c) (sendWindow c) (peerMaxFrame c) (enc c) (goAway c) (peerGoingAway c) (closeScheduled c) x (outputFull c) (drainArmed c) (rooms c) (recvWindow c) (recvUnacked c) (connWindow c) (pushedStreams c) (peerWindow c) (pushEnabled c) (peerMaxPush c) (peerMaxHeaderList c) (maxClientID c) (nextPushID c) (lastStreamID c) (maxStreams c) (layered c) (wire c).
Definition set_outputFull (c : conn) (x : bool) : conn := mkConn (streams c) (sendQueue c) (sendHead c) (sendWindow c) (peerMaxFrame c) (enc c) (goAway c) (peerGoingAway c) (closeScheduled c) (closed c) x (drainArmed c) (rooms c) (recvWindow c) (recvUnacked c) (connWindow c) (pushedStreams c) (peerWindow c) (pushEnabled c) (peerMaxPush c) (peerMaxHeaderList c) (maxClientID c) (nextPushID c) (lastStreamID c) (maxStreams c) (layered c) (wire c).
Definition set_drainArmed (c : conn) (x : bool) : conn := mkConn (streams c) (sendQueue c) (sendHead c) (sendWindow c) (peerMaxFrame c) (enc c) (goAway c) (peerGoingAway c) (closeScheduled c) (closed c) (outputFull c) x (rooms c) (recvWindow c) (recvUnacked c) (connWindow c) (pushedStreams c) (peerWindow c) (pushEnabled c) (peerMaxPush c) (peerMaxHeaderList c) (maxClientID c) (nextPushID c) (lastStreamID c) (maxStreams c) (layered c) (wire c).
Definition set_rooms (c : conn) (x : list Z) : conn := mkConn (streams c) (sendQueue c) (sendHead c) (sendWindow c) (peerMaxFrame c) (enc c) (goAway c) (peerGoingAway c) (closeScheduled c) (closed c) (outputFull c) (drainArmed c) x (recvWindow c) (recvUnacked c) (connWindow c) (pushedStreams c) (peerWindow c) (pushEnabled c) (peerMaxPush c) (peerMaxHeaderList c) (maxClientID c) (nextPushID c) (lastStreamID c) (maxStreams c) (layered c) (wire c).
Definition set_recvWindow (c : conn) (x : Z) : conn := mkConn (streams c) (sendQueue c) (sendHead c) (sendWindow c) (peerMaxFrame c) (enc c) (goAway c) (peerGoingAway c) (closeScheduled c) (closed c) (outputFull c) (drainArmed c) (rooms c) x (recvUnacked c) (connWindow c) (pushedStreams c) (peerWindow c) (pushEnabled c) (peerMaxPush c) (peerMaxHeaderList c) (maxClientID c) (nextPushID c) (lastStreamID c) (maxStreams c) (layered c) (wire c).
Definition set_recvUnacked (c : conn) (x : Z) : conn := mkConn (streams c) (sendQueue c) (sendHead c) (sendWindow c) (peerMaxFrame c) (enc c) (goAway c) (peerGoingAway c) (closeScheduled c) (closed c) (outputFull c) (drainArmed c) (rooms c) (recvWindow c) x (connWindow c) (pushedStreams c) (peerWindow c) (pushEnabled c) (peerMaxPush c) (peerMaxHeaderList c) (maxClientID c) (nextPushID c) (lastStreamID c) (maxStreams c) (layered c) (wire c).
Definition set_connWindow (c : conn) (x : Z) : conn := mkConn (streams c) (sendQueue c) (sendHead c) (sendWindow c) (peerMaxFrame c) (enc c) (goAway c) (peerGoingAway c) (closeScheduled c) (closed c) (outputFull c) (drainArmed c) (rooms c) (recvWindow c) (recvUnacked c) x (pushedStreams c) (peerWindow c) (pushEnabled c) (peerMaxPush c) (peerMaxHeaderList c) (maxClientID c) (nextPushID c) (lastStreamID c) (maxStreams c) (layered c) (wire c).
Definition set_pushedStreams (c : conn) (x : Z) : conn := mkConn (streams c) (sendQueue c) (sendHead c) (sendWindow c) (peerMaxFrame c) (enc c) (goAway c) (peerGoingAway c) (closeScheduled c) (closed c) (outputFull c) (drainArmed c) (rooms c) (recvWindow c) (recvUnacked c) (connWindow c) x (peerWindow c) (pushEnabled c) (peerMaxPush c) (peerMaxHeaderList c) (maxClientID c) (nextPushID c) (lastStreamID c) (maxStreams c) (layered c) (wire c).
Definition set_peerWindow (c : conn) (x : Z) : conn := mkConn (streams c) (sendQueue c) (sendHead c) (sendWindow c) (peerMaxFrame c) (enc c) (goAway c) (peerGoingAway c) (closeScheduled c) (closed c) (outputFull c) (drainArmed c) (rooms c) (recvWindow c) (recvUnacked c) (connWindow c) (pushedStreams c) x (pushEnabled c) (peerMaxPush c) (peerMaxHeaderList c) (maxClientID c) (nextPushID c) (lastStreamID c) (maxStreams c) (layered c) (wire c).
Definition set_pushEnabled (c : conn) (x : bool) : conn := mkConn (streams c) (sendQueue c) (sendHead c) (sendWindow c) (peerMaxFrame c) (enc c) (goAway c) (peerGoingAway c) (closeScheduled c) (closed c) (outputFull c) (drainArmed c) (rooms c) (recvWindow c) (recvUnacked c) (connWindow c) (pushedStreams c) (peerWindow c) x (peerMaxPush c) (peerMaxHeaderList c) (maxClientID c) (nextPushID c) (lastStreamID c) (maxStreams c) (layered c) (wire c).
Definition set_peerMaxPush (c : conn) (x : Z) : conn := mkConn (streams c) (sendQueue c) (sendHead c) (sendWindow c) (peerMaxFrame c) (enc c) (goAway c) (peerGoingAway c) (closeScheduled c) (closed c) (outputFull c) (drainArmed c) (rooms c) (recvWindow c) (recvUnacked c) (connWindow c) (pushedStreams c) (peerWindow c) (pushEnabled c) x (peerMaxHeaderList c) (maxClientID c) (nextPushID c) (lastStreamID c) (maxStreams c) (layered c) (wire c).
Definition set_peerMaxHeaderList (c : conn) (x : Z) : conn := mkConn (streams c) (sendQueue c) (sendHead c) (sendWindow c) (peerMaxFrame c) (enc c) (goAway c) (peerGoingAway c) (closeScheduled c) (closed c) (outputFull c) (drainArmed c) (rooms c) (recvWindow c) (recvUnacked c) (connWindow c) (pushedStreams c) (peerWindow c) (pushEnabled c) (peerMaxPush c) x (maxClientID c) (nextPushID c) (lastStreamID c) (maxStreams c) (layered c) (wire c).
Definition set_maxClientID (c : conn) (x : Z) : conn := mkConn (streams c) (sendQueue c) (sendHead c) (sendWindow c) (peerMaxFrame c) (enc c) (goAway c) (peerGoingAway c) (closeScheduled c) (closed c) (outputFull c) (drainArmed c) (rooms c) (recvWindow c) (recvUnacked c) (connWindow c) (pushedStreams c) (peerWindow c) (pushEnabled c) (peerMaxPush c) (peerMaxHeaderList c) x (nextPushID c) (lastStreamID c) (maxStreams c) (layered c) (wire c).
Definition set_nextPushID (c : conn) (x : Z) : conn := mkConn (streams c) (sendQueue c) (sendHead c) (sendWindow c) (peerMaxFrame c) (enc c) (goAway c) (peerGoingAway c) (closeScheduled c) (closed c) (outputFull c) (drainArmed c) (rooms c) (recvWindow c) (recvUnacked c) (connWindow c) (pushedStreams c) (peerWindow c) (pushEnabled c) (peerMaxPush c) (peerMaxHeaderList c) (maxClientID c) x (lastStreamID c) (maxStreams c) (layered c) (wire c).
Definition set_lastStreamID (c : conn) (x : Z) : conn := mkConn (streams c) (sendQueue c) (sendHead c) (sendWindow c) (peerMaxFrame c) (enc c) (goAway c) (peerGoingAway c) (closeScheduled c) (closed c) (outputFull c) (drainArmed c) (rooms c) (recvWindow c) (recvUnacked c) (connWindow c) (pushedStreams c) (peerWindow c) (pushEnabled c) (peerMaxPush c) (peerMaxHeaderList c) (maxClientID c) (nextPushID c) x (maxStreams c) (layered c) (wire c).
Definition set_maxStreams (c : conn) (x : Z) : conn := mkConn (streams c) (sendQueue c) (sendHead c) (sendWindow c) (peerMaxFrame c) (enc c) (goAway c) (peerGoingAway c) (closeScheduled c) (closed c) (outputFull c) (drainArmed c) (rooms c) (recvWindow c) (recvUnacked c) (connWindow c) (pushedStreams c) (peerWindow c) (pushEnabled c) (peerMaxPush c) (peerMaxHeaderList c) (maxClientID c) (nextPushID c) (lastStreamID c) x (layered c) (wire c).
Definition set_layered (c : conn) (x : bool) : conn := mkConn (streams c) (sendQueue c) (sendHead c) (sendWindow c) (peerMaxFrame c) (enc c) (goAway c) (peerGoingAway c) (closeScheduled c) (closed c) (outputFull c) (drainArmed c) (rooms c) (recvWindow c) (recvUnacked c) (connWindow c) (pushedStreams c) (peerWindow c) (pushEnabled c) (peerMaxPush c) (peerMaxHeaderList c) (maxClientID c) (nextPushID c) (lastStreamID c) (maxStreams c) x (wire c).
Definition set_wire (c : conn) (x : bytes) : conn := mkConn (streams c) (sendQueue c) (sendHead c) (sendWindow c) (peerMaxFrame c) (enc c) (goAway c) (peerGoingAway c) (closeScheduled c) (closed c) (outputFull c) (drainArmed c) (rooms c) (recvWindow c) (recvUnacked c) (connWindow c) (pushedStreams c) (peerWindow c) (pushEnabled c) (peerMaxPush c) (peerMaxHeaderList c) (maxClientID c) (nextPushID c) (lastStreamID c) (maxStreams c) (layered c) x.

(** ** The connection's output *)

Definition h2MaxQueuedOutput : Z := 2 ^ 20.
Definition h2QueuedSlack : Z := h2DefaultMaxFrameSize + 4 * 2 ^ 10.
Definition maxCopiedResponseBody : Z := 4 * 2 ^ 10.
Definition MaxInt64 : Z := 2 ^ 63 - 1.
Definition H2NoError : Z := 0.
Definition H2InternalError : Z := 2.
Definition H2FlowControlError : Z := 3.
Definition H2RefusedStream : Z := 7.

Definition upgraded (st : stream) : bool := match tunnel st with Some (up, _) => up | None => false end.

(** [drained] is to run once the socket has taken most of its queue. *)
Definition armDrainLocked (c : conn) : conn :=
  if negb (outputFull c) || drainArmed c || closed c then c else set_drainArmed (set_outputFull c false) true.

(** Bytes handed to the connection, and [sendPooledLocked], which differs in who
    owns the buffer. *)
Definition sendLocked (c : conn) (out : bytes) : conn :=
  armDrainLocked (if negb (len out =? 0) && negb (closed c) then set_wire c (wire c ++ out) else c).

Definition outputRoomLocked (c : conn) (out : bytes) : conn * Z :=
  match rooms c with
  | [] => (c, MaxInt64)
  | queued :: l =>
      let c := set_rooms c l in
      let room := h2MaxQueuedOutput - h2QueuedSlack - queued - len out in
      if room <=? 0 then (set_outputFull c true, 0) else (c, room)
  end.

Definition frameRoom (room : Z) : Z := if (room <=? 0) || (room =? MaxInt64) then room else room + h2DefaultMaxFrameSize.

Definition streamRoomLocked (c : conn) (st : stream) (out : bytes) : conn * Z :=
  match streaming st, tunnel st with
  | None, None => let '(c, room) := outputRoomLocked c out in (c, frameRoom room)
  | _, _ => (c, MaxInt64)
  end.

Definition sendSharedLocked (c : conn) (out : bytes) (id flags : Z) (chunk : bytes) : conn :=
  if closed c then c else set_wire c (wire c ++ out ++ h2AppendFrameHeader [] h2FrameData flags id (len chunk) ++ chunk).

(** ** Streams that are done *)

Definition creditConnLocked (c : conn) (out : bytes) (n : Z) : conn * bytes :=
  let c := set_recvUnacked c (recvUnacked c + n) in
  if (recvUnacked c =? 0) || (recvUnacked c <? connWindow c / 2) && (recvUnacked c <? recvWindow c) then (c, out)
  else
    let out := h2AppendWindowUpdate out 0 (u32 (recvUnacked c)) in
    (set_recvUnacked (set_recvWindow c (recvWindow c + recvUnacked c)) 0, out).

Definition compactQueueLocked (c : conn) : conn :=
  if (sendHead c =? length (sendQueue c))%nat then set_sendHead (set_sendQueue c []) 0
  else if (length (sendQueue c) / 2 <? sendHead c)%nat then set_sendHead (set_sendQueue c (drop (sendHead c) (sendQueue c))) 0
  else c.

Definition put (c : conn) (st : stream) : conn := set_streams c (<[sid st := st]> (streams c)).

(** The queue without [id], which is in it once. *)
Fixpoint unqueue (id : Z) (q : list (option Z)) : list (option Z) :=
  match q with
  | [] => []
  | x :: q => if bool_decide (x = Some id) then q else x :: unqueue id q
  end.

Definition dequeueLocked (c : conn) (st : stream) : conn * stream :=
  let st := st_turn st 0 in
  if negb (queued st) then (c, st)
  else (compactQueueLocked (set_sendQueue c (take (sendHead c) (sendQueue c) ++ unqueue (sid st) (drop (sendHead c) (sendQueue c)))), st_queued st false).

(** What of [forgetLocked] is the connection's: the queue, the window a body
    held, and the stream's place. *)
Definition forgetLocked (c : conn) (st : stream) : conn :=
  let st := st_reset st (reset st || negb (localDone st)) in
  let st := st_pending st [] in
  let '(c, st) := dequeueLocked c st in
  if negb (bool_decide (is_Some (streams c !! sid st))) then c
  else
    let c := if 0 <? connHeld st then let '(c, out) := creditConnLocked c [] (connHeld st) in sendLocked c out else c in
    let c := set_streams c (delete (sid st) (streams c)) in
    if pushed st then set_pushedStreams c (pushedStreams c - 1) else c.

Definition closeFinishedLocked (c : conn) : conn :=
  if closed c || closeScheduled c || negb (goAway c) && negb (peerGoingAway c) || negb (bool_decide (streams c = ∅)) then c
  else if negb (goAway c) then set_closeScheduled c true
  else set_closed c true.

Definition finishStreamLocked (c : conn) (st : stream) : conn :=
  if negb (localDone st) || reset st then c
  else if upgraded st then if remoteDone st then closeFinishedLocked (forgetLocked c st) else c
  else
    let '(c, st) := if negb (remoteDone st) then (sendLocked c (h2AppendRSTStream [] (sid st) H2NoError), st_reset st true) else (c, st) in
    closeFinishedLocked (forgetLocked c st).

(** ** Framing a stream *)

Section Hash.
Context (maphash : bytes -> Z).

(** The trailers, encoded as they go out. *)
Definition endStreamLocked (c : conn) (out : bytes) (st : stream) : option (conn * bytes * stream) :=
  let st := st_localDone st true in
  match trailer st with
  | None => Some (c, out, st)
  | Some fields =>
      match HEncoder.encodeBlock maphash (enc c) fields with
      | None => None
      | Some (e, block) =>
          match h2AppendHeaderBlock out (sid st) block true (peerMaxFrame c) with
          | None => None
          | Some out => Some (set_enc c e, out, st_trailer st None)
          end
      end
  end.

(** Whether the last of what is pending is the last of the stream, and the flags
    of the frame that carries it. *)
Definition ending (st : stream) : bool * Z :=
  if upgraded st then match tunnel st with Some (_, true) => (true, h2FlagEndStream) | _ => (false, 0) end
  else match streaming st with
       | Some false => (false, 0)
       | _ => match trailer st with None => (true, h2FlagEndStream) | Some _ => (true, 0) end
       end.

Fixpoint flushStreamUpToLocked (fuel : nat) (c : conn) (out : bytes) (st : stream) (quota : Z) : option (conn * bytes * stream) :=
  if len (pending st) =? 0 then Some (c, out, st)
  else
    match fuel with
    | O => None
    | S fuel =>
        let '(c, room) := streamRoomLocked c st out in
        if room <=? 0 then Some (c, out, st)
        else
          let n := Z.min (len (pending st)) (Z.min (sendWindow c) (Z.min (sWindow st) (Z.min (peerMaxFrame c) (Z.min quota room)))) in
          if n <=? 0 then Some (c, out, st)
          else
            let quota := quota - n in
            let chunk := ztake n (pending st) in
            let st := st_pending st (zdrop n (pending st)) in
            let '(last, flags) := if len (pending st) =? 0 then ending st else (false, 0) in
            let '(c, out) :=
              if shared st && (maxCopiedResponseBody <? len chunk) then (sendSharedLocked c out (sid st) flags chunk, [])
              else (c, h2AppendFrameHeader out h2FrameData flags (sid st) (len chunk) ++ chunk) in
            let c := set_sendWindow c (sendWindow c - n) in
            let st := st_sWindow st (sWindow st - n) in
            match (if last then endStreamLocked c out st else Some (c, out, st)) with
            | None => None
            | Some (c, out, st) => flushStreamUpToLocked fuel c out st quota
            end
    end.

(** ** Turns *)

Definition enqueueLocked (c : conn) (st : stream) : conn :=
  if queued st then put c st else set_sendQueue (put c (st_queued st true)) (sendQueue c ++ [Some (sid st)]).

(** The head of the queue gone from it, with its turn. *)
Definition popHead (c : conn) (st : stream) : conn * stream :=
  (set_sendHead (set_sendQueue c (<[sendHead c := None]> (sendQueue c))) (S (sendHead c)), st_turn (st_queued st false) 0).

Definition yieldLocked (c : conn) (st : stream) : conn := let '(c, st) := popHead c st in enqueueLocked c st.

Definition flushStreamLocked (c : conn) (out : bytes) (st : stream) : option (conn * bytes) :=
  match flushStreamUpToLocked (length (pending st)) c out st MaxInt64 with
  | None => None
  | Some (c, out, st) => Some (if 0 <? len (pending st) then enqueueLocked c st else put c st, out)
  end.

(** The turn of the stream at the head: [inl] to go on, with the count of turns
    in a row that sent nothing, [inr] to stop. *)
Definition turnLocked (c : conn) (out : bytes) (stalled : Z) (st : stream) : option (conn * bytes * (Z + unit)) :=
  if len (pending st) =? 0 then let '(c, st) := popHead c st in Some (put c st, out, inl stalled)
  else
    let st := if turn st =? 0 then st_turn st (weight st) else st in
    let before := len (pending st) in
    match flushStreamUpToLocked (length (pending st)) c out st (peerMaxFrame c) with
    | None => None
    | Some (c, out, st) =>
        if len (pending st) =? before then Some (yieldLocked c st, out, inl (stalled + 1))
        else
          let st := st_turn st (u8 (turn st - 1)) in
          if len (pending st) =? 0 then let '(c, st) := popHead c st in Some (finishStreamLocked (put c st) st, out, inl 0)
          else if (0 <? turn st) && (0 <? sWindow st) then Some (put c st, out, if sendWindow c <=? 0 then inr () else inl 0)
          else let c := yieldLocked c st in Some (c, out, if sendWindow c <=? 0 then inr () else inl 0)
    end.

Fixpoint flushLoop (fuel : nat) (c : conn) (out : bytes) (stalled : Z) : option (conn * bytes) :=
  if negb ((0 <? sendWindow c) && (stalled <? Z.of_nat (length (sendQueue c)) - Z.of_nat (sendHead c))) then Some (c, out)
  else
    match fuel with
    | O => None
    | S fuel =>
        let '(c, room) := outputRoomLocked c out in
        if room <=? 0 then Some (c, out)
        else
          match sendQueue c !! sendHead c with
          | Some (Some id) =>
              match streams c !! id with
              | Some st =>
                  match turnLocked c out stalled st with
                  | None => None
                  | Some (c, out, inr _) => Some (c, out)
                  | Some (c, out, inl stalled) => flushLoop fuel c out stalled
                  end
              | None => None
              end
          | _ => None
          end
    end.

Definition flushLocked (fuel : nat) (c : conn) (out : bytes) : option (conn * bytes) :=
  match flushLoop fuel c out 0 with None => None | Some (c, out) => Some (compactQueueLocked c, out) end.

(** What every handler that opens the windows ends with, after what it sends itself. *)
Definition sendFlushed (fuel : nat) (c : conn) (out : bytes) : option conn :=
  match flushLocked fuel c out with None => None | Some (c, out) => Some (closeFinishedLocked (sendLocked c out)) end.

Definition drained (fuel : nat) (c : conn) : option conn :=
  let c := set_drainArmed c false in
  if closed c || (sendHead c =? length (sendQueue c))%nat then Some c
  else
    let '(c, out) := outputRoomLocked c [] in
    let room := Z.min out (Z.max (sendWindow c) 0) in
    if room <=? 0 then Some (armDrainLocked c) else sendFlushed fuel c [].

(** A stream that was not opened yet. *)
Definition idleLocked (c : conn) (id : Z) : bool := if id mod 2 =? 0 then nextPushID c <=? id else maxClientID c <? id.

Definition handleWindowUpdate (fuel : nat) (c : conn) (f : h2Frame) : option (conn * option herr) :=
  if negb (len (payload f) =? 4) then Some (c, Some (ConnErr H2FrameSizeError))
  else
    let increment := be (payload f) .& 0x7fffffff in
    if streamID f =? 0 then
      if increment =? 0 then Some (c, Some (ConnErr H2ProtocolError))
      else
        let c := set_sendWindow c (sendWindow c + increment) in
        if h2MaxWindow <? sendWindow c then Some (c, Some (ConnErr H2FlowControlError))
        else match sendFlushed fuel c [] with None => None | Some c => Some (c, None) end
    else if idleLocked c (streamID f) then Some (c, Some (ConnErr H2ProtocolError))
    else
      match streams c !! streamID f with
      | None => Some (c, None)
      | Some st =>
          if increment =? 0 then Some (c, Some (StreamErr (streamID f) H2ProtocolError))
          else
            let st := st_sWindow st (sWindow st + increment) in
            let c := put c st in
            if h2MaxWindow <? sWindow st then Some (c, Some (StreamErr (streamID f) H2FlowControlError))
            else match sendFlushed fuel c [] with None => None | Some c => Some (c, None) end
      end.

(** What [handleRSTStream] does to the connection's streams. *)
Definition handleRSTStream (c : conn) (f : h2Frame) : conn * option herr :=
  if streamID f =? 0 then (c, Some (ConnErr H2ProtocolError))
  else if negb (len (payload f) =? 4) then (c, Some (ConnErr H2FrameSizeError))
  else if idleLocked c (streamID f) then (c, Some (ConnErr H2ProtocolError))
  else
    let c := match streams c !! streamID f with Some st => forgetLocked c st | None => c end in
    (closeFinishedLocked c, None).

Definition resetStream (c : conn) (id code : Z) : conn :=
  let c := match streams c !! id with Some st => forgetLocked c st | None => c end in
  closeFinishedLocked (sendLocked c (h2AppendRSTStream [] id code)).

(** ** Settings *)

Section Range.
(** The order in which a [range] over the streams meets them. *)
Context (range : gmap Z stream -> list Z).

Fixpoint shiftWindows (ids : list Z) (delta : Z) (c : conn) : conn * option herr :=
  match ids with
  | [] => (c, None)
  | i :: ids =>
      match streams c !! i with
      | None => shiftWindows ids delta c
      | Some st =>
          let st := st_sWindow st (sWindow st + delta) in
          let c := put c st in
          if h2MaxWindow <? sWindow st then (c, Some (ConnErr H2FlowControlError)) else shiftWindows ids delta c
      end
  end.

Definition h2SettingHeaderTableSize : Z := 0x1.
Definition h2SettingEnablePush : Z := 0x2.
Definition h2SettingMaxConcurrentStreams : Z := 0x3.
Definition h2SettingInitialWindowSize : Z := 0x4.
Definition h2SettingMaxFrameSize : Z := 0x5.
Definition h2SettingMaxHeaderListSize : Z := 0x6.

(** One of the client's settings; [None] is an encoder that panicked. *)
Definition applySetting (c : option conn) (id value : Z) : option conn * option herr :=
  match c with
  | None => (None, None)
  | Some c =>
      if id =? h2SettingHeaderTableSize then
        match HEncoder.SetMaxTableSize maphash (enc c) (Z.min value HTable.MaxEncoderTableSize) with None => (None, None) | Some e => (Some (set_enc c e), None) end
      else if id =? h2SettingEnablePush then
        if 1 <? value then (Some c, Some (ConnErr H2ProtocolError)) else (Some (set_pushEnabled c (value =? 1)), None)
      else if id =? h2SettingMaxConcurrentStreams then (Some (set_peerMaxPush c value), None)
      else if id =? h2SettingInitialWindowSize then
        if h2MaxWindow <? value then (Some c, Some (ConnErr H2FlowControlError))
        else
          let delta := value - peerWindow c in
          let '(c, e) := shiftWindows (range (streams c)) delta (set_peerWindow c value) in (Some c, e)
      else if id =? h2SettingMaxFrameSize then
        if (value <? h2DefaultMaxFrameSize) || (h2MaxFrameSizeLimit <? value) then (Some c, Some (ConnErr H2ProtocolError))
        else (Some (set_peerMaxFrame c value), None)
      else if id =? h2SettingMaxHeaderListSize then (Some (set_peerMaxHeaderList c value), None)
      else (Some c, None)
  end.

Definition applySettingsLocked (c : conn) (payload : bytes) : option (conn * option herr) :=
  match h2ParseSettings applySetting (Some c) payload with Some (Some c, e) => Some (c, e) | _ => None end.

(** [handleSettings] for settings that are not an acknowledgement, once the
    reader has let them through. *)
Definition handleSettings (fuel : nat) (c : conn) (f : h2Frame) : option (conn * option herr) :=
  match applySettingsLocked c (payload f) with
  | None => None
  | Some (c, Some e) => Some (c, Some e)
  | Some (c, None) =>
      match sendFlushed fuel c (h2AppendFrameHeader [] h2FrameSettings h2FlagAck 0 0) with None => None | Some c => Some (c, None) end
  end.

End Range.

(** ** Requests and answers *)

Inductive opening : Type := Opened | Trailers | Ignored | Refused (e : herr).

(** The stream a request's header opens, with its priority's weight. *)
Definition newStream (c : conn) (id weight : Z) : stream :=
  mkStream id [] (peerWindow c) weight 0 false false None None None false false false false 0 false.

Definition openStream (c : conn) (id weight : Z) : conn * opening :=
  if bool_decide (is_Some (streams c !! id)) then (c, Trailers)
  else if id <=? maxClientID c then (c, Refused (ConnErr H2ProtocolError))
  else
    let c := set_maxClientID c id in
    if closed c || goAway c || peerGoingAway c then (c, Ignored)
    else if maxStreams c <=? u32 (u32 (Z.of_nat (size (streams c))) - pushedStreams c) then (c, Refused (StreamErr id H2RefusedStream))
    else (set_lastStreamID (set_streams c (<[id := newStream c id weight]> (streams c))) id, Opened).

(** What [finishRequest] notes of a request that has all arrived. *)
Definition finishRequest (c : conn) (id : Z) : conn :=
  match streams c !! id with Some st => put c (st_remoteDone st true) | None => c end.

(** A response sent whole, as [respond] takes it apart. *)
Record answer : Type := mkAnswer {
  a_status : Z;
  (** The content length, of a response that may have a body. *)
  a_length : option Z;
  a_close : bool;
  (** Whether the body is the request's own. *)
  a_within : bool;
  (** What is sent of the header, by name and value. *)
  a_fields : list (bytes * bytes);
  a_body : bytes;
  (** Whether the body is a buffer of the pool's. *)
  a_owned : bool;
  a_trailer : option (list (bytes * bytes))
}.

Inductive answerErr : Type := AnswerClosed | AnswerWritten | AnswerTooLarge.

Definition sensitive (name : bytes) : bool := bool_decide (name = str "set-cookie") || bool_decide (name = str "authorization").

Definition fieldsOf (l : list (bytes * bytes)) : list (HeaderField * bool) := map (fun p => (mkField p.1 p.2, sensitive p.1)) l.

Definition h2FieldSize (name value : bytes) : Z := len name + len value + 32.

Definition h2PairsSize (l : list (bytes * bytes)) : Z := foldr (fun p n => h2FieldSize p.1 p.2 + n) 0 l.

Definition fits (r : answer) (limit : Z) : bool :=
  if limit =? MaxInt64 then true
  else
    let size := h2FieldSize (str ":status") (str "200") + h2PairsSize (a_fields r) in
    let size := match a_length r with Some n => size + (len (str "content-length") + len (Itoa n)) + 32 | None => size end in
    (size <=? limit) && (match a_trailer r with Some l => h2PairsSize l | None => 0 end <=? limit).

Definition answerFields (r : answer) : list (HeaderField * bool) :=
  (mkField (str ":status") (Itoa (a_status r)), false) ::
  match a_length r with Some n => [(mkField (str "content-length") (Itoa n), false)] | None => [] end ++ fieldsOf (a_fields r).

Definition refuseHeaderLocked (c : conn) (st : stream) : conn :=
  closeFinishedLocked (forgetLocked (sendLocked c (h2AppendRSTStream [] (sid st) H2InternalError)) st).

Definition sendableLocked (c : conn) (st : stream) (n : Z) (out : bytes) : conn * Z :=
  let '(c, room) := streamRoomLocked c st out in (c, Z.max (Z.min n (Z.min (sendWindow c) (Z.min (sWindow st) room))) 0).

(** The stream as the connection has it. *)
Definition finishAt (c : conn) (id : Z) : conn := match streams c !! id with Some st => finishStreamLocked c st | None => c end.

(** The answer for the stream [id], which the connection has: one it has
    forgotten was reset, or answered. *)
Definition answerLocked (c : conn) (id : Z) (r : answer) : option (conn * option answerErr) :=
  match streams c !! id with
  | None => Some (c, Some AnswerClosed)
  | Some st =>
      if closed c || reset st then Some (c, Some AnswerClosed)
      else if responded st then Some (c, Some AnswerWritten)
      else if negb (fits r (peerMaxHeaderList c)) then Some (refuseHeaderLocked c st, Some AnswerTooLarge)
      else
        let st := st_responded st true in
        match HEncoder.encodeBlock maphash (enc c) (answerFields r) with
        | None => None
        | Some (e, block) =>
            let c := set_enc c e in
            let st := st_trailer st (fieldsOf <$> a_trailer r) in
            let body := a_body r in
            let '(c, sendable) := sendableLocked c st (len body) [] in
            if (sendable =? len body) && (0 <? sendable) && (sendable <=? peerMaxFrame c) && negb (bool_decide (is_Some (trailer st))) &&
               negb (bool_decide (is_Some (streaming st))) && negb (layered c) && negb (a_close r && negb (goAway c)) then
              match h2AppendHeaderBlock [] (sid st) block false (peerMaxFrame c) with
              | None => None
              | Some out =>
                  let out := h2AppendFrameHeader out h2FrameData h2FlagEndStream (sid st) (len body) in
                  let c := set_sendWindow c (sendWindow c - sendable) in
                  let st := st_localDone (st_sWindow st (sWindow st - sendable)) true in
                  Some (closeFinishedLocked (finishStreamLocked (sendLocked (put c st) (out ++ body)) st), None)
              end
            else
              let st := st_shared st (negb (a_owned r) && negb (layered c) && negb (a_within r)) in
              match h2AppendHeaderBlock [] (sid st) block ((len body =? 0) && negb (bool_decide (is_Some (trailer st)))) (peerMaxFrame c) with
              | None => None
              | Some out =>
                  match (if len body =? 0 then match endStreamLocked c out st with None => None | Some (c, out, st) => Some (put c st, out) end
                         else flushStreamLocked c out (st_pending st body)) with
                  | None => None
                  | Some (c, out) =>
                      let '(c, out) :=
                        if a_close r && negb (goAway c) then (set_goAway c true, h2AppendGoAway out (lastStreamID c) H2NoError []) else (c, out) in
                      Some (closeFinishedLocked (finishAt (sendLocked c out) id), None)
                  end
              end
        end
  end.

End Hash.

(** A new connection, with what is configured and what its socket will answer. *)
Definition h2DefaultWindow : Z := 65535.

Definition newH2ServerConn (maxStreams connWindow : Z) (layered : bool) (rooms : list Z) : conn :=
  mkConn ∅ [] 0 h2DefaultWindow h2DefaultMaxFrameSize HEncoder.NewEncoder false false false false false false rooms connWindow 0 connWindow 0
    h2DefaultWindow true (2 ^ 32 - 1) MaxInt64 0 2 0 maxStreams layered [].

End H2Send.
