(* ===== verification/H2Flush.v ===== *)
(** * What HTTP/2 frames of the bodies that wait (src/http/h2_server.go)

    The functions of [H2Send], with the frames they write told apart: what each
    stream sends and keeps, what the windows are left with, the order of the
    queue, and that framing ends with nothing left that could go. *)

From S2P Require Import Prelude HpackTables HpackDecoder HpackEncoder HpackRoundtrip H2Frame H2Roundtrip H2Send.
From stdpp Require Import base list numbers gmap.
From Stdlib Require Import ZArith Lia.

Local Open Scope Z_scope.
Local Open Scope go_scope.

Module H2Flush.
Import H2 H2Send.

(** ** Frames, as they were written *)

(** A frame by its type, flags, stream and payload. *)
Notation hframe := (Z * Z * Z * bytes)%type.

Definition bytesOf (f : hframe) : bytes := let '(t, fl, id, p) := f in H2Round.frame t fl id p.

Definition written (l : list hframe) : bytes := mjoin (map bytesOf l).

(** The data of a stream, and all of it. *)
Fixpoint payloads (i : Z) (l : list hframe) : bytes :=
  match l with [] => [] | (t, _, id, p) :: l => (if (t =? h2FrameData) && (id =? i) then p else []) ++ payloads i l end.

Fixpoint allData (l : list hframe) : bytes :=
  match l with [] => [] | (t, _, _, p) :: l => (if t =? h2FrameData then p else []) ++ allData l end.

Definition small (m : Z) (f : hframe) : Prop := let '(t, _, _, p) := f in t = h2FrameData -> len p <= m.

Definition control (l : list hframe) : Prop := Forall (fun f : hframe => let '(t, _, _, _) := f in t <> h2FrameData) l.

Lemma written_app a b : written (a ++ b) = written a ++ written b.
Proof. unfold written. rewrite map_app. induction a as [|x a IH]; [reflexivity|]. cbn [map app]. change (mjoin (bytesOf x :: map bytesOf a ++ map bytesOf b)) with (bytesOf x ++ mjoin (map bytesOf a ++ map bytesOf b)). rewrite IH. now rewrite app_assoc. Qed.

Lemma payloads_app i a b : payloads i (a ++ b) = payloads i a ++ payloads i b.
Proof. induction a as [|[[[t fl] id] p] a IH]; [reflexivity|]. cbn [app payloads]. now rewrite IH, app_assoc. Qed.

Lemma allData_app a b : allData (a ++ b) = allData a ++ allData b.
Proof. induction a as [|[[[t fl] id] p] a IH]; [reflexivity|]. cbn [app allData]. now rewrite IH, app_assoc. Qed.

Lemma control_payloads i l : control l -> payloads i l = [].
Proof. induction 1 as [|[[[t fl] id] p] l Ht _ IH]; [reflexivity|]. cbn [payloads]. now rewrite IH, (proj2 (Z.eqb_neq t h2FrameData)) by exact Ht. Qed.

Lemma control_data l : control l -> allData l = [].
Proof. induction 1 as [|[[[t fl] id] p] l Ht _ IH]; [reflexivity|]. cbn [allData]. now rewrite IH, (proj2 (Z.eqb_neq t h2FrameData)) by exact Ht. Qed.

Lemma control_small m l : control l -> Forall (small m) l.
Proof. intros H. eapply List.Forall_impl; [|exact H]. intros [[[t fl] id] p] Ht. cbn. congruence. Qed.

Lemma len_none (l : bytes) : len l = 0 -> l = [].
Proof. destruct l; [reflexivity|]. unfold len. cbn. lia. Qed.

Lemma zdrop_shorter n (l : bytes) : 0 < n -> len (zdrop n l) <> 0 -> (length (zdrop n l) < length l)%nat.
Proof. unfold zdrop, len. rewrite length_drop. lia. Qed.

(** The frames of a header block. *)
Lemma block_frames fuel t fl id block m :
  0 < m -> (length block < fuel)%nat -> t <> h2FrameData -> exists l, (forall dst, headerFrames fuel dst t fl id block m = Some (dst ++ written l)) /\ control l.
Proof.
  intros Hm. revert t fl block. induction fuel as [|fuel IH]; intros t fl block Hf Ht; [lia|]. cbn [headerFrames]. set (chunk := if m <? len block then ztake m block else block). set (rest := zdrop (len chunk) block). set (f := if len rest =? 0 then _ else fl).
  assert (forall dst, h2AppendFrameHeader dst t f id (len chunk) ++ chunk = dst ++ bytesOf (t, f, id, chunk)) as Hone by (intros dst; rewrite H2Round.append_header, <- app_assoc; reflexivity).
  destruct (Z.eqb_spec (len rest) 0) as [E0|Hne].
  - exists [(t, f, id, chunk)]. split; [|constructor; [exact Ht|constructor]]. intros dst. rewrite Hone. unfold written. cbn. now rewrite app_nil_r.
  - assert (0 < len chunk) as Hc.
    { unfold rest in Hne. destruct (Z.ltb_spec m (len block)) as [Hlt|Hge]; unfold chunk in *; [rewrite len_ztake; lia|]. exfalso. apply Hne. unfold zdrop, len. rewrite length_drop. lia. }
    assert (length rest < fuel)%nat as Hr by (pose proof (zdrop_shorter (len chunk) block Hc Hne); fold rest in H; lia).
    destruct (IH h2FrameContinuation 0 rest Hr) as (l & Hl & Hctl); [discriminate|].
    exists ((t, f, id, chunk) :: l). split; [|constructor; assumption]. intros dst. rewrite Hone, Hl. change ((t, f, id, chunk) :: l) with ([(t, f, id, chunk)] ++ l). rewrite written_app. unfold written at 2. cbn. now rewrite app_nil_r, <- app_assoc.
Qed.

(** ** What framing keeps *)

Definition pend (c : conn) (i : Z) : bytes := match streams c !! i with Some st => pending st | None => [] end.

(** Framing that stopped for the socket: [drained] is, or will be, arranged. *)
Definition held (c : conn) : bool := outputFull c || drainArmed c.

Section Framing.
Context (maphash : bytes -> Z) (msl : Z).
(** What had been written, what each stream had to send, the windows, the
    largest frame, the streams, and the frames there were when framing began. *)
Context (w0 : bytes) (total : Z -> bytes) (S0 : Z) (Win : Z -> Z) (m mc : Z) (origin : gmap Z stream) (O0 : list hframe).

Definition trailer_ok (st : stream) : Prop :=
  match trailer st with None => True | Some fields => Forall (fun p => HRound.field_ok msl p.1) fields end.

(** A stream that was not answered yet has nothing to send. *)
Definition stream_ok (st : stream) : Prop := trailer_ok st /\ (responded st = false -> pending st = [] /\ queued st = false /\ localDone st = false).

(** With [W] the frames written since, and [O] those of [out]. *)
Record framing (W O : list hframe) (c : conn) (out : bytes) : Prop := {
  f_wire : wire c = w0 ++ written W;
  f_out : out = written O;
  f_data : forall i, payloads i (W ++ O) ++ pend c i = total i;
  f_win : sendWindow c + len (allData (W ++ O)) = S0;
  f_low : Z.min 0 S0 <= sendWindow c;
  f_swin : forall i st, streams c !! i = Some st -> sWindow st + len (payloads i (W ++ O)) = Win i;
  f_max : forall i, len (payloads i (W ++ O)) <= Z.max 0 (Win i);
  f_small : Forall (small m) (W ++ O);
  f_ids : forall i st, streams c !! i = Some st -> sid st = i /\ stream_ok st;
  f_from : forall i st, streams c !! i = Some st -> exists st0, origin !! i = Some st0 /\ responded st = responded st0;
  f_has : O0 ⊆ W ++ O;
  f_client : maxClientID c = mc;
  f_frame : peerMaxFrame c = m /\ 0 < m;
  f_enc : exists d, HRound.sync maphash (enc c) d /\ HDecoder.MaxStringLength d = msl;
  f_open : closed c = false /\ goAway c = false
}.

Lemma framing_ext W O c c' out :
  framing W O c out -> streams c' = streams c -> sendWindow c' = sendWindow c -> peerMaxFrame c' = peerMaxFrame c -> enc c' = enc c ->
  closed c' = closed c -> goAway c' = goAway c -> wire c' = wire c -> maxClientID c' = maxClientID c -> framing W O c' out.
Proof. intros [] Es Ew Em Ee Ec Eg Er Eid. split; unfold pend in *; rewrite ?Es, ?Ew, ?Em, ?Ee, ?Ec, ?Eg, ?Er, ?Eid; assumption. Qed.

(** Frames that carry no data, written or added to what will be. *)
Lemma framing_control W O c out W' O' c' out' :
  framing W O c out -> (forall i, payloads i (W' ++ O') = payloads i (W ++ O)) -> allData (W' ++ O') = allData (W ++ O) -> Forall (small m) (W' ++ O') -> W ++ O ⊆ W' ++ O' ->
  wire c' = w0 ++ written W' -> out' = written O' ->
  streams c' = streams c -> sendWindow c' = sendWindow c -> peerMaxFrame c' = peerMaxFrame c -> enc c' = enc c -> closed c' = closed c -> goAway c' = goAway c -> maxClientID c' = maxClientID c ->
  framing W' O' c' out'.
Proof.
  intros [] Ep Ea Hs Hsub Hw Ho Es Ew Em Ee Ec Eg Eid. split; unfold pend in *; rewrite ?Es, ?Ew, ?Em, ?Ee, ?Ec, ?Eg, ?Ea, ?Eid; try assumption.
  - intros i. now rewrite Ep.
  - intros i st Hi. rewrite Ep. auto.
  - intros i. now rewrite Ep.
  - now transitivity (W ++ O).
Qed.

Lemma control_mid W l O : control l -> (forall i, payloads i ((W ++ l) ++ O) = payloads i (W ++ O)) /\ allData ((W ++ l) ++ O) = allData (W ++ O).
Proof. intros Hl. split; intros; [rewrite !payloads_app, (control_payloads i l Hl)|rewrite !allData_app, (control_data l Hl)]; now rewrite app_nil_r. Qed.

Lemma small_mid W l O : control l -> Forall (small m) (W ++ O) -> Forall (small m) ((W ++ l) ++ O).
Proof. intros Hl [Ha Hb]%Forall_app. repeat (apply Forall_app; split); auto using control_small. Qed.

(** [sendLocked] of frames that carry no data. *)
Lemma send_control W O c out l : framing W O c out -> control l -> framing (W ++ l) O (sendLocked c (written l)) out.
Proof.
  intros Hf Hl. destruct (control_mid W l O Hl) as [Ep Ea]. pose proof Hf as [].
  assert (forall c1, wire (armDrainLocked c1) = wire c1 /\ streams (armDrainLocked c1) = streams c1 /\ sendWindow (armDrainLocked c1) = sendWindow c1 /\
    peerMaxFrame (armDrainLocked c1) = peerMaxFrame c1 /\ enc (armDrainLocked c1) = enc c1 /\ closed (armDrainLocked c1) = closed c1 /\ goAway (armDrainLocked c1) = goAway c1 /\ maxClientID (armDrainLocked c1) = maxClientID c1) as Harm by (intros c1; unfold armDrainLocked; destruct (_ || _); repeat split).
  destruct f_open0 as [Hcl _]. unfold sendLocked. rewrite Hcl. cbn [negb]. rewrite andb_true_r.
  set (c1 := if negb _ then _ else c). destruct (Harm c1) as (H1 & H2 & H3 & H4 & H5 & H6 & H7 & H8).
  assert (wire c1 = w0 ++ written (W ++ l)) as Hw.
  { unfold c1. rewrite written_app, app_assoc, <- f_wire0. destruct (Z.eqb_spec (len (written l)) 0) as [E|_]; cbn; [|reflexivity]. now rewrite (len_none _ E), app_nil_r. }
  eapply framing_control with (c := c); try eassumption; try (rewrite ?H1, ?H2, ?H3, ?H4, ?H5, ?H6, ?H7, ?H8; unfold c1; destruct (negb _); reflexivity).
  - apply small_mid; assumption.
  - set_solver.
  - now rewrite H1.
Qed.

(** A frame of a stream's data, written or added to what will be. *)
Lemma framing_data W O W' O' c st out c' st' out' fl chunk :
  framing W O (put c st) out -> W' ++ O' = (W ++ O) ++ [(h2FrameData, fl, sid st, chunk)] -> wire c' = w0 ++ written W' -> out' = written O' ->
  0 < len chunk -> len chunk <= sendWindow c -> len chunk <= sWindow st -> len chunk <= m ->
  streams c' = streams c -> sendWindow c' = sendWindow c - len chunk -> peerMaxFrame c' = peerMaxFrame c -> enc c' = enc c -> closed c' = closed c -> goAway c' = goAway c -> maxClientID c' = maxClientID c ->
  sid st' = sid st -> trailer st' = trailer st -> responded st' = responded st -> pending st = chunk ++ pending st' -> sWindow st' = sWindow st - len chunk ->
  framing W' O' (put c' st') out'.
Proof.
  intros [] Eq Hw Ho H0 H1 H2 H3 Es Ew Em Ee Ec Eg Eid Ei Et Eres Ep Esw. unfold put, pend in *; cbn [streams set_streams sendWindow peerMaxFrame enc closed goAway wire maxClientID] in *.
  assert (forall i, payloads i (W' ++ O') = payloads i (W ++ O) ++ (if sid st =? i then chunk else [])) as Hp by (intros i; rewrite Eq, payloads_app; cbn [payloads]; now rewrite app_nil_r).
  assert (allData (W' ++ O') = allData (W ++ O) ++ chunk) as Ha by (rewrite Eq, allData_app; cbn [allData]; now rewrite app_nil_r).
  assert (sWindow st + len (payloads (sid st) (W ++ O)) = Win (sid st)) as Hst by (apply (f_swin0 (sid st) st); now rewrite lookup_insert_eq).
  split; unfold pend; cbn [streams set_streams sendWindow peerMaxFrame enc closed goAway wire maxClientID]; rewrite ?Es, ?Ew, ?Em, ?Ee, ?Ec, ?Eg, ?Eid; try assumption.
  - intros i. rewrite <- (f_data0 i), Hp, Ei. destruct (Z.eqb_spec (sid st) i) as [<-|Hne]; [rewrite !lookup_insert_eq, Ep; now rewrite <- app_assoc|].
    rewrite !lookup_insert_ne by exact Hne. now rewrite app_nil_r.
  - rewrite Ha, len_app. lia.
  - lia.
  - intros i st1. rewrite Ei, Hp, len_app. destruct (Z.eqb_spec (sid st) i) as [<-|Hne]; [rewrite lookup_insert_eq; intros [= <-]; rewrite Esw; lia|].
    rewrite lookup_insert_ne by exact Hne. intros Hi. change (len []) with 0. rewrite Z.add_0_r. apply f_swin0. now rewrite lookup_insert_ne.
  - intros i. rewrite Hp, len_app. specialize (f_max0 i). destruct (Z.eqb_spec (sid st) i) as [<-|Hne]; [lia|]. change (len []) with 0. lia.
  - rewrite Eq. apply Forall_app; split; [assumption|]. constructor; [cbn; auto|constructor].
  - intros i st1. rewrite Ei. destruct (Z.eqb_spec (sid st) i) as [<-|Hne]; [rewrite lookup_insert_eq; intros [= <-]|rewrite lookup_insert_ne by exact Hne; intros Hi; apply f_ids0; now rewrite lookup_insert_ne].
    destruct (f_ids0 (sid st) st ltac:(now rewrite lookup_insert_eq)) as (_ & Hok & Hfr). unfold stream_ok, trailer_ok in *. rewrite Et, Eres. split; [exact Ei|]. split; [exact Hok|]. intros Hres. destruct (Hfr Hres) as [Hfr' _]. rewrite Ep in Hfr'. destruct chunk; [change (len []) with 0 in H0; lia|discriminate].
  - intros i st1. rewrite Ei. destruct (Z.eqb_spec (sid st) i) as [<-|Hne]; [rewrite lookup_insert_eq; intros [= <-]; rewrite Eres; apply f_from0; apply lookup_insert_eq|].
    rewrite lookup_insert_ne by exact Hne. intros Hi. apply f_from0. now rewrite lookup_insert_ne.
  - rewrite Eq. set_solver.
Qed.

(** The stream in hand, changed where framing does not look. *)
Lemma framing_st W O c st st' out :
  framing W O (put c st) out -> sid st' = sid st -> stream_ok st' -> pending st' = pending st -> sWindow st' = sWindow st -> responded st' = responded st -> framing W O (put c st') out.
Proof.
  intros [] Ei Ht Ep Ew Er. split; unfold pend, put in *; cbn [streams set_streams sendWindow peerMaxFrame enc closed goAway wire maxClientID] in *; try assumption.
  - intros i. rewrite <- (f_data0 i), Ei. destruct (decide (sid st = i)) as [<-|Hne]; [now rewrite !lookup_insert_eq, Ep|now rewrite !lookup_insert_ne].
  - intros i st1. rewrite Ei. destruct (decide (sid st = i)) as [<-|Hne]; [rewrite lookup_insert_eq; intros [= <-]; rewrite Ew; apply f_swin0; now rewrite lookup_insert_eq|].
    rewrite lookup_insert_ne by exact Hne. intros Hi. apply f_swin0. now rewrite lookup_insert_ne.
  - intros i st1. rewrite Ei. destruct (decide (sid st = i)) as [<-|Hne]; [rewrite lookup_insert_eq; now intros [= <-]|].
    rewrite lookup_insert_ne by exact Hne. intros Hi. apply f_ids0. now rewrite lookup_insert_ne.
  - intros i st1. rewrite Ei. destruct (decide (sid st = i)) as [<-|Hne]; [rewrite lookup_insert_eq; intros [= <-]; rewrite Er; apply f_from0; apply lookup_insert_eq|].
    rewrite lookup_insert_ne by exact Hne. intros Hi. apply f_from0. now rewrite lookup_insert_ne.
Qed.

(** What framing a stream leaves of its connection. *)
Definition keeps (c c' : conn) : Prop :=
  streams c' = streams c /\ sendQueue c' = sendQueue c /\ sendHead c' = sendHead c /\ peerMaxFrame c' = peerMaxFrame c /\ maxClientID c' = maxClientID c /\ (held c = true -> held c' = true).

Lemma keeps_trans c c' c'' : keeps c c' -> keeps c' c'' -> keeps c c''.
Proof. unfold keeps. intros (-> & -> & -> & -> & -> & H) (-> & -> & -> & -> & -> & H'). repeat split; auto. Qed.

(** Frames after those there were. *)
Definition extends (a b : list hframe) : Prop := exists x, b = a ++ x.

Lemma extends_refl a : extends a a.
Proof. exists []. now rewrite app_nil_r. Qed.

Lemma extends_trans a b c : extends a b -> extends b c -> extends a c.
Proof. intros (x & ->) (y & ->). exists (x ++ y). now rewrite app_assoc. Qed.

Lemma end_stream W O c out st :
  framing W O (put c st) out -> responded st = true ->
  exists c' O' out' st', endStreamLocked maphash c out st = Some (c', out', st') /\ framing W O' (put c' st') out' /\ keeps c c' /\
    sid st' = sid st /\ queued st' = queued st /\ pending st' = pending st /\ sWindow st' = sWindow st /\ turn st' = turn st /\ responded st' = responded st /\ extends (W ++ O) (W ++ O').
Proof.
  intros Hf Hres. pose proof Hf as []. destruct (f_ids0 (sid st) st ltac:(unfold put; cbn; now rewrite lookup_insert_eq)) as (_ & Hok & Hfr).
  unfold endStreamLocked, trailer_ok in Hok |- *. cbn [trailer st_localDone]. destruct (trailer st) as [fields|] eqn:Et.
  2:{ exists c, O, out, (st_localDone st true). split; [reflexivity|]. split; [|repeat split; auto using extends_refl]. eapply framing_st; [exact Hf|reflexivity| |reflexivity..]. split; [unfold trailer_ok; cbn; now rewrite Et|cbn; congruence]. }
  destruct f_enc0 as (d & Hs & Hd). cbn [enc put set_streams] in Hs. rewrite <- Hd in Hok.
  destruct (HRound.block_decode maphash (enc c) d fields Hs Hok) as (e' & block & d' & -> & _ & Hs' & _ & Hd').
  destruct f_frame0 as [Em Hm]. cbn [peerMaxFrame put set_streams] in Em. unfold h2AppendHeaderBlock.
  destruct (block_frames (S (length block)) h2FrameHeaders h2FlagEndStream (sid st) block m Hm) as (l & Hl & Hc); [lia|discriminate|].
  cbn [sid st_localDone]. rewrite Em, Hl.
  exists (set_enc c e'), (O ++ l), (out ++ written l), (st_trailer (st_localDone st true) None). split; [reflexivity|]. split; [|repeat split; auto; exists l; now rewrite app_assoc].
  assert (framing W (O ++ l) (put c st) (out ++ written l)) as Hf'.
  { eapply framing_control; [exact Hf|intros i; now rewrite app_assoc, payloads_app, (control_payloads i l Hc), app_nil_r|now rewrite app_assoc, allData_app, (control_data l Hc), app_nil_r| |set_solver|assumption|now rewrite f_out0, written_app|reflexivity..].
    rewrite app_assoc. apply Forall_app; split; [assumption|now apply control_small]. }
  apply framing_st with (st' := st_trailer (st_localDone st true) None) in Hf'; [|reflexivity|split; [exact I|cbn; congruence]|reflexivity..].
  clear -Hf' Hs' Hd' Hd. destruct Hf'. split; try assumption. exists d'. split; [exact Hs'|congruence].
Qed.

Lemma room_asked c out : let '(c', room) := outputRoomLocked c out in keeps c c' /\ sendWindow c' = sendWindow c /\ wire c' = wire c /\ enc c' = enc c /\ closed c' = closed c /\ goAway c' = goAway c /\ (room <= 0 -> held c' = true).
Proof.
  unfold outputRoomLocked. destruct (rooms c) as [|q l]; [repeat split; auto; unfold MaxInt64; lia|]. cbv zeta. set (room := _ - _). destruct (Z.leb_spec room 0); repeat split; auto. lia.
Qed.

Lemma stream_room_asked c st out : let '(c', room) := streamRoomLocked c st out in keeps c c' /\ sendWindow c' = sendWindow c /\ wire c' = wire c /\ enc c' = enc c /\ closed c' = closed c /\ goAway c' = goAway c /\ (room <= 0 -> held c' = true).
Proof.
  unfold streamRoomLocked. pose proof (room_asked c out) as H. destruct (outputRoomLocked c out) as [c' room].
  assert (frameRoom room <= 0 -> room <= 0) as Hr.
  { unfold frameRoom. destruct ((room <=? 0) || (room =? MaxInt64)) eqn:E; [auto|]. apply orb_false_iff in E as [E _]. apply Z.leb_gt in E. unfold h2DefaultMaxFrameSize. lia. }
  destruct (streaming st), (tunnel st); [repeat split; auto; unfold MaxInt64; lia..|]. destruct H as (? & ? & ? & ? & ? & ? & ?). repeat split; try apply H; auto.
Qed.

Lemma framing_room W O c c' st out :
  framing W O (put c st) out -> keeps c c' -> sendWindow c' = sendWindow c -> wire c' = wire c -> enc c' = enc c -> closed c' = closed c -> goAway c' = goAway c -> framing W O (put c' st) out.
Proof. intros Hf (Es & _ & _ & Em & Eid & _) Ew Er Ee Ec Eg. eapply framing_ext; [exact Hf|unfold put; cbn; congruence..]. Qed.

(** What a turn of framing makes of the stream in hand. *)
Definition framed (c : conn) (st : stream) (quota : Z) (c' : conn) (st' : stream) : Prop :=
  keeps c c' /\ sid st' = sid st /\ queued st' = queued st /\ turn st' = turn st /\ (length (pending st') <= length (pending st))%nat /\ responded st' = responded st /\ (pending st' <> [] -> localDone st' = localDone st) /\
  (length (pending st') = length (pending st) -> st' = st /\ (len (pending st) = 0 \/ held c' = true \/ quota <= 0 \/ sendWindow c <= 0 \/ sWindow st <= 0)).

(** A frame cut off what is pending, as the loop does it. *)
Lemma frame_cut W O c st out n flags :
  framing W O (put c st) out -> 0 < n -> n <= len (pending st) -> n <= sendWindow c -> n <= sWindow st -> n <= m ->
  let st1 := st_pending st (zdrop n (pending st)) in
  let chunk := ztake n (pending st) in
  let '(c1, out1) := if shared st && (maxCopiedResponseBody <? len chunk) then (sendSharedLocked c out (sid st) flags chunk, []) else (c, h2AppendFrameHeader out h2FrameData flags (sid st) (len chunk) ++ chunk) in
  exists W' O', framing W' O' (put (set_sendWindow c1 (sendWindow c1 - n)) (st_sWindow st1 (sWindow st1 - n))) out1 /\ keeps c c1 /\ extends (W ++ O) (W' ++ O').
Proof.
  intros Hf H0 H1 H2 H3 H4 st1 chunk. pose proof Hf as [].
  assert (len chunk = n) as Hn by (unfold chunk; apply len_ztake; lia).
  assert (forall dst, h2AppendFrameHeader dst h2FrameData flags (sid st) (len chunk) ++ chunk = dst ++ written [(h2FrameData, flags, sid st, chunk)]) as Hone by (intros dst; rewrite H2Round.append_header; unfold written; cbn; now rewrite app_nil_r, <- app_assoc).
  assert (pending st = chunk ++ pending st1) as Hp by (unfold chunk, st1, ztake, zdrop; cbn; symmetry; apply take_drop).
  destruct f_open0 as [Hcl _]. cbn [closed put set_streams] in Hcl. cbn [wire put set_streams] in f_wire0. destruct (shared st && _).
  - exists (W ++ O ++ [(h2FrameData, flags, sid st, chunk)]), []. unfold sendSharedLocked. rewrite Hcl. split; [|repeat split; auto; eexists; now rewrite app_nil_r, app_assoc].
    eapply framing_data with (chunk := chunk) (fl := flags); [exact Hf|now rewrite app_nil_r, <- app_assoc| |reflexivity|lia..|reflexivity|cbn; lia|reflexivity|reflexivity|reflexivity|reflexivity|reflexivity|reflexivity|reflexivity|reflexivity|exact Hp|cbn; lia].
    cbn [wire set_sendWindow set_wire]. rewrite f_wire0, f_out0, !written_app, Hone. now rewrite <- !app_assoc.
  - exists W, (O ++ [(h2FrameData, flags, sid st, chunk)]). split; [|repeat split; auto; eexists; now rewrite app_assoc].
    eapply framing_data with (chunk := chunk) (fl := flags); [exact Hf|now rewrite <- app_assoc|exact f_wire0|now rewrite Hone, written_app, f_out0|lia..|reflexivity|cbn; lia|reflexivity|reflexivity|reflexivity|reflexivity|reflexivity|reflexivity|reflexivity|reflexivity|exact Hp|cbn; lia].
Qed.

Lemma flush_stream fuel W O c out st quota :
  framing W O (put c st) out -> (length (pending st) <= fuel)%nat ->
  exists c' W' O' out' st', flushStreamUpToLocked maphash fuel c out st quota = Some (c', out', st') /\ framing W' O' (put c' st') out' /\ framed c st quota c' st' /\ extends (W ++ O) (W' ++ O').
Proof.
  revert W O c out st quota. induction fuel as [|fuel IH]; intros W O c out st quota Hf Hfuel; cbn [flushStreamUpToLocked].
  { exists c, W, O, out, st. assert (len (pending st) = 0) as E by (unfold len; lia). rewrite E. split; [reflexivity|]. split; [exact Hf|]. repeat split; auto using extends_refl. }
  destruct (Z.eqb_spec (len (pending st)) 0) as [E|Hne]; [exists c, W, O, out, st; split; [reflexivity|]; split; [exact Hf|]; repeat split; auto using extends_refl|].
  pose proof (stream_room_asked c st out) as Hroom. destruct (streamRoomLocked c st out) as [c1 room]. destruct Hroom as (Hk & Ew & Er & Ee & Ec & Eg & Hh).
  pose proof (framing_room _ _ _ _ _ _ Hf Hk Ew Er Ee Ec Eg) as Hf1.
  destruct (Z.leb_spec room 0) as [Hle|Hgt]; [exists c1, W, O, out, st; split; [reflexivity|]; split; [exact Hf1|]; repeat split; try apply Hk; auto using extends_refl|].
  assert (responded st = true) as Hres.
  { pose proof Hf as []. destruct (f_ids0 (sid st) st) as (_ & _ & Hfr); [unfold put; cbn; apply lookup_insert_eq|]. destruct (responded st); [reflexivity|]. destruct (Hfr eq_refl) as [E _]. rewrite E in Hne. now destruct Hne. }
  pose proof Hf1 as []. destruct f_frame0 as [Em Hm]. cbn [peerMaxFrame put set_streams] in Em. set (n := Z.min _ _). destruct (Z.leb_spec n 0) as [Hn|Hn].
  { exists c1, W, O, out, st. split; [reflexivity|]. split; [exact Hf1|]. repeat split; try apply Hk; auto using extends_refl. rewrite <- Ew. pose proof (len_nonneg (pending st)). right. lia. }
  cbv zeta. set (st1 := st_pending st _). destruct (if len (pending st1) =? 0 then ending st1 else (false, 0)) as [last flags] eqn:Elast.
  pose proof (frame_cut W O c1 st out n flags Hf1 Hn ltac:(lia) ltac:(lia) ltac:(lia) ltac:(lia)) as Hcut. cbv zeta in Hcut. fold st1 in Hcut. change (shared st1) with (shared st). change (sid st1) with (sid st).
  destruct (if shared st && _ then _ else _) as [c2 out2]. destruct Hcut as (W2 & O2 & Hf2 & Hk2 & Hx2). set (c3 := set_sendWindow c2 _) in *. set (st2 := st_sWindow st1 _) in *.
  assert (length (pending st2) < length (pending st))%nat as Hshort by (unfold st2, st1, zdrop; cbn; rewrite length_drop; unfold len in *; lia).
  assert (exists c4 O4 out4 st4, (if last then endStreamLocked maphash c3 out2 st2 else Some (c3, out2, st2)) = Some (c4, out4, st4) /\ framing W2 O4 (put c4 st4) out4 /\ keeps c3 c4 /\
    sid st4 = sid st /\ queued st4 = queued st /\ turn st4 = turn st /\ pending st4 = pending st2 /\ responded st4 = responded st /\ (pending st2 <> [] -> localDone st4 = localDone st) /\ extends (W2 ++ O2) (W2 ++ O4)) as (c4 & O4 & out4 & st4 & -> & Hf4 & Hk4 & H4s & H4q & H4t & H4p & H4r & H4d & Hx4).
  { destruct last; [|exists c3, O2, out2, st2; split; [reflexivity|]; split; [exact Hf2|]; repeat split; auto using extends_refl]. destruct (end_stream W2 O2 c3 out2 st2 Hf2 Hres) as (c4 & O4 & out4 & st4 & E & Hf4 & Hk4 & ? & ? & ? & ? & ? & ? & ?). exists c4, O4, out4, st4. split; [exact E|]. split; [exact Hf4|]. repeat split; try apply Hk4; auto. intros Hp. exfalso. apply Hp. destruct (Z.eqb_spec (len (pending st1)) 0) as [E1|]; [exact (len_none _ E1)|discriminate]. }
  destruct (IH W2 O4 c4 out4 st4 (quota - n) Hf4 ltac:(rewrite H4p; lia)) as (c' & W' & O' & out' & st' & -> & Hf' & (Hk' & Hs' & Hq' & Ht' & Hl' & Hr' & Hd' & _) & Hx').
  exists c', W', O', out', st'. split; [reflexivity|]. split; [exact Hf'|]. rewrite H4p in Hl'. split; [|eauto using extends_trans]. split; [|repeat split; [congruence..|lia|congruence| |intros; exfalso; lia|intros; exfalso; lia]].
  2:{ intros Hp. rewrite (Hd' Hp). apply H4d. intros E2. rewrite E2 in Hl'. destruct (pending st'); [auto|cbn in Hl'; lia]. }
  eapply keeps_trans; [exact Hk|]. eapply keeps_trans; [exact Hk2|]. eapply keeps_trans; [|exact Hk']. exact Hk4.
Qed.

Lemma framing_delete W O c out i : framing W O c out -> pend c i = [] -> framing W O (set_streams c (delete i (streams c))) out.
Proof.
  intros [] Hp. split; unfold pend in *; cbn [streams set_streams]; try assumption.
  - intros j. rewrite <- (f_data0 j). destruct (decide (i = j)) as [<-|Hne]; [rewrite lookup_delete_eq; now rewrite Hp|now rewrite lookup_delete_ne].
  - intros j st. destruct (decide (i = j)) as [<-|Hne]; [now rewrite lookup_delete_eq|rewrite lookup_delete_ne by exact Hne; auto].
  - intros j st. destruct (decide (i = j)) as [<-|Hne]; [now rewrite lookup_delete_eq|rewrite lookup_delete_ne by exact Hne; auto].
  - intros j st. destruct (decide (i = j)) as [<-|Hne]; [now rewrite lookup_delete_eq|rewrite lookup_delete_ne by exact Hne; auto].
Qed.

(** What ending a stream leaves of its connection. *)
Definition rests (i : Z) (c c' : conn) : Prop :=
  sendQueue c' = sendQueue c /\ sendHead c' = sendHead c /\ (held c = true -> held c' = true) /\ (forall j, j <> i -> streams c' !! j = streams c !! j) /\
  (streams c' !! i = None \/ streams c' !! i = streams c !! i).

Lemma rests_trans i c c' c'' : rests i c c' -> rests i c' c'' -> rests i c c''.
Proof. intros (E1 & E2 & H & Hs & Hi) (E1' & E2' & H' & Hs' & Hi'). split; [congruence|]. split; [congruence|]. split; [auto|]. split; [intros j Hj; now rewrite Hs', Hs|]. destruct Hi', Hi; auto; left + right; congruence. Qed.

Lemma send_rests i c out : rests i c (sendLocked c out) /\ streams (sendLocked c out) = streams c.
Proof. unfold rests, held, sendLocked, armDrainLocked. destruct (_ && _), (outputFull c) eqn:Eo, (drainArmed c) eqn:Ed, (closed c) eqn:Ec; cbn; rewrite ?Eo, ?Ed, ?Ec; cbn; rewrite ?Eo, ?Ed; repeat split; auto. Qed.

Lemma one_frame t fl id p : h2AppendFrameHeader [] t fl id (len p) ++ p = written [(t, fl, id, p)].
Proof. unfold written. cbn [map]. change (mjoin [bytesOf (t, fl, id, p)]) with (bytesOf (t, fl, id, p) ++ []). now rewrite app_nil_r. Qed.

Lemma short_frame t id v : h2AppendFrameHeader [] t 0 id 4 ++ putBE 4 v = written [(t, 0, id, putBE 4 v)].
Proof. rewrite <- one_frame. now unfold len at 1; rewrite length_putBE. Qed.

Lemma control_one t fl id p : t <> h2FrameData -> control [(t, fl, id, p)].
Proof. repeat constructor. assumption. Qed.

Lemma credit_written c n : exists l, (creditConnLocked c [] n).2 = written l /\ control l.
Proof.
  unfold creditConnLocked. cbv zeta. destruct (_ || _); [exists []; split; [reflexivity|constructor]|]. unfold h2AppendWindowUpdate. rewrite short_frame. eexists. split; [reflexivity|now apply control_one].
Qed.

Lemma reset_written id code : exists l, h2AppendRSTStream [] id code = written l /\ control l.
Proof. unfold h2AppendRSTStream. rewrite short_frame. eexists. split; [reflexivity|now apply control_one]. Qed.

Lemma credit_keeps i c n : let c' := (creditConnLocked c [] n).1 in
  streams c' = streams c /\ sendWindow c' = sendWindow c /\ peerMaxFrame c' = peerMaxFrame c /\ enc c' = enc c /\ closed c' = closed c /\ goAway c' = goAway c /\ wire c' = wire c /\ maxClientID c' = maxClientID c /\ rests i c c'.
Proof. unfold creditConnLocked. cbv zeta. destruct (_ || _); repeat split; auto. Qed.

Lemma forget W O c out i :
  framing W O c out -> pend c i = [] -> forall st, sid st = i -> queued st = false ->
  exists W', framing W' O (forgetLocked c st) out /\ rests i c (forgetLocked c st) /\ extends W W'.
Proof.
  intros Hf Hp st Hi Hq. unfold forgetLocked, dequeueLocked. cbv zeta. cbn [queued st_turn st_pending st_reset sid connHeld pushed]. rewrite Hq. cbn [negb queued st_turn st_pending st_reset sid connHeld pushed]. rewrite Hi.
  destruct (bool_decide (is_Some (streams c !! i))); cbn [negb]; [|exists W; split; [exact Hf|]; repeat split; auto using extends_refl].
  set (c1 := if 0 <? connHeld st then _ else c).
  assert (exists W1, framing W1 O c1 out /\ streams c1 = streams c /\ rests i c c1 /\ extends W W1) as (W1 & Hf1 & Es1 & Hr1 & Hx1).
  { unfold c1. destruct (0 <? connHeld st); [|exists W; split; [exact Hf|]; repeat split; auto using extends_refl]. destruct (credit_written c (connHeld st)) as (l & El & Hl). pose proof (credit_keeps i c (connHeld st)) as Hk.
    destruct (creditConnLocked c [] (connHeld st)) as [c0 o0]. cbn in El, Hk. destruct Hk as (K1 & K2 & K3 & K4 & K5 & K6 & K7 & K9 & K8). subst o0. destruct (send_rests i c0 (written l)) as [Hr Hs].
    exists (W ++ l). split; [apply send_control; [eapply framing_ext; eauto|exact Hl]|]. split; [congruence|]. split; [eapply rests_trans; eauto|now exists l]. }
  assert (framing W1 O (set_streams c1 (delete i (streams c1))) out /\ rests i c (set_streams c1 (delete i (streams c1)))) as [Hf2 Hr2].
  { split; [apply framing_delete; [exact Hf1|unfold pend; now rewrite Es1]|]. eapply rests_trans; [exact Hr1|]. repeat split; auto; [intros j Hj; cbn; now rewrite lookup_delete_ne|left; apply lookup_delete_eq]. }
  exists W1. destruct (pushed st); [|auto]. split; [eapply framing_ext; eauto|auto].
Qed.

Lemma close_finished W O c out i : framing W O c out -> framing W O (closeFinishedLocked c) out /\ rests i c (closeFinishedLocked c) /\ streams (closeFinishedLocked c) = streams c.
Proof.
  intros Hf. pose proof Hf as []. destruct f_open0 as [Hc Hg]. unfold closeFinishedLocked. destruct (_ || negb (bool_decide _)); [split; [exact Hf|]; repeat split; auto|]. rewrite Hg. cbn [negb].
  split; [eapply framing_ext; eauto|]. repeat split; auto.
Qed.

Lemma finish W O c out i :
  framing W O c out -> pend c i = [] -> forall st, sid st = i -> queued st = false ->
  exists W', framing W' O (finishStreamLocked c st) out /\ rests i c (finishStreamLocked c st) /\ extends W W'.
Proof.
  intros Hf Hp st Hi Hq. unfold finishStreamLocked. destruct (_ || reset st); [exists W; split; [exact Hf|]; repeat split; auto using extends_refl|].
  assert (forall W1 c1 st1, framing W1 O c1 out -> pend c1 i = [] -> rests i c c1 -> sid st1 = i -> queued st1 = false -> extends W W1 ->
    exists W', framing W' O (closeFinishedLocked (forgetLocked c1 st1)) out /\ rests i c (closeFinishedLocked (forgetLocked c1 st1)) /\ extends W W') as Hend.
  { intros W1 c1 st1 Hf1 Hp1 Hr1 Hi1 Hq1 Hx1. destruct (forget W1 O c1 out i Hf1 Hp1 st1 Hi1 Hq1) as (W2 & Hf2 & Hr2 & Hx2). destruct (close_finished W2 O _ out i Hf2) as (Hf3 & Hr3 & _). exists W2. split; [exact Hf3|]. eauto using rests_trans, extends_trans. }
  destruct (upgraded st); [destruct (remoteDone st); [eapply Hend; eauto using extends_refl; repeat split; auto|exists W; split; [exact Hf|]; repeat split; auto using extends_refl]|].
  destruct (negb (remoteDone st)); [|eapply Hend; eauto using extends_refl; repeat split; auto].
  destruct (reset_written (sid st) H2NoError) as (l & El & Hl). rewrite El. destruct (send_rests i c (written l)) as [Hr Hs].
  eapply Hend; [apply send_control; eassumption|unfold pend; now rewrite Hs|exact Hr|exact Hi|exact Hq|now exists l].
Qed.

(** ** Turns *)

(** The streams that wait, from the head of the queue. *)
Record queue_ok (ids : list Z) (c : conn) : Prop := {
  q_head : (sendHead c <= length (sendQueue c))%nat;
  q_ids : drop (sendHead c) (sendQueue c) = map Some ids;
  q_nodup : NoDup ids;
  q_queued : forall i, i ∈ ids <-> exists st, streams c !! i = Some st /\ queued st = true
}.

Definition others (id : Z) (c c' : conn) : Prop := forall j, j <> id -> streams c' !! j = streams c !! j.

Definition blocked (c : conn) (i : Z) : Prop := forall st, streams c !! i = Some st -> sWindow st <= 0.

(** What waits to be framed. *)
Definition work (c : conn) (ids : list Z) : nat := list_sum (map (fun i => length (pend c i)) ids).

Lemma work_app c a b : work c (a ++ b) = (work c a + work c b)%nat.
Proof. unfold work. now rewrite map_app, list_sum_app. Qed.

Lemma work_others id c c' ids : others id c c' -> id ∉ ids -> work c' ids = work c ids.
Proof.
  intros Ho. induction ids as [|i ids IH]; [reflexivity|]. rewrite not_elem_of_cons. intros [Hi Hn]. specialize (IH Hn).
  change (length (pend c' i) + work c' ids = length (pend c i) + work c ids)%nat. rewrite IH. unfold pend. now rewrite Ho.
Qed.

Lemma drop_head {A} (q : list (option A)) h x l : drop h q = x :: l -> drop (S h) (<[h := None]> q) = l /\ (S h <= length q)%nat /\ q !! h = Some x.
Proof.
  intros E. assert (q !! h = Some x) as Hx by (rewrite <- (Nat.add_0_r h), <- lookup_drop, E; reflexivity). pose proof (lookup_lt_Some _ _ _ Hx). split; [|split; [lia|exact Hx]].
  rewrite drop_insert_lt by lia. rewrite (drop_S _ _ _ Hx) in E. congruence.
Qed.

(** The stream in hand put back, with its place kept. *)
Lemma stays id ids c c1 st1 :
  queue_ok (id :: ids) c -> keeps c c1 -> sid st1 = id -> queued st1 = true -> queue_ok (id :: ids) (put c1 st1).
Proof.
  intros [] (Es & Eq & Eh & _) Ei Hq. split; unfold put; cbn [sendHead sendQueue streams set_streams]; rewrite ?Eq, ?Eh, ?Es; try assumption. intros i. rewrite Ei. destruct (decide (id = i)) as [<-|Hne].
  - rewrite lookup_insert_eq. split; [eauto|]. intros _. apply list_elem_of_here.
  - rewrite lookup_insert_ne by exact Hne. auto.
Qed.

(** The stream in hand out of the queue. *)
Lemma popped id ids c c1 st1 :
  queue_ok (id :: ids) c -> keeps c c1 -> sid st1 = id -> let '(c2, st2) := popHead c1 st1 in
  queue_ok ids (put c2 st2) /\ streams c2 = streams c /\ sid st2 = id /\ queued st2 = false.
Proof.
  intros [] (Es & Eq & Eh & _) Ei. cbn [popHead]. destruct (drop_head _ _ _ _ q_ids0) as (E1 & E2 & _). apply NoDup_cons in q_nodup0 as [Hni Hnd].
  split; [|cbn; auto]. split; unfold put; cbn [sendHead sendQueue streams set_streams set_sendHead set_sendQueue sid st_turn st_queued]; rewrite ?Eq, ?Eh, ?Es, ?length_insert; auto. intros i. rewrite Ei. destruct (decide (id = i)) as [<-|Hne].
  - rewrite lookup_insert_eq. split; [tauto|]. now intros (st & [= <-] & ?).
  - rewrite lookup_insert_ne by exact Hne. rewrite <- q_queued0, elem_of_cons. naive_solver.
Qed.

(** The stream in hand behind the others. *)
Lemma yielded id ids c c1 st1 :
  queue_ok (id :: ids) c -> keeps c c1 -> sid st1 = id ->
  queue_ok (ids ++ [id]) (yieldLocked c1 st1) /\ streams (yieldLocked c1 st1) = <[id := st_queued (st_turn (st_queued st1 false) 0) true]> (streams c).
Proof.
  intros Hq Hk Ei. pose proof (popped id ids c c1 st1 Hq Hk Ei) as Hp. unfold yieldLocked. destruct (popHead c1 st1) as [c2 st2] eqn:Epop. destruct Hp as ([] & Es & Ei2 & Hq2).
  unfold enqueueLocked. rewrite Hq2. injection Epop as <- <-. cbn [sid st_turn st_queued] in *. unfold put in *. cbn [sendHead sendQueue streams set_streams set_sendHead set_sendQueue sid st_turn st_queued] in *. rewrite Ei, Es in *.
  destruct Hq as []. apply NoDup_cons in q_nodup1 as [Hni Hnd].
  split; [|reflexivity]. split; cbn [sendHead sendQueue streams set_streams set_sendHead set_sendQueue].
  - rewrite length_app. cbn. lia.
  - rewrite drop_app_le by assumption. now rewrite q_ids0, map_app.
  - apply NoDup_app. repeat split; [assumption| |apply NoDup_singleton]. intros x Hx ->%list_elem_of_singleton. auto.
  - intros i. rewrite elem_of_app, list_elem_of_singleton. destruct (decide (id = i)) as [<-|Hne]; [rewrite lookup_insert_eq; split; eauto|].
    rewrite lookup_insert_ne by exact Hne. specialize (q_queued0 i). rewrite lookup_insert_ne in q_queued0 by exact Hne. rewrite <- q_queued0. naive_solver.
Qed.

(** What a turn comes to: the stream had ended; it could send nothing; it sent. *)
Definition turned (id : Z) (ids : list Z) (stalled : Z) (c c' : conn) (ids' : list Z) (r : Z + unit) : Prop :=
  (held c = true -> held c' = true) /\
  ((r = inl stalled /\ ids' = ids /\ others id c c') \/
   (r = inl (stalled + 1) /\ ids' = ids ++ [id] /\ others id c c' /\ pend c' id = pend c id /\ (held c' = true \/ blocked c' id)) \/
   ((r = inl 0 \/ r = inr tt /\ sendWindow c' <= 0) /\ (length ids' <= S (length ids))%nat /\ (work c' ids' < work c (id :: ids))%nat)).

Lemma queue_member id ids c : queue_ok (id :: ids) c -> id ∉ ids /\ exists st, streams c !! id = Some st /\ queued st = true.
Proof. intros []. apply NoDup_cons in q_nodup0 as [Hni _]. split; [exact Hni|]. apply q_queued0, list_elem_of_here. Qed.

Lemma work_cons c i ids : work c (i :: ids) = (length (pend c i) + work c ids)%nat.
Proof. reflexivity. Qed.

Lemma work_less id ids c c' ids' : others id c c' -> id ∉ ids -> (length (pend c' id) < length (pend c id))%nat -> ids' = ids \/ ids' = id :: ids \/ ids' = ids ++ [id] -> (length ids' <= S (length ids) /\ work c' ids' < work c (id :: ids))%nat.
Proof.
  intros Ho Hni Hlt. pose proof (work_others id c c' ids Ho Hni) as E. rewrite work_cons. intros [E'|[E'|E']]; subst ids'; [|rewrite work_cons; cbn [length]|rewrite work_app, length_app, work_cons; cbn [length]; change (work c' []) with 0%nat]; lia.
Qed.

Lemma insert_others id c c' st : streams c' = <[id := st]> (streams c) -> others id c c' /\ streams c' !! id = Some st.
Proof. intros E. split; [intros j Hj|]; rewrite E; [now rewrite lookup_insert_ne by congruence|apply lookup_insert_eq]. Qed.

Lemma framing_put W O c out st : framing W O c out -> streams c !! sid st = Some st -> framing W O (put c st) out.
Proof. intros Hf Hi. eapply framing_ext; [exact Hf|unfold put; cbn; now rewrite insert_id|reflexivity..]. Qed.

Lemma keeps_refl c : keeps c c.
Proof. repeat split; auto. Qed.

(** The stream in hand, and the same behind the others. *)
Lemma framing_in W O c out st : framing W O (put c st) out -> stream_ok st.
Proof. intros []. apply (f_ids0 (sid st) st). unfold put. cbn. now rewrite lookup_insert_eq. Qed.

Lemma stream_behind st : stream_ok st -> queued st = true -> stream_ok (st_queued (st_turn (st_queued st false) 0) true).
Proof. intros [Ht Hfr] Hq. split; [exact Ht|]. intros Hr. destruct (Hfr Hr) as (_ & Hn & _). congruence. Qed.

(** The end of a turn that sent: the stream has more to send. *)
Lemma turn_more W O c out st id ids c1 st1 :
  queue_ok (id :: ids) c -> streams c !! id = Some st -> framing W O (put c1 st1) out -> keeps c c1 -> sid st1 = id -> queued st1 = true -> (length (pending st1) < length (pending st))%nat ->
  let '(c', r) := if (0 <? turn st1) && (0 <? sWindow st1) then (put c1 st1, if sendWindow c1 <=? 0 then inr () else inl 0) else (yieldLocked c1 st1, if sendWindow (yieldLocked c1 st1) <=? 0 then inr () else inl 0) in
  exists ids', framing W O c' out /\ queue_ok ids' c' /\ forall stalled, turned id ids stalled c c' ids' r.
Proof.
  intros Hq Hst Hf Hk Hi Hqd Hlt. destruct (queue_member _ _ _ Hq) as [Hni _]. pose proof Hk as (Es & _ & _ & _ & _ & Hh). destruct (_ && _).
  - destruct (insert_others id c (put c1 st1) st1) as [Ho Hl]; [unfold put; cbn; now rewrite Es, Hi|].
    destruct (work_less id ids c (put c1 st1) (id :: ids)) as [Hlen Hw]; [exact Ho|exact Hni|unfold pend; now rewrite Hl, Hst|auto|].
    exists (id :: ids). split; [exact Hf|]. split; [eapply stays; eauto|]. intros stalled. split; [exact Hh|]. right. right. destruct (Z.leb_spec (sendWindow c1) 0); auto.
  - destruct (yielded id ids c c1 st1 Hq Hk Hi) as [Hq' Hs']. destruct (insert_others id c (yieldLocked c1 st1) _ Hs') as [Ho Hl].
    destruct (work_less id ids c (yieldLocked c1 st1) (ids ++ [id])) as [Hlen Hw]; [exact Ho|exact Hni|unfold pend; now rewrite Hl, Hst|auto|].
    exists (ids ++ [id]). split; [|split; [exact Hq'|]].
    + apply framing_st with (st' := st_queued (st_turn (st_queued st1 false) 0) true) in Hf; [|reflexivity| |reflexivity..].
      * eapply framing_ext; [exact Hf|rewrite Hs'; unfold put; cbn; now rewrite Es, Hi|reflexivity..].
      * apply stream_behind; [exact (framing_in _ _ _ _ _ Hf)|exact Hqd].
    + intros stalled. split; [exact Hh|]. right. right. destruct (Z.leb_spec (sendWindow (yieldLocked c1 st1)) 0); auto.
Qed.

(** The stream in hand out of the queue, and the connection with it. *)
Lemma framing_popped W O c out st : framing W O (put c st) out -> let '(c', st') := popHead c st in framing W O (put c' st') out.
Proof.
  intros Hf. cbn [popHead]. set (st' := st_turn (st_queued st false) 0). apply framing_st with (st' := st') in Hf; [|reflexivity| |reflexivity..].
  - eapply framing_ext; [exact Hf|reflexivity..].
  - destruct (framing_in _ _ _ _ _ Hf) as [Ht Hfr]. split; [exact Ht|]. intros Hr. destruct (Hfr Hr) as (? & ? & ?). auto.
Qed.

(** The queue once a stream that does not wait has ended. *)
Lemma rests_queue ids id c c' st : queue_ok ids c -> streams c !! id = Some st -> queued st = false -> rests id c c' -> queue_ok ids c'.
Proof.
  intros [] Hst Hq (Eq & Eh & _ & Ho & Hid). split; rewrite ?Eq, ?Eh; try assumption. intros i. rewrite q_queued0. destruct (decide (i = id)) as [->|Hne]; [|now rewrite Ho].
  destruct Hid as [E'|E']; rewrite E'; [|reflexivity]. rewrite Hst. split; [intros (x & [= <-] & ?); congruence|now intros (x & ? & _)].
Qed.

(** A stream that sent the last of what it had. *)
Lemma turn_end W O c out st id ids c1 st1 :
  queue_ok (id :: ids) c -> streams c !! id = Some st -> framing W O (put c1 st1) out -> keeps c c1 -> sid st1 = id -> pending st1 = [] -> pending st <> [] ->
  let '(c2, st2) := popHead c1 st1 in
  exists W', framing W' O (finishStreamLocked (put c2 st2) st2) out /\ queue_ok ids (finishStreamLocked (put c2 st2) st2) /\ forall stalled, turned id ids stalled c (finishStreamLocked (put c2 st2) st2) ids (inl 0).
Proof.
  intros Hq Hst Hf Hk Hi He Hne. destruct (queue_member _ _ _ Hq) as [Hni _]. pose proof (popped id ids c c1 st1 Hq Hk Hi) as Hp. pose proof (framing_popped W O c1 out st1 Hf) as Hf2.
  destruct (popHead c1 st1) as [c2 st2] eqn:Epop. destruct Hp as (Hq2 & Es2 & Hi2 & Hqd2).
  assert (pending st2 = [] /\ (held c = true -> held c2 = true)) as [He2 Hh] by (injection Epop as <- <-; split; [exact He|apply Hk]).
  assert (streams (put c2 st2) !! id = Some st2) as Hl2 by (unfold put; cbn; rewrite Hi2; apply lookup_insert_eq).
  assert (pend (put c2 st2) id = []) as Hp2 by (unfold pend; now rewrite Hl2).
  destruct (finish W O (put c2 st2) out id Hf2 Hp2 st2 Hi2 Hqd2) as (W' & Hf' & Hr' & _). exists W'. split; [exact Hf'|].
  set (c3 := finishStreamLocked _ _) in *. pose proof Hr' as (_ & _ & Hh' & Ho' & Hid').
  assert (others id c c3) as Ho by (intros j Hj; rewrite Ho' by exact Hj; unfold put; cbn; rewrite Es2, Hi2; now rewrite lookup_insert_ne by congruence).
  assert (pend c3 id = []) as Hp3 by (unfold pend; destruct Hid' as [E'|E']; rewrite E'; [reflexivity|now rewrite Hl2]).
  split; [eapply rests_queue; eauto|].
  - intros stalled. split; [auto|]. right. right. split; [auto|]. apply (work_less id ids c c3 ids Ho Hni); [|auto]. rewrite Hp3. unfold pend. rewrite Hst. destruct (pending st); [congruence|cbn; lia].
Qed.

(** A turn of the stream at the head of the queue. *)
Lemma turn_step W O c out st id ids stalled :
  framing W O c out -> queue_ok (id :: ids) c -> streams c !! id = Some st -> 0 < sendWindow c ->
  exists c' out' r W' O' ids', turnLocked maphash c out stalled st = Some (c', out', r) /\ framing W' O' c' out' /\ queue_ok ids' c' /\ turned id ids stalled c c' ids' r.
Proof.
  intros Hf Hq Hst Hsw. destruct (queue_member _ _ _ Hq) as (Hni & stq & Hstq & Hqd). rewrite Hst in Hstq. injection Hstq as <-.
  destruct (f_ids _ _ _ _ Hf id st Hst) as [Hid Htr]. assert (streams c !! sid st = Some st) as Hst' by now rewrite Hid.
  pose proof (framing_put _ _ _ _ _ Hf Hst') as Hf0. unfold turnLocked. destruct (Z.eqb_spec (len (pending st)) 0) as [E0|Hne].
  { pose proof (popped id ids c c st Hq (keeps_refl c) Hid) as Hp. pose proof (framing_popped W O c out st Hf0) as Hf2. destruct (popHead c st) as [c2 st2] eqn:Epop. destruct Hp as (Hq2 & Es2 & Hi2 & _).
    exists (put c2 st2), out, (inl stalled), W, O, ids. split; [reflexivity|]. split; [exact Hf2|]. split; [exact Hq2|]. split; [injection Epop as <- <-; auto|]. left. repeat split; auto.
    apply (insert_others id c (put c2 st2) st2). unfold put. cbn. now rewrite Es2, Hi2. }
  cbv zeta. set (st0 := if turn st =? 0 then _ else st).
  assert (sid st0 = id /\ queued st0 = true /\ pending st0 = pending st /\ sWindow st0 = sWindow st /\ stream_ok st0) as (H0i & H0q & H0p & H0w & H0t) by (unfold st0; destruct (turn st =? 0); auto).
  assert (framing W O (put c st0) out) as Hf1 by (eapply framing_st; [exact Hf0|congruence|exact H0t|exact H0p|exact H0w|unfold st0; destruct (turn st =? 0); reflexivity]).
  destruct (flush_stream (length (pending st0)) W O c out st0 (peerMaxFrame c) Hf1 ltac:(lia)) as (c1 & W1 & O1 & out1 & st1 & -> & Hf2 & (Hk & H1s & H1q & H1t & H1l & _ & _ & H1eq) & _).
  rewrite H0i in H1s. rewrite H0q in H1q. destruct (Z.eqb_spec (len (pending st1)) (len (pending st0))) as [E|Hdiff].
  - destruct (H1eq ltac:(unfold len in E; lia)) as [-> Hwhy]. clear H1eq H1l H1t E. destruct (yielded id ids c c1 st0 Hq Hk H0i) as [Hq' Hs']. destruct (insert_others id c _ _ Hs') as [Ho Hl].
    exists (yieldLocked c1 st0), out1, (inl (stalled + 1)), W1, O1, (ids ++ [id]). split; [reflexivity|]. split; [|split; [exact Hq'|]].
    + apply framing_st with (st' := st_queued (st_turn (st_queued st0 false) 0) true) in Hf2; [|reflexivity|now apply stream_behind|reflexivity..]. eapply framing_ext; [exact Hf2|rewrite Hs'; unfold put; cbn; destruct Hk as (-> & _); now rewrite H0i|reflexivity..].
    + split; [apply Hk|]. right. left. repeat split; auto; [unfold pend; now rewrite Hl, Hst|]. destruct (f_frame _ _ _ _ Hf) as [Em Hm]. rewrite H0p in Hwhy.
      destruct Hwhy as [|[|[|[|Hw]]]]; [lia|auto|lia|lia|]. right. intros stx. rewrite Hl. intros [= <-]. exact Hw.
  - assert (length (pending st1) < length (pending st))%nat as Hlt by (rewrite <- H0p; unfold len in Hdiff; lia). set (st2 := st_turn st1 _).
    assert (framing W1 O1 (put c1 st2) out1) as Hf3 by (eapply framing_st; [exact Hf2|reflexivity|destruct (f_ids _ _ _ _ Hf2 (sid st1) st1) as [_ Ht]; [unfold put; cbn; apply lookup_insert_eq|exact Ht]|reflexivity..]).
    change (len (pending st2)) with (len (pending st1)). destruct (Z.eqb_spec (len (pending st1)) 0) as [E1|Hne1].
    + pose proof (turn_end W1 O1 c out1 st id ids c1 st2 Hq Hst Hf3 Hk H1s (len_none _ E1) ltac:(intros E; rewrite E in Hlt; cbn in Hlt; lia)) as Hend. destruct (popHead c1 st2) as [c3 st3]. destruct Hend as (W' & Hf' & Hq' & Ht). eauto 12.
    + pose proof (turn_more W1 O1 c out1 st id ids c1 st2 Hq Hst Hf3 Hk H1s H1q Hlt) as Hmore. destruct (_ && _); destruct Hmore as (ids' & Hf' & Hq' & Ht); eauto 12.
Qed.

Lemma queue_keeps ids c c' : queue_ok ids c -> keeps c c' -> queue_ok ids c'.
Proof. intros [] (Es & Eq & Eh & _). split; rewrite ?Eq, ?Eh, ?Es; assumption. Qed.

Lemma queue_length ids c : queue_ok ids c -> Z.of_nat (length (sendQueue c)) - Z.of_nat (sendHead c) = Z.of_nat (length ids).
Proof. intros []. apply (f_equal length) in q_ids0. rewrite length_drop, length_map in q_ids0. lia. Qed.

Lemma blocked_others id c c' b : others id c c' -> id ∉ b -> Forall (blocked c) b -> Forall (blocked c') b.
Proof. intros Ho Hn Hb. apply Forall_forall. intros i Hi st. rewrite Ho by (intros ->; contradiction). now apply (proj1 (Forall_forall _ _) Hb). Qed.

(** The turns: [a] are still to have one since the last that sent, [b] had one
    and could send nothing. *)
Lemma flush_loop N fuel W O c out a b :
  framing W O c out -> queue_ok (a ++ b) c -> held c = true \/ Forall (blocked c) b -> (length (a ++ b) <= N)%nat ->
  (work c (a ++ b) * (2 * N + 2) + 2 * length a + length b <= fuel)%nat ->
  exists c' out' W' O' ids', flushLoop maphash fuel c out (Z.of_nat (length b)) = Some (c', out') /\ framing W' O' c' out' /\ queue_ok ids' c' /\
    (held c' = true \/ sendWindow c' <= 0 \/ Forall (blocked c') ids').
Proof.
  revert W O c out a b. induction fuel as [|fuel IH]; intros W O c out a b Hf Hq Hb HN Hfuel; cbn [flushLoop]; rewrite (queue_length _ _ Hq).
  all: destruct ((0 <? sendWindow c) && (Z.of_nat (length b) <? Z.of_nat (length (a ++ b)))) eqn:Eg; cbn [negb];
    [|exists c, out, W, O, (a ++ b); split; [reflexivity|]; split; [exact Hf|]; split; [exact Hq|]; apply andb_false_iff in Eg as [Eg|Eg]; apply Z.ltb_ge in Eg; [auto|]; rewrite length_app in Eg; destruct a; [destruct Hb; auto|cbn in Eg; lia]].
  all: apply andb_true_iff in Eg as [Hw Ha]; apply Z.ltb_lt in Hw, Ha; rewrite length_app in Ha; destruct a as [|id a]; cbn in Ha; [lia|].
  { cbn [length] in Hfuel. lia. }
  pose proof (room_asked c out) as Hroom. destruct (outputRoomLocked c out) as [c1 room]. destruct Hroom as (Hk & Ew & Er & Ee & Ec & Eg & Hh).
  assert (framing W O c1 out) as Hf1 by (eapply framing_ext; [exact Hf|apply Hk|exact Ew|apply Hk|assumption..|apply Hk]).
  pose proof (queue_keeps _ _ _ Hq Hk) as Hq1. destruct (Z.leb_spec room 0) as [Hle|_]; [exists c1, out, W, O, ((id :: a) ++ b); auto 8|].
  cbn [app] in Hq1. destruct (drop_head _ _ _ _ (q_ids _ _ Hq1)) as (_ & _ & ->). destruct (queue_member _ _ _ Hq1) as (Hni & st & Hst & _). rewrite Hst.
  assert (held c1 = true \/ Forall (blocked c1) b) as Hb1 by (destruct Hb as [Hb|Hb]; [left; now apply Hk|right; unfold blocked; destruct Hk as (-> & _); exact Hb]).
  assert (work c1 (id :: a ++ b) = work c ((id :: a) ++ b)) as Ework by (unfold work, pend; destruct Hk as (-> & _); reflexivity).
  destruct (turn_step W O c1 out st id (a ++ b) (Z.of_nat (length b)) Hf1 Hq1 Hst ltac:(lia)) as (c2 & out2 & r & W2 & O2 & ids2 & -> & Hf2 & Hq2 & Hh2 & Ht).
  assert (length (a ++ b) < N)%nat as HN' by (cbn in HN; lia). rewrite length_app in HN'. rewrite <- Ework in Hfuel. cbn [length] in Hfuel.
  destruct Ht as [(-> & -> & Ho)|[(-> & -> & Ho & Ep & Hwhy)|(Hr & Hlen & Hwork)]].
  - apply (IH W2 O2 c2 out2 a b Hf2 Hq2); [|rewrite length_app; lia|rewrite (work_others _ _ _ _ Ho Hni); rewrite work_cons in Hfuel; nia].
    destruct Hb1 as [?|Hb1]; [auto|right]. eapply blocked_others; [exact Ho| |exact Hb1]. intros Hin. apply Hni, elem_of_app. auto.
  - rewrite <- app_assoc in Hq2. replace (Z.of_nat (length b) + 1) with (Z.of_nat (length (b ++ [id]))) by (rewrite length_app; cbn; lia).
    apply (IH W2 O2 c2 out2 a (b ++ [id]) Hf2 Hq2); [|rewrite !length_app; cbn; lia|].
    + destruct Hwhy as [?|Hwhy]; [auto|]. destruct Hb1 as [?|Hb1]; [auto|right]. apply Forall_app. split; [|constructor; [exact Hwhy|constructor]]. eapply blocked_others; [exact Ho| |exact Hb1]. intros Hin. apply Hni, elem_of_app. auto.
    + rewrite app_assoc, work_app, (work_others _ _ _ _ Ho Hni), (work_cons c2), Ep, length_app. rewrite work_cons in Hfuel. change (work c2 []) with 0%nat. cbn [length]. nia.
  - destruct Hr as [->|[-> Hle]]; [|exists c2, out2, W2, O2, ids2; auto 8]. rewrite length_app in Hlen.
    apply (IH W2 O2 c2 out2 ids2 [] Hf2); rewrite ?app_nil_r; [exact Hq2|auto|lia|]. cbn [length]. nia.
Qed.

Lemma compacted ids c : queue_ok ids c -> queue_ok ids (compactQueueLocked c).
Proof.
  intros Hq. pose proof Hq as []. unfold compactQueueLocked. destruct (Nat.eqb_spec (sendHead c) (length (sendQueue c))) as [E|_].
  - rewrite E, drop_all in q_ids0. destruct ids; [|discriminate]. split; auto.
  - destruct (_ <? _)%nat; [|exact Hq]. split; cbn [sendHead sendQueue set_sendHead set_sendQueue streams]; auto. lia.
Qed.

(** What is sent at the end: the frames of [out] too. *)
Lemma sent_all W O c out : framing W O c out -> framing (W ++ O) [] (sendLocked c out) [] /\ (held c = true -> drainArmed (sendLocked c out) = true) /\ keeps c (sendLocked c out).
Proof.
  intros Hf. pose proof Hf as []. destruct f_open0 as [Hc Hg]. set (c1 := if negb (len out =? 0) && negb (closed c) then set_wire c (wire c ++ out) else c).
  assert (wire c1 = w0 ++ written (W ++ O)) as Hw.
  { unfold c1. rewrite Hc, written_app, app_assoc, <- f_wire0, <- f_out0. destruct (Z.eqb_spec (len out) 0) as [E|_]; cbn; [|reflexivity]. now rewrite (len_none _ E), app_nil_r. }
  assert (framing (W ++ O) [] c1 []) as Hf1 by (eapply framing_control; [exact Hf|intros i; now rewrite app_nil_r|now rewrite app_nil_r|now rewrite app_nil_r|set_solver|exact Hw|reflexivity|unfold c1; destruct (_ && _); reflexivity..]).
  change (sendLocked c out) with (armDrainLocked c1). assert (closed c1 = false /\ outputFull c1 = outputFull c /\ drainArmed c1 = drainArmed c /\ keeps c c1) as (Hc1 & Ho1 & Hd1 & Hk1) by (unfold c1; destruct (_ && _); repeat split; auto).
  assert (drainArmed (armDrainLocked c1) = held c) as Harm.
  { unfold armDrainLocked, held. rewrite Hc1, Ho1, Hd1. destruct (outputFull c) eqn:E1, (drainArmed c) eqn:E2; cbn; rewrite ?Hd1; auto. }
  split; [|split; [intros H; now rewrite Harm|]].
  - eapply framing_ext; [exact Hf1|unfold armDrainLocked; destruct (_ || _); reflexivity..].
  - destruct Hk1 as (K1 & K2 & K3 & K4 & K5 & _). unfold keeps. rewrite <- K1, <- K2, <- K3, <- K4, <- K5. repeat split; try (unfold armDrainLocked; destruct (_ || _); reflexivity). intros H. unfold held. rewrite Harm, H. apply orb_true_r.
Qed.

Lemma send_flushed fuel O1 c out0 ids :
  framing [] O1 c out0 -> queue_ok ids c -> (work c ids * (2 * length ids + 2) + 2 * length ids <= fuel)%nat ->
  exists c' l ids', sendFlushed maphash fuel c out0 = Some c' /\ framing l [] c' [] /\ queue_ok ids' c' /\ (drainArmed c' = true \/ sendWindow c' <= 0 \/ Forall (blocked c') ids').
Proof.
  intros Hf Hq Hfuel. destruct (flush_loop (length ids) fuel [] O1 c out0 ids [] Hf) as (c1 & out & W & O & ids' & E & Hf1 & Hq1 & Hend); rewrite ?app_nil_r; [exact Hq|auto|lia|cbn; lia|].
  unfold sendFlushed, flushLocked. change (Z.of_nat (length [])) with 0 in E. rewrite E. pose proof (compacted _ _ Hq1) as Hq2. set (c2 := compactQueueLocked c1) in *.
  assert (framing W O c2 out /\ held c2 = held c1 /\ sendWindow c2 = sendWindow c1 /\ streams c2 = streams c1) as (Hf2 & Hh2 & Ew2 & Es2).
  { assert (framing W O c2 out) by (eapply framing_ext; [exact Hf1|unfold c2, compactQueueLocked; destruct (_ =? _)%nat; [|destruct (_ <? _)%nat]; reflexivity..]). split; [assumption|]. unfold c2, compactQueueLocked; destruct (_ =? _)%nat; [|destruct (_ <? _)%nat]; auto. }
  destruct (sent_all W O c2 out Hf2) as (Hf3 & Hd & Hk3). pose proof (queue_keeps _ _ _ Hq2 Hk3) as Hq3.
  assert (sendWindow (sendLocked c2 out) = sendWindow c2) as Ew3 by (unfold sendLocked, armDrainLocked; destruct (_ && _), (_ || _); reflexivity). set (c3 := sendLocked c2 out) in *.
  destruct (close_finished (W ++ O) [] c3 [] 0 Hf3) as (Hf4 & (Eq & Eh & _) & Es4).
  assert (sendWindow (closeFinishedLocked c3) = sendWindow c3 /\ drainArmed (closeFinishedLocked c3) = drainArmed c3) as [Ew4 Ed4] by (unfold closeFinishedLocked; destruct (_ || _); [auto|]; destruct (negb _); auto).
  exists (closeFinishedLocked c3), (W ++ O), ids'. split; [reflexivity|]. split; [exact Hf4|]. split; [destruct Hq3; split; rewrite ?Eq, ?Eh, ?Es4; assumption|].
  rewrite Ed4, Ew4, Ew3, Ew2. destruct Hend as [Hend|[Hend|Hend]]; [left; apply Hd; congruence|auto|]. right. right. unfold blocked in *. rewrite Es4. destruct Hk3 as (-> & _). now rewrite Es2.
Qed.

End Framing.

(** ** Window updates *)

(** The streams that wait, from the head of the queue. *)
Definition waiting (c : conn) : list Z := omap id (drop (sendHead c) (sendQueue c)).

(** The turns framing may take. *)
Definition turns (c : conn) : nat := (work c (waiting c) * (2 * length (waiting c) + 2) + 2 * length (waiting c))%nat.

(** A connection that may send: its queue holds the streams that say so, once
    each, its encoder is in step with the peer's decoder, whose longest string is
    [msl], which the trailers to come fit. *)
Record sends_ok (maphash : bytes -> Z) (msl : Z) (c : conn) : Prop := {
  s_queue : queue_ok (waiting c) c;
  s_ids : forall i st, streams c !! i = Some st -> sid st = i /\ stream_ok msl st;
  s_frame : 0 < peerMaxFrame c;
  s_enc : exists d, HRound.sync maphash (enc c) d /\ HDecoder.MaxStringLength d = msl;
  s_open : closed c = false /\ goAway c = false
}.

Definition window (c : conn) (i : Z) : Z := match streams c !! i with Some st => sWindow st | None => 0 end.

(** [c'] is [c] after the frames [l]: each stream's data in order and none lost,
    no frame too large, no window passed. *)
Record sent (maphash : bytes -> Z) (msl : Z) (c : conn) (l : list hframe) (c' : conn) : Prop := {
  sent_ok : sends_ok maphash msl c';
  sent_wire : wire c' = wire c ++ written l;
  sent_data : forall i, payloads i l ++ pend c' i = pend c i;
  sent_small : Forall (small (peerMaxFrame c)) l;
  sent_window : sendWindow c' = sendWindow c - len (allData l);
  sent_within : len (allData l) <= Z.max 0 (sendWindow c);
  sent_windows : forall i st, streams c' !! i = Some st -> sWindow st = window c i - len (payloads i l);
  sent_allowed : forall i, len (payloads i l) <= Z.max 0 (window c i);
  sent_from : forall i st, streams c' !! i = Some st -> exists st0, streams c !! i = Some st0 /\ responded st = responded st0;
  sent_client : maxClientID c' = maxClientID c
}.

(** Nothing is left that could go: the socket's queue is full, or the
    connection's window is used up, or that of every stream that waits is. *)
Definition spent (c : conn) : Prop :=
  drainArmed c = true \/ sendWindow c <= 0 \/ forall i st, streams c !! i = Some st -> queued st = true -> sWindow st <= 0.

Lemma waiting_ids ids c : queue_ok ids c -> waiting c = ids.
Proof. intros []. unfold waiting. rewrite q_ids0. clear. induction ids as [|i ids IH]; [reflexivity|]. cbn. now f_equal. Qed.

Notation begun maphash msl c := (framing maphash msl (wire c) (pend c) (sendWindow c) (window c) (peerMaxFrame c) (maxClientID c) (streams c)).

(** A connection that may send, before it frames anything but [O]. *)
Lemma framing_start maphash msl c O : sends_ok maphash msl c -> control O -> begun maphash msl c O [] O c (written O).
Proof.
  intros [] Ho. assert (forall i, payloads i O = []) as Hp by (intros; now apply control_payloads). split; auto; cbn [app]; rewrite ?(control_data O Ho); auto using control_small; try (intros; rewrite ?Hp; change (len []) with 0; lia).
  - now rewrite app_nil_r.
  - intros i. now rewrite Hp.
  - intros i st Hi. unfold window. rewrite Hp, Hi. change (len []) with 0. lia.
  - eauto.
Qed.

Lemma framing_sent maphash msl c O l c' ids : begun maphash msl c O l [] c' [] -> queue_ok ids c' -> sent maphash msl c l c'.
Proof.
  intros [] Hq. rewrite app_nil_r in *. split; auto; try lia.
  - split; auto; [now rewrite (waiting_ids _ _ Hq)|lia].
  - intros i st Hi. specialize (f_swin0 i st Hi). lia.
Qed.

Lemma flushed_sent maphash msl fuel c O :
  sends_ok maphash msl c -> control O -> (turns c <= fuel)%nat -> exists c' l, sendFlushed maphash fuel c (written O) = Some c' /\ sent maphash msl c l c' /\ spent c' /\ O ⊆ l.
Proof.
  intros Hok Ho Hfuel. pose proof (framing_start maphash msl c O Hok Ho) as Hf. pose proof Hok as [].
  destruct (send_flushed maphash msl _ _ _ _ _ _ _ _ fuel O c (written O) (waiting c) Hf s_queue0 Hfuel) as (c' & l & ids' & E & Hf' & Hq' & Hend). exists c', l. split; [exact E|].
  split; [eapply framing_sent; eauto|]. split; [|pose proof (f_has _ _ _ _ _ _ _ _ _ _ _ _ _ _ Hf') as Hh; now rewrite app_nil_r in Hh]. destruct Hend as [?|[?|Hb]]; [left; assumption|right; left; assumption|]. right. right. intros i st Hi Hst. apply (proj1 (Forall_forall _ _) Hb i); [|exact Hi]. apply (q_queued _ _ Hq'). eauto.
Qed.

(** The windows after an update, with nothing sent yet. *)
Definition grant (c : conn) (i increment : Z) : conn :=
  if i =? 0 then set_sendWindow c (sendWindow c + increment)
  else match streams c !! i with Some st => put c (st_sWindow st (sWindow st + increment)) | None => c end.

(** A stream changed where the queue and what is to be sent do not look. *)
Lemma sends_put maphash msl c i st st' :
  sends_ok maphash msl c -> streams c !! i = Some st -> sid st' = sid st -> queued st' = queued st -> pending st' = pending st -> stream_ok msl st' ->
  sends_ok maphash msl (put c st') /\ (forall j, pend (put c st') j = pend c j) /\ turns (put c st') = turns c.
Proof.
  intros [] Ei E1 E2 E3 Hst. destruct (s_ids0 i st Ei) as [Hi _].
  assert (streams (put c st') = <[i := st']> (streams c)) as Es by (unfold put; cbn; now rewrite E1, Hi).
  assert (forall j, pend (put c st') j = pend c j) as Hp by (intros j; unfold pend; rewrite Es; destruct (decide (i = j)) as [<-|Hne]; [now rewrite lookup_insert_eq, Ei|now rewrite lookup_insert_ne]).
  split; [split; auto|split; [exact Hp|]].
  - destruct s_queue0. split; auto. intros j. rewrite Es. change (waiting (put c st')) with (waiting c). rewrite q_queued0.
    destruct (decide (i = j)) as [<-|Hne]; [rewrite lookup_insert_eq, Ei; split; intros (x & [= <-] & ?); eexists; split; [reflexivity|congruence|reflexivity|congruence]|now rewrite lookup_insert_ne].
  - intros j x. rewrite Es. destruct (decide (i = j)) as [<-|Hne]; [rewrite lookup_insert_eq; intros [= <-]; split; [congruence|exact Hst]|rewrite lookup_insert_ne by exact Hne; auto].
  - unfold turns, work. change (waiting (put c st')) with (waiting c). f_equal. f_equal. f_equal. apply map_ext. intros j. now rewrite Hp.
Qed.

Lemma granted maphash msl c i n : sends_ok maphash msl c -> sends_ok maphash msl (grant c i n) /\ (forall j, pend (grant c i n) j = pend c j) /\ turns (grant c i n) = turns c.
Proof.
  intros H. pose proof H as []. unfold grant. destruct (i =? 0); [split; [split; auto; destruct s_queue0; split; assumption|auto]|]. destruct (streams c !! i) as [st|] eqn:Ei; [|auto].
  destruct (s_ids0 i st Ei) as [_ Hs]. now apply (sends_put maphash msl c i st).
Qed.

(** What a frame says of its window. *)
Definition increment (f : h2Frame) : Z := be (payload f) .& 0x7fffffff.

(** What a WINDOW_UPDATE for the connection, or for a stream it has, comes to. *)
Lemma window_updated (maphash : bytes -> Z) (msl : Z) (fuel : nat) (c : conn) (f : h2Frame) :
  sends_ok maphash msl c -> streamID f = 0 \/ idleLocked c (streamID f) = false /\ is_Some (streams c !! streamID f) -> (turns c <= fuel)%nat ->
  (len (payload f) <> 4 /\ handleWindowUpdate maphash fuel c f = Some (c, Some (ConnErr H2FrameSizeError))) \/
  (len (payload f) = 4 /\ increment f = 0 /\ handleWindowUpdate maphash fuel c f = Some (c, Some (if streamID f =? 0 then ConnErr H2ProtocolError else StreamErr (streamID f) H2ProtocolError))) \/
  (len (payload f) = 4 /\ h2MaxWindow < (if streamID f =? 0 then sendWindow c else window c (streamID f)) + increment f /\
    handleWindowUpdate maphash fuel c f = Some (grant c (streamID f) (increment f), Some (if streamID f =? 0 then ConnErr H2FlowControlError else StreamErr (streamID f) H2FlowControlError))) \/
  exists c' l, handleWindowUpdate maphash fuel c f = Some (c', None) /\ sent maphash msl (grant c (streamID f) (increment f)) l c' /\ spent c'.
Proof.
  intros Hok Hi Hfuel. destruct (granted maphash msl c (streamID f) (increment f) Hok) as (Hok' & _ & Et). rewrite <- Et in Hfuel.
  destruct (flushed_sent maphash msl fuel _ [] Hok' ltac:(constructor) Hfuel) as (c' & l & E & Hsent & Hspent & _). change (written []) with (@nil Z) in E.
  unfold handleWindowUpdate, window, grant in *. fold (increment f). destruct (Z.eqb_spec (len (payload f)) 4) as [El|]; cbn [negb]; [right|auto].
  destruct (Z.eqb_spec (streamID f) 0) as [Ez|Hne].
  - destruct (Z.eqb_spec (increment f) 0); [auto|]. right. cbn [sendWindow set_sendWindow] in *. destruct (Z.ltb_spec h2MaxWindow (sendWindow c + increment f)); [auto|]. right. exists c', l. rewrite E. auto.
  - destruct Hi as [?|[-> [st Ei]]]; [lia|]. rewrite Ei in *. destruct (Z.eqb_spec (increment f) 0); [auto|]. right. cbn [sWindow st_sWindow] in *. destruct (Z.ltb_spec h2MaxWindow (sWindow st + increment f)); [auto|]. right. exists c', l. rewrite E. auto.
Qed.

End H2Flush.
