(* ===== verification/H2Answers.v ===== *)
(** * Answers, settings and resets over HTTP/2 (src/http/h2_server.go)

    The other operations of [H2Send], and any sequence of them: what each
    stream's answer comes to on the connection. *)

From S2P Require Import Prelude HpackTables HpackTable HpackDecoder HpackEncoder HpackRoundtrip H2Frame H2Roundtrip H2Send H2Flush.
From stdpp Require Import base list numbers gmap.
From Stdlib Require Import ZArith Lia.

Local Open Scope Z_scope.
Local Open Scope go_scope.

Module H2Answers.
Import H2 H2Send H2Flush.

Section Connection.
Context (maphash : bytes -> Z) (msl : Z) (range : gmap Z stream -> list Z).
(** A [range] meets every stream once. *)
Context (range_ok : forall m, NoDup (range m) /\ forall i, i ∈ range m <-> is_Some (m !! i)).

(** ** Settings *)

(** What settings leave of a connection: its windows moved together. *)
Record retuned (c c1 : conn) : Prop := {
  r_ok : sends_ok maphash msl c1;
  r_pend : forall i, pend c1 i = pend c i;
  r_turns : turns c1 = turns c;
  r_wire : wire c1 = wire c;
  r_window : sendWindow c1 = sendWindow c;
  r_client : maxClientID c1 = maxClientID c;
  r_streams : forall i st1, streams c1 !! i = Some st1 -> exists st, streams c !! i = Some st /\ responded st1 = responded st;
  r_windows : forall i st, streams c !! i = Some st -> exists st1, streams c1 !! i = Some st1 /\ sWindow st1 - sWindow st = peerWindow c1 - peerWindow c
}.

Lemma retuned_refl c : sends_ok maphash msl c -> retuned c c.
Proof. intros. split; auto; eauto. intros i st Hi. exists st. split; [exact Hi|lia]. Qed.

Lemma retuned_trans c c1 c2 : retuned c c1 -> retuned c1 c2 -> retuned c c2.
Proof.
  intros [] []. split; try congruence; auto.
  - intros i st2 H2. destruct (r_streams1 i st2 H2) as (st1 & H1 & E1). destruct (r_streams0 i st1 H1) as (st & H & E). exists st. split; [exact H|congruence].
  - intros i st H. destruct (r_windows0 i st H) as (st1 & H1 & E1). destruct (r_windows1 i st1 H1) as (st2 & H2 & E2). exists st2. split; [exact H2|lia].
Qed.

(** What moving the windows of some streams leaves. *)
Definition moved (st : stream) (delta : Z) : stream := st_sWindow st (sWindow st + delta).

Record shifting (ids : list Z) (delta : Z) (c c' : conn) : Prop := {
  m_ok : sends_ok maphash msl c';
  m_pend : forall i, pend c' i = pend c i;
  m_same : turns c' = turns c /\ wire c' = wire c /\ sendWindow c' = sendWindow c /\ maxClientID c' = maxClientID c /\ peerWindow c' = peerWindow c;
  m_in : forall i, i ∈ ids -> streams c' !! i = (fun st => moved st delta) <$> streams c !! i;
  m_out : forall i, i ∉ ids -> streams c' !! i = streams c !! i
}.

Lemma shifted ids delta c c' :
  sends_ok maphash msl c -> NoDup ids -> shiftWindows ids delta c = (c', None) -> shifting ids delta c c'.
Proof.
  revert c. induction ids as [|i ids IH]; intros c Hok Hnd; cbn [shiftWindows].
  { intros [= <-]. split; auto. intros i Hi. now apply not_elem_of_nil in Hi. }
  apply NoDup_cons in Hnd as [Hni Hnd]. destruct (streams c !! i) as [st|] eqn:Ei.
  2:{ intros E. destruct (IH c Hok Hnd E). split; auto; [|set_solver]. intros j [Hj|Hj]%elem_of_cons; [subst j|auto]. now rewrite Ei, (m_out0 i Hni), Ei. }
  destruct (s_ids _ _ _ Hok i st Ei) as [Hid Hst]. destruct (sends_put maphash msl c i st (moved st delta) Hok Ei eq_refl eq_refl eq_refl Hst) as (Hok' & Hp & Et).
  fold (moved st delta). assert (streams (put c (moved st delta)) = <[i := moved st delta]> (streams c)) as Es by (unfold put; cbn; now rewrite Hid).
  destruct (h2MaxWindow <? sWindow (moved st delta)); [discriminate|]. intros E. destruct (IH _ Hok' Hnd E). split; auto.
  - intros j. now rewrite m_pend0, Hp.
  - rewrite Et in m_same0. exact m_same0.
  - intros j [Hj|Hj]%elem_of_cons; [subst j; rewrite (m_out0 i Hni), Es, Ei; apply lookup_insert_eq|]. rewrite (m_in0 j Hj), Es, lookup_insert_ne; [reflexivity|]. intros ->. contradiction.
  - intros j [Hj Hj']%not_elem_of_cons. rewrite (m_out0 j Hj'), Es. now rewrite lookup_insert_ne by congruence.
Qed.

(** One setting. *)
Lemma setting_applied c id v : sends_ok maphash msl c -> 0 <= v ->
  exists c1 e, applySetting maphash range (Some c) id v = (Some c1, e) /\ (e = None -> retuned c c1).
Proof.
  intros Hok Hv. pose proof Hok as []. assert (forall c1, (streams c1, sendQueue c1, sendHead c1, wire c1, sendWindow c1) = (streams c, sendQueue c, sendHead c, wire c, sendWindow c) -> maxClientID c1 = maxClientID c -> peerWindow c1 = peerWindow c ->
    0 < peerMaxFrame c1 -> (exists d, HRound.sync maphash (enc c1) d /\ HDecoder.MaxStringLength d = msl) -> closed c1 = closed c -> goAway c1 = goAway c -> retuned c c1) as Hsame.
  { intros c1 [= E1 E2 E3 E4 E5] E6 E7 Hm He Ec Eg. assert (waiting c1 = waiting c) as Ew by (unfold waiting; now rewrite E2, E3). assert (forall i, pend c1 i = pend c i) as Hp by (intros i; unfold pend; now rewrite E1).
    split; auto; rewrite ?E1; eauto.
    - split; rewrite ?Ec, ?Eg, ?E1; auto. destruct s_queue0. split; rewrite ?E2, ?E3, ?E1, ?Ew; auto.
    - unfold turns, work. rewrite Ew. f_equal. f_equal. f_equal. apply map_ext. intros i. now rewrite Hp.
    - intros i st Hi. exists st. split; [exact Hi|lia]. }
  cbn [applySetting]. destruct (id =? h2SettingHeaderTableSize).
  { destruct s_enc0 as (d & Hs & Hd). destruct (HRound.settings_sync maphash (enc c) d (Z.min v HTable.MaxEncoderTableSize) Hs) as (e' & -> & Hs'); [split; [apply Z.min_glb; [lia|now vm_compute]|]; eapply Z.le_lt_trans; [apply Z.le_min_r|now vm_compute]|].
    eexists _, None. split; [reflexivity|]. intros _. apply Hsame; auto. eexists. split; [exact Hs'|exact Hd]. }
  destruct (id =? h2SettingEnablePush). { destruct (1 <? v); eexists _, _; (split; [reflexivity|]); [discriminate|]. intros _. now apply Hsame. }
  destruct (id =? h2SettingMaxConcurrentStreams). { eexists _, _. split; [reflexivity|]. intros _. now apply Hsame. }
  destruct (id =? h2SettingInitialWindowSize).
  { destruct (h2MaxWindow <? v); [eexists _, _; split; [reflexivity|discriminate]|]. cbv zeta. change (streams (set_peerWindow c v)) with (streams c).
    destruct (shiftWindows _ _ _) as [c1 e] eqn:E. exists c1, e. split; [reflexivity|]. intros ->. destruct (range_ok (streams c)) as [Hnd Hin].
    assert (sends_ok maphash msl (set_peerWindow c v)) as Hok0 by (split; auto; destruct s_queue0; split; auto).
    apply (shifted _ _ _ _ Hok0 Hnd) in E. destruct E. destruct m_same0 as (M1 & M2 & M3 & M4 & M5). split; auto.
    - intros i st1 Hi. destruct (decide (i ∈ range (streams c))) as [Hr|Hr]; [rewrite (m_in0 i Hr) in Hi|rewrite (m_out0 i Hr) in Hi; cbn in Hi; eauto].
      cbn [streams set_peerWindow] in Hi. apply fmap_Some in Hi as (st & Hst & ->). exists st. auto.
    - intros i st Hi. assert (i ∈ range (streams c)) as Hr by (apply Hin; eauto). rewrite (m_in0 i Hr). cbn [streams set_peerWindow]. rewrite Hi. eexists. split; [reflexivity|]. rewrite M5. cbn. lia. }
  destruct (id =? h2SettingMaxFrameSize).
  { destruct (_ || _) eqn:Eb; eexists _, _; (split; [reflexivity|]); [discriminate|]. intros _. apply Hsame; auto. apply orb_false_iff in Eb as [Eb _]. apply Z.ltb_ge in Eb. cbn. unfold h2DefaultMaxFrameSize in Eb. lia. }
  destruct (id =? h2SettingMaxHeaderListSize); eexists _, _; (split; [reflexivity|]); intros _; now apply Hsame.
Qed.

Lemma settings_loop fuel c payload : sends_ok maphash msl c -> bytes_ok payload -> len payload mod 6 = 0 -> (length payload <= fuel)%nat ->
  exists c1 e, settingsLoop (applySetting maphash range) fuel (Some c) payload = Some (Some c1, e) /\ (e = None -> retuned c c1).
Proof.
  revert c payload. induction fuel as [|fuel IH]; intros c payload Hok Hb Hmod Hf; cbn [settingsLoop].
  { assert (len payload = 0) as -> by (unfold len; lia). exists c, None. split; [reflexivity|]. intros _. now apply retuned_refl. }
  destruct (Z.eqb_spec (len payload) 0) as [E0|Hne]; [exists c, None; split; [reflexivity|]; intros _; now apply retuned_refl|].
  assert (0 <= be (take 4 (drop 2 payload))) as Hv by (apply be_bytes; unfold bytes_ok in *; now apply Forall_take, Forall_drop).
  destruct (setting_applied c (be (take 2 payload)) _ Hok Hv) as (c1 & e & -> & He). destruct e as [e|]; [exists c1, (Some e); split; [reflexivity|discriminate]|]. specialize (He eq_refl).
  pose proof (len_nonneg payload) as Hnn. assert (6 <= len payload) as H6 by (destruct (Z_lt_le_dec (len payload) 6); [rewrite Z.mod_small in Hmod by lia; lia|lia]).
  assert (len (zdrop 6 payload) = len payload - 6) as Hl by (unfold zdrop, len in *; rewrite length_drop; lia).
  destruct (IH c1 (zdrop 6 payload) (r_ok _ _ He)) as (c2 & e2 & -> & He2); [unfold bytes_ok in *; now apply Forall_drop|rewrite Hl; rewrite <- Hmod; replace (len payload - 6) with (len payload + (-1) * 6) by lia; apply Z_mod_plus_full|unfold len in *; lia|].
  exists c2, e2. split; [reflexivity|]. intros E2. eapply retuned_trans; [exact He|auto].
Qed.

(** Settings are refused for the whole connection. *)
Lemma applied_errors c payload c1 e : applySettingsLocked maphash range c payload = Some (c1, Some e) -> exists code, e = ConnErr code.
Proof.
  assert (forall ids delta c0 c2 e0, shiftWindows ids delta c0 = (c2, Some e0) -> exists code, e0 = ConnErr code) as Hs.
  { induction ids as [|i ids IH]; intros delta c0 c2 e0; cbn [shiftWindows]; [discriminate|]. destruct (streams c0 !! i); [|apply IH]. destruct (_ <? _); [intros [= <- <-]; eauto|apply IH]. }
  assert (forall oc id v oc' e0, applySetting maphash range oc id v = (oc', Some e0) -> exists code, e0 = ConnErr code) as Ha.
  { intros [c0|] id v oc' e0; cbn [applySetting]; [|discriminate]. repeat case_match; intros; simplify_eq; eauto. }
  assert (forall fuel oc p oc' e0, settingsLoop (applySetting maphash range) fuel oc p = Some (oc', Some e0) -> exists code, e0 = ConnErr code) as Hl.
  { induction fuel as [|fuel IH]; intros oc p oc' e0; cbn [settingsLoop]; (destruct (_ =? _); [discriminate|]); [discriminate|]. destruct (applySetting _ _ _ _ _) as [oc1 [e1|]] eqn:E; [intros [= <- <-]; eauto|apply IH]. }
  unfold applySettingsLocked, h2ParseSettings. destruct (negb _); [intros [= <- <-]; eauto|]. destruct (settingsLoop _ _ _ _) as [[[c2|] e2]|] eqn:E; [|discriminate..]. intros [= <- ->]. eauto.
Qed.

(** What the client's SETTINGS come to. *)
Lemma settings_applied (fuel : nat) (c : conn) (f : h2Frame) :
  sends_ok maphash msl c -> bytes_ok (payload f) -> (turns c <= fuel)%nat ->
  (exists c1 e, handleSettings maphash range fuel c f = Some (c1, Some e) /\ applySettingsLocked maphash range c (payload f) = Some (c1, Some e)) \/
  exists c1 c' l, applySettingsLocked maphash range c (payload f) = Some (c1, None) /\ retuned c c1 /\
    handleSettings maphash range fuel c f = Some (c', None) /\ sent maphash msl c1 l c' /\ spent c' /\
    (h2FrameSettings, h2FlagAck, 0, []) ∈ l.
Proof.
  intros Hok Hb Hfuel. unfold handleSettings.
  assert (exists c1 e, applySettingsLocked maphash range c (payload f) = Some (c1, e) /\ (e = None -> retuned c c1)) as (c1 & e & -> & He).
  { unfold applySettingsLocked, h2ParseSettings. destruct (Z.eqb_spec (len (payload f) mod 6) 0) as [E|]; cbn [negb]; [|exists c, (Some (ConnErr H2FrameSizeError)); split; [reflexivity|discriminate]].
    destruct (settings_loop (length (payload f)) c (payload f) Hok Hb E ltac:(lia)) as (c1 & e & -> & He). eauto. }
  destruct e as [e|]; [left; eauto|]. right. specialize (He eq_refl). destruct (flushed_sent maphash msl fuel c1 [(h2FrameSettings, h2FlagAck, 0, [])] (r_ok _ _ He)) as (c' & l & E & Hs & Hsp & Hack); [now apply control_one|now rewrite (r_turns _ _ He)|].
  exists c1, c', l. split; [reflexivity|]. split; [exact He|]. rewrite <- one_frame in E. change (len []) with 0 in E. rewrite app_nil_r in E. rewrite E. repeat (split; [auto; fail|]). apply Hack, list_elem_of_singleton. reflexivity.
Qed.

End Connection.

(** ** Answers *)

Section Answers.
Context (maphash : bytes -> Z) (msl : Z).

(** The connection as an answer finds it, with the body its stream is to send. *)
Definition given (c : conn) (st : stream) (body : bytes) : conn := put c (st_pending (st_responded st true) body).

(** A stream put in the place of one that does not wait. *)
Lemma queue_put ids id c c1 st st1 :
  queue_ok ids c -> streams c !! id = Some st -> queued st = false -> streams c1 = streams c -> sendQueue c1 = sendQueue c -> sendHead c1 = sendHead c -> sid st1 = id -> queued st1 = false ->
  queue_ok ids (put c1 st1).
Proof.
  intros [] Hst Hq Es Eq Eh Hi Hq1. split; unfold put; cbn [sendHead sendQueue streams set_streams]; rewrite ?Eq, ?Eh, ?Es; try assumption. intros i. rewrite Hi, q_queued0. destruct (decide (id = i)) as [<-|Hne]; [|now rewrite lookup_insert_ne].
  rewrite lookup_insert_eq, Hst. split; intros (x & [= <-] & ?); congruence.
Qed.

Lemma queue_enqueued ids id c c1 st st1 :
  queue_ok ids c -> streams c !! id = Some st -> queued st = false -> streams c1 = streams c -> sendQueue c1 = sendQueue c -> sendHead c1 = sendHead c -> sid st1 = id -> queued st1 = false ->
  queue_ok (ids ++ [id]) (enqueueLocked c1 st1) /\ streams (enqueueLocked c1 st1) = <[id := st_queued st1 true]> (streams c).
Proof.
  intros [] Hst Hq Es Eq Eh Hi Hq1. assert (id ∉ ids) as Hni by (intros (x & Hx & ?)%q_queued0; congruence). unfold enqueueLocked. rewrite Hq1, Hi. split; [|unfold put; cbn; now rewrite Es, Hi].
  split; unfold put; cbn [sendHead sendQueue streams set_streams set_sendQueue sid st_queued]; rewrite ?Eq, ?Eh, ?Es, ?Hi.
  - rewrite length_app. cbn. lia.
  - rewrite drop_app_le by assumption. now rewrite q_ids0, map_app.
  - apply NoDup_app. repeat split; [assumption| |apply NoDup_singleton]. intros x Hx ->%list_elem_of_singleton. auto.
  - intros i. rewrite elem_of_app, list_elem_of_singleton, q_queued0. destruct (decide (id = i)) as [<-|Hne]; [rewrite lookup_insert_eq; split; eauto|]. rewrite lookup_insert_ne by exact Hne. naive_solver.
Qed.

(** The same for what [sent] sees of the connection it starts from. *)
Lemma sent_ext c0 c1 l c' :
  sent maphash msl c0 l c' -> wire c1 = wire c0 -> sendWindow c1 = sendWindow c0 -> peerMaxFrame c1 = peerMaxFrame c0 -> maxClientID c1 = maxClientID c0 -> (forall i, pend c1 i = pend c0 i) -> (forall i, window c1 i = window c0 i) ->
  (forall i st0, streams c0 !! i = Some st0 -> exists st1, streams c1 !! i = Some st1 /\ responded st1 = responded st0) -> sent maphash msl c1 l c'.
Proof.
  intros [] E1 E2 E3 E4 Ep Ew Es. split; rewrite ?E1, ?E2, ?E3, ?E4; auto; intros i; rewrite ?Ep, ?Ew; auto.
  intros st Hi. destruct (sent_from0 i st Hi) as (st0 & H0 & R0). destruct (Es i st0 H0) as (st1 & H1 & R1). exists st1. split; [exact H1|congruence].
Qed.

(** A stream that is about to send its answer. *)
Lemma sends_given c id st st0 e :
  sends_ok maphash msl c -> streams c !! id = Some st -> responded st = false -> sid st0 = sid st -> queued st0 = queued st -> sWindow st0 = sWindow st -> responded st0 = true -> trailer_ok msl st0 ->
  (exists d, HRound.sync maphash e d /\ HDecoder.MaxStringLength d = msl) ->
  sends_ok maphash msl (put (set_enc c e) st0) /\ forall l c', sent maphash msl (put (set_enc c e) st0) l c' -> sent maphash msl (given c st (pending st0)) l c'.
Proof.
  intros [] Hst Hr Hi Hq Hw Hr0 Ht He. destruct (s_ids0 id st Hst) as (Hid & _ & Hfr). destruct (Hfr Hr) as (_ & Hqf & _).
  assert (streams (put (set_enc c e) st0) = <[id := st0]> (streams c)) as Es by (unfold put; cbn; now rewrite Hi, Hid).
  assert (streams (given c st (pending st0)) = <[id := st_pending (st_responded st true) (pending st0)]> (streams c)) as Eg by (unfold given, put; cbn; now rewrite Hid).
  split.
  - split; auto.
    + apply (queue_put _ id c _ st st0); auto; congruence.
    + intros i x. rewrite Es. destruct (decide (id = i)) as [<-|Hne]; [rewrite lookup_insert_eq; intros [= <-]; split; [congruence|split; [exact Ht|congruence]]|rewrite lookup_insert_ne by exact Hne; auto].
  - intros l c' Hs. eapply sent_ext; [exact Hs|reflexivity|reflexivity|reflexivity|reflexivity|..].
    + intros i. unfold pend. rewrite Es, Eg. destruct (decide (id = i)) as [<-|Hne]; [now rewrite !lookup_insert_eq|now rewrite !lookup_insert_ne].
    + intros i. unfold window. rewrite Es, Eg. destruct (decide (id = i)) as [<-|Hne]; [rewrite !lookup_insert_eq; cbn; congruence|now rewrite !lookup_insert_ne].
    + intros i x. rewrite Es, Eg. destruct (decide (id = i)) as [<-|Hne]; [rewrite !lookup_insert_eq; intros [= <-]; eexists; split; [reflexivity|cbn; congruence]|rewrite !lookup_insert_ne by exact Hne; eauto].
Qed.

(** The end of an answer: what was framed is sent, and the stream is finished
    if that was all. *)
Lemma answer_end c0 O0 W O c1 out ids id st1 :
  begun maphash msl c0 O0 W O c1 out -> queue_ok ids c1 -> streams c1 !! id = Some st1 -> pending st1 = [] /\ queued st1 = false \/ localDone st1 = false ->
  exists l, sent maphash msl c0 l (closeFinishedLocked (finishAt (sendLocked c1 out) id)) /\ extends (W ++ O) l.
Proof.
  intros Hf Hq Hst Hcase. destruct (sent_all _ _ _ _ _ _ _ _ _ _ _ _ _ _ Hf) as (Hf1 & _ & Hk). set (c2 := sendLocked c1 out) in *. pose proof (queue_keeps _ _ _ Hq Hk) as Hq2.
  assert (streams c2 !! id = Some st1) as Hst2 by (destruct Hk as (-> & _); exact Hst). unfold finishAt. rewrite Hst2.
  assert (exists W', begun maphash msl c0 O0 W' [] (finishStreamLocked c2 st1) [] /\ queue_ok ids (finishStreamLocked c2 st1) /\ extends (W ++ O) W') as (W' & Hf2 & Hq3 & Hx).
  { destruct Hcase as [[Hp Hqd]|Hl].
    - destruct (f_ids _ _ _ _ _ _ _ _ _ _ _ _ _ _ Hf id st1 Hst) as [Hi _]. destruct (finish _ _ _ _ _ _ _ _ _ _ _ _ c2 [] id Hf1 ltac:(unfold pend; now rewrite Hst2) st1 Hi Hqd) as (W' & Hf2 & Hr & Hx).
      exists W'. split; [exact Hf2|]. split; [eapply rests_queue; eauto|exact Hx].
    - exists (W ++ O). unfold finishStreamLocked. rewrite Hl. cbn [negb orb]. auto using extends_refl. }
  destruct (close_finished _ _ _ _ _ _ _ _ _ _ W' [] _ [] id Hf2) as (Hf3 & (Eq & Eh & _) & Es). exists W'. split; [|exact Hx].
  eapply framing_sent; [exact Hf3|]. destruct Hq3. split; rewrite ?Eq, ?Eh, ?Es; eauto.
Qed.

Definition answer_ok (r : answer) : Prop :=
  Forall (fun p => HRound.field_ok msl p.1) (answerFields r) /\ match a_trailer r with Some l => Forall (fun p => HRound.field_ok msl p.1) (fieldsOf l) | None => True end.

(** The frames of an answer's header. *)
Lemma header_framed c r :
  sends_ok maphash msl c -> answer_ok r -> exists e block, HEncoder.encodeBlock maphash (enc c) (answerFields r) = Some (e, block) /\
    (exists d, HRound.sync maphash e d /\ HDecoder.MaxStringLength d = msl) /\
    forall id es, exists hdr, h2AppendHeaderBlock [] id block es (peerMaxFrame c) = Some (written hdr) /\ control hdr.
Proof.
  intros [] [Hfs _]. destruct s_enc0 as (d & Hs & Hd). rewrite <- Hd in Hfs. destruct (HRound.block_decode maphash (enc c) d _ Hs Hfs) as (e & block & d' & E & _ & Hs' & _ & Hd').
  exists e, block. split; [exact E|]. split; [exists d'; split; [exact Hs'|congruence]|]. intros id es.
  destruct (block_frames (S (length block)) h2FrameHeaders (if es then h2FlagEndStream else 0) id block _ s_frame0) as (hdr & Hh & Hc); [lia|discriminate|]. exists hdr. split; [apply Hh|exact Hc].
Qed.

(** The rest of an answer that goes in pieces: its body framed as far as the
    windows let it, behind the header. *)
Lemma answer_pieces cb c id st st0 hdr c1 :
  sends_ok maphash msl c -> streams c !! id = Some st -> queued st = false -> begun maphash msl cb hdr [] hdr (put c1 st0) (written hdr) -> streams c1 = streams c -> sendQueue c1 = sendQueue c -> sendHead c1 = sendHead c ->
  sid st0 = id -> queued st0 = false -> localDone st0 = false -> responded st0 = true ->
  exists c2 out2 ids, (if len (pending st0) =? 0 then match endStreamLocked maphash c1 (written hdr) st0 with None => None | Some (c, out, st) => Some (put c st, out) end else flushStreamLocked maphash c1 (written hdr) st0) = Some (c2, out2) /\
    exists W O st2, begun maphash msl cb hdr W O c2 out2 /\ queue_ok ids c2 /\ streams c2 !! id = Some st2 /\ (pending st2 = [] /\ queued st2 = false \/ localDone st2 = false) /\ extends hdr (W ++ O).
Proof.
  intros Hok Hst Hqd Hf Es Eq Eh Hi Hq0 Hl0 Hr0. pose proof (s_queue _ _ _ Hok) as Hq. destruct (Z.eqb_spec (len (pending st0)) 0) as [E0|Hne].
  - destruct (end_stream _ _ _ _ _ _ _ _ _ _ [] hdr c1 (written hdr) st0 Hf Hr0) as (c2 & O2 & out2 & st2 & -> & Hf2 & Hk & H1 & H2 & H3 & _ & _ & _ & Hx). destruct Hk as (K1 & K2 & K3 & _).
    exists (put c2 st2), out2, (waiting c). split; [reflexivity|]. exists [], O2, st2. split; [exact Hf2|]. split; [eapply queue_put; [exact Hq|exact Hst|exact Hqd|congruence..]|].
    split; [unfold put; cbn; rewrite H1, Hi; apply lookup_insert_eq|]. split; [left; split; [rewrite H3; exact (len_none _ E0)|congruence]|exact Hx].
  - unfold flushStreamLocked. destruct (flush_stream _ _ _ _ _ _ _ _ _ _ (length (pending st0)) [] hdr c1 (written hdr) st0 MaxInt64 Hf ltac:(lia)) as (c2 & W & O & out2 & st2 & -> & Hf2 & (Hk & H1 & H2 & _ & _ & H3 & H4 & _) & Hx).
    destruct Hk as (K1 & K2 & K3 & _). destruct (Z.ltb_spec 0 (len (pending st2))) as [Hp|Hp].
    + destruct (queue_enqueued (waiting c) id c c2 st st2) as [Hq2 Es2]; [exact Hq|exact Hst|exact Hqd|congruence..|].
      exists (enqueueLocked c2 st2), out2, (waiting c ++ [id]). split; [reflexivity|]. exists W, O, (st_queued st2 true). split; [|split; [exact Hq2|split; [rewrite Es2; apply lookup_insert_eq|split; [right|exact Hx]]]].
      * apply framing_st with (st' := st_queued st2 true) in Hf2; [|reflexivity| |reflexivity..]; [|destruct (framing_in _ _ _ _ _ _ _ _ _ _ _ _ _ _ _ Hf2) as [Ht _]; split; [exact Ht|cbn; congruence]].
        eapply framing_ext; [exact Hf2|rewrite Es2; unfold put; cbn; congruence|unfold enqueueLocked; destruct (queued st2); reflexivity..].
      * cbn. rewrite H4; [exact Hl0|]. intros E. rewrite E in Hp. change (len []) with 0 in Hp. lia.
    + exists (put c2 st2), out2, (waiting c). split; [reflexivity|]. exists W, O, st2. split; [exact Hf2|]. split; [eapply queue_put; [exact Hq|exact Hst|exact Hqd|congruence..]|]. split; [unfold put; cbn; rewrite H1, Hi; apply lookup_insert_eq|].
      split; [left; split; [apply len_none; pose proof (len_nonneg (pending st2)); lia|congruence]|exact Hx].
Qed.

(** What an answer on a stream that waits for one comes to. *)
Lemma answer_sent (c : conn) (id : Z) (st : stream) (r : answer) :
  sends_ok maphash msl c -> streams c !! id = Some st -> responded st = false -> answer_ok r -> a_close r = false ->
  (reset st = true /\ answerLocked maphash c id r = Some (c, Some AnswerClosed)) \/
  (fits r (peerMaxHeaderList c) = false /\ answerLocked maphash c id r = Some (refuseHeaderLocked c st, Some AnswerTooLarge)) \/
  exists c' e block hdr rest, answerLocked maphash c id r = Some (c', None) /\
    HEncoder.encodeBlock maphash (enc c) (answerFields r) = Some (e, block) /\
    h2AppendHeaderBlock [] id block ((len (a_body r) =? 0) && negb (bool_decide (is_Some (a_trailer r)))) (peerMaxFrame c) = Some (written hdr) /\
    sent maphash msl (given c st (a_body r)) (hdr ++ rest) c'.
Proof.
  intros Hok Hst Hr Ha Hcl. unfold answerLocked. rewrite Hst, Hr. destruct (s_open _ _ _ Hok) as [Hc Hg]. rewrite Hc. cbn [orb]. destruct (reset st); [auto|]. destruct (fits r (peerMaxHeaderList c)) eqn:Efit; cbn [negb]; [right; right|auto].
  destruct (s_ids _ _ _ Hok id st Hst) as (Hid & _ & Hfr). destruct (Hfr Hr) as (Hp & Hq & Hl). destruct (header_framed c r Hok Ha) as (e & block & Eenc & He & Hhdr). rewrite Eenc.
  cbv zeta. set (st1 := st_trailer (st_responded st true) (fieldsOf <$> a_trailer r)).
  assert (trailer_ok msl st1) as Ht by (unfold trailer_ok, st1; cbn; destruct Ha as [_ Ht]; destruct (a_trailer r); exact Ht).
  unfold sendableLocked. pose proof (stream_room_asked (set_enc c e) st1 []) as Hroom. destruct (streamRoomLocked (set_enc c e) st1 []) as [c1 room]. destruct Hroom as (Hk & Ew & Er & Ee & Ec & Eg & _).
  pose proof Hk as (Ks & Kq & Kh & Km & _). cbn [streams sendQueue sendHead peerMaxFrame set_enc] in Ks, Kq, Kh, Km. cbn [goAway set_enc] in Eg. change (sid st1) with (sid st). rewrite Hid, Km.
  set (sendable := Z.max _ 0). rewrite Hcl. cbn [andb negb]. rewrite andb_true_r.
  assert (bool_decide (is_Some (trailer st1)) = bool_decide (is_Some (a_trailer r))) as Etr by (unfold st1; cbn; now destruct (a_trailer r)).
  assert (forall st0, st0 = st_pending st1 (a_body r) \/ st0 = st_pending (st_shared st1 (negb (a_owned r) && negb (layered c1) && negb (a_within r))) (a_body r) ->
    sends_ok maphash msl (put (set_enc c e) st0) /\ (forall l c', sent maphash msl (put (set_enc c e) st0) l c' -> sent maphash msl (given c st (a_body r)) l c') /\
    forall hdr, control hdr -> begun maphash msl (put (set_enc c e) st0) hdr [] hdr (put c1 st0) (written hdr)) as Hstart.
  { intros st0 Hst0. assert (sid st0 = sid st /\ queued st0 = queued st /\ sWindow st0 = sWindow st /\ responded st0 = true /\ trailer_ok msl st0 /\ pending st0 = a_body r) as (A1 & A2 & A3 & A4 & A5 & A6) by (destruct Hst0; subst st0; auto 8).
    destruct (sends_given c id st st0 e Hok Hst Hr A1 A2 A3 A4 A5 He) as [Hok0 Hconv]. rewrite A6 in Hconv. split; [exact Hok0|]. split; [exact Hconv|]. intros hdr Hh. eapply framing_room; [now apply framing_start|exact Hk|assumption..]. }
  destruct ((sendable =? _) && _ && _ && _ && _ && _) eqn:Efast.
  - rewrite !andb_true_iff, !negb_true_iff, Z.eqb_eq, Z.ltb_lt, Z.leb_le, !bool_decide_eq_false in Efast. destruct Efast as (((((F1 & F2) & F3) & F4) & _) & _).
    destruct (Hhdr id false) as (hdr & Eh & Hctl). rewrite Eh. destruct (Hstart (st_pending st1 (a_body r))) as (Hok0 & Hconv & Hf); [now left|]. specialize (Hf hdr Hctl). clear Hstart.
    set (st2 := st_localDone _ true). set (c2 := set_sendWindow c1 _). set (f := (h2FrameData, h2FlagEndStream, id, a_body r)).
    assert (h2AppendFrameHeader (written hdr) h2FrameData h2FlagEndStream id (len (a_body r)) ++ a_body r = written (hdr ++ [f])) as Eout by (rewrite H2Round.append_header, written_app; unfold f; rewrite <- one_frame; now rewrite app_assoc).
    rewrite Eout. assert (begun maphash msl (put (set_enc c e) (st_pending st1 (a_body r))) hdr [] (hdr ++ [f]) (put c2 st2) (written (hdr ++ [f]))) as Hf2.
    { pose proof (f_wire _ _ _ _ _ _ _ _ _ _ _ _ _ _ Hf) as Hw. assert (0 < len (a_body r) /\ len (a_body r) <= sendWindow c1 /\ len (a_body r) <= sWindow st /\ len (a_body r) <= peerMaxFrame c) as (B1 & B2 & B3 & B4) by (unfold sendable in *; change (sWindow st1) with (sWindow st) in *; lia).
      cbn [peerMaxFrame put set_streams set_enc] in *.
      eapply framing_data with (chunk := a_body r) (fl := h2FlagEndStream); [exact Hf|unfold f; now rewrite <- Hid|exact Hw|reflexivity|exact B1|exact B2|exact B3|exact B4|reflexivity|cbn; lia|reflexivity..| |cbn; lia]. cbn. now rewrite Hp, app_nil_r. }
    assert (streams (put c2 st2) !! id = Some st2) as Hst2 by (unfold put; cbn; rewrite Hid; apply lookup_insert_eq).
    destruct (answer_end _ _ _ _ _ _ (waiting c) id st2 Hf2) as (l & Hs & (x & ->)); [eapply queue_put; [apply Hok|exact Hst|exact Hq|exact Ks|exact Kq|exact Kh|exact Hid|exact Hq]|exact Hst2|left; split; [exact Hp|exact Hq]|].
    unfold finishAt in Hs. destruct (send_rests id (put c2 st2) (written (hdr ++ [f]))) as [_ Es2]. rewrite Es2, Hst2 in Hs. cbn [app] in Hs. rewrite <- app_assoc in Hs.
    eexists _, e, block, hdr, _. split; [reflexivity|]. split; [reflexivity|]. split; [|apply Hconv; exact Hs]. destruct (Z.eqb_spec (len (a_body r)) 0); [lia|exact Eh].
  - clear Efast. set (st2 := st_shared st1 _). change (sid st2) with (sid st). rewrite Hid. change (trailer st2) with (trailer st1). rewrite Etr.
    destruct (Hhdr id ((len (a_body r) =? 0) && negb (bool_decide (is_Some (a_trailer r))))) as (hdr & Eh & Hctl). rewrite Eh.
    destruct (Hstart (st_pending st2 (a_body r))) as (Hok0 & Hconv & Hf); [now right|]. specialize (Hf hdr Hctl). clear Hstart.
    destruct (answer_pieces (put (set_enc c e) (st_pending st2 (a_body r))) c id st (st_pending st2 (a_body r)) hdr c1 Hok Hst Hq Hf Ks Kq Kh Hid Hq Hl eq_refl) as (c2 & out2 & ids & E & W & O & st3 & Hf2 & Hq2 & Hst3 & Hcase & Hx).
    replace (if len (a_body r) =? 0 then _ else _) with (Some (c2, out2)).
    2:{ rewrite <- E. cbn [pending st_pending]. destruct (Z.eqb_spec (len (a_body r)) 0) as [E0|]; [|reflexivity]. rewrite (len_none _ E0). unfold st2, st1. clear -Hp. destruct st. cbn in *. now rewrite Hp. }
    destruct (answer_end _ _ _ _ _ _ ids id st3 Hf2 Hq2 Hst3 Hcase) as (l & Hs & Hx'). destruct (extends_trans _ _ _ Hx Hx') as (x & ->).
    eexists _, e, block, hdr, x. split; [reflexivity|]. split; [reflexivity|]. split; [exact Eh|apply Hconv; exact Hs].
Qed.

(** ** Resets *)

(** Alike in all that sending depends on. *)
Record alike (c c' : conn) : Prop := {
  k_streams : streams c' = streams c;
  k_queue : sendQueue c' = sendQueue c;
  k_head : sendHead c' = sendHead c;
  k_window : sendWindow c' = sendWindow c;
  k_frame : peerMaxFrame c' = peerMaxFrame c;
  k_enc : enc c' = enc c;
  k_closed : closed c' = closed c;
  k_away : goAway c' = goAway c;
  k_client : maxClientID c' = maxClientID c
}.

Lemma alike_refl c : alike c c.
Proof. split; reflexivity. Qed.

Lemma alike_chain c c' c'' : alike c c' -> alike c' c'' -> alike c c''.
Proof. intros [] []. split; congruence. Qed.

Lemma alike_ok c c' : alike c c' -> sends_ok maphash msl c -> sends_ok maphash msl c'.
Proof.
  intros [] []. assert (waiting c' = waiting c) as Ew by (unfold waiting; now rewrite k_queue0, k_head0). split; rewrite ?k_streams0, ?k_frame0, ?k_enc0, ?k_closed0, ?k_away0; auto.
  destruct s_queue0. split; rewrite ?k_queue0, ?k_head0, ?k_streams0, ?Ew; auto.
Qed.

(** [c'] after control frames. *)
Definition told (c c' : conn) : Prop := exists l, control l /\ wire c' = wire c ++ written l.

Lemma told_refl c : told c c.
Proof. exists []. split; [constructor|]. now rewrite app_nil_r. Qed.

Lemma told_trans c c' c'' : told c c' -> told c' c'' -> told c c''.
Proof. intros (l & Hl & E) (l' & Hl' & E'). exists (l ++ l'). split; [now apply Forall_app|]. now rewrite E', E, written_app, app_assoc. Qed.

Lemma told_send c l : control l -> closed c = false -> alike c (sendLocked c (written l)) /\ told c (sendLocked c (written l)).
Proof.
  intros Hl Hc. unfold sendLocked. rewrite Hc, andb_true_r. set (c1 := if negb _ then _ else c).
  assert (alike c c1 /\ wire c1 = wire c ++ written l) as [Ha Hw] by (unfold c1; destruct (Z.eqb_spec (len (written l)) 0) as [E|_]; cbn [negb]; split; [apply alike_refl|now rewrite (len_none _ E), app_nil_r|split; reflexivity|reflexivity]).
  split; [eapply alike_chain; [exact Ha|]; unfold armDrainLocked; destruct (_ || _); split; reflexivity|]. exists l. split; [exact Hl|]. rewrite <- Hw. unfold armDrainLocked. destruct (_ || _); reflexivity.
Qed.

Lemma told_close c : goAway c = false -> alike c (closeFinishedLocked c) /\ told c (closeFinishedLocked c).
Proof. intros Hg. unfold closeFinishedLocked. destruct (_ || negb (bool_decide _)); [split; [apply alike_refl|apply told_refl]|]. rewrite Hg. cbn [negb]. split; [split; reflexivity|exists []; split; [constructor|now rewrite app_nil_r]]. Qed.

Lemma filter_elsewhere (id : Z) (ids : list Z) : id ∉ ids -> filter (fun x => x <> id) ids = ids.
Proof. induction ids as [|i ids IH]; [reflexivity|]. intros [Hi Hn]%not_elem_of_cons. rewrite filter_cons. destruct (decide (i <> id)) as [|Hno]; [now rewrite IH|]. exfalso. apply Hno. congruence. Qed.

Lemma unqueue_map id (ids : list Z) : NoDup ids -> unqueue id (map Some ids) = map Some (filter (fun x => x <> id) ids).
Proof.
  induction ids as [|i ids IH]; intros Hnd; [reflexivity|]. apply NoDup_cons in Hnd as [Hni Hnd]. cbn [map unqueue]. rewrite filter_cons. destruct (decide (i = id)) as [->|Hne].
  - rewrite bool_decide_eq_true_2 by reflexivity. destruct (decide (id <> id)); [contradiction|]. now rewrite filter_elsewhere.
  - rewrite bool_decide_eq_false_2 by congruence. destruct (decide (i <> id)); [|contradiction]. cbn. now rewrite IH.
Qed.

(** The queue without a stream. *)
Lemma dequeued ids c id st : queue_ok ids c -> streams c !! id = Some st -> sid st = id ->
  let '(c1, st1) := dequeueLocked c st in
  streams c1 = streams c /\ queue_ok (filter (fun x => x <> id) ids) (set_streams c1 (delete id (streams c1))) /\ st1 = st_queued (st_turn st 0) false.
Proof.
  intros Hq Hst Hi. pose proof Hq as []. unfold dequeueLocked. cbn [queued st_turn].
  assert (forall c1, streams c1 = streams c -> (sendHead c1 <= length (sendQueue c1))%nat -> drop (sendHead c1) (sendQueue c1) = map Some (filter (fun x => x <> id) ids) -> queue_ok (filter (fun x => x <> id) ids) (set_streams c1 (delete id (streams c1)))) as Hdel.
  { intros c1 Es Hh Hd. split; cbn [sendHead sendQueue streams set_streams]; auto; [now apply NoDup_filter|]. rewrite Es. intros i. rewrite list_elem_of_filter, q_queued0. destruct (decide (id = i)) as [<-|Hne]; [rewrite lookup_delete_eq; naive_solver|rewrite lookup_delete_ne by exact Hne; naive_solver]. }
  destruct (queued st) eqn:Eq; cbn [negb].
  - set (q := take _ _ ++ _). assert (drop (sendHead c) q = map Some (filter (fun x => x <> id) ids)) as Hd by (unfold q; rewrite drop_app_length' by (rewrite length_take; lia); change (sid (st_turn st 0)) with (sid st); now rewrite Hi, q_ids0, unqueue_map).
    assert (sendHead c <= length q)%nat as Hh by (unfold q; rewrite length_app, length_take; lia).
    unfold compactQueueLocked. cbn [sendHead sendQueue set_sendQueue]. destruct (Nat.eqb_spec (sendHead c) (length q)) as [E|_].
    + split; [reflexivity|]. split; [|reflexivity]. apply (Hdel (set_sendHead (set_sendQueue (set_sendQueue c q) []) 0)); [reflexivity|cbn; lia|]. cbn. rewrite E, drop_all in Hd. exact Hd.
    + destruct (_ <? _)%nat; (split; [reflexivity|]; split; [|reflexivity]); apply Hdel; try reflexivity; cbn; auto. lia.
  - split; [reflexivity|]. split; [|now destruct st; cbn in *; subst]. assert (id ∉ ids) by (intros (x & Hx & ?)%q_queued0; congruence). apply Hdel; auto. now rewrite filter_elsewhere.
Qed.

(** What forgetting a stream leaves. *)
Record forgot (id : Z) (c c' : conn) : Prop := {
  g_ok : sends_ok maphash msl c';
  g_told : told c c';
  g_streams : streams c' = delete id (streams c);
  g_window : sendWindow c' = sendWindow c;
  g_client : maxClientID c' = maxClientID c
}.

Lemma forgotten c id st : sends_ok maphash msl c -> streams c !! id = Some st -> forgot id c (forgetLocked c st).
Proof.
  intros Hok Hst. pose proof Hok as []. destruct s_open0 as [Hc Hg]. destruct (s_ids0 id st Hst) as [Hi _]. unfold forgetLocked. cbv zeta. set (st1 := st_pending _ []).
  pose proof (dequeued (waiting c) c id st s_queue0 Hst Hi) as Hd.
  assert (exists q h, dequeueLocked c st1 = (set_sendHead (set_sendQueue c q) h, st_queued (st_turn st1 0) false) /\ (dequeueLocked c st).1 = set_sendHead (set_sendQueue c q) h) as (q & h & E1 & E2).
  { unfold dequeueLocked, st1. cbn [queued st_turn st_pending st_reset sid]. destruct (queued st) eqn:Eqd; cbn [negb].
    - unfold compactQueueLocked. cbn [sendHead sendQueue set_sendQueue]. destruct (_ =? _)%nat; [do 2 eexists; split; reflexivity|]. destruct (_ <? _)%nat; do 2 eexists; split; reflexivity.
    - exists (sendQueue c), (sendHead c). destruct c, st. cbn in *. subst. auto. }
  destruct (dequeueLocked c st) as [cq stq]. cbn [fst] in E2. subst cq. destruct Hd as (_ & Hq & _). rewrite E1. cbn [sid st_queued st_turn connHeld pushed streams set_sendHead set_sendQueue]. change (sid st1) with (sid st). change (connHeld st1) with (connHeld st). change (pushed st1) with (pushed st).
  rewrite Hi, bool_decide_eq_true_2 by eauto. cbn [negb]. set (cq := set_sendHead _ h) in *. set (c1 := if 0 <? connHeld st then _ else cq).
  assert (alike cq c1 /\ told cq c1) as [Ha Ht].
  { unfold c1. destruct (0 <? connHeld st); [|split; [apply alike_refl|apply told_refl]]. destruct (credit_written cq (connHeld st)) as (l & El & Hl). pose proof (credit_keeps id cq (connHeld st)) as Hk.
    destruct (creditConnLocked cq [] (connHeld st)) as [c2 o2]. cbn in El, Hk. subst o2. destruct Hk as (K1 & K2 & K3 & K4 & K5 & K6 & K7 & K8 & (K9 & K10 & _)). destruct (told_send c2 l Hl ltac:(rewrite K5; exact Hc)) as [Ha Ht].
    split; [eapply alike_chain; [|exact Ha]; split; assumption|]. destruct Ht as (l' & Hl' & E'). exists l'. rewrite K7 in E'. auto. }
  assert (forgot id c (set_streams c1 (delete id (streams c1)))) as Hf.
  { destruct Ha. assert (waiting (set_streams c1 (delete id (streams c1))) = filter (fun x => x <> id) (waiting c)) as Ew by (unfold waiting at 1; cbn [sendQueue sendHead set_streams]; rewrite k_queue0, k_head0; exact (waiting_ids _ _ Hq)).
    split; [split| | | |]; rewrite ?Ew; cbn [streams set_streams peerMaxFrame enc closed goAway wire sendWindow maxClientID]; rewrite ?k_streams0, ?k_frame0, ?k_enc0, ?k_closed0, ?k_away0; auto.
    - destruct Hq. split; cbn [streams set_streams sendQueue sendHead]; rewrite ?k_streams0, ?k_queue0, ?k_head0; auto.
    - intros i x. change (streams cq) with (streams c). destruct (decide (id = i)) as [<-|Hne]; [now rewrite lookup_delete_eq|rewrite lookup_delete_ne by exact Hne; auto]. }
  destruct (pushed st); [|exact Hf]. destruct Hf. split; auto. eapply alike_ok; [|exact g_ok0]. split; reflexivity.
Qed.

(** What the client's reset of a stream it has open comes to. *)
Lemma reset_taken (c : conn) (f : h2Frame) (st : stream) :
  sends_ok maphash msl c -> streamID f <> 0 -> len (payload f) = 4 -> idleLocked c (streamID f) = false -> streams c !! streamID f = Some st ->
  exists c', handleRSTStream c f = (c', None) /\ forgot (streamID f) c c'.
Proof.
  intros Hok Hz Hl Hidle Hst. unfold handleRSTStream. rewrite (proj2 (Z.eqb_neq _ _) Hz), Hl, Hidle, Hst. cbn [negb Z.eqb]. pose proof (forgotten c _ st Hok Hst) as []. eexists. split; [reflexivity|].
  destruct (told_close (forgetLocked c st) ltac:(apply g_ok0)) as [Ha Ht]. pose proof Ha as []. split; [eapply alike_ok; eauto|eapply told_trans; eauto|congruence..].
Qed.

End Answers.
End H2Answers.
