(* ===== verification/H2Run.v ===== *)
(** * A connection of HTTP/2 as it is used (src/http/h2_server.go)

    Any sequence of the operations of [H2Send]: what the bodies that were
    answered come to on the connection. *)

From S2P Require Import Prelude HpackTables HpackTable HpackDecoder HpackEncoder HpackRoundtrip H2Frame H2Roundtrip H2Send H2Flush H2Answers.
From stdpp Require Import base list numbers gmap sets.
From Stdlib Require Import ZArith Lia.

Local Open Scope Z_scope.
Local Open Scope go_scope.

Module H2Run.
Import H2 H2Send H2Flush H2Answers.

Inductive op : Type :=
  | Request (id weight : Z)
  | RequestDone (id : Z)
  | Answer (id : Z) (r : answer)
  | WindowUpdate (f : h2Frame)
  | Settings (f : h2Frame)
  | Reset (f : h2Frame)
  | Drained.

(** The connection, with the body each stream was answered with, the streams that
    were reset, and all the peer gave the connection's window. *)
Record sys : Type := mkSys { s_conn : conn; s_bodies : gmap Z bytes; s_gone : gset Z; s_granted : Z }.

Section Run.
Context (maphash : bytes -> Z) (range : gmap Z stream -> list Z).

(** A handler's error: a stream's is answered by resetting it, as [handleError]
    does, another's ends the connection. *)
Definition settle (s : sys) (c : conn) (granted : Z) (e : option herr) : sys + Z :=
  match e with
  | None => inl (mkSys c (s_bodies s) (s_gone s) granted)
  | Some (StreamErr id code) => inl (mkSys (resetStream c id code) (s_bodies s) ({[id]} ∪ s_gone s) granted)
  | Some (ConnErr code) => inr code
  end.

Definition step (s : sys) (o : op) : option (sys + Z) :=
  let c := s_conn s in
  match o with
  | Request id weight =>
      match openStream c id weight with
      | (c, Refused e) => Some (settle s c (s_granted s) (Some e))
      | (c, _) => Some (settle s c (s_granted s) None)
      end
  | RequestDone id => Some (settle s (finishRequest c id) (s_granted s) None)
  | Answer id r =>
      match answerLocked maphash c id r with
      | None => None
      | Some (c, None) => Some (inl (mkSys c (<[id := a_body r]> (s_bodies s)) (s_gone s) (s_granted s)))
      | Some (c, Some AnswerTooLarge) => Some (inl (mkSys c (s_bodies s) ({[id]} ∪ s_gone s) (s_granted s)))
      | Some (c, Some _) => Some (settle s c (s_granted s) None)
      end
  | WindowUpdate f =>
      match handleWindowUpdate maphash (turns c) c f with
      | None => None
      | Some (c, e) => Some (settle s c (if streamID f =? 0 then s_granted s + increment f else s_granted s) e)
      end
  | Settings f =>
      match handleSettings maphash range (turns c) c f with
      | None => None
      | Some (c, e) => Some (settle s c (s_granted s) e)
      end
  | Reset f =>
      let '(c', e) := handleRSTStream c f in
      match e with
      | Some (ConnErr code) => Some (inr code)
      | Some (StreamErr id code) => Some (settle s c' (s_granted s) e)
      | None => Some (inl (mkSys c' (s_bodies s) (if bool_decide (is_Some (streams c !! streamID f)) then {[streamID f]} ∪ s_gone s else s_gone s) (s_granted s)))
      end
  | Drained =>
      match drained maphash (turns c) c with
      | None => None
      | Some c => Some (settle s c (s_granted s) None)
      end
  end.

(** The operations up to the one that ends the connection, with its error. *)
Fixpoint run (s : sys) (ops : list op) : option (sys * option Z) :=
  match ops with
  | [] => Some (s, None)
  | o :: ops =>
      match step s o with
      | None => None
      | Some (inr code) => Some (s, Some code)
      | Some (inl s) => run s ops
      end
  end.

(** ** What every operation keeps *)

Context (msl : Z) (range_ok : forall m, NoDup (range m) /\ forall i, i ∈ range m <-> is_Some (m !! i)).

Definition bodyOf (B : gmap Z bytes) (i : Z) : bytes := default [] (B !! i).

(** With [L] the frames written so far. *)
Record inv (s : sys) (L : list hframe) : Prop := {
  i_ok : sends_ok maphash msl (s_conn s);
  i_wire : wire (s_conn s) = written L;
  i_low : 0 <= sendWindow (s_conn s);
  i_win : sendWindow (s_conn s) + len (allData L) = s_granted s;
  i_full : forall i, i ∉ s_gone s -> payloads i L ++ pend (s_conn s) i = bodyOf (s_bodies s) i;
  i_prefix : forall i, payloads i L `prefix_of` bodyOf (s_bodies s) i;
  i_gone : forall i, i ∈ s_gone s -> streams (s_conn s) !! i = None;
  i_fresh : forall i st, streams (s_conn s) !! i = Some st -> responded st = false -> s_bodies s !! i = None;
  i_max : forall i, is_Some (streams (s_conn s) !! i) \/ is_Some (s_bodies s !! i) \/ i ∈ s_gone s -> i <= maxClientID (s_conn s)
}.

(** Sending, from a connection whose windows and bodies were changed. *)
Lemma inv_sent s L c1 B g l c' :
  inv s L -> wire c1 = wire (s_conn s) -> sendWindow c1 = sendWindow (s_conn s) + g -> 0 <= g -> maxClientID c1 = maxClientID (s_conn s) ->
  (forall i, i ∉ s_gone s -> payloads i L ++ pend c1 i = bodyOf B i) -> (forall i, payloads i L `prefix_of` bodyOf B i) ->
  (forall i st, streams c1 !! i = Some st -> is_Some (streams (s_conn s) !! i) /\ (responded st = false -> B !! i = None)) -> (forall i, is_Some (B !! i) -> i <= maxClientID (s_conn s)) ->
  sent maphash msl c1 l c' -> inv (mkSys c' B (s_gone s) (s_granted s + g)) (L ++ l).
Proof.
  intros [] Hw Hsw Hg Hmc Hfull Hpre Hst HB []. assert (forall i, i ∈ s_gone s -> pend c1 i = []) as Hnone.
  { intros i Hi. unfold pend. destruct (streams c1 !! i) as [st|] eqn:E; [|reflexivity]. destruct (Hst i st E) as [Hs _]. rewrite (i_gone0 i Hi) in Hs. now destruct Hs. }
  assert (forall i, i ∈ s_gone s -> payloads i l = []) as Hnol by (intros i Hi; pose proof (sent_data0 i) as E; rewrite (Hnone i Hi) in E; now apply app_nil in E).
  split; cbn [s_conn s_bodies s_gone s_granted]; auto.
  - now rewrite sent_wire0, Hw, i_wire0, written_app.
  - lia.
  - rewrite allData_app, len_app. lia.
  - intros i Hi. rewrite payloads_app, <- app_assoc, sent_data0. auto.
  - intros i. rewrite payloads_app. destruct (decide (i ∈ s_gone s)) as [Hi|Hi]; [rewrite (Hnol i Hi), app_nil_r; auto|]. rewrite <- (Hfull i Hi), <- (sent_data0 i), app_assoc. apply prefix_app_r. reflexivity.
  - intros i Hi. destruct (streams c' !! i) as [st|] eqn:E; [|reflexivity]. destruct (sent_from0 i st E) as (st0 & H0 & _). destruct (Hst i st0 H0) as [Hs _]. rewrite (i_gone0 i Hi) in Hs. now destruct Hs.
  - intros i st Hi Hr. destruct (sent_from0 i st Hi) as (st0 & H0 & R0). apply (Hst i st0 H0). congruence.
  - rewrite sent_client0, Hmc. intros i [[st Hi]|[Hi|Hi]]; auto. destruct (sent_from0 i st Hi) as (st0 & H0 & _). apply i_max0. left. apply (Hst i st0 H0).
Qed.

(** A stream taken away, and what it had to send with it. *)
Lemma inv_forgot s L id c' : inv s L -> forgot maphash msl id (s_conn s) c' -> id <= maxClientID (s_conn s) -> exists l, inv (mkSys c' (s_bodies s) ({[id]} ∪ s_gone s) (s_granted s)) (L ++ l).
Proof.
  intros [] [Hok (l & Hl & Hw) Hs Hsw Hmc] Hid. exists l.
  assert (forall i, payloads i (L ++ l) = payloads i L) as Hp by (intros i; now rewrite payloads_app, (control_payloads i l Hl), app_nil_r).
  split; cbn [s_conn s_bodies s_gone s_granted]; rewrite ?Hs; auto.
  - now rewrite Hw, i_wire0, written_app.
  - lia.
  - rewrite allData_app, (control_data l Hl), app_nil_r. lia.
  - intros i Hi. rewrite Hp. unfold pend. rewrite Hs, lookup_delete_ne by set_solver. apply i_full0. set_solver.
  - intros i. now rewrite Hp.
  - intros i Hi. destruct (decide (id = i)) as [<-|Hne]; [apply lookup_delete_eq|]. rewrite lookup_delete_ne by exact Hne. apply i_gone0. set_solver.
  - intros i st Hi. apply lookup_delete_Some in Hi as [_ Hi]. eauto.
  - rewrite Hmc. intros i [[st Hi]|[Hi|Hi]]; [apply lookup_delete_Some in Hi as [_ Hi]; eauto|auto|]. apply elem_of_union in Hi as [Hi%elem_of_singleton|Hi]; [lia|auto].
Qed.

(** A connection alike, after control frames. *)
Lemma inv_told s L c' : inv s L -> alike (s_conn s) c' -> told (s_conn s) c' -> exists l, inv (mkSys c' (s_bodies s) (s_gone s) (s_granted s)) (L ++ l).
Proof.
  intros Hi Ha (l & Hl & Hw). pose proof Hi as []. pose proof Ha as []. exists l.
  split; cbn [s_conn s_bodies s_gone s_granted]; unfold pend in *; rewrite ?k_streams0, ?k_window0, ?k_client0; auto.
  - eapply alike_ok; eauto.
  - now rewrite Hw, i_wire0, written_app.
  - now rewrite allData_app, (control_data l Hl), app_nil_r.
  - intros i Hg. rewrite payloads_app, (control_payloads i l Hl), app_nil_r. auto.
  - intros i. rewrite payloads_app, (control_payloads i l Hl), app_nil_r. auto.
Qed.

Definition with_conn (s : sys) (c : conn) : sys := mkSys c (s_bodies s) (s_gone s) (s_granted s).

(** A stream changed where sending does not look. *)
Lemma inv_put s L i st st' :
  inv s L -> streams (s_conn s) !! i = Some st -> sid st' = sid st -> queued st' = queued st -> pending st' = pending st -> responded st' = responded st -> stream_ok msl st' -> inv (with_conn s (put (s_conn s) st')) L.
Proof.
  intros [] Hst E1 E2 E3 E4 Hok. destruct (sends_put maphash msl (s_conn s) i st st' i_ok0 Hst E1 E2 E3 Hok) as (Hok' & Hp & _). destruct (s_ids _ _ _ i_ok0 i st Hst) as [Hi _].
  assert (streams (put (s_conn s) st') = <[i := st']> (streams (s_conn s))) as Es by (unfold put; cbn; now rewrite E1, Hi).
  split; cbn [with_conn s_conn s_bodies s_gone s_granted]; rewrite ?Es; auto.
  - intros j Hj. rewrite Hp. auto.
  - intros j Hj. destruct (decide (i = j)) as [<-|Hne]; [rewrite (i_gone0 i Hj) in Hst; discriminate|]. rewrite lookup_insert_ne by exact Hne. auto.
  - intros j x. destruct (decide (i = j)) as [<-|Hne]; [rewrite lookup_insert_eq; intros [= <-] Hr; apply (i_fresh0 i st Hst); congruence|rewrite lookup_insert_ne by exact Hne; eauto].
  - intros j. change (maxClientID (put (s_conn s) st')) with (maxClientID (s_conn s)). destruct (decide (i = j)) as [<-|Hne]; [intros _; apply i_max0; eauto|rewrite lookup_insert_ne by exact Hne; auto].
Qed.

Lemma forgot_none id c : sends_ok maphash msl c -> streams c !! id = None -> forgot maphash msl id c c.
Proof. intros Hok Hn. split; auto using told_refl. now rewrite delete_id. Qed.

Lemma inv_reset s L id code : inv s L -> id <= maxClientID (s_conn s) -> exists l, inv (mkSys (resetStream (s_conn s) id code) (s_bodies s) ({[id]} ∪ s_gone s) (s_granted s)) (L ++ l).
Proof.
  intros Hi Hid. unfold resetStream. set (c1 := match streams (s_conn s) !! id with Some st => _ | None => _ end).
  assert (forgot maphash msl id (s_conn s) c1) as Hf by (unfold c1; destruct (streams (s_conn s) !! id) as [st|] eqn:E; [apply forgotten; [apply Hi|exact E]|apply forgot_none; [apply Hi|exact E]]).
  destruct (inv_forgot s L id c1 Hi Hf Hid) as (l1 & H1). destruct (reset_written id code) as (l & El & Hl). rewrite El.
  destruct (s_open _ _ _ (i_ok _ _ H1)) as [Hc Hg]. cbn [s_conn] in Hc, Hg. destruct (told_send c1 l Hl Hc) as [Ha Ht]. destruct (inv_told _ _ _ H1 Ha Ht) as (l2 & H2). cbn [s_bodies s_gone s_granted] in H2.
  destruct (told_close (sendLocked c1 (written l))) as [Ha' Ht']; [rewrite (k_away _ _ Ha); exact Hg|]. destruct (inv_told _ _ _ H2 Ha' Ht') as (l3 & H3). exists (l1 ++ l2 ++ l3). rewrite !app_assoc. exact H3.
Qed.

(** What may be asked of the connection. *)
Definition op_ok (o : op) : Prop :=
  match o with
  | Answer _ r => answer_ok msl r /\ a_close r = false
  | WindowUpdate f | Settings f => bytes_ok (payload f)
  | _ => True
  end.

(** A step that does not end the connection. *)
Definition goes (s : sys) (L : list hframe) (o : op) : Prop :=
  exists r, step s o = Some r /\ forall s', r = inl s' -> exists l, inv s' (L ++ l).

Lemma same_inv s L : inv s L -> exists l, inv (with_conn s (s_conn s)) (L ++ l).
Proof. intros Hi. exists []. rewrite app_nil_r. now destruct s. Qed.

Lemma step_request s L id weight : inv s L -> goes s L (Request id weight).
Proof.
  intros Hi. pose proof Hi as []. unfold goes, step, openStream. cbv zeta. destruct (bool_decide (is_Some (streams (s_conn s) !! id))) eqn:Eb; [eexists; split; [reflexivity|]; intros s' [= <-]; now apply same_inv|]. apply bool_decide_eq_false in Eb. apply eq_None_not_Some in Eb.
  destruct (Z.leb_spec id (maxClientID (s_conn s))) as [|Hlt]; [eexists; split; [reflexivity|]; discriminate|]. set (c1 := set_maxClientID (s_conn s) id).
  assert (inv (with_conn s c1) L) as H1.
  { split; cbn [with_conn s_conn s_bodies s_gone s_granted]; auto; [destruct i_ok0; split; auto; destruct s_queue0; split; auto|]. intros i Hx. specialize (i_max0 i Hx). unfold c1. cbn. lia. }
  destruct (s_open _ _ _ i_ok0) as [Hc Hg]. unfold c1 at 1 2 3. cbn [closed goAway peerGoingAway set_maxClientID]. rewrite Hc, Hg. cbn [orb]. destruct (peerGoingAway (s_conn s)); [eexists; split; [reflexivity|]; intros s' [= <-]; exact (same_inv _ _ H1)|].
  destruct (maxStreams c1 <=? _).
  - eexists. split; [reflexivity|]. intros s' [= <-]. apply (inv_reset (with_conn s c1) L id H2RefusedStream H1). cbn. lia.
  - eexists. split; [reflexivity|]. intros s' [= <-]. exists []. rewrite app_nil_r. set (st := newStream c1 id weight). set (c2 := set_lastStreamID _ id).
    assert (streams c2 = <[id := st]> (streams (s_conn s))) as Es by reflexivity. pose proof H1 as []. assert (s_bodies s !! id = None /\ id ∉ s_gone s) as [Hnb Hng].
    { split; [destruct (s_bodies s !! id) eqn:E; [|reflexivity]; specialize (i_max0 id ltac:(rewrite E; eauto)); lia|intros Hg'; specialize (i_max0 id ltac:(auto)); lia]. }
    split; cbn [s_conn s_bodies s_gone s_granted]; auto.
    + destruct i_ok1. split; auto.
      * destruct s_queue0. split; auto. intros i. rewrite Es. change (waiting c2) with (waiting c1). rewrite q_queued0. change (streams (s_conn (with_conn s c1))) with (streams (s_conn s)). destruct (decide (id = i)) as [<-|Hne]; [rewrite lookup_insert_eq, Eb; split; intros (x & E & Hx); [discriminate|injection E as <-; discriminate]|now rewrite lookup_insert_ne].
      * intros i x. rewrite Es. destruct (decide (id = i)) as [<-|Hne]; [rewrite lookup_insert_eq; intros [= <-]; split; [reflexivity|split; [exact I|auto]]|rewrite lookup_insert_ne by exact Hne; apply s_ids0].
    + intros i Hgi. specialize (i_full0 i Hgi). unfold pend in *. rewrite Es. destruct (decide (id = i)) as [<-|Hne]; [rewrite Eb in i_full0; rewrite lookup_insert_eq; exact i_full0|now rewrite lookup_insert_ne].
    + intros i Hgi. rewrite Es. rewrite lookup_insert_ne by congruence. auto.
    + intros i x. rewrite Es. destruct (decide (id = i)) as [<-|Hne]; [auto|rewrite lookup_insert_ne by exact Hne; apply i_fresh0].
    + intros i. rewrite Es. change (maxClientID c2) with id. destruct (decide (id = i)) as [<-|Hne]; [lia|rewrite lookup_insert_ne by exact Hne]. intros Hx. specialize (i_max0 i Hx). lia.
Qed.

Lemma step_done s L id : inv s L -> goes s L (RequestDone id).
Proof.
  intros Hi. eexists. split; [reflexivity|]. intros s' [= <-]. unfold finishRequest. destruct (streams (s_conn s) !! id) as [st|] eqn:E; [|now apply same_inv].
  exists []. rewrite app_nil_r. destruct (s_ids _ _ _ (i_ok _ _ Hi) id st E) as [_ Hok]. now apply (inv_put s L id st).
Qed.

Lemma inv_refused s L id st : inv s L -> streams (s_conn s) !! id = Some st -> exists l, inv (mkSys (refuseHeaderLocked (s_conn s) st) (s_bodies s) ({[id]} ∪ s_gone s) (s_granted s)) (L ++ l).
Proof.
  intros Hi Hst. pose proof Hi as []. destruct (s_open _ _ _ i_ok0) as [Hc Hg]. unfold refuseHeaderLocked. destruct (reset_written (sid st) H2InternalError) as (l & El & Hl). rewrite El.
  destruct (told_send (s_conn s) l Hl Hc) as [Ha Ht]. destruct (inv_told _ _ _ Hi Ha Ht) as (l1 & H1). set (c1 := sendLocked _ _) in *. pose proof (k_streams _ _ Ha) as Es. pose proof (k_away _ _ Ha) as Eg. pose proof (k_client _ _ Ha) as Em.
  destruct (inv_forgot _ _ id (forgetLocked c1 st) H1) as (l2 & H2); [apply forgotten; [apply H1|cbn [s_conn]; now rewrite Es]|cbn [s_conn]; rewrite Em; apply i_max0; eauto|].
  destruct (s_open _ _ _ (i_ok _ _ H2)) as [_ Hg2]. destruct (told_close (forgetLocked c1 st) Hg2) as [Ha' Ht']. destruct (inv_told _ _ _ H2 Ha' Ht') as (l3 & H3). exists (l1 ++ l2 ++ l3). rewrite !app_assoc. exact H3.
Qed.

Lemma step_answer s L id r : inv s L -> answer_ok msl r -> a_close r = false -> goes s L (Answer id r).
Proof.
  intros Hi Ha Hcl. pose proof Hi as []. unfold goes, step. destruct (streams (s_conn s) !! id) as [st|] eqn:Hst.
  2:{ unfold answerLocked. rewrite Hst. eexists. split; [reflexivity|]. intros s' [= <-]. now apply same_inv. }
  destruct (responded st) eqn:Hr.
  { unfold answerLocked. rewrite Hst, Hr. destruct (_ || reset st); eexists; (split; [reflexivity|]); intros s' [= <-]; now apply same_inv. }
  destruct (answer_sent maphash msl (s_conn s) id st r i_ok0 Hst Hr Ha Hcl) as [[_ ->]|[[_ ->]|(c' & e & block & hdr & rest & -> & _ & _ & Hs)]]; (eexists; split; [reflexivity|]); intros s' [= <-].
  - now apply same_inv.
  - now apply inv_refused.
  - exists (hdr ++ rest). replace (s_granted s) with (s_granted s + 0) by lia. destruct (s_ids _ _ _ i_ok0 id st Hst) as (Hid & _ & Hfr). destruct (Hfr Hr) as (Hp & _).
    assert (streams (given (s_conn s) st (a_body r)) = <[id := st_pending (st_responded st true) (a_body r)]> (streams (s_conn s))) as Es by (unfold given, put; cbn; now rewrite Hid).
    assert (payloads id L = []) as Hno by (specialize (i_prefix0 id); unfold bodyOf in i_prefix0; rewrite (i_fresh0 id st Hst Hr) in i_prefix0; now apply prefix_nil_inv in i_prefix0).
    assert (id ∉ s_gone s) as Hng by (intros Hg; rewrite (i_gone0 id Hg) in Hst; discriminate).
    apply (inv_sent s L (given (s_conn s) st (a_body r)) (<[id := a_body r]> (s_bodies s)) 0 (hdr ++ rest) c' Hi); auto; try reflexivity; try lia.
    + cbn. lia.
    + intros i Hg. unfold pend, bodyOf. rewrite Es. destruct (decide (id = i)) as [<-|Hne]; [rewrite !lookup_insert_eq, Hno; reflexivity|rewrite !lookup_insert_ne by exact Hne; now apply i_full0].
    + intros i. unfold bodyOf. destruct (decide (id = i)) as [<-|Hne]; [rewrite Hno; apply prefix_nil|rewrite lookup_insert_ne by exact Hne; apply i_prefix0].
    + intros i x. rewrite Es. destruct (decide (id = i)) as [<-|Hne]; [rewrite lookup_insert_eq; intros [= <-]; split; [eauto|discriminate]|rewrite !lookup_insert_ne by exact Hne; intros Hx; split; [eauto|intros; eapply i_fresh0; eauto]].
    + intros i. destruct (decide (id = i)) as [<-|Hne]; [intros _; apply i_max0; eauto|rewrite lookup_insert_ne by exact Hne; intros; apply i_max0; auto].
Qed.

Lemma increment_nonneg f : bytes_ok (payload f) -> 0 <= increment f.
Proof. intros Hb. unfold increment. apply Z.land_nonneg. left. now apply be_bytes. Qed.

Lemma step_window s L f : inv s L -> bytes_ok (payload f) -> goes s L (WindowUpdate f).
Proof.
  intros Hi Hb. pose proof Hi as []. unfold goes, step. pose proof (increment_nonneg f Hb) as Hinc.
  destruct (Z.eqb_spec (streamID f) 0) as [Ez|Hnz].
  - destruct (window_updated maphash msl (turns (s_conn s)) (s_conn s) f i_ok0 ltac:(auto) ltac:(lia)) as [[_ ->]|[(_ & _ & ->)|[(_ & _ & ->)|(c' & l & -> & Hs & _)]]]; rewrite ?Ez; cbn [Z.eqb settle]; (eexists; split; [reflexivity|]); try discriminate.
    intros s' [= <-]. exists l. unfold grant in Hs. rewrite Ez in Hs. cbn [Z.eqb] in Hs. apply (inv_sent s L _ (s_bodies s) (increment f) l c' Hi) in Hs; auto.
    + intros i st Hx. split; [eauto|intros; eapply i_fresh0; eauto].
  - destruct (idleLocked (s_conn s) (streamID f)) eqn:Eidle.
    { unfold handleWindowUpdate. rewrite (proj2 (Z.eqb_neq _ _) Hnz), Eidle. destruct (negb _); eexists; (split; [reflexivity|]); discriminate. }
    destruct (streams (s_conn s) !! streamID f) as [st|] eqn:Hst.
    2:{ unfold handleWindowUpdate. rewrite (proj2 (Z.eqb_neq _ _) Hnz), Eidle, Hst. destruct (negb _); eexists; (split; [reflexivity|]); [discriminate|]. intros s' [= <-]. now apply same_inv. }
    destruct (s_ids _ _ _ i_ok0 _ st Hst) as [Hid Hok]. set (st' := st_sWindow st (sWindow st + increment f)). assert (inv (with_conn s (grant (s_conn s) (streamID f) (increment f))) L) as Hg.
    { unfold grant. rewrite (proj2 (Z.eqb_neq _ _) Hnz), Hst. now apply (inv_put s L (streamID f) st st'). }
    assert (streamID f <= maxClientID (s_conn s)) as Hle by (apply i_max0; rewrite Hst; eauto).
    destruct (window_updated maphash msl (turns (s_conn s)) (s_conn s) f i_ok0 ltac:(rewrite Hst; eauto) ltac:(lia)) as [[_ ->]|[(_ & _ & ->)|[(_ & _ & ->)|(c' & l & -> & Hs & _)]]]; rewrite ?(proj2 (Z.eqb_neq _ _) Hnz); (eexists; split; [reflexivity|]); try discriminate; intros s' [= <-].
    + apply (inv_reset s L (streamID f) H2ProtocolError Hi Hle).
    + apply (inv_reset _ L (streamID f) H2FlowControlError Hg). unfold grant. rewrite (proj2 (Z.eqb_neq _ _) Hnz), Hst. exact Hle.
    + exists l. pose proof Hg as []. replace (s_granted s) with (s_granted s + 0) by lia. apply (inv_sent _ L _ (s_bodies s) 0 l c' Hg) in Hs; auto; cbn [with_conn s_conn]; try lia.
      intros i x Hx. split; [eauto|intros; eapply i_fresh1; eauto].
Qed.

Lemma step_settings s L f : inv s L -> bytes_ok (payload f) -> goes s L (Settings f).
Proof.
  intros Hi Hb. pose proof Hi as []. unfold goes, step.
  destruct (settings_applied maphash msl range range_ok (turns (s_conn s)) (s_conn s) f i_ok0 Hb ltac:(lia)) as [(c1 & e & -> & Ea)|(c1 & c' & l & _ & [] & -> & Hs & _)].
  - destruct (applied_errors maphash range (s_conn s) (payload f) c1 e Ea) as (code & ->). eexists. split; [reflexivity|]. discriminate.
  - eexists. split; [reflexivity|]. intros s' [= <-]. exists l. replace (s_granted s) with (s_granted s + 0) by lia. apply (inv_sent s L c1 (s_bodies s) 0 l c' Hi) in Hs; auto; try lia.
    + intros i Hg. rewrite r_pend0. auto.
    + intros i x Hx. destruct (r_streams0 i x Hx) as (x0 & H0 & R0). split; [eauto|]. intros Hr. eapply i_fresh0; [exact H0|congruence].
Qed.

Lemma step_reset s L f : inv s L -> goes s L (Reset f).
Proof.
  intros Hi. pose proof Hi as []. unfold goes, step. destruct (decide (streamID f <> 0 /\ len (payload f) = 4 /\ idleLocked (s_conn s) (streamID f) = false)) as [(Hz & Hl & Hidle)|Hno].
  2:{ unfold handleRSTStream. destruct (Z.eqb_spec (streamID f) 0); [eexists; split; [reflexivity|]; discriminate|]. destruct (Z.eqb_spec (len (payload f)) 4); cbn [negb]; [|eexists; split; [reflexivity|]; discriminate].
      destruct (idleLocked (s_conn s) (streamID f)); [eexists; split; [reflexivity|]; discriminate|]. exfalso. auto. }
  destruct (streams (s_conn s) !! streamID f) as [st|] eqn:Hst.
  - destruct (reset_taken maphash msl (s_conn s) f st i_ok0 Hz Hl Hidle Hst) as (c' & -> & Hf). rewrite bool_decide_eq_true_2 by eauto. eexists. split; [reflexivity|]. intros s' [= <-]. apply (inv_forgot s L _ c' Hi Hf). apply i_max0. rewrite Hst. eauto.
  - unfold handleRSTStream. rewrite (proj2 (Z.eqb_neq _ _) Hz), Hl, Hidle, Hst. cbn [negb Z.eqb]. rewrite bool_decide_eq_false_2 by (intros [? ?]; discriminate). eexists. split; [reflexivity|]. intros s' [= <-].
    destruct (told_close (s_conn s)) as [Ha Ht]; [apply i_ok0|]. apply (inv_told s L _ Hi Ha Ht).
Qed.

Lemma alike_turns c c' : alike c c' -> turns c' = turns c.
Proof.
  intros []. assert (waiting c' = waiting c) as Ew by (unfold waiting; now rewrite k_queue0, k_head0). unfold turns, work. rewrite Ew. f_equal. f_equal. f_equal. apply map_ext. intros i. unfold pend. now rewrite k_streams0.
Qed.

Lemma step_drained s L : inv s L -> goes s L Drained.
Proof.
  intros Hi. pose proof Hi as []. unfold goes, step, drained. set (c0 := set_drainArmed (s_conn s) false). assert (alike (s_conn s) c0 /\ told (s_conn s) c0) as [Ha0 Ht0] by (split; [split; reflexivity|exists []; split; [constructor|now rewrite app_nil_r]]).
  destruct (_ || (sendHead c0 =? _)%nat); [eexists; split; [reflexivity|]; intros s' [= <-]; apply (inv_told s L c0 Hi Ha0 Ht0)|].
  pose proof (room_asked c0 []) as Hroom. destruct (outputRoomLocked c0 []) as [c1 room]. destruct Hroom as (Hk & Ew & Er & Ee & Ec & Eg & _). destruct Hk as (K1 & K2 & K3 & K4 & K5 & _).
  assert (alike (s_conn s) c1) as Ha1 by (eapply alike_chain; [exact Ha0|]; split; assumption). assert (told (s_conn s) c1) as Ht1 by (exists []; split; [constructor|]; now rewrite app_nil_r, Er).
  destruct (_ <=? 0).
  - eexists. split; [reflexivity|]. intros s' [= <-]. apply (inv_told s L); [exact Hi|eapply alike_chain; [exact Ha1|unfold armDrainLocked; destruct (_ || _); split; reflexivity]|].
    destruct Ht1 as (l & Hl & E). exists l. split; [exact Hl|]. rewrite <- E. unfold armDrainLocked. destruct (_ || _); reflexivity.
  - destruct (inv_told s L c1 Hi Ha1 Ht1) as (l1 & H1). pose proof H1 as []. destruct (flushed_sent maphash msl (turns (s_conn s)) c1 [] i_ok1 ltac:(constructor) ltac:(rewrite (alike_turns _ _ Ha1); lia)) as (c' & l & E & Hs & _).
    change (written []) with (@nil Z) in E. rewrite E. eexists. split; [reflexivity|]. intros s' [= <-]. exists (l1 ++ l). rewrite app_assoc. cbn [s_granted]. replace (s_granted s) with (s_granted s + 0) by lia.
    apply (inv_sent _ (L ++ l1) c1 (s_bodies s) 0 l c' H1) in Hs; auto; cbn [s_conn s_bodies]; try lia. intros i x Hx. split; [eauto|intros; eapply i_fresh1; eauto].
Qed.

Lemma step_goes s L o : inv s L -> op_ok o -> goes s L o.
Proof. destruct o; cbn [op_ok]; intros Hi Ho; [now apply step_request|now apply step_done|destruct Ho; now apply step_answer|now apply step_window|now apply step_settings|now apply step_reset|now apply step_drained]. Qed.

Lemma run_keeps s L ops : inv s L -> Forall op_ok ops -> exists s' e l, run s ops = Some (s', e) /\ inv s' (L ++ l).
Proof.
  revert s L. induction ops as [|o ops IH]; intros s L Hi Hok; [exists s, None, []; rewrite app_nil_r; auto|]. inversion Hok as [|? ? Ho Hops]; subst. cbn [run].
  destruct (step_goes s L o Hi Ho) as (r & -> & Hr). destruct r as [s1|code]; [|exists s, (Some code), []; rewrite app_nil_r; auto].
  destruct (Hr s1 eq_refl) as (l & H1). destruct (IH s1 (L ++ l) H1 Hops) as (s' & e & l' & E & H2). exists s', e, (l ++ l'). rewrite app_assoc. auto.
Qed.

End Run.

(** A connection nothing was asked of yet. *)
Definition newSys (maxStreams connWindow : Z) (layered : bool) (rooms : list Z) : sys :=
  mkSys (newH2ServerConn maxStreams connWindow layered rooms) ∅ ∅ h2DefaultWindow.

Lemma inv_new maphash msl maxStreams connWindow layered rooms : inv maphash msl (newSys maxStreams connWindow layered rooms) [].
Proof.
  assert (forall i, streams (newH2ServerConn maxStreams connWindow layered rooms) !! i = None) as Hnone by (intros i; apply lookup_empty).
  assert (sends_ok maphash msl (newH2ServerConn maxStreams connWindow layered rooms)) as Hok.
  { split; [|intros i st Hi; now rewrite Hnone in Hi|now vm_compute|exists (HRound.decoder_with msl); split; [apply HRound.new_sync|reflexivity]|split; reflexivity].
    split; [cbn; lia|reflexivity|constructor|]. intros i. split; [intros Hi; now apply not_elem_of_nil in Hi|intros (st & Hi & _); now rewrite Hnone in Hi]. }
  split; cbn [newSys s_conn s_bodies s_gone s_granted]; [exact Hok|reflexivity|now vm_compute|reflexivity|reflexivity|intros i; reflexivity|intros i Hi; now apply not_elem_of_empty in Hi|intros i st Hi; now rewrite Hnone in Hi|].
  intros i [[st Hi]|[[b Hi]|Hi]]; [now rewrite Hnone in Hi|now rewrite lookup_empty in Hi|now apply not_elem_of_empty in Hi].
Qed.

(** C3: whatever requests, answers that leave the connection open, window updates,
    settings and resets come, in whatever order, and however the socket drains, the
    connection goes on until an operation ends it with an error: no loop hangs and
    no encoder panics. What was then written is a sequence of whole frames in which
    each stream's data is a prefix of the body it was answered with; on every
    stream that was not reset, that data and what still waits are all of the body,
    in order; and the connection's window was never passed. An answer that asks for
    the connection to close is not among these. *)
Theorem h2_bodies_delivered (maphash : bytes -> Z) (msl : Z) (range : gmap Z stream -> list Z) (maxStreams connWindow : Z) (layered : bool) (rooms : list Z) (ops : list op) :
  (forall m, NoDup (range m) /\ forall i, i ∈ range m <-> is_Some (m !! i)) -> Forall (op_ok msl) ops ->
  exists s e L, run maphash range (newSys maxStreams connWindow layered rooms) ops = Some (s, e) /\
    wire (s_conn s) = written L /\
    (forall i, payloads i L `prefix_of` bodyOf (s_bodies s) i) /\
    (forall i, i ∉ s_gone s -> payloads i L ++ pend (s_conn s) i = bodyOf (s_bodies s) i) /\
    len (allData L) <= s_granted s /\ sendWindow (s_conn s) = s_granted s - len (allData L).
Proof.
  intros Hr Hok. destruct (run_keeps maphash range msl Hr _ [] ops (inv_new maphash msl maxStreams connWindow layered rooms) Hok) as (s & e & l & E & []).
  exists s, e, l. cbn [app] in *. split; [exact E|]. repeat (split; [assumption|]). lia.
Qed.

(** What is wrong with a WINDOW_UPDATE, by RFC 9113 section 6.9: FRAME_SIZE_ERROR (6)
    if it is not of four bytes; PROTOCOL_ERROR (1) if it is for a stream not opened
    yet, or its increment, of 31 bits, is zero; FLOW_CONTROL_ERROR (3) if the window
    would be past 2^31 - 1. The last two are errors of the connection or of the
    stream, whichever the window is of. *)
Definition refusal (c : conn) (f : h2Frame) : option herr :=
  let n := be (payload f) mod 2 ^ 31 in
  if negb (len (payload f) =? 4) then Some (ConnErr 6)
  else if streamID f =? 0 then
    if n =? 0 then Some (ConnErr 1) else if 2 ^ 31 - 1 <? sendWindow c + n then Some (ConnErr 3) else None
  else if idleLocked c (streamID f) then Some (ConnErr 1)
  else
    match streams c !! streamID f with
    | None => None
    | Some st => if n =? 0 then Some (StreamErr (streamID f) 1) else if 2 ^ 31 - 1 <? sWindow st + n then Some (StreamErr (streamID f) 3) else None
    end.

Lemma increment_low f : increment f = be (payload f) mod 2 ^ 31.
Proof. unfold increment. change 0x7fffffff with (Z.ones 31). now rewrite Z.land_ones by lia. Qed.

Lemma window_judged maphash msl c f : sends_ok maphash msl c ->
  match refusal c f with
  | Some e => exists c', handleWindowUpdate maphash (turns c) c f = Some (c', Some e) /\ wire c' = wire c /\ (forall i, pend c' i = pend c i)
  | None =>
      if (streamID f =? 0) || bool_decide (is_Some (streams c !! streamID f))
      then exists c' l, handleWindowUpdate maphash (turns c) c f = Some (c', None) /\ sent maphash msl (grant c (streamID f) (increment f)) l c' /\ spent c'
      else handleWindowUpdate maphash (turns c) c f = Some (c, None)
  end.
Proof.
  intros Hok. destruct (granted maphash msl c (streamID f) (increment f) Hok) as (Hok' & Hpend & Et). assert (wire (grant c (streamID f) (increment f)) = wire c) as Hwire by (unfold grant; destruct (_ =? _); [reflexivity|now destruct (streams c !! _)]).
  destruct (flushed_sent maphash msl (turns c) _ [] Hok' ltac:(constructor) ltac:(rewrite Et; lia)) as (c' & l & E & Hsent & Hspent & _). change (written []) with (@nil Z) in E.
  unfold refusal, handleWindowUpdate in *. rewrite <- increment_low. fold (increment f). unfold grant in *. destruct (Z.eqb_spec (len (payload f)) 4) as [El|]; cbn [negb]; [|eauto].
  change h2MaxWindow with (2 ^ 31 - 1). destruct (Z.eqb_spec (streamID f) 0) as [Ez|Hne]; cbn [orb].
  - destruct (increment f =? 0); [eauto|]. cbn [sendWindow set_sendWindow] in *. destruct (2 ^ 31 - 1 <? sendWindow c + increment f); [eauto|]. exists c', l. rewrite E. auto.
  - destruct (idleLocked c (streamID f)); [eauto|]. destruct (streams c !! streamID f) as [st|] eqn:Ei; [|now rewrite bool_decide_eq_false_2 by (intros [? ?]; discriminate)]. rewrite bool_decide_eq_true_2 by eauto.
    destruct (increment f =? 0); [eauto|]. cbn [sWindow st_sWindow] in *. destruct (2 ^ 31 - 1 <? sWindow st + increment f); [eauto|]. exists c', l. rewrite E. auto.
Qed.

(** C13: in every such run that has not ended, a WINDOW_UPDATE, whatever its bytes, is
    refused with the error RFC 9113 has for it, and with no other, nothing having been
    sent or lost; one for a stream that is gone is ignored; and any other is answered
    with what the windows then let go: from each stream its data in order, no frame
    above the peer's limit and no window passed, until the socket's queue is full, the
    connection's window is used up, or every stream that waits has used up its own.
    The loop of turns ends within [turns]. *)
Theorem h2_window_update (maphash : bytes -> Z) (msl : Z) (range : gmap Z stream -> list Z) (maxStreams connWindow : Z) (layered : bool) (rooms : list Z) (ops : list op) (s : sys) (f : h2Frame) :
  (forall m, NoDup (range m) /\ forall i, i ∈ range m <-> is_Some (m !! i)) -> Forall (op_ok msl) ops -> run maphash range (newSys maxStreams connWindow layered rooms) ops = Some (s, None) ->
  let c := s_conn s in
  match refusal c f with
  | Some e => exists c', handleWindowUpdate maphash (turns c) c f = Some (c', Some e) /\ wire c' = wire c /\ (forall i, pend c' i = pend c i)
  | None =>
      if (streamID f =? 0) || bool_decide (is_Some (streams c !! streamID f))
      then exists c' l, handleWindowUpdate maphash (turns c) c f = Some (c', None) /\ sent maphash msl (grant c (streamID f) (increment f)) l c' /\ spent c'
      else handleWindowUpdate maphash (turns c) c f = Some (c, None)
  end.
Proof.
  intros Hr Hok E. destruct (run_keeps maphash range msl Hr _ [] ops (inv_new maphash msl maxStreams connWindow layered rooms) Hok) as (s' & e & l & E' & Hi). rewrite E in E'. injection E' as <- <-. exact (window_judged maphash msl _ f (i_ok _ _ _ _ Hi)).
Qed.

(** ** Runs *)

Definition keysOf (m : gmap Z stream) : list Z := (map_to_list m).*1.

Lemma keysOf_ok m : NoDup (keysOf m) /\ forall i, i ∈ keysOf m <-> is_Some (m !! i).
Proof.
  split; [apply NoDup_fst_map_to_list|]. intros i. unfold keysOf. rewrite list_elem_of_fmap. split.
  - intros ([j st] & -> & H). apply elem_of_map_to_list in H. eauto.
  - intros [st H]. exists (i, st). split; [reflexivity|]. now apply elem_of_map_to_list.
Qed.

Definition onStream (id : Z) (p : bytes) : h2Frame := mkFrame 0 0 id p (len p).

(** A response with a body, and whether the connection is to close behind it. *)
Definition replied (close : bool) (body : bytes) : answer := mkAnswer 200 (Some (len body)) close false [] body false None.

(** An initial window of two bytes. *)
Definition twoBytes : op := Settings (onStream 0 (putBE 2 h2SettingInitialWindowSize ++ putBE 4 2)).

Definition opened : sys := newSys 100 65535 false [].

Definition replies : list op :=
  [twoBytes; Request 1 1; Request 3 1; RequestDone 1; Answer 1 (replied false [1; 2; 3]); Answer 3 (replied false [4; 5; 6]); Reset (onStream 3 (putBE 4 8)); WindowUpdate (onStream 1 (putBE 4 10)); Drained].

Lemma replied_ok id b : bytes_okb b = true -> len b = 3 -> op_ok 100 (Answer id (replied false b)).
Proof.
  intros Hb Hl. split; [|reflexivity]. unfold answer_ok, answerFields, replied. cbn [a_length a_fields a_trailer a_status]. rewrite Hl. split; [|exact I].
  apply List.Forall_cons; [|apply List.Forall_cons; [|apply List.Forall_nil]]; split; (split; [now apply bytes_okb_ok|split; [reflexivity|right; apply Z.leb_le; reflexivity]]).
Qed.

Lemma replies_ok : Forall (op_ok 100) replies.
Proof.
  assert (forall f, bytes_okb (payload f) = true -> op_ok 100 (Settings f) /\ op_ok 100 (WindowUpdate f)) as Hf by (intros f Hb; split; exact (bytes_okb_ok _ Hb)).
  unfold replies. apply List.Forall_cons; [now apply Hf|]. do 3 (apply List.Forall_cons; [exact I|]). do 2 (apply List.Forall_cons; [now apply replied_ok|]).
  apply List.Forall_cons; [exact I|]. apply List.Forall_cons; [now apply Hf|]. apply List.Forall_cons; [exact I|apply List.Forall_nil].
Qed.

Lemma h2_bodies_delivered_witness :
  exists s e L, run HRound.testHash keysOf opened replies = Some (s, e) /\
    wire (s_conn s) = written L /\
    (forall i, payloads i L `prefix_of` bodyOf (s_bodies s) i) /\
    (forall i, i ∉ s_gone s -> payloads i L ++ pend (s_conn s) i = bodyOf (s_bodies s) i) /\
    len (allData L) <= s_granted s /\ sendWindow (s_conn s) = s_granted s - len (allData L).
Proof. apply (h2_bodies_delivered HRound.testHash 100 keysOf 100 65535 false [] replies); [exact keysOf_ok|exact replies_ok]. Defined.

(** A stream that waits for its window is let go, and nothing gets past the limits. *)
Lemma h2_window_update_witness :
  exists s, run HRound.testHash keysOf opened [twoBytes; Request 1 1; Answer 1 (replied false [1; 2; 3])] = Some (s, None) /\
    refusal (s_conn s) (onStream 1 (putBE 4 10)) = None /\
    (exists c' l, handleWindowUpdate HRound.testHash (turns (s_conn s)) (s_conn s) (onStream 1 (putBE 4 10)) = Some (c', None) /\ sent HRound.testHash 100 (grant (s_conn s) 1 10) l c' /\ spent c') /\
    exists c', handleWindowUpdate HRound.testHash (turns (s_conn s)) (s_conn s) (onStream 0 (putBE 4 (2 ^ 31 - 1))) = Some (c', Some (ConnErr 3)) /\ wire c' = wire (s_conn s) /\ forall i, pend c' i = pend (s_conn s) i.
Proof.
  set (ops := [twoBytes; Request 1 1; Answer 1 (replied false [1; 2; 3])]). assert (Forall (op_ok 100) ops) as Hok.
  { unfold ops. apply List.Forall_cons; [apply bytes_okb_ok; vm_compute; reflexivity|]. apply List.Forall_cons; [exact I|]. apply List.Forall_cons; [now apply replied_ok|apply List.Forall_nil]. }
  destruct (run HRound.testHash keysOf opened ops) as [[s e]|] eqn:E; [|vm_compute in E; discriminate]. pose proof E as E2. vm_compute in E2. injection E2 as Es Ee. subst e. exists s. split; [reflexivity|].
  pose proof (h2_window_update HRound.testHash 100 keysOf 100 65535 false [] ops s (onStream 1 (putBE 4 10)) keysOf_ok Hok E) as H1. pose proof (h2_window_update HRound.testHash 100 keysOf 100 65535 false [] ops s (onStream 0 (putBE 4 (2 ^ 31 - 1))) keysOf_ok Hok E) as H2.
  assert (refusal (s_conn s) (onStream 1 (putBE 4 10)) = None /\ refusal (s_conn s) (onStream 0 (putBE 4 (2 ^ 31 - 1))) = Some (ConnErr 3) /\ bool_decide (is_Some (streams (s_conn s) !! streamID (onStream 1 (putBE 4 10)))) = true) as (R1 & R2 & R3) by (rewrite <- Es; vm_compute; repeat split; reflexivity).
  cbv zeta in H1, H2. rewrite R1, R3 in H1. rewrite R2 in H2. split; [exact R1|]. split; [exact H1|exact H2].
Defined.

(** C21: a response that ends before its request did is followed by
    RST_STREAM(NO_ERROR), but where the last of its body waited for the window,
    the reset is handed to the connection first, and that last DATA frame, with
    its END_STREAM, comes behind the reset of its own stream. *)
Theorem h2_reset_before_data :
  exists s w, run HRound.testHash keysOf opened [twoBytes; Request 1 1; Answer 1 (replied false [1; 2; 3; 4; 5]); WindowUpdate (onStream 1 (putBE 4 10))] = Some (s, None) /\
    wire (s_conn s) = w ++ H2Round.frame h2FrameData 0 1 [1; 2] ++ h2AppendRSTStream [] 1 H2NoError ++ H2Round.frame h2FrameData h2FlagEndStream 1 [3; 4; 5].
Proof. eexists. exists [0; 0; 0; 4; 1; 0; 0; 0; 0; 0; 0; 4; 1; 4; 0; 0; 0; 1; 136; 92; 1; 53]. split; vm_compute; reflexivity. Qed.

(** C20: a response that asks for its connection to close, and whose body waited
    for the window, loses the end of it: the stream is finished, and with it the
    connection closed, before what the window let go was sent. *)
Theorem h2_close_truncates :
  exists s w, run HRound.testHash keysOf opened [twoBytes; Request 1 1; RequestDone 1; Answer 1 (replied true [1; 2; 3; 4; 5]); WindowUpdate (onStream 1 (putBE 4 10))] = Some (s, None) /\
    closed (s_conn s) = true /\ bodyOf (s_bodies s) 1 = [1; 2; 3; 4; 5] /\ s_gone s = ∅ /\ pend (s_conn s) 1 = [] /\
    wire (s_conn s) = w ++ H2Round.frame h2FrameData 0 1 [1; 2] ++ h2AppendGoAway [] 1 H2NoError [].
Proof. eexists. exists [0; 0; 0; 4; 1; 0; 0; 0; 0; 0; 0; 4; 1; 4; 0; 0; 0; 1; 136; 92; 1; 53]. split; [vm_compute; reflexivity|]. repeat split; vm_compute; reflexivity. Qed.

End H2Run.
