(* ===== verification/QuicLoss.v ===== *)
(** * Loss detection of QUIC (src/http3/quic/recovery.go)

    The packets a connection has sent in its three spaces, acknowledged and given up
    for lost; round-trip times and probe timeouts. Records of packets are values here,
    so what the code does to use them again has no counterpart. *)

From S2P Require Import Prelude QuicRanges QuicSend QuicFrames QuicCid QuicStream QuicSent QuicCongestion QuicMtu.
From stdpp Require Import base list numbers gmap.
From Stdlib Require Import ZArith Lia.

Local Open Scope Z_scope.
Local Open Scope go_scope.

Module Loss.
Import Sent Cong Mtu.
Local Notation i64 := Frames.i64.

(** ** Round-trip times *)

Definition packetThreshold : Z := 3.
Definition timerGranularity : Z := Millisecond.
Definition initialRTT : Z := 333 * Millisecond.
Definition maxProbes : Z := 2.
Definition maxHandshakeSpeedups : Z := 4.
Definition persistentCongestionThreshold : Z := 3.
Definition mtuBlackHolePTOs : Z := 3.

Record rttStats : Type := mkRtt { latest : Z; smoothed : Z; rttvar : Z; min_ : Z; hasSample : bool; firstAt : option Z }.

Definition newRTTStats : rttStats := mkRtt 0 initialRTT (initialRTT ÷ 2) 0 false None.

Definition update (r : rttStats) (x ackDelay : Z) : rttStats :=
  if negb (hasSample r) then mkRtt x x (x ÷ 2) x true (firstAt r)
  else
    let least := Z.min (min_ r) x in
    let adjusted := if i64 (least + ackDelay) <=? x then i64 (x - ackDelay) else x in
    let diff := i64 (smoothed r - adjusted) in
    let diff := if diff <? 0 then i64 (- diff) else diff in
    mkRtt x (i64 (7 * smoothed r + adjusted) ÷ 8) (i64 (3 * rttvar r + diff) ÷ 4) least true (firstAt r).

Definition pto (r : rttStats) : Z := i64 (smoothed r + Z.max (i64 (4 * rttvar r)) timerGranularity).

(** ** The connection *)

Definition spaceInitial : nat := 0.
Definition spaceHandshake : nat := 1.
Definition spaceApp : nat := 2.

(** A packet number space, as far as sending is concerned; [tx] is whether its keys
    are there. *)
Record pnSpace : Type := mkSpace {
  tx : bool;
  discarded : bool;
  nextPN : Z;
  largestAcked : Z;
  sent : sentQueue;
  ackElicitingInFlight : Z;
  lossTime : option Z;
  lastAckElicitingSent : option Z;
  probes : Z;
  recv : Ranges.rangeSet;
  ackFloor : Z;
  cryptoSend : Send.sendBuffer
}.

Definition sp_sent (s : pnSpace) (x : sentQueue) : pnSpace := mkSpace (tx s) (discarded s) (nextPN s) (largestAcked s) x (ackElicitingInFlight s) (lossTime s) (lastAckElicitingSent s) (probes s) (recv s) (ackFloor s) (cryptoSend s).
Definition sp_nextPN (s : pnSpace) (x : Z) : pnSpace := mkSpace (tx s) (discarded s) x (largestAcked s) (sent s) (ackElicitingInFlight s) (lossTime s) (lastAckElicitingSent s) (probes s) (recv s) (ackFloor s) (cryptoSend s).
Definition sp_largest (s : pnSpace) (x : Z) : pnSpace := mkSpace (tx s) (discarded s) (nextPN s) x (sent s) (ackElicitingInFlight s) (lossTime s) (lastAckElicitingSent s) (probes s) (recv s) (ackFloor s) (cryptoSend s).
Definition sp_eliciting (s : pnSpace) (x : Z) : pnSpace := mkSpace (tx s) (discarded s) (nextPN s) (largestAcked s) (sent s) x (lossTime s) (lastAckElicitingSent s) (probes s) (recv s) (ackFloor s) (cryptoSend s).
Definition sp_lossTime (s : pnSpace) (x : option Z) : pnSpace := mkSpace (tx s) (discarded s) (nextPN s) (largestAcked s) (sent s) (ackElicitingInFlight s) x (lastAckElicitingSent s) (probes s) (recv s) (ackFloor s) (cryptoSend s).
Definition sp_lastSent (s : pnSpace) (x : option Z) : pnSpace := mkSpace (tx s) (discarded s) (nextPN s) (largestAcked s) (sent s) (ackElicitingInFlight s) (lossTime s) x (probes s) (recv s) (ackFloor s) (cryptoSend s).
Definition sp_probes (s : pnSpace) (x : Z) : pnSpace := mkSpace (tx s) (discarded s) (nextPN s) (largestAcked s) (sent s) (ackElicitingInFlight s) (lossTime s) (lastAckElicitingSent s) x (recv s) (ackFloor s) (cryptoSend s).
Definition sp_floor (s : pnSpace) (x : Z) : pnSpace := mkSpace (tx s) (discarded s) (nextPN s) (largestAcked s) (sent s) (ackElicitingInFlight s) (lossTime s) (lastAckElicitingSent s) (probes s) (Ranges.forget (recv s) x) x (cryptoSend s).
Definition sp_crypto (s : pnSpace) (x : Send.sendBuffer) : pnSpace := mkSpace (tx s) (discarded s) (nextPN s) (largestAcked s) (sent s) (ackElicitingInFlight s) (lossTime s) (lastAckElicitingSent s) (probes s) (recv s) (ackFloor s) x.

(** [pnSpace{discarded: true, largestAcked: s.largestAcked}]; that its queue had
    [panicked] is not forgotten. *)
Definition goneSpace (panic : bool) (largest : Z) : pnSpace := mkSpace false true 0 largest (if panic then fail newQueue else newQueue) 0 None None 0 [] 0 Send.newSend.

(** The peer's parameters that matter here. *)
Record peerParams : Type := mkPeer { maxAckDelay : Z; minAckDelay : option Z; maxUDPPayloadSize : Z }.

(** The side, the configuration, and whether the path agrees not to fragment. *)
Record config : Type := mkConfig { isClient : bool; disableDiscovery : bool; maxProbeSize : Z; dontFragment : bool; peer : option peerParams; complete : bool }.

(** Requests for fewer acknowledgements. *)
Record frequency : Type := mkFrequency { af_requested : bool; af_pending : bool; af_seq : Z; af_delay : Z; af_asking : Z; af_at : Z }.

(** The phase of the keys: packets sent in it, the first of them, and whether one was
    acknowledged. *)
Record keyPhase : Type := mkPhase { ph_packets : Z; ph_first : Z; ph_acked : bool }.

(** Frames to be sent again. *)
Record pendings : Type := mkPending { pe_handshakeDone : bool; pe_retireCIDs : list Z; pe_challenge : bool; pe_newToken : bool }.

(** What the peer has to prove of its address. *)
Record address : Type := mkAddress { ad_validated : bool; ad_sent : Z; ad_recv : Z; ad_pathValidated : bool; ad_pathRecv : Z; ad_pathSent : Z }.

Record conn : Type := mkConn {
  conf : config;
  confirmed : bool;
  spaces : list pnSpace;
  rtt : rttStats;
  ptoCount : Z;
  way : path;
  paced : bool;
  phase : keyPhase;
  freq : frequency;
  since : bool * Z;             (* sentSinceRecv and lastActivity *)
  ackedNew : bool;
  lossDeadline : option Z;
  speedups : Z;                 (* handshakeSpeedups *)
  pend : pendings;
  addr : address;
  cids : Cid.localSide;
  strs : QStream.conn
}.

Definition set_confirmed (c : conn) (x : bool) : conn := mkConn (conf c) x (spaces c) (rtt c) (ptoCount c) (way c) (paced c) (phase c) (freq c) (since c) (ackedNew c) (lossDeadline c) (speedups c) (pend c) (addr c) (cids c) (strs c).
Definition set_spaces (c : conn) (x : list pnSpace) : conn := mkConn (conf c) (confirmed c) x (rtt c) (ptoCount c) (way c) (paced c) (phase c) (freq c) (since c) (ackedNew c) (lossDeadline c) (speedups c) (pend c) (addr c) (cids c) (strs c).
Definition set_rtt (c : conn) (x : rttStats) : conn := mkConn (conf c) (confirmed c) (spaces c) x (ptoCount c) (way c) (paced c) (phase c) (freq c) (since c) (ackedNew c) (lossDeadline c) (speedups c) (pend c) (addr c) (cids c) (strs c).
Definition set_ptoCount (c : conn) (x : Z) : conn := mkConn (conf c) (confirmed c) (spaces c) (rtt c) x (way c) (paced c) (phase c) (freq c) (since c) (ackedNew c) (lossDeadline c) (speedups c) (pend c) (addr c) (cids c) (strs c).
Definition set_way (c : conn) (x : path) : conn := mkConn (conf c) (confirmed c) (spaces c) (rtt c) (ptoCount c) x (paced c) (phase c) (freq c) (since c) (ackedNew c) (lossDeadline c) (speedups c) (pend c) (addr c) (cids c) (strs c).
Definition set_phase (c : conn) (x : keyPhase) : conn := mkConn (conf c) (confirmed c) (spaces c) (rtt c) (ptoCount c) (way c) (paced c) x (freq c) (since c) (ackedNew c) (lossDeadline c) (speedups c) (pend c) (addr c) (cids c) (strs c).
Definition set_freq (c : conn) (x : frequency) : conn := mkConn (conf c) (confirmed c) (spaces c) (rtt c) (ptoCount c) (way c) (paced c) (phase c) x (since c) (ackedNew c) (lossDeadline c) (speedups c) (pend c) (addr c) (cids c) (strs c).
Definition set_since (c : conn) (x : bool * Z) : conn := mkConn (conf c) (confirmed c) (spaces c) (rtt c) (ptoCount c) (way c) (paced c) (phase c) (freq c) x (ackedNew c) (lossDeadline c) (speedups c) (pend c) (addr c) (cids c) (strs c).
Definition set_ackedNew (c : conn) (x : bool) : conn := mkConn (conf c) (confirmed c) (spaces c) (rtt c) (ptoCount c) (way c) (paced c) (phase c) (freq c) (since c) x (lossDeadline c) (speedups c) (pend c) (addr c) (cids c) (strs c).
Definition set_lossDeadline (c : conn) (x : option Z) : conn := mkConn (conf c) (confirmed c) (spaces c) (rtt c) (ptoCount c) (way c) (paced c) (phase c) (freq c) (since c) (ackedNew c) x (speedups c) (pend c) (addr c) (cids c) (strs c).
Definition set_speedups (c : conn) (x : Z) : conn := mkConn (conf c) (confirmed c) (spaces c) (rtt c) (ptoCount c) (way c) (paced c) (phase c) (freq c) (since c) (ackedNew c) (lossDeadline c) x (pend c) (addr c) (cids c) (strs c).
Definition set_pend (c : conn) (x : pendings) : conn := mkConn (conf c) (confirmed c) (spaces c) (rtt c) (ptoCount c) (way c) (paced c) (phase c) (freq c) (since c) (ackedNew c) (lossDeadline c) (speedups c) x (addr c) (cids c) (strs c).
Definition set_cids (c : conn) (x : Cid.localSide) : conn := mkConn (conf c) (confirmed c) (spaces c) (rtt c) (ptoCount c) (way c) (paced c) (phase c) (freq c) (since c) (ackedNew c) (lossDeadline c) (speedups c) (pend c) (addr c) x (strs c).
Definition set_strs (c : conn) (x : QStream.conn) : conn := mkConn (conf c) (confirmed c) (spaces c) (rtt c) (ptoCount c) (way c) (paced c) (phase c) (freq c) (since c) (ackedNew c) (lossDeadline c) (speedups c) (pend c) (addr c) (cids c) x.

(** A space, and one changed. *)
Definition space (c : conn) (i : nat) : pnSpace := default (goneSpace false (-1)) (spaces c !! i).
Definition onSpace (c : conn) (i : nat) (f : pnSpace -> pnSpace) : conn := set_spaces c (<[i := f (space c i)]> (spaces c)).
Definition panic (c : conn) (i : nat) : conn := onSpace c i (fun s => sp_sent s (fail (sent s))).
Definition onCC (c : conn) (f : congestion -> congestion) : conn := set_way c (set_cc (way c) (f (cc (way c)))).

Definition setFreqPending (c : conn) : conn := let f := freq c in set_freq c (mkFrequency (af_requested f) true (af_seq f) (af_delay f) (af_asking f) (af_at f)).

Definition peerMaxAckDelay (c : conn) : Z := match peer (conf c) with Some p => maxAckDelay p | None => 25 * Millisecond end.

(** ** What becomes of frames *)

Section Handlers.
Context (MI MIU : Z) (Cbrt : float -> float).

Definition frameAcked (i : nat) (c : conn) (f : sentFrame) : conn :=
  match f with
  | sfCrypto off n => onSpace c i (fun s => sp_crypto s (Send.onAck (cryptoSend s) off n))
  | sfOf f => set_strs c (QStream.frameAcked MI MIU (strs c) f)
  | _ => c
  end.

Definition frameLost (i : nat) (c : conn) (f : sentFrame) : conn :=
  let p := pend c in
  match f with
  | sfCrypto off n => onSpace c i (fun s => sp_crypto s (Send.onLost (cryptoSend s) off n))
  | sfHandshakeDone => set_pend c (mkPending true (pe_retireCIDs p) (pe_challenge p) (pe_newToken p))
  | sfRetireCID seq => set_pend c (mkPending (pe_handshakeDone p) (pe_retireCIDs p ++ [seq]) (pe_challenge p) (pe_newToken p))
  | sfPathChallenge => set_pend c (mkPending (pe_handshakeDone p) (pe_retireCIDs p) (negb (ad_pathValidated (addr c))) (pe_newToken p))
  | sfNewCID seq => set_cids c (Cid.newCIDLost (cids c) seq)
  | sfAckFrequency => setFreqPending c
  | sfNewToken => set_pend c (mkPending (pe_handshakeDone p) (pe_retireCIDs p) (pe_challenge p) true)
  | sfOf f => set_strs c (QStream.frameLost (strs c) f)
  end.

(** ** Sending *)

Definition ackFrequencyThreshold : Z := 10.
Definition ackFrequencyLossThreshold : Z := 1.
Definition ackFrequencyBulk : Z := 32 .<< 10.

Definition ackFrequencyDelay (c : conn) : Z :=
  match peer (conf c) with None => 0 | Some p => Z.max (Z.min (maxAckDelay p) (smoothed (rtt c) ÷ 4)) (default 0 (minAckDelay p)) end.

Definition flightLess (c : conn) (p : sentPacket) : conn := onCC c (fun x => set_flight x (u64 (bytesInFlight x - size p))).

Definition discardSpace (c : conn) (i : nat) : conn :=
  if discarded (space c i) then c
  else
    let q := sent (space c i) in
    match each q (end_ q) (fun c p => (if Sent.inFlight p then flightLess c p else c, true)) c with
    | None => panic c i
    | Some c => set_ptoCount (onSpace c i (fun s => goneSpace (panicked (sent s)) (largestAcked s))) 0
    end.

(** [None] is the panic of the queue. *)
Definition onPacketSent (c : conn) (i : nat) (p : sentPacket) : option conn :=
  q ← push (sent (space c i)) p;
  let c := onSpace c i (fun s => sp_sent s q) in
  let c :=
    if ackEliciting p then
      let c := onSpace c i (fun s => sp_eliciting (sp_lastSent s (Some (time p))) (ackElicitingInFlight s + 1)) in
      if negb (since c).1 then set_since c (true, time p) else c
    else c in
  let c := if Sent.inFlight p then onCC c (fun x => set_flight x (u64 (bytesInFlight x + size p))) else c in
  let c :=
    if (i =? spaceApp)%nat then
      let c := set_phase c (mkPhase (ph_packets (phase c) + 1) (ph_first (phase c)) (ph_acked (phase c))) in
      let f := freq c in
      if (ackFrequencyBulk <? ad_sent (addr c)) && negb (af_requested f) && match peer (conf c) with Some x => match minAckDelay x with Some _ => true | None => false end | None => false end
      then set_freq c (mkFrequency true true (af_seq f + 1) (ackFrequencyDelay c) ackFrequencyThreshold (time p))
      else c
    else c in
  Some (if (i =? spaceHandshake)%nat && isClient (conf c) && negb (discarded (space c spaceInitial)) then discardSpace c spaceInitial else c).

(** ** Losses *)

Definition askForAcks (c : conn) (now : Z) : conn :=
  let f := freq c in
  if negb (af_requested f) || (af_asking f <=? ackFrequencyLossThreshold) then c
  else if now - af_at f <? Z.max (smoothed (rtt c)) Millisecond then c
  else set_freq c (mkFrequency (af_requested f) true (af_seq f + 1) (af_delay f) ackFrequencyLossThreshold now).

(** The run of lost packets without a gap in their numbers, with the first of it that
    counts. *)
Fixpoint persistentLoop (span : Z) (start : option Z) (prev : option sentPacket) (first : option sentPacket) (lost : list sentPacket) : bool :=
  match lost with
  | [] => false
  | p :: lost =>
      let first := match prev with Some q => if pn p =? u64 (pn q + 1) then first else None | None => first end in
      if negb (ackEliciting p) || mtuProbe p then persistentLoop span start (Some p) first lost
      else if match start with Some t => time p <? t | None => false end then persistentLoop span start (Some p) None lost
      else
        match first with
        | None => persistentLoop span start (Some p) (Some p) lost
        | Some q => if span <? time p - time q then true else persistentLoop span start (Some p) first lost
        end
  end.

Definition persistentCongestion (c : conn) (lost : list sentPacket) : bool :=
  if negb (hasSample (rtt c)) then false
  else
    let span := i64 ((smoothed (rtt c) + Z.max (4 * rttvar (rtt c)) timerGranularity + peerMaxAckDelay c) * persistentCongestionThreshold) in
    persistentLoop span (firstAt (rtt c)) None None lost.

Definition lossDelay (c : conn) : Z := Z.max (i64 (9 * Z.max (latest (rtt c)) (smoothed (rtt c))) ÷ 8) timerGranularity.

(** The packets below [end] that are lost, taken out of the queue, and when the first
    of the others will be. *)
Fixpoint detectLoop (fuel : nat) (delay lostSendTime largest : Z) (q : sentQueue) (k : Z) (loss : option Z) (lost : list sentPacket) : sentQueue * option Z * list sentPacket :=
  match fuel with
  | O => (q, loss, lost)
  | S fuel =>
      match slot q k with
      | Some (Some p) =>
          if (time p <=? lostSendTime) || (u64 (pn p + packetThreshold) <=? largest) then
            let '(x, q) := take_ q k in detectLoop fuel delay lostSendTime largest q (k + 1) loss (lost ++ match x with Some x => [x] | None => [] end)
          else
            let t := time p + delay in
            detectLoop fuel delay lostSendTime largest q (k + 1) (match loss with Some l => if t <? l then Some t else loss | None => Some t end) lost
      | Some None => detectLoop fuel delay lostSendTime largest q (k + 1) loss lost
      | None => (fail q, loss, lost)
      end
  end.

(** One lost packet, and when the last that counts was sent. *)
Definition lostOne (i : nat) (now : Z) (st : conn * option Z) (p : sentPacket) : conn * option Z :=
  let '(c, last) := st in
  let c := if ackEliciting p then onSpace c i (fun s => sp_eliciting s (ackElicitingInFlight s - 1)) else c in
  let '(c, last) := if Sent.inFlight p then (flightLess c p, if mtuProbe p then last else Some (time p)) else (c, last) in
  let c := if (i =? spaceApp)%nat then set_way c (mtuLostLocked (way c) p now) else c in
  (foldl (frameLost i) c (frames p), last).

Definition lostAll (c : conn) (i : nat) (now : Z) (lost : list sentPacket) : conn :=
  if len lost =? 0 then c
  else
    let '(c, last) := foldl (lostOne i now) (c, None) lost in
    let c := if (i =? spaceApp)%nat then set_way c (mtuCheckBlackHoleLocked (way c) now) else c in
    match last with
    | None => c
    | Some last =>
        let c := onCC c (fun x => onCongestion x last now) in
        let c := if persistentCongestion c lost then onCC c onPersistentCongestion else c in
        askForAcks c now
    end.

(** The times are those of packets, none of which is the zero Time. *)
Definition detectLost (c : conn) (i : nat) (now : Z) : conn :=
  let c := onSpace c i (fun s => sp_lossTime s None) in
  let s := space c i in
  if largestAcked s <? 0 then c
  else
    let delay := lossDelay c in
    let q := sent s in
    let stop := Z.min (largestAcked s + 1) (end_ q) in
    let '(q, loss, lost) := detectLoop (Z.to_nat (stop - base q)) delay (now - delay) (largestAcked s) q (base q) None [] in
    lostAll (onSpace c i (fun s => sp_lossTime (sp_sent s (trim q)) loss)) i now lost.

(** ** Acknowledgements *)

Fixpoint takeRange (fuel : nat) (q : sentQueue) (k : Z) (acked : list sentPacket) : sentQueue * list sentPacket :=
  match fuel with
  | O => (q, acked)
  | S fuel => let '(x, q) := take_ q k in takeRange fuel q (k + 1) (acked ++ match x with Some x => [x] | None => [] end)
  end.

(** The ranges, smallest first. *)
Fixpoint takeRanges (q : sentQueue) (ranges : list Ranges.pnRange) (acked : list sentPacket) : sentQueue * list sentPacket :=
  match ranges with
  | [] => (q, acked)
  | r :: ranges =>
      let from := Z.max (Ranges.lo r) (base q) in
      let stop := Z.min (u64 (Ranges.hi r + 1)) (end_ q) in
      let '(q, acked) := takeRange (Z.to_nat (stop - from)) q from acked in
      takeRanges q ranges acked
  end.

Definition ackedOne (i : nat) (now : Z) (lim : bool) (c : conn) (p : sentPacket) : conn :=
  let c := if ackEliciting p then onSpace c i (fun s => sp_eliciting s (ackElicitingInFlight s - 1)) else c in
  let c := if Sent.inFlight p then onCC c (fun x => onAcked Cbrt x (size p) (time p) now (smoothed (rtt c)) lim) else c in
  let c := foldl (frameAcked i) c (frames p) in
  if ackFloor (space c i) + 1 <? ackOf p then onSpace c i (fun s => sp_floor s (ackOf p - 1)) else c.

Definition confirmHandshake (c : conn) (now : Z) : conn :=
  if confirmed c || negb (complete (conf c)) then c
  else
    let c := set_confirmed c true in
    let c := discardSpace c spaceHandshake in
    let f := conf c in
    let c := set_way c (startMTUDiscoveryLocked (way c) (disableDiscovery f) (maxUDPPayloadSize <$> peer f) true (maxProbeSize f) (dontFragment f) now) in
    let l := cids c in
    set_cids c (Cid.issueCIDsLocked (Cid.mkLocalSide true (Cid.closed l) (Cid.peerLimit l) (Cid.ActiveConnectionIDs l) (Cid.localCIDs l) (Cid.nextCIDSeq l) (Cid.cidsIssuing l) (Cid.cidsPending l) (Cid.wantFlush l) (Cid.events l) (Cid.owned l))).

Definition peerCompletedAddressValidation (c : conn) : bool := negb (isClient (conf c)) || confirmed c || (0 <=? largestAcked (space c spaceHandshake)).

(** ** Timers *)

Definition pathBudget (recv sent : Z) : Z := let limit := u64 (3 * recv) in if sent <? limit then Z.min (limit - sent) (1 .<< 30) else 0.

Definition minPathDatagram : Z := 64.

Definition atAmplificationLimit (c : conn) : bool :=
  let a := addr c in
  negb (isClient (conf c)) && (negb (ad_validated a) && (u64 (3 * ad_recv a) <? u64 (ad_sent a + maxDatagram)) || negb (ad_pathValidated a) && (pathBudget (ad_pathRecv a) (ad_pathSent a) <? minPathDatagram)).

(** The earlier of two times, with the space it is of. *)
Definition sooner (x y : option Z * nat) : option Z * nat :=
  match x.1, y.1 with
  | _, None => x
  | None, Some _ => y
  | Some t, Some u => if u <? t then y else x
  end.

Definition lossTimeSpace (c : conn) : option Z * nat := foldl (fun x i => sooner x (lossTime (space c i), i)) (None, 0%nat) (seq 0 (length (spaces c))).

Definition anyEliciting (c : conn) : bool := existsb (fun s => 0 <? ackElicitingInFlight s) (spaces c).

(** Every space but the last waits for its own, and the application's for the
    handshake, unless nothing else is left. *)
Definition ptoTimeSpace (c : conn) (now : Z) : option Z * nat :=
  let duration := i64 (pto (rtt c) .<< ptoCount c) in
  if negb (anyEliciting c) then (Some (now + duration), if tx (space c spaceHandshake) then spaceHandshake else spaceInitial)
  else
    foldl (fun x i =>
      let s := space c i in
      if ackElicitingInFlight s =? 0 then x
      else if (i =? spaceApp)%nat && negb (confirmed c) && match x.1 with Some _ => true | None => false end then x
      else
        let d := if (i =? spaceApp)%nat && confirmed c then i64 (duration + i64 (peerMaxAckDelay c .<< ptoCount c)) else duration in
        sooner x ((fun t => t + d) <$> lastAckElicitingSent s, i)) (None, spaceInitial) (seq 0 (length (spaces c))).

Definition setLossDetectionTimer (c : conn) (now : Z) : conn :=
  match (lossTimeSpace c).1 with
  | Some t => set_lossDeadline c (Some t)
  | None =>
      if atAmplificationLimit c || negb (anyEliciting c) && peerCompletedAddressValidation c then set_lossDeadline c None
      else set_lossDeadline c (ptoTimeSpace c now).1
  end.

(** Everything after the packets acknowledged are known: [acked], which is not empty,
    in the order of the ranges. *)
Definition onAcks (c : conn) (i : nat) (largest : Z) (acked : list sentPacket) (ackDelay now : Z) : conn :=
  let c := set_ackedNew c true in
  let eliciting := existsb ackEliciting acked in
  let oneRTT := existsb (fun p => negb (early p)) acked in
  let newest := list.last acked in
  let sampled := match newest with Some p => (pn p =? largest) && eliciting | None => false end in
  let c :=
    match newest with
    | Some p =>
        if sampled then
          let ackDelay := if (i =? spaceInitial)%nat then 0 else if confirmed c then Z.min ackDelay (peerMaxAckDelay c) else ackDelay in
          let r := rtt c in
          let r := if hasSample r then r else mkRtt (latest r) (smoothed r) (rttvar r) (min_ r) (hasSample r) (Some now) in
          set_rtt c (update r (now - time p) ackDelay)
        else c
    | None => c
    end in
  let lim := limited (cc (way c)) (bytesInFlight (cc (way c))) (paced c) in
  let c := if (i =? spaceApp)%nat then set_way c (foldl (fun w p => mtuAckedLocked w p now) (way c) acked) else c in
  let c := detectLost c i now in
  let c := if (i =? spaceApp)%nat then onCC c (fun x => hystartAck x (latest (rtt c)) sampled largest (nextPN (space c i))) else c in
  let c := foldl (ackedOne i now lim) c acked in
  let c := if (i =? spaceApp)%nat && (ph_first (phase c) <=? largest) then set_phase c (mkPhase (ph_packets (phase c)) (ph_first (phase c)) true) else c in
  let c := if (i =? spaceApp)%nat && isClient (conf c) && negb (confirmed c) && oneRTT then confirmHandshake c now else c in
  let c := if peerCompletedAddressValidation c then set_ptoCount c 0 else c in
  setLossDetectionTimer c now.

(** [ranges] are largest first and not empty; [None] is the error of a packet that was
    never sent. Setting the timer of the connection is the caller's. *)
Definition onAckReceived (c : conn) (i : nat) (ranges : list Ranges.pnRange) (ackDelay now : Z) : option conn :=
  let largest := match ranges with r :: _ => Ranges.hi r | [] => 0 end in
  if nextPN (space c i) <=? largest then None
  else
    let c := onSpace c i (fun s => if largestAcked s <? largest then sp_largest s largest else s) in
    let '(q, acked) := takeRanges (sent (space c i)) (reverse ranges) [] in
    let c := onSpace c i (fun s => sp_sent s (trim q)) in
    Some (if len acked =? 0 then c else onAcks c i largest acked ackDelay now).

(** ** Timeouts *)

(** The handshake's data that waits to be sent again goes with the probes. *)
Definition probeOther (i : nat) (c : conn) (j : nat) : conn :=
  let hs := space c j in
  let '(b, lost) := Send.hasLost (cryptoSend hs) in
  if negb (j =? i)%nat && tx hs && negb (discarded hs) then
    let c := onSpace c j (fun s => sp_crypto s b) in
    if lost || (Send.next b <? Send.end_ b) then onSpace c j (fun s => sp_probes s (Z.max (probes s) 1)) else c
  else c.

(** The oldest packets that ask for an acknowledgement are taken for lost, and stay. *)
Definition probe_ (c : conn) (i : nat) : conn :=
  let c := onSpace c i (fun s => sp_probes s maxProbes) in
  let c := foldl (probeOther i) c [spaceInitial; spaceHandshake] in
  let q := sent (space c i) in
  match each q (end_ q) (fun st p => let '(c, n) := st in if negb (ackEliciting p) then (st, true) else ((foldl (frameLost i) c (frames p), n + 1), negb (i =? spaceApp)%nat || (n + 1 <? maxProbes))) (c, 0) with Some (c, _) => c | None => panic c i end.

Definition onLossDetectionTimeout (c : conn) (now : Z) : conn :=
  let '(t, i) := lossTimeSpace c in
  match t with
  | Some _ => detectLost c i now
  | None =>
      let c :=
        if negb (anyEliciting c) then onSpace c (if tx (space c spaceHandshake) then spaceHandshake else spaceInitial) (fun s => sp_probes s 1)
        else
          let i := (ptoTimeSpace c now).2 in
          let c := if (i =? spaceApp)%nat && confirmed c && (mtuBlackHolePTOs <=? ptoCount c + 1) && (maxDatagram <? Mtu.largest (way c)) then set_way c (mtuBlackHoleLocked (way c) now) else c in
          probe_ c i in
      set_ptoCount c (ptoCount c + 1)
  end.

Definition speedUpHandshakeLocked (c : conn) : conn :=
  if (maxHandshakeSpeedups <=? speedups c) || (ackElicitingInFlight (space c spaceInitial) =? 0) then c
  else probe_ (set_speedups c (speedups c + 1)) spaceInitial.

(** ** Early data turned away *)

(** One packet number: a packet of 0-RTT data is given up, without a loss. *)
Definition resendOne (c : conn) (k : Z) : conn :=
  match slot (sent (space c spaceApp)) k with
  | Some (Some p) =>
      if negb (early p) then c
      else
        let c := onSpace c spaceApp (fun s => sp_sent s (take_ (sent s) k).2) in
        let c := if ackEliciting p then onSpace c spaceApp (fun s => sp_eliciting s (ackElicitingInFlight s - 1)) else c in
        let c := if Sent.inFlight p then flightLess c p else c in
        foldl (frameLost spaceApp) c (frames p)
  | Some None => c
  | None => panic c spaceApp
  end.

Definition resendEarlyLocked (c : conn) : conn :=
  let q := sent (space c spaceApp) in
  let c := foldl resendOne c (seqZ (base q) (end_ q - base q)) in
  let c := onSpace c spaceApp (fun s => sp_sent s (trim (sent s))) in
  set_way c (flush (way c)).

End Handlers.

End Loss.
