(* ===== verification/QuicRecover.v ===== *)
(** * What loss detection does with the packets of QUIC (src/http3/quic/recovery.go)

    Every packet sent is heard of once: acknowledged, given up for lost, or forgotten
    with its space. What is counted of the packets in flight is what is in flight, and
    the streams of the connection see a run of [QuicRun]. *)

From S2P Require Import Prelude QuicRanges QuicSend QuicFrames QuicCid QuicStream QuicRun QuicSent QuicCongestion QuicMtu QuicLoss.
From stdpp Require Import base list numbers gmap.
From Stdlib Require Import ZArith Lia.

Local Open Scope Z_scope.
Local Open Scope go_scope.

Module Recover.
Import Sent Cong Mtu Loss.

Notation packets := (gmap Z sentPacket).

(** ** Packets, summed and taken *)

Definition tot (f : sentPacket -> Z) (m : packets) : Z := map_fold (fun _ p n => f p + n) 0 m.

Lemma tot_new f m k p : m !! k = None -> tot f (<[k := p]> m) = f p + tot f m.
Proof. intros Hk. unfold tot. rewrite map_fold_insert_L; [reflexivity| |exact Hk]. intros. lia. Qed.

Lemma tot_delete f m k p : m !! k = Some p -> tot f (delete k m) = tot f m - f p.
Proof. intros Hk. rewrite <- (insert_delete_id m k p Hk) at 2. rewrite tot_new by apply lookup_delete_eq. lia. Qed.

Lemma tot_nonneg f m : (forall k p, m !! k = Some p -> 0 <= f p) -> 0 <= tot f m.
Proof.
  induction m as [|k p m Hk IH] using map_ind; intros H; [reflexivity|]. rewrite tot_new by exact Hk. pose proof (H k p (lookup_insert_eq m k p)). assert (0 <= tot f m); [|lia]. apply IH. intros j q Hj. apply (H j). rewrite lookup_insert_ne by congruence. exact Hj.
Qed.

Lemma tot_le f m k p : (forall k p, m !! k = Some p -> 0 <= f p) -> m !! k = Some p -> f p <= tot f m.
Proof. intros H Hk. pose proof (tot_delete f m k p Hk). assert (0 <= tot f (delete k m)); [|lia]. apply tot_nonneg. intros j q Hj. apply lookup_delete_Some in Hj as [_ Hj]. eauto. Qed.

(** Packets taken out of a map one by one. *)
Definition without (m : packets) (ps : list sentPacket) : packets := foldr (fun p m => delete (pn p) m) m ps.

Definition taken (m : packets) (ps : list sentPacket) : Prop := NoDup (pn <$> ps) /\ Forall (fun p => m !! pn p = Some p) ps.

Lemma lookup_without m ps k : without m ps !! k = if decide (k ∈ pn <$> ps) then None else m !! k.
Proof.
  induction ps as [|p ps IH]; cbn [without foldr fmap list_fmap]; [now rewrite decide_False by (intros H; inversion H)|]. fold (without m ps). destruct (decide (k = pn p)) as [->|Hne]; [rewrite lookup_delete_eq, decide_True; [reflexivity|]; apply elem_of_cons; now left|].
  rewrite lookup_delete_ne by congruence. rewrite IH. apply decide_ext. rewrite elem_of_cons. tauto.
Qed.

Lemma without_sub m ps : without m ps ⊆ m.
Proof. apply map_subseteq_spec. intros k p. rewrite lookup_without. case_decide; [discriminate|auto]. Qed.

Lemma without_app m ps qs : without m (ps ++ qs) = without (without m qs) ps.
Proof. apply foldr_app. Qed.

Lemma without_swap m ps qs : without (without m ps) qs = without (without m qs) ps.
Proof. apply map_eq. intros k. rewrite !lookup_without. repeat case_decide; reflexivity. Qed.

Lemma taken_nil m : taken m [].
Proof. split; constructor. Qed.

Lemma taken_cons m p ps : taken m (p :: ps) -> m !! pn p = Some p /\ taken (delete (pn p) m) ps /\ without m (p :: ps) = without (delete (pn p) m) ps.
Proof.
  intros [H1 H2]. cbn [fmap list_fmap] in H1. apply NoDup_cons in H1 as [Hn H1]. inversion H2 as [|? ? A B]; subst. split; [exact A|]. split; [|exact (without_swap m ps [p])]. split; [exact H1|]. apply List.Forall_forall. intros q Hq. rewrite List.Forall_forall in B. rewrite lookup_delete_ne; [now apply B|]. intros E. apply Hn. rewrite E. apply list_elem_of_fmap. exists q. split; [reflexivity|now apply list_elem_of_In].
Qed.

Lemma taken_snoc m ps p : taken m ps -> without m ps !! pn p = Some p -> taken m (ps ++ [p]) /\ without m (ps ++ [p]) = delete (pn p) (without m ps).
Proof.
  intros [H1 H2] Hp. rewrite lookup_without in Hp. case_decide as Hn; [discriminate|]. split; [|rewrite without_app; exact (eq_sym (without_swap m ps [p]))]. split.
  - rewrite fmap_app. apply NoDup_app. split; [exact H1|]. split; [|apply NoDup_singleton]. intros x Hx Hx2. apply list_elem_of_singleton in Hx2. congruence.
  - apply Forall_app. split; [exact H2|]. now constructor.
Qed.

Lemma taken_sub m u ps : taken m ps -> m ⊆ u -> taken u ps.
Proof. intros [H1 H2] Hs. split; [exact H1|]. eapply Forall_impl; [exact H2|]. intros p Hp. exact (lookup_weaken _ _ _ _ Hp Hs). Qed.

(** Two lots, in either order. *)
Lemma taken_swap m ps qs : taken m ps -> taken (without m ps) qs -> taken m qs /\ taken (without m qs) ps.
Proof.
  intros Hp Hq. split; [exact (taken_sub _ _ _ Hq (without_sub m ps))|]. destruct Hp as [H1 H2], Hq as [H3 H4]. split; [exact H1|]. rewrite !List.Forall_forall in *. intros p Hin. rewrite lookup_without. case_decide as Hd; [|now apply H2]. exfalso.
  apply list_elem_of_fmap in Hd as (q & E & Hq). apply list_elem_of_In in Hq. specialize (H4 q Hq). rewrite lookup_without in H4. case_decide as Hn; [discriminate|]. apply Hn. rewrite <- E. apply list_elem_of_fmap. exists p. split; [reflexivity|now apply list_elem_of_In].
Qed.

(** ** What is taken out of the queue *)

Lemma takeRange_spec fuel : forall q m next k m0 acc, shows q m next -> m = without m0 acc -> taken m0 acc ->
  exists ps m', takeRange fuel q k acc = ((takeRange fuel q k acc).1, acc ++ ps) /\ shows (takeRange fuel q k acc).1 m' next /\ m' = without m0 (acc ++ ps) /\ taken m0 (acc ++ ps).
Proof.
  induction fuel as [|fuel IH]; intros q m next k m0 acc Hs Em Ht; cbn [takeRange]; [exists [], m; rewrite app_nil_r; auto|]. destruct (shows_take q m next k Hs) as [Ex Hs']. destruct (take_ q k) as [x q']. cbn [fst snd] in *. destruct x as [p|].
  - symmetry in Ex. destruct (shows_numbered _ _ _ _ _ Hs Ex) as [Ep _]. subst k. rewrite Em in Ex. destruct (taken_snoc _ _ _ Ht Ex) as [Ht' Ew]. destruct (IH q' (delete (pn p) m) next (pn p + 1) m0 (acc ++ [p]) Hs' ltac:(rewrite Ew; congruence) Ht') as (ps & m' & A1 & A2 & A3 & A4). exists (p :: ps), m'. rewrite <- app_assoc in A1, A3, A4. cbn [app] in *. auto.
  - rewrite delete_id in Hs' by congruence. rewrite app_nil_r. exact (IH q' m next (k + 1) m0 acc Hs' Em Ht).
Qed.

Lemma takeRanges_spec rs : forall q m next m0 acc, shows q m next -> m = without m0 acc -> taken m0 acc ->
  exists ps, (takeRanges q rs acc).2 = acc ++ ps /\ shows (takeRanges q rs acc).1 (without m0 (acc ++ ps)) next /\ taken m0 (acc ++ ps).
Proof.
  induction rs as [|r rs IH]; intros q m next m0 acc Hs Em Ht; cbn [takeRanges]; [exists []; rewrite app_nil_r, <- Em; auto|]. cbv zeta. set (k := Z.max _ _). set (fuel := Z.to_nat _). destruct (takeRange_spec fuel q m next k m0 acc Hs Em Ht) as (ps & m' & A1 & A2 & A3 & A4). destruct (takeRange fuel q k acc) as [q' acc']. cbn [fst] in *. injection A1 as ->.
  destruct (IH q' m' next m0 (acc ++ ps) A2 A3 A4) as (qs & B1 & B2 & B3). exists (ps ++ qs). rewrite app_assoc. auto.
Qed.

Lemma shows_slot q m next k : shows q m next -> base q <= k < end_ q -> slot q k = Some (m !! k).
Proof.
  intros (l & H & Hm & _) Hk. rewrite (end_tracks q l H) in Hk. destruct (slot_tracks q l k H Hk) as (x & Hx & -> & _). rewrite Hm. unfold packet. rewrite (proj2 (Z.ltb_ge k (base q))) by lia. now rewrite Hx.
Qed.

Lemma shows_range q m next k p : shows q m next -> m !! k = Some p -> base q <= k < end_ q.
Proof.
  intros (l & H & Hm & _) E. rewrite (end_tracks q l H). rewrite Hm in E. destruct (Z.lt_ge_cases k (base q)) as [?|?]; [rewrite packet_out in E by auto; discriminate|]. destruct (Z.lt_ge_cases k (base q + len l)) as [?|?]; [lia|]. rewrite packet_out in E by auto. discriminate.
Qed.

Lemma take_ends q k : base (take_ q k).2 = base q /\ end_ (take_ q k).2 = end_ q.
Proof. unfold take_. destruct (_ || _); [auto|]. destruct (slot q k) as [[p|]|]; auto. unfold set_slot. now destruct (_ <? _)%nat. Qed.

Lemma shows_ends q m next : shows q m next -> 0 <= base q <= end_ q /\ end_ q <= next <= 2 ^ 62.
Proof. intros (l & H & _ & Hn). rewrite (end_tracks q l H). destruct (tr_base _ _ H). pose proof (len_nonneg l). lia. Qed.

(** A packet that is too far behind, by count or by time. *)
Definition tooOld (lostSendTime largest : Z) (p : sentPacket) : bool := (time p <=? lostSendTime) || (pn p + packetThreshold <=? largest).

(** The packets taken for lost from number [k] up to below [e], and the time the first
    of the others is. *)
Record detected (delay lst largest : Z) (m0 : packets) (k e : Z) (loss loss' : option Z) (acc ps : list sentPacket) : Prop := {
  dt_taken : taken m0 (acc ++ ps);
  dt_lost : forall p, p ∈ ps -> k <= pn p < e /\ tooOld lst largest p = true;
  dt_all : forall j p, k <= j < e -> without m0 acc !! j = Some p -> tooOld lst largest p = true -> p ∈ ps;
  dt_due : forall j p, k <= j < e -> without m0 acc !! j = Some p -> tooOld lst largest p = false -> exists t, loss' = Some t /\ t <= time p + delay;
  dt_first : forall t, loss = Some t -> exists t', loss' = Some t' /\ t' <= t;
  dt_from : forall t, loss' = Some t -> loss = Some t \/ exists j p, k <= j < e /\ without m0 acc !! j = Some p /\ tooOld lst largest p = false /\ t = time p + delay
}.

Lemma detectLoop_spec delay lst largest fuel : forall q m next k loss m0 acc,
  shows q m next -> m = without m0 acc -> taken m0 acc -> base q <= k -> k + Z.of_nat fuel <= end_ q ->
  let '(q', loss', lost) := detectLoop fuel delay lst largest q k loss acc in
  exists ps, lost = acc ++ ps /\ shows q' (without m0 (acc ++ ps)) next /\ detected delay lst largest m0 k (k + Z.of_nat fuel) loss loss' acc ps.
Proof.
  induction fuel as [|fuel IH]; intros q m next k loss m0 acc Hs Em Ht Hk Hf; cbn [detectLoop].
  - exists []. rewrite app_nil_r, <- Em. split; [reflexivity|]. split; [exact Hs|]. rewrite Z.add_0_r. split; rewrite ?app_nil_r; auto; try (intros; lia); [intros p Hp; inversion Hp|intros t ->; exists t; split; [reflexivity|lia]].
  - pose proof (shows_ends _ _ _ Hs) as He. rewrite (shows_slot q m next k Hs) by lia. replace (k + Z.of_nat (S fuel)) with (k + 1 + Z.of_nat fuel) in * by lia. destruct (m !! k) as [p|] eqn:Ek.
    + destruct (shows_numbered _ _ _ _ _ Hs Ek) as [Ep _]. subst k. unfold packetThreshold in *. rewrite u64_id by lia. fold packetThreshold. fold (tooOld lst largest p). destruct (tooOld lst largest p) eqn:Eo.
      * destruct (shows_take q m next (pn p) Hs) as [Ex Hs']. destruct (take_ends q (pn p)) as [Eb Ee]. destruct (take_ q (pn p)) as [x q']. cbn [fst snd] in *. rewrite Ex, Ek in *. rewrite Em in Ek. destruct (taken_snoc _ _ _ Ht Ek) as [Ht' Ew]. subst x.
        specialize (IH q' (delete (pn p) m) next (pn p + 1) loss m0 (acc ++ [p]) Hs' ltac:(rewrite Ew; congruence) Ht' ltac:(lia) ltac:(lia)). destruct (detectLoop fuel _ _ _ q' _ _ _) as [[q2 loss2] lost2]. destruct IH as (ps & -> & A2 & [B1 B2 B3 B4 B5 B6]). exists (p :: ps). rewrite <- app_assoc in *. cbn [app] in *. split; [reflexivity|]. split; [exact A2|].
        assert (forall j r, without m0 acc !! j = Some r -> j <> pn p -> without m0 (acc ++ [p]) !! j = Some r) as Hother by (intros j r Hj Hne; rewrite Ew; now rewrite lookup_delete_ne by congruence). split; auto.
        -- intros r Hr. apply elem_of_cons in Hr as [->|Hr]; [split; [lia|exact Eo]|]. destruct (B2 r Hr). split; [lia|assumption].
        -- intros j r Hj Hr Ho. apply elem_of_cons. destruct (Z.eq_dec j (pn p)) as [->|Hne]; [left; congruence|right]. apply (B3 j); auto. lia.
        -- intros j r Hj Hr Ho. destruct (Z.eq_dec j (pn p)) as [->|Hne]; [congruence|]. apply (B4 j); auto. lia.
        -- intros t Ht1. destruct (B6 t Ht1) as [|(j & r & C1 & C2 & C3 & C4)]; [now left|right]. exists j, r. splits; auto; try lia. rewrite Ew in C2. now apply lookup_delete_Some in C2 as [_ ?].
      * set (loss1 := match loss with Some l => _ | None => _ end). specialize (IH q m next (pn p + 1) loss1 m0 acc Hs Em Ht ltac:(lia) ltac:(lia)). destruct (detectLoop fuel _ _ _ q _ _ _) as [[q2 loss2] lost2]. destruct IH as (ps & -> & A2 & [B1 B2 B3 B4 B5 B6]). exists ps. split; [reflexivity|]. split; [exact A2|]. rewrite Em in Ek.
        assert (exists t1, loss1 = Some t1 /\ t1 <= time p + delay /\ (loss1 = loss \/ t1 = time p + delay) /\ forall t, loss = Some t -> t1 <= t) as (t1 & E1 & E2 & E3 & E4). { unfold loss1. destruct loss as [l|]; [destruct (Z.ltb_spec (time p + delay) l); eexists; (split; [reflexivity|]); (split; [lia|]); (split; [auto|]); intros t [= <-]; lia|]. eexists. split; [reflexivity|]. split; [lia|]. split; [auto|discriminate]. } split; auto.
        -- intros r Hr. destruct (B2 r Hr). split; [lia|assumption].
        -- intros j r Hj Hr Ho. destruct (Z.eq_dec j (pn p)) as [->|Hne]; [congruence|]. apply (B3 j); auto. lia.
        -- intros j r Hj Hr Ho. destruct (Z.eq_dec j (pn p)) as [->|Hne]; [|apply (B4 j); auto; lia]. assert (r = p) as -> by congruence. destruct (B5 t1 E1) as (t' & -> & Hle). exists t'. split; [reflexivity|lia].
        -- intros t Ht1. specialize (E4 t Ht1). destruct (B5 t1 E1) as (t' & -> & Hle). exists t'. split; [reflexivity|lia].
        -- intros t Ht1. destruct (B6 t Ht1) as [H|(j & r & C1 & C2 & C3 & C4)]; [|right; exists j, r; splits; auto; lia]. destruct E3 as [E3|E3]; [left; congruence|]. right. exists (pn p), p. splits; auto; try lia. congruence.
    + specialize (IH q m next (k + 1) loss m0 acc Hs Em Ht ltac:(lia) ltac:(lia)). destruct (detectLoop fuel _ _ _ q _ _ _) as [[q2 loss2] lost2]. destruct IH as (ps & -> & A2 & [B1 B2 B3 B4 B5 B6]). exists ps. split; [reflexivity|]. split; [exact A2|]. rewrite Em in Ek. split; auto.
      * intros r Hr. destruct (B2 r Hr). split; [lia|assumption].
      * intros j r Hj Hr Ho. destruct (Z.eq_dec j k) as [->|Hne]; [congruence|]. apply (B3 j); auto. lia.
      * intros j r Hj Hr Ho. destruct (Z.eq_dec j k) as [->|Hne]; [congruence|]. apply (B4 j); auto. lia.
      * intros t Ht1. destruct (B6 t Ht1) as [|(j & r & C1 & C2 & C3 & C4)]; [now left|right]. exists j, r. splits; auto; lia.
Qed.

(** ** What is counted *)

Definition elic (p : sentPacket) : Z := if ackEliciting p then 1 else 0.
Definition flying (p : sentPacket) : Z := if Sent.inFlight p then size p else 0.

(** The part of a space that is counted, and of a connection. *)
Definition core (s : pnSpace) : sentQueue * Z * Z := (sent s, nextPN s, ackElicitingInFlight s).
Definition bif (c : conn) : Z := bytesInFlight (cc (way c)).

Record same (c c' : conn) : Prop := {
  sm_three : length (spaces c') = length (spaces c);
  sm_core : forall i, core (space c' i) = core (space c i);
  sm_bif : bif c' = bif c
}.

Lemma kept_refl c : same c c.
Proof. now split. Qed.

Lemma kept_trans c1 c2 c3 : same c1 c2 -> same c2 c3 -> same c1 c3.
Proof. intros [A1 A2 A3] [B1 B2 B3]. split; [congruence| |congruence]. intros i. now rewrite B2. Qed.

Lemma space_on c i f j : (i < length (spaces c))%nat -> space (onSpace c i f) j = if decide (j = i) then f (space c i) else space c j.
Proof.
  intros Hi. unfold onSpace, space at 1. cbn [set_spaces spaces]. case_decide as E; [subst; now rewrite list_lookup_insert_eq by exact Hi|]. now rewrite list_lookup_insert_ne by congruence.
Qed.

Lemma on_same c i f : (forall s, core (f s) = core s) -> same c (onSpace c i f).
Proof.
  intros Hf. split; [cbn; apply length_insert| |reflexivity]. intros j. destruct (Nat.lt_ge_cases i (length (spaces c))) as [Hi|Hi]; [rewrite space_on by exact Hi; case_decide; [subst; apply Hf|reflexivity]|]. unfold onSpace, space. cbn. now rewrite list_insert_ge by exact Hi.
Qed.

Lemma way_same c w : bytesInFlight (cc w) = bif c -> same c (set_way c w).
Proof. intros H. split; auto. Qed.

(** The controller counts what is in flight apart. *)
Lemma setMaxDatagramSize_bif x size : bytesInFlight (setMaxDatagramSize x size) = bytesInFlight x.
Proof. unfold setMaxDatagramSize. now destruct (_ <? _). Qed.

Lemma onCongestion_bif x t now : bytesInFlight (onCongestion x t now) = bytesInFlight x.
Proof. unfold onCongestion. destruct (negb _); [reflexivity|]. now destruct x as [[] ? ? ? ? ? ? ?]. Qed.

Lemma hystartAck_bif x r s l n : bytesInFlight (hystartAck x r s l n) = bytesInFlight x.
Proof. unfold hystartAck, hystartExit. repeat case_match; reflexivity. Qed.

Lemma cubicAcked_bif f x a now r : bytesInFlight (cubicAcked f x a now r) = bytesInFlight x.
Proof. unfold cubicAcked, cubicStage. repeat (case_match; cbn [bytesInFlight set_cub set_cwnd]); reflexivity. Qed.

Lemma onAcked_bif f x size time now r lim : bytesInFlight (onAcked f x size time now r lim) = u64 (bytesInFlight x - size).
Proof. unfold onAcked. repeat (case_match; cbn [bytesInFlight set_cub set_cwnd set_hy set_flight]); rewrite ?cubicAcked_bif; reflexivity. Qed.

Lemma nextMTU_bif w now : bytesInFlight (cc (nextMTUProbeLocked w now)) = bytesInFlight (cc w).
Proof. unfold nextMTUProbeLocked. repeat case_match; reflexivity. Qed.

Lemma mtuAcked_bif w p now : bytesInFlight (cc (mtuAckedLocked w p now)) = bytesInFlight (cc w).
Proof. unfold mtuAckedLocked. destruct (_ || _); [reflexivity|]. rewrite nextMTU_bif. cbn. apply setMaxDatagramSize_bif. Qed.

Lemma mtuLost_bif w p now : bytesInFlight (cc (mtuLostLocked w p now)) = bytesInFlight (cc w).
Proof. unfold mtuLostLocked. repeat case_match; rewrite ?nextMTU_bif; reflexivity. Qed.

Lemma blackHole_bif w now : bytesInFlight (cc (mtuBlackHoleLocked w now)) = bytesInFlight (cc w).
Proof. unfold mtuBlackHoleLocked. destruct (negb _); cbn; apply setMaxDatagramSize_bif. Qed.

Lemma checkBlackHole_bif w now : bytesInFlight (cc (mtuCheckBlackHoleLocked w now)) = bytesInFlight (cc w).
Proof. unfold mtuCheckBlackHoleLocked. destruct (_ && _); [apply blackHole_bif|reflexivity]. Qed.

Lemma startMTU_bif w a b e f g now : bytesInFlight (cc (startMTUDiscoveryLocked w a b e f g now)) = bytesInFlight (cc w).
Proof. unfold startMTUDiscoveryLocked. repeat case_match; reflexivity. Qed.

Section Handlers.
Context (W CW MI MIU : Z) (pp : option QStream.peerLimits) (Cbrt : float -> float).

Lemma frameLost_same i c f : same c (frameLost i c f).
Proof. destruct f; cbn [frameLost]; try (now split); now apply on_same. Qed.

Lemma frameAcked_same i c f : same c (frameAcked MI MIU i c f).
Proof. destruct f; cbn [frameAcked]; try (now split); now apply on_same. Qed.

Lemma fold_same {A} (h : conn -> A -> conn) l c : (forall c x, same c (h c x)) -> same c (foldl h c l).
Proof. intros Hh. revert c. induction l as [|x l IH]; intros c; [apply kept_refl|]. exact (kept_trans _ _ _ (Hh c x) (IH _)). Qed.

(** ** The streams *)

Definition streamOf (f : sentFrame) : option QStream.sentFrame := match f with sfOf f => Some f | _ => None end.
Definition streamFrames (p : sentPacket) : list QStream.sentFrame := omap streamOf (frames p).

Lemma losts_strs i fs c : strs (foldl (frameLost i) c fs) = QRun.packetLost (strs c) (omap streamOf fs).
Proof. revert c. induction fs as [|f fs IH]; intros c; [reflexivity|]. cbn [foldl]. rewrite IH. destruct f; reflexivity. Qed.

Lemma ackeds_strs i fs c : strs (foldl (frameAcked MI MIU i) c fs) = QRun.packetAcked MI MIU (strs c) (omap streamOf fs).
Proof. revert c. induction fs as [|f fs IH]; intros c; [reflexivity|]. cbn [foldl]. rewrite IH. destruct f; reflexivity. Qed.

(** Steps of the streams that are not the application's nor the peer's. *)
Definition internal (o : QRun.op) : Prop := match o with QRun.Acked _ | QRun.Lost _ | QRun.Probed _ => True | _ => False end.

Definition leads (y y' : QRun.sys) : Prop := exists ops, Forall internal ops /\ QRun.run W CW MI MIU pp y ops = Some (y', true).

Lemma leads_refl y : leads y y.
Proof. exists []. split; [constructor|reflexivity]. Qed.

Lemma run_app ops : forall y ops' y', QRun.run W CW MI MIU pp y ops = Some (y', true) -> QRun.run W CW MI MIU pp y (ops ++ ops') = QRun.run W CW MI MIU pp y' ops'.
Proof.
  induction ops as [|o ops IH]; intros y ops' y' H; cbn [QRun.run app] in *; [now injection H as ->|]. destruct (QRun.step W CW MI MIU pp y o) as [[y1 []]|]; try discriminate. now apply IH.
Qed.

Lemma leads_trans y1 y2 y3 : leads y1 y2 -> leads y2 y3 -> leads y1 y3.
Proof. intros (o1 & A1 & A2) (o2 & B1 & B2). exists (o1 ++ o2). split; [now apply Forall_app|]. now rewrite (run_app _ _ _ _ A2). Qed.

Lemma leads_one y o y' : internal o -> QRun.step W CW MI MIU pp y o = Some (y', true) -> leads y y'.
Proof. intros Ho Hs. exists [o]. split; [now constructor|]. cbn [QRun.run]. now rewrite Hs. Qed.

(** The frames on their way are those of the packets of the application's space, but
    for packets that have none. *)
Definition busy (l : list (list QStream.sentFrame)) : list (list QStream.sentFrame) := filter (fun q => q <> []) l.
Definition carried (u : packets) : list (list QStream.sentFrame) := (fun x => streamFrames x.2) <$> map_to_list u.

Definition sim (c : conn) (u : packets) (y : QRun.sys) : Prop := QRun.sy_conn y = strs c /\ busy (QRun.sy_flight y) ≡ₚ busy (carried u).

Lemma busy_cons q l : busy (q :: l) = if decide (q = []) then busy l else q :: busy l.
Proof. unfold busy. case_decide as E; [rewrite filter_cons_False by tauto|rewrite filter_cons_True by exact E]; reflexivity. Qed.

Lemma carried_delete u k p : u !! k = Some p -> carried u ≡ₚ streamFrames p :: carried (delete k u).
Proof. intros Hk. unfold carried. rewrite <- (map_to_list_delete u k p Hk). reflexivity. Qed.

(** A packet of the space: it has no frames of streams, or is one of those on their way. *)
Lemma sim_find c u y k p : sim c u y -> u !! k = Some p ->
  streamFrames p = [] /\ sim c (delete k u) y \/
  exists idx, QRun.sy_flight y !! idx = Some (streamFrames p) /\ busy (delete idx (QRun.sy_flight y)) ≡ₚ busy (carried (delete k u)).
Proof.
  intros [Hc Hp] Hk. pose proof (carried_delete u k p Hk) as Hd. apply (filter_Permutation (fun q => q <> [])) in Hd. fold (busy (carried u)) (busy (streamFrames p :: carried (delete k u))) in Hd. rewrite busy_cons in Hd. rewrite <- Hp in Hd. case_decide as E; [left; split; [exact E|]; split; [exact Hc|exact Hd]|right].
  assert (streamFrames p ∈ QRun.sy_flight y) as Hin. { assert (streamFrames p ∈ busy (QRun.sy_flight y)) as H by (rewrite Hd; apply elem_of_cons; now left). now apply list_elem_of_filter in H as [_ H]. }
  apply list_elem_of_lookup in Hin as (idx & Hi). exists idx. split; [exact Hi|]. pose proof (delete_Permutation _ _ _ Hi) as He. apply (filter_Permutation (fun q => q <> [])) in He. fold (busy (QRun.sy_flight y)) (busy (streamFrames p :: delete idx (QRun.sy_flight y))) in He. rewrite busy_cons, decide_False in He by exact E. rewrite He in Hd. now apply Permutation_cons_inv in Hd.
Qed.

Lemma sim_lost c c' u y k p : sim c u y -> u !! k = Some p -> strs c' = QRun.packetLost (strs c) (streamFrames p) -> exists y', leads y y' /\ sim c' (delete k u) y'.
Proof.
  intros Hs Hk He. destruct (sim_find c u y k p Hs Hk) as [[E [H1 H2]]|(idx & Hi & Hd)]; [exists y; split; [apply leads_refl|]; rewrite E in He; split; [rewrite He; exact H1|exact H2]|]. eexists. split; [apply (leads_one y (QRun.Lost idx)); [exact I|cbn [QRun.step]; rewrite Hi; reflexivity]|]. destruct Hs as [Hc _]. split; [cbn; now rewrite Hc|exact Hd].
Qed.

Lemma sim_acked c c' u y k p : sim c u y -> u !! k = Some p -> strs c' = QRun.packetAcked MI MIU (strs c) (streamFrames p) -> exists y', leads y y' /\ sim c' (delete k u) y'.
Proof.
  intros Hs Hk He. destruct (sim_find c u y k p Hs Hk) as [[E [H1 H2]]|(idx & Hi & Hd)]; [exists y; split; [apply leads_refl|]; rewrite E in He; split; [rewrite He; exact H1|exact H2]|]. eexists. split; [apply (leads_one y (QRun.Acked idx)); [exact I|cbn [QRun.step]; rewrite Hi; reflexivity]|]. destruct Hs as [Hc _]. split; [cbn; now rewrite Hc|exact Hd].
Qed.

Lemma sim_probed c c' u y k p : sim c u y -> u !! k = Some p -> strs c' = QRun.packetLost (strs c) (streamFrames p) -> exists y', leads y y' /\ sim c' u y'.
Proof.
  intros Hs Hk He. destruct (sim_find c u y k p Hs Hk) as [[E _]|(idx & Hi & _)]; [exists y; split; [apply leads_refl|]; rewrite E in He; destruct Hs as [H1 H2]; split; [rewrite He; exact H1|exact H2]|]. eexists. split; [apply (leads_one y (QRun.Probed idx)); [exact I|cbn [QRun.step]; rewrite Hi; reflexivity]|]. destruct Hs as [Hc Hp]. split; [cbn; now rewrite Hc|exact Hp].
Qed.

Lemma sim_sent c c' u y k p w : sim c u y -> u !! k = None -> strs c' = QRun.sy_conn w -> QRun.sy_flight w = QRun.sy_flight y ++ [streamFrames p] \/ streamFrames p = [] /\ QRun.sy_flight w = QRun.sy_flight y -> sim c' (<[k := p]> u) w.
Proof.
  intros [Hc Hp] Hk Hs Hw. split; [congruence|]. assert (busy (carried (<[k:=p]> u)) ≡ₚ (if decide (streamFrames p = []) then busy (carried u) else streamFrames p :: busy (carried u))) as ->. { rewrite <- busy_cons. apply filter_Permutation. unfold carried. rewrite (map_to_list_insert u k p Hk). reflexivity. }
  destruct Hw as [->|[E ->]]; [|now rewrite decide_True by exact E]. unfold busy. rewrite filter_app. fold (busy (QRun.sy_flight y)) (busy [streamFrames p]). rewrite busy_cons. case_decide; [cbn; now rewrite app_nil_r|]. rewrite Permutation_app_comm. cbn. now rewrite Hp.
Qed.

(** ** Packets heard of *)

(** One packet less in what is counted. *)
Record fewer (i : nat) (p : sentPacket) (c c' : conn) : Prop := {
  fw_three : length (spaces c') = length (spaces c);
  fw_core : forall j, core (space c' j) = if decide (j = i) then (sent (space c i), nextPN (space c i), ackElicitingInFlight (space c i) - elic p) else core (space c j);
  fw_bif : bif c' = if Sent.inFlight p then u64 (bif c - size p) else bif c
}.

Lemma fewer_same i p c c1 c2 : fewer i p c c1 -> same c1 c2 -> fewer i p c c2.
Proof. intros [A1 A2 A3] [B1 B2 B3]. split; [congruence| |congruence]. intros j. now rewrite B2. Qed.

Lemma same_fewer i p c c1 c2 : same c c1 -> fewer i p c1 c2 -> fewer i p c c2.
Proof.
  intros [A1 A2 A3] [B1 B2 B3]. split; [congruence| |now rewrite B3, A3]. intros j. rewrite B2. pose proof (A2 i) as E. unfold core in E. injection E as E1 E2 E3. now rewrite E1, E2, E3, A2.
Qed.

Definition uncount (i : nat) (c : conn) (p : sentPacket) : conn := if ackEliciting p then onSpace c i (fun s => sp_eliciting s (ackElicitingInFlight s - 1)) else c.

Lemma uncount_core i c p : (i < length (spaces c))%nat -> length (spaces (uncount i c p)) = length (spaces c) /\ bif (uncount i c p) = bif c /\ forall j, core (space (uncount i c p) j) = if decide (j = i) then (sent (space c i), nextPN (space c i), ackElicitingInFlight (space c i) - elic p) else core (space c j).
Proof.
  intros Hi. unfold uncount, elic. destruct (ackEliciting p).
  - split; [apply length_insert|]. split; [reflexivity|]. intros j. rewrite space_on by exact Hi. case_decide; reflexivity.
  - splits; auto. intros j. case_decide; [|reflexivity]. subst. unfold core. now rewrite Z.sub_0_r.
Qed.

Lemma fewer_flight i c p : (i < length (spaces c))%nat -> fewer i p c (if Sent.inFlight p then flightLess (uncount i c p) p else uncount i c p).
Proof.
  intros Hi. destruct (uncount_core i c p Hi) as (A & B & D). destruct (Sent.inFlight p) eqn:E; (split; [exact A|exact D|rewrite E]); [|exact B]. unfold bif in *. cbn. now rewrite B.
Qed.

Lemma lostOne_fewer i now c last p : (i < length (spaces c))%nat -> fewer i p c (lostOne i now (c, last) p).1.
Proof.
  intros Hi. unfold lostOne. fold (uncount i c p). destruct (if Sent.inFlight p then (flightLess (uncount i c p) p, if mtuProbe p then last else Some (time p)) else (uncount i c p, last)) as [c1 last1] eqn:E. cbn [fst].
  assert (c1 = if Sent.inFlight p then flightLess (uncount i c p) p else uncount i c p) as -> by (destruct (Sent.inFlight p); congruence). eapply fewer_same; [apply fewer_flight; exact Hi|]. eapply kept_trans; [|apply fold_same; intros; apply frameLost_same]. destruct (i =? spaceApp)%nat; [apply way_same; apply mtuLost_bif|apply kept_refl].
Qed.

Lemma ackedOne_fewer i now lim c p : (i < length (spaces c))%nat -> fewer i p c (ackedOne MI MIU Cbrt i now lim c p).
Proof.
  intros Hi. unfold ackedOne. fold (uncount i c p). match goal with |- context [foldl _ ?x _] => set (c1 := x) end. assert (fewer i p c c1) as H1.
  { unfold c1. destruct (uncount_core i c p Hi) as (A & B & D). destruct (Sent.inFlight p) eqn:E; (split; [exact A|exact D|rewrite E]); [|exact B]. unfold bif in *. cbn. now rewrite onAcked_bif, B. }
  clearbody c1. match goal with |- context [ackFloor (space ?x i)] => set (c2 := x) end. assert (fewer i p c c2) as H2 by (apply (fewer_same _ _ _ c1); [exact H1|apply fold_same; intros; apply frameAcked_same]). clearbody c2. destruct (_ <? _); [|exact H2]. eapply fewer_same; [exact H2|]. now apply on_same.
Qed.

Lemma lostOne_strs i now c last p : strs (lostOne i now (c, last) p).1 = QRun.packetLost (strs c) (streamFrames p).
Proof.
  unfold lostOne. fold (uncount i c p). assert (strs (uncount i c p) = strs c) as E0 by (unfold uncount; now destruct (ackEliciting p)). destruct (if Sent.inFlight p then _ else _) as [c1 last1] eqn:E. cbn [fst]. rewrite losts_strs. f_equal. assert (strs c1 = strs c) as E1 by (destruct (Sent.inFlight p); injection E as <- _; exact E0). now destruct (i =? spaceApp)%nat.
Qed.

Lemma ackedOne_strs i now lim c p : strs (ackedOne MI MIU Cbrt i now lim c p) = QRun.packetAcked MI MIU (strs c) (streamFrames p).
Proof.
  unfold ackedOne. fold (uncount i c p). assert (strs (uncount i c p) = strs c) as E0 by (unfold uncount; now destruct (ackEliciting p)). match goal with |- context [foldl _ ?x _] => assert (strs x = strs c) as E1 by (destruct (Sent.inFlight p); exact E0) end.
  destruct (_ <? _); cbn; rewrite ackeds_strs, E1; reflexivity.
Qed.

(** ** The account *)

(** The packets in the queues, and those that are counted: they are the same but in
    the middle of an acknowledgement. [N] bounds the packet numbers and the bytes in
    flight. *)
Definition air (U : nat -> packets) : Z := tot flying (U 0%nat) + tot flying (U 1%nat) + tot flying (U 2%nat).

Record acct (N : Z * Z) (c : conn) (Q U : nat -> packets) : Prop := {
  ac_three : length (spaces c) = 3%nat;
  ac_queue : forall i, (i < 3)%nat -> shows (sent (space c i)) (Q i) (nextPN (space c i));
  ac_sub : forall i, Q i ⊆ U i;
  ac_elic : forall i, (i < 3)%nat -> ackElicitingInFlight (space c i) = tot elic (U i);
  ac_bif : bif c = air U /\ air U <= N.2 < 2 ^ 64;
  ac_packets : forall i k p, U i !! k = Some p -> pn p = k /\ 0 <= size p /\ (i <> spaceApp -> streamFrames p = []);
  ac_next : forall i, (i < 3)%nat -> nextPN (space c i) <= N.1
}.
#[global] Arguments ac_three {N} _ _ _.
#[global] Arguments ac_queue {N} _ _ _.
#[global] Arguments ac_sub {N} _ _ _.
#[global] Arguments ac_elic {N} _ _ _.
#[global] Arguments ac_bif {N} _ _ _.
#[global] Arguments ac_packets {N} _ _ _.
#[global] Arguments ac_next {N} _ _ _.

Definition upd (U : nat -> packets) (i : nat) (m : packets) (j : nat) : packets := if decide (j = i) then m else U j.

Lemma acct_same {N} c c' Q U : same c c' -> acct N c Q U -> acct N c' Q U.
Proof.
  intros [S1 S2 S3] [A1 A2 A3 A4 A5 A6 A7]. split; auto; try congruence.
  - intros i Hi. pose proof (S2 i) as E. injection E as -> -> _. auto.
  - intros i Hi. pose proof (S2 i) as E. injection E as _ _ ->. auto.
  - intros i Hi. pose proof (S2 i) as E. injection E as _ -> _. auto.
Qed.

Lemma flying_nonneg {N} c Q U i : acct N c Q U -> forall k p, U i !! k = Some p -> 0 <= flying p.
Proof. intros H k p Hk. destruct (ac_packets _ _ _ H i k p Hk) as (_ & ? & _). unfold flying. destruct (Sent.inFlight p); lia. Qed.

Lemma air_upd U i m : (i < 3)%nat -> air (upd U i m) = air U - tot flying (U i) + tot flying m.
Proof. intros Hi. unfold air, upd. destruct i as [|[|[|i]]]; [| | |lia]; repeat (case_decide; try congruence); lia. Qed.

Lemma air_parts {N} c Q U i : acct N c Q U -> (i < 3)%nat -> 0 <= tot flying (U i) <= air U.
Proof.
  intros H Hi. pose proof (tot_nonneg flying (U 0%nat) (flying_nonneg c Q U 0 H)). pose proof (tot_nonneg flying (U 1%nat) (flying_nonneg c Q U 1 H)). pose proof (tot_nonneg flying (U 2%nat) (flying_nonneg c Q U 2 H)). unfold air. destruct i as [|[|[|]]]; lia.
Qed.

Lemma acct_fewer {N} c c' Q U i p : acct N c Q U -> (i < 3)%nat -> fewer i p c c' -> U i !! pn p = Some p -> Q i !! pn p = None -> acct N c' Q (upd U i (delete (pn p) (U i))).
Proof.
  intros H Hi [F1 F2 F3] Hp Hq. pose proof H as [A1 A2 A3 A4 [A5 A5'] A6 A7]. split; auto; try congruence.
  - intros j Hj. pose proof (F2 j) as E. case_decide as Ej; [subst|]; injection E as -> -> _; auto.
  - intros j. unfold upd. case_decide as Ej; [|apply A3]. subst. apply map_subseteq_spec. intros k r Hr. rewrite lookup_delete_ne; [exact (lookup_weaken _ _ _ _ Hr (A3 i))|]. intros E. congruence.
  - intros j Hj. pose proof (F2 j) as E. unfold upd. case_decide as Ej; [subst|]; injection E as _ _ ->; [|auto]. rewrite (tot_delete elic (U i) (pn p) p Hp). rewrite A4 by exact Hi. reflexivity.
  - rewrite air_upd, (tot_delete flying (U i) (pn p) p Hp) by exact Hi. pose proof (air_parts c Q U i H Hi). pose proof (tot_le flying (U i) (pn p) p (flying_nonneg c Q U i H) Hp). pose proof (flying_nonneg c Q U i H (pn p) p Hp). rewrite F3, A5. unfold flying in *. destruct (Sent.inFlight p); [rewrite u64_id by lia|]; lia.
  - intros j k r Hr. unfold upd in Hr. case_decide as Ej; [|now apply A6]. subst. apply lookup_delete_Some in Hr as [_ Hr]. now apply A6.
  - intros j Hj. pose proof (F2 j) as E. case_decide as Ej; [subst|]; injection E as _ -> _; auto.
Qed.

Lemma acct_ext {N} c Q Q' U U' : (forall j, Q j = Q' j) -> (forall j, U j = U' j) -> acct N c Q U -> acct N c Q' U'.
Proof.
  intros EQ EU [A1 A2 A3 A4 A5 A6 A7]. assert (air U' = air U) as Ea by (unfold air; now rewrite !EU). split; auto.
  - intros i Hi. rewrite <- EQ. auto.
  - intros i. rewrite <- EQ, <- EU. apply A3.
  - intros i Hi. rewrite <- EU. auto.
  - now rewrite Ea.
  - intros i k p. rewrite <- EU. apply A6.
Qed.

Lemma upd_eq U i m : upd U i m i = m.
Proof. unfold upd. now rewrite decide_True. Qed.

Lemma upd_upd U i m m' j : upd (upd U i m) i m' j = upd U i m' j.
Proof. unfold upd. now case_decide. Qed.

Lemma upd_id U i j : upd U i (U i) j = U j.
Proof. unfold upd. case_decide; congruence. Qed.

(** What the account and the streams make of it together. *)
Record after (N : Z * Z) (c : conn) (Q U : nat -> packets) (y y' : QRun.sys) : Prop := {
  af_leads : leads y y';
  af_acct : acct N c Q U;
  af_sim : sim c (U spaceApp) y'
}.
#[global] Arguments Build_after {N} _ _ _ _ _.
#[global] Arguments af_leads {N} _ _ _ _ _.
#[global] Arguments af_acct {N} _ _ _ _ _.
#[global] Arguments af_sim {N} _ _ _ _ _.

Lemma after_ext {N} c Q Q' U U' y y' : (forall j, Q j = Q' j) -> (forall j, U j = U' j) -> after N c Q U y y' -> after N c Q' U' y y'.
Proof. intros EQ EU [A1 A2 A3]. split; [exact A1|exact (acct_ext _ _ _ _ _ EQ EU A2)|now rewrite <- EU]. Qed.

Lemma after_same {N} c c' Q U y y' : same c c' -> strs c' = strs c -> after N c Q U y y' -> after N c' Q U y y'.
Proof. intros Hs He [A1 A2 [A3 A4]]. split; [exact A1|exact (acct_same _ _ _ _ Hs A2)|split; [congruence|exact A4]]. Qed.

Lemma after_trans {N} c1 c2 Q1 U1 Q2 U2 y y1 y2 : after N c1 Q1 U1 y y1 -> after N c2 Q2 U2 y1 y2 -> after N c2 Q2 U2 y y2.
Proof. intros [A1 _ _] [B1 B2 B3]. split; auto. exact (leads_trans _ _ _ A1 B1). Qed.

(** A packet heard of. *)
Lemma resolve {N} c c' Q U i p y :
  acct N c Q U -> sim c (U spaceApp) y -> (i < 3)%nat -> fewer i p c c' -> U i !! pn p = Some p -> Q i !! pn p = None ->
  strs c' = QRun.packetLost (strs c) (streamFrames p) \/ strs c' = QRun.packetAcked MI MIU (strs c) (streamFrames p) ->
  exists y', after N c' Q (upd U i (delete (pn p) (U i))) y y'.
Proof.
  intros Ha Hs Hi Hf Hp Hq Hst. pose proof (acct_fewer c c' Q U i p Ha Hi Hf Hp Hq) as Ha'. destruct (decide (i = spaceApp)) as [->|Hne].
  - assert (exists y', leads y y' /\ sim c' (delete (pn p) (U spaceApp)) y') as (y' & H1 & H2) by (destruct Hst as [E|E]; [exact (sim_lost c c' _ y _ p Hs Hp E)|exact (sim_acked c c' _ y _ p Hs Hp E)]). exists y'. split; auto.
  - exists y. split; [apply leads_refl|exact Ha'|]. destruct (ac_packets _ _ _ Ha i _ p Hp) as (_ & _ & Hn). specialize (Hn Hne). rewrite Hn in Hst. unfold upd. rewrite decide_False by congruence. destruct Hs as [Hs1 Hs2]. split; [destruct Hst as [->| ->]; exact Hs1|exact Hs2].
Qed.

(** Packets of a space heard of, one by one. *)
Lemma resolve_all {N} (h : conn -> sentPacket -> conn) i ps :
  (i < 3)%nat -> (forall c p, (i < length (spaces c))%nat -> fewer i p c (h c p) /\ (strs (h c p) = QRun.packetLost (strs c) (streamFrames p) \/ strs (h c p) = QRun.packetAcked MI MIU (strs c) (streamFrames p))) ->
  forall c Q U y, acct N c Q U -> sim c (U spaceApp) y -> taken (U i) ps -> (forall p, p ∈ ps -> Q i !! pn p = None) -> exists y', after N (foldl h c ps) Q (upd U i (without (U i) ps)) y y'.
Proof.
  intros Hi Hh. induction ps as [|p ps IH]; intros c Q U y Ha Hs Ht Hq; cbn [foldl].
  - exists y. split; [apply leads_refl|exact (acct_ext _ _ _ _ _ (fun _ => eq_refl) (fun j => eq_sym (upd_id U i j)) Ha)|]. cbn [without foldr]. now rewrite upd_id.
  - destruct (taken_cons _ _ _ Ht) as (Hp & Ht' & Ew). assert (i < length (spaces c))%nat as Hl by (rewrite (ac_three _ _ _ Ha); exact Hi). destruct (Hh c p Hl) as [Hf Hst]. destruct (resolve c (h c p) Q U i p y Ha Hs Hi Hf Hp (Hq p ltac:(apply elem_of_cons; now left)) Hst) as (y1 & H1).
    destruct (IH (h c p) Q _ y1 (af_acct _ _ _ _ _ H1) (af_sim _ _ _ _ _ H1)) as (y2 & H2); [now rewrite upd_eq|intros q Hq2; apply Hq; apply elem_of_cons; now right|]. exists y2. refine (after_trans _ _ _ _ _ _ _ _ _ H1 _). refine (after_ext _ _ _ _ _ _ _ (fun _ => eq_refl) _ H2). intros j. rewrite upd_upd, upd_eq, <- Ew. reflexivity.
Qed.

Lemma lostFold i now ps c last : (foldl (lostOne i now) (c, last) ps).1 = foldl (fun c p => (lostOne i now (c, None) p).1) c ps.
Proof.
  revert c last. induction ps as [|p ps IH]; intros c last; [reflexivity|]. cbn [foldl]. rewrite (surjective_pairing (lostOne i now (c, last) p)), IH. f_equal. unfold lostOne. now destruct (Sent.inFlight p).
Qed.

Lemma cc_same c f : (forall x, bytesInFlight (f x) = bytesInFlight x) -> same c (onCC c f).
Proof. intros H. apply way_same. cbn. apply H. Qed.

Lemma askForAcks_same c now : same c (askForAcks c now) /\ strs (askForAcks c now) = strs c.
Proof. unfold askForAcks. repeat case_match; split; try reflexivity; try apply kept_refl. now split. Qed.

Lemma lostAll_ok {N} c Q U i now ps y :
  acct N c Q U -> sim c (U spaceApp) y -> (i < 3)%nat -> taken (U i) ps -> (forall p, p ∈ ps -> Q i !! pn p = None) -> exists y', after N (lostAll c i now ps) Q (upd U i (without (U i) ps)) y y'.
Proof.
  intros Ha Hs Hi Ht Hq. destruct (resolve_all (fun c p => (lostOne i now (c, None) p).1) i ps Hi ltac:(intros; split; [now apply lostOne_fewer|left; apply lostOne_strs]) c Q U y Ha Hs Ht Hq) as (y' & H). exists y'. unfold lostAll. destruct (Z.eqb_spec (len ps) 0) as [E|E]; [assert (ps = []) as -> by (destruct ps; [reflexivity|unfold len in E; cbn in E; lia]); exact H|].
  rewrite <- (lostFold i now ps c None) in H. destruct (foldl (lostOne i now) (c, None) ps) as [c1 last]. cbn [fst] in H. set (c2 := if (i =? spaceApp)%nat then _ else _). assert (after N c2 Q (upd U i (without (U i) ps)) y y') as H2 by (unfold c2; destruct (i =? spaceApp)%nat; [refine (after_same _ _ _ _ _ _ _ _ H); [apply way_same; apply checkBlackHole_bif|reflexivity]|exact H]).
  clearbody c2. destruct last as [last|]; [|exact H2]. set (c3 := onCC c2 _). assert (after N c3 Q (upd U i (without (U i) ps)) y y') as H3 by (refine (after_same _ _ _ _ _ _ _ _ H2); [apply cc_same; intros; apply onCongestion_bif|reflexivity]). clearbody c3.
  match goal with |- after N (askForAcks ?x now) _ _ _ _ => set (c4 := x) end. assert (after N c4 Q (upd U i (without (U i) ps)) y y') as H4 by (unfold c4; destruct (persistentCongestion c3 ps); [|exact H3]; refine (after_same _ _ _ _ _ _ _ _ H3); [now apply cc_same|reflexivity]). destruct (askForAcks_same c4 now) as [A B]. exact (after_same _ _ _ _ _ _ A B H4).
Qed.

(** The queue of a space changed, for packets that are on their way no longer. *)
Lemma acct_queue {N} c Q U i f q m :
  acct N c Q U -> (i < 3)%nat -> core (f (space c i)) = (q, nextPN (space c i), ackElicitingInFlight (space c i)) -> shows q m (nextPN (space c i)) -> m ⊆ U i -> acct N (onSpace c i f) (upd Q i m) U.
Proof.
  intros [A1 A2 A3 A4 A5 A6 A7] Hi Hf Hq Hm. assert (i < length (spaces c))%nat as Hl by lia. injection Hf as F1 F2 F3. split; auto.
  - cbn. now rewrite length_insert.
  - intros j Hj. rewrite space_on by exact Hl. unfold upd. case_decide as E; [subst j; now rewrite F1, F2|auto].
  - intros j. unfold upd. case_decide as E; [now subst j|apply A3].
  - intros j Hj. rewrite space_on by exact Hl. case_decide as E; [subst j; rewrite F3|]; auto.
  - intros j Hj. rewrite space_on by exact Hl. case_decide as E; [subst j; rewrite F2|]; auto.
Qed.

Lemma detectLost_ok {N} c Q U i now y :
  acct N c Q U -> sim c (U spaceApp) y -> (i < 3)%nat ->
  exists y' lost, taken (Q i) lost /\ after N (detectLost c i now) (upd Q i (without (Q i) lost)) (upd U i (without (U i) lost)) y y'.
Proof.
  intros Ha Hs Hi. unfold detectLost. set (c1 := onSpace c i _). assert (after N c1 Q U y y) as H1 by (split; [apply leads_refl|apply (acct_same c); [now apply on_same|exact Ha]|exact Hs]). clearbody c1. destruct (largestAcked (space c1 i) <? 0).
  { exists y, []. split; [apply taken_nil|]. exact (after_ext _ _ _ _ _ _ _ (fun j => eq_sym (upd_id Q i j)) (fun j => eq_sym (upd_id U i j)) H1). }
  pose proof (ac_queue _ _ _ (af_acct _ _ _ _ _ H1) i Hi) as Hq. set (q := sent (space c1 i)) in *. pose proof (shows_ends _ _ _ Hq) as He. set (stop := Z.min _ _). set (fuel := Z.to_nat (stop - base q)).
  destruct (Z.le_gt_cases (base q) stop) as [Hle|Hgt].
  - pose proof (detectLoop_spec (lossDelay c1) (now - lossDelay c1) (largestAcked (space c1 i)) fuel q (Q i) (nextPN (space c1 i)) (base q) None (Q i) [] Hq eq_refl (taken_nil _) ltac:(lia) ltac:(lia)) as Hd.
    destruct (detectLoop fuel _ _ _ q _ None []) as [[q' loss] lost]. destruct Hd as (ps & -> & Hq' & Hdet). cbn [app] in *. pose proof (dt_taken _ _ _ _ _ _ _ _ _ _ Hdet) as Ht. cbn [app] in Ht. destruct (shows_trim _ _ _ Hq') as [Hq2 _].
    match goal with |- context [lostAll ?x i now ps] => set (c2 := x) end. assert (acct N c2 (upd Q i (without (Q i) ps)) U) as Ha2. { refine (acct_queue c1 Q U i (fun s => sp_lossTime (sp_sent s (trim q')) loss) (trim q') _ (af_acct _ _ _ _ _ H1) Hi eq_refl Hq2 _). transitivity (Q i); [apply without_sub|apply (ac_sub _ _ _ Ha)]. }
    destruct (lostAll_ok c2 _ U i now ps y Ha2 (af_sim _ _ _ _ _ H1) Hi) as (y' & H2); [exact (taken_sub _ _ _ Ht (ac_sub _ _ _ Ha i))| |exists y', ps; auto]. intros p Hp. rewrite upd_eq, lookup_without. rewrite decide_True; [reflexivity|]. apply list_elem_of_fmap. eauto.
  - assert (fuel = 0%nat) as -> by lia. cbn [detectLoop]. exists y, []. split; [apply taken_nil|]. unfold lostAll. change (len ([] : list sentPacket) =? 0) with true. cbn iota. destruct (shows_trim _ _ _ Hq) as [Hq2 _]. split; [apply leads_refl| |rewrite upd_id; exact (af_sim _ _ _ _ _ H1)].
    apply (acct_ext _ (upd Q i (Q i)) _ U); [reflexivity|intros j; symmetry; apply upd_id|]. exact (acct_queue c1 Q U i (fun s => sp_lossTime (sp_sent s (trim q)) None) (trim q) _ (af_acct _ _ _ _ _ H1) Hi eq_refl Hq2 (ac_sub _ _ _ Ha i)).
Qed.

(** ** Acknowledgements *)

Lemma mtuAckeds_bif ps now w : bytesInFlight (cc (foldl (fun w p => mtuAckedLocked w p now) w ps)) = bytesInFlight (cc w).
Proof. revert w. induction ps as [|p ps IH]; intros w; [reflexivity|]. cbn [foldl]. rewrite IH. apply mtuAcked_bif. Qed.

Lemma timer_same c now : same c (setLossDetectionTimer c now) /\ strs (setLossDetectionTimer c now) = strs c.
Proof. unfold setLossDetectionTimer. repeat case_match; now split. Qed.

(** The packets of the queue, in order. *)
Lemma between_perm q m next : shows q m next -> between m 0 (end_ q) ≡ₚ (map_to_list m).*2.
Proof.
  intros H. assert (forall k p, m !! k = Some p -> pn p = k /\ 0 <= k < end_ q) as Hk by (intros k p E; destruct (shows_numbered _ _ _ _ _ H E); pose proof (shows_range _ _ _ _ _ H E); pose proof (shows_ends _ _ _ H); split; [assumption|lia]).
  apply NoDup_Permutation.
  - apply (NoDup_fmap_1 pn). apply (sublist_NoDup _ (seqZ 0 (end_ q - 0))); [apply NoDup_seqZ|]. unfold between. generalize (seqZ 0 (end_ q - 0)). intros l. induction l as [|k l IH]; [constructor|]. cbn [omap list_omap]. destruct (m !! k) as [p|] eqn:E; [|now apply sublist_cons]. cbn [fmap list_fmap]. destruct (Hk k p E) as [-> _]. now apply sublist_skip.
  - apply (NoDup_fmap_1 pn). assert (pn <$> (map_to_list m).*2 = (map_to_list m).*1) as ->; [|apply NoDup_fst_map_to_list]. rewrite <- list_fmap_compose. apply list_fmap_ext. intros i [k p] Hi. cbn. apply Hk. apply elem_of_map_to_list. apply list_elem_of_lookup. eauto.
  - intros p. unfold between. rewrite list_elem_of_omap, list_elem_of_fmap. split.
    + intros (k & _ & E). exists (k, p). split; [reflexivity|]. now apply elem_of_map_to_list.
    + intros ([k r] & -> & E). apply elem_of_map_to_list in E. exists k. split; [|exact E]. apply elem_of_seqZ. destruct (Hk k r E). lia.
Qed.

Definition sumOf (f : sentPacket -> Z) (ps : list sentPacket) : Z := foldr (fun p n => f p + n) 0 ps.

Lemma sumOf_perm f ps qs : ps ≡ₚ qs -> sumOf f ps = sumOf f qs.
Proof. induction 1; cbn [sumOf foldr]; fold (sumOf f); unfold sumOf in *; lia. Qed.

Lemma tot_between f q m next : shows q m next -> tot f m = sumOf f (between m 0 (end_ q)).
Proof. intros H. rewrite (sumOf_perm f _ _ (between_perm q m next H)). unfold tot, sumOf. rewrite map_fold_foldr, foldr_fmap. apply foldr_ext; [|reflexivity..]. now intros [k p] n. Qed.

Lemma until_all {A} (h : A -> sentPacket -> A) a ps : until (fun a p => (h a p, true)) a ps = foldl h a ps.
Proof. revert a. induction ps as [|p ps IH]; intros a; [reflexivity|]. exact (IH (h a p)). Qed.

Lemma unflown ps : forall c, (forall p, p ∈ ps -> 0 <= size p) -> sumOf flying ps <= bif c < 2 ^ 64 ->
  let c' := foldl (fun c p => if Sent.inFlight p then flightLess c p else c) c ps in spaces c' = spaces c /\ bif c' = bif c - sumOf flying ps /\ strs c' = strs c.
Proof.
  induction ps as [|p ps IH]; intros c Hp Hb; cbn [foldl sumOf foldr] in *; [splits; auto; lia|]. fold (sumOf flying ps) in *. assert (0 <= sumOf flying ps) as H0. { clear -Hp. assert (forall p, p ∈ ps -> 0 <= size p) as H by (intros; apply Hp; apply elem_of_cons; now right). clear Hp. induction ps as [|r l IHl]; cbn; [lia|]. fold (sumOf flying l). assert (0 <= flying r) by (unfold flying; destruct (Sent.inFlight r); [apply H, elem_of_cons; now left|lia]). assert (0 <= sumOf flying l) by (apply IHl; intros; apply H, elem_of_cons; now right). lia. }
  assert (0 <= size p) as Hs by (apply Hp, elem_of_cons; now left). set (c1 := if Sent.inFlight p then _ else _). assert (bif c1 = bif c - flying p /\ spaces c1 = spaces c /\ strs c1 = strs c) as (E1 & E2 & E3). { unfold c1, flying in *. destruct (Sent.inFlight p); [|splits; auto; lia]. splits; auto. unfold bif in *. cbn. apply u64_id. lia. }
  assert (0 <= flying p) by (unfold flying; destruct (Sent.inFlight p); lia). destruct (IH c1) as (A & B & C); [intros; apply Hp, elem_of_cons; now right|lia|]. cbv zeta. rewrite A, B, C. splits; auto; congruence || lia.
Qed.

Lemma gone_ok {N} c Q y i : acct N c Q Q -> sim c (Q spaceApp) y -> (i < 3)%nat -> i <> spaceApp -> exists Q', after N (discardSpace c i) Q' Q' y y /\ Q' spaceApp = Q spaceApp.
Proof.
  intros Ha Hs Hi Hne. unfold discardSpace. destruct (discarded (space c i)); [exists Q; split; [|reflexivity]; split; [apply leads_refl|exact Ha|exact Hs]|]. pose proof (ac_queue _ _ _ Ha i Hi) as Hq. pose proof (shows_ends _ _ _ Hq) as He. rewrite (shows_each _ _ _ _ _ _ Hq) by lia. rewrite (until_all (fun c p => if Sent.inFlight p then flightLess c p else c)).
  pose proof (tot_between flying _ _ _ Hq) as Ht. set (ps := between (Q i) 0 (end_ (sent (space c i)))) in *. destruct (ac_bif _ _ _ Ha) as [Hb Hb2]. pose proof (air_parts c Q Q i Ha Hi) as Hpart.
  assert (forall p, p ∈ ps -> 0 <= size p) as Hsz. { intros p Hp. unfold ps, between in Hp. apply list_elem_of_omap in Hp as (k & _ & Hk). apply (ac_packets _ _ _ Ha i k p Hk). }
  destruct (unflown ps c Hsz ltac:(lia)) as (E1 & E2 & E3). set (c1 := foldl _ c ps) in *. clearbody c1. assert (forall j, space c1 j = space c j) as Esp by (intros j; unfold space; now rewrite E1).
  exists (upd Q i ∅). split; [|unfold upd; now rewrite decide_False by congruence]. split; [apply leads_refl| |split; [cbn; rewrite E3; apply Hs|unfold upd; rewrite decide_False by congruence; apply Hs]].
  assert (i < length (spaces c1))%nat as Hl by (rewrite E1, (ac_three _ _ _ Ha); exact Hi). pose proof Ha as [A1 A2 A3 A4 A5 A6 A7]. split.
  - cbn. now rewrite length_insert, E1.
  - intros j Hj. change (space (set_ptoCount ?x 0) j) with (space x j). rewrite space_on by exact Hl. unfold upd. case_decide; [|rewrite Esp; auto]. rewrite Esp, (shows_fine _ _ _ Hq). exact shows_new.
  - reflexivity.
  - intros j Hj. change (space (set_ptoCount ?x 0) j) with (space x j). rewrite space_on by exact Hl. unfold upd. case_decide; [reflexivity|]. rewrite Esp. auto.
  - rewrite air_upd by exact Hi. change (tot flying ∅) with 0. change (bif (set_ptoCount ?x 0)) with (bif c1). lia.
  - intros j k p. unfold upd. case_decide; [rewrite lookup_empty; discriminate|]. apply A6.
  - intros j Hj. change (space (set_ptoCount ?x 0) j) with (space x j). rewrite space_on by exact Hl. specialize (A7 j Hj). case_decide; [subst j; cbn; lia|]. now rewrite Esp.
Qed.

Lemma confirm_ok {N} c Q y now : acct N c Q Q -> sim c (Q spaceApp) y -> exists Q', after N (confirmHandshake c now) Q' Q' y y /\ Q' spaceApp = Q spaceApp.
Proof.
  intros Ha Hs. unfold confirmHandshake. destruct (_ || _); [exists Q; split; [|reflexivity]; split; [apply leads_refl|exact Ha|exact Hs]|]. destruct (gone_ok (N := N) (set_confirmed c true) Q y spaceHandshake) as (Q' & H & E); [apply (acct_same c); [now split|exact Ha]|exact Hs|unfold spaceHandshake; lia|discriminate|]. exists Q'. split; [|exact E]. set (c1 := discardSpace _ _) in *. clearbody c1.
  refine (after_same c1 _ _ _ _ _ _ _ H); [|reflexivity]. eapply kept_trans; [apply way_same; apply startMTU_bif|now split].
Qed.

(** An ACK frame, of packets that were sent. *)
Lemma onAcks_ok {N} c Q U i largest acked ackDelay now y :
  acct N c Q U -> sim c (U spaceApp) y -> (i < 3)%nat -> (forall j, U j = Q j \/ j = i) -> taken (U i) acked -> Q i = without (U i) acked -> exists Q' y', after N (onAcks MI MIU Cbrt c i largest acked ackDelay now) Q' Q' y y'.
Proof.
  intros Ha Hs Hi HU Ht HQ. unfold onAcks. set (sampled := match list.last acked with Some p => (pn p =? largest) && _ | None => false end). match goal with |- context [limited (cc (way ?x))] => set (c1 := x) end. assert (after N c1 Q U y y) as H1. { refine (after_same c _ _ _ _ _ _ _ (Build_after _ _ _ _ _ (leads_refl y) Ha Hs)); unfold c1; destruct (list.last acked); [destruct sampled| |destruct sampled|]; try reflexivity; now split. }
  clearbody c1. set (lim := limited _ _ _). set (c2 := if (i =? spaceApp)%nat then set_way _ _ else c1). assert (after N c2 Q U y y) as H2 by (unfold c2; destruct (i =? spaceApp)%nat; [|exact H1]; refine (after_same c1 _ _ _ _ _ _ _ H1); [apply way_same; apply mtuAckeds_bif|reflexivity]). clearbody c2.
  destruct (detectLost_ok c2 Q U i now y (af_acct _ _ _ _ _ H2) (af_sim _ _ _ _ _ H2) Hi) as (y3 & lost & Hlost & H3). set (c3 := detectLost c2 i now) in *. clearbody c3. set (c4 := if (i =? spaceApp)%nat then onCC c3 _ else c3). assert (after N c4 (upd Q i (without (Q i) lost)) (upd U i (without (U i) lost)) y y3) as H4 by (unfold c4; destruct (i =? spaceApp)%nat; [|exact H3]; refine (after_same c3 _ _ _ _ _ _ _ H3); [apply cc_same; intros; apply hystartAck_bif|reflexivity]). clearbody c4.
  rewrite HQ in Hlost. destruct (taken_swap _ _ _ Ht Hlost) as [_ Ht4].
  destruct (resolve_all (ackedOne MI MIU Cbrt i now lim) i acked Hi ltac:(intros; split; [now apply ackedOne_fewer|right; apply ackedOne_strs]) c4 _ _ y3 (af_acct _ _ _ _ _ H4) (af_sim _ _ _ _ _ H4)) as (y5 & H5); [now rewrite upd_eq| |].
  { intros p Hp. rewrite upd_eq, HQ, without_swap, lookup_without, decide_True; [reflexivity|]. apply list_elem_of_fmap. eauto. }
  set (c5 := foldl _ c4 acked) in *. clearbody c5. set (Q5 := upd Q i (without (Q i) lost)) in *. assert (after N c5 Q5 Q5 y y5) as H6. { refine (after_trans _ _ _ _ _ _ _ _ _ H4 (after_ext _ _ _ _ _ _ _ (fun _ => eq_refl) _ H5)). intros j. rewrite upd_upd, upd_eq, without_swap, <- HQ. unfold Q5, upd. case_decide as E; [reflexivity|]. destruct (HU j) as [|]; [assumption|contradiction]. }
  set (c6 := if (i =? spaceApp)%nat && (ph_first (phase c5) <=? largest) then _ else _). assert (after N c6 Q5 Q5 y y5) as H7 by (unfold c6; destruct (_ && _); [|exact H6]; refine (after_same c5 _ _ _ _ _ _ _ H6); now try split). clearbody c6.
  match goal with |- context [peerCompletedAddressValidation ?x] => set (c7 := x) end. assert (exists Q', after N c7 Q' Q' y y5) as (Q' & H8). { unfold c7. destruct (_ && _ && _ && _); [|eauto]. destruct (confirm_ok c6 Q5 y5 now (af_acct _ _ _ _ _ H7) (af_sim _ _ _ _ _ H7)) as (Q' & H & _). exists Q'. exact (after_trans _ _ _ _ _ _ _ _ _ H7 H). } clearbody c7.
  exists Q', y5. set (c8 := if peerCompletedAddressValidation c7 then _ else _). assert (after N c8 Q' Q' y y5) as H9 by (unfold c8; destruct (peerCompletedAddressValidation c7); [|exact H8]; refine (after_same c7 _ _ _ _ _ _ _ H8); now try split). destruct (timer_same c8 now) as [A B]. exact (after_same _ _ _ _ _ _ A B H9).
Qed.

Lemma onAckReceived_ok {N} c Q i ranges ackDelay now y :
  acct N c Q Q -> sim c (Q spaceApp) y -> (i < 3)%nat -> match onAckReceived MI MIU Cbrt c i ranges ackDelay now with None => True | Some c' => exists Q' y', after N c' Q' Q' y y' end.
Proof.
  intros Ha Hs Hi. unfold onAckReceived. set (largest := match ranges with r :: _ => _ | [] => _ end). destruct (_ <=? _); [exact I|]. set (c1 := onSpace c i _). assert (acct N c1 Q Q) as H1 by (apply (acct_same c); [apply on_same; intros s; now destruct (_ <? _)|exact Ha]). assert (sim c1 (Q spaceApp) y) as Hs1 by exact Hs. clearbody c1.
  pose proof (ac_queue _ _ _ H1 i Hi) as Hq. destruct (takeRanges_spec (reverse ranges) _ _ _ (Q i) [] Hq eq_refl (taken_nil _)) as (ps & A1 & A2 & A3). cbn [app] in *. destruct (takeRanges (sent (space c1 i)) (reverse ranges) []) as [q acked]. cbn [fst snd] in *. subst acked. destruct (shows_trim _ _ _ A2) as [Hq2 _].
  set (c2 := onSpace c1 i _). assert (acct N c2 (upd Q i (without (Q i) ps)) Q) as H2 by exact (acct_queue c1 Q Q i (fun s => sp_sent s (trim q)) (trim q) _ H1 Hi eq_refl Hq2 (without_sub _ _)). assert (sim c2 (Q spaceApp) y) as Hs2 by exact Hs1. clearbody c2. destruct (Z.eqb_spec (len ps) 0) as [E|E].
  - assert (ps = []) as -> by (destruct ps; [reflexivity|unfold len in E; cbn in E; lia]). exists Q, y. split; [apply leads_refl| |exact Hs2]. exact (acct_ext _ _ _ _ _ (fun j => upd_id Q i j) (fun _ => eq_refl) H2).
  - apply (onAcks_ok c2 _ Q i largest ps ackDelay now y H2 Hs2 Hi); [|exact A3|apply upd_eq]. intros j. unfold upd. case_decide; auto.
Qed.

(** ** Timeouts *)

Lemma probeOther_same i c j : same c (probeOther i c j) /\ strs (probeOther i c j) = strs c.
Proof.
  unfold probeOther. destruct (Send.hasLost _) as [b lost]. destruct (_ && _); [|split; [apply kept_refl|reflexivity]]. set (c1 := onSpace c j _). assert (same c c1) as H1 by now apply on_same. destruct (_ || _); [|now split]. split; [|reflexivity]. eapply kept_trans; [exact H1|now apply on_same].
Qed.

Definition probeOne (i : nat) (st : conn * Z) (p : sentPacket) : conn * Z * bool :=
  let '(c, n) := st in if negb (ackEliciting p) then (st, true) else ((foldl (frameLost i) c (frames p), n + 1), negb (i =? spaceApp)%nat || (n + 1 <? maxProbes)).

Lemma probing_ok {N} i Q U ps : forall c n y, acct N c Q U -> sim c (U spaceApp) y -> (forall p, p ∈ ps -> U i !! pn p = Some p) -> exists y', after N (until (probeOne i) (c, n) ps).1 Q U y y'.
Proof.
  induction ps as [|p ps IH]; intros c n y Ha Hs Hp; cbn [until]; [exists y; split; [apply leads_refl|exact Ha|exact Hs]|]. unfold probeOne at 1. destruct (negb (ackEliciting p)) eqn:E; [apply IH; auto; intros; apply Hp, elem_of_cons; now right|]. set (c1 := foldl (frameLost i) c (frames p)).
  assert (acct N c1 Q U) as Ha1 by (apply (acct_same c); [apply fold_same; intros; apply frameLost_same|exact Ha]). assert (U i !! pn p = Some p) as Hk by (apply Hp, elem_of_cons; now left). assert (strs c1 = QRun.packetLost (strs c) (streamFrames p)) as Es by apply losts_strs.
  assert (exists y1, after N c1 Q U y y1) as (y1 & H1). { destruct (decide (i = spaceApp)) as [->|Hne]; [destruct (sim_probed c c1 _ y _ p Hs Hk Es) as (y1 & A & B); exists y1; now split|]. exists y. split; [apply leads_refl|exact Ha1|]. destruct (ac_packets _ _ _ Ha i _ p Hk) as (_ & _ & Hn). rewrite (Hn Hne) in Es. destruct Hs as [Hs1 Hs2]. split; [rewrite Es; exact Hs1|exact Hs2]. }
  destruct (negb _ || _); [|exists y1; exact H1]. destruct (IH c1 (n + 1) y1 Ha1 (af_sim _ _ _ _ _ H1)) as (y2 & H2); [intros; apply Hp, elem_of_cons; now right|]. exists y2. exact (after_trans _ _ _ _ _ _ _ _ _ H1 H2).
Qed.

Lemma probe_ok {N} c Q i y : acct N c Q Q -> sim c (Q spaceApp) y -> (i < 3)%nat -> exists y', after N (probe_ c i) Q Q y y'.
Proof.
  intros Ha Hs Hi. unfold probe_. set (c1 := onSpace c i _). assert (after N c1 Q Q y y) as H1 by (split; [apply leads_refl|apply (acct_same c); [now apply on_same|exact Ha]|exact Hs]). clearbody c1. set (c2 := foldl (probeOther i) c1 _). assert (after N c2 Q Q y y) as H2. { unfold c2. cbn [foldl]. destruct (probeOther_same i c1 spaceInitial) as [A B]. destruct (probeOther_same i (probeOther i c1 spaceInitial) spaceHandshake) as [C D]. apply (after_same _ _ _ _ _ _ C D), (after_same _ _ _ _ _ _ A B), H1. }
  clearbody c2. pose proof (ac_queue _ _ _ (af_acct _ _ _ _ _ H2) i Hi) as Hq. pose proof (shows_ends _ _ _ Hq). fold (probeOne i). rewrite (shows_each _ _ _ _ (probeOne i) (c2, 0) Hq) by lia.
  match goal with |- context [until ?g ?a ?l] => assert (exists y', after N (until g a l).1 Q Q y y') as (y' & H'); [|exists y'; destruct (until g a l) as [c3 k3]; exact H'] end.
  apply (probing_ok i Q Q); [apply H2|apply H2|]. intros p Hp. apply list_elem_of_omap in Hp as (k & _ & Hk). destruct (ac_packets _ _ _ Ha i k p Hk) as (-> & _). exact Hk.
Qed.

Lemma spaces_fold {A} (g : A -> nat -> A) (P : A -> Prop) l a : P a -> (forall a i, i ∈ l -> P a -> P (g a i)) -> P (foldl g a l).
Proof. revert a. induction l as [|i l IH]; intros a Ha Hg; [exact Ha|]. cbn [foldl]. apply IH; [apply Hg; [apply elem_of_cons; now left|exact Ha]|]. intros b j Hj. apply Hg. apply elem_of_cons. now right. Qed.

Lemma sooner_lt x y b : (x.2 < b)%nat -> (y.2 < b)%nat -> ((sooner x y).2 < b)%nat.
Proof. unfold sooner. intros. repeat case_match; auto. Qed.

Lemma lossTimeSpace_lt c : length (spaces c) = 3%nat -> ((lossTimeSpace c).2 < 3)%nat.
Proof. intros H. unfold lossTimeSpace. rewrite H. apply (spaces_fold _ (fun x => (x.2 < 3)%nat)); [cbn; lia|]. intros x i Hi Hx. apply elem_of_seq in Hi. apply sooner_lt; [exact Hx|cbn; lia]. Qed.

Lemma ptoTimeSpace_lt c now : length (spaces c) = 3%nat -> ((ptoTimeSpace c now).2 < 3)%nat.
Proof.
  intros H. unfold ptoTimeSpace. destruct (negb (anyEliciting c)); [cbn; destruct (tx _); unfold spaceHandshake, spaceInitial; lia|]. rewrite H. apply (spaces_fold _ (fun x => (x.2 < 3)%nat)); [cbn; unfold spaceInitial; lia|]. intros x i Hi Hx. apply elem_of_seq in Hi. destruct (_ =? 0); [exact Hx|]. destruct (_ && _ && _); [exact Hx|]. apply sooner_lt; [exact Hx|cbn; lia].
Qed.

Lemma timeout_ok {N} c Q y now : acct N c Q Q -> sim c (Q spaceApp) y -> exists Q' y', after N (onLossDetectionTimeout c now) Q' Q' y y'.
Proof.
  intros Ha Hs. unfold onLossDetectionTimeout. pose proof (lossTimeSpace_lt c (ac_three _ _ _ Ha)) as Hlt. destruct (lossTimeSpace c) as [[t|] i]; cbn [snd] in Hlt.
  - destruct (detectLost_ok c Q Q i now y Ha Hs Hlt) as (y' & lost & _ & H). eauto.
  - match goal with |- context [set_ptoCount ?x _] => set (c1 := x) end. assert (exists y', after N c1 Q Q y y') as (y' & H).
    { unfold c1. destruct (negb (anyEliciting c)); [exists y; split; [apply leads_refl|apply (acct_same c); [now apply on_same|exact Ha]|exact Hs]|]. set (c2 := if _ && _ && _ && _ then _ else _). apply (probe_ok c2 Q); [|unfold c2; destruct (_ && _ && _ && _); exact Hs|now apply ptoTimeSpace_lt, (ac_three _ _ _ Ha)]. apply (acct_same c); [|exact Ha]. unfold c2. destruct (_ && _ && _ && _); [apply way_same; apply blackHole_bif|apply kept_refl]. }
    exists Q, y'. refine (after_same c1 _ _ _ _ _ _ _ H); now try split.
Qed.

Lemma speedUp_ok {N} c Q y : acct N c Q Q -> sim c (Q spaceApp) y -> exists y', after N (speedUpHandshakeLocked c) Q Q y y'.
Proof.
  intros Ha Hs. unfold speedUpHandshakeLocked. destruct (_ || _); [exists y; split; [apply leads_refl|exact Ha|exact Hs]|]. apply probe_ok; [|exact Hs|unfold spaceInitial; lia]. apply (acct_same c); [now split|exact Ha].
Qed.

(** ** Early data given up *)

Lemma resendOne_ok {N} c Q y k :
  acct N c Q Q -> sim c (Q spaceApp) y -> base (sent (space c spaceApp)) <= k < end_ (sent (space c spaceApp)) ->
  exists Q' y', after N (resendOne c k) Q' Q' y y' /\ base (sent (space (resendOne c k) spaceApp)) = base (sent (space c spaceApp)) /\ end_ (sent (space (resendOne c k) spaceApp)) = end_ (sent (space c spaceApp)).
Proof.
  intros Ha Hs Hk. assert (spaceApp < 3)%nat as Hi by (unfold spaceApp; lia). assert (after N c Q Q y y) as Hsame by (split; [apply leads_refl|exact Ha|exact Hs]). unfold resendOne. pose proof (ac_queue _ _ _ Ha spaceApp Hi) as Hq. rewrite (shows_slot _ _ _ k Hq Hk). destruct (Q spaceApp !! k) as [p|] eqn:Ek; [|eauto 6]. destruct (negb (early p)); [eauto 6|].
  destruct (shows_numbered _ _ _ _ _ Hq Ek) as [Ep _]. subst k. set (c1 := onSpace c spaceApp _). destruct (shows_take _ _ _ (pn p) Hq) as [_ Hq1]. set (q1 := (take_ (sent (space c spaceApp)) (pn p)).2) in *.
  assert (acct N c1 (upd Q spaceApp (delete (pn p) (Q spaceApp))) Q) as H1 by exact (acct_queue c Q Q spaceApp (fun s => sp_sent s (take_ (sent s) (pn p)).2) q1 _ Ha Hi eq_refl Hq1 (delete_subseteq _ _)).
  assert (spaceApp < length (spaces c))%nat as Hl by (rewrite (ac_three _ _ _ Ha); exact Hi). assert (spaceApp < length (spaces c1))%nat as Hl1 by (rewrite (ac_three _ _ _ H1); exact Hi). assert (sent (space c1 spaceApp) = q1) as E1 by (unfold c1; rewrite space_on by exact Hl; reflexivity). assert (sim c1 (Q spaceApp) y) as Hs1 by exact Hs. clearbody c1.
  fold (uncount spaceApp c1 p). match goal with |- context [foldl (frameLost spaceApp) ?x (frames p)] => set (c2 := x) end. set (c3 := foldl _ c2 _). assert (fewer spaceApp p c1 c3) as Hf by (refine (fewer_same _ _ _ c2 _ (fewer_flight spaceApp c1 p Hl1) _); apply fold_same; intros; apply frameLost_same).
  assert (strs c3 = QRun.packetLost (strs c1) (streamFrames p)) as Es. { unfold c3. rewrite losts_strs. f_equal. unfold c2, uncount. now destruct (Sent.inFlight p), (ackEliciting p). }
  destruct (resolve c1 c3 _ Q spaceApp p y H1 Hs1 Hi Hf Ek ltac:(rewrite upd_eq; apply lookup_delete_eq) (or_introl Es)) as (y' & H). eexists _, y'. split; [exact H|]. pose proof (fw_core _ _ _ _ Hf spaceApp) as E. rewrite decide_True in E by reflexivity. injection E as -> _ _. rewrite E1. apply take_ends.
Qed.

Lemma resendEarly_ok {N} c Q y : acct N c Q Q -> sim c (Q spaceApp) y -> exists Q' y', after N (resendEarlyLocked c) Q' Q' y y'.
Proof.
  intros Ha Hs. unfold resendEarlyLocked. set (q := sent (space c spaceApp)). set (ks := seqZ _ _). assert (Forall (fun k => base q <= k < end_ q) ks) as Hk by (apply Forall_forall; intros k Hin; apply elem_of_seqZ in Hin; lia). clearbody ks.
  assert (exists Q' y', after N (foldl resendOne c ks) Q' Q' y y') as (Q' & y' & H).
  { unfold q in Hk. clear q. revert c Q y Ha Hs Hk. induction ks as [|k ks IH]; intros c Q y Ha Hs Hk; [exists Q, y; split; [apply leads_refl|exact Ha|exact Hs]|]. inversion Hk as [|? ? K1 K2]; subst. destruct (resendOne_ok c Q y k Ha Hs K1) as (Q1 & y1 & H1 & E1 & E2). cbn [foldl]. destruct (IH (resendOne c k) Q1 y1 (af_acct _ _ _ _ _ H1) (af_sim _ _ _ _ _ H1)) as (Q2 & y2 & H2); [rewrite E1, E2; exact K2|]. exists Q2, y2. exact (after_trans _ _ _ _ _ _ _ _ _ H1 H2). }
  exists Q', y'. set (c1 := foldl _ c ks) in *. clearbody c1. assert (spaceApp < 3)%nat as Hi by (unfold spaceApp; lia). destruct H as [A1 A2 A3]. destruct (shows_trim _ _ _ (ac_queue _ _ _ A2 spaceApp Hi)) as [Hq _]. split; [exact A1| |exact A3].
  apply (acct_same (onSpace c1 spaceApp (fun s => sp_sent s (trim (sent s))))); [now split|]. refine (acct_ext _ _ _ _ _ (fun j => upd_id Q' spaceApp j) (fun _ => eq_refl) _). exact (acct_queue c1 Q' Q' spaceApp (fun s => sp_sent s (trim (sent s))) _ _ A2 Hi eq_refl Hq (reflexivity _)).
Qed.

(** ** Sending *)

(** A packet leaves, with the next number of its space: the end of buildPacket and
    onPacketSent. *)
Definition leave (c : conn) (i : nat) (p : sentPacket) : option conn := onPacketSent (onSpace c i (fun s => sp_nextPN s (nextPN s + 1))) i p.

Lemma leave_ok {N} c Q y i p :
  acct N c Q Q -> (i < 3)%nat -> pn p = nextPN (space c i) -> pn p < 2 ^ 62 -> 0 <= size p -> N.2 + size p < 2 ^ 64 ->
  (i <> spaceApp -> streamFrames p = []) -> sim c (Q spaceApp) y ->
  exists c' Q', leave c i p = Some c' /\ acct (N.1 + 1, N.2 + size p) c' Q' Q' /\ strs c' = strs c /\ Q' spaceApp = (if (i =? spaceApp)%nat then <[pn p := p]> (Q spaceApp) else Q spaceApp).
Proof.
  intros Ha Hi Hp Hp2 Hsz Hb Hnone Hs. assert (i < length (spaces c))%nat as Hl by (rewrite (ac_three _ _ _ Ha); exact Hi). pose proof (ac_queue _ _ _ Ha i Hi) as Hq. destruct (shows_push _ _ _ p Hq ltac:(lia)) as (q & Epush & Hq1). unfold leave, onPacketSent. set (c0 := onSpace c i _). assert (space c0 i = sp_nextPN (space c i) (nextPN (space c i) + 1)) as E0 by (unfold c0; rewrite space_on by exact Hl; now rewrite decide_True). rewrite E0. cbn [sent sp_nextPN]. rewrite Epush. cbn [mbind option_bind].
  assert (Q i !! pn p = None) as Hnew. { destruct (Q i !! pn p) as [r|] eqn:E; [|reflexivity]. destruct (shows_numbered _ _ _ _ _ Hq E). lia. }
  set (c1 := onSpace c0 i (fun s => sp_sent s q)). set (c2 := if ackEliciting p then _ else c1). set (c3 := if Sent.inFlight p then _ else c2).
  assert (length (spaces c0) = 3%nat) as L0 by (cbn; rewrite length_insert; apply (ac_three _ _ _ Ha)). assert (length (spaces c1) = 3%nat) as L1 by (cbn; rewrite length_insert; exact L0).
  assert (forall j, core (space c1 j) = if decide (j = i) then (q, nextPN (space c i) + 1, ackElicitingInFlight (space c i)) else core (space c j)) as C1. { intros j. unfold c1. rewrite space_on by lia. case_decide; [rewrite E0; reflexivity|]. unfold c0. rewrite space_on by exact Hl. now rewrite decide_False. }
  assert (length (spaces c2) = 3%nat /\ bif c2 = bif c /\ strs c2 = strs c /\ forall j, core (space c2 j) = if decide (j = i) then (q, nextPN (space c i) + 1, ackElicitingInFlight (space c i) + elic p) else core (space c j)) as (L2 & B2 & S2 & C2).
  { unfold c2, elic. destruct (ackEliciting p); [|rewrite Z.add_0_r; auto]. match goal with |- context [negb (since ?x).1] => set (cx := x) end. assert (length (spaces cx) = 3%nat /\ bif cx = bif c /\ strs cx = strs c /\ forall j, core (space cx j) = if decide (j = i) then (q, nextPN (space c i) + 1, ackElicitingInFlight (space c i) + 1) else core (space c j)) as (X1 & X2 & X3 & X4).
    { splits; [cbn; now rewrite length_insert|reflexivity|reflexivity|]. intros j. unfold cx. rewrite space_on by lia. pose proof (C1 j) as E. case_decide; [|exact E]. subst j. injection E as E1 E2 E3. unfold core. cbn. congruence. } destruct (negb _); auto. }
  assert (acct (N.1 + 1, N.2 + size p) c3 (upd Q i (<[pn p := p]> (Q i))) (upd Q i (<[pn p := p]> (Q i))) /\ strs c3 = strs c) as [A3 S3].
  { assert (bif c3 = bif c + flying p /\ same c3 (set_way c2 (way c3))) as [B3 _]. { unfold c3, flying. destruct (Sent.inFlight p); (split; [|now split]); [|lia]. unfold bif in *. cbn. rewrite B2. destruct (ac_bif _ _ _ Ha) as [Hb1 Hb1']. unfold bif in Hb1. pose proof (air_parts c Q Q i Ha Hi). apply u64_id. lia. }
    assert (length (spaces c3) = 3%nat /\ strs c3 = strs c /\ forall j, space c3 j = space c2 j) as (L3 & S3 & E3) by (unfold c3; destruct (Sent.inFlight p); auto). split; [|exact S3]. destruct (ac_bif _ _ _ Ha) as [Hb1 Hb2]. split.
    - exact L3.
    - intros j Hj. rewrite E3. pose proof (C2 j) as E. unfold upd. case_decide; injection E as -> -> _; [|exact (ac_queue _ _ _ Ha j Hj)]. rewrite <- Hp. exact Hq1.
    - reflexivity.
    - intros j Hj. rewrite E3. pose proof (C2 j) as E. unfold upd. case_decide; injection E as _ _ ->; [|exact (ac_elic _ _ _ Ha j Hj)]. rewrite tot_new by exact Hnew. rewrite (ac_elic _ _ _ Ha i Hi). lia.
    - cbn [snd]. rewrite air_upd, tot_new by auto. unfold flying in *. destruct (Sent.inFlight p); lia.
    - intros j k r. unfold upd. case_decide as Ej; [|apply (ac_packets _ _ _ Ha)]. subst j. intros Hr. apply lookup_insert_Some in Hr as [[<- <-]|[_ Hr]]; [auto|exact (ac_packets _ _ _ Ha i k r Hr)].
    - intros j Hj. rewrite E3. pose proof (C2 j) as E. pose proof (ac_next _ _ _ Ha j Hj). pose proof (ac_next _ _ _ Ha i Hi). cbn [fst]. case_decide; injection E as _ -> _; lia. }
  clearbody c3. set (c4 := if (i =? spaceApp)%nat then _ else c3). assert (same c3 c4 /\ strs c4 = strs c3) as [H4 S4]. { unfold c4. destruct (i =? spaceApp)%nat; [|split; [apply kept_refl|reflexivity]]. cbv zeta. destruct (_ && _ && _); now split. }
  clearbody c4. pose proof (acct_same _ _ _ _ H4 A3) as A4. assert (upd Q i (<[pn p:=p]> (Q i)) spaceApp = if (i =? spaceApp)%nat then <[pn p := p]> (Q spaceApp) else Q spaceApp) as EQ by (unfold upd; case_decide as E; [subst i; reflexivity|rewrite (proj2 (Nat.eqb_neq i spaceApp)) by congruence; reflexivity]).
  destruct ((i =? spaceHandshake)%nat && isClient (conf c4) && negb (discarded (space c4 spaceInitial))) eqn:Ed; [|exists c4, (upd Q i (<[pn p := p]> (Q i))); splits; auto; congruence].
  apply andb_true_iff in Ed as [Ed _]. apply andb_true_iff in Ed as [Ed _]. apply Nat.eqb_eq in Ed. subst i. cbn [Nat.eqb spaceHandshake spaceApp] in EQ. destruct (gone_ok c4 _ y spaceInitial A4) as (Q' & [_ A5 [S5 _]] & E5); [split; [rewrite S4, S3; apply Hs|rewrite EQ; apply Hs]|unfold spaceInitial; lia|discriminate|].
  exists (discardSpace c4 spaceInitial), Q'. split; [reflexivity|]. split; [exact A5|]. split; [rewrite <- S5; apply Hs|]. rewrite E5. exact EQ.
Qed.

End Handlers.

End Recover.
