(* ===== verification/QuicReliable.v ===== *)
(** * A QUIC connection with its loss detection, run (src/http3/quic/recovery.go, send.go)

    Packets that leave, are acknowledged by ranges and given up by count and by time,
    with the probe timeouts in between: the streams are run as in [QuicRun], with
    every packet heard of once. *)

From S2P Require Import Prelude QuicRanges QuicSend QuicFrames QuicCid QuicStream QuicConn QuicRun QuicSent QuicCongestion QuicMtu QuicLoss QuicRecover.
From stdpp Require Import base list numbers gmap.
From Stdlib Require Import ZArith Lia.

Local Open Scope Z_scope.
Local Open Scope go_scope.

Module Reliable.
Import Sent Cong Mtu Loss Recover.

(** ** Steps *)

(** The frames of a packet in their order: those of the streams, with others before,
    between and after them. *)
Fixpoint weave (xs : list (option sentFrame)) (q : list QStream.sentFrame) : list sentFrame :=
  match xs with
  | [] => sfOf <$> q
  | Some f :: xs => f :: weave xs q
  | None :: xs => match q with [] => weave xs [] | g :: q => sfOf g :: weave xs q end
  end.

(** A connection, and what the application wrote to each stream, for the statements. *)
Record sys : Type := mkSys { ls_conn : conn; ls_written : Z -> bytes }.

Inductive op : Type :=
  | Streams (o : QRun.op)
  | SendApp (max : Z) (xs : list (option sentFrame)) (ping padded early : bool) (ackOf size time : Z)
  | SendOther (i : nat) (fs : list sentFrame) (ping padded : bool) (ackOf size time : Z)
  | SendProbe (size time : Z)
  | AckFrame (i : nat) (ranges : list Ranges.pnRange) (ackDelay now : Z)
  | Timeout (now : Z)
  | SpeedUp
  | ResendEarly.

(** A record of a packet, as it leaves. *)
Definition record (pn : Z) (fs : list sentFrame) (ping padded early probe : bool) (ackOf size time : Z) : sentPacket :=
  let e := ping || negb (len fs =? 0) in mkSent pn ackOf time size e (e || padded) early probe fs.

Section Config.
Context (W CW MI MIU : Z) (pp : option QStream.peerLimits) (Cbrt : float -> float).

(** Whether the connection goes on; [None] is a panic. *)
Definition call (y : sys) (o : op) : option (sys * bool) :=
  let c := ls_conn y in
  let same c := (mkSys c (ls_written y), true) in
  match o with
  | Streams o => '(z, live) ← QRun.step W CW MI MIU pp (QRun.mkSys (strs c) [] (ls_written y)) o; Some (mkSys (set_strs c (QRun.sy_conn z)) (QRun.sy_written z), live)
  | SendApp max xs ping padded early ackOf size time =>
      '(st, _, q) ← QRun.fillPacket (strs c) max early;
      c ← leave (set_strs c st) spaceApp (record (nextPN (space c spaceApp)) (weave xs q) ping padded early false ackOf size time);
      Some (same c)
  | SendOther i fs ping padded ackOf size time => if discarded (space c i) then Some (same c) else c ← leave c i (record (nextPN (space c i)) fs ping padded false false ackOf size time); Some (same c)
  | SendProbe size time =>
      let p := record (nextPN (space c spaceApp)) [] true false false true 0 size time in
      c ← leave c spaceApp p; Some (same (set_way c (probeSent (way c) (pn p))))
  | AckFrame i ranges ackDelay now => match onAckReceived MI MIU Cbrt c i ranges ackDelay now with Some c => Some (same c) | None => Some (y, false) end
  | Timeout now => Some (same (onLossDetectionTimeout c now))
  | SpeedUp => Some (same (speedUpHandshakeLocked c))
  | ResendEarly => Some (same (resendEarlyLocked c))
  end.

(** An index out of range in a ring is a panic too. *)
Definition step (y : sys) (o : op) : option (sys * bool) :=
  '(y, live) ← call y o; if existsb (fun s => panicked (sent s)) (spaces (ls_conn y)) then None else Some (y, live).

Fixpoint run (y : sys) (ops : list op) : option (sys * bool) :=
  match ops with
  | [] => Some (y, true)
  | o :: ops => match step y o with None => None | Some (y, false) => Some (y, false) | Some (y, true) => run y ops end
  end.

(** The peer's packets and the application's calls. *)
Definition external (o : QRun.op) : Prop := match o with QRun.Flush _ _ | QRun.Acked _ | QRun.Lost _ | QRun.Probed _ => False | _ => True end.

Definition plain (f : sentFrame) : Prop := streamOf f = None.

Definition op_ok (o : op) : Prop :=
  match o with
  | Streams o => external o /\ QRun.op_ok o
  | SendApp _ xs _ _ _ _ size _ => Forall (fun x => match x with Some f => plain f | None => True end) xs /\ 0 <= size
  | SendOther i fs _ _ _ size _ => (i < 2)%nat /\ Forall plain fs /\ 0 <= size
  | SendProbe size _ => 0 <= size
  | AckFrame i _ _ _ => (i < 3)%nat
  | _ => True
  end.

(** What a step adds to what is counted. *)
Definition bytesOf (o : op) : Z := match o with SendApp _ _ _ _ _ _ size _ | SendOther _ _ _ _ _ size _ | SendProbe size _ => size | _ => 0 end.
Definition got (o : op) : Z := match o with Streams o => QRun.got o | _ => 0 end.
Definition gave (o : op) : Z := match o with Streams o => QRun.gave o | _ => 0 end.
Definition sumOf (f : op -> Z) (ops : list op) : Z := foldr (fun o n => f o + n) 0 ops.

Record runnable (ops : list op) : Prop := {
  rn_ops : Forall op_ok ops;
  rn_got : CW * (sumOf got ops + 2) < 2 ^ 62;
  rn_gave : sumOf gave ops < 2 ^ 62;
  rn_bytes : sumOf bytesOf ops < 2 ^ 64;
  rn_count : len ops < 2 ^ 62
}.

(** ** The streams see one of their own runs *)

Lemma weave_streams xs q : Forall (fun x => match x with Some f => plain f | None => True end) xs -> omap streamOf (weave xs q) = q.
Proof.
  intros H. revert q. induction H as [|x xs Hx _ IH]; intros q; cbn [weave].
  - induction q as [|g q IHq]; cbn; [reflexivity|]. now rewrite IHq.
  - destruct x as [f|]; [cbn; rewrite Hx; apply IH|]. destruct q as [|g q]; [apply IH|]. cbn. now rewrite IH.
Qed.

Lemma plain_streams fs : Forall plain fs -> omap streamOf fs = [].
Proof. induction 1 as [|f fs Hf _ IH]; cbn; [reflexivity|]. now rewrite Hf. Qed.

(** The application's calls and the peer's frames do not look at what is on its way. *)
Lemma external_step cn F w o : external o ->
  QRun.step W CW MI MIU pp (QRun.mkSys cn F w) o = match QRun.step W CW MI MIU pp (QRun.mkSys cn [] w) o with Some (z, live) => Some (QRun.mkSys (QRun.sy_conn z) F (QRun.sy_written z), live) | None => None end.
Proof.
  intros Ho. destruct o; cbn [external] in Ho; try contradiction; cbn [QRun.step QRun.sy_conn QRun.sy_flight QRun.sy_written QRun.withConn]; unfold QRun.writeTo, QRun.withConn; cbn [QRun.sy_conn QRun.sy_flight QRun.sy_written]; repeat case_match; simplify_eq; reflexivity.
Qed.

Local Notation leads := (leads W CW MI MIU pp).
Local Notation after := (after W CW MI MIU pp).

(** Where the streams are, and what is counted. *)
Record inv (N : Z * Z) (y : sys) (z : QRun.sys) : Prop := {
  in_acct : exists Q, acct N (ls_conn y) Q Q /\ sim (ls_conn y) (Q spaceApp) z;
  in_written : QRun.sy_written z = ls_written y
}.

Lemma acct_more {N} N' c Q U : acct N c Q U -> N.1 <= N'.1 -> N.2 <= N'.2 < 2 ^ 64 -> acct N' c Q U.
Proof. intros [A1 A2 A3 A4 A5 A6 A7] H1 H2. split; auto; [lia|]. intros i Hi. specialize (A7 i Hi). lia. Qed.

Lemma leads_written z z' : leads z z' -> QRun.sy_written z' = QRun.sy_written z.
Proof.
  intros (ops & Ho & Hr). revert z Hr. induction Ho as [|o ops Ho _ IH]; intros z; cbn [QRun.run]; [now intros [= <-]|]. destruct (QRun.step W CW MI MIU pp z o) as [[z1 []]|] eqn:E; try discriminate. intros Hr. rewrite (IH z1 Hr). destruct o; cbn [internal] in Ho; try contradiction; cbn [QRun.step] in E; case_match; injection E as <-; reflexivity.
Qed.

(** A stretch of a run of the streams, for a step of the connection. *)
Record follows (N : Z * Z) (o : op) (z : QRun.sys) (y' : sys) (live : bool) : Prop := {
  fo_ops : exists qs z' lv, QRun.run W CW MI MIU pp z qs = Some (z', lv) /\ Forall QRun.op_ok qs /\ QRun.sumOf QRun.got qs = got o /\ QRun.sumOf QRun.gave qs = gave o /\ (live = true -> lv = true /\ inv (N.1 + 1, N.2 + bytesOf o) y' z')
}.

Lemma internal_sums ops : Forall internal ops -> Forall QRun.op_ok ops /\ QRun.sumOf QRun.got ops = 0 /\ QRun.sumOf QRun.gave ops = 0.
Proof. induction 1 as [|o ops Ho _ (A & B & C)]; [splits; [constructor|reflexivity..]|]. destruct o; cbn [internal] in Ho; try contradiction; (splits; [now constructor|exact B|exact C]). Qed.

(** A step that only acknowledges, loses and probes. *)
Lemma follow_after N o z c' Q' z' w : leads z z' -> acct N c' Q' Q' -> sim c' (Q' spaceApp) z' -> QRun.sy_written z = w -> got o = 0 -> gave o = 0 -> bytesOf o = 0 -> follows N o z (mkSys c' w) true.
Proof.
  intros Hl Ha Hs Hw E1 E2 E3. pose proof (leads_written _ _ Hl) as Hw'. destruct Hl as (ops & Ho & Hr). destruct (internal_sums ops Ho) as (A & B & C). split. exists ops, z', true. splits; auto; try congruence. intros _. split; [reflexivity|]. split; [|cbn; congruence]. exists Q'. split; [|exact Hs]. cbn [ls_conn]. rewrite E3, Z.add_0_r. apply (acct_more _ _ _ _ Ha); cbn; [lia|]. destruct (ac_bif _ _ _ Ha). lia.
Qed.

Lemma fresh_number c Q N : acct N c Q Q -> Q spaceApp !! nextPN (space c spaceApp) = None.
Proof.
  intros Ha. destruct (Q spaceApp !! nextPN (space c spaceApp)) as [r|] eqn:E; [|reflexivity]. destruct (shows_numbered _ _ _ _ _ (ac_queue _ _ _ Ha spaceApp ltac:(unfold spaceApp; lia)) E). lia.
Qed.

Lemma call_follows N n m y z o :
  QConn.pp_ok pp -> 0 <= W <= 2 ^ 62 -> QRun.good W CW MI MIU n m z -> inv N y z -> op_ok o -> CW * (n + got o + 2) < 2 ^ 62 -> m + gave o < 2 ^ 62 -> N.1 < 2 ^ 62 -> N.2 + bytesOf o < 2 ^ 64 ->
  exists y' live, call y o = Some (y', live) /\ follows N o z y' live.
Proof.
  intros Hpp HW Hg [(Q & Ha & Hs) Hw] Ho Hn Hm HN1 HN2. destruct y as [c w]. cbn [ls_conn ls_written] in *. destruct o as [qo|max xs ping padded early ackOf size time|i fs ping padded ackOf size time|size time|i ranges ackDelay now|now| |]; cbn [call op_ok got gave bytesOf ls_conn ls_written] in *.
  - destruct Ho as [Ho1 Ho2]. destruct (QRun.step_good W CW MI MIU pp n m z qo Hpp HW Hg Ho2 Hn Hm) as (z1 & live & Ez & _). destruct z as [zc zf zw]. destruct Hs as [Hs1 Hs2]. cbn [QRun.sy_conn QRun.sy_flight QRun.sy_written] in *. subst zw zc. rewrite external_step in Ez by exact Ho1. destruct (QRun.step W CW MI MIU pp (QRun.mkSys (strs c) [] w) qo) as [[z2 lv]|] eqn:E2; [|discriminate]. injection Ez as <- <-. cbn [mbind option_bind].
    eexists _, lv. split; [reflexivity|]. split. exists [qo], (QRun.mkSys (QRun.sy_conn z2) zf (QRun.sy_written z2)), lv. split; [cbn [QRun.run]; rewrite external_step, E2 by exact Ho1; now destruct lv|]. split; [now repeat constructor|]. split; [cbn; lia|]. split; [cbn; lia|]. intros ->. split; [reflexivity|]. split; [|reflexivity]. exists Q. split; [|split; [reflexivity|exact Hs2]].
    apply (acct_same c); [now split|]. apply (acct_more _ _ _ _ Ha); cbn; [lia|]. destruct (ac_bif _ _ _ Ha). lia.
  - destruct Ho as [Hx Hsz]. assert (0 <= QRun.sumOf QRun.got []) as _ by (cbn; lia). destruct Hg as [Hinv _]. destruct (QConn.cr_n _ _ _ _ _ _ (QConn.iv_R _ _ _ _ _ _ _ _ _ Hinv)) as (_ & Hn0 & HC). destruct (QRun.fillPacket_ok W CW MI MIU n _ _ _ max early Hinv ltac:(nia)) as (st & b & q & Ef & _ & _). pose proof Hs as [Hs1 Hs2]. rewrite Hs1 in Ef. rewrite Ef. cbn [mbind option_bind].
    set (p := record _ _ _ _ _ _ _ _ _). assert (streamFrames p = q) as Eq by (unfold streamFrames, p; cbn [record frames]; now apply weave_streams). assert (acct N (set_strs c st) Q Q) as Ha1 by (apply (acct_same c); [now split|exact Ha]).
    destruct (leave_ok W CW MI MIU pp (set_strs c st) Q (QRun.mkSys st (QRun.sy_flight z) w) spaceApp p Ha1) as (c' & Q' & -> & A & B & D); [unfold spaceApp; lia|reflexivity|cbn; pose proof (ac_next _ _ _ Ha spaceApp ltac:(unfold spaceApp; lia)); lia|exact Hsz|exact HN2|intros []; reflexivity|split; [reflexivity|exact Hs2]|]. cbn [mbind option_bind].
    eexists _, true. split; [reflexivity|]. split. exists [QRun.Flush max early], (QRun.mkSys st (QRun.sy_flight z ++ [q]) (QRun.sy_written z)), true. split; [cbn [QRun.run QRun.step]; rewrite Hs1, Ef; reflexivity|]. splits; try reflexivity; [now repeat constructor|]. intros _. split; [reflexivity|]. split; [|exact Hw]. exists Q'. split; [exact A|]. rewrite D. cbn [Nat.eqb spaceApp].
    apply (sim_sent c _ _ z _ p); [exact Hs|exact (fresh_number c Q N Ha)|cbn; rewrite B; reflexivity|left; rewrite Eq; reflexivity].
  - destruct Ho as (Hi & Hp & Hsz). destruct (discarded (space c i)).
    { eexists _, true. split; [reflexivity|]. split. exists [], z, true. splits; try reflexivity; [constructor|]. intros _. split; [reflexivity|]. split; [|exact Hw]. exists Q. split; [|exact Hs]. apply (acct_more _ _ _ _ Ha); cbn; [lia|]. destruct (ac_bif _ _ _ Ha). lia. }
    set (p := record _ _ _ _ _ _ _ _ _). destruct (leave_ok W CW MI MIU pp c Q z i p Ha) as (c' & Q' & -> & A & B & D); [lia|reflexivity|cbn; pose proof (ac_next _ _ _ Ha i ltac:(lia)); lia|exact Hsz|exact HN2|intros _; now apply plain_streams|exact Hs|]. cbn [mbind option_bind]. eexists _, true. split; [reflexivity|]. split. exists [], z, true. splits; try reflexivity; [constructor|]. intros _. split; [reflexivity|]. split; [|exact Hw]. exists Q'. split; [exact A|]. rewrite (proj2 (Nat.eqb_neq i spaceApp)) in D by (unfold spaceApp; lia). rewrite D. destruct Hs as [Hs1 Hs2]. split; [cbn; congruence|exact Hs2].
  - set (p := record _ _ _ _ _ _ _ _ _). destruct (leave_ok W CW MI MIU pp c Q z spaceApp p Ha) as (c' & Q' & -> & A & B & D); [unfold spaceApp; lia|reflexivity|cbn; pose proof (ac_next _ _ _ Ha spaceApp ltac:(unfold spaceApp; lia)); lia|exact Ho|exact HN2|intros []; reflexivity|exact Hs|]. cbn [mbind option_bind]. eexists _, true. split; [reflexivity|]. split. exists [], z, true. splits; try reflexivity; [constructor|]. intros _. split; [reflexivity|]. split; [|exact Hw]. exists Q'. split; [apply (acct_same c'); [now apply way_same|exact A]|]. rewrite D. cbn [Nat.eqb spaceApp].
    apply (sim_sent c _ _ z _ p); [exact Hs|exact (fresh_number c Q N Ha)|cbn; rewrite B; symmetry; apply Hs|right; split; reflexivity].
  - pose proof (onAckReceived_ok W CW MI MIU pp Cbrt c Q i ranges ackDelay now z Ha Hs Ho) as H. destruct (onAckReceived MI MIU Cbrt c i ranges ackDelay now) as [c'|].
    + destruct H as (Q' & z' & [L A S]). eexists _, true. split; [reflexivity|]. now apply (follow_after N _ z c' Q' z').
    + eexists _, false. split; [reflexivity|]. split. exists [], z, true. splits; try reflexivity; [constructor|discriminate].
  - destruct (timeout_ok W CW MI MIU pp c Q z now Ha Hs) as (Q' & z' & [L A S]). eexists _, true. split; [reflexivity|]. now apply (follow_after N _ z _ Q' z').
  - destruct (speedUp_ok W CW MI MIU pp c Q z Ha Hs) as (z' & [L A S]). eexists _, true. split; [reflexivity|]. now apply (follow_after N _ z _ Q z').
  - destruct (resendEarly_ok W CW MI MIU pp c Q z Ha Hs) as (Q' & z' & [L A S]). eexists _, true. split; [reflexivity|]. now apply (follow_after N _ z _ Q' z').
Qed.

(** No ring is out of range: while the connection goes on they all show their packets,
    and what ends it leaves them alone. *)
Lemma acct_fine N c Q U : acct N c Q U -> existsb (fun s => panicked (sent s)) (spaces c) = false.
Proof.
  intros H. apply not_true_is_false. intros E. apply existsb_exists in E as (s & Hs & Hp). apply list_elem_of_In, list_elem_of_lookup in Hs as (i & Hi). assert (i < 3)%nat as Hlt by (rewrite <- (ac_three _ _ _ H); exact (lookup_lt_Some _ _ _ Hi)).
  pose proof (shows_fine _ _ _ (ac_queue _ _ _ H i Hlt)) as Hf. unfold space in Hf. rewrite Hi in Hf. cbn in Hf. congruence.
Qed.

Lemma call_ends y o y' : call y o = Some (y', false) -> spaces (ls_conn y') = spaces (ls_conn y).
Proof.
  destruct o; cbn [call]; intros H; try discriminate.
  - destruct (QRun.step _ _ _ _ _ _ _) as [[z lv]|]; [|discriminate]. cbn in H. now injection H as <- ->.
  - destruct (QRun.fillPacket _ _ _) as [[[st b] q]|]; [|discriminate]. cbn in H. destruct (leave _ _ _) in H; discriminate.
  - destruct (discarded _); [discriminate|]. destruct (leave _ _ _) in H; discriminate.
  - destruct (leave _ _ _) in H; discriminate.
  - destruct (onAckReceived _ _ _ _ _ _ _ _); [discriminate|]. now injection H as <-.
Qed.

Lemma step_follows N n m y z o :
  QConn.pp_ok pp -> 0 <= W <= 2 ^ 62 -> QRun.good W CW MI MIU n m z -> inv N y z -> op_ok o -> CW * (n + got o + 2) < 2 ^ 62 -> m + gave o < 2 ^ 62 -> N.1 < 2 ^ 62 -> N.2 + bytesOf o < 2 ^ 64 ->
  exists y' live, step y o = Some (y', live) /\ follows N o z y' live.
Proof.
  intros Hpp HW Hg Hi Ho Hn Hm HN1 HN2. destruct (call_follows N n m y z o Hpp HW Hg Hi Ho Hn Hm HN1 HN2) as (y' & live & E & F). exists y', live. split; [|exact F]. unfold step. rewrite E. cbn.
  destruct live; [destruct F as [(qs & z' & lv & _ & _ & _ & _ & F)]; destruct (F eq_refl) as [_ [(Q & Ha & _) _]]; now rewrite (acct_fine _ _ _ _ Ha)|].
  rewrite (call_ends _ _ _ E). destruct Hi as [(Q & Ha & _) _]. now rewrite (acct_fine _ _ _ _ Ha).
Qed.

Lemma sums_nonneg ops : Forall op_ok ops -> 0 <= sumOf got ops /\ 0 <= sumOf gave ops /\ 0 <= sumOf bytesOf ops.
Proof.
  assert (forall f, Forall (fun o => 0 <= f o) ops -> 0 <= sumOf f ops) as Hpos by (intros f Hf; induction Hf as [|x l Hx _ IHl]; cbn; [lia|]; fold (sumOf f l); lia).
  intros Ho. splits; apply Hpos; eapply Forall_impl; try exact Ho; intros []; cbn; try lia; try (destruct o; cbn; try lia; intros _; apply len_nonneg).
Qed.

Lemma qsum_app f qs rs : QRun.sumOf f (qs ++ rs) = QRun.sumOf f qs + QRun.sumOf f rs.
Proof. induction qs as [|q qs IH]; cbn [QRun.sumOf foldr app]; [reflexivity|]. fold (QRun.sumOf f (qs ++ rs)) (QRun.sumOf f qs). lia. Qed.

Lemma qrun_stop qs : forall z z' rs, QRun.run W CW MI MIU pp z qs = Some (z', false) -> QRun.run W CW MI MIU pp z (qs ++ rs) = Some (z', false).
Proof. induction qs as [|q qs IH]; intros z z' rs; cbn [QRun.run app]; [discriminate|]. destruct (QRun.step W CW MI MIU pp z q) as [[z1 []]|]; try discriminate; auto. Qed.

(** The streams of a run of the connection are those of one of their own. *)
Lemma run_follows ops : forall N n m y z,
  QConn.pp_ok pp -> 0 <= W <= 2 ^ 62 -> QRun.good W CW MI MIU n m z -> inv N y z -> Forall op_ok ops -> CW * (n + sumOf got ops + 2) < 2 ^ 62 -> m + sumOf gave ops < 2 ^ 62 -> N.1 + len ops < 2 ^ 62 -> N.2 + sumOf bytesOf ops < 2 ^ 64 ->
  exists y' live qs z' lv, run y ops = Some (y', live) /\ QRun.run W CW MI MIU pp z qs = Some (z', lv) /\ Forall QRun.op_ok qs /\ QRun.sumOf QRun.got qs <= sumOf got ops /\ QRun.sumOf QRun.gave qs <= sumOf gave ops /\ (live = true -> lv = true /\ exists N', inv N' y' z').
Proof.
  induction ops as [|o ops IH]; intros N n m y z Hpp HW Hg Hi Ho Hn Hm HN1 HN2; cbn [run].
  - exists y, true, [], z, true. splits; try reflexivity; [constructor|]. intros _. eauto.
  - inversion Ho as [|? ? Ho1 Ho2]; subst. destruct (sums_nonneg ops Ho2) as (P1 & P2 & P3). cbn [sumOf foldr] in *. fold (sumOf got ops) (sumOf gave ops) (sumOf bytesOf ops) in *. rewrite len_cons in HN1. pose proof (len_nonneg ops). destruct (QConn.cr_n _ _ _ _ _ _ (QConn.iv_R _ _ _ _ _ _ _ _ _ (QRun.gd_inv _ _ _ _ _ _ _ Hg))) as (_ & _ & HC).
    destruct (step_follows N n m y z o Hpp HW Hg Hi Ho1) as (y1 & live & -> & [(qs & z1 & lv & E1 & E2 & E3 & E4 & E5)]); [nia|lia|lia|lia|]. assert (Forall QRun.op_ok qs) as Hqs by exact E2. destruct live.
    + destruct (E5 eq_refl) as [-> Hi1]. destruct (QRun.run_ok W CW MI MIU pp qs n m z Hpp HW Hg E2) as (z1' & lv' & E1' & Hg1); [rewrite E3; nia|rewrite E4; lia|]. rewrite E1 in E1'. injection E1' as <- <-. specialize (Hg1 eq_refl). rewrite E3, E4 in Hg1.
      destruct (IH (N.1 + 1, N.2 + bytesOf o) _ _ y1 z1 Hpp HW Hg1 Hi1 Ho2) as (y2 & live & rs & z2 & lv & A1 & A2 & A3 & A4 & A5 & A6); [nia|lia|cbn; lia|cbn; lia|]. exists y2, live, (qs ++ rs), z2, lv. split; [exact A1|]. split; [now rewrite (run_app _ _ _ _ _ _ _ _ _ E1)|]. split; [now apply Forall_app|]. rewrite !qsum_app. splits; auto; lia.
    + exists y1, false, qs, z1, lv. splits; auto; try lia; discriminate.
Qed.

(** ** Properties *)

Context (cl : bool) (maxData maxBidi maxUni : Z) (rl gl : list bool).

(** A connection that has sent nothing. *)
Record starts (c : conn) : Prop := {
  st_three : length (spaces c) = 3%nat;
  st_core : forall i, (i < 3)%nat -> core (space c i) = (newQueue, 0, 0);
  st_bif : bif c = 0;
  st_strs : strs c = QRun.newConn CW MI MIU cl maxData maxBidi maxUni rl gl
}.

Lemma starts_inv c : starts c -> inv (0, 0) (mkSys c (fun _ => [])) (QRun.start CW MI MIU cl maxData maxBidi maxUni rl gl).
Proof.
  intros [H1 H2 H3 H4]. split; [|reflexivity]. exists (fun _ => ∅). split.
  - split; cbn [ls_conn]; auto.
    + intros i Hi. pose proof (H2 i Hi) as E. injection E as -> -> _. exact shows_new.
    + intros i Hi. pose proof (H2 i Hi) as E. injection E as _ _ ->. reflexivity.
    + split; [exact H3|]. split; vm_compute; [discriminate|reflexivity].
    + intros i k p Hk. rewrite lookup_empty in Hk. discriminate.
    + intros i Hi. pose proof (H2 i Hi) as E. injection E as _ -> _. reflexivity.
  - split; [cbn; congruence|reflexivity].
Qed.

(** The packets of a space that are neither acknowledged nor lost, in order. *)
Definition waiting (s : pnSpace) : list sentPacket := default [] (each (sent s) (end_ (sent s)) (visit (fun _ => false)) []).

Lemma until_visit ps acc : until (visit (fun _ => false)) acc ps = acc ++ ps.
Proof. revert acc. induction ps as [|p ps IH]; intros acc; cbn; [now rewrite app_nil_r|]. rewrite IH. now rewrite <- app_assoc. Qed.

Lemma waiting_shows s m next : shows (sent s) m next -> waiting s = between m 0 (end_ (sent s)).
Proof. intros H. unfold waiting. pose proof (shows_ends _ _ _ H). rewrite (shows_each _ m next) by (auto; lia). cbn [default]. apply until_visit. Qed.

Lemma waiting_carried s m next : shows (sent s) m next -> streamFrames <$> waiting s ≡ₚ carried m.
Proof. intros H. rewrite (waiting_shows s m next H), (between_perm _ _ _ H). unfold carried. now rewrite <- list_fmap_compose. Qed.

Lemma run_ends c ops :
  QRun.settings W CW MI MIU pp maxData maxBidi maxUni -> runnable ops -> starts c ->
  exists y live, run (mkSys c (fun _ => [])) ops = Some (y, live) /\ (live = true -> exists n m N z, QRun.good W CW MI MIU n m z /\ inv N y z).
Proof.
  intros Hs [R1 R2 R3 R4 R5] Hc. destruct (run_follows ops (0, 0) 0 0 _ _ (QRun.se_params _ _ _ _ _ _ _ _ Hs) (proj1 (QRun.se_window _ _ _ _ _ _ _ _ Hs)) (QRun.start_good _ _ _ _ _ cl _ _ _ rl gl Hs) (starts_inv c Hc) R1) as (y & live & qs & z & lv & A1 & A2 & A3 & A4 & A5 & A6); [cbn; lia..|]. exists y, live. split; [exact A1|]. intros Hl. destruct (A6 Hl) as (-> & N & Hi).
  pose proof (QRun.se_window _ _ _ _ _ _ _ _ Hs) as [_ HC]. assert (QRun.runnable CW qs) as Hq by (split; [exact A3|nia|lia]). destruct (QRun.run_good W CW MI MIU pp cl maxData maxBidi maxUni rl gl qs Hs Hq) as (z' & lv & E & Hg). rewrite A2 in E. injection E as <- <-. eauto 8.
Qed.

(** C2: the streams of a connection, with its packets numbered, kept in their rings, acknowledged by ranges, given up
    for lost by count and by time, probed for and sent again after an early start, see a run in which every packet is
    acknowledged or lost once: no step panics, and after any of them the streams are those of such a run, and the
    frames on their way in it are those of the packets still in the ring. *)
Theorem recovery_refines c ops :
  QRun.settings W CW MI MIU pp maxData maxBidi maxUni -> runnable ops -> starts c ->
  exists y live qs z lv, run (mkSys c (fun _ => [])) ops = Some (y, live) /\ QRun.run W CW MI MIU pp (QRun.start CW MI MIU cl maxData maxBidi maxUni rl gl) qs = Some (z, lv) /\ QRun.runnable CW qs /\
    (live = true -> lv = true /\ QRun.sy_conn z = strs (ls_conn y) /\ QRun.sy_written z = ls_written y /\ busy (QRun.sy_flight z) ≡ₚ busy (streamFrames <$> waiting (space (ls_conn y) spaceApp))).
Proof.
  intros Hs [R1 R2 R3 R4 R5] Hc. destruct (run_follows ops (0, 0) 0 0 _ _ (QRun.se_params _ _ _ _ _ _ _ _ Hs) (proj1 (QRun.se_window _ _ _ _ _ _ _ _ Hs)) (QRun.start_good _ _ _ _ _ cl _ _ _ rl gl Hs) (starts_inv c Hc) R1) as (y & live & qs & z & lv & A1 & A2 & A3 & A4 & A5 & A6); [cbn; lia..|]. exists y, live, qs, z, lv. split; [exact A1|]. split; [exact A2|].
  pose proof (QRun.se_window _ _ _ _ _ _ _ _ Hs) as [_ HC]. split; [split; [exact A3|nia|lia]|]. intros Hl. destruct (A6 Hl) as (-> & N & [(Q & Ha & [S1 S2]) Hw]). splits; auto. rewrite S2. symmetry. apply filter_Permutation. exact (waiting_carried _ _ _ (ac_queue _ _ _ Ha spaceApp ltac:(unfold spaceApp; lia))).
Qed.

Lemma waiting_tot f s m next : shows (sent s) m next -> tot f m = Recover.sumOf f (waiting s).
Proof. intros H. rewrite (waiting_shows s m next H). exact (tot_between f _ m next H). Qed.

(** What is counted of the packets is what is waiting. *)
Definition counted (c : conn) : Prop :=
  (forall i, (i < 3)%nat -> ackElicitingInFlight (space c i) = Recover.sumOf elic (waiting (space c i)) /\ live (sent (space c i)) = len (waiting (space c i))) /\
  bytesInFlight (cc (way c)) = Recover.sumOf flying (waiting (space c spaceInitial)) + Recover.sumOf flying (waiting (space c spaceHandshake)) + Recover.sumOf flying (waiting (space c spaceApp)).

Lemma acct_counted N c Q : acct N c Q Q -> counted c.
Proof.
  intros H. assert (forall i, (i < 3)%nat -> shows (sent (space c i)) (Q i) (nextPN (space c i))) as Hq by apply (ac_queue _ _ _ H). split.
  - intros i Hi. rewrite (ac_elic _ _ _ H i Hi), (waiting_tot elic _ _ _ (Hq i Hi)), (shows_live _ _ _ (Hq i Hi)). split; [reflexivity|]. rewrite (waiting_shows _ _ _ (Hq i Hi)). unfold len. f_equal. rewrite (between_perm _ _ _ (Hq i Hi)), length_fmap. now rewrite length_map_to_list.
  - destruct (ac_bif _ _ _ H) as [Hb _]. unfold bif, air in Hb. rewrite Hb. rewrite (waiting_tot flying _ _ _ (Hq 0%nat ltac:(lia))), (waiting_tot flying _ _ _ (Hq 1%nat ltac:(lia))), (waiting_tot flying _ _ _ (Hq 2%nat ltac:(lia))). reflexivity.
Qed.

(** C6: whatever ACK frames a peer makes up, of packets acknowledged before, of ranges that overlap or were never
    sent, and whenever the timers fire, the counts of a connection stay exact: the packets of each space that ask for
    an acknowledgement, and the bytes in flight that congestion control goes by, are those of the packets waiting in
    the rings; nothing is counted twice or forgotten, and no counter wraps around. *)
Theorem recovery_counts c ops :
  QRun.settings W CW MI MIU pp maxData maxBidi maxUni -> runnable ops -> starts c ->
  exists y live, run (mkSys c (fun _ => [])) ops = Some (y, live) /\ (live = true -> counted (ls_conn y)).
Proof.
  intros Hs Hr Hc. destruct (run_ends c ops Hs Hr Hc) as (y & live & E & H). exists y, live. split; [exact E|]. intros Hl. destruct (H Hl) as (_ & _ & N & z & _ & [(Q & Ha & _) _]). exact (acct_counted N _ Q Ha).
Qed.

(** C7: nothing is forgotten by a connection with its loss detection: whatever is acknowledged, lost, probed for and
    sent again, a stream counts as done only when every byte the application wrote to it and its end were acknowledged,
    or its reset was; and when no packet is waiting in the ring of the application's space and no stream is queued,
    each stream that can be sent on, done or not, is settled: all that was sent of it was acknowledged, which is all
    the application wrote, its end too if it was given, or, of a stream not done, as far as the peer's limits go; or it
    was reset, and the reset was acknowledged. *)
Theorem recovery_quiescent c ops :
  QRun.settings W CW MI MIU pp maxData maxBidi maxUni -> runnable ops -> starts c ->
  exists y live, run (mkSys c (fun _ => [])) ops = Some (y, live) /\
    (live = true -> QRun.accounted (QRun.mkSys (strs (ls_conn y)) [] (ls_written y)) (Sent.live (sent (space (ls_conn y) spaceApp)) = 0)).
Proof.
  intros Hs Hr Hc. destruct (run_ends c ops Hs Hr Hc) as (y & live & E & H). exists y, live. split; [exact E|]. intros Hl. destruct (H Hl) as (n & m & N & z & Hg & [(Q & Ha & [S1 S2]) Hw]). destruct (QRun.good_accounted _ _ _ _ _ _ _ Hg) as [G1 G2].
  unfold QRun.accounted, QRun.completeStream, QRun.settledStream in *. cbn [QRun.sy_conn QRun.sy_written]. rewrite S1, Hw in *. split; [exact G1|]. intros Hq Hz. apply (G2 Hq). assert (spaceApp < 3)%nat as Hi by (unfold spaceApp; lia). pose proof (ac_queue _ _ _ Ha spaceApp Hi) as Hsh. rewrite (shows_live _ _ _ Hsh) in Hz. assert (Q spaceApp = ∅) as EQ by (apply map_size_empty_inv; lia). rewrite EQ in S2. change (busy (carried ∅)) with ([] : list (list QStream.sentFrame)) in S2. apply Permutation_nil_r in S2.
  clear -S2. induction (QRun.sy_flight z) as [|q l IH]; [reflexivity|]. rewrite busy_cons in S2. case_decide as Eq; [|discriminate]. subst q. cbn. auto.
Qed.

End Config.

(** ** What is acknowledged, and what is lost *)

Lemma takeRange_all fuel : forall q m next k m0 acc, shows q m next -> m = without m0 acc -> taken m0 acc ->
  forall p, p ∈ (takeRange fuel q k acc).2 <-> p ∈ acc \/ m !! pn p = Some p /\ k <= pn p < k + Z.of_nat fuel.
Proof.
  induction fuel as [|fuel IH]; intros q m next k m0 acc Hs Em Ht p; cbn [takeRange]; [cbn; split; [auto|intros [|[_ ?]]; [assumption|lia]]|]. destruct (shows_take q m next k Hs) as [Ex Hs']. destruct (take_ q k) as [x q']. cbn [fst snd] in *. destruct x as [r|].
  - symmetry in Ex. destruct (shows_numbered _ _ _ _ _ Hs Ex) as [Er _]. subst k. pose proof Ex as Ex2. rewrite Em in Ex. destruct (taken_snoc _ _ _ Ht Ex) as [Ht' Ew]. rewrite (IH q' (delete (pn r) m) next (pn r + 1) m0 (acc ++ [r]) Hs' ltac:(rewrite Ew; congruence) Ht' p). rewrite elem_of_app, list_elem_of_singleton, lookup_delete_Some. split.
    + intros [[H|H]|[[H1 H2] H3]]; [now left|subst p; right; split; [exact Ex2|lia]|right; split; [exact H2|lia]].
    + intros [H|[H1 H2]]; [tauto|]. destruct (Z.eq_dec (pn p) (pn r)) as [E|E]; [left; right; congruence|right; split; [split; congruence|lia]].
  - rewrite delete_id in Hs' by congruence. rewrite app_nil_r. rewrite (IH q' m next (k + 1) m0 acc Hs' Em Ht p). split; (intros [H|[H1 H2]]; [now left|right; split; [exact H1|]]); [lia|]. destruct (Z.eq_dec (pn p) k) as [E|E]; [congruence|lia].
Qed.

Definition within (p : sentPacket) (r : Ranges.pnRange) : Prop := Ranges.lo r <= pn p <= Ranges.hi r.

Lemma takeRanges_all rs : forall q m next m0 acc, Forall (fun r => Ranges.hi r < 2 ^ 62 /\ 0 <= Ranges.hi r) rs -> shows q m next -> m = without m0 acc -> taken m0 acc ->
  forall p, p ∈ (takeRanges q rs acc).2 <-> p ∈ acc \/ m !! pn p = Some p /\ Exists (within p) rs.
Proof.
  induction rs as [|r rs IH]; intros q m next m0 acc Hr Hs Em Ht p; cbn [takeRanges].
  { cbn. split; [auto|]. intros [|[_ H]]; [assumption|]. now apply Exists_nil in H. }
  inversion Hr as [|? ? [Hr1 Hr0] Hr2]; subst. cbv zeta. set (k := Z.max _ _). set (fuel := Z.to_nat _). pose proof (takeRange_all fuel q _ next k m0 acc Hs eq_refl Ht) as Hall. destruct (takeRange_spec fuel q _ next k m0 acc Hs eq_refl Ht) as (ps & m' & A1 & A2 & A3 & A4). destruct (takeRange fuel q k acc) as [q' acc']. cbn [fst snd] in *. injection A1 as ->.
  rewrite (IH q' m' next m0 (acc ++ ps) Hr2 A2 A3 A4 p), Hall, Exists_cons, A3, (lookup_without m0 (acc ++ ps)). pose proof (shows_ends _ _ _ Hs) as He. assert (forall x, without m0 acc !! pn x = Some x -> (k <= pn x < k + Z.of_nat fuel <-> within x r)) as Hin.
  { intros x Hx. pose proof (shows_range _ _ _ _ _ Hs Hx). unfold within, k, fuel. rewrite u64_id by lia. lia. }
  case_decide as Hd.
  - split; [intros [[H|[H1 H2]]|[H _]]; [now left|right; split; [exact H1|left; now apply Hin]|discriminate]|]. intros [H|[H1 [H2|H2]]]; [tauto|left; right; split; [exact H1|now apply Hin]|]. left. apply list_elem_of_fmap in Hd as (x & Ex & Hx). apply Hall in Hx as [Hx|[Hx Hk]].
    + rewrite lookup_without, decide_True in H1; [discriminate|]. apply list_elem_of_fmap. eauto.
    + right. assert (x = p) as -> by congruence. auto.
  - assert (m0 !! pn p = Some p <-> without m0 acc !! pn p = Some p) as Heq. { rewrite lookup_without, decide_False; [reflexivity|]. intros H. apply Hd. rewrite fmap_app. apply elem_of_app. now left. } rewrite Heq. split.
    + intros [[H|[H1 H2]]|[H1 H2]]; [now left|right; split; [exact H1|left; now apply Hin]|right; split; [exact H1|now right]].
    + intros [H|[H1 [H2|H2]]]; [tauto|left; right; split; [exact H1|now apply Hin]|right; now split].
Qed.

(** An ACK frame takes out of a ring exactly the packets in it that its ranges name, each once, however the ranges
    overlap and whatever else they name. *)
Theorem ack_takes q m next rs :
  shows q m next -> Forall (fun r => Ranges.hi r < 2 ^ 62 /\ 0 <= Ranges.hi r) rs ->
  let '(q', acked) := takeRanges q rs [] in
  shows q' (without m acked) next /\ NoDup acked /\ forall p, p ∈ acked <-> m !! pn p = Some p /\ Exists (within p) rs.
Proof.
  intros Hs Hr. destruct (takeRanges_spec rs q m next m [] Hs eq_refl (taken_nil m)) as (ps & A1 & A2 & A3). pose proof (takeRanges_all rs q m next m [] Hr Hs eq_refl (taken_nil m)) as Hall. destruct (takeRanges q rs []) as [q' acked]. cbn [fst snd app] in *. subst acked. split; [exact A2|]. split; [exact (NoDup_fmap_1 pn _ (proj1 A3))|].
  intros p. rewrite Hall. split; [intros [H|H]; [inversion H|exact H]|auto].
Qed.

(** The loop over the packets up to the largest acknowledged. *)
Lemma detectLoop_all q m next largest delay now :
  shows q m next -> let stop := Z.min (largest + 1) (end_ q) in
  let '(q', loss, lost) := detectLoop (Z.to_nat (stop - base q)) delay (now - delay) largest q (base q) None [] in
  shows q' (without m lost) next /\
  (forall p, p ∈ lost <-> m !! pn p = Some p /\ pn p <= largest /\ (time p <= now - delay \/ pn p + packetThreshold <= largest)) /\
  (forall k p, without m lost !! k = Some p -> k <= largest -> exists t, loss = Some t /\ now < t <= time p + delay) /\
  (forall t, loss = Some t -> exists k p, without m lost !! k = Some p /\ k <= largest /\ t = time p + delay).
Proof.
  intros Hs stop. pose proof (shows_ends _ _ _ Hs) as He. assert (forall p, tooOld (now - delay) largest p = true <-> time p <= now - delay \/ pn p + packetThreshold <= largest) as Hold by (intros p; unfold tooOld; rewrite orb_true_iff, !Z.leb_le; reflexivity).
  set (fuel := Z.to_nat (stop - base q)). assert (forall k p, m !! k = Some p -> k <= largest -> base q <= k < base q + Z.of_nat fuel) as Hin by (intros k p Hk Hl; pose proof (shows_range _ _ _ _ _ Hs Hk); unfold fuel, stop; lia).
  destruct (Z.le_gt_cases (base q) stop) as [Hle|Hgt].
  - pose proof (detectLoop_spec delay (now - delay) largest fuel q m next (base q) None m [] Hs eq_refl (taken_nil m) ltac:(lia) ltac:(lia)) as Hd. destruct (detectLoop fuel _ _ _ q _ None []) as [[q' loss] lost]. destruct Hd as (ps & -> & Hq' & [D1 D2 D3 D4 D5 D6]). cbn [app without foldr] in *. destruct D1 as [D0 D1]. split; [exact Hq'|].
    assert (forall j p, base q <= j < base q + Z.of_nat fuel -> m !! j = Some p -> tooOld (now - delay) largest p = false -> without m ps !! j = Some p) as Hleft. { intros j p Hj Hp Hf. rewrite lookup_without, decide_False; [exact Hp|]. intros Hc. apply list_elem_of_fmap in Hc as (r & Er & Hr). destruct (D2 r Hr) as [_ Hr2]. rewrite List.Forall_forall in D1. specialize (D1 r ltac:(now apply list_elem_of_In)). congruence. }
    assert (forall k p, without m ps !! k = Some p -> m !! k = Some p) as Hw by (intros k p Hk; exact (lookup_weaken _ _ _ _ Hk (without_sub m ps))).
    assert (forall k p, without m ps !! k = Some p -> k <= largest -> tooOld (now - delay) largest p = false) as Hfalse. { intros k p Hk Hl. destruct (tooOld (now - delay) largest p) eqn:E; [|reflexivity]. pose proof (Hw k p Hk) as Hm. assert (p ∈ ps) as Hp by exact (D3 k p (Hin k p Hm Hl) Hm E). destruct (shows_numbered _ _ _ _ _ Hs Hm) as [Ep _]. rewrite lookup_without, decide_True in Hk; [discriminate|]. rewrite <- Ep. apply list_elem_of_fmap. eauto. }
    assert (forall p, tooOld (now - delay) largest p = false -> now < time p + delay) as Hnow by (intros p; unfold tooOld; rewrite orb_false_iff, !Z.leb_gt; lia). splits.
    + intros p. rewrite <- Hold. split.
      * intros Hp. destruct (D2 p Hp) as [H1 H2]. rewrite List.Forall_forall in D1. split; [now apply D1, list_elem_of_In|]. split; [unfold fuel, stop in H1; lia|exact H2].
      * intros (H1 & H2 & H3). exact (D3 (pn p) p (Hin _ _ H1 H2) H1 H3).
    + intros k p Hk Hl. pose proof (Hfalse k p Hk Hl) as Hf. destruct (D4 k p (Hin k p (Hw k p Hk) Hl) (Hw k p Hk) Hf) as (t & E & Ht). exists t. split; [exact E|]. split; [|exact Ht]. destruct (D6 t E) as [|(j & r & _ & _ & Hr & ->)]; [discriminate|]. now apply Hnow.
    + intros t E. destruct (D6 t E) as [|(j & r & H1 & H2 & Hr & ->)]; [discriminate|]. exists j, r. splits; [now apply Hleft|unfold fuel, stop in H1; lia|reflexivity].
  - assert (fuel = 0%nat) as Ef by (unfold fuel; lia). rewrite Ef in *. cbn [detectLoop without foldr]. split; [exact Hs|]. splits; try discriminate.
    + intros p. split; [intros H; inversion H|]. intros (H1 & H2 & _). specialize (Hin _ _ H1 H2). lia.
    + intros k p Hk Hl. specialize (Hin _ _ Hk Hl). lia.
Qed.

(** What becomes of the lost packets' frames is nothing to the rings and the timers. *)
Record keeps (i : nat) (c c' : conn) : Prop := {
  ke_sent : forall j, sent (space c' j) = sent (space c j);
  ke_loss : forall j, lossTime (space c' j) = lossTime (space c j);
  ke_other : forall j, j <> i -> space c' j = space c j
}.

Lemma keeps_same i c c' : spaces c' = spaces c -> keeps i c c'.
Proof. intros E. assert (forall j, space c' j = space c j) as H by (intros j; unfold space; now rewrite E). split; intros j; now rewrite H. Qed.

Lemma keeps_chain i c1 c2 c3 : keeps i c1 c2 -> keeps i c2 c3 -> keeps i c1 c3.
Proof. intros [A1 A2 A3] [B1 B2 B3]. split; intros j; [rewrite B1; apply A1|rewrite B2; apply A2|intros Hj; rewrite (B3 j Hj); auto]. Qed.

Lemma keeps_on i c f : (forall s, sent (f s) = sent s /\ lossTime (f s) = lossTime s) -> keeps i c (onSpace c i f).
Proof.
  intros Hf. assert (forall j, space (onSpace c i f) j = space c j \/ j = i /\ space (onSpace c i f) j = f (space c i)) as H.
  { intros j. unfold onSpace, space. cbn. destruct (decide (j = i)) as [->|Hj]; [|left; now rewrite list_lookup_insert_ne by congruence]. destruct (Nat.lt_ge_cases i (length (spaces c))) as [Hl|Hg]; [right; split; [reflexivity|now rewrite list_lookup_insert_eq]|left; now rewrite list_insert_ge]. }
  split; intros j; destruct (H j) as [->|[-> ->]]; auto; try apply Hf. congruence.
Qed.

Lemma keeps_frames i fs c : keeps i c (foldl (frameLost i) c fs).
Proof.
  revert c. induction fs as [|f fs IH]; intros c; cbn [foldl]; [now apply keeps_same|]. refine (keeps_chain _ _ _ _ _ (IH _)). destruct f; cbn [frameLost]; try (now apply keeps_same). apply keeps_on. now intros.
Qed.

Lemma keeps_one i now st p : keeps i st.1 (lostOne i now st p).1.
Proof.
  destruct st as [c last]. cbn [lostOne fst]. set (c1 := if ackEliciting p then _ else c). assert (keeps i c c1) as H1 by (unfold c1; destruct (ackEliciting p); [apply keeps_on; now intros|now apply keeps_same]). clearbody c1.
  destruct (if Sent.inFlight p then _ else _) as [c2 last2] eqn:E2. assert (spaces c2 = spaces c1) as E by (destruct (Sent.inFlight p); now injection E2 as <- _). cbn [fst]. refine (keeps_chain _ _ _ _ H1 (keeps_chain _ _ _ _ (keeps_same _ _ _ E) _)). refine (keeps_chain _ _ _ _ _ (keeps_frames _ _ _)). now destruct (_ =? _)%nat; apply keeps_same.
Qed.

Lemma keeps_lostAll i now lost c : keeps i c (lostAll c i now lost).
Proof.
  unfold lostAll. destruct (_ =? _); [now apply keeps_same|]. destruct (foldl (lostOne i now) (c, None) lost) as [c1 last] eqn:E.
  assert (forall l st, keeps i st.1 (foldl (lostOne i now) st l).1) as Hf by (intros l; induction l as [|p l IH]; intros st; cbn [foldl]; [now apply keeps_same|]; exact (keeps_chain _ _ _ _ (keeps_one i now st p) (IH _))).
  specialize (Hf lost (c, None)). rewrite E in Hf. refine (keeps_chain _ _ _ _ Hf _). cbn [fst]. apply keeps_same. unfold askForAcks. destruct last; repeat case_match; reflexivity.
Qed.

(** Whether a packet is past waiting for, [largest] being acknowledged. *)
Definition overdue (largest delay now : Z) (p : sentPacket) : bool := (pn p <=? largest) && ((time p <=? now - delay) || (pn p + 3 <=? largest)).

(** C23: loss detection in one of the spaces takes out of its ring exactly the packets numbered up to the largest
    acknowledged that are three or more numbers behind it, or were sent the loss delay or longer ago, which is nine
    eighths of the larger of the latest and the smoothed round-trip time, and a millisecond at least. The loss timer of
    the space is left set to the first time, not yet past, at which another packet up to the largest acknowledged will
    have waited as long, and not set when there is none. The other spaces are left as they were. *)
Theorem loss_detection c i m next now :
  (i < length (spaces c))%nat -> shows (sent (space c i)) m next -> 0 <= latest (rtt c) < 2 ^ 59 -> 0 <= smoothed (rtt c) < 2 ^ 59 ->
  let delay := Z.max (9 * Z.max (latest (rtt c)) (smoothed (rtt c)) / 8) 1000000 in
  let largest := largestAcked (space c i) in
  let rest := filter (fun kp => overdue largest delay now kp.2 = false) m in
  let c' := detectLost c i now in
  shows (sent (space c' i)) rest next /\
  match lossTime (space c' i) with
  | None => forall k p, rest !! k = Some p -> largest < k
  | Some t => now < t /\ (exists k p, rest !! k = Some p /\ k <= largest /\ t = time p + delay) /\ (forall k p, rest !! k = Some p -> k <= largest -> t <= time p + delay)
  end /\
  (forall j, j <> i -> space c' j = space c j).
Proof.
  intros Hi Hs Hla Hsm delay largest rest c'. assert (forall f j, space (onSpace c i f) j = if decide (j = i) then f (space c i) else space c j) as Hon by (intros f j; rewrite space_on by exact Hi; case_decide; subst; reflexivity).
  unfold c', detectLost. rewrite (Hon _ i), decide_True by reflexivity. change (largestAcked (sp_lossTime _ _)) with largest. destruct (Z.ltb_spec largest 0) as [Hneg|Hpos].
  { split; [|split; [|intros j Hj; now rewrite Hon, decide_False by congruence]]; rewrite Hon, decide_True by reflexivity; cbn.
    - replace rest with m; [exact Hs|]. symmetry. apply map_filter_id. intros k p Hk. destruct (shows_numbered _ _ _ _ _ Hs Hk). unfold overdue. cbn. now rewrite (proj2 (Z.leb_gt _ _)) by lia.
    - intros k p Hk. apply map_lookup_filter_Some in Hk as [Hk _]. destruct (shows_numbered _ _ _ _ _ Hs Hk). lia. }
  change (rtt (onSpace c i _)) with (rtt c). assert (lossDelay (onSpace c i (fun s => sp_lossTime s None)) = delay) as ->. { unfold lossDelay, delay. change (rtt (onSpace c i _)) with (rtt c). unfold timerGranularity. rewrite Frames.i64_id by lia. rewrite Z.quot_div_nonneg by lia. reflexivity. }
  change (sent (sp_lossTime _ None)) with (sent (space c i)). pose proof (detectLoop_all (sent (space c i)) m next largest delay now Hs) as Hd. cbv zeta in Hd. destruct (detectLoop _ _ _ _ _ _ _ _) as [[q' loss] lost]. destruct Hd as (D1 & D2 & D3 & D4).
  set (c1 := onSpace (onSpace c i _) i _). destruct (keeps_lostAll i now lost c1) as [K1 K2 K3]. assert (forall j, space c1 j = if decide (j = i) then sp_lossTime (sp_sent (space c i) (trim q')) loss else space c j) as Hc1.
  { intros j. unfold c1. rewrite space_on by (cbn; now rewrite length_insert). rewrite !Hon. case_decide; [|reflexivity]. now rewrite decide_True. }
  assert (without m lost = rest) as Er.
  { apply map_eq. intros k. rewrite lookup_without. unfold rest. destruct (m !! k) as [p|] eqn:Ek.
    - destruct (shows_numbered _ _ _ _ _ Hs Ek) as [Ep _]. subst k. assert (pn p ∈ pn <$> lost <-> overdue largest delay now p = true) as Hiff.
      { unfold overdue. rewrite andb_true_iff, orb_true_iff, !Z.leb_le. rewrite list_elem_of_fmap. split.
        - intros (x & Ex & Hx). apply D2 in Hx as (H1 & H2 & H3). rewrite <- Ex in *. assert (x = p) as -> by congruence. auto.
        - intros (H1 & H2). exists p. split; [reflexivity|]. apply D2. auto. }
      case_decide as Hd.
      + symmetry. apply map_lookup_filter_None. right. intros x Hx. assert (x = p) as -> by congruence. cbn. apply Hiff in Hd. congruence.
      + symmetry. apply map_lookup_filter_Some. split; [exact Ek|]. cbn. apply not_true_is_false. tauto.
    - assert (filter (fun kp => overdue largest delay now kp.2 = false) m !! k = None) as -> by (apply map_lookup_filter_None; now left). now case_decide. }
  rewrite Er in *. split; [|split].
  - rewrite K1, Hc1, decide_True by reflexivity. cbn. exact (proj1 (shows_trim _ _ _ D1)).
  - rewrite K2, Hc1, decide_True by reflexivity. cbn. destruct loss as [t|].
    + destruct (D4 t eq_refl) as (k & p & Hk & Hl & Et). split; [|split; [eauto 6|]]; [destruct (D3 k p Hk Hl) as (t' & [= <-] & ?); lia|]. intros k2 p2 Hk2 Hl2. destruct (D3 k2 p2 Hk2 Hl2) as (t' & [= <-] & ?). lia.
    + intros k p Hk. destruct (Z.le_gt_cases k largest) as [Hle|]; [|lia]. destruct (D3 k p Hk Hle) as (t' & ? & _). discriminate.
  - intros j Hj. rewrite K3, Hc1, decide_False by congruence. reflexivity.
Qed.

(** ** Witnesses *)

Definition newSpace : pnSpace := mkSpace true false 0 (-1) newQueue 0 None None 0 [] 0 Send.newSend.

(** A server's connection, its handshake over but not confirmed. *)
Definition server : conn :=
  mkConn (mkConfig false false 1472 true (Some (mkPeer (25 * Millisecond) (Some Millisecond) 65527)) true) false [newSpace; newSpace; newSpace] newRTTStats 0
    (mkPath (Some (UDPAddr false true)) (idle None) 1200 (newCongestion CUBIC 1200) false) false (mkPhase 0 0 false) (mkFrequency false false 0 0 0 0) (false, 0) false None 0
    (mkPending false [] false false) (mkAddress true 0 0 true 0 0) (Cid.mkLocalSide false false None 8 [] 0 0 false false [] []) (QRun.newConn 1500 4 3 false 1000 5 5 [] []).

Lemma server_starts : starts 1500 4 3 false 1000 5 5 [] [] server.
Proof. split; try reflexivity. intros i Hi. destruct i as [|[|[|i]]]; [reflexivity..|lia]. Qed.

Definition ms (t : Z) : Z := t * Millisecond.

(** The first packets of an answer are lost, by count, sent again and acknowledged, after a timeout. *)
Definition answered : list op :=
  [Streams (QRun.Packet [0x0a; 0; 3; 1; 2; 3]); Streams (QRun.Write 0 [7; 8; 9] true false);
   SendOther 0 [sfCrypto 0 0] false true 1 1200 (ms 1);
   SendApp 1200 [Some sfNewToken; None] false false false 1 80 (ms 1);
   SendApp 1200 [] true false false 1 40 (ms 2); SendApp 1200 [] true false false 1 40 (ms 3); SendProbe 1472 (ms 4);
   AckFrame 2 [Ranges.mkRange 3 3] 0 (ms 30); SendApp 1200 [] false false false 1 80 (ms 31); Timeout (ms 400); SendApp 1200 [] true false false 1 40 (ms 401);
   AckFrame 2 [Ranges.mkRange 3 5; Ranges.mkRange 0 1] 0 (ms 431); AckFrame 2 [Ranges.mkRange 0 5] 0 (ms 440); AckFrame 0 [Ranges.mkRange 0 0] 0 (ms 450); SpeedUp; ResendEarly; Streams (QRun.Packet [0x0f; 0; 3; 1; 4])].

Lemma answered_runnable : runnable 1500 answered.
Proof.
  split; [|vm_compute; reflexivity..]. repeat (apply List.Forall_cons; [first [exact I|cbn; lia|split; [exact I|split; [now apply bytes_okb_ok|reflexivity]]|split; [repeat constructor|lia]|split; [lia|split; [repeat constructor|lia]]|split; [exact I|exact I]]|]). apply List.Forall_nil.
Qed.

(** Nothing is left in flight, and the stream is done. *)
Example answered_done :
  match run 1000 1500 4 3 QRun.peerGives noCbrt (mkSys server (fun _ => [])) answered with
  | Some (y, live) => (live, waiting (space (ls_conn y) spaceApp), bytesInFlight (cc (way (ls_conn y))), QStream.sendQueue (strs (ls_conn y)), QStream.done <$> QStream.streams (strs (ls_conn y)) !! 0, cwnd (cc (way (ls_conn y))) <? 12000)
      = (true, [], 0, [], Some true, true)
  | None => False
  end.
Proof. vm_compute. reflexivity. Qed.

Lemma recovery_refines_witness :
  exists y live qs z lv, run 1000 1500 4 3 QRun.peerGives noCbrt (mkSys server (fun _ => [])) answered = Some (y, live) /\ QRun.run 1000 1500 4 3 QRun.peerGives (QRun.start 1500 4 3 false 1000 5 5 [] []) qs = Some (z, lv) /\ QRun.runnable 1500 qs /\
    (live = true -> lv = true /\ QRun.sy_conn z = strs (ls_conn y) /\ QRun.sy_written z = ls_written y /\ busy (QRun.sy_flight z) ≡ₚ busy (streamFrames <$> waiting (space (ls_conn y) spaceApp))).
Proof. apply (recovery_refines 1000 1500 4 3 QRun.peerGives noCbrt false 1000 5 5 [] [] server answered QRun.served_settings answered_runnable server_starts). Defined.

Lemma recovery_counts_witness :
  exists y live, run 1000 1500 4 3 QRun.peerGives noCbrt (mkSys server (fun _ => [])) answered = Some (y, live) /\ (live = true -> counted (ls_conn y)).
Proof. apply (recovery_counts 1000 1500 4 3 QRun.peerGives noCbrt false 1000 5 5 [] [] server answered QRun.served_settings answered_runnable server_starts). Defined.

Lemma recovery_quiescent_witness :
  exists y live, run 1000 1500 4 3 QRun.peerGives noCbrt (mkSys server (fun _ => [])) answered = Some (y, live) /\
    (live = true -> QRun.accounted (QRun.mkSys (strs (ls_conn y)) [] (ls_written y)) (Sent.live (sent (space (ls_conn y) spaceApp)) = 0)).
Proof. apply (recovery_quiescent 1000 1500 4 3 QRun.peerGives noCbrt false 1000 5 5 [] [] server answered QRun.served_settings answered_runnable server_starts). Defined.

(** Packets sent a millisecond apart. *)
Definition sentAt (k : Z) : sentPacket := mkSent k 0 (ms k) 1200 true true false false [].
Definition three : packets := <[9 := sentAt 9]> (<[6 := sentAt 6]> (<[5 := sentAt 5]> ∅)).
Definition ring : sentQueue := default newQueue (q ← push newQueue (sentAt 5); q ← push q (sentAt 6); push q (sentAt 9)).

Lemma ring_shows : shows ring three 10.
Proof.
  destruct (shows_push newQueue ∅ 0 (sentAt 5) shows_new ltac:(cbn; lia)) as (q1 & E1 & H1). destruct (shows_push q1 _ _ (sentAt 6) H1 ltac:(cbn; lia)) as (q2 & E2 & H2). destruct (shows_push q2 _ _ (sentAt 9) H2 ltac:(cbn; lia)) as (q3 & E3 & H3).
  unfold ring. rewrite E1. cbn [mbind option_bind]. rewrite E2. cbn [mbind option_bind]. rewrite E3. exact H3.
Qed.

Lemma ack_takes_witness :
  let '(q', acked) := takeRanges ring [Ranges.mkRange 0 5; Ranges.mkRange 5 7] [] in
  shows q' (without three acked) 10 /\ NoDup acked /\ forall p, p ∈ acked <-> three !! pn p = Some p /\ Exists (within p) [Ranges.mkRange 0 5; Ranges.mkRange 5 7].
Proof. apply (ack_takes ring three 10 [Ranges.mkRange 0 5; Ranges.mkRange 5 7] ring_shows). repeat (apply List.Forall_cons; [cbn; lia|]). apply List.Forall_nil. Defined.

(** A server with those packets in flight, of which the peer has 8. *)
Definition behind : conn := onSpace (set_rtt server (mkRtt (ms 8) (ms 7) (ms 1) (ms 5) true (Some 0))) spaceApp (fun s => sp_largest (sp_sent s ring) 8).

(** 5 is too far behind, 6 is waited for until nine milliseconds after it was sent, and
    9 is not yet looked at. *)
Lemma loss_detection_witness :
  let rest := filter (fun kp => overdue 8 (ms 9) (ms 12) kp.2 = false) three in
  let c' := detectLost behind spaceApp (ms 12) in
  (shows (sent (space c' spaceApp)) rest 10 /\
   match lossTime (space c' spaceApp) with
   | None => forall k p, rest !! k = Some p -> 8 < k
   | Some t => ms 12 < t /\ (exists k p, rest !! k = Some p /\ k <= 8 /\ t = time p + ms 9) /\ (forall k p, rest !! k = Some p -> k <= 8 -> t <= time p + ms 9)
   end /\
   (forall j, j <> spaceApp -> space c' j = space behind j)) /\
  lossTime (space c' spaceApp) = Some (ms 15) /\ (map_to_list rest).*1 = [9; 6].
Proof.
  split; [|vm_compute; split; reflexivity]. apply (loss_detection behind spaceApp three 10 (ms 12)); [vm_compute; lia|exact ring_shows|vm_compute; split; congruence|vm_compute; split; congruence].
Defined.

End Reliable.
